(* ===== verification/_CoqProject ===== *)
-Q . S2P
Prelude.v
OrdMap.v
Instruction.v
VoteState.v
VoteTower.v
VoteCredits.v
VoteSlots.v
VoteUpdate.v
VoteAuth.v
Account.v
EpochSchedule.v
Float64.v
Rent.v
Sysvar.v
VoteProgram.v
Message.v
MessageSpec.v
PreAccount.v
ComputeBudget.v
InvokeContext.v
InvokeSpec.v
InvokeExample.v
Nonce.v
System.v
SystemSpec.v
SystemExample.v
Stake.v
StakeActivation.v
ConfigProgram.v
StakeProgram.v
StakeSpec.v
StakeEffects.v
StakeSafety.v
StakeExample.v
StakeRewards.v
RollingBitField.v
BlockhashQueue.v
StatusCache.v
BankForks.v
Replay.v
ReplayExample.v
ForkChoice.v
ForkTree.v
ForkUpdate.v
ForkInvariant.v
ForkVotes.v
ForkLeaf.v
ForkRoot.v
ForkValidity.v
ForkChoiceSpec.v
ForkChoiceExample.v
SlotHistory.v
LatestVotes.v
Progress.v
Tower.v
TowerSafety.v
TowerRestore.v
SwitchFork.v
CollectVotes.v
ReplayVote.v
PropagationSpec.v
TowerExample.v
ProgramAddress.v
SystemCall.v
LookupTable.v
LookupTableSpec.v
LookupTableSafety.v
LookupTableExample.v
BpfLoader.v
BpfLoaderSpec.v
BpfLoaderSafety.v
BpfLoaderExample.v
AccountLocks.v
AccountLocksSpec.v
AccountLocksSafety.v
CostTracker.v
CostTrackerSpec.v
CostTrackerSafety.v
Transaction.v
TransactionSafety.v
