(* ===== verification/Prelude.v ===== *)
(** * Renec ledger: verification development (root file)

    A model of the parts of the ledger that decide what happens to accounts and
    votes: the programs that own accounts, the runtime that runs and checks
    them, the banks that accept transactions, and the consensus of a validator.
    File names below are under [src/].

    ** How the parts interact

    A transaction carries a message: account keys with access rights, and
    instructions. A bank accepts it when its blockhash or durable nonce is
    recent and it has not been processed. Each instruction runs in an invoke
    context: the runtime pushes a frame, calls the program that owns the chain,
    and compares every account with its state before. A program may call other
    programs through the same machinery. Validators replay the blocks, feed the
    votes they find into the fork choice and their progress statistics, and
    record their own vote when the tower allows it; votes are transactions of
    the vote program.

    ** Conventions

    Machine integers are [Z] with the wrap-around, saturation or check of the
    source written out ([add64], [saturating_sub64], [checked_add64]). A 32-byte
    key or hash is the integer that its bytes spell. Fallible code returns
    [outcome]: [Ok], [Err] with the error of the source, or [Panic]. Stateful
    code is in the state and error monad [SE]; [AM] is its instance on the
    accounts of a transaction (a list, so that keyed accounts that name the same
    account share it), [IM] on the invoke context, [LM] on the context with the
    executors. Early returns and [?] are the bind of the monad. Hash maps are
    [gmap]; where the source iterates one, the order is an argument or the
    theorem holds for every order. Third-party code is a class with the laws the
    code relies on ([Bincode], [BitVec], [BpfVm]) or a parameter (SHA-256, the
    curve test, borsh); every property that assumes such laws has a witness with
    a concrete instance. Logging, metrics and timings are left out everywhere.

    ** Foundations

    - [Prelude.v]: integers, [outcome] and [SE] with their notations, the
      tactics [ok_inv], [se_eval], [u64], [zcases], and lemmas on lists.
    - [OrdMap.v]: ordered maps ([BTreeMap]).
    - [Float64.v]: binary64 arithmetic with exactness lemmas.
    - [Instruction.v], [Account.v], [Sysvar.v]: errors, accounts and keyed
      accounts, clock, slot hashes and the sysvar cache
      ([sdk/src/account.rs], [sdk/src/keyed_account.rs],
      [program-runtime/src/sysvar_cache.rs]).
    - [EpochSchedule.v], [Rent.v]: slots and epochs; rent and its collection.

    ** Messages and the runtime

    - [Message.v], [MessageSpec.v]: [sdk/program/src/message/]. Compiling
      instructions keeps each instruction and grants each account exactly the
      access asked for, if no read-only entry is promoted.
    - [PreAccount.v]: [program-runtime/src/pre_account.rs]. The check after an
      instruction accepts exactly the permitted changes.
    - [ComputeBudget.v]: the requests of a message.
    - [InvokeContext.v], [InvokeSpec.v], [InvokeExample.v]:
      [program-runtime/src/invoke_context.rs]. For arbitrary programs, an
      instruction with all its nested invocations conserves lamports, a callee
      has no signature its caller lacks, and the depth limit bounds the nesting
      ([invoke_at] takes the depth as fuel; [invoke_depth_bounded] shows that
      the limit of the compute budget is enough). An example shows what a
      promoted account meta can write.
    - [SystemCall.v]: programs with handlers on accounts run in the invoke
      context; the class [SystemCalls] is what a call of the system program
      promises to the program that makes it, and [invoke_at_system_calls]
      proves that the runtime keeps the promise.
    - [ProgramAddress.v]: derived addresses. The search of the bump seed runs
      over the 255 seeds of the source.

    ** Programs

    For each program: its state and handlers, who must sign for which change,
    and what is conserved.

    - Vote program ([programs/vote/src/]): [VoteState.v] with [VoteTower.v]
      (lockouts), [VoteCredits.v], [VoteSlots.v] (the two-index loop equals its
      specification), [VoteUpdate.v] (whole towers), [VoteAuth.v], and
      [VoteProgram.v] (handlers, dispatch, conservation, authorization).
    - System program and nonces ([runtime/src/system_instruction_processor.rs],
      [nonce_keyed_account.rs]): [Nonce.v], [System.v], [SystemSpec.v],
      [SystemExample.v].
    - Stake program ([programs/stake/src/]): [Stake.v], [StakeActivation.v] (the
      loops over the stake history need as much fuel as the history is long),
      [StakeProgram.v], [StakeSpec.v], [StakeEffects.v], [StakeSafety.v],
      [StakeExample.v], [StakeRewards.v].
    - Config program: [ConfigProgram.v].
    - Address lookup tables ([programs/address-lookup-table/src/]):
      [LookupTable.v], [LookupTableSpec.v], [LookupTableSafety.v],
      [LookupTableExample.v]: the life of a table, lookups that do not change
      within a slot, and no second table at one address from one slot, for
      every history of blocks.
    - BPF loaders ([programs/bpf_loader/src/lib.rs]): [BpfLoader.v],
      [BpfLoaderSpec.v], [BpfLoaderSafety.v], [BpfLoaderExample.v]: only its
      authority changes a program, immutable programs stay, and what is stored
      and run is what the virtual machine verified. These and the lookup tables
      are proved against [SystemCalls].

    ** Banks

    - [RollingBitField.v], [BlockhashQueue.v], [StatusCache.v]: the data
      structures of a bank, the first and the last as refinements of a set and
      of a log.
    - [BankForks.v], [Replay.v], [ReplayExample.v]: [runtime/src/bank.rs] as
      far as acceptance, ticks and roots go, and [bank_forks.rs]. A step relation
      over banks shows that no transaction is executed twice on a fork.
    - [AccountLocks.v], [AccountLocksSpec.v], [AccountLocksSafety.v]: the account
      locks of [runtime/src/accounts.rs] with [transaction_batch.rs]. However
      batches are prepared, unlocked and dropped, the table refines the list of
      the lock sets held, and no two live transactions conflict. The number of
      live lock sets is assumed to fit 64 bits, as the read counts do.
    - [CostTracker.v], [CostTrackerSpec.v], [CostTrackerSafety.v]: the limits on
      the cost of a block ([runtime/src/cost_tracker.rs],
      [core/src/qos_service.rs]). The tracker is exact however batches are
      selected and settled, if the sums fit 64 bits. Its answers are ones that
      the account locks can take.
    - [Transaction.v], [TransactionSafety.v]: a batch from loading to commit
      ([runtime/src/accounts.rs], [message_processor.rs], [account_rent_state.rs],
      [bank.rs]), on the account locks, the messages and the invoke context
      above. A batch whose locks are held has the results of its transactions
      run one by one, and a transaction is all or nothing but for its fee and
      its nonce. Programs are arbitrary, but keep the addresses of the accounts,
      as the builtin programs here do. An upgradeable program's data account
      is read without a lock of its own: that no transaction of the batch writes
      what another loads in this way is an assumption.

    ** Consensus

    - [ForkChoice.v] with [ForkTree.v], [ForkUpdate.v], [ForkInvariant.v],
      [ForkVotes.v], [ForkLeaf.v], [ForkRoot.v], [ForkValidity.v],
      [ForkChoiceSpec.v], [ForkChoiceExample.v]:
      [core/src/heaviest_subtree_fork_choice.rs]. Every reachable state refines
      the walk down the heaviest valid children. Loops over links and work
      lists have the number of nodes as fuel, which [ForkTree.v] shows to be
      enough.
    - [SlotHistory.v], [LatestVotes.v], [Progress.v], [PropagationSpec.v]:
      [sdk/program/src/slot_history.rs] and the statistics of the replay stage.
    - [Tower.v], [TowerSafety.v], [TowerRestore.v], [SwitchFork.v],
      [CollectVotes.v]: [core/src/consensus.rs].
    - [ReplayVote.v], [TowerExample.v]: [core/src/replay_stage.rs] from the
      statistics of frozen banks to the recorded vote: no vote contradicts an
      earlier lockout.

    ** Not modelled

    The accounts database and snapshots (storage, caches and files; the models
    load and store single accounts), the rest of the bank (epoch boundaries,
    rewards distribution, feature activation), the estimate of a transaction's
    cost, the counters and caches that a commit updates beside the accounts, the
    BPF virtual machine with its system calls, precompiled signature programs, the block
    store and the replay of entries, the leader schedule, proof of history,
    gossip, repair, the thread pipelines of the validator, tower files, RPC,
    clients, wallets and tools. They are I/O, threads, third-party packages or
    clients of the parts above; where a modelled part reads from them, the value
    read is an argument. *)
From Stdlib Require Import ZArith Lia.
From stdpp Require Import base gmap strings sets option numbers sorting list.

Declare Scope renec_scope.
Delimit Scope renec_scope with renec.
#[global] Open Scope Z_scope.

(** ** Machine integers

    Rust integers are [Z] values kept in range by explicit wrap-around. The
    repository sets no [overflow-checks], so the plain operators [+], [-] and
    [*] of the release build wrap; the [checked_*] and [saturating_*] methods
    are written out. *)

Definition U64_MAX : Z := 18446744073709551615.
Definition U32_MAX : Z := 4294967295.
Definition U8_MAX : Z := 255.
Definition U128_MAX : Z := 340282366920938463463374607431768211455.
Definition I64_MAX : Z := 9223372036854775807.
Definition I64_MIN : Z := -9223372036854775808.

Definition in_u64 (z : Z) : Prop := 0 <= z <= U64_MAX.
Definition in_u32 (z : Z) : Prop := 0 <= z <= U32_MAX.
Definition in_u8 (z : Z) : Prop := 0 <= z <= U8_MAX.
Definition in_i64 (z : Z) : Prop := I64_MIN <= z <= I64_MAX.

(** The [as u64], [as u32] and [as u8] casts: truncation to the low bits. *)
Definition as_u64 (z : Z) : Z := z mod 18446744073709551616.
Definition as_u32 (z : Z) : Z := z mod 4294967296.
Definition as_u8 (z : Z) : Z := z mod 256.

Definition add64 (a b : Z) : Z := as_u64 (a + b).
Definition sub64 (a b : Z) : Z := as_u64 (a - b).
Definition mul64 (a b : Z) : Z := as_u64 (a * b).
(** [u64::pow], which wraps like repeated multiplication. *)
Definition pow64 (a n : Z) : Z := as_u64 (a ^ n).

Definition checked_add64 (a b : Z) : option Z :=
  if a + b <=? U64_MAX then Some (a + b) else None.
Definition checked_sub64 (a b : Z) : option Z :=
  if b <=? a then Some (a - b) else None.
Definition checked_mul64 (a b : Z) : option Z :=
  if a * b <=? U64_MAX then Some (a * b) else None.
Definition checked_div64 (a b : Z) : option Z :=
  if b =? 0 then None else Some (a / b).
Definition saturating_add64 (a b : Z) : Z := Z.min (a + b) U64_MAX.
Definition saturating_sub64 (a b : Z) : Z := Z.max (a - b) 0.
Definition saturating_mul64 (a b : Z) : Z := Z.min (a * b) U64_MAX.

Definition checked_add128 (a b : Z) : option Z := if a + b <=? U128_MAX then Some (a + b) else None.
Definition checked_sub128 (a b : Z) : option Z := if b <=? a then Some (a - b) else None.
Definition checked_mul128 (a b : Z) : option Z := if a * b <=? U128_MAX then Some (a * b) else None.
Definition checked_div128 (a b : Z) : option Z := if b =? 0 then None else Some (a / b).
(** The wrapping [+] and [*] of [u128]. *)
Definition add128 (a b : Z) : Z := (a + b) mod (U128_MAX + 1).
Definition mul128 (a b : Z) : Z := (a * b) mod (U128_MAX + 1).

(** Slots, epochs, public keys and hashes. A 32-byte [Pubkey] or [Hash] is the
    integer its bytes spell; the code only compares them and uses the all-zero
    default. *)
Abbreviation Slot := Z (only parsing).
Abbreviation Epoch := Z (only parsing).
Abbreviation UnixTimestamp := Z (only parsing).
Abbreviation Pubkey := Z (only parsing).
Abbreviation Hash := Z (only parsing).
Definition Pubkey_default : Pubkey := 0.
Definition Hash_default : Hash := 0.

(** ** Outcomes

    The result of fallible Rust code: [Ok], [Err] with the error value, or a
    panic ([assert!], [unwrap] on [None], an index out of range). *)
Inductive outcome (E A : Type) : Type :=
| Ok (a : A)
| Err (e : E)
| Panic.
Arguments Ok {_ _} _.
Arguments Err {_ _} _.
Arguments Panic {_ _}.

#[global] Instance outcome_ret {E} : MRet (outcome E) := fun _ a => Ok a.
#[global] Instance outcome_bind {E} : MBind (outcome E) := fun _ _ k m =>
  match m with Ok a => k a | Err e => Err e | Panic => Panic end.

Definition ok_or {E A} (e : E) (o : option A) : outcome E A :=
  match o with Some a => Ok a | None => Err e end.
Definition map_err {E F A} (f : E -> F) (o : outcome E A) : outcome F A :=
  match o with Ok a => Ok a | Err e => Err (f e) | Panic => Panic end.
(** [unwrap]: panics on [None]. *)
Definition unwrap {E A} (o : option A) : outcome E A :=
  match o with Some a => Ok a | None => Panic end.
Definition is_ok {E A} (o : outcome E A) : bool :=
  match o with Ok _ => true | _ => false end.
Definition ok {E A} (o : outcome E A) : option A :=
  match o with Ok a => Some a | _ => None end.

(** The only error of code whose loops run on fuel and that returns no [Result]. *)
Inductive fuel_error : Type := OutOfFuel.

(** ** Stateful fallible code

    [SE S E A] is a computation that mutates a state [S] (the [&mut self] or
    the accounts of a transaction) and returns an outcome. The state is kept on
    an error, as it is in the Rust code: mutations before a [?] stay. *)
Definition SE (S E A : Type) : Type := S -> outcome E A * S.

#[global] Instance SE_ret {S E} : MRet (SE S E) := fun _ a s => (Ok a, s).
#[global] Instance SE_bind {S E} : MBind (SE S E) := fun _ _ k m s =>
  match m s with
  | (Ok a, s') => k a s'
  | (Err e, s') => (Err e, s')
  | (Panic, s') => (Panic, s')
  end.

Definition get {S E} : SE S E S := fun s => (Ok s, s).
Definition put {S E} (s : S) : SE S E unit := fun _ => (Ok tt, s).
Definition modify {S E} (f : S -> S) : SE S E unit := fun s => (Ok tt, f s).
Definition throw {S E A} (e : E) : SE S E A := fun s => (Err e, s).
Definition panic {S E A} : SE S E A := fun s => (Panic, s).
Definition lift {S E A} (o : outcome E A) : SE S E A := fun s => (o, s).
(** [if !c { return Err(e) }] and [assert!(c)]. *)
Definition ensure {S E} (c : bool) (e : E) : SE S E unit :=
  fun s => (if c then Ok tt else Err e, s).
Definition assert {S E} (c : bool) : SE S E unit :=
  fun s => (if c then Ok tt else Panic, s).

(** ** Lemmas on machine integers *)

Create HintDb u64.

Lemma as_u64_range z : in_u64 (as_u64 z).
Proof. unfold in_u64, as_u64, U64_MAX. pose proof (Z.mod_pos_bound z 18446744073709551616). lia. Qed.

Lemma as_u64_small z : in_u64 z -> as_u64 z = z.
Proof. unfold in_u64, as_u64, U64_MAX. intros. apply Z.mod_small. lia. Qed.

Lemma add64_small a b : in_u64 (a + b) -> add64 a b = a + b.
Proof. apply as_u64_small. Qed.

Lemma sub64_small a b : in_u64 (a - b) -> sub64 a b = a - b.
Proof. apply as_u64_small. Qed.

Lemma mul64_small a b : in_u64 (a * b) -> mul64 a b = a * b.
Proof. apply as_u64_small. Qed.

Lemma add64_range a b : in_u64 (add64 a b).
Proof. apply as_u64_range. Qed.

Lemma sub64_range a b : in_u64 (sub64 a b).
Proof. apply as_u64_range. Qed.

Lemma mul64_range a b : in_u64 (mul64 a b).
Proof. apply as_u64_range. Qed.

Lemma checked_add64_Some a b c :
  checked_add64 a b = Some c <-> c = a + b /\ a + b <= U64_MAX.
Proof. unfold checked_add64. destruct (Z.leb_spec (a + b) U64_MAX); naive_solver lia. Qed.

Lemma checked_sub64_Some a b c :
  checked_sub64 a b = Some c <-> c = a - b /\ b <= a.
Proof. unfold checked_sub64. destruct (Z.leb_spec b a); naive_solver lia. Qed.

Lemma checked_mul64_Some a b c :
  checked_mul64 a b = Some c <-> c = a * b /\ a * b <= U64_MAX.
Proof. unfold checked_mul64. destruct (Z.leb_spec (a * b) U64_MAX); naive_solver lia. Qed.

Lemma checked_add128_Some a b c : checked_add128 a b = Some c <-> c = a + b /\ a + b <= U128_MAX.
Proof. unfold checked_add128. destruct (Z.leb_spec (a + b) U128_MAX); naive_solver lia. Qed.

Lemma checked_sub128_Some a b c : checked_sub128 a b = Some c <-> c = a - b /\ b <= a.
Proof. unfold checked_sub128. destruct (Z.leb_spec b a); naive_solver lia. Qed.

Lemma checked_mul128_Some a b c : checked_mul128 a b = Some c <-> c = a * b /\ a * b <= U128_MAX.
Proof. unfold checked_mul128. destruct (Z.leb_spec (a * b) U128_MAX); naive_solver lia. Qed.

Lemma checked_div128_Some a b c : checked_div128 a b = Some c <-> c = a / b /\ b ≠ 0.
Proof. unfold checked_div128. destruct (Z.eqb_spec b 0); naive_solver lia. Qed.

#[export] Hint Resolve as_u64_range add64_range sub64_range mul64_range : u64.

(** [lia] after unfolding the ranges and the saturating operations. *)
Ltac u64 :=
  unfold in_u64, in_u32, in_u8, saturating_add64, saturating_sub64, saturating_mul64,
    U64_MAX, U32_MAX, U8_MAX in *; lia.

(** Splits every boolean integer comparison in the goal or in [H]. *)
Ltac zcases :=
  repeat match goal with
  | |- context [Z.ltb ?a ?b] => destruct (Z.ltb_spec a b)
  | |- context [Z.leb ?a ?b] => destruct (Z.leb_spec a b)
  | |- context [Z.eqb ?a ?b] => destruct (Z.eqb_spec a b)
  end.

Ltac zcases_in H :=
  repeat match type of H with
  | context [Z.ltb ?a ?b] => destruct (Z.ltb_spec a b)
  | context [Z.leb ?a ?b] => destruct (Z.leb_spec a b)
  | context [Z.eqb ?a ?b] => destruct (Z.eqb_spec a b)
  end.

(** ** Lemmas on outcomes and stateful code *)

Lemma outcome_bind_Ok {E A B} (m : outcome E A) (k : A -> outcome E B) b :
  m ≫= k = Ok b <-> exists a, m = Ok a /\ k a = Ok b.
Proof. destruct m; cbn; naive_solver. Qed.

Lemma SE_bind_Ok {S E A B} (m : SE S E A) (k : A -> SE S E B) s b s' :
  (m ≫= k) s = (Ok b, s') <-> exists a s1, m s = (Ok a, s1) /\ k a s1 = (Ok b, s').
Proof. unfold mbind, SE_bind. destruct (m s) as [[]]; naive_solver. Qed.

Lemma SE_ret_Ok {S E A} (a : A) (s : S) b s' :
  (mret a : SE S E A) s = (Ok b, s') <-> b = a /\ s' = s.
Proof. unfold mret, SE_ret. naive_solver. Qed.

Lemma ensure_Ok {S E} c (e : E) (s : S) u s' :
  ensure c e s = (Ok u, s') <-> c = true /\ s' = s.
Proof. unfold ensure. destruct c, u; naive_solver. Qed.

Lemma assert_Ok {S E} c (s : S) u s' :
  assert (E := E) c s = (Ok u, s') <-> c = true /\ s' = s.
Proof. unfold assert. destruct c, u; naive_solver. Qed.

Lemma lift_Ok {S E A} (o : outcome E A) (s : S) a s' :
  lift o s = (Ok a, s') <-> o = Ok a /\ s' = s.
Proof. unfold lift. naive_solver. Qed.

Lemma get_Ok {S E} (s : S) a s' : get (E := E) s = (Ok a, s') <-> a = s /\ s' = s.
Proof. unfold get. naive_solver. Qed.

Lemma put_Ok {S E} (s0 s : S) u s' : put (E := E) s0 s = (Ok u, s') <-> s' = s0.
Proof. unfold put. destruct u. naive_solver. Qed.

Lemma modify_Ok {S E} (f : S -> S) s u s' : modify (E := E) f s = (Ok u, s') <-> s' = f s.
Proof. unfold modify. destruct u. naive_solver. Qed.

Lemma ok_or_Ok {E A} (e : E) (o : option A) a : ok_or e o = Ok a <-> o = Some a.
Proof. destruct o; naive_solver. Qed.

Lemma unwrap_Ok {E A} (o : option A) a : unwrap (E := E) o = Ok a <-> o = Some a.
Proof. destruct o; naive_solver. Qed.

Lemma map_err_Ok {E F A} (f : E -> F) (o : outcome E A) a : map_err f o = Ok a <-> o = Ok a.
Proof. destruct o; naive_solver. Qed.

(** Decomposes the hypotheses that say a computation returned [Ok]. *)
Ltac ok_step :=
  match goal with
  | H : mbind _ _ _ = (Ok _, _) |- _ => apply SE_bind_Ok in H as (? & ? & ? & ?)
  | H : mbind _ _ = Ok _ |- _ => apply outcome_bind_Ok in H as (? & ? & ?)
  | H : mret _ _ = (Ok _, _) |- _ => apply SE_ret_Ok in H as [? ?]; subst
  | H : ensure _ _ _ = (Ok _, _) |- _ => apply ensure_Ok in H as [? ?]; subst
  | H : assert _ _ = (Ok _, _) |- _ => apply assert_Ok in H as [? ?]; subst
  | H : lift _ _ = (Ok _, _) |- _ => apply lift_Ok in H as [? ?]; subst
  | H : get _ = (Ok _, _) |- _ => apply get_Ok in H as [? ?]; subst
  | H : put _ _ = (Ok _, _) |- _ => apply put_Ok in H; subst
  | H : modify _ _ = (Ok _, _) |- _ => apply modify_Ok in H; subst
  | H : throw _ _ = (Ok _, _) |- _ => discriminate H
  | H : panic _ = (Ok _, _) |- _ => discriminate H
  | H : ok_or _ _ = Ok _ |- _ => apply ok_or_Ok in H
  | H : unwrap _ = Ok _ |- _ => apply unwrap_Ok in H
  | H : map_err _ _ = Ok _ |- _ => apply map_err_Ok in H
  | H : Ok _ = Ok _ |- _ => simplify_eq
  | H : Err _ = Ok _ |- _ => discriminate H
  | H : Panic = Ok _ |- _ => discriminate H
  | H : (Ok _, _) = (Ok _, _) |- _ => simplify_eq
  | H : bool_decide _ = true |- _ => apply bool_decide_eq_true in H
  | H : bool_decide _ = false |- _ => apply bool_decide_eq_false in H
  | H : negb _ = true |- _ => apply negb_true_iff in H
  | H : negb _ = false |- _ => apply negb_false_iff in H
  | H : (Err _, _) = (Ok _, _) |- _ => discriminate H
  | H : (Panic, _) = (Ok _, _) |- _ => discriminate H
  | H : checked_add64 _ _ = Some _ |- _ => apply checked_add64_Some in H as [? ?]; subst
  | H : checked_sub64 _ _ = Some _ |- _ => apply checked_sub64_Some in H as [? ?]; subst
  | H : unit |- _ => destruct H
  end.
Ltac ok_inv := repeat ok_step.

(** Runs the monadic structure of a goal, leaving the program's own functions. *)
Ltac se_eval :=
  cbv beta iota zeta delta [mbind SE_bind mret SE_ret outcome_bind outcome_ret get put modify lift
    ensure assert throw panic].

(** ** Lemmas on lists *)

Lemma last_elem {A} (l : list A) x : last l = Some x -> x ∈ l.
Proof. intros [l' ->]%last_Some. apply elem_of_app. right. left. Qed.

Lemma last_tail {A} (v : A) l x : last l = Some x -> last (v :: l) = Some x.
Proof. destruct l; [done|]. by rewrite last_cons_cons. Qed.

Lemma last_app_singleton_cases {A} (l : list A) : l = [] \/ exists l' x, l = l' ++ [x].
Proof. destruct l as [|x l _] using rev_ind; eauto. Qed.

Lemma StronglySorted_reverse {A} (R : relation A) l : StronglySorted R l -> StronglySorted (flip R) (reverse l).
Proof.
  induction l as [|x l IH]; intros Hs; [constructor|]. apply StronglySorted_cons in Hs as [Hx Hs].
  rewrite reverse_cons. apply StronglySorted_app. split_and!; [|by apply IH|repeat constructor].
  intros y z Hy ->%list_elem_of_singleton. rewrite elem_of_reverse in Hy. rewrite Forall_forall in Hx. exact (Hx y Hy).
Qed.

Lemma StronglySorted_lookup {A} (R : A -> A -> Prop) l i j x y :
  StronglySorted R l -> (i < j)%nat -> l !! i = Some x -> l !! j = Some y -> R x y.
Proof.
  intros Hs. revert i j. induction Hs as [|z l Hs IH Hf]; intros i j Hij Hx Hy; [done|].
  destruct j as [|j]; [lia|]. destruct i as [|i]; cbn in *.
  - injection Hx as ->. rewrite Forall_forall in Hf. by eapply Hf, list_elem_of_lookup_2.
  - apply (IH i j); auto. lia.
Qed.

Lemma elem_of_drop_lookup {A} (x : A) n l :
  x ∈ drop n l <-> exists i, l !! i = Some x /\ (n <= i)%nat.
Proof.
  rewrite list_elem_of_lookup. setoid_rewrite lookup_drop. split.
  - intros [i Hi]. exists (n + i)%nat. split; [done|lia].
  - intros (i & Hi & Hle). exists (i - n)%nat. rewrite <- Hi. f_equal. lia.
Qed.

Lemma foldr_min_spec (l : list Z) m0 :
  (foldr Z.min m0 l = m0 \/ foldr Z.min m0 l ∈ l) /\ foldr Z.min m0 l <= m0 /\
  forall x, x ∈ l -> foldr Z.min m0 l <= x.
Proof.
  induction l as [|y l IH]; cbn; [set_solver by lia|]. destruct IH as (IH1 & IH2 & IH3).
  split_and!; [|lia|].
  - destruct (Z.min_spec y (foldr Z.min m0 l)) as [[_ ->]|[_ ->]]; [right; left|].
    destruct IH1 as [->|?]; [by left|]. right. by right.
  - intros x [->|Hx]%elem_of_cons; [lia|]. specialize (IH3 _ Hx). lia.
Qed.

Lemma list_filter_ext {A} (P Q : A -> Prop) `{!forall x, Decision (P x), !forall x, Decision (Q x)} (l : list A) :
  (forall x, x ∈ l -> P x <-> Q x) -> filter P l = filter Q l.
Proof.
  induction l as [|x l IH]; intros Hl; [done|]. rewrite !filter_cons, IH by set_solver.
  specialize (Hl x ltac:(left)). repeat case_decide; tauto.
Qed.

Lemma list_filter_all {A} (P : A -> Prop) `{!forall x, Decision (P x)} (l : list A) :
  (forall x, x ∈ l -> P x) -> filter P l = l.
Proof.
  induction l as [|x l IH]; intros Hl; [done|]. rewrite filter_cons, decide_True, IH; [done|set_solver..].
Qed.

Lemma existsb_ext_elem {A} (f g : A -> bool) (l : list A) : (forall x, x ∈ l -> f x = g x) -> existsb f l = existsb g l.
Proof.
  induction l as [|x l IH]; intros Hl; [done|]. cbn. rewrite Hl, IH by set_solver. done.
Qed.

(** ** Sums over finite maps *)

Section map_sum.
Context `{Countable K} {A : Type}.
Implicit Types (g : K -> A -> Z) (m : gmap K A).

Definition map_sum g m : Z := map_fold (fun k a acc => g k a + acc) 0 m.

Lemma map_sum_empty g : map_sum g ∅ = 0.
Proof. apply map_fold_empty. Qed.

Lemma map_sum_insert_new g m k a : m !! k = None -> map_sum g (<[k := a]> m) = g k a + map_sum g m.
Proof. intros Hk. unfold map_sum. rewrite map_fold_insert_L; [done| |done]. intros. lia. Qed.

Lemma map_sum_insert g m k a :
  map_sum g (<[k := a]> m) = map_sum g m + g k a - from_option (g k) 0 (m !! k).
Proof.
  destruct (m !! k) as [b|] eqn:Hk; cbn; [|rewrite map_sum_insert_new by done; lia].
  pose proof (map_sum_insert_new g (delete k m) k b (lookup_delete_eq _ _)) as E.
  rewrite insert_delete_id in E by done. rewrite <- insert_delete_eq, map_sum_insert_new by apply lookup_delete_eq. lia.
Qed.

Lemma map_sum_ext g g' m : (forall k a, m !! k = Some a -> g k a = g' k a) -> map_sum g m = map_sum g' m.
Proof.
  induction m as [|k a m Hk IH] using map_ind; intros Hg; [by rewrite !map_sum_empty|].
  rewrite !map_sum_insert_new, IH by done || (intros; apply Hg; rewrite lookup_insert_ne; congruence).
  rewrite Hg; [done|apply lookup_insert_eq].
Qed.

Lemma map_sum_add g g' m : map_sum (fun k a => g k a + g' k a) m = map_sum g m + map_sum g' m.
Proof.
  induction m as [|k a m Hk IH] using map_ind; [by rewrite !map_sum_empty|].
  rewrite !map_sum_insert_new, IH by done. lia.
Qed.

Lemma map_sum_zero m : map_sum (fun _ _ => 0) m = 0.
Proof. induction m as [|k a m Hk IH] using map_ind; [apply map_sum_empty|]. by rewrite map_sum_insert_new, IH. Qed.

Lemma map_sum_le g g' m : (forall k a, m !! k = Some a -> g k a <= g' k a) -> map_sum g m <= map_sum g' m.
Proof.
  induction m as [|k a m Hk IH] using map_ind; intros Hg; [by rewrite !map_sum_empty|].
  rewrite !map_sum_insert_new by done. pose proof (Hg k a ltac:(apply lookup_insert_eq)).
  specialize (IH ltac:(intros; apply Hg; rewrite lookup_insert_ne; congruence)). lia.
Qed.

Lemma map_sum_nonneg g m : (forall k a, m !! k = Some a -> 0 <= g k a) -> 0 <= map_sum g m.
Proof. intros Hg. pose proof (map_sum_le (fun _ _ => 0) g m Hg) as H0. by rewrite map_sum_zero in H0. Qed.

End map_sum.

Lemma as_u64_add_l a b : as_u64 (as_u64 a + b) = as_u64 (a + b).
Proof. unfold as_u64. apply Zplus_mod_idemp_l. Qed.

Lemma as_u64_add_r a b : as_u64 (a + as_u64 b) = as_u64 (a + b).
Proof. unfold as_u64. apply Zplus_mod_idemp_r. Qed.

Lemma as_u64_sub_r a b : as_u64 (a - as_u64 b) = as_u64 (a - b).
Proof. unfold as_u64. apply Zminus_mod_idemp_r. Qed.

Lemma as_u64_eq a b q : a = b + q * 18446744073709551616 -> as_u64 a = as_u64 b.
Proof. intros ->. unfold as_u64. by rewrite Z_mod_plus_full. Qed.

Lemma as_u64_split x : exists q, as_u64 x = x + q * 18446744073709551616.
Proof. exists (- (x / 18446744073709551616)). unfold as_u64. pose proof (Z.div_mod x 18446744073709551616). lia. Qed.
