(* ===== verification/OrdMap.v ===== *)
(** * Ordered maps

    [std::collections::BTreeMap] with [u64] keys: the association list of its
    entries in key order, which is what [iter] yields. [bt_sorted] is the
    structural invariant of the Rust type. *)
From stdpp Require Import base list sets sorting.
From S2P Require Import Prelude.

Section btree.
Context {V : Type}.
Implicit Types (m : list (Z * V)) (k : Z) (v : V).

Definition bt_sorted m : Prop := StronglySorted (fun a b => a.1 < b.1) m.

Fixpoint bt_get k m : option V :=
  match m with
  | [] => None
  | (k', v) :: m' => if k =? k' then Some v else bt_get k m'
  end.

Fixpoint bt_insert k v m : list (Z * V) :=
  match m with
  | [] => [(k, v)]
  | (k', v') :: m' =>
      if k <? k' then (k, v) :: m
      else if k =? k' then (k, v) :: m'
      else (k', v') :: bt_insert k v m'
  end.

Fixpoint bt_remove k m : list (Z * V) :=
  match m with
  | [] => []
  | (k', v') :: m' => if k =? k' then m' else (k', v') :: bt_remove k m'
  end.

(** [range(0..k)]: the entries with a key below [k], in order. *)
Definition bt_range_below k m : list (Z * V) := filter (fun e => e.1 < k) m.

Definition bt_contains k m : bool :=
  match bt_get k m with Some _ => true | None => false end.

Lemma bt_get_In k v m : bt_get k m = Some v -> (k, v) ∈ m.
Proof.
  induction m as [|[k' v'] m IH]; cbn; [done|]. destruct (Z.eqb_spec k k').
  - intros [= ->]. subst. left.
  - intros. right. auto.
Qed.

Lemma bt_sorted_head k v m k' v' :
  bt_sorted ((k, v) :: m) -> (k', v') ∈ m -> k < k'.
Proof. intros [_ H]%StronglySorted_inv Hin. by eapply (Forall_forall _ _) in H; last exact Hin. Qed.

Lemma bt_In_get k v m : bt_sorted m -> (k, v) ∈ m -> bt_get k m = Some v.
Proof.
  induction m as [|[k' v'] m IH]; intros Hs Hin; [by apply not_elem_of_nil in Hin|].
  cbn. apply elem_of_cons in Hin as [[= -> ->]|Hin].
  - by rewrite Z.eqb_refl.
  - pose proof (bt_sorted_head _ _ _ _ _ Hs Hin). destruct (Z.eqb_spec k k'); [lia|].
    apply IH; [by apply StronglySorted_inv in Hs as [? _]|done].
Qed.

Lemma bt_get_insert_eq k v m : bt_get k (bt_insert k v m) = Some v.
Proof. induction m as [|[k' v'] m IH]; cbn; zcases; cbn; zcases; naive_solver lia. Qed.

Lemma bt_get_insert_ne k k' v m :
  bt_sorted m -> k' ≠ k -> bt_get k' (bt_insert k v m) = bt_get k' m.
Proof.
  intros Hs Hne. induction m as [|[k1 v1] m IH]; cbn.
  - destruct (Z.eqb_spec k' k); [lia|done].
  - apply StronglySorted_inv in Hs as [Hs _]. zcases; subst; cbn; zcases; auto; lia.
Qed.

Lemma bt_insert_In k v m e : e ∈ bt_insert k v m -> e = (k, v) \/ e ∈ m.
Proof.
  induction m as [|[k1 v1] m IH]; cbn; zcases; rewrite ?elem_of_cons; naive_solver.
Qed.

Lemma bt_insert_sorted k v m : bt_sorted m -> bt_sorted (bt_insert k v m).
Proof.
  induction m as [|[k1 v1] m IH]; intros Hs; cbn; [repeat constructor|].
  pose proof Hs as [Hs1 Hs2]%StronglySorted_inv. zcases; subst.
  - constructor; [done|]. constructor; [done|].
    eapply Forall_impl; [exact Hs2|]. cbn. lia.
  - by constructor.
  - constructor; [by apply IH|]. apply Forall_forall. intros e [->|He]%bt_insert_In; cbn; [lia|].
    by eapply (Forall_forall _ _) in Hs2; last exact He.
Qed.

Lemma bt_insert_not_nil k v m : bt_insert k v m ≠ [].
Proof. destruct m as [|[]]; cbn; zcases; done. Qed.

(** The greatest key is the last one. *)
Lemma bt_last_max m k v k' v' :
  bt_sorted m -> last m = Some (k, v) -> (k', v') ∈ m -> k' <= k.
Proof.
  intros Hs Hl Hin. apply last_Some in Hl as [m' ->].
  apply elem_of_app in Hin as [Hin|Hin];
    [|apply list_elem_of_singleton in Hin as [= -> ->]; lia].
  apply list_elem_of_split in Hin as (m1 & m2 & ->).
  rewrite <- app_assoc in Hs. cbn in Hs.
  assert (bt_sorted ((k', v') :: m2 ++ [(k, v)])) as Hs'.
  { clear -Hs. induction m1; [done|]. by apply IHm1, (StronglySorted_inv Hs). }
  enough (k' < k) by lia. apply (bt_sorted_head _ _ _ k v Hs'). set_solver.
Qed.

Lemma bt_sorted_filter (P : Z * V -> Prop) `{!forall x, Decision (P x)} m :
  bt_sorted m -> bt_sorted (filter P m).
Proof.
  induction m as [|e m IH]; [done|]. intros [Hs Hf]%StronglySorted_inv.
  rewrite filter_cons. case_decide; [|by apply IH]. constructor; [by apply IH|].
  apply Forall_forall. intros x [_ Hx]%list_elem_of_filter.
  by eapply (Forall_forall _ _) in Hf; last exact Hx.
Qed.

Lemma bt_remove_get_eq k m : bt_sorted m -> bt_get k (bt_remove k m) = None.
Proof.
  induction m as [|[k1 v1] m IH]; cbn; [done|]. intros Hs.
  destruct (Z.eqb_spec k k1) as [->|]; cbn.
  - destruct (bt_get k1 m) eqn:E; [|done]. apply bt_get_In in E.
    pose proof (bt_sorted_head _ _ _ _ _ Hs E). lia.
  - destruct (Z.eqb_spec k k1); [done|]. apply IH. by apply StronglySorted_inv in Hs as [? _].
Qed.

End btree.
