(* ===== verification/Instruction.v ===== *)
(** * Instruction errors

    [sdk/program/src/instruction.rs] ([InstructionError]),
    [sdk/program/src/program_error.rs] ([ProgramError] and the conversions
    through the 64-bit return value of a program) and
    [sdk/program/src/lamports.rs]. *)
From stdpp Require Import base strings.
From S2P Require Import Prelude.

Inductive InstructionError : Type :=
| GenericError
| InvalidArgument
| InvalidInstructionData
| InvalidAccountData
| AccountDataTooSmall
| InsufficientFunds
| IncorrectProgramId
| MissingRequiredSignature
| AccountAlreadyInitialized
| UninitializedAccount
| UnbalancedInstruction
| ModifiedProgramId
| ExternalAccountLamportSpend
| ExternalAccountDataModified
| ReadonlyLamportChange
| ReadonlyDataModified
| DuplicateAccountIndex
| ExecutableModified
| RentEpochModified
| NotEnoughAccountKeys
| AccountDataSizeChanged
| AccountNotExecutable
| AccountBorrowFailed
| AccountBorrowOutstanding
| DuplicateAccountOutOfSync
| Custom (code : Z)
| InvalidError
| ExecutableDataModified
| ExecutableLamportChange
| ExecutableAccountNotRentExempt
| UnsupportedProgramId
| CallDepth
| MissingAccount
| ReentrancyNotAllowed
| MaxSeedLengthExceeded
| InvalidSeeds
| InvalidRealloc
| ComputationalBudgetExceeded
| PrivilegeEscalation
| ProgramEnvironmentSetupFailure
| ProgramFailedToComplete
| ProgramFailedToCompile
| Immutable
| IncorrectAuthority
| BorshIoError (msg : string)
| AccountNotRentExempt
| InvalidAccountOwner
| ArithmeticOverflow
| UnsupportedSysvar
| IllegalOwner
| MaxAccountsDataSizeExceeded
| ActiveVoteAccountClose.

(** [From<LamportsError> for InstructionError]: both cases are the same error. *)
Inductive LamportsError : Type := ArithmeticUnderflow_ | ArithmeticOverflow_.

Definition InstructionError_from_lamports (e : LamportsError) : InstructionError :=
  match e with
  | ArithmeticOverflow_ => ArithmeticOverflow
  | ArithmeticUnderflow_ => ArithmeticOverflow
  end.

(** ** Program errors *)

Module ProgramError.

Inductive ProgramError : Type :=
| Custom (code : Z)
| InvalidArgument
| InvalidInstructionData
| InvalidAccountData
| AccountDataTooSmall
| InsufficientFunds
| IncorrectProgramId
| MissingRequiredSignature
| AccountAlreadyInitialized
| UninitializedAccount
| NotEnoughAccountKeys
| AccountBorrowFailed
| MaxSeedLengthExceeded
| InvalidSeeds
| BorshIoError (msg : string)
| AccountNotRentExempt
| UnsupportedSysvar
| IllegalOwner
| MaxAccountsDataSizeExceeded
| ActiveVoteAccountClose.

End ProgramError.

(** Builtin return values occupy the upper 32 bits. *)
Definition BUILTIN_BIT_SHIFT : Z := 32.
Definition to_builtin (error : Z) : Z := Z.shiftl error BUILTIN_BIT_SHIFT.

Definition CUSTOM_ZERO : Z := to_builtin 1.
Definition INVALID_ARGUMENT : Z := to_builtin 2.
Definition INVALID_INSTRUCTION_DATA : Z := to_builtin 3.
Definition INVALID_ACCOUNT_DATA : Z := to_builtin 4.
Definition ACCOUNT_DATA_TOO_SMALL : Z := to_builtin 5.
Definition INSUFFICIENT_FUNDS : Z := to_builtin 6.
Definition INCORRECT_PROGRAM_ID : Z := to_builtin 7.
Definition MISSING_REQUIRED_SIGNATURES : Z := to_builtin 8.
Definition ACCOUNT_ALREADY_INITIALIZED : Z := to_builtin 9.
Definition UNINITIALIZED_ACCOUNT : Z := to_builtin 10.
Definition NOT_ENOUGH_ACCOUNT_KEYS : Z := to_builtin 11.
Definition ACCOUNT_BORROW_FAILED : Z := to_builtin 12.
Definition MAX_SEED_LENGTH_EXCEEDED : Z := to_builtin 13.
Definition INVALID_SEEDS : Z := to_builtin 14.
Definition BORSH_IO_ERROR : Z := to_builtin 15.
Definition ACCOUNT_NOT_RENT_EXEMPT : Z := to_builtin 16.
Definition UNSUPPORTED_SYSVAR : Z := to_builtin 17.
Definition ILLEGAL_OWNER : Z := to_builtin 18.
Definition MAX_ACCOUNTS_DATA_SIZE_EXCEEDED : Z := to_builtin 19.
Definition ACTIVE_VOTE_ACCOUNT_CLOSE : Z := to_builtin 20.

Definition u64_from_ProgramError (error : ProgramError.ProgramError) : Z :=
  match error with
  | ProgramError.InvalidArgument => INVALID_ARGUMENT
  | ProgramError.InvalidInstructionData => INVALID_INSTRUCTION_DATA
  | ProgramError.InvalidAccountData => INVALID_ACCOUNT_DATA
  | ProgramError.AccountDataTooSmall => ACCOUNT_DATA_TOO_SMALL
  | ProgramError.InsufficientFunds => INSUFFICIENT_FUNDS
  | ProgramError.IncorrectProgramId => INCORRECT_PROGRAM_ID
  | ProgramError.MissingRequiredSignature => MISSING_REQUIRED_SIGNATURES
  | ProgramError.AccountAlreadyInitialized => ACCOUNT_ALREADY_INITIALIZED
  | ProgramError.UninitializedAccount => UNINITIALIZED_ACCOUNT
  | ProgramError.NotEnoughAccountKeys => NOT_ENOUGH_ACCOUNT_KEYS
  | ProgramError.AccountBorrowFailed => ACCOUNT_BORROW_FAILED
  | ProgramError.MaxSeedLengthExceeded => MAX_SEED_LENGTH_EXCEEDED
  | ProgramError.InvalidSeeds => INVALID_SEEDS
  | ProgramError.BorshIoError _ => BORSH_IO_ERROR
  | ProgramError.AccountNotRentExempt => ACCOUNT_NOT_RENT_EXEMPT
  | ProgramError.UnsupportedSysvar => UNSUPPORTED_SYSVAR
  | ProgramError.IllegalOwner => ILLEGAL_OWNER
  | ProgramError.MaxAccountsDataSizeExceeded => MAX_ACCOUNTS_DATA_SIZE_EXCEEDED
  | ProgramError.ActiveVoteAccountClose => ACTIVE_VOTE_ACCOUNT_CLOSE
  | ProgramError.Custom error => if error =? 0 then CUSTOM_ZERO else error
  end.

Definition ProgramError_from_u64 (error : Z) : ProgramError.ProgramError :=
  if error =? CUSTOM_ZERO then ProgramError.Custom 0
  else if error =? INVALID_ARGUMENT then ProgramError.InvalidArgument
  else if error =? INVALID_INSTRUCTION_DATA then ProgramError.InvalidInstructionData
  else if error =? INVALID_ACCOUNT_DATA then ProgramError.InvalidAccountData
  else if error =? ACCOUNT_DATA_TOO_SMALL then ProgramError.AccountDataTooSmall
  else if error =? INSUFFICIENT_FUNDS then ProgramError.InsufficientFunds
  else if error =? INCORRECT_PROGRAM_ID then ProgramError.IncorrectProgramId
  else if error =? MISSING_REQUIRED_SIGNATURES then ProgramError.MissingRequiredSignature
  else if error =? ACCOUNT_ALREADY_INITIALIZED then ProgramError.AccountAlreadyInitialized
  else if error =? UNINITIALIZED_ACCOUNT then ProgramError.UninitializedAccount
  else if error =? NOT_ENOUGH_ACCOUNT_KEYS then ProgramError.NotEnoughAccountKeys
  else if error =? ACCOUNT_BORROW_FAILED then ProgramError.AccountBorrowFailed
  else if error =? MAX_SEED_LENGTH_EXCEEDED then ProgramError.MaxSeedLengthExceeded
  else if error =? INVALID_SEEDS then ProgramError.InvalidSeeds
  else if error =? BORSH_IO_ERROR then ProgramError.BorshIoError "Unknown"%string
  else if error =? ACCOUNT_NOT_RENT_EXEMPT then ProgramError.AccountNotRentExempt
  else if error =? UNSUPPORTED_SYSVAR then ProgramError.UnsupportedSysvar
  else if error =? ILLEGAL_OWNER then ProgramError.IllegalOwner
  else if error =? MAX_ACCOUNTS_DATA_SIZE_EXCEEDED then ProgramError.MaxAccountsDataSizeExceeded
  else if error =? ACTIVE_VOTE_ACCOUNT_CLOSE then ProgramError.ActiveVoteAccountClose
  else ProgramError.Custom (as_u32 error).

(** [From<T: ToPrimitive> for InstructionError], on the value of [to_u64]. *)
Definition InstructionError_from_u64 (error : Z) : InstructionError :=
  if error =? CUSTOM_ZERO then Custom 0
  else if error =? INVALID_ARGUMENT then InvalidArgument
  else if error =? INVALID_INSTRUCTION_DATA then InvalidInstructionData
  else if error =? INVALID_ACCOUNT_DATA then InvalidAccountData
  else if error =? ACCOUNT_DATA_TOO_SMALL then AccountDataTooSmall
  else if error =? INSUFFICIENT_FUNDS then InsufficientFunds
  else if error =? INCORRECT_PROGRAM_ID then IncorrectProgramId
  else if error =? MISSING_REQUIRED_SIGNATURES then MissingRequiredSignature
  else if error =? ACCOUNT_ALREADY_INITIALIZED then AccountAlreadyInitialized
  else if error =? UNINITIALIZED_ACCOUNT then UninitializedAccount
  else if error =? NOT_ENOUGH_ACCOUNT_KEYS then NotEnoughAccountKeys
  else if error =? ACCOUNT_BORROW_FAILED then AccountBorrowFailed
  else if error =? MAX_SEED_LENGTH_EXCEEDED then MaxSeedLengthExceeded
  else if error =? INVALID_SEEDS then InvalidSeeds
  else if error =? BORSH_IO_ERROR then BorshIoError "Unknown"%string
  else if error =? ACCOUNT_NOT_RENT_EXEMPT then AccountNotRentExempt
  else if error =? UNSUPPORTED_SYSVAR then UnsupportedSysvar
  else if error =? ILLEGAL_OWNER then IllegalOwner
  else if error =? MAX_ACCOUNTS_DATA_SIZE_EXCEEDED then MaxAccountsDataSizeExceeded
  else if error =? ACTIVE_VOTE_ACCOUNT_CLOSE then ActiveVoteAccountClose
  else if Z.shiftr error BUILTIN_BIT_SHIFT =? 0 then Custom (as_u32 error)
  else InvalidError.

(** [TryFrom<InstructionError> for ProgramError] *)
Definition ProgramError_try_from (error : InstructionError)
  : outcome InstructionError ProgramError.ProgramError :=
  match error with
  | Custom err => Ok (ProgramError.Custom err)
  | InvalidArgument => Ok ProgramError.InvalidArgument
  | InvalidInstructionData => Ok ProgramError.InvalidInstructionData
  | InvalidAccountData => Ok ProgramError.InvalidAccountData
  | AccountDataTooSmall => Ok ProgramError.AccountDataTooSmall
  | InsufficientFunds => Ok ProgramError.InsufficientFunds
  | IncorrectProgramId => Ok ProgramError.IncorrectProgramId
  | MissingRequiredSignature => Ok ProgramError.MissingRequiredSignature
  | AccountAlreadyInitialized => Ok ProgramError.AccountAlreadyInitialized
  | UninitializedAccount => Ok ProgramError.UninitializedAccount
  | NotEnoughAccountKeys => Ok ProgramError.NotEnoughAccountKeys
  | AccountBorrowFailed => Ok ProgramError.AccountBorrowFailed
  | MaxSeedLengthExceeded => Ok ProgramError.MaxSeedLengthExceeded
  | InvalidSeeds => Ok ProgramError.InvalidSeeds
  | BorshIoError err => Ok (ProgramError.BorshIoError err)
  | AccountNotRentExempt => Ok ProgramError.AccountNotRentExempt
  | UnsupportedSysvar => Ok ProgramError.UnsupportedSysvar
  | IllegalOwner => Ok ProgramError.IllegalOwner
  | MaxAccountsDataSizeExceeded => Ok ProgramError.MaxAccountsDataSizeExceeded
  | ActiveVoteAccountClose => Ok ProgramError.ActiveVoteAccountClose
  | _ => Err error
  end.

(** What the 64-bit return value keeps of a program error: everything but the
    text of [BorshIoError]. *)
Definition abi_erase (e : ProgramError.ProgramError) : ProgramError.ProgramError :=
  match e with ProgramError.BorshIoError _ => ProgramError.BorshIoError "Unknown"%string | e => e end.

Definition custom_in_range (e : ProgramError.ProgramError) : Prop :=
  match e with ProgramError.Custom code => in_u32 code | _ => True end.

(** A custom code in range collides with no builtin constant. *)
Lemma custom_not_builtin code n :
  in_u32 code -> 1 <= n -> (code =? to_builtin n) = false.
Proof.
  unfold to_builtin, BUILTIN_BIT_SHIFT. rewrite Z.shiftl_mul_pow2 by lia. intros.
  apply Z.eqb_neq. u64.
Qed.
#[export] Hint Rewrite custom_not_builtin using (first [assumption | lia]) : u64.

(** A program error crosses the 64-bit return value of a program unchanged,
    [BorshIoError]'s text apart: read back as a [ProgramError], or read by the
    runtime as an [InstructionError] and converted again, it is the same error. *)
Theorem program_error_abi_roundtrip (e : ProgramError.ProgramError) :
  custom_in_range e ->
  ProgramError_from_u64 (u64_from_ProgramError e) = abi_erase e /\
  ProgramError_try_from (InstructionError_from_u64 (u64_from_ProgramError e)) = Ok (abi_erase e).
Proof.
  destruct e as [code| | | | | | | | | | | | | | | | | | |]; intros Hr; try (split; reflexivity).
  cbn [custom_in_range abi_erase] in *. unfold u64_from_ProgramError.
  destruct (Z.eqb_spec code 0) as [->|Hnz]; [split; reflexivity|].
  unfold ProgramError_from_u64, InstructionError_from_u64.
  unfold CUSTOM_ZERO, INVALID_ARGUMENT, INVALID_INSTRUCTION_DATA, INVALID_ACCOUNT_DATA,
    ACCOUNT_DATA_TOO_SMALL, INSUFFICIENT_FUNDS, INCORRECT_PROGRAM_ID, MISSING_REQUIRED_SIGNATURES,
    ACCOUNT_ALREADY_INITIALIZED, UNINITIALIZED_ACCOUNT, NOT_ENOUGH_ACCOUNT_KEYS,
    ACCOUNT_BORROW_FAILED, MAX_SEED_LENGTH_EXCEEDED, INVALID_SEEDS, BORSH_IO_ERROR,
    ACCOUNT_NOT_RENT_EXEMPT, UNSUPPORTED_SYSVAR, ILLEGAL_OWNER, MAX_ACCOUNTS_DATA_SIZE_EXCEEDED,
    ACTIVE_VOTE_ACCOUNT_CLOSE.
  autorewrite with u64.
  assert (as_u32 code = code) as -> by (apply Z.mod_small; u64).
  assert (Z.shiftr code BUILTIN_BIT_SHIFT = 0) as ->; [|done].
  unfold BUILTIN_BIT_SHIFT. rewrite Z.shiftr_div_pow2 by lia. apply Z.div_small. u64.
Qed.

Lemma program_error_abi_roundtrip_witness :
  custom_in_range (ProgramError.Custom 7) /\
  ProgramError_from_u64 (u64_from_ProgramError (ProgramError.Custom 7)) = ProgramError.Custom 7.
Proof.
  assert (custom_in_range (ProgramError.Custom 7)) as H by (cbn; u64).
  split; [exact H|]. exact (proj1 (program_error_abi_roundtrip (ProgramError.Custom 7) H)).
Defined.
