(* ===== verification/VoteState.v ===== *)
(** * The vote state

    [programs/vote/src/vote_state/mod.rs], [vote_state_versions.rs],
    [vote_state_0_23_5.rs] and [authorized_voters.rs]: the data a vote account
    holds and the operations of [impl VoteState] on it. The account-level
    handlers that load and store it are in [VoteProgram]. *)
From stdpp Require Import base list option sorting.
From S2P Require Import Prelude OrdMap Instruction.

(** ** Constants and errors *)

Definition MAX_LOCKOUT_HISTORY : nat := 31.
Definition INITIAL_LOCKOUT : Z := 2.
Definition MAX_EPOCH_CREDITS_HISTORY : nat := 64.
Definition MAX_ITEMS : nat := 32.
Definition MAX_LEADER_SCHEDULE_EPOCH_OFFSET : nat := 3.

Inductive VoteError : Type :=
| VoteTooOld
| SlotsMismatch
| SlotHashMismatch
| EmptySlots
| TimestampTooOld
| TooSoonToReauthorize
| LockoutConflict
| NewVoteStateLockoutMismatch
| SlotsNotOrdered
| ConfirmationsNotOrdered
| ZeroConfirmations
| ConfirmationTooLarge
| RootRollBack
| ConfirmationRollBack
| SlotSmallerThanRoot
| TooManyVotes.

(** ** Votes and lockouts *)

Record Vote : Type := mkVote {
  vote_slots : list Slot;
  vote_hash : Hash;
  vote_timestamp : option UnixTimestamp;
}.

Definition Vote_new (slots : list Slot) (hash : Hash) : Vote := mkVote slots hash None.

Definition Vote_last_voted_slot (v : Vote) : option Slot := last (vote_slots v).

Definition Vote_last_voted_slot_hash (v : Vote) : option (Slot * Hash) :=
  (fun slot => (slot, vote_hash v)) <$> last (vote_slots v).

Record Lockout : Type := mkLockout {
  lo_slot : Slot;
  confirmation_count : Z;
}.

Definition Lockout_new (slot : Slot) : Lockout := mkLockout slot 1.

Definition lockout (l : Lockout) : Z := pow64 INITIAL_LOCKOUT (confirmation_count l).

Definition last_locked_out_slot (l : Lockout) : Slot := add64 (lo_slot l) (lockout l).

Definition is_locked_out_at_slot (l : Lockout) (slot : Slot) : bool :=
  slot <=? last_locked_out_slot l.

Record VoteInit : Type := mkVoteInit {
  vi_node_pubkey : Pubkey;
  vi_authorized_voter : Pubkey;
  vi_authorized_withdrawer : Pubkey;
  vi_commission : Z;
}.

Inductive VoteAuthorize : Type := Voter | Withdrawer.

Record BlockTimestamp : Type := mkBlockTimestamp {
  bts_slot : Slot;
  bts_timestamp : UnixTimestamp;
}.

Definition BlockTimestamp_default : BlockTimestamp := mkBlockTimestamp 0 0.

Definition BlockTimestamp_eqb (a b : BlockTimestamp) : bool :=
  (bts_slot a =? bts_slot b) && (bts_timestamp a =? bts_timestamp b).

(** ** The circular buffer of prior voters *)

Record CircBuf (I : Type) : Type := mkCircBuf {
  cb_buf : list I;
  cb_idx : nat;
  cb_is_empty : bool;
}.
Arguments mkCircBuf {_} _ _ _.
Arguments cb_buf {_} _.
Arguments cb_idx {_} _.
Arguments cb_is_empty {_} _.

Definition CircBuf_default {I} (d : I) : CircBuf I :=
  mkCircBuf (replicate MAX_ITEMS d) (MAX_ITEMS - 1) true.

Definition CircBuf_append {I} (item : I) (c : CircBuf I) : CircBuf I :=
  let idx := ((cb_idx c + 1) mod MAX_ITEMS)%nat in
  mkCircBuf (<[idx := item]> (cb_buf c)) idx false.

Definition CircBuf_last {I} (c : CircBuf I) : option I :=
  if negb (cb_is_empty c) then cb_buf c !! cb_idx c else None.

(** ** Authorized voters by epoch *)

Abbreviation AuthorizedVoters := (list (Epoch * Pubkey)).

Definition AuthorizedVoters_new (epoch : Epoch) (pubkey : Pubkey) : AuthorizedVoters :=
  bt_insert epoch pubkey [].

Definition get_or_calculate_authorized_voter_for_epoch (av : AuthorizedVoters) (epoch : Epoch)
  : option (Pubkey * bool) :=
  match bt_get epoch av with
  | None => (fun e => (e.2, false)) <$> last (bt_range_below epoch av)
  | Some pubkey => Some (pubkey, true)
  end.

Definition av_get_authorized_voter (av : AuthorizedVoters) (epoch : Epoch) : option Pubkey :=
  fst <$> get_or_calculate_authorized_voter_for_epoch av epoch.

Definition get_and_cache_authorized_voter_for_epoch (epoch : Epoch) (av : AuthorizedVoters)
  : option Pubkey * AuthorizedVoters :=
  match get_or_calculate_authorized_voter_for_epoch av epoch with
  | Some (pubkey, existed) =>
      (Some pubkey, if negb existed then bt_insert epoch pubkey av else av)
  | None => (None, av)
  end.

(** The keys below the current epoch are collected and removed one by one;
    the map must not become empty. *)
Definition purge_authorized_voters {E} (current_epoch : Epoch) : SE AuthorizedVoters E bool :=
  fun av =>
    let expired_keys := fst <$> bt_range_below current_epoch av in
    let av' := foldl (fun m key => bt_remove key m) av expired_keys in
    match av' with
    | [] => (Panic, av')
    | _ => (Ok true, av')
    end.

(** ** The vote state *)

Record VoteState : Type := mkVoteState {
  node_pubkey : Pubkey;
  authorized_withdrawer : Pubkey;
  commission : Z;
  votes : list Lockout;
  root_slot : option Slot;
  authorized_voters : AuthorizedVoters;
  prior_voters : CircBuf (Pubkey * Epoch * Epoch);
  epoch_credits : list (Epoch * Z * Z);
  last_timestamp : BlockTimestamp;
}.

Definition VoteState_default : VoteState :=
  mkVoteState Pubkey_default Pubkey_default 0 [] None [] (CircBuf_default (Pubkey_default, 0, 0))
    [] BlockTimestamp_default.

Definition set_node_pubkey (x : Pubkey) (s : VoteState) : VoteState :=
  mkVoteState x (authorized_withdrawer s) (commission s) (votes s) (root_slot s)
    (authorized_voters s) (prior_voters s) (epoch_credits s) (last_timestamp s).
Definition set_authorized_withdrawer (x : Pubkey) (s : VoteState) : VoteState :=
  mkVoteState (node_pubkey s) x (commission s) (votes s) (root_slot s)
    (authorized_voters s) (prior_voters s) (epoch_credits s) (last_timestamp s).
Definition set_commission (x : Z) (s : VoteState) : VoteState :=
  mkVoteState (node_pubkey s) (authorized_withdrawer s) x (votes s) (root_slot s)
    (authorized_voters s) (prior_voters s) (epoch_credits s) (last_timestamp s).
Definition set_votes (x : list Lockout) (s : VoteState) : VoteState :=
  mkVoteState (node_pubkey s) (authorized_withdrawer s) (commission s) x (root_slot s)
    (authorized_voters s) (prior_voters s) (epoch_credits s) (last_timestamp s).
Definition set_root_slot (x : option Slot) (s : VoteState) : VoteState :=
  mkVoteState (node_pubkey s) (authorized_withdrawer s) (commission s) (votes s) x
    (authorized_voters s) (prior_voters s) (epoch_credits s) (last_timestamp s).
Definition set_authorized_voters (x : AuthorizedVoters) (s : VoteState) : VoteState :=
  mkVoteState (node_pubkey s) (authorized_withdrawer s) (commission s) (votes s) (root_slot s)
    x (prior_voters s) (epoch_credits s) (last_timestamp s).
Definition set_prior_voters (x : CircBuf (Pubkey * Epoch * Epoch)) (s : VoteState) : VoteState :=
  mkVoteState (node_pubkey s) (authorized_withdrawer s) (commission s) (votes s) (root_slot s)
    (authorized_voters s) x (epoch_credits s) (last_timestamp s).
Definition set_epoch_credits (x : list (Epoch * Z * Z)) (s : VoteState) : VoteState :=
  mkVoteState (node_pubkey s) (authorized_withdrawer s) (commission s) (votes s) (root_slot s)
    (authorized_voters s) (prior_voters s) x (last_timestamp s).
Definition set_last_timestamp (x : BlockTimestamp) (s : VoteState) : VoteState :=
  mkVoteState (node_pubkey s) (authorized_withdrawer s) (commission s) (votes s) (root_slot s)
    (authorized_voters s) (prior_voters s) (epoch_credits s) x.

Definition VoteState_new (vote_init : VoteInit) (clock_epoch : Epoch) : VoteState :=
  mkVoteState (vi_node_pubkey vote_init) (vi_authorized_withdrawer vote_init)
    (vi_commission vote_init) [] None
    (AuthorizedVoters_new clock_epoch (vi_authorized_voter vote_init))
    (CircBuf_default (Pubkey_default, 0, 0)) [] BlockTimestamp_default.

(** ** Operations *)

(** [rand] stands for [solana_sdk::pubkey::new_rand]. *)
Definition get_max_sized_vote_state (rand : nat -> Pubkey) : VoteState :=
  mkVoteState Pubkey_default Pubkey_default 0
    (replicate MAX_LOCKOUT_HISTORY (mkLockout 0 0)) (Some U64_MAX)
    (foldl (fun m i => bt_insert (Z.of_nat i) (rand i) m) []
       (seq 0 (S MAX_LEADER_SCHEDULE_EPOCH_OFFSET)))
    (CircBuf_default (Pubkey_default, 0, 0))
    (replicate MAX_EPOCH_CREDITS_HISTORY (0, 0, 0)) BlockTimestamp_default.

Definition get_authorized_voter (s : VoteState) (epoch : Epoch) : option Pubkey :=
  av_get_authorized_voter (authorized_voters s) epoch.

Definition last_lockout (s : VoteState) : option Lockout := last (votes s).

Definition last_voted_slot (s : VoteState) : option Slot := lo_slot <$> last_lockout s.

Definition nth_recent_vote (s : VoteState) (position : nat) : option Lockout :=
  if decide (position < length (votes s))%nat
  then votes s !! (length (votes s) - 1 - position)%nat else None.

Definition tower (s : VoteState) : list Slot := lo_slot <$> votes s.

Definition current_epoch (s : VoteState) : Epoch :=
  match last (epoch_credits s) with None => 0 | Some (epoch, _, _) => epoch end.

Definition credits (s : VoteState) : Z :=
  match last (epoch_credits s) with None => 0 | Some (_, credits, _) => credits end.

(** The split computed in [u128] and cast back to [u64]. *)
Definition commission_split (s : VoteState) (on : Z) : Z * Z * bool :=
  let split := Z.min (commission s) 100 in
  if split =? 0 then (0, on, false)
  else if split =? 100 then (on, 0, false)
  else (as_u64 (on * split / 100), as_u64 (on * (100 - split) / 100), true).

(** [last_voted_slot().map_or(false, |l| slot <= l)] *)
Definition already_voted (last_voted : option Slot) (slot : Slot) : bool :=
  match last_voted with None => false | Some l => slot <=? l end.

(** The loop of [check_slots_are_valid]; each turn increments [i] or decrements
    [j], so [length slots + length slot_hashes] turns are enough. *)
Fixpoint check_slots_loop (fuel : nat) (last_voted : option Slot) (slots : list Slot)
    (slot_hashes : list (Slot * Hash)) (i j : nat) : nat * nat :=
  match fuel with
  | O => (i, j)
  | S fuel =>
      if decide (i < length slots /\ 0 < j)%nat then
        match slots !! i, slot_hashes !! (j - 1)%nat with
        | Some s, Some (h, _) =>
            if already_voted last_voted s
            then check_slots_loop fuel last_voted slots slot_hashes (i + 1) j
            else if negb (s =? h)
            then check_slots_loop fuel last_voted slots slot_hashes i (j - 1)
            else check_slots_loop fuel last_voted slots slot_hashes (i + 1) (j - 1)
        | _, _ => (i, j)
        end
      else (i, j)
  end.

Definition check_slots_are_valid (s : VoteState) (vote : Vote)
    (slot_hashes : list (Slot * Hash)) : outcome VoteError unit :=
  let '(i, j) := check_slots_loop (length (vote_slots vote) + length slot_hashes)
                   (last_voted_slot s) (vote_slots vote) slot_hashes 0 (length slot_hashes) in
  if decide (j = length slot_hashes) then Err VoteTooOld
  else if decide (i ≠ length (vote_slots vote)) then Err SlotsMismatch
  else match slot_hashes !! j with
       | None => Panic
       | Some (_, h) => if negb (h =? vote_hash vote) then Err SlotHashMismatch else Ok tt
       end.

(** Pops from the back while the last vote is not locked out at the slot. *)
Fixpoint pop_expired_rev (next_vote_slot : Slot) (rev_votes : list Lockout) : list Lockout :=
  match rev_votes with
  | [] => []
  | v :: rest =>
      if negb (is_locked_out_at_slot v next_vote_slot)
      then pop_expired_rev next_vote_slot rest else rev_votes
  end.

Definition pop_expired_votes (next_vote_slot : Slot) (s : VoteState) : VoteState :=
  set_votes (rev (pop_expired_rev next_vote_slot (rev (votes s)))) s.

Definition double_lockouts (s : VoteState) : VoteState :=
  let stack_depth := Z.of_nat (length (votes s)) in
  set_votes
    (imap (fun i v =>
       if Z.of_nat i + confirmation_count v <? stack_depth
       then mkLockout (lo_slot v) (as_u32 (confirmation_count v + 1)) else v) (votes s)) s.

(** [v.last_mut().unwrap()] updated in place. *)
Definition update_last {A} (f : A -> A) (l : list A) : list A :=
  match last l with Some x => removelast l ++ [f x] | None => l end.

Definition increment_credits (epoch : Epoch) (s : VoteState) : VoteState :=
  let ec := epoch_credits s in
  let ec :=
    match last ec with
    | None => ec ++ [(epoch, 0, 0)]
    | Some (last_epoch, cr, prev) =>
        if negb (epoch =? last_epoch) then
          let ec := if negb (cr =? prev) then ec ++ [(epoch, cr, cr)]
                    else update_last (fun e => (epoch, e.1.2, e.2)) ec in
          if decide (MAX_EPOCH_CREDITS_HISTORY < length ec)%nat then drop 1 ec else ec
        else ec
    end in
  set_epoch_credits (update_last (fun e => (e.1.1, add64 e.1.2 1, e.2)) ec) s.

Definition process_next_vote_slot (next_vote_slot : Slot) (epoch : Epoch) (s : VoteState)
  : VoteState :=
  if already_voted (last_voted_slot s) next_vote_slot then s
  else
    let vote := Lockout_new next_vote_slot in
    let s := pop_expired_votes next_vote_slot s in
    let s := if decide (length (votes s) = MAX_LOCKOUT_HISTORY) then
               match votes s with
               | [] => s
               | v :: rest => increment_credits epoch (set_root_slot (Some (lo_slot v)) (set_votes rest s))
               end
             else s in
    double_lockouts (set_votes (votes s ++ [vote]) s).

Definition process_vote (vote : Vote) (slot_hashes : list (Slot * Hash)) (epoch : Epoch)
  : SE VoteState VoteError unit :=
  _ ← ensure (negb (bool_decide (vote_slots vote = []))) EmptySlots;
  s ← get;
  _ ← lift (check_slots_are_valid s vote slot_hashes);
  modify (fun s => foldl (fun s slot => process_next_vote_slot slot epoch s) s (vote_slots vote)).

Definition process_vote_unchecked (vote : Vote) (s : VoteState) : VoteState :=
  let slot_hashes := (fun x => (x, vote_hash vote)) <$> rev (vote_slots vote) in
  snd (process_vote vote slot_hashes (current_epoch s) s).

Definition process_slot_vote_unchecked (slot : Slot) (s : VoteState) : VoteState :=
  process_vote_unchecked (Vote_new [slot] Hash_default) s.

Definition process_timestamp (slot : Slot) (timestamp : UnixTimestamp)
  : SE VoteState VoteError unit :=
  fun s =>
    let lt := last_timestamp s in
    if ((slot <? bts_slot lt) || (timestamp <? bts_timestamp lt))
       || ((slot =? bts_slot lt)
           && negb (BlockTimestamp_eqb (mkBlockTimestamp slot timestamp) lt)
           && negb (bts_slot lt =? 0))
    then (Err TimestampTooOld, s)
    else (Ok tt, set_last_timestamp (mkBlockTimestamp slot timestamp) s).

(** *** Replacing the whole tower ([process_new_vote_state]) *)

(** The comparison of the proposed root with the current one. *)
Definition check_new_root (new_root current_root : option Slot) : outcome VoteError unit :=
  match new_root, current_root with
  | Some new_root, Some current_root =>
      if new_root <? current_root then Err RootRollBack else Ok tt
  | None, Some _ => Err RootRollBack
  | _, _ => Ok tt
  end.

(** The checks of one proposed vote against the root and the vote before it. *)
Definition check_new_vote (new_root : option Slot) (previous_vote : option Lockout)
    (vote : Lockout) : outcome VoteError unit :=
  if confirmation_count vote =? 0 then Err ZeroConfirmations
  else if Z.of_nat MAX_LOCKOUT_HISTORY <? confirmation_count vote then Err ConfirmationTooLarge
  else if match new_root with
          | Some r => (lo_slot vote <=? r) && negb (r =? 0)
          | None => false
          end then Err SlotSmallerThanRoot
  else match previous_vote with
       | None => Ok tt
       | Some p =>
           if lo_slot vote <=? lo_slot p then Err SlotsNotOrdered
           else if confirmation_count p <=? confirmation_count vote then Err ConfirmationsNotOrdered
           else if last_locked_out_slot p <? lo_slot vote then Err NewVoteStateLockoutMismatch
           else Ok tt
       end.

Fixpoint check_new_votes (new_root : option Slot) (previous_vote : option Lockout)
    (new_state : list Lockout) : outcome VoteError unit :=
  match new_state with
  | [] => Ok tt
  | vote :: rest =>
      _ ← check_new_vote new_root previous_vote vote;
      check_new_votes new_root (Some vote) rest
  end.

(** The index of the first current vote above the proposed root. *)
Fixpoint first_vote_above (new_root : option Slot) (current : list Lockout) : nat :=
  match current with
  | [] => 0
  | v :: rest =>
      match new_root with
      | Some r => if lo_slot v <=? r then S (first_vote_above new_root rest) else 0
      | None => 0
      end
  end.

(** The merge of the current votes (from that index on) with the proposed ones. *)
Fixpoint check_no_conflict (current : list Lockout) : list Lockout -> outcome VoteError unit :=
  fix inner (new_state : list Lockout) : outcome VoteError unit :=
    match current, new_state with
    | cv :: current', nv :: new_state' =>
        match lo_slot cv ?= lo_slot nv with
        | Lt => if lo_slot nv <=? last_locked_out_slot cv then Err LockoutConflict
                else check_no_conflict current' new_state
        | Eq => if confirmation_count nv <? confirmation_count cv then Err ConfirmationRollBack
                else check_no_conflict current' new_state'
        | Gt => inner new_state'
        end
    | _, _ => Ok tt
    end.

Definition process_new_vote_state (new_state : list Lockout) (new_root : option Slot)
    (timestamp : option UnixTimestamp) (epoch : Epoch) : SE VoteState VoteError unit :=
  _ ← assert (negb (bool_decide (length new_state = 0%nat)));
  _ ← ensure (bool_decide (length new_state <= MAX_LOCKOUT_HISTORY)%nat) TooManyVotes;
  s ← get;
  _ ← assert (match last (votes s), last new_state with
              | None, _ => true
              | Some cur, Some new => lo_slot cur <? lo_slot new
              | Some _, None => false
              end);
  _ ← lift (check_new_root new_root (root_slot s));
  _ ← lift (check_new_votes new_root None new_state);
  _ ← lift (check_no_conflict (drop (first_vote_above new_root (votes s)) (votes s)) new_state);
  _ ← modify (fun s => if bool_decide (root_slot s ≠ new_root) then increment_credits epoch s else s);
  _ ← match timestamp with
      | None => mret tt
      | Some timestamp =>
          match last new_state with
          | Some l => process_timestamp (lo_slot l) timestamp
          | None => panic
          end
      end;
  modify (fun s => set_votes new_state (set_root_slot new_root s)).

(** *** Authorized voters *)

(** [From<VoteError> for InstructionError]: the discriminant as a custom code. *)
Definition VoteError_to_u64 (e : VoteError) : Z :=
  match e with
  | VoteTooOld => 0
  | SlotsMismatch => 1
  | SlotHashMismatch => 2
  | EmptySlots => 3
  | TimestampTooOld => 4
  | TooSoonToReauthorize => 5
  | LockoutConflict => 6
  | NewVoteStateLockoutMismatch => 7
  | SlotsNotOrdered => 8
  | ConfirmationsNotOrdered => 9
  | ZeroConfirmations => 10
  | ConfirmationTooLarge => 11
  | RootRollBack => 12
  | ConfirmationRollBack => 13
  | SlotSmallerThanRoot => 14
  | TooManyVotes => 15
  end.

Definition from_VoteError (e : VoteError) : InstructionError :=
  InstructionError_from_u64 (VoteError_to_u64 e).

Definition get_and_update_authorized_voter (epoch : Epoch)
  : SE VoteState InstructionError Pubkey :=
  fun s =>
    let '(pubkey, av) := get_and_cache_authorized_voter_for_epoch epoch (authorized_voters s) in
    match pubkey with
    | None => (Err InvalidAccountData, set_authorized_voters av s)
    | Some pubkey =>
        let '(r, av) := purge_authorized_voters epoch av in
        let s := set_authorized_voters av s in
        match r with
        | Ok _ => (Ok pubkey, s)
        | Err e => (Err e, s)
        | Panic => (Panic, s)
        end
    end.

Definition set_new_authorized_voter (authorized_pubkey : Pubkey) (current_epoch : Epoch)
    (target_epoch : Epoch) (verify : Pubkey -> outcome InstructionError unit)
  : SE VoteState InstructionError unit :=
  epoch_authorized_voter ← get_and_update_authorized_voter current_epoch;
  _ ← lift (verify epoch_authorized_voter);
  s ← get;
  _ ← ensure (negb (bt_contains target_epoch (authorized_voters s))) (from_VoteError TooSoonToReauthorize);
  latest ← lift (ok_or InvalidAccountData (last (authorized_voters s)));
  let '(latest_epoch, latest_authorized_pubkey) := latest in
  _ ← (if negb (latest_authorized_pubkey =? authorized_pubkey) then
         let epoch_of_last_authorized_switch :=
           match CircBuf_last (prior_voters s) with Some (_, _, e) => e | None => 0 end in
         _ ← assert (latest_epoch <? target_epoch);
         modify (fun s => set_prior_voters
           (CircBuf_append (latest_authorized_pubkey, epoch_of_last_authorized_switch, target_epoch)
              (prior_voters s)) s)
       else mret tt);
  modify (fun s => set_authorized_voters (bt_insert target_epoch authorized_pubkey (authorized_voters s)) s).

(** ** Versions *)

Record CircBuf0_23_5 (I : Type) : Type := mkCircBuf0_23_5 {
  cb0_buf : list I;
  cb0_idx : nat;
}.
Arguments mkCircBuf0_23_5 {_} _ _.

Record VoteState0_23_5 : Type := mkVoteState0_23_5 {
  v0_node_pubkey : Pubkey;
  v0_authorized_voter : Pubkey;
  v0_authorized_voter_epoch : Epoch;
  v0_prior_voters : CircBuf0_23_5 (Pubkey * Epoch * Epoch * Slot);
  v0_authorized_withdrawer : Pubkey;
  v0_commission : Z;
  v0_votes : list Lockout;
  v0_root_slot : option Slot;
  v0_epoch_credits : list (Epoch * Z * Z);
  v0_last_timestamp : BlockTimestamp;
}.

Inductive VoteStateVersions : Type :=
| V0_23_5 (s : VoteState0_23_5)
| Current (s : VoteState).

Definition convert_to_current (v : VoteStateVersions) : VoteState :=
  match v with
  | V0_23_5 s =>
      mkVoteState (v0_node_pubkey s) (v0_authorized_withdrawer s) (v0_commission s) (v0_votes s)
        (v0_root_slot s) (AuthorizedVoters_new (v0_authorized_voter_epoch s) (v0_authorized_voter s))
        (CircBuf_default (Pubkey_default, 0, 0)) (v0_epoch_credits s) (v0_last_timestamp s)
  | Current s => s
  end.

Definition is_uninitialized (v : VoteStateVersions) : bool :=
  match v with
  | V0_23_5 s => v0_authorized_voter s =? Pubkey_default
  | Current s => bool_decide (length (authorized_voters s) = 0%nat)
  end.

(** ** Decidable equality *)

#[global] Instance VoteError_eq_dec : EqDecision VoteError.
Proof. solve_decision. Defined.
#[global] Instance Vote_eq_dec : EqDecision Vote.
Proof. solve_decision. Defined.
#[global] Instance Lockout_eq_dec : EqDecision Lockout.
Proof. solve_decision. Defined.
#[global] Instance VoteInit_eq_dec : EqDecision VoteInit.
Proof. solve_decision. Defined.
#[global] Instance VoteAuthorize_eq_dec : EqDecision VoteAuthorize.
Proof. solve_decision. Defined.
#[global] Instance BlockTimestamp_eq_dec : EqDecision BlockTimestamp.
Proof. solve_decision. Defined.
#[global] Instance CircBuf_eq_dec {A} `{EqDecision A} : EqDecision (CircBuf A).
Proof. solve_decision. Defined.
#[global] Instance CircBuf0_23_5_eq_dec {A} `{EqDecision A} : EqDecision (CircBuf0_23_5 A).
Proof. solve_decision. Defined.
#[global] Instance VoteState_eq_dec : EqDecision VoteState.
Proof. solve_decision. Defined.
#[global] Instance VoteState0_23_5_eq_dec : EqDecision VoteState0_23_5.
Proof. solve_decision. Defined.
#[global] Instance VoteStateVersions_eq_dec : EqDecision VoteStateVersions.
Proof. solve_decision. Defined.
