(* ===== verification/VoteTower.v ===== *)
(** * The lockout tower

    Invariants of the vote stack built by [process_next_vote_slot]: the tower
    of [VoteState.votes] stays ordered, bounded and mutually locked out, no
    vote leaves it while it is locked out, and a vote becomes the root only with
    the maximum number of confirmations. *)
From stdpp Require Import base list option sets sorting.
From S2P Require Import Prelude OrdMap Instruction VoteState.

(** ** The invariant *)

(** Slots for which [slot + 2^31] does not overflow. *)
Definition slot_ok (slot : Slot) : Prop := 0 <= slot /\ slot + 2147483648 <= U64_MAX.

(** Two consecutive votes: slots increase, confirmations decrease, and the
    earlier vote is still locked out at the later one. *)
Definition adjacent_ok (v w : Lockout) : Prop :=
  lo_slot v < lo_slot w /\ confirmation_count w < confirmation_count v /\
  lo_slot w <= last_locked_out_slot v.

(** A vote at position [i] of a tower of depth [n] has one confirmation for
    itself and one for every later vote, or more. *)
Definition entry_ok (n i : nat) (v : Lockout) : Prop :=
  Z.of_nat n - Z.of_nat i <= confirmation_count v <= 31 /\ slot_ok (lo_slot v).

Record tower_wf (l : list Lockout) : Prop := {
  tw_len : (length l <= MAX_LOCKOUT_HISTORY)%nat;
  tw_entry i v : l !! i = Some v -> entry_ok (length l) i v;
  tw_adj i v w : l !! i = Some v -> l !! S i = Some w -> adjacent_ok v w;
}.

(** The root lies below every vote, and there is no root without a vote. *)
Definition root_below (s : VoteState) : Prop :=
  forall r, root_slot s = Some r ->
    votes s ≠ [] /\ forall v, v ∈ votes s -> r < lo_slot v.

Definition vote_state_wf (s : VoteState) : Prop := tower_wf (votes s) /\ root_below s.

Ltac entry := unfold entry_ok, slot_ok in *; cbn [length lo_slot confirmation_count] in *; u64.

(** ** Lockouts *)

Lemma lockout_pow l : 0 <= confirmation_count l <= 31 -> lockout l = 2 ^ confirmation_count l.
Proof.
  intros H. unfold lockout, pow64, INITIAL_LOCKOUT. apply as_u64_small.
  pose proof (Z.pow_nonneg 2 (confirmation_count l)).
  pose proof (Z.pow_le_mono_r 2 (confirmation_count l) 31). u64.
Qed.

Lemma pow_conf_le c : 0 <= c <= 31 -> 1 <= 2 ^ c <= 2147483648.
Proof.
  intros H. split; [pose proof (Z.pow_pos_nonneg 2 c); lia|].
  change 2147483648 with (2 ^ 31). apply Z.pow_le_mono_r; lia.
Qed.

Lemma last_locked_out_slot_eq v :
  0 <= confirmation_count v <= 31 -> slot_ok (lo_slot v) ->
  last_locked_out_slot v = lo_slot v + 2 ^ confirmation_count v.
Proof.
  intros Hc [H0 H1]. unfold last_locked_out_slot. rewrite lockout_pow by done.
  pose proof (pow_conf_le _ Hc). apply add64_small. u64.
Qed.

Lemma entry_ok_conf n i v : entry_ok n i v -> (i < n)%nat -> 0 <= confirmation_count v <= 31.
Proof. entry. Qed.

(** ** Slots increase along the tower *)

Lemma tower_slots_lt l i j v w :
  tower_wf l -> (i < j)%nat -> l !! i = Some v -> l !! j = Some w -> lo_slot v < lo_slot w.
Proof.
  intros Hwf Hij. revert w. induction Hij as [|j Hij IH]; intros w Hv Hw.
  - by apply (tw_adj _ Hwf i v w).
  - destruct (lookup_lt_is_Some_2 l j) as [u Hu]; [apply lookup_lt_Some in Hw; lia|].
    pose proof (IH u Hv Hu). pose proof (tw_adj _ Hwf j u w Hu Hw) as [? _]. lia.
Qed.

Lemma tower_last_max l v w :
  tower_wf l -> last l = Some w -> v ∈ l -> lo_slot v <= lo_slot w.
Proof.
  intros Hwf Hl [i Hi]%list_elem_of_lookup. rewrite last_lookup in Hl.
  destruct (decide (i = pred (length l))) as [->|Hne]; [naive_solver lia|].
  apply Z.lt_le_incl, (tower_slots_lt l i (pred (length l))); try done.
  apply lookup_lt_Some in Hi. lia.
Qed.

Lemma tower_head_min l v w :
  tower_wf l -> head l = Some w -> v ∈ l -> lo_slot w <= lo_slot v.
Proof.
  intros Hwf Hh [i Hi]%list_elem_of_lookup. rewrite head_lookup in Hh.
  destruct (decide (i = 0%nat)) as [->|Hne]; [naive_solver lia|].
  apply Z.lt_le_incl, (tower_slots_lt l 0 i); try done. lia.
Qed.

(** ** Popping expired votes *)

Lemma pop_expired_rev_spec slot rl :
  exists popped, rl = popped ++ pop_expired_rev slot rl /\
    Forall (fun v => last_locked_out_slot v < slot) popped /\
    (forall v, head (pop_expired_rev slot rl) = Some v -> slot <= last_locked_out_slot v).
Proof.
  induction rl as [|v rl (popped & IH1 & IH2 & IH3)]; cbn; [by exists []|].
  unfold is_locked_out_at_slot. destruct (Z.leb_spec slot (last_locked_out_slot v)); cbn.
  - exists []. naive_solver.
  - exists (v :: popped). cbn. split; [by f_equal|]. split; [by constructor|done].
Qed.

(** The kept votes are a prefix whose last vote is locked out; the popped ones
    are not. *)
Lemma pop_expired_spec slot s :
  exists kept popped, votes s = kept ++ popped /\ votes (pop_expired_votes slot s) = kept /\
    Forall (fun v => last_locked_out_slot v < slot) popped /\
    (forall v, last kept = Some v -> slot <= last_locked_out_slot v).
Proof.
  destruct (pop_expired_rev_spec slot (rev (votes s))) as (popped & H1 & H2 & H3).
  exists (rev (pop_expired_rev slot (rev (votes s)))), (rev popped).
  split_and!.
  - rewrite <- rev_app_distr, <- H1. by rewrite rev_involutive.
  - done.
  - by apply Forall_rev.
  - intros v. rewrite rev_alt. change (rev_append ?l []) with (reverse l). rewrite last_reverse. auto.
Qed.

Lemma tower_wf_prefix kept popped : tower_wf (kept ++ popped) -> tower_wf kept.
Proof.
  intros [Hl He Ha]. rewrite length_app in Hl. split; [lia| |].
  - intros i v Hi. specialize (He i v (lookup_app_l_Some _ _ _ _ Hi)).
    rewrite length_app in He. entry.
  - eauto using lookup_app_l_Some.
Qed.

Lemma tower_wf_tail v l : tower_wf (v :: l) -> tower_wf l.
Proof.
  intros [Hl He Ha]. cbn in *. split; [lia| |].
  - intros i w Hi. specialize (He (S i) w Hi). entry.
  - intros i. apply (Ha (S i)).
Qed.

(** ** Pushing a vote and doubling the lockouts *)

Definition double_at (n i : nat) (v : Lockout) : Lockout :=
  if Z.of_nat i + confirmation_count v <? Z.of_nat n
  then mkLockout (lo_slot v) (as_u32 (confirmation_count v + 1)) else v.

Lemma double_lockouts_votes s :
  votes (double_lockouts s) = imap (double_at (length (votes s))) (votes s).
Proof. done. Qed.

Lemma double_at_slot n i v : lo_slot (double_at n i v) = lo_slot v.
Proof. unfold double_at. by zcases. Qed.

Lemma double_at_conf n i v : 0 <= confirmation_count v <= 31 ->
  confirmation_count (double_at n i v) =
    if Z.of_nat i + confirmation_count v <? Z.of_nat n
    then confirmation_count v + 1 else confirmation_count v.
Proof.
  intros. unfold double_at. zcases; cbn; [|done]. apply Z.mod_small. lia.
Qed.

Lemma double_at_locked n i v : (n <= MAX_LOCKOUT_HISTORY)%nat ->
  0 <= confirmation_count v <= 31 -> slot_ok (lo_slot v) ->
  last_locked_out_slot v <= last_locked_out_slot (double_at n i v).
Proof.
  intros Hn Hc Hs. pose proof (double_at_conf n i v Hc) as Hd. unfold MAX_LOCKOUT_HISTORY in Hn.
  rewrite !last_locked_out_slot_eq; rewrite ?double_at_slot; try done.
  - apply Z.add_le_mono_l, Z.pow_le_mono_r; [lia|]. rewrite Hd. zcases; lia.
  - rewrite Hd. zcases; lia.
Qed.

Lemma pushed_lookup l slot i v :
  (l ++ [Lockout_new slot]) !! i = Some v ->
  l !! i = Some v \/ (i = length l /\ v = Lockout_new slot).
Proof.
  intros [H|[? H]]%lookup_app_Some; [by left|]. right.
  apply list_lookup_singleton_Some in H as [? <-]. split; [lia|done].
Qed.

Lemma push_double_wf l slot :
  tower_wf l -> (length l < MAX_LOCKOUT_HISTORY)%nat -> slot_ok slot ->
  (forall v, last l = Some v -> lo_slot v < slot <= last_locked_out_slot v) ->
  tower_wf (imap (double_at (S (length l))) (l ++ [Lockout_new slot])).
Proof.
  intros Hwf Hlen Hslot Hlast. pose proof (tw_entry _ Hwf) as He.
  assert (forall i v, (l ++ [Lockout_new slot]) !! i = Some v ->
    1 <= confirmation_count v <= 31 /\ Z.of_nat (length l) - Z.of_nat i <= confirmation_count v /\
    slot_ok (lo_slot v) /\ (i <= length l)%nat) as Hpre.
  { intros i v [Hi|[-> ->]]%pushed_lookup; [|cbn; split_and!; auto; lia].
    pose proof (lookup_lt_Some _ _ _ Hi). specialize (He i v Hi). unfold entry_ok in He.
    split_and!; try lia. apply He. }
  split.
  - rewrite length_imap, length_app. cbn. unfold MAX_LOCKOUT_HISTORY in *. lia.
  - intros i v. rewrite length_imap, length_app, list_lookup_imap. cbn.
    intros (u & Hu & ->)%fmap_Some. apply Hpre in Hu as (Hc & Hd & Hs & Hi).
    unfold entry_ok, MAX_LOCKOUT_HISTORY in *.
    rewrite double_at_slot, double_at_conf by lia. split; [|done]. zcases; lia.
  - intros i v w. rewrite !list_lookup_imap.
    intros (u & Hu & ->)%fmap_Some (x & Hx & ->)%fmap_Some.
    pose proof (Hpre _ _ Hu) as (Hc & Hd & Hs & Hi). pose proof (Hpre _ _ Hx) as (Hc' & Hd' & Hs' & Hi').
    assert (lo_slot u < lo_slot x <= last_locked_out_slot u /\
      (confirmation_count x < confirmation_count u \/
       confirmation_count x = 1 /\ S i = length l)) as (Hsl & Hcc).
    { apply pushed_lookup in Hx as [Hx|[Hx ->]].
      - rewrite lookup_app_l in Hu by (apply lookup_lt_Some in Hx; lia).
        pose proof (tw_adj _ Hwf i u x Hu Hx) as (? & ? & ?). auto.
      - rewrite lookup_app_l in Hu by lia. cbn. split; [|by right]. apply Hlast.
        rewrite last_lookup. rewrite <- Hu. f_equal. lia. }
    unfold adjacent_ok. rewrite !double_at_slot. rewrite !double_at_conf by lia.
    pose proof (double_at_locked (S (length l)) i u ltac:(lia) ltac:(lia) Hs).
    split_and!; [lia|zcases; lia|lia].
Qed.

(** ** One vote *)

(** The shape of a vote that is not ignored: the votes split into the kept
    prefix and the popped (expired) suffix; a full stack gives up its oldest
    vote as the new root; the vote is pushed and the lockouts doubled. *)
Lemma process_next_vote_slot_shape slot epoch s :
  already_voted (last_voted_slot s) slot = false ->
  exists kept popped rest,
    votes s = kept ++ popped /\
    Forall (fun v => last_locked_out_slot v < slot) popped /\
    (forall v, last kept = Some v -> slot <= last_locked_out_slot v) /\
    votes (process_next_vote_slot slot epoch s) =
      imap (double_at (S (length rest))) (rest ++ [Lockout_new slot]) /\
    ((length kept ≠ MAX_LOCKOUT_HISTORY /\ rest = kept /\
      root_slot (process_next_vote_slot slot epoch s) = root_slot s /\
      epoch_credits (process_next_vote_slot slot epoch s) = epoch_credits s) \/
     (exists v, length kept = MAX_LOCKOUT_HISTORY /\ kept = v :: rest /\
      root_slot (process_next_vote_slot slot epoch s) = Some (lo_slot v) /\
      epoch_credits (process_next_vote_slot slot epoch s) = epoch_credits (increment_credits epoch s))).
Proof.
  intros Hnew. destruct (pop_expired_spec slot s) as (kept & popped & H1 & H2 & H3 & H4).
  unfold process_next_vote_slot. rewrite Hnew.
  destruct (decide (length (votes (pop_expired_votes slot s)) = MAX_LOCKOUT_HISTORY)) as [Hfull|Hfull];
    rewrite H2 in Hfull.
  - destruct kept as [|v rest]; [done|]. rewrite H2. exists (v :: rest), popped, rest.
    split_and!; try done.
    + rewrite double_lockouts_votes. cbn -[imap]. by rewrite length_app, Nat.add_comm.
    + right. exists v. done.
  - exists kept, popped, kept. split_and!; try done.
    + rewrite double_lockouts_votes. cbn -[imap pop_expired_votes]. rewrite H2, length_app.
      by rewrite Nat.add_comm.
    + left. done.
Qed.

Lemma not_already_voted s slot v :
  already_voted (last_voted_slot s) slot = false -> last (votes s) = Some v -> lo_slot v < slot.
Proof.
  unfold already_voted, last_voted_slot, last_lockout. intros H Hl. rewrite Hl in H.
  cbn in H. apply Z.leb_gt in H. done.
Qed.

Lemma imap_double_elem n l v :
  v ∈ imap (double_at n) l -> exists u, u ∈ l /\ lo_slot v = lo_slot u.
Proof.
  intros [i Hi]%list_elem_of_lookup. rewrite list_lookup_imap in Hi.
  apply fmap_Some in Hi as (u & Hu & ->). exists u. rewrite double_at_slot.
  split; [by eapply list_elem_of_lookup_2|done].
Qed.

Lemma process_next_vote_slot_wf slot epoch s :
  vote_state_wf s -> slot_ok slot -> vote_state_wf (process_next_vote_slot slot epoch s).
Proof.
  intros [Hwf Hroot] Hslot. destruct (already_voted (last_voted_slot s) slot) eqn:Hnew.
  { unfold process_next_vote_slot. by rewrite Hnew. }
  destruct (process_next_vote_slot_shape slot epoch s Hnew)
    as (kept & popped & rest & Hv & Hpop & Hlk & Hv' & Hcase).
  assert (tower_wf kept) as Hk by (rewrite Hv in Hwf; by eapply tower_wf_prefix).
  assert (forall u, u ∈ kept -> u ∈ votes s) as Hsub by (rewrite Hv; set_solver).
  assert (forall u, u ∈ votes s -> lo_slot u < slot) as Hlt.
  { intros u Hu. destruct (last (votes s)) as [w|] eqn:Hl;
      [|apply last_None in Hl; rewrite Hl in Hu; by apply not_elem_of_nil in Hu].
    pose proof (tower_last_max _ _ _ Hwf Hl Hu). pose proof (not_already_voted _ _ _ Hnew Hl). lia. }
  pose proof (tw_len _ Hk) as Hkl.
  assert (tower_wf rest /\ (length rest < MAX_LOCKOUT_HISTORY)%nat /\
    (forall u, last rest = Some u -> last kept = Some u) /\ (forall u, u ∈ rest -> u ∈ kept) /\
    (forall r u, root_slot (process_next_vote_slot slot epoch s) = Some r -> u ∈ rest -> r < lo_slot u)
    /\ (forall r, root_slot (process_next_vote_slot slot epoch s) = Some r -> r < slot))
    as (Hrw & Hrl & Hrlast & Hrsub & Hrr & Hrs).
  { destruct Hcase as [(Hn & -> & -> & _)|(v & Hn & -> & -> & _)].
    - split_and!; try done; [lia| |].
      + intros r u Hrt ?. apply (Hroot r Hrt). auto.
      + intros r Hrt. destruct (Hroot r Hrt) as [Hne Hb].
        destruct (votes s) as [|u us] eqn:Hvs; [done|].
        pose proof (Hb u ltac:(left)). pose proof (Hlt u ltac:(left)). lia.
    - cbn in Hn. split_and!.
      + by eapply tower_wf_tail.
      + lia.
      + intros. by apply last_tail.
      + intros. by right.
      + intros r u [= <-] [i Hi]%list_elem_of_lookup.
        by apply (tower_slots_lt (v :: rest) 0 (S i) v u Hk); [lia| |].
      + intros r [= <-]. apply Hlt, Hsub. left. }
  split.
  - rewrite Hv'. apply push_double_wf; try done. intros v Hvl. apply Hrlast in Hvl.
    split; [|auto]. apply Hlt, Hsub. by apply last_elem.
  - intros r Hrt. rewrite Hv'. split.
    { intros Hnil%(f_equal length). rewrite length_imap, length_app in Hnil. cbn in Hnil. lia. }
    intros u Hu. apply imap_double_elem in Hu as (w & Hw & ->).
    apply elem_of_app in Hw as [Hw|Hw]; [eauto|].
    apply list_elem_of_singleton in Hw as ->. cbn. auto.
Qed.

(** Voting on a sequence of slots, each with the epoch of its bank. *)
Definition vote_all (ballots : list (Slot * Epoch)) (s : VoteState) : VoteState :=
  foldl (fun s b => process_next_vote_slot b.1 b.2 s) s ballots.

Lemma vote_all_wf ballots s :
  vote_state_wf s -> Forall (fun b => slot_ok b.1) ballots -> vote_state_wf (vote_all ballots s).
Proof.
  intros Hwf Hf. revert s Hwf. induction Hf as [|b ballots Hb Hf IH]; intros s Hwf; [done|].
  apply IH, process_next_vote_slot_wf; done.
Qed.

Lemma VoteState_default_wf : vote_state_wf VoteState_default.
Proof. split; [split; [unfold MAX_LOCKOUT_HISTORY; cbn; lia|done|done]|done]. Qed.

(** ** Properties of one vote *)

Lemma double_at_conf_ge n i v : 0 <= confirmation_count v <= 31 ->
  confirmation_count v <= confirmation_count (double_at n i v).
Proof. intros. rewrite double_at_conf by done. zcases; lia. Qed.

(** A vote of the stack survives the next vote with at least its
    confirmations, or becomes the root, or had expired. *)
Theorem no_locked_out_vote_dropped s slot epoch u :
  vote_state_wf s -> u ∈ votes s ->
  let s' := process_next_vote_slot slot epoch s in
  (exists u', u' ∈ votes s' /\ lo_slot u' = lo_slot u /\
     confirmation_count u <= confirmation_count u') \/
  root_slot s' = Some (lo_slot u) \/
  is_locked_out_at_slot u slot = false.
Proof.
  intros [Hwf _] Hu s'. subst s'. destruct (already_voted (last_voted_slot s) slot) eqn:Hnew.
  { left. exists u. unfold process_next_vote_slot. rewrite Hnew. done. }
  destruct (process_next_vote_slot_shape slot epoch s Hnew)
    as (kept & popped & rest & Hv & Hpop & _ & Hv' & Hcase).
  pose proof Hu as [j Hj]%list_elem_of_lookup.
  pose proof (entry_ok_conf _ _ _ (tw_entry _ Hwf j u Hj) (lookup_lt_Some _ _ _ Hj)) as Hc.
  rewrite Hv in Hu. apply elem_of_app in Hu as [Hu|Hu]; last first.
  { right. right. rewrite Forall_forall in Hpop. specialize (Hpop u Hu).
    unfold is_locked_out_at_slot. by apply Z.leb_gt. }
  assert (root_slot (process_next_vote_slot slot epoch s) = Some (lo_slot u) \/ u ∈ rest) as [?|Hr].
  { destruct Hcase as [(_ & -> & _)|(v & _ & -> & Hr & _)]; [by right|].
    apply elem_of_cons in Hu as [->|?]; auto. }
  { by right; left. }
  left. apply list_elem_of_lookup in Hr as [i Hi].
  exists (double_at (S (length rest)) i u). rewrite double_at_slot.
  split_and!; [|done|by apply double_at_conf_ge]. rewrite Hv'.
  apply (list_elem_of_lookup_2 _ i). rewrite list_lookup_imap, (lookup_app_l_Some _ _ _ _ Hi). done.
Qed.

Lemma no_locked_out_vote_dropped_witness :
  let s := vote_all [(1, 0); (2, 0)] VoteState_default in
  (exists u', u' ∈ votes (process_next_vote_slot 4 0 s) /\ lo_slot u' = 1 /\ 2 <= confirmation_count u') \/
  root_slot (process_next_vote_slot 4 0 s) = Some 1 \/
  is_locked_out_at_slot (mkLockout 1 2) 4 = false.
Proof.
  apply (no_locked_out_vote_dropped (vote_all [(1, 0); (2, 0)] VoteState_default) 4 0 (mkLockout 1 2)).
  - apply vote_all_wf; [apply VoteState_default_wf|]. repeat constructor; cbn; u64.
  - vm_compute. left.
Defined.

(** The root changes only to the oldest vote of a full stack, which then has
    the maximum of 31 confirmations, and it moves forward. *)
Theorem root_is_fully_confirmed s slot epoch :
  vote_state_wf s ->
  let s' := process_next_vote_slot slot epoch s in
  root_slot s' ≠ root_slot s ->
  exists u, head (votes s) = Some u /\ confirmation_count u = 31 /\
    root_slot s' = Some (lo_slot u) /\
    (forall r, root_slot s = Some r -> r < lo_slot u) /\
    epoch_credits s' = epoch_credits (increment_credits epoch s).
Proof.
  intros [Hwf Hroot] s' Hne. subst s'. destruct (already_voted (last_voted_slot s) slot) eqn:Hnew.
  { unfold process_next_vote_slot in Hne. by rewrite Hnew in Hne. }
  destruct (process_next_vote_slot_shape slot epoch s Hnew)
    as (kept & popped & rest & Hv & _ & _ & _ & [(_ & _ & Hr & _)|(v & Hn & -> & Hr & Hec)]); [done|].
  assert (votes s !! 0%nat = Some v) as H0 by (rewrite Hv; done).
  assert (popped = []) as ->.
  { pose proof (tw_len _ Hwf) as Hl. rewrite Hv, length_app, Hn in Hl.
    destruct popped; [done|cbn [length] in Hl; lia]. }
  rewrite app_nil_r in Hv. exists v. split_and!; try done.
  - by rewrite Hv.
  - pose proof (tw_entry _ Hwf 0 v H0) as [Hc _]. rewrite Hv, Hn in Hc.
    unfold MAX_LOCKOUT_HISTORY in Hc. lia.
  - intros r Hrr. apply (Hroot r Hrr). rewrite Hv. left.
Qed.

(** Slots 1 to 31, voted in turn: a full stack. *)
Definition full_tower : VoteState :=
  vote_all ((fun i => (Z.of_nat i, 0)) <$> seq 1 31) VoteState_default.

Lemma full_tower_wf : vote_state_wf full_tower.
Proof.
  apply vote_all_wf; [apply VoteState_default_wf|]. apply Forall_fmap, Forall_forall.
  intros i Hi%list_elem_of_In%in_seq. cbn. unfold slot_ok. u64.
Qed.

Lemma root_is_fully_confirmed_witness :
  exists u, head (votes full_tower) = Some u /\ confirmation_count u = 31 /\
    root_slot (process_next_vote_slot 32 0 full_tower) = Some (lo_slot u) /\
    (forall r, root_slot full_tower = Some r -> r < lo_slot u) /\
    epoch_credits (process_next_vote_slot 32 0 full_tower) = epoch_credits (increment_credits 0 full_tower).
Proof.
  apply (root_is_fully_confirmed full_tower 32 0); [apply full_tower_wf|]. vm_compute. done.
Defined.
