(* ===== verification/VoteCredits.v ===== *)
(** * Vote credits

    [increment_credits] and the history [epoch_credits] it maintains: one entry
    [(epoch, credits, prev_credits)] per epoch, at most 64 of them, chained so
    that an entry starts where the one before it ended. *)
From stdpp Require Import base list option sets.
From S2P Require Import Prelude VoteState.

Abbreviation credit_entry := (Epoch * Z * Z)%type.

(** ** The invariant *)

Definition entry_credits_ok (x : credit_entry) : Prop := 0 <= x.2 <= x.1.2 /\ x.1.2 <= U64_MAX.

(** The later entry starts at the credits and after the epoch of the earlier one. *)
Definition chained (x y : credit_entry) : Prop := y.2 = x.1.2 /\ x.1.1 < y.1.1.

Record credits_wf (ec : list credit_entry) : Prop := {
  cw_len : (length ec <= MAX_EPOCH_CREDITS_HISTORY)%nat;
  cw_entry x : x ∈ ec -> entry_credits_ok x;
  cw_chain i x y : ec !! i = Some x -> ec !! S i = Some y -> chained x y;
}.

(** The credits the history records for an epoch. *)
Definition earned (epoch : Epoch) (ec : list credit_entry) : Z :=
  foldr (fun x acc => (if x.1.1 =? epoch then x.1.2 - x.2 else 0) + acc) 0 ec.

(** ** Generic lemmas *)

Lemma update_last_snoc {A} (f : A -> A) l x : update_last f (l ++ [x]) = l ++ [f x].
Proof. unfold update_last. by rewrite last_snoc, removelast_last. Qed.

Lemma earned_app epoch l1 l2 : earned epoch (l1 ++ l2) = earned epoch l1 + earned epoch l2.
Proof. induction l1 as [|x l1 IH]; cbn; [done|]. unfold earned in *. lia. Qed.

Lemma credits_wf_nil : credits_wf [].
Proof. split; [cbn; unfold MAX_EPOCH_CREDITS_HISTORY; lia|set_solver|done]. Qed.

Lemma credits_wf_snoc l x :
  (length l < MAX_EPOCH_CREDITS_HISTORY)%nat -> credits_wf l -> entry_credits_ok x ->
  (forall y, last l = Some y -> chained y x) -> credits_wf (l ++ [x]).
Proof.
  intros Hlen [_ He Hc] Hx Hl. split.
  - rewrite length_app. cbn. lia.
  - intros y [Hy|Hy]%elem_of_app; [auto|]. by apply list_elem_of_singleton in Hy as ->.
  - intros i a b Ha Hb. apply lookup_app_Some in Hb as [Hb|[Hge Hb]].
    + rewrite lookup_app_l in Ha by (apply lookup_lt_Some in Hb; lia). eauto.
    + apply list_lookup_singleton_Some in Hb as [Hi <-].
      rewrite lookup_app_l in Ha by lia. apply Hl. rewrite last_lookup, <- Ha. f_equal. lia.
Qed.

Lemma credits_wf_init l x : credits_wf (l ++ [x]) ->
  credits_wf l /\ entry_credits_ok x /\ (forall y, last l = Some y -> chained y x) /\
  (length l < MAX_EPOCH_CREDITS_HISTORY)%nat.
Proof.
  intros [Hlen He Hc]. rewrite length_app in Hlen. cbn in Hlen. split_and!.
  - split; [lia|set_solver|]. eauto using lookup_app_l_Some.
  - apply He. set_solver.
  - intros y Hy. rewrite last_lookup in Hy. eapply (Hc (pred (length l))).
    + by apply lookup_app_l_Some.
    + assert (0 < length l)%nat by (destruct l; cbn; [done|lia]).
      replace (S (pred (length l))) with (length l) by lia.
      by rewrite list_lookup_middle.
  - lia.
Qed.

Lemma credits_wf_tail x l : credits_wf (x :: l) -> credits_wf l.
Proof.
  intros [Hlen He Hc]. cbn in Hlen. split; [lia|set_solver|]. intros i. apply (Hc (S i)).
Qed.

(** ** The history after one more credit *)

(** [ec'] keeps the entries [kept] of the history and ends with the credited
    entry of the epoch. *)
Lemma increment_credits_shape epoch s :
  credits_wf (epoch_credits s) ->
  exists kept c p,
    epoch_credits (increment_credits epoch s) = kept ++ [(epoch, add64 c 1, p)] /\
    c = credits s /\
    ((epoch_credits s = [] /\ kept = [] /\ c = 0 /\ p = 0) \/
     epoch_credits s = kept ++ [(epoch, c, p)] \/
     (exists e, epoch_credits s = kept ++ [(e, c, p)] /\ e ≠ epoch /\ c = p) \/
     (exists e p', last (epoch_credits s) = Some (e, c, p') /\ e ≠ epoch /\ p = c /\
        (epoch_credits s = kept /\ (length kept < MAX_EPOCH_CREDITS_HISTORY)%nat \/
         exists x, epoch_credits s = x :: kept /\
           length (epoch_credits s) = MAX_EPOCH_CREDITS_HISTORY))).
Proof.
  intros Hwf. unfold increment_credits, credits. pose proof (cw_len _ Hwf) as Hlen.
  destruct (last_app_singleton_cases (epoch_credits s)) as [Hnil|(l & [[e c] p] & Heq)].
  { rewrite Hnil. cbn. exists [], 0, 0. naive_solver. }
  rewrite Heq in *. rewrite last_snoc. destruct (Z.eqb_spec epoch e) as [->|Hne]; cbn [negb].
  { exists l, c, p. cbn. rewrite update_last_snoc. naive_solver. }
  destruct (Z.eqb_spec c p) as [->|Hcp]; cbn [negb].
  - rewrite update_last_snoc. cbn [fst snd].
    rewrite decide_False by (rewrite length_app in *; cbn in *; lia).
    exists l, p, p. cbn. rewrite update_last_snoc. naive_solver.
  - rewrite (length_app (l ++ _)). cbn [length]. destruct (decide _) as [Hd|Hd].
    + destruct (l ++ [(e, c, p)]) as [|x kept] eqn:Hx; [by destruct l|].
      exists kept, c, c. cbn [app drop set_epoch_credits epoch_credits]. rewrite ?drop_0.
      rewrite update_last_snoc. cbn. split; [done|]. split; [done|]. right. right. right.
      exists e, p. split_and!; try done. right. exists x.
      split; [done|]. cbn [length] in *. lia.
    + exists (l ++ [(e, c, p)]), c, c. cbn [set_epoch_credits epoch_credits].
      rewrite update_last_snoc. cbn. split; [done|]. split; [done|]. right. right. right.
      exists e, p. split_and!; try done. left. split; [done|]. lia.
Qed.

Lemma earned_chained_absent l x epoch :
  credits_wf (l ++ [x]) -> x.1.1 <= epoch -> earned epoch l = 0.
Proof.
  revert x. induction l as [|y l IH] using rev_ind; intros x Hwf Hle; [done|].
  pose proof (credits_wf_init _ _ Hwf) as (Hwf' & _ & Hch & _).
  destruct (Hch y ltac:(by rewrite last_snoc)) as [_ Hlt].
  rewrite earned_app. rewrite (IH y Hwf') by lia. cbn.
  destruct (Z.eqb_spec y.1.1 epoch); lia.
Qed.

Lemma increment_credits_wf epoch s :
  credits_wf (epoch_credits s) -> credits s < U64_MAX ->
  (forall x, last (epoch_credits s) = Some x -> x.1.1 <= epoch) ->
  credits_wf (epoch_credits (increment_credits epoch s)).
Proof.
  intros Hwf Hov Hmono. pose proof (increment_credits_shape epoch s Hwf)
    as (kept & c & p & -> & Hc & Hcase).
  assert (forall z, 0 <= z < U64_MAX -> add64 z 1 = z + 1) as Hadd
    by (intros; apply add64_small; u64).
  destruct Hcase as [(_ & -> & -> & ->)|[He|[(e & He & Hne & ->)|(e & p' & Hl & Hne & -> & He)]]].
  - apply (credits_wf_snoc []); [cbn; unfold MAX_EPOCH_CREDITS_HISTORY; lia|apply credits_wf_nil| |done].
    rewrite Hadd by u64. unfold entry_credits_ok. cbn. u64.
  - rewrite He in Hwf. apply credits_wf_init in Hwf as (Hw & Hx & Hch & Hlen).
    unfold entry_credits_ok in Hx; cbn in Hx.
    apply credits_wf_snoc; auto. rewrite Hadd by lia. unfold entry_credits_ok; cbn; lia.
  - rewrite He in Hwf. apply credits_wf_init in Hwf as (Hw & Hx & Hch & Hlen).
    unfold entry_credits_ok in Hx; cbn in Hx. rewrite He, last_snoc in Hmono.
    specialize (Hmono _ eq_refl). cbn in Hmono.
    apply credits_wf_snoc; auto; [rewrite Hadd by lia; unfold entry_credits_ok; cbn; lia|].
    intros y Hy. destruct (Hch y Hy) as [? ?]. unfold chained; cbn in *. lia.
  - assert (entry_credits_ok (e, c, p')) as Hx by (apply (cw_entry _ Hwf), last_elem, Hl).
    unfold entry_credits_ok in Hx; cbn in Hx. specialize (Hmono _ Hl). cbn in Hmono.
    assert (entry_credits_ok (epoch, add64 c 1, c)) as Hy
      by (rewrite Hadd by lia; unfold entry_credits_ok; cbn; lia).
    assert (chained (e, c, p') (epoch, add64 c 1, c)) as Hch by (split; cbn; lia).
    destruct He as [[<- Hlen]|(x & He & Hlen)].
    + apply credits_wf_snoc; auto. intros y Hy'. by rewrite Hl in Hy'; injection Hy' as <-.
    + rewrite He in Hwf, Hl, Hlen. cbn in Hlen. apply credits_wf_snoc; auto.
      * lia.
      * by eapply credits_wf_tail.
      * intros y Hy'. assert (last (x :: kept) = Some y) as Hl' by (by apply last_tail).
        rewrite Hl in Hl'. by injection Hl' as <-.
Qed.

Lemma earned_fresh ec epoch :
  credits_wf ec -> (forall x, last ec = Some x -> x.1.1 < epoch) -> earned epoch ec = 0.
Proof.
  intros Hwf Hl. destruct (last_app_singleton_cases ec) as [->|(l & x & ->)]; [done|].
  specialize (Hl x ltac:(by rewrite last_snoc)).
  rewrite earned_app, (earned_chained_absent l x) by (done || lia). cbn.
  destruct (Z.eqb_spec x.1.1 epoch); lia.
Qed.

Lemma earned_cons_ne e x l : x.1.1 ≠ e -> earned e (x :: l) = earned e l.
Proof. intros. cbn. destruct (Z.eqb_spec x.1.1 e); [done|]. unfold earned. lia. Qed.

Lemma earned_last_epoch e ep c p kept :
  earned e (kept ++ [(ep, c, p)]) = earned e kept + (if ep =? e then c - p else 0).
Proof. rewrite earned_app. cbn. lia. Qed.

(** One more credit in an epoch not before the last recorded one: the history
    stays well formed, the total and the epoch's own count grow by one, and the
    count of every other epoch stays, the oldest entry of a full history apart. *)
Theorem increment_credits_correct epoch s :
  credits_wf (epoch_credits s) -> credits s < U64_MAX ->
  (forall x, last (epoch_credits s) = Some x -> x.1.1 <= epoch) ->
  let s' := increment_credits epoch s in
  credits_wf (epoch_credits s') /\ credits s' = credits s + 1 /\ current_epoch s' = epoch /\
  earned epoch (epoch_credits s') = earned epoch (epoch_credits s) + 1 /\
  (forall e, e ≠ epoch ->
     earned e (epoch_credits s') = earned e (epoch_credits s) \/
     (length (epoch_credits s) = MAX_EPOCH_CREDITS_HISTORY /\
      exists x, head (epoch_credits s) = Some x /\ x.1.1 = e)).
Proof.
  intros Hwf Hov Hmono s'. split; [by apply increment_credits_wf|].
  pose proof (increment_credits_shape epoch s Hwf) as (kept & c & p & Heq & Hc & Hcase).
  assert (0 <= c) as Hc0.
  { rewrite Hc. unfold credits. destruct (last (epoch_credits s)) as [[[e0 c0] p0]|] eqn:El; [|lia].
    apply last_elem, (cw_entry _ Hwf) in El. unfold entry_credits_ok in El. cbn in El. lia. }
  assert (add64 c 1 = c + 1) as Hadd by (apply add64_small; rewrite <- Hc in Hov; u64).
  subst s'. unfold credits, current_epoch. rewrite Heq, last_snoc, Hadd.
  fold (credits s). rewrite <- Hc. split; [done|]. split; [done|].
  assert (forall e, e ≠ epoch -> (epoch =? e) = false) as Hneq by (intros; apply Z.eqb_neq; lia).
  setoid_rewrite earned_last_epoch. rewrite Z.eqb_refl.
  destruct Hcase as [(He & -> & -> & ->)|[He|[(e & He & Hne & ->)|(e & p' & Hl & Hne & -> & He)]]].
  - rewrite He. cbn. split; [done|]. intros e Hne. rewrite Hneq by done. by left.
  - rewrite He. setoid_rewrite earned_last_epoch. rewrite Z.eqb_refl. split; [lia|].
    intros e Hne. rewrite Hneq by done. by left.
  - rewrite He. setoid_rewrite earned_last_epoch. rewrite (proj2 (Z.eqb_neq e epoch)) by lia.
    split; [lia|]. intros e' Hne'. rewrite Hneq by done. left. destruct (e =? e'); lia.
  - pose proof (Hmono _ Hl) as Hle. cbn in Hle. destruct He as [[-> _]|(x & He & Hlen)].
    { split; [lia|]. intros e' Hne'. rewrite Hneq by done. left. lia. }
    assert (earned epoch (epoch_credits s) = 0) as Hz.
    { apply earned_fresh; [done|]. intros y Hy. rewrite Hl in Hy. injection Hy as <-. cbn. lia. }
    assert (earned epoch kept = 0) as Hz'.
    { rewrite He in Hwf, Hl. apply earned_fresh; [by eapply credits_wf_tail|].
      intros y Hy. apply (last_tail x) in Hy. rewrite Hl in Hy. injection Hy as <-. cbn. lia. }
    split; [lia|]. intros e' Hne'. rewrite Hneq by done.
    destruct (decide (x.1.1 = e')) as [|Hx]; [right; rewrite He in *; eauto|].
    left. rewrite He, earned_cons_ne by done. lia.
Qed.

Lemma increment_credits_correct_witness :
  let s := set_epoch_credits [(0, 5, 0); (3, 9, 5)] VoteState_default in
  credits (increment_credits 4 s) = 10 /\ earned 4 (epoch_credits (increment_credits 4 s)) = 1.
Proof.
  destruct (increment_credits_correct 4 (set_epoch_credits [(0, 5, 0); (3, 9, 5)] VoteState_default))
    as (_ & Hc & _ & He & _).
  - split.
    + vm_compute. lia.
    + intros x Hx. unfold entry_credits_ok. cbn in Hx.
      rewrite !elem_of_cons, elem_of_nil in Hx. destruct Hx as [->|[->|[]]]; cbn; u64.
    + intros [|[|i]] x y Hx Hy; cbn in *; [|done|done]. by simplify_eq.
  - vm_compute. done.
  - intros x Hx. vm_compute in Hx. injection Hx as <-. cbn. lia.
  - split; [rewrite Hc; reflexivity|rewrite He; reflexivity].
Defined.
