(* ===== verification/VoteSlots.v ===== *)
(** * Matching a vote against the recent slot hashes

    [check_slots_are_valid] walks the vote's slots (oldest first) and the slot
    hashes (newest first) with two indices. Its result is the one of a
    set-based specification. *)
From stdpp Require Import base list option sets sorting.
From S2P Require Import Prelude VoteState.

(** ** Specification *)

(** The slots of the vote that are newer than the last voted one. *)
Definition new_slots (lv : option Slot) (slots : list Slot) : list Slot :=
  filter (fun s => already_voted lv s = false) slots.

(** What the check promises for a vote whose slots increase, against slot
    hashes whose slots decrease. *)
Definition check_slots_spec (lv : option Slot) (vote : Vote) (slot_hashes : list (Slot * Hash))
  : outcome VoteError unit :=
  match last (new_slots lv (vote_slots vote)) with
  | None => Err VoteTooOld
  | Some newest =>
      if decide (slot_hashes = []) then Err VoteTooOld
      else if decide (Forall (fun s => s ∈ slot_hashes.*1) (new_slots lv (vote_slots vote))) then
        if decide ((newest, vote_hash vote) ∈ slot_hashes) then Ok tt else Err SlotHashMismatch
      else Err SlotsMismatch
  end.

(** ** The loop *)

Section loop.
Context (lv : option Slot) (slots : list Slot) (sh : list (Slot * Hash)).

(** What holds at every turn: the new slots passed so far occur in order in the
    hashes passed so far, and [j] stands on the hash of the last of them unless
    the slot at [i] is a new one still searched for. *)
Record loop_inv (i j : nat) : Prop := {
  li_i : (i <= length slots)%nat;
  li_j : (j <= length sh)%nat;
  li_sub : new_slots lv (take i slots) ⊆ (drop j sh).*1;
  li_at : (j = length sh /\ new_slots lv (take i slots) = []) \/
          (exists s h, last (new_slots lv (take i slots)) = Some s /\ sh !! j = Some (s, h)) \/
          (exists s, slots !! i = Some s /\ already_voted lv s = false /\ (j < length sh)%nat);
}.

Lemma new_slots_take_S i s : slots !! i = Some s ->
  new_slots lv (take (i + 1) slots) =
    new_slots lv (take i slots) ++ (if already_voted lv s then [] else [s]).
Proof.
  intros Hs. rewrite Nat.add_1_r, (take_S_r _ _ s) by done. unfold new_slots.
  rewrite filter_app. f_equal. rewrite filter_cons, filter_nil.
  destruct (already_voted lv s); [rewrite decide_False by done|rewrite decide_True by done]; done.
Qed.

Lemma drop_pred j x : (0 < j)%nat -> sh !! (j - 1)%nat = Some x -> drop (j - 1) sh = x :: drop j sh.
Proof.
  intros Hj Hx. rewrite (drop_S _ x (j - 1)) by done. do 2 f_equal. lia.
Qed.

Lemma loop_inv_skip i j s : loop_inv i j -> slots !! i = Some s -> already_voted lv s = true ->
  loop_inv (i + 1) j.
Proof.
  intros [Hi Hj Hsub Hat] Hs Ha. pose proof (lookup_lt_Some _ _ _ Hs).
  split; [lia|done| |]; rewrite (new_slots_take_S i s Hs), Ha, app_nil_r; [done|].
  destruct Hat as [?|[?|(s' & Hs' & Ha' & _)]]; [by left|by right; left|]. congruence.
Qed.

Lemma loop_inv_decr i j s x : loop_inv i j -> slots !! i = Some s -> already_voted lv s = false ->
  (0 < j)%nat -> sh !! (j - 1)%nat = Some x -> loop_inv i (j - 1).
Proof.
  intros [Hi Hj Hsub Hat] Hs Ha Hj0 Hx. split; [done|lia| |].
  - rewrite (drop_pred j x) by done. cbn. set_solver.
  - right. right. exists s. split_and!; [done|done|lia].
Qed.

Lemma loop_inv_match i j s h : loop_inv i j -> slots !! i = Some s -> already_voted lv s = false ->
  (0 < j)%nat -> sh !! (j - 1)%nat = Some (s, h) -> loop_inv (i + 1) (j - 1).
Proof.
  intros [Hi Hj Hsub Hat] Hs Ha Hj0 Hx. pose proof (lookup_lt_Some _ _ _ Hs).
  split; [lia|lia| |].
  - rewrite (new_slots_take_S i s Hs), Ha, (drop_pred j (s, h)) by done. cbn. set_solver.
  - right. left. exists s, h. rewrite (new_slots_take_S i s Hs), Ha, last_snoc. done.
Qed.

(** The slots still to come are all present in the hashes still to come; kept
    by the loop when the slots increase and the hashes decrease. *)
Definition all_ahead (i j : nat) : Prop :=
  forall s, s ∈ new_slots lv (drop i slots) -> s ∈ (take j sh).*1.

Lemma check_slots_loop_inv fuel i j i' j' :
  loop_inv i j -> (length slots - i + j <= fuel)%nat ->
  check_slots_loop fuel lv slots sh i j = (i', j') ->
  loop_inv i' j' /\ (i' = length slots \/ j' = 0%nat).
Proof.
  revert i j. induction fuel as [|fuel IH]; intros i j Hinv Hf; cbn.
  { intros [= <- <-]. split; [done|]. pose proof (li_i _ _ Hinv). lia. }
  destruct (decide _) as [[Hi Hj]|Hn]; last first.
  { intros [= <- <-]. split; [done|]. pose proof (li_i _ _ Hinv). lia. }
  destruct (lookup_lt_is_Some_2 slots i Hi) as [s Hs].
  destruct (lookup_lt_is_Some_2 sh (j - 1)) as [[h0 h1] Hh]; [pose proof (li_j _ _ Hinv); lia|].
  rewrite Hs, Hh. destruct (already_voted lv s) eqn:Ha.
  { apply IH; [by eapply loop_inv_skip|lia]. }
  destruct (Z.eqb_spec s h0) as [<-|Hne]; cbn.
  - apply IH; [by eapply loop_inv_match|lia].
  - apply IH; [by eapply loop_inv_decr|lia].
Qed.

Lemma new_slots_lookup i s : s ∈ new_slots lv (drop i slots) <->
  already_voted lv s = false /\ exists k, slots !! k = Some s /\ (i <= k)%nat.
Proof. unfold new_slots. by rewrite list_elem_of_filter, elem_of_drop_lookup. Qed.

Lemma taken_lookup j s : s ∈ (take j sh).*1 <->
  exists k h, sh !! k = Some (s, h) /\ (k < j)%nat.
Proof.
  rewrite list_elem_of_fmap. setoid_rewrite elem_of_take. split.
  - intros ([s' h] & -> & k & ? & ?). eauto.
  - intros (k & h & ? & ?). exists (s, h). eauto.
Qed.

Lemma check_slots_loop_ahead fuel i j i' j' :
  StronglySorted Z.lt slots -> StronglySorted (fun a b => b.1 < a.1) sh ->
  all_ahead i j -> check_slots_loop fuel lv slots sh i j = (i', j') -> all_ahead i' j'.
Proof.
  intros Hss Hsh. revert i j. induction fuel as [|fuel IH]; intros i j Hall; cbn;
    [by intros [= <- <-]|].
  destruct (decide _) as [[Hi Hj]|Hn]; [|by intros [= <- <-]].
  destruct (lookup_lt_is_Some_2 slots i Hi) as [s Hs]. rewrite Hs.
  destruct (sh !! (j - 1)%nat) as [[h0 h1]|] eqn:Hh; [|by intros [= <- <-]].
  assert (all_ahead (i + 1) j) as Hall1.
  { intros s' (Ha & k & Hk & Hle)%new_slots_lookup. apply Hall, new_slots_lookup.
    split; [done|]. exists k. split; [done|lia]. }
  destruct (already_voted lv s) eqn:Ha; [by apply IH|].
  assert (forall s' k h, sh !! k = Some (s', h) -> (k < j)%nat -> s' = h0 \/ (k < j - 1)%nat) as Hlast.
  { intros s' k h Hk Hlt. destruct (decide (k = (j - 1)%nat)) as [->|]; [left; congruence|right; lia]. }
  destruct (Z.eqb_spec s h0) as [<-|Hne]; cbn; apply IH; intros s' Hs'.
  - pose proof (Hall1 s' Hs') as (k & h & Hk & Hlt)%taken_lookup. apply taken_lookup.
    exists k, h. split; [done|]. destruct (Hlast s' k h Hk Hlt) as [->|]; [|done].
    apply new_slots_lookup in Hs' as (_ & m & Hm & Hle).
    pose proof (StronglySorted_lookup Z.lt _ i m _ _ Hss ltac:(lia) Hs Hm). lia.
  - pose proof (Hall s' Hs') as (k & h & Hk & Hlt)%taken_lookup. apply taken_lookup.
    exists k, h. split; [done|]. destruct (Hlast s' k h Hk Hlt) as [->|]; [|done]. exfalso.
    pose proof (Hall s ltac:(apply new_slots_lookup; eauto)) as (k0 & h' & Hk0 & Hlt0)%taken_lookup.
    destruct (Hlast s k0 h' Hk0 Hlt0) as [|Hk0']; [done|].
    pose proof (StronglySorted_lookup _ _ k0 (j - 1) _ _ Hsh Hk0' Hk0 Hh) as Hgt. cbn in Hgt.
    apply new_slots_lookup in Hs' as (_ & m & Hm & Hle).
    destruct (decide (m = i)) as [->|]; [congruence|].
    pose proof (StronglySorted_lookup Z.lt _ i m _ _ Hss ltac:(lia) Hs Hm). lia.
Qed.

End loop.

(** ** The check meets its specification *)

Lemma already_voted_mono lv s s' :
  already_voted lv s = false -> s < s' -> already_voted lv s' = false.
Proof. destruct lv as [l|]; cbn; [|done]. rewrite !Z.leb_gt. lia. Qed.

Lemma new_slots_take_sub lv slots i s :
  s ∈ new_slots lv (take i slots) -> s ∈ new_slots lv slots /\
  exists k, slots !! k = Some s /\ (k < i)%nat.
Proof.
  unfold new_slots. rewrite !list_elem_of_filter, elem_of_take.
  intros (Ha & k & Hk & Hlt). split; [split; [done|by eapply list_elem_of_lookup_2]|eauto].
Qed.

Lemma slot_hash_unique (sh : list (Slot * Hash)) s h h' j :
  StronglySorted (fun a b => b.1 < a.1) sh -> sh !! j = Some (s, h) -> (s, h') ∈ sh -> h = h'.
Proof.
  intros Hs Hj [k Hk]%list_elem_of_lookup. destruct (Nat.lt_trichotomy j k) as [H|[->|H]].
  - pose proof (StronglySorted_lookup _ _ _ _ _ _ Hs H Hj Hk) as Hgt. cbn in Hgt. lia.
  - congruence.
  - pose proof (StronglySorted_lookup _ _ _ _ _ _ Hs H Hk Hj) as Hgt. cbn in Hgt. lia.
Qed.

(** When the walk stops before the end of the vote, a new slot is missing. *)
Lemma stuck_missing lv slots sh i :
  StronglySorted Z.lt slots -> loop_inv lv slots sh i 0 -> (i < length slots)%nat -> sh ≠ [] ->
  all_ahead lv slots sh i 0 -> False.
Proof.
  intros Hss Hinv Hi Hne Hall. destruct (lookup_lt_is_Some_2 slots i Hi) as [x Hx].
  assert (already_voted lv x = false) as Hax.
  { destruct (li_at _ _ _ _ _ Hinv) as [[Hn _]|[(s & h & Hl & _)|(s & Hs & Ha & _)]].
    - destruct sh; [done|]. by cbn in Hn.
    - apply last_elem in Hl. pose proof (new_slots_take_sub _ _ _ _ Hl) as (Hs & k & Hk & Hlt).
      apply list_elem_of_filter in Hs as [Ha _]. eapply already_voted_mono; [exact Ha|].
      by apply (StronglySorted_lookup Z.lt _ k i _ _ Hss Hlt).
    - congruence. }
  pose proof (Hall x ltac:(apply new_slots_lookup; eauto)) as (k & h & _ & Hk)%taken_lookup. lia.
Qed.

(** Whatever the order of its slots, an accepted vote has only slots that were
    voted before or have a slot hash. *)
Lemma check_slots_are_valid_sound s vote slot_hashes : check_slots_are_valid s vote slot_hashes = Ok tt ->
  forall slot, slot ∈ vote_slots vote ->
  already_voted (last_voted_slot s) slot = true \/ slot ∈ slot_hashes.*1.
Proof.
  unfold check_slots_are_valid. set (lv := last_voted_slot s). set (slots := vote_slots vote).
  destruct (check_slots_loop _ lv slots slot_hashes 0 (length slot_hashes)) as [i j] eqn:Hloop.
  assert (loop_inv lv slots slot_hashes 0 (length slot_hashes)) as Hinv0
    by (split; [lia|lia|cbn; set_solver|by left]).
  pose proof Hloop as [Hinv _]%check_slots_loop_inv; [|exact Hinv0|lia].
  destruct (decide (j = length slot_hashes)); [done|]. destruct (decide (i ≠ length slots)) as [|Hi]; [done|].
  apply dec_stable in Hi. intros _ slot Hslot. destruct (already_voted lv slot) eqn:Ha; [by left|right].
  assert (slot ∈ new_slots lv (take i slots)) as Hnew
    by (apply list_elem_of_filter; by rewrite Hi, take_ge by lia).
  apply (li_sub _ _ _ _ _ Hinv) in Hnew. apply list_elem_of_fmap in Hnew as ([s0 h] & -> & Hd).
  apply elem_of_drop_lookup in Hd as (k & Hk & _). apply list_elem_of_fmap. exists (s0, h).
  split; [done|]. by eapply list_elem_of_lookup_2.
Qed.

(** C32. For a vote with increasing slots against decreasing slot hashes, the
    two-index walk answers exactly the specification and never reads out of
    range: too old without a new slot, mismatch when a new slot is unknown,
    hash mismatch when the newest slot has another hash, accepted otherwise. *)
Theorem check_slots_are_valid_correct s vote slot_hashes :
  StronglySorted Z.lt (vote_slots vote) ->
  StronglySorted (fun a b => b.1 < a.1) slot_hashes ->
  check_slots_are_valid s vote slot_hashes = check_slots_spec (last_voted_slot s) vote slot_hashes.
Proof.
  intros Hss Hsh. unfold check_slots_are_valid, check_slots_spec.
  set (lv := last_voted_slot s). set (slots := vote_slots vote) in *.
  destruct (check_slots_loop _ lv slots slot_hashes 0 (length slot_hashes)) as [i j] eqn:Hloop.
  assert (loop_inv lv slots slot_hashes 0 (length slot_hashes)) as Hinv0
    by (split; [lia|lia|cbn; set_solver|by left]).
  pose proof Hloop as [Hinv Hend]%check_slots_loop_inv; [|exact Hinv0|lia].
  destruct (last (new_slots lv slots)) as [newest|] eqn:Hnew; last first.
  { apply last_None in Hnew. rewrite decide_True; [done|].
    destruct (li_at _ _ _ _ _ Hinv) as [[? _]|[(x & h & Hl & _)|(x & Hx & Ha & _)]]; [done| |].
    - apply last_elem, new_slots_take_sub in Hl as [Hl _]. rewrite Hnew in Hl. set_solver.
    - assert (x ∈ new_slots lv slots) as Hin
        by (apply list_elem_of_filter; split; [done|by eapply list_elem_of_lookup_2]).
      rewrite Hnew in Hin. set_solver. }
  destruct (decide (slot_hashes = [])) as [->|Hne].
  { rewrite decide_True; [done|]. pose proof (li_j _ _ _ _ _ Hinv). cbn in *. lia. }
  rewrite decide_False; last first.
  { intros ->. destruct (li_at _ _ _ _ _ Hinv) as [[_ Hnil]|[(x & h & _ & Hx)|(x & _ & _ & Hx)]].
    - destruct Hend as [->|H0]; [|by apply nil_length_inv in H0].
      rewrite firstn_all, <- (last_None (new_slots lv slots)) in Hnil. congruence.
    - apply lookup_lt_Some in Hx. lia.
    - lia. }
  destruct (decide (i ≠ length slots)) as [Hi|Hi].
  - rewrite decide_False; [done|]. intros Hall. destruct Hend as [?| ->]; [done|].
    apply (stuck_missing lv slots slot_hashes i Hss Hinv);
      [pose proof (li_i _ _ _ _ _ Hinv); lia|done|].
    eapply check_slots_loop_ahead; [done|done| |exact Hloop].
    intros x Hx. rewrite firstn_all. rewrite drop_0 in Hx. rewrite Forall_forall in Hall. auto.
  - apply dec_stable in Hi. subst i. pose proof (li_sub _ _ _ _ _ Hinv) as Hsub.
    pose proof (li_at _ _ _ _ _ Hinv) as Hat. rewrite firstn_all in Hsub, Hat.
    rewrite decide_True; last first.
    { apply Forall_forall. intros x Hx%Hsub. apply list_elem_of_fmap in Hx as (y & -> & Hy).
      apply list_elem_of_fmap. exists y. split; [done|].
      apply elem_of_drop_lookup in Hy as (k & Hk & _). by eapply list_elem_of_lookup_2. }
    destruct Hat as [[_ Hnil]|[(x & h & Hl & Hx)|(x & Hx & _)]].
    + rewrite Hnil in Hnew. done.
    + rewrite Hx. assert (x = newest) as -> by congruence.
      destruct (Z.eqb_spec h (vote_hash vote)) as [->|Hh]; cbn.
      * rewrite decide_True; [done|]. by eapply list_elem_of_lookup_2.
      * rewrite decide_False; [done|]. intros Hin. eapply Hh, slot_hash_unique; eauto.
    + apply lookup_lt_Some in Hx. lia.
Qed.

Lemma check_slots_are_valid_correct_witness :
  check_slots_spec (last_voted_slot VoteState_default) (mkVote [3; 5] 50 None)
    [(6, 60); (5, 50); (3, 30); (1, 10)] = Ok tt.
Proof.
  rewrite <- check_slots_are_valid_correct.
  - vm_compute. reflexivity.
  - repeat constructor.
  - repeat constructor.
Defined.
