(* ===== verification/VoteUpdate.v ===== *)
(** * Replacing the tower

    [process_new_vote_state] accepts a whole proposed tower. Its documented
    guarantees hold for everything it accepts, and it accepts every tower that
    voting slot by slot builds. *)
From stdpp Require Import base list option sets sorting.
From S2P Require Import Prelude Instruction VoteState VoteTower.

(** ** Specification *)

Definition slots_increase (l : list Lockout) : Prop :=
  StronglySorted (fun a b => lo_slot a < lo_slot b) l.

(** A current vote is respected by a proposed tower: the tower has its slot
    with at least its confirmations, or every later vote of the tower comes
    after its lockout. *)
Definition respected (new_state : list Lockout) (v : Lockout) : Prop :=
  (exists t, t ∈ new_state /\ lo_slot t = lo_slot v /\ confirmation_count v <= confirmation_count t) \/
  (forall t, t ∈ new_state -> lo_slot t < lo_slot v \/ lo_slot v < lo_slot t /\ last_locked_out_slot v < lo_slot t).

(** The well-formedness the comment on [process_new_vote_state] promises. *)
Record proposal_wf (new_root : option Slot) (l : list Lockout) : Prop := {
  pw_conf v : v ∈ l -> 0 < confirmation_count v <= 31;
  pw_adj i v w : l !! i = Some v -> l !! S i = Some w -> adjacent_ok v w;
  pw_root v r : v ∈ l -> new_root = Some r -> r ≠ 0 -> r < lo_slot v;
}.

(** ** The checks *)

Lemma check_no_conflict_nil_r cur : check_no_conflict cur [] = Ok tt.
Proof. by destruct cur. Qed.

Lemma slots_increase_head v l w : slots_increase (v :: l) -> w ∈ l -> lo_slot v < lo_slot w.
Proof. intros [_ H]%StronglySorted_inv Hw. rewrite Forall_forall in H. auto. Qed.

Lemma slots_increase_tail v l : slots_increase (v :: l) -> slots_increase l.
Proof. by intros [? _]%StronglySorted_inv. Qed.

(** A head below the vote does not matter. *)
Lemma respected_cons_below new t v : lo_slot t < lo_slot v ->
  respected (t :: new) v <-> respected new v.
Proof. intros. unfold respected. setoid_rewrite elem_of_cons. naive_solver lia. Qed.

(** A tower that starts after the vote respects it iff the lockout is over. *)
Lemma respected_above new t v : slots_increase (t :: new) -> lo_slot v < lo_slot t ->
  respected (t :: new) v <-> last_locked_out_slot v < lo_slot t.
Proof.
  intros Hs Hlt. assert (forall u, u ∈ t :: new -> lo_slot t <= lo_slot u) as Hall.
  { intros u [->|Hu]%elem_of_cons; [lia|]. pose proof (slots_increase_head _ _ _ Hs Hu). lia. }
  split.
  - intros [(u & Hu & Heq & _)|H]; [pose proof (Hall u Hu); lia|].
    destruct (H t ltac:(left)); lia.
  - intros Hl. right. intros u Hu. pose proof (Hall u Hu). lia.
Qed.

(** A tower that starts at the vote's slot respects it iff it does not lower its confirmations. *)
Lemma respected_at new t v : slots_increase (t :: new) -> lo_slot t = lo_slot v ->
  respected (t :: new) v <-> confirmation_count v <= confirmation_count t.
Proof.
  intros Hs Heq. split.
  - intros [(u & [->|Hu]%elem_of_cons & Hsl & Hc)|H]; [done| |].
    + pose proof (slots_increase_head _ _ _ Hs Hu). lia.
    + destruct (H t ltac:(left)); lia.
  - intros Hc. left. exists t. split; [left|done].
Qed.

(** The merge of the two towers accepts iff every current vote is respected. *)
Lemma check_no_conflict_spec cur new : slots_increase cur -> slots_increase new ->
  check_no_conflict cur new = Ok tt <-> forall v, v ∈ cur -> respected new v.
Proof.
  revert new. induction cur as [|c cur IHc]; intros new Hc Hn.
  { split; [set_solver|]. intros _. by destruct new. }
  induction new as [|n new IHn].
  { rewrite check_no_conflict_nil_r. split; [|done]. intros _ v _. right. set_solver. }
  pose proof (slots_increase_tail _ _ Hc) as Hc'. pose proof (slots_increase_tail _ _ Hn) as Hn'.
  assert (forall v, v ∈ cur -> lo_slot c < lo_slot v) as Hcur by (intros; by eapply slots_increase_head).
  cbn. setoid_rewrite elem_of_cons. destruct (Z.compare_spec (lo_slot c) (lo_slot n)) as [He|Hlt|Hgt].
  - destruct (Z.ltb_spec (confirmation_count n) (confirmation_count c)).
    + split; [done|]. intros H'. specialize (H' c (or_introl eq_refl)).
      apply respected_at in H'; [lia|done|done].
    + rewrite IHc by done. split; intros H' v.
      * intros [->|Hv]; [apply respected_at; [done|done|lia]|].
        apply respected_cons_below; [|auto]. pose proof (Hcur v Hv). lia.
      * intros Hv. apply (respected_cons_below _ n); [pose proof (Hcur v Hv); lia|auto].
  - destruct (Z.leb_spec (lo_slot n) (last_locked_out_slot c)).
    + split; [done|]. intros H'. specialize (H' c (or_introl eq_refl)).
      apply respected_above in H'; [lia|done|done].
    + rewrite IHc by done. split; [|auto]. intros H' v [->|Hv]; [by apply respected_above|auto].
  - change (check_no_conflict (c :: cur) new = Ok tt <->
      forall v, v = c \/ v ∈ cur -> respected (n :: new) v).
    rewrite IHn by done. setoid_rewrite elem_of_cons.
    assert (forall v, v = c \/ v ∈ cur -> lo_slot n < lo_slot v) as Hb
      by (intros v [->|Hv]; [lia|pose proof (Hcur v Hv); lia]).
    split; intros H' v Hv; apply (respected_cons_below _ n); auto.
Qed.

Lemma check_new_vote_spec nr prev v : 0 <= confirmation_count v ->
  check_new_vote nr prev v = Ok tt <->
  0 < confirmation_count v <= 31 /\ (forall r, nr = Some r -> r ≠ 0 -> r < lo_slot v) /\
  (forall p, prev = Some p -> adjacent_ok p v).
Proof.
  intros H0. unfold check_new_vote, adjacent_ok.
  assert (Z.of_nat MAX_LOCKOUT_HISTORY = 31) as -> by done.
  destruct (Z.eqb_spec (confirmation_count v) 0); [split; [done|lia]|].
  destruct (Z.ltb_spec 31 (confirmation_count v)); [split; [done|lia]|].
  match goal with |- (if ?b then _ else _) = _ <-> _ => destruct b eqn:Hr end.
  { split; [done|]. intros (_ & Hroot & _). destruct nr as [r|]; [|done].
    specialize (Hroot r eq_refl). lia. }
  assert (forall r, nr = Some r -> r ≠ 0 -> r < lo_slot v) as Hroot by (intros r ->; lia).
  destruct prev as [p|]; [|split; [intros _; split_and!; [lia|lia|done|done]|done]].
  split.
  - intros H'. split_and!; [lia|lia|done|]. intros ? [= <-]. revert H'. zcases; (done || lia).
  - intros (_ & _ & Hp). specialize (Hp p eq_refl). zcases; (done || lia).
Qed.

Lemma check_new_votes_spec nr prev l : Forall (fun v => 0 <= confirmation_count v) l ->
  check_new_votes nr prev l = Ok tt <->
  proposal_wf nr l /\ (forall p v, prev = Some p -> head l = Some v -> adjacent_ok p v).
Proof.
  intros Hf. revert prev. induction Hf as [|v l Hv Hf IH]; intros prev; cbn.
  { split; [|done]. intros _. split; [|done]. split; [set_solver|done|set_solver]. }
  rewrite outcome_bind_Ok. split.
  - intros ([] & [Hc [Hr Hp]]%check_new_vote_spec & [[Hc' Ha Hr'] Hh]%IH); [|done].
    split; [|naive_solver]. split.
    + intros w [->|Hw]%elem_of_cons; auto.
    + intros [|i] x y Hx Hy; [|by apply (Ha i)]. cbn in Hx. simplify_eq.
      apply (Hh x y eq_refl). by rewrite head_lookup.
    + intros w r [->|Hw]%elem_of_cons; eauto.
  - intros [[Hc Ha Hr] Hh]. exists tt. rewrite check_new_vote_spec by done. rewrite IH.
    split; [split; [apply Hc; left|split]|split].
    + intros r Hnr Hr0. apply (Hr v r ltac:(left) Hnr Hr0).
    + naive_solver.
    + split.
      * intros w Hw. apply Hc. by right.
      * intros i. apply (Ha (S i)).
      * intros w r Hw. apply Hr. by right.
    + intros p w [= <-] Hw. rewrite head_lookup in Hw. by apply (Ha 0%nat).
Qed.

Lemma proposal_slots_increase nr l : proposal_wf nr l -> slots_increase l.
Proof.
  intros [_ Ha _]. induction l as [|v l IH]; [constructor|].
  constructor; [apply IH; intros i; apply (Ha (S i))|].
  apply Forall_forall. intros w Hw. revert v Ha. clear IH. induction l as [|u l IH]; [set_solver|].
  intros v Ha. pose proof (Ha 0%nat v u eq_refl eq_refl) as [Hlt _].
  apply elem_of_cons in Hw as [->|Hw]; [done|].
  enough (lo_slot u < lo_slot w) by lia. apply IH; [done|]. intros i. apply (Ha (S i)).
Qed.

Lemma first_vote_above_spec nr cur : slots_increase cur ->
  forall v, v ∈ cur ->
  v ∈ drop (first_vote_above nr cur) cur <-> (forall r, nr = Some r -> r < lo_slot v).
Proof.
  induction cur as [|c cur IH]; intros Hs v Hv; [set_solver|]. cbn.
  destruct nr as [r|]; cbn; [|naive_solver].
  pose proof (slots_increase_tail _ _ Hs) as Hs'.
  destruct (Z.leb_spec (lo_slot c) r) as [Hle|Hgt].
  - cbn. apply elem_of_cons in Hv as [->|Hv]; [|by apply IH]. split.
    + intros Hin. apply elem_of_drop_lookup in Hin as (i & Hi%list_elem_of_lookup_2 & _).
      pose proof (slots_increase_head _ _ _ Hs Hi). lia.
    + intros Hr. specialize (Hr r eq_refl). lia.
  - rewrite drop_0. split; [|done]. intros _ r' [= <-].
    apply elem_of_cons in Hv as [->|Hv]; [done|]. pose proof (slots_increase_head _ _ _ Hs Hv). lia.
Qed.

Lemma slots_increase_drop n l : slots_increase l -> slots_increase (drop n l).
Proof.
  revert n. induction l as [|v l IH]; intros [|n] Hs; [done..|].
  cbn. apply IH. by eapply slots_increase_tail.
Qed.

Lemma check_new_root_Ok nr cur :
  check_new_root nr cur = Ok tt <-> forall r, cur = Some r -> exists r', nr = Some r' /\ r <= r'.
Proof.
  unfold check_new_root. destruct nr as [r'|], cur as [r|]; cbn; try naive_solver.
  destruct (Z.ltb_spec r' r); split; try done.
  - intros H'. destruct (H' r eq_refl) as (? & [= <-] & ?). lia.
  - intros _ ? [= <-]. eauto.
Qed.

Lemma process_timestamp_frame slot ts s u s' :
  process_timestamp slot ts s = (Ok u, s') -> s' = set_last_timestamp (mkBlockTimestamp slot ts) s.
Proof. unfold process_timestamp. case_match; by intros [= <- <-]. Qed.

(** ** The documented contract *)

(** C2. Whatever is accepted: becomes the tower and the root; is non-empty, at most
    31 deep, ordered, with confirmations in [1, 31] decreasing and consecutive
    votes mutually locked out; does not roll the root back; ends after every
    current vote; and respects every current vote above the new root. *)
Theorem process_new_vote_state_contract s new_state new_root timestamp epoch s' :
  slots_increase (votes s) -> Forall (fun v => 0 <= confirmation_count v) new_state ->
  process_new_vote_state new_state new_root timestamp epoch s = (Ok tt, s') ->
  votes s' = new_state /\ root_slot s' = new_root /\
  (0 < length new_state <= MAX_LOCKOUT_HISTORY)%nat /\
  proposal_wf new_root new_state /\
  (forall r, root_slot s = Some r -> exists r', new_root = Some r' /\ r <= r') /\
  (forall v, last (votes s) = Some v -> exists w, last new_state = Some w /\ lo_slot v < lo_slot w) /\
  (forall v, v ∈ votes s -> (forall r, new_root = Some r -> r < lo_slot v) -> respected new_state v).
Proof.
  intros Hs Hc H. unfold process_new_vote_state in H. ok_inv.
  rename select (check_new_root _ _ = _) into Hroot.
  rewrite check_new_root_Ok in Hroot.
  rename select (check_new_votes _ _ _ = _) into Hprop.
  apply check_new_votes_spec in Hprop as [Hprop _]; [|done].
  rename select (check_no_conflict _ _ = _) into Hres.
  rewrite check_no_conflict_spec in Hres
    by eauto using slots_increase_drop, proposal_slots_increase.
  split; [done|]. split; [done|]. split; [lia|]. split; [done|]. split; [done|]. split.
  - intros v Hv. rewrite Hv in *. destruct (last new_state) as [w|]; [|done]. exists w.
    split; [done|]. lia.
  - intros v Hv Hr. apply Hres. by apply first_vote_above_spec.
Qed.

Lemma process_new_vote_state_contract_witness :
  let s := set_votes [mkLockout 1 2; mkLockout 2 1] VoteState_default in
  let s' := set_votes [mkLockout 1 3; mkLockout 2 2; mkLockout 3 1] VoteState_default in
  votes s' = [mkLockout 1 3; mkLockout 2 2; mkLockout 3 1] /\
  forall v, v ∈ votes s -> respected (votes s') v.
Proof.
  pose proof (process_new_vote_state_contract
    (set_votes [mkLockout 1 2; mkLockout 2 1] VoteState_default)
    [mkLockout 1 3; mkLockout 2 2; mkLockout 3 1] None None 0 
    (set_votes [mkLockout 1 3; mkLockout 2 2; mkLockout 3 1] VoteState_default)) as H.
  destruct H as (Hv & _ & _ & _ & _ & _ & Hr).
  - repeat constructor.
  - repeat constructor; done.
  - vm_compute. reflexivity.
  - split; [exact Hv|]. intros v Hin. by apply Hr.
Defined.

(** ** Towers built vote by vote are accepted *)

(** What has become of a vote [v] in a later state: still there with at least
    its confirmations, at or below the root, or expired and overtaken. *)
Definition accounted (s : VoteState) (v : Lockout) : Prop :=
  (exists t, t ∈ votes s /\ lo_slot t = lo_slot v /\ confirmation_count v <= confirmation_count t) \/
  (exists r, root_slot s = Some r /\ lo_slot v <= r) \/
  (exists w, last (votes s) = Some w /\ last_locked_out_slot v < lo_slot w /\
     forall t, t ∈ votes s -> lo_slot t < lo_slot v \/ last_locked_out_slot v < lo_slot t).

Definition lockout_ok (v : Lockout) : Prop :=
  0 <= confirmation_count v <= 31 /\ slot_ok (lo_slot v).

Lemma lockout_ok_lt v : lockout_ok v -> lo_slot v < last_locked_out_slot v.
Proof.
  intros [Hc Hs]. rewrite last_locked_out_slot_eq by done. pose proof (pow_conf_le _ Hc). lia.
Qed.

Lemma lockout_mono v w : lockout_ok v -> lockout_ok w -> lo_slot v = lo_slot w ->
  confirmation_count v <= confirmation_count w -> last_locked_out_slot v <= last_locked_out_slot w.
Proof.
  intros [Hc Hs] [Hc' Hs'] He Hle. rewrite !last_locked_out_slot_eq by done.
  pose proof (Z.pow_le_mono_r 2 (confirmation_count v) (confirmation_count w)). lia.
Qed.

Lemma tower_lockout_ok l v : tower_wf l -> v ∈ l -> lockout_ok v.
Proof.
  intros Hwf [i Hi]%list_elem_of_lookup. pose proof (tw_entry _ Hwf i v Hi) as He.
  split; [|apply He]. eapply entry_ok_conf; [exact He|by eapply lookup_lt_Some].
Qed.

Lemma pushed_last n rest slot :
  exists w, last (imap (double_at n) (rest ++ [Lockout_new slot])) = Some w /\ lo_slot w = slot.
Proof.
  rewrite last_lookup, length_imap, length_app, list_lookup_imap. cbn.
  replace (pred (length rest + 1)) with (length rest) by lia.
  rewrite list_lookup_middle by done. cbn. eexists. split; [done|]. by rewrite double_at_slot.
Qed.

Lemma pushed_slots n rest slot t :
  t ∈ imap (double_at n) (rest ++ [Lockout_new slot]) ->
  (exists u, u ∈ rest /\ lo_slot t = lo_slot u) \/ lo_slot t = slot.
Proof.
  intros (u & Hu & ->)%imap_double_elem. apply elem_of_app in Hu as [Hu|Hu]; [eauto|].
  apply list_elem_of_singleton in Hu as ->. by right.
Qed.

Lemma root_forward slot epoch s r : vote_state_wf s -> root_slot s = Some r ->
  exists r', root_slot (process_next_vote_slot slot epoch s) = Some r' /\ r <= r'.
Proof.
  intros Hwf Hr. destruct (decide (root_slot (process_next_vote_slot slot epoch s) = root_slot s)) as [->|Hne].
  - exists r. split; [done|lia].
  - destruct Hwf as [Ht Hb]. destruct (already_voted (last_voted_slot s) slot) eqn:Hnew.
    { unfold process_next_vote_slot in Hne. by rewrite Hnew in Hne. }
    destruct (process_next_vote_slot_shape slot epoch s Hnew)
      as (kept & popped & rest & Hv & _ & _ & _ & [(_ & _ & Hrr & _)|(v & _ & -> & Hrr & _)]); [done|].
    exists (lo_slot v). split; [done|]. apply Z.lt_le_incl, (Hb r Hr). rewrite Hv. left.
Qed.

(** A vote still in the tower: kept, rooted, or popped because it expired. *)
Lemma accounted_live slot epoch s v v' : vote_state_wf s -> lockout_ok v ->
  already_voted (last_voted_slot s) slot = false ->
  v' ∈ votes s -> lo_slot v' = lo_slot v -> confirmation_count v <= confirmation_count v' ->
  accounted (process_next_vote_slot slot epoch s) v.
Proof.
  intros [Ht _] Hv Hnew Hv' Hsl Hc.
  destruct (process_next_vote_slot_shape slot epoch s Hnew)
    as (kept & popped & rest & Hs & Hpop & _ & Hs' & Hcase).
  pose proof (tower_lockout_ok _ _ Ht Hv') as Hok'.
  rewrite Hs in Hv'. apply elem_of_app in Hv' as [Hk|Hp].
  - assert (root_slot (process_next_vote_slot slot epoch s) = Some (lo_slot v') \/ v' ∈ rest) as [Hr|Hr].
    { destruct Hcase as [(_ & -> & _)|(x & _ & -> & Hr & _)]; [by right|].
      apply elem_of_cons in Hk as [->|?]; auto. }
    { right. left. exists (lo_slot v'). split; [done|lia]. }
    left. apply list_elem_of_lookup in Hr as [i Hi].
    exists (double_at (S (length rest)) i v'). rewrite double_at_slot. split_and!; [|done|].
    + rewrite Hs'. apply (list_elem_of_lookup_2 _ i).
      by rewrite list_lookup_imap, (lookup_app_l_Some _ _ _ _ Hi).
    + pose proof (double_at_conf_ge (S (length rest)) i v' (proj1 Hok')). lia.
  - right. right. rewrite Forall_forall in Hpop. specialize (Hpop v' Hp).
    pose proof (lockout_mono v v' Hv Hok' ltac:(lia) Hc).
    destruct (pushed_last (S (length rest)) rest slot) as (w & Hw & Hws).
    exists w. rewrite Hs'. split_and!; [done|lia|].
    intros t [(u & Hu & ->)| ->]%pushed_slots; [|right; lia]. left.
    assert (u ∈ kept) as Huk by (destruct Hcase as [(_ & -> & _)|(x & _ & -> & _)]; [done|by right]).
    apply list_elem_of_lookup in Huk as [i Hi]. apply list_elem_of_lookup in Hp as [j Hj].
    rewrite Hs in Ht. pose proof (lookup_lt_Some _ _ _ Hi). rewrite <- Hsl.
    eapply (tower_slots_lt _ i (length kept + j) u v' Ht); [lia| |].
    + by apply lookup_app_l_Some.
    + by rewrite lookup_app_r, Nat.add_comm, Nat.add_sub by lia.
Qed.

(** One step of voting keeps every earlier vote accounted for. *)
Lemma accounted_step slot epoch s v : vote_state_wf s -> lockout_ok v ->
  accounted s v -> accounted (process_next_vote_slot slot epoch s) v.
Proof.
  intros Hwf Hv Hacc. destruct (already_voted (last_voted_slot s) slot) eqn:Hnew.
  { unfold process_next_vote_slot. by rewrite Hnew. }
  destruct Hacc as [(v' & Hv' & Hsl & Hc)|[(r & Hr & Hle)|(w & Hw & Hlt & Hall)]].
  - by apply (accounted_live slot epoch s v v').
  - right. left. destruct (root_forward slot epoch s r Hwf Hr) as (r' & Hr' & ?).
    exists r'. split; [done|lia].
  - right. right. pose proof (not_already_voted _ _ _ Hnew Hw) as Hgt.
    destruct (process_next_vote_slot_shape slot epoch s Hnew)
      as (kept & popped & rest & Hs & _ & _ & -> & Hcase).
    destruct (pushed_last (S (length rest)) rest slot) as (w' & Hw' & Hws).
    exists w'. split_and!; [done|lia|]. intros t [(u & Hu & ->)| ->]%pushed_slots; [|right; lia].
    apply Hall. rewrite Hs. apply elem_of_app. left.
    destruct Hcase as [(_ & -> & _)|(x & _ & -> & _)]; [done|by right].
Qed.

Lemma accounted_all ballots s v : vote_state_wf s -> Forall (fun b => slot_ok b.1) ballots ->
  lockout_ok v -> accounted s v -> accounted (vote_all ballots s) v.
Proof.
  intros Hwf Hf Hv. revert s Hwf. induction Hf as [|b ballots Hb Hf IH]; intros s Hwf; [done|].
  intros Ha. apply IH; [by apply process_next_vote_slot_wf|by apply accounted_step].
Qed.

Lemma root_forward_all ballots s r : vote_state_wf s -> Forall (fun b => slot_ok b.1) ballots ->
  root_slot s = Some r -> exists r', root_slot (vote_all ballots s) = Some r' /\ r <= r'.
Proof.
  intros Hwf Hf. revert s r Hwf. induction Hf as [|b ballots Hb Hf IH]; intros s r Hwf Hr.
  { exists r. split; [done|lia]. }
  destruct (root_forward b.1 b.2 s r Hwf Hr) as (r1 & Hr1 & Hle).
  destruct (IH _ r1 (process_next_vote_slot_wf b.1 b.2 s Hwf Hb) Hr1) as (r2 & ? & ?).
  exists r2. split; [done|lia].
Qed.

Lemma tower_slots_increase l : tower_wf l -> slots_increase l.
Proof.
  intros Hwf. apply (proposal_slots_increase None). split.
  - intros v [i Hi]%list_elem_of_lookup. pose proof (tw_entry _ Hwf i v Hi) as [Hc _].
    apply lookup_lt_Some in Hi. lia.
  - apply Hwf.
  - done.
Qed.

Lemma tower_proposal s : vote_state_wf s -> proposal_wf (root_slot s) (votes s).
Proof.
  intros [Hwf Hb]. split.
  - intros v [i Hi]%list_elem_of_lookup. pose proof (tw_entry _ Hwf i v Hi) as [Hc _].
    apply lookup_lt_Some in Hi. lia.
  - apply Hwf.
  - intros v r Hv Hr _. by apply (Hb r Hr).
Qed.

Definition overtaken (s s' : VoteState) : Prop :=
  exists w, last (votes s') = Some w /\ forall v, last (votes s) = Some v -> lo_slot v < lo_slot w.

Lemma overtaken_step slot epoch s :
  last_voted_slot (process_next_vote_slot slot epoch s) = last_voted_slot s \/
  overtaken s (process_next_vote_slot slot epoch s).
Proof.
  destruct (already_voted (last_voted_slot s) slot) eqn:Hnew.
  { left. unfold process_next_vote_slot. by rewrite Hnew. }
  right. destruct (process_next_vote_slot_shape slot epoch s Hnew)
    as (kept & popped & rest & _ & _ & _ & Hs' & _).
  destruct (pushed_last (S (length rest)) rest slot) as (w & Hw & Hws).
  exists w. rewrite Hs'. split; [done|]. intros v Hv. rewrite Hws. by eapply not_already_voted.
Qed.

Lemma overtaken_all ballots s :
  last_voted_slot (vote_all ballots s) = last_voted_slot s \/ overtaken s (vote_all ballots s).
Proof.
  revert s. induction ballots as [|b ballots IH]; intros s; [by left|]. cbn.
  change (foldl _ ?x ballots) with (vote_all ballots x).
  destruct (IH (process_next_vote_slot b.1 b.2 s)) as [H1|(w & Hw & Hlt)];
    destruct (overtaken_step b.1 b.2 s) as [H2|(w2 & Hw2 & Hlt2)].
  - left. congruence.
  - right. unfold last_voted_slot, last_lockout in H1. rewrite Hw2 in H1. cbn in H1.
    destruct (last (votes (vote_all _ _))) as [w|] eqn:Hw; [|done]. cbn in H1. injection H1 as H1.
    exists w. split; [done|]. intros v Hv. specialize (Hlt2 v Hv). lia.
  - right. exists w. split; [done|]. intros v Hv.
    unfold last_voted_slot, last_lockout in H2. rewrite Hv in H2.
    destruct (last (votes (process_next_vote_slot _ _ _))) as [v2|] eqn:Hv2; [|done].
    cbn in H2. injection H2 as H2. specialize (Hlt v2 eq_refl). lia.
  - right. exists w. split; [done|]. intros v Hv. specialize (Hlt2 v Hv).
    specialize (Hlt w2 Hw2). lia.
Qed.

Lemma accounted_respected s' v : vote_state_wf s' -> lockout_ok v -> accounted s' v ->
  (forall r, root_slot s' = Some r -> r < lo_slot v) -> respected (votes s') v.
Proof.
  intros Hwf Hv [Ha|[(r & Hr & Hle)|(w & _ & _ & Hall)]] Hroot; [by left| |].
  - specialize (Hroot r Hr). lia.
  - right. intros t Ht. pose proof (lockout_ok_lt _ Hv). destruct (Hall t Ht); lia.
Qed.

(** C40. A tower obtained from the current one by voting slot by slot is accepted
    as a whole, and gives the same tower and root. *)
Theorem process_new_vote_state_accepts_votes s ballots epoch :
  vote_state_wf s -> Forall (fun b => slot_ok b.1) ballots ->
  last_voted_slot (vote_all ballots s) ≠ last_voted_slot s ->
  exists s', process_new_vote_state (votes (vote_all ballots s)) (root_slot (vote_all ballots s))
      None epoch s = (Ok tt, s') /\
    votes s' = votes (vote_all ballots s) /\ root_slot s' = root_slot (vote_all ballots s).
Proof.
  intros Hwf Hb Hnew. destruct (overtaken_all ballots s) as [|(w & Hw & Hlt)]; [done|].
  pose proof (vote_all_wf _ _ Hwf Hb) as Hwf1. remember (vote_all ballots s) as s1 eqn:Hs1.
  pose proof (tower_slots_increase _ (proj1 Hwf)) as Hinc.
  pose proof (tower_slots_increase _ (proj1 Hwf1)) as Hinc1.
  pose proof (tower_proposal _ Hwf1) as Hprop. pose proof (tw_len _ (proj1 Hwf1)) as Hlen.
  assert (check_new_root (root_slot s1) (root_slot s) = Ok tt) as Hroot.
  { apply check_new_root_Ok. intros r Hr. subst s1. by eapply root_forward_all. }
  assert (check_new_votes (root_slot s1) None (votes s1) = Ok tt) as Hvotes.
  { apply check_new_votes_spec; [|done]. apply Forall_forall. intros x Hx.
    pose proof (pw_conf _ _ Hprop x Hx). lia. }
  assert (check_no_conflict (drop (first_vote_above (root_slot s1) (votes s)) (votes s)) (votes s1) = Ok tt)
    as Hconf.
  { apply check_no_conflict_spec; [by apply slots_increase_drop|done|]. intros u Hu.
    assert (u ∈ votes s) as Hus
      by (apply elem_of_drop_lookup in Hu as (k & Hk & _); by eapply list_elem_of_lookup_2).
    pose proof (tower_lockout_ok _ _ (proj1 Hwf) Hus).
    apply accounted_respected; [done|done| |by apply (first_vote_above_spec _ _ Hinc u Hus)].
    subst s1. apply accounted_all; try done. left. exists u. split_and!; [done|done|lia]. }
  unfold process_new_vote_state.
  rewrite (bool_decide_eq_false_2 (length (votes s1) = 0%nat))
    by (intros H0%nil_length_inv; by rewrite H0 in Hw).
  rewrite (bool_decide_eq_true_2 (length (votes s1) <= MAX_LOCKOUT_HISTORY)%nat) by done.
  se_eval. cbn [negb]. rewrite Hw, Hroot, Hvotes, Hconf.
  destruct (last (votes s)) as [v|] eqn:Hv; [rewrite (proj2 (Z.ltb_lt _ _) (Hlt v eq_refl))|]; eauto.
Qed.

Lemma process_new_vote_state_accepts_votes_witness :
  exists s', process_new_vote_state
      (votes (vote_all [(4, 0); (9, 0)] (vote_all [(1, 0); (2, 0)] VoteState_default)))
      (root_slot (vote_all [(4, 0); (9, 0)] (vote_all [(1, 0); (2, 0)] VoteState_default)))
      None 0 (vote_all [(1, 0); (2, 0)] VoteState_default) = (Ok tt, s') /\
    votes s' = votes (vote_all [(4, 0); (9, 0)] (vote_all [(1, 0); (2, 0)] VoteState_default)) /\
    root_slot s' = root_slot (vote_all [(4, 0); (9, 0)] (vote_all [(1, 0); (2, 0)] VoteState_default)).
Proof.
  apply process_new_vote_state_accepts_votes.
  - apply vote_all_wf; [apply VoteState_default_wf|]. repeat constructor; cbn; u64.
  - repeat constructor; cbn; u64.
  - vm_compute. done.
Defined.
