(* ===== verification/VoteAuth.v ===== *)
(** * Authorized voters and commission

    The voter authorized for an epoch, its update when an epoch begins, the
    scheduling of a new voter, and the split of a reward by commission. *)
From stdpp Require Import base list option sets sorting.
From S2P Require Import Prelude OrdMap Instruction VoteState.

(** ** Specification: the voter at an epoch *)

(** The voter of the greatest epoch not after the given one. *)
Definition voter_at (av : AuthorizedVoters) (epoch : Epoch) : option Pubkey :=
  snd <$> last (filter (fun x => x.1 <= epoch) av).

(** Every sorted map splits at an epoch. *)
Lemma bt_split (av : AuthorizedVoters) epoch : bt_sorted av ->
  exists pre post, av = pre ++ post /\ Forall (fun x => x.1 <= epoch) pre /\
    Forall (fun x => epoch < x.1) post.
Proof.
  induction av as [|[k v] av IH]; intros Hs; [by exists [], []|].
  pose proof Hs as [Hs' Hf]%StronglySorted_inv. destruct (Z.le_gt_cases k epoch) as [Hle|Hgt].
  - destruct (IH Hs') as (pre & post & -> & Hpre & Hpost). exists ((k, v) :: pre), post.
    split_and!; [done|by constructor|done].
  - exists [], ((k, v) :: av). split_and!; [done|done|]. constructor; [done|].
    eapply Forall_impl; [exact Hf|]. cbn. lia.
Qed.

Lemma filter_split_le (pre post : AuthorizedVoters) epoch e : epoch <= e ->
  Forall (fun x => x.1 <= epoch) pre ->
  filter (fun x => x.1 <= e) (pre ++ post) = pre ++ filter (fun x => x.1 <= e) post.
Proof.
  intros He Hf. rewrite filter_app. f_equal. induction Hf as [|x pre Hx Hf IH]; [done|].
  rewrite filter_cons, decide_True by lia. by f_equal.
Qed.

Lemma filter_le_none (post : AuthorizedVoters) epoch :
  Forall (fun x => epoch < x.1) post -> filter (fun x => x.1 <= epoch) post = [].
Proof.
  induction 1 as [|x post Hx Hf IH]; [done|]. by rewrite filter_cons, decide_False by lia.
Qed.

Lemma filter_gt_split (pre post : AuthorizedVoters) epoch :
  Forall (fun x => x.1 <= epoch) pre -> Forall (fun x => epoch < x.1) post ->
  filter (fun x => epoch < x.1) (pre ++ post) = post.
Proof.
  intros Hpre Hpost. rewrite filter_app.
  assert (filter (fun x => epoch < x.1) pre = []) as ->.
  { induction Hpre as [|x pre Hx Hf IH]; [done|]. by rewrite filter_cons, decide_False by lia. }
  cbn. clear Hpre. induction Hpost as [|x post Hx Hf IH]; [done|].
  rewrite filter_cons, decide_True by done. by f_equal.
Qed.

Lemma voter_at_split pre post epoch :
  Forall (fun x => x.1 <= epoch) pre -> Forall (fun x => epoch < x.1) post ->
  voter_at (pre ++ post) epoch = snd <$> last pre.
Proof.
  intros Hpre Hpost. unfold voter_at.
  by rewrite (filter_split_le pre post epoch), filter_le_none, app_nil_r by (done || lia).
Qed.

(** ** The lookup of the code *)

Lemma bt_get_app_l (pre post : AuthorizedVoters) epoch :
  Forall (fun x => epoch < x.1) post -> bt_get epoch (pre ++ post) = bt_get epoch pre.
Proof.
  intros Hpost. induction pre as [|[k v] pre IH]; cbn; [|by rewrite IH].
  induction Hpost as [|[k v] post Hx Hf IH]; cbn; [done|].
  rewrite (proj2 (Z.eqb_neq _ _)) by (cbn in Hx; lia). done.
Qed.

Lemma range_below_split (pre post : AuthorizedVoters) epoch :
  Forall (fun x => x.1 < epoch) pre -> Forall (fun x => epoch <= x.1) post ->
  bt_range_below epoch (pre ++ post) = pre.
Proof.
  intros Hpre Hpost. unfold bt_range_below. rewrite filter_app.
  assert (filter (fun x => x.1 < epoch) post = []) as ->.
  { induction Hpost as [|x post Hx Hf IH]; [done|]. by rewrite filter_cons, decide_False by lia. }
  rewrite app_nil_r. induction Hpre as [|x pre Hx Hf IH]; [done|].
  rewrite filter_cons, decide_True by done. by f_equal.
Qed.

(** A sorted prefix up to an epoch either ends with that epoch or is below it. *)
Lemma prefix_cases (pre post : AuthorizedVoters) epoch :
  bt_sorted (pre ++ post) -> Forall (fun x => x.1 <= epoch) pre ->
  (exists pre' v, pre = pre' ++ [(epoch, v)] /\ Forall (fun x => x.1 < epoch) pre') \/
  Forall (fun x => x.1 < epoch) pre.
Proof.
  intros Hs Hf. destruct (last_app_singleton_cases pre) as [->|(pre' & [k v] & ->)]; [by right|].
  apply Forall_app in Hf as [Hf Hk]. rewrite Forall_singleton in Hk. cbn in Hk.
  assert (Forall (fun x => x.1 < k) pre') as Hlt.
  { rewrite <- app_assoc in Hs. clear -Hs. induction pre' as [|x pre' IH]; [constructor|].
    pose proof Hs as [Hs' Hx]%StronglySorted_inv. constructor; [|by apply IH].
    rewrite Forall_app in Hx. destruct Hx as [_ Hx]. by apply Forall_cons in Hx as [? _]. }
  destruct (decide (k = epoch)) as [->|Hne]; [left; eauto|]. right. apply Forall_app.
  split; [eapply Forall_impl; [exact Hlt|]; intros [a b]; cbn; lia|apply Forall_singleton; cbn; lia].
Qed.

Lemma bt_get_snoc (pre : AuthorizedVoters) epoch v :
  Forall (fun x => x.1 < epoch) pre -> bt_get epoch (pre ++ [(epoch, v)]) = Some v.
Proof.
  induction 1 as [|[k w] pre Hx Hf IH]; cbn; [by rewrite Z.eqb_refl|].
  rewrite (proj2 (Z.eqb_neq _ _)) by (cbn in Hx; lia). done.
Qed.

Lemma bt_get_below (pre : AuthorizedVoters) epoch :
  Forall (fun x => x.1 < epoch) pre -> bt_get epoch pre = None.
Proof.
  induction 1 as [|[k w] pre Hx Hf IH]; cbn; [done|].
  rewrite (proj2 (Z.eqb_neq _ _)) by (cbn in Hx; lia). done.
Qed.

Lemma gt_le (post : AuthorizedVoters) epoch :
  Forall (fun x => epoch < x.1) post -> Forall (fun x => epoch <= x.1) post.
Proof. intros H. eapply Forall_impl; [exact H|]. cbn. lia. Qed.

Lemma get_authorized_voter_spec av epoch :
  bt_sorted av -> av_get_authorized_voter av epoch = voter_at av epoch.
Proof.
  intros Hs. destruct (bt_split av epoch Hs) as (pre & post & -> & Hpre & Hpost).
  rewrite voter_at_split by done. unfold av_get_authorized_voter, get_or_calculate_authorized_voter_for_epoch.
  rewrite bt_get_app_l by done. destruct (prefix_cases _ _ _ Hs Hpre) as [(pre' & v & -> & Hlt)|Hlt].
  - by rewrite bt_get_snoc, last_snoc by done.
  - rewrite bt_get_below, range_below_split by eauto using gt_le. by destruct (last pre).
Qed.

(** ** The update at an epoch *)

Lemma bt_insert_between (pre post : AuthorizedVoters) epoch v :
  Forall (fun x => x.1 < epoch) pre -> Forall (fun x => epoch < x.1) post ->
  bt_insert epoch v (pre ++ post) = pre ++ (epoch, v) :: post.
Proof.
  intros Hpre Hpost. induction Hpre as [|[k w] pre Hx Hf IH]; cbn.
  - destruct Hpost as [|[k w] post Hx Hf]; cbn; [done|]. cbn in Hx.
    by rewrite (proj2 (Z.ltb_lt _ _)).
  - cbn in Hx. rewrite (proj2 (Z.ltb_ge _ _)), (proj2 (Z.eqb_neq _ _)) by lia. by f_equal.
Qed.

(** Removing the keys of a prefix one by one leaves the rest. *)
Lemma remove_prefix (pre post : AuthorizedVoters) :
  foldl (fun m key => bt_remove key m) (pre ++ post) (pre.*1) = post.
Proof.
  induction pre as [|[k v] pre IH]; cbn; [done|]. by rewrite Z.eqb_refl.
Qed.

Lemma purge_split {E} (pre post : AuthorizedVoters) epoch :
  Forall (fun x => x.1 < epoch) pre -> Forall (fun x => epoch <= x.1) post -> post ≠ [] ->
  purge_authorized_voters (E := E) epoch (pre ++ post) = (Ok true, post).
Proof.
  intros Hpre Hpost Hne. unfold purge_authorized_voters.
  rewrite range_below_split, remove_prefix by done. by destruct post.
Qed.

(** The map after the update: the voter of the epoch first, the later entries unchanged. *)
Definition updated_voters (av : AuthorizedVoters) (epoch : Epoch) (pubkey : Pubkey) : AuthorizedVoters :=
  (epoch, pubkey) :: filter (fun x => epoch < x.1) av.

Lemma get_and_update_run s epoch : bt_sorted (authorized_voters s) ->
  get_and_update_authorized_voter epoch s =
    match voter_at (authorized_voters s) epoch with
    | None => (Err InvalidAccountData, s)
    | Some pubkey =>
        (Ok pubkey, set_authorized_voters (updated_voters (authorized_voters s) epoch pubkey) s)
    end.
Proof.
  destruct s as [n w c vs rs av pv ec lt]. cbn [authorized_voters]. intros Hs.
  destruct (bt_split av epoch Hs) as (pre & post & -> & Hpre & Hpost).
  unfold get_and_update_authorized_voter, get_and_cache_authorized_voter_for_epoch,
    get_or_calculate_authorized_voter_for_epoch, updated_voters. cbn [authorized_voters].
  rewrite voter_at_split, filter_gt_split, bt_get_app_l by done.
  destruct (prefix_cases _ _ _ Hs Hpre) as [(pre' & v & -> & Hlt)|Hlt].
  - rewrite bt_get_snoc, last_snoc by done. cbn -[purge_authorized_voters].
    rewrite <- app_assoc, purge_split; [done|done| |done].
    constructor; [cbn; lia|by apply gt_le].
  - rewrite bt_get_below, range_below_split by eauto using gt_le.
    destruct (last pre) as [[k v]|] eqn:Hl; cbn -[purge_authorized_voters]; [|done].
    rewrite bt_insert_between, purge_split; [done|done| |done|done|done].
    constructor; [cbn; lia|by apply gt_le].
Qed.

Lemma updated_voters_sorted av epoch v : bt_sorted av -> bt_sorted (updated_voters av epoch v).
Proof.
  intros Hs. constructor; [by apply bt_sorted_filter|].
  apply Forall_forall. intros x [Hx _]%list_elem_of_filter. done.
Qed.

Lemma updated_voters_at av epoch v e : bt_sorted av -> voter_at av epoch = Some v -> epoch <= e ->
  voter_at (updated_voters av epoch v) e = voter_at av e.
Proof.
  intros Hs Hv He. destruct (bt_split av epoch Hs) as (pre & post & -> & Hpre & Hpost).
  rewrite voter_at_split in Hv by done. unfold updated_voters. rewrite filter_gt_split by done.
  unfold voter_at. rewrite (filter_split_le pre post epoch e) by done.
  rewrite filter_cons, decide_True by done.
  destruct (last_app_singleton_cases (filter (fun x : Z * Z => x.1 <= e) post)) as [->|(l & x & ->)].
  - by rewrite app_nil_r.
  - by rewrite app_assoc, last_snoc, app_comm_cons, last_snoc.
Qed.

(** At the start of an epoch the entry of that epoch is cached and the earlier
    ones are purged: the returned voter is the one in force, the map stays
    sorted and non-empty, the voter of this and every later epoch is unchanged,
    and the assertion on the purged map holds. An epoch before the first entry
    is an error that leaves the state as it was. *)
Theorem get_and_update_authorized_voter_correct s epoch : bt_sorted (authorized_voters s) ->
  match get_and_update_authorized_voter epoch s with
  | (Ok pubkey, s') =>
      get_authorized_voter s epoch = Some pubkey /\
      bt_sorted (authorized_voters s') /\ head (authorized_voters s') = Some (epoch, pubkey) /\
      (forall e, epoch <= e -> get_authorized_voter s' e = get_authorized_voter s e) /\
      s' = set_authorized_voters (authorized_voters s') s
  | (Err e, s') => e = InvalidAccountData /\ s' = s /\ get_authorized_voter s epoch = None
  | (Panic, _) => False
  end.
Proof.
  intros Hs. rewrite get_and_update_run by done. unfold get_authorized_voter.
  destruct (voter_at (authorized_voters s) epoch) as [pubkey|] eqn:Hv.
  - pose proof (updated_voters_sorted _ epoch pubkey Hs) as Hs'.
    rewrite get_authorized_voter_spec, Hv by done. split_and!; try done.
    intros e He. cbn [authorized_voters set_authorized_voters].
    rewrite !get_authorized_voter_spec by done. by apply updated_voters_at.
  - rewrite get_authorized_voter_spec by done. done.
Qed.

Lemma get_and_update_authorized_voter_correct_witness :
  let s := set_authorized_voters [(1, 11); (4, 14); (9, 19)] VoteState_default in
  exists s', get_and_update_authorized_voter 6 s = (Ok 14, s') /\
    authorized_voters s' = [(6, 14); (9, 19)] /\
    forall e, 6 <= e -> get_authorized_voter s' e = get_authorized_voter s e.
Proof.
  pose proof (get_and_update_authorized_voter_correct
    (set_authorized_voters [(1, 11); (4, 14); (9, 19)] VoteState_default) 6) as H.
  eexists. split; [vm_compute; reflexivity|]. split; [reflexivity|].
  apply H. repeat constructor.
Defined.

(** ** Scheduling a new voter *)

Lemma bt_contains_In (av : AuthorizedVoters) epoch :
  bt_contains epoch av = false -> Forall (fun x => x.1 <= epoch) av -> Forall (fun x => x.1 < epoch) av.
Proof.
  unfold bt_contains. intros Hc Hf. induction Hf as [|[k v] av Hx Hf IH]; [constructor|].
  cbn in *. destruct (Z.eqb_spec epoch k) as [->|Hne]; [done|].
  constructor; [cbn; lia|by apply IH].
Qed.

Lemma voter_at_snoc_below (av : AuthorizedVoters) target v e :
  e < target -> voter_at (av ++ [(target, v)]) e = voter_at av e.
Proof.
  intros He. unfold voter_at. rewrite filter_app, (filter_cons _ (target, v)).
  rewrite decide_False by (cbn; lia). by rewrite app_nil_r.
Qed.

Lemma voter_at_snoc_from (av : AuthorizedVoters) target v e :
  target <= e -> voter_at (av ++ [(target, v)]) e = Some v.
Proof.
  intros He. unfold voter_at. rewrite filter_app, (filter_cons _ (target, v)).
  rewrite decide_True by done. cbn. by rewrite last_snoc.
Qed.

Lemma bt_sorted_snoc (av : AuthorizedVoters) target v :
  bt_sorted av -> Forall (fun x => x.1 < target) av -> bt_sorted (av ++ [(target, v)]).
Proof.
  intros Hs Hf. induction Hs as [|x av Hs IH Hx]; cbn.
  - constructor; constructor.
  - apply Forall_cons in Hf as [Hxt Hf]. constructor; [by apply IH|].
    apply Forall_app. split; [done|]. by apply Forall_singleton.
Qed.

(** The state after the voter of the target epoch is set. *)
Lemma set_new_authorized_voter_run pk current target verify s :
  bt_sorted (authorized_voters s) -> current <= target ->
  Forall (fun x => x.1 <= target) (authorized_voters s) ->
  match voter_at (authorized_voters s) current with
  | None => set_new_authorized_voter pk current target verify s = (Err InvalidAccountData, s)
  | Some voter =>
      let av := updated_voters (authorized_voters s) current voter in
      match verify voter with
      | Ok _ =>
          if bt_contains target av
          then set_new_authorized_voter pk current target verify s =
                 (Err (from_VoteError TooSoonToReauthorize), set_authorized_voters av s)
          else Forall (fun x => x.1 < target) av /\ exists pv,
                 set_new_authorized_voter pk current target verify s =
                   (Ok tt, set_authorized_voters (av ++ [(target, pk)])
                             (set_prior_voters pv s))
      | Err e => set_new_authorized_voter pk current target verify s = (Err e, set_authorized_voters av s)
      | Panic => set_new_authorized_voter pk current target verify s = (Panic, set_authorized_voters av s)
      end
  end.
Proof.
  intros Hs Hct Hf. unfold set_new_authorized_voter. se_eval. rewrite get_and_update_run by done.
  destruct (voter_at (authorized_voters s) current) as [voter|]; [|done]. cbv zeta.
  destruct (verify voter) as [[]| |]; [|done|done].
  cbn [authorized_voters set_authorized_voters].
  destruct (bt_contains target _) eqn:Hc; cbn [negb]; [done|].
  assert (Forall (fun x => x.1 < target) (updated_voters (authorized_voters s) current voter)) as Hlt.
  { apply bt_contains_In; [done|]. constructor; [done|].
    rewrite Forall_forall in Hf |- *. intros x [_ Hx]%list_elem_of_filter. by apply Hf. }
  split; [done|].
  destruct (last _) as [[latest_epoch latest]|] eqn:Hl.
  2:{ by apply last_None in Hl. }
  cbn [ok_or]. pose proof (last_elem _ _ Hl) as Hin.
  rewrite Forall_forall in Hlt. pose proof (Hlt _ Hin) as Hle. cbn in Hle.
  rewrite <- Forall_forall in Hlt.
  pose proof (bt_insert_between (updated_voters (authorized_voters s) current voter) [] target pk Hlt
    ltac:(constructor)) as Hins. rewrite app_nil_r in Hins.
  destruct (negb (latest =? pk)); cbn -[bt_insert updated_voters].
  - rewrite (proj2 (Z.ltb_lt _ _) Hle). cbn [authorized_voters set_authorized_voters set_prior_voters]. rewrite Hins. by eexists.
  - rewrite Hins. exists (prior_voters s). by destruct s.
Qed.

(** A new voter takes effect at its target epoch and not before: when no entry
    lies beyond the target, the epoch's voter approved the change and the target
    has no entry yet, the voters of the epochs from the current one up to the
    target stay what they were and the new key is the voter from the target on.
    The assertion on the latest epoch holds, and on every error the voters from
    the current epoch on are unchanged. *)
Theorem set_new_authorized_voter_correct pk current target verify s :
  bt_sorted (authorized_voters s) -> current <= target ->
  Forall (fun x => x.1 <= target) (authorized_voters s) ->
  (forall voter, verify voter ≠ Panic) ->
  match set_new_authorized_voter pk current target verify s with
  | (Ok _, s') =>
      (exists voter, get_authorized_voter s current = Some voter /\ verify voter = Ok tt) /\
      bt_sorted (authorized_voters s') /\
      (forall e, current <= e < target -> get_authorized_voter s' e = get_authorized_voter s e) /\
      (forall e, target <= e -> get_authorized_voter s' e = Some pk)
  | (Err _, s') =>
      forall e, current <= e -> get_authorized_voter s' e = get_authorized_voter s e
  | (Panic, _) => False
  end.
Proof.
  intros Hs Hct Hf Hv. pose proof (set_new_authorized_voter_run pk current target verify s Hs Hct Hf) as Hrun.
  unfold get_authorized_voter. destruct (voter_at (authorized_voters s) current) as [voter|] eqn:Hvoter.
  2:{ by rewrite Hrun. }
  pose proof (updated_voters_sorted _ current voter Hs) as Hs'. cbv zeta in Hrun.
  assert (forall e, current <= e ->
    av_get_authorized_voter (updated_voters (authorized_voters s) current voter) e =
    av_get_authorized_voter (authorized_voters s) e) as Heq.
  { intros e He. rewrite !get_authorized_voter_spec by done. by apply updated_voters_at. }
  destruct (verify voter) as [[]| |] eqn:Hok; [|rewrite Hrun; exact Heq|by destruct (Hv voter)].
  destruct (bt_contains target _); [rewrite Hrun; exact Heq|].
  destruct Hrun as (Hlt & pv & Hrun). rewrite Hrun. cbn [authorized_voters set_authorized_voters].
  pose proof (bt_sorted_snoc _ target pk Hs' Hlt) as Hsn. split_and!.
  - exists voter. by rewrite get_authorized_voter_spec.
  - done.
  - intros e He. rewrite get_authorized_voter_spec, voter_at_snoc_below by (done || lia).
    rewrite <- get_authorized_voter_spec by done. apply Heq. lia.
  - intros e He. rewrite get_authorized_voter_spec by done. by apply voter_at_snoc_from.
Qed.

Lemma set_new_authorized_voter_correct_witness :
  let s := set_authorized_voters [(1, 11)] VoteState_default in
  exists s', set_new_authorized_voter 22 3 5 (fun _ => Ok tt) s = (Ok tt, s') /\
    get_authorized_voter s' 4 = Some 11 /\ get_authorized_voter s' 5 = Some 22.
Proof.
  pose proof (set_new_authorized_voter_correct 22 3 5 (fun _ => Ok tt)
    (set_authorized_voters [(1, 11)] VoteState_default)) as H.
  eexists. split; [vm_compute; reflexivity|]. split; [reflexivity|].
  apply H; [repeat constructor|lia|repeat constructor; cbn; lia|done|lia].
Defined.

(** ** Commission *)

(** The two shares of a reward never exceed it and lose at most one lamport to
    rounding; each is within one lamport of its exact percentage; nothing is
    lost when the commission is 0 or at least 100, and the flag tells which. *)
Theorem commission_split_correct s on : in_u64 on -> in_u8 (commission s) ->
  let '(voter, staker, is_split) := commission_split s on in
  let c := Z.min (commission s) 100 in
  0 <= voter /\ 0 <= staker /\ on - 1 <= voter + staker <= on /\
  100 * voter <= on * c < 100 * voter + 100 /\
  100 * staker <= on * (100 - c) < 100 * staker + 100 /\
  (is_split = false -> voter + staker = on /\ (c = 0 \/ c = 100)).
Proof.
  intros Hon Hc. unfold commission_split, in_u64, in_u8, U64_MAX, U8_MAX in *.
  set (c := Z.min (commission s) 100). assert (0 <= c <= 100) as Hcr by lia. clearbody c.
  destruct (Z.eqb_spec c 0) as [->|H0]; [lia|]. destruct (Z.eqb_spec c 100) as [->|H100]; [lia|].
  pose proof (Z.mul_div_le (on * c) 100). pose proof (Z.mul_succ_div_gt (on * c) 100).
  pose proof (Z.mul_div_le (on * (100 - c)) 100). pose proof (Z.mul_succ_div_gt (on * (100 - c)) 100).
  set (a := on * c / 100) in *. set (b := on * (100 - c) / 100) in *.
  assert (0 <= a) by (apply Z.div_pos; nia). assert (0 <= b) by (apply Z.div_pos; nia).
  assert (a <= on) by nia. assert (b <= on) by nia.
  rewrite !as_u64_small by (unfold in_u64, U64_MAX; lia). split_and!; try nia.
Qed.

Lemma commission_split_correct_witness :
  let s := set_commission 33 VoteState_default in
  commission_split s 10 = (3, 6, true) /\ 10 - 1 <= 3 + 6 <= 10.
Proof.
  pose proof (commission_split_correct (set_commission 33 VoteState_default) 10) as H.
  split; [reflexivity|]. apply H; cbn; u64.
Defined.
