(* ===== verification/Account.v ===== *)
(** * Accounts

    [sdk/src/account.rs], [account_utils.rs], [keyed_account.rs] and the public
    keys the programs name. The accounts of a transaction are a list (the
    [RefCell]s); a [KeyedAccount] refers to one by its index, so that two keyed
    accounts of one instruction may name the same account. The serialization of
    account data is the [bincode] crate, which is the class [Bincode] here, with
    what the code relies on as the laws of [BincodeLaws]. *)
From Stdlib Require Import String Ascii.
From stdpp Require Import base numbers option list gmap.
From S2P Require Import Prelude Instruction.

(** ** Public keys written in base 58 *)

Definition base58_digit (c : ascii) : Z :=
  let n := Z.of_N (N_of_ascii c) in
  if n <? 58 then n - 49 else if n <? 73 then n - 56 else if n <? 79 then n - 57
  else if n <? 91 then n - 58 else if n <? 108 then n - 64 else n - 65.

Fixpoint base58 (acc : Z) (s : string) : Z :=
  match s with
  | EmptyString => acc
  | String c s => base58 (acc * 58 + base58_digit c) s
  end.

Definition pubkey_of (s : string) : Pubkey := base58 0 s.
#[global] Arguments pubkey_of _ : simpl never.

Definition sysvar_id : Pubkey := Eval vm_compute in pubkey_of "Sysvar1111111111111111111111111111111111111".
Definition clock_id : Pubkey := Eval vm_compute in pubkey_of "SysvarC1ock11111111111111111111111111111111".
Definition rent_id : Pubkey := Eval vm_compute in pubkey_of "SysvarRent111111111111111111111111111111111".
Definition slot_hashes_id : Pubkey := Eval vm_compute in pubkey_of "SysvarS1otHashes111111111111111111111111111".
Definition incinerator_id : Pubkey := Eval vm_compute in pubkey_of "1nc1nerator11111111111111111111111111111111".
Definition system_program_id : Pubkey := Eval vm_compute in pubkey_of "11111111111111111111111111111111".
Definition vote_program_id : Pubkey := Eval vm_compute in pubkey_of "Vote111111111111111111111111111111111111111".

(** ** Features *)

(** [FeatureSet.active]: the activated features with their slots. The features
    are named by the keys [sdk/src/feature_set.rs] declares. *)
Abbreviation FeatureSet := (gmap Z Z).

Definition is_active (feature_set : FeatureSet) (feature_id : Pubkey) : bool :=
  bool_decide (is_Some (feature_set !! feature_id)).

Definition vote_withdraw_authority_may_change_authorized_voter : Pubkey :=
  Eval vm_compute in pubkey_of "AVZS3ZsN4gi6Rkx2QUibYuSJG3S6QHib7xCYhG6vGJxU".
Definition reject_non_rent_exempt_vote_withdraws : Pubkey :=
  Eval vm_compute in pubkey_of "7txXZZD6Um59YoLMF7XUNimbMjsqsWhc7g2EniiTrmp1".
Definition reject_vote_account_close_unless_zero_credit_epoch : Pubkey :=
  Eval vm_compute in pubkey_of "ALBk3EWdeAg2WAGf6GPDUf1nynyNqCdEVmgouG7rpuCj".
Definition vote_stake_checked_instructions : Pubkey :=
  Eval vm_compute in pubkey_of "BcWknVcgvonN8sL4HE4XFuEVgfcee5MwxWPAgP6ZV89X".
Definition do_support_realloc : Pubkey := Eval vm_compute in pubkey_of "75m6ysz33AfLA5DDEzWM1obBrnPQRSsdVQ2nRmc8Vuu1".
Definition cap_accounts_data_len : Pubkey := Eval vm_compute in pubkey_of "capRxUrBjNkkCpjrJxPGfPaWijB7q3JoDfsWXAnt46r".
Definition reject_empty_instruction_without_program : Pubkey :=
  Eval vm_compute in pubkey_of "9kdtFSrXHQg3hKkbXkQ6trJ3Ja1xpJ22CTFSNAciEwmL".
Definition nonce_must_be_writable : Pubkey := Eval vm_compute in pubkey_of "BiCU7M5w8ZCMykVSyhZ7Q3m2SWoR2qrEQ86ERcDX77ME".

(** ** Accounts *)

Record AccountSharedData : Type := mkAccount {
  lamports : Z;
  data : list Z;
  owner : Pubkey;
  executable : bool;
  rent_epoch : Epoch;
}.

Definition AccountSharedData_default : AccountSharedData := mkAccount 0 [] Pubkey_default false 0.

Definition set_lamports (x : Z) (a : AccountSharedData) : AccountSharedData :=
  mkAccount x (data a) (owner a) (executable a) (rent_epoch a).
Definition set_data (x : list Z) (a : AccountSharedData) : AccountSharedData :=
  mkAccount (lamports a) x (owner a) (executable a) (rent_epoch a).
Definition set_owner (x : Pubkey) (a : AccountSharedData) : AccountSharedData :=
  mkAccount (lamports a) (data a) x (executable a) (rent_epoch a).
Definition set_executable (x : bool) (a : AccountSharedData) : AccountSharedData :=
  mkAccount (lamports a) (data a) (owner a) x (rent_epoch a).
Definition set_rent_epoch (x : Epoch) (a : AccountSharedData) : AccountSharedData :=
  mkAccount (lamports a) (data a) (owner a) (executable a) x.

Definition accounts_equal (me other : AccountSharedData) : bool :=
  (lamports me =? lamports other) && bool_decide (data me = data other)
  && (owner me =? owner other) && eqb (executable me) (executable other)
  && (rent_epoch me =? rent_epoch other).

Definition AccountSharedData_new (lamports : Z) (space : nat) (owner : Pubkey) : AccountSharedData :=
  mkAccount lamports (replicate space 0) owner false 0.

Definition shared_new_rent_epoch (lamports : Z) (space : nat) (owner : Pubkey) (rent_epoch : Epoch)
  : AccountSharedData := mkAccount lamports (replicate space 0) owner false rent_epoch.

Definition checked_add_lamports (n : Z) : SE AccountSharedData LamportsError unit :=
  a ← get;
  x ← lift (ok_or ArithmeticOverflow_ (checked_add64 (lamports a) n));
  modify (set_lamports x).

Definition checked_sub_lamports (n : Z) : SE AccountSharedData LamportsError unit :=
  a ← get;
  x ← lift (ok_or ArithmeticUnderflow_ (checked_sub64 (lamports a) n));
  modify (set_lamports x).

Definition saturating_add_lamports (n : Z) (a : AccountSharedData) : AccountSharedData :=
  set_lamports (saturating_add64 (lamports a) n) a.

Definition saturating_sub_lamports (n : Z) (a : AccountSharedData) : AccountSharedData :=
  set_lamports (saturating_sub64 (lamports a) n) a.

(** Equal data keeps the shared vector; either way the account reads the new data. *)
Definition set_data_from_slice (x : list Z) (a : AccountSharedData) : AccountSharedData :=
  let len_different := negb (bool_decide (length (data a) = length x)) in
  let different := len_different || negb (bool_decide (x = data a)) in
  if different then set_data x a else a.

(** ** Serialization *)

(** [solana_program::packet::PACKET_DATA_SIZE], the limit of an instruction's data. *)
Definition PACKET_DATA_SIZE : Z := 1232.

Inductive bincode_error : Type := SizeLimit | BincodeOther.

(** The [bincode] functions the code calls, at a type. [bincode_serialize_into]
    overwrites the front of a byte slice. *)
Class Bincode (T : Type) : Type := {
  bincode_deserialize : list Z -> option T;
  bincode_deserialize_limited : Z -> list Z -> option T;
  bincode_serialized_size : T -> outcome bincode_error Z;
  bincode_serialize_into : T -> SE (list Z) bincode_error unit;
}.

(** What the code relies on: a slice keeps its length, what was written is read
    back (trailing bytes are ignored), and what fits is written. *)
Class BincodeLaws (T : Type) `{Bincode T} : Prop := {
  serialize_into_length x b : length (snd (bincode_serialize_into x b)) = length b;
  serialize_into_roundtrip x b b' :
    bincode_serialize_into x b = (Ok tt, b') -> bincode_deserialize b' = Some x;
  serialize_into_fits x n b : bincode_serialized_size x = Ok n -> n <= Z.of_nat (length b) ->
    exists b', bincode_serialize_into x b = (Ok tt, b');
  serialized_size_total x : bincode_serialized_size x ≠ Panic;
  serialize_into_total x b : fst (bincode_serialize_into x b) ≠ Panic;
}.

Section state.
Context {T : Type} `{Bincode T}.

(** [bincode::serialize_into(&mut account.data_as_mut_slice(), state)] *)
Definition serialize_into_data (state : T) : SE AccountSharedData bincode_error unit :=
  fun a => let '(r, b) := bincode_serialize_into state (data a) in (r, set_data b a).

Definition shared_serialize_data (state : T) : SE AccountSharedData bincode_error unit :=
  a ← get;
  size ← lift (bincode_serialized_size state);
  _ ← ensure (negb (Z.of_nat (length (data a)) <? size)) SizeLimit;
  serialize_into_data state.

Definition InstructionError_of_bincode (e : bincode_error) : InstructionError :=
  match e with SizeLimit => AccountDataTooSmall | BincodeOther => GenericError end.

Definition account_state (a : AccountSharedData) : outcome InstructionError T :=
  ok_or InvalidAccountData (bincode_deserialize (data a)).

Definition account_set_state (state : T) : SE AccountSharedData InstructionError unit :=
  fun a => let '(r, a') := shared_serialize_data state a in (map_err InstructionError_of_bincode r, a').

Definition limited_deserialize (instruction_data : list Z) (limit : Z) : outcome InstructionError T :=
  ok_or InvalidInstructionData (bincode_deserialize_limited limit instruction_data).
End state.

(** ** Keyed accounts *)

(** The accounts of a transaction, shared by the keyed accounts. *)
Abbreviation Accounts := (list AccountSharedData).
(** Code that works on them. *)
Abbreviation AM := (SE Accounts InstructionError).

Record KeyedAccount : Type := mkKeyedAccount {
  is_signer : bool;
  is_writable : bool;
  key : Pubkey;
  account : nat;
}.

Definition signer_key (k : KeyedAccount) : option Pubkey :=
  if is_signer k then Some (key k) else None.

Definition unsigned_key (k : KeyedAccount) : Pubkey := key k.

(** [try_account_ref_mut] for the extent of one statement. No borrow is open
    when an instruction starts and the handlers hold none across calls, so the
    [RefCell] check succeeds; an index out of range cannot be built in Rust. *)
Definition with_account {A} (k : KeyedAccount) (m : SE AccountSharedData InstructionError A) : AM A :=
  fun s =>
    match s !! account k with
    | None => (Panic, s)
    | Some a => let '(r, a') := m a in (r, <[account k := a']> s)
    end.

(** [try_account_ref] *)
Definition try_account_ref (k : KeyedAccount) : AM AccountSharedData :=
  s ← get; lift (unwrap (s !! account k)).

Definition ka_lamports (k : KeyedAccount) : AM Z := a ← try_account_ref k; mret (lamports a).
Definition ka_data_len (k : KeyedAccount) : AM Z := a ← try_account_ref k; mret (Z.of_nat (length (data a))).
Definition ka_data_is_empty (k : KeyedAccount) : AM bool :=
  a ← try_account_ref k; mret (bool_decide (data a = [])).
Definition ka_owner (k : KeyedAccount) : AM Pubkey := a ← try_account_ref k; mret (owner a).
Definition ka_executable (k : KeyedAccount) : AM bool := a ← try_account_ref k; mret (executable a).

Definition get_signers (keyed_accounts : list KeyedAccount) : list Pubkey :=
  omap signer_key keyed_accounts.

Definition keyed_account_at_index (keyed_accounts : list KeyedAccount) (index : nat) : AM KeyedAccount :=
  lift (ok_or NotEnoughAccountKeys (keyed_accounts !! index)).

Definition ka_state {T} `{Bincode T} (k : KeyedAccount) : AM T :=
  a ← try_account_ref k; lift (account_state a).

Definition ka_set_state {T} `{Bincode T} (k : KeyedAccount) (state : T) : AM unit :=
  with_account k (account_set_state state).

Definition check_sysvar_keyed_account (id : Pubkey) (k : KeyedAccount) : AM AccountSharedData :=
  _ ← ensure (unsigned_key k =? id) InvalidArgument; try_account_ref k.

Definition from_keyed_account (S : Type) `{Bincode S} (id : Pubkey) (k : KeyedAccount) : AM S :=
  a ← check_sysvar_keyed_account id k; lift (ok_or InvalidArgument (bincode_deserialize (data a))).

(** A lamports operation inside an instruction, with its error converted. *)
Definition lamports_op {A} (k : KeyedAccount) (m : SE AccountSharedData LamportsError A) : AM A :=
  with_account k (fun a => let '(r, a') := m a in (map_err InstructionError_from_lamports r, a')).

(** ** Lemmas *)

Lemma checked_add_lamports_Ok n a u a' :
  checked_add_lamports n a = (Ok u, a') <-> a' = set_lamports (lamports a + n) a /\ lamports a + n <= U64_MAX.
Proof.
  unfold checked_add_lamports, checked_add64. se_eval. destruct u.
  destruct (Z.leb_spec (lamports a + n) U64_MAX); cbn; split; [naive_solver| |done|lia].
  intros [-> _]. done.
Qed.

Lemma checked_sub_lamports_Ok n a u a' :
  checked_sub_lamports n a = (Ok u, a') <-> a' = set_lamports (lamports a - n) a /\ n <= lamports a.
Proof.
  unfold checked_sub_lamports, checked_sub64. se_eval. destruct u.
  destruct (Z.leb_spec n (lamports a)); cbn; split; [naive_solver| |done|lia].
  intros [-> _]. done.
Qed.

Lemma with_account_Ok {A} k (m : SE AccountSharedData InstructionError A) s r s' :
  with_account k m s = (Ok r, s') <->
  exists a a', s !! account k = Some a /\ m a = (Ok r, a') /\ s' = <[account k := a']> s.
Proof.
  unfold with_account. destruct (s !! account k) as [a|]; [|naive_solver].
  destruct (m a) as [o a'] eqn:Hm. split.
  - intros [= -> <-]. eauto.
  - intros (? & ? & [= <-] & Hm' & ->). rewrite Hm in Hm'. by simplify_eq.
Qed.

Lemma try_account_ref_Ok k s a s' :
  try_account_ref k s = (Ok a, s') <-> s !! account k = Some a /\ s' = s.
Proof. unfold try_account_ref. se_eval. destruct (s !! account k); cbn; naive_solver. Qed.

Lemma keyed_account_at_index_Ok l i s k s' :
  keyed_account_at_index l i s = (Ok k, s') <-> l !! i = Some k /\ s' = s.
Proof. unfold keyed_account_at_index. se_eval. destruct (l !! i); cbn; naive_solver. Qed.

Lemma lamports_op_Ok {A} k (m : SE AccountSharedData LamportsError A) s r s' :
  lamports_op k m s = (Ok r, s') <->
  exists a a', s !! account k = Some a /\ m a = (Ok r, a') /\ s' = <[account k := a']> s.
Proof.
  unfold lamports_op. rewrite with_account_Ok. split.
  - intros (a & a' & Ha & Hm & ->). destruct (m a) as [o b] eqn:E. injection Hm as Ho <-.
    apply map_err_Ok in Ho as ->. eauto.
  - intros (a & a' & Ha & Hm & ->). exists a, a'. by rewrite Hm.
Qed.

Section laws.
Context {T : Type} `{BincodeLaws T}.

(** Storing a state keeps everything of the account but the data, whose length
    stays, and the state is read back. *)
Lemma account_set_state_Ok (x : T) a u a' :
  account_set_state x a = (Ok u, a') ->
  exists b, a' = set_data b a /\ length b = length (data a) /\ account_state a' = Ok x.
Proof.
  unfold account_set_state, shared_serialize_data, serialize_into_data. se_eval.
  destruct (bincode_serialized_size x) as [n|e|]; cbn; [|done|done].
  destruct (Z.ltb_spec (Z.of_nat (length (data a))) n); cbn; [done|].
  pose proof (serialize_into_length x (data a)) as Hl.
  destruct (bincode_serialize_into x (data a)) as [r b] eqn:E. cbn in Hl.
  destruct r as [[]| |]; cbn; [|done|done]. intros [= _ <-]. exists b. split; [done|]. split; [done|].
  unfold account_state. cbn. by rewrite (serialize_into_roundtrip _ _ _ E).
Qed.

Lemma account_set_state_total (x : T) a : fst (account_set_state x a) ≠ Panic.
Proof.
  unfold account_set_state, shared_serialize_data, serialize_into_data. se_eval.
  pose proof (serialized_size_total x). destruct (bincode_serialized_size x) as [n|e|]; cbn; [|done|done].
  destruct (Z.ltb_spec (Z.of_nat (length (data a))) n); cbn; [done|].
  pose proof (serialize_into_total x (data a)). by destruct (bincode_serialize_into x (data a)) as [[]].
Qed.

Lemma ka_set_state_Ok k (x : T) s u s' : ka_set_state k x s = (Ok u, s') ->
  exists a b, s !! account k = Some a /\ s' = <[account k := set_data b a]> s /\
    length b = length (data a) /\ account_state (set_data b a) = Ok x.
Proof.
  intros (a & a' & Ha & Hm & ->)%with_account_Ok.
  apply account_set_state_Ok in Hm as (b & -> & Hl & Hst). eauto 10.
Qed.

Lemma ka_state_Ok k s (x : T) s' :
  ka_state k s = (Ok x, s') <-> s' = s /\ exists a, s !! account k = Some a /\ account_state a = Ok x.
Proof.
  unfold ka_state. rewrite SE_bind_Ok. setoid_rewrite try_account_ref_Ok. setoid_rewrite lift_Ok. naive_solver.
Qed.

(** [me] holds the state [v], and then [v'], with nothing else changed. *)
Definition stores_state (me : KeyedAccount) (s s' : Accounts) (v v' : T) : Prop :=
  exists a b, s !! account me = Some a /\ account_state a = Ok v /\ s' = <[account me := set_data b a]> s /\
    length b = length (data a) /\ account_state (set_data b a) = Ok v'.

Lemma stores_state_intro me s a v v' u s' : s !! account me = Some a -> account_state a = Ok v ->
  ka_set_state me v' s = (Ok u, s') -> stores_state me s s' v v'.
Proof.
  intros Ha Hv (a' & b & Ha' & -> & Hl & Hst)%ka_set_state_Ok. rewrite Ha in Ha'. injection Ha' as <-.
  exists a, b. auto.
Qed.
End laws.

(** Proves [stores_state] from the reading and the writing of the account. *)
Ltac store_state :=
  match goal with
  | Ha : _ !! _ = Some ?a, Hst : account_state ?a = Ok _ |- stores_state _ _ _ _ _ =>
      by eapply (stores_state_intro _ _ _ _ _ _ _ Ha Hst)
  end.

(** Decomposes the hypotheses that say code on accounts returned [Ok]: the
    reading steps, and the writing ones. *)
Ltac read_step :=
  match goal with
  | H : try_account_ref _ _ = (Ok _, _) |- _ => apply try_account_ref_Ok in H as [? ->]
  | H : keyed_account_at_index _ _ _ = (Ok _, _) |- _ => apply keyed_account_at_index_Ok in H as [? ->]
  | H : ka_state _ _ = (Ok _, _) |- _ => apply ka_state_Ok in H as (-> & ? & ? & ?)
  | H : ka_lamports _ _ = (Ok _, _) |- _ => unfold ka_lamports in H
  | H : ka_data_len _ _ = (Ok _, _) |- _ => unfold ka_data_len in H
  | H : ka_data_is_empty _ _ = (Ok _, _) |- _ => unfold ka_data_is_empty in H
  | H : ka_owner _ _ = (Ok _, _) |- _ => unfold ka_owner in H
  | H : check_sysvar_keyed_account _ _ _ = (Ok _, _) |- _ => unfold check_sysvar_keyed_account in H
  | H : from_keyed_account _ _ _ _ = (Ok _, _) |- _ => unfold from_keyed_account in H
  | H : (if ?b then _ else _) _ = (Ok _, _) |- _ => destruct b eqn:?
  | H : (if ?b then _ else _) = Ok _ |- _ => destruct b eqn:?
  end.
Ltac write_step :=
  match goal with
  | H : ka_set_state _ _ _ = (Ok _, _) |- _ => apply ka_set_state_Ok in H as (? & ? & ? & -> & ? & ?)
  | H : lamports_op _ _ _ = (Ok _, _) |- _ => apply lamports_op_Ok in H as (? & ? & ? & ? & ->)
  | H : with_account _ _ _ = (Ok _, _) |- _ => apply with_account_Ok in H as (? & ? & ? & ? & ->)
  | H : checked_add_lamports _ _ = (Ok _, _) |- _ => apply checked_add_lamports_Ok in H as [-> ?]
  | H : checked_sub_lamports _ _ = (Ok _, _) |- _ => apply checked_sub_lamports_Ok in H as [-> ?]
  end.
Ltac read_inv := repeat (ok_step || read_step).
Ltac acct_inv := repeat (ok_step || read_step || write_step).

(** ** Total lamports *)

Definition total_lamports (s : Accounts) : Z := foldr (fun a acc => lamports a + acc) 0 s.

Lemma total_lamports_insert s i a b :
  s !! i = Some a -> total_lamports (<[i := b]> s) = total_lamports s - lamports a + lamports b.
Proof.
  revert i. induction s as [|x s IH]; intros [|i] Hi; cbn in Hi; [done|done| |].
  - injection Hi as ->. cbn. lia.
  - specialize (IH i Hi). change (<[S i := b]> (x :: s)) with (x :: <[i := b]> s).
    unfold total_lamports in *. cbn [foldr]. lia.
Qed.

Lemma total_lamports_nonneg s : (forall i a, s !! i = Some a -> 0 <= lamports a) -> 0 <= total_lamports s.
Proof.
  induction s as [|x s IH]; intros Hf; cbn; [done|]. pose proof (Hf 0%nat x eq_refl).
  fold (total_lamports s). assert (0 <= total_lamports s); [|lia]. apply IH. intros i a Hi. by apply (Hf (S i)).
Qed.

(** ** Frames *)

(** What stays of an account: all but its data, whose length stays, and its lamports. *)
Definition account_frame (a a' : AccountSharedData) : Prop :=
  length (data a') = length (data a) /\ owner a' = owner a /\ executable a' = executable a /\
  rent_epoch a' = rent_epoch a.

Lemma account_frame_refl a : account_frame a a.
Proof. done. Qed.

Lemma insert_frame i (x y : AccountSharedData) (s : Accounts) j a a' :
  s !! i = Some x -> account_frame x y -> s !! j = Some a -> <[i := y]> s !! j = Some a' ->
  account_frame a a' /\ (i ≠ j -> a' = a).
Proof.
  intros Hx Hf Ha Ha'. destruct (decide (i = j)) as [->|Hne].
  - rewrite list_lookup_insert_eq in Ha' by by eapply lookup_lt_Some. simplify_eq. done.
  - rewrite list_lookup_insert_ne in Ha' by done. simplify_eq. auto using account_frame_refl.
Qed.

Lemma get_signers_spec l pk : pk ∈ get_signers l <-> exists k, k ∈ l /\ is_signer k = true /\ key k = pk.
Proof.
  unfold get_signers. rewrite list_elem_of_omap. unfold signer_key. split.
  - intros (k & Hk & Hs). destruct (is_signer k) eqn:E; naive_solver.
  - intros (k & Hk & Hs & <-). exists k. by rewrite Hs.
Qed.

(** ** A concrete serialization

    The codec of a table of values: a value is written as its index. It
    instantiates [Bincode] where a property is applied to concrete data. *)
Section table_codec.
Context {T : Type} `{EqDecision T} (table : list T).

Definition table_index (x : T) : option nat := fst <$> list_find (x =.) table.

Definition table_codec : Bincode T := {|
  bincode_deserialize b := match b with c :: _ => table !! Z.to_nat c | [] => None end;
  bincode_deserialize_limited n b := match b with c :: _ => table !! Z.to_nat c | [] => None end;
  bincode_serialized_size x := match table_index x with Some _ => Ok 1 | None => Err BincodeOther end;
  bincode_serialize_into x b :=
    match table_index x, b with
    | Some i, _ :: b => (Ok tt, Z.of_nat i :: b)
    | Some _, [] => (Err SizeLimit, b)
    | None, _ => (Err BincodeOther, b)
    end;
|}.

Lemma table_codec_laws : @BincodeLaws T table_codec.
Proof.
  split; cbn; intros.
  - by destruct (table_index x), b.
  - destruct (table_index x) as [i|] eqn:E; [|done]. destruct b as [|c b]; [done|]. simplify_eq.
    rewrite Nat2Z.id. unfold table_index in E. apply fmap_Some in E as ([j y] & Hf & ->).
    apply list_find_Some in Hf as (Hl & <- & _). done.
  - destruct (table_index x) as [i|]; [|done]. simplify_eq. destruct b; [cbn in *; lia|]. eauto.
  - by destruct (table_index x).
  - by destruct (table_index x), b.
Qed.

Lemma table_codec_Forall (P : T -> Prop) b x : Forall P table -> @bincode_deserialize T table_codec b = Some x -> P x.
Proof. intros HP. cbn. destruct b; [done|]. intros Hx. by eapply Forall_lookup_1. Qed.
End table_codec.
