(* ===== verification/EpochSchedule.v ===== *)
(** * Epoch schedule

    [sdk/program/src/epoch_schedule.rs]: the map between slots and epochs, with
    epochs of doubling length during the warm-up, and the constants of
    [sdk/program/src/clock.rs] it uses. The main result is that a slot and its
    (epoch, index) pair determine each other. *)
From stdpp Require Import base numbers option list.
From S2P Require Import Prelude.

(** ** Integer methods of the standard library *)

(** [u64::next_power_of_two]; the release build wraps to 0 above 2^63. *)
Definition next_power_of_two (x : Z) : Z :=
  if x <=? 9223372036854775808 then 2 ^ Z.log2_up x else 0.

Fixpoint pos_trailing_zeros (p : positive) : Z :=
  match p with xO p => 1 + pos_trailing_zeros p | _ => 0 end.

(** [u64::trailing_zeros] *)
Definition trailing_zeros (x : Z) : Z :=
  match x with Z0 => 64 | Zpos p | Zneg p => pos_trailing_zeros p end.

(** [2u64.saturating_pow] *)
Definition saturating_pow2 (n : Z) : Z := if n <? 64 then 2 ^ n else U64_MAX.

Definition saturating_add32 (a b : Z) : Z := Z.min (a + b) U32_MAX.
Definition saturating_sub32 (a b : Z) : Z := Z.max (a - b) 0.

(** [checked_div] and [checked_rem] with [unwrap_or(0)] *)
Definition div_or_0 (a b : Z) : Z := if b =? 0 then 0 else a / b.
Definition rem_or_0 (a b : Z) : Z := if b =? 0 then 0 else a mod b.

(** ** The schedule *)

Definition DEFAULT_TICKS_PER_SECOND : Z := 160.
Definition DEFAULT_TICKS_PER_SLOT : Z := 64.
Definition SECONDS_PER_DAY : Z := 24 * 60 * 60.
Definition TICKS_PER_DAY : Z := DEFAULT_TICKS_PER_SECOND * SECONDS_PER_DAY.
Definition DEFAULT_SLOTS_PER_EPOCH : Z := 2 * TICKS_PER_DAY / DEFAULT_TICKS_PER_SLOT.
Definition DEFAULT_LEADER_SCHEDULE_SLOT_OFFSET : Z := DEFAULT_SLOTS_PER_EPOCH.
Definition MINIMUM_SLOTS_PER_EPOCH : Z := 32.

Record EpochSchedule : Type := mkEpochSchedule {
  slots_per_epoch : Z;
  leader_schedule_slot_offset : Z;
  warmup : bool;
  first_normal_epoch : Epoch;
  first_normal_slot : Slot;
}.

Definition EpochSchedule_custom {E} (spe lsso : Z) (wu : bool) : outcome E EpochSchedule :=
  if negb (MINIMUM_SLOTS_PER_EPOCH <=? spe) then Panic
  else
    let '(fne, fns) :=
      if wu then
        let npo2 := next_power_of_two spe in
        let log2 := saturating_sub32 (trailing_zeros npo2) (trailing_zeros MINIMUM_SLOTS_PER_EPOCH) in
        (log2, saturating_sub64 npo2 MINIMUM_SLOTS_PER_EPOCH)
      else (0, 0) in
    Ok (mkEpochSchedule spe lsso wu fne fns).

Definition EpochSchedule_new {E} (spe : Z) : outcome E EpochSchedule :=
  EpochSchedule_custom spe spe true.

Definition EpochSchedule_default {E} : outcome E EpochSchedule :=
  EpochSchedule_custom DEFAULT_SLOTS_PER_EPOCH DEFAULT_LEADER_SCHEDULE_SLOT_OFFSET true.

Definition without_warmup {E} : outcome E EpochSchedule :=
  EpochSchedule_custom DEFAULT_SLOTS_PER_EPOCH DEFAULT_LEADER_SCHEDULE_SLOT_OFFSET false.

Definition get_slots_in_epoch (es : EpochSchedule) (epoch : Epoch) : Z :=
  if epoch <? first_normal_epoch es
  then saturating_pow2 (saturating_add32 (as_u32 epoch) (trailing_zeros MINIMUM_SLOTS_PER_EPOCH))
  else slots_per_epoch es.

Definition get_epoch_and_slot_index (es : EpochSchedule) (slot : Slot) : Epoch * Z :=
  if slot <? first_normal_slot es then
    let epoch :=
      saturating_sub32
        (saturating_sub32
           (trailing_zeros (next_power_of_two
              (saturating_add64 (saturating_add64 slot MINIMUM_SLOTS_PER_EPOCH) 1)))
           (trailing_zeros MINIMUM_SLOTS_PER_EPOCH)) 1 in
    let epoch_len := saturating_pow2 (saturating_add32 epoch (trailing_zeros MINIMUM_SLOTS_PER_EPOCH)) in
    (epoch, saturating_sub64 slot (saturating_sub64 epoch_len MINIMUM_SLOTS_PER_EPOCH))
  else
    let normal_slot_index := saturating_sub64 slot (first_normal_slot es) in
    let normal_epoch_index := div_or_0 normal_slot_index (slots_per_epoch es) in
    (saturating_add64 (first_normal_epoch es) normal_epoch_index,
     rem_or_0 normal_slot_index (slots_per_epoch es)).

Definition get_epoch (es : EpochSchedule) (slot : Slot) : Epoch := fst (get_epoch_and_slot_index es slot).

Definition get_leader_schedule_epoch (es : EpochSchedule) (slot : Slot) : Epoch :=
  if slot <? first_normal_slot es
  then saturating_add64 (fst (get_epoch_and_slot_index es slot)) 1
  else
    let new_slots_since_first_normal_slot := saturating_sub64 slot (first_normal_slot es) in
    let new_first_normal_leader_schedule_slot :=
      saturating_add64 new_slots_since_first_normal_slot (leader_schedule_slot_offset es) in
    saturating_add64 (first_normal_epoch es)
      (div_or_0 new_first_normal_leader_schedule_slot (slots_per_epoch es)).

Definition get_first_slot_in_epoch (es : EpochSchedule) (epoch : Epoch) : Slot :=
  if epoch <=? first_normal_epoch es
  then saturating_mul64 (saturating_sub64 (saturating_pow2 (as_u32 epoch)) 1) MINIMUM_SLOTS_PER_EPOCH
  else saturating_add64
         (saturating_mul64 (saturating_sub64 epoch (first_normal_epoch es)) (slots_per_epoch es))
         (first_normal_slot es).

Definition get_last_slot_in_epoch (es : EpochSchedule) (epoch : Epoch) : Slot :=
  saturating_sub64 (saturating_add64 (get_first_slot_in_epoch es epoch) (get_slots_in_epoch es epoch)) 1.

(** ** Powers of two *)

Lemma trailing_zeros_pow2 k : 0 <= k -> trailing_zeros (2 ^ k) = k.
Proof.
  intros Hk. pattern k. apply natlike_ind; [done| |done]. intros n Hn IH.
  rewrite Z.pow_succ_r by done. pose proof (Z.pow_pos_nonneg 2 n ltac:(lia) Hn).
  destruct (2 ^ n) as [|p|p] eqn:Hp; [lia| |lia]. cbn [trailing_zeros] in IH |- *.
  change (1 + pos_trailing_zeros p = Z.succ n). lia.
Qed.

Lemma next_power_of_two_eq k x :
  0 <= k <= 63 -> 2 ^ (k - 1) < x <= 2 ^ k -> next_power_of_two x = 2 ^ k.
Proof.
  intros Hk Hx. unfold next_power_of_two.
  assert (2 ^ k <= 9223372036854775808).
  { change 9223372036854775808 with (2 ^ 63). apply Z.pow_le_mono_r; lia. }
  rewrite (proj2 (Z.leb_le _ _)) by lia. f_equal. destruct (decide (k = 0)) as [->|Hne].
  - cbn in Hx. by replace x with 1 by lia.
  - apply Z.log2_up_unique; [lia|]. by rewrite <- Z.sub_1_r.
Qed.

Lemma saturating_pow2_eq n : 0 <= n < 64 -> saturating_pow2 n = 2 ^ n.
Proof. intros. unfold saturating_pow2. by rewrite (proj2 (Z.ltb_lt _ _)) by lia. Qed.

Lemma pow2_add_5 n : 0 <= n -> 2 ^ (n + 5) = 32 * 2 ^ n.
Proof. intros. rewrite Z.pow_add_r by lia. change (2 ^ 5) with 32. lia. Qed.

Lemma pow2_bound n m : 0 <= n <= m -> 1 <= 2 ^ n <= 2 ^ m.
Proof.
  intros. split; [|apply Z.pow_le_mono_r; lia]. pose proof (Z.pow_pos_nonneg 2 n). lia.
Qed.

(** ** Well-formed schedules *)

(** What [custom] establishes: during the warm-up, epoch [e] has [32 * 2^e]
    slots, so that the first normal epoch starts at [32 * (2^e - 1)]. *)
Record schedule_wf (es : EpochSchedule) : Prop := {
  sw_slots : 32 <= slots_per_epoch es <= U64_MAX;
  sw_epoch : 0 <= first_normal_epoch es <= 58;
  sw_slot : first_normal_slot es = 32 * (2 ^ first_normal_epoch es - 1);
}.

Lemma EpochSchedule_custom_wf {E} spe lsso wu :
  32 <= spe <= 9223372036854775808 ->
  exists es, EpochSchedule_custom (E := E) spe lsso wu = Ok es /\ schedule_wf es /\
    slots_per_epoch es = spe.
Proof.
  intros Hspe. unfold EpochSchedule_custom, MINIMUM_SLOTS_PER_EPOCH.
  rewrite (proj2 (Z.leb_le _ _)) by lia. cbn [negb].
  assert (5 <= Z.log2_up spe <= 63) as Hl
    by (change 5 with (Z.log2_up 32); change 63 with (Z.log2_up 9223372036854775808);
        split; apply Z.log2_up_le_mono; lia).
  assert (next_power_of_two spe = 2 ^ Z.log2_up spe) as Hn
    by (unfold next_power_of_two; by rewrite (proj2 (Z.leb_le _ _)) by lia).
  rewrite Hn, trailing_zeros_pow2 by lia. change (trailing_zeros 32) with 5.
  destruct wu; eexists; (split; [reflexivity|]); (split; [|done]); split;
    cbn [slots_per_epoch first_normal_epoch first_normal_slot]; unfold saturating_sub32; try u64.
  rewrite Z.max_l by lia. pose proof (pow2_add_5 (Z.log2_up spe - 5) ltac:(lia)) as Hp.
  replace (Z.log2_up spe - 5 + 5) with (Z.log2_up spe) in Hp by lia. rewrite Hp.
  pose proof (pow2_bound (Z.log2_up spe - 5) 58). u64.
Qed.

(** ** Lengths and first slots *)

Section schedule.
Context (es : EpochSchedule) (Hwf : schedule_wf es).

Let F := first_normal_epoch es.
Let L := slots_per_epoch es.

(** First slot of an epoch and its length, without saturation. *)
Definition epoch_start (e : Epoch) : Z :=
  if e <=? F then 32 * (2 ^ e - 1) else (e - F) * L + first_normal_slot es.
Definition epoch_length (e : Epoch) : Z := if e <? F then 32 * 2 ^ e else L.

Lemma get_slots_in_epoch_eq e : 0 <= e -> get_slots_in_epoch es e = epoch_length e.
Proof.
  intros He. destruct Hwf as [Hs He' _]. unfold get_slots_in_epoch, epoch_length, F, L.
  destruct (Z.ltb_spec e (first_normal_epoch es)); [|done].
  assert (as_u32 e = e) as -> by (apply Z.mod_small; lia).
  change (trailing_zeros MINIMUM_SLOTS_PER_EPOCH) with 5.
  unfold saturating_add32. rewrite Z.min_l by u64. rewrite saturating_pow2_eq by lia.
  by rewrite pow2_add_5 by lia.
Qed.

Lemma epoch_start_nonneg e : 0 <= e -> 0 <= epoch_start e.
Proof.
  intros He. destruct Hwf as [Hs He' Hn]. unfold epoch_start, F, L. rewrite Hn.
  pose proof (pow2_bound e (first_normal_epoch es)). pose proof (pow2_bound (first_normal_epoch es) 58).
  zcases; nia.
Qed.

Lemma get_first_slot_in_epoch_eq e :
  0 <= e -> get_first_slot_in_epoch es e = Z.min (epoch_start e) U64_MAX.
Proof.
  intros He. pose proof (epoch_start_nonneg e He) as Hpos. destruct Hwf as [Hs He' Hn].
  unfold get_first_slot_in_epoch, epoch_start, F, L in *.
  destruct (Z.leb_spec e (first_normal_epoch es)) as [Hle|Hgt].
  - assert (as_u32 e = e) as -> by (apply Z.mod_small; lia).
    rewrite saturating_pow2_eq by lia. pose proof (pow2_bound e 58).
    assert (2 ^ 58 = 288230376151711744) by reflexivity. unfold MINIMUM_SLOTS_PER_EPOCH. u64.
  - pose proof (pow2_bound (first_normal_epoch es) 58). u64.
Qed.

Lemma epoch_start_succ e : 0 <= e -> epoch_start (e + 1) = epoch_start e + epoch_length e.
Proof.
  intros He. destruct Hwf as [Hs He' Hn]. unfold epoch_start, epoch_length, F, L in *. rewrite Hn.
  assert (2 ^ (e + 1) = 2 * 2 ^ e) as Hp by (rewrite Z.pow_add_r by lia; lia).
  zcases; try lia. assert (e = first_normal_epoch es) as -> by lia. lia.
Qed.

Lemma epoch_length_pos e : 0 <= e -> 32 <= epoch_length e.
Proof.
  intros He. destruct Hwf as [Hs He' _]. unfold epoch_length, F, L. pose proof (pow2_bound e e).
  zcases; lia.
Qed.

(** ** From an epoch and an index to the pair and back *)

Lemma warmup_pair slot e : 0 <= e < F -> epoch_start e <= slot < epoch_start (e + 1) ->
  get_epoch_and_slot_index es slot = (e, slot - epoch_start e).
Proof.
  intros He Hslot. destruct Hwf as [Hs He' Hn]. unfold epoch_start, F, L in *.
  rewrite !(proj2 (Z.leb_le _ _)) in * by lia.
  assert (2 ^ (e + 1) = 2 * 2 ^ e) as Hp by (rewrite Z.pow_add_r by lia; lia).
  pose proof (pow2_bound e 57) as Hb. pose proof (pow2_bound (e + 1) (first_normal_epoch es)) as Hb'.
  assert (2 ^ 57 = 144115188075855872) as H57 by reflexivity.
  unfold get_epoch_and_slot_index. rewrite (proj2 (Z.ltb_lt _ _)) by (rewrite Hn; lia).
  unfold MINIMUM_SLOTS_PER_EPOCH. change (trailing_zeros 32) with 5.
  replace (saturating_add64 (saturating_add64 slot 32) 1) with (slot + 33) by u64.
  pose proof (pow2_add_5 e ltac:(lia)) as H5. pose proof (pow2_add_5 (e + 1) ltac:(lia)) as H6.
  rewrite (next_power_of_two_eq (e + 6)); [|lia|].
  2:{ replace (e + 6 - 1) with (e + 5) by lia. replace (e + 6) with (e + 1 + 5) by lia. lia. }
  rewrite trailing_zeros_pow2 by lia. unfold saturating_sub32, saturating_add32.
  replace (Z.max (Z.max (e + 6 - 5) 0 - 1) 0) with e by lia. rewrite Z.min_l by u64.
  rewrite saturating_pow2_eq, H5 by lia. f_equal. u64.
Qed.

Lemma normal_pair slot : first_normal_slot es <= slot <= U64_MAX ->
  get_epoch_and_slot_index es slot =
    (F + (slot - first_normal_slot es) / L, (slot - first_normal_slot es) mod L).
Proof.
  intros Hslot. destruct Hwf as [Hs He' Hn]. unfold get_epoch_and_slot_index, F, L.
  rewrite (proj2 (Z.ltb_ge _ _)) by lia. unfold div_or_0, rem_or_0.
  rewrite (proj2 (Z.eqb_neq _ _)) by lia.
  assert (0 <= first_normal_slot es).
  { rewrite Hn. pose proof (pow2_bound (first_normal_epoch es) 58). lia. }
  replace (saturating_sub64 slot (first_normal_slot es)) with (slot - first_normal_slot es) by u64.
  f_equal. assert (0 <= (slot - first_normal_slot es) / slots_per_epoch es) by (apply Z.div_pos; lia).
  assert ((slot - first_normal_slot es) / slots_per_epoch es <= (slot - first_normal_slot es) / 32)
    by (apply Z.div_le_compat_l; lia).
  pose proof (Z.div_mod (slot - first_normal_slot es) 32 ltac:(lia)).
  pose proof (Z.mod_pos_bound (slot - first_normal_slot es) 32 ltac:(lia)). u64.
Qed.

Lemma epoch_of_warmup_slot slot : 0 <= slot < first_normal_slot es ->
  exists e, 0 <= e < F /\ epoch_start e <= slot < epoch_start (e + 1).
Proof.
  intros Hslot. destruct Hwf as [Hs He' Hn]. unfold epoch_start, F. rewrite Hn in Hslot.
  exists (Z.log2 (slot / 32 + 1)).
  pose proof (Z.div_mod slot 32 ltac:(lia)). pose proof (Z.mod_pos_bound slot 32 ltac:(lia)).
  assert (0 <= slot / 32) by (apply Z.div_pos; lia).
  pose proof (Z.log2_spec (slot / 32 + 1) ltac:(lia)) as [Hlo Hhi]. rewrite <- Z.add_1_r in Hhi.
  pose proof (Z.log2_nonneg (slot / 32 + 1)).
  assert (Z.log2 (slot / 32 + 1) < first_normal_epoch es).
  { apply Z.log2_lt_pow2; lia. }
  rewrite !(proj2 (Z.leb_le _ _)) by lia. lia.
Qed.

Lemma epoch_index_spec slot : in_u64 slot ->
  let '(e, i) := get_epoch_and_slot_index es slot in
  0 <= e /\ 0 <= i < epoch_length e /\ epoch_start e + i = slot.
Proof.
  intros [H0 Hmax]. destruct (Z.lt_ge_cases slot (first_normal_slot es)) as [Hlt|Hge].
  - destruct (epoch_of_warmup_slot slot) as (e & He & Hse); [lia|].
    rewrite (warmup_pair slot e) by done. rewrite epoch_start_succ in Hse by lia. lia.
  - rewrite normal_pair by done. destruct Hwf as [Hs He' Hn]. unfold epoch_start, epoch_length, F, L in *.
    pose proof (Z.div_mod (slot - first_normal_slot es) (slots_per_epoch es) ltac:(lia)).
    pose proof (Z.mod_pos_bound (slot - first_normal_slot es) (slots_per_epoch es) ltac:(lia)).
    assert (0 <= (slot - first_normal_slot es) / slots_per_epoch es) by (apply Z.div_pos; lia).
    set (q := (slot - first_normal_slot es) / slots_per_epoch es) in *.
    rewrite (proj2 (Z.ltb_ge _ _)) by lia. split; [lia|]. split; [lia|].
    destruct (Z.leb_spec (first_normal_epoch es + q) (first_normal_epoch es)); [|nia].
    assert (q = 0) as Hq by lia. rewrite Hq, Z.add_0_r. lia.
Qed.

Lemma epoch_start_mono e e' : 0 <= e <= e' -> epoch_start e <= epoch_start e'.
Proof.
  intros [He Hle]. replace e' with (e + Z.of_nat (Z.to_nat (e' - e))) by lia.
  induction (Z.to_nat (e' - e)) as [|n IH]; [rewrite Z.add_0_r; lia|].
  rewrite Nat2Z.inj_succ. replace (e + Z.succ (Z.of_nat n)) with (e + Z.of_nat n + 1) by lia.
  rewrite epoch_start_succ by lia. pose proof (epoch_length_pos (e + Z.of_nat n)). lia.
Qed.

Lemma epoch_unique e i e' i' : 0 <= e -> 0 <= e' -> 0 <= i < epoch_length e ->
  0 <= i' < epoch_length e' -> epoch_start e + i = epoch_start e' + i' -> e = e' /\ i = i'.
Proof.
  intros He He' Hi Hi' Heq. pose proof (epoch_start_succ e He). pose proof (epoch_start_succ e' He').
  destruct (Z.lt_trichotomy e e') as [Hlt|[->|Hlt]]; [|lia|].
  - pose proof (epoch_start_mono (e + 1) e'). lia.
  - pose proof (epoch_start_mono (e' + 1) e). lia.
Qed.
End schedule.

(** ** Properties *)

(** Slots and (epoch, index) pairs determine each other, for every schedule
    [custom] builds with at most 2^63 slots per epoch: the pair of a slot has an
    index inside the epoch and leads back to the slot from the epoch's first
    slot, and a slot at an index of an epoch is mapped to that epoch and index. *)
Theorem epoch_slot_roundtrip {E} spe lsso wu :
  32 <= spe <= 9223372036854775808 ->
  exists es, EpochSchedule_custom (E := E) spe lsso wu = Ok es /\
  (forall slot, in_u64 slot ->
     let '(epoch, index) := get_epoch_and_slot_index es slot in
     0 <= index < get_slots_in_epoch es epoch /\ get_first_slot_in_epoch es epoch + index = slot) /\
  (forall epoch index, 0 <= epoch -> 0 <= index < get_slots_in_epoch es epoch ->
     get_first_slot_in_epoch es epoch + index < U64_MAX ->
     get_epoch_and_slot_index es (get_first_slot_in_epoch es epoch + index) = (epoch, index)).
Proof.
  intros Hspe. destruct (EpochSchedule_custom_wf (E := E) spe lsso wu Hspe) as (es & Hes & Hwf & _).
  exists es. split; [done|]. split.
  - intros slot Hslot. pose proof (epoch_index_spec es Hwf slot Hslot) as H.
    destruct (get_epoch_and_slot_index es slot) as [e i]. destruct H as (He & Hi & Hs).
    rewrite get_slots_in_epoch_eq, get_first_slot_in_epoch_eq by done. u64.
  - intros e i He Hi Hmax. rewrite get_slots_in_epoch_eq in Hi by done.
    rewrite get_first_slot_in_epoch_eq in * by done. pose proof (epoch_start_nonneg es Hwf e He).
    rewrite Z.min_l in * by lia. pose proof (epoch_index_spec es Hwf (epoch_start es e + i) ltac:(u64)) as H'.
    destruct (get_epoch_and_slot_index es (epoch_start es e + i)) as [e' i']. destruct H' as (He' & Hi' & Hs).
    destruct (epoch_unique es Hwf e i e' i') as [-> ->]; done.
Qed.

Lemma epoch_slot_roundtrip_witness :
  exists es, EpochSchedule_custom (E := unit) 8192 8192 true = Ok es /\
    get_first_slot_in_epoch es 3 = 224 /\ get_epoch_and_slot_index es (224 + 5) = (3, 5).
Proof.
  destruct (epoch_slot_roundtrip (E := unit) 8192 8192 true) as (es & Hes & _ & H); [lia|].
  exists es. split; [done|]. injection Hes as <-. split; [reflexivity|].
  apply (H 3 5); [lia|split; vm_compute; done|vm_compute; done].
Defined.

(** Epochs tile the slots: the first slot of the next epoch is the one after the
    last slot of an epoch, and the epoch of a slot never decreases with the slot
    and grows by at most one from a slot to the next. *)
Theorem epochs_tile_slots {E} spe lsso wu :
  32 <= spe <= 9223372036854775808 ->
  exists es, EpochSchedule_custom (E := E) spe lsso wu = Ok es /\
  (forall epoch, 0 <= epoch -> get_first_slot_in_epoch es (epoch + 1) < U64_MAX ->
     get_first_slot_in_epoch es (epoch + 1) = get_last_slot_in_epoch es epoch + 1) /\
  (forall slot, in_u64 slot -> in_u64 (slot + 1) ->
     get_epoch es slot <= get_epoch es (slot + 1) <= get_epoch es slot + 1).
Proof.
  intros Hspe. destruct (EpochSchedule_custom_wf (E := E) spe lsso wu Hspe) as (es & Hes & Hwf & _).
  exists es. split; [done|]. split.
  - intros e He Hlt. unfold get_last_slot_in_epoch.
    rewrite get_slots_in_epoch_eq, !get_first_slot_in_epoch_eq in * by (done || lia).
    pose proof (epoch_start_nonneg es Hwf e He). pose proof (epoch_length_pos es Hwf e He).
    rewrite epoch_start_succ in * by done. u64.
  - intros slot Hs Hs'. unfold get_epoch.
    pose proof (epoch_index_spec es Hwf _ Hs) as H. pose proof (epoch_index_spec es Hwf _ Hs') as H'.
    destruct (get_epoch_and_slot_index es slot) as [e i].
    destruct (get_epoch_and_slot_index es (slot + 1)) as [e' i']. cbn.
    destruct H as (He & Hi & Heq), H' as (He' & Hi' & Heq').
    pose proof (epoch_start_succ es Hwf e He). pose proof (epoch_start_succ es Hwf e' He').
    split; apply Z.le_ngt; intros Hlt.
    + pose proof (epoch_start_mono es Hwf (e' + 1) e). lia.
    + pose proof (epoch_start_mono es Hwf (e + 2) e'). pose proof (epoch_start_succ es Hwf (e + 1)).
      pose proof (epoch_length_pos es Hwf (e + 1)). replace (e + 1 + 1) with (e + 2) in * by lia. lia.
Qed.

Lemma epochs_tile_slots_witness :
  exists es, EpochSchedule_custom (E := unit) 8192 8192 true = Ok es /\
    get_first_slot_in_epoch es 4 = get_last_slot_in_epoch es 3 + 1.
Proof.
  destruct (epochs_tile_slots (E := unit) 8192 8192 true) as (es & Hes & H & _); [lia|].
  exists es. split; [done|]. injection Hes as <-. apply (H 3); [lia|vm_compute; done].
Defined.
