(* ===== verification/Float64.v ===== *)
(** * Binary64 arithmetic

    The [f64] operations the ledger uses, over the IEEE 754 specification of
    the standard library ([SpecFloat] at precision 53 and maximal exponent
    1024, rounding to nearest even), the [as f64] and [as u64] casts, and the
    lemmas that say when they are exact. *)
From Stdlib Require Import SpecFloat.
From stdpp Require Import base numbers option list.
From S2P Require Import Prelude.

(** ** Operations *)

Definition f64 : Type := spec_float.

Definition f64_prec : Z := 53.
Definition f64_emax : Z := 1024.

Definition f64_mul : f64 -> f64 -> f64 := SFmul f64_prec f64_emax.
Definition f64_div : f64 -> f64 -> f64 := SFdiv f64_prec f64_emax.
Definition f64_add : f64 -> f64 -> f64 := SFadd f64_prec f64_emax.
Definition f64_sub : f64 -> f64 -> f64 := SFsub f64_prec f64_emax.
Definition f64_lt : f64 -> f64 -> bool := SFltb.
Definition f64_eq : f64 -> f64 -> bool := SFeqb.

(** [u64 as f64]: rounds to nearest even. *)
Definition f64_of_u64 (z : Z) : f64 := binary_normalize f64_prec f64_emax z 0 false.

(** [f64 as u64]: truncates towards zero, saturates, and maps NaN to 0. *)
Definition f64_to_u64 (x : f64) : Z :=
  match x with
  | S754_zero _ | S754_nan => 0
  | S754_infinity s => if s then 0 else U64_MAX
  | S754_finite true _ _ => 0
  | S754_finite false m e =>
      Z.min U64_MAX (if 0 <=? e then Z.shiftl (Zpos m) e else Z.shiftr (Zpos m) (- e))
  end.

(** [u64::max(x as u64, 1)]-style decimal constants are built from integers;
    [f64::max] returns the other operand when one is NaN. *)
Definition f64_max (x y : f64) : f64 :=
  match x, y with
  | S754_nan, _ => y
  | _, S754_nan => x
  | _, _ => if SFltb x y then y else x
  end.

(** ** Digits *)

Lemma digits2_log2 p : Zpos (digits2_pos p) = Z.log2 (Zpos p) + 1.
Proof.
  induction p as [p IH|p IH|]; cbn [digits2_pos]; rewrite ?Pos2Z.inj_succ, ?IH; [| |done].
  - rewrite Pos2Z.inj_xI, Z.log2_succ_double by lia. lia.
  - rewrite Pos2Z.inj_xO, Z.log2_double by lia. lia.
Qed.

Lemma Zdigits2_log2 z : 0 < z -> Zdigits2 z = Z.log2 z + 1.
Proof. destruct z; [lia| |lia]. intros. apply digits2_log2. Qed.

Lemma log2_range z n : 0 <= n -> 2 ^ n <= z < 2 ^ (n + 1) -> Z.log2 z = n.
Proof. intros. apply Z.log2_unique; [done|]. by rewrite <- Z.add_1_r. Qed.

(** ** Exact shifts *)

Lemma iter_pos_nat {A} (f : A -> A) p x : SpecFloat.iter_pos f p x = Nat.iter (Pos.to_nat p) f x.
Proof.
  revert x. induction p as [p IH|p IH|]; intros x; cbn [SpecFloat.iter_pos].
  - rewrite !IH, Pos2Nat.inj_xI, Nat.iter_succ_r.
    replace (2 * Pos.to_nat p)%nat with (Pos.to_nat p + Pos.to_nat p)%nat by lia. by rewrite Nat.iter_add.
  - rewrite !IH, Pos2Nat.inj_xO.
    replace (2 * Pos.to_nat p)%nat with (Pos.to_nat p + Pos.to_nat p)%nat by lia. by rewrite Nat.iter_add.
  - done.
Qed.

Lemma shr_1_even m : 0 <= m ->
  shr_1 {| shr_m := 2 * m; shr_r := false; shr_s := false |} =
  {| shr_m := m; shr_r := false; shr_s := false |}.
Proof. by destruct m. Qed.

Lemma shr_exact m n : 0 <= m ->
  Nat.iter n shr_1 {| shr_m := m * 2 ^ Z.of_nat n; shr_r := false; shr_s := false |} =
  {| shr_m := m; shr_r := false; shr_s := false |}.
Proof.
  intros Hm. induction n as [|n IH]; [cbn; by rewrite Z.mul_1_r|].
  rewrite Nat.iter_succ_r. etransitivity; [|exact IH]. f_equal.
  rewrite Nat2Z.inj_succ, Z.pow_succ_r by lia.
  replace (m * (2 * 2 ^ Z.of_nat n)) with (2 * (m * 2 ^ Z.of_nat n)) by lia.
  apply shr_1_even. pose proof (Z.pow_pos_nonneg 2 (Z.of_nat n)). nia.
Qed.

Lemma shr_exact_Z m e k : 0 <= m -> 0 <= k ->
  shr (shr_record_of_loc (m * 2 ^ k) loc_Exact) e k =
  ({| shr_m := m; shr_r := false; shr_s := false |}, e + k).
Proof.
  intros Hm Hk. unfold shr. destruct k as [|k|k]; [|clear Hk|lia].
  - by rewrite Z.mul_1_r, Z.add_0_r.
  - f_equal. rewrite iter_pos_nat. rewrite <- (positive_nat_Z k). by apply shr_exact.
Qed.

(** ** Exact rounding *)

(** A 53-bit mantissa shifted left rounds back to itself. *)
Lemma round_aux_exact sx m k e :
  2 ^ 52 <= m < 2 ^ 53 -> 0 <= k -> -1074 <= e + k <= 971 ->
  binary_round_aux f64_prec f64_emax sx (m * 2 ^ k) e loc_Exact = S754_finite sx (Z.to_pos m) (e + k).
Proof.
  intros Hm Hk He. unfold binary_round_aux, shr_fexp.
  assert (0 < m) as Hm0 by (change (2 ^ 52) with 4503599627370496 in Hm; lia).
  assert (0 < 2 ^ k) as Hp by (apply Z.pow_pos_nonneg; lia).
  rewrite (Zdigits2_log2 (m * 2 ^ k)) by nia.
  rewrite Z.log2_mul_pow2, (log2_range m 52) by lia.
  replace (fexp f64_prec f64_emax (k + 52 + 1 + e) - e) with k
    by (unfold fexp, emin, f64_prec, f64_emax; lia).
  rewrite shr_exact_Z by lia. cbn [shr_m loc_of_shr_record round_nearest_even].
  rewrite Zdigits2_log2, (log2_range m 52) by lia.
  replace (fexp f64_prec f64_emax (52 + 1 + (e + k)) - (e + k)) with 0
    by (unfold fexp, emin, f64_prec, f64_emax; lia).
  cbn [shr shr_record_of_loc shr_m]. destruct m as [|m|m]; [lia| |lia].
  rewrite (proj2 (Z.leb_le _ _)) by (unfold f64_emax, f64_prec; lia). done.
Qed.

(** The number of binary digits of a positive integer. *)
Definition bits (z : Z) : Z := Z.log2 z + 1.

Lemma bits_bound z : 0 < z < 2 ^ 53 -> 1 <= bits z <= 53 /\ 2 ^ 52 <= z * 2 ^ (53 - bits z) < 2 ^ 53.
Proof.
  intros Hz. unfold bits. pose proof (Z.log2_spec z ltac:(lia)) as [Hlo Hhi].
  pose proof (Z.log2_nonneg z). assert (Z.log2 z < 53) by (apply Z.log2_lt_pow2; lia).
  split; [lia|]. set (l := Z.log2 z) in *.
  assert (2 ^ 52 = 2 ^ l * 2 ^ (53 - (l + 1))) as -> by (rewrite <- Z.pow_add_r by lia; f_equal; lia).
  assert (2 ^ 53 = 2 ^ Z.succ l * 2 ^ (53 - (l + 1))) as -> by (rewrite <- Z.pow_add_r by lia; f_equal; lia).
  assert (0 < 2 ^ (53 - (l + 1))) by (apply Z.pow_pos_nonneg; lia). nia.
Qed.

Lemma iter_xO p d : Zpos (Pos.iter xO p d) = Zpos p * 2 ^ Zpos d.
Proof.
  induction d as [|d IH] using Pos.peano_ind; [cbn; lia|].
  rewrite Pos.iter_succ, Pos2Z.inj_xO, IH, Pos2Z.inj_succ, Z.pow_succ_r by lia. lia.
Qed.

(** Integers below 2^53 are represented exactly. *)
Lemma f64_of_u64_exact z : 0 < z < 2 ^ 53 ->
  f64_of_u64 z = S754_finite false (Z.to_pos (z * 2 ^ (53 - bits z))) (bits z - 53).
Proof.
  intros Hz. destruct (bits_bound z Hz) as [Hb Hm]. unfold f64_of_u64, binary_normalize, binary_round.
  destruct z as [|p|p]; [lia| |lia]. rewrite digits2_log2, Z.add_0_r. fold (bits (Zpos p)).
  assert (shl_align p 0 (fexp f64_prec f64_emax (bits (Zpos p))) =
    (Z.to_pos (Zpos p * 2 ^ (53 - bits (Zpos p))), bits (Zpos p) - 53)) as ->.
  { replace (fexp f64_prec f64_emax (bits (Zpos p))) with (bits (Zpos p) - 53)
      by (unfold fexp, emin, f64_prec, f64_emax; lia).
    unfold shl_align. rewrite Z.sub_0_r. destruct (bits (Zpos p) - 53) as [|d|d] eqn:Hd; [|lia|].
    - replace (53 - bits (Zpos p)) with 0 by lia. by rewrite Z.mul_1_r.
    - replace (53 - bits (Zpos p)) with (Zpos d) by lia. by rewrite <- iter_xO. }
  rewrite Z2Pos.id by (change (2 ^ 52) with 4503599627370496 in Hm; lia).
  rewrite <- (Z.mul_1_r (Zpos p * _)). change 1 with (2 ^ 0).
  rewrite round_aux_exact by (lia || done). by rewrite Z.mul_1_r, Z.add_0_r.
Qed.

(** The value 2^n as a float. *)
Definition f64_pow2 (n : Z) : f64 := S754_finite false 4503599627370496 (n - 52).

(** The product of an integer below 2^53 and a power of two of any sign is exact
    and truncates to the floor of the quotient. *)
Lemma f64_mul_pow2 z n : 0 < z < 2 ^ 53 -> -500 <= n <= 500 ->
  f64_mul (f64_of_u64 z) (f64_pow2 n) =
  S754_finite false (Z.to_pos (z * 2 ^ (53 - bits z))) (bits z - 53 + n).
Proof.
  intros Hz Hn. destruct (bits_bound z Hz) as [Hb Hm]. rewrite f64_of_u64_exact by done.
  unfold f64_mul, SFmul, f64_pow2. cbn [xorb]. change 4503599627370496%positive with (Z.to_pos (2 ^ 52)).
  assert (0 < z * 2 ^ (53 - bits z)) by (change (2 ^ 52) with 4503599627370496 in Hm; lia).
  rewrite Pos2Z.inj_mul, !Z2Pos.id by (reflexivity || lia).
  rewrite round_aux_exact by (lia || done). f_equal. lia.
Qed.

Lemma f64_to_u64_pow2 z n : 0 < z < 2 ^ 53 -> 0 <= n <= 10 ->
  f64_to_u64 (f64_mul (f64_of_u64 z) (f64_pow2 n)) = z * 2 ^ n.
Proof.
  intros Hz Hn. destruct (bits_bound z Hz) as [Hb Hm]. rewrite f64_mul_pow2 by (done || lia).
  unfold f64_to_u64. assert (0 < z * 2 ^ (53 - bits z)) by (change (2 ^ 52) with 4503599627370496 in Hm; lia).
  rewrite Z2Pos.id by done. pose proof (Z.pow_pos_nonneg 2 n ltac:(lia) ltac:(lia)).
  assert (2 ^ n <= 2 ^ 10) by (apply Z.pow_le_mono_r; lia).
  assert (z * 2 ^ n <= U64_MAX).
  { change (2 ^ 53) with 9007199254740992 in Hz. change (2 ^ 10) with 1024 in *. unfold U64_MAX. nia. }
  destruct (Z.leb_spec 0 (bits z - 53 + n)) as [Hle|Hgt].
  - rewrite Z.shiftl_mul_pow2, <- Z.mul_assoc, <- Z.pow_add_r by lia.
    replace (53 - bits z + (bits z - 53 + n)) with n by lia. lia.
  - rewrite Z.shiftr_div_pow2 by lia.
    replace (53 - bits z) with (n + - (bits z - 53 + n)) at 1 by lia.
    rewrite Z.pow_add_r, Z.mul_assoc, Z.div_mul by (try apply Z.pow_nonzero; lia). lia.
Qed.
