(* ===== verification/Rent.v ===== *)
(** * Rent

    [sdk/program/src/rent.rs] (the rent parameters, in binary64 arithmetic) and
    [runtime/src/rent_collector.rs] (the collection of rent from an account). *)
From Stdlib Require Import SpecFloat.
From stdpp Require Import base numbers option list list_numbers.
From S2P Require Import Prelude Instruction Account EpochSchedule Float64.

(** ** Rent parameters *)

Record Rent : Type := mkRent {
  lamports_per_byte_year : Z;
  exemption_threshold : f64;
  burn_percent : Z;
}.

Definition DEFAULT_LAMPORTS_PER_BYTE_YEAR : Z := 1000000000 / 100 * 365 / (1024 * 1024).
Definition DEFAULT_EXEMPTION_THRESHOLD : f64 := f64_of_u64 2.
Definition DEFAULT_BURN_PERCENT : Z := 50.
Definition ACCOUNT_STORAGE_OVERHEAD : Z := 128.

Definition Rent_default : Rent :=
  mkRent DEFAULT_LAMPORTS_PER_BYTE_YEAR DEFAULT_EXEMPTION_THRESHOLD DEFAULT_BURN_PERCENT.

Definition calculate_burn (rent : Rent) (rent_collected : Z) : Z * Z :=
  let burned_portion := mul64 rent_collected (burn_percent rent) / 100 in
  (burned_portion, sub64 rent_collected burned_portion).

Definition minimum_balance (rent : Rent) (data_len : Z) : Z :=
  f64_to_u64
    (f64_mul (f64_of_u64 (mul64 (add64 ACCOUNT_STORAGE_OVERHEAD data_len) (lamports_per_byte_year rent)))
       (exemption_threshold rent)).

Definition is_exempt (rent : Rent) (balance data_len : Z) : bool := minimum_balance rent data_len <=? balance.

Inductive RentDue : Type := Exempt | Paying (n : Z).

Definition RentDue_lamports (d : RentDue) : Z := match d with Exempt => 0 | Paying x => x end.
Definition RentDue_is_exempt (d : RentDue) : bool := match d with Exempt => true | Paying _ => false end.

Definition due (rent : Rent) (balance data_len : Z) (years_elapsed : f64) : RentDue :=
  if is_exempt rent balance data_len then Exempt
  else
    let actual_data_len := add64 data_len ACCOUNT_STORAGE_OVERHEAD in
    let lamports_per_year := mul64 (lamports_per_byte_year rent) actual_data_len in
    Paying (f64_to_u64 (f64_mul (f64_of_u64 lamports_per_year) years_elapsed)).

Definition Rent_free : Rent := mkRent 0 DEFAULT_EXEMPTION_THRESHOLD DEFAULT_BURN_PERCENT.

Definition Rent_with_slots_per_epoch (slots_per_epoch : Z) : Rent :=
  let ratio := f64_div (f64_of_u64 slots_per_epoch) (f64_of_u64 DEFAULT_SLOTS_PER_EPOCH) in
  let exemption_threshold := f64_mul DEFAULT_EXEMPTION_THRESHOLD ratio in
  let lamports_per_byte_year :=
    f64_to_u64 (f64_div (f64_of_u64 DEFAULT_LAMPORTS_PER_BYTE_YEAR) ratio) in
  mkRent lamports_per_byte_year exemption_threshold DEFAULT_BURN_PERCENT.

(** ** Rent collection *)

Record RentCollector : Type := mkRentCollector {
  rc_epoch : Epoch;
  rc_epoch_schedule : EpochSchedule;
  rc_slots_per_year : f64;
  rc_rent : Rent;
}.

Definition clone_with_epoch (rc : RentCollector) (epoch : Epoch) : RentCollector :=
  mkRentCollector epoch (rc_epoch_schedule rc) (rc_slots_per_year rc) (rc_rent rc).

Definition should_collect_rent (rc : RentCollector) (address : Pubkey) (account : AccountSharedData)
    (rent_for_sysvars : bool) : bool :=
  negb (executable account || (negb rent_for_sysvars && (owner account =? sysvar_id))
        || (address =? incinerator_id)).

(** The bytes of a key from position 12 on are its low 160 bits. *)
Definition is_filler_account_helper (pubkey : Pubkey) (filler_account_suffix : option Pubkey) : bool :=
  match filler_account_suffix with
  | Some suffix => pubkey mod 2 ^ 160 =? suffix mod 2 ^ 160
  | None => false
  end.

Definition slots_elapsed (rc : RentCollector) (from : Epoch) : Z :=
  foldl (fun acc epoch => add64 acc (get_slots_in_epoch (rc_epoch_schedule rc) (add64 epoch 1))) 0
    (seqZ from (rc_epoch rc - from + 1)).

Definition get_rent_due (rc : RentCollector) (account : AccountSharedData) : RentDue :=
  let years_elapsed :=
    if negb (f64_eq (rc_slots_per_year rc) (S754_zero false))
    then f64_div (f64_of_u64 (slots_elapsed rc (rent_epoch account))) (rc_slots_per_year rc)
    else S754_zero false in
  due (rc_rent rc) (lamports account) (Z.of_nat (length (data account))) years_elapsed.

Definition can_skip_rent_collection (rc : RentCollector) (address : Pubkey) (account : AccountSharedData)
    (rent_for_sysvars : bool) (filler_account_suffix : option Pubkey) : bool :=
  negb (should_collect_rent rc address account rent_for_sysvars)
  || (rc_epoch rc <? rent_epoch account)
  || is_filler_account_helper address filler_account_suffix.

Record CollectedInfo : Type := mkCollectedInfo {
  rent_amount : Z;
  account_data_len_reclaimed : Z;
}.

Definition CollectedInfo_default : CollectedInfo := mkCollectedInfo 0 0.

Definition CollectedInfo_add (a b : CollectedInfo) : CollectedInfo :=
  mkCollectedInfo (add64 (rent_amount a) (rent_amount b))
    (add64 (account_data_len_reclaimed a) (account_data_len_reclaimed b)).

(** The collection of a rent that is not zero. *)
Definition collect_due (rc : RentCollector) (rent_due : RentDue) (account : AccountSharedData)
  : CollectedInfo * AccountSharedData :=
  let epoch_increment := match rent_due with Exempt => 0 | Paying _ => 1 end in
  let account := set_rent_epoch (add64 (rc_epoch rc) epoch_increment) account in
  let begin_lamports := lamports account in
  let account := saturating_sub_lamports (RentDue_lamports rent_due) account in
  let end_lamports := lamports account in
  let '(reclaimed, account) :=
    if end_lamports =? 0
    then (Z.of_nat (length (data account)), AccountSharedData_default)
    else (0, account) in
  (mkCollectedInfo (sub64 begin_lamports end_lamports) reclaimed, account).

Definition collect_from_existing_account (rc : RentCollector) (address : Pubkey)
    (rent_for_sysvars : bool) (filler_account_suffix : option Pubkey) (account : AccountSharedData)
  : CollectedInfo * AccountSharedData :=
  if can_skip_rent_collection rc address account rent_for_sysvars filler_account_suffix
  then (CollectedInfo_default, account)
  else
    match get_rent_due rc account with
    | Paying 0 => (CollectedInfo_default, account)
    | rent_due => collect_due rc rent_due account
    end.

Definition collect_from_created_account (rc : RentCollector) (address : Pubkey)
    (rent_for_sysvars : bool) (account : AccountSharedData) : CollectedInfo * AccountSharedData :=
  collect_from_existing_account rc address rent_for_sysvars None
    (set_rent_epoch (rc_epoch rc) account).

(** ** Properties of the parameters *)

Lemma two_is_pow2 : DEFAULT_EXEMPTION_THRESHOLD = f64_pow2 1.
Proof. reflexivity. Qed.

Lemma f64_to_u64_range x : in_u64 (f64_to_u64 x).
Proof.
  unfold f64_to_u64. destruct x as [s|s| |s m e]; try destruct s; try u64.
  split; [|unfold U64_MAX; lia]. apply Z.min_glb; [u64|].
  zcases; [apply Z.shiftl_nonneg|apply Z.shiftr_nonneg]; lia.
Qed.

(** The exemption threshold computed in binary64 is the exact integer product
    for every threshold that is a power of two up to 2^10 years, as the default
    of 2 years is, while the yearly rent is below 2^53 lamports; no rounding and
    no saturation takes place. In particular the default minimum balance of an
    account of at most 10 MiB is [6960 * (128 + len)]. *)
Theorem minimum_balance_exact rent n len :
  exemption_threshold rent = f64_pow2 n -> 0 <= n <= 10 ->
  in_u64 (128 + len) -> 0 < (128 + len) * lamports_per_byte_year rent < 2 ^ 53 ->
  minimum_balance rent len = (128 + len) * lamports_per_byte_year rent * 2 ^ n.
Proof.
  intros He Hn Hl Hp. unfold minimum_balance, ACCOUNT_STORAGE_OVERHEAD.
  rewrite add64_small, mul64_small, He by (done || (change (2 ^ 53) with 9007199254740992 in Hp; u64)).
  by apply f64_to_u64_pow2.
Qed.

Lemma minimum_balance_exact_witness :
  minimum_balance Rent_default 165 = 6960 * (128 + 165) /\
  minimum_balance Rent_default 10485760 = 6960 * (128 + 10485760).
Proof.
  split; rewrite (minimum_balance_exact _ 1); try reflexivity; try (split; vm_compute; done).
Defined.

(** The burned portion and the rest add up to the collected rent. *)
Lemma calculate_burn_conserves rent n : in_u8 (burn_percent rent) -> burn_percent rent <= 100 ->
  0 <= n -> n * 100 <= U64_MAX ->
  let '(burned, rest) := calculate_burn rent n in
  burned + rest = n /\ 0 <= burned /\ 0 <= rest.
Proof.
  intros Hb Hp Hn Hm. unfold calculate_burn. rewrite mul64_small by (unfold in_u64, in_u8 in *; nia).
  pose proof (Z.mul_div_le (n * burn_percent rent) 100 ltac:(lia)).
  assert (0 <= n * burn_percent rent / 100) by (apply Z.div_pos; unfold in_u8 in *; nia).
  assert (n * burn_percent rent / 100 <= n) by (unfold in_u8 in *; nia).
  rewrite sub64_small by (unfold in_u64, U64_MAX in *; lia). lia.
Qed.

(** ** Properties of the collection *)

Lemma due_lamports_nonneg rent b l y : 0 <= RentDue_lamports (due rent b l y).
Proof.
  unfold due. destruct (is_exempt rent b l); [done|]. cbn.
  pose proof (f64_to_u64_range (f64_mul (f64_of_u64 (mul64 (lamports_per_byte_year rent)
    (add64 l ACCOUNT_STORAGE_OVERHEAD))) y)). u64.
Qed.

Lemma collect_existing_due rc address sysvars filler a :
  can_skip_rent_collection rc address a sysvars filler = false -> get_rent_due rc a ≠ Paying 0 ->
  collect_from_existing_account rc address sysvars filler a = collect_due rc (get_rent_due rc a) a.
Proof.
  intros Hs Hd. unfold collect_from_existing_account. rewrite Hs.
  by destruct (get_rent_due rc a) as [|[| |]].
Qed.

Lemma collect_existing_none rc address sysvars filler a :
  can_skip_rent_collection rc address a sysvars filler = true \/ get_rent_due rc a = Paying 0 ->
  collect_from_existing_account rc address sysvars filler a = (CollectedInfo_default, a).
Proof.
  intros H. unfold collect_from_existing_account.
  destruct (can_skip_rent_collection rc address a sysvars filler); [done|].
  destruct H as [H|H]; [done|]. by rewrite H.
Qed.

(** The possible results of a collection, by the rent due. *)
Lemma collect_cases rc address sysvars filler a : in_u64 (lamports a) ->
  let d := get_rent_due rc a in
  let '(info, a') := collect_from_existing_account rc address sysvars filler a in
  (info = CollectedInfo_default /\ a' = a /\
     (can_skip_rent_collection rc address a sysvars filler = true \/ d = Paying 0)) \/
  (can_skip_rent_collection rc address a sysvars filler = false /\ d ≠ Paying 0 /\
   lamports a <= RentDue_lamports d + 0 /\ a' = AccountSharedData_default /\
   info = mkCollectedInfo (lamports a) (Z.of_nat (length (data a)))) \/
  (can_skip_rent_collection rc address a sysvars filler = false /\ d ≠ Paying 0 /\
   0 <= RentDue_lamports d < lamports a /\ info = mkCollectedInfo (RentDue_lamports d) 0 /\
   a' = set_lamports (lamports a - RentDue_lamports d)
          (set_rent_epoch (add64 (rc_epoch rc) (match d with Exempt => 0 | Paying _ => 1 end)) a)).
Proof.
  intros Hl d.
  destruct (can_skip_rent_collection rc address a sysvars filler) eqn:Hskip.
  { rewrite collect_existing_none by auto. left; auto. }
  assert (d = Paying 0 \/ d ≠ Paying 0) as [Hz|Hnz].
  { destruct d as [|[| |]]; auto; right; congruence. }
  { rewrite collect_existing_none by auto. left; auto. }
  rewrite collect_existing_due by done. fold d.
  pose proof (due_lamports_nonneg (rc_rent rc) (lamports a) (Z.of_nat (length (data a)))) as Hd.
  assert (0 <= RentDue_lamports d) as Hnn by (unfold d, get_rent_due; apply Hd). clear Hd.
  clearbody d. unfold collect_due.
  unfold saturating_sub_lamports. cbn [lamports set_rent_epoch set_lamports data].
  destruct (Z.eqb_spec (saturating_sub64 (lamports a) (RentDue_lamports d)) 0) as [He|He].
  - right. left. rewrite He, sub64_small by (rewrite Z.sub_0_r; done). rewrite Z.sub_0_r. split_and!; auto. u64.
  - right. right. assert (saturating_sub64 (lamports a) (RentDue_lamports d) = lamports a - RentDue_lamports d)
      as Heq by u64. rewrite Heq in *.
    rewrite sub64_small by u64. split_and!; auto; [u64|]. f_equal. lia.
Qed.

(** Rent collection moves lamports and creates none: what the account loses is
    what is reported, the balance never grows; owner and data change only when
    the account is emptied, which reclaims all of its data; and an account that
    is exempt, or that collection skips, pays nothing. *)
Theorem collect_rent_conserves rc address sysvars filler a : in_u64 (lamports a) ->
  let '(info, a') := collect_from_existing_account rc address sysvars filler a in
  lamports a' + rent_amount info = lamports a /\ 0 <= rent_amount info /\ 0 <= lamports a' /\
  (lamports a' = 0 /\ lamports a ≠ 0 ->
     a' = AccountSharedData_default /\ account_data_len_reclaimed info = Z.of_nat (length (data a))) /\
  (lamports a' ≠ 0 -> data a' = data a /\ owner a' = owner a /\ account_data_len_reclaimed info = 0) /\
  (get_rent_due rc a = Exempt \/ can_skip_rent_collection rc address a sysvars filler = true ->
     rent_amount info = 0).
Proof.
  intros Hl. pose proof (collect_cases rc address sysvars filler a Hl) as H. cbv zeta in H.
  destruct (collect_from_existing_account rc address sysvars filler a) as [info a'].
  destruct H as [(-> & -> & _)|[(Hs & Hd & Hle & -> & ->)|(Hs & Hd & Hr & -> & ->)]]; cbn.
  - split_and!; try done; try u64.
  - split_and!; try done; try u64. intros [He|He]; [|congruence]. rewrite He in Hle. cbn in Hle. u64.
  - split_and!; try done; try u64. intros [He|He]; [|congruence]. by rewrite He.
Qed.

Lemma collect_rent_conserves_witness :
  let es := mkEpochSchedule 432000 432000 false 0 0 in
  let rc := mkRentCollector 3 es (f64_of_u64 78892314) Rent_default in
  let a := mkAccount 500000 [] 5 false 1 in
  let '(info, a') := collect_from_existing_account rc 7 true None a in
  lamports a' + rent_amount info = 500000 /\ 0 < rent_amount info.
Proof.
  pose proof (collect_rent_conserves
    (mkRentCollector 3 (mkEpochSchedule 432000 432000 false 0 0) (f64_of_u64 78892314) Rent_default)
    7 true None (mkAccount 500000 [] 5 false 1)) as H.
  cbv zeta. destruct (collect_from_existing_account _ 7 true None _) as [info a'] eqn:E.
  split; [apply H; cbn; u64|]. vm_compute in E. injection E as <- <-. vm_compute. done.
Defined.

(** Collecting twice in one epoch takes nothing the second time. *)
Theorem collect_rent_once_per_epoch rc address sysvars filler a :
  in_u64 (lamports a) -> in_u64 (rc_epoch rc + 1) -> 0 <= rc_epoch rc ->
  let a1 := snd (collect_from_existing_account rc address sysvars filler a) in
  let '(info, a2) := collect_from_existing_account rc address sysvars filler a1 in
  rent_amount info = 0 /\ lamports a2 = lamports a1.
Proof.
  intros Hl He He0. cbv zeta. pose proof (collect_cases rc address sysvars filler a Hl) as H. cbv zeta in H.
  destruct (collect_from_existing_account rc address sysvars filler a) as [info1 a1]. cbn [snd].
  assert (in_u64 (lamports a1)) as Hl1.
  { destruct H as [(_ & -> & _)|[(_ & _ & _ & -> & _)|(_ & _ & Hr & _ & ->)]]; cbn; u64. }
  pose proof (collect_cases rc address sysvars filler a1 Hl1) as H1. cbv zeta in H1.
  destruct (collect_from_existing_account rc address sysvars filler a1) as [info2 a2].
  destruct H1 as [(-> & -> & _)|[(Hs1 & Hd1 & Hle1 & -> & ->)|(Hs1 & Hd1 & Hr1 & -> & ->)]]; [done| |]; cbn.
  - destruct H as [(_ & -> & [Hsk|Hz])|[(_ & _ & _ & -> & _)|(Hs & Hd & Hr & _ & ->)]];
      [congruence|congruence|done|].
    exfalso. destruct (get_rent_due rc a) as [|x] eqn:E; cbn in *.
    + unfold get_rent_due, due in E, Hle1. cbn in Hle1. destruct (is_exempt _ _ _) eqn:Ex; [|done].
      rewrite Z.sub_0_r, Ex in Hle1. cbn in Hle1. lia.
    + unfold can_skip_rent_collection in Hs1. cbn in Hs1.
      rewrite add64_small in Hs1 by done. apply orb_false_iff in Hs1 as [[_ Hs1]%orb_false_iff _]. lia.
  - destruct H as [(_ & -> & [Hsk|Hz])|[(_ & _ & _ & -> & _)|(Hs & Hd & Hr & _ & ->)]];
      [congruence|congruence|cbn in *; lia|].
    destruct (get_rent_due rc a) as [|x] eqn:E; cbn in *.
    + unfold get_rent_due, due in E |- *. cbn. destruct (is_exempt _ _ _) eqn:Ex; [|done].
      rewrite Z.sub_0_r, Ex. cbn. lia.
    + unfold can_skip_rent_collection in Hs1. cbn in Hs1.
      rewrite add64_small in Hs1 by done. apply orb_false_iff in Hs1 as [[_ Hs1]%orb_false_iff _]. lia.
Qed.

Lemma collect_rent_once_per_epoch_witness :
  let es := mkEpochSchedule 432000 432000 false 0 0 in
  let rc := mkRentCollector 3 es (f64_of_u64 78892314) Rent_default in
  let a := mkAccount 500000 [] 5 false 1 in
  let a1 := snd (collect_from_existing_account rc 7 true None a) in
  lamports a1 < lamports a /\ rent_amount (fst (collect_from_existing_account rc 7 true None a1)) = 0.
Proof.
  pose proof (collect_rent_once_per_epoch
    (mkRentCollector 3 (mkEpochSchedule 432000 432000 false 0 0) (f64_of_u64 78892314) Rent_default)
    7 true None (mkAccount 500000 [] 5 false 1)) as H.
  cbv zeta in *. split; [vm_compute; done|].
  destruct (collect_from_existing_account _ 7 true None (snd _)) as [info a2]. cbn [fst].
  apply H; cbn; u64.
Defined.
