(* ===== verification/Sysvar.v ===== *)
(** * Sysvars

    [sdk/program/src/clock.rs], [slot_hashes.rs], [slot_history.rs] and the
    cache of [program-runtime/src/sysvar_cache.rs]: the cluster state that
    programs read. *)
From stdpp Require Import base numbers option list sorting gmap.
From S2P Require Import Prelude Instruction Account EpochSchedule Rent.

(** ** Clock *)

Record Clock : Type := mkClock {
  clock_slot : Slot;
  epoch_start_timestamp : UnixTimestamp;
  clock_epoch : Epoch;
  leader_schedule_epoch : Epoch;
  unix_timestamp : UnixTimestamp;
}.

Definition Clock_default : Clock := mkClock 0 0 0 0 0.

#[global] Instance Clock_eq_dec : EqDecision Clock.
Proof. solve_decision. Defined.

(** ** Binary search *)

(** [slice::binary_search_by] of the standard library: halves the range
    [left, right); [inl] is the index found and [inr] the insertion point. Each
    turn shrinks the range, so its length is enough fuel. *)
Fixpoint binary_search_loop {A} (f : A -> comparison) (l : list A) (fuel left right : nat) : nat + nat :=
  match fuel with
  | O => inr left
  | S fuel =>
      if decide (left < right)%nat then
        let mid := (left + (right - left) / 2)%nat in
        match l !! mid with
        | None => inr left
        | Some x =>
            match f x with
            | Lt => binary_search_loop f l fuel (mid + 1) right
            | Gt => binary_search_loop f l fuel left mid
            | Eq => inl mid
            end
        end
      else inr left
  end.

Definition binary_search_by {A} (f : A -> comparison) (l : list A) : nat + nat :=
  binary_search_loop f l (length l) 0 (length l).

(** [Vec::insert] *)
Definition vec_insert {A} (i : nat) (x : A) (l : list A) : list A := take i l ++ x :: drop i l.

(** ** Slot hashes *)

Definition SLOT_HASHES_MAX_ENTRIES : nat := 512.

Abbreviation SlotHashes := (list (Slot * Hash)).

Definition search_slot (slot : Slot) (sh : SlotHashes) : nat + nat :=
  binary_search_by (fun p => slot ?= p.1) sh.

Definition SlotHashes_add (slot : Slot) (hash : Hash) (sh : SlotHashes) : SlotHashes :=
  let sh :=
    match search_slot slot sh with
    | inl index => <[index := (slot, hash)]> sh
    | inr index => vec_insert index (slot, hash) sh
    end in
  take SLOT_HASHES_MAX_ENTRIES sh.

Definition SlotHashes_position (slot : Slot) (sh : SlotHashes) : option nat :=
  match search_slot slot sh with inl index => Some index | inr _ => None end.

Definition SlotHashes_get (slot : Slot) (sh : SlotHashes) : option Hash :=
  match search_slot slot sh with inl index => snd <$> sh !! index | inr _ => None end.

(** ** The sysvar cache *)

Record SysvarCache : Type := mkSysvarCache {
  sc_clock : option Clock;
  sc_epoch_schedule : option EpochSchedule;
  sc_rent : option Rent;
  sc_slot_hashes : option SlotHashes;
}.

Definition get_clock (c : SysvarCache) : outcome InstructionError Clock := ok_or UnsupportedSysvar (sc_clock c).
Definition get_epoch_schedule (c : SysvarCache) : outcome InstructionError EpochSchedule :=
  ok_or UnsupportedSysvar (sc_epoch_schedule c).
Definition get_rent (c : SysvarCache) : outcome InstructionError Rent := ok_or UnsupportedSysvar (sc_rent c).
Definition get_slot_hashes (c : SysvarCache) : outcome InstructionError SlotHashes :=
  ok_or UnsupportedSysvar (sc_slot_hashes c).

(** What a builtin program reads of its [InvokeContext]. *)
Record ProgramContext : Type := mkProgramContext {
  pc_keyed_accounts : list KeyedAccount;
  pc_sysvar_cache : SysvarCache;
  pc_feature_set : FeatureSet;
  pc_blockhash : Hash;
  pc_lamports_per_signature : Z;
}.

(** [get_sysvar_with_keyed_account_check] *)
Definition checked_clock (ctx : ProgramContext) (k : KeyedAccount) : AM Clock :=
  _ ← check_sysvar_keyed_account clock_id k; lift (get_clock (pc_sysvar_cache ctx)).
Definition checked_rent (ctx : ProgramContext) (k : KeyedAccount) : AM Rent :=
  _ ← check_sysvar_keyed_account rent_id k; lift (get_rent (pc_sysvar_cache ctx)).
Definition checked_slot_hashes (ctx : ProgramContext) (k : KeyedAccount) : AM SlotHashes :=
  _ ← check_sysvar_keyed_account slot_hashes_id k; lift (get_slot_hashes (pc_sysvar_cache ctx)).

(** ** Correctness of the binary search *)

Section binary_search.
Context {A : Type} (f : A -> comparison) (l : list A).

(** [f] is [Lt] up to a point, [Eq] at most once, and [Gt] from there on. *)
Definition search_ordered : Prop :=
  forall i j x y, (i < j)%nat -> l !! i = Some x -> l !! j = Some y -> f x = Lt \/ f y = Gt.

Context (Hord : search_ordered).

Lemma binary_search_loop_spec fuel left right :
  (left <= right <= length l)%nat -> (right - left <= fuel)%nat ->
  (forall i x, (i < left)%nat -> l !! i = Some x -> f x = Lt) ->
  (forall i x, (right <= i)%nat -> l !! i = Some x -> f x = Gt) ->
  match binary_search_loop f l fuel left right with
  | inl i => exists x, l !! i = Some x /\ f x = Eq
  | inr i => (i <= length l)%nat /\
      (forall j x, (j < i)%nat -> l !! j = Some x -> f x = Lt) /\
      (forall j x, (i <= j)%nat -> l !! j = Some x -> f x = Gt)
  end.
Proof.
  revert left right. induction fuel as [|fuel IH]; intros left right Hb Hf Hlo Hhi; cbn [binary_search_loop].
  { assert (left = right) as -> by lia. split; [lia|done]. }
  destruct (decide (left < right)%nat) as [Hlt|Hge].
  2:{ assert (left = right) as -> by lia. split; [lia|done]. }
  set (mid := (left + (right - left) / 2)%nat).
  assert (left <= mid < right)%nat as Hmid.
  { pose proof (Nat.div_lt (right - left) 2). subst mid. lia. }
  destruct (lookup_lt_is_Some_2 l mid) as [x Hx]; [lia|]. rewrite Hx.
  destruct (f x) eqn:Hfx; [by exists x| |]; apply IH; try lia.
  - intros i y Hi Hy. destruct (decide (i = mid)) as [->|Hne]; [by simplify_eq|].
    destruct (decide (i < mid)%nat) as [Him|Him]; [|lia].
    destruct (Hord i mid y x Him Hy Hx) as [?|?]; congruence.
  - done.
  - done.
  - intros i y Hi Hy. destruct (decide (i = mid)) as [->|Hne]; [by simplify_eq|].
    destruct (Hord mid i x y ltac:(lia) Hx Hy) as [?|?]; congruence.
Qed.

Lemma binary_search_by_spec :
  match binary_search_by f l with
  | inl i => exists x, l !! i = Some x /\ f x = Eq
  | inr i => (i <= length l)%nat /\
      (forall j x, (j < i)%nat -> l !! j = Some x -> f x = Lt) /\
      (forall j x, (i <= j)%nat -> l !! j = Some x -> f x = Gt)
  end.
Proof.
  apply binary_search_loop_spec; [lia|lia| |].
  - intros i x Hi. lia.
  - intros i x Hi Hx. apply lookup_lt_Some in Hx. lia.
Qed.
End binary_search.

(** ** Correctness of the slot hashes *)

(** The invariant: slots decrease strictly and there are at most 512. *)
Definition slot_hashes_wf (sh : SlotHashes) : Prop :=
  StronglySorted (fun a b => b.1 < a.1) sh /\ (length sh <= SLOT_HASHES_MAX_ENTRIES)%nat.

Lemma search_slot_ordered slot (sh : SlotHashes) :
  StronglySorted (fun a b => b.1 < a.1) sh -> search_ordered (fun p => slot ?= p.1) sh.
Proof.
  intros Hs i j x y Hij Hx Hy. pose proof (StronglySorted_lookup _ _ i j x y Hs Hij Hx Hy) as Hlt. cbn in Hlt.
  rewrite Z.compare_lt_iff, Z.compare_gt_iff. lia.
Qed.

Lemma StronglySorted_insert_lookup {A} (R : A -> A -> Prop) l i x y :
  StronglySorted R l -> l !! i = Some x -> (forall z, R x z <-> R y z) -> (forall z, R z x <-> R z y) ->
  StronglySorted R (<[i := y]> l).
Proof.
  intros Hs. revert i. induction Hs as [|z l Hs IH Hf]; intros i Hi H1 H2; [done|].
  destruct i as [|i]; cbn in Hi |- *.
  - injection Hi as ->. constructor; [done|]. eapply Forall_impl; [exact Hf|]. intros. by apply H1.
  - constructor; [by apply IH|]. apply Forall_insert; [done|]. apply H2.
    rewrite Forall_forall in Hf. by eapply Hf, list_elem_of_lookup_2.
Qed.

Lemma StronglySorted_vec_insert {A} (R : A -> A -> Prop) l i x :
  StronglySorted R l -> (forall j z, (j < i)%nat -> l !! j = Some z -> R z x) ->
  (forall j z, (i <= j)%nat -> l !! j = Some z -> R x z) -> StronglySorted R (vec_insert i x l).
Proof.
  unfold vec_insert. revert i. induction l as [|z l IH]; intros i Hs Hlo Hhi.
  - rewrite take_nil, drop_nil. repeat constructor.
  - pose proof Hs as [Hs' Hf]%StronglySorted_inv. destruct i as [|i]; cbn.
    + constructor; [done|]. apply Forall_forall. intros y [j Hj]%list_elem_of_lookup.
      apply (Hhi j y); [lia|done].
    + constructor.
      * apply IH; [done| |]; intros j y Hj Hy; [apply (Hlo (S j))|apply (Hhi (S j))]; auto with lia.
      * apply Forall_app. split; [by apply Forall_take|]. constructor; [apply (Hlo 0%nat); [lia|done]|].
        by apply Forall_drop.
Qed.

Lemma StronglySorted_take {A} (R : A -> A -> Prop) n (l : list A) :
  StronglySorted R l -> StronglySorted R (take n l).
Proof.
  intros Hs. revert n. induction Hs as [|x l Hs IH Hf]; intros [|n]; cbn; try constructor; auto.
  by apply Forall_take.
Qed.

Lemma search_slot_get slot (sh : SlotHashes) : StronglySorted (fun a b => b.1 < a.1) sh ->
  forall h, SlotHashes_get slot sh = Some h <-> (slot, h) ∈ sh.
Proof.
  intros Hs h. pose proof (binary_search_by_spec _ _ (search_slot_ordered slot sh Hs)) as Hspec.
  unfold SlotHashes_get, search_slot. destruct (binary_search_by _ sh) as [i|i].
  - destruct Hspec as ([s h'] & Hi & He). apply Z.compare_eq_iff in He. cbn in He. subst s.
    rewrite Hi. cbn. split.
    + intros [= ->]. by eapply list_elem_of_lookup_2.
    + intros [j Hj]%list_elem_of_lookup. f_equal.
      destruct (Nat.lt_trichotomy i j) as [Hlt|[->|Hlt]].
      * pose proof (StronglySorted_lookup _ _ i j _ _ Hs Hlt Hi Hj). cbn in *. lia.
      * congruence.
      * pose proof (StronglySorted_lookup _ _ j i _ _ Hs Hlt Hj Hi). cbn in *. lia.
  - destruct Hspec as (_ & Hlo & Hhi). split; [done|]. intros [j Hj]%list_elem_of_lookup.
    destruct (Nat.lt_ge_cases j i) as [Hji|Hji];
      [specialize (Hlo j _ Hji Hj)|specialize (Hhi j _ Hji Hj)]; cbn in *; rewrite Z.compare_refl in *; done.
Qed.

Lemma SlotHashes_add_sorted slot hash sh : StronglySorted (fun a b => b.1 < a.1) sh ->
  StronglySorted (fun a b => b.1 < a.1) (SlotHashes_add slot hash sh).
Proof.
  intros Hs. pose proof (binary_search_by_spec _ _ (search_slot_ordered slot sh Hs)) as Hspec.
  unfold SlotHashes_add. apply StronglySorted_take. unfold search_slot.
  destruct (binary_search_by _ sh) as [i|i].
  - destruct Hspec as ([s h'] & Hi & He). apply Z.compare_eq_iff in He. cbn in He. subst s.
    by eapply StronglySorted_insert_lookup.
  - destruct Hspec as (_ & Hlo & Hhi). apply StronglySorted_vec_insert; [done| |].
    + intros j z Hj Hz. specialize (Hlo j z Hj Hz). by apply Z.compare_lt_iff in Hlo.
    + intros j z Hj Hz. specialize (Hhi j z Hj Hz). by apply Z.compare_gt_iff in Hhi.
Qed.

(** The list before it is truncated. *)
Definition added (slot : Slot) (hash : Hash) (sh : SlotHashes) : SlotHashes :=
  match search_slot slot sh with
  | inl index => <[index := (slot, hash)]> sh
  | inr index => vec_insert index (slot, hash) sh
  end.

Lemma elem_of_vec_insert {A} i (x y : A) l : y ∈ vec_insert i x l <-> y = x \/ y ∈ l.
Proof.
  unfold vec_insert. rewrite <- (take_drop i l) at 3. rewrite !elem_of_app, elem_of_cons. tauto.
Qed.

Lemma added_spec slot hash sh : StronglySorted (fun a b => b.1 < a.1) sh ->
  StronglySorted (fun a b => b.1 < a.1) (added slot hash sh) /\
  (length sh <= length (added slot hash sh) <= S (length sh))%nat /\
  ((exists h, (slot, h) ∈ sh) -> length (added slot hash sh) = length sh) /\
  forall s h, (s, h) ∈ added slot hash sh <-> (s = slot /\ h = hash) \/ (s ≠ slot /\ (s, h) ∈ sh).
Proof.
  intros Hs. pose proof (binary_search_by_spec _ _ (search_slot_ordered slot sh Hs)) as Hspec.
  unfold added, search_slot. destruct (binary_search_by _ sh) as [i|i].
  - destruct Hspec as ([s0 h0] & Hi & He). apply Z.compare_eq_iff in He. cbn in He. subst s0.
    assert (forall j s h, sh !! j = Some (s, h) -> s = slot <-> j = i) as Huniq.
    { intros j s h Hj. split; [intros ->|intros ->; congruence].
      destruct (Nat.lt_trichotomy i j) as [Hlt|[->|Hlt]]; [|done|].
      - pose proof (StronglySorted_lookup _ _ i j _ _ Hs Hlt Hi Hj). cbn in *. lia.
      - pose proof (StronglySorted_lookup _ _ j i _ _ Hs Hlt Hj Hi). cbn in *. lia. }
    split; [by eapply StronglySorted_insert_lookup|]. rewrite length_insert. split; [lia|]. split; [done|].
    intros s h. rewrite !list_elem_of_lookup. pose proof (lookup_lt_Some _ _ _ Hi) as Hlt. split.
    + intros [j Hj]. destruct (decide (j = i)) as [->|Hne].
      * rewrite list_lookup_insert_eq in Hj by done. left. by simplify_eq.
      * rewrite list_lookup_insert_ne in Hj by done. right. split; [|eauto]. by rewrite Huniq.
    + intros [[-> ->]|[Hne [j Hj]]]; [exists i; by rewrite list_lookup_insert_eq|].
      exists j. rewrite list_lookup_insert_ne; [done|]. intros <-. congruence.
  - destruct Hspec as (Hle & Hlo & Hhi).
    assert (forall h, (slot, h) ∉ sh) as Hnew.
    { intros h [j Hj]%list_elem_of_lookup.
      destruct (Nat.lt_ge_cases j i) as [Hji|Hji];
        [specialize (Hlo j _ Hji Hj)|specialize (Hhi j _ Hji Hj)]; cbn in *; rewrite Z.compare_refl in *; done. }
    split_and!.
    + apply StronglySorted_vec_insert; [done| |].
      * intros j z Hj Hz. specialize (Hlo j z Hj Hz). by apply Z.compare_lt_iff in Hlo.
      * intros j z Hj Hz. specialize (Hhi j z Hj Hz). by apply Z.compare_gt_iff in Hhi.
    + unfold vec_insert. rewrite length_app, length_take. cbn. rewrite length_drop. lia.
    + unfold vec_insert. rewrite length_app, length_take. cbn. rewrite length_drop. lia.
    + intros [h Hh]. by destruct (Hnew h).
    + intros s h. rewrite elem_of_vec_insert. split.
      * intros [[= -> ->]|Hin]; [by left|]. right. split; [|done]. intros ->. by destruct (Hnew h).
      * intros [[-> ->]|[_ Hin]]; auto.
Qed.

(** What truncation keeps of a list longer by at most one. *)
Lemma truncated_cases {A} n (l : list A) : (length l <= S n)%nat ->
  take n l = l \/ exists z, l = take n l ++ [z] /\ length (take n l) = n.
Proof.
  intros Hl. destruct (decide (length l <= n)%nat) as [Hle|Hgt]; [left; by apply take_ge|right].
  destruct (last_app_singleton_cases l) as [->|(l' & z & ->)]; [cbn in *; lia|].
  rewrite length_app in *. cbn in *. exists z.
  assert (length l' = n) as <- by lia. by rewrite take_app_length.
Qed.

(** Adding a slot hash keeps the slots strictly decreasing and at most 512. The
    added hash is the one found for its slot, unless the list was full of newer
    slots; every other slot keeps its hash, unless the list was full and it was
    the oldest, which is then dropped. *)
Theorem slot_hashes_add_correct slot hash sh : slot_hashes_wf sh ->
  let sh' := SlotHashes_add slot hash sh in
  slot_hashes_wf sh' /\
  ((length sh < SLOT_HASHES_MAX_ENTRIES)%nat \/ (exists x, x ∈ sh /\ x.1 <= slot) ->
     SlotHashes_get slot sh' = Some hash) /\
  (forall s, s ≠ slot ->
     SlotHashes_get s sh' = SlotHashes_get s sh \/
     (length sh = SLOT_HASHES_MAX_ENTRIES /\ forall x, x ∈ sh -> s <= x.1)).
Proof.
  intros [Hs Hl]. cbv zeta. pose proof (SlotHashes_add_sorted slot hash sh Hs) as Hs'.
  destruct (added_spec slot hash sh Hs) as (Ha & Hlen & Hsame & Hin).
  change (SlotHashes_add slot hash sh) with (take SLOT_HASHES_MAX_ENTRIES (added slot hash sh)) in *.
  split; [split; [done|rewrite length_take; lia]|].
  destruct (truncated_cases SLOT_HASHES_MAX_ENTRIES (added slot hash sh)) as [Heq|(z & Heq & Hlz)]; [lia| |].
  - rewrite Heq in *. split; [intros _; apply search_slot_get; [done|]; apply Hin; auto|].
    intros s Hne. left. apply option_eq. intros h. rewrite !search_slot_get by done. rewrite Hin. naive_solver.
  - assert (forall x, x ∈ added slot hash sh -> x = z \/ z.1 < x.1) as Hz.
    { intros x Hx. rewrite Heq in Hx, Ha. apply elem_of_app in Hx as [Hx|Hx]; [|set_solver].
      right. apply list_elem_of_lookup in Hx as [j Hj].
      apply (StronglySorted_lookup _ _ j (length (take SLOT_HASHES_MAX_ENTRIES (added slot hash sh))) _ _ Ha).
      - by eapply lookup_lt_Some.
      - by apply lookup_app_l_Some.
      - by apply list_lookup_middle. }
    assert (length (added slot hash sh) = S SLOT_HASHES_MAX_ENTRIES) as Hfull
      by (rewrite Heq, length_app, Hlz; apply Nat.add_1_r).
    assert (length sh = SLOT_HASHES_MAX_ENTRIES) as Hsl by lia. split.
    + intros Hroom. apply search_slot_get; [done|].
      assert ((slot, hash) ∈ added slot hash sh) as Hx by (apply Hin; auto).
      rewrite Heq in Hx. apply elem_of_app in Hx as [Hx|Hx]; [done|]. apply list_elem_of_singleton in Hx.
      destruct Hroom as [Hroom|([s h] & Hx' & Hle)]; [lia|]. cbn in Hle.
      destruct (decide (s = slot)) as [->|Hne]; [rewrite Hsame in Hfull by eauto; lia|].
      destruct (Hz (s, h)) as [E|E]; [apply Hin; auto|congruence|]. rewrite <- Hx in E. cbn in E. lia.
    + intros s Hne. destruct (decide (z.1 = s)) as [Hzs|Hzs].
      * right. split; [done|]. intros [s' h'] Hx. destruct (decide (s' = slot)) as [->|Hne'].
        -- destruct (Hz (slot, hash)) as [E|E]; [apply Hin; auto|subst z; done|]. cbn in *. lia.
        -- destruct (Hz (s', h')) as [E|E]; [apply Hin; auto|subst z; cbn in *; lia|]. cbn in *. lia.
      * left. apply option_eq. intros h. rewrite !search_slot_get by done.
        assert ((s, h) ∈ take SLOT_HASHES_MAX_ENTRIES (added slot hash sh) <-> (s, h) ∈ added slot hash sh) as ->.
        { rewrite Heq at 2. rewrite elem_of_app, list_elem_of_singleton. split; [auto|].
          intros [?|E]; [done|]. subst z. done. }
        rewrite Hin. naive_solver.
Qed.

Lemma slot_hashes_add_correct_witness :
  SlotHashes_get 3 (SlotHashes_add 3 33 [(5, 50); (2, 20)]) = Some 33 /\
  (SlotHashes_get 5 (SlotHashes_add 3 33 [(5, 50); (2, 20)]) = SlotHashes_get 5 [(5, 50); (2, 20)] \/
   (length [(5, 50); (2, 20)] = SLOT_HASHES_MAX_ENTRIES /\ forall x, x ∈ [(5, 50); (2, 20)] -> 5 <= x.1)).
Proof.
  destruct (slot_hashes_add_correct 3 33 [(5, 50); (2, 20)]) as (_ & Hg & Ho).
  - split; [repeat constructor|vm_compute; lia].
  - split; [apply Hg; left; vm_compute; lia|apply Ho; lia].
Defined.
