(* ===== verification/VoteProgram.v ===== *)
(** * The vote program

    The account-level handlers of [programs/vote/src/vote_state/mod.rs] and the
    dispatch of [programs/vote/src/vote_instruction.rs], over the accounts of a
    transaction. *)
From stdpp Require Import base numbers option list sorting gmap.
From S2P Require Import Prelude OrdMap Instruction Account EpochSchedule Float64 Rent Sysvar.
From S2P Require Import VoteState VoteTower VoteSlots VoteAuth.

Inductive VoteInstruction : Type :=
| InitializeAccount (vote_init : VoteInit)
| Authorize (voter_pubkey : Pubkey) (vote_authorize : VoteAuthorize)
| VoteIx (vote : Vote)
| Withdraw (lamports : Z)
| UpdateValidatorIdentity
| UpdateCommission (commission : Z)
| VoteSwitch (vote : Vote) (hash : Hash)
| AuthorizeChecked (vote_authorize : VoteAuthorize).

#[global] Instance VoteInstruction_eq_dec : EqDecision VoteInstruction.
Proof. solve_decision. Defined.

Definition verify_authorized_signer (authorized : Pubkey) (signers : list Pubkey)
  : outcome InstructionError unit :=
  if bool_decide (authorized ∈ signers) then Ok tt else Err MissingRequiredSignature.

(** Runs an operation on a local value and returns the updated value. *)
Definition run_local {S A} (m : SE S InstructionError A) (s : S) : outcome InstructionError (A * S) :=
  match m s with (Ok a, s') => Ok (a, s') | (Err e, _) => Err e | (Panic, _) => Panic end.

(** A vote-state operation with its error converted by [?]. *)
Definition vote_err {A} (m : SE VoteState VoteError A) : SE VoteState InstructionError A :=
  fun s => let '(r, s') := m s in (map_err from_VoteError r, s').

(** [iter().max()] *)
Definition slots_max (slots : list Slot) : option Slot :=
  match slots with [] => None | s :: rest => Some (foldl Z.max s rest) end.

(** ** Handlers *)

Section handlers.
Context `{Bincode VoteStateVersions}.
(** [solana_sdk::pubkey::new_rand], used by [size_of]. *)
Context (rand : nat -> Pubkey).

Definition VoteState_size_of : outcome InstructionError Z :=
  match bincode_serialized_size (Current (get_max_sized_vote_state rand)) with
  | Ok n => Ok n
  | _ => Panic
  end.

Definition VoteState_deserialize (input : list Z) : outcome InstructionError VoteState :=
  match bincode_deserialize input with
  | Some versioned => Ok (convert_to_current versioned)
  | None => Err InvalidAccountData
  end.

Definition VoteState_serialize (versioned : VoteStateVersions) : SE (list Z) InstructionError unit :=
  fun output =>
    let '(r, output) := bincode_serialize_into versioned output in
    (map_err InstructionError_of_bincode r, output).

Definition vote_authorize (vote_account : KeyedAccount) (authorized : Pubkey)
    (vote_authorize : VoteAuthorize) (signers : list Pubkey) (clock : Clock) (feature_set : FeatureSet)
  : AM unit :=
  versioned ← ka_state vote_account;
  let vote_state := convert_to_current versioned in
  vote_state ←
    match vote_authorize with
    | Voter =>
        let authorized_withdrawer_signer :=
          if is_active feature_set vote_withdraw_authority_may_change_authorized_voter
          then is_ok (verify_authorized_signer (authorized_withdrawer vote_state) signers)
          else false in
        r ← lift (run_local
              (set_new_authorized_voter authorized (clock_epoch clock) (add64 (leader_schedule_epoch clock) 1)
                 (fun epoch_authorized_voter =>
                    if authorized_withdrawer_signer then Ok tt
                    else verify_authorized_signer epoch_authorized_voter signers)) vote_state);
        mret r.2
    | Withdrawer =>
        _ ← lift (verify_authorized_signer (authorized_withdrawer vote_state) signers);
        mret (set_authorized_withdrawer authorized vote_state)
    end;
  ka_set_state vote_account (Current vote_state).

Definition update_validator_identity (vote_account : KeyedAccount) (node_pubkey : Pubkey)
    (signers : list Pubkey) : AM unit :=
  versioned ← ka_state vote_account;
  let vote_state := convert_to_current versioned in
  _ ← lift (verify_authorized_signer (authorized_withdrawer vote_state) signers);
  _ ← lift (verify_authorized_signer node_pubkey signers);
  ka_set_state vote_account (Current (set_node_pubkey node_pubkey vote_state)).

Definition update_commission (vote_account : KeyedAccount) (commission : Z) (signers : list Pubkey)
  : AM unit :=
  versioned ← ka_state vote_account;
  let vote_state := convert_to_current versioned in
  _ ← lift (verify_authorized_signer (authorized_withdrawer vote_state) signers);
  ka_set_state vote_account (Current (set_commission commission vote_state)).

(** Whether closing is refused because credits were earned in this epoch or the one before. *)
Definition reject_active_vote_account_close (clock : option Clock) (vote_state : VoteState) : bool :=
  match clock, last (epoch_credits vote_state) with
  | Some clock, Some (last_epoch_with_credits, _, _) =>
      saturating_sub64 (clock_epoch clock) last_epoch_with_credits <? 2
  | _, _ => false
  end.

Definition vote_withdraw (vote_account : KeyedAccount) (lamports : Z) (to_account : KeyedAccount)
    (signers : list Pubkey) (rent_sysvar : option Rent) (clock : option Clock) : AM unit :=
  versioned ← ka_state vote_account;
  let vote_state := convert_to_current versioned in
  _ ← lift (verify_authorized_signer (authorized_withdrawer vote_state) signers);
  balance ← ka_lamports vote_account;
  remaining_balance ← lift (ok_or InsufficientFunds (checked_sub64 balance lamports));
  _ ← (if remaining_balance =? 0 then
         if reject_active_vote_account_close clock vote_state then throw ActiveVoteAccountClose
         else ka_set_state vote_account (Current VoteState_default)
       else
         match rent_sysvar with
         | Some rent_sysvar =>
             data_len ← ka_data_len vote_account;
             ensure (negb (remaining_balance <? minimum_balance rent_sysvar data_len)) InsufficientFunds
         | None => mret tt
         end);
  _ ← lamports_op vote_account (checked_sub_lamports lamports);
  lamports_op to_account (checked_add_lamports lamports).

Definition initialize_account (vote_account : KeyedAccount) (vote_init : VoteInit)
    (signers : list Pubkey) (clock : Clock) : AM unit :=
  data_len ← ka_data_len vote_account;
  size ← lift VoteState_size_of;
  _ ← ensure (data_len =? size) InvalidAccountData;
  versioned ← ka_state vote_account;
  _ ← ensure (is_uninitialized versioned) AccountAlreadyInitialized;
  _ ← lift (verify_authorized_signer (vi_node_pubkey vote_init) signers);
  ka_set_state vote_account (Current (VoteState_new vote_init (clock_epoch clock))).

(** The part of [process_vote] that works on the vote state. *)
Definition apply_vote (vote : Vote) (slot_hashes : SlotHashes) (epoch : Epoch) (signers : list Pubkey)
  : SE VoteState InstructionError unit :=
  authorized_voter ← get_and_update_authorized_voter epoch;
  _ ← lift (verify_authorized_signer authorized_voter signers);
  _ ← vote_err (process_vote vote slot_hashes epoch);
  match vote_timestamp vote with
  | None => mret tt
  | Some timestamp =>
      slot ← lift (map_err from_VoteError (ok_or EmptySlots (slots_max (vote_slots vote))));
      vote_err (process_timestamp slot timestamp)
  end.

Definition process_vote_account (vote_account : KeyedAccount) (slot_hashes : SlotHashes) (clock : Clock)
    (vote : Vote) (signers : list Pubkey) : AM unit :=
  versioned ← ka_state vote_account;
  _ ← ensure (negb (is_uninitialized versioned)) UninitializedAccount;
  r ← lift (run_local (apply_vote vote slot_hashes (clock_epoch clock) signers) (convert_to_current versioned));
  ka_set_state vote_account (Current r.2).

Definition create_account_with_authorized (node_pubkey authorized_voter authorized_withdrawer : Pubkey)
    (commission lamports : Z) : outcome InstructionError AccountSharedData :=
  size ← VoteState_size_of;
  let vote_account := AccountSharedData_new lamports (Z.to_nat size) vote_program_id in
  let vote_state := VoteState_new
    (mkVoteInit node_pubkey authorized_voter authorized_withdrawer commission) (clock_epoch Clock_default) in
  match VoteState_serialize (Current vote_state) (data vote_account) with
  | (Ok _, d) => Ok (set_data d vote_account)
  | _ => Panic
  end.

(** ** Dispatch *)

Definition verify_rent_exemption (keyed_account : KeyedAccount) (rent : Rent) : AM unit :=
  lamports ← ka_lamports keyed_account;
  data_len ← ka_data_len keyed_account;
  ensure (is_exempt rent lamports data_len) InsufficientFunds.

Context `{Bincode VoteInstruction} `{Bincode Clock}.

Definition vote_dispatch (ctx : ProgramContext) (first : nat) (me : KeyedAccount) (signers : list Pubkey)
    (instruction : VoteInstruction) : AM unit :=
  let ka := pc_keyed_accounts ctx in
  match instruction with
  | InitializeAccount vote_init =>
      k ← keyed_account_at_index ka (first + 1);
      rent ← checked_rent ctx k;
      _ ← verify_rent_exemption me rent;
      k ← keyed_account_at_index ka (first + 2);
      clock ← checked_clock ctx k;
      initialize_account me vote_init signers clock
  | Authorize voter_pubkey va =>
      k ← keyed_account_at_index ka (first + 1);
      clock ← checked_clock ctx k;
      vote_authorize me voter_pubkey va signers clock (pc_feature_set ctx)
  | UpdateValidatorIdentity =>
      k ← keyed_account_at_index ka (first + 1);
      update_validator_identity me (unsigned_key k) signers
  | UpdateCommission commission => update_commission me commission signers
  | VoteIx vote | VoteSwitch vote _ =>
      k ← keyed_account_at_index ka (first + 1);
      slot_hashes ← checked_slot_hashes ctx k;
      k ← keyed_account_at_index ka (first + 2);
      clock ← checked_clock ctx k;
      process_vote_account me slot_hashes clock vote signers
  | Withdraw lamports =>
      to ← keyed_account_at_index ka (first + 1);
      rent_sysvar ← (if is_active (pc_feature_set ctx) reject_non_rent_exempt_vote_withdraws
                     then rent ← lift (get_rent (pc_sysvar_cache ctx)); mret (Some rent)
                     else mret None);
      clock ← (if is_active (pc_feature_set ctx) reject_vote_account_close_unless_zero_credit_epoch
               then clock ← lift (get_clock (pc_sysvar_cache ctx)); mret (Some clock)
               else mret None);
      vote_withdraw me lamports to signers rent_sysvar clock
  | AuthorizeChecked va =>
      if is_active (pc_feature_set ctx) vote_stake_checked_instructions then
        k ← keyed_account_at_index ka (first + 3);
        voter_pubkey ← lift (ok_or MissingRequiredSignature (signer_key k));
        k ← keyed_account_at_index ka (first + 1);
        clock ← from_keyed_account Clock clock_id k;
        vote_authorize me voter_pubkey va signers clock (pc_feature_set ctx)
      else throw InvalidInstructionData
  end.

Definition vote_process_instruction (ctx : ProgramContext) (first_instruction_account : nat)
    (instruction_data : list Z) : AM unit :=
  me ← keyed_account_at_index (pc_keyed_accounts ctx) first_instruction_account;
  me_owner ← ka_owner me;
  _ ← ensure (me_owner =? vote_program_id) InvalidAccountOwner;
  let signers := get_signers (drop first_instruction_account (pc_keyed_accounts ctx)) in
  instruction ← lift (limited_deserialize instruction_data PACKET_DATA_SIZE);
  vote_dispatch ctx first_instruction_account me signers instruction.
End handlers.

(** ** What the operations on the vote state leave alone *)

Lemma verify_authorized_signer_Ok pk signers u : verify_authorized_signer pk signers = Ok u <-> pk ∈ signers.
Proof. unfold verify_authorized_signer. destruct u. case_bool_decide; naive_solver. Qed.

Lemma run_local_Ok {S A} (m : SE S InstructionError A) s r : run_local m s = Ok r <-> m s = (Ok r.1, r.2).
Proof. unfold run_local. destruct (m s) as [[]], r; naive_solver. Qed.

Lemma vote_err_Ok {A} (m : SE VoteState VoteError A) s a s' : vote_err m s = (Ok a, s') <-> m s = (Ok a, s').
Proof. unfold vote_err. destruct (m s) as [[]]; naive_solver. Qed.

(** The fields that a vote or a change of voter does not touch. *)
Definition same_authority (v v' : VoteState) : Prop :=
  node_pubkey v' = node_pubkey v /\ authorized_withdrawer v' = authorized_withdrawer v /\
  commission v' = commission v.

(** The voters are a non-empty sorted map. *)
Definition voters_wf (v : VoteState) : Prop :=
  bt_sorted (authorized_voters v) /\ authorized_voters v ≠ [].

Lemma get_and_update_frame epoch v voter v' : bt_sorted (authorized_voters v) ->
  get_and_update_authorized_voter epoch v = (Ok voter, v') ->
  get_authorized_voter v epoch = Some voter /\ voters_wf v' /\
  v' = set_authorized_voters (authorized_voters v') v.
Proof.
  intros Hs H. rewrite get_and_update_run in H by done. unfold get_authorized_voter.
  rewrite get_authorized_voter_spec by done.
  destruct (voter_at (authorized_voters v) epoch) as [pk|]; [|done]. simplify_eq.
  split; [done|]. split; [|done]. split; [by apply updated_voters_sorted|done].
Qed.

Lemma set_new_frame pk current target verify v v' : bt_sorted (authorized_voters v) ->
  set_new_authorized_voter pk current target verify v = (Ok tt, v') ->
  (exists voter, get_authorized_voter v current = Some voter /\ verify voter = Ok tt) /\
  voters_wf v' /\ same_authority v v' /\ votes v' = votes v /\ root_slot v' = root_slot v /\
  epoch_credits v' = epoch_credits v /\ last_timestamp v' = last_timestamp v.
Proof.
  intros Hs H. unfold set_new_authorized_voter in H. apply SE_bind_Ok in H as (voter & v1 & Hget & H).
  apply get_and_update_frame in Hget as (Hv & [Hs1 Hne1] & Hv1); [|done].
  apply SE_bind_Ok in H as ([] & ? & [Hver ->]%lift_Ok & H).
  apply SE_bind_Ok in H as (? & ? & [-> ->]%get_Ok & H). ok_inv.
  match goal with p : Z * Z |- _ => destruct p as [le lp] end. ok_inv.
  assert (bt_sorted (bt_insert target pk (authorized_voters v1)) /\
    bt_insert target pk (authorized_voters v1) ≠ []) as [Hs2 Hne2].
  { split; [by apply bt_insert_sorted|apply bt_insert_not_nil]. }
  destruct (negb (lp =? pk)); ok_inv; cbn [authorized_voters set_prior_voters set_authorized_voters] in *;
    (split; [by exists voter|]); rewrite Hv1; unfold voters_wf, same_authority; cbn; auto 10.
Qed.

Lemma process_next_vote_slot_frame slot epoch v :
  let v' := process_next_vote_slot slot epoch v in
  same_authority v v' /\ authorized_voters v' = authorized_voters v /\ last_timestamp v' = last_timestamp v.
Proof.
  unfold process_next_vote_slot. destruct (already_voted _ _); [done|].
  destruct (decide _); [|done]. by destruct (votes (pop_expired_votes slot v)).
Qed.

Lemma vote_fold_frame epoch slots v :
  let v' := foldl (fun s slot => process_next_vote_slot slot epoch s) v slots in
  same_authority v v' /\ authorized_voters v' = authorized_voters v.
Proof.
  revert v. induction slots as [|slot slots IH]; intros v; cbn; [done|].
  destruct (IH (process_next_vote_slot slot epoch v)) as [(H1 & H2 & H3) H4].
  destruct (process_next_vote_slot_frame slot epoch v) as [(H5 & H6 & H7) [H8 _]].
  unfold same_authority. rewrite H1, H2, H3, H4. auto.
Qed.

(** An accepted vote: the epoch's voter signed, the vote was applied slot by
    slot, and every slot of it was voted before or has a slot hash. *)
Lemma apply_vote_Ok vote sh epoch signers v v' : bt_sorted (authorized_voters v) ->
  apply_vote vote sh epoch signers v = (Ok tt, v') ->
  (exists voter, get_authorized_voter v epoch = Some voter /\ voter ∈ signers) /\
  voters_wf v' /\ same_authority v v' /\
  votes v' = votes (foldl (fun s slot => process_next_vote_slot slot epoch s)
               (set_authorized_voters (authorized_voters v') v) (vote_slots vote)) /\
  root_slot v' = root_slot (foldl (fun s slot => process_next_vote_slot slot epoch s)
               (set_authorized_voters (authorized_voters v') v) (vote_slots vote)) /\
  (forall slot, slot ∈ vote_slots vote -> already_voted (last_voted_slot v) slot = true \/ slot ∈ sh.*1).
Proof.
  intros Hs H. unfold apply_vote in H. apply SE_bind_Ok in H as (voter & v1 & Hget & H).
  apply get_and_update_frame in Hget as (Hv & Hwf1 & Hv1); [|done]. ok_inv.
  rename select (verify_authorized_signer _ _ = _) into Hsig. apply verify_authorized_signer_Ok in Hsig.
  rename select (vote_err _ _ = _) into Hvote. apply vote_err_Ok in Hvote.
  unfold process_vote in Hvote. ok_inv. rename select (check_slots_are_valid _ _ _ = _) into Hcheck.
  pose proof (check_slots_are_valid_sound _ _ _ Hcheck) as Hslots.
  set (v2 := foldl _ v1 (vote_slots vote)) in *.
  assert (authorized_voters v' = authorized_voters v2 /\ votes v' = votes v2 /\ root_slot v' = root_slot v2 /\
    same_authority v2 v') as (Hav & Hvs & Hrs & Hsa).
  { destruct (vote_timestamp vote) as [ts|]; ok_inv; [|done].
    rename select (vote_err _ _ = _) into Hts. apply vote_err_Ok in Hts. unfold process_timestamp in Hts.
    destruct (_ || _); by simplify_eq. }
  destruct (vote_fold_frame epoch (vote_slots vote) v1) as [Hsa2 Hav2]. fold v2 in Hsa2, Hav2.
  split; [eauto|]. rewrite Hav, Hav2. rewrite <- Hv1. fold v2. split; [|split; [|split; [done|split; [done|]]]].
  - unfold voters_wf. rewrite Hav, Hav2. exact Hwf1.
  - unfold same_authority in *. rewrite Hv1 in Hsa2. cbn in Hsa2. intuition congruence.
  - rewrite Hv1 in Hslots. exact Hslots.
Qed.

(** ** The effects of the instructions *)

Section effects.
Context `{BincodeLaws VoteStateVersions} `{Bincode VoteInstruction} `{Bincode Clock}.
Context (rand : nat -> Pubkey).

(** The vote account held [v] and now holds [v']; nothing else changed. *)
Definition stores (me : KeyedAccount) (s s' : Accounts) (v : VoteStateVersions) (v' : VoteState) : Prop :=
  stores_state me s s' v (Current v').

(** What a withdrawal does: the lamports move, and the state is reset when
    nothing remains; the remaining balance is rent exempt when the sysvar is
    given, and an account with recent credits is not closed. *)
Definition withdraws (me to : KeyedAccount) (n : Z) (rent : option Rent) (clock : option Clock)
    (s s' : Accounts) (v : VoteState) : Prop :=
  exists a b c, s !! account me = Some a /\ n <= lamports a /\ length b = length (data a) /\
    (if lamports a =? n
     then reject_active_vote_account_close clock v = false /\
          account_state (set_data b a) = Ok (Current VoteState_default)
     else b = data a /\ forall r, rent = Some r ->
            minimum_balance r (Z.of_nat (length (data a))) <= lamports a - n) /\
    <[account me := set_lamports (lamports a - n) (set_data b a)]> s !! account to = Some c /\
    lamports c + n <= U64_MAX /\
    s' = <[account to := set_lamports (lamports c + n) c]>
           (<[account me := set_lamports (lamports a - n) (set_data b a)]> s).

(** The successful outcomes of an instruction. *)
Inductive vote_effect (ctx : ProgramContext) (me : KeyedAccount) (signers : list Pubkey)
    (ix : VoteInstruction) (s s' : Accounts) : Prop :=
| effect_initialize vote_init epoch v :
    is_uninitialized v = true -> vi_node_pubkey vote_init ∈ signers ->
    stores me s s' v (VoteState_new vote_init epoch) -> vote_effect ctx me signers ix s s'
| effect_voter pk epoch target verify v v' :
    (forall voter, verify voter = Ok tt ->
       voter ∈ signers \/ authorized_withdrawer (convert_to_current v) ∈ signers) ->
    set_new_authorized_voter pk epoch target verify (convert_to_current v) = (Ok tt, v') ->
    stores me s s' v v' -> vote_effect ctx me signers ix s s'
| effect_withdrawer v v' :
    authorized_withdrawer (convert_to_current v) ∈ signers ->
    (exists pk, v' = set_authorized_withdrawer pk (convert_to_current v)) \/
    (exists pk, v' = set_node_pubkey pk (convert_to_current v) /\ pk ∈ signers) \/
    (exists c, v' = set_commission c (convert_to_current v)) ->
    stores me s s' v v' -> vote_effect ctx me signers ix s s'
| effect_vote vote sh epoch v v' :
    (ix = VoteIx vote \/ exists hash, ix = VoteSwitch vote hash) ->
    sc_slot_hashes (pc_sysvar_cache ctx) = Some sh -> is_uninitialized v = false ->
    apply_vote vote sh epoch signers (convert_to_current v) = (Ok tt, v') ->
    stores me s s' v v' -> vote_effect ctx me signers ix s s'
| effect_withdraw to n rent clock v a :
    s !! account me = Some a -> account_state a = Ok v ->
    authorized_withdrawer (convert_to_current v) ∈ signers ->
    (is_active (pc_feature_set ctx) reject_non_rent_exempt_vote_withdraws = true ->
       rent = sc_rent (pc_sysvar_cache ctx) /\ is_Some rent) ->
    (is_active (pc_feature_set ctx) reject_vote_account_close_unless_zero_credit_epoch = true ->
       clock = sc_clock (pc_sysvar_cache ctx) /\ is_Some clock) ->
    withdraws me to n rent clock s s' (convert_to_current v) -> vote_effect ctx me signers ix s s'.

(** Storing a state computed from the one that was read. *)
Lemma stores_intro me s a v v' u s' :
  s !! account me = Some a -> account_state a = Ok v ->
  ka_set_state me (Current v') s = (Ok u, s') -> stores me s s' v v'.
Proof. apply stores_state_intro. Qed.

Lemma vote_authorize_effect ctx ix me pk va signers clock fs s u s' :
  vote_authorize me pk va signers clock fs s = (Ok u, s') -> vote_effect ctx me signers ix s s'.
Proof.
  unfold vote_authorize. intros (v & s1 & (-> & a & Ha & Hst)%ka_state_Ok & Hrun)%SE_bind_Ok.
  apply SE_bind_Ok in Hrun as (v' & s2 & Hm & Hset). destruct va.
  - apply SE_bind_Ok in Hm as (r & s3 & [Hr ->]%lift_Ok & [-> ->]%SE_ret_Ok).
    apply run_local_Ok in Hr. destruct r.1.
    eapply effect_voter; [|exact Hr|by eapply stores_intro]. intros voter Hver. cbv beta in Hver.
    destruct (is_active fs _).
    + destruct (is_ok _) eqn:Hok in Hver.
      * right. destruct (verify_authorized_signer (authorized_withdrawer _) signers) eqn:E; [|done|done].
        by apply verify_authorized_signer_Ok in E.
      * left. by apply verify_authorized_signer_Ok in Hver.
    + left. by apply verify_authorized_signer_Ok in Hver.
  - apply SE_bind_Ok in Hm as (? & s3 & [Hr ->]%lift_Ok & [-> ->]%SE_ret_Ok).
    apply verify_authorized_signer_Ok in Hr.
    eapply effect_withdrawer; [exact Hr|left; by eexists|by eapply stores_intro].
Qed.

Lemma vote_withdraw_effect me n to signers rent clock s u s' :
  vote_withdraw me n to signers rent clock s = (Ok u, s') ->
  exists v a, s !! account me = Some a /\ account_state a = Ok v /\
    authorized_withdrawer (convert_to_current v) ∈ signers /\
    withdraws me to n rent clock s s' (convert_to_current v).
Proof.
  unfold vote_withdraw. intros (v & s1 & (-> & a & Ha & Hst)%ka_state_Ok & Hrun)%SE_bind_Ok.
  exists v, a. split; [done|]. split; [done|].
  apply SE_bind_Ok in Hrun as (? & ? & [Hsig%verify_authorized_signer_Ok ->]%lift_Ok & Hrun).
  split; [done|]. unfold ka_lamports in Hrun.
  apply SE_bind_Ok in Hrun as (bal & ? & Hbal & Hrun). acct_inv; simplify_eq.
  - match goal with H : length ?b = length (data a) |- _ => rename b into d end.
    pose proof (lookup_lt_Some _ _ _ Ha) as Hlt.
    match goal with H : <[_:=set_data d a]> s !! account me = Some _ |- _ =>
      rewrite list_lookup_insert_eq in H by done; injection H as <- end.
    rewrite list_insert_insert_eq in *. match goal with H : _ !! account to = Some ?c |- _ => exists a, d, c end.
    rewrite (proj2 (Z.eqb_eq _ _)) by lia. auto 10.
  - match goal with H : _ s = (Ok (), ?y) |- _ => rename y into s1 end.
    assert (s1 = s /\ forall r, rent = Some r ->
      minimum_balance r (Z.of_nat (length (data a))) <= lamports a - n) as [-> Hr].
    { destruct rent as [r|]; acct_inv; simplify_eq; [|done]. split; [done|]. intros ? [= <-]. lia. }
    simplify_eq. match goal with H : _ !! account to = Some ?c |- _ => exists a, (data a), c end.
    rewrite (proj2 (Z.eqb_neq _ _)) by lia. replace (set_data (data a) a) with a by by destruct a. auto 10.
Qed.

Lemma process_vote_effect ctx ix me sh clock vote signers s u s' :
  (ix = VoteIx vote \/ exists hash, ix = VoteSwitch vote hash) ->
  sc_slot_hashes (pc_sysvar_cache ctx) = Some sh ->
  process_vote_account me sh clock vote signers s = (Ok u, s') -> vote_effect ctx me signers ix s s'.
Proof.
  intros Hix Hsh. unfold process_vote_account.
  intros (v & s1 & (-> & a & Ha & Hst)%ka_state_Ok & Hrun)%SE_bind_Ok. ok_inv.
  rename select (run_local _ _ = _) into Hr. apply run_local_Ok in Hr.
  match goal with r : unit * VoteState |- _ => destruct r as [[] v'] end.
  eapply effect_vote; [exact Hix|done|done|exact Hr|by eapply stores_intro].
Qed.

Lemma initialize_effect ctx ix me vote_init signers clock s u s' :
  initialize_account rand me vote_init signers clock s = (Ok u, s') -> vote_effect ctx me signers ix s s'.
Proof.
  unfold initialize_account. intros H'. read_inv. simplify_eq.
  rename select (verify_authorized_signer _ _ = _) into Hsig. apply verify_authorized_signer_Ok in Hsig.
  eapply effect_initialize; [done|done|by eapply stores_intro].
Qed.

Lemma update_effect ctx ix me signers s s' v v' a u :
  s !! account me = Some a -> account_state a = Ok v ->
  verify_authorized_signer (authorized_withdrawer (convert_to_current v)) signers = Ok tt ->
  (exists pk, v' = set_authorized_withdrawer pk (convert_to_current v)) \/
  (exists pk, v' = set_node_pubkey pk (convert_to_current v) /\ pk ∈ signers) \/
  (exists c, v' = set_commission c (convert_to_current v)) ->
  ka_set_state me (Current v') s = (Ok u, s') -> vote_effect ctx me signers ix s s'.
Proof.
  intros Ha Hv Hsig%verify_authorized_signer_Ok Hch Hset.
  eapply effect_withdrawer; [exact Hsig|exact Hch|by eapply stores_intro].
Qed.

(** Every successful instruction has one of the effects. *)
Lemma vote_dispatch_effect ctx first me signers ix s u s' :
  vote_dispatch rand ctx first me signers ix s = (Ok u, s') -> vote_effect ctx me signers ix s s'.
Proof.
  unfold vote_dispatch, checked_clock, checked_rent, checked_slot_hashes, get_clock, get_slot_hashes,
    get_rent, update_validator_identity, update_commission, verify_rent_exemption.
  destruct ix; intros Hix; read_inv;
    try (by eapply initialize_effect); try (by eapply vote_authorize_effect);
    try (eapply process_vote_effect; [|eassumption|eassumption]; by eauto);
    try (eapply update_effect; [eassumption|eassumption|eassumption| |eassumption]; eauto);
    try (rename select (vote_withdraw _ _ _ _ _ _ _ = _) into Hw;
         apply vote_withdraw_effect in Hw as (v & a & Ha & Hv & Hsig & Hw);
         eapply effect_withdraw; [exact Ha|exact Hv|done| | |exact Hw]; intros;
         first [congruence | split; [congruence|by eexists]]).
  right. left. eexists. split; [done|]. by eapply verify_authorized_signer_Ok.
Qed.

Lemma vote_process_effect ctx first d s u s' :
  vote_process_instruction rand ctx first d s = (Ok u, s') ->
  exists me a ix, pc_keyed_accounts ctx !! first = Some me /\ s !! account me = Some a /\
    owner a = vote_program_id /\ limited_deserialize d PACKET_DATA_SIZE = Ok ix /\
    vote_effect ctx me (get_signers (drop first (pc_keyed_accounts ctx))) ix s s'.
Proof.
  unfold vote_process_instruction. intros Hrun. read_inv.
  rename select (vote_dispatch _ _ _ _ _ _ _ = _) into Hd. apply vote_dispatch_effect in Hd.
  eexists _, _, _. split; [done|]. split; [done|]. split; [by apply Z.eqb_eq|]. split; done.
Qed.

Lemma vote_effect_frame ctx me signers ix s s' : vote_effect ctx me signers ix s s' ->
  total_lamports s' = total_lamports s /\ length s' = length s /\
  forall i a a', s !! i = Some a -> s' !! i = Some a' ->
    account_frame a a' /\ (i ≠ account me -> data a' = data a).
Proof.
  intros Heff.
  assert (forall v v', stores me s s' v v' -> total_lamports s' = total_lamports s /\ length s' = length s /\
    forall i a a', s !! i = Some a -> s' !! i = Some a' ->
      account_frame a a' /\ (i ≠ account me -> data a' = data a)) as Hst.
  { intros v v' (a & b & Ha & _ & -> & Hl & _).
    rewrite (total_lamports_insert _ _ _ _ Ha), length_insert. cbn. split; [lia|]. split; [done|].
    intros i x x' Hx Hx'. destruct (insert_frame _ _ (set_data b a) _ _ _ _ Ha ltac:(done) Hx Hx') as [Hf Hne].
    split; [done|]. intros Hi. by rewrite Hne. }
  destruct Heff as [| | | |to n rent clock v a0 Ha0 _ _ _ _ Hw]; eauto.
  destruct Hw as (a & b & c & Ha & Hn & Hb & _ & Hc & Hmax & ->). clear Ha0.
  set (a1 := set_lamports (lamports a - n) (set_data b a)) in *.
  rewrite (total_lamports_insert _ _ _ _ Hc), (total_lamports_insert _ _ _ _ Ha), !length_insert.
  subst a1. cbn. split; [lia|]. split; [done|]. intros i x x' Hx Hx'.
  set (a1 := set_lamports (lamports a - n) (set_data b a)) in *.
  destruct (lookup_lt_is_Some_2 (<[account me := a1]> s) i) as [y Hy].
  { rewrite length_insert. by eapply lookup_lt_Some. }
  destruct (insert_frame _ _ a1 _ _ _ _ Ha ltac:(done) Hx Hy) as [Hf Hne].
  destruct (insert_frame _ _ (set_lamports (lamports c + n) c) _ _ _ _ Hc ltac:(done) Hy Hx') as [Hf' Hne'].
  split; [unfold account_frame in *; intuition congruence|]. intros Hi. rewrite Hne in * by done.
  destruct (decide (account to = i)) as [Hti|Hti]; [|by rewrite Hne'].
  subst i. rewrite list_lookup_insert_eq in Hx' by by eapply lookup_lt_Some. by simplify_eq.
Qed.

(** ** Properties *)

(** C3. A successful instruction of the vote program neither creates nor destroys
    lamports, changes the data of its first account only, and keeps the size,
    owner, executable flag and rent epoch of every account. *)
Theorem vote_program_conserves ctx first d s s' me :
  pc_keyed_accounts ctx !! first = Some me ->
  vote_process_instruction rand ctx first d s = (Ok tt, s') ->
  total_lamports s' = total_lamports s /\ length s' = length s /\
  forall i a a', s !! i = Some a -> s' !! i = Some a' ->
    account_frame a a' /\ (i ≠ account me -> data a' = data a).
Proof.
  intros Hme Hrun. apply vote_process_effect in Hrun as (me' & a & ix & Hme' & _ & _ & _ & Heff).
  rewrite Hme in Hme'. injection Hme' as <-. by eapply vote_effect_frame.
Qed.

(** The state of the vote account after a [stores]. *)
Lemma stores_lookup me s s' v v' a : stores me s s' v v' -> s !! account me = Some a ->
  account_state a = Ok v /\ exists a', s' !! account me = Some a' /\ account_state a' = Ok (Current v') /\
    lamports a' = lamports a.
Proof.
  intros (x & b & Hx & Hv & -> & Hl & Hv') Ha. assert (x = a) as -> by congruence. split; [done|].
  exists (set_data b a). rewrite list_lookup_insert_eq by by eapply lookup_lt_Some. done.
Qed.


(** The balance of the vote account after a withdrawal. *)
Lemma withdraws_lookup me to n rent clock s s' v a a' :
  withdraws me to n rent clock s s' v -> s !! account me = Some a -> s' !! account me = Some a' ->
  n <= lamports a /\
  (account to = account me /\ lamports a' = lamports a \/
   account to ≠ account me /\ lamports a' = lamports a - n) /\
  (if lamports a =? n
   then reject_active_vote_account_close clock v = false /\ account_state a' = Ok (Current VoteState_default)
   else data a' = data a /\ forall r, rent = Some r ->
          minimum_balance r (Z.of_nat (length (data a))) <= lamports a - n).
Proof.
  intros (x & b & c & Hx & Hn & Hb & Hcond & Hc & Hmax & ->) Ha Ha'. assert (x = a) as -> by congruence.
  split; [done|]. pose proof (lookup_lt_Some _ _ _ Ha) as Hlt.
  assert (data a' = b /\ (account to = account me /\ lamports a' = lamports a \/
    account to ≠ account me /\ lamports a' = lamports a - n)) as [Hd Hl].
  { destruct (decide (account to = account me)) as [Heq|Hne].
    - rewrite Heq in *. rewrite list_lookup_insert_eq in Hc by done. simplify_eq.
      rewrite list_lookup_insert_eq in Ha' by by rewrite length_insert. simplify_eq. cbn. split; [done|].
      left. split; [done|]. lia.
    - rewrite list_lookup_insert_ne, list_lookup_insert_eq in Ha' by done. simplify_eq. cbn. auto. }
  split; [done|]. destruct (lamports a =? n); [|by rewrite Hd].
  destruct Hcond as [Hact Hst]. split; [done|]. revert Hst. unfold account_state. cbn. by rewrite Hd.
Qed.

(** With both protections active, lamports leave a vote account only at the
    request of its withdraw authority, and what is left is rent exempt or
    nothing. An account is emptied only when its last credits are at least two
    epochs old, and its state is then reset. *)
Theorem vote_withdraw_protected ctx first d s s' me a v a' :
  pc_keyed_accounts ctx !! first = Some me -> s !! account me = Some a -> account_state a = Ok v ->
  is_active (pc_feature_set ctx) reject_non_rent_exempt_vote_withdraws = true ->
  is_active (pc_feature_set ctx) reject_vote_account_close_unless_zero_credit_epoch = true ->
  vote_process_instruction rand ctx first d s = (Ok tt, s') ->
  s' !! account me = Some a' -> lamports a' < lamports a ->
  authorized_withdrawer (convert_to_current v) ∈ get_signers (drop first (pc_keyed_accounts ctx)) /\
  ((lamports a' = 0 /\ account_state a' = Ok (Current VoteState_default) /\
    exists clock, sc_clock (pc_sysvar_cache ctx) = Some clock /\
      forall e c p, last (epoch_credits (convert_to_current v)) = Some (e, c, p) -> e + 2 <= clock_epoch clock) \/
   (data a' = data a /\ exists rent, sc_rent (pc_sysvar_cache ctx) = Some rent /\
      minimum_balance rent (Z.of_nat (length (data a'))) <= lamports a')).
Proof.
  intros Hme Ha Hv Hf1 Hf2 Hrun Ha' Hlt.
  apply vote_process_effect in Hrun as (me' & a0 & ix & Hme' & Ha0 & _ & _ & Heff). simplify_eq.
  assert (forall v0 v', stores me s s' v0 v' -> False) as Hno.
  { intros v0 v' Hst. destruct (stores_lookup _ _ _ _ _ _ Hst Ha) as (_ & x & Hx & _ & Hl).
    assert (x = a') as -> by congruence. lia. }
  destruct Heff as [| | | |to n rent clock v0 a0 Ha0 Hv0 Hsig Hr Hc Hw]; try by exfalso; eauto.
  assert (a0 = a) as -> by congruence. assert (v0 = v) as -> by congruence. split; [done|].
  destruct (withdraws_lookup _ _ _ _ _ _ _ _ _ _ Hw Ha Ha') as (Hn & Hl & Hcond).
  destruct Hl as [[_ Hl]|[_ Hl]]; [lia|].
  destruct (Hr Hf1) as [Hrent [r ->]], (Hc Hf2) as [Hclock [cl ->]].
  destruct (Z.eqb_spec (lamports a) n) as [Heq|Hneq].
  - left. destruct Hcond as [Hact Hst]. split; [lia|]. split; [done|]. exists cl. split; [done|].
    intros e c p Hlast. unfold reject_active_vote_account_close in Hact. rewrite Hlast in Hact.
    apply Z.ltb_ge in Hact. unfold saturating_sub64 in Hact. lia.
  - right. destruct Hcond as [Hd Hmin]. split; [done|]. exists r. split; [done|]. rewrite Hd, Hl. by apply Hmin.
Qed.

(** *** The invariant of vote accounts *)

(** The tower is well formed and the voters are sorted by epoch. *)
Definition vote_inv (v : VoteState) : Prop := vote_state_wf v /\ bt_sorted (authorized_voters v).

Lemma vote_state_wf_ext v v' : votes v' = votes v -> root_slot v' = root_slot v ->
  vote_state_wf v -> vote_state_wf v'.
Proof. unfold vote_state_wf, root_below. intros -> ->. done. Qed.

Lemma VoteState_new_inv vote_init epoch : vote_inv (VoteState_new vote_init epoch).
Proof.
  split; [by apply (vote_state_wf_ext VoteState_default); [| |apply VoteState_default_wf]|].
  repeat constructor.
Qed.

(** The slots of the slot hashes leave room for the largest lockout. *)
Definition slot_hashes_ok (sh : SlotHashes) : Prop := Forall (fun x => slot_ok x.1) sh.

(** The slots of a vote are unsigned. *)
Definition instruction_ok (ix : VoteInstruction) : Prop :=
  match ix with VoteIx vote | VoteSwitch vote _ => Forall (fun slot => 0 <= slot) (vote_slots vote) | _ => True end.

Lemma apply_vote_inv vote sh epoch signers v v' :
  vote_inv v -> slot_hashes_ok sh -> Forall (fun slot => 0 <= slot) (vote_slots vote) ->
  apply_vote vote sh epoch signers v = (Ok tt, v') -> vote_inv v'.
Proof.
  intros [Hwf Hs] Hsh Hpos Hrun. apply apply_vote_Ok in Hrun as (_ & [Hs' _] & _ & Hvs & Hrs & Hslots); [|done].
  split; [|done]. apply (vote_state_wf_ext _ _ Hvs Hrs).
  assert (Forall slot_ok (vote_slots vote)) as Hok.
  { apply Forall_forall. intros slot Hslot. rewrite Forall_forall in Hpos. specialize (Hpos slot Hslot).
    destruct (Hslots slot Hslot) as [Hold|Hin].
    - unfold already_voted, last_voted_slot, last_lockout in Hold.
      destruct (last (votes v)) as [w|] eqn:Hl; [|done]. cbn in Hold. apply last_elem in Hl as [i Hi]%list_elem_of_lookup.
      destruct (tw_entry _ (proj1 Hwf) i w Hi) as [_ [_ Hw]]. unfold slot_ok. lia.
    - apply list_elem_of_fmap in Hin as (x & -> & Hx). unfold slot_hashes_ok in Hsh.
      rewrite Forall_forall in Hsh. by apply Hsh. }
  set (v1 := set_authorized_voters (authorized_voters v') v).
  assert (vote_state_wf v1) as Hwf1 by (by apply (vote_state_wf_ext v)). clearbody v1. clear -Hok Hwf1.
  revert v1 Hwf1. induction Hok as [|slot slots Hslot Hok IH]; intros v1 Hwf1; [done|].
  cbn. apply IH. by apply process_next_vote_slot_wf.
Qed.

(** C36. Every instruction preserves the invariant of the vote account it works on:
    the tower is well formed and the authorized voters are sorted, whatever the
    instruction data, as long as the slot hashes leave room for the lockouts. *)
Theorem vote_program_invariant ctx first d s s' me a v :
  pc_keyed_accounts ctx !! first = Some me -> s !! account me = Some a -> account_state a = Ok v ->
  vote_inv (convert_to_current v) ->
  (forall sh, sc_slot_hashes (pc_sysvar_cache ctx) = Some sh -> slot_hashes_ok sh) ->
  (forall ix, limited_deserialize d PACKET_DATA_SIZE = Ok ix -> instruction_ok ix) ->
  vote_process_instruction rand ctx first d s = (Ok tt, s') ->
  exists a' v', s' !! account me = Some a' /\ account_state a' = Ok v' /\ vote_inv (convert_to_current v').
Proof.
  intros Hme Ha Hv Hinv Hsh Hix Hrun.
  apply vote_process_effect in Hrun as (me' & a0 & ix & Hme' & Ha0 & _ & Hd & Heff). simplify_eq.
  assert (forall v0 v', stores me s s' v0 v' -> (v0 = v -> vote_inv v') ->
    exists a' v', s' !! account me = Some a' /\ account_state a' = Ok v' /\ vote_inv (convert_to_current v')) as Hdone.
  { intros v0 v' Hst Hi. destruct (stores_lookup _ _ _ _ _ _ Hst Ha) as (E & a' & Ha' & Hv' & _).
    exists a', (Current v'). split; [done|]. split; [done|]. apply Hi. congruence. }
  destruct Heff as [vi epoch v0 _ _ Hst|pk epoch target verify v0 v' _ Hset Hst|v0 v' _ Hch Hst|
    vote sh epoch v0 v' Hvix Hc _ Hvote Hst|to n rent clock v0 a0 Ha0 Hv0 _ _ _ Hw].
  - eapply Hdone; [exact Hst|]. intros _. apply VoteState_new_inv.
  - eapply Hdone; [exact Hst|]. intros ->. destruct Hinv as [Hwf Hs].
    apply set_new_frame in Hset as (_ & [Hs' _] & _ & Hvs & Hrs & _); [|done].
    split; [by apply (vote_state_wf_ext _ _ Hvs Hrs)|done].
  - eapply Hdone; [exact Hst|]. intros ->. destruct Hinv as [Hwf Hs].
    destruct Hch as [(pk & ->)|[(pk & -> & _)|(c & ->)]];
      (split; [by apply (vote_state_wf_ext (convert_to_current v))|done]).
  - eapply Hdone; [exact Hst|]. intros ->. eapply apply_vote_inv; [done|by apply Hsh| |exact Hvote].
    specialize (Hix _ Hd). by destruct Hvix as [->|[h ->]].
  - assert (a0 = a) as -> by congruence. assert (v0 = v) as -> by congruence.
    destruct (lookup_lt_is_Some_2 s' (account me)) as [a' Ha'].
    { destruct Hw as (x & b & c & _ & _ & _ & _ & _ & _ & ->). rewrite !length_insert. by eapply lookup_lt_Some. }
    destruct (withdraws_lookup _ _ _ _ _ _ _ _ _ _ Hw Ha Ha') as (_ & _ & Hcond).
    destruct (lamports a =? n).
    + destruct Hcond as [_ Hst]. exists a', (Current VoteState_default). split; [done|]. split; [done|].
      split; [apply VoteState_default_wf|constructor].
    + destruct Hcond as [Hdata _]. exists a', v. split; [done|]. split; [|done].
      revert Hv. unfold account_state. by rewrite Hdata.
Qed.
End effects.

(** ** The properties on concrete data *)

Module VoteExample.

(** A vote account of node 1, voter 2 and withdraw authority 3, before and after
    a vote for slot 5 and after it is closed. *)
Definition fresh : VoteState := VoteState_new (mkVoteInit 1 2 3 7) 0.
Definition ballot : Vote := mkVote [5] 50 None.
Definition voted : VoteState := snd (apply_vote ballot [(5, 50)] 9 [2] fresh).

Definition state_codec : Bincode VoteStateVersions :=
  table_codec [Current fresh; Current voted; Current VoteState_default].
Definition ix_codec : Bincode VoteInstruction := table_codec [VoteIx ballot; Withdraw 1000].
Definition clock_codec : Bincode Clock := table_codec [].

Definition accounts : Accounts :=
  [mkAccount 1000 [0; 0] vote_program_id false 0; mkAccount 50 [] 0 false 0;
   mkAccount 1 [] sysvar_id false 0; mkAccount 1 [] sysvar_id false 0].

Definition cache : SysvarCache :=
  mkSysvarCache (Some (mkClock 100 0 9 10 0)) None (Some Rent_default) (Some [(5, 50)]).

(** The vote account, two sysvars and the voter. *)
Definition vote_ctx : ProgramContext :=
  mkProgramContext
    [mkKeyedAccount false true 100 0; mkKeyedAccount false false slot_hashes_id 2;
     mkKeyedAccount false false clock_id 3; mkKeyedAccount true false 2 1] cache ∅ 0 0.

(** The vote account, a recipient and the withdraw authority. *)
Definition withdraw_ctx : ProgramContext :=
  mkProgramContext [mkKeyedAccount false true 100 0; mkKeyedAccount true true 3 1] cache
    (<[reject_non_rent_exempt_vote_withdraws := 0]>
       (<[reject_vote_account_close_unless_zero_credit_epoch := 0]> ∅)) 0 0.

Lemma vote_program_conserves_witness : exists s',
  @vote_process_instruction state_codec (fun _ => 0) ix_codec clock_codec vote_ctx 0 [0] accounts = (Ok tt, s') /\
  total_lamports s' = total_lamports accounts.
Proof.
  eexists. split; [vm_compute; reflexivity|].
  apply (@vote_program_conserves state_codec (table_codec_laws _) ix_codec clock_codec (fun _ => 0)
    vote_ctx 0 [0] accounts _ (mkKeyedAccount false true 100 0)); [reflexivity|vm_compute; reflexivity].
Defined.


Lemma vote_withdraw_protected_witness : exists s' a',
  @vote_process_instruction state_codec (fun _ => 0) ix_codec clock_codec withdraw_ctx 0 [1] accounts = (Ok tt, s') /\
  s' !! 0%nat = Some a' /\ lamports a' = 0 /\ 3 ∈ get_signers (pc_keyed_accounts withdraw_ctx).
Proof.
  eexists _, _. split; [vm_compute; reflexivity|]. split; [reflexivity|]. split; [reflexivity|].
  eapply (@vote_withdraw_protected state_codec (table_codec_laws _) ix_codec clock_codec (fun _ => 0)
    withdraw_ctx 0 [1] accounts _ (mkKeyedAccount false true 100 0)
    (mkAccount 1000 [0; 0] vote_program_id false 0) (Current fresh));
    [reflexivity|reflexivity|reflexivity|vm_compute; reflexivity|vm_compute; reflexivity
    |vm_compute; reflexivity|reflexivity|reflexivity].
Defined.

Lemma vote_program_invariant_witness : exists s' a' v',
  @vote_process_instruction state_codec (fun _ => 0) ix_codec clock_codec vote_ctx 0 [0] accounts = (Ok tt, s') /\
  s' !! 0%nat = Some a' /\ @account_state _ state_codec a' = Ok v' /\ vote_inv (convert_to_current v').
Proof.
  destruct (@vote_program_invariant state_codec (table_codec_laws _) ix_codec clock_codec (fun _ => 0)
    vote_ctx 0 [0] accounts
    (snd (@vote_process_instruction state_codec (fun _ => 0) ix_codec clock_codec vote_ctx 0 [0] accounts))
    (mkKeyedAccount false true 100 0) (mkAccount 1000 [0; 0] vote_program_id false 0) (Current fresh))
    as (a' & v' & Ha' & Hv' & Hinv).
  - reflexivity.
  - reflexivity.
  - reflexivity.
  - apply VoteState_new_inv.
  - intros sh [= <-]. constructor; [split; vm_compute; done|constructor].
  - intros ix [= <-]. repeat constructor. done.
  - vm_compute. reflexivity.
  - eexists _, a', v'. split; [|split; [exact Ha'|split; [exact Hv'|exact Hinv]]]. vm_compute. reflexivity.
Defined.
End VoteExample.
