(* ===== verification/Message.v ===== *)
(** * Transaction messages

    [sdk/program/src/message/]: legacy messages and their compilation from
    instructions ([legacy.rs]), version 0 messages with loaded addresses
    ([versions/v0]), and the sanitized messages the runtime executes
    ([sanitized.rs]). *)
From Stdlib Require Import String.
From stdpp Require Import base numbers option list sorting.
From S2P Require Import Prelude Instruction Account.

(** ** Instructions *)

Record AccountMeta : Type := mkAccountMeta {
  am_pubkey : Pubkey;
  am_is_signer : bool;
  am_is_writable : bool;
}.

Record Instruction : Type := mkInstruction {
  ix_program_id : Pubkey;
  ix_accounts : list AccountMeta;
  ix_data : list Z;
}.

(** Indices are [u8]. *)
Record CompiledInstruction : Type := mkCompiledInstruction {
  ci_program_id_index : Z;
  ci_accounts : list Z;
  ci_data : list Z;
}.

Record MessageHeader : Type := mkMessageHeader {
  num_required_signatures : Z;
  num_readonly_signed_accounts : Z;
  num_readonly_unsigned_accounts : Z;
}.

(** The legacy message. *)
Record Message : Type := mkMessage {
  header : MessageHeader;
  account_keys : list Pubkey;
  recent_blockhash : Hash;
  instructions : list CompiledInstruction;
}.

Inductive SanitizeError : Type := IndexOutOfBounds | ValueOutOfBounds | InvalidValue.

(** ** Known keys *)

Definition bpf_loader_upgradeable_id : Pubkey := Eval vm_compute in pubkey_of "BPFLoaderUpgradeab1e11111111111111111111111".

Definition BUILTIN_PROGRAMS_KEYS : list Pubkey :=
  [pubkey_of "Config1111111111111111111111111111111111111";
   pubkey_of "Feature111111111111111111111111111111111111";
   pubkey_of "NativeLoader1111111111111111111111111111111";
   pubkey_of "Stake11111111111111111111111111111111111111";
   pubkey_of "StakeConfig11111111111111111111111111111111";
   pubkey_of "Vote111111111111111111111111111111111111111";
   system_program_id;
   pubkey_of "BPFLoader2111111111111111111111111111111111";
   pubkey_of "BPFLoader1111111111111111111111111111111111";
   bpf_loader_upgradeable_id].

Definition ALL_SYSVAR_IDS : list Pubkey :=
  [clock_id;
   pubkey_of "SysvarEpochSchedu1e111111111111111111111111";
   pubkey_of "SysvarFees111111111111111111111111111111111";
   pubkey_of "SysvarRecentB1ockHashes11111111111111111111";
   rent_id;
   pubkey_of "SysvarRewards111111111111111111111111111111";
   slot_hashes_id;
   pubkey_of "SysvarS1otHistory11111111111111111111111111";
   pubkey_of "SysvarStakeHistory1111111111111111111111111";
   pubkey_of "Sysvar1nstructions1111111111111111111111111"].

Definition is_sysvar_id (id : Pubkey) : bool := existsb (fun key => key =? id) ALL_SYSVAR_IDS.

(** A key that is never writable. *)
Definition is_reserved_key (key : Pubkey) : bool :=
  is_sysvar_id key || existsb (fun k => k =? key) BUILTIN_PROGRAMS_KEYS.

(** ** Compilation of instructions *)

(** [Iterator::position] *)
Fixpoint position_of (keys : list Pubkey) (key : Pubkey) : option nat :=
  match keys with
  | [] => None
  | k :: keys => if k =? key then Some 0%nat else S <$> position_of keys key
  end.

(** [position(..).unwrap() as u8] *)
Definition position {E} (keys : list Pubkey) (key : Pubkey) : outcome E Z :=
  i ← unwrap (position_of keys key); Ok (as_u8 (Z.of_nat i)).

(** [collect] over a fallible map. *)
Fixpoint collect {E A B} (f : A -> outcome E B) (l : list A) : outcome E (list B) :=
  match l with
  | [] => Ok []
  | x :: l => y ← f x; ys ← collect f l; Ok (y :: ys)
  end.

Lemma collect_length {E A B} (f : A -> outcome E B) l ys : collect f l = Ok ys -> length ys = length l.
Proof.
  revert ys. induction l as [|x l IH]; intros ys H; cbn in H; [by simplify_eq|].
  destruct (f x); [|done|done]. cbn in H. destruct (collect f l) as [ys'| |] eqn:Hc; [|done|done].
  cbn in H. simplify_eq. cbn. f_equal. by apply IH.
Qed.

Definition compile_instruction {E} (ix : Instruction) (keys : list Pubkey)
  : outcome E CompiledInstruction :=
  accounts ← collect (fun m => position keys (am_pubkey m)) (ix_accounts ix);
  program_id_index ← position keys (ix_program_id ix);
  Ok (mkCompiledInstruction program_id_index accounts (ix_data ix)).

Definition compile_instructions {E} (ixs : list Instruction) (keys : list Pubkey)
  : outcome E (list CompiledInstruction) := collect (fun ix => compile_instruction ix keys) ixs.

(** [filter(|id| set.insert(id))]: keeps the first occurrence of each id. *)
Fixpoint keep_first (seen : list Pubkey) (ids : list Pubkey) : list Pubkey :=
  match ids with
  | [] => []
  | id :: ids =>
      if bool_decide (id ∈ seen) then keep_first seen ids else id :: keep_first (id :: seen) ids
  end.

Definition get_program_ids (ixs : list Instruction) : list Pubkey := keep_first [] (ix_program_id <$> ixs).

(** The comparison of [get_keys]: signers first, then writable accounts. *)
Definition meta_cmp (x y : AccountMeta) : comparison :=
  match Bool.compare (am_is_signer y) (am_is_signer x) with
  | Eq => Bool.compare (am_is_writable y) (am_is_writable x)
  | c => c
  end.

(** [slice::sort_by], a stable sort: each element goes after the ones it does
    not precede. *)
Fixpoint stable_insert (m : AccountMeta) (l : list AccountMeta) : list AccountMeta :=
  match l with
  | [] => [m]
  | x :: l => match meta_cmp m x with Lt => m :: x :: l | _ => x :: stable_insert m l end
  end.

Definition sort_metas (l : list AccountMeta) : list AccountMeta := foldl (fun acc m => stable_insert m acc) [] l.

(** One turn of the loop over the metas: promote the entry of the key, or push. *)
Fixpoint add_unique (m : AccountMeta) (unique_metas : list AccountMeta) : list AccountMeta :=
  match unique_metas with
  | [] => [m]
  | x :: rest =>
      if am_pubkey x =? am_pubkey m
      then mkAccountMeta (am_pubkey x) (am_is_signer x) (am_is_writable x || am_is_writable m) :: rest
      else x :: add_unique m rest
  end.

Definition unique_metas (l : list AccountMeta) : list AccountMeta := foldl (fun acc m => add_unique m acc) [] l.

Record InstructionKeys : Type := mkInstructionKeys {
  signed_keys : list Pubkey;
  unsigned_keys : list Pubkey;
  ik_num_readonly_signed_accounts : Z;
  ik_num_readonly_unsigned_accounts : Z;
}.

(** The last loop of [get_keys]: splits the keys and counts the read-only ones. *)
Definition count_meta (k : InstructionKeys) (m : AccountMeta) : InstructionKeys :=
  if am_is_signer m
  then mkInstructionKeys (signed_keys k ++ [am_pubkey m]) (unsigned_keys k)
         (if negb (am_is_writable m) then as_u8 (ik_num_readonly_signed_accounts k + 1)
          else ik_num_readonly_signed_accounts k) (ik_num_readonly_unsigned_accounts k)
  else mkInstructionKeys (signed_keys k) (unsigned_keys k ++ [am_pubkey m])
         (ik_num_readonly_signed_accounts k)
         (if negb (am_is_writable m) then as_u8 (ik_num_readonly_unsigned_accounts k + 1)
          else ik_num_readonly_unsigned_accounts k).

(** All account metas of the instructions, the programs last, sorted, with the payer first. *)
Definition keys_and_signed (ixs : list Instruction) (payer : option Pubkey) : list AccountMeta :=
  let programs := (fun id => mkAccountMeta id false false) <$> get_program_ids ixs in
  let sorted := sort_metas ((ixs ≫= ix_accounts) ++ programs) in
  match payer with Some payer => mkAccountMeta payer true true :: sorted | None => sorted end.

Definition get_keys (ixs : list Instruction) (payer : option Pubkey) : InstructionKeys :=
  foldl count_meta (mkInstructionKeys [] [] 0 0) (unique_metas (keys_and_signed ixs payer)).

Definition Message_new_with_blockhash {E} (ixs : list Instruction) (payer : option Pubkey) (blockhash : Hash)
  : outcome E Message :=
  let ik := get_keys ixs payer in
  let num_required_signatures := as_u8 (Z.of_nat (length (signed_keys ik))) in
  let keys := signed_keys ik ++ unsigned_keys ik in
  compiled ← compile_instructions ixs keys;
  Ok (mkMessage
        (mkMessageHeader num_required_signatures (ik_num_readonly_signed_accounts ik)
           (ik_num_readonly_unsigned_accounts ik))
        keys blockhash compiled).

Definition Message_new {E} (ixs : list Instruction) (payer : option Pubkey) : outcome E Message :=
  Message_new_with_blockhash ixs payer Hash_default.

(** ** Legacy messages *)

(** [u8::try_from(key_index)] followed by a search in the instructions. *)
Definition is_key_passed_to_program (ixs : list CompiledInstruction) (key_index : nat) : bool :=
  if decide (key_index <= 255)%nat
  then existsb (fun ix => existsb (fun a => a =? Z.of_nat key_index) (ci_accounts ix)) ixs
  else false.

Definition is_key_called_as_program (ixs : list CompiledInstruction) (key_index : nat) : bool :=
  if decide (key_index <= 255)%nat
  then existsb (fun ix => ci_program_id_index ix =? Z.of_nat key_index) ixs
  else false.

Definition is_upgradeable_loader_present (keys : list Pubkey) : bool :=
  existsb (fun key => key =? bpf_loader_upgradeable_id) keys.

(** The index is writable by the header alone; the [u8] and [usize] subtractions wrap. *)
Definition writable_by_header (m : Message) (i : nat) : bool :=
  let h := header m in
  (Z.of_nat i <? as_u8 (num_required_signatures h - num_readonly_signed_accounts h))
  || ((num_required_signatures h <=? Z.of_nat i)
      && (Z.of_nat i <? sub64 (Z.of_nat (length (account_keys m))) (num_readonly_unsigned_accounts h))).

Definition Message_is_writable {E} (m : Message) (i : nat) : outcome E bool :=
  let demote_program_id :=
    is_key_called_as_program (instructions m) i && negb (is_upgradeable_loader_present (account_keys m)) in
  if writable_by_header m i then
    key ← unwrap (account_keys m !! i);
    Ok (negb (is_reserved_key key) && negb demote_program_id)
  else Ok false.

Definition Message_is_signer (m : Message) (i : nat) : bool :=
  Z.of_nat i <? num_required_signatures (header m).

Definition signer_keys (m : Message) : list Pubkey :=
  take (Nat.min (length (account_keys m)) (Z.to_nat (num_required_signatures (header m)))) (account_keys m).

(** For every [i] from 1 on, the key before position [i] is searched from there. *)
Fixpoint has_duplicates (keys : list Pubkey) : bool :=
  match keys with
  | [] => false
  | k :: rest => existsb (fun x => x =? k) rest || has_duplicates rest
  end.

(** The checks of one instruction in [sanitize]. *)
Definition sanitize_instruction (num_accounts : nat) (ci : CompiledInstruction) : outcome SanitizeError unit :=
  if negb (ci_program_id_index ci <? Z.of_nat num_accounts) then Err IndexOutOfBounds
  else if ci_program_id_index ci =? 0 then Err IndexOutOfBounds
  else if existsb (fun ai => negb (ai <? Z.of_nat num_accounts)) (ci_accounts ci) then Err IndexOutOfBounds
  else Ok tt.

(** Keys, hashes and instructions have no checks of their own. *)
Definition Message_sanitize (m : Message) : outcome SanitizeError unit :=
  let h := header m in
  if Z.of_nat (length (account_keys m)) <? num_required_signatures h + num_readonly_unsigned_accounts h
  then Err IndexOutOfBounds
  else if num_required_signatures h <=? num_readonly_signed_accounts h then Err IndexOutOfBounds
  else _ ← collect (sanitize_instruction (length (account_keys m))) (instructions m); Ok tt.

(** ** Version 0 messages *)

Record MessageAddressTableLookup : Type := mkLookup {
  lookup_account_key : Pubkey;
  writable_indexes : list Z;
  readonly_indexes : list Z;
}.

Record MessageV0 : Type := mkMessageV0 {
  v0_header : MessageHeader;
  v0_account_keys : list Pubkey;
  v0_recent_blockhash : Hash;
  v0_instructions : list CompiledInstruction;
  address_table_lookups : list MessageAddressTableLookup;
}.

Record LoadedAddresses : Type := mkLoadedAddresses {
  la_writable : list Pubkey;
  la_readonly : list Pubkey;
}.

Record LoadedMessage : Type := mkLoadedMessage {
  lm_message : MessageV0;
  lm_loaded : LoadedAddresses;
}.

(** The running count of [sanitize] over the lookups. *)
Fixpoint count_lookups (num_loaded : nat) (lookups : list MessageAddressTableLookup)
  : outcome SanitizeError nat :=
  match lookups with
  | [] => Ok num_loaded
  | l :: lookups =>
      let n := (length (writable_indexes l) + length (readonly_indexes l))%nat in
      if decide (n = 0%nat) then Err InvalidValue else count_lookups (num_loaded + n) lookups
  end.

Definition MessageV0_sanitize (m : MessageV0) : outcome SanitizeError unit :=
  let h := v0_header m in
  if Z.of_nat (length (v0_account_keys m)) <? num_required_signatures h + num_readonly_unsigned_accounts h
  then Err IndexOutOfBounds
  else if num_required_signatures h <=? num_readonly_signed_accounts h then Err InvalidValue
  else
    n ← count_lookups (length (v0_account_keys m)) (address_table_lookups m);
    if decide (256 < n)%nat then Err IndexOutOfBounds
    else _ ← collect (sanitize_instruction n) (v0_instructions m); Ok tt.

Definition account_keys_segments (m : LoadedMessage) : list (list Pubkey) :=
  [v0_account_keys (lm_message m); la_writable (lm_loaded m); la_readonly (lm_loaded m)].

Definition loaded_account_keys_len (m : LoadedMessage) : nat :=
  foldl (fun len segment => len + length segment)%nat 0%nat (account_keys_segments m).

Definition loaded_account_keys_iter (m : LoadedMessage) : list Pubkey := mjoin (account_keys_segments m).

(** [any(|x| !uniq.insert(x))] *)
Fixpoint any_seen (uniq keys : list Pubkey) : bool :=
  match keys with
  | [] => false
  | k :: keys => if bool_decide (k ∈ uniq) then true else any_seen (k :: uniq) keys
  end.

Definition loaded_has_duplicates (m : LoadedMessage) : bool := any_seen [] (loaded_account_keys_iter m).

Fixpoint get_key_in_segments (segments : list (list Pubkey)) (index : nat) : option Pubkey :=
  match segments with
  | [] => None
  | segment :: segments =>
      if decide (index < length segment)%nat then segment !! index
      else get_key_in_segments segments (index - length segment)
  end.

Definition loaded_get_account_key (m : LoadedMessage) (index : nat) : option Pubkey :=
  get_key_in_segments (account_keys_segments m) index.

Definition is_writable_index (m : LoadedMessage) (key_index : nat) : bool :=
  let h := v0_header (lm_message m) in
  let num_account_keys := length (v0_account_keys (lm_message m)) in
  let num_signed_accounts := Z.to_nat (num_required_signatures h) in
  if decide (num_account_keys <= key_index)%nat then
    bool_decide (key_index - num_account_keys < length (la_writable (lm_loaded m)))%nat
  else if decide (num_signed_accounts <= key_index)%nat then
    let num_unsigned_accounts := (num_account_keys - num_signed_accounts)%nat in
    let num_writable_unsigned_accounts :=
      (num_unsigned_accounts - Z.to_nat (num_readonly_unsigned_accounts h))%nat in
    bool_decide (key_index - num_signed_accounts < num_writable_unsigned_accounts)%nat
  else
    bool_decide (key_index < num_signed_accounts - Z.to_nat (num_readonly_signed_accounts h))%nat.

Definition loaded_is_writable (m : LoadedMessage) (key_index : nat) : bool :=
  if is_writable_index m key_index then
    match loaded_get_account_key m key_index with
    | Some key =>
        let demote_program_id :=
          is_key_called_as_program (v0_instructions (lm_message m)) key_index
          && negb (is_upgradeable_loader_present (loaded_account_keys_iter m)) in
        negb (is_reserved_key key || demote_program_id)
    | None => false
    end
  else false.

(** ** Sanitized messages *)

Inductive SanitizedMessage : Type :=
| Legacy (m : Message)
| V0 (m : LoadedMessage).

Definition SanitizedMessage_try_from (m : Message) : outcome SanitizeError SanitizedMessage :=
  _ ← Message_sanitize m; Ok (Legacy m).

Definition sm_header (m : SanitizedMessage) : MessageHeader :=
  match m with Legacy m => header m | V0 m => v0_header (lm_message m) end.

Definition sm_instructions (m : SanitizedMessage) : list CompiledInstruction :=
  match m with Legacy m => instructions m | V0 m => v0_instructions (lm_message m) end.

Definition sm_has_duplicates (m : SanitizedMessage) : bool :=
  match m with Legacy m => has_duplicates (account_keys m) | V0 m => loaded_has_duplicates m end.

Definition sm_account_keys_len (m : SanitizedMessage) : nat :=
  match m with Legacy m => length (account_keys m) | V0 m => loaded_account_keys_len m end.

Definition get_account_key (m : SanitizedMessage) (index : nat) : option Pubkey :=
  match m with Legacy m => account_keys m !! index | V0 m => loaded_get_account_key m index end.

Definition sm_is_writable {E} (m : SanitizedMessage) (index : nat) : outcome E bool :=
  match m with Legacy m => Message_is_writable m index | V0 m => Ok (loaded_is_writable m index) end.

Definition sm_is_signer (m : SanitizedMessage) (index : nat) : bool :=
  Z.of_nat index <? num_required_signatures (sm_header m).

Definition is_non_loader_key (m : SanitizedMessage) (key_index : nat) : bool :=
  negb (is_key_called_as_program (sm_instructions m) key_index)
  || is_key_passed_to_program (sm_instructions m) key_index.

Definition get_ix_signers (m : SanitizedMessage) (ix_index : nat) : list Pubkey :=
  match sm_instructions m !! ix_index with
  | None => []
  | Some ix =>
      omap (get_account_key m) (filter (fun i => sm_is_signer m i = true) (Z.to_nat <$> ci_accounts ix))
  end.

(** The instructions with their program ids. *)
Definition program_instructions_iter {E} (m : SanitizedMessage) : outcome E (list (Pubkey * CompiledInstruction)) :=
  collect (fun ix => k ← unwrap (get_account_key m (Z.to_nat (ci_program_id_index ix))); Ok (k, ix))
    (sm_instructions m).

Definition account_keys_iter (m : SanitizedMessage) : list Pubkey :=
  match m with Legacy m => account_keys m | V0 m => loaded_account_keys_iter m end.

Definition num_readonly_accounts (m : SanitizedMessage) : nat :=
  let mapped_readonly_addresses :=
    match m with Legacy _ => 0%nat | V0 m => length (la_readonly (lm_loaded m)) end in
  (mapped_readonly_addresses + Z.to_nat (num_readonly_signed_accounts (sm_header m))
   + Z.to_nat (num_readonly_unsigned_accounts (sm_header m)))%nat.

(** [u8::try_from(position?).ok()] *)
Definition try_position (m : SanitizedMessage) (key : Pubkey) : option Z :=
  i ← position_of (account_keys_iter m) key;
  if Z.of_nat i <=? U8_MAX then Some (Z.of_nat i) else None.

Definition try_compile_instruction (m : SanitizedMessage) (ix : Instruction) : option CompiledInstruction :=
  accounts ← mapM (fun meta => try_position m (am_pubkey meta)) (ix_accounts ix);
  program_id_index ← try_position m (ix_program_id ix);
  Some (mkCompiledInstruction program_id_index accounts (ix_data ix)).

(** [CompiledInstruction::decompile] *)
Definition decompile_meta (m : SanitizedMessage) (account_index : Z) : outcome InstructionError AccountMeta :=
  let account_index := Z.to_nat account_index in
  is_writable ← sm_is_writable m account_index;
  pubkey ← ok_or MissingAccount (get_account_key m account_index);
  Ok (mkAccountMeta pubkey (sm_is_signer m account_index) is_writable).

Definition decompile (ix : CompiledInstruction) (m : SanitizedMessage) : outcome InstructionError Instruction :=
  program_id ← ok_or MissingAccount (get_account_key m (Z.to_nat (ci_program_id_index ix)));
  accounts ← collect (decompile_meta m) (ci_accounts ix);
  Ok (mkInstruction program_id accounts (ci_data ix)).
