(* ===== verification/MessageSpec.v ===== *)
(** * Compilation of messages

    What the keys, the signer prefix and the read-only counts of a compiled
    message say about the instructions it was compiled from, and the agreement
    of the two message versions. *)
From stdpp Require Import base numbers option list sorting sets.
From S2P Require Import Prelude Instruction Account Message.

(** ** The unique metas *)

(** Whether some meta of a key is writable. *)
Definition any_writable (l : list AccountMeta) (key : Pubkey) : bool :=
  existsb (fun m => (am_pubkey m =? key) && am_is_writable m) l.

(** A meta with the write access of all metas of its key. *)
Definition promoted (l : list AccountMeta) (m : AccountMeta) : AccountMeta :=
  mkAccountMeta (am_pubkey m) (am_is_signer m) (am_is_writable m || any_writable l (am_pubkey m)).

(** The first meta of each key. *)
Fixpoint first_metas (seen : list Pubkey) (l : list AccountMeta) : list AccountMeta :=
  match l with
  | [] => []
  | m :: l =>
      if bool_decide (am_pubkey m ∈ seen) then first_metas seen l
      else m :: first_metas (seen ++ [am_pubkey m]) l
  end.

Lemma first_metas_fresh seen l m : m ∈ first_metas seen l -> am_pubkey m ∉ seen.
Proof.
  revert seen. induction l as [|x l IH]; intros seen; cbn; [by rewrite elem_of_nil|].
  case_bool_decide; [apply IH|]. rewrite elem_of_cons. intros [->|Hm]; [done|].
  apply IH in Hm. set_solver.
Qed.

Lemma first_metas_sub seen l m : m ∈ first_metas seen l -> m ∈ l.
Proof.
  revert seen. induction l as [|x l IH]; intros seen; cbn; [done|].
  case_bool_decide; rewrite ?elem_of_cons; intros; [right; by eapply IH|]. destruct H0; [by left|right; by eapply IH].
Qed.

Lemma first_metas_keys seen l k :
  k ∈ am_pubkey <$> first_metas seen l <-> k ∈ am_pubkey <$> l /\ k ∉ seen.
Proof.
  revert seen. induction l as [|x l IH]; intros seen; cbn; [set_solver|].
  case_bool_decide as Hs; [rewrite IH; set_solver|]. cbn. rewrite !elem_of_cons, IH.
  destruct (decide (k = am_pubkey x)) as [->|]; set_solver.
Qed.

Lemma first_metas_NoDup seen l : NoDup (am_pubkey <$> first_metas seen l).
Proof.
  revert seen. induction l as [|x l IH]; intros seen; cbn; [constructor|].
  case_bool_decide; [done|]. cbn. constructor; [|done].
  rewrite first_metas_keys. set_solver.
Qed.

Lemma first_metas_sorted (R : AccountMeta -> AccountMeta -> Prop) seen l :
  StronglySorted R l -> StronglySorted R (first_metas seen l).
Proof.
  intros Hs. revert seen. induction Hs as [|x l Hs IH Hf]; intros seen; cbn; [constructor|].
  case_bool_decide; [done|]. constructor; [done|]. rewrite Forall_forall in Hf |- *.
  intros y Hy%first_metas_sub. by apply Hf.
Qed.

Lemma promoted_other m l x : am_pubkey x ≠ am_pubkey m -> promoted (m :: l) x = promoted l x.
Proof.
  intros Hne. unfold promoted, any_writable. cbn. by rewrite (proj2 (Z.eqb_neq _ _)) by congruence.
Qed.

Lemma promoted_self m l : promoted (m :: l) m = promoted l m.
Proof.
  unfold promoted, any_writable. cbn. rewrite Z.eqb_refl. cbn. f_equal. by destruct (am_is_writable m).
Qed.

Lemma add_unique_new m acc : am_pubkey m ∉ am_pubkey <$> acc -> add_unique m acc = acc ++ [m].
Proof.
  induction acc as [|x acc IH]; cbn; [done|]. intros Hn. rewrite not_elem_of_cons in Hn.
  destruct (Z.eqb_spec (am_pubkey x) (am_pubkey m)) as [E|E]; [by destruct Hn|]. f_equal. apply IH. tauto.
Qed.

Lemma promoted_fmap_other m l (xs : list AccountMeta) : am_pubkey m ∉ am_pubkey <$> xs ->
  promoted (m :: l) <$> xs = promoted l <$> xs.
Proof.
  intros Hn. apply list_fmap_ext. intros i x Hx. apply promoted_other. intros E. apply Hn.
  rewrite <- E. apply list_elem_of_fmap. exists x. split; [done|by eapply list_elem_of_lookup_2].
Qed.

Lemma add_unique_old m l acc : am_pubkey m ∈ am_pubkey <$> acc -> NoDup (am_pubkey <$> acc) ->
  promoted l <$> add_unique m acc = promoted (m :: l) <$> acc /\
  am_pubkey <$> add_unique m acc = am_pubkey <$> acc.
Proof.
  induction acc as [|x acc IH]; cbn; intros Hin Hnd; [by apply not_elem_of_nil in Hin|].
  apply NoDup_cons in Hnd as [Hx Hnd]. destruct (Z.eqb_spec (am_pubkey x) (am_pubkey m)) as [E|E]; cbn.
  - split; [|done]. f_equal.
    + unfold promoted, any_writable. cbn. rewrite E, Z.eqb_refl. cbn. f_equal. by rewrite orb_assoc.
    + symmetry. apply promoted_fmap_other. by rewrite <- E.
  - apply elem_of_cons in Hin as [?|Hin]; [congruence|]. destruct (IH Hin Hnd) as [IH1 IH2].
    rewrite IH1, IH2. split; [|done]. by rewrite promoted_other.
Qed.

Lemma unique_metas_acc l acc : NoDup (am_pubkey <$> acc) ->
  foldl (fun acc m => add_unique m acc) acc l =
  promoted l <$> (acc ++ first_metas (am_pubkey <$> acc) l).
Proof.
  revert acc. induction l as [|m l IH]; intros acc Hnd; cbn.
  - rewrite app_nil_r. rewrite <- (list_fmap_id acc) at 1. apply list_fmap_ext. intros i [k s w] _.
    unfold promoted. cbn. by rewrite orb_false_r.
  - case_bool_decide as Hin.
    + destruct (add_unique_old m l acc Hin Hnd) as [Hp Hk]. rewrite IH by by rewrite Hk.
      rewrite !fmap_app, Hp, Hk. f_equal. symmetry. apply promoted_fmap_other.
      rewrite first_metas_keys. tauto.
    + rewrite add_unique_new by done. rewrite IH.
      2:{ rewrite fmap_app. apply NoDup_app. cbn. split; [done|]. split; [set_solver|apply NoDup_singleton]. }
      rewrite !fmap_app, !fmap_cons, !fmap_nil, <- app_assoc. cbn [app].
      rewrite promoted_self, !promoted_fmap_other; [done| |done]. rewrite first_metas_keys. set_solver.
Qed.

Lemma unique_metas_eq l : unique_metas l = promoted l <$> first_metas [] l.
Proof. unfold unique_metas. rewrite unique_metas_acc by constructor. done. Qed.

(** ** Sorting *)

Lemma stable_insert_elem m l x : x ∈ stable_insert m l <-> x = m \/ x ∈ l.
Proof.
  induction l as [|y l IH]; cbn; [set_solver|].
  destruct (meta_cmp m y); rewrite ?elem_of_cons, ?IH; set_solver.
Qed.

Lemma sort_metas_elem l x : x ∈ sort_metas l <-> x ∈ l.
Proof.
  unfold sort_metas. assert (forall acc, x ∈ foldl (fun acc m => stable_insert m acc) acc l <-> x ∈ acc \/ x ∈ l) as H.
  { induction l as [|m l IH]; intros acc; cbn; [set_solver|]. rewrite IH, stable_insert_elem. set_solver. }
  rewrite H. set_solver.
Qed.

(** The order of the sort: signers first, then writable accounts. *)
Definition meta_before (x y : AccountMeta) : Prop := meta_cmp y x ≠ Lt.

Lemma meta_before_spec x y : meta_before x y <->
  (am_is_signer y = true -> am_is_signer x = true) /\
  (am_is_signer x = am_is_signer y -> am_is_writable y = true -> am_is_writable x = true).
Proof.
  unfold meta_before, meta_cmp. destruct x as [? [] []], y as [? [] []]; cbn; naive_solver.
Qed.

Lemma stable_insert_sorted m l : StronglySorted meta_before l -> StronglySorted meta_before (stable_insert m l).
Proof.
  induction 1 as [|x l Hs IH Hf]; cbn; [repeat constructor|].
  assert (meta_cmp m x = Lt \/ meta_cmp m x ≠ Lt) as [Hlt|Hge] by (destruct (meta_cmp m x); auto).
  - rewrite Hlt. constructor; [by constructor|].
    assert (meta_before m x) as Hmx.
    { apply meta_before_spec. revert Hlt. unfold meta_cmp. destruct m as [? [] []], x as [? [] []]; cbn; naive_solver. }
    constructor; [done|]. eapply Forall_impl; [exact Hf|]. intros y Hxy.
    rewrite meta_before_spec in *. destruct m as [? [] []], x as [? [] []], y as [? [] []]; cbn in *; naive_solver.
  - assert (match meta_cmp m x with Lt => m :: x :: l | _ => x :: stable_insert m l end = x :: stable_insert m l)
      as -> by by destruct (meta_cmp m x).
    constructor; [done|]. apply Forall_forall. intros y [->|Hy]%stable_insert_elem; [done|].
    rewrite Forall_forall in Hf. by apply Hf.
Qed.

Lemma sort_metas_sorted l : StronglySorted meta_before (sort_metas l).
Proof.
  unfold sort_metas. assert (forall acc, StronglySorted meta_before acc ->
    StronglySorted meta_before (foldl (fun acc m => stable_insert m acc) acc l)) as H.
  { induction l as [|m l IH]; intros acc Hs; cbn; [done|]. by apply IH, stable_insert_sorted. }
  apply H. constructor.
Qed.

Lemma keys_and_signed_sorted ixs payer : StronglySorted meta_before (keys_and_signed ixs payer).
Proof.
  unfold keys_and_signed. destruct payer as [payer|]; [|apply sort_metas_sorted].
  constructor; [apply sort_metas_sorted|]. apply Forall_forall. intros y _. apply meta_before_spec. done.
Qed.

(** In a list sorted by a flag, the flag tells the position. *)
Lemma sorted_index {A} (p : A -> bool) l i x :
  StronglySorted (fun x y => p y = true -> p x = true) l -> l !! i = Some x ->
  p x = true <-> (i < length (filter (fun x => p x = true) l))%nat.
Proof.
  intros Hs. revert i. induction Hs as [|y l Hs IH Hf]; intros i Hi; [done|].
  rewrite filter_cons. destruct i as [|i]; cbn in Hi.
  - injection Hi as ->. destruct (decide (p x = true)) as [Hp|Hp]; cbn; [split; [lia|done]|].
    split; [done|]. intros Hlt. destruct (filter _ l) as [|z f] eqn:E; [cbn in Hlt; lia|].
    assert (z ∈ filter (fun x => p x = true) l) as Hz by (rewrite E; left).
    apply list_elem_of_filter in Hz as [Hpz Hz]. rewrite Forall_forall in Hf. by apply (Hf z).
  - specialize (IH i Hi). destruct (decide (p y = true)) as [Hp|Hp]; cbn; [rewrite IH; lia|].
    assert (p x = true -> p y = true) as Hxy
      by (rewrite Forall_forall in Hf; apply Hf; by eapply list_elem_of_lookup_2).
    split; [intros Hpx; by destruct Hp; apply Hxy|]. intros Hlt. apply IH. lia.
Qed.

(** ** The counts *)

Definition signed (l : list AccountMeta) : list AccountMeta := filter (fun m => am_is_signer m = true) l.
Definition unsigned (l : list AccountMeta) : list AccountMeta := filter (fun m => am_is_signer m = false) l.
Definition readonly (l : list AccountMeta) : list AccountMeta := filter (fun m => am_is_writable m = false) l.
Definition writable (l : list AccountMeta) : list AccountMeta := filter (fun m => am_is_writable m = true) l.

Lemma writable_readonly l : (length (writable l) + length (readonly l) = length l)%nat.
Proof.
  induction l as [|[k s w] l IH]; [done|]. unfold writable, readonly in *.
  rewrite !filter_cons. cbn [am_is_writable]. destruct w; repeat case_decide; try done; cbn [length]; lia.
Qed.

Lemma as_u8_step a n : as_u8 (as_u8 (a + 1) + n) = as_u8 (a + (1 + n)).
Proof. unfold as_u8. rewrite Z.add_mod_idemp_l by lia. f_equal. lia. Qed.

Lemma count_metas l k :
  in_u8 (ik_num_readonly_signed_accounts k) -> in_u8 (ik_num_readonly_unsigned_accounts k) ->
  foldl count_meta k l =
  mkInstructionKeys (signed_keys k ++ (am_pubkey <$> signed l)) (unsigned_keys k ++ (am_pubkey <$> unsigned l))
    (as_u8 (ik_num_readonly_signed_accounts k + Z.of_nat (length (readonly (signed l)))))
    (as_u8 (ik_num_readonly_unsigned_accounts k + Z.of_nat (length (readonly (unsigned l))))).
Proof.
  assert (forall a, in_u8 a -> as_u8 (a + 0) = a) as H0
    by (intros a Ha; rewrite Z.add_0_r; apply Z.mod_small; u64).
  assert (forall a, in_u8 (as_u8 a)) as Hr
    by (intros a; unfold in_u8, as_u8, U8_MAX; pose proof (Z.mod_pos_bound a 256); lia).
  revert k. induction l as [|[pk s w] l IH]; intros [sk uk a b] Ha Hb.
  { unfold signed, unsigned, readonly. cbn -[as_u8]. by rewrite !app_nil_r, !H0. }
  cbn [foldl]. unfold signed, unsigned, readonly in *. rewrite !(filter_cons _ (mkAccountMeta pk s w)).
  cbn [am_is_signer]. unfold count_meta. cbn [am_is_signer am_is_writable am_pubkey].
  destruct s, w; repeat case_decide; try done; rewrite IH; clear IH;
    cbn [negb signed_keys unsigned_keys ik_num_readonly_signed_accounts
      ik_num_readonly_unsigned_accounts] in *; auto.
  all: rewrite ?(filter_cons _ (mkAccountMeta pk _ _)); cbn [am_is_writable]; repeat case_decide; try done;
    rewrite ?fmap_cons; cbn [am_pubkey length];
    rewrite <- ?app_assoc, ?as_u8_step, ?Nat2Z.inj_succ; cbn [app]; f_equal; f_equal; lia.
Qed.

(** ** What the instructions request *)

Definition wants_sign (ixs : list Instruction) (payer : option Pubkey) (k : Pubkey) : Prop :=
  payer = Some k \/ exists ix m, ix ∈ ixs /\ m ∈ ix_accounts ix /\ am_pubkey m = k /\ am_is_signer m = true.

Definition wants_write (ixs : list Instruction) (payer : option Pubkey) (k : Pubkey) : Prop :=
  payer = Some k \/ exists ix m, ix ∈ ixs /\ m ∈ ix_accounts ix /\ am_pubkey m = k /\ am_is_writable m = true.

(** No key is a read-only signer in some metas and writable only in others. *)
Definition no_promotion (ixs : list Instruction) (payer : option Pubkey) : Prop :=
  forall k, wants_sign ixs payer k -> wants_write ixs payer k ->
    payer = Some k \/ exists ix m, ix ∈ ixs /\ m ∈ ix_accounts ix /\ am_pubkey m = k /\
      am_is_signer m = true /\ am_is_writable m = true.

Lemma elem_of_metas ixs payer m : m ∈ keys_and_signed ixs payer <->
  (exists pk, payer = Some pk /\ m = mkAccountMeta pk true true) \/
  (exists ix, ix ∈ ixs /\ m ∈ ix_accounts ix) \/
  (exists pk, pk ∈ get_program_ids ixs /\ m = mkAccountMeta pk false false).
Proof.
  unfold keys_and_signed.
  assert (forall x, x ∈ sort_metas ((ixs ≫= ix_accounts) ++
    ((fun id => mkAccountMeta id false false) <$> get_program_ids ixs)) <->
    (exists ix, ix ∈ ixs /\ x ∈ ix_accounts ix) \/
    (exists pk, pk ∈ get_program_ids ixs /\ x = mkAccountMeta pk false false)) as Hs.
  { intros x. rewrite sort_metas_elem, elem_of_app, list_elem_of_bind, list_elem_of_fmap. naive_solver. }
  destruct payer as [p|]; rewrite ?elem_of_cons, Hs; naive_solver.
Qed.

Section compiled.
Context (ixs : list Instruction) (payer : option Pubkey).

Let metas := keys_and_signed ixs payer.
Let firsts := first_metas [] metas.
Let uniq := unique_metas metas.

Lemma wants_sign_metas k : wants_sign ixs payer k <-> exists m, m ∈ metas /\ am_pubkey m = k /\ am_is_signer m = true.
Proof.
  unfold wants_sign, metas. setoid_rewrite elem_of_metas. split.
  - intros [->|(ix & m & Hix & Hm & Hk & Hs)]; [exists (mkAccountMeta k true true); naive_solver|naive_solver].
  - intros (m & [(pk & -> & ->)|[(ix & Hix & Hm)|(pk & Hpk & ->)]] & Hk & Hs); cbn in *; naive_solver.
Qed.

Lemma wants_write_metas k : wants_write ixs payer k <-> exists m, m ∈ metas /\ am_pubkey m = k /\ am_is_writable m = true.
Proof.
  unfold wants_write, metas. setoid_rewrite elem_of_metas. split.
  - intros [->|(ix & m & Hix & Hm & Hk & Hs)]; [exists (mkAccountMeta k true true); naive_solver|naive_solver].
  - intros (m & [(pk & -> & ->)|[(ix & Hix & Hm)|(pk & Hpk & ->)]] & Hk & Hs); cbn in *; naive_solver.
Qed.

(** The first meta of a key precedes the others in the order of the sort. *)
Lemma first_before l seen m x : StronglySorted meta_before l -> m ∈ first_metas seen l -> x ∈ l ->
  am_pubkey x = am_pubkey m -> meta_before m x.
Proof.
  intros Hs. revert seen. induction Hs as [|y l Hs IH Hf]; intros seen; cbn; [by rewrite elem_of_nil|].
  rewrite elem_of_cons. case_bool_decide as Hy; intros Hm Hx Hk.
  - destruct Hx as [->|Hx]; [|by eapply IH]. apply first_metas_fresh in Hm. congruence.
  - apply elem_of_cons in Hm as [->|Hm].
    + destruct Hx as [->|Hx]; [|rewrite Forall_forall in Hf; by apply Hf]. apply meta_before_spec. done.
    + destruct Hx as [->|Hx]; [|by eapply IH]. apply first_metas_fresh in Hm. set_solver.
Qed.

Lemma uniq_signer m : m ∈ uniq -> am_is_signer m = true <-> wants_sign ixs payer (am_pubkey m).
Proof.
  unfold uniq. rewrite unique_metas_eq, list_elem_of_fmap. intros (f & -> & Hf). cbn.
  rewrite wants_sign_metas. split.
  - intros Hs. exists f. split; [by eapply first_metas_sub|done].
  - intros (x & Hx & Hk & Hs).
    pose proof (first_before _ _ _ _ (keys_and_signed_sorted ixs payer) Hf Hx Hk) as Hb.
    apply meta_before_spec in Hb as [Hb _]. by apply Hb.
Qed.

Lemma uniq_writable m : m ∈ uniq -> am_is_writable m = true <-> wants_write ixs payer (am_pubkey m).
Proof.
  unfold uniq. rewrite unique_metas_eq, list_elem_of_fmap. intros (f & -> & Hf). cbn.
  rewrite wants_write_metas, orb_true_iff. unfold any_writable. rewrite existsb_exists. split.
  - intros [Hw|(x & Hx & [Hk Hw]%andb_true_iff)].
    + exists f. split; [by eapply first_metas_sub|done].
    + exists x. split; [by apply list_elem_of_In|]. split; [by apply Z.eqb_eq|done].
  - intros (x & Hx & Hk & Hw). right. exists x. split; [by apply list_elem_of_In|].
    by rewrite Hk, Z.eqb_refl.
Qed.

(** Without promotion, the unique metas are the first ones, and sorted. *)
Lemma uniq_firsts : no_promotion ixs payer -> uniq = firsts.
Proof.
  intros Hnp. unfold uniq, firsts. rewrite unique_metas_eq. rewrite <- (list_fmap_id (first_metas [] metas)) at 2.
  apply list_fmap_ext. intros i f Hi. apply list_elem_of_lookup_2 in Hi.
  destruct f as [k s w]. unfold promoted. cbn. f_equal.
  destruct w; [done|]. cbn. apply not_true_iff_false. intros Hany.
  unfold any_writable in Hany. apply existsb_exists in Hany as (x & Hx & [Hk Hw]%andb_true_iff).
  apply list_elem_of_In in Hx. apply Z.eqb_eq in Hk.
  assert (forall y, y ∈ metas -> am_pubkey y = k -> am_is_signer y = s -> am_is_writable y = false) as Hsame.
  { intros y Hy Hyk Hys.
    pose proof (first_before _ _ _ _ (keys_and_signed_sorted ixs payer) Hi Hy Hyk) as Hb.
    apply meta_before_spec in Hb as [_ Hb]. cbn in Hb. destruct (am_is_writable y); [|done]. by rewrite Hb. }
  destruct s.
  - destruct (Hnp k) as [Hp|(ix & m & Hix & Hm & Hmk & Hms & Hmw)].
    + apply wants_sign_metas. exists (mkAccountMeta k true false). split; [by eapply first_metas_sub|done].
    + apply wants_write_metas. eauto.
    + assert (true = false) as E; [|done]. apply (Hsame (mkAccountMeta k true true)); [|done|done].
      apply elem_of_metas. left. eauto.
    + assert (am_is_writable m = false); [|congruence]. apply Hsame; [|done|done].
      apply elem_of_metas. right. left. eauto.
  - pose proof (first_before _ _ _ _ (keys_and_signed_sorted ixs payer) Hi Hx Hk) as Hb.
    apply meta_before_spec in Hb as [Hb1 Hb2]. cbn in *. destruct (am_is_signer x) eqn:Hxs; [by specialize (Hb1 eq_refl)|].
    by specialize (Hb2 eq_refl Hw).
Qed.
End compiled.

(** ** Indices *)

Lemma position_of_Some keys k : k ∈ keys -> exists i, position_of keys k = Some i /\ keys !! i = Some k.
Proof.
  induction keys as [|x keys IH]; [by rewrite elem_of_nil|]. cbn. intros Hk.
  destruct (Z.eqb_spec x k) as [->|Hne]; [by exists 0%nat|].
  apply elem_of_cons in Hk as [?|Hk]; [congruence|]. destruct (IH Hk) as (i & -> & Hi). by exists (S i).
Qed.

Lemma collect_Ok {E A B} (f : A -> outcome E B) (P : A -> B -> Prop) l :
  (forall x, x ∈ l -> exists y, f x = Ok y /\ P x y) -> exists ys, collect f l = Ok ys /\ Forall2 P l ys.
Proof.
  induction l as [|x l IH]; intros Hf; [by exists []|].
  destruct (Hf x) as (y & Hy & HP); [left|]. destruct IH as (ys & Hys & HPs); [intros; apply Hf; by right|].
  exists (y :: ys). cbn. rewrite Hy. cbn. rewrite Hys. auto.
Qed.

(** An index of a compiled instruction resolves to the key it was compiled from. *)
Definition resolves (keys : list Pubkey) (index : Z) (k : Pubkey) : Prop := keys !! Z.to_nat index = Some k.

Lemma position_Ok {E} keys k : (length keys <= 256)%nat -> k ∈ keys ->
  exists i, position (E := E) keys k = Ok i /\ resolves keys i k.
Proof.
  intros Hl Hk. destruct (position_of_Some keys k Hk) as (i & Hp & Hi).
  exists (as_u8 (Z.of_nat i)). unfold position. rewrite Hp. split; [done|].
  pose proof (lookup_lt_Some _ _ _ Hi). unfold resolves, as_u8. rewrite Z.mod_small by lia. by rewrite Nat2Z.id.
Qed.

(** A compiled instruction stands for the original one. *)
Definition compiled_from (keys : list Pubkey) (ix : Instruction) (ci : CompiledInstruction) : Prop :=
  resolves keys (ci_program_id_index ci) (ix_program_id ix) /\ ci_data ci = ix_data ix /\
  Forall2 (fun m i => resolves keys i (am_pubkey m)) (ix_accounts ix) (ci_accounts ci).

Lemma compile_instruction_Ok {E} ix keys : (length keys <= 256)%nat ->
  ix_program_id ix ∈ keys -> (forall m, m ∈ ix_accounts ix -> am_pubkey m ∈ keys) ->
  exists ci, compile_instruction (E := E) ix keys = Ok ci /\ compiled_from keys ix ci.
Proof.
  intros Hl Hp Ha. unfold compile_instruction.
  destruct (collect_Ok (E := E) (fun m => position keys (am_pubkey m))
    (fun m i => resolves keys i (am_pubkey m)) (ix_accounts ix)) as (accs & Haccs & HP).
  { intros m Hm. apply position_Ok; auto. }
  destruct (position_Ok (E := E) keys (ix_program_id ix) Hl Hp) as (pi & Hpi & Hr).
  rewrite Haccs. cbn. rewrite Hpi. eexists. split; [done|]. by split_and!.
Qed.

Lemma keep_first_elem seen l k : k ∈ keep_first seen l <-> k ∈ l /\ k ∉ seen.
Proof.
  revert seen. induction l as [|x l IH]; intros seen; cbn; [set_solver|].
  case_bool_decide; rewrite ?elem_of_cons, IH; [set_solver|].
  destruct (decide (k = x)) as [->|]; set_solver.
Qed.

Section keys.
Context (ixs : list Instruction) (payer : option Pubkey).

Let uniq := unique_metas (keys_and_signed ixs payer).

(** The keys of the message: the signed ones first. *)
Definition message_keys : list Pubkey := (am_pubkey <$> signed uniq) ++ (am_pubkey <$> unsigned uniq).

Lemma signed_unsigned_perm (l : list AccountMeta) : signed l ++ unsigned l ≡ₚ l.
Proof.
  induction l as [|[k s w] l IH]; [done|]. unfold signed, unsigned in *.
  rewrite !filter_cons. cbn [am_is_signer]. destruct s; repeat case_decide; try done; cbn [app].
  - by f_equiv.
  - by rewrite <- Permutation_middle, IH.
Qed.

Lemma message_keys_perm : message_keys ≡ₚ am_pubkey <$> uniq.
Proof. unfold message_keys. rewrite <- fmap_app. by rewrite signed_unsigned_perm. Qed.

Lemma uniq_keys : am_pubkey <$> uniq = am_pubkey <$> first_metas [] (keys_and_signed ixs payer).
Proof. unfold uniq. rewrite unique_metas_eq, <- list_fmap_compose. by apply list_fmap_ext. Qed.

Lemma message_keys_NoDup : NoDup message_keys.
Proof. rewrite message_keys_perm, uniq_keys. apply first_metas_NoDup. Qed.

Lemma message_keys_elem m : m ∈ keys_and_signed ixs payer -> am_pubkey m ∈ message_keys.
Proof.
  intros Hm. rewrite message_keys_perm, uniq_keys, first_metas_keys. split; [|set_solver].
  apply list_elem_of_fmap. eauto.
Qed.

Lemma get_keys_eq : (length message_keys <= 255)%nat ->
  get_keys ixs payer = mkInstructionKeys (am_pubkey <$> signed uniq) (am_pubkey <$> unsigned uniq)
    (Z.of_nat (length (readonly (signed uniq)))) (Z.of_nat (length (readonly (unsigned uniq)))).
Proof.
  intros Hl. unfold get_keys. fold uniq. rewrite count_metas by (unfold in_u8, U8_MAX; cbn; lia).
  unfold message_keys in Hl. rewrite length_app, !length_fmap in Hl.
  pose proof (writable_readonly (signed uniq)). pose proof (writable_readonly (unsigned uniq)).
  cbn [signed_keys unsigned_keys ik_num_readonly_signed_accounts ik_num_readonly_unsigned_accounts app].
  unfold as_u8. by rewrite !Z.add_0_l, !Z.mod_small by lia.
Qed.

Lemma Message_new_Ok {E} blockhash : (length message_keys <= 255)%nat ->
  exists m, Message_new_with_blockhash (E := E) ixs payer blockhash = Ok m /\
    account_keys m = message_keys /\
    header m = mkMessageHeader (Z.of_nat (length (signed uniq)))
      (Z.of_nat (length (readonly (signed uniq)))) (Z.of_nat (length (readonly (unsigned uniq)))) /\
    recent_blockhash m = blockhash /\ Forall2 (compiled_from message_keys) ixs (instructions m).
Proof.
  intros Hl. unfold Message_new_with_blockhash. rewrite get_keys_eq by done.
  cbn [signed_keys unsigned_keys ik_num_readonly_signed_accounts ik_num_readonly_unsigned_accounts].
  fold message_keys.
  destruct (collect_Ok (E := E) (fun ix => compile_instruction ix message_keys)
    (compiled_from message_keys) ixs) as (cis & Hcis & HP).
  { intros ix Hix. apply compile_instruction_Ok; [lia| |].
    - apply (message_keys_elem (mkAccountMeta (ix_program_id ix) false false)).
      apply elem_of_metas. right. right. eexists. split; [|done].
      unfold get_program_ids. rewrite keep_first_elem. split; [|set_solver]. apply list_elem_of_fmap. eauto.
    - intros m Hm. apply message_keys_elem, elem_of_metas. right. left. eauto. }
  unfold compile_instructions. rewrite Hcis. cbn. eexists. split; [done|]. cbn. split; [done|].
  split; [|done]. f_equal. rewrite length_fmap. apply Z.mod_small.
  unfold message_keys in Hl. rewrite length_app, !length_fmap in Hl. lia.
Qed.

Lemma sorted_flags l P : StronglySorted meta_before l -> (forall x y, P x -> P y -> am_is_signer x = am_is_signer y) ->
  Forall P l -> StronglySorted (fun x y => am_is_writable y = true -> am_is_writable x = true) l.
Proof.
  intros Hs HP Hf. induction Hs as [|x l Hs IH Hb]; [constructor|].
  apply Forall_cons in Hf as [Hx Hf]. constructor; [by apply IH|].
  rewrite Forall_forall in Hf, Hb |- *. intros y Hy. destruct (proj1 (meta_before_spec x y) (Hb y Hy)) as [_ Hw].
  apply Hw, HP; auto.
Qed.

Lemma StronglySorted_filter {A} (R : A -> A -> Prop) (P : A -> Prop) `{!forall x, Decision (P x)} l :
  StronglySorted R l -> StronglySorted R (filter P l).
Proof.
  induction 1 as [|x l Hs IH Hf]; [constructor|]. rewrite filter_cons. case_decide; [|done].
  constructor; [done|]. rewrite Forall_forall in Hf |- *. intros y [_ Hy]%list_elem_of_filter. auto.
Qed.

(** The access of the key at an index, by the header. *)
Lemma header_access i m0 msg : (length message_keys <= 255)%nat -> no_promotion ixs payer ->
  account_keys msg = message_keys ->
  header msg = mkMessageHeader (Z.of_nat (length (signed uniq)))
      (Z.of_nat (length (readonly (signed uniq)))) (Z.of_nat (length (readonly (unsigned uniq)))) ->
  (signed uniq ++ unsigned uniq) !! i = Some m0 ->
  writable_by_header msg i = am_is_writable m0.
Proof.
  intros Hl Hnp Hk Hh Hi.
  assert (StronglySorted meta_before uniq) as Hsorted.
  { unfold uniq. rewrite uniq_firsts by done. apply first_metas_sorted, keys_and_signed_sorted. }
  pose proof (sorted_flags (signed uniq) (fun m => am_is_signer m = true) (StronglySorted_filter _ _ _ Hsorted)
    ltac:(congruence) ltac:(apply Forall_forall; intros x [Hx _]%list_elem_of_filter; done)) as Hs1.
  pose proof (sorted_flags (unsigned uniq) (fun m => am_is_signer m = false) (StronglySorted_filter _ _ _ Hsorted)
    ltac:(congruence) ltac:(apply Forall_forall; intros x [Hx _]%list_elem_of_filter; done)) as Hs2.
  pose proof (writable_readonly (signed uniq)) as Hc1. pose proof (writable_readonly (unsigned uniq)) as Hc2.
  pose proof Hl as Hl'. unfold message_keys in Hl'. rewrite length_app, !length_fmap in Hl'.
  unfold writable_by_header. rewrite Hk, Hh.
  cbn [num_required_signatures num_readonly_signed_accounts num_readonly_unsigned_accounts].
  assert (length message_keys = length (signed uniq) + length (unsigned uniq))%nat as Hlen
    by (unfold message_keys; by rewrite length_app, !length_fmap).
  rewrite Hlen. unfold as_u8. rewrite Z.mod_small, sub64_small by (unfold in_u64, U64_MAX; lia).
  apply eq_bool_prop_intro. rewrite !Is_true_true, orb_true_iff, andb_true_iff, !Z.ltb_lt, Z.leb_le.
  apply lookup_app_Some in Hi as [Hi|[Hge Hi]].
  - pose proof (lookup_lt_Some _ _ _ Hi). rewrite (sorted_index am_is_writable (signed uniq) i m0 Hs1 Hi).
    fold (writable (signed uniq)). lia.
  - pose proof (lookup_lt_Some _ _ _ Hi). rewrite (sorted_index am_is_writable (unsigned uniq) _ m0 Hs2 Hi).
    fold (writable (unsigned uniq)). lia.
Qed.
End keys.

(** The access that a compiled message gives to a key. *)
Lemma Message_new_access {E} ixs payer blockhash m i k :
  (length (message_keys ixs payer) <= 255)%nat ->
  Message_new_with_blockhash (E := E) ixs payer blockhash = Ok m -> account_keys m !! i = Some k ->
  (Message_is_signer m i = true <-> wants_sign ixs payer k) /\
  (no_promotion ixs payer -> writable_by_header m i = true <-> wants_write ixs payer k).
Proof.
  intros Hl Hm Hi. destruct (Message_new_Ok (E := E) ixs payer blockhash Hl) as (m' & Hm' & Hk & Hh & _).
  rewrite Hm in Hm'. injection Hm' as <-.
  pose proof Hi as Hi'. rewrite Hk in Hi'. unfold message_keys in Hi'. rewrite <- fmap_app in Hi'.
  apply list_lookup_fmap_Some in Hi' as (m0 & -> & Hm0).
  set (uniq := unique_metas (keys_and_signed ixs payer)) in *.
  assert (m0 ∈ uniq) as Hin.
  { rewrite <- (signed_unsigned_perm uniq). by eapply list_elem_of_lookup_2. }
  split.
  - rewrite <- (uniq_signer ixs payer m0 Hin). unfold Message_is_signer. rewrite Hh. cbn [num_required_signatures].
    fold uniq. rewrite Z.ltb_lt. apply lookup_app_Some in Hm0 as [Hm0|[Hge Hm0]].
    + pose proof (lookup_lt_Some _ _ _ Hm0). apply list_elem_of_lookup_2, list_elem_of_filter in Hm0 as [? _].
      split; [done|lia].
    + apply list_elem_of_lookup_2, list_elem_of_filter in Hm0 as [Hf _]. rewrite Hf. split; [lia|done].
  - intros Hnp. rewrite (header_access ixs payer i m0 m Hl Hnp Hk Hh Hm0).
    apply (uniq_writable ixs payer m0 Hin).
Qed.

(** ** Properties *)



(** The promotion of a read-only signer to writable does not move its key in
    front of the other read-only signers, while the header only counts: here
    key 1 is requested read-only and key 2 writable, and the compiled message
    makes key 1 writable and key 2 read-only. *)
Theorem promotion_swaps_access :
  let ixs := [mkInstruction 9
    [mkAccountMeta 1 true false; mkAccountMeta 2 true false; mkAccountMeta 2 false true] []] in
  ~ wants_write ixs None 1 /\ wants_write ixs None 2 /\
  exists m, Message_new (E := unit) ixs None = Ok m /\ Message_sanitize m = Ok tt /\
    account_keys m = [1; 2; 9] /\
    Message_is_writable (E := unit) m 0 = Ok true /\ Message_is_writable (E := unit) m 1 = Ok false.
Proof.
  cbv zeta. split; [|split].
  - intros [|(ix & m & Hix & Hm & Hk & Hw)]; [done|]. apply list_elem_of_singleton in Hix as ->. cbn in Hm.
    rewrite !elem_of_cons, elem_of_nil in Hm. destruct Hm as [->|[->|[->|[]]]]; done.
  - right. eexists _, (mkAccountMeta 2 false true). split; [left|]. split; [|done]. cbn. right. right. left.
  - eexists. split; [vm_compute; reflexivity|]. repeat split; vm_compute; reflexivity.
Qed.

(** *** The two versions *)

(** A legacy message as a version 0 message without lookups. *)
Definition as_v0 (m : Message) : LoadedMessage :=
  mkLoadedMessage (mkMessageV0 (header m) (account_keys m) (recent_blockhash m) (instructions m) [])
    (mkLoadedAddresses [] []).

Lemma get_key_in_segments_join segments i : get_key_in_segments segments i = mjoin segments !! i.
Proof.
  revert i. induction segments as [|seg segments IH]; intros i; cbn; [done|]. case_decide.
  - by rewrite lookup_app_l.
  - by rewrite IH, lookup_app_r by lia.
Qed.

Lemma any_seen_NoDup uniq keys : any_seen uniq keys = false <-> NoDup keys /\ (forall k, k ∈ keys -> k ∉ uniq).
Proof.
  revert uniq. induction keys as [|k keys IH]; intros uniq; cbn.
  - split; [|done]. intros _. split; [constructor|set_solver].
  - case_bool_decide as Hk; [split; [done|set_solver]|]. rewrite IH, NoDup_cons. set_solver.
Qed.

Lemma has_duplicates_NoDup keys : has_duplicates keys = false <-> NoDup keys.
Proof.
  induction keys as [|k keys IH]; cbn; [split; [constructor|done]|].
  rewrite orb_false_iff, IH, NoDup_cons. split; intros [H1 H2]; (split; [|done]).
  - intros Hin. assert (existsb (fun x => x =? k) keys = true) as E; [|congruence].
    apply existsb_exists. exists k. split; [by apply list_elem_of_In|apply Z.eqb_refl].
  - apply not_true_iff_false. intros (x & Hx & ->%Z.eqb_eq)%existsb_exists. by apply H1, list_elem_of_In.
Qed.

(** The header fields are bytes. *)
Definition header_u8 (h : MessageHeader) : Prop :=
  in_u8 (num_required_signatures h) /\ in_u8 (num_readonly_signed_accounts h) /\
  in_u8 (num_readonly_unsigned_accounts h).

(** A legacy message that passes the sanitizer and the version 0 message with
    the same contents and no lookups give every index the same key, the same
    signer flag and the same write access (which never panics), and agree on
    duplicate keys. *)
Theorem message_versions_agree {E} m i :
  header_u8 (header m) -> in_u64 (Z.of_nat (length (account_keys m))) -> Message_sanitize m = Ok tt ->
  sm_is_writable (E := E) (Legacy m) i = sm_is_writable (V0 (as_v0 m)) i /\
  sm_is_signer (Legacy m) i = sm_is_signer (V0 (as_v0 m)) i /\
  get_account_key (Legacy m) i = get_account_key (V0 (as_v0 m)) i /\
  sm_account_keys_len (Legacy m) = sm_account_keys_len (V0 (as_v0 m)) /\
  sm_has_duplicates (Legacy m) = sm_has_duplicates (V0 (as_v0 m)).
Proof.
  intros (H1 & H2 & H3) Hlen Hsan.
  assert (mjoin (account_keys_segments (as_v0 m)) = account_keys m) as Hj by (cbn; by rewrite app_nil_r).
  assert (loaded_get_account_key (as_v0 m) i = account_keys m !! i) as Hget
    by (unfold loaded_get_account_key; by rewrite get_key_in_segments_join, Hj).
  unfold Message_sanitize in Hsan. destruct (Z.ltb_spec (Z.of_nat (length (account_keys m)))
    (num_required_signatures (header m) + num_readonly_unsigned_accounts (header m))) as [|Hsz]; [done|].
  destruct (Z.leb_spec (num_required_signatures (header m)) (num_readonly_signed_accounts (header m))) as [|Hro]; [done|].
  split; [|split; [done|split; [by symmetry|split]]].
  - cbn [sm_is_writable]. unfold Message_is_writable, loaded_is_writable. rewrite Hget.
    assert (is_writable_index (as_v0 m) i = writable_by_header m i /\
      (writable_by_header m i = true -> (i < length (account_keys m))%nat)) as [-> Hlt].
    { unfold is_writable_index, writable_by_header, as_u8. cbn.
      unfold in_u8, U8_MAX in *. rewrite Z.mod_small, sub64_small by u64.
      repeat case_decide; zcases; cbn; try case_bool_decide; split; try done; lia. }
    destruct (writable_by_header m i); [|done].
    destruct (lookup_lt_is_Some_2 (account_keys m) i) as [k Hk]; [auto|]. rewrite Hk. cbn [unwrap mbind outcome_bind lm_message v0_instructions as_v0].
    unfold loaded_account_keys_iter. rewrite Hj. by rewrite negb_orb.
  - cbn. unfold loaded_account_keys_len. cbn. lia.
  - cbn [sm_has_duplicates]. unfold loaded_has_duplicates, loaded_account_keys_iter. rewrite Hj. apply eq_bool_prop_intro.
    destruct (has_duplicates (account_keys m)) eqn:E1, (any_seen [] (account_keys m)) eqn:E2; try done; exfalso.
    + apply any_seen_NoDup in E2 as [E2 _]. apply has_duplicates_NoDup in E2. congruence.
    + apply has_duplicates_NoDup in E1. assert (any_seen [] (account_keys m) = false); [|congruence].
      apply any_seen_NoDup. set_solver.
Qed.

Lemma message_versions_agree_witness :
  let m := mkMessage (mkMessageHeader 1 0 1) [1; 2; 9] 0 [mkCompiledInstruction 2 [0; 1] []] in
  sm_is_writable (E := unit) (Legacy m) 1 = sm_is_writable (V0 (as_v0 m)) 1.
Proof.
  apply (message_versions_agree (E := unit)
    (mkMessage (mkMessageHeader 1 0 1) [1; 2; 9] 0 [mkCompiledInstruction 2 [0; 1] []]) 1).
  - unfold header_u8. cbn. u64.
  - cbn. u64.
  - reflexivity.
Defined.
