(* ===== verification/PreAccount.v ===== *)
(** * Verification of accounts after an instruction

    [program-runtime/src/pre_account.rs]: what a program may do to an account,
    checked by comparing the account with its state before the instruction, and
    [accounts_data_meter.rs]: the account of the data space. The timing counters
    that [verify] also updates are not modelled. *)
From stdpp Require Import base numbers option list.
From S2P Require Import Prelude Instruction Account EpochSchedule Float64 Rent.

Record PreAccount : Type := mkPreAccount {
  pa_key : Pubkey;
  pa_account : AccountSharedData;
  pa_changed : bool;
}.

Definition PreAccount_new (key : Pubkey) (account : AccountSharedData) : PreAccount :=
  mkPreAccount key account false.

Definition MAX_PERMITTED_DATA_LENGTH : Z := 10 * 1024 * 1024.

Definition ZEROS_LEN : nat := 1024.

(** [chunks_exact(ZEROS_LEN)]: the full chunks and the remainder. The length of
    the buffer is enough fuel, since every chunk is not empty. *)
Fixpoint chunks_exact (fuel : nat) (buf : list Z) : list (list Z) * list Z :=
  match fuel with
  | O => ([], buf)
  | S fuel =>
      if decide (ZEROS_LEN <= length buf)%nat then
        let '(chunks, remainder) := chunks_exact fuel (drop ZEROS_LEN buf) in
        (take ZEROS_LEN buf :: chunks, remainder)
      else ([], buf)
  end.

Definition is_zeroed (buf : list Z) : bool :=
  let ZEROS := replicate ZEROS_LEN 0 in
  let '(chunks, remainder) := chunks_exact (length buf) buf in
  forallb (fun chunk => bool_decide (chunk = ZEROS)) chunks
  && bool_decide (remainder = take (length remainder) ZEROS).

(** The data length check, by the realloc feature; returns whether it changed. *)
Definition verify_data_len (program_id : Pubkey) (do_support_realloc : bool)
    (pre post : AccountSharedData) : outcome InstructionError bool :=
  let data_len_changed := negb (bool_decide (length (data pre) = length (data post))) in
  if do_support_realloc then
    if MAX_PERMITTED_DATA_LENGTH <? Z.of_nat (length (data post)) then Err InvalidRealloc
    else if data_len_changed && negb (program_id =? owner pre) then Err AccountDataSizeChanged
    else Ok data_len_changed
  else if data_len_changed
          && (negb (program_id =? system_program_id) || negb (owner pre =? system_program_id))
  then Err AccountDataSizeChanged
  else Ok data_len_changed.

Definition PreAccount_verify (self : PreAccount) (program_id : Pubkey) (is_writable : bool) (rent : Rent)
    (post : AccountSharedData) (do_support_realloc : bool) : outcome InstructionError unit :=
  let pre := pa_account self in
  let owner_changed := negb (owner pre =? owner post) in
  if owner_changed
     && (negb is_writable || executable pre || negb (program_id =? owner pre) || negb (is_zeroed (data post)))
  then Err ModifiedProgramId
  else if negb (program_id =? owner pre) && (lamports post <? lamports pre)
  then Err ExternalAccountLamportSpend
  else
    let lamports_changed := negb (lamports pre =? lamports post) in
    if lamports_changed && negb is_writable then Err ReadonlyLamportChange
    else if lamports_changed && executable pre then Err ExecutableLamportChange
    else
      data_len_changed ← verify_data_len program_id do_support_realloc pre post;
      if negb ((program_id =? owner pre) && is_writable && negb (executable pre))
         && negb (bool_decide (data pre = data post))
      then
        if executable pre then Err ExecutableDataModified
        else if is_writable then Err ExternalAccountDataModified
        else Err ReadonlyDataModified
      else
        let executable_changed := negb (eqb (executable pre) (executable post)) in
        if executable_changed && negb (is_exempt rent (lamports post) (Z.of_nat (length (data post))))
        then Err ExecutableAccountNotRentExempt
        else if executable_changed
                && (negb is_writable || executable pre || negb (program_id =? owner post))
        then Err ExecutableModified
        else if negb (rent_epoch pre =? rent_epoch post) then Err RentEpochModified
        else Ok tt.

Definition PreAccount_update (self : PreAccount) (account : AccountSharedData) : PreAccount :=
  mkPreAccount (pa_key self) (set_rent_epoch (rent_epoch (pa_account self)) account) true.

(** ** The accounts data meter *)

Definition MAX_ACCOUNTS_DATA_LEN : Z := 128000000000.

Record AccountsDataMeter : Type := mkAccountsDataMeter {
  adm_maximum : Z;
  adm_initial : Z;
  adm_delta : Z;
}.

Definition AccountsDataMeter_new (initial : Z) : AccountsDataMeter :=
  mkAccountsDataMeter MAX_ACCOUNTS_DATA_LEN initial 0.

(** [rhs as u64] of an [i64] is the two's complement. *)
Definition saturating_add_signed (lhs rhs : Z) : Z :=
  let sum := lhs + as_u64 rhs in
  let res := as_u64 sum in
  let overflow := U64_MAX <? sum in
  if eqb overflow (rhs <? 0) then res else if overflow then U64_MAX else 0.

Definition adm_current (m : AccountsDataMeter) : Z := saturating_add_signed (adm_initial m) (adm_delta m).

Definition adm_remaining (m : AccountsDataMeter) : Z := saturating_sub64 (adm_maximum m) (adm_current m).

Definition saturating_add_i64 (a b : Z) : Z := Z.max I64_MIN (Z.min I64_MAX (a + b)).

Definition saturating_sub_i64 (a b : Z) : Z := Z.max I64_MIN (Z.min I64_MAX (a - b)).

(** [u64 as i64] *)
Definition as_i64 (z : Z) : Z := if z <=? I64_MAX then z else z - 18446744073709551616.

Definition consume_unchecked (amount : Z) (m : AccountsDataMeter) : AccountsDataMeter :=
  mkAccountsDataMeter (adm_maximum m) (adm_initial m) (saturating_add_i64 (adm_delta m) amount).

Definition adm_consume (amount : Z) (m : AccountsDataMeter) : outcome InstructionError AccountsDataMeter :=
  if as_i64 (adm_remaining m) <? amount then Err MaxAccountsDataSizeExceeded
  else Ok (consume_unchecked amount m).

(** ** Correctness *)

Lemma zeros_len_pos : (0 < ZEROS_LEN)%nat.
Proof. unfold ZEROS_LEN. lia. Qed.

Lemma chunks_exact_spec fuel buf : (length buf <= fuel)%nat ->
  let '(chunks, remainder) := chunks_exact fuel buf in
  buf = mjoin chunks ++ remainder /\ (length remainder < ZEROS_LEN)%nat /\
  Forall (fun c => length c = ZEROS_LEN) chunks.
Proof.
  pose proof zeros_len_pos as Hz. revert buf. induction fuel as [|fuel IH]; intros buf Hl; cbn [chunks_exact].
  { split; [done|]. split; [lia|constructor]. }
  case_decide as Hd; [|split; [done|]; split; [lia|constructor]].
  specialize (IH (drop ZEROS_LEN buf)). rewrite length_drop in IH.
  destruct (chunks_exact fuel (drop ZEROS_LEN buf)) as [chunks remainder].
  destruct IH as (Heq & Hr & Hf); [lia|]. split_and!; [|done|constructor; [rewrite length_take; lia|done]].
  change (mjoin (take ZEROS_LEN buf :: chunks)) with (take ZEROS_LEN buf ++ mjoin chunks).
  by rewrite <- app_assoc, <- Heq, take_drop.
Qed.

Lemma all_zero_replicate (l : list Z) : Forall (fun x => x = 0) l <-> l = replicate (length l) 0.
Proof.
  split; [|intros ->; apply Forall_replicate; done].
  induction 1 as [|x l -> Hf IH]; [done|]. cbn. by f_equal.
Qed.

(** The chunked comparison is the check that every byte is zero. *)
Lemma is_zeroed_spec buf : is_zeroed buf = true <-> Forall (fun x => x = 0) buf.
Proof.
  unfold is_zeroed. pose proof (chunks_exact_spec (length buf) buf ltac:(lia)) as H.
  destruct (chunks_exact (length buf) buf) as [chunks remainder]. destruct H as (-> & Hr & Hf).
  rewrite andb_true_iff, bool_decide_eq_true, take_replicate, Nat.min_l by lia.
  assert (forallb (fun chunk => bool_decide (chunk = replicate ZEROS_LEN 0)) chunks = true <->
    Forall (fun x => x = 0) (mjoin chunks)) as Hc.
  { clear Hr. induction Hf as [|c chunks Hc Hf IH]; [split; [constructor|done]|].
    change (mjoin (c :: chunks)) with (c ++ mjoin chunks). cbn [forallb].
    by rewrite andb_true_iff, bool_decide_eq_true, Forall_app, all_zero_replicate, Hc, IH. }
  by rewrite Forall_app, <- all_zero_replicate, Hc.
Qed.

(** What a program may do to an account. *)
Record permitted (program_id : Pubkey) (is_writable : bool) (rent : Rent) (realloc : bool)
    (pre post : AccountSharedData) : Prop := {
  pm_owner : owner post ≠ owner pre ->
    is_writable = true /\ executable pre = false /\ program_id = owner pre /\ Forall (fun x => x = 0) (data post);
  pm_spend : lamports post < lamports pre -> program_id = owner pre;
  pm_lamports : lamports post ≠ lamports pre -> is_writable = true /\ executable pre = false;
  pm_size : if realloc
    then Z.of_nat (length (data post)) <= MAX_PERMITTED_DATA_LENGTH /\
         (length (data post) ≠ length (data pre) -> program_id = owner pre)
    else length (data post) ≠ length (data pre) ->
         program_id = system_program_id /\ owner pre = system_program_id;
  pm_data : data post ≠ data pre -> program_id = owner pre /\ is_writable = true /\ executable pre = false;
  pm_executable : executable post ≠ executable pre ->
    is_exempt rent (lamports post) (Z.of_nat (length (data post))) = true /\ is_writable = true /\
    executable pre = false /\ program_id = owner post;
  pm_rent_epoch : rent_epoch post = rent_epoch pre;
}.

Lemma verify_data_len_Ok program_id realloc pre post :
  is_ok (verify_data_len program_id realloc pre post) = true <->
  (if realloc
   then Z.of_nat (length (data post)) <= MAX_PERMITTED_DATA_LENGTH /\
        (length (data post) ≠ length (data pre) -> program_id = owner pre)
   else length (data post) ≠ length (data pre) ->
        program_id = system_program_id /\ owner pre = system_program_id).
Proof.
  unfold verify_data_len. destruct realloc.
  - destruct (Z.ltb_spec MAX_PERMITTED_DATA_LENGTH (Z.of_nat (length (data post)))); [split; [done|lia]|].
    case_bool_decide; cbn [is_ok andb orb negb]; [split; [|done]; intros _; split; [lia|intros; congruence]|].
    destruct (Z.eqb_spec program_id (owner pre)); cbn [is_ok andb orb negb]; split; try done. intros [_ H1]. by destruct n; apply H1.
  - case_bool_decide; cbn [is_ok andb orb negb]; [split; [|done]; intros; congruence|].
    destruct (Z.eqb_spec program_id system_program_id), (Z.eqb_spec (owner pre) system_program_id); cbn [is_ok andb orb negb];
      (split; [intros Hok Hne; try done|intros Himp; try done; destruct Himp; congruence]).
Qed.

Lemma if_err_Ok {E A} (b : bool) (e : E) (m : outcome E A) x :
  (if b then Err e else m) = Ok x <-> b = false /\ m = Ok x.
Proof. destruct b; naive_solver. Qed.

Lemma if_err3_Ok {E A} (b c d : bool) (e1 e2 e3 : E) (m : outcome E A) x :
  (if b then if c then Err e1 else if d then Err e2 else Err e3 else m) = Ok x <-> b = false /\ m = Ok x.
Proof. destruct b, c, d; naive_solver. Qed.

Lemma and_iff (P P' Q Q' : Prop) : (P <-> P') -> (Q <-> Q') -> (P /\ Q <-> P' /\ Q').
Proof. tauto. Qed.

(** The conditions of [verify] are those of [permitted], one by one. *)
Lemma verify_conditions self program_id is_writable rent post realloc :
  let pre := pa_account self in
  PreAccount_verify self program_id is_writable rent post realloc = Ok tt <->
  (owner post ≠ owner pre -> is_writable = true /\ executable pre = false /\ program_id = owner pre /\
     Forall (fun x => x = 0) (data post)) /\
  (lamports post < lamports pre -> program_id = owner pre) /\
  (lamports post ≠ lamports pre -> is_writable = true) /\
  (lamports post ≠ lamports pre -> executable pre = false) /\
  is_ok (verify_data_len program_id realloc pre post) = true /\
  (data post ≠ data pre -> program_id = owner pre /\ is_writable = true /\ executable pre = false) /\
  (executable post ≠ executable pre ->
     is_exempt rent (lamports post) (Z.of_nat (length (data post))) = true) /\
  (executable post ≠ executable pre -> is_writable = true /\ executable pre = false /\ program_id = owner post) /\
  rent_epoch post = rent_epoch pre.
Proof.
  intros pre. unfold PreAccount_verify. fold pre. rewrite !if_err_Ok, outcome_bind_Ok.
  pose proof (is_zeroed_spec (data post)) as Hz.
  assert (forall Q : Prop, (exists b, verify_data_len program_id realloc pre post = Ok b /\ Q) <->
    is_ok (verify_data_len program_id realloc pre post) = true /\ Q) as Hdl.
  { intros Q. destruct (verify_data_len program_id realloc pre post); naive_solver. }
  setoid_rewrite if_err3_Ok. setoid_rewrite if_err_Ok. setoid_rewrite if_err_Ok. setoid_rewrite if_err_Ok.
  rewrite Hdl, !andb_false_iff, !orb_false_iff, !negb_false_iff, !andb_true_iff, negb_true_iff, Hz, !Z.eqb_eq,
    Z.ltb_ge, bool_decide_eq_true, !eqb_true_iff.
  repeat apply and_iff.
  - destruct (decide (owner post = owner pre)); naive_solver.
  - destruct (decide (lamports post < lamports pre)); naive_solver lia.
  - destruct (decide (lamports post = lamports pre)); naive_solver.
  - destruct (decide (lamports post = lamports pre)); naive_solver.
  - done.
  - destruct (decide (data post = data pre)); naive_solver.
  - destruct (decide (executable post = executable pre)); naive_solver.
  - destruct (decide (executable post = executable pre)); naive_solver.
  - naive_solver.
Qed.

Lemma verify_sound self program_id is_writable rent post realloc :
  PreAccount_verify self program_id is_writable rent post realloc = Ok tt ->
  permitted program_id is_writable rent realloc (pa_account self) post.
Proof.
  rewrite verify_conditions, verify_data_len_Ok. intros (H1 & H2 & H3 & H4 & H5 & H6 & H7 & H8 & H9).
  split; auto; intros; split_and!; naive_solver.
Qed.

Lemma verify_complete self program_id is_writable rent post realloc :
  permitted program_id is_writable rent realloc (pa_account self) post ->
  PreAccount_verify self program_id is_writable rent post realloc = Ok tt.
Proof.
  rewrite verify_conditions, verify_data_len_Ok. intros [H1 H2 H3 H4 H5 H6 H7]. split_and!; naive_solver.
Qed.

(** C23. The check after an instruction accepts exactly the permitted changes: only
    the owner may spend lamports, change the data, give the account away (with
    its data zeroed) or make it executable; a read-only or executable account
    keeps its lamports and data; the size is bounded; nobody changes the rent
    epoch. *)
Theorem verify_permitted self program_id is_writable rent post realloc :
  PreAccount_verify self program_id is_writable rent post realloc = Ok tt <->
  permitted program_id is_writable rent realloc (pa_account self) post.
Proof. split; [apply verify_sound|apply verify_complete]. Qed.

(** A read-only account is untouched. *)
Lemma permitted_readonly program_id rent realloc pre post :
  permitted program_id false rent realloc pre post -> post = pre.
Proof.
  intros [H1 H2 H3 H4 H5 H6 H7]. destruct pre, post. cbn in *.
  f_equal; [..|done]; apply dec_stable; intros Hne; naive_solver.
Qed.

(** A program cannot take from, write to, or give away an account it does not own. *)
Lemma permitted_foreign program_id is_writable rent realloc pre post : program_id ≠ owner pre ->
  permitted program_id is_writable rent realloc pre post ->
  lamports pre <= lamports post /\ data post = data pre /\ owner post = owner pre /\
  executable post = executable pre.
Proof.
  intros Hne [H1 H2 H3 H4 H5 H6 H7].
  assert (owner post = owner pre) as Ho by (apply dec_stable; naive_solver).
  split_and!; [apply Z.le_ngt; naive_solver|apply dec_stable; naive_solver|done|].
  apply dec_stable. intros Hx. destruct (H6 Hx) as (_ & _ & _ & Hp). congruence.
Qed.

(** Accounts that a verified instruction of a program leaves behind: unless the
    program owns the account it has lost no lamports and has the same data,
    owner and executable flag; and if the account was not writable it is the
    same account. *)
Theorem verify_protects self program_id is_writable rent post realloc :
  PreAccount_verify self program_id is_writable rent post realloc = Ok tt ->
  (is_writable = false -> post = pa_account self) /\
  (program_id ≠ owner (pa_account self) ->
     lamports (pa_account self) <= lamports post /\ data post = data (pa_account self) /\
     owner post = owner (pa_account self) /\ executable post = executable (pa_account self)) /\
  (executable (pa_account self) = true -> post = pa_account self).
Proof.
  intros Hp%verify_sound.
  split; [intros ->; by eapply permitted_readonly|]. split; [intros Hne; by eapply permitted_foreign|].
  intros Hx. destruct Hp as [H1 H2 H3 H4 H5 H6 H7]. destruct (pa_account self) as [l d o x r], post. cbn in *.
  f_equal; [..|done]; apply dec_stable; intros Hne; naive_solver.
Qed.

Lemma verify_protects_witness :
  let pre := mkAccount 10 [1] 7 false 0 in
  lamports pre <= 15 /\ [1] = data pre.
Proof.
  destruct (verify_protects (PreAccount_new 3 (mkAccount 10 [1] 7 false 0)) 8 true Rent_default
    (mkAccount 15 [1] 7 false 0) true) as (_ & H & _); [reflexivity|].
  destruct H as (Hl & Hd & _); [done|]. split; [exact Hl|exact Hd].
Defined.

(** The meter counts exactly, and refuses exactly what does not fit. *)
Theorem accounts_data_meter_exact m amount :
  0 <= adm_initial m + adm_delta m <= adm_maximum m -> adm_maximum m <= I64_MAX ->
  0 <= adm_initial m <= adm_maximum m -> in_i64 (adm_delta m) -> in_i64 amount ->
  0 <= adm_initial m + adm_delta m + amount ->
  adm_current m = adm_initial m + adm_delta m /\
  adm_consume amount m =
    if adm_initial m + adm_delta m + amount <=? adm_maximum m
    then Ok (mkAccountsDataMeter (adm_maximum m) (adm_initial m) (adm_delta m + amount))
    else Err MaxAccountsDataSizeExceeded.
Proof.
  intros Hb Hmax Hi Hd Ha Hn. destruct m as [mx ini d]. unfold in_i64, I64_MIN, I64_MAX in *. cbn in *.
  assert (adm_current (mkAccountsDataMeter mx ini d) = ini + d) as Hc.
  { unfold adm_current, saturating_add_signed, as_u64. cbn. unfold U64_MAX.
    destruct (Z.ltb_spec d 0) as [Hneg|Hpos].
    - rewrite <- (Z_mod_plus_full d 1), (Z.mod_small (d + _)) by lia.
      rewrite (proj2 (Z.ltb_lt _ _)) by lia. cbn.
      rewrite <- (Z_mod_plus_full _ (-1)), Z.mod_small by lia. lia.
    - rewrite (Z.mod_small d) by lia. rewrite (proj2 (Z.ltb_ge _ _)) by lia. cbn. apply Z.mod_small. lia. }
  split; [done|]. unfold adm_consume, adm_remaining. rewrite Hc. cbn. unfold as_i64, I64_MAX, saturating_sub64.
  rewrite (proj2 (Z.leb_le _ _)) by lia. rewrite Z.max_l by lia.
  destruct (Z.ltb_spec (mx - (ini + d)) amount), (Z.leb_spec (ini + d + amount) mx); try lia; [done|].
  unfold consume_unchecked, saturating_add_i64, I64_MIN, I64_MAX. cbn. do 2 f_equal. lia.
Qed.

Lemma accounts_data_meter_exact_witness :
  adm_consume 50 (mkAccountsDataMeter 128000000000 100 (-40)) =
    Ok (mkAccountsDataMeter 128000000000 100 10).
Proof.
  apply (accounts_data_meter_exact (mkAccountsDataMeter 128000000000 100 (-40)) 50);
    unfold in_i64, I64_MIN, I64_MAX; cbn; lia.
Defined.
