(* ===== verification/ComputeBudget.v ===== *)
(** * The compute budget of a transaction

    [program-runtime/src/compute_budget.rs] with the instructions of
    [sdk/src/compute_budget.rs], and the errors of a transaction
    ([sdk/src/transaction/error.rs]). The borsh decoding of a compute budget
    instruction is a parameter. *)
From Stdlib Require Import String.
From stdpp Require Import base numbers option list.
From S2P Require Import Prelude Instruction Account Message.

Module TransactionError.
Inductive TransactionError : Type :=
| AccountInUse
| AccountLoadedTwice
| AccountNotFound
| ProgramAccountNotFound
| InsufficientFundsForFee
| InvalidAccountForFee
| AlreadyProcessed
| BlockhashNotFound
| InstructionError (index : Z) (e : InstructionError)
| CallChainTooDeep
| MissingSignatureForFee
| InvalidAccountIndex
| SignatureFailure
| InvalidProgramForExecution
| SanitizeFailure
| ClusterMaintenance
| AccountBorrowOutstanding
| WouldExceedMaxBlockCostLimit
| UnsupportedVersion
| InvalidWritableAccount
| WouldExceedMaxAccountCostLimit
| WouldExceedMaxAccountDataCostLimit
| TooManyAccountLocks
| AddressLookupTableNotFound
| InvalidAddressLookupTableOwner
| InvalidAddressLookupTableData
| InvalidAddressLookupTableIndex
| InvalidRentPayingAccount
| WouldExceedMaxVoteCostLimit.
End TransactionError.

Definition compute_budget_id : Pubkey := Eval vm_compute in pubkey_of "ComputeBudget111111111111111111111111111111".

Definition DEFAULT_UNITS : Z := 200000.
Definition MAX_UNITS : Z := 1400000.
Definition MAX_HEAP_FRAME_BYTES : Z := 256 * 1024.
Definition MIN_HEAP_FRAME_BYTES : Z := 32 * 1024.

Record ComputeBudget : Type := mkComputeBudget {
  max_units : Z;
  log_64_units : Z;
  create_program_address_units : Z;
  invoke_units : Z;
  max_invoke_depth : nat;
  sha256_base_cost : Z;
  sha256_byte_cost : Z;
  sha256_max_slices : Z;
  max_call_depth : nat;
  stack_frame_size : Z;
  log_pubkey_units : Z;
  max_cpi_instruction_size : Z;
  cpi_bytes_per_unit : Z;
  sysvar_base_cost : Z;
  secp256k1_recover_cost : Z;
  syscall_base_cost : Z;
  heap_size : option Z;
  heap_cost : Z;
  mem_op_base_cost : Z;
}.

Definition ComputeBudget_new (max_units : Z) : ComputeBudget := {|
  max_units := max_units;
  log_64_units := 100;
  create_program_address_units := 1500;
  invoke_units := 1000;
  max_invoke_depth := 4;
  sha256_base_cost := 85;
  sha256_byte_cost := 1;
  sha256_max_slices := 20000;
  max_call_depth := 64;
  stack_frame_size := 4096;
  log_pubkey_units := 100;
  max_cpi_instruction_size := 1280;
  cpi_bytes_per_unit := 250;
  sysvar_base_cost := 100;
  secp256k1_recover_cost := 25000;
  syscall_base_cost := 100;
  heap_size := None;
  heap_cost := 8;
  mem_op_base_cost := 10;
|}.

Definition ComputeBudget_default : ComputeBudget := ComputeBudget_new MAX_UNITS.

Definition set_max_units (x : Z) (b : ComputeBudget) : ComputeBudget :=
  let 'mkComputeBudget _ b2 b3 b4 b5 b6 b7 b8 b9 b10 b11 b12 b13 b14 b15 b16 b17 b18 b19 := b in
  mkComputeBudget x b2 b3 b4 b5 b6 b7 b8 b9 b10 b11 b12 b13 b14 b15 b16 b17 b18 b19.
Definition set_heap_size (x : option Z) (b : ComputeBudget) : ComputeBudget :=
  let 'mkComputeBudget b1 b2 b3 b4 b5 b6 b7 b8 b9 b10 b11 b12 b13 b14 b15 b16 _ b18 b19 := b in
  mkComputeBudget b1 b2 b3 b4 b5 b6 b7 b8 b9 b10 b11 b12 b13 b14 b15 b16 x b18 b19.

Inductive ComputeBudgetInstruction : Type :=
| RequestUnits (units additional_fee : Z)
| RequestHeapFrame (bytes : Z).

(** ** Processing a message *)

Section process_message.
(** [borsh::try_from_slice_unchecked] *)
Context (try_from_slice_unchecked : list Z -> option ComputeBudgetInstruction).

(** The locals of [process_message] and the heap size it sets. *)
Record BudgetLoop : Type := mkBudgetLoop {
  bl_num_instructions : Z;
  bl_requested_additional_fee : Z;
  bl_requested_units : option Z;
  bl_budget : ComputeBudget;
}.

Definition budget_error : TransactionError.TransactionError :=
  TransactionError.InstructionError 0 InvalidInstructionData.

Definition heap_frame_ok (requestable_heap_size : bool) (bytes : Z) : bool :=
  negb (negb requestable_heap_size || (MAX_HEAP_FRAME_BYTES <? bytes) || (bytes <? MIN_HEAP_FRAME_BYTES)
        || negb (bytes mod 1024 =? 0)).

(** One turn of the loop, for the instruction at [i]. *)
Definition budget_step (requestable_heap_size : bool) (i : nat) (program_id : Pubkey) (data : list Z)
  : SE BudgetLoop TransactionError.TransactionError unit :=
  if program_id =? compute_budget_id then
    _ ← modify (fun l => mkBudgetLoop (saturating_sub64 (bl_num_instructions l) 1)
                           (bl_requested_additional_fee l) (bl_requested_units l) (bl_budget l));
    if decide (i < 3)%nat then
      match try_from_slice_unchecked data with
      | Some (RequestUnits units additional_fee) =>
          modify (fun l => mkBudgetLoop (bl_num_instructions l) additional_fee (Some units) (bl_budget l))
      | Some (RequestHeapFrame bytes) =>
          _ ← ensure (heap_frame_ok requestable_heap_size bytes) budget_error;
          modify (fun l => mkBudgetLoop (bl_num_instructions l) (bl_requested_additional_fee l)
                             (bl_requested_units l) (set_heap_size (Some bytes) (bl_budget l)))
      | None => throw budget_error
      end
    else mret tt
  else mret tt.

Fixpoint budget_loop (requestable_heap_size : bool) (i : nat) (ixs : list (Pubkey * CompiledInstruction))
  : SE BudgetLoop TransactionError.TransactionError unit :=
  match ixs with
  | [] => mret tt
  | (program_id, ix) :: ixs =>
      _ ← budget_step requestable_heap_size i program_id (ci_data ix);
      budget_loop requestable_heap_size (S i) ixs
  end.

(** [ComputeBudget::process_message]: the additional fee, and the budget. *)
Definition budget_process_message (message : SanitizedMessage)
    (requestable_heap_size default_units_per_instruction : bool)
  : SE ComputeBudget TransactionError.TransactionError Z :=
  fun self =>
    match program_instructions_iter message with
    | Ok ixs =>
        let num_instructions := Z.of_nat (length (sm_instructions message)) in
        match budget_loop requestable_heap_size 0 ixs (mkBudgetLoop num_instructions 0 None self) with
        | (Ok _, l) =>
            let units :=
              if default_units_per_instruction
              then match bl_requested_units l with
                   | Some u => Some u
                   | None => Some (saturating_mul64 (bl_num_instructions l) DEFAULT_UNITS)
                   end
              else bl_requested_units l in
            let units := Z.min (default MAX_UNITS units) MAX_UNITS in
            (Ok (bl_requested_additional_fee l), set_max_units units (bl_budget l))
        | (Err e, l) => (Err e, bl_budget l)
        | (Panic, l) => (Panic, bl_budget l)
        end
    | Err e => (Err e, self)
    | Panic => (Panic, self)
    end.

(** ** Specification *)

#[local] Opaque compute_budget_id.

(** The requests that count: those of the first three instructions. [None] is
    one that does not decode. *)
Definition budget_requests (ixs : list (Pubkey * CompiledInstruction)) : list (option ComputeBudgetInstruction) :=
  (fun p => try_from_slice_unchecked (ci_data p.2)) <$> filter (fun p => p.1 = compute_budget_id) ixs.

Definition request_ok (requestable_heap_size : bool) (r : option ComputeBudgetInstruction) : bool :=
  match r with
  | None => false
  | Some (RequestUnits _ _) => true
  | Some (RequestHeapFrame bytes) => heap_frame_ok requestable_heap_size bytes
  end.

Definition units_request (r : option ComputeBudgetInstruction) : option (Z * Z) :=
  match r with Some (RequestUnits units fee) => Some (units, fee) | _ => None end.
Definition heap_request (r : option ComputeBudgetInstruction) : option Z :=
  match r with Some (RequestHeapFrame bytes) => Some bytes | _ => None end.

(** The last request of each kind wins. *)
Definition apply_requests (reqs : list (option ComputeBudgetInstruction)) (num_budget : Z) (l : BudgetLoop)
  : BudgetLoop :=
  mkBudgetLoop (saturating_sub64 (bl_num_instructions l) num_budget)
    (match last (omap units_request reqs) with Some (_, f) => f | None => bl_requested_additional_fee l end)
    (match last (omap units_request reqs) with Some (u, _) => Some u | None => bl_requested_units l end)
    (match last (omap heap_request reqs) with
     | Some b => set_heap_size (Some b) (bl_budget l) | None => bl_budget l end).

Lemma filter_lengths {A} (P : A -> Prop) `{!forall x, Decision (P x)} (l : list A) :
  (length (filter P l) + length (filter (fun x => ~ P x) l) = length l)%nat.
Proof.
  induction l as [|x l IH]; [done|]. rewrite !filter_cons.
  destruct (decide (P x)), (decide (~ P x)); try done; cbn [length]; lia.
Qed.

Lemma set_heap_size_twice a b x : set_heap_size a (set_heap_size b x) = set_heap_size a x.
Proof. by destruct x. Qed.

(** A turn and the rest, when the instruction is a request that counts. *)
Lemma apply_requests_cons heap r reqs n l : request_ok heap r = true -> 0 <= n ->
  apply_requests reqs n (apply_requests [r] 1 l) = apply_requests (r :: reqs) (n + 1) l.
Proof.
  intros Hr Hn. unfold apply_requests. cbn [bl_num_instructions bl_requested_additional_fee
    bl_requested_units bl_budget].
  assert (saturating_sub64 (saturating_sub64 (bl_num_instructions l) 1) n
          = saturating_sub64 (bl_num_instructions l) (n + 1)) as -> by (unfold saturating_sub64; lia).
  destruct r as [[u f|b]|]; [| |done]; cbn [omap list_omap units_request heap_request].
  - rewrite !last_cons. destruct (last (omap units_request reqs)) as [[]|]; done.
  - rewrite !last_cons. destruct (last (omap heap_request reqs)); cbn; [|done].
    by rewrite set_heap_size_twice.
Qed.

Lemma budget_step_other heap i id data l : id ≠ compute_budget_id ->
  budget_step heap i id data l = (Ok tt, l).
Proof. intros H. unfold budget_step. by rewrite (proj2 (Z.eqb_neq _ _)) by done. Qed.

Lemma budget_step_late heap i data l : (3 <= i)%nat ->
  budget_step heap i compute_budget_id data l = (Ok tt, apply_requests [] 1 l).
Proof.
  intros H. unfold budget_step. rewrite Z.eqb_refl. se_eval. rewrite decide_False by lia.
  by destruct l.
Qed.

Lemma budget_step_request heap i data l : (i < 3)%nat ->
  let r := try_from_slice_unchecked data in
  if request_ok heap r then budget_step heap i compute_budget_id data l = (Ok tt, apply_requests [r] 1 l)
  else fst (budget_step heap i compute_budget_id data l) = Err budget_error.
Proof.
  intros H r. unfold budget_step. rewrite Z.eqb_refl. se_eval. rewrite decide_True by done. subst r.
  destruct (try_from_slice_unchecked data) as [[u f|b]|]; cbn [request_ok]; [done| |done].
  by destruct (heap_frame_ok heap b).
Qed.

Lemma apply_requests_nil l : 0 <= bl_num_instructions l -> apply_requests [] 0 l = l.
Proof. destruct l. cbn. intros. unfold apply_requests, saturating_sub64. cbn. f_equal. lia. Qed.

Lemma apply_requests_skip reqs n l : 0 <= n ->
  apply_requests reqs n (apply_requests [] 1 l) = apply_requests reqs (n + 1) l.
Proof. intros. unfold apply_requests, saturating_sub64. cbn. f_equal. lia. Qed.

Lemma apply_requests_nonneg reqs n l : 0 <= bl_num_instructions (apply_requests reqs n l).
Proof. cbn. unfold saturating_sub64. lia. Qed.

(** The requests among the first instructions, by the first of them. *)
Lemma budget_requests_take k id ix ixs :
  budget_requests (take (S k) ((id, ix) :: ixs)) =
  (if decide (id = compute_budget_id) then [try_from_slice_unchecked (ci_data ix)] else [])
  ++ budget_requests (take k ixs).
Proof. unfold budget_requests. cbn [take]. rewrite filter_cons. cbn [fst]. by case_decide. Qed.

(** The loop applies the requests among the instructions that are left of the
    first three, or stops with the error. *)
Lemma budget_loop_spec heap i ixs l : 0 <= bl_num_instructions l ->
  let reqs := budget_requests (take (3 - i) ixs) in
  let n := Z.of_nat (length (filter (fun p => p.1 = compute_budget_id) ixs)) in
  if forallb (request_ok heap) reqs
  then budget_loop heap i ixs l = (Ok tt, apply_requests reqs n l)
  else fst (budget_loop heap i ixs l) = Err budget_error.
Proof.
  revert i l. induction ixs as [|[id ix] ixs IH]; intros i l Hl; cbn zeta.
  { rewrite take_nil. cbn. by rewrite apply_requests_nil. }
  cbn [budget_loop]. unfold mbind, SE_bind. rewrite filter_cons. cbn [fst].
  specialize (IH (S i)). cbn zeta in IH.
  destruct (decide (3 <= i)%nat) as [Hi|Hi].
  - replace (3 - i)%nat with 0%nat by lia. replace (3 - S i)%nat with 0%nat in IH by lia.
    rewrite take_0 in IH |- *. change (budget_requests []) with (@nil (option ComputeBudgetInstruction)) in *.
    cbn [forallb] in IH |- *.
    destruct (decide (id = compute_budget_id)) as [->|Hne].
    + rewrite budget_step_late by done. rewrite IH by apply apply_requests_nonneg.
      rewrite apply_requests_skip by lia. cbn [length]. do 2 f_equal. lia.
    + rewrite budget_step_other by done. by apply IH.
  - replace (3 - i)%nat with (S (3 - S i)) by lia. rewrite budget_requests_take.
    destruct (decide (id = compute_budget_id)) as [->|Hne]; cbn [app].
    + pose proof (budget_step_request heap i (ci_data ix) l ltac:(lia)) as Hs. cbn zeta in Hs.
      cbn [forallb length]. destruct (request_ok heap _) eqn:Hr; cbn [andb].
      * rewrite Hs. specialize (IH _ (apply_requests_nonneg [try_from_slice_unchecked (ci_data ix)] 1 l)).
        destruct (forallb _ _); [|done]. rewrite IH. f_equal.
        rewrite (apply_requests_cons heap) by (exact Hr || lia). f_equal. lia.
      * by destruct (budget_step heap i compute_budget_id (ci_data ix) l) as [[] ?].
    + rewrite budget_step_other by done. by apply IH.
Qed.

(** The budget a message asks for. Compute budget instructions beyond the third
    position are ignored; a request among the first three that does not decode,
    or asks for a heap that is not allowed, fails the transaction; the last
    request of each kind wins; without a request for units each other
    instruction counts for [DEFAULT_UNITS], or the maximum is used, by the
    feature; the units never exceed [MAX_UNITS]. *)
Theorem budget_process_message_correct message ixs requestable_heap_size default_units self :
  program_instructions_iter (E := TransactionError.TransactionError) message = Ok ixs ->
  let reqs := budget_requests (take 3 ixs) in
  let others := length (filter (fun p => p.1 ≠ compute_budget_id) ixs) in
  let r := budget_process_message message requestable_heap_size default_units self in
  if forallb (request_ok requestable_heap_size) reqs
  then r = (Ok (default 0 (snd <$> last (omap units_request reqs))),
            set_max_units
              (Z.min MAX_UNITS
                 (match last (omap units_request reqs) with
                  | Some (units, _) => units
                  | None => if default_units then Z.of_nat others * DEFAULT_UNITS else MAX_UNITS
                  end))
              (match last (omap heap_request reqs) with
               | Some bytes => set_heap_size (Some bytes) self
               | None => self
               end))
  else fst r = Err budget_error.
Proof.
  intros Hixs reqs others r. subst r. unfold budget_process_message. rewrite Hixs.
  assert (length (sm_instructions message) = length ixs) as Hlen.
  { unfold program_instructions_iter in Hixs. symmetry. by eapply collect_length. }
  pose proof (budget_loop_spec requestable_heap_size 0 ixs
    (mkBudgetLoop (Z.of_nat (length (sm_instructions message))) 0 None self)) as H.
  specialize (H ltac:(cbn; lia)). cbn zeta in H. change (take (3 - 0) ixs) with (take 3 ixs) in H. fold reqs in H.
  destruct (forallb _ reqs); [|destruct (budget_loop _ _ _ _) as [[] ?]; cbn in *; by simplify_eq].
  rewrite H. cbn [apply_requests bl_num_instructions bl_requested_additional_fee bl_requested_units bl_budget].
  assert (saturating_sub64 (Z.of_nat (length (sm_instructions message)))
            (Z.of_nat (length (filter (fun p => p.1 = compute_budget_id) ixs))) = Z.of_nat others) as ->.
  { rewrite Hlen. subst others. rewrite <- (filter_lengths (fun p => p.1 = compute_budget_id) ixs).
    unfold saturating_sub64. lia. }
  assert (forall x, Z.min (Z.min x U64_MAX) MAX_UNITS = Z.min MAX_UNITS x) as Hmin
    by (unfold U64_MAX, MAX_UNITS; lia).
  destruct (last (omap units_request reqs)) as [[u f]|]; cbn; destruct default_units; cbn;
    unfold saturating_mul64; rewrite ?Hmin, ?(Z.min_comm _ MAX_UNITS); reflexivity.
Qed.
End process_message.
#[local] Transparent compute_budget_id.

(** A concrete decoding, and a message with a request for units. *)
Module BudgetExample.
Definition decode (data : list Z) : option ComputeBudgetInstruction :=
  match data with
  | [0; units; fee] => Some (RequestUnits units fee)
  | [1; kib] => Some (RequestHeapFrame (kib * 1024))
  | _ => None
  end.

Definition message : SanitizedMessage :=
  Legacy (mkMessage (mkMessageHeader 1 0 2) [11; compute_budget_id; 33] 0
    [mkCompiledInstruction 1 [] [0; 90; 5]; mkCompiledInstruction 1 [] [1; 64];
     mkCompiledInstruction 2 [] []; mkCompiledInstruction 1 [] [7]]).

Lemma budget_process_message_correct_witness :
  budget_process_message decode message true true ComputeBudget_default =
    (Ok 5, set_max_units 90 (set_heap_size (Some 65536) ComputeBudget_default)).
Proof.
  assert (program_instructions_iter (E := TransactionError.TransactionError) message = Ok
    [(compute_budget_id, mkCompiledInstruction 1 [] [0; 90; 5]);
     (compute_budget_id, mkCompiledInstruction 1 [] [1; 64]);
     (33, mkCompiledInstruction 2 [] []); (compute_budget_id, mkCompiledInstruction 1 [] [7])]) as Hixs
    by (vm_compute; reflexivity).
  pose proof (budget_process_message_correct decode message _ true true ComputeBudget_default Hixs) as H.
  vm_compute in H. vm_compute. exact H.
Defined.
End BudgetExample.
