(* ===== verification/InvokeContext.v ===== *)
(** * The invoke context

    [program-runtime/src/invoke_context.rs]: the state of the execution of a
    transaction, the stack of the programs that call each other, the check of
    what each program did to the accounts, and cross-program invocation;
    [instruction_recorder.rs] and [CompiledInstruction::visit_each_account].
    Programs are state transformers of the context: the builtin programs and
    the native loader (which loads shared libraries) are arguments of the
    definitions that call them. Logging, timings, the executor cache and the
    [RefCell] borrows a program may leave open are not modelled. *)
From Stdlib Require Import String.
From stdpp Require Import base numbers option list gmap.
From S2P Require Import Prelude Instruction Account EpochSchedule Float64 Rent Sysvar Message PreAccount.
From S2P Require Import ComputeBudget.

Definition tx_wide_compute_cap : Pubkey := Eval vm_compute in pubkey_of "5ekBxc8itEnPv4NzGJtr8BVVQLNMQuLMNQQj7pHoLNZ9".
Definition neon_evm_compute_budget : Pubkey := Eval vm_compute in pubkey_of "GLrVvDPkQi5PMYUrsYWT9doZhSHr1BVZXqj5DbFps3rS".
Definition requestable_heap_size : Pubkey := Eval vm_compute in pubkey_of "CCu4boMmfLuqcmfTLPHQiUo22ZdUsXjgzPAURYaWt1Bw".
Definition remove_native_loader : Pubkey := Eval vm_compute in pubkey_of "HTTgmruMYRZEntyL3EdCDdnS6e4D5wRq1FA7kQsb66qq".
Definition neon_evm_program_id : Pubkey := Eval vm_compute in pubkey_of "eeLSJgWzzxrqKv1UxtRVVH8FX3qCQWUs9QuAjJpETGU".
Definition native_loader_id : Pubkey := Eval vm_compute in pubkey_of "NativeLoader1111111111111111111111111111111".

(** ** State *)

Record StackFrame : Type := mkStackFrame {
  number_of_program_accounts : nat;
  sf_keyed_accounts : list KeyedAccount;
  (** [keyed_accounts_range] *)
  range_start : nat;
  range_end : nat;
}.

Definition StackFrame_new (number_of_program_accounts : nat) (keyed_accounts : list KeyedAccount) : StackFrame :=
  mkStackFrame number_of_program_accounts keyed_accounts 0 (length keyed_accounts).

Definition frame_program_id (f : StackFrame) : option Pubkey :=
  unsigned_key <$> sf_keyed_accounts f !! (number_of_program_accounts f - 1)%nat.

(** [InstructionRecorder]: instructions with the stack height of the caller. *)
Abbreviation InstructionRecorder := (list (nat * Instruction)) (only parsing).

Record InvokeContext : Type := mkInvokeContext {
  (** The frames, the top of the stack first. *)
  invoke_stack : list StackFrame;
  ic_rent : Rent;
  pre_accounts : list PreAccount;
  ic_accounts : list (Pubkey * AccountSharedData);
  ic_sysvar_cache : SysvarCache;
  compute_budget : ComputeBudget;
  current_compute_budget : ComputeBudget;
  (** The units that remain in the [ComputeMeter]. *)
  compute_meter : Z;
  accounts_data_meter : AccountsDataMeter;
  instruction_trace : list InstructionRecorder;
  ic_feature_set : FeatureSet;
  ic_blockhash : Hash;
  ic_lamports_per_signature : Z;
  return_data : Pubkey * list Z;
}.

Abbreviation IM := (SE InvokeContext InstructionError).

Definition InvokeContext_new (rent : Rent) (accounts : list (Pubkey * AccountSharedData))
    (sysvar_cache : SysvarCache) (budget : ComputeBudget) (feature_set : FeatureSet) (blockhash : Hash)
    (lamports_per_signature initial_accounts_data_len : Z) : InvokeContext := {|
  invoke_stack := [];
  ic_rent := rent;
  pre_accounts := [];
  ic_accounts := accounts;
  ic_sysvar_cache := sysvar_cache;
  compute_budget := budget;
  current_compute_budget := budget;
  compute_meter := max_units budget;
  accounts_data_meter := AccountsDataMeter_new initial_accounts_data_len;
  instruction_trace := [];
  ic_feature_set := feature_set;
  ic_blockhash := blockhash;
  ic_lamports_per_signature := lamports_per_signature;
  return_data := (Pubkey_default, []);
|}.

Definition set_stack (x : list StackFrame) (c : InvokeContext) : InvokeContext :=
  let 'mkInvokeContext _ b d e f g h i j k l m n o := c in mkInvokeContext x b d e f g h i j k l m n o.
Definition set_pre_accounts (x : list PreAccount) (c : InvokeContext) : InvokeContext :=
  let 'mkInvokeContext a b _ e f g h i j k l m n o := c in mkInvokeContext a b x e f g h i j k l m n o.
Definition set_accounts (x : list (Pubkey * AccountSharedData)) (c : InvokeContext) : InvokeContext :=
  let 'mkInvokeContext a b d _ f g h i j k l m n o := c in mkInvokeContext a b d x f g h i j k l m n o.
Definition set_current_budget (x : ComputeBudget) (c : InvokeContext) : InvokeContext :=
  let 'mkInvokeContext a b d e f g _ i j k l m n o := c in mkInvokeContext a b d e f g x i j k l m n o.
Definition set_compute_meter (x : Z) (c : InvokeContext) : InvokeContext :=
  let 'mkInvokeContext a b d e f g h _ j k l m n o := c in mkInvokeContext a b d e f g h x j k l m n o.
Definition set_data_meter (x : AccountsDataMeter) (c : InvokeContext) : InvokeContext :=
  let 'mkInvokeContext a b d e f g h i _ k l m n o := c in mkInvokeContext a b d e f g h i x k l m n o.
Definition set_trace (x : list InstructionRecorder) (c : InvokeContext) : InvokeContext :=
  let 'mkInvokeContext a b d e f g h i j _ l m n o := c in mkInvokeContext a b d e f g h i j x l m n o.
Definition set_return_data (x : Pubkey * list Z) (c : InvokeContext) : InvokeContext :=
  let 'mkInvokeContext a b d e f g h i j k l m n _ := c in mkInvokeContext a b d e f g h i j k l m n x.

Definition feature (c : InvokeContext) (id : Pubkey) : bool := is_active (ic_feature_set c) id.

(** [ComputeMeter::consume] *)
Definition meter_consume (amount : Z) : SE Z InstructionError unit :=
  fun remaining =>
    (if remaining <? amount then Err ComputationalBudgetExceeded else Ok tt, saturating_sub64 remaining amount).

(** ** Accessors *)

Definition get_stack_height (c : InvokeContext) : nat := length (invoke_stack c).

Definition get_caller (c : InvokeContext) : outcome InstructionError Pubkey :=
  ok_or CallDepth (head (invoke_stack c) ≫= frame_program_id).

(** [&keyed_accounts[start..end]] *)
Definition slice {E A} (l : list A) (start stop : nat) : outcome E (list A) :=
  if decide (start <= stop <= length l)%nat then Ok (drop start (take stop l)) else Panic.

Definition get_keyed_accounts (c : InvokeContext) : outcome InstructionError (list KeyedAccount) :=
  frame ← ok_or CallDepth (head (invoke_stack c));
  slice (sf_keyed_accounts frame) (range_start frame) (range_end frame).

Definition get_instruction_keyed_accounts (c : InvokeContext) : outcome InstructionError (list KeyedAccount) :=
  frame ← ok_or CallDepth (head (invoke_stack c));
  slice (sf_keyed_accounts frame) (number_of_program_accounts frame) (length (sf_keyed_accounts frame)).

(** [KeyedAccount::owner] *)
Definition keyed_owner (c : InvokeContext) (k : KeyedAccount) : outcome InstructionError Pubkey :=
  entry ← unwrap (ic_accounts c !! account k); Ok (owner entry.2).

Definition get_loader (c : InvokeContext) : outcome InstructionError Pubkey :=
  frame ← ok_or CallDepth (head (invoke_stack c));
  first ← ok_or CallDepth
    (if decide (1 <= number_of_program_accounts frame)%nat then Some (number_of_program_accounts frame - 1)%nat
     else None);
  k ← unwrap (sf_keyed_accounts frame !! first);
  keyed_owner c k.

Definition remove_first_keyed_account : IM unit :=
  c ← get;
  if feature c remove_native_loader then mret tt
  else
    match invoke_stack c with
    | [] => throw CallDepth
    | f :: fs =>
        modify (set_stack (mkStackFrame (number_of_program_accounts f) (sf_keyed_accounts f)
                             (S (range_start f)) (range_end f) :: fs))
    end.

(** The last entry that satisfies [f], as [iter().enumerate().rev()] finds it. *)
Fixpoint rfind {A} (f : A -> bool) (l : list A) : option (nat * A) :=
  match l with
  | [] => None
  | x :: l =>
      match rfind f l with
      | Some (i, y) => Some (S i, y)
      | None => if f x then Some (0%nat, x) else None
      end
  end.

Definition get_account (c : InvokeContext) (pubkey : Pubkey) : option (nat * AccountSharedData) :=
  (fun p => (p.1, p.2.2)) <$> rfind (fun entry => entry.1 =? pubkey) (ic_accounts c).

(** Records into the last recorder of the trace. *)
Definition record_instruction (stack_height : nat) (instruction : Instruction) (c : InvokeContext) : InvokeContext :=
  match last (instruction_trace c) with
  | None => c
  | Some recorder =>
      set_trace (take (length (instruction_trace c) - 1) (instruction_trace c)
                 ++ [recorder ++ [(stack_height, instruction)]]) c
  end.

Definition TRANSACTION_LEVEL_STACK_HEIGHT : nat := 1.

Definition record_top_level_instruction (instruction : Instruction) (c : InvokeContext) : InvokeContext :=
  record_instruction TRANSACTION_LEVEL_STACK_HEIGHT instruction (set_trace (instruction_trace c ++ [[]]) c).

(** ** Visiting the accounts of an instruction *)

(** [CompiledInstruction::visit_each_account]: [before] are the indices already
    passed, [unique_index] counts the distinct ones. *)
Fixpoint visit_accounts {S} (work : nat -> nat -> SE S InstructionError unit) (before rest : list Z)
    (unique_index : nat) : SE S InstructionError unit :=
  match rest with
  | [] => mret tt
  | account_index :: rest =>
      if bool_decide (account_index ∈ before)
      then visit_accounts work (before ++ [account_index]) rest unique_index
      else
        _ ← work unique_index (Z.to_nat account_index);
        visit_accounts work (before ++ [account_index]) rest (unique_index + 1)
  end.

Definition visit_each_account {S} (instruction : CompiledInstruction)
    (work : nat -> nat -> SE S InstructionError unit) : SE S InstructionError unit :=
  visit_accounts work [] (ci_accounts instruction) 0.

(** ** Pushing and popping frames *)

Definition indexed_account (c : InvokeContext) (i : nat) : outcome InstructionError (Pubkey * AccountSharedData) :=
  unwrap (ic_accounts c !! i).

(** What [push] does at the bottom of the stack: the budget of the instruction
    and the states of its accounts before it. *)
Definition bumped_budget (c : InvokeContext) (program_id : option Pubkey) : ComputeBudget :=
  let neon := feature c neon_evm_compute_budget && bool_decide (program_id = Some neon_evm_program_id) in
  let b := compute_budget c in
  let b := if negb (feature c tx_wide_compute_cap) && neon
           then set_max_units (Z.max (max_units b) 500000) b else b in
  if negb (feature c requestable_heap_size) && neon then set_heap_size (Some (256 * 1024)) b else b.

Definition snapshot_account (_unique_index account_index : nat) : IM unit :=
  c ← get;
  match ic_accounts c !! account_index with
  | Some (key, account) => modify (set_pre_accounts (pre_accounts c ++ [PreAccount_new key account]))
  | None => throw MissingAccount
  end.

Definition push_first (instruction : CompiledInstruction) (program_id : option Pubkey) : IM unit :=
  c ← get;
  let b := bumped_budget c program_id in
  _ ← modify (set_current_budget b);
  _ ← (if feature c tx_wide_compute_cap then mret tt else modify (set_compute_meter (max_units b)));
  _ ← modify (set_pre_accounts []);
  visit_each_account instruction snapshot_account.

(** Reentrancy is not allowed unless the caller is calling itself. *)
Definition push_reentrancy (program_id : option Pubkey) : IM unit :=
  c ← get;
  let contains := existsb (fun f => bool_decide (frame_program_id f = program_id)) (invoke_stack c) in
  let is_last := match head (invoke_stack c) with
                 | Some f => bool_decide (frame_program_id f = program_id)
                 | None => false
                 end in
  ensure (negb (contains && negb is_last)) ReentrancyNotAllowed.

(** The keyed accounts of the program chain and of the instruction. *)
Definition program_keyed (c : InvokeContext) (account_index : nat) : outcome InstructionError KeyedAccount :=
  entry ← indexed_account c account_index;
  Ok (mkKeyedAccount false false entry.1 account_index).

Definition instruction_keyed (c : InvokeContext) (message : SanitizedMessage) (account_indices : list nat)
    (index_in_instruction : Z) : outcome InstructionError KeyedAccount :=
  let index_in_instruction := Z.to_nat index_in_instruction in
  account_index ← (match account_indices with
                   | [] => Ok index_in_instruction
                   | _ => unwrap (account_indices !! index_in_instruction)
                   end);
  is_writable ← sm_is_writable message index_in_instruction;
  entry ← indexed_account c account_index;
  Ok (mkKeyedAccount (sm_is_signer message index_in_instruction) is_writable entry.1 account_index).

Definition push (message : SanitizedMessage) (instruction : CompiledInstruction)
    (program_indices account_indices : list nat) : IM unit :=
  c ← get;
  _ ← ensure (bool_decide (length (invoke_stack c) <= max_invoke_depth (compute_budget c))%nat) CallDepth;
  program_id ← lift (match last program_indices with
                     | Some i => entry ← indexed_account c i; Ok (Some entry.1)
                     | None => Ok None
                     end);
  _ ← ensure (negb (bool_decide (program_id = None) && feature c reject_empty_instruction_without_program))
        UnsupportedProgramId;
  _ ← (match invoke_stack c with
       | [] => push_first instruction program_id
       | _ => push_reentrancy program_id
       end);
  programs ← lift (collect (program_keyed c) program_indices);
  keyed ← lift (collect (instruction_keyed c message account_indices) (ci_accounts instruction));
  modify (fun c => set_stack (StackFrame_new (length program_indices) (programs ++ keyed) :: invoke_stack c) c).

Definition pop (c : InvokeContext) : InvokeContext := set_stack (tail (invoke_stack c)) c.

(** ** Verification *)

(** The sums that [verify] and [verify_and_update] keep beside the context. *)
Record VerifyState : Type := mkVerifyState {
  pre_sum : Z;
  post_sum : Z;
  vs_context : InvokeContext;
}.
Abbreviation VM := (SE VerifyState InstructionError).


Definition add_sums (pre post : AccountSharedData) : VM unit :=
  s ← get;
  sum ← lift (ok_or UnbalancedInstruction (checked_add128 (pre_sum s) (lamports pre)));
  _ ← put (mkVerifyState sum (post_sum s) (vs_context s));
  sum' ← lift (ok_or UnbalancedInstruction (checked_add128 (post_sum s) (lamports post)));
  put (mkVerifyState sum sum' (vs_context s)).

(** Charges the growth from [pre] to [post] to the accounts data meter. *)
Definition charge_data_len (cap_accounts_data_len : bool) (pre post : AccountSharedData) : VM unit :=
  s ← get;
  let pre_data_len := Z.of_nat (length (data pre)) in
  let post_data_len := Z.of_nat (length (data post)) in
  let data_len_delta := saturating_sub_i64 post_data_len pre_data_len in
  let meter := accounts_data_meter (vs_context s) in
  meter' ← lift (if cap_accounts_data_len then adm_consume data_len_delta meter
                 else Ok (consume_unchecked data_len_delta meter));
  put (mkVerifyState (pre_sum s) (post_sum s) (set_data_meter meter' (vs_context s))).

Definition verify_account (program_id : Pubkey) (message : SanitizedMessage) (realloc cap : bool)
    (unique_index account_index : nat) : VM unit :=
  s ← get;
  let c := vs_context s in
  entry ← lift (indexed_account c account_index);
  pre_account ← lift (unwrap (pre_accounts c !! unique_index));
  is_writable ← lift (sm_is_writable message account_index);
  _ ← lift (PreAccount_verify pre_account program_id is_writable (ic_rent c) entry.2 realloc);
  _ ← add_sums (pa_account pre_account) entry.2;
  charge_data_len cap (pa_account pre_account) entry.2.

(** Runs the visits with the sums at zero and compares them at the end. *)
Definition balanced (visits : VM unit) : IM unit :=
  fun c =>
    match visits (mkVerifyState 0 0 c) with
    | (Ok _, s) => (if pre_sum s =? post_sum s then Ok tt else Err UnbalancedInstruction, vs_context s)
    | (Err e, s) => (Err e, vs_context s)
    | (Panic, s) => (Panic, vs_context s)
    end.

Definition verify (message : SanitizedMessage) (instruction : CompiledInstruction) (program_indices : list nat)
  : IM unit :=
  c ← get;
  program_id ← lift (unwrap (get_account_key message (Z.to_nat (ci_program_id_index instruction))));
  let realloc := feature c do_support_realloc in
  let cap := feature c cap_accounts_data_len in
  _ ← lift (collect (indexed_account c) program_indices);
  balanced (visit_each_account instruction (verify_account program_id message realloc cap)).

(** The matching [PreAccount] is verified, and replaced by the current state. *)
Definition verify_and_update_account (program_id : Pubkey) (account_indices : list nat)
    (write_privileges : list bool) (realloc cap : bool) (_unique_index index_in_instruction : nat) : VM unit :=
  s ← get;
  let c := vs_context s in
  match write_privileges !! index_in_instruction, account_indices !! index_in_instruction with
  | Some is_writable, Some account_index =>
      entry ← lift (indexed_account c account_index);
      match list_find (fun pa => pa_key pa = entry.1) (pre_accounts c) with
      | Some (i, pre_account) =>
          _ ← lift (PreAccount_verify pre_account program_id is_writable (ic_rent c) entry.2 realloc);
          _ ← add_sums (pa_account pre_account) entry.2;
          let pre_account' :=
            if is_writable && negb (executable (pa_account pre_account))
            then PreAccount_update pre_account entry.2 else pre_account in
          _ ← modify (fun s => mkVerifyState (pre_sum s) (post_sum s)
                (set_pre_accounts (<[i := pre_account']> (pre_accounts c)) (vs_context s)));
          charge_data_len cap (pa_account pre_account') entry.2
      | None => throw MissingAccount
      end
  | _, _ => throw MissingAccount
  end.

Definition verify_and_update (instruction : CompiledInstruction) (account_indices : list nat)
    (write_privileges : list bool) : IM unit :=
  c ← get;
  let realloc := feature c do_support_realloc in
  let cap := feature c cap_accounts_data_len in
  program_id ← lift (get_caller c);
  balanced (visit_each_account instruction
    (verify_and_update_account program_id account_indices write_privileges realloc cap)).

(** ** Cross-program invocation *)

(** [sdk/program/src/bpf_loader_upgradeable.rs] *)
Inductive UpgradeableLoaderState : Type :=
| LoaderUninitialized
| LoaderBuffer (authority_address : option Pubkey)
| LoaderProgram (programdata_address : Pubkey)
| LoaderProgramData (slot : Slot) (upgrade_authority_address : option Pubkey).

Definition find_keyed (l : list KeyedAccount) (key : Pubkey) : option KeyedAccount :=
  snd <$> list_find (fun k => unsigned_key k = key) l.

(** A callee gets no privilege its caller lacks. *)
Definition check_privileges (callee_keyed_accounts : list KeyedAccount) (signers : list Pubkey) (meta : AccountMeta)
  : outcome InstructionError unit :=
  keyed_account ← ok_or MissingAccount (find_keyed callee_keyed_accounts (am_pubkey meta));
  if am_is_writable meta && negb (is_writable keyed_account) then Err PrivilegeEscalation
  else if am_is_signer meta
          && negb (bool_decide (is_Some (signer_key keyed_account)) || bool_decide (am_pubkey meta ∈ signers))
  then Err PrivilegeEscalation
  else Ok tt.

Section invocation.
Context `{Bincode UpgradeableLoaderState}.

(** The accounts of the program chain: the program, behind its program data if
    the upgradeable loader owns it. *)
Definition find_program_indices (c : InvokeContext) (callee_keyed_accounts : list KeyedAccount)
    (callee_program_id : Pubkey) : outcome InstructionError (list nat) :=
  program ← ok_or MissingAccount
    (_ ← find_keyed callee_keyed_accounts callee_program_id; get_account c callee_program_id);
  let '(program_account_index, program_account) := program in
  if negb (executable program_account) then Err AccountNotExecutable
  else if owner program_account =? bpf_loader_upgradeable_id then
    state ← account_state program_account;
    match state with
    | LoaderProgram programdata_address =>
        match get_account c programdata_address with
        | Some (programdata_account_index, _) => Ok [programdata_account_index; program_account_index]
        | None => Err MissingAccount
        end
    | _ => Err MissingAccount
    end
  else Ok [program_account_index].

Definition create_message (instruction : Instruction) (signers : list Pubkey)
  : IM (Message * list bool * list nat) :=
  c ← get;
  message ← lift (Message_new [instruction] None);
  caller_keyed_accounts ← lift (get_instruction_keyed_accounts c);
  callee_keyed_accounts ← lift (collect (fun account_key =>
    ok_or MissingAccount (find_keyed caller_keyed_accounts account_key)) (account_keys message));
  _ ← lift (collect (check_privileges callee_keyed_accounts signers) (ix_accounts instruction));
  let caller_write_privileges := is_writable <$> callee_keyed_accounts in
  program_indices ← lift (find_program_indices c callee_keyed_accounts (ix_program_id instruction));
  mret (message, caller_write_privileges, program_indices).

(** ** Executing an instruction *)

(** The entry point of a program: the index of its first account in the keyed
    accounts, and the instruction data. *)
Record BuiltinProgram : Type := mkBuiltinProgram {
  bp_program_id : Pubkey;
  bp_process_instruction : nat -> list Z -> IM unit;
}.

Record ProcessInstructionResult : Type := mkProcessInstructionResult {
  compute_units_consumed : Z;
  pir_result : outcome InstructionError unit;
}.

Section programs.
Context (builtin_programs : list BuiltinProgram) (native_loader : nat -> list Z -> IM unit).

Definition find_builtin (id : Pubkey) : option BuiltinProgram :=
  snd <$> list_find (fun entry => bp_program_id entry = id) builtin_programs.

Definition process_executable_chain (instruction_data : list Z) : IM unit :=
  c ← get;
  keyed_accounts ← lift (get_keyed_accounts c);
  root_account ← lift (ok_or UnsupportedProgramId (keyed_accounts !! 0%nat));
  owner_id ← lift (keyed_owner c root_account);
  if owner_id =? native_loader_id then
    match find_builtin (unsigned_key root_account) with
    | Some entry => bp_process_instruction entry 1 instruction_data
    | None =>
        if negb (feature c remove_native_loader) then native_loader 0%nat instruction_data
        else throw UnsupportedProgramId
    end
  else
    match find_builtin owner_id with
    | Some entry => bp_process_instruction entry 0 instruction_data
    | None => throw UnsupportedProgramId
    end.

(** The closure after [push] in [process_instruction]; returns the units. *)
Definition run_and_verify (is_lowest_invocation_level : bool) (message : SanitizedMessage)
    (instruction : CompiledInstruction) (program_indices account_indices : list nat) (c : InvokeContext)
  : ProcessInstructionResult * InvokeContext :=
  match get_account_key message (Z.to_nat (ci_program_id_index instruction)) with
  | None => (mkProcessInstructionResult 0 Panic, c)
  | Some program_id =>
      let c := set_return_data (program_id, []) c in
      let pre_remaining_units := compute_meter c in
      let '(execution_result, c) := process_executable_chain (ci_data instruction) c in
      let units := saturating_sub64 pre_remaining_units (compute_meter c) in
      let '(result, c) :=
        match execution_result with
        | Ok _ =>
            if is_lowest_invocation_level then verify message instruction program_indices c
            else
              (write_privileges ← lift (collect (sm_is_writable message) (seq 0 (sm_account_keys_len message)));
               verify_and_update instruction account_indices write_privileges) c
        | Err e => (Err e, c)
        | Panic => (Panic, c)
        end in
      (mkProcessInstructionResult units result, c)
  end.

Definition process_instruction (message : SanitizedMessage) (instruction : CompiledInstruction)
    (program_indices account_indices : list nat) (caller_write_privileges : list bool) (c : InvokeContext)
  : ProcessInstructionResult * InvokeContext :=
  let is_lowest_invocation_level := bool_decide (invoke_stack c = []) in
  let '(verified, c) :=
    if negb is_lowest_invocation_level
    then verify_and_update instruction account_indices caller_write_privileges c
    else (Ok tt, c) in
  match verified with
  | Ok _ =>
      let '(r, c) :=
        match push message instruction program_indices account_indices c with
        | (Ok _, c) => run_and_verify is_lowest_invocation_level message instruction program_indices account_indices c
        | (e, c) => (mkProcessInstructionResult 0 e, c)
        end in
      (r, pop c)
  | e => (mkProcessInstructionResult 0 e, c)
  end.

(** The data sizes before the call are compared with the sizes after it. *)
Definition check_sizes (realloc : bool) (sizes : list (nat * nat)) (c : InvokeContext)
  : outcome InstructionError unit :=
  _ ← collect (fun p =>
        entry ← indexed_account c p.1;
        if negb realloc && negb (bool_decide (p.2 = length (data entry.2))) && negb (bool_decide (p.2 = 0%nat))
        then Err InvalidRealloc else Ok tt) sizes;
  Ok tt.

Definition native_invoke (instruction : Instruction) (signers : list Pubkey) : IM unit :=
  prepared ← create_message instruction signers;
  let '(message, caller_write_privileges, program_indices) := prepared in
  c ← get;
  found ← lift (collect (fun account_key =>
    ok_or MissingAccount (get_account c account_key)) (account_keys message));
  let account_indices := fst <$> found in
  let sizes := (fun p => (p.1, length (data p.2))) <$> found in
  _ ← modify (record_instruction (get_stack_height c) instruction);
  ix ← lift (unwrap (instructions message !! 0%nat));
  _ ← (fun c =>
    let '(r, c) := process_instruction (Legacy message) ix program_indices account_indices
                     caller_write_privileges c in
    (pir_result r, c));
  c' ← get;
  lift (check_sizes (feature c' do_support_realloc) sizes c').
End programs.
End invocation.
