(* ===== verification/InvokeSpec.v ===== *)
(** * Correctness of the invoke context

    What [verify] and [verify_and_update] guarantee for arbitrary programs, the
    conservation of lamports over an instruction with all its cross-program
    invocations, the privileges of a callee, and the limits of these checks. *)
From stdpp Require Import base numbers option list gmap.
From S2P Require Import Prelude Instruction Account EpochSchedule Float64 Rent Sysvar Message MessageSpec.
From S2P Require Import PreAccount ComputeBudget InvokeContext.

(** ** Visiting *)

(** The distinct account indices of an instruction, in order. *)
Definition unique_accounts (instruction : CompiledInstruction) : list Z := keep_first [] (ci_accounts instruction).

Fixpoint visit_unique {S} (work : nat -> nat -> SE S InstructionError unit) (n : nat) (l : list Z)
  : SE S InstructionError unit :=
  match l with
  | [] => mret tt
  | a :: l => _ ← work n (Z.to_nat a); visit_unique work (n + 1) l
  end.

Lemma keep_first_ext s1 s2 l : (forall k, k ∈ s1 <-> k ∈ s2) -> keep_first s1 l = keep_first s2 l.
Proof.
  revert s1 s2. induction l as [|x l IH]; intros s1 s2 Hs; [done|]. cbn.
  rewrite (bool_decide_ext _ _ (Hs x)). case_bool_decide; [by apply IH|]. f_equal. apply IH.
  intros k. rewrite !elem_of_cons. by rewrite Hs.
Qed.

Lemma visit_accounts_unique {S} (work : nat -> nat -> SE S InstructionError unit) before rest n s :
  visit_accounts work before rest n s = visit_unique work n (keep_first before rest) s.
Proof.
  revert before n s. induction rest as [|a rest IH]; intros before n s; [done|].
  cbn [visit_accounts keep_first]. case_bool_decide as Ha.
  - rewrite IH. f_equal. apply keep_first_ext. set_solver.
  - cbn [visit_unique]. unfold mbind, SE_bind. destruct (work n (Z.to_nat a) s) as [[[]| |] s']; [|done|done].
    rewrite IH. f_equal. apply keep_first_ext. set_solver.
Qed.

(** An invariant on the state after each visit. *)
Lemma visit_unique_inv {T} (work : nat -> nat -> SE T InstructionError unit) (I : nat -> T -> Prop) l n s s' :
  (forall k a s1 s2, l !! k = Some a -> I (n + k)%nat s1 -> work (n + k)%nat (Z.to_nat a) s1 = (Ok tt, s2) ->
     I (S (n + k)) s2) ->
  I n s -> visit_unique work n l s = (Ok tt, s') -> I (n + length l)%nat s'.
Proof.
  revert n s. induction l as [|a l IH]; intros n s Hstep Hi Hv; cbn in *.
  { ok_inv. by rewrite Nat.add_0_r. }
  ok_inv. rename x0 into s1. replace (n + S (length l))%nat with (n + 1 + length l)%nat by lia.
  eapply IH; [|specialize (Hstep 0%nat a s s1); rewrite Nat.add_0_r in Hstep; rewrite Nat.add_1_r; auto|done].
  intros k b t1 t2 Hk. replace (n + 1 + k)%nat with (n + S k)%nat by lia. by apply Hstep.
Qed.

(** ** Sums *)

Definition sum_of {A} (f : A -> Z) (l : list A) : Z := foldr (fun x acc => f x + acc) 0 l.

Lemma sum_of_app {A} (f : A -> Z) l k : sum_of f (l ++ k) = sum_of f l + sum_of f k.
Proof. induction l as [|x l IH]; cbn; [done|]. fold (sum_of f (l ++ k)) (sum_of f l). lia. Qed.

Lemma sum_of_take_S {A} (f : A -> Z) l n x : l !! n = Some x ->
  sum_of f (take (S n) l) = sum_of f (take n l) + f x.
Proof. intros Hx. rewrite (take_S_r _ _ _ Hx), sum_of_app. cbn. lia. Qed.

Lemma sum_of_insert {A} (f : A -> Z) l n x y : l !! n = Some x ->
  sum_of f (<[n := y]> l) = sum_of f l - f x + f y.
Proof.
  intros Hx. rewrite insert_take_drop by (by eapply lookup_lt_Some).
  rewrite <- (take_drop_middle l n x Hx) at 3. rewrite !sum_of_app. cbn.
  fold (sum_of f (drop (S n) l)). lia.
Qed.

Lemma sum_of_ext {A} (f g : A -> Z) l : (forall x, x ∈ l -> f x = g x) -> sum_of f l = sum_of g l.
Proof.
  intros H. induction l as [|x l IH]; [done|]. cbn. fold (sum_of f l) (sum_of g l).
  rewrite H by left. rewrite IH; [done|]. intros y Hy. apply H. by right.
Qed.

#[global] Arguments sum_of {_} _ _ : simpl never.

Definition pre_lamports (p : PreAccount) : Z := lamports (pa_account p).
Definition pre_total (c : InvokeContext) : Z := sum_of pre_lamports (pre_accounts c).

Definition lamports_at (c : InvokeContext) (a : Z) : Z :=
  match ic_accounts c !! Z.to_nat a with Some (_, acct) => lamports acct | None => 0 end.
(** The lamports of the accounts of an instruction. *)
Definition instruction_total (c : InvokeContext) (instruction : CompiledInstruction) : Z :=
  sum_of (lamports_at c) (unique_accounts instruction).

Lemma add_sums_Ok pre post s s' : add_sums pre post s = (Ok tt, s') ->
  s' = mkVerifyState (pre_sum s + lamports pre) (post_sum s + lamports post) (vs_context s).
Proof.
  unfold add_sums. intros H. ok_inv.
  repeat match goal with H : checked_add128 _ _ = Some _ |- _ => apply checked_add128_Some in H as [-> _] end. done.
Qed.

Definition data_delta (pre post : AccountSharedData) : Z :=
  saturating_sub_i64 (Z.of_nat (length (data post))) (Z.of_nat (length (data pre))).

Lemma adm_consume_Ok amount m m' : adm_consume amount m = Ok m' -> m' = consume_unchecked amount m.
Proof. unfold adm_consume. case_match; naive_solver. Qed.

Lemma charge_data_len_Ok cap pre post s s' : charge_data_len cap pre post s = (Ok tt, s') ->
  s' = mkVerifyState (pre_sum s) (post_sum s)
         (set_data_meter (consume_unchecked (data_delta pre post) (accounts_data_meter (vs_context s))) (vs_context s)).
Proof.
  unfold charge_data_len. intros H. ok_inv. fold (data_delta pre post) in *.
  assert (x1 = consume_unchecked (data_delta pre post) (accounts_data_meter (vs_context s))) as ->; [|done].
  destruct cap; [by apply adm_consume_Ok|by ok_inv].
Qed.

Lemma balanced_Ok visits c c' : balanced visits c = (Ok tt, c') ->
  exists s, visits (mkVerifyState 0 0 c) = (Ok tt, s) /\ pre_sum s = post_sum s /\ vs_context s = c'.
Proof.
  unfold balanced. destruct (visits _) as [[[]| |] s]; [|done|done].
  destruct (Z.eqb_spec (pre_sum s) (post_sum s)); intros; simplify_eq; eauto.
Qed.

(** ** The check of a top-level instruction *)

Lemma set_data_meter_fields m c :
  pre_accounts (set_data_meter m c) = pre_accounts c /\ ic_accounts (set_data_meter m c) = ic_accounts c /\
  ic_rent (set_data_meter m c) = ic_rent c /\ invoke_stack (set_data_meter m c) = invoke_stack c /\
  ic_feature_set (set_data_meter m c) = ic_feature_set c /\ compute_budget (set_data_meter m c) = compute_budget c /\
  forall m', set_data_meter m' (set_data_meter m c) = set_data_meter m' c.
Proof. by destruct c. Qed.

Lemma set_data_meter_same c : set_data_meter (accounts_data_meter c) c = c.
Proof. by destruct c. Qed.

Lemma verify_account_Ok program_id message realloc cap u a s s' :
  verify_account program_id message realloc cap u a s = (Ok tt, s') ->
  exists key post pre w m,
    ic_accounts (vs_context s) !! a = Some (key, post) /\ pre_accounts (vs_context s) !! u = Some pre /\
    sm_is_writable (E := InstructionError) message a = Ok w /\
    permitted program_id w (ic_rent (vs_context s)) realloc (pa_account pre) post /\
    s' = mkVerifyState (pre_sum s + pre_lamports pre) (post_sum s + lamports post)
           (set_data_meter m (vs_context s)).
Proof.
  unfold verify_account, indexed_account. intros H. ok_inv. destruct x1 as [key post].
  repeat match goal with
  | H : add_sums _ _ _ = _ |- _ => apply add_sums_Ok in H; subst
  | H : charge_data_len _ _ _ _ = _ |- _ => apply charge_data_len_Ok in H; subst
  | H : PreAccount_verify _ _ _ _ _ _ = _ |- _ => apply verify_sound in H
  end. cbn in *. eexists _, _, _, _, _. split_and!; done.
Qed.

(** What a successful [verify] has established of the accounts it visited. *)
Definition verified (c : InvokeContext) (program_id : Pubkey) (message : SanitizedMessage) (idxs : list Z) : Prop :=
  forall u a, idxs !! u = Some a ->
    exists key post pre w,
      ic_accounts c !! Z.to_nat a = Some (key, post) /\ pre_accounts c !! u = Some pre /\
      sm_is_writable (E := InstructionError) message (Z.to_nat a) = Ok w /\
      permitted program_id w (ic_rent c) (feature c do_support_realloc) (pa_account pre) post.

Lemma verify_Ok message instruction program_indices c c' :
  verify message instruction program_indices c = (Ok tt, c') ->
  exists program_id m,
    get_account_key message (Z.to_nat (ci_program_id_index instruction)) = Some program_id /\
    c' = set_data_meter m c /\ verified c program_id message (unique_accounts instruction) /\
    (length (unique_accounts instruction) <= length (pre_accounts c))%nat /\
    sum_of pre_lamports (take (length (unique_accounts instruction)) (pre_accounts c))
      = instruction_total c instruction.
Proof.
  unfold verify. intros H. ok_inv.
  match goal with H : get_account_key _ _ = Some ?p |- _ => rename p into program_id, H into Hpid end.
  match goal with H : balanced _ _ = _ |- _ => apply balanced_Ok in H as (s & Hv & Hsum & <-) end.
  unfold visit_each_account in Hv. rewrite visit_accounts_unique in Hv. fold (unique_accounts instruction) in Hv.
  set (idxs := unique_accounts instruction) in *.
  set (I := fun n (s : VerifyState) =>
    (exists m, vs_context s = set_data_meter m c) /\ verified c program_id message (take n idxs) /\
    (n <= length (pre_accounts c))%nat /\
    pre_sum s = sum_of pre_lamports (take n (pre_accounts c)) /\ post_sum s = sum_of (lamports_at c) (take n idxs)).
  assert (I (0 + length idxs)%nat s) as (Hm & Hver & Hle & Hpre & Hpost).
  { eapply visit_unique_inv; [|..|exact Hv].
    2:{ split_and!; cbn; [exists (accounts_data_meter c); by rewrite set_data_meter_same|done|lia|done|done]. }
    intros k a s1 s2 Hk ([m Hm] & Hver & Hle & Hpre & Hpost) Hw. cbn [Nat.add] in *.
    apply verify_account_Ok in Hw as (key & post & pre & w & m' & Ha & Hp & Hw & Hperm & ->).
    rewrite Hm in *. destruct (set_data_meter_fields m c) as (E1 & E2 & E3 & _ & _ & _ & Hmm).
    rewrite E1 in Hp. rewrite E2 in Ha. rewrite E3 in Hperm.
    split_and!; cbn.
    - exists m'. by rewrite Hmm.
    - intros u b Hu. apply lookup_take_Some in Hu as [Hu Hlt].
      destruct (decide (u = k)) as [->|]; [simplify_eq; eauto 10|].
      apply Hver. apply lookup_take_Some. split; [done|lia].
    - apply lookup_lt_Some in Hp. lia.
    - rewrite (sum_of_take_S _ _ _ _ Hp). lia.
    - rewrite (sum_of_take_S _ _ _ _ Hk). unfold lamports_at at 2. rewrite Ha. lia. }
  cbn [Nat.add] in *. rewrite (take_ge idxs) in Hver, Hpost by lia. destruct Hm as [m Hm].
  exists program_id, m. split_and!; [done|done|done|done|]. unfold instruction_total. fold idxs. lia.
Qed.

(** ** The check at a cross-program invocation *)

(** The state of an account after its check: replaced when it may have changed. *)
Definition updated_pre (w : bool) (pre : PreAccount) (post : AccountSharedData) : PreAccount :=
  if w && negb (executable (pa_account pre)) then PreAccount_update pre post else pre.

Lemma verify_and_update_account_Ok program_id account_indices write_privileges realloc cap u k s s' :
  verify_and_update_account program_id account_indices write_privileges realloc cap u k s = (Ok tt, s') ->
  exists w ai key post i pre,
    write_privileges !! k = Some w /\ account_indices !! k = Some ai /\
    ic_accounts (vs_context s) !! ai = Some (key, post) /\
    pre_accounts (vs_context s) !! i = Some pre /\ pa_key pre = key /\
    permitted program_id w (ic_rent (vs_context s)) realloc (pa_account pre) post /\
    let pre' := updated_pre w pre post in
    s' = mkVerifyState (pre_sum s + pre_lamports pre) (post_sum s + lamports post)
           (set_data_meter
              (consume_unchecked (data_delta (pa_account pre') post) (accounts_data_meter (vs_context s)))
              (set_pre_accounts (<[i := pre']> (pre_accounts (vs_context s))) (vs_context s))).
Proof.
  unfold verify_and_update_account, indexed_account. intros H. ok_inv.
  destruct (write_privileges !! k) as [w|]; [|by ok_inv].
  destruct (account_indices !! k) as [ai|]; [|by ok_inv]. ok_inv. destruct x as [key post].
  destruct (list_find _ _) as [[i pre]|] eqn:Hf; [|by ok_inv].
  apply list_find_Some in Hf as (Hi & Hkey & _). ok_inv.
  repeat match goal with
  | H : add_sums _ _ _ = _ |- _ => apply add_sums_Ok in H; subst
  | H : charge_data_len _ _ _ _ = _ |- _ => apply charge_data_len_Ok in H; subst
  | H : PreAccount_verify _ _ _ _ _ _ = _ |- _ => apply verify_sound in H
  end. cbn in *. eexists w, ai, key, post, i, pre. split_and!; try done.
  cbn. by destruct (vs_context s).
Qed.

(** An account whose state is not replaced has not changed. *)
Lemma permitted_not_replaced program_id w rent realloc pre post :
  permitted program_id w rent realloc pre post -> w && negb (executable pre) = false -> post = pre.
Proof.
  intros Hp [->|Hx]%andb_false_iff; [by eapply permitted_readonly|].
  apply negb_false_iff in Hx. destruct Hp as [H1 H2 H3 H4 H5 H6 H7], pre as [l d o x r], post. cbn in *.
  f_equal; [..|done]; apply dec_stable; intros Hne; naive_solver.
Qed.

Lemma updated_pre_lamports program_id w rent realloc pre post :
  permitted program_id w rent realloc (pa_account pre) post ->
  pre_lamports (updated_pre w pre post) = lamports post /\ pa_key (updated_pre w pre post) = pa_key pre /\
  data (pa_account (updated_pre w pre post)) = data post.
Proof.
  intros Hp. unfold updated_pre. destruct (w && _) eqn:Hw.
  - unfold pre_lamports, PreAccount_update. cbn. by destruct post.
  - rewrite (permitted_not_replaced _ _ _ _ _ _ Hp Hw). done.
Qed.

(** What a step of the runtime leaves as it was, between two points of the
    execution of a program: the stack but for the ranges of its frames, the keys
    and the total of the saved states, and the settings. *)
Definition frame_static (f : StackFrame) : nat * list KeyedAccount :=
  (number_of_program_accounts f, sf_keyed_accounts f).

Record keeps (c c' : InvokeContext) : Prop := {
  kc_stack : frame_static <$> invoke_stack c' = frame_static <$> invoke_stack c;
  kc_keys : pa_key <$> pre_accounts c' = pa_key <$> pre_accounts c;
  kc_total : pre_total c' = pre_total c;
  kc_accounts : (ic_accounts c').*1 = (ic_accounts c).*1;
  kc_rent : ic_rent c' = ic_rent c;
  kc_features : ic_feature_set c' = ic_feature_set c;
  kc_budget : compute_budget c' = compute_budget c;
}.

#[global] Instance keeps_preorder : PreOrder keeps.
Proof.
  split; [by intros c; split|]. intros c1 c2 c3 [] []. split; congruence.
Qed.

Lemma consume_nothing n m : in_i64 (adm_delta m) -> consume_unchecked (saturating_sub_i64 n n) m = m.
Proof.
  intros Hd. destruct m as [mx ini d]. unfold consume_unchecked, saturating_sub_i64, saturating_add_i64,
    in_i64, I64_MIN, I64_MAX in *. cbn in *. f_equal. lia.
Qed.

(** [verify_and_update] replaces the states without changing their total, and
    leaves the rest of the context, the accounts included, alone. *)
Lemma verify_and_update_Ok instruction account_indices write_privileges c c' :
  verify_and_update instruction account_indices write_privileges c = (Ok tt, c') ->
  keeps c c' /\ invoke_stack c' = invoke_stack c /\ ic_accounts c' = ic_accounts c /\
  (in_i64 (adm_delta (accounts_data_meter c)) -> accounts_data_meter c' = accounts_data_meter c).
Proof.
  unfold verify_and_update. intros H. ok_inv.
  match goal with H : balanced _ _ = _ |- _ => apply balanced_Ok in H as (s & Hv & Hsum & <-) end.
  unfold visit_each_account in Hv. rewrite visit_accounts_unique in Hv.
  set (I := fun (_ : nat) (s : VerifyState) =>
    let c1 := vs_context s in
    pa_key <$> pre_accounts c1 = pa_key <$> pre_accounts c /\
    pre_total c1 = pre_total c + post_sum s - pre_sum s /\
    invoke_stack c1 = invoke_stack c /\ ic_accounts c1 = ic_accounts c /\ ic_rent c1 = ic_rent c /\
    ic_feature_set c1 = ic_feature_set c /\ compute_budget c1 = compute_budget c /\
    (in_i64 (adm_delta (accounts_data_meter c)) -> accounts_data_meter c1 = accounts_data_meter c)).
  assert (I (0 + length (keep_first [] (ci_accounts instruction)))%nat s)
    as (Hk & Ht & Hst & Ha & Hr & Hf & Hb & Hm).
  { eapply visit_unique_inv; [|..|exact Hv]; [|unfold I; cbn; split_and!; try done; lia].
    intros k a s1 s2 _ (Hk & Ht & Hst & Ha & Hr & Hf & Hb & Hm) Hw.
    apply verify_and_update_account_Ok in Hw as (w & ai & key & post & i & pre & _ & _ & _ & Hi & _ & Hp & ->).
    destruct (updated_pre_lamports _ _ _ _ _ _ Hp) as (Hl & Hkey & Hd).
    destruct (vs_context s1) as [st rent pas accts sc cb ccb cm adm tr fs bh lps rd]. unfold I. cbn in *.
    split_and!; try done.
    - rewrite <- Hk, list_fmap_insert. apply list_insert_id. rewrite list_lookup_fmap, Hi. cbn. by rewrite Hkey.
    - unfold pre_total in *. cbn [pre_accounts set_data_meter set_pre_accounts] in *. rewrite (sum_of_insert _ _ _ _ _ Hi). lia.
    - intros Hin. rewrite Hm by done. unfold data_delta. rewrite Hd. by apply consume_nothing. }
  split; [|done]. split; try done; [by rewrite Hst|lia|by rewrite Ha].
Qed.

(** ** Frames *)

(** The saved states of the accounts of an instruction. *)
Definition snapshots (c : InvokeContext) (idxs : list Z) (pas : list PreAccount) : Prop :=
  Forall2 (fun a pa => exists key acct, ic_accounts c !! Z.to_nat a = Some (key, acct) /\ pa = PreAccount_new key acct)
    idxs pas.

Lemma snapshots_total c idxs pas : snapshots c idxs pas -> sum_of pre_lamports pas = sum_of (lamports_at c) idxs.
Proof.
  induction 1 as [|a pa idxs pas (key & acct & Ha & ->) _ IH]; [done|].
  unfold sum_of in *. cbn [foldr]. rewrite IH. unfold pre_lamports, lamports_at. by rewrite Ha.
Qed.

Lemma set_pre_accounts_fields x c :
  ic_accounts (set_pre_accounts x c) = ic_accounts c /\ pre_accounts (set_pre_accounts x c) = x /\
  forall y, set_pre_accounts y (set_pre_accounts x c) = set_pre_accounts y c.
Proof. by destruct c. Qed.

Lemma visit_snapshots instruction c0 c c' : c = set_pre_accounts [] c0 ->
  visit_each_account instruction snapshot_account c = (Ok tt, c') ->
  exists pas, c' = set_pre_accounts pas c0 /\ snapshots c0 (unique_accounts instruction) pas.
Proof.
  intros ->. unfold visit_each_account. rewrite visit_accounts_unique. fold (unique_accounts instruction).
  set (idxs := unique_accounts instruction). intros Hv.
  set (I := fun n c1 => exists pas, c1 = set_pre_accounts pas c0 /\ snapshots c0 (take n idxs) pas).
  assert (I (0 + length idxs)%nat c') as (pas & -> & Hs).
  { eapply visit_unique_inv; [|..|exact Hv]; [|exists []; split; [done|constructor]].
    intros k a s1 s2 Hk (pas & -> & Hs) Hw. unfold snapshot_account in Hw. ok_inv. cbn [Nat.add] in *.
    destruct (set_pre_accounts_fields pas c0) as (E1 & E2 & E3). rewrite E1 in *.
    destruct (ic_accounts c0 !! Z.to_nat a) as [[key acct]|] eqn:Ha; ok_inv.
    rewrite E2, E3. eexists. split; [done|]. rewrite (take_S_r _ _ _ Hk). apply Forall2_app; [done|].
    repeat constructor. eauto. }
  exists pas. split; [done|]. rewrite take_ge in Hs by done. done.
Qed.

Lemma push_first_Ok instruction program_id c c' : push_first instruction program_id c = (Ok tt, c') ->
  exists b m pas, c' = set_pre_accounts pas (set_compute_meter m (set_current_budget b c)) /\
    snapshots c (unique_accounts instruction) pas.
Proof.
  unfold push_first. intros H. ok_inv.
  assert (exists m, x4 = set_compute_meter m (set_current_budget (bumped_budget c program_id) c)) as [m ->].
  { destruct (feature c tx_wide_compute_cap); ok_inv; [|eauto].
    exists (compute_meter c). by destruct c. }
  eapply visit_snapshots in H3 as (pas & -> & Hs); [|done].
  exists (bumped_budget c program_id), m, pas. split; [done|]. by destruct c.
Qed.

(** A successful [push] adds one frame; at the bottom of the stack it also saves
    the states of the accounts, and above it nothing else changes. *)
Lemma push_Ok message instruction program_indices account_indices c c' :
  push message instruction program_indices account_indices c = (Ok tt, c') ->
  (length (invoke_stack c) <= max_invoke_depth (compute_budget c))%nat /\
  exists frame,
    match invoke_stack c with
    | [] => exists b m pas, c' = set_stack [frame] (set_pre_accounts pas (set_compute_meter m (set_current_budget b c)))
              /\ snapshots c (unique_accounts instruction) pas
    | stack => c' = set_stack (frame :: stack) c
    end.
Proof.
  unfold push. intros H. ok_inv. split; [done|].
  destruct (invoke_stack c) as [|f fs] eqn:Hst.
  - match goal with H : push_first _ _ _ = _ |- _ => apply push_first_Ok in H as (b & m & pas & -> & Hs) end.
    eexists. exists b, m, pas. split; [|done]. f_equal.
    destruct c; cbn in *. by subst.
  - unfold push_reentrancy in *. ok_inv. eexists. by rewrite Hst.
Qed.

(** ** Conservation over cross-program invocations *)

(** A program (or a piece of one) that, when it succeeds, leaves the runtime's
    own state as it found it. The fields of [keeps] are private to the runtime,
    so a program changes them only through [native_invoke]; [native_invoke_well_behaved]
    is the step that closes this argument. *)
Definition well_behaved (m : IM unit) : Prop :=
  forall c c', invoke_stack c ≠ [] -> m c = (Ok tt, c') -> keeps c c'.

Lemma keeps_nonempty c c' : keeps c c' -> invoke_stack c ≠ [] -> invoke_stack c' ≠ [].
Proof.
  intros Hk Hne Hn. apply Hne. pose proof (kc_stack _ _ Hk) as Hs. rewrite Hn in Hs.
  by destruct (invoke_stack c).
Qed.

Lemma keeps_same_core c c' : invoke_stack c' = invoke_stack c -> pre_accounts c' = pre_accounts c ->
  ic_accounts c' = ic_accounts c -> ic_rent c' = ic_rent c -> ic_feature_set c' = ic_feature_set c ->
  compute_budget c' = compute_budget c -> keeps c c'.
Proof. intros H1 H2 H3 H4 H5 H6. split; unfold pre_total; congruence. Qed.

Section conservation.
Context `{Bincode UpgradeableLoaderState}.
Context (builtin_programs : list BuiltinProgram) (native_loader : nat -> list Z -> IM unit).
Context (Hbuiltins : forall entry n d, entry ∈ builtin_programs -> well_behaved (bp_process_instruction entry n d)).
Context (Hnative : forall n d, well_behaved (native_loader n d)).

Lemma find_builtin_elem id entry : find_builtin builtin_programs id = Some entry -> entry ∈ builtin_programs.
Proof.
  unfold find_builtin. intros ([i e] & Hf & ->)%fmap_Some.
  apply list_find_Some in Hf as (Hi & _). by eapply list_elem_of_lookup_2.
Qed.

Lemma chain_well_behaved d : well_behaved (process_executable_chain builtin_programs native_loader d).
Proof.
  intros c c' Hne Hc. unfold process_executable_chain in Hc. ok_inv.
  destruct (_ =? native_loader_id).
  - destruct (find_builtin _ _) as [entry|] eqn:He.
    + apply find_builtin_elem in He. by eapply Hbuiltins.
    + destruct (negb _); [by eapply Hnative|by ok_inv].
  - destruct (find_builtin _ _) as [entry|] eqn:He; [|by ok_inv].
    apply find_builtin_elem in He. by eapply Hbuiltins.
Qed.

Lemma keeps_return_data x c : keeps c (set_return_data x c).
Proof. destruct c. by apply keeps_same_core. Qed.

Lemma run_and_verify_inner message instruction program_indices account_indices c c' r :
  invoke_stack c ≠ [] ->
  run_and_verify builtin_programs native_loader false message instruction program_indices account_indices c = (r, c') ->
  pir_result r = Ok tt -> keeps c c'.
Proof.
  intros Hne Hr Hok. unfold run_and_verify in Hr.
  destruct (get_account_key _ _) as [program_id|]; [|by simplify_eq].
  destruct (process_executable_chain _ _ _ _) as [er c1] eqn:Hchain.
  destruct er as [[]| |]; [|by simplify_eq..].
  assert (keeps c c1) as Hk1.
  { etransitivity; [apply keeps_return_data|]. eapply chain_well_behaved; [|exact Hchain].
    eapply keeps_nonempty; [apply keeps_return_data|done]. }
  match type of Hr with (let '(_, _) := ?t in _) = _ => destruct t as [res c2] eqn:Hv end.
  simplify_eq. cbn in Hok. subst res. ok_inv.
  etransitivity; [exact Hk1|]. by eapply verify_and_update_Ok.
Qed.

(** A nested invocation that succeeds. *)
Lemma process_instruction_inner message instruction program_indices account_indices privileges c c' r :
  invoke_stack c ≠ [] ->
  process_instruction builtin_programs native_loader message instruction program_indices account_indices privileges c
    = (r, c') ->
  pir_result r = Ok tt -> keeps c c'.
Proof.
  intros Hne Hp Hok. unfold process_instruction in Hp. rewrite bool_decide_eq_false_2 in Hp by done. cbn [negb] in Hp.
  destruct (verify_and_update _ _ _ _) as [v c1] eqn:Hv. destruct v as [[]| |]; [|by simplify_eq..].
  apply verify_and_update_Ok in Hv as (Hk1 & Hst1 & _).
  destruct (push _ _ _ _ _) as [v c2] eqn:Hpush. destruct v as [[]| |]; [|by simplify_eq..].
  apply push_Ok in Hpush as (_ & frame & Hpush). rewrite Hst1 in Hpush.
  assert (c2 = set_stack (frame :: invoke_stack c) c1) as -> by (by destruct (invoke_stack c)).
  destruct (run_and_verify _ _ _ _ _ _ _ _) as [r' c3] eqn:Hrun. simplify_eq.
  apply run_and_verify_inner in Hrun; [|by destruct c1|done].
  etransitivity; [exact Hk1|]. destruct c1, c3. cbn in *. subst.
  destruct Hrun as [K1 K2 K3 K4 K5 K6 K7]. cbn in *. split; try done. cbn.
  destruct (invoke_stack0) as [|f fs]; [done|]. cbn in *. congruence.
Qed.

Lemma keeps_record n ix c : keeps c (record_instruction n ix c).
Proof. unfold record_instruction. case_match; [|done]. destruct c. by apply keeps_same_core. Qed.

(** The run of the top-level program and its check: the accounts [c'] ends with
    are checked against the saved states, whose total is that of [c]. *)
Lemma run_and_verify_top message instruction program_indices account_indices c c' r :
  invoke_stack c ≠ [] ->
  run_and_verify builtin_programs native_loader true message instruction program_indices account_indices c = (r, c') ->
  pir_result r = Ok tt ->
  keeps c c' /\ exists program_id,
    get_account_key message (Z.to_nat (ci_program_id_index instruction)) = Some program_id /\
    verified c' program_id message (unique_accounts instruction) /\
    sum_of pre_lamports (take (length (unique_accounts instruction)) (pre_accounts c'))
      = instruction_total c' instruction.
Proof.
  intros Hne Hr Hok. unfold run_and_verify in Hr.
  destruct (get_account_key _ _) as [program_id|] eqn:Hpid; [|by simplify_eq].
  destruct (process_executable_chain _ _ _ _) as [er c1] eqn:Hchain.
  destruct er as [[]| |]; [|by simplify_eq..].
  assert (keeps c c1) as Hk1.
  { etransitivity; [apply keeps_return_data|]. eapply chain_well_behaved; [|exact Hchain].
    eapply keeps_nonempty; [apply keeps_return_data|done]. }
  destruct (verify _ _ _ _) as [res c2] eqn:Hv. simplify_eq. cbn in Hok. subst res.
  apply verify_Ok in Hv as (program_id' & m & Hpid' & -> & Hver & Hle & Hsum).
  assert (program_id' = program_id) as -> by congruence.
  split; [etransitivity; [exact Hk1|]; destruct c1; by apply keeps_same_core|].
  exists program_id. split; [done|]. destruct c1. done.
Qed.

(** A cross-program invocation by a builtin program is well behaved when all
    programs are. *)
Lemma native_invoke_well_behaved instruction signers :
  well_behaved (native_invoke builtin_programs native_loader instruction signers).
Proof.
  intros c c' Hne Hi. unfold native_invoke, create_message in Hi. ok_inv.
  destruct (process_instruction _ _ _ _ _ _ _ _) as [r c1] eqn:Hp. simplify_eq.
  etransitivity; [apply keeps_record|]. eapply process_instruction_inner; [|exact Hp|done].
  eapply keeps_nonempty; [apply keeps_record|done].
Qed.

Lemma process_instruction_top message instruction program_indices c c' r :
  invoke_stack c = [] ->
  process_instruction builtin_programs native_loader message instruction program_indices [] [] c = (r, c') ->
  pir_result r = Ok tt ->
  instruction_total c' instruction = instruction_total c instruction /\
  (ic_accounts c').*1 = (ic_accounts c).*1 /\ invoke_stack c' = [] /\
  exists program_id,
    get_account_key message (Z.to_nat (ci_program_id_index instruction)) = Some program_id /\
    verified c' program_id message (unique_accounts instruction).
Proof.
  intros Hst Hp Hok. unfold process_instruction in Hp. rewrite Hst, bool_decide_eq_true_2 in Hp by done. cbn [negb] in Hp.
  destruct (push _ _ _ _ _) as [v c1] eqn:Hpush. destruct v as [[]| |]; [|by simplify_eq..].
  apply push_Ok in Hpush as (_ & frame & Hpush). rewrite Hst in Hpush. destruct Hpush as (b & m & pas & -> & Hs).
  destruct (run_and_verify _ _ _ _ _ _ _ _) as [r' c3] eqn:Hrun. simplify_eq.
  set (c1 := set_stack [frame] _) in Hrun.
  apply run_and_verify_top in Hrun as (Hk & program_id & Hpid & Hv & Hsum); [|by destruct c|done].
  assert (length pas = length (unique_accounts instruction)) as Hlen by (symmetry; by eapply Forall2_length).
  assert (length (pre_accounts c3) = length pas) as Hlen3.
  { rewrite <- (length_fmap pa_key), (kc_keys _ _ Hk), length_fmap. by destruct c. }
  rewrite take_ge in Hsum by lia. fold (pre_total c3) in Hsum. rewrite (kc_total _ _ Hk) in Hsum.
  assert (pre_total c1 = instruction_total c instruction) as Htot.
  { unfold instruction_total. rewrite <- (snapshots_total _ _ _ Hs). by destruct c. }
  split_and!.
  - rewrite <- Htot, Hsum. by destruct c3.
  - pose proof (kc_accounts _ _ Hk) as Ha. by destruct c, c3.
  - pose proof (kc_stack _ _ Hk) as Hstk. clear - Hstk. destruct c, c3 as [st]. cbn in *. by destruct st as [|? []].
  - exists program_id. split; [done|]. by destruct c3.
Qed.
End conservation.

(** ** Programs that call programs *)

(** A program calls others through the handle it is given. *)
Abbreviation Invoke := (Instruction -> list Pubkey -> IM unit).
Abbreviation Program := (Invoke -> nat -> list Z -> IM unit).

(** The runtime's own state is private: a program changes it only through its
    handle, which it calls from its own frame, and it stops at the first error
    the handle returns. *)
Record confined (p : Program) : Prop := {
  confined_keeps : forall invoke, (forall ix signers, well_behaved (invoke ix signers)) ->
    forall n d, well_behaved (p invoke n d);
  confined_depth : forall i1 i2 c,
    (forall ix signers c', get_stack_height c' = get_stack_height c -> compute_budget c' = compute_budget c ->
       i1 ix signers c' = i2 ix signers c') ->
    forall n d, p i1 n d c = p i2 n d c;
}.

Section tower.
Context `{Bincode UpgradeableLoaderState}.
Context (programs : list (Pubkey * Program)) (native_loader : Program).

Definition link (invoke : Invoke) : list BuiltinProgram :=
  (fun p => mkBuiltinProgram p.1 (p.2 invoke)) <$> programs.

(** Nested invocations, to a depth of [fuel]. *)
Fixpoint invoke_at (fuel : nat) : Invoke :=
  match fuel with
  | O => fun _ _ => panic
  | S fuel => native_invoke (link (invoke_at fuel)) (native_loader (invoke_at fuel))
  end.

(** An instruction of a transaction, with its nested invocations. *)
Definition process_top_level (fuel : nat) (message : SanitizedMessage) (instruction : CompiledInstruction)
    (program_indices : list nat) : InvokeContext -> ProcessInstructionResult * InvokeContext :=
  process_instruction (link (invoke_at fuel)) (native_loader (invoke_at fuel)) message instruction program_indices [] [].

Context (Hprograms : Forall (fun p => confined p.2) programs) (Hloader : confined native_loader).

Lemma link_well_behaved invoke : (forall ix signers, well_behaved (invoke ix signers)) ->
  forall entry n d, entry ∈ link invoke -> well_behaved (bp_process_instruction entry n d).
Proof.
  intros Hi entry n d (p & -> & Hp)%list_elem_of_fmap. cbn. rewrite Forall_forall in Hprograms.
  by apply Hprograms.
Qed.

Lemma invoke_at_well_behaved fuel ix signers : well_behaved (invoke_at fuel ix signers).
Proof.
  revert ix signers. induction fuel as [|fuel IH]; intros ix signers; [by intros c c' _ ?|].
  apply native_invoke_well_behaved; [by apply link_well_behaved|]. intros n d. by apply Hloader.
Qed.


(** Two handles that agree on the contexts with the stack height of [c]. *)
Definition agree (i1 i2 : Invoke) (height : nat) (budget : ComputeBudget) : Prop :=
  forall ix signers c, get_stack_height c = height -> compute_budget c = budget ->
    i1 ix signers c = i2 ix signers c.

Lemma find_builtin_link invoke id :
  find_builtin (link invoke) id =
  (fun p => mkBuiltinProgram p.1 (p.2 invoke)) <$> (snd <$> list_find (fun p => p.1 = id) programs).
Proof.
  unfold find_builtin, link. clear Hprograms. induction programs as [|[k p] ps IH]; [done|]. cbn.
  destruct (decide (k = id)); [done|].
  destruct (list_find (fun entry => bp_program_id entry = id) _) as [[]|],
    (list_find (fun p0 => p0.1 = id) ps) as [[]|]; cbn in *; congruence.
Qed.

Lemma chain_agree i1 i2 d c : agree i1 i2 (get_stack_height c) (compute_budget c) ->
  process_executable_chain (link i1) (native_loader i1) d c =
  process_executable_chain (link i2) (native_loader i2) d c.
Proof.
  intros Ha. unfold process_executable_chain. se_eval.
  destruct (get_keyed_accounts c) as [ks| |]; [|done|done].
  destruct (ok_or _ _) as [root| |]; [|done|done].
  destruct (keyed_owner c root) as [o| |]; [|done|done].
  assert (forall id p, snd <$> list_find (fun p => p.1 = id) programs = Some p -> confined p.2) as Hc.
  { intros id p ([j q] & Hf & ->)%fmap_Some. apply list_find_Some in Hf as (Hj & _).
    rewrite Forall_forall in Hprograms. apply Hprograms. by eapply list_elem_of_lookup_2. }
  rewrite !find_builtin_link.
  destruct (o =? native_loader_id); destruct (snd <$> list_find _ programs) as [p|] eqn:Hp; cbn; try done.
  - by apply (confined_depth _ (Hc _ _ Hp)).
  - destruct (feature c remove_native_loader); [done|]. by apply (confined_depth _ Hloader).
  - by apply (confined_depth _ (Hc _ _ Hp)).
Qed.

Lemma run_and_verify_agree i1 i2 lowest message instruction program_indices account_indices c :
  agree i1 i2 (get_stack_height c) (compute_budget c) ->
  run_and_verify (link i1) (native_loader i1) lowest message instruction program_indices account_indices c =
  run_and_verify (link i2) (native_loader i2) lowest message instruction program_indices account_indices c.
Proof.
  intros Ha. unfold run_and_verify. destruct (get_account_key _ _) as [program_id|]; [|done].
  rewrite (chain_agree i1 i2); [done|]. by destruct c.
Qed.

Lemma process_instruction_agree i1 i2 message instruction program_indices account_indices privileges c :
  ((length (invoke_stack c) <= max_invoke_depth (compute_budget c))%nat ->
   agree i1 i2 (S (get_stack_height c)) (compute_budget c)) ->
  process_instruction (link i1) (native_loader i1) message instruction program_indices account_indices privileges c =
  process_instruction (link i2) (native_loader i2) message instruction program_indices account_indices privileges c.
Proof.
  intros Ha. unfold process_instruction.
  match goal with |- context [if negb ?b then ?x else ?y] =>
    assert (exists v c1, (if negb b then x else y) = (v, c1) /\
      (v = Ok tt -> invoke_stack c1 = invoke_stack c /\ compute_budget c1 = compute_budget c))
      as (v & c1 & -> & Hc1) end.
  { case_bool_decide; cbn [negb]; [by eexists _, _|].
    destruct (verify_and_update _ _ _ _) as [v c1] eqn:Hv. eexists _, _. split; [done|]. intros ->.
    apply verify_and_update_Ok in Hv as (Hk & Hst & _). split; [done|]. apply Hk. }
  destruct v as [[]| |]; [|done|done]. destruct (Hc1 eq_refl) as [Hst Hb].
  destruct (push _ _ _ _ _) as [v c2] eqn:Hpush. destruct v as [[]| |]; [|done|done].
  apply push_Ok in Hpush as (Hle & frame & Hpush). rewrite Hst, Hb in Hle.
  rewrite (run_and_verify_agree i1 i2); [done|]. specialize (Ha Hle). unfold agree, get_stack_height in *.
  rewrite Hst in Hpush. destruct (invoke_stack c).
  - destruct Hpush as (b & m & pas & -> & _). destruct c1; cbn in *. by rewrite Hb.
  - subst c2. destruct c1; cbn in *. by rewrite Hb.
Qed.

Lemma record_instruction_fields n ix c :
  invoke_stack (record_instruction n ix c) = invoke_stack c /\
  compute_budget (record_instruction n ix c) = compute_budget c.
Proof. unfold record_instruction. case_match; [|done]. by destruct c. Qed.

Lemma native_invoke_agree i1 i2 ix signers c :
  ((length (invoke_stack c) <= max_invoke_depth (compute_budget c))%nat ->
   agree i1 i2 (S (get_stack_height c)) (compute_budget c)) ->
  native_invoke (link i1) (native_loader i1) ix signers c = native_invoke (link i2) (native_loader i2) ix signers c.
Proof.
  intros Ha. unfold native_invoke, mbind, SE_bind. destruct (create_message ix signers c) as [v c1] eqn:Hc.
  destruct v as [[[message privs] idxs]| |]; [|done|done].
  assert (c1 = c) as ->. { unfold create_message in Hc. by ok_inv. }
  se_eval. destruct (collect _ _) as [found| |]; [|done|done].
  destruct (unwrap _) as [ci| |]; [|done|done].
  destruct (record_instruction_fields (get_stack_height c) ix c) as [E1 E2].
  rewrite (process_instruction_agree i1 i2); [done|]. unfold get_stack_height in *. by rewrite E1, E2.
Qed.

End tower.

(** ** Privileges of a callee *)

Lemma find_keyed_Some l key k : find_keyed l key = Some k -> k ∈ l /\ unsigned_key k = key.
Proof.
  unfold find_keyed. intros ([i x] & Hf & ->)%fmap_Some. apply list_find_Some in Hf as (Hi & Hx & _).
  split; [by eapply list_elem_of_lookup_2|done].
Qed.

Lemma collect_lookup {E A B} (f : A -> outcome E B) l ys i x :
  collect f l = Ok ys -> l !! i = Some x -> exists y, ys !! i = Some y /\ f x = Ok y.
Proof.
  revert ys i. induction l as [|z l IH]; intros ys i Hc Hi; [done|]. cbn in Hc.
  destruct (f z) as [y| |] eqn:Hz; [|done|done]. cbn in Hc.
  destruct (collect f l) as [ys'| |] eqn:Hl; [|done|done]. cbn in Hc. simplify_eq.
  destruct i as [|i]; cbn in *; [simplify_eq; eauto|by apply IH].
Qed.

Lemma collect_lookup_r {E A B} (f : A -> outcome E B) l ys i y :
  collect f l = Ok ys -> ys !! i = Some y -> exists x, l !! i = Some x /\ f x = Ok y.
Proof.
  intros Hc Hi. pose proof (collect_length _ _ _ Hc) as Hlen. pose proof (lookup_lt_Some _ _ _ Hi).
  destruct (lookup_lt_is_Some_2 l i) as [x Hx]; [lia|].
  destruct (collect_lookup _ _ _ _ _ Hc Hx) as (y' & Hy & Hf). exists x. split; [done|]. congruence.
Qed.

(** The callee's keyed accounts are the caller's, found by the keys of the message. *)
Lemma find_keyed_callee caller keys callee i k :
  collect (fun key => ok_or MissingAccount (find_keyed caller key)) keys = Ok callee ->
  keys !! i = Some k ->
  exists ka, find_keyed caller k = Some ka /\ callee !! i = Some ka /\ find_keyed callee k = Some ka.
Proof.
  intros Hc Hi. destruct (collect_lookup _ _ _ _ _ Hc Hi) as (ka & Hka & Hf). ok_inv.
  exists ka. split_and!; [done|done|]. unfold find_keyed at 1.
  destruct (list_find (fun k0 => unsigned_key k0 = k) callee) as [[j kb]|] eqn:Hl; cbn.
  - apply list_find_Some in Hl as (Hj & Hkb & _).
    destruct (collect_lookup_r _ _ _ _ _ Hc Hj) as (k' & Hk' & Hf'). ok_inv.
    destruct (find_keyed_Some _ _ _ Hf') as [_ Hu]. congruence.
  - apply list_find_None in Hl. rewrite Forall_forall in Hl.
    destruct (find_keyed_Some _ _ _ Hf) as [_ Hu]. exfalso. apply (Hl ka); [by eapply list_elem_of_lookup_2|done].
Qed.

Lemma check_privileges_Ok callee signers metas rs meta ka :
  collect (check_privileges callee signers) metas = Ok rs -> meta ∈ metas ->
  find_keyed callee (am_pubkey meta) = Some ka ->
  (am_is_writable meta = true -> is_writable ka = true) /\
  (am_is_signer meta = true -> is_signer ka = true \/ am_pubkey meta ∈ signers).
Proof.
  intros Hc [i Hi]%list_elem_of_lookup Hf. destruct (collect_lookup _ _ _ _ _ Hc Hi) as (u & _ & Hp).
  unfold check_privileges in Hp. rewrite Hf in Hp. cbn in Hp.
  destruct (am_is_writable meta), (is_writable ka); cbn in Hp; try done;
    (split; [done|]); intros Hs; rewrite Hs in Hp; cbn in Hp;
    unfold signer_key in Hp; destruct (is_signer ka); auto; right;
    case_bool_decide as Hnone; (destruct Hnone as [? Hnone]; done) || (case_bool_decide; done).
Qed.

Lemma rfind_Some {A} (f : A -> bool) l i x : rfind f l = Some (i, x) -> l !! i = Some x /\ f x = true.
Proof.
  revert i. induction l as [|y l IH]; intros i Hr; [done|]. cbn in Hr.
  destruct (rfind f l) as [[j z]|]; [simplify_eq; by apply IH|].
  destruct (f y) eqn:Hy; by simplify_eq.
Qed.

Lemma get_account_Some c key i acct : get_account c key = Some (i, acct) -> ic_accounts c !! i = Some (key, acct).
Proof.
  unfold get_account. intros ([j [k a]] & Hr & Heq)%fmap_Some. cbn in Heq. simplify_eq.
  apply rfind_Some in Hr as [Hj Hk]. cbn in Hk. apply Z.eqb_eq in Hk as ->. done.
Qed.

Section privileges.
Context `{Bincode UpgradeableLoaderState}.

Lemma find_program_indices_Ok c callee program_id idxs :
  find_program_indices c callee program_id = Ok idxs ->
  exists j acct, last idxs = Some j /\ ic_accounts c !! j = Some (program_id, acct) /\ executable acct = true.
Proof.
  unfold find_program_indices. intros Hf. ok_inv. destruct x as [j acct].
  match goal with H : mbind _ _ = Some _ |- _ => apply bind_Some in H as (ka & _ & Hj) end.
  apply get_account_Some in Hj. destruct (executable acct) eqn:Hx; [|done]. cbn in *.
  exists j, acct. split; [|done].
  destruct (owner acct =? bpf_loader_upgradeable_id); [|by ok_inv]. ok_inv.
  destruct x; try done. destruct (get_account c _) as [[]|]; by ok_inv.
Qed.

(** C22. A callee gets no signature its caller lacks: an account signs the message
    of a cross-program invocation only if it signed the caller's instruction or
    the calling program signs for it. An account is writable in it only if it
    is writable for the caller, when no key of the instruction is a read-only
    signer in one account meta and writable only in another. The program that is
    called is executable, and the context does not change. *)
Theorem create_message_no_escalation instruction signers c m privileges program_indices c' :
  (length (message_keys [instruction] None) <= 255)%nat ->
  create_message instruction signers c = (Ok (m, privileges, program_indices), c') ->
  c' = c /\
  exists caller, get_instruction_keyed_accounts c = Ok caller /\
    (forall i k, account_keys m !! i = Some k ->
       exists ka, find_keyed caller k = Some ka /\ privileges !! i = Some (is_writable ka) /\
         (Message_is_signer m i = true -> is_signer ka = true \/ k ∈ signers) /\
         (no_promotion [instruction] None ->
            Message_is_writable (E := InstructionError) m i = Ok true -> is_writable ka = true)) /\
    exists j acct, last program_indices = Some j /\ ic_accounts c !! j = Some (ix_program_id instruction, acct) /\
      executable acct = true.
Proof.
  intros Hl Hc. unfold create_message in Hc. ok_inv. simplify_eq.
  match goal with H : collect (fun _ => _) _ = Ok _ |- _ => rename H into Hcallee end.
  match goal with H : collect (check_privileges _ _) _ = Ok _ |- _ => rename H into Hpriv end.
  match goal with H : Message_new _ _ = Ok ?x |- _ => rename H into Hm, x into msg end.
  match goal with H : find_program_indices _ _ _ = Ok _ |- _ => rename H into Hprog end.
  split; [done|]. eexists. split; [done|]. split.
  - intros i k Hi. destruct (find_keyed_callee _ _ _ _ _ Hcallee Hi) as (ka & Hka & Hci & Hcallee_k).
    destruct (Message_new_access [instruction] None _ _ _ _ Hl Hm Hi) as [Hsig Hwr].
    exists ka. split; [done|]. split; [by rewrite list_lookup_fmap, Hci|]. split.
    + intros Hs. apply Hsig in Hs as [|(ix & meta & Hix & Hmeta & <- & Hms)]; [done|].
      apply list_elem_of_singleton in Hix as ->.
      pose proof (check_privileges_Ok _ _ _ _ _ _ Hpriv Hmeta Hcallee_k) as [_ Hp]. auto.
    + intros Hnp Hw. specialize (Hwr Hnp).
      assert (writable_by_header msg i = true) as Hh by (unfold Message_is_writable in Hw; by case_match).
      apply Hwr in Hh as [|(ix & meta & Hix & Hmeta & <- & Hmw)]; [done|].
      apply list_elem_of_singleton in Hix as ->.
      pose proof (check_privileges_Ok _ _ _ _ _ _ Hpriv Hmeta Hcallee_k) as [Hp _]. auto.
  - by apply find_program_indices_Ok in Hprog.
Qed.
End privileges.

(** ** The stack of programs *)

Definition stack_ids (c : InvokeContext) : list (option Pubkey) := frame_program_id <$> invoke_stack c.

Lemma set_stack_ids st c : stack_ids (set_stack st c) = frame_program_id <$> st.
Proof. by destruct c. Qed.
Lemma set_stack_height st c : get_stack_height (set_stack st c) = length st.
Proof. by destruct c. Qed.

(** A program is on the stack only in one block: calls of itself, without
    another program between them. *)
Definition no_reentrancy (ids : list (option Pubkey)) : Prop :=
  forall i j k x, (i < j < k)%nat -> ids !! i = Some x -> ids !! k = Some x -> ids !! j = Some x.

Lemma no_reentrancy_cons x ids : no_reentrancy ids -> (x ∉ ids \/ head ids = Some x) -> no_reentrancy (x :: ids).
Proof.
  intros Hr Hx [|i] [|j] [|k] y Hij Hi Hk; try lia; cbn in *; [|by eapply (Hr i j k); eauto; lia].
  simplify_eq. destruct Hx as [Hx|Hx].
  - exfalso. apply Hx. by eapply list_elem_of_lookup_2.
  - destruct ids as [|z ids]; [done|]. cbn in Hx. simplify_eq.
    destruct j as [|j]; [done|]. by apply (Hr 0%nat (S j) k); [lia|..].
Qed.

Lemma existsb_false {A} (f : A -> bool) l x : existsb f l = false -> x ∈ l -> f x = false.
Proof.
  intros Hf Hx. destruct (f x) eqn:Hfx; [|done]. rewrite <- Hf. symmetry. apply existsb_exists. exists x.
  by rewrite <- list_elem_of_In.
Qed.

(** The frame that [push] adds is the one of the last program account. *)
Lemma pushed_frame_id c message program_indices account_indices ixs programs keyed j entry :
  collect (program_keyed c) program_indices = Ok programs ->
  collect (instruction_keyed c message account_indices) ixs = Ok keyed ->
  last program_indices = Some j -> ic_accounts c !! j = Some entry ->
  frame_program_id (StackFrame_new (length program_indices) (programs ++ keyed)) = Some entry.1.
Proof.
  intros Hp _ Hlast Hj. unfold frame_program_id. cbn. rewrite last_lookup in Hlast.
  destruct (collect_lookup _ _ _ _ _ Hp Hlast) as (k & Hk & Hf).
  unfold program_keyed, indexed_account in Hf. rewrite Hj in Hf. cbn in Hf. simplify_eq.
  rewrite <- Nat.sub_1_r in Hk. rewrite lookup_app_l by (by eapply lookup_lt_Some). by rewrite Hk.
Qed.

(** [push] keeps the stack within the depth limit and free of reentrancy: the
    new frame belongs to the program named by the indices, it is allowed only
    when that program is not on the stack yet or is the one that is running, and
    the blocks of calls stay blocks. *)
Theorem push_no_reentrancy message instruction program_indices account_indices c c' :
  program_indices ≠ [] -> no_reentrancy (stack_ids c) ->
  push message instruction program_indices account_indices c = (Ok tt, c') ->
  no_reentrancy (stack_ids c') /\ (get_stack_height c' <= S (max_invoke_depth (compute_budget c)))%nat /\
  exists j entry, last program_indices = Some j /\ ic_accounts c !! j = Some entry /\
    stack_ids c' = Some entry.1 :: stack_ids c.
Proof.
  intros Hne Hr Hp. pose proof (push_Ok _ _ _ _ _ _ Hp) as (Hdepth & frame & _).
  unfold push, indexed_account in Hp. ok_inv.
  destruct (last program_indices) as [j|] eqn:Hlast; [|by apply last_None in Hlast]. ok_inv.
  match goal with H : ic_accounts c !! j = Some ?e |- _ => rename H into Hj, e into entry end.
  match goal with H1 : collect (program_keyed c) _ = _, H2 : collect (instruction_keyed _ _ _) _ = _ |- _ =>
    pose proof (pushed_frame_id _ _ _ _ _ _ _ _ _ H1 H2 Hlast Hj) as Hid end.
  match goal with H : (match invoke_stack c with [] => _ | _ => _ end) _ = (Ok _, ?c1) |- _ =>
    assert (invoke_stack c1 = invoke_stack c /\ (Some entry.1 ∉ stack_ids c \/ head (stack_ids c) = Some (Some entry.1)))
      as [Hst Hfresh]; [|clear H] end.
  { unfold stack_ids. destruct (invoke_stack c) as [|f fs] eqn:Hst.
    - match goal with H : push_first _ _ _ = _ |- _ => apply push_first_Ok in H as (b & m & pas & -> & _) end.
      split; [by destruct c|]. left. by apply not_elem_of_nil.
    - unfold push_reentrancy in *. ok_inv. split; [done|]. rewrite Hst in *.
      match goal with H : _ && _ = false |- _ => apply andb_false_iff in H as [Hno|Hlast']; [left|right] end.
      + intros (g & Hg & Hin)%list_elem_of_fmap. eapply existsb_false in Hno; [|exact Hin].
        by case_bool_decide.
      + apply negb_false_iff, bool_decide_eq_true in Hlast'. cbn in *. by rewrite Hlast'. }
  rewrite set_stack_ids, set_stack_height. cbn [fmap list_fmap length]. rewrite Hst, Hid.
  fold (stack_ids c). split; [by apply no_reentrancy_cons|]. split; [lia|eauto].
Qed.

Lemma push_reentrancy_same program_id c r c' : push_reentrancy program_id c = (r, c') -> c' = c.
Proof. unfold push_reentrancy. se_eval. by intros [= _ <-]. Qed.

(** An invocation whose frame cannot be pushed (the depth limit, reentrancy, an
    account out of range) still pops a frame: the frame of the caller, which
    goes on running with the stack of its own caller. *)
Theorem failed_push_pops_caller `{Bincode UpgradeableLoaderState} builtin_programs native_loader message instruction
    program_indices account_indices privileges c c1 f fs e c2 :
  invoke_stack c = f :: fs ->
  verify_and_update instruction account_indices privileges c = (Ok tt, c1) ->
  push message instruction program_indices account_indices c1 = (Err e, c2) ->
  exists c', process_instruction builtin_programs native_loader message instruction program_indices account_indices
      privileges c = (mkProcessInstructionResult 0 (Err e), c') /\ invoke_stack c' = fs.
Proof.
  intros Hst Hv Hp. unfold process_instruction. rewrite Hst, bool_decide_eq_false_2 by done. cbn [negb].
  rewrite Hv, Hp. eexists. split; [done|]. apply verify_and_update_Ok in Hv as (_ & Hst1 & _).
  assert (invoke_stack c2 = f :: fs) as Hst2; [|destruct c2; cbn in *; by subst].
  rewrite <- Hst, <- Hst1. rewrite Hst in Hst1. clear - Hp Hst1.
  unfold push in Hp. revert Hp. se_eval. rewrite Hst1.
  repeat (case_match; simplify_eq; try done); intros; simplify_eq; try done.
  all: match goal with H : push_reentrancy _ _ = _ |- _ => by apply push_reentrancy_same in H as -> end.
Qed.

(** The check at a cross-program invocation never charges the accounts data
    meter: the saved state is replaced before the sizes are compared, so what
    the accounts grow by up to that point is charged neither here nor by the
    check at the end of the instruction. *)
Theorem cpi_check_never_charges instruction account_indices write_privileges c c' :
  in_i64 (adm_delta (accounts_data_meter c)) ->
  verify_and_update instruction account_indices write_privileges c = (Ok tt, c') ->
  accounts_data_meter c' = accounts_data_meter c.
Proof. intros Hd Hv. apply verify_and_update_Ok in Hv as (_ & _ & _ & Hm). auto. Qed.
