(* ===== verification/InvokeExample.v ===== *)
(** * Invoke context: concrete executions

    Small programs run by the invoke context: the hypotheses of the theorems of
    [InvokeSpec] hold for them, and they show where the runtime's checks end. *)
From stdpp Require Import base numbers option list gmap.
From S2P Require Import Prelude Instruction Account EpochSchedule Float64 Rent Sysvar Message MessageSpec.
From S2P Require Import PreAccount ComputeBudget InvokeContext InvokeSpec.

#[global] Instance UpgradeableLoaderState_eq_dec : EqDecision UpgradeableLoaderState.
Proof. solve_decision. Defined.

#[local] Instance loader_codec : Bincode UpgradeableLoaderState := table_codec [LoaderUninitialized].

(** ** Programs *)

Definition update_account (i : nat) (f : AccountSharedData -> AccountSharedData) (c : InvokeContext) : InvokeContext :=
  set_accounts (alter (fun e => (e.1, f e.2)) i (ic_accounts c)) c.

Lemma update_account_keeps i f c : keeps c (update_account i f c).
Proof.
  destruct c as [st r pa accts sc cb ccb m dm tr fs bh lps rd]. split; try done. cbn.
  apply list_eq. intros j. rewrite !list_lookup_fmap, list_lookup_alter.
  case_decide; [subst|done]. by destruct (accts !! j).
Qed.

Definition keyed_at (n : nat) : IM KeyedAccount :=
  c ← get; ks ← lift (get_keyed_accounts c); lift (ok_or NotEnoughAccountKeys (ks !! n)).

(** Moves lamports from its first account to its second. *)
Definition mover : Program := fun _ n d =>
  from ← keyed_at n; to ← keyed_at (S n);
  _ ← modify (update_account (account from) (fun a => set_lamports (lamports a - default 0 (head d)) a));
  modify (update_account (account to) (fun a => set_lamports (lamports a + default 0 (head d)) a)).

(** Appends a zero byte to the data of its first account. *)
Definition grower : Program := fun _ n _ =>
  k ← keyed_at n; modify (update_account (account k) (fun a => set_data (data a ++ [0]) a)).

(** Makes one cross-program invocation. *)
Definition caller (ix : Instruction) : Program := fun invoke _ _ => invoke ix [].

Lemma confined_local (m : nat -> list Z -> IM unit) : (forall n d, well_behaved (m n d)) -> confined (fun _ => m).
Proof. intros Hm. split; [done|done]. Qed.

Lemma keyed_at_Ok n c k c' : keyed_at n c = (Ok k, c') -> c' = c.
Proof. unfold keyed_at. intros H. by ok_inv. Qed.

Lemma mover_confined : confined mover.
Proof.
  apply (confined_local (mover (fun _ _ => panic))). intros n d c c' _ H. unfold mover in H. ok_inv.
  repeat match goal with H : keyed_at _ _ = _ |- _ => apply keyed_at_Ok in H as -> end.
  etransitivity; apply update_account_keeps.
Qed.

Lemma grower_confined : confined grower.
Proof.
  apply (confined_local (grower (fun _ _ => panic))). intros n d c c' _ H. unfold grower in H. ok_inv.
  match goal with H : keyed_at _ _ = _ |- _ => apply keyed_at_Ok in H as -> end. apply update_account_keeps.
Qed.

Lemma caller_confined ix : confined (caller ix).
Proof.
  split.
  - intros invoke Hi n d. apply Hi.
  - intros i1 i2 c Hi n d. by apply Hi.
Qed.

Definition no_loader : Program := fun _ _ _ => throw UnsupportedProgramId.
Lemma no_loader_confined : confined no_loader.
Proof. apply (confined_local (fun _ _ => throw UnsupportedProgramId)). by intros n d c c' _ ?. Qed.

(** ** A transaction *)

Definition program_account : AccountSharedData := mkAccount 1 [] native_loader_id true 0.
Definition owned_by (id : Pubkey) (lamports : Z) : AccountSharedData := mkAccount lamports [] id false 0.

(** Accounts 1, 2 and 3 belong to program 10; the message calls program 20,
    which calls 10. *)
Definition example_accounts : list (Pubkey * AccountSharedData) :=
  [(1, owned_by 10 300); (2, owned_by 10 500); (3, owned_by 10 700); (10, program_account); (20, program_account)].

Definition example_context : InvokeContext :=
  InvokeContext_new Rent_default example_accounts (mkSysvarCache None None None None) ComputeBudget_default
    {[ do_support_realloc := 0 ]} 0 0 0.

(** Keys 1 and 2 sign, 2 read-only; 3 is writable. *)
Definition example_ix : CompiledInstruction := mkCompiledInstruction 4 [1; 2; 0; 3] [].
Definition example_message : SanitizedMessage :=
  Legacy (mkMessage (mkMessageHeader 2 1 2) [1; 2; 3; 10; 20] 0 [example_ix]).

(** The call moves 100 lamports from account 1 to account 3. *)
Definition plain_call : Instruction :=
  mkInstruction 10 [mkAccountMeta 1 true true; mkAccountMeta 3 false true] [100].

Definition programs_with (ix : Instruction) : list (Pubkey * Program) := [(10, mover); (20, caller ix)].

Lemma programs_with_confined ix : Forall (fun p => confined p.2) (programs_with ix).
Proof. constructor; [apply mover_confined|]. constructor; [apply caller_confined|constructor]. Qed.

(** The accounts' lamports and data sizes after the instruction, with its result. *)
Definition run_example (programs : list (Pubkey * Program)) (fuel : nat)
  : outcome InstructionError unit * list (Z * Z) * Z :=
  let '(r, c) := process_top_level programs no_loader fuel example_message example_ix [4%nat] example_context in
  (pir_result r, (fun e => (lamports e.2, Z.of_nat (length (data e.2)))) <$> ic_accounts c, adm_delta (accounts_data_meter c)).




(** The context inside program 20, and inside program 10. *)
Definition called (program_index : nat) : InvokeContext :=
  snd (push example_message example_ix [program_index] [] example_context).

Lemma create_message_no_escalation_witness :
  exists m privileges program_indices,
    create_message plain_call [] (called 4) = (Ok (m, privileges, program_indices), called 4) /\
    account_keys m = [1; 3; 10] /\ privileges = [true; true; false] /\
    exists caller ka, get_instruction_keyed_accounts (called 4) = Ok caller /\
      find_keyed caller 1 = Some ka /\ is_signer ka = true.
Proof.
  destruct (create_message plain_call [] (called 4)) as [r c'] eqn:Hc.
  assert (exists m privileges program_indices, r = Ok (m, privileges, program_indices) /\
    account_keys m = [1; 3; 10] /\ Message_is_signer m 0 = true /\ privileges = [true; true; false])
    as (m & privileges & program_indices & -> & Hk & Hs & Hp).
  { apply (f_equal fst) in Hc. vm_compute in Hc. subst r. eexists _, _, _. done. }
  destruct (create_message_no_escalation plain_call [] (called 4) m privileges program_indices c')
    as (-> & caller & Hcaller & Hacc & _); [vm_compute; lia|exact Hc|].
  exists m, privileges, program_indices. split_and!; [done|done|done|].
  destruct (Hacc 0%nat 1) as (ka & Hka & _ & Hsig & _); [by rewrite Hk|].
  exists caller, ka. split_and!; [done|done|]. destruct (Hsig Hs) as [|[]%not_elem_of_nil]; done.
Defined.

Lemma push_no_reentrancy_witness :
  stack_ids (called 4) = [Some 20] /\ no_reentrancy (stack_ids (called 4)).
Proof.
  split; [vm_compute; reflexivity|].
  apply (push_no_reentrancy example_message example_ix [4%nat] [] example_context (called 4)); [done| |].
  - intros i j k x _ Hi. done.
  - vm_compute. reflexivity.
Defined.

(** Program 20 calls 10, which calls 20 again: the frame of 10 is popped. *)
Definition nested : InvokeContext :=
  set_stack (StackFrame_new 1 [mkKeyedAccount false false 10 3] :: invoke_stack (called 4)) (called 4).

Lemma failed_push_pops_caller_witness :
  let ix := mkCompiledInstruction 4 [] [] in
  exists c', process_instruction [] (fun _ _ => throw UnsupportedProgramId) example_message ix [4%nat] [] [] nested
      = (mkProcessInstructionResult 0 (Err ReentrancyNotAllowed), c') /\
    stack_ids nested = [Some 10; Some 20] /\ invoke_stack c' = invoke_stack (called 4).
Proof.
  destruct (failed_push_pops_caller [] (fun _ _ => throw UnsupportedProgramId) example_message
    (mkCompiledInstruction 4 [] []) [4%nat] [] [] nested nested
    (StackFrame_new 1 [mkKeyedAccount false false 10 3]) (invoke_stack (called 4)) ReentrancyNotAllowed nested)
    as (c' & Hp & Hst); [vm_compute; reflexivity..|].
  exists c'. split_and!; [exact Hp|vm_compute; reflexivity|exact Hst].
Defined.

(** Account 1 has grown by one byte when program 10 invokes another. *)
Lemma cpi_check_never_charges_witness :
  let grown := update_account 0 (fun a => set_data [0] a) (called 3) in
  exists c', verify_and_update (mkCompiledInstruction 3 [0] []) [0%nat] [true] grown = (Ok tt, c') /\
    accounts_data_meter c' = accounts_data_meter (called 3) /\
    (length ∘ data ∘ snd <$> ic_accounts c' !! 0%nat) = Some 1%nat /\
    (length ∘ data ∘ pa_account <$> pre_accounts c' !! 2%nat) = Some 1%nat.
Proof.
  destruct (verify_and_update (mkCompiledInstruction 3 [0] []) [0%nat] [true]
    (update_account 0 (fun a => set_data [0] a) (called 3))) as [r c'] eqn:Hv.
  assert (r = Ok tt) as -> by (apply (f_equal fst) in Hv; vm_compute in Hv; by subst r).
  exists c'. split; [done|]. split.
  - assert (in_i64 (adm_delta (accounts_data_meter (update_account 0 (fun a => set_data [0] a) (called 3))))) as Hd
      by (vm_compute; done).
    rewrite (cpi_check_never_charges _ _ _ _ _ Hd Hv). vm_compute. reflexivity.
  - apply (f_equal snd) in Hv. vm_compute in Hv. subst c'. vm_compute. done.
Defined.
