(* ===== verification/Nonce.v ===== *)
(** * Durable nonces

    [sdk/program/src/nonce/state/*.rs], [sdk/src/nonce_account.rs] and
    [runtime/src/nonce_keyed_account.rs]: the nonce account and the handlers of
    the system program on it. SHA-256 is a parameter. *)
From Stdlib Require Import String Ascii.
From stdpp Require Import base numbers option list gmap.
From S2P Require Import Prelude Instruction Account EpochSchedule Float64 Rent Sysvar.

Definition separate_nonce_from_blockhash : Pubkey := Eval vm_compute in pubkey_of "Gea3ZkK2N4pHuVZVxWcnAtS6UEDdyumdYt4pFcKjA3ar".
Definition merge_nonce_error_into_system_error : Pubkey :=
  Eval vm_compute in pubkey_of "21AWDosvp3pBamFW91KB35pNoaoZVTM7ess8nr2nt53B".

(** ** Errors *)

Inductive SystemError : Type :=
| AccountAlreadyInUse
| ResultWithNegativeLamports
| InvalidProgramId
| InvalidAccountDataLength
| SystemMaxSeedLengthExceeded
| AddressWithSeedMismatch
| NonceNoRecentBlockhashes
| NonceBlockhashNotExpired
| NonceUnexpectedBlockhashValue.

Inductive NonceError : Type := NoRecentBlockhashes | NotExpired | UnexpectedValue | BadAccountState.

(** [ToPrimitive] of the enumerations, and their conversion to [InstructionError]. *)
Definition SystemError_to_u64 (e : SystemError) : Z :=
  match e with
  | AccountAlreadyInUse => 0
  | ResultWithNegativeLamports => 1
  | InvalidProgramId => 2
  | InvalidAccountDataLength => 3
  | SystemMaxSeedLengthExceeded => 4
  | AddressWithSeedMismatch => 5
  | NonceNoRecentBlockhashes => 6
  | NonceBlockhashNotExpired => 7
  | NonceUnexpectedBlockhashValue => 8
  end.
Definition NonceError_to_u64 (e : NonceError) : Z :=
  match e with NoRecentBlockhashes => 0 | NotExpired => 1 | UnexpectedValue => 2 | BadAccountState => 3 end.

Definition system_error (e : SystemError) : InstructionError := InstructionError_from_u64 (SystemError_to_u64 e).
Definition nonce_error (e : NonceError) : InstructionError := InstructionError_from_u64 (NonceError_to_u64 e).

Definition nonce_to_instruction_error (error : NonceError) (use_system_variant : bool) : InstructionError :=
  if use_system_variant then
    match error with
    | NoRecentBlockhashes => system_error NonceNoRecentBlockhashes
    | NotExpired => system_error NonceBlockhashNotExpired
    | UnexpectedValue => system_error NonceUnexpectedBlockhashValue
    | BadAccountState => InvalidAccountData
    end
  else nonce_error error.

(** [decode_custom_error_to_enum] *)
Definition SystemError_from_u32 (code : Z) : option SystemError :=
  [AccountAlreadyInUse; ResultWithNegativeLamports; InvalidProgramId; InvalidAccountDataLength;
   SystemMaxSeedLengthExceeded; AddressWithSeedMismatch; NonceNoRecentBlockhashes; NonceBlockhashNotExpired;
   NonceUnexpectedBlockhashValue] !! Z.to_nat code.
Definition NonceError_from_u32 (code : Z) : option NonceError :=
  [NoRecentBlockhashes; NotExpired; UnexpectedValue; BadAccountState] !! Z.to_nat code.

Definition instruction_to_nonce_error (error : InstructionError) (use_system_variant : bool) : option NonceError :=
  if use_system_variant then
    match error with
    | Custom discriminant =>
        match SystemError_from_u32 discriminant with
        | Some NonceNoRecentBlockhashes => Some NoRecentBlockhashes
        | Some NonceBlockhashNotExpired => Some NotExpired
        | Some NonceUnexpectedBlockhashValue => Some UnexpectedValue
        | _ => None
        end
    | InvalidAccountData => Some BadAccountState
    | _ => None
    end
  else
    match error with
    | Custom discriminant => NonceError_from_u32 discriminant
    | _ => None
    end.

(** ** State *)

(** The 32 bytes of a [Hash] or [Pubkey], most significant first. *)
Definition hash_bytes (h : Z) : list Z :=
  (fun i => (h / 256 ^ Z.of_nat (31 - i)) mod 256) <$> seq 0 32.

Definition ascii_bytes (s : string) : list Z := (fun c => Z.of_N (N_of_ascii c)) <$> list_ascii_of_string s.

Record NonceData : Type := mkNonceData {
  nd_authority : Pubkey;
  nd_durable_nonce : Hash;
  (** [fee_calculator.lamports_per_signature] *)
  nd_lamports_per_signature : Z;
}.

Inductive NonceState : Type :=
| NonceUninitialized
| NonceInitialized (data : NonceData).

Inductive NonceVersions : Type :=
| NonceLegacy (state : NonceState)
| NonceCurrent (state : NonceState).

Definition NonceVersions_new (state : NonceState) (separate_domains : bool) : NonceVersions :=
  if separate_domains then NonceCurrent state else NonceLegacy state.

Definition nonce_state (v : NonceVersions) : NonceState :=
  match v with NonceLegacy state => state | NonceCurrent state => state end.

Definition versions_separate_domains (v : NonceVersions) : bool :=
  match v with NonceLegacy _ => false | NonceCurrent _ => true end.

Definition verify_recent_blockhash (v : NonceVersions) (recent_blockhash : Hash) (separate_domains : bool)
  : option NonceData :=
  let check state :=
    match state with
    | NonceUninitialized => None
    | NonceInitialized data => if recent_blockhash =? nd_durable_nonce data then Some data else None
    end in
  match v with
  | NonceLegacy state => if separate_domains then None else check state
  | NonceCurrent state => check state
  end.

Section nonce.
(** [hashv]: SHA-256 of the concatenation. *)
Context (sha256 : list Z -> Hash).
Context `{Bincode NonceVersions}.

Definition DURABLE_NONCE_HASH_PREFIX : list Z := ascii_bytes "DURABLE_NONCE".

Definition DurableNonce_from_blockhash (blockhash : Hash) (separate_domains : bool) : Hash :=
  if separate_domains then sha256 (DURABLE_NONCE_HASH_PREFIX ++ hash_bytes blockhash) else blockhash.

Definition nonce_upgrade (v : NonceVersions) : option NonceVersions :=
  match v with
  | NonceLegacy NonceUninitialized => None
  | NonceLegacy (NonceInitialized data) =>
      Some (NonceCurrent (NonceInitialized (mkNonceData (nd_authority data)
        (DurableNonce_from_blockhash (nd_durable_nonce data) true) (nd_lamports_per_signature data))))
  | NonceCurrent _ => None
  end.

(** ** Checking a transaction *)

Definition verify_nonce_account (account : AccountSharedData) (recent_blockhash : Hash) (separate_domains : bool)
  : option NonceData :=
  if owner account =? system_program_id then
    versions ← ok (account_state account);
    verify_recent_blockhash versions recent_blockhash separate_domains
  else None.

Definition lamports_per_signature_of (account : AccountSharedData) : option Z :=
  versions ← ok (account_state account);
  match nonce_state versions with
  | NonceInitialized data => Some (nd_lamports_per_signature data)
  | NonceUninitialized => None
  end.

(** ** Handlers *)

Section handlers.
Context (ctx : ProgramContext).

Definition active (id : Pubkey) : bool := is_active (pc_feature_set ctx) id.
Definition nonce_err (e : NonceError) : InstructionError :=
  nonce_to_instruction_error e (active merge_nonce_error_into_system_error).

Definition get_durable_nonce : Hash * bool :=
  let separate := active separate_nonce_from_blockhash in
  (DurableNonce_from_blockhash (pc_blockhash ctx) separate, separate).

Definition check_nonce_writable (me : KeyedAccount) : AM unit :=
  ensure (negb (active nonce_must_be_writable && negb (is_writable me))) InvalidArgument.

Definition advance_nonce_account (me : KeyedAccount) (signers : list Pubkey) : AM unit :=
  _ ← check_nonce_writable me;
  state ← ka_state me;
  match nonce_state state with
  | NonceInitialized data =>
      _ ← ensure (bool_decide (nd_authority data ∈ signers)) MissingRequiredSignature;
      let '(next_durable_nonce, separate_domains) := get_durable_nonce in
      _ ← ensure (negb (nd_durable_nonce data =? next_durable_nonce)) (nonce_err NotExpired);
      let new_data := mkNonceData (nd_authority data) next_durable_nonce (pc_lamports_per_signature ctx) in
      ka_set_state me (NonceVersions_new (NonceInitialized new_data) separate_domains)
  | NonceUninitialized => throw (nonce_err BadAccountState)
  end.

(** The checks of [withdraw_nonce_account]; returns the key that must sign. *)
Definition withdraw_nonce_signer (me : KeyedAccount) (lamports : Z) (rent : Rent) : AM Pubkey :=
  state ← ka_state me;
  balance ← ka_lamports me;
  match nonce_state state with
  | NonceUninitialized =>
      _ ← ensure (negb (balance <? lamports)) InsufficientFunds;
      mret (unsigned_key me)
  | NonceInitialized data =>
      _ ← (if lamports =? balance then
             let '(durable_nonce, separate_domains) := get_durable_nonce in
             _ ← ensure (negb (nd_durable_nonce data =? durable_nonce)) (nonce_err NotExpired);
             ka_set_state me (NonceVersions_new NonceUninitialized separate_domains)
           else
             data_len ← ka_data_len me;
             amount ← lift (ok_or InsufficientFunds (checked_add64 lamports (minimum_balance rent data_len)));
             ensure (negb (balance <? amount)) InsufficientFunds);
      mret (nd_authority data)
  end.

Definition withdraw_nonce_account (me : KeyedAccount) (lamports : Z) (to : KeyedAccount) (rent : Rent)
    (signers : list Pubkey) : AM unit :=
  _ ← check_nonce_writable me;
  signer ← withdraw_nonce_signer me lamports rent;
  _ ← ensure (bool_decide (signer ∈ signers)) MissingRequiredSignature;
  nonce_balance ← ka_lamports me;
  nonce_balance ← lift (ok_or ArithmeticOverflow (checked_sub64 nonce_balance lamports));
  _ ← with_account me (modify (set_lamports nonce_balance));
  to_balance ← ka_lamports to;
  to_balance ← lift (ok_or ArithmeticOverflow (checked_add64 to_balance lamports));
  with_account to (modify (set_lamports to_balance)).

Definition initialize_nonce_account (me : KeyedAccount) (nonce_authority : Pubkey) (rent : Rent) : AM unit :=
  _ ← check_nonce_writable me;
  state ← ka_state me;
  match nonce_state state with
  | NonceUninitialized =>
      data_len ← ka_data_len me;
      balance ← ka_lamports me;
      _ ← ensure (negb (balance <? minimum_balance rent data_len)) InsufficientFunds;
      let '(durable_nonce, separate_domains) := get_durable_nonce in
      let data := mkNonceData nonce_authority durable_nonce (pc_lamports_per_signature ctx) in
      ka_set_state me (NonceVersions_new (NonceInitialized data) separate_domains)
  | NonceInitialized _ => throw (nonce_err BadAccountState)
  end.

Definition authorize_nonce_account (me : KeyedAccount) (nonce_authority : Pubkey) (signers : list Pubkey) : AM unit :=
  _ ← check_nonce_writable me;
  state ← ka_state me;
  let separate_domains := versions_separate_domains state in
  match nonce_state state with
  | NonceInitialized data =>
      _ ← ensure (bool_decide (nd_authority data ∈ signers)) MissingRequiredSignature;
      let new_data := mkNonceData nonce_authority (nd_durable_nonce data) (nd_lamports_per_signature data) in
      ka_set_state me (NonceVersions_new (NonceInitialized new_data) separate_domains)
  | NonceUninitialized => throw (nonce_err BadAccountState)
  end.
End handlers.
End nonce.

(** ** What the handlers do *)

Section spec.
Context (sha256 : list Z -> Hash).
Context `{BincodeLaws NonceVersions}.
Context (ctx : ProgramContext).

Let next_nonce := fst (get_durable_nonce sha256 ctx).
Let separate := active ctx separate_nonce_from_blockhash.

Lemma advance_Ok me signers s u s' : advance_nonce_account sha256 ctx me signers s = (Ok u, s') ->
  exists v d, nonce_state v = NonceInitialized d /\ nd_authority d ∈ signers /\ nd_durable_nonce d ≠ next_nonce /\
    stores_state me s s' v (NonceVersions_new
      (NonceInitialized (mkNonceData (nd_authority d) next_nonce (pc_lamports_per_signature ctx))) separate).
Proof.
  unfold advance_nonce_account, check_nonce_writable, get_durable_nonce. intros Hr. read_inv.
  destruct (nonce_state _) as [|d] eqn:Hd; read_inv.
  match goal with H : _ =? _ = false |- _ => apply Z.eqb_neq in H end.
  eexists _, d. split_and!; [exact Hd|done|done|]. store_state.
Qed.

Lemma authorize_Ok me pk signers s u s' : authorize_nonce_account ctx me pk signers s = (Ok u, s') ->
  exists v d, nonce_state v = NonceInitialized d /\ nd_authority d ∈ signers /\
    stores_state me s s' v (NonceVersions_new
      (NonceInitialized (mkNonceData pk (nd_durable_nonce d) (nd_lamports_per_signature d)))
      (versions_separate_domains v)).
Proof.
  unfold authorize_nonce_account, check_nonce_writable. intros Hr. read_inv.
  destruct (nonce_state _) as [|d] eqn:Hd; read_inv.
  eexists _, d. split_and!; [exact Hd|done|]. store_state.
Qed.

Lemma initialize_Ok me pk rent s u s' : initialize_nonce_account sha256 ctx me pk rent s = (Ok u, s') ->
  exists v, nonce_state v = NonceUninitialized /\
    stores_state me s s' v (NonceVersions_new
      (NonceInitialized (mkNonceData pk next_nonce (pc_lamports_per_signature ctx))) separate).
Proof.
  unfold initialize_nonce_account, check_nonce_writable, get_durable_nonce. intros Hr. read_inv.
  eexists _. split; [done|]. store_state.
Qed.

(** [n] lamports leave [me], whose data becomes [b], for [to]. *)
Definition nonce_withdraws (me to : KeyedAccount) (n : Z) (rent : Rent) (signers : list Pubkey) (s s' : Accounts)
  : Prop :=
  exists a b c v, s !! account me = Some a /\ account_state a = Ok v /\ n <= lamports a /\ length b = length (data a) /\
    match nonce_state v with
    | NonceUninitialized => unsigned_key me ∈ signers /\ b = data a
    | NonceInitialized d =>
        nd_authority d ∈ signers /\
        if n =? lamports a
        then nd_durable_nonce d ≠ next_nonce /\ account_state (set_data b a) = Ok (NonceVersions_new NonceUninitialized separate)
        else b = data a /\ minimum_balance rent (Z.of_nat (length (data a))) <= lamports a - n
    end /\
    <[account me := set_lamports (lamports a - n) (set_data b a)]> s !! account to = Some c /\
    lamports c + n <= U64_MAX /\
    s' = <[account to := set_lamports (lamports c + n) c]>
           (<[account me := set_lamports (lamports a - n) (set_data b a)]> s).

Lemma withdraw_signer_Ok me n rent s signer s1 :
  withdraw_nonce_signer sha256 ctx me n rent s = (Ok signer, s1) ->
  exists a b v, s !! account me = Some a /\ account_state a = Ok v /\ n <= lamports a /\ length b = length (data a) /\
    s1 = <[account me := set_data b a]> s /\
    match nonce_state v with
    | NonceUninitialized => signer = unsigned_key me /\ b = data a
    | NonceInitialized d => signer = nd_authority d /\
        if n =? lamports a
        then nd_durable_nonce d ≠ next_nonce /\ account_state (set_data b a) = Ok (NonceVersions_new NonceUninitialized separate)
        else b = data a /\ minimum_balance rent (Z.of_nat (length (data a))) <= lamports a - n
    end.
Proof.
  unfold withdraw_nonce_signer, get_durable_nonce. intros Hr. read_inv.
  match goal with H1 : s !! _ = Some ?a, H2 : s !! _ = Some ?b |- _ =>
    assert (b = a) as -> by congruence; clear H2; rename a into acct, H1 into Ha end.
  match goal with H : account_state acct = Ok ?x |- _ => rename x into v, H into Hv end.
  assert (<[account me := set_data (data acct) acct]> s = s) as Hid.
  { apply list_insert_id. rewrite Ha. by destruct acct. }
  destruct (nonce_state v) as [|d] eqn:Hd; read_inv.
  - match goal with H : _ <? _ = false |- _ => apply Z.ltb_ge in H end.
    exists acct, (data acct), v. rewrite Hd. by split_and!.
  - match goal with H : _ =? _ = false |- _ => apply Z.eqb_neq in H end.
    match goal with H : (n =? _) = true |- _ => apply Z.eqb_eq in H end. subst n.
    match goal with H : ka_set_state _ _ _ = _ |- _ => apply ka_set_state_Ok in H as (a' & b & Ha' & -> & Hl & Hst) end.
    assert (a' = acct) as -> by congruence. exists acct, b, v. rewrite Hd, Z.eqb_refl. by split_and!.
  - match goal with H : s !! _ = Some ?a' |- _ => assert (a' = acct) as -> by congruence end.
    match goal with H : _ <? _ = false |- _ => apply Z.ltb_ge in H end.
    pose proof (f64_to_u64_range : forall x, 0 <= f64_to_u64 x <= U64_MAX) as Hr.
    assert (0 <= minimum_balance rent (Z.of_nat (length (data acct)))) by apply Hr.
    match goal with H : (n =? _) = false |- _ => rename H into Hne end.
    exists acct, (data acct), v. rewrite Hd, Hne. split_and!; try done; lia.
Qed.

Lemma withdraw_Ok me n to rent signers s u s' :
  withdraw_nonce_account sha256 ctx me n to rent signers s = (Ok u, s') ->
  nonce_withdraws me to n rent signers s s'.
Proof.
  unfold withdraw_nonce_account, check_nonce_writable. intros Hr. ok_inv.
  match goal with H : withdraw_nonce_signer _ _ _ _ _ _ = _ |- _ =>
    apply withdraw_signer_Ok in H as (a & b & v & Ha & Hv & Hn & Hb & -> & Hcase) end.
  acct_inv. pose proof (list_lookup_insert_eq s (account me) (set_data b a) (lookup_lt_Some _ _ _ Ha)) as Heq.
  repeat match goal with H : <[account me := set_data b a]> s !! account me = Some ?y |- _ =>
    assert (y = set_data b a) as -> by congruence; clear H end.
  match goal with H1 : ?t !! account to = Some ?x, H2 : ?t !! account to = Some ?y |- _ =>
    assert (y = x) as -> by congruence; clear H2; rename x into c, H1 into Hc end.
  rewrite list_insert_insert_eq in *. exists a, b, c, v. split_and!; try done.
  destruct (nonce_state v) as [|d]; destruct Hcase as [-> Hcase]; done.
Qed.
(** ** Properties *)

(** C21. A durable nonce is used once. When the nonce of an account is advanced, its
    authority has signed; afterwards no transaction that names the old nonce
    verifies against the account, one that names the new nonce does, nothing but
    the account's data has changed, and a second advance in the same block
    fails. *)
Theorem durable_nonce_single_use me signers s s' a v d :
  s !! account me = Some a -> account_state a = Ok v -> nonce_state v = NonceInitialized d ->
  owner a = system_program_id -> advance_nonce_account sha256 ctx me signers s = (Ok tt, s') ->
  nd_authority d ∈ signers /\
  exists a', s' = <[account me := a']> s /\ account_frame a a' /\ lamports a' = lamports a /\
    (forall separate_domains, verify_nonce_account a' (nd_durable_nonce d) separate_domains = None) /\
    verify_nonce_account a' next_nonce separate
      = Some (mkNonceData (nd_authority d) next_nonce (pc_lamports_per_signature ctx)) /\
    fst (advance_nonce_account sha256 ctx me signers s') = Err (nonce_err ctx NotExpired).
Proof.
  intros Ha Hv Hd Ho Hadv. pose proof Hadv as (v0 & d0 & Hd0 & Hsig & Hne & Hst)%advance_Ok.
  destruct Hst as (a0 & b & Ha0 & Hv0 & -> & Hl & Hv'). assert (a0 = a) as -> by congruence.
  assert (v0 = v) as -> by congruence. assert (d0 = d) as -> by congruence.
  split; [done|]. exists (set_data b a). split_and!; try done.
  - intros sep. unfold verify_nonce_account. cbn [set_data owner]. rewrite Ho, Z.eqb_refl, Hv'.
    unfold NonceVersions_new. destruct separate, sep; cbn; rewrite ?(proj2 (Z.eqb_neq _ _)) by done; done.
  - unfold verify_nonce_account. cbn [set_data owner]. rewrite Ho, Z.eqb_refl, Hv'.
    unfold NonceVersions_new. destruct separate; cbn; by rewrite Z.eqb_refl.
  - unfold advance_nonce_account in *. apply SE_bind_Ok in Hadv as ([] & s1 & Hw & _).
    unfold check_nonce_writable in *. apply ensure_Ok in Hw as [Hw _]. se_eval. rewrite Hw.
    unfold ka_state, try_account_ref. se_eval.
    rewrite list_lookup_insert_eq by (by eapply lookup_lt_Some). cbn [unwrap]. rewrite Hv'.
    assert (nonce_state (NonceVersions_new (NonceInitialized (mkNonceData (nd_authority d) next_nonce
      (pc_lamports_per_signature ctx))) separate) = NonceInitialized (mkNonceData (nd_authority d) next_nonce
      (pc_lamports_per_signature ctx))) as -> by (by destruct separate).
    cbn [nd_authority nd_durable_nonce]. rewrite bool_decide_eq_true_2 by done.
    unfold get_durable_nonce. unfold next_nonce, get_durable_nonce. cbn [fst]. by rewrite Z.eqb_refl.
Qed.
End spec.
