(* ===== verification/System.v ===== *)
(** * The system program

    [runtime/src/system_instruction_processor.rs] with the instructions of
    [sdk/program/src/system_instruction.rs] and the derivation of addresses with
    a seed ([sdk/program/src/pubkey.rs]). SHA-256 is a parameter; a seed is the
    list of its UTF-8 bytes. *)
From Stdlib Require Import String Ascii.
From stdpp Require Import base numbers option list gmap.
From S2P Require Import Prelude Instruction Account EpochSchedule Float64 Rent Sysvar PreAccount Nonce.

Definition rent_for_sysvars : Pubkey := Eval vm_compute in pubkey_of "BKCPBQQBZqggVnFso5nQ8rQ4RwwogYwjuUt9biBjxwNF".
Definition system_transfer_zero_check : Pubkey := Eval vm_compute in pubkey_of "BrTR9hzw4WBGFP65AJMbpAo64DcA3U6jdPSga9fMV5cS".
Definition recent_blockhashes_id : Pubkey := Eval vm_compute in pubkey_of "SysvarRecentB1ockHashes11111111111111111111".

Inductive SystemInstruction : Type :=
| CreateAccount (lamports space : Z) (owner : Pubkey)
| Assign (owner : Pubkey)
| Transfer (lamports : Z)
| CreateAccountWithSeed (base : Pubkey) (seed : list Z) (lamports space : Z) (owner : Pubkey)
| AdvanceNonceAccount
| WithdrawNonceAccount (lamports : Z)
| InitializeNonceAccount (authorized : Pubkey)
| AuthorizeNonceAccount (nonce_authority : Pubkey)
| Allocate (space : Z)
| AllocateWithSeed (base : Pubkey) (seed : list Z) (space : Z) (owner : Pubkey)
| AssignWithSeed (base : Pubkey) (seed : list Z) (owner : Pubkey)
| TransferWithSeed (lamports : Z) (from_seed : list Z) (from_owner : Pubkey)
| UpgradeNonceAccount.

(** The sysvar of recent blockhashes: a hash and the lamports per signature of each. *)
Record RecentBlockhashes : Type := mkRecentBlockhashes { rb_entries : list (Hash * Z) }.

Definition MAX_SEED_LEN : nat := 32.
Definition PDA_MARKER : list Z := ascii_bytes "ProgramDerivedAddress".

Inductive PubkeyError : Type := PubkeyMaxSeedLengthExceeded | PubkeyInvalidSeeds | PubkeyIllegalOwner.
Definition PubkeyError_to_u64 (e : PubkeyError) : Z :=
  match e with PubkeyMaxSeedLengthExceeded => 0 | PubkeyInvalidSeeds => 1 | PubkeyIllegalOwner => 2 end.

(** An address that may have been derived from a base key and a seed. *)
Record Address : Type := mkAddress {
  address : Pubkey;
  base : option Pubkey;
}.

Definition address_is_signer (a : Address) (signers : list Pubkey) : bool :=
  match base a with
  | Some b => bool_decide (b ∈ signers)
  | None => bool_decide (address a ∈ signers)
  end.

Section system.
Context (sha256 : list Z -> Hash).
Context `{Bincode NonceVersions} `{Bincode SystemInstruction} `{Bincode RecentBlockhashes} `{Bincode Rent}.

Definition create_with_seed (base : Pubkey) (seed : list Z) (owner : Pubkey) : outcome PubkeyError Pubkey :=
  if decide (MAX_SEED_LEN < length seed)%nat then Err PubkeyMaxSeedLengthExceeded
  else if bool_decide (drop (32 - length PDA_MARKER) (hash_bytes owner) = PDA_MARKER) then Err PubkeyIllegalOwner
  else Ok (sha256 (hash_bytes base ++ seed ++ hash_bytes owner)).

Definition pubkey_err {A} (o : outcome PubkeyError A) : outcome InstructionError A :=
  map_err (fun e => InstructionError_from_u64 (PubkeyError_to_u64 e)) o.

Definition Address_create (addr : Pubkey) (with_seed : option (Pubkey * list Z * Pubkey))
  : outcome InstructionError Address :=
  match with_seed with
  | Some (b, seed, owner) =>
      address_with_seed ← pubkey_err (create_with_seed b seed owner);
      if addr =? address_with_seed then Ok (mkAddress addr (Some b))
      else Err (system_error AddressWithSeedMismatch)
  | None => Ok (mkAddress addr None)
  end.

Section handlers.
Context (ctx : ProgramContext).

Definition allocate (addr : Address) (space : Z) (signers : list Pubkey)
  : SE AccountSharedData InstructionError unit :=
  _ ← ensure (address_is_signer addr signers) MissingRequiredSignature;
  account ← get;
  _ ← ensure (negb (negb (bool_decide (data account = [])) || negb (owner account =? system_program_id)))
        (system_error AccountAlreadyInUse);
  _ ← ensure (negb (MAX_PERMITTED_DATA_LENGTH <? space)) (system_error InvalidAccountDataLength);
  modify (set_data (replicate (Z.to_nat space) 0)).

Definition assign (addr : Address) (new_owner : Pubkey) (signers : list Pubkey)
  : SE AccountSharedData InstructionError unit :=
  account ← get;
  if owner account =? new_owner then mret tt
  else
    _ ← ensure (address_is_signer addr signers) MissingRequiredSignature;
    _ ← ensure (negb (negb (active ctx rent_for_sysvars) && (new_owner =? sysvar_id)))
          (system_error InvalidProgramId);
    modify (set_owner new_owner).

Definition allocate_and_assign (addr : Address) (space : Z) (new_owner : Pubkey) (signers : list Pubkey)
  : SE AccountSharedData InstructionError unit :=
  _ ← allocate addr space signers; assign addr new_owner signers.

Definition transfer_verified (from to : KeyedAccount) (lamports : Z) : AM unit :=
  empty ← ka_data_is_empty from;
  _ ← ensure empty InvalidArgument;
  balance ← ka_lamports from;
  _ ← ensure (negb (balance <? lamports)) (system_error ResultWithNegativeLamports);
  _ ← lamports_op from (checked_sub_lamports lamports);
  lamports_op to (checked_add_lamports lamports).

Definition transfer (from to : KeyedAccount) (lamports : Z) : AM unit :=
  if negb (active ctx system_transfer_zero_check) && (lamports =? 0) then mret tt
  else
    _ ← ensure (bool_decide (is_Some (signer_key from))) MissingRequiredSignature;
    transfer_verified from to lamports.

Definition transfer_with_seed (from from_base : KeyedAccount) (from_seed : list Z) (from_owner : Pubkey)
    (to : KeyedAccount) (lamports : Z) : AM unit :=
  if negb (active ctx system_transfer_zero_check) && (lamports =? 0) then mret tt
  else
    _ ← ensure (bool_decide (is_Some (signer_key from_base))) MissingRequiredSignature;
    address_from_seed ← lift (pubkey_err (create_with_seed (unsigned_key from_base) from_seed from_owner));
    _ ← ensure (unsigned_key from =? address_from_seed) (system_error AddressWithSeedMismatch);
    transfer_verified from to lamports.

Definition create_account (from to : KeyedAccount) (to_address : Address) (lamports space : Z) (owner : Pubkey)
    (signers : list Pubkey) : AM unit :=
  _ ← with_account to
        (account ← get;
         _ ← ensure (negb (0 <? Account.lamports account)) (system_error AccountAlreadyInUse);
         allocate_and_assign to_address space owner signers);
  transfer from to lamports.

Definition upgrade_nonce_account (me : KeyedAccount) : AM unit :=
  me_owner ← ka_owner me;
  _ ← ensure (me_owner =? system_program_id) InvalidAccountOwner;
  _ ← ensure (is_writable me) InvalidArgument;
  nonce_versions ← ka_state me;
  match nonce_upgrade sha256 nonce_versions with
  | None => throw InvalidArgument
  | Some nonce_versions => ka_set_state me nonce_versions
  end.

Definition system_dispatch (first : nat) (signers : list Pubkey) (instruction : SystemInstruction) : AM unit :=
  let at_index i := keyed_account_at_index (pc_keyed_accounts ctx) (first + i) in
  match instruction with
  | CreateAccount lamports space owner =>
      from ← at_index 0%nat;
      to ← at_index 1%nat;
      to_address ← lift (Address_create (unsigned_key to) None);
      create_account from to to_address lamports space owner signers
  | CreateAccountWithSeed base seed lamports space owner =>
      from ← at_index 0%nat;
      to ← at_index 1%nat;
      to_address ← lift (Address_create (unsigned_key to) (Some (base, seed, owner)));
      create_account from to to_address lamports space owner signers
  | Assign owner =>
      k ← at_index 0%nat;
      a ← lift (Address_create (unsigned_key k) None);
      with_account k (assign a owner signers)
  | Transfer lamports =>
      from ← at_index 0%nat;
      to ← at_index 1%nat;
      transfer from to lamports
  | TransferWithSeed lamports from_seed from_owner =>
      from ← at_index 0%nat;
      base ← at_index 1%nat;
      to ← at_index 2%nat;
      transfer_with_seed from base from_seed from_owner to lamports
  | AdvanceNonceAccount =>
      me ← at_index 0%nat;
      k ← at_index 1%nat;
      blockhashes ← from_keyed_account RecentBlockhashes recent_blockhashes_id k;
      _ ← ensure (negb (bool_decide (rb_entries blockhashes = []))) (nonce_error NoRecentBlockhashes);
      advance_nonce_account sha256 ctx me signers
  | WithdrawNonceAccount lamports =>
      me ← at_index 0%nat;
      to ← at_index 1%nat;
      k ← at_index 2%nat;
      _ ← from_keyed_account RecentBlockhashes recent_blockhashes_id k;
      k ← at_index 3%nat;
      rent ← from_keyed_account Rent rent_id k;
      withdraw_nonce_account sha256 ctx me lamports to rent signers
  | InitializeNonceAccount authorized =>
      me ← at_index 0%nat;
      k ← at_index 1%nat;
      blockhashes ← from_keyed_account RecentBlockhashes recent_blockhashes_id k;
      _ ← ensure (negb (bool_decide (rb_entries blockhashes = []))) (nonce_error NoRecentBlockhashes);
      k ← at_index 2%nat;
      rent ← from_keyed_account Rent rent_id k;
      initialize_nonce_account sha256 ctx me authorized rent
  | AuthorizeNonceAccount nonce_authority =>
      me ← at_index 0%nat;
      authorize_nonce_account ctx me nonce_authority signers
  | UpgradeNonceAccount =>
      _ ← ensure (active ctx separate_nonce_from_blockhash) InvalidInstructionData;
      me ← at_index 0%nat;
      upgrade_nonce_account me
  | Allocate space =>
      k ← at_index 0%nat;
      a ← lift (Address_create (unsigned_key k) None);
      with_account k (allocate a space signers)
  | AllocateWithSeed base seed space owner =>
      k ← at_index 0%nat;
      a ← lift (Address_create (unsigned_key k) (Some (base, seed, owner)));
      with_account k (allocate_and_assign a space owner signers)
  | AssignWithSeed base seed owner =>
      k ← at_index 0%nat;
      a ← lift (Address_create (unsigned_key k) (Some (base, seed, owner)));
      with_account k (assign a owner signers)
  end.

Definition system_process_instruction (first_instruction_account : nat) (instruction_data : list Z) : AM unit :=
  instruction ← lift (limited_deserialize instruction_data PACKET_DATA_SIZE);
  _ ← keyed_account_at_index (pc_keyed_accounts ctx) first_instruction_account;
  let signers := get_signers (drop first_instruction_account (pc_keyed_accounts ctx)) in
  system_dispatch first_instruction_account signers instruction.
End handlers.

Inductive SystemAccountKind : Type := SystemKind | NonceKind.

Definition NonceState_size : outcome InstructionError Z :=
  map_err InstructionError_of_bincode
    (bincode_serialized_size (NonceVersions_new (NonceInitialized (mkNonceData 0 0 0)) true)).

Definition get_system_account_kind (account : AccountSharedData) : outcome InstructionError (option SystemAccountKind) :=
  if owner account =? system_program_id then
    match data account with
    | [] => Ok (Some SystemKind)
    | _ =>
        match NonceState_size with
        | Ok size =>
            if Z.of_nat (length (data account)) =? size then
              match account_state account with
              | Ok versions =>
                  match nonce_state versions with
                  | NonceUninitialized => Ok None
                  | NonceInitialized _ => Ok (Some NonceKind)
                  end
              | _ => Ok None
              end
            else Ok None
        | _ => Panic
        end
    end
  else Ok None.
End system.
