(* ===== verification/SystemSpec.v ===== *)
(** * Correctness of the system program

    What a successful instruction of the system program does to the accounts:
    lamports are conserved, and an account changes only with the signature its
    address, its seed derivation or its nonce authority requires. *)
From stdpp Require Import base numbers option list gmap.
From S2P Require Import Prelude Instruction Account EpochSchedule Float64 Rent Sysvar PreAccount Nonce System.

(** ** Changes *)

(** Lamports were added, and nothing else. *)
Definition credited (a a' : AccountSharedData) : Prop :=
  exists n, 0 <= n /\ a' = set_lamports (lamports a + n) a.

Lemma credited_refl a : credited a a.
Proof. exists 0. split; [done|]. rewrite Z.add_0_r. by destruct a. Qed.

Lemma credited_trans a b c : credited a b -> credited b c -> credited a c.
Proof.
  intros (n & Hn & ->) (m & Hm & ->). exists (n + m). split; [lia|].
  destruct a. cbn. by rewrite Z.add_assoc.
Qed.

Lemma set_lamports_twice x y a : set_lamports x (set_lamports y a) = set_lamports x a.
Proof. by destruct a. Qed.

(** The fields that the program never changes. *)
Definition fixed (a a' : AccountSharedData) : Prop := executable a' = executable a /\ rent_epoch a' = rent_epoch a.

(** Every account is kept, credited, or changed with the permission [P] for its index. *)
Record changes (P : nat -> Prop) (s s' : Accounts) : Prop := {
  ch_length : length s' = length s;
  ch_total : total_lamports s' = total_lamports s;
  ch_account i a a' : s !! i = Some a -> s' !! i = Some a' -> fixed a a' /\ (credited a a' \/ P i);
}.

#[global] Instance changes_preorder P : PreOrder (changes P).
Proof.
  split.
  - intros s. split; [done|done|]. intros i a a' Ha Ha'. assert (a' = a) as -> by congruence.
    split; [done|]. left. apply credited_refl.
  - intros s1 s2 s3 [L1 T1 A1] [L2 T2 A2]. split; [congruence|congruence|]. intros i a a' Ha Ha'.
    destruct (lookup_lt_is_Some_2 s2 i) as [b Hb]; [rewrite L1; by eapply lookup_lt_Some|].
    destruct (A1 i a b Ha Hb) as [[F1 F2] C1], (A2 i b a' Hb Ha') as [[F3 F4] C2].
    split; [split; congruence|]. destruct C1, C2; auto. left. by eapply credited_trans.
Qed.

Lemma changes_mono (P Q : nat -> Prop) s s' : (forall i, P i -> Q i) -> changes P s s' -> changes Q s s'.
Proof. intros HPQ [L T A]. split; [done|done|]. intros i a a' Ha Ha'. destruct (A i a a' Ha Ha') as [F [C|C]]; auto. Qed.

Lemma changes_insert (P : nat -> Prop) s i a b : s !! i = Some a -> lamports b = lamports a -> fixed a b -> P i ->
  changes P s (<[i := b]> s).
Proof.
  intros Ha Hl Hf HP. split; [apply length_insert|rewrite (total_lamports_insert _ _ _ _ Ha); lia|].
  intros j x y Hx Hy. destruct (decide (i = j)) as [->|Hne].
  - rewrite list_lookup_insert_eq in Hy by (by eapply lookup_lt_Some). simplify_eq. auto.
  - rewrite list_lookup_insert_ne in Hy by done. simplify_eq. split; [done|left; apply credited_refl].
Qed.

(** Moving lamports from [i], whose data may become [b], to [j]; the two may be the same account. *)
Lemma changes_move (P : nat -> Prop) s i j n a b c : 0 <= n -> s !! i = Some a -> P i ->
  <[i := set_lamports (lamports a - n) (set_data b a)]> s !! j = Some c ->
  changes P s (<[j := set_lamports (lamports c + n) c]> (<[i := set_lamports (lamports a - n) (set_data b a)]> s)).
Proof.
  intros Hn Ha HP Hc. split; [by rewrite !length_insert| |].
  - rewrite (total_lamports_insert _ _ _ _ Hc), (total_lamports_insert _ _ _ _ Ha). cbn. lia.
  - intros k x y Hx Hy. pose proof (lookup_lt_Some _ _ _ Ha) as Hlt.
    destruct (decide (j = k)) as [->|Hjk].
    + rewrite list_lookup_insert_eq in Hy by (by eapply lookup_lt_Some). simplify_eq.
      destruct (decide (i = k)) as [->|Hik].
      * rewrite list_lookup_insert_eq in Hc by done. simplify_eq. by split; [|right].
      * rewrite list_lookup_insert_ne in Hc by done. simplify_eq. split; [done|]. left. by exists n.
    + rewrite list_lookup_insert_ne in Hy by done. destruct (decide (i = k)) as [->|Hik].
      * rewrite list_lookup_insert_eq in Hy by done. simplify_eq. by split; [|right].
      * rewrite list_lookup_insert_ne in Hy by done. simplify_eq. split; [done|]. left. apply credited_refl.
Qed.

Lemma set_data_same a : set_data (data a) a = a.
Proof. by destruct a. Qed.

Lemma changes_transfer (P : nat -> Prop) s i j n a c : 0 <= n -> s !! i = Some a -> P i ->
  <[i := set_lamports (lamports a - n) a]> s !! j = Some c ->
  changes P s (<[j := set_lamports (lamports c + n) c]> (<[i := set_lamports (lamports a - n) a]> s)).
Proof. pose proof (changes_move P s i j n a (data a) c) as Hm. rewrite set_data_same in Hm. exact Hm. Qed.

Section system_spec.
Context (sha256 : list Z -> Hash).
Context `{BincodeLaws NonceVersions} `{Bincode SystemInstruction} `{Bincode RecentBlockhashes} `{Bincode Rent}.
Context (ctx : ProgramContext) (first : nat).

Let keyed := pc_keyed_accounts ctx.
Let signers := get_signers (drop first keyed).

(** The address signed, or the base key it is derived from did. *)
Definition address_signed (pk : Pubkey) : Prop :=
  pk ∈ signers \/
  exists b seed owner, b ∈ signers /\ create_with_seed sha256 b seed owner = Ok pk.

Definition signed_index (i : nat) : Prop := exists k, k ∈ drop first keyed /\ account k = i /\ address_signed (key k).

Lemma Address_create_signed pk with_seed a : Address_create sha256 pk with_seed = Ok a ->
  address_is_signer a signers = true -> address_signed pk.
Proof.
  unfold Address_create, address_is_signer, address_signed. intros Hc Hs.
  destruct with_seed as [[[b seed] o]|]; [|ok_inv; cbn in Hs; by ok_inv; left].
  unfold pubkey_err in Hc. ok_inv. destruct (Z.eqb_spec pk x); [|done]. ok_inv. cbn in Hs. ok_inv.
  right. exists b, seed, o. auto.
Qed.

Lemma allocate_Ok addr space a u a' : allocate addr space signers a = (Ok u, a') ->
  address_is_signer addr signers = true /\ data a = [] /\ owner a = system_program_id /\
  space <= MAX_PERMITTED_DATA_LENGTH /\ a' = set_data (replicate (Z.to_nat space) 0) a.
Proof.
  unfold allocate. intros Hr. ok_inv.
  match goal with H : _ || _ = false |- _ => apply orb_false_iff in H as [? ?] end. ok_inv.
  match goal with H : (_ =? _) = true |- _ => apply Z.eqb_eq in H end.
  match goal with H : (_ <? _) = false |- _ => apply Z.ltb_ge in H end. done.
Qed.

Lemma assign_Ok addr new_owner a u a' : assign ctx addr new_owner signers a = (Ok u, a') ->
  a' = a \/ address_is_signer addr signers = true /\ a' = set_owner new_owner a.
Proof.
  unfold assign. intros Hr. ok_inv. destruct (owner a =? new_owner); ok_inv; auto.
Qed.

Lemma allocate_and_assign_Ok addr space new_owner a u a' :
  allocate_and_assign ctx addr space new_owner signers a = (Ok u, a') ->
  address_is_signer addr signers = true /\ lamports a' = lamports a /\ fixed a a' /\
  owner a = system_program_id /\ data a = [] /\ data a' = replicate (Z.to_nat space) 0 /\ owner a' = new_owner.
Proof.
  unfold allocate_and_assign. intros Hr. ok_inv.
  match goal with H : allocate _ _ _ _ = _ |- _ => apply allocate_Ok in H as (Hs & Hd & Ho & _ & ->) end.
  match goal with H : assign _ _ _ _ _ = _ |- _ => rename H into Hassign end.
  unfold assign in Hassign. ok_inv. destruct (Z.eqb_spec (owner (set_data (replicate (Z.to_nat space) 0) a)) new_owner);
    ok_inv; by split_and!.
Qed.

Lemma keyed_at k i : keyed !! (first + i)%nat = Some k -> k ∈ drop first keyed.
Proof. intros Hk. apply elem_of_drop_lookup. exists (first + i)%nat. split; [done|lia]. Qed.

Lemma signer_signed k : k ∈ drop first keyed -> is_Some (signer_key k) -> key k ∈ signers.
Proof.
  intros Hk [x Hx]. apply get_signers_spec. exists k. unfold signer_key in Hx. by destruct (is_signer k).
Qed.

Lemma transfer_verified_Ok from to n s u s' : 0 <= n -> from ∈ drop first keyed -> address_signed (key from) ->
  transfer_verified from to n s = (Ok u, s') -> changes signed_index s s'.
Proof.
  intros Hn Hk Hs Hr. unfold transfer_verified in Hr. acct_inv.
  eapply changes_transfer; [done|done| |done]. exists from. auto.
Qed.

Lemma transfer_Ok from to n s u s' : 0 <= n -> from ∈ drop first keyed ->
  transfer ctx from to n s = (Ok u, s') -> changes signed_index s s'.
Proof.
  intros Hn Hk Hr. unfold transfer in Hr. case_match; ok_inv; [reflexivity|].
  eapply transfer_verified_Ok; [done|exact Hk| |done]. left. by apply signer_signed.
Qed.

Lemma transfer_with_seed_Ok from b seed o to n s u s' : 0 <= n -> from ∈ drop first keyed -> b ∈ drop first keyed ->
  transfer_with_seed sha256 ctx from b seed o to n s = (Ok u, s') -> changes signed_index s s'.
Proof.
  intros Hn Hk Hb Hr. unfold transfer_with_seed, pubkey_err in Hr. case_match; ok_inv; [reflexivity|].
  match goal with H : (_ =? _) = true |- _ => apply Z.eqb_eq in H end.
  eapply transfer_verified_Ok; [done|exact Hk| |done]. right. exists (key b), seed, o.
  split; [by apply signer_signed|]. unfold unsigned_key in *. congruence.
Qed.

(** Changing one account of the instruction with its signature, lamports apart. *)
Lemma with_account_signed k (m : SE AccountSharedData InstructionError unit) s u s' :
  k ∈ drop first keyed ->
  (forall a u a', m a = (Ok u, a') -> a' = a \/ lamports a' = lamports a /\ fixed a a' /\ address_signed (key k)) ->
  with_account k m s = (Ok u, s') -> changes signed_index s s'.
Proof.
  intros Hk Hm (a & a' & Ha & Hr & ->)%with_account_Ok.
  destruct (Hm _ _ _ Hr) as [->|(Hl & Hf & Hs)].
  - by rewrite list_insert_id.
  - apply (changes_insert signed_index s (account k) a a'); [done|done|done|]. exists k. auto.
Qed.

Lemma create_account_Ok from to with_seed addr n space o s u s' : 0 <= n ->
  from ∈ drop first keyed -> to ∈ drop first keyed -> Address_create sha256 (unsigned_key to) with_seed = Ok addr ->
  create_account ctx from to addr n space o signers s = (Ok u, s') -> changes signed_index s s'.
Proof.
  intros Hn Hf Ht Ha Hr. unfold create_account in Hr. apply SE_bind_Ok in Hr as ([] & s1 & Hw & Hr).
  transitivity s1; [|exact (transfer_Ok from to n s1 _ _ Hn Hf Hr)]. eapply with_account_signed; [exact Ht| |exact Hw].
  intros a [] a' Hm. ok_inv. right.
  match goal with H : allocate_and_assign _ _ _ _ _ _ = _ |- _ => apply allocate_and_assign_Ok in H as (Hs & Hl & Hx & _) end.
  split_and!; [done|done|]. by eapply Address_create_signed.
Qed.

Lemma with_assign_Ok k with_seed addr o s u s' : k ∈ drop first keyed ->
  Address_create sha256 (unsigned_key k) with_seed = Ok addr ->
  with_account k (assign ctx addr o signers) s = (Ok u, s') -> changes signed_index s s'.
Proof.
  intros Hk Ha Hw. eapply with_account_signed; [exact Hk| |exact Hw].
  intros a v a' [->|[Hs ->]]%assign_Ok; [by left|]. right. split_and!; [done|done|]. by eapply Address_create_signed.
Qed.

Lemma with_allocate_Ok k with_seed addr space s u s' : k ∈ drop first keyed ->
  Address_create sha256 (unsigned_key k) with_seed = Ok addr ->
  with_account k (allocate addr space signers) s = (Ok u, s') -> changes signed_index s s'.
Proof.
  intros Hk Ha Hw. eapply with_account_signed; [exact Hk| |exact Hw].
  intros a v a' (Hs & _ & _ & _ & ->)%allocate_Ok. right. split_and!; [done|done|]. by eapply Address_create_signed.
Qed.

Lemma with_allocate_and_assign_Ok k with_seed addr space o s u s' : k ∈ drop first keyed ->
  Address_create sha256 (unsigned_key k) with_seed = Ok addr ->
  with_account k (allocate_and_assign ctx addr space o signers) s = (Ok u, s') -> changes signed_index s s'.
Proof.
  intros Hk Ha Hw. eapply with_account_signed; [exact Hk| |exact Hw].
  intros a v a' (Hs & Hl & Hf & _)%allocate_and_assign_Ok. right. split_and!; [done|done|].
  by eapply Address_create_signed.
Qed.

(** ** The effects of an instruction *)

Definition nonce_permission (v : NonceVersions) : Prop :=
  match nonce_state v with
  | NonceInitialized d => nd_authority d ∈ signers \/ v = NonceLegacy (NonceInitialized d)
  | NonceUninitialized => True
  end.

Inductive system_effect (s s' : Accounts) : Prop :=
| effect_signed : changes signed_index s s' -> system_effect s s'
| effect_nonce me v v' : nonce_permission v -> stores_state me s s' v v' -> system_effect s s'
| effect_nonce_withdraw me to n rent : 0 <= n -> me ∈ drop first keyed ->
    nonce_withdraws sha256 ctx me to n rent signers s s' -> system_effect s s'.

(** The lamports of an instruction are a [u64]. *)
Definition system_instruction_ok (ix : SystemInstruction) : Prop :=
  match ix with
  | CreateAccount n _ _ | Transfer n | CreateAccountWithSeed _ _ n _ _ | WithdrawNonceAccount n
  | TransferWithSeed n _ _ => 0 <= n
  | _ => True
  end.

Lemma upgrade_Ok me s u s' : upgrade_nonce_account sha256 me s = (Ok u, s') -> system_effect s s'.
Proof.
  unfold upgrade_nonce_account. intros Hr. read_inv.
  match goal with Ha : s !! _ = Some ?a, Hv : account_state ?a = Ok ?v |- _ =>
    rename v into v0; destruct (nonce_upgrade sha256 v0) as [v'|] eqn:Hup; ok_inv;
    eapply (effect_nonce _ _ me v0 v'); [|by eapply (stores_state_intro _ _ _ _ _ _ _ Ha Hv)] end.
  destruct v0 as [[|d]|]; try done. by right.
Qed.

Lemma system_dispatch_effect ix s u s' : system_instruction_ok ix ->
  system_dispatch sha256 ctx first signers ix s = (Ok u, s') -> system_effect s s'.
Proof.
  intros Hok Hr. unfold system_dispatch in Hr. fold keyed in Hr.
  destruct ix; cbn [system_instruction_ok] in Hok; read_inv;
    repeat match goal with H : keyed !! (first + _)%nat = Some _ |- _ => apply keyed_at in H end.
  all: match goal with
    | H : create_account _ ?f ?t _ _ _ _ _ _ = _, Hf : ?f ∈ _, Ht : ?t ∈ _, Ha : Address_create _ _ _ = _ |- _ =>
        exact (effect_signed _ _ (create_account_Ok _ _ _ _ _ _ _ _ _ _ Hok Hf Ht Ha H))
    | H : with_account ?k (assign _ _ _ _) _ = _, Hk : ?k ∈ _, Ha : Address_create _ _ _ = _ |- _ =>
        exact (effect_signed _ _ (with_assign_Ok _ _ _ _ _ _ _ Hk Ha H))
    | H : with_account ?k (allocate _ _ _) _ = _, Hk : ?k ∈ _, Ha : Address_create _ _ _ = _ |- _ =>
        exact (effect_signed _ _ (with_allocate_Ok _ _ _ _ _ _ _ Hk Ha H))
    | H : with_account ?k (allocate_and_assign _ _ _ _ _) _ = _, Hk : ?k ∈ _, Ha : Address_create _ _ _ = _ |- _ =>
        exact (effect_signed _ _ (with_allocate_and_assign_Ok _ _ _ _ _ _ _ _ Hk Ha H))
    | H : transfer _ ?f _ _ _ = _, Hf : ?f ∈ _ |- _ =>
        exact (effect_signed _ _ (transfer_Ok _ _ _ _ _ _ Hok Hf H))
    | H : transfer_with_seed _ _ ?f ?b _ _ _ _ _ = _, Hf : ?f ∈ _, Hb : ?b ∈ _ |- _ =>
        exact (effect_signed _ _ (transfer_with_seed_Ok _ _ _ _ _ _ _ _ _ Hok Hf Hb H))
    | H : upgrade_nonce_account _ _ _ = _ |- _ => exact (upgrade_Ok _ _ _ _ H)
    | H : withdraw_nonce_account _ _ ?m _ _ _ _ _ = _, Hm : ?m ∈ _ |- _ =>
        exact (effect_nonce_withdraw _ _ _ _ _ _ Hok Hm (withdraw_Ok _ _ _ _ _ _ _ _ _ _ H))
    | H : advance_nonce_account _ _ _ _ _ = _ |- _ =>
        destruct (advance_Ok _ _ _ _ _ _ _ H) as (v & d & Hd & Hs & _ & Hst); eapply effect_nonce; [|exact Hst]
    | H : authorize_nonce_account _ _ _ _ _ = _ |- _ =>
        destruct (authorize_Ok _ _ _ _ _ _ _ H) as (v & d & Hd & Hs & Hst); eapply effect_nonce; [|exact Hst]
    | H : initialize_nonce_account _ _ _ _ _ _ = _ |- _ =>
        destruct (initialize_Ok _ _ _ _ _ _ _ _ H) as (v & Hd & Hst); eapply effect_nonce; [|exact Hst]
    end.
  all: unfold nonce_permission; rewrite Hd; auto.
Qed.

(** The authority of the nonce at [i] signed. *)
Definition nonce_signed (s : Accounts) (i : nat) : Prop :=
  exists a v d, s !! i = Some a /\ account_state a = Ok v /\ nonce_state v = NonceInitialized d /\
    nd_authority d ∈ signers.

(** Only the bytes of the account changed, and they held a nonce that needs no
    signature: one not initialized yet, or one of the legacy domain. *)
Definition nonce_open (s s' : Accounts) (i : nat) : Prop :=
  exists a b v, s !! i = Some a /\ s' !! i = Some (set_data b a) /\ length b = length (data a) /\
    account_state a = Ok v /\
    (nonce_state v = NonceUninitialized \/ exists d, v = NonceLegacy (NonceInitialized d)).

Definition permitted_index (s s' : Accounts) (i : nat) : Prop :=
  signed_index i \/ nonce_signed s i \/ nonce_open s s' i.

Lemma nonce_stores_changes me s s' v v' : nonce_permission v -> stores_state me s s' v v' ->
  changes (permitted_index s s') s s'.
Proof.
  intros Hp (a & b & Ha & Hv & Hs' & Hl & _). rewrite Hs' at 2.
  apply (changes_insert _ _ _ a); [done|done|done|]. unfold nonce_permission in Hp.
  destruct (nonce_state v) as [|d] eqn:Hd; [right; right|destruct Hp as [Hp|Hp]; right; [left|right]].
  - exists a, b, v. split_and!; auto. rewrite Hs', list_lookup_insert_eq; [done|by eapply lookup_lt_Some].
  - exists a, v, d. auto.
  - exists a, b, v. split_and!; eauto. rewrite Hs', list_lookup_insert_eq; [done|by eapply lookup_lt_Some].
Qed.

Lemma nonce_withdraws_changes me to n rent s s' : 0 <= n -> me ∈ drop first keyed ->
  nonce_withdraws sha256 ctx me to n rent signers s s' -> changes (permitted_index s s') s s'.
Proof.
  intros Hn Hme (a & b & c & v & Ha & Hv & Hle & Hl & Hcase & Hc & Hmax & Hs'). rewrite Hs' at 2.
  apply changes_move; [done|done| |done].
  destruct (nonce_state v) as [|d] eqn:Hd; destruct Hcase as [Hs _].
  - left. exists me. split_and!; [done|done|]. by left.
  - right. left. exists a, v, d. auto.
Qed.

Lemma system_effect_changes s s' : system_effect s s' -> changes (permitted_index s s') s s'.
Proof.
  intros [Hc|me v v' Hp Hst|me to n rent Hn Hme Hw].
  - eapply changes_mono; [|exact Hc]. intros i Hi. by left.
  - by eapply nonce_stores_changes.
  - by eapply nonce_withdraws_changes.
Qed.

(** The instruction that the bytes encode has its lamports in [u64]. *)
Definition system_data_ok (instruction_data : list Z) : Prop :=
  match limited_deserialize instruction_data PACKET_DATA_SIZE with
  | Ok ix => system_instruction_ok ix
  | _ => True
  end.

Lemma system_process_changes bytes s u s' : system_data_ok bytes ->
  system_process_instruction sha256 ctx first bytes s = (Ok u, s') -> changes (permitted_index s s') s s'.
Proof.
  unfold system_data_ok, system_process_instruction. intros Hok Hr. apply system_effect_changes.
  apply SE_bind_Ok in Hr as (ix & s1 & Hd & Hr). apply lift_Ok in Hd as [Hd ->]. rewrite Hd in Hok.
  apply SE_bind_Ok in Hr as (k & s2 & Hk & Hr). apply keyed_account_at_index_Ok in Hk as [_ ->].
  by eapply system_dispatch_effect.
Qed.

(** ** Properties *)

(** C15. The system program neither creates nor destroys lamports: after a
    successful instruction the accounts have the same total, there are as many of
    them, and no account has changed whether it is executable or the epoch its
    rent is due. *)
Theorem system_program_conserves bytes s s' : system_data_ok bytes ->
  system_process_instruction sha256 ctx first bytes s = (Ok tt, s') ->
  length s' = length s /\ total_lamports s' = total_lamports s /\
  forall i a a', s !! i = Some a -> s' !! i = Some a' -> executable a' = executable a /\ rent_epoch a' = rent_epoch a.
Proof.
  intros Hok Hr. destruct (system_process_changes _ _ _ _ Hok Hr) as [Hl Ht Ha]. split_and!; [done|done|].
  intros i a a' Hi Hi'. by destruct (Ha i a a' Hi Hi') as [Hf _].
Qed.

End system_spec.
