(* ===== verification/SystemExample.v ===== *)
(** * The system program on concrete data

    A transfer, the creation of a derived account and the advance of a durable
    nonce, with a serialization and a hash that evaluate. *)
From stdpp Require Import base numbers option list gmap.
From S2P Require Import Prelude Instruction Account EpochSchedule Float64 Rent Sysvar PreAccount Nonce System SystemSpec.

#[local] Instance NonceData_eq : EqDecision NonceData.
Proof. solve_decision. Defined.
#[local] Instance NonceState_eq : EqDecision NonceState.
Proof. solve_decision. Defined.
#[local] Instance NonceVersions_eq : EqDecision NonceVersions.
Proof. solve_decision. Defined.
#[local] Instance SystemInstruction_eq : EqDecision SystemInstruction.
Proof. solve_decision. Defined.
#[local] Instance RecentBlockhashes_eq : EqDecision RecentBlockhashes.
Proof. solve_decision. Defined.

Module SystemExample.
Definition sum_hash (l : list Z) : Hash := foldl (fun h b => (31 * h + b) mod 2 ^ 64) 7 l.

(** The nonce of authority 5 before and after it is advanced. *)
Definition old_nonce : NonceVersions := NonceCurrent (NonceInitialized (mkNonceData 5 11 5000)).
Definition new_nonce : NonceVersions :=
  NonceCurrent (NonceInitialized (mkNonceData 5 (DurableNonce_from_blockhash sum_hash 42 true) 5000)).

#[local] Instance nonce_codec : Bincode NonceVersions := table_codec [old_nonce; new_nonce].
Definition nonce_laws : BincodeLaws NonceVersions := table_codec_laws _.
#[local] Instance ix_codec : Bincode SystemInstruction :=
  table_codec [Transfer 400; CreateAccountWithSeed 1 [115] 300 8 77; AdvanceNonceAccount].
#[local] Instance blockhashes_codec : Bincode RecentBlockhashes := table_codec [mkRecentBlockhashes [(42, 5000)]].
#[local] Instance rent_codec : Bincode Rent := {|
  bincode_deserialize _ := None; bincode_deserialize_limited _ _ := None;
  bincode_serialized_size _ := Err BincodeOther; bincode_serialize_into _ b := (Err BincodeOther, b) |}.

(** A payer that signs, an address derived from it, a nonce and a sysvar. *)
Definition accounts : Accounts :=
  [mkAccount 1000 [] system_program_id false 0; mkAccount 0 [] system_program_id false 0;
   mkAccount 90 [0] system_program_id false 0; mkAccount 1 [0] sysvar_id false 0].
Definition derived : Pubkey := sum_hash (hash_bytes 1 ++ [115] ++ hash_bytes 77).

Definition features : FeatureSet := <[separate_nonce_from_blockhash := 0]> ∅.
Definition no_cache : SysvarCache := mkSysvarCache None None None None.
Definition pay_ctx : ProgramContext :=
  mkProgramContext [mkKeyedAccount true true 1 0; mkKeyedAccount false true derived 1] no_cache features 42 5000.
Definition nonce_ctx : ProgramContext :=
  mkProgramContext [mkKeyedAccount false true 9 2; mkKeyedAccount false false recent_blockhashes_id 3;
    mkKeyedAccount true false 5 0] no_cache features 42 5000.

Lemma system_program_conserves_witness : exists s',
  system_process_instruction sum_hash pay_ctx 0 [0] accounts = (Ok tt, s') /\
  s' !! 0%nat = Some (mkAccount 600 [] system_program_id false 0) /\
  total_lamports s' = total_lamports accounts.
Proof.
  eexists. split; [vm_compute; reflexivity|]. split; [vm_compute; reflexivity|].
  eapply (@system_program_conserves sum_hash nonce_codec nonce_laws ix_codec blockhashes_codec rent_codec
    pay_ctx 0 [0] accounts); [vm_compute; discriminate|vm_compute; reflexivity].
Defined.


Lemma durable_nonce_single_use_witness : exists s' a',
  advance_nonce_account sum_hash nonce_ctx (mkKeyedAccount false true 9 2) [5] accounts = (Ok tt, s') /\
  s' = <[2%nat := a']> accounts /\ verify_nonce_account a' 11 true = None /\
  fst (advance_nonce_account sum_hash nonce_ctx (mkKeyedAccount false true 9 2) [5] s') = Err (nonce_err nonce_ctx NotExpired).
Proof.
  destruct (@durable_nonce_single_use sum_hash nonce_codec nonce_laws nonce_ctx (mkKeyedAccount false true 9 2) [5]
    accounts (snd (advance_nonce_account sum_hash nonce_ctx (mkKeyedAccount false true 9 2) [5] accounts))
    (mkAccount 90 [0] system_program_id false 0) old_nonce (mkNonceData 5 11 5000))
    as (_ & a' & Hs' & _ & _ & Hold & _ & Hagain);
    [reflexivity|vm_compute; reflexivity|reflexivity|reflexivity|vm_compute; reflexivity|].
  eexists _, a'. split; [|split; [exact Hs'|split; [apply Hold|exact Hagain]]].
  vm_compute. reflexivity.
Defined.
End SystemExample.
