(* ===== verification/Stake.v ===== *)
(** * Stake state

    [sdk/program/src/stake/state.rs], [stake_history.rs], [stake/config.rs] and
    the error and argument types of [stake/instruction.rs]: the data of a stake
    account, its authorities and lockup, and the warm-up and cool-down of a
    delegation in binary64 arithmetic. *)
From Stdlib Require Import String Ascii SpecFloat.
From stdpp Require Import base numbers option list gmap.
From S2P Require Import Prelude Instruction Account EpochSchedule Float64 Rent Sysvar.

(** ** Errors and arguments *)

Inductive StakeError : Type :=
| NoCreditsToRedeem
| LockupInForce
| AlreadyDeactivated
| TooSoonToRedelegate
| InsufficientStake
| MergeTransientStake
| MergeMismatch
| CustodianMissing
| CustodianSignatureMissing.

(** [ToPrimitive] of the enumeration, and its conversion to [InstructionError]. *)
Definition StakeError_to_u64 (e : StakeError) : Z :=
  match e with
  | NoCreditsToRedeem => 0
  | LockupInForce => 1
  | AlreadyDeactivated => 2
  | TooSoonToRedelegate => 3
  | InsufficientStake => 4
  | MergeTransientStake => 5
  | MergeMismatch => 6
  | CustodianMissing => 7
  | CustodianSignatureMissing => 8
  end.
Definition stake_error (e : StakeError) : InstructionError := InstructionError_from_u64 (StakeError_to_u64 e).

Record LockupArgs : Type := mkLockupArgs {
  la_unix_timestamp : option UnixTimestamp;
  la_epoch : option Epoch;
  la_custodian : option Pubkey;
}.

(** ** Stake history *)

Definition STAKE_HISTORY_MAX_ENTRIES : nat := 512.

Record StakeHistoryEntry : Type := mkEntry {
  effective : Z;
  activating : Z;
  deactivating : Z;
}.

Definition Entry_default : StakeHistoryEntry := mkEntry 0 0 0.
Definition with_effective (x : Z) : StakeHistoryEntry := mkEntry x 0 0.
Definition with_effective_and_activating (x y : Z) : StakeHistoryEntry := mkEntry x y 0.
Definition with_deactivating (x : Z) : StakeHistoryEntry := mkEntry x 0 x.

Definition Entry_add (a b : StakeHistoryEntry) : StakeHistoryEntry :=
  mkEntry (saturating_add64 (effective a) (effective b)) (saturating_add64 (activating a) (activating b))
    (saturating_add64 (deactivating a) (deactivating b)).

Abbreviation StakeHistory := (list (Epoch * StakeHistoryEntry)).

Definition search_epoch (epoch : Epoch) (h : StakeHistory) : nat + nat :=
  binary_search_by (fun probe => epoch ?= probe.1) h.

Definition StakeHistory_get (epoch : Epoch) (h : StakeHistory) : option StakeHistoryEntry :=
  match search_epoch epoch h with
  | inl index => snd <$> h !! index
  | inr _ => None
  end.

Definition StakeHistory_add (epoch : Epoch) (entry : StakeHistoryEntry) (h : StakeHistory) : StakeHistory :=
  take STAKE_HISTORY_MAX_ENTRIES
    match search_epoch epoch h with
    | inl index => <[index := (epoch, entry)]> h
    | inr index => vec_insert index (epoch, entry) h
    end.

(** ** Configuration *)

Definition stake_config_id : Pubkey := Eval vm_compute in pubkey_of "StakeConfig11111111111111111111111111111111".

Record Config : Type := mkConfig {
  config_warmup_cooldown_rate : f64;
  slash_penalty : Z;
}.

(** 0.25 *)
Definition DEFAULT_WARMUP_COOLDOWN_RATE : f64 := f64_pow2 (-2).
Definition DEFAULT_SLASH_PENALTY : Z := as_u8 (5 * U8_MAX / 100).
Definition Config_default : Config := mkConfig DEFAULT_WARMUP_COOLDOWN_RATE DEFAULT_SLASH_PENALTY.

(** ** The account *)

Inductive StakeAuthorize : Type := Staker | Withdrawer.

Record Lockup : Type := mkLockup {
  lk_unix_timestamp : UnixTimestamp;
  lk_epoch : Epoch;
  custodian : Pubkey;
}.
Definition Lockup_default : Lockup := mkLockup 0 0 Pubkey_default.

#[global] Instance Lockup_eq_dec : EqDecision Lockup.
Proof. solve_decision. Defined.

Definition is_in_force (l : Lockup) (clock : Clock) (signed_custodian : option Pubkey) : bool :=
  if bool_decide (signed_custodian = Some (custodian l)) then false
  else (unix_timestamp clock <? lk_unix_timestamp l) || (clock_epoch clock <? lk_epoch l).

Record Authorized : Type := mkAuthorized {
  staker : Pubkey;
  withdrawer : Pubkey;
}.

#[global] Instance Authorized_eq_dec : EqDecision Authorized.
Proof. solve_decision. Defined.

Definition Authorized_auto (authorized : Pubkey) : Authorized := mkAuthorized authorized authorized.

Definition Authorized_check (a : Authorized) (signers : list Pubkey) (stake_authorize : StakeAuthorize)
  : outcome InstructionError unit :=
  match stake_authorize with
  | Staker => if bool_decide (staker a ∈ signers) then Ok tt else Err MissingRequiredSignature
  | Withdrawer => if bool_decide (withdrawer a ∈ signers) then Ok tt else Err MissingRequiredSignature
  end.

(** The custodian of a lockup that is in force must sign. *)
Definition check_custodian (signers : list Pubkey) (args : option (Lockup * Clock * option Pubkey))
  : outcome InstructionError unit :=
  match args with
  | None => Ok tt
  | Some (lockup, clock, custodian) =>
      if is_in_force lockup clock None then
        match custodian with
        | None => Err (stake_error CustodianMissing)
        | Some custodian =>
            if negb (bool_decide (custodian ∈ signers)) then Err (stake_error CustodianSignatureMissing)
            else if is_in_force lockup clock (Some custodian) then Err (stake_error LockupInForce)
            else Ok tt
        end
      else Ok tt
  end.

Definition Authorized_authorize (a : Authorized) (signers : list Pubkey) (new_authorized : Pubkey)
    (stake_authorize : StakeAuthorize) (lockup_custodian_args : option (Lockup * Clock * option Pubkey))
  : outcome InstructionError Authorized :=
  match stake_authorize with
  | Staker =>
      if negb (bool_decide (staker a ∈ signers)) && negb (bool_decide (withdrawer a ∈ signers))
      then Err MissingRequiredSignature
      else Ok (mkAuthorized new_authorized (withdrawer a))
  | Withdrawer =>
      _ ← check_custodian signers lockup_custodian_args;
      _ ← Authorized_check a signers stake_authorize;
      Ok (mkAuthorized (staker a) new_authorized)
  end.

Record Meta : Type := mkMeta {
  rent_exempt_reserve : Z;
  authorized : Authorized;
  lockup : Lockup;
}.
Definition Meta_default : Meta := mkMeta 0 (mkAuthorized Pubkey_default Pubkey_default) Lockup_default.
Definition Meta_auto (pk : Pubkey) : Meta := mkMeta 0 (Authorized_auto pk) Lockup_default.

Definition set_authorized (x : Authorized) (m : Meta) : Meta := mkMeta (rent_exempt_reserve m) x (lockup m).
Definition set_rent_exempt_reserve (x : Z) (m : Meta) : Meta := mkMeta x (authorized m) (lockup m).

Definition Meta_set_lockup (m : Meta) (args : LockupArgs) (signers : list Pubkey) (clock : option Clock)
  : outcome InstructionError Meta :=
  let required :=
    match clock with
    | None => custodian (lockup m)
    | Some clock => if is_in_force (lockup m) clock None then custodian (lockup m) else withdrawer (authorized m)
    end in
  if negb (bool_decide (required ∈ signers)) then Err MissingRequiredSignature
  else Ok (mkMeta (rent_exempt_reserve m) (authorized m)
    (mkLockup (default (lk_unix_timestamp (lockup m)) (la_unix_timestamp args))
       (default (lk_epoch (lockup m)) (la_epoch args)) (default (custodian (lockup m)) (la_custodian args)))).

Definition rewrite_rent_exempt_reserve (m : Meta) (rent : Rent) (data_len : Z) : option (Z * Z) * Meta :=
  let corrected := minimum_balance rent data_len in
  if negb (corrected =? rent_exempt_reserve m)
  then (Some (rent_exempt_reserve m, corrected), set_rent_exempt_reserve corrected m)
  else (None, m).

Record Delegation : Type := mkDelegation {
  voter_pubkey : Pubkey;
  d_stake : Z;
  activation_epoch : Epoch;
  deactivation_epoch : Epoch;
  warmup_cooldown_rate : f64;
}.

Definition Delegation_default : Delegation := mkDelegation Pubkey_default 0 0 U64_MAX DEFAULT_WARMUP_COOLDOWN_RATE.

Definition Delegation_new (voter_pubkey : Pubkey) (stake : Z) (activation_epoch : Epoch) (rate : f64) : Delegation :=
  mkDelegation voter_pubkey stake activation_epoch U64_MAX rate.

Definition set_d_stake (x : Z) (d : Delegation) : Delegation :=
  mkDelegation (voter_pubkey d) x (activation_epoch d) (deactivation_epoch d) (warmup_cooldown_rate d).
Definition set_deactivation_epoch (x : Epoch) (d : Delegation) : Delegation :=
  mkDelegation (voter_pubkey d) (d_stake d) (activation_epoch d) x (warmup_cooldown_rate d).

Definition is_bootstrap (d : Delegation) : bool := activation_epoch d =? U64_MAX.

(** What an account with [amount] of the [total] gets of the change of the
    cluster's stake: at least one lamport. *)
Definition entitlement (rate : f64) (amount total cluster_effective : Z) : Z :=
  let weight := f64_div (f64_of_u64 amount) (f64_of_u64 total) in
  let newly_cluster := f64_mul (f64_of_u64 cluster_effective) rate in
  Z.max (f64_to_u64 (f64_mul weight newly_cluster)) 1.

(** The warm-up loop from the activation epoch to the target. [None] is fuel run
    out; every turn but the first uses another entry of the history, so one more
    than its length is enough. *)
Fixpoint activation_loop (fuel : nat) (d : Delegation) (target_epoch : Epoch) (history : StakeHistory)
    (prev_epoch : Epoch) (prev_cluster_stake : StakeHistoryEntry) (current_effective_stake : Z) : option Z :=
  match fuel with
  | O => None
  | S fuel =>
      let current_epoch := add64 prev_epoch 1 in
      if activating prev_cluster_stake =? 0 then Some current_effective_stake
      else
        let remaining_activating_stake := sub64 (d_stake d) current_effective_stake in
        let newly_effective_stake := entitlement (warmup_cooldown_rate d) remaining_activating_stake
          (activating prev_cluster_stake) (effective prev_cluster_stake) in
        let current_effective_stake := add64 current_effective_stake newly_effective_stake in
        if d_stake d <=? current_effective_stake then Some (d_stake d)
        else if (target_epoch <=? current_epoch) || (deactivation_epoch d <=? current_epoch)
        then Some current_effective_stake
        else
          match StakeHistory_get current_epoch history with
          | Some current_cluster_stake =>
              activation_loop fuel d target_epoch history current_epoch current_cluster_stake current_effective_stake
          | None => Some current_effective_stake
          end
  end.

Fixpoint deactivation_loop (fuel : nat) (d : Delegation) (target_epoch : Epoch) (history : StakeHistory)
    (prev_epoch : Epoch) (prev_cluster_stake : StakeHistoryEntry) (current_effective_stake : Z) : option Z :=
  match fuel with
  | O => None
  | S fuel =>
      let current_epoch := add64 prev_epoch 1 in
      if deactivating prev_cluster_stake =? 0 then Some current_effective_stake
      else
        let newly_not_effective_stake := entitlement (warmup_cooldown_rate d) current_effective_stake
          (deactivating prev_cluster_stake) (effective prev_cluster_stake) in
        let current_effective_stake := saturating_sub64 current_effective_stake newly_not_effective_stake in
        if current_effective_stake =? 0 then Some current_effective_stake
        else if target_epoch <=? current_epoch then Some current_effective_stake
        else
          match StakeHistory_get current_epoch history with
          | Some current_cluster_stake =>
              deactivation_loop fuel d target_epoch history current_epoch current_cluster_stake current_effective_stake
          | None => Some current_effective_stake
          end
  end.

(** [history.and_then(|history| history.get(epoch))] *)
Definition history_at (epoch : Epoch) (history : option StakeHistory) : option (StakeHistory * StakeHistoryEntry) :=
  h ← history; entry ← StakeHistory_get epoch h; Some (h, entry).

Definition stake_and_activating (d : Delegation) (target_epoch : Epoch) (history : option StakeHistory) : Z * Z :=
  let delegated_stake := d_stake d in
  if is_bootstrap d then (delegated_stake, 0)
  else if activation_epoch d =? deactivation_epoch d then (0, 0)
  else if target_epoch =? activation_epoch d then (0, delegated_stake)
  else if target_epoch <? activation_epoch d then (0, 0)
  else
    match history_at (activation_epoch d) history with
    | Some (h, entry) =>
        match activation_loop (S (length h)) d target_epoch h (activation_epoch d) entry 0 with
        | Some effective_stake => (effective_stake, sub64 delegated_stake effective_stake)
        | None => (0, 0) (* the fuel is enough: [activation_loop_Some] *)
        end
    | None => (delegated_stake, 0)
    end.

Definition stake_activating_and_deactivating (d : Delegation) (target_epoch : Epoch) (history : option StakeHistory)
  : StakeHistoryEntry :=
  let '(effective_stake, activating_stake) := stake_and_activating d target_epoch history in
  if target_epoch <? deactivation_epoch d then
    if activating_stake =? 0 then with_effective effective_stake
    else with_effective_and_activating effective_stake activating_stake
  else if target_epoch =? deactivation_epoch d then with_deactivating effective_stake
  else
    match history_at (deactivation_epoch d) history with
    | Some (h, entry) =>
        match deactivation_loop (S (length h)) d target_epoch h (deactivation_epoch d) entry effective_stake with
        | Some effective_stake => with_deactivating effective_stake
        | None => Entry_default (* the fuel is enough: [deactivation_loop_Some] *)
        end
    | None => Entry_default
    end.

Definition Delegation_stake (d : Delegation) (epoch : Epoch) (history : option StakeHistory) : Z :=
  effective (stake_activating_and_deactivating d epoch history).

Record Stake : Type := mkStake {
  delegation : Delegation;
  credits_observed : Z;
}.

Definition set_delegation (x : Delegation) (s : Stake) : Stake := mkStake x (credits_observed s).
Definition set_credits_observed (x : Z) (s : Stake) : Stake := mkStake (delegation s) x.

Definition Stake_stake (s : Stake) (epoch : Epoch) (history : option StakeHistory) : Z :=
  Delegation_stake (delegation s) epoch history.

(** [split]: what remains, and the new stake. *)
Definition Stake_split (s : Stake) (remaining_stake_delta split_stake_amount : Z)
  : outcome StakeError (Stake * Stake) :=
  if d_stake (delegation s) <? remaining_stake_delta then Err InsufficientStake
  else
    let s := set_delegation (set_d_stake (sub64 (d_stake (delegation s)) remaining_stake_delta) (delegation s)) s in
    Ok (s, set_delegation (set_d_stake split_stake_amount (delegation s)) s).

Definition Stake_deactivate (s : Stake) (epoch : Epoch) : outcome StakeError Stake :=
  if negb (deactivation_epoch (delegation s) =? U64_MAX) then Err AlreadyDeactivated
  else Ok (set_delegation (set_deactivation_epoch epoch (delegation s)) s).

Inductive StakeState : Type :=
| StakeUninitialized
| StakeInitialized (meta : Meta)
| StakeActive (meta : Meta) (stake : Stake)
| StakeRewardsPool.

(** [std::mem::size_of::<StakeState>()] *)
Definition STAKE_STATE_SIZE : Z := 200.

Definition get_rent_exempt_reserve (rent : Rent) : Z := minimum_balance rent STAKE_STATE_SIZE.

Definition state_stake (s : StakeState) : option Stake :=
  match s with StakeActive _ stake => Some stake | _ => None end.
Definition state_delegation (s : StakeState) : option Delegation :=
  match s with StakeActive _ stake => Some (delegation stake) | _ => None end.
Definition state_meta (s : StakeState) : option Meta :=
  match s with StakeActive meta _ | StakeInitialized meta => Some meta | _ => None end.
Definition state_authorized (s : StakeState) : option Authorized :=
  match s with StakeActive meta _ | StakeInitialized meta => Some (authorized meta) | _ => None end.
Definition state_lockup (s : StakeState) : option Lockup := lockup <$> state_meta s.
