(* ===== verification/StakeActivation.v ===== *)
(** * Warm-up and cool-down of a stake

    The loops of [stake_activating_and_deactivating] end within the length of the
    stake history, and what they return never exceeds the delegated stake,
    whatever the history and the rate are. *)
From stdpp Require Import base numbers option list gmap.
From S2P Require Import Prelude Instruction Account EpochSchedule Float64 Rent Sysvar Stake.

(** ** Entries of the history *)

Lemma binary_search_loop_found {A} (f : A -> comparison) l fuel lo hi i :
  binary_search_loop f l fuel lo hi = inl i -> exists x, l !! i = Some x /\ f x = Eq.
Proof.
  revert lo hi. induction fuel as [|fuel IH]; intros lo hi; cbn [binary_search_loop]; [done|].
  destruct (decide _); [|done]. destruct (l !! (lo + (hi - lo) / 2)%nat) as [x|] eqn:Hx; [|done].
  destruct (f x) eqn:Hf; [|by apply IH|by apply IH]. intros [= <-]. eauto.
Qed.

Lemma StakeHistory_get_elem epoch h entry : StakeHistory_get epoch h = Some entry -> (epoch, entry) ∈ h.
Proof.
  unfold StakeHistory_get, search_epoch, binary_search_by. destruct (binary_search_loop _ _ _ _ _) as [i|] eqn:Hs; [|done].
  apply binary_search_loop_found in Hs as ([e x] & Hx & Hc). cbn in Hc. apply Z.compare_eq in Hc as <-.
  rewrite Hx. intros [= <-]. by eapply list_elem_of_lookup_2.
Qed.

(** The entries of epochs after [e]: what the loops still have to go through. *)
Definition entries_above (e : Epoch) (h : StakeHistory) : nat := length (filter (fun p => e < p.1) h).

Lemma entries_above_le e h : (entries_above e h <= length h)%nat.
Proof. apply length_filter. Qed.

Lemma entries_above_step e h entry : StakeHistory_get (e + 1) h = Some entry ->
  (entries_above (e + 1) h < entries_above e h)%nat.
Proof.
  intros Hg%StakeHistory_get_elem. unfold entries_above.
  assert (filter (fun p => e + 1 < p.1) h = filter (fun p => e + 1 < p.1) (filter (fun p => e < p.1) h)) as ->.
  { rewrite list_filter_filter. apply list_filter_iff. intros x. lia. }
  eapply (length_filter_lt _ _ (e + 1, entry)); [|cbn; lia].
  apply list_elem_of_filter. split; [cbn; lia|done].
Qed.

(** ** The loops *)

Lemma entitlement_range rate amount total cluster : 1 <= entitlement rate amount total cluster <= U64_MAX.
Proof.
  unfold entitlement. pose proof (f64_to_u64_range (f64_mul (f64_div (f64_of_u64 amount) (f64_of_u64 total))
    (f64_mul (f64_of_u64 cluster) rate))). u64.
Qed.

Section delegation.
Context (d : Delegation) (target : Epoch) (h : StakeHistory).
Hypothesis Hstake : in_u64 (d_stake d).
Hypothesis Htarget : in_u64 target.

Lemma activation_loop_Some fuel prev entry cur :
  (entries_above prev h < fuel)%nat -> 0 <= prev < target -> 0 <= cur <= d_stake d ->
  exists e, activation_loop fuel d target h prev entry cur = Some e /\ 0 <= e <= d_stake d.
Proof.
  revert prev entry cur. induction fuel as [|fuel IH]; intros prev entry cur Hf Hp Hc; [lia|].
  cbn [activation_loop]. rewrite (add64_small prev 1) by u64.
  destruct (activating entry =? 0); [eauto|].
  pose proof (add64_range cur (entitlement (warmup_cooldown_rate d) (sub64 (d_stake d) cur) (activating entry)
    (effective entry))) as Hr. destruct (Z.leb_spec (d_stake d) (add64 cur (entitlement (warmup_cooldown_rate d)
    (sub64 (d_stake d) cur) (activating entry) (effective entry)))); [exists (d_stake d); split; [done|lia]|].
  destruct (Z.leb_spec target (prev + 1)); cbn [orb]; [eexists; split; [done|u64]|].
  destruct (deactivation_epoch d <=? prev + 1); [eexists; split; [done|u64]|].
  destruct (StakeHistory_get (prev + 1) h) as [x|] eqn:Hg; [|eexists; split; [done|u64]].
  apply entries_above_step in Hg. apply IH; [lia|lia|u64].
Qed.

Lemma deactivation_loop_Some fuel prev entry cur :
  (entries_above prev h < fuel)%nat -> 0 <= prev < target -> 0 <= cur ->
  exists e, deactivation_loop fuel d target h prev entry cur = Some e /\ 0 <= e <= cur.
Proof.
  revert prev entry cur. induction fuel as [|fuel IH]; intros prev entry cur Hf Hp Hc; [lia|].
  cbn [deactivation_loop]. rewrite (add64_small prev 1) by u64.
  destruct (deactivating entry =? 0); [exists cur; split; [done|lia]|].
  pose proof (entitlement_range (warmup_cooldown_rate d) cur (deactivating entry) (effective entry)) as Hr.
  set (rest := saturating_sub64 cur _). assert (0 <= rest <= cur) as Hl by (subst rest; u64).
  destruct (rest =? 0); [eauto|].
  destruct (Z.leb_spec target (prev + 1)); [eauto|].
  destruct (StakeHistory_get (prev + 1) h) as [x|] eqn:Hg; [|eauto].
  apply entries_above_step in Hg. destruct (IH (prev + 1) x rest) as (e & He & Hb); [lia|lia|lia|].
  exists e. split; [done|lia].
Qed.
End delegation.

(** ** Status *)

Section status.
Context (d : Delegation) (history : option StakeHistory).
Hypothesis Hstake : in_u64 (d_stake d).
Hypothesis Hact : 0 <= activation_epoch d.
Hypothesis Hdeact : 0 <= deactivation_epoch d.

Lemma history_at_Some e h entry : history_at e history = Some (h, entry) -> StakeHistory_get e h = Some entry.
Proof. unfold history_at. destruct history; cbn; [|done]. destruct (StakeHistory_get e _) eqn:E; cbn; congruence. Qed.

Lemma loop_fuel e (h : StakeHistory) : (entries_above e h < S (length h))%nat.
Proof. pose proof (entries_above_le e h). lia. Qed.

(** What is effective and what is activating make up the stake once it is activated. *)
Lemma stake_and_activating_sum target : in_u64 target ->
  let '(e, a) := stake_and_activating d target history in
  0 <= e /\ 0 <= a /\ e + a <= d_stake d /\
  (is_bootstrap d = true \/ activation_epoch d <= target -> is_bootstrap d = true \/ activation_epoch d ≠ deactivation_epoch d ->
   e + a = d_stake d).
Proof.
  intros Ht. unfold stake_and_activating. destruct (is_bootstrap d); [u64|].
  destruct (Z.eqb_spec (activation_epoch d) (deactivation_epoch d)); [naive_solver u64|].
  destruct (Z.eqb_spec target (activation_epoch d)); [u64|].
  destruct (Z.ltb_spec target (activation_epoch d)); [naive_solver u64|].
  destruct (history_at _ _) as [[h entry]|] eqn:Hh; [|u64].
  destruct (activation_loop_Some d target h Ht (S (length h)) (activation_epoch d) entry 0)
    as (e & -> & He); [apply loop_fuel|lia|u64|].
  rewrite sub64_small by u64. naive_solver u64.
Qed.

(** The warm-up stops at the deactivation epoch. *)
Lemma activation_loop_stops fuel target h prev entry cur : deactivation_epoch d <= target ->
  activation_loop fuel d target h prev entry cur = activation_loop fuel d (deactivation_epoch d) h prev entry cur.
Proof.
  intros Hle. revert prev entry cur. induction fuel as [|fuel IH]; intros prev entry cur; [done|].
  cbn [activation_loop]. destruct (activating entry =? 0); [done|]. destruct (d_stake d <=? _); [done|].
  rewrite orb_diag. assert ((target <=? add64 prev 1) || (deactivation_epoch d <=? add64 prev 1)
    = (deactivation_epoch d <=? add64 prev 1)) as ->.
  { destruct (Z.leb_spec target (add64 prev 1)), (Z.leb_spec (deactivation_epoch d) (add64 prev 1)); cbn; done || lia. }
  destruct (deactivation_epoch d <=? _); [done|]. destruct (StakeHistory_get _ h); [apply IH|done].
Qed.

Lemma stake_and_activating_stops target :
  is_bootstrap d = true \/ activation_epoch d <= deactivation_epoch d -> deactivation_epoch d <= target ->
  fst (stake_and_activating d target history) = fst (stake_and_activating d (deactivation_epoch d) history).
Proof.
  intros Hord Hle. unfold stake_and_activating. destruct (is_bootstrap d); [done|]. destruct Hord as [?|Hord]; [done|].
  destruct (Z.eqb_spec (activation_epoch d) (deactivation_epoch d)); [done|].
  destruct (Z.eqb_spec target (activation_epoch d)), (Z.eqb_spec (deactivation_epoch d) (activation_epoch d)); try lia.
  destruct (Z.ltb_spec target (activation_epoch d)), (Z.ltb_spec (deactivation_epoch d) (activation_epoch d)); try lia.
  destruct (history_at _ _) as [[h entry]|]; [|done]. rewrite (activation_loop_stops _ target) by done.
  by destruct (activation_loop _ _ _ _ _ _ _).
Qed.

Lemma effective_range target : in_u64 target -> 0 <= Delegation_stake d target history <= d_stake d.
Proof.
  intros Ht. unfold Delegation_stake, stake_activating_and_deactivating.
  pose proof (stake_and_activating_sum target Ht) as Hsum.
  destruct (stake_and_activating d target history) as [e a]. destruct Hsum as (He & Ha & Hle & _).
  destruct (Z.ltb_spec target (deactivation_epoch d)); [destruct (a =? 0); cbn; lia|].
  destruct (Z.eqb_spec target (deactivation_epoch d)); [cbn; lia|].
  destruct (history_at _ _) as [[h entry]|]; [|cbn; u64].
  destruct (deactivation_loop_Some d target h Ht (S (length h)) (deactivation_epoch d) entry e)
    as (x & -> & Hx); [apply loop_fuel|lia|done|]. cbn. lia.
Qed.

(** ** Properties *)

(** The status of a delegation at any epoch accounts for its stake: nothing is
    negative, the effective and the activating stake never exceed the delegated
    stake, and equal it from the activation to the deactivation epoch; from the
    deactivation epoch on nothing is activating, all that is effective is
    deactivating, and it never exceeds what was effective when it was deactivated.
    This holds for every history and rate: the loops end within one turn per entry
    of the history, whatever the rounding of the binary64 arithmetic. *)
Theorem stake_status_bounded epoch :
  in_u64 epoch -> is_bootstrap d = true \/ activation_epoch d <= deactivation_epoch d ->
  let status := stake_activating_and_deactivating d epoch history in
  0 <= effective status /\ 0 <= activating status /\ 0 <= deactivating status /\
  effective status + activating status <= d_stake d /\ deactivating status <= effective status /\
  (epoch < deactivation_epoch d -> is_bootstrap d = true \/ activation_epoch d <= epoch ->
   effective status + activating status = d_stake d /\ deactivating status = 0) /\
  (deactivation_epoch d <= epoch ->
   activating status = 0 /\ deactivating status = effective status /\
   effective status <= Delegation_stake d (deactivation_epoch d) history).
Proof.
  intros Hep Hord status. subst status.
  pose proof (stake_and_activating_sum epoch Hep) as Hsum.
  pose proof (stake_and_activating_stops epoch Hord) as Hstop. unfold Delegation_stake.
  assert (effective (stake_activating_and_deactivating d (deactivation_epoch d) history)
    = fst (stake_and_activating d (deactivation_epoch d) history)) as ->.
  { unfold stake_activating_and_deactivating. destruct (stake_and_activating d (deactivation_epoch d) history).
    by rewrite Z.ltb_irrefl, Z.eqb_refl. }
  unfold stake_activating_and_deactivating. destruct (stake_and_activating d epoch history) as [e a].
  cbn [fst] in Hstop. destruct Hsum as (He & Ha & Hle & Heq).
  destruct (Z.ltb_spec epoch (deactivation_epoch d)).
  { assert (is_bootstrap d = true \/ activation_epoch d <= epoch -> e + a = d_stake d) as Hfull.
    { intros Hb. apply Heq; [done|]. destruct Hb; [by left|right; lia]. }
    destruct (Z.eqb_spec a 0); cbn; split_and!; try lia; intros _ Hb; specialize (Hfull Hb); lia. }
  destruct (Z.eqb_spec epoch (deactivation_epoch d)); [cbn; rewrite <- Hstop by lia; split_and!; lia|].
  destruct (history_at _ _) as [[h entry]|]; [|cbn; rewrite <- Hstop by lia; split_and!; lia].
  destruct (deactivation_loop_Some d epoch h Hep (S (length h)) (deactivation_epoch d) entry e)
    as (x & -> & Hx); [apply loop_fuel|lia|done|]. cbn. rewrite <- Hstop by lia. split_and!; lia.
Qed.
End status.
