(* ===== verification/ConfigProgram.v ===== *)
(** * The config program

    [programs/config/src/lib.rs] and [config_processor.rs]: accounts that hold a
    list of keys, some of which must sign every update, followed by the
    configuration. *)
From Stdlib Require Import String Ascii.
From stdpp Require Import base numbers option list gmap.
From S2P Require Import Prelude Instruction Account EpochSchedule Float64 Rent Sysvar Nonce.

Definition config_program_id : Pubkey := Eval vm_compute in pubkey_of "Config1111111111111111111111111111111111111".
Definition dedupe_config_program_signers : Pubkey := Eval vm_compute in pubkey_of "8kEuAshXLsgkUEdcFVLqrjCGGHVWFW99ZZpxvAzzMtBp".

Record ConfigKeys : Type := mkConfigKeys { keys : list (Pubkey * bool) }.

(** The keys that must sign. *)
Definition config_signer_keys (l : list (Pubkey * bool)) : list Pubkey := fst <$> filter (fun p => p.2 = true) l.

Section config.
Context `{Bincode ConfigKeys}.

(** [get_config_data]: the bytes after the keys; [None] is a bincode error. *)
Definition get_config_data {E} (bytes : list Z) : outcome E (option (list Z)) :=
  match bincode_deserialize bytes with
  | None => Ok None
  | Some ks =>
      match bincode_serialized_size (ks : ConfigKeys) with
      | Ok offset => if offset <=? Z.of_nat (length bytes) then Ok (Some (drop (Z.to_nat offset) bytes)) else Panic
      | Err _ => Ok None
      | Panic => Panic
      end
  end.

Section handlers.
Context (ctx : ProgramContext).

(** The check of the [counter]-th new signer. *)
Definition check_signer (config_keyed_account : KeyedAccount) (current_data : ConfigKeys) (counter : nat)
    (signer : Pubkey) : AM unit :=
  if negb (signer =? unsigned_key config_keyed_account) then
    signer_account ← lift (ok_or MissingRequiredSignature (pc_keyed_accounts ctx !! (counter + 1)%nat));
    signer_key ← lift (ok_or MissingRequiredSignature (Account.signer_key signer_account));
    _ ← ensure (signer_key =? signer) MissingRequiredSignature;
    ensure (negb (negb (bool_decide (keys current_data = []))
                  && negb (bool_decide (signer ∈ config_signer_keys (keys current_data))))) MissingRequiredSignature
  else ensure (bool_decide (is_Some (Account.signer_key config_keyed_account))) MissingRequiredSignature.

(** The loop over the new signers; returns the counter. *)
Fixpoint check_signers (config_keyed_account : KeyedAccount) (current_data : ConfigKeys) (counter : nat)
    (new_signers : list Pubkey) : AM nat :=
  match new_signers with
  | [] => mret counter
  | signer :: rest =>
      let counter := S counter in
      _ ← check_signer config_keyed_account current_data counter signer;
      check_signers config_keyed_account current_data counter rest
  end.

Definition config_process_instruction (first_instruction_account : nat) (bytes : list Z) : AM unit :=
  key_list ← lift (limited_deserialize bytes PACKET_DATA_SIZE : outcome _ ConfigKeys);
  config_keyed_account ← keyed_account_at_index (pc_keyed_accounts ctx) first_instruction_account;
  config_account ← try_account_ref config_keyed_account;
  _ ← ensure (owner config_account =? config_program_id) InvalidAccountOwner;
  current_data ← lift (ok_or InvalidAccountData (bincode_deserialize (data config_account) : option ConfigKeys));
  let current_signer_keys := config_signer_keys (keys current_data) in
  _ ← ensure (negb (bool_decide (current_signer_keys = [])
                    && negb (bool_decide (is_Some (signer_key config_keyed_account))))) MissingRequiredSignature;
  counter ← check_signers config_keyed_account current_data 0 (config_signer_keys (keys key_list));
  _ ← ensure (negb (active ctx dedupe_config_program_signers && negb (bool_decide (NoDup (keys key_list)))))
        InvalidArgument;
  _ ← ensure (negb (bool_decide (counter < length current_signer_keys)%nat)) MissingRequiredSignature;
  data_len ← ka_data_len config_keyed_account;
  _ ← ensure (negb (data_len <? Z.of_nat (length bytes))) InvalidInstructionData;
  with_account config_keyed_account (modify (fun a => set_data (bytes ++ drop (length bytes) (data a)) a)).
End handlers.
End config.

(** ** What an update needs *)

Section spec.
Context `{Bincode ConfigKeys} (ctx : ProgramContext).
Let keyed := pc_keyed_accounts ctx.

(** A keyed account with this key signed. *)
Definition config_signed (pk : Pubkey) : Prop := exists k, k ∈ keyed /\ is_signer k = true /\ key k = pk.

Lemma signer_key_signed k pk : k ∈ keyed -> signer_key k = Some pk -> config_signed pk.
Proof. unfold signer_key. intros Hk Hs. exists k. destruct (is_signer k) eqn:E; naive_solver. Qed.

Lemma check_signer_Ok cfg current counter pk s u s' : cfg ∈ keyed ->
  check_signer ctx cfg current counter pk s = (Ok u, s') ->
  s' = s /\ config_signed pk /\ (pk = key cfg \/ keys current = [] \/ pk ∈ config_signer_keys (keys current)).
Proof.
  unfold check_signer. intros Hcfg Hr. destruct (Z.eqb_spec pk (unsigned_key cfg)) as [->|Hne]; cbn [negb] in Hr; ok_inv.
  - match goal with Hs : is_Some _ |- _ => destruct Hs as [x Hx] end. split; [done|].
    split; [|by left]. unfold signer_key in Hx. exists cfg. destruct (is_signer cfg); naive_solver.
  - match goal with Hs : (_ =? pk) = true |- _ => apply Z.eqb_eq in Hs as -> end. split; [done|]. split.
    + eapply signer_key_signed; [|done]. by eapply list_elem_of_lookup_2.
    + match goal with Hb : _ && _ = false |- _ => apply andb_false_iff in Hb as [Hb|Hb] end; ok_inv; auto.
Qed.

Lemma check_signers_Ok cfg current l counter s n s' : cfg ∈ keyed ->
  check_signers ctx cfg current counter l s = (Ok n, s') ->
  s' = s /\ n = (counter + length l)%nat /\
  forall pk, pk ∈ l -> config_signed pk /\ (pk = key cfg \/ keys current = [] \/ pk ∈ config_signer_keys (keys current)).
Proof.
  intros Hcfg. revert counter s. induction l as [|pk l IH]; intros counter s Hr; cbn in Hr; ok_inv.
  - split_and!; [done|cbn; lia|]. intros pk Hpk. by apply elem_of_nil in Hpk.
  - match goal with Hc : check_signer _ _ _ _ _ _ = _ |- _ => apply check_signer_Ok in Hc as (-> & Hsig & Hin); [|done] end.
    match goal with Hc : check_signers _ _ _ _ _ _ = _ |- _ => apply IH in Hc as (-> & -> & Hrest) end.
    split_and!; [done|cbn; lia|]. intros x [->|Hx]%elem_of_cons; auto.
Qed.

Lemma signer_keys_NoDup l : NoDup l -> NoDup (config_signer_keys l).
Proof.
  intros Hl. unfold config_signer_keys. apply NoDup_fmap_2_strong; [|by apply NoDup_filter].
  intros [x b] [y c] [Hb _]%list_elem_of_filter [Hc _]%list_elem_of_filter Heq. cbn in *. congruence.
Qed.

Lemma signer_keys_elem l pk : pk ∈ config_signer_keys l <-> (pk, true) ∈ l.
Proof.
  unfold config_signer_keys. rewrite list_elem_of_fmap. split.
  - intros ([x b] & -> & [Hb Hx]%list_elem_of_filter). cbn in *. by subst.
  - intros Hx. exists (pk, true). split; [done|]. by apply list_elem_of_filter.
Qed.

(** Distinct elements of [l], as many as [l] has, are all of [l]. *)
Lemma NoDup_covers {A} (k l : list A) x : NoDup k -> k ⊆ l -> (length l <= length k)%nat -> x ∈ l -> x ∈ k.
Proof.
  intros Hnd Hsub Hlen Hx. apply (NoDup_submseteq k l) in Hsub; [|done].
  apply submseteq_length_Permutation in Hsub; [|done]. by rewrite Hsub.
Qed.

Lemma config_process_Ok first bytes s u s' : config_process_instruction ctx first bytes s = (Ok u, s') ->
  exists new cfg a current, limited_deserialize bytes PACKET_DATA_SIZE = Ok new /\ keyed !! first = Some cfg /\
    s !! account cfg = Some a /\ owner a = config_program_id /\ bincode_deserialize (data a) = Some current /\
    (forall pk, pk ∈ config_signer_keys (keys new) ->
       config_signed pk /\ (pk = key cfg \/ keys current = [] \/ pk ∈ config_signer_keys (keys current))) /\
    (active ctx dedupe_config_program_signers = false \/ NoDup (keys new)) /\
    (length (config_signer_keys (keys current)) <= length (config_signer_keys (keys new)))%nat /\ (length bytes <= length (data a))%nat /\
    s' = <[account cfg := set_data (bytes ++ drop (length bytes) (data a)) a]> s.
Proof.
  unfold config_process_instruction. fold keyed. intros Hr. read_inv.
  match goal with Hk : keyed !! first = Some ?k |- _ => pose proof (list_elem_of_lookup_2 _ _ _ Hk) end.
  match goal with Hc : check_signers _ _ _ _ _ _ = _ |- _ => apply check_signers_Ok in Hc as (-> & -> & Hs); [|done] end.
  acct_inv.
  match goal with Ho : (owner ?a =? _) = true, Hx : s !! ?i = Some ?a |- _ =>
    repeat match goal with Hy : s !! i = Some ?b |- _ =>
      tryif constr_eq a b then fail else (assert (b = a) as -> by congruence; clear Hy) end; apply Z.eqb_eq in Ho end.
  match goal with Hb : _ && _ = false |- _ => 
    destruct (active ctx dedupe_config_program_signers) eqn:Hact; cbn in Hb end;
    match goal with Hl : (_ <? _) = false |- _ => apply Z.ltb_ge in Hl end; ok_inv;
    eexists _, _, _, _; split_and!; try done; try lia; auto.
Qed.

(** ** Properties *)

(** An update of a config account needs its signers. When duplicate keys are
    refused, every key the account lists as a signer has signed, unless the
    update lists the account's own key as a signer, and then that key has signed.
    The update changes nothing but the front of the account's data, and every key
    it lists as a signer has signed. *)
Theorem config_update_authorized first bytes s s' cfg a current new :
  active ctx dedupe_config_program_signers = true ->
  config_process_instruction ctx first bytes s = (Ok tt, s') ->
  keyed !! first = Some cfg -> s !! account cfg = Some a -> bincode_deserialize (data a) = Some current ->
  limited_deserialize bytes PACKET_DATA_SIZE = Ok new -> keys current ≠ [] ->
  ((forall pk, (pk, true) ∈ keys current -> config_signed pk) \/
   (key cfg, true) ∈ keys new /\ config_signed (key cfg)) /\
  (forall pk, (pk, true) ∈ keys new -> config_signed pk) /\
  owner a = config_program_id /\ (length bytes <= length (data a))%nat /\
  s' = <[account cfg := set_data (bytes ++ drop (length bytes) (data a)) a]> s.
Proof.
  intros Hdd Hr Hcfg Ha Hcur Hnew Hne.
  apply config_process_Ok in Hr as (new' & cfg' & a' & cur' & Hnew' & Hcfg' & Ha' & Ho & Hcur' & Hsig & Hdup & Hcount & Hlen & ->).
  assert (new' = new) as -> by congruence. assert (cfg' = cfg) as -> by congruence.
  assert (a' = a) as -> by congruence. assert (cur' = current) as -> by congruence.
  split_and!; [|intros pk Hpk; by apply Hsig, signer_keys_elem|done|done|done].
  destruct (decide ((key cfg, true) ∈ keys new)) as [Hin|Hnin]; [right; split; [done|by apply Hsig, signer_keys_elem]|left].
  intros pk Hpk%signer_keys_elem. apply Hsig. eapply NoDup_covers; [|intros x Hx|exact Hcount|exact Hpk].
  - apply signer_keys_NoDup. destruct Hdup as [Hf|Hd]; [congruence|done].
  - destruct (Hsig x Hx) as [_ [->|[?|?]]]; [|done|done]. by apply signer_keys_elem in Hx.
Qed.
End spec.

(** ** The config program on concrete data *)

Module ConfigExample.
#[local] Instance ConfigKeys_eq : EqDecision ConfigKeys.
Proof. solve_decision. Defined.

(** Two signers are stored; one update lists both, the other the first and the account's own key. *)
Definition stored : ConfigKeys := mkConfigKeys [(11, true); (12, true)].
Definition update : ConfigKeys := mkConfigKeys [(11, true); (12, true); (13, false)].
Definition substitute : ConfigKeys := mkConfigKeys [(11, true); (10, true)].
#[local] Instance keys_codec : Bincode ConfigKeys := table_codec [stored; update; substitute].

Definition accounts : Accounts :=
  [mkAccount 1 [] 0 true 0; mkAccount 5 [0; 0] config_program_id false 0; mkAccount 5 [] system_program_id false 0].
Definition context (keyed : list KeyedAccount) : ProgramContext :=
  mkProgramContext keyed (mkSysvarCache None None None None) (<[dedupe_config_program_signers := 0]> ∅) 0 0.
Definition update_ctx : ProgramContext :=
  context [mkKeyedAccount false false 3 0; mkKeyedAccount false true 10 1; mkKeyedAccount true false 11 2;
    mkKeyedAccount true false 12 2].
Definition substitute_ctx : ProgramContext :=
  context [mkKeyedAccount false false 3 0; mkKeyedAccount true true 10 1; mkKeyedAccount true false 11 2].

Lemma config_update_authorized_witness : exists s',
  config_process_instruction update_ctx 1 [1] accounts = (Ok tt, s') /\
  ((forall pk, (pk, true) ∈ keys stored -> config_signed update_ctx pk) \/
   (10, true) ∈ keys update /\ config_signed update_ctx 10).
Proof.
  eexists. split; [vm_compute; reflexivity|].
  eapply (@config_update_authorized keys_codec update_ctx 1 [1] accounts _ (mkKeyedAccount false true 10 1)
    (mkAccount 5 [0; 0] config_program_id false 0) stored update);
    [vm_compute; reflexivity|vm_compute; reflexivity|reflexivity|reflexivity|reflexivity|reflexivity|discriminate].
Defined.

(** The account's own key stands in for a stored signer: with two stored
    signers, an update signed by one of them and by the account's key succeeds and
    removes the other, who has not signed; the count of signers is reached by a
    key that is not among them. *)
Theorem config_signer_substitution : exists s' a,
  config_process_instruction substitute_ctx 1 [2] accounts = (Ok tt, s') /\
  s' !! 1%nat = Some a /\ bincode_deserialize (data a) = Some substitute /\
  (12, true) ∈ keys stored /\ ~ config_signed substitute_ctx 12 /\ (10, true) ∉ keys stored.
Proof.
  eexists _, _. split; [vm_compute; reflexivity|]. split; [reflexivity|]. split; [reflexivity|].
  split; [set_solver|]. split; [|set_solver]. intros (k & Hk & Hs & Hkey). cbn in Hk.
  rewrite !elem_of_cons, elem_of_nil in Hk. destruct_or! Hk; subst; done.
Qed.
End ConfigExample.
