(* ===== verification/StakeProgram.v ===== *)
(** * The stake program

    [programs/stake/src/stake_state.rs] and [stake_instruction.rs] with the
    instructions of [sdk/program/src/stake/instruction.rs] and the reading of the
    stake configuration ([programs/stake/src/config.rs],
    [programs/config/src/lib.rs]): the handlers of a stake account, the merge of
    two stakes, and the points and rewards of an epoch. The tracer of the rewards
    calculation and logging are left out. *)
From Stdlib Require Import String Ascii SpecFloat.
From stdpp Require Import base numbers option list gmap.
From S2P Require Import Prelude OrdMap Instruction VoteState Account EpochSchedule Float64 Rent Sysvar Nonce System ConfigProgram.
From S2P Require Import Stake.

Definition stake_program_id : Pubkey := Eval vm_compute in pubkey_of "Stake11111111111111111111111111111111111111".
Definition stake_history_id : Pubkey := Eval vm_compute in pubkey_of "SysvarStakeHistory1111111111111111111111111".
Definition require_custodian_for_locked_stake_authorize : Pubkey :=
  Eval vm_compute in pubkey_of "D4jsDcXaqdW8tDAWn8H4R25Cdns2YwLneujSL1zvjW6R".
Definition stake_program_v4 : Pubkey := Eval vm_compute in pubkey_of "Dc7djyhP9aLfdq2zktpvskeAjpG56msCU1yexpxXiWZb".
Definition stake_merge_with_unmatched_credits_observed : Pubkey :=
  Eval vm_compute in pubkey_of "meRgp4ArRPhD3KtCY9c5yAf2med7mBLsjKTPeVUHqBL".

(** ** Instructions *)

Module StakeIx.
Record LockupCheckedArgs : Type := mkLockupCheckedArgs {
  lca_unix_timestamp : option UnixTimestamp;
  lca_epoch : option Epoch;
}.

Record AuthorizeWithSeedArgs : Type := mkAuthorizeWithSeedArgs {
  new_authorized_pubkey : Pubkey;
  stake_authorize : StakeAuthorize;
  authority_seed : list Z;
  authority_owner : Pubkey;
}.

Record AuthorizeCheckedWithSeedArgs : Type := mkAuthorizeCheckedWithSeedArgs {
  c_stake_authorize : StakeAuthorize;
  c_authority_seed : list Z;
  c_authority_owner : Pubkey;
}.

Inductive StakeInstruction : Type :=
| Initialize (authorized : Authorized) (lockup : Lockup)
| Authorize (authorized_pubkey : Pubkey) (stake_authorize : StakeAuthorize)
| DelegateStake
| Split (lamports : Z)
| Withdraw (lamports : Z)
| Deactivate
| SetLockup (lockup : LockupArgs)
| Merge
| AuthorizeWithSeed (args : AuthorizeWithSeedArgs)
| InitializeChecked
| AuthorizeChecked (stake_authorize : StakeAuthorize)
| AuthorizeCheckedWithSeed (args : AuthorizeCheckedWithSeedArgs)
| SetLockupChecked (args : LockupCheckedArgs).
End StakeIx.

(** [solana_sdk::instruction::checked_add] *)
Definition checked_add (a b : Z) : outcome InstructionError Z := ok_or InsufficientFunds (checked_add64 a b).

(** ** Delegation *)

Definition redelegate (stake : Stake) (stake_lamports : Z) (voter : Pubkey) (vote_state : VoteState) (clock : Clock)
    (stake_history : StakeHistory) (config : Config) (can_reverse_deactivation : bool) : outcome StakeError Stake :=
  if negb (Stake_stake stake (clock_epoch clock) (Some stake_history) =? 0) then
    if (voter_pubkey (delegation stake) =? voter)
       && (clock_epoch clock =? deactivation_epoch (delegation stake)) && can_reverse_deactivation
    then Ok (set_delegation (set_deactivation_epoch U64_MAX (delegation stake)) stake)
    else Err TooSoonToRedelegate
  else
    Ok (mkStake (mkDelegation voter stake_lamports (clock_epoch clock) U64_MAX (config_warmup_cooldown_rate config))
          (credits vote_state)).

Definition new_stake (stake : Z) (voter : Pubkey) (vote_state : VoteState) (activation_epoch : Epoch)
    (config : Config) : Stake :=
  mkStake (Delegation_new voter stake activation_epoch (config_warmup_cooldown_rate config)) (credits vote_state).

Definition calculate_split_rent_exempt_reserve (source_rent_exempt_reserve source_data_len split_data_len : Z) : Z :=
  let lamports_per_byte_year := source_rent_exempt_reserve / add64 source_data_len ACCOUNT_STORAGE_OVERHEAD in
  mul64 lamports_per_byte_year (add64 split_data_len ACCOUNT_STORAGE_OVERHEAD).

(** ** Merging *)

Inductive MergeKind : Type :=
| Inactive (meta : Meta) (lamports : Z)
| ActivationEpoch (meta : Meta) (stake : Stake)
| FullyActive (meta : Meta) (stake : Stake).

Definition MergeKind_meta (k : MergeKind) : Meta :=
  match k with Inactive meta _ | ActivationEpoch meta _ | FullyActive meta _ => meta end.

Definition active_stake (k : MergeKind) : option Stake :=
  match k with Inactive _ _ => None | ActivationEpoch _ stake | FullyActive _ stake => Some stake end.

Definition metas_can_merge (stake source : Meta) (clock : option Clock) : outcome InstructionError unit :=
  let can_merge_lockups :=
    match clock with
    | None => bool_decide (lockup stake = lockup source)
    | Some clock =>
        bool_decide (lockup stake = lockup source)
        || (negb (is_in_force (lockup stake) clock None) && negb (is_in_force (lockup source) clock None))
    end in
  if bool_decide (authorized stake = authorized source) && can_merge_lockups then Ok tt
  else Err (stake_error MergeMismatch).

(** [f64::EPSILON] *)
Definition F64_EPSILON : f64 := f64_pow2 (-52).

Definition active_delegations_can_merge (stake source : Delegation) : outcome InstructionError unit :=
  if negb (voter_pubkey stake =? voter_pubkey source) then Err (stake_error MergeMismatch)
  else if f64_lt (SFabs (f64_sub (warmup_cooldown_rate stake) (warmup_cooldown_rate source))) F64_EPSILON
          && (deactivation_epoch stake =? U64_MAX) && (deactivation_epoch source =? U64_MAX)
  then Ok tt
  else Err (stake_error MergeMismatch).

Definition active_stakes_can_merge (stake source : Stake) : outcome InstructionError unit :=
  _ ← active_delegations_can_merge (delegation stake) (delegation source);
  if credits_observed stake =? credits_observed source then Ok tt else Err (stake_error MergeMismatch).

Definition stake_weighted_credits_observed (stake : Stake) (absorbed_lamports absorbed_credits_observed : Z)
  : option Z :=
  if credits_observed stake =? absorbed_credits_observed then Some (credits_observed stake)
  else
    total_stake ← checked_add64 (d_stake (delegation stake)) absorbed_lamports;
    stake_weighted_credits ← checked_mul128 (credits_observed stake) (d_stake (delegation stake));
    absorbed_weighted_credits ← checked_mul128 absorbed_credits_observed absorbed_lamports;
    total ← checked_add128 stake_weighted_credits absorbed_weighted_credits;
    total ← checked_add128 total total_stake;
    total ← checked_sub128 total 1;
    quotient ← checked_div128 total total_stake;
    if quotient <=? U64_MAX then Some quotient else None.

Section merge.
Context (feature_set : FeatureSet).

Definition merge_delegation_stake_and_credits_observed (stake : Stake)
    (absorbed_lamports absorbed_credits_observed : Z) : outcome InstructionError Stake :=
  stake ← (if is_active feature_set stake_merge_with_unmatched_credits_observed then
             c ← ok_or ArithmeticOverflow
                   (stake_weighted_credits_observed stake absorbed_lamports absorbed_credits_observed);
             Ok (set_credits_observed c stake)
           else Ok stake);
  n ← checked_add (d_stake (delegation stake)) absorbed_lamports;
  Ok (set_delegation (set_d_stake n (delegation stake)) stake).

Definition MergeKind_merge (self source : MergeKind) (clock : option Clock)
  : outcome InstructionError (option StakeState) :=
  _ ← metas_can_merge (MergeKind_meta self) (MergeKind_meta source) clock;
  _ ← (match active_stake self, active_stake source with
       | Some stake, Some source =>
           if is_active feature_set stake_merge_with_unmatched_credits_observed
           then active_delegations_can_merge (delegation stake) (delegation source)
           else active_stakes_can_merge stake source
       | _, _ => Ok tt
       end);
  match self, source with
  | Inactive _ _, Inactive _ _ => Ok None
  | Inactive _ _, ActivationEpoch _ _ => Ok None
  | ActivationEpoch meta stake, Inactive _ source_lamports =>
      n ← checked_add (d_stake (delegation stake)) source_lamports;
      Ok (Some (StakeActive meta (set_delegation (set_d_stake n (delegation stake)) stake)))
  | ActivationEpoch meta stake, ActivationEpoch source_meta source_stake =>
      source_lamports ← checked_add (rent_exempt_reserve source_meta) (d_stake (delegation source_stake));
      stake ← merge_delegation_stake_and_credits_observed stake source_lamports (credits_observed source_stake);
      Ok (Some (StakeActive meta stake))
  | FullyActive meta stake, FullyActive _ source_stake =>
      stake ← merge_delegation_stake_and_credits_observed stake (d_stake (delegation source_stake))
                (credits_observed source_stake);
      Ok (Some (StakeActive meta stake))
  | _, _ => Err (stake_error MergeMismatch)
  end.
End merge.

(** ** Rewards *)

Record PointValue : Type := mkPointValue {
  pv_rewards : Z;
  pv_points : Z;
}.

(** One epoch of the loop of [calculate_stake_points_and_credits]. *)
Definition points_step (stake : Stake) (stake_history : option StakeHistory) (acc : Z * Z) (entry : Epoch * Z * Z)
  : Z * Z :=
  let '(points, new_credits_observed) := acc in
  let '(epoch, final_epoch_credits, initial_epoch_credits) := entry in
  let credits_in_stake := credits_observed stake in
  let stake_amount := Delegation_stake (delegation stake) epoch stake_history in
  let earned_credits :=
    if credits_in_stake <? initial_epoch_credits then sub64 final_epoch_credits initial_epoch_credits
    else if credits_in_stake <? final_epoch_credits then sub64 final_epoch_credits new_credits_observed
    else 0 in
  (add128 points (mul128 stake_amount earned_credits), Z.max new_credits_observed final_epoch_credits).

Definition calculate_stake_points_and_credits (stake : Stake) (new_vote_state : VoteState)
    (stake_history : option StakeHistory) : Z * Z :=
  let credits_in_stake := credits_observed stake in
  if credits new_vote_state <=? credits_in_stake then (0, credits_in_stake)
  else foldl (points_step stake stake_history) (0, credits_in_stake) (epoch_credits new_vote_state).

Definition calculate_stake_points (stake : Stake) (vote_state : VoteState) (stake_history : option StakeHistory) : Z :=
  fst (calculate_stake_points_and_credits stake vote_state stake_history).

(** The stakers' part, the voters' part and the new observed credits. *)
Definition calculate_stake_rewards {E} (rewarded_epoch : Epoch) (stake : Stake) (point_value : PointValue)
    (vote_state : VoteState) (stake_history : option StakeHistory) : outcome E (option (Z * Z * Z)) :=
  let '(points, new_credits_observed) := calculate_stake_points_and_credits stake vote_state stake_history in
  let forced_credits_update_with_skipped_reward :=
    (pv_rewards point_value =? 0) || (activation_epoch (delegation stake) =? rewarded_epoch) in
  if forced_credits_update_with_skipped_reward then Ok (Some (0, 0, new_credits_observed))
  else if points =? 0 then Ok None
  else if pv_points point_value =? 0 then Ok None
  else
    rewards ← unwrap (checked_mul128 points (pv_rewards point_value));
    rewards ← unwrap (checked_div128 rewards (pv_points point_value));
    rewards ← unwrap (if rewards <=? U64_MAX then Some rewards else None);
    if rewards =? 0 then Ok None
    else
      let '(voter_rewards, staker_rewards, is_split) := commission_split vote_state rewards in
      if ((voter_rewards =? 0) || (staker_rewards =? 0)) && is_split then Ok None
      else Ok (Some (staker_rewards, voter_rewards, new_credits_observed)).

(** The rewards paid and the updated stake. *)
Definition redeem_stake_rewards {E} (rewarded_epoch : Epoch) (stake : Stake) (point_value : PointValue)
    (vote_state : VoteState) (stake_history : option StakeHistory) : outcome E (option (Z * Z * Stake)) :=
  r ← calculate_stake_rewards rewarded_epoch stake point_value vote_state stake_history;
  match r with
  | Some (stakers_reward, voters_reward, new_credits_observed) =>
      let stake := set_credits_observed new_credits_observed stake in
      let stake :=
        set_delegation (set_d_stake (add64 (d_stake (delegation stake)) stakers_reward) (delegation stake)) stake in
      Ok (Some (stakers_reward, voters_reward, stake))
  | None => Ok None
  end.

Definition calculate_points (stake_state : StakeState) (vote_state : VoteState) (stake_history : option StakeHistory)
  : outcome InstructionError Z :=
  match stake_state with
  | StakeActive _ stake => Ok (calculate_stake_points stake vote_state stake_history)
  | _ => Err InvalidAccountData
  end.

Definition new_stake_history_entry (epoch : Epoch) (stakes : list Delegation) (history : option StakeHistory)
  : StakeHistoryEntry :=
  foldl (fun sum d => Entry_add sum (stake_activating_and_deactivating d epoch history)) Entry_default stakes.

(** ** Stake accounts *)

Section stake.
Context (sha256 : list Z -> Hash).
Context `{Bincode StakeState} `{Bincode VoteStateVersions}.

Definition redeem_rewards (rewarded_epoch : Epoch) (stake_state : StakeState) (vote_state : VoteState)
    (point_value : PointValue) (stake_history : option StakeHistory)
  : SE AccountSharedData InstructionError (Z * Z) :=
  match stake_state with
  | StakeActive meta stake =>
      r ← lift (redeem_stake_rewards rewarded_epoch stake point_value vote_state stake_history);
      match r with
      | Some (stakers_reward, voters_reward, stake) =>
          _ ← (fun a => let '(r, a') := checked_add_lamports stakers_reward a in
                        (map_err InstructionError_from_lamports r, a'));
          _ ← account_set_state (StakeActive meta stake);
          mret (stakers_reward, voters_reward)
      | None => throw (stake_error NoCreditsToRedeem)
      end
  | _ => throw InvalidAccountData
  end.

(** [from] and the parts of the state. *)
Definition state_from (a : AccountSharedData) : option StakeState := ok (account_state a).
Definition stake_from (a : AccountSharedData) : option Stake := state_from a ≫= state_stake.
Definition delegation_from (a : AccountSharedData) : option Delegation := state_from a ≫= state_delegation.
Definition authorized_from (a : AccountSharedData) : option Authorized := state_from a ≫= state_authorized.
Definition lockup_from (a : AccountSharedData) : option Lockup := state_from a ≫= state_lockup.
Definition meta_from (a : AccountSharedData) : option Meta := state_from a ≫= state_meta.

(** [set_state(..).expect(..)] on a new stake account. *)
Definition new_account_with (lamports : Z) (state : StakeState) : outcome InstructionError AccountSharedData :=
  match account_set_state state (AccountSharedData_new lamports (Z.to_nat STAKE_STATE_SIZE) stake_program_id) with
  | (Ok _, a) => Ok a
  | _ => Panic
  end.

Definition create_lockup_stake_account (authorized : Authorized) (lockup : Lockup) (rent : Rent) (lamports : Z)
  : outcome InstructionError AccountSharedData :=
  let rent_exempt_reserve := minimum_balance rent STAKE_STATE_SIZE in
  if rent_exempt_reserve <=? lamports
  then new_account_with lamports (StakeInitialized (mkMeta rent_exempt_reserve authorized lockup))
  else Panic.

Definition do_create_account (authorized voter_pubkey : Pubkey) (vote_account : AccountSharedData) (rent : Rent)
    (lamports : Z) (activation_epoch : Epoch) : outcome InstructionError AccountSharedData :=
  match (account_state vote_account : outcome InstructionError VoteStateVersions) with
  | Ok versions =>
      let rent_exempt_reserve := minimum_balance rent STAKE_STATE_SIZE in
      new_account_with lamports
        (StakeActive (mkMeta rent_exempt_reserve (Authorized_auto authorized) Lockup_default)
           (new_stake (sub64 lamports rent_exempt_reserve) voter_pubkey (convert_to_current versions) activation_epoch
              Config_default))
  | _ => Panic
  end.

(** [create_account]: a bootstrap stake. *)
Definition create_stake_account (authorized voter_pubkey : Pubkey) (vote_account : AccountSharedData) (rent : Rent)
    (lamports : Z) : outcome InstructionError AccountSharedData :=
  do_create_account authorized voter_pubkey vote_account rent lamports U64_MAX.

Definition stake_initialize (me : KeyedAccount) (authorized : Authorized) (lockup : Lockup) (rent : Rent) : AM unit :=
  data_len ← ka_data_len me;
  _ ← ensure (data_len =? STAKE_STATE_SIZE) InvalidAccountData;
  state ← ka_state me;
  match state with
  | StakeUninitialized =>
      data_len ← ka_data_len me;
      let rent_exempt_reserve := minimum_balance rent data_len in
      balance ← ka_lamports me;
      if rent_exempt_reserve <? balance
      then ka_set_state me (StakeInitialized (mkMeta rent_exempt_reserve authorized lockup))
      else throw InsufficientFunds
  | _ => throw InvalidAccountData
  end.

Definition stake_authorize (me : KeyedAccount) (signers : list Pubkey) (new_authority : Pubkey)
    (stake_authorize : StakeAuthorize) (require_custodian : bool) (clock : Clock) (custodian : option Pubkey)
  : AM unit :=
  state ← ka_state me;
  let args meta := if require_custodian then Some (lockup meta, clock, custodian) else None in
  match state with
  | StakeActive meta stake =>
      a ← lift (Authorized_authorize (authorized meta) signers new_authority stake_authorize (args meta));
      ka_set_state me (StakeActive (set_authorized a meta) stake)
  | StakeInitialized meta =>
      a ← lift (Authorized_authorize (authorized meta) signers new_authority stake_authorize (args meta));
      ka_set_state me (StakeInitialized (set_authorized a meta))
  | _ => throw InvalidAccountData
  end.

Definition stake_authorize_with_seed (me authority_base : KeyedAccount) (authority_seed : list Z)
    (authority_owner new_authority : Pubkey) (sa : StakeAuthorize) (require_custodian : bool) (clock : Clock)
    (custodian : option Pubkey) : AM unit :=
  signers ← (match signer_key authority_base with
             | Some base_pubkey =>
                 pk ← lift (pubkey_err (create_with_seed sha256 base_pubkey authority_seed authority_owner)); mret [pk]
             | None => mret []
             end);
  stake_authorize me signers new_authority sa require_custodian clock custodian.

Definition stake_delegate (me vote_account : KeyedAccount) (clock : Clock) (stake_history : StakeHistory)
    (config : Config) (signers : list Pubkey) (can_reverse_deactivation : bool) : AM unit :=
  vote_owner ← ka_owner vote_account;
  _ ← ensure (vote_owner =? vote_program_id) IncorrectProgramId;
  state ← ka_state me;
  match state with
  | StakeInitialized meta =>
      _ ← lift (Authorized_check (authorized meta) signers Staker);
      balance ← ka_lamports me;
      versions ← (ka_state vote_account : AM VoteStateVersions);
      let stake := new_stake (saturating_sub64 balance (rent_exempt_reserve meta)) (unsigned_key vote_account)
                     (convert_to_current versions) (clock_epoch clock) config in
      ka_set_state me (StakeActive meta stake)
  | StakeActive meta stake =>
      _ ← lift (Authorized_check (authorized meta) signers Staker);
      balance ← ka_lamports me;
      versions ← (ka_state vote_account : AM VoteStateVersions);
      stake ← lift (map_err stake_error
                (redelegate stake (saturating_sub64 balance (rent_exempt_reserve meta)) (unsigned_key vote_account)
                   (convert_to_current versions) clock stake_history config can_reverse_deactivation));
      ka_set_state me (StakeActive meta stake)
  | _ => throw InvalidAccountData
  end.

Definition stake_deactivate (me : KeyedAccount) (clock : Clock) (signers : list Pubkey) : AM unit :=
  state ← ka_state me;
  match state with
  | StakeActive meta stake =>
      _ ← lift (Authorized_check (authorized meta) signers Staker);
      stake ← lift (map_err stake_error (Stake_deactivate stake (clock_epoch clock)));
      ka_set_state me (StakeActive meta stake)
  | _ => throw InvalidAccountData
  end.

Definition stake_set_lockup (me : KeyedAccount) (args : LockupArgs) (signers : list Pubkey) (clock : option Clock)
  : AM unit :=
  state ← ka_state me;
  match state with
  | StakeInitialized meta =>
      meta ← lift (Meta_set_lockup meta args signers clock); ka_set_state me (StakeInitialized meta)
  | StakeActive meta stake =>
      meta ← lift (Meta_set_lockup meta args signers clock); ka_set_state me (StakeActive meta stake)
  | _ => throw InvalidAccountData
  end.

(** The funds a split of [lamports] needs; returns the reserve of the new account. *)
Definition check_split_funds (me split : KeyedAccount) (lamports : Z) (meta : Meta) : AM Z :=
  data_len ← ka_data_len me;
  split_data_len ← ka_data_len split;
  let split_rent_exempt_reserve :=
    calculate_split_rent_exempt_reserve (rent_exempt_reserve meta) data_len split_data_len in
  split_balance ← ka_lamports split;
  balance ← ka_lamports me;
  insufficient ←
    (if lamports <=? saturating_sub64 split_rent_exempt_reserve split_balance then mret true
     else if negb (lamports =? balance) then
       n ← lift (checked_add lamports (rent_exempt_reserve meta)); mret (balance <=? n)
     else mret false);
  _ ← ensure (negb insufficient) InsufficientFunds;
  mret split_rent_exempt_reserve.

(** What a split leaves and what it gives, as stake. *)
Definition split_amounts (lamports balance reserve split_reserve split_balance : Z) : Z * Z :=
  if lamports =? balance then
    let remaining_stake_delta := saturating_sub64 lamports reserve in
    (remaining_stake_delta, remaining_stake_delta)
  else (lamports, sub64 lamports (saturating_sub64 split_reserve split_balance)).

(** The new states of the two accounts. *)
Definition split_states (me split : KeyedAccount) (lamports : Z) (signers : list Pubkey) (state : StakeState) : AM unit :=
  match state with
  | StakeActive meta stake =>
      _ ← lift (Authorized_check (authorized meta) signers Staker);
      split_rent_exempt_reserve ← check_split_funds me split lamports meta;
      balance ← ka_lamports me;
      split_balance ← ka_lamports split;
      let '(remaining_stake_delta, split_stake_amount) :=
        split_amounts lamports balance (rent_exempt_reserve meta) split_rent_exempt_reserve split_balance in
      stakes ← lift (map_err stake_error (Stake_split stake remaining_stake_delta split_stake_amount));
      let '(stake, split_stake) := stakes in
      _ ← ka_set_state me (StakeActive meta stake);
      ka_set_state split (StakeActive (set_rent_exempt_reserve split_rent_exempt_reserve meta) split_stake)
  | StakeInitialized meta =>
      _ ← lift (Authorized_check (authorized meta) signers Staker);
      split_rent_exempt_reserve ← check_split_funds me split lamports meta;
      ka_set_state split (StakeInitialized (set_rent_exempt_reserve split_rent_exempt_reserve meta))
  | StakeUninitialized => ensure (bool_decide (unsigned_key me ∈ signers)) MissingRequiredSignature
  | StakeRewardsPool => throw InvalidAccountData
  end.

(** The lamports of a split; an emptied account is deinitialized. *)
Definition split_move (me split : KeyedAccount) (lamports : Z) : AM unit :=
  balance ← ka_lamports me;
  _ ← (if lamports =? balance then ka_set_state me StakeUninitialized else mret tt);
  _ ← lamports_op split (checked_add_lamports lamports);
  lamports_op me (checked_sub_lamports lamports).

Definition stake_split (me : KeyedAccount) (lamports : Z) (split : KeyedAccount) (signers : list Pubkey) : AM unit :=
  split_owner ← ka_owner split;
  _ ← ensure (split_owner =? stake_program_id) IncorrectProgramId;
  split_data_len ← ka_data_len split;
  _ ← ensure (split_data_len =? STAKE_STATE_SIZE) InvalidAccountData;
  split_state ← ka_state split;
  match split_state with
  | StakeUninitialized =>
      balance ← ka_lamports me;
      _ ← ensure (negb (balance <? lamports)) InsufficientFunds;
      state ← ka_state me;
      _ ← split_states me split lamports signers state;
      split_move me split lamports
  | _ => throw InvalidAccountData
  end.

Definition get_if_mergeable (k : KeyedAccount) (clock : Clock) (stake_history : StakeHistory) : AM MergeKind :=
  state ← ka_state k;
  match state with
  | StakeActive meta stake =>
      let status := stake_activating_and_deactivating (delegation stake) (clock_epoch clock) (Some stake_history) in
      if effective status =? 0 then
        if (activating status =? 0) && (deactivating status =? 0)
        then balance ← ka_lamports k; mret (Inactive meta balance)
        else mret (ActivationEpoch meta stake)
      else if (activating status =? 0) && (deactivating status =? 0) then mret (FullyActive meta stake)
      else throw (stake_error MergeTransientStake)
  | StakeInitialized meta => balance ← ka_lamports k; mret (Inactive meta balance)
  | _ => throw InvalidAccountData
  end.

(** The source is deinitialized and drained. *)
Definition merge_drain (me source_account : KeyedAccount) : AM unit :=
  _ ← ka_set_state source_account StakeUninitialized;
  n ← ka_lamports source_account;
  _ ← lamports_op source_account (checked_sub_lamports n);
  lamports_op me (checked_add_lamports n).

Definition stake_merge (feature_set : FeatureSet) (me source_account : KeyedAccount) (clock : Clock)
    (stake_history : StakeHistory) (signers : list Pubkey) (can_merge_expired_lockups : bool) : AM unit :=
  source_owner ← ka_owner source_account;
  _ ← ensure (source_owner =? stake_program_id) IncorrectProgramId;
  _ ← ensure (negb (unsigned_key source_account =? unsigned_key me)) InvalidArgument;
  stake_merge_kind ← get_if_mergeable me clock stake_history;
  _ ← lift (Authorized_check (authorized (MergeKind_meta stake_merge_kind)) signers Staker);
  source_merge_kind ← get_if_mergeable source_account clock stake_history;
  let clock := if can_merge_expired_lockups then Some clock else None in
  merged ← lift (MergeKind_merge feature_set stake_merge_kind source_merge_kind clock);
  _ ← (match merged with Some merged_state => ka_set_state me merged_state | None => mret tt end);
  merge_drain me source_account.

(** The lockup, the lamports that must stay, and whether stake is still effective. *)
Definition withdraw_reserve (me : KeyedAccount) (signers : list Pubkey) (clock : Clock) (stake_history : StakeHistory)
    (prevent_withdraw_to_zero : bool) : AM (Lockup * Z * bool) :=
  state ← ka_state me;
  match state with
  | StakeActive meta stake =>
      _ ← lift (Authorized_check (authorized meta) signers Withdrawer);
      let staked :=
        if deactivation_epoch (delegation stake) <=? clock_epoch clock
        then Delegation_stake (delegation stake) (clock_epoch clock) (Some stake_history)
        else d_stake (delegation stake) in
      staked_and_reserve ← lift (checked_add staked (rent_exempt_reserve meta));
      mret (lockup meta, staked_and_reserve, negb (staked =? 0))
  | StakeInitialized meta =>
      _ ← lift (Authorized_check (authorized meta) signers Withdrawer);
      reserve ← lift (if prevent_withdraw_to_zero then checked_add (rent_exempt_reserve meta) 1
                      else Ok (rent_exempt_reserve meta));
      mret (lockup meta, reserve, false)
  | StakeUninitialized =>
      _ ← ensure (bool_decide (unsigned_key me ∈ signers)) MissingRequiredSignature;
      mret (Lockup_default, 0, false)
  | StakeRewardsPool => throw InvalidAccountData
  end.

Definition stake_withdraw (me : KeyedAccount) (lamports : Z) (to : KeyedAccount) (clock : Clock)
    (stake_history : StakeHistory) (withdraw_authority : KeyedAccount) (custodian : option KeyedAccount)
    (prevent_withdraw_to_zero : bool) : AM unit :=
  withdraw_authority_pubkey ← lift (ok_or MissingRequiredSignature (signer_key withdraw_authority));
  let signers := [withdraw_authority_pubkey] in
  '(lockup, reserve, is_staked) ← withdraw_reserve me signers clock stake_history prevent_withdraw_to_zero;
  let custodian_pubkey := custodian ≫= signer_key in
  _ ← ensure (negb (is_in_force lockup clock custodian_pubkey)) (stake_error LockupInForce);
  lamports_and_reserve ← lift (checked_add lamports reserve);
  balance ← ka_lamports me;
  _ ← ensure (negb (is_staked && (balance <? lamports_and_reserve))) InsufficientFunds;
  _ ← (if negb (lamports =? balance) && (balance <? lamports_and_reserve)
       then _ ← assert (negb is_staked); throw InsufficientFunds
       else mret tt);
  _ ← (if lamports =? balance then ka_set_state me StakeUninitialized else mret tt);
  _ ← lamports_op me (checked_sub_lamports lamports);
  lamports_op to (checked_add_lamports lamports).

(** ** Instructions *)

Section handlers.
Context `{Bincode StakeIx.StakeInstruction} `{Bincode Clock} `{Bincode StakeHistory} `{Bincode Rent}.
Context `{Bincode ConfigKeys} `{Bincode Config}.
Context (ctx : ProgramContext).

(** [config::from_keyed_account] *)
Definition config_from_keyed_account (k : KeyedAccount) : AM Config :=
  _ ← ensure (unsigned_key k =? stake_config_id) InvalidArgument;
  a ← try_account_ref k;
  bytes ← lift (get_config_data (data a));
  lift (ok_or InvalidArgument (bytes ≫= bincode_deserialize)).

Definition stake_dispatch (me : KeyedAccount) (first : nat) (signers : list Pubkey)
    (instruction : StakeIx.StakeInstruction) : AM unit :=
  let at_index i := keyed_account_at_index (pc_keyed_accounts ctx) (first + i) in
  let at_index_ok i := pc_keyed_accounts ctx !! (first + i)%nat in
  match instruction with
  | StakeIx.Initialize authorized lockup =>
      k ← at_index 1%nat;
      rent ← from_keyed_account Rent rent_id k;
      stake_initialize me authorized lockup rent
  | StakeIx.Authorize authorized_pubkey sa =>
      if active ctx require_custodian_for_locked_stake_authorize then
        k ← at_index 1%nat;
        clock ← from_keyed_account Clock clock_id k;
        _ ← at_index 2%nat;
        stake_authorize me signers authorized_pubkey sa true clock (unsigned_key <$> at_index_ok 3%nat)
      else stake_authorize me signers authorized_pubkey sa false Clock_default None
  | StakeIx.AuthorizeWithSeed args =>
      authority_base ← at_index 1%nat;
      if active ctx require_custodian_for_locked_stake_authorize then
        k ← at_index 2%nat;
        clock ← from_keyed_account Clock clock_id k;
        stake_authorize_with_seed me authority_base (StakeIx.authority_seed args) (StakeIx.authority_owner args)
          (StakeIx.new_authorized_pubkey args) (StakeIx.stake_authorize args) true clock
          (unsigned_key <$> at_index_ok 3%nat)
      else
        stake_authorize_with_seed me authority_base (StakeIx.authority_seed args) (StakeIx.authority_owner args)
          (StakeIx.new_authorized_pubkey args) (StakeIx.stake_authorize args) false Clock_default None
  | StakeIx.DelegateStake =>
      vote ← at_index 1%nat;
      k ← at_index 2%nat;
      clock ← from_keyed_account Clock clock_id k;
      k ← at_index 3%nat;
      stake_history ← from_keyed_account StakeHistory stake_history_id k;
      k ← at_index 4%nat;
      config ← config_from_keyed_account k;
      stake_delegate me vote clock stake_history config signers (active ctx stake_program_v4)
  | StakeIx.Split lamports =>
      split ← at_index 1%nat;
      stake_split me lamports split signers
  | StakeIx.Merge =>
      source ← at_index 1%nat;
      k ← at_index 2%nat;
      clock ← from_keyed_account Clock clock_id k;
      k ← at_index 3%nat;
      stake_history ← from_keyed_account StakeHistory stake_history_id k;
      stake_merge (pc_feature_set ctx) me source clock stake_history signers (active ctx stake_program_v4)
  | StakeIx.Withdraw lamports =>
      to ← at_index 1%nat;
      k ← at_index 2%nat;
      clock ← from_keyed_account Clock clock_id k;
      k ← at_index 3%nat;
      stake_history ← from_keyed_account StakeHistory stake_history_id k;
      withdraw_authority ← at_index 4%nat;
      stake_withdraw me lamports to clock stake_history withdraw_authority (at_index_ok 5%nat)
        (active ctx stake_program_v4)
  | StakeIx.Deactivate =>
      k ← at_index 1%nat;
      clock ← from_keyed_account Clock clock_id k;
      stake_deactivate me clock signers
  | StakeIx.SetLockup args =>
      clock ← (if active ctx stake_program_v4
               then clock ← lift (get_clock (pc_sysvar_cache ctx)); mret (Some clock)
               else mret None);
      stake_set_lockup me args signers clock
  | StakeIx.InitializeChecked =>
      _ ← ensure (active ctx vote_stake_checked_instructions) InvalidInstructionData;
      staker ← at_index 2%nat;
      withdrawer ← at_index 3%nat;
      withdrawer ← lift (ok_or MissingRequiredSignature (signer_key withdrawer));
      k ← at_index 1%nat;
      rent ← from_keyed_account Rent rent_id k;
      stake_initialize me (mkAuthorized (unsigned_key staker) withdrawer) Lockup_default rent
  | StakeIx.AuthorizeChecked sa =>
      _ ← ensure (active ctx vote_stake_checked_instructions) InvalidInstructionData;
      k ← at_index 1%nat;
      clock ← from_keyed_account Clock clock_id k;
      _ ← at_index 2%nat;
      new_authority ← at_index 3%nat;
      authorized_pubkey ← lift (ok_or MissingRequiredSignature (signer_key new_authority));
      stake_authorize me signers authorized_pubkey sa true clock (unsigned_key <$> at_index_ok 4%nat)
  | StakeIx.AuthorizeCheckedWithSeed args =>
      _ ← ensure (active ctx vote_stake_checked_instructions) InvalidInstructionData;
      authority_base ← at_index 1%nat;
      k ← at_index 2%nat;
      clock ← from_keyed_account Clock clock_id k;
      new_authority ← at_index 3%nat;
      authorized_pubkey ← lift (ok_or MissingRequiredSignature (signer_key new_authority));
      stake_authorize_with_seed me authority_base (StakeIx.c_authority_seed args) (StakeIx.c_authority_owner args)
        authorized_pubkey (StakeIx.c_stake_authorize args) true clock (unsigned_key <$> at_index_ok 4%nat)
  | StakeIx.SetLockupChecked args =>
      _ ← ensure (active ctx vote_stake_checked_instructions) InvalidInstructionData;
      custodian ← (match at_index_ok 2%nat with
                   | Some custodian =>
                       pk ← lift (ok_or MissingRequiredSignature (signer_key custodian)); mret (Some pk)
                   | None => mret None
                   end);
      clock ← lift (get_clock (pc_sysvar_cache ctx));
      stake_set_lockup me (mkLockupArgs (StakeIx.lca_unix_timestamp args) (StakeIx.lca_epoch args) custodian)
        signers (Some clock)
  end.

Definition stake_process_instruction (first_instruction_account : nat) (instruction_data : list Z) : AM unit :=
  me ← keyed_account_at_index (pc_keyed_accounts ctx) first_instruction_account;
  me_owner ← ka_owner me;
  _ ← ensure (me_owner =? stake_program_id) InvalidAccountOwner;
  let signers := get_signers (drop first_instruction_account (pc_keyed_accounts ctx)) in
  instruction ← lift (limited_deserialize instruction_data PACKET_DATA_SIZE);
  stake_dispatch me first_instruction_account signers instruction.
End handlers.
End stake.
