(* ===== verification/StakeSpec.v ===== *)
(** * Correctness of the stake program

    How a successful instruction of the stake program changes each account: which
    signature every change needs, that lamports are conserved, and that the stake
    of a delegation stays backed by the lamports of its account. *)
From stdpp Require Import base numbers option list gmap.
From S2P Require Import Prelude OrdMap Instruction VoteState Account EpochSchedule Float64 Rent Sysvar PreAccount.
From S2P Require Import Nonce System SystemSpec ConfigProgram Stake StakeActivation StakeProgram.

(** ** Backed stake *)

(** The reserve is there, and so is the stake until it is deactivated. *)
Definition backed_state (st : StakeState) (n : Z) : Prop :=
  match st with
  | StakeActive meta stake =>
      rent_exempt_reserve meta <= n /\
      (deactivation_epoch (delegation stake) = U64_MAX -> d_stake (delegation stake) + rent_exempt_reserve meta <= n)
  | StakeInitialized meta => rent_exempt_reserve meta <= n
  | _ => True
  end.

Lemma backed_state_mono st n m : n <= m -> backed_state st n -> backed_state st m.
Proof. destruct st; cbn; try done; [lia|]. intros Hle [Hr Hs]. split; [lia|]. intros Hd. specialize (Hs Hd). lia. Qed.

Definition delegation_typed (d : Delegation) : Prop :=
  in_u64 (d_stake d) /\ in_u64 (activation_epoch d) /\ in_u64 (deactivation_epoch d).

(** The integers of a state are in the range of their Rust types. *)
Definition stake_typed (st : StakeState) : Prop :=
  match st with
  | StakeActive meta stake =>
      in_u64 (rent_exempt_reserve meta) /\ delegation_typed (delegation stake) /\ in_u64 (credits_observed stake)
  | StakeInitialized meta => in_u64 (rent_exempt_reserve meta)
  | _ => True
  end.

(** ** Changes of a stake account *)

Definition set_meta (m : Meta) (st : StakeState) : StakeState :=
  match st with
  | StakeActive _ stake => StakeActive m stake
  | StakeInitialized _ => StakeInitialized m
  | st => st
  end.

Section changes.
(** The keys that signed, whether the account's own key did, whether a
    deactivation may be reversed, and whether the stakes were backed before. *)
Context (signed : Pubkey -> Prop) (key_signed may_reverse was_backed : Prop).

Inductive meta_change (m : Meta) : Meta -> Prop :=
| mc_staker pk : signed (staker (authorized m)) \/ signed (withdrawer (authorized m)) ->
    meta_change m (set_authorized (mkAuthorized pk (withdrawer (authorized m))) m)
| mc_withdrawer pk : signed (withdrawer (authorized m)) ->
    meta_change m (set_authorized (mkAuthorized (staker (authorized m)) pk) m)
| mc_lockup lk : signed (custodian (lockup m)) \/ signed (withdrawer (authorized m)) ->
    meta_change m (mkMeta (rent_exempt_reserve m) (authorized m) lk).

(** A state and a balance, before and after. *)
Inductive stake_change : StakeState -> Z -> StakeState -> Z -> Prop :=
| ch_initialize meta n : rent_exempt_reserve meta < n -> stake_change StakeUninitialized n (StakeInitialized meta) n
| ch_meta st meta meta' n : state_meta st = Some meta -> meta_change meta meta' ->
    stake_change st n (set_meta meta' st) n
| ch_delegate st meta stake n : state_meta st = Some meta -> signed (staker (authorized meta)) ->
    d_stake (delegation stake) = saturating_sub64 n (rent_exempt_reserve meta) ->
    stake_change st n (StakeActive meta stake) n
| ch_reactivate meta stake n : may_reverse -> signed (staker (authorized meta)) ->
    stake_change (StakeActive meta stake) n
      (StakeActive meta (set_delegation (set_deactivation_epoch U64_MAX (delegation stake)) stake)) n
| ch_deactivate meta stake epoch n : signed (staker (authorized meta)) ->
    deactivation_epoch (delegation stake) = U64_MAX -> epoch < U64_MAX ->
    stake_change (StakeActive meta stake) n
      (StakeActive meta (set_delegation (set_deactivation_epoch epoch (delegation stake)) stake)) n
| ch_split meta stake k n : signed (staker (authorized meta)) -> 0 <= k <= d_stake (delegation stake) ->
    k + rent_exempt_reserve meta < n ->
    stake_change (StakeActive meta stake) n
      (StakeActive meta (set_delegation (set_d_stake (d_stake (delegation stake) - k) (delegation stake)) stake)) (n - k)
| ch_split_initialized meta k n : signed (staker (authorized meta)) -> 0 <= k -> k + rent_exempt_reserve meta < n ->
    stake_change (StakeInitialized meta) n (StakeInitialized meta) (n - k)
| ch_received st n n' : n <= n' -> (was_backed -> backed_state st n') -> stake_change StakeUninitialized n st n'
| ch_merged meta stake stake' n n' : signed (staker (authorized meta)) -> n <= n' ->
    (was_backed -> backed_state (StakeActive meta stake') n') ->
    stake_change (StakeActive meta stake) n (StakeActive meta stake') n'
| ch_withdrawn st meta n n' : state_meta st = Some meta -> signed (withdrawer (authorized meta)) ->
    (was_backed -> backed_state st n') -> stake_change st n st n'
| ch_closed st meta n n' : state_meta st = Some meta ->
    signed (staker (authorized meta)) \/ signed (withdrawer (authorized meta)) ->
    stake_change st n StakeUninitialized n'
| ch_uninitialized n n' : key_signed -> stake_change StakeUninitialized n StakeUninitialized n'.
End changes.

Lemma frame_data d a : length d = length (data a) -> account_frame a (set_data d a).
Proof. done. Qed.

Lemma frame_move m d a : length d = length (data a) -> account_frame a (set_lamports m (set_data d a)).
Proof. done. Qed.

Section codec.
Context `{Bincode StakeState}.

Definition backed (a : AccountSharedData) : Prop :=
  owner a = stake_program_id -> forall st, account_state a = Ok st -> state_meta st ≠ None ->
  STAKE_STATE_SIZE <= Z.of_nat (length (data a)) /\ backed_state st (lamports a).

(** Balances are [u64] and data is within its limit; stakes are backed. *)
Definition accounts_typed (s : Accounts) : Prop := forall i a, s !! i = Some a ->
  in_u64 (lamports a) /\ Z.of_nat (length (data a)) <= MAX_PERMITTED_DATA_LENGTH.

Definition all_backed (s : Accounts) : Prop := forall i a, s !! i = Some a -> backed a.

Definition sound_accounts (s : Accounts) : Prop := accounts_typed s /\ all_backed s.

Section accounts.
Context (signed : Pubkey -> Prop) (may_reverse : nat -> Prop).

(** An account is credited, or changes as a stake account of the program. *)
Inductive acct_change (key_signed can_reverse was_backed : Prop) (a a' : AccountSharedData) : Prop :=
| ac_credited : credited a a' -> acct_change key_signed can_reverse was_backed a a'
| ac_stake st st' : owner a = stake_program_id -> account_frame a a' ->
    account_state a = Ok st -> account_state a' = Ok st' ->
    (st = StakeUninitialized -> state_meta st' ≠ None -> Z.of_nat (length (data a)) = STAKE_STATE_SIZE) ->
    stake_change signed key_signed can_reverse was_backed st (lamports a) st' (lamports a') ->
    acct_change key_signed can_reverse was_backed a a'.

Record stake_changes (key_signed : nat -> Prop) (s s' : Accounts) : Prop := {
  sc_length : length s' = length s;
  sc_total : total_lamports s' = total_lamports s;
  sc_account i a a' : s !! i = Some a -> s' !! i = Some a' -> acct_change (key_signed i) (may_reverse i) (sound_accounts s) a a';
}.

Lemma acct_change_refl ks r b a : acct_change ks r b a a.
Proof. apply ac_credited, credited_refl. Qed.

Lemma stake_changes_insert ks s i a a' : s !! i = Some a -> lamports a' = lamports a ->
  acct_change (ks i) (may_reverse i) (sound_accounts s) a a' -> stake_changes ks s (<[i := a']> s).
Proof.
  intros Ha Hl Hc. split; [apply length_insert|rewrite (total_lamports_insert _ _ _ _ Ha); lia|].
  intros j x y Hx Hy. destruct (decide (i = j)) as [->|Hne].
  - rewrite list_lookup_insert_eq in Hy by (by eapply lookup_lt_Some). by simplify_eq.
  - rewrite list_lookup_insert_ne in Hy by done. simplify_eq. apply acct_change_refl.
Qed.

Lemma stake_changes_two ks s i j a b a' b' : i ≠ j -> s !! i = Some a -> s !! j = Some b ->
  lamports a' + lamports b' = lamports a + lamports b ->
  acct_change (ks i) (may_reverse i) (sound_accounts s) a a' -> acct_change (ks j) (may_reverse j) (sound_accounts s) b b' ->
  stake_changes ks s (<[j := b']> (<[i := a']> s)).
Proof.
  intros Hij Ha Hb Hl Hca Hcb. split; [by rewrite !length_insert| |].
  - rewrite (total_lamports_insert _ j b), (total_lamports_insert _ _ _ _ Ha); [lia|].
    by rewrite list_lookup_insert_ne.
  - intros k x y Hx Hy. destruct (decide (j = k)) as [->|Hjk].
    { rewrite list_lookup_insert_eq in Hy by (rewrite length_insert; by eapply lookup_lt_Some). by simplify_eq. }
    rewrite list_lookup_insert_ne in Hy by done. destruct (decide (i = k)) as [->|Hik].
    { rewrite list_lookup_insert_eq in Hy by (by eapply lookup_lt_Some). by simplify_eq. }
    rewrite list_lookup_insert_ne in Hy by done. simplify_eq. apply acct_change_refl.
Qed.

(** Moving [n] lamports from [i], whose data becomes [d], to [j], perhaps itself. *)
Lemma stake_changes_move ks s i j n a d c : 0 <= n -> s !! i = Some a ->
  <[i := set_lamports (lamports a - n) (set_data d a)]> s !! j = Some c ->
  (forall m, lamports a - n <= m -> acct_change (ks i) (may_reverse i) (sound_accounts s) a (set_lamports m (set_data d a))) ->
  stake_changes ks s (<[j := set_lamports (lamports c + n) c]> (<[i := set_lamports (lamports a - n) (set_data d a)]> s)).
Proof.
  intros Hn Ha Hc Hch. destruct (decide (i = j)) as [->|Hij].
  - rewrite list_lookup_insert_eq in Hc by (by eapply lookup_lt_Some). simplify_eq. rewrite list_insert_insert_eq.
    cbn [lamports set_lamports]. rewrite Z.sub_add, set_lamports_twice.
    apply (stake_changes_insert _ _ _ a); [done|done|]. apply Hch. lia.
  - rewrite list_lookup_insert_ne in Hc by done.
    apply (stake_changes_two _ _ _ _ a c); [done|done|done|cbn; lia|apply Hch; lia|].
    apply ac_credited. by exists n.
Qed.

Lemma stores_state_changes `{!BincodeLaws StakeState} ks me s s' a st st' :
  s !! account me = Some a -> owner a = stake_program_id -> stores_state me s s' st st' ->
  (st = StakeUninitialized -> state_meta st' ≠ None -> Z.of_nat (length (data a)) = STAKE_STATE_SIZE) ->
  stake_change signed (ks (account me)) (may_reverse (account me)) (sound_accounts s) st (lamports a) st' (lamports a) ->
  stake_changes ks s s'.
Proof.
  intros Ha Ho (x & b & Hx & Hst & -> & Hlen & Hst') Hsize Hch. assert (x = a) as -> by congruence.
  apply (stake_changes_insert _ _ _ a); [done|done|]. exact (ac_stake _ _ _ _ _ st st' Ho (frame_data _ _ Hlen) Hst Hst' Hsize Hch).
Qed.

(** ** Backed stakes stay backed *)

Definition funded (a : AccountSharedData) : Prop :=
  forall meta stake, account_state a = Ok (StakeActive meta stake) ->
  d_stake (delegation stake) + rent_exempt_reserve meta <= lamports a.

Lemma stake_change_backed ks r b st n st' n' : b -> stake_change signed ks r b st n st' n' ->
  (r -> forall meta stake, st = StakeActive meta stake ->
     d_stake (delegation stake) + rent_exempt_reserve meta <= n) ->
  (state_meta st ≠ None -> backed_state st n) -> backed_state st' n'.
Proof.
  intros Hb Hch Hrev Hst. destruct Hch as [meta n Hr|st meta meta' n Hm Hc|st meta stake n Hm _ Hs|meta stake n Hr _|
    meta stake epoch n _ _ He|meta stake k n _ Hk Hr|meta k n _ Hk Hr|st n n' _ Hs|meta stake stake' n n' _ _ Hs|
    st meta n n' _ _ Hs|st meta n n' _ _|n n' _]; cbn [backed_state]; auto; try lia.
  - assert (backed_state st n) as Hbs by (apply Hst; congruence).
    assert (rent_exempt_reserve meta' = rent_exempt_reserve meta) as He by (by destruct Hc).
    destruct st; cbn in *; simplify_eq; rewrite ?He; done.
  - assert (backed_state st n) as Hbs by (apply Hst; congruence).
    assert (rent_exempt_reserve meta <= n) by (destruct st; cbn in *; simplify_eq; naive_solver).
    rewrite Hs. split; [lia|]. u64.
  - destruct (Hst ltac:(done)) as [Hres _]. specialize (Hrev Hr meta stake eq_refl). split; [lia|]. cbn. lia.
  - destruct (Hst ltac:(done)) as [Hres _]. split; [done|]. cbn. lia.
  - destruct (Hst ltac:(done)) as [Hres Hd]. split; [lia|]. cbn. intros Hdd. specialize (Hd Hdd). lia.
  - exact (Hs Hb).
Qed.

Lemma acct_change_backed ks r b a a' : b -> acct_change ks r b a a' -> (r -> funded a) -> backed a -> backed a'.
Proof.
  intros Hb [(n & Hn & ->)|st st' Ho (Hl & Ho' & _) Hst Hst' Hsize Hch] Hrev Hba.
  - intros Ho st Hst Hm. destruct (Hba Ho st Hst Hm) as [Hlen Hbk]. split; [done|].
    eapply backed_state_mono; [|exact Hbk]. cbn. lia.
  - intros Hown x Hx Hm. assert (x = st') as -> by congruence. rewrite Hl. split.
    + destruct (state_meta st) as [m|] eqn:Hsm.
      * apply (Hba Ho st Hst). congruence.
      * destruct st; [|discriminate Hsm|discriminate Hsm|].
        { rewrite (Hsize eq_refl Hm). reflexivity. }
        inversion Hch; subst; discriminate.
    + eapply stake_change_backed; [exact Hb|exact Hch| |].
      * intros Hr meta stake ->. by apply Hrev.
      * intros Hm'. by apply (Hba Ho st Hst).
Qed.
End accounts.
End codec.
