(* ===== verification/StakeEffects.v ===== *)
(** * What the handlers of the stake program do

    Each handler of [programs/stake/src/stake_state.rs] as a change of accounts,
    the instruction as a whole, and the properties of the program. *)
From stdpp Require Import base numbers option list gmap.
From S2P Require Import Prelude OrdMap Instruction VoteState Account EpochSchedule Float64 Rent Sysvar PreAccount.
From S2P Require Import Nonce System SystemSpec ConfigProgram Stake StakeActivation StakeProgram StakeSpec.

(** The accounts read from the place of [Ha] are one account. *)
Ltac same_account Ha :=
  match type of Ha with
  | ?s !! ?i = Some ?a =>
      repeat match goal with
      | H : s !! i = Some ?x |- _ =>
          tryif constr_eq x a then fail else (assert (x = a) as -> by congruence; clear H)
      end
  end.

Lemma insert_same {A} (l : list A) i x y z : l !! i = Some z -> <[i := y]> l !! i = Some x -> x = y.
Proof. intros Hz. rewrite list_lookup_insert_eq by (by eapply lookup_lt_Some). by intros [= ->]. Qed.

(** ** Authorities *)

Section authorities.
Context (signers : list Pubkey).

Lemma Authorized_check_Ok a role u : Authorized_check a signers role = Ok u ->
  match role with Staker => staker a ∈ signers | Withdrawer => withdrawer a ∈ signers end.
Proof. unfold Authorized_check. destruct role; case_bool_decide; by intros. Qed.

Lemma Authorized_authorize_Ok (signed : Pubkey -> Prop) m pk role args a' :
  (forall x, x ∈ signers -> signed x) ->
  Authorized_authorize (authorized m) signers pk role args = Ok a' -> meta_change signed m (set_authorized a' m).
Proof.
  unfold Authorized_authorize. intros Hs Ha. destruct role.
  - case_match eqn:E; [done|]. simplify_eq. apply andb_false_iff in E as [E|E]; ok_inv;
      apply mc_staker; [left|right]; by apply Hs.
  - ok_inv. apply mc_withdrawer, Hs. by eapply (Authorized_check_Ok _ Withdrawer).
Qed.

Lemma Meta_set_lockup_Ok (signed : Pubkey -> Prop) m args clock m' : (forall x, x ∈ signers -> signed x) ->
  Meta_set_lockup m args signers clock = Ok m' -> meta_change signed m m'.
Proof.
  unfold Meta_set_lockup. intros Hs Ha. case_match eqn:E; [done|]. simplify_eq. ok_inv.
  apply mc_lockup. destruct clock; [case_match|]; auto.
Qed.
End authorities.

Section effects.
Context (sha256 : list Z -> Hash).
Context `{BincodeLaws StakeState} `{Bincode VoteStateVersions}.
Context (ctx : ProgramContext) (first : nat) (may_reverse : nat -> Prop).

Let keyed := pc_keyed_accounts ctx.
Let signers := get_signers (drop first keyed).
Let signed := address_signed sha256 ctx first.
Let key_signed := signed_index sha256 ctx first.
Abbreviation changes_to := (stake_changes signed may_reverse key_signed).

Lemma signers_signed x : x ∈ signers -> signed x.
Proof. intros Hx. by left. Qed.

(** ** Handlers that change the state of one account *)

Section one_account.
Context (me : KeyedAccount) (s s' : Accounts) (a : AccountSharedData).
Hypothesis Ha : s !! account me = Some a.
Hypothesis Ho : owner a = stake_program_id.

Lemma stores_changes st st' : stores_state me s s' st st' -> st ≠ StakeUninitialized ->
  stake_change signed (key_signed (account me)) (may_reverse (account me)) (sound_accounts s) st (lamports a) st' (lamports a) ->
  changes_to s s'.
Proof. intros Hst Hne Hch. eapply stores_state_changes; [done|exact Ha|exact Ho|exact Hst|done|exact Hch]. Qed.

Lemma stake_initialize_Ok auth lk rent u :
  stake_initialize me auth lk rent s = (Ok u, s') -> changes_to s s'.
Proof.
  unfold stake_initialize. intros Hr. read_inv. repeat (case_match; read_inv); try done. same_account Ha.
  eapply (stores_state_changes _ _ _ me s s' _ StakeUninitialized); [done|exact Ho| | |].
  - store_state.
  - intros _ _. by apply Z.eqb_eq.
  - apply ch_initialize. cbn. by apply Z.ltb_lt.
Qed.

Lemma stake_authorize_Ok sigs pk role require clock cust u : (forall x, x ∈ sigs -> signed x) ->
  stake_authorize me sigs pk role require clock cust s = (Ok u, s') -> changes_to s s'.
Proof.
  unfold stake_authorize. intros Hs Hr. read_inv. case_match; read_inv; same_account Ha; subst;
    (eapply stores_changes; [store_state|done|]);
    match goal with Hz : Authorized_authorize (authorized ?m) _ _ _ _ = Ok _ |- stake_change _ _ _ _ ?st _ _ _ =>
      apply (Authorized_authorize_Ok _ signed) in Hz; [|exact Hs]; by eapply (ch_meta _ _ _ _ st) end.
Qed.

Lemma stake_set_lockup_Ok args clock u :
  stake_set_lockup me args signers clock s = (Ok u, s') -> changes_to s s'.
Proof.
  unfold stake_set_lockup. intros Hr. read_inv. case_match; read_inv; same_account Ha; subst;
    (eapply stores_changes; [store_state|done|]);
    match goal with Hz : Meta_set_lockup _ _ _ _ = Ok _ |- stake_change _ _ _ _ ?st _ _ _ =>
      apply (Meta_set_lockup_Ok _ signed) in Hz; [|exact signers_signed]; by eapply (ch_meta _ _ _ _ st) end.
Qed.

Lemma stake_deactivate_Ok clock u : clock_epoch clock < U64_MAX ->
  stake_deactivate me clock signers s = (Ok u, s') -> changes_to s s'.
Proof.
  unfold stake_deactivate, Stake_deactivate. intros Hc Hr. read_inv. case_match; read_inv. same_account Ha.
  match goal with E : (_ =? U64_MAX) = true |- _ => apply Z.eqb_eq in E end.
  match goal with Hz : Authorized_check _ _ _ = Ok _ |- _ => apply Authorized_check_Ok in Hz end.
  eapply stores_changes; [store_state|done|]. apply ch_deactivate; [by apply signers_signed|done|done].
Qed.

Lemma redelegate_Ok stake n voter vote_state clock history config reverse stake' :
  redelegate stake n voter vote_state clock history config reverse = Ok stake' ->
  (reverse = true /\ stake' = set_delegation (set_deactivation_epoch U64_MAX (delegation stake)) stake) \/
  d_stake (delegation stake') = n.
Proof.
  unfold redelegate. intros Hr. repeat case_match; ok_inv; [left|right]; try done.
  match goal with Hb : _ && _ && _ = true |- _ => apply andb_true_iff in Hb as [_ ?] end. done.
Qed.

Lemma stake_delegate_Ok vote clock history config reverse u : (reverse = true -> may_reverse (account me)) ->
  stake_delegate me vote clock history config signers reverse s = (Ok u, s') -> changes_to s s'.
Proof.
  unfold stake_delegate. intros Hrev Hr. read_inv. case_match; read_inv; same_account Ha; subst;
    match goal with Hz : Authorized_check _ _ _ = Ok _ |- _ => apply Authorized_check_Ok, signers_signed in Hz end;
    (eapply stores_changes; [store_state|done|]).
  - by eapply ch_delegate.
  - match goal with Hz : redelegate _ _ _ _ _ _ _ _ = Ok _ |- _ => apply redelegate_Ok in Hz as [[Hb ->]|Hd] end.
    + apply ch_reactivate; auto.
    + by eapply ch_delegate.
Qed.
End one_account.

(** ** Withdrawing *)

(** The stake that a withdrawal must leave. *)
Definition staked_at (stake : Stake) (clock : Clock) (history : StakeHistory) : Z :=
  if deactivation_epoch (delegation stake) <=? clock_epoch clock
  then Delegation_stake (delegation stake) (clock_epoch clock) (Some history)
  else d_stake (delegation stake).

Definition reserved (key : Pubkey) (sigs : list Pubkey) (clock : Clock) (history : StakeHistory) (to_zero : bool)
    (st : StakeState) (lk : Lockup) (reserve : Z) (is_staked : bool) : Prop :=
  match st with
  | StakeActive meta stake =>
      withdrawer (authorized meta) ∈ sigs /\ lk = lockup meta /\
      reserve = staked_at stake clock history + rent_exempt_reserve meta /\
      is_staked = negb (staked_at stake clock history =? 0)
  | StakeInitialized meta =>
      withdrawer (authorized meta) ∈ sigs /\ lk = lockup meta /\
      reserve = rent_exempt_reserve meta + (if to_zero then 1 else 0) /\ is_staked = false
  | StakeUninitialized => key ∈ sigs /\ lk = Lockup_default /\ reserve = 0 /\ is_staked = false
  | StakeRewardsPool => False
  end.

Lemma withdraw_reserve_Ok me sigs clock history to_zero s lk reserve is_staked s1 :
  withdraw_reserve me sigs clock history to_zero s = (Ok (lk, reserve, is_staked), s1) ->
  s1 = s /\ exists a st, s !! account me = Some a /\ account_state a = Ok st /\
    reserved (unsigned_key me) sigs clock history to_zero st lk reserve is_staked.
Proof.
  unfold withdraw_reserve, checked_add. intros (st & s2 & (-> & a & Ha & Hst)%ka_state_Ok & Hr)%SE_bind_Ok.
  assert (s1 = s /\ reserved (unsigned_key me) sigs clock history to_zero st lk reserve is_staked) as [-> Hres];
    [|eauto 10]. clear Ha Hst.
  destruct st; read_inv; (split; [done|]); cbn;
    repeat match goal with Hz : Authorized_check _ _ _ = Ok _ |- _ => apply Authorized_check_Ok in Hz end;
    simplify_eq; split_and!; try done; lia.
Qed.

(** What a withdrawal does. *)
Definition stake_withdraws (me to authority : KeyedAccount) (custodian : option KeyedAccount) (n : Z) (clock : Clock)
    (history : StakeHistory) (to_zero : bool) (s s' : Accounts) : Prop :=
  exists a st lk reserve is_staked d c, s !! account me = Some a /\ account_state a = Ok st /\
    is_signer authority = true /\ reserved (unsigned_key me) [key authority] clock history to_zero st lk reserve is_staked /\
    is_in_force lk clock (custodian ≫= signer_key) = false /\
    (n + reserve <= lamports a \/ n = lamports a /\ is_staked = false) /\ length d = length (data a) /\
    (if n =? lamports a then account_state (set_data d a) = Ok StakeUninitialized else d = data a) /\
    <[account me := set_lamports (lamports a - n) (set_data d a)]> s !! account to = Some c /\
    s' = <[account to := set_lamports (lamports c + n) c]>
           (<[account me := set_lamports (lamports a - n) (set_data d a)]> s).

Lemma stake_withdraw_Ok me n to clock history authority custodian to_zero s u s' :
  stake_withdraw me n to clock history authority custodian to_zero s = (Ok u, s') ->
  stake_withdraws me to authority custodian n clock history to_zero s s'.
Proof.
  unfold stake_withdraw, checked_add. intros Hr. ok_inv.
  match goal with Hx : signer_key authority = Some ?x |- _ => unfold signer_key in Hx;
    destruct (is_signer authority) eqn:Hsig; [injection Hx as <-|discriminate Hx] end.
  match goal with Hx : (let '(_, _) := ?t in _) _ = _ |- _ => destruct t as [[lk reserve] is_staked] end.
  match goal with Hx : withdraw_reserve _ _ _ _ _ _ = _ |- _ =>
    apply withdraw_reserve_Ok in Hx as (-> & a & st & Ha & Hst & Hres) end.
  acct_inv; same_account Ha;
    match goal with Hs : is_staked && _ = false |- _ => apply andb_false_iff in Hs end.
  - match goal with Hx : <[account me := ?y]> s !! account me = Some ?x |- _ =>
      pose proof (insert_same _ _ _ _ _ Ha Hx) as ->; clear Hx end.
    rewrite list_insert_insert_eq in *.
    match goal with Hn : (n =? lamports a) = true, Hx : account_state (set_data ?d a) = _, Hc : _ !! account to = Some ?c
      |- _ => exists a, st, lk, reserve, is_staked, d, c; rewrite Hn; apply Z.eqb_eq in Hn end.
    split_and!; try done. match goal with Hs : _ \/ _ |- _ => destruct Hs as [->|Hs%Z.ltb_ge] end; auto.
  - match goal with Hn : (n =? lamports a) = false, Hc : _ !! account to = Some ?c
      |- _ => exists a, st, lk, reserve, is_staked, (data a), c; rewrite Hn, set_data_same end.
    split_and!; try done. left.
    match goal with Hb : negb _ && _ = false |- _ => cbn in Hb; by apply Z.ltb_ge in Hb end.
Qed.

Lemma staked_at_range stake clock history : delegation_typed (delegation stake) -> in_u64 (clock_epoch clock) ->
  0 <= staked_at stake clock history <= d_stake (delegation stake).
Proof.
  intros (Hs & Ha & Hd) Hc. unfold staked_at. destruct (_ <=? _); [|u64].
  apply effective_range; [done|by destruct Ha|by destruct Hd|done].
Qed.

Lemma authority_signed k x : k ∈ drop first keyed -> is_signer k = true -> x ∈ [key k] -> signed x.
Proof.
  intros Hk Hs ->%list_elem_of_singleton. apply signers_signed, get_signers_spec. eauto.
Qed.

(** A balance that leaves the reserve keeps the stake backed. *)
Lemma reserved_backed pk sigs clock history to_zero st lk reserve is_staked m :
  stake_typed st -> 0 <= clock_epoch clock < U64_MAX ->
  reserved pk sigs clock history to_zero st lk reserve is_staked -> reserve <= m -> backed_state st m.
Proof.
  intros Ht Hc Hr Hm. destruct st as [|meta|meta stake|]; cbn in *; try done.
  - destruct Hr as (_ & _ & -> & _). destruct to_zero; lia.
  - destruct Ht as (_ & Hd & _), Hr as (_ & _ & -> & _).
    assert (in_u64 (clock_epoch clock)) as Hce by u64. pose proof (staked_at_range stake clock history Hd Hce).
    split; [lia|]. intros Hmax. unfold staked_at in *. rewrite Hmax in *.
    destruct (Z.leb_spec U64_MAX (clock_epoch clock)); lia.
Qed.

Lemma stake_withdraws_changes me to authority custodian n clock history to_zero s s' a :
  me ∈ drop first keyed -> authority ∈ drop first keyed -> 0 <= n -> 0 <= clock_epoch clock < U64_MAX ->
  s !! account me = Some a -> owner a = stake_program_id -> (forall st, account_state a = Ok st -> stake_typed st) ->
  stake_withdraws me to authority custodian n clock history to_zero s s' -> changes_to s s'.
Proof.
  intros Hme Hau Hn Hc Ha Ho Hty (x & st & lk & reserve & is_staked & d & c & Hx & Hst & Hsig & Hres & _ & Hle & Hl &
    Hd & Hto & ->). assert (x = a) as -> by congruence. apply stake_changes_move; [done|done|done|]. intros m Hm.
  assert (match st with
    | StakeActive meta _ | StakeInitialized meta => signed (withdrawer (authorized meta))
    | StakeUninitialized => key_signed (account me)
    | StakeRewardsPool => False end) as Hperm.
  { destruct st; cbn in Hres; try done; destruct Hres as [Hin _]; [|by eapply authority_signed..].
    exists me. split_and!; [done|done|]. by eapply authority_signed. }
  destruct (Z.eqb_spec n (lamports a)).
  - apply (ac_stake _ _ _ _ _ _ st StakeUninitialized); [done|by apply frame_move|done|exact Hd|done|].
    destruct st; [by apply ch_uninitialized|eapply ch_closed; [done|by right]..|done].
  - subst d. apply (ac_stake _ _ _ _ _ _ st st); [done|by apply frame_move|done| |by intros ->|].
    { revert Hst. unfold account_state. by rewrite set_data_same. }
    destruct Hle as [Hle|[? _]]; [|done].
    assert (backed_state st m) by (eapply reserved_backed; [by apply Hty|exact Hc|exact Hres|lia]).
    destruct st; [by apply ch_uninitialized|by eapply ch_withdrawn..|done].
Qed.

(** ** Splitting *)

Lemma check_split_funds_Ok me split n meta s r s1 :
  check_split_funds me split n meta s = (Ok r, s1) ->
  s1 = s /\ exists a b, s !! account me = Some a /\ s !! account split = Some b /\
    r = calculate_split_rent_exempt_reserve (rent_exempt_reserve meta) (Z.of_nat (length (data a)))
          (Z.of_nat (length (data b))) /\
    saturating_sub64 r (lamports b) < n /\ (n = lamports a \/ n + rent_exempt_reserve meta < lamports a).
Proof.
  unfold check_split_funds, checked_add. intros Hr. read_inv;
    (split; [done|]);
    match goal with Ha : s !! account me = Some ?a, Hb : s !! account split = Some ?b |- _ =>
      same_account Ha; same_account Hb; exists a, b end;
    repeat match goal with
    | Hx : (_ <=? _) = false |- _ => apply Z.leb_gt in Hx
    | Hx : (_ =? _) = true |- _ => apply Z.eqb_eq in Hx
    end; split_and!; auto; lia.
Qed.

(** The end of a split: an emptied account is reset and the lamports move. *)
Lemma split_move_Ok me split n s u s' a b : account me ≠ account split ->
  s !! account me = Some a -> s !! account split = Some b ->
  split_move me split n s = (Ok u, s') ->
  exists d, s' = <[account split := set_lamports (lamports b + n) b]>
                   (<[account me := set_lamports (lamports a - n) (set_data d a)]> s) /\
    length d = length (data a) /\
    (if n =? lamports a then account_state (set_data d a) = Ok StakeUninitialized else d = data a).
Proof.
  unfold split_move. intros Hne Ha Hb Hr. acct_inv; same_account Ha;
    match goal with Hn : (n =? _) = _ |- _ => rewrite Hn end;
    repeat match goal with
    | Hx : <[account me := _]> _ !! account split = Some _ |- _ =>
        rewrite list_lookup_insert_ne in Hx by done; same_account Hb; clear Hx
    | Hx : <[account split := _]> _ !! account me = Some _ |- _ => rewrite list_lookup_insert_ne in Hx by done
    | Hx : <[account me := _]> s !! account me = Some _ |- _ =>
        apply (insert_same _ _ _ _ _ Ha) in Hx; subst
    end; same_account Ha; same_account Hb.
  - match goal with Hx : account_state (set_data ?d a) = _ |- _ => exists d end. split_and!; [|done|done].
    rewrite list_insert_insert_ne by done. by rewrite list_insert_insert_eq.
  - exists (data a). split_and!; [|done|done]. rewrite set_data_same. by rewrite list_insert_insert_ne by done.
Qed.

Lemma split_move_self_Ok me split n s u s' a : account me = account split -> s !! account me = Some a ->
  account_state a = Ok StakeUninitialized ->
  split_move me split n s = (Ok u, s') ->
  exists d, s' = <[account me := set_data d a]> s /\ length d = length (data a) /\
    account_state (set_data d a) = Ok StakeUninitialized.
Proof.
  unfold split_move. intros Heq Ha Hst Hr. acct_inv; rewrite <- ?Heq in *; same_account Ha;
    repeat match goal with
    | Hx : <[account me := _]> (<[account me := _]> _) !! account me = Some _ |- _ =>
        rewrite list_insert_insert_eq in Hx
    | Hx : <[account me := _]> s !! account me = Some _ |- _ => apply (insert_same _ _ _ _ _ Ha) in Hx; subst
    end; rewrite ?list_insert_insert_eq; cbn [lamports set_lamports set_data]; rewrite set_lamports_twice, Z.add_simpl_r.
  - match goal with Hx : account_state (set_data ?d a) = _ |- _ => exists d end. by split_and!.
  - exists (data a). rewrite set_data_same. split_and!; [|done|done]. by destruct a.
Qed.

Lemma split_reserve_le r len : in_u64 r -> STAKE_STATE_SIZE <= len <= MAX_PERMITTED_DATA_LENGTH ->
  0 <= calculate_split_rent_exempt_reserve r len STAKE_STATE_SIZE <= r.
Proof.
  unfold calculate_split_rent_exempt_reserve, ACCOUNT_STORAGE_OVERHEAD, STAKE_STATE_SIZE, MAX_PERMITTED_DATA_LENGTH.
  intros Hr Hl. rewrite !add64_small by u64. change (200 + 128) with 328.
  assert (0 <= r / (len + 128)) by (apply Z.div_pos; u64).
  assert (r / (len + 128) * 328 <= r).
  { pose proof (Z.mul_div_le r (len + 128) ltac:(lia)). nia. }
  rewrite mul64_small by u64. lia.
Qed.

(** The new account of a split is backed. *)
Lemma split_received (meta : Meta) (stake stake' split : Stake) n la lb len :
  stake_typed (StakeActive meta stake) -> in_u64 n -> in_u64 lb ->
  STAKE_STATE_SIZE <= len <= MAX_PERMITTED_DATA_LENGTH ->
  let r := calculate_split_rent_exempt_reserve (rent_exempt_reserve meta) len STAKE_STATE_SIZE in
  saturating_sub64 r lb < n ->
  let '(delta, amount) := split_amounts n la (rent_exempt_reserve meta) r lb in
  Stake_split stake delta amount = Ok (stake', split) ->
  backed_state (StakeActive (set_rent_exempt_reserve r meta) split) (lb + n).
Proof.
  intros (Hr & Hd & _) Hn Hlb Hlen r Hsat. pose proof (split_reserve_le _ _ Hr Hlen) as Hle. fold r in Hle.
  unfold split_amounts, Stake_split. destruct (n =? la); (destruct (_ <? _); [done|]); intros [= <- <-]; cbn.
  - split; [u64|]. intros _. u64.
  - rewrite sub64_small by u64. split; [u64|]. intros _. u64.
Qed.

Lemma insert_four {A} (l : list A) i j (w x y z : A) : i ≠ j ->
  <[j := w]> (<[i := x]> (<[j := y]> (<[i := z]> l))) = <[j := w]> (<[i := x]> l).
Proof.
  intros Hij. rewrite (list_insert_insert_ne _ i j) by done. by rewrite !list_insert_insert_eq.
Qed.

Lemma insert_three {A} (l : list A) i j (w x y : A) : i ≠ j ->
  <[j := w]> (<[i := x]> (<[j := y]> l)) = <[j := w]> (<[i := x]> l).
Proof. intros Hij. rewrite (list_insert_insert_ne _ i j) by done. by rewrite list_insert_insert_eq. Qed.

Section split.
Context (me split : KeyedAccount) (n : Z) (s s' : Accounts) (a b : AccountSharedData).
Hypothesis Hn : in_u64 n.
Hypothesis Ha : s !! account me = Some a.
Hypothesis Ho : owner a = stake_program_id.
Hypothesis Hty : forall st, account_state a = Ok st -> stake_typed st.
Hypothesis Hb : s !! account split = Some b.
Hypothesis Hob : owner b = stake_program_id.
Hypothesis Hlen : Z.of_nat (length (data b)) = STAKE_STATE_SIZE.
Hypothesis Hbst : account_state b = Ok StakeUninitialized.

Lemma source_size meta stake : account_state a = Ok (StakeActive meta stake) -> sound_accounts s ->
  STAKE_STATE_SIZE <= Z.of_nat (length (data a)) <= MAX_PERMITTED_DATA_LENGTH.
Proof.
  intros Hst [Ht Hbk]. split; [|by apply (Ht _ _ Ha)]. eapply (Hbk _ _ Ha Ho _ Hst). done.
Qed.

Lemma split_active_changes meta stake s1 u u' : account_state a = Ok (StakeActive meta stake) ->
  split_states me split n signers (StakeActive meta stake) s = (Ok u, s1) ->
  split_move me split n s1 = (Ok u', s') -> changes_to s s'.
Proof.
  intros Hst Hr Hmv. assert (account me ≠ account split) as Hne by (intros E; rewrite E in Ha; congruence).
  unfold split_states in Hr. ok_inv.
  match goal with Hz : Authorized_check _ _ _ = Ok _ |- _ => apply Authorized_check_Ok, signers_signed in Hz; rename Hz into Hsig end.
  match goal with Hz : check_split_funds _ _ _ _ _ = _ |- _ => apply check_split_funds_Ok in Hz as (-> & Hz);
    destruct Hz as (a0 & b0 & Ha0 & Hb0 & Hrr & Hsat & Hfunds) end.
  same_account Ha. same_account Hb. rewrite Hlen in Hrr. read_inv. same_account Ha. same_account Hb.
  destruct (split_amounts _ _ _ _ _) as [delta amount] eqn:Ham. ok_inv.
  match goal with Hz : Stake_split stake delta amount = Ok ?p |- _ => destruct p as [stake' sp]; rename Hz into Hsplit end.
  acct_inv. same_account Ha.
  match goal with Hx : <[account me := _]> s !! account split = Some _ |- _ =>
    rewrite list_lookup_insert_ne in Hx by done; same_account Hb end.
  match goal with Hx : account_state (set_data ?d1 a) = _, Hy : account_state (set_data ?d2 b) = _ |- _ =>
    rename d1 into da, d2 into db, Hx into Hsa, Hy into Hsb end.
  match goal with Hx : length da = _, Hy : length db = _ |- _ => rename Hx into Hla, Hy into Hlb end.
  destruct (split_move_Ok me split n _ _ _ (set_data da a) (set_data db b) Hne
    ltac:(rewrite list_lookup_insert_ne by done; apply list_lookup_insert_eq; by eapply lookup_lt_Some)
    ltac:(apply list_lookup_insert_eq; rewrite length_insert; by eapply lookup_lt_Some) Hmv) as (d & -> & Hld & Hd).
  cbn [lamports data set_data] in Hd, Hld |- *. rewrite insert_four by done.
  change (set_data d (set_data da a)) with (set_data d a) in *. clear Hmv.
  apply (stake_changes_two _ _ _ _ _ _ a b); [done|done|done|cbn; lia| |].
  - destruct (Z.eqb_spec n (lamports a)) as [He|He].
    + apply (ac_stake _ _ _ _ _ _ (StakeActive meta stake) StakeUninitialized); [done|apply frame_move; cbn; congruence|done|exact Hd|done|].
      eapply ch_closed; [done|by left].
    + destruct Hfunds as [|Hfunds]; [done|]. pose proof (Hty _ Hst) as (_ & (Hs & _) & _).
      unfold Stake_split, split_amounts in *. rewrite (proj2 (Z.eqb_neq _ _) He) in Ham. injection Ham as <- <-.
      destruct (Z.ltb_spec (d_stake (delegation stake)) n) in Hsplit; [done|]. injection Hsplit as <- <-.
      rewrite sub64_small in Hsa by u64. subst d.
      apply (ac_stake _ _ _ _ _ _ (StakeActive meta stake) _ Ho (frame_move (lamports a - n) _ _ Hla) Hst Hsa); [done|].
      apply ch_split; [done|u64|lia].
  - apply (ac_stake _ _ _ _ _ _ StakeUninitialized _ Hob (frame_move (lamports b + n) _ _ Hlb) Hbst Hsb); [done|].
    apply ch_received; [cbn; u64|]. intros Hsnd.
    pose proof (split_received meta stake stake' sp n (lamports a) (lamports b) (Z.of_nat (length (data a))) (Hty _ Hst)
      Hn (proj1 (proj1 Hsnd _ _ Hb)) (source_size _ _ Hst Hsnd)) as Hrec. cbn zeta in Hrec.
    rewrite Ham in Hrec. exact (Hrec Hsat Hsplit).
Qed.

Lemma split_initialized_changes meta s1 u u' : account_state a = Ok (StakeInitialized meta) ->
  split_states me split n signers (StakeInitialized meta) s = (Ok u, s1) ->
  split_move me split n s1 = (Ok u', s') -> changes_to s s'.
Proof.
  intros Hst Hr Hmv. assert (account me ≠ account split) as Hne by (intros E; rewrite E in Ha; congruence).
  unfold split_states in Hr. ok_inv.
  match goal with Hz : Authorized_check _ _ _ = Ok _ |- _ => apply Authorized_check_Ok, signers_signed in Hz; rename Hz into Hsig end.
  match goal with Hz : check_split_funds _ _ _ _ _ = _ |- _ => apply check_split_funds_Ok in Hz as (-> & Hz);
    destruct Hz as (a0 & b0 & Ha0 & Hb0 & Hrr & Hsat & Hfunds) end.
  same_account Ha. acct_inv. same_account Hb.
  match goal with Hy : account_state (set_data ?d2 b) = _, Hz : length ?d2 = _ |- _ =>
    rename d2 into db, Hy into Hsb, Hz into Hlb end.
  destruct (split_move_Ok me split n _ _ _ a (set_data db b) Hne
    ltac:(by rewrite list_lookup_insert_ne by done)
    ltac:(apply list_lookup_insert_eq; by eapply lookup_lt_Some) Hmv) as (d & -> & Hld & Hd).
  rewrite insert_three by done.
  apply (stake_changes_two _ _ _ _ _ _ a b); [done|done|done|cbn; lia| |].
  - destruct (Z.eqb_spec n (lamports a)) as [He|He].
    + apply (ac_stake _ _ _ _ _ _ (StakeInitialized meta) StakeUninitialized); [done|by apply frame_move|done|exact Hd|done|].
      eapply ch_closed; [done|by left].
    + destruct Hfunds as [|Hfunds]; [done|]. subst d.
      apply (ac_stake _ _ _ _ _ _ (StakeInitialized meta) (StakeInitialized meta)); [done|by apply frame_move|done| |done|].
      { revert Hst. unfold account_state. by rewrite set_data_same. }
      apply ch_split_initialized; [done|u64|lia].
  - apply (ac_stake _ _ _ _ _ _ StakeUninitialized _ Hob (frame_move (lamports b + n) _ _ Hlb) Hbst Hsb); [done|].
    apply ch_received; [cbn; u64|]. intros _. cbn. subst. u64.
Qed.

Lemma split_uninitialized_changes u' : me ∈ drop first keyed -> account_state a = Ok StakeUninitialized ->
  unsigned_key me ∈ signers -> split_move me split n s = (Ok u', s') -> changes_to s s'.
Proof.
  intros Hme Hst Hsig Hmv. assert (key_signed (account me)) as Hk.
  { exists me. split_and!; [done|done|]. by apply signers_signed. }
  destruct (decide (account me = account split)) as [Heq|Hne].
  - destruct (split_move_self_Ok _ _ _ _ _ _ _ Heq Ha Hst Hmv) as (d & -> & Hl & Hd).
    apply (stake_changes_insert _ _ _ _ _ a); [done|done|].
    apply (ac_stake _ _ _ _ _ _ StakeUninitialized StakeUninitialized); [done|by apply frame_data|done|done|done|].
    by apply ch_uninitialized.
  - destruct (split_move_Ok _ _ _ _ _ _ _ _ Hne Ha Hb Hmv) as (d & -> & Hl & Hd).
    apply (stake_changes_two _ _ _ _ _ _ a b); [done|done|done|cbn; lia| |].
    + apply (ac_stake _ _ _ _ _ _ StakeUninitialized StakeUninitialized); [done|by apply frame_move|done| |done|].
      { destruct (n =? lamports a); [exact Hd|]. subst d. revert Hst. unfold account_state. by rewrite set_data_same. }
      by apply ch_uninitialized.
    + apply ac_credited. exists n. split; [u64|done].
Qed.
End split.

Lemma stake_split_Ok me n split s u s' a : me ∈ drop first keyed -> in_u64 n -> s !! account me = Some a ->
  owner a = stake_program_id -> (forall st, account_state a = Ok st -> stake_typed st) ->
  stake_split me n split signers s = (Ok u, s') -> changes_to s s'.
Proof.
  intros Hme Hn Ha Ho Hty Hr. unfold stake_split in Hr. read_inv.
  match goal with Hb : s !! account split = Some ?b |- _ => same_account Hb; rename b into b0, Hb into Hb0 end.
  case_match; read_inv. same_account Hb0. same_account Ha.
  repeat match goal with Hx : (_ =? _) = true |- _ => apply Z.eqb_eq in Hx end.
  match goal with Hx : split_states _ _ _ _ ?st _ = _ |- _ => destruct st as [|meta|meta stake|] eqn:E; try discriminate Hx end.
  - unfold split_states in *. ok_inv. by eapply (split_uninitialized_changes me split n s s' a b0).
  - by eapply (split_initialized_changes me split n s s' a b0).
  - by eapply (split_active_changes me split n s s' a b0).
Qed.

(** ** Merging *)

Lemma get_if_mergeable_Ok k clock history s kind s1 : get_if_mergeable k clock history s = (Ok kind, s1) ->
  s1 = s /\ exists a st, s !! account k = Some a /\ account_state a = Ok st /\
    match kind with
    | Inactive meta n => state_meta st = Some meta /\ n = lamports a
    | ActivationEpoch meta stake | FullyActive meta stake => st = StakeActive meta stake
    end.
Proof.
  unfold get_if_mergeable. intros (st & s2 & (-> & a & Ha & Hst)%ka_state_Ok & Hr)%SE_bind_Ok.
  assert (s1 = s /\ match kind with
    | Inactive meta n => state_meta st = Some meta /\ n = lamports a
    | ActivationEpoch meta stake | FullyActive meta stake => st = StakeActive meta stake end) as [-> Hk]; [|eauto 10].
  destruct st; read_inv; same_account Ha; done.
Qed.

Lemma active_delegations_can_merge_Ok stake source u : active_delegations_can_merge stake source = Ok u ->
  voter_pubkey stake = voter_pubkey source /\ deactivation_epoch stake = U64_MAX /\ deactivation_epoch source = U64_MAX.
Proof.
  unfold active_delegations_can_merge. intros Hr. read_inv.
  match goal with Hx : _ && _ && _ = true |- _ => apply andb_true_iff in Hx as [[_ ?]%andb_true_iff ?] end.
  by repeat match goal with Hx : (_ =? _) = true |- _ => apply Z.eqb_eq in Hx end.
Qed.

(** A merged stake grows by what the source can back. *)
Definition absorbed (source : MergeKind) (x : Z) : Prop :=
  match source with
  | Inactive _ n => x = n
  | ActivationEpoch meta stake | FullyActive meta stake =>
      deactivation_epoch (delegation stake) = U64_MAX /\
      (x = rent_exempt_reserve meta + d_stake (delegation stake) \/ x = d_stake (delegation stake))
  end.

Lemma merge_delegation_Ok fs stake n c stake' :
  merge_delegation_stake_and_credits_observed fs stake n c = Ok stake' ->
  deactivation_epoch (delegation stake') = deactivation_epoch (delegation stake) /\
  d_stake (delegation stake') = d_stake (delegation stake) + n.
Proof. unfold merge_delegation_stake_and_credits_observed, checked_add. intros Hr. read_inv; done. Qed.

Lemma MergeKind_merge_Ok fs self source clock r : MergeKind_merge fs self source clock = Ok r ->
  authorized (MergeKind_meta self) = authorized (MergeKind_meta source) /\
  match r with
  | None => True
  | Some st' => exists meta stake stake' x, active_stake self = Some stake /\ MergeKind_meta self = meta /\
      st' = StakeActive meta stake' /\ deactivation_epoch (delegation stake') = deactivation_epoch (delegation stake) /\
      d_stake (delegation stake') = d_stake (delegation stake) + x /\ absorbed source x
  end.
Proof.
  unfold MergeKind_merge, metas_can_merge. intros Hr. ok_inv.
  match goal with Hx : (if _ && _ then _ else _) = Ok _ |- _ =>
    destruct (bool_decide (authorized _ = _)) eqn:Hau in Hx; [|discriminate Hx]; clear Hx end.
  apply bool_decide_eq_true in Hau. split; [done|].
  assert (forall s1 s2, active_stake self = Some s1 -> active_stake source = Some s2 ->
    deactivation_epoch (delegation s2) = U64_MAX) as Hdel.
  { intros s1 s2 H1' H2'. rewrite H1', H2' in *. unfold active_stakes_can_merge in *. read_inv;
      match goal with Hx : active_delegations_can_merge _ _ = Ok _ |- _ =>
        by apply active_delegations_can_merge_Ok in Hx as (_ & _ & ?) end. }
  unfold checked_add in *. destruct self, source; ok_inv; try done;
    repeat match goal with Hx : merge_delegation_stake_and_credits_observed _ _ _ _ = Ok _ |- _ =>
      apply merge_delegation_Ok in Hx as [? ?] end;
    eexists _, _, _, _; (split_and!; [done|done|done|done|done|]); cbn; eauto.
Qed.

(** The end of a merge: the source is deinitialized and drained. *)
Lemma merge_drain_Ok me source s u s' a b : account me ≠ account source ->
  s !! account me = Some a -> s !! account source = Some b ->
  merge_drain me source s = (Ok u, s') ->
  exists d, length d = length (data b) /\ account_state (set_data d b) = Ok StakeUninitialized /\
    s' = <[account source := set_lamports (lamports b - lamports b) (set_data d b)]>
           (<[account me := set_lamports (lamports a + lamports b) a]> s).
Proof.
  unfold merge_drain. intros Hne Ha Hb Hr. acct_inv. same_account Hb.
  repeat match goal with
  | Hx : <[account source := _]> _ !! account me = Some _ |- _ =>
      rewrite ?list_insert_insert_eq, list_lookup_insert_ne in Hx by done; same_account Ha; clear Hx
  | Hx : <[account source := _]> s !! account source = Some _ |- _ => apply (insert_same _ _ _ _ _ Hb) in Hx; subst
  end. same_account Ha.
  match goal with Hx : account_state (set_data ?d b) = _ |- _ => exists d end. split_and!; [done|done|].
  rewrite list_insert_insert_eq, list_insert_insert_ne by done. done.
Qed.

(** What a merge gives the destination. *)
Lemma merged_backed self source r st stb la lb clock fs stake meta stake' :
  MergeKind_merge fs self source clock = Ok (Some r) -> r = StakeActive meta stake' ->
  active_stake self = Some stake -> st = StakeActive (MergeKind_meta self) stake ->
  match source with
  | Inactive m n => state_meta stb = Some m /\ n = lb
  | ActivationEpoch m sk | FullyActive m sk => stb = StakeActive m sk
  end ->
  stake_typed stb -> 0 <= lb -> backed_state st la -> backed_state stb lb -> backed_state (StakeActive meta stake') (la + lb).
Proof.
  intros (_ & m & sk & sk' & x & Hsk & Hm & -> & Hde & Hds & Hab)%MergeKind_merge_Ok [= -> ->] Hself -> Hsrc Hty Hlb Hst Hstb.
  rewrite Hself in Hsk. injection Hsk as <-. destruct Hst as [Hr Hs]. rewrite Hm in Hr, Hs.
  assert (x <= lb) as Hx.
  { destruct source as [ms ns|ms ss|ms ss]; cbn in *; [destruct Hsrc; lia|subst stb; cbn in *..];
      destruct Hab as [Hmax Hx], Hstb as [_ Hb], Hty as (Hres & _); specialize (Hb Hmax); destruct Hx; u64. }
  cbn. split; [lia|]. intros Hmax. rewrite Hde in Hmax. specialize (Hs Hmax). lia.
Qed.

Lemma merge_kind_state kind st n :
  match kind with
  | Inactive meta n' => state_meta st = Some meta /\ n' = n
  | ActivationEpoch meta stake | FullyActive meta stake => st = StakeActive meta stake
  end ->
  state_meta st = Some (MergeKind_meta kind) /\
  (forall stake, active_stake kind = Some stake -> st = StakeActive (MergeKind_meta kind) stake).
Proof. destruct kind; cbn; [intros [-> _]; by split|intros ->; naive_solver..]. Qed.

Lemma stake_merge_Ok fs me source clock history expired s u s' a :
  (account me = account source -> key me = key source) -> accounts_typed s ->
  (forall b st, s !! account source = Some b -> account_state b = Ok st -> stake_typed st) ->
  s !! account me = Some a -> owner a = stake_program_id ->
  stake_merge fs me source clock history signers expired s = (Ok u, s') -> changes_to s s'.
Proof.
  intros Hkeys Hacc Htyb Ha Ho Hr. unfold stake_merge, ka_owner in Hr. ok_inv. read_step. ok_inv.
  match goal with Hx : s !! account source = Some ?b0 |- _ => rename Hx into Hb, b0 into b end.
  match goal with Hx : (owner b =? _) = true, Hy : (_ =? _) = false, Hz : Authorized_check _ _ _ = Ok _ |- _ =>
    apply Z.eqb_eq in Hx; apply Z.eqb_neq in Hy; apply Authorized_check_Ok, signers_signed in Hz;
    rename Hx into Hob, Hy into Hkne, Hz into Hsig end.
  assert (account me ≠ account source) as Hne by (intros E; apply Hkne; symmetry; by apply Hkeys).
  match goal with Hx : get_if_mergeable me _ _ _ = _ |- _ =>
    apply get_if_mergeable_Ok in Hx as (-> & a0 & st & Ha0 & Hst & Hkind) end.
  match goal with Hx : get_if_mergeable source _ _ _ = _ |- _ =>
    apply get_if_mergeable_Ok in Hx as (-> & b0 & stb & Hb0 & Hstb & Hkindb) end.
  same_account Ha. same_account Hb. destruct (Hacc _ _ Hb) as [Hlb _].
  match goal with Hx : MergeKind_merge _ ?k ?k' _ = Ok ?r |- _ =>
    rename Hx into Hmerge, k into kind, k' into kindb, r into res end.
  pose proof (MergeKind_merge_Ok _ _ _ _ _ Hmerge) as [Hau Hres].
  destruct (merge_kind_state _ _ _ Hkind) as [Hm Hact], (merge_kind_state _ _ _ Hkindb) as [Hmb _].
  assert (forall d, length d = length (data b) -> account_state (set_data d b) = Ok StakeUninitialized ->
    acct_change signed (key_signed (account source)) (may_reverse (account source)) (sound_accounts s) b
      (set_lamports (lamports b - lamports b) (set_data d b))) as Hsrc.
  { intros d Hl Hd. apply (ac_stake _ _ _ _ _ _ stb StakeUninitialized); [done|by apply frame_move|done|exact Hd|done|].
    eapply ch_closed; [exact Hmb|]. left. by rewrite <- Hau. }
  destruct res as [r|]; acct_inv.
  - destruct Hres as (meta & stake & stake' & y & Hsk & <- & -> & _). pose proof (Hact _ Hsk) as ->. same_account Ha.
    match goal with Hx : account_state (set_data ?d0 a) = _, Hl : length ?d0 = _, Hdr : merge_drain _ _ _ = _ |- _ =>
      rename d0 into da, Hx into Hda, Hl into Hlda;
      destruct (merge_drain_Ok me source _ _ _ (set_data da a) b Hne
        ltac:(apply list_lookup_insert_eq; by eapply lookup_lt_Some)
        ltac:(by rewrite list_lookup_insert_ne by done) Hdr) as (d & Hl & Hd & ->) end.
    rewrite list_insert_insert_eq. apply (stake_changes_two _ _ _ _ _ _ a b); [done|done|done|cbn; lia| |by apply Hsrc].
    apply (ac_stake _ _ _ _ _ _ _ _ Ho (frame_move (lamports a + lamports b) _ _ Hlda) Hst Hda); [done|].
    apply ch_merged; [done|cbn; u64|]. intros [_ Hbk].
    eapply merged_backed; [exact Hmerge|done|exact Hsk|done|exact Hkindb|by eapply Htyb|u64| |].
    + by apply (Hbk _ _ Ha Ho _ Hst).
    + apply (Hbk _ _ Hb Hob _ Hstb). congruence.
  - match goal with Hdr : merge_drain _ _ _ = _ |- _ =>
      destruct (merge_drain_Ok me source _ _ _ a b Hne Ha Hb Hdr) as (d & Hl & Hd & ->) end.
    apply (stake_changes_two _ _ _ _ _ _ a b); [done|done|done|cbn; lia| |by apply Hsrc].
    apply ac_credited. exists (lamports b). split; [u64|done].
Qed.

Lemma authorize_with_seed_Ok me base seed o pk role require clock cust s u s' a :
  base ∈ drop first keyed -> s !! account me = Some a -> owner a = stake_program_id ->
  stake_authorize_with_seed sha256 me base seed o pk role require clock cust s = (Ok u, s') -> changes_to s s'.
Proof.
  intros Hb Ha Ho Hr. unfold stake_authorize_with_seed, pubkey_err in Hr. apply SE_bind_Ok in Hr as (sigs & s1 & Hs & Hr).
  assert (s1 = s /\ forall x, x ∈ sigs -> signed x) as [-> Hsig]; [|by eapply stake_authorize_Ok].
  unfold signer_key in Hs. destruct (is_signer base) eqn:E; ok_inv; (split; [done|]); intros y Hy; [|by apply elem_of_nil in Hy].
  apply list_elem_of_singleton in Hy as ->. right. exists (key base), seed, o. split; [|done].
  apply get_signers_spec. eauto.
Qed.

(** ** Instructions *)

Section dispatch.
Context `{Bincode StakeIx.StakeInstruction} `{Bincode Clock} `{Bincode StakeHistory} `{Bincode Rent}.
Context `{Bincode ConfigKeys} `{Bincode Config}.

(** What is read from account data is in the range of its Rust type; the clock has not reached the sentinel epoch. *)
Hypothesis Hstate : forall b st, bincode_deserialize b = Some st -> stake_typed st.
Hypothesis Hclock : forall b c, bincode_deserialize b = Some c -> 0 <= clock_epoch c < U64_MAX.
(** Keyed accounts of one account have its key. *)
Hypothesis Hkeys : forall k1 k2, k1 ∈ drop first keyed -> k2 ∈ drop first keyed -> account k1 = account k2 -> key k1 = key k2.

Definition stake_instruction_ok (ix : StakeIx.StakeInstruction) : Prop :=
  match ix with StakeIx.Split n | StakeIx.Withdraw n => in_u64 n | _ => True end.

Lemma typed_state (a : AccountSharedData) st : account_state a = Ok st -> stake_typed st.
Proof. unfold account_state. intros Hst. ok_inv. by eapply Hstate. Qed.

Lemma config_from_keyed_account_Ok k s c s' : config_from_keyed_account k s = (Ok c, s') -> s' = s.
Proof. unfold config_from_keyed_account. intros Hr. by read_inv. Qed.

Lemma stake_dispatch_changes me ix s u s' a : stake_instruction_ok ix -> me ∈ drop first keyed -> accounts_typed s ->
  s !! account me = Some a -> owner a = stake_program_id ->
  (ix = StakeIx.DelegateStake -> active ctx stake_program_v4 = true -> may_reverse (account me)) ->
  stake_dispatch sha256 ctx me first signers ix s = (Ok u, s') -> changes_to s s'.
Proof.
  intros Hix Hme Hacc Ha Ho Hrev Hr. unfold stake_dispatch in Hr. fold keyed in Hr.
  destruct ix; cbn [stake_instruction_ok] in Hix; read_inv;
    repeat match goal with Hk : keyed !! (first + _)%nat = Some _ |- _ => apply keyed_at in Hk end;
    repeat match goal with Hd : bincode_deserialize _ = Some ?c |- _ => apply Hclock in Hd end.
  all: repeat match goal with
    | Hx : config_from_keyed_account _ _ = _ |- _ => apply config_from_keyed_account_Ok in Hx as ->
    | Hx : match ?o with Some _ => _ | None => _ end _ = _ |- _ => destruct o; ok_inv
    end.
  all: match goal with
    | Hx : stake_initialize _ _ _ _ _ = _ |- _ => exact (stake_initialize_Ok me s s' a Ha Ho _ _ _ _ Hx)
    | Hx : stake_authorize _ _ _ _ _ _ _ _ = _ |- _ =>
        exact (stake_authorize_Ok me s s' a Ha Ho signers _ _ _ _ _ _ signers_signed Hx)
    | Hx : stake_authorize_with_seed _ _ ?b _ _ _ _ _ _ _ _ = _, Hb : ?b ∈ _ |- _ =>
        exact (authorize_with_seed_Ok _ _ _ _ _ _ _ _ _ _ _ _ _ Hb Ha Ho Hx)
    | Hx : stake_delegate _ _ _ _ _ _ _ _ = _ |- _ =>
        exact (stake_delegate_Ok me s s' a Ha Ho _ _ _ _ _ _ (Hrev eq_refl) Hx)
    | Hx : stake_split _ _ _ _ _ = _ |- _ => exact (stake_split_Ok _ _ _ _ _ _ _ Hme Hix Ha Ho (typed_state a) Hx)
    | Hx : stake_withdraw _ _ ?to _ _ ?w _ _ _ = _, Hw : ?w ∈ _, Hc : 0 <= _ < U64_MAX |- _ =>
        apply stake_withdraw_Ok in Hx;
        exact (stake_withdraws_changes _ _ _ _ _ _ _ _ _ _ _ Hme Hw (proj1 Hix) Hc Ha Ho (typed_state a) Hx)
    | Hx : stake_deactivate _ _ _ _ = _, Hc : 0 <= _ < U64_MAX |- _ =>
        exact (stake_deactivate_Ok me s s' a Ha Ho _ _ (proj2 Hc) Hx)
    | Hx : stake_set_lockup _ _ _ _ _ = _ |- _ => exact (stake_set_lockup_Ok me s s' a Ha Ho _ _ _ Hx)
    | Hx : stake_merge _ _ ?k _ _ _ _ _ = _, Hk : ?k ∈ _ |- _ =>
        exact (stake_merge_Ok _ _ _ _ _ _ _ _ _ _ (Hkeys _ _ Hme Hk) Hacc (fun b st _ => typed_state b st) Ha Ho Hx)
    end.
Qed.

Definition stake_data_ok (bytes : list Z) : Prop :=
  match limited_deserialize bytes PACKET_DATA_SIZE with
  | Ok ix => stake_instruction_ok ix
  | _ => True
  end.

Lemma stake_process_changes bytes s u s' : stake_data_ok bytes -> accounts_typed s ->
  (limited_deserialize bytes PACKET_DATA_SIZE = Ok StakeIx.DelegateStake ->
   active ctx stake_program_v4 = true ->
   forall me, keyed !! first = Some me -> may_reverse (account me)) ->
  stake_process_instruction sha256 ctx first bytes s = (Ok u, s') -> changes_to s s'.
Proof.
  unfold stake_data_ok, stake_process_instruction, ka_owner. intros Hok Hacc Hrev Hr. ok_inv. repeat read_step. ok_inv.
  match goal with Hd : limited_deserialize _ _ = Ok ?ix, Ho : (owner ?a =? _) = true, Hk : _ !! first = Some ?k |- _ =>
    rewrite Hd in Hok, Hrev; apply Z.eqb_eq in Ho;
    assert (k ∈ drop first keyed) as Hme by (apply elem_of_drop_lookup; eauto) end.
  eapply stake_dispatch_changes; [exact Hok|exact Hme|exact Hacc|done|done| |done].
  intros -> Hv4. by apply Hrev.
Qed.
End dispatch.
End effects.
