(* ===== verification/StakeSafety.v ===== *)
(** * Safety of the stake program

    The properties of every instruction of the stake program: lamports are
    conserved, accounts change only with the signatures of their authorities,
    stakes stay backed by lamports, and withdrawals respect stake, reserve and
    lockup. *)
From stdpp Require Import base numbers option list gmap.
From S2P Require Import Prelude OrdMap Instruction VoteState Account EpochSchedule Float64 Rent Sysvar PreAccount.
From S2P Require Import Nonce System SystemSpec ConfigProgram Stake StakeActivation StakeProgram StakeSpec StakeEffects.

Section safety.
Context (sha256 : list Z -> Hash).
Context `{BincodeLaws StakeState} `{Bincode VoteStateVersions}.
Context `{Bincode StakeIx.StakeInstruction} `{Bincode Clock} `{Bincode StakeHistory} `{Bincode Rent}.
Context `{Bincode ConfigKeys} `{Bincode Config}.
Context (ctx : ProgramContext) (first : nat).

(** What the program may rely on: the integers it reads are in the range of their
    types, the clock has not reached [u64::MAX], keyed accounts of one account
    have one key, and the lamports of the instruction are a [u64]. *)
Record stake_call (bytes : list Z) (s : Accounts) : Prop := {
  call_state b st : bincode_deserialize b = Some st -> stake_typed st;
  call_clock b c : bincode_deserialize b = Some c -> 0 <= clock_epoch c < U64_MAX;
  call_keys k1 k2 : k1 ∈ drop first (pc_keyed_accounts ctx) -> k2 ∈ drop first (pc_keyed_accounts ctx) ->
    account k1 = account k2 -> key k1 = key k2;
  call_data : stake_data_ok bytes;
  call_accounts : accounts_typed s;
}.

Lemma stake_call_changes (may_reverse : nat -> Prop) bytes s u s' : stake_call bytes s ->
  (limited_deserialize bytes PACKET_DATA_SIZE = Ok StakeIx.DelegateStake ->
   active ctx stake_program_v4 = true ->
   forall me, pc_keyed_accounts ctx !! first = Some me -> may_reverse (account me)) ->
  stake_process_instruction sha256 ctx first bytes s = (Ok u, s') ->
  stake_changes (address_signed sha256 ctx first) may_reverse (signed_index sha256 ctx first) s s'.
Proof. intros [Hst Hc Hk Hd Ha] Hrev Hr. by eapply stake_process_changes. Qed.

Lemma credited_frame a a' : credited a a' -> account_frame a a'.
Proof. by intros (n & _ & ->). Qed.

Lemma meta_change_signed signed m m' : meta_change signed m m' ->
  (signed (staker (authorized m)) \/ signed (withdrawer (authorized m)) \/ signed (custodian (lockup m))) /\
  (withdrawer (authorized m') ≠ withdrawer (authorized m) -> signed (withdrawer (authorized m))).
Proof. destruct 1 as [pk Hs|pk Hs|lk Hs]; cbn; naive_solver. Qed.

Lemma set_meta_meta m m' st x : state_meta st = Some m -> state_meta (set_meta m' st) = Some x -> x = m'.
Proof. destruct st; cbn; congruence. Qed.

(** The signatures that a change of a stake account needs. *)
Lemma stake_change_signed signed ks r b st n st' n' meta : stake_change signed ks r b st n st' n' ->
  state_meta st = Some meta ->
  (signed (staker (authorized meta)) \/ signed (withdrawer (authorized meta)) \/
   signed (custodian (lockup meta)) /\ n' = n) /\
  (n' < n -> signed (staker (authorized meta)) \/ signed (withdrawer (authorized meta))) /\
  (forall meta', state_meta st' = Some meta' -> withdrawer (authorized meta') ≠ withdrawer (authorized meta) ->
   signed (withdrawer (authorized meta))).
Proof.
  intros Hch Hm. destruct Hch as [m n Hr|st m m' n Hm' Hc|st m stake n Hm' Hs|m stake n Hr Hs|
    m stake epoch n Hs|m stake k n Hs|m k n Hs|st n n' _|m stake stake' n n' Hs|
    st m n n' Hm' Hs|st m n n' Hm' Hs|n n' _]; cbn in Hm; try discriminate Hm; simplify_eq.
  { destruct (meta_change_signed _ _ _ Hc) as [Hs Hw]. split_and!; [naive_solver|lia|].
    intros x Hx. by apply (set_meta_meta _ _ _ _ Hm') in Hx as ->. }
  all: split_and!; [naive_solver|naive_solver|]; cbn; naive_solver.
Qed.

(** ** Properties *)




(** A withdrawal from a stake account is signed by its withdrawer; while the
    lockup is in force it is signed by the custodian too; and the account keeps
    its effective stake and its reserve, or is emptied when no stake is effective,
    and is then uninitialized. The lamports go to the recipient. *)
Theorem stake_withdraw_protected me n to clock history authority custodian to_zero s s' a meta stake :
  stake_withdraw me n to clock history authority custodian to_zero s = (Ok tt, s') ->
  s !! account me = Some a -> account_state a = Ok (StakeActive meta stake) -> account me ≠ account to ->
  is_signer authority = true /\ key authority = withdrawer (authorized meta) /\
  (is_in_force (lockup meta) clock None = true ->
   exists k, custodian = Some k /\ is_signer k = true /\ key k = Stake.custodian (lockup meta)) /\
  exists a' c, s' !! account me = Some a' /\ lamports a' = lamports a - n /\
    s !! account to = Some c /\ s' !! account to = Some (set_lamports (lamports c + n) c) /\
    (staked_at stake clock history + rent_exempt_reserve meta <= lamports a' \/
     lamports a' = 0 /\ staked_at stake clock history = 0 /\ account_state a' = Ok StakeUninitialized).
Proof.
  intros (x & st & lk & reserve & is_staked & d & c & Hx & Hst & Hsig & Hres & Hlk & Hle & Hl & Hd & Hc & ->)%stake_withdraw_Ok
    Ha Hst' Hne. assert (x = a) as -> by congruence. assert (st = StakeActive meta stake) as -> by congruence.
  destruct Hres as (Hw & -> & -> & ->). apply list_elem_of_singleton in Hw. split_and!; [done|done| |].
  - unfold is_in_force in *. rewrite (bool_decide_eq_false_2 (None = _)) by done. intros Hf. rewrite Hf in Hlk.
    destruct custodian as [k|]; cbn in Hlk; [|done]. unfold signer_key in Hlk.
    destruct (is_signer k) eqn:Hk; [|done]. exists k. split_and!; [done|done|].
    destruct (bool_decide (Some (key k) = _)) eqn:E; [|done]. apply bool_decide_eq_true in E. congruence.
  - rewrite list_lookup_insert_ne in Hc by done. eexists _, c. split_and!.
    + rewrite list_lookup_insert_ne by done. rewrite list_lookup_insert_eq by (by eapply lookup_lt_Some). done.
    + done.
    + done.
    + apply list_lookup_insert_eq. rewrite length_insert. by eapply lookup_lt_Some.
    + cbn. destruct Hle as [Hle|[-> Hz]]; [left; lia|]. rewrite Z.eqb_refl in Hd.
      right. split_and!; [lia| |exact Hd]. apply negb_false_iff, Z.eqb_eq in Hz. done.
Qed.
End safety.
