(* ===== verification/StakeExample.v ===== *)
(** * The stake program on concrete data

    A split, a withdrawal and a delegation, with a serialization that evaluates;
    and the reversal of a deactivation that leaves a stake without its lamports. *)
From Stdlib Require Import SpecFloat.
From stdpp Require Import base numbers option list gmap.
From S2P Require Import Prelude OrdMap Instruction VoteState Account EpochSchedule Float64 Rent Sysvar PreAccount.
From S2P Require Import Nonce System SystemSpec ConfigProgram Stake StakeActivation StakeProgram StakeSpec StakeEffects.
From S2P Require Import StakeSafety.

#[local] Instance spec_float_eq : EqDecision spec_float.
Proof. solve_decision. Defined.
#[local] Instance f64_eq_dec : EqDecision f64 := spec_float_eq.
#[local] Instance Meta_eq : EqDecision Meta.
Proof. solve_decision. Defined.
#[local] Instance Delegation_eq : EqDecision Delegation.
Proof. solve_decision. Defined.
#[local] Instance Stake_eq : EqDecision Stake.
Proof. solve_decision. Defined.
#[local] Instance StakeState_eq : EqDecision StakeState.
Proof. solve_decision. Defined.

Module StakeExample.
(** A stake of 100 lamports to voter 7, activated in epoch 1, with reserve 10. *)
Definition meta : Meta := mkMeta 10 (mkAuthorized 1 2) Lockup_default.
Definition activated : Stake := mkStake (mkDelegation 7 100 1 U64_MAX DEFAULT_WARMUP_COOLDOWN_RATE) 0.
Definition deactivated : Stake := set_delegation (set_deactivation_epoch 2 (delegation activated)) activated.
Definition rest : Stake := set_delegation (set_d_stake 40 (delegation activated)) activated.

Definition states : list StakeState :=
  [StakeUninitialized; StakeActive meta activated; StakeActive meta deactivated; StakeActive meta rest;
   StakeActive (set_rent_exempt_reserve 0 meta) (set_delegation (set_d_stake 60 (delegation activated)) activated)].
Definition clock : Clock := mkClock 0 0 2 2 0.
(** In epoch 1 the cluster had 100 effective and 400 activating lamports. *)
Definition history : StakeHistory := [(1, mkEntry 100 400 0)].
Definition instructions : list StakeIx.StakeInstruction :=
  [StakeIx.Deactivate; StakeIx.Withdraw 94; StakeIx.DelegateStake; StakeIx.Split 60].

#[local] Instance state_codec : Bincode StakeState := table_codec states.
#[local] Instance vote_codec : Bincode VoteStateVersions := {|
  bincode_deserialize _ := Some (Current VoteState_default);
  bincode_deserialize_limited _ _ := None; bincode_serialized_size _ := Err BincodeOther;
  bincode_serialize_into _ b := (Err BincodeOther, b) |}.
Definition const_codec {T} (x : T) : Bincode T := {|
  bincode_deserialize _ := Some x; bincode_deserialize_limited _ _ := Some x;
  bincode_serialized_size _ := Ok 0; bincode_serialize_into _ b := (Ok tt, b) |}.
#[local] Instance ix_codec : Bincode StakeIx.StakeInstruction := {|
  bincode_deserialize _ := None;
  bincode_deserialize_limited _ b := match b with c :: _ => instructions !! Z.to_nat c | [] => None end;
  bincode_serialized_size _ := Err BincodeOther; bincode_serialize_into _ b := (Err BincodeOther, b) |}.
#[local] Instance clock_codec : Bincode Clock := const_codec clock.
#[local] Instance history_codec : Bincode StakeHistory := const_codec history.
#[local] Instance rent_codec : Bincode Rent := const_codec Rent_default.
#[local] Instance keys_codec : Bincode ConfigKeys := const_codec (mkConfigKeys []).
#[local] Instance config_codec : Bincode Config := const_codec Config_default.

(** A stake account, an empty one, a recipient, a vote account and sysvars. *)
Definition bytes_of (c : Z) : list Z := c :: replicate 199 0.
Definition accounts : Accounts :=
  [mkAccount 110 (bytes_of 1) stake_program_id false 0; mkAccount 0 (bytes_of 0) stake_program_id false 0;
   mkAccount 5 [] system_program_id false 0; mkAccount 1 [0] vote_program_id false 0;
   mkAccount 1 [0] sysvar_id false 0; mkAccount 1 [0] config_program_id false 0].

Definition no_cache : SysvarCache := mkSysvarCache None None None None.
Definition context (keyed : list KeyedAccount) : ProgramContext :=
  mkProgramContext keyed no_cache (<[stake_program_v4 := 0]> ∅) 0 0.

Definition stake_key := mkKeyedAccount false true 100 0.
Definition clock_key := mkKeyedAccount false false clock_id 4.
Definition history_key := mkKeyedAccount false false stake_history_id 4.
Definition staker_key := mkKeyedAccount true false 1 2.
Definition withdrawer_key := mkKeyedAccount true false 2 2.

Definition deactivate_ctx := context [stake_key; clock_key; staker_key].
Definition withdraw_ctx := context [stake_key; mkKeyedAccount false true 3 2; clock_key; history_key; withdrawer_key].
Definition delegate_ctx := context [stake_key; mkKeyedAccount false false 7 3; clock_key; history_key;
  mkKeyedAccount false false stake_config_id 5; staker_key].
Definition split_ctx := context [stake_key; mkKeyedAccount false true 101 1; staker_key].

Definition run (ctx : ProgramContext) (bytes : list Z) (s : Accounts) :=
  stake_process_instruction (fun _ => 0) ctx 0 bytes s.

(** A stake that is not backed by lamports. A stake of 100 lamports of which 6
    are effective is deactivated; its other lamports are withdrawn in the same
    epoch; and a delegation to the same voter then reverses the deactivation: the
    account has 100 lamports of stake again, warming up to their full weight, and
    holds 6 besides its reserve. Every instruction is signed as required and
    succeeds. *)
Theorem deactivation_reversal_unbacked : exists s1 s2 s3 a stake,
  run deactivate_ctx [0] accounts = (Ok tt, s1) /\ run withdraw_ctx [1] s1 = (Ok tt, s2) /\
  run delegate_ctx [2] s2 = (Ok tt, s3) /\
  s3 !! 0%nat = Some a /\ account_state a = Ok (StakeActive meta stake) /\ lamports a = 16 /\
  d_stake (delegation stake) = 100 /\ deactivation_epoch (delegation stake) = U64_MAX /\
  Delegation_stake (delegation stake) 50 (Some []) = 100 /\ ~ backed a.
Proof.
  eexists _, _, _, _, _. split; [vm_compute; reflexivity|]. split; [vm_compute; reflexivity|].
  split; [vm_compute; reflexivity|]. split; [reflexivity|]. split; [vm_compute; reflexivity|].
  split; [reflexivity|]. split; [reflexivity|]. split; [reflexivity|]. split; [vm_compute; reflexivity|].
  intros Hb. destruct (Hb eq_refl _ eq_refl ltac:(done)) as [_ [_ Hs]]. vm_compute in Hs. by apply Hs.
Qed.

(** ** The properties on concrete data *)

Definition state_laws : BincodeLaws StakeState := table_codec_laws _.

Lemma states_typed : Forall stake_typed states.
Proof. repeat constructor; vm_compute; discriminate. Qed.

Lemma split_call : stake_call split_ctx 0 [3] accounts.
Proof.
  split.
  - intros b st. apply table_codec_Forall, states_typed.
  - intros b c [= <-]. vm_compute. split; [discriminate|reflexivity].
  - intros k1 k2 H1 H2. cbn in H1, H2. rewrite !elem_of_cons, elem_of_nil in H1. rewrite !elem_of_cons, elem_of_nil in H2.
    destruct_or! H1; destruct_or! H2; subst; try done; cbn; intros; congruence || lia.
  - vm_compute. split; discriminate.
  - intros i a Hi. do 6 (destruct i as [|i]; [injection Hi as <-; vm_compute; repeat split; discriminate|]). done.
Qed.

Lemma accounts_backed : all_backed accounts.
Proof.
  intros i a Hi Ho st Hst Hm. destruct i as [|[|[|[|[|[|i]]]]]]; [injection Hi as <-..|done]; try done.
  - vm_compute in Hst. injection Hst as <-. split; [done|]. vm_compute. split; [discriminate|done].
  - vm_compute in Hst. by injection Hst as <-.
Qed.




Definition after_deactivate : Accounts := snd (run deactivate_ctx [0] accounts).
Definition withdrawn : outcome InstructionError unit * Accounts :=
  stake_withdraw stake_key 94 (mkKeyedAccount false true 3 2) clock history withdrawer_key None true after_deactivate.

Lemma stake_withdraw_protected_witness : exists a',
  fst withdrawn = Ok tt /\ snd withdrawn !! 0%nat = Some a' /\
  (staked_at deactivated clock history + 10 <= lamports a' \/
   lamports a' = 0 /\ staked_at deactivated clock history = 0 /\ account_state a' = Ok StakeUninitialized).
Proof.
  destruct (@stake_withdraw_protected state_codec state_laws stake_key 94 (mkKeyedAccount false true 3 2) clock
    history withdrawer_key None true after_deactivate (snd withdrawn)
    (mkAccount 110 (bytes_of 2) stake_program_id false 0) meta deactivated) as (_ & _ & _ & a' & c & Ha' & _ & _ & _ & Hleft);
    [vm_compute; reflexivity|vm_compute; reflexivity|vm_compute; reflexivity|discriminate|].
  exists a'. split; [vm_compute; reflexivity|]. split; [exact Ha'|exact Hleft].
Defined.

Lemma stake_status_bounded_witness :
  let status := stake_activating_and_deactivating (delegation activated) 2 (Some history) in
  effective status = 6 /\ effective status + activating status = 100.
Proof.
  destruct (stake_status_bounded (delegation activated) (Some history)
    ltac:(vm_compute; split; discriminate) ltac:(vm_compute; discriminate) ltac:(vm_compute; discriminate) 2
    ltac:(vm_compute; split; discriminate) ltac:(right; vm_compute; discriminate)) as (_ & _ & _ & _ & _ & Hs & _).
  split; [vm_compute; reflexivity|].
  exact (proj1 (Hs ltac:(vm_compute; reflexivity) ltac:(right; vm_compute; discriminate))).
Defined.
End StakeExample.
