(* ===== verification/StakeRewards.v ===== *)
(** * Merging credits and paying rewards

    A merge of two stakes earns no more than the two stakes would have; a reward
    is paid once; and the rewards of an epoch do not exceed the lamports set aside
    for them. *)
From Stdlib Require Import Lia.
From stdpp Require Import base numbers option list gmap.
From S2P Require Import Prelude OrdMap Instruction VoteState Account EpochSchedule Float64 Rent Sysvar.
From S2P Require Import Nonce System ConfigProgram Stake StakeActivation StakeProgram.

(** ** Weighted credits *)

Lemma ceil_div x d : 0 < d -> exists r, (x + d - 1) / d * d = x + r /\ 0 <= r < d.
Proof.
  intros Hd. exists (d - 1 - (x + d - 1) mod d). pose proof (Z.div_mod (x + d - 1) d ltac:(lia)).
  pose proof (Z.mod_pos_bound (x + d - 1) d Hd). split; lia.
Qed.

(** Merging loses credits, never gains them. The credits observed by a merged
    stake are the average of the two weighted by stake, rounded up by less than
    one: they exist whenever the total stake is a positive [u64], lie between the
    two, and for any number of vote credits beyond them the merged stake earns at
    most the points that the two stakes would have earned apart. *)
Theorem merge_no_extra_points stake n c : in_u64 (d_stake (delegation stake)) -> in_u64 n -> in_u64 c ->
  in_u64 (credits_observed stake) -> 0 < d_stake (delegation stake) + n <= U64_MAX ->
  let s := d_stake (delegation stake) in
  let c0 := credits_observed stake in
  exists c', stake_weighted_credits_observed stake n c = Some c' /\
    Z.min c0 c <= c' <= Z.max c0 c /\
    c0 * s + c * n <= c' * (s + n) < c0 * s + c * n + (s + n) /\
    forall v, (v - c') * (s + n) <= (v - c0) * s + (v - c) * n.
Proof.
  intros Hs Hn Hc Hc0 Ht s c0. fold s in Hs, Ht. fold c0 in Hc0. unfold stake_weighted_credits_observed. fold s c0.
  destruct (Z.eqb_spec c0 c) as [->|Hne]; [exists c; split_and!; [done|lia|lia|lia|lia|]; intros v; lia|].
  destruct (ceil_div (c0 * s + c * n) (s + n) ltac:(lia)) as (r & Hr & Hrb).
  set (q := (c0 * s + c * n + (s + n) - 1) / (s + n)) in *.
  assert (Z.min c0 c <= q <= Z.max c0 c) as Hq by (unfold in_u64 in *; split; nia).
  exists q. split_and!; [|lia|lia|lia|lia|intros v; lia].
  assert (c0 * s <= U128_MAX) by (unfold in_u64, U64_MAX, U128_MAX in *; nia).
  assert (c * n <= U128_MAX) by (unfold in_u64, U64_MAX, U128_MAX in *; nia).
  assert (c0 * s + c * n + (s + n) <= U128_MAX) by (unfold in_u64, U64_MAX, U128_MAX in *; nia).
  assert (0 <= c0 * s + c * n) by (unfold in_u64 in *; nia).
  unfold mbind, option_bind. rewrite (proj2 (checked_add64_Some _ _ (s + n))) by lia.
  rewrite !(proj2 (checked_mul128_Some _ _ _)) by (split; [reflexivity|done]).
  rewrite !(proj2 (checked_add128_Some _ _ _)) by (split; [reflexivity|lia]).
  rewrite (proj2 (checked_sub128_Some _ _ _)) by (split; [reflexivity|lia]).
  rewrite (proj2 (checked_div128_Some _ _ q)) by (split; [reflexivity|lia]).
  rewrite (proj2 (Z.leb_le _ _)) by (unfold in_u64 in *; lia). done.
Qed.

Lemma merge_no_extra_points_witness :
  let stake := mkStake (mkDelegation 7 30 1 U64_MAX DEFAULT_WARMUP_COOLDOWN_RATE) 10 in
  exists c', stake_weighted_credits_observed stake 10 20 = Some c' /\ c' = 13 /\ (100 - c') * 40 <= 90 * 30 + 80 * 10.
Proof.
  destruct (merge_no_extra_points (mkStake (mkDelegation 7 30 1 U64_MAX DEFAULT_WARMUP_COOLDOWN_RATE) 10) 10 20)
    as (c' & Hc & _ & _ & Hp); [cbn; u64..|].
  exists c'. split; [exact Hc|]. split; [by vm_compute in Hc; injection Hc|]. exact (Hp 100).
Defined.

(** ** Points *)

Section points.
Context (stake : Stake) (h : option StakeHistory).

Lemma points_step_range acc e : 0 <= fst (points_step stake h acc e) <= U128_MAX.
Proof.
  unfold points_step, add128. destruct acc as [p c], e as [[epoch f] i]. cbn [fst].
  match goal with |- 0 <= ?x mod _ <= _ => pose proof (Z.mod_pos_bound x (U128_MAX + 1) ltac:(by vm_compute)) end. lia.
Qed.

Lemma points_fold_observed l acc :
  snd acc <= snd (foldl (points_step stake h) acc l) /\
  forall e, e ∈ l -> e.1.2 <= snd (foldl (points_step stake h) acc l).
Proof.
  revert acc. induction l as [|x l IH]; intros acc; [split; [done|]; intros e He; by apply elem_of_nil in He|].
  cbn [foldl]. destruct (IH (points_step stake h acc x)) as [Hle Hin].
  assert (snd acc <= snd (points_step stake h acc x) /\ x.1.2 <= snd (points_step stake h acc x)) as [Ha Hx].
  { destruct acc as [p c], x as [[epoch f] i]. cbn. lia. }
  split; [lia|]. intros e [->|He]%elem_of_cons; [lia|by apply Hin].
Qed.

Lemma points_fold_nonneg l acc : 0 <= fst acc -> 0 <= fst (foldl (points_step stake h) acc l).
Proof.
  revert acc. induction l as [|x l IH]; intros acc Ha; [done|]. cbn [foldl]. apply IH. apply points_step_range.
Qed.
End points.

Lemma calculate_stake_points_nonneg stake vs h : 0 <= calculate_stake_points stake vs h.
Proof.
  unfold calculate_stake_points, calculate_stake_points_and_credits. destruct (_ <=? _); [done|].
  by apply points_fold_nonneg.
Qed.

(** The new observed credits reach the credits of the vote account. *)
Lemma points_observed stake vs h : 0 <= credits_observed stake ->
  credits vs <= snd (calculate_stake_points_and_credits stake vs h).
Proof.
  intros Hc. unfold calculate_stake_points_and_credits. destruct (Z.leb_spec (credits vs) (credits_observed stake)) as [|Hlt]; [done|].
  unfold credits in *. destruct (last (epoch_credits vs)) as [[[e f] i]|] eqn:Hl; [|lia].
  apply last_elem in Hl. by apply (proj2 (points_fold_observed stake h (epoch_credits vs) (0, credits_observed stake)) (e, f, i)).
Qed.

Lemma no_points_left stake vs h : credits vs <= credits_observed stake ->
  calculate_stake_points_and_credits stake vs h = (0, credits_observed stake).
Proof. intros Hc. unfold calculate_stake_points_and_credits. by rewrite (proj2 (Z.leb_le _ _) Hc). Qed.

(** ** Rewards *)

Lemma redeem_observed {E} epoch stake pv vs h sr vr stake' :
  redeem_stake_rewards (E := E) epoch stake pv vs h = Ok (Some (sr, vr, stake')) ->
  credits_observed stake' = snd (calculate_stake_points_and_credits stake vs h).
Proof.
  unfold redeem_stake_rewards, calculate_stake_rewards.
  destruct (calculate_stake_points_and_credits stake vs h) as [points c]. cbn [snd].
  intros Hr. ok_inv. repeat (case_match; ok_inv; simplify_eq); try done.
Qed.

(** Rewards are paid once. After a redemption the stake has observed all the
    credits of the vote account: it has no points left against it, for any
    history, and redeeming again pays nothing. *)
Theorem rewards_not_paid_twice epoch stake pv vs h sr vr stake' : 0 <= credits_observed stake ->
  redeem_stake_rewards (E := InstructionError) epoch stake pv vs h = Ok (Some (sr, vr, stake')) ->
  credits vs <= credits_observed stake' /\
  (forall h', calculate_stake_points stake' vs h' = 0) /\
  forall epoch' pv' h', exists o, redeem_stake_rewards (E := InstructionError) epoch' stake' pv' vs h' = Ok o /\
    (o = None \/ exists stake'', o = Some (0, 0, stake'')).
Proof.
  intros Hc Hr. pose proof (points_observed stake vs h Hc) as Hob. rewrite <- (redeem_observed _ _ _ _ _ _ _ _ Hr) in Hob.
  split; [done|]. split; [intros h'; unfold calculate_stake_points; by rewrite no_points_left|].
  intros epoch' pv' h'. unfold redeem_stake_rewards, calculate_stake_rewards. rewrite no_points_left by done.
  destruct (_ || _); cbn; eauto.
Qed.

Lemma rewards_not_paid_twice_witness :
  let vs := set_epoch_credits [(3, 40, 0)] VoteState_default in
  let stake := mkStake (mkDelegation 7 100 U64_MAX U64_MAX DEFAULT_WARMUP_COOLDOWN_RATE) 10 in
  exists stake', redeem_stake_rewards (E := InstructionError) 3 stake (mkPointValue 50 6000) vs None
    = Ok (Some (25, 0, stake')) /\ calculate_stake_points stake' vs None = 0.
Proof.
  eexists. split; [vm_compute; reflexivity|].
  eapply (rewards_not_paid_twice 3 (mkStake (mkDelegation 7 100 U64_MAX U64_MAX DEFAULT_WARMUP_COOLDOWN_RATE) 10)
    (mkPointValue 50 6000) (set_epoch_credits [(3, 40, 0)] VoteState_default) None 25 0); [cbn; lia|vm_compute; reflexivity].
Defined.

Lemma commission_split_le vs on : in_u64 on -> in_u8 (commission vs) ->
  let '(voter, staker, _) := commission_split vs on in 0 <= voter /\ 0 <= staker /\ voter + staker <= on.
Proof.
  intros Hon Hc. unfold commission_split. set (c := Z.min (commission vs) 100).
  assert (0 <= c <= 100) as Hcr by (subst c; u64). clearbody c.
  destruct (Z.eqb_spec c 0); [u64|]. destruct (Z.eqb_spec c 100); [u64|].
  pose proof (Z.mul_div_le (on * c) 100 ltac:(lia)). pose proof (Z.mul_div_le (on * (100 - c)) 100 ltac:(lia)).
  assert (0 <= on * c / 100) by (apply Z.div_pos; u64 || (unfold in_u64 in *; nia)).
  assert (0 <= on * (100 - c) / 100) by (apply Z.div_pos; u64 || (unfold in_u64 in *; nia)).
  rewrite !as_u64_small by (unfold in_u64 in *; nia). unfold in_u64 in *. nia.
Qed.

(** What a stake and its voter are paid. *)
Definition paid (epoch : Epoch) (pv : PointValue) (h : option StakeHistory) (p : Stake * VoteState) : Z :=
  match calculate_stake_rewards (E := InstructionError) epoch p.1 pv p.2 h with
  | Ok (Some (staker_rewards, voter_rewards, _)) => staker_rewards + voter_rewards
  | _ => 0
  end.

Lemma paid_bound epoch pv h p : in_u8 (commission p.2) -> 0 <= pv_rewards pv -> 0 <= pv_points pv ->
  0 <= paid epoch pv h p /\ paid epoch pv h p * pv_points pv <= calculate_stake_points p.1 p.2 h * pv_rewards pv /\
  (pv_points pv = 0 -> paid epoch pv h p = 0).
Proof.
  intros Hc Hr Hp. pose proof (calculate_stake_points_nonneg p.1 p.2 h) as Hpt. unfold paid, calculate_stake_rewards.
  unfold calculate_stake_points in *. destruct (calculate_stake_points_and_credits p.1 p.2 h) as [points c]. cbn [fst] in *.
  destruct (_ || _); [cbn; nia|]. destruct (points =? 0); [cbn; nia|].
  destruct (Z.eqb_spec (pv_points pv) 0); [cbn; nia|].
  unfold unwrap. destruct (checked_mul128 _ _) as [x|] eqn:Hx; cbn; [|nia]. apply checked_mul128_Some in Hx as [-> _].
  destruct (checked_div128 _ _) as [y|] eqn:Hy; cbn; [|nia]. apply checked_div128_Some in Hy as [-> _].
  pose proof (Z.mul_div_le (points * pv_rewards pv) (pv_points pv) ltac:(lia)) as Hd.
  assert (0 <= points * pv_rewards pv / pv_points pv) by (apply Z.div_pos; nia).
  destruct (Z.leb_spec (points * pv_rewards pv / pv_points pv) U64_MAX); cbn; [|nia].
  destruct (_ =? 0); [nia|].
  pose proof (commission_split_le p.2 (points * pv_rewards pv / pv_points pv) ltac:(u64) Hc) as Hs.
  destruct (commission_split _ _) as [[v s] is_split]. destruct (_ && is_split); cbn; nia.
Qed.

Definition total_of {A} (f : A -> Z) (l : list A) : Z := foldr (fun x acc => f x + acc) 0 l.

(** C37. The rewards of an epoch stay within the lamports set aside for them: over
    any list of stakes with their vote accounts, when the points of the point
    value are at least the sum of the points of the stakes, what all stakers and
    voters are paid sums to at most the rewards of the point value. *)
Theorem epoch_rewards_bounded epoch pv h (l : list (Stake * VoteState)) :
  Forall (fun p => in_u8 (commission p.2)) l -> 0 <= pv_rewards pv ->
  total_of (fun p => calculate_stake_points p.1 p.2 h) l <= pv_points pv ->
  0 <= total_of (paid epoch pv h) l <= pv_rewards pv.
Proof.
  intros Hc Hr Hp.
  assert (0 <= total_of (fun p => calculate_stake_points p.1 p.2 h) l) as Hpos.
  { clear. induction l as [|p l IH]; cbn; [done|]. pose proof (calculate_stake_points_nonneg p.1 p.2 h).
    unfold total_of in IH. lia. }
  assert (0 <= total_of (paid epoch pv h) l /\
    total_of (paid epoch pv h) l * pv_points pv <= total_of (fun p => calculate_stake_points p.1 p.2 h) l * pv_rewards pv /\
    (pv_points pv = 0 -> total_of (paid epoch pv h) l = 0)) as (H1 & H2 & H3).
  { assert (0 <= pv_points pv) as HP by lia. clear Hp Hpos. induction Hc as [|p l Hc _ IH]; cbn; [lia|].
    pose proof (paid_bound epoch pv h p Hc Hr HP). unfold total_of in IH. nia. }
  destruct (decide (pv_points pv = 0)) as [Hz|Hz]; [rewrite (H3 Hz); lia|]. split; [done|]. nia.
Qed.

Lemma epoch_rewards_bounded_witness :
  let vs := set_commission 10 (set_epoch_credits [(3, 40, 0)] VoteState_default) in
  let stake n := mkStake (mkDelegation 7 n U64_MAX U64_MAX DEFAULT_WARMUP_COOLDOWN_RATE) 10 in
  let l := [(stake 100, vs); (stake 33, vs)] in
  total_of (paid 3 (mkPointValue 500 3990) None) l = 497 /\ total_of (paid 3 (mkPointValue 500 3990) None) l <= 500.
Proof.
  intros vs stake l. split; [vm_compute; reflexivity|].
  apply (epoch_rewards_bounded 3 (mkPointValue 500 3990) None l);
    [repeat constructor; vm_compute; discriminate|cbn; lia|vm_compute; discriminate].
Defined.
