(* ===== verification/RollingBitField.v ===== *)
(** * Rolling bit field

    The set of slots of [runtime/src/accounts_index.rs] ([RollingBitField]) and
    its client [runtime/src/ancestors.rs]: a window of bits over the recent
    slots, and a hash set for the older ones. It refines a finite set as long as
    a slot inserted into an empty window lies above the older ones. *)
From stdpp Require Import base numbers option list gmap sets sorting.
From S2P Require Import Prelude.

(** ** The bit vector

    [BitVec] is the [bv] crate's: a vector of bits of fixed length. *)
Class BitVec (B : Type) := {
  bv_new_fill : bool -> Z -> B;
  bv_len : B -> Z;
  bv_get : B -> Z -> bool;
  bv_set : B -> Z -> bool -> B;
}.

Class BitVecLaws (B : Type) `{BitVec B} := {
  bv_len_new_fill b n : 0 <= n -> bv_len (bv_new_fill b n) = n;
  bv_get_new_fill b n i : 0 <= i < n -> bv_get (bv_new_fill b n) i = b;
  bv_len_set v i b : bv_len (bv_set v i b) = bv_len v;
  bv_get_set v i j b : 0 <= i < bv_len v -> 0 <= j < bv_len v ->
    bv_get (bv_set v i b) j = if i =? j then b else bv_get v j;
}.

(** ** Data *)

Record RollingBitField (B : Type) : Type := mkRollingBitField {
  max_width : Z;
  rb_min : Z;
  (** exclusive *)
  rb_max : Z;
  bits : B;
  count : Z;
  (** the members below [rb_min] *)
  excess : gset Z;
}.
Arguments mkRollingBitField {_} _ _ _ _ _ _.
Arguments max_width {_} _.
Arguments rb_min {_} _.
Arguments rb_max {_} _.
Arguments bits {_} _.
Arguments count {_} _.
Arguments excess {_} _.

Definition is_power_of_two (n : Z) : bool := (0 <? n) && (2 ^ Z.log2 n =? n).

Section ops.
Context {B : Type} `{BitVec B}.
Abbreviation RBF := (RollingBitField B).

Definition RollingBitField_new (max_width : Z) : outcome fuel_error RBF :=
  if (0 <? max_width) && is_power_of_two max_width
  then Ok (mkRollingBitField max_width 0 0 (bv_new_fill false max_width) 0 ∅)
  else Panic.

Definition get_address (r : RBF) (key : Z) : Z := key mod max_width r.
Definition range_width (r : RBF) : Z := sub64 (rb_max r) (rb_min r).
Definition all_items_in_excess (r : RBF) : bool := Z.of_nat (size (excess r)) =? count r.
Definition contains_assume_in_range (r : RBF) (key : Z) : bool := bv_get (bits r) (get_address r key).

Definition rb_contains (r : RBF) (key : Z) : bool :=
  if key <? rb_max r then
    if rb_min r <=? key then contains_assume_in_range r key else bool_decide (key ∈ excess r)
  else false.

Definition rb_len (r : RBF) : Z := count r.
Definition rb_is_empty (r : RBF) : bool := rb_len r =? 0.

(** [min()]; the iteration order over the hash set does not matter. *)
Definition rb_minimum (r : RBF) : option Z :=
  if rb_is_empty r then None
  else if bool_decide (excess r = ∅) then Some (rb_min r)
  else Some (foldr Z.min (if all_items_in_excess r then U64_MAX else rb_min r) (elements (excess r))).

Definition set_bits (r : RBF) (b : B) : RBF :=
  mkRollingBitField (max_width r) (rb_min r) (rb_max r) b (count r) (excess r).
Definition set_range (r : RBF) (lo hi : Z) : RBF :=
  mkRollingBitField (max_width r) lo hi (bits r) (count r) (excess r).
Definition set_count (r : RBF) (c : Z) : RBF :=
  mkRollingBitField (max_width r) (rb_min r) (rb_max r) (bits r) c (excess r).
Definition set_excess (r : RBF) (e : gset Z) : RBF :=
  mkRollingBitField (max_width r) (rb_min r) (rb_max r) (bits r) (count r) e.

(** The loop of [purge] over [start..max]: the first member from [key] on. *)
Fixpoint first_member (r : RBF) (key : Z) (n : nat) : option Z :=
  match n with
  | O => None
  | S n => if contains_assume_in_range r key then Some key else first_member r (key + 1) n
  end.

Definition purge (r : RBF) (key : Z) : RBF :=
  if (0 <? count r) && negb (all_items_in_excess r) then
    if key =? rb_min r then
      let start := add64 (rb_min r) 1 in
      match first_member r start (Z.to_nat (rb_max r - start)) with
      | Some key => set_range r key (rb_max r)
      | None => r
      end
    else r
  else set_range r (rb_max r) (rb_max r).

(** The loop of [insert] that moves the lowest members to [excess]; returns
    whether the bits are empty afterwards. *)
Fixpoint make_room (fuel : nat) (r : RBF) (new_max : Z) (bits_empty : bool) : outcome fuel_error (RBF * bool) :=
  match fuel with
  | O => Err OutOfFuel
  | S fuel =>
      if saturating_sub64 new_max (rb_min r) <=? max_width r then Ok (r, bits_empty)
      else if bool_decide (rb_min r ∈ excess r) then Panic
      else
        let key := rb_min r in
        let r := set_excess r ({[key]} ∪ excess r) in
        let r := set_bits r (bv_set (bits r) (get_address r key) false) in
        let r := purge r key in
        if all_items_in_excess r then Ok (r, true) else make_room fuel r new_max bits_empty
  end.

(** The update of the bits at the end of [insert]. *)
Definition insert_bit (r : RBF) (key : Z) (bits_empty : bool) : outcome fuel_error RBF :=
  let address := get_address r key in
  if bv_get (bits r) address then Ok r
  else
    let r := set_bits r (bv_set (bits r) address true) in
    if bits_empty then
      let r := set_range r key (add64 key 1) in
      Ok (set_count r (add64 (count r) 1))
    else
      let r := set_range r (Z.min (rb_min r) key) (Z.max (rb_max r) (add64 key 1)) in
      if rb_max r <=? add64 (rb_min r) (max_width r) then Ok (set_count r (add64 (count r) 1)) else Panic.

Definition rb_insert (r : RBF) (key : Z) : outcome fuel_error RBF :=
  let bits_empty := (count r =? 0) || all_items_in_excess r in
  if bits_empty then insert_bit r key true
  else if key <? rb_min r then
    if bool_decide (key ∈ excess r) then Ok r
    else Ok (set_count (set_excess r ({[key]} ∪ excess r)) (add64 (count r) 1))
  else if key <? rb_max r then insert_bit r key false
  else
    '(r, bits_empty) ← make_room (S (Z.to_nat (count r))) r (add64 key 1) false;
    insert_bit r key bits_empty.

Definition rb_remove (r : RBF) (key : Z) : RBF * bool :=
  if rb_min r <=? key then
    if key <? rb_max r then
      let address := get_address r key in
      let get := bv_get (bits r) address in
      if get then
        let r := set_count r (sub64 (count r) 1) in
        let r := set_bits r (bv_set (bits r) address false) in
        (purge r key, get)
      else (r, get)
    else (r, false)
  else
    let remove := bool_decide (key ∈ excess r) in
    if remove then (set_count (set_excess r (excess r ∖ {[key]})) (sub64 (count r) 1), remove)
    else (r, remove).

Definition rb_clear (r : RBF) : outcome fuel_error RBF := RollingBitField_new (max_width r).

Definition get_all (r : RBF) : list Z :=
  elements (excess r) ++
  filter (fun key => contains_assume_in_range r key = true) (seqZ (rb_min r) (rb_max r - rb_min r)).

(** [PartialEq]: compares the members, not the representation. *)
Definition rb_eq (r other : RBF) : bool :=
  (rb_len r =? rb_len other) && forallb (rb_contains other) (get_all r).
End ops.

(** ** Representation *)

Section spec.
Context {B : Type} `{BitVecLaws B}.
Abbreviation RBF := (RollingBitField B).
Implicit Types r : RBF.

(** [key] is a member in the window. *)
Definition in_window r key : Prop :=
  rb_min r <= key < rb_max r /\ contains_assume_in_range r key = true.
#[global] Instance in_window_dec r key : Decision (in_window r key).
Proof. unfold in_window. apply _. Defined.

Definition window r : gset Z :=
  list_to_set (filter (in_window r) (seqZ (rb_min r) (rb_max r - rb_min r))).

(** The set a bit field stands for. *)
Definition rb_members r : gset Z := window r ∪ excess r.

Lemma elem_of_window r key : key ∈ window r <-> in_window r key.
Proof.
  unfold window. rewrite elem_of_list_to_set, list_elem_of_filter, elem_of_seqZ. unfold in_window. split; [naive_solver|].
  intros [??]. split; [done|]. lia.
Qed.

(** Well-formed bit fields: the window holds at most [max_width] slots, no bit
    is set outside it, its first slot is a member, and everything in [excess]
    is below it. *)
Record rb_ok r : Prop := {
  ok_width : 0 < max_width r <= U64_MAX;
  ok_power : is_power_of_two (max_width r) = true;
  ok_bits : bv_len (bits r) = max_width r;
  ok_range : 0 <= rb_min r <= rb_max r;
  ok_max : rb_max r + max_width r <= U64_MAX;
  ok_fits : rb_max r - rb_min r <= max_width r;
  ok_first : rb_min r < rb_max r -> contains_assume_in_range r (rb_min r) = true;
  ok_set : forall a, 0 <= a < max_width r -> bv_get (bits r) a = true ->
    exists key, in_window r key /\ get_address r key = a;
  ok_excess : forall key, key ∈ excess r -> 0 <= key < rb_min r;
  ok_count : count r = Z.of_nat (size (rb_members r));
}.

Lemma get_address_range r key : 0 < max_width r -> 0 <= get_address r key < max_width r.
Proof. intros. apply Z.mod_pos_bound. lia. Qed.

(** Two slots of a window of [max_width] slots have different addresses. *)
Lemma get_address_inj r lo k1 k2 :
  0 < max_width r -> lo <= k1 < lo + max_width r -> lo <= k2 < lo + max_width r ->
  get_address r k1 = get_address r k2 -> k1 = k2.
Proof.
  unfold get_address. intros Hw H1 H2 Heq.
  pose proof (Z.div_mod k1 (max_width r) ltac:(lia)) as E1.
  pose proof (Z.div_mod k2 (max_width r) ltac:(lia)) as E2.
  rewrite Heq in E1. assert (k1 / max_width r = k2 / max_width r) by nia. congruence.
Qed.

Lemma size_bounded (X : gset Z) n : 0 <= n -> (forall x, x ∈ X -> 0 <= x < n) -> Z.of_nat (size X) <= n.
Proof.
  intros Hn HX. assert (X ⊆ list_to_set (seqZ 0 n)) as Hs.
  { intros x Hx. apply elem_of_list_to_set, elem_of_seqZ. specialize (HX _ Hx). lia. }
  apply subseteq_size in Hs. rewrite size_list_to_set in Hs by apply NoDup_seqZ.
  rewrite length_seqZ in Hs. lia.
Qed.

Lemma window_excess_disjoint r : rb_ok r -> window r ## excess r.
Proof.
  intros Hr key [[? _] _]%elem_of_window He. apply (ok_excess r Hr) in He. lia.
Qed.

Lemma members_range r key : rb_ok r -> key ∈ rb_members r -> 0 <= key < U64_MAX.
Proof.
  intros Hr [[[? ?] _]%elem_of_window|He]%elem_of_union; pose proof (ok_range r Hr); pose proof (ok_max r Hr).
  - pose proof (ok_width r Hr). lia.
  - apply (ok_excess r Hr) in He. pose proof (ok_width r Hr). lia.
Qed.

Lemma count_bounded r : rb_ok r -> 0 <= count r <= U64_MAX.
Proof.
  intros Hr. rewrite (ok_count r Hr). split; [lia|].
  apply size_bounded; [unfold U64_MAX; lia|]. intros x. by apply members_range.
Qed.

Lemma size_members r : rb_ok r -> size (rb_members r) = (size (window r) + size (excess r))%nat.
Proof. intros Hr. apply size_union, window_excess_disjoint, Hr. Qed.

Lemma window_empty_iff r : rb_ok r -> window r = ∅ <-> rb_min r = rb_max r.
Proof.
  intros Hr. pose proof (ok_range r Hr). split.
  - intros He. destruct (decide (rb_min r = rb_max r)) as [|Hne]; [done|exfalso].
    assert (rb_min r ∈ window r) as Hin; [|rewrite He in Hin; set_solver].
    apply elem_of_window. split; [lia|]. apply (ok_first r Hr). lia.
  - intros He. apply set_eq. intros x. rewrite elem_of_window. unfold in_window.
    split; [intros [? _]; lia|set_solver].
Qed.

Lemma all_items_in_excess_spec r : rb_ok r -> all_items_in_excess r = true <-> rb_min r = rb_max r.
Proof.
  intros Hr. unfold all_items_in_excess. rewrite Z.eqb_eq, (ok_count r Hr), (size_members r Hr).
  rewrite <- (window_empty_iff r Hr), <- (leibniz_equiv_iff (window r) ∅), <- size_empty_iff. lia.
Qed.

Lemma bits_empty_spec r : rb_ok r -> (count r =? 0) || all_items_in_excess r = true <-> rb_min r = rb_max r.
Proof.
  intros Hr. rewrite orb_true_iff, (all_items_in_excess_spec r Hr), Z.eqb_eq. split; [|auto].
  intros [Hc|]; [|done]. rewrite (ok_count r Hr), (size_members r Hr) in Hc.
  apply (window_empty_iff r Hr), leibniz_equiv, size_empty_iff. lia.
Qed.

(** ** The observers *)

Lemma rb_contains_spec r key : rb_ok r -> rb_contains r key = bool_decide (key ∈ rb_members r).
Proof.
  intros Hr. apply eq_bool_prop_intro. rewrite !Is_true_true, bool_decide_eq_true.
  unfold rb_contains, rb_members. rewrite elem_of_union, elem_of_window. unfold in_window.
  pose proof (ok_range r Hr). destruct (Z.ltb_spec key (rb_max r)), (Z.leb_spec (rb_min r) key).
  - split; [tauto|]. intros [[? ?]|He]; [done|]. apply (ok_excess r Hr) in He. lia.
  - rewrite bool_decide_eq_true. split; [tauto|]. intros [[? ?]|?]; [lia|done].
  - split; [done|]. intros [[? ?]|He]; [lia|]. apply (ok_excess r Hr) in He. lia.
  - split; [done|]. intros [[? ?]|He]; [lia|]. apply (ok_excess r Hr) in He. lia.
Qed.

Lemma get_all_spec r : rb_ok r -> get_all r ≡ₚ elements (rb_members r).
Proof.
  intros Hr. apply NoDup_Permutation.
  - apply NoDup_app. split; [apply NoDup_elements|]. split; [|apply NoDup_filter, NoDup_seqZ].
    intros x He%elem_of_elements [_ Hs%elem_of_seqZ]%list_elem_of_filter.
    apply (ok_excess r Hr) in He. lia.
  - apply NoDup_elements.
  - intros x. unfold get_all, rb_members.
    rewrite elem_of_app, !elem_of_elements, elem_of_union, elem_of_window, list_elem_of_filter, elem_of_seqZ.
    unfold in_window. split.
    + intros [?|[? ?]]; [by right|]. left. split; [lia|done].
    + intros [[? ?]|?]; [|by left]. right. split; [done|lia].
Qed.

(** [min()] is the least member. *)
Lemma rb_minimum_spec r :
  rb_ok r ->
  match rb_minimum r with
  | Some m => m ∈ rb_members r /\ forall x, x ∈ rb_members r -> m <= x
  | None => rb_members r = ∅
  end.
Proof.
  intros Hr. unfold rb_minimum, rb_is_empty, rb_len. destruct (Z.eqb_spec (count r) 0) as [Hc|Hc].
  { apply leibniz_equiv, size_empty_iff. rewrite (ok_count r Hr) in Hc. lia. }
  assert (window r ≠ ∅ -> rb_min r ∈ window r) as Hmin.
  { intros Hw. rewrite (window_empty_iff r Hr) in Hw. pose proof (ok_range r Hr).
    apply elem_of_window. split; [lia|]. apply (ok_first r Hr). lia. }
  assert (forall x, x ∈ window r -> rb_min r <= x) as Hle by (intros x [? _]%elem_of_window; lia).
  case_bool_decide as He.
  - assert (window r ≠ ∅) as Hw.
    { intros Hw. apply Hc. rewrite (ok_count r Hr). unfold rb_members. by rewrite Hw, He. }
    unfold rb_members. rewrite He. set_solver.
  - set (m0 := if all_items_in_excess r then U64_MAX else rb_min r).
    destruct (foldr_min_spec (elements (excess r)) m0) as (H1 & H2 & H3).
    set (m := foldr _ _ _) in *. setoid_rewrite elem_of_elements in H3.
    assert (all_items_in_excess r = true <-> window r = ∅) as Hall.
    { by rewrite (all_items_in_excess_spec r Hr), (window_empty_iff r Hr). }
    destruct (set_choose_L (excess r) He) as [x0 Hx0].
    assert (m < rb_min r) as Hm by (specialize (H3 _ Hx0); pose proof (ok_excess r Hr _ Hx0); lia).
    split.
    + destruct H1 as [H1|H1]; [exfalso|apply elem_of_elements in H1; set_solver].
      pose proof (ok_range r Hr). pose proof (ok_max r Hr). pose proof (ok_width r Hr).
      unfold m0 in H1. destruct (all_items_in_excess r); lia.
    + intros x [Hx|Hx]%elem_of_union; [specialize (Hle _ Hx); lia|auto].
Qed.

(** ** [purge] *)

Lemma first_member_spec r key n :
  match first_member r key n with
  | Some k => key <= k < key + Z.of_nat n /\ contains_assume_in_range r k = true /\
      forall x, key <= x < k -> contains_assume_in_range r x = false
  | None => forall x, key <= x < key + Z.of_nat n -> contains_assume_in_range r x = false
  end.
Proof.
  revert key. induction n as [|n IH]; intros key; cbn [first_member]; [intros x Hx; lia|].
  destruct (contains_assume_in_range r key) eqn:Hk.
  - split_and!; [lia|lia|done|]. intros x Hx. lia.
  - specialize (IH (key + 1)). destruct (first_member r (key + 1) n) as [k|].
    + destruct IH as (? & ? & Hx). split_and!; [lia|lia|done|]. intros x ?.
      destruct (decide (x = key)) as [->|]; [done|]. apply Hx. lia.
    + intros x ?. destruct (decide (x = key)) as [->|]; [done|]. apply IH. lia.
Qed.

(** The state in which [purge r key] is called: [key] has just left the window,
    possibly for [excess]. *)
Record purge_pre r key : Prop := {
  pp_width : 0 < max_width r <= U64_MAX;
  pp_power : is_power_of_two (max_width r) = true;
  pp_bits : bv_len (bits r) = max_width r;
  pp_range : 0 <= rb_min r <= key /\ key < rb_max r;
  pp_max : rb_max r + max_width r <= U64_MAX;
  pp_fits : rb_max r - rb_min r <= max_width r;
  pp_gone : contains_assume_in_range r key = false;
  pp_first : key <> rb_min r -> contains_assume_in_range r (rb_min r) = true;
  pp_set : forall a, 0 <= a < max_width r -> bv_get (bits r) a = true ->
    exists key, in_window r key /\ get_address r key = a;
  pp_excess : forall x, x ∈ excess r -> 0 <= x < rb_min r \/ (x = key /\ key = rb_min r);
  pp_count : count r = Z.of_nat (size (rb_members r));
}.

Lemma purge_pre_nonempty r key :
  purge_pre r key -> (0 <? count r) && negb (all_items_in_excess r) = true <-> window r <> ∅.
Proof.
  intros Hr. assert (window r ## excess r) as Hd.
  { intros x Hx He. apply elem_of_window in Hx as [? Hx]. pose proof (pp_gone r key Hr).
    destruct (pp_excess r key Hr x He) as [?|[-> _]]; [lia|congruence]. }
  unfold all_items_in_excess. rewrite (pp_count r key Hr). unfold rb_members. rewrite size_union by done.
  rewrite andb_true_iff, negb_true_iff, Z.ltb_lt, Z.eqb_neq.
  pose proof (size_empty_iff (window r)) as Hw. rewrite leibniz_equiv_iff in Hw. split.
  - intros [? Hne] ?%Hw. lia.
  - intros Hne. assert (size (window r) <> 0)%nat by (rewrite Hw; done). lia.
Qed.

(** Moving the lower end of the range up to a slot below which nothing is a
    member does not change the window. *)
Lemma window_set_range r lo :
  rb_min r <= lo -> (forall x, in_window r x -> lo <= x) -> window (set_range r lo (rb_max r)) = window r.
Proof.
  intros Hlo Hall. apply set_eq. intros x. rewrite !elem_of_window. split.
  - intros [[? ?] Hx]. split; [cbn in *; lia|done].
  - intros Hx. pose proof (Hall _ Hx). destruct Hx as [? Hx]. split; [cbn; lia|done].
Qed.

Lemma purge_pre_ok r key lo :
  purge_pre r key -> rb_min r <= lo <= rb_max r -> (forall x, in_window r x -> lo <= x) ->
  (lo < rb_max r -> contains_assume_in_range r lo = true) -> (lo = rb_min r -> key <> rb_min r) ->
  rb_ok (set_range r lo (rb_max r)) /\ window (set_range r lo (rb_max r)) = window r.
Proof.
  intros Hr Hlo Hall Hfirst Hne. pose proof (window_set_range r lo ltac:(lia) Hall) as Hw.
  split; [|done]. destruct Hr. split; cbn [set_range max_width rb_min rb_max bits count excess]; try done; try lia.
  - intros a Ha Hget. destruct (pp_set0 a Ha Hget) as (k & Hk & Hka). exists k. split; [|done].
    by rewrite <- elem_of_window, Hw, elem_of_window.
  - intros x Hx. destruct (pp_excess0 x Hx) as [|[-> ?]]; [lia|]. destruct (decide (lo = rb_min r)); naive_solver lia.
  - unfold rb_members. by rewrite Hw.
Qed.

(** [purge] restores the invariant and keeps the members. *)
Lemma purge_ok r key :
  purge_pre r key ->
  rb_ok (purge r key) /\ window (purge r key) = window r /\ excess (purge r key) = excess r /\
  rb_max (purge r key) = rb_max r /\ max_width (purge r key) = max_width r.
Proof.
  intros Hr. pose proof (purge_pre_nonempty r key Hr) as Hne. unfold purge.
  pose proof (pp_range r key Hr). pose proof (pp_max r key Hr). pose proof (pp_width r key Hr).
  destruct ((0 <? count r) && negb (all_items_in_excess r)).
  - destruct (set_choose_L (window r)) as [x0 Hx0%elem_of_window]; [by apply Hne|].
    destruct (Z.eqb_spec key (rb_min r)) as [->|Hk].
    + rewrite add64_small by u64.
      pose proof (first_member_spec r (rb_min r + 1) (Z.to_nat (rb_max r - (rb_min r + 1)))) as Hf.
      rewrite Z2Nat.id in Hf by lia. pose proof (pp_gone r _ Hr) as Hgone.
      assert (rb_min r < x0 < rb_max r /\ contains_assume_in_range r x0 = true) as [Hx1 Hx2].
      { destruct Hx0 as [Hx0 Hc]. split; [|done]. destruct (decide (x0 = rb_min r)); [congruence|lia]. }
      destruct (first_member _ _ _) as [k|]; [|by rewrite Hf in Hx2 by lia].
      destruct Hf as (Hk & Hkc & Hbelow).
      destruct (purge_pre_ok r (rb_min r) k Hr) as [Hok Hw]; [lia| |done|lia|done].
      intros x [Hx Hxc]. destruct (decide (x = rb_min r)); [congruence|].
      destruct (Z.le_gt_cases k x); [done|]. rewrite Hbelow in Hxc by lia. done.
    + split; [|done]. replace r with (set_range r (rb_min r) (rb_max r)) by (by destruct r).
      apply (purge_pre_ok r key); [done|lia|by intros x [? _]; lia|by intros; apply (pp_first r key Hr)|done].
  - assert (window r = ∅) as Hw by (apply dec_stable; intros ?%Hne; done).
    destruct (purge_pre_ok r key (rb_max r) Hr) as [Hok Hw']; [lia| |lia|lia|done].
    intros x Hx%elem_of_window. by rewrite Hw in Hx.
Qed.

(** ** Clearing and setting a bit *)

(** The bits of a window: exactly the addresses of its members. *)
Lemma bit_set_spec r key :
  rb_ok r -> rb_min r <= key < rb_min r + max_width r ->
  contains_assume_in_range r key = true <-> key ∈ window r.
Proof.
  intros Hr Hk. rewrite elem_of_window. split; [|by intros [_ ?]]. intros Hc.
  pose proof (ok_width r Hr). pose proof (ok_fits r Hr).
  destruct (ok_set r Hr (get_address r key)) as (k & Hkw & Hka); [apply get_address_range; lia|done|].
  apply (get_address_inj r (rb_min r)) in Hka as ->; [done|lia| |lia]. destruct Hkw. lia.
Qed.

Lemma contains_set_bits r key b x :
  rb_ok r -> rb_min r <= key < rb_min r + max_width r -> rb_min r <= x < rb_min r + max_width r ->
  bv_get (bv_set (bits r) (get_address r key) b) (get_address r x) =
  if decide (x = key) then b else contains_assume_in_range r x.
Proof.
  intros Hr Hk Hx. pose proof (ok_width r Hr).
  rewrite bv_get_set by (rewrite (ok_bits r Hr); apply get_address_range; lia).
  destruct (Z.eqb_spec (get_address r key) (get_address r x)) as [Heq|Hne].
  - apply (get_address_inj r (rb_min r)) in Heq as ->; [|lia..]. by rewrite decide_True.
  - rewrite decide_False; [done|]. by intros ->.
Qed.

(** Removing the member [key] from the window, before [purge]. *)
Definition clear_bit r key c e : RBF :=
  mkRollingBitField (max_width r) (rb_min r) (rb_max r) (bv_set (bits r) (get_address r key) false) c e.

Lemma clear_bit_window r key c e :
  rb_ok r -> key ∈ window r -> window (clear_bit r key c e) = window r ∖ {[key]}.
Proof.
  intros Hr Hk%elem_of_window. pose proof (ok_fits r Hr). destruct Hk as [Hk Hkc].
  apply set_eq. intros x. rewrite elem_of_difference, elem_of_singleton, !elem_of_window.
  unfold in_window, contains_assume_in_range at 1, get_address at 1.
  cbn [clear_bit max_width rb_min rb_max bits count excess].
  destruct (decide (rb_min r <= x < rb_max r)) as [Hx|Hx]; [|naive_solver].
  change (x mod max_width r) with (get_address r x). rewrite contains_set_bits by (done || lia).
  case_decide; naive_solver.
Qed.

Lemma clear_bit_pre r key c e :
  rb_ok r -> key ∈ window r ->
  (forall x, x ∈ e -> 0 <= x < rb_min r \/ (x = key /\ key = rb_min r)) ->
  c = Z.of_nat (size ((window r ∖ {[key]}) ∪ e)) ->
  purge_pre (clear_bit r key c e) key.
Proof.
  intros Hr Hk He Hc. pose proof (clear_bit_window r key c e Hr Hk) as Hw.
  pose proof Hk as [Hkr Hkc]%elem_of_window. pose proof (ok_fits r Hr). pose proof (ok_width r Hr).
  pose proof (ok_range r Hr).
  split; cbn [clear_bit max_width rb_min rb_max bits count excess]; try apply Hr; try done; try lia.
  - by rewrite bv_len_set, (ok_bits r Hr).
  - unfold contains_assume_in_range. cbn [clear_bit bits]. change (get_address (clear_bit r key c e) key) with (get_address r key).
    rewrite contains_set_bits by (done || lia). by rewrite decide_True.
  - intros Hne. unfold contains_assume_in_range. cbn [clear_bit bits].
    change (get_address (clear_bit r key c e) (rb_min r)) with (get_address r (rb_min r)).
    rewrite contains_set_bits by (done || lia). rewrite decide_False by done. apply (ok_first r Hr). lia.
  - intros a Ha Hget. assert (a <> get_address r key) as Hne.
    { intros ->. rewrite bv_get_set, Z.eqb_refl in Hget; [done|rewrite (ok_bits r Hr); apply get_address_range; lia..]. }
    rewrite bv_get_set in Hget; [|rewrite (ok_bits r Hr); try apply get_address_range; lia..].
    destruct (Z.eqb_spec (get_address r key) a); [congruence|].
    destruct (ok_set r Hr a Ha Hget) as (k & Hkw & Hka). exists k. split; [|done].
    rewrite <- elem_of_window, Hw. apply elem_of_difference. split; [by apply elem_of_window|]. set_solver.
  - unfold rb_members. by rewrite Hw.
Qed.

(** ** [remove] *)

Lemma size_difference_singleton (X : gset Z) key :
  key ∈ X -> Z.of_nat (size (X ∖ {[key]})) = Z.of_nat (size X) - 1.
Proof.
  intros Hk. assert (size ({[key]} : gset Z) <= size X)%nat by (apply subseteq_size; set_solver).
  rewrite size_difference by set_solver. rewrite size_singleton in *. lia.
Qed.

Lemma rb_remove_ok r key :
  rb_ok r ->
  rb_ok (rb_remove r key).1 /\ rb_members (rb_remove r key).1 = rb_members r ∖ {[key]} /\
  (rb_remove r key).2 = bool_decide (key ∈ rb_members r) /\ max_width (rb_remove r key).1 = max_width r.
Proof.
  intros Hr. rewrite <- (rb_contains_spec r key Hr). unfold rb_remove, rb_contains.
  assert (forall k, key ∈ rb_members r -> k = count r - 1 -> sub64 (count r) 1 = k) as Hcount.
  { intros k Hk ->. pose proof (count_bounded r Hr). apply sub64_small.
    assert (size (rb_members r) <> 0)%nat; [|rewrite (ok_count r Hr) in *; u64].
    intros Hs%size_empty_iff. set_solver. }
  assert (rb_contains r key = false -> rb_members r = rb_members r ∖ {[key]}) as Hsame.
  { rewrite (rb_contains_spec r key Hr), bool_decide_eq_false. set_solver. }
  destruct (Z.leb_spec (rb_min r) key), (Z.ltb_spec key (rb_max r)).
  - fold (contains_assume_in_range r key). destruct (contains_assume_in_range r key) eqn:Hc.
    + assert (key ∈ window r) as Hk by (by apply elem_of_window).
      assert (key ∉ excess r) as Hke by (intros Hx%(ok_excess r Hr); lia).
      rewrite (Hcount (count r - 1)) by (done || set_solver). cbn [fst snd].
      change (set_bits _ _) with (clear_bit r key (count r - 1) (excess r)).
      destruct (purge_ok (clear_bit r key (count r - 1) (excess r)) key) as (Hok & Hw & He & _ & Hm).
      { apply clear_bit_pre; [done|done|by left; apply (ok_excess r Hr)|].
        rewrite (ok_count r Hr), <- (size_difference_singleton (rb_members r) key) by set_solver.
        f_equal. f_equal. set_solver. }
      split_and!; [done| |done|by rewrite Hm].
      unfold rb_members at 1. rewrite Hw, He, clear_bit_window by done. cbn [clear_bit excess]. set_solver.
    + split_and!; [done| |done|done]. apply Hsame. unfold rb_contains. zcases; (done || lia).
  - split_and!; [done| |done|done]. apply Hsame. unfold rb_contains. zcases; (done || lia).
  - case_bool_decide as He; cbn [fst snd].
    + assert (window r = window r ∖ {[key]}) as Hwk.
      { apply set_eq. intros x. rewrite elem_of_difference, elem_of_singleton, elem_of_window. unfold in_window.
        naive_solver lia. }
      rewrite (Hcount (count r - 1)) by (done || set_solver).
      assert (rb_members (set_count (set_excess r (excess r ∖ {[key]})) (count r - 1)) = rb_members r ∖ {[key]}) as Hm.
      { change ((window r) ∪ (excess r ∖ {[key]}) = (window r ∪ excess r) ∖ {[key]}). set_solver. }
      split_and!; [|done|done|done]. split; try apply Hr.
      * intros x Hx. apply (ok_excess r Hr). cbn in Hx. set_solver.
      * rewrite Hm, size_difference_singleton by set_solver. cbn. rewrite (ok_count r Hr). lia.
    + split_and!; [done| |done|done]. apply Hsame. unfold rb_contains. zcases; try lia. by apply bool_decide_eq_false.
  - pose proof (ok_range r Hr). lia.
Qed.

(** ** [insert] *)

Lemma add64_count r key :
  rb_ok r -> 0 <= key < U64_MAX -> key ∉ rb_members r ->
  add64 (count r) 1 = Z.of_nat (size ({[key]} ∪ rb_members r)).
Proof.
  intros Hr Hk Hnew. assert (size ({[key]} ∪ rb_members r) = S (size (rb_members r))) as Hs.
  { rewrite size_union by set_solver. by rewrite size_singleton. }
  assert (Z.of_nat (size ({[key]} ∪ rb_members r)) <= U64_MAX).
  { apply size_bounded; [u64|]. intros x [->%elem_of_singleton|Hx]%elem_of_union; [done|]. by eapply members_range. }
  rewrite Hs in *. rewrite (ok_count r Hr). rewrite add64_small; [lia|u64].
Qed.

(** The loop that makes room ends, keeps the members and leaves a window in
    which the new slot fits. *)
Lemma make_room_ok fuel r key :
  rb_ok r -> rb_min r < rb_max r -> rb_max r <= key -> (size (window r) < fuel)%nat ->
  exists r' be, make_room fuel r (key + 1) false = Ok (r', be) /\ rb_ok r' /\
    rb_members r' = rb_members r /\ rb_max r' = rb_max r /\ max_width r' = max_width r /\
    (if be then rb_min r' = rb_max r' else rb_min r' < rb_max r' /\ key + 1 - rb_min r' <= max_width r').
Proof.
  revert r. induction fuel as [|fuel IH]; intros r Hr Hne Hk Hf; [lia|]. cbn [make_room].
  pose proof (ok_range r Hr). unfold saturating_sub64.
  destruct (Z.leb_spec (Z.max (key + 1 - rb_min r) 0) (max_width r)).
  { exists r, false. split_and!; try done; lia. }
  rewrite bool_decide_eq_false_2 by (intros Hx%(ok_excess r Hr); lia).
  assert (rb_min r ∈ window r) as Hin.
  { apply elem_of_window. split; [lia|]. by apply (ok_first r Hr). }
  set (c := clear_bit r (rb_min r) (count r) ({[rb_min r]} ∪ excess r)).
  change (set_bits _ _) with c.
  assert ((window r ∖ {[rb_min r]}) ∪ ({[rb_min r]} ∪ excess r) = rb_members r) as Hm.
  { unfold rb_members. apply set_eq. intros x. destruct (decide (x = rb_min r)); set_solver. }
  destruct (purge_ok c (rb_min r)) as (Hok & Hw & He & Hmax & Hwd).
  { apply clear_bit_pre; [done|done| |by rewrite Hm, (ok_count r Hr)].
    intros x [->%elem_of_singleton|Hx]%elem_of_union; [by right|left; by apply (ok_excess r Hr)]. }
  change (rb_max c) with (rb_max r) in Hmax. change (max_width c) with (max_width r) in Hwd.
  assert (window c = window r ∖ {[rb_min r]}) as Hwc by (by apply clear_bit_window).
  assert (rb_members (purge c (rb_min r)) = rb_members r) as Hmem.
  { unfold rb_members at 1. rewrite Hw, He, Hwc. exact Hm. }
  destruct (all_items_in_excess (purge c (rb_min r))) eqn:Hall.
  - apply (all_items_in_excess_spec _ Hok) in Hall. eexists _, true. split_and!; try done.
  - assert (rb_min (purge c (rb_min r)) ≠ rb_max (purge c (rb_min r))) as Hlt.
    { rewrite <- (all_items_in_excess_spec _ Hok). by rewrite Hall. }
    pose proof (ok_range _ Hok).
    assert (size (window r) = S (size (window r ∖ {[rb_min r]}))) as Hsz.
    { pose proof (size_difference_singleton (window r) (rb_min r) Hin). lia. }
    destruct (IH (purge c (rb_min r)) Hok) as (r' & be & Hrun & Hok' & Hmem' & Hmax' & Hwd' & Hbe);
      [lia|rewrite Hmax; done|rewrite Hw, Hwc; lia|].
    exists r', be. split_and!; try done; congruence.
Qed.

(** The slots that can be inserted: [max_width] below the largest [u64], and
    above everything in [excess] when the window is empty. *)
Definition insertable r key : Prop :=
  0 <= key /\ key + 1 + max_width r <= U64_MAX /\
  (rb_min r = rb_max r -> forall x, x ∈ excess r -> x < key).

Lemma set_bit_window r key c lo hi e :
  rb_ok r -> rb_min r <= key < rb_min r + max_width r -> lo = rb_min r -> hi = Z.max (rb_max r) (key + 1) ->
  window (mkRollingBitField (max_width r) lo hi (bv_set (bits r) (get_address r key) true) c e) =
  {[key]} ∪ window r.
Proof.
  intros Hr Hk -> ->. pose proof (ok_fits r Hr). pose proof (ok_range r Hr).
  apply set_eq. intros x. rewrite elem_of_union, elem_of_singleton, !elem_of_window.
  unfold in_window.
  change (contains_assume_in_range (mkRollingBitField _ _ _ _ _ _) x)
    with (bv_get (bv_set (bits r) (get_address r key) true) (get_address r x)).
  cbn [rb_min rb_max].
  destruct (decide (rb_min r <= x < rb_min r + max_width r)) as [Hx|Hx]; [|naive_solver lia].
  rewrite contains_set_bits by done. case_decide as Hxk; [naive_solver lia|].
  split; [|naive_solver lia]. intros [? Hc]. right. split; [|done].
  apply (bit_set_spec r x Hr Hx) in Hc. by apply elem_of_window in Hc as [? _].
Qed.

Lemma insert_bit_nonempty_ok r key :
  rb_ok r -> key + 1 + max_width r <= U64_MAX -> rb_min r < rb_max r -> rb_min r <= key ->
  key + 1 - rb_min r <= max_width r ->
  exists r', insert_bit r key false = Ok r' /\ rb_ok r' /\ rb_members r' = {[key]} ∪ rb_members r /\
    max_width r' = max_width r /\ rb_min r' < rb_max r'.
Proof.
  intros Hr Hkmax Hne Hk Hfit. pose proof (ok_width r Hr). pose proof (ok_range r Hr).
  pose proof (ok_max r Hr). pose proof (ok_fits r Hr). unfold insert_bit.
  fold (contains_assume_in_range r key). destruct (contains_assume_in_range r key) eqn:Hc.
  { apply bit_set_spec in Hc; [|done|lia]. exists r. split_and!; try done. unfold rb_members. set_solver. }
  assert (key ∉ rb_members r) as Hnew.
  { intros [Hx|Hx]%elem_of_union; [|apply (ok_excess r Hr) in Hx; lia].
    apply bit_set_spec in Hx; [congruence|done|lia]. }
  rewrite (add64_small key 1) by u64. cbn [set_bits set_range set_count max_width rb_min rb_max bits count excess].
  replace (Z.min (rb_min r) key) with (rb_min r) by lia. rewrite (add64_small (rb_min r)) by u64.
  destruct (Z.leb_spec (Z.max (rb_max r) (key + 1)) (rb_min r + max_width r)); [|lia].
  set (r' := mkRollingBitField (max_width r) (rb_min r) (Z.max (rb_max r) (key + 1))
    (bv_set (bits r) (get_address r key) true) (add64 (count r) 1) (excess r)).
  exists r'. split; [done|].
  assert (window r' = {[key]} ∪ window r) as Hw by (apply set_bit_window; (done || lia)).
  assert (rb_members r' = {[key]} ∪ rb_members r) as Hm by (unfold rb_members; rewrite Hw; cbn; set_solver).
  split_and!; [|done|done|cbn; lia].
  split; cbn [r' max_width rb_min rb_max bits count excess]; try apply Hr; try lia.
  - by rewrite bv_len_set, (ok_bits r Hr).
  - intros _. assert (rb_min r ∈ window r') as Hin; [|by apply elem_of_window in Hin as [_ ?]].
    rewrite Hw. apply elem_of_union. right. apply elem_of_window. split; [lia|]. by apply (ok_first r Hr).
  - intros a Ha Hget. setoid_rewrite <- elem_of_window. rewrite Hw.
    destruct (decide (a = get_address r key)) as [->|Hka]; [exists key; set_solver|].
    rewrite bv_get_set in Hget; [|rewrite (ok_bits r Hr); try apply get_address_range; lia..].
    destruct (Z.eqb_spec (get_address r key) a); [congruence|].
    destruct (ok_set r Hr a Ha Hget) as (k & Hkw%elem_of_window & Hk'). exists k. split; [set_solver|done].
  - rewrite Hm. apply add64_count; [done|lia|done].
Qed.

Lemma insert_bit_empty_ok r key :
  rb_ok r -> insertable r key -> rb_min r = rb_max r ->
  exists r', insert_bit r key true = Ok r' /\ rb_ok r' /\ rb_members r' = {[key]} ∪ rb_members r /\
    max_width r' = max_width r /\ rb_min r' < rb_max r'.
Proof.
  intros Hr (Hk0 & Hkmax & Hex) He. specialize (Hex He). pose proof (ok_width r Hr).
  pose proof (proj2 (window_empty_iff r Hr) He) as Hwe.
  assert (forall a, 0 <= a < max_width r -> bv_get (bits r) a = false) as Hclear.
  { intros a Ha. apply not_true_iff_false. intros (k & Hkw%elem_of_window & _)%(ok_set r Hr a Ha). set_solver. }
  unfold insert_bit. rewrite Hclear by (apply get_address_range; lia). rewrite (add64_small key 1) by u64.
  eexists. split; [done|]. set (r' := set_count _ _). pose proof (get_address_range r key ltac:(lia)) as Hka.
  assert (window r' = {[key]}) as Hw.
  { apply set_eq. intros x. rewrite elem_of_window, elem_of_singleton.
    split; [intros [Hx _]; cbn in Hx; lia|]. intros ->. split; [cbn; lia|].
    unfold contains_assume_in_range. cbn. change (get_address r' key) with (get_address r key).
    by rewrite bv_get_set, Z.eqb_refl by (rewrite (ok_bits r Hr); done). }
  assert (rb_members r' = {[key]} ∪ rb_members r) as Hm.
  { unfold rb_members. rewrite Hw, Hwe. cbn. set_solver. }
  assert (key ∉ rb_members r) as Hnew by (unfold rb_members; rewrite Hwe; intros Hx; specialize (Hex key); set_solver by lia).
  split_and!; [|done|done|cbn; lia].
  assert (in_window r' key) as Hin by (apply elem_of_window; rewrite Hw; set_solver).
  split; cbn [r' set_count set_range set_bits max_width rb_min rb_max bits count excess]; try apply Hr; try lia.
  - by rewrite bv_len_set, (ok_bits r Hr).
  - intros _. apply Hin.
  - intros a Ha Hget. exists key. split; [done|]. change (get_address r' key) with (get_address r key).
    rewrite bv_get_set in Hget by (rewrite (ok_bits r Hr); done).
    destruct (Z.eqb_spec (get_address r key) a); [done|]. by rewrite Hclear in Hget.
  - intros x Hx. split; [apply (ok_excess r Hr x Hx)|by apply Hex].
  - rewrite Hm. by apply add64_count; [|lia|].
Qed.

Lemma insert_excess_ok r key :
  rb_ok r -> 0 <= key < rb_min r -> key ∉ excess r ->
  let r' := set_count (set_excess r ({[key]} ∪ excess r)) (add64 (count r) 1) in
  rb_ok r' /\ rb_members r' = {[key]} ∪ rb_members r.
Proof.
  intros Hr Hk Hnew r'. pose proof (ok_range r Hr). pose proof (ok_max r Hr). pose proof (ok_width r Hr).
  assert (rb_members r' = {[key]} ∪ rb_members r) as Hm.
  { change (window r ∪ ({[key]} ∪ excess r) = {[key]} ∪ (window r ∪ excess r)). set_solver. }
  split; [|done]. split; try apply Hr.
  - intros x Hx. change (x ∈ {[key]} ∪ excess r) in Hx.
    apply elem_of_union in Hx as [->%elem_of_singleton|Hx]; [cbn; lia|by apply (ok_excess r Hr)].
  - rewrite Hm. cbn [r' set_count count]. apply add64_count; [done|lia|].
    intros [Hx|Hx]%elem_of_union; [|done]. apply elem_of_window in Hx as [? _]. lia.
Qed.

Lemma rb_insert_ok r key :
  rb_ok r -> insertable r key ->
  exists r', rb_insert r key = Ok r' /\ rb_ok r' /\ rb_members r' = {[key]} ∪ rb_members r /\
    max_width r' = max_width r /\ rb_min r' < rb_max r'.
Proof.
  intros Hr Hk. pose proof Hk as (Hk0 & Hkmax & Hex). pose proof (bits_empty_spec r Hr) as Hbe.
  pose proof (ok_range r Hr). pose proof (ok_fits r Hr). unfold rb_insert.
  destruct ((count r =? 0) || all_items_in_excess r).
  { apply insert_bit_empty_ok; [done|done|by apply Hbe]. }
  assert (rb_min r < rb_max r) as Hne by (assert (rb_min r ≠ rb_max r) by (rewrite <- Hbe; done); lia).
  destruct (Z.ltb_spec key (rb_min r)).
  { case_bool_decide as Hin; [exists r; split_and!; try done; unfold rb_members; set_solver|].
    destruct (insert_excess_ok r key Hr ltac:(lia) Hin). eexists. split_and!; done. }
  destruct (Z.ltb_spec key (rb_max r)); [apply insert_bit_nonempty_ok; (done || lia)|].
  pose proof (ok_width r Hr). rewrite (add64_small key 1) by u64.
  destruct (make_room_ok (S (Z.to_nat (count r))) r key Hr Hne ltac:(done))
    as (r1 & be & -> & Hok & Hmem & Hmax & Hwd & Hb).
  { rewrite (ok_count r Hr), (size_members r Hr). lia. }
  cbn. pose proof (ok_range r1 Hok). destruct be.
  - destruct (insert_bit_empty_ok r1 key Hok) as (r' & ? & ? & Hm' & ? & ?); [|done|].
    { split_and!; [done|lia|]. intros _ x Hx%(ok_excess r1 Hok). lia. }
    exists r'. split_and!; try done; congruence.
  - destruct (insert_bit_nonempty_ok r1 key Hok) as (r' & ? & ? & Hm' & ? & ?); [lia..|].
    exists r'. split_and!; try done; congruence.
Qed.

Lemma RollingBitField_new_ok w r :
  0 < w <= U64_MAX -> RollingBitField_new w = Ok r -> rb_ok r /\ rb_members r = ∅ /\ max_width r = w.
Proof.
  intros Hw. unfold RollingBitField_new. destruct ((0 <? w) && is_power_of_two w) eqn:Hp; [|done].
  apply andb_true_iff in Hp as [_ Hp]. intros [= <-]. set (r := mkRollingBitField _ _ _ _ _ _).
  assert (rb_members r = ∅) as He.
  { apply set_eq. intros x. unfold rb_members. rewrite elem_of_union, elem_of_window. unfold in_window. cbn.
    set_solver by lia. }
  split_and!; [|done|done]. split; try done; cbn [r max_width rb_min rb_max bits count excess]; try lia.
  - apply bv_len_new_fill. lia.
  - intros a Ha Hg. by rewrite bv_get_new_fill in Hg.
Qed.

Lemma rb_clear_ok r :
  rb_ok r -> exists r', rb_clear r = Ok r' /\ rb_ok r' /\ rb_members r' = ∅ /\ max_width r' = max_width r.
Proof.
  intros Hr. unfold rb_clear. destruct (RollingBitField_new (max_width r)) as [r'| |] eqn:Hn.
  - exists r'. split; [done|]. by apply RollingBitField_new_ok; [apply Hr|].
  - unfold RollingBitField_new in Hn. by destruct (_ && _).
  - exfalso. unfold RollingBitField_new in Hn. rewrite (ok_power r Hr) in Hn.
    pose proof (ok_width r Hr). destruct (Z.ltb_spec 0 (max_width r)); [done|lia].
Qed.

(** ** Refinement of a finite set *)

Inductive set_op : Type :=
| SetInsert (key : Z)
| SetRemove (key : Z)
| SetClear.

(** One operation and the boolean it reports ([remove]'s). *)
Definition rb_step r (op : set_op) : outcome fuel_error (RBF * bool) :=
  match op with
  | SetInsert key => r' ← rb_insert r key; mret (r', true)
  | SetRemove key => mret (rb_remove r key)
  | SetClear => r' ← rb_clear r; mret (r', true)
  end.

Definition set_step (X : gset Z) (op : set_op) : gset Z * bool :=
  match op with
  | SetInsert key => ({[key]} ∪ X, true)
  | SetRemove key => (X ∖ {[key]}, bool_decide (key ∈ X))
  | SetClear => (∅, true)
  end.

Fixpoint rb_run r (ops : list set_op) : outcome fuel_error (RBF * list bool) :=
  match ops with
  | [] => mret (r, [])
  | op :: ops => '(r, b) ← rb_step r op; '(r, bs) ← rb_run r ops; mret (r, b :: bs)
  end.

Fixpoint set_run (X : gset Z) (ops : list set_op) : gset Z * list bool :=
  match ops with
  | [] => (X, [])
  | op :: ops => let '(X, b) := set_step X op in let '(X, bs) := set_run X ops in (X, b :: bs)
  end.

(** Every insertion of the run is of a slot the window can take. *)
Fixpoint ops_ok r (ops : list set_op) : Prop :=
  match ops with
  | [] => True
  | op :: ops =>
      match op with SetInsert key => insertable r key | _ => True end /\
      forall r' b, rb_step r op = Ok (r', b) -> ops_ok r' ops
  end.

(** The observations of a set. *)
Definition observes r (X : gset Z) : Prop :=
  (forall key, rb_contains r key = bool_decide (key ∈ X)) /\
  rb_len r = Z.of_nat (size X) /\ rb_is_empty r = bool_decide (X = ∅) /\ get_all r ≡ₚ elements X /\
  match rb_minimum r with
  | Some m => m ∈ X /\ forall x, x ∈ X -> m <= x
  | None => X = ∅
  end.

Lemma rb_ok_observes r : rb_ok r -> observes r (rb_members r).
Proof.
  intros Hr. split_and!; [intros; by apply rb_contains_spec|apply Hr| |by apply get_all_spec|by apply rb_minimum_spec].
  unfold rb_is_empty, rb_len. rewrite (ok_count r Hr). pose proof (size_empty_iff (rb_members r)) as Hs.
  rewrite leibniz_equiv_iff in Hs. case_bool_decide as He; [by rewrite He|].
  apply Z.eqb_neq. rewrite <- Hs in He. lia.
Qed.

Lemma rb_step_refines r op :
  rb_ok r -> match op with SetInsert key => insertable r key | _ => True end ->
  exists r' b, rb_step r op = Ok (r', b) /\ rb_ok r' /\ set_step (rb_members r) op = (rb_members r', b).
Proof.
  intros Hr Hop. destruct op as [key|key|]; cbn.
  - destruct (rb_insert_ok r key Hr Hop) as (r' & -> & Hok & Hm & _). exists r', true. by rewrite Hm.
  - destruct (rb_remove_ok r key Hr) as (Hok & Hm & Hb & _). exists (rb_remove r key).1, (rb_remove r key).2.
    rewrite <- surjective_pairing. split_and!; [done|done|]. by rewrite Hm, Hb.
  - destruct (rb_clear_ok r Hr) as (r' & -> & Hok & Hm & _). exists r', true. by rewrite Hm.
Qed.

(** C29. A rolling bit field refines a finite set. From a well-formed bit field,
    a run of insertions, removals and clears whose insertions the window can
    take (a slot inserted into an empty window is above the older members)
    never panics or loops, returns the answers of the same run on the set of
    its members, and ends in a bit field whose membership test, length,
    emptiness, listing and minimum are those of the resulting set. *)
Theorem rolling_bit_field_refines_set ops r :
  rb_ok r -> ops_ok r ops ->
  exists r' bs, rb_run r ops = Ok (r', bs) /\ rb_ok r' /\
    set_run (rb_members r) ops = (rb_members r', bs) /\ observes r' (rb_members r').
Proof.
  revert r. induction ops as [|op ops IH]; intros r Hr Hops; cbn.
  - exists r, []. split_and!; try done. by apply rb_ok_observes.
  - destruct Hops as [Hop Hops]. destruct (rb_step_refines r op Hr Hop) as (r1 & b & Hs & Hr1 & Ha).
    destruct (IH r1 Hr1 (Hops _ _ Hs)) as (r' & bs & Hrun & Hok & Habs & Hobs).
    exists r', (b :: bs). rewrite Hs, Ha, Habs. cbn. rewrite Hrun. by split_and!.
Qed.
End spec.

(** ** Ancestors *)

Section ancestors.
Context {B : Type} `{BitVec B}.

Definition Ancestors : Type := RollingBitField B.
Definition ANCESTORS_HASH_MAP_SIZE : Z := 8192.

Definition Ancestors_default : outcome fuel_error Ancestors := RollingBitField_new ANCESTORS_HASH_MAP_SIZE.

Fixpoint insert_slots (a : Ancestors) (slots : list Slot) : outcome fuel_error Ancestors :=
  match slots with
  | [] => mret a
  | slot :: slots => a ← rb_insert a slot; insert_slots a slots
  end.

Definition Ancestors_from (source : list Slot) : outcome fuel_error Ancestors :=
  result ← Ancestors_default;
  insert_slots result (merge_sort Z.le source).

Definition ancestors_keys (a : Ancestors) : list Slot := get_all a.
Definition ancestors_get (a : Ancestors) (slot : Slot) : bool := rb_contains a slot.
Definition ancestors_remove (a : Ancestors) (slot : Slot) : Ancestors := (rb_remove a slot).1.
Definition ancestors_contains_key (a : Ancestors) (slot : Slot) : bool := rb_contains a slot.
Definition ancestors_len (a : Ancestors) : Z := rb_len a.
Definition ancestors_is_empty (a : Ancestors) : bool := ancestors_len a =? 0.
Definition ancestors_max_slot (a : Ancestors) : Slot := sub64 (rb_max a) 1.
End ancestors.
Arguments Ancestors : clear implicits.

Section ancestors_spec.
Context {B : Type} `{BitVecLaws B}.
Implicit Types a : Ancestors B.

(** The slots [Ancestors] can hold. *)
Definition ancestor_slot_ok (slot : Slot) : Prop := 0 <= slot /\ slot + 1 + ANCESTORS_HASH_MAP_SIZE <= U64_MAX.

Lemma insert_slots_ok slots a :
  StronglySorted Z.le slots -> Forall ancestor_slot_ok slots -> rb_ok a -> max_width a = ANCESTORS_HASH_MAP_SIZE ->
  (rb_members a = ∅ \/ rb_min a < rb_max a) ->
  exists a', insert_slots a slots = Ok a' /\ rb_ok a' /\ rb_members a' = list_to_set slots ∪ rb_members a.
Proof.
  intros Hs. revert a. induction Hs as [|slot slots Hs IH Hle]; intros a Hslots Ha Hw Hne; cbn.
  - exists a. split_and!; [done|done|set_solver].
  - inversion_clear Hslots as [|?? Hslot Hslots'].
    destruct (rb_insert_ok a slot Ha) as (a1 & -> & Hok & Hm & Hw1 & Hne1).
    { destruct Hslot as [? ?]. split_and!; [done|by rewrite Hw|]. intros He x Hx.
      destruct Hne as [Hne|?]; [|lia]. unfold rb_members in Hne. set_solver. }
    destruct (IH a1 Hslots' Hok) as (a' & Hrun & Hok' & Hm'); [congruence|by right|].
    exists a'. cbn. split_and!; [done|done|]. rewrite Hm', Hm. set_solver.
Qed.

(** [Ancestors::from] holds exactly the slots it was given. *)
Lemma Ancestors_from_ok source :
  Forall ancestor_slot_ok source ->
  exists a, Ancestors_from source = Ok a /\ rb_ok a /\ forall slot, ancestors_get a slot = bool_decide (slot ∈ source).
Proof.
  intros Hsrc. unfold Ancestors_from, Ancestors_default.
  destruct (RollingBitField_new ANCESTORS_HASH_MAP_SIZE) as [a| |] eqn:Hn; [|by vm_compute in Hn..].
  apply RollingBitField_new_ok in Hn as (Ha & Hm & Hw); [|by vm_compute].
  pose proof (merge_sort_Permutation Z.le source) as Hp.
  destruct (insert_slots_ok (merge_sort Z.le source) a) as (a' & Hrun & Hok & Hm');
    [apply StronglySorted_merge_sort; apply _|by rewrite Hp|done|done|by left|].
  exists a'. split_and!; [done|done|]. intros slot. unfold ancestors_get. rewrite (rb_contains_spec a' slot Hok).
  apply bool_decide_ext. rewrite Hm', Hm, union_empty_r_L, elem_of_list_to_set. by rewrite Hp.
Qed.
End ancestors_spec.

(** ** A concrete bit vector *)

#[global] Instance list_BitVec : BitVec (list bool) := {
  bv_new_fill b n := replicate (Z.to_nat n) b;
  bv_len v := Z.of_nat (length v);
  bv_get v i := default false (v !! Z.to_nat i);
  bv_set v i b := <[Z.to_nat i := b]> v;
}.

#[global] Instance list_BitVecLaws : BitVecLaws (list bool).
Proof.
  split; cbn.
  - intros b n Hn. rewrite length_replicate. lia.
  - intros b n i Hi. by rewrite lookup_replicate_2 by lia.
  - intros v i b. by rewrite length_insert.
  - intros v i j b Hi Hj. destruct (Z.eqb_spec i j) as [->|Hne].
    + by rewrite list_lookup_insert_eq by lia.
    + by rewrite list_lookup_insert_ne by lia.
Qed.

Module BitFieldExample.
Definition field : RollingBitField (list bool) := default (mkRollingBitField 0 0 0 [] 0 ∅) (ok (RollingBitField_new 4)).

Lemma field_ok : rb_ok field /\ rb_members field = ∅.
Proof. destruct (RollingBitField_new_ok 4 field) as (? & ? & _); [done|reflexivity|done]. Qed.

(** The window moves over 3, 5 and 9, leaving the first two behind. *)
Definition ops : list set_op := [SetInsert 3; SetInsert 5; SetInsert 9; SetInsert 4; SetRemove 5; SetRemove 6].

Definition insertableb (r : RollingBitField (list bool)) (key : Z) : bool :=
  (0 <=? key) && (key + 1 + max_width r <=? U64_MAX) &&
  ((rb_min r <? rb_max r) || forallb (fun x => x <? key) (elements (excess r))).

Fixpoint ops_okb (r : RollingBitField (list bool)) (ops : list set_op) : bool :=
  match ops with
  | [] => true
  | op :: ops =>
      match op with SetInsert key => insertableb r key | _ => true end &&
      match rb_step r op with Ok (r', _) => ops_okb r' ops | _ => true end
  end.

Lemma ops_okb_spec r ops : ops_okb r ops = true -> ops_ok r ops.
Proof.
  revert r. induction ops as [|op ops IH]; intros r; cbn; [done|]. intros [Hop Hrest]%andb_true_iff. split.
  - destruct op as [key| |]; [|done..]. unfold insertableb in Hop.
    apply andb_true_iff in Hop as [[? ?]%andb_true_iff Hex]. split_and!; [lia|lia|]. intros He x Hx.
    apply orb_true_iff in Hex as [?|Hex]; [lia|]. rewrite forallb_forall in Hex.
    apply Z.ltb_lt, Hex, list_elem_of_In, elem_of_elements, Hx.
  - intros r' b Hs. rewrite Hs in Hrest. by apply IH.
Qed.

Lemma rolling_bit_field_refines_set_witness :
  rb_ok field /\ ops_ok field ops /\
  exists r' bs, rb_run field ops = Ok (r', bs) /\ rb_ok r' /\
    set_run (rb_members field) ops = (rb_members r', bs) /\ observes r' (rb_members r').
Proof.
  assert (ops_ok field ops) as Hops by (apply ops_okb_spec; vm_compute; reflexivity).
  split; [apply field_ok|]. split; [exact Hops|].
  exact (rolling_bit_field_refines_set ops field (proj1 field_ok) Hops).
Defined.

(** The condition on insertions is needed: with 5 moved to [excess] and the
    window emptied again, inserting 3 makes the bit field forget 5, although
    it still counts it. *)
Lemma insert_below_excess_forgets :
  exists r bs, rb_run field [SetInsert 5; SetInsert 10; SetRemove 10; SetInsert 3] = Ok (r, bs) /\
    rb_contains r 5 = false /\ rb_len r = 2.
Proof. eexists _, _. vm_compute. done. Qed.
End BitFieldExample.
