(* ===== verification/BlockhashQueue.v ===== *)
(** * Blockhash queue

    [runtime/src/blockhash_queue.rs]: the recent blockhashes of a bank with
    their ages. The time of a registration ([timestamp()]) is an argument. *)
From stdpp Require Import base numbers option list gmap.
From S2P Require Import Prelude.

Definition MAX_RECENT_BLOCKHASHES : Z := 300.
Definition MAX_PROCESSING_AGE : Z := 150.

Record HashAge : Type := mkHashAge {
  (** [fee_calculator.lamports_per_signature] *)
  ha_lamports_per_signature : Z;
  ha_hash_height : Z;
  ha_timestamp : Z;
}.

Record BlockhashQueue : Type := mkBlockhashQueue {
  bq_hash_height : Z;
  bq_last_hash : option Hash;
  bq_ages : gmap Hash HashAge;
  bq_max_age : Z;
}.

Definition BlockhashQueue_new (max_age : Z) : BlockhashQueue := mkBlockhashQueue 0 None ∅ max_age.

(** [last_hash]: panics when no hash has been set. *)
Definition last_hash {E} (q : BlockhashQueue) : outcome E Hash := unwrap (bq_last_hash q).

Definition queue_lamports_per_signature (q : BlockhashQueue) (hash : Hash) : option Z :=
  ha_lamports_per_signature <$> bq_ages q !! hash.

Definition check_hash_age (q : BlockhashQueue) (hash : Hash) (max_age : Z) : option bool :=
  (fun age => sub64 (bq_hash_height q) (ha_hash_height age) <=? max_age) <$> bq_ages q !! hash.

Definition get_hash_age (q : BlockhashQueue) (hash : Hash) : option Z :=
  (fun age => sub64 (bq_hash_height q) (ha_hash_height age)) <$> bq_ages q !! hash.

Definition check_hash (q : BlockhashQueue) (hash : Hash) : bool := bool_decide (is_Some (bq_ages q !! hash)).

Definition queue_genesis_hash (q : BlockhashQueue) (hash : Hash) (lamports_per_signature now : Z) : BlockhashQueue :=
  mkBlockhashQueue (bq_hash_height q) (Some hash)
    (<[hash := mkHashAge lamports_per_signature 0 now]> (bq_ages q)) (bq_max_age q).

Definition queue_check_age (hash_height max_age : Z) (age : HashAge) : bool :=
  sub64 hash_height (ha_hash_height age) <=? max_age.

Definition register_hash (q : BlockhashQueue) (hash : Hash) (lamports_per_signature now : Z) : BlockhashQueue :=
  let hash_height := add64 (bq_hash_height q) 1 in
  let max_age := bq_max_age q in
  let ages :=
    if max_age <=? Z.of_nat (size (bq_ages q))
    then filter (fun p => queue_check_age hash_height max_age p.2 = true) (bq_ages q) else bq_ages q in
  mkBlockhashQueue hash_height (Some hash)
    (<[hash := mkHashAge lamports_per_signature hash_height now]> ages) max_age.

(** The order in which the hash map iterates is left to [map_to_list]. *)
Definition hash_height_to_timestamp (q : BlockhashQueue) (hash_height : Z) : option Z :=
  (fun p => ha_timestamp p.2.2) <$> list_find (fun p => ha_hash_height p.2 = hash_height) (map_to_list (bq_ages q)).

Definition get_recent_blockhashes (q : BlockhashQueue) : list (Z * Hash * Z) :=
  (fun p => (ha_hash_height p.2, p.1, ha_lamports_per_signature p.2)) <$> map_to_list (bq_ages q).

(** [len] *)
Definition queue_len (q : BlockhashQueue) : Z := bq_max_age q.

(** ** The history of a queue

    [hist] lists the hashes registered so far, the genesis hash first, so that
    a hash has the height of its place. *)
Record queue_history (q : BlockhashQueue) (hist : list Hash) : Prop := {
  qh_height : Z.of_nat (length hist) = bq_hash_height q + 1;
  qh_u64 : in_u64 (bq_hash_height q);
  qh_max_age : 0 < bq_max_age q;
  qh_last : bq_last_hash q = last hist;
  qh_nodup : NoDup hist;
  (** exactly the hashes of the last [max_age + 1] heights are kept *)
  qh_ages : forall hash age, bq_ages q !! hash = Some age ->
    hist !! Z.to_nat (ha_hash_height age) = Some hash /\
    bq_hash_height q - bq_max_age q <= ha_hash_height age /\ 0 <= ha_hash_height age <= bq_hash_height q;
  qh_recent : forall i hash, hist !! i = Some hash -> bq_hash_height q - bq_max_age q <= Z.of_nat i ->
    exists age, bq_ages q !! hash = Some age /\ ha_hash_height age = Z.of_nat i;
}.

Lemma queue_history_genesis max_age hash lps now :
  0 < max_age -> queue_history (queue_genesis_hash (BlockhashQueue_new max_age) hash lps now) [hash].
Proof.
  intros Hm. split; cbn; try done; try lia; try u64.
  - apply NoDup_singleton.
  - intros h age [[<- <-]|[_ ?]]%lookup_insert_Some; [|set_solver]. cbn. split_and!; [done|lia|lia|lia].
  - intros [|i] h; cbn; [|done]. intros [= <-] _. eexists. by rewrite lookup_insert_eq.
Qed.

(** A queue that has seen more than [max_age] hashes holds at least [max_age]. *)
Lemma queue_full q hist :
  queue_history q hist -> bq_max_age q <= bq_hash_height q -> bq_max_age q <= Z.of_nat (size (bq_ages q)).
Proof.
  intros Hq Hh. pose proof (qh_height q hist Hq). pose proof (qh_max_age q hist Hq).
  set (n := Z.to_nat (bq_hash_height q + 1 - bq_max_age q)).
  assert (list_to_set (drop n hist) ⊆ dom (bq_ages q)) as Hsub.
  { intros h Hin. apply elem_of_list_to_set in Hin. apply elem_of_drop_lookup in Hin as (i & Hi & Hle).
    destruct (qh_recent q hist Hq i h Hi) as (age & Ha & _); [lia|]. by apply elem_of_dom. }
  apply subseteq_size in Hsub. rewrite size_dom, size_list_to_set in Hsub.
  - rewrite length_drop in Hsub. lia.
  - pose proof (qh_nodup q hist Hq) as Hnd. rewrite <- (take_drop n hist) in Hnd.
    by apply NoDup_app in Hnd as (_ & _ & ?).
Qed.

Lemma queue_history_register q hist hash lps now :
  queue_history q hist -> hash ∉ hist -> bq_hash_height q < U64_MAX ->
  queue_history (register_hash q hash lps now) (hist ++ [hash]).
Proof.
  intros Hq Hnew Hlt. pose proof (qh_height q hist Hq) as Hh. pose proof (qh_max_age q hist Hq).
  pose proof (queue_full q hist Hq) as Hfull.
  pose proof (qh_u64 q hist Hq) as H0.
  unfold register_hash. rewrite add64_small by u64.
  set (ages := if _ <=? _ then _ else _).
  assert (forall h age, ages !! h = Some age <->
    bq_ages q !! h = Some age /\ bq_hash_height q + 1 - bq_max_age q <= ha_hash_height age) as Hages.
  { intros h age. subst ages. destruct (Z.leb_spec (bq_max_age q) (Z.of_nat (size (bq_ages q)))).
    - rewrite map_lookup_filter_Some. cbn. unfold queue_check_age.
      split; intros [Ha Hc]; (split; [done|]); destruct (qh_ages q hist Hq _ _ Ha) as (_ & _ & ?);
        rewrite sub64_small, Z.leb_le in * by u64; lia.
    - split; [|by intros [? _]]. intros Ha. split; [done|].
      destruct (qh_ages q hist Hq _ _ Ha) as (_ & ? & ?). lia. }
  split; cbn [bq_hash_height bq_last_hash bq_ages bq_max_age]; try lia; try u64.
  - rewrite length_app. cbn. lia.
  - by rewrite last_snoc.
  - apply NoDup_app. split_and!; [apply Hq|set_solver|apply NoDup_singleton].
  - intros h age [[<- <-]|[Hne [Ha ?]%Hages]]%lookup_insert_Some; cbn [ha_hash_height].
    + split_and!; [|lia|lia|lia]. rewrite lookup_app_r by lia.
      replace (Z.to_nat _ - length hist)%nat with 0%nat by lia. done.
    + destruct (qh_ages q hist Hq _ _ Ha) as (Hl & ? & ?). split_and!; [|lia|lia|lia].
      by apply lookup_app_l_Some.
  - intros i h [Hi|[Hle Hi]]%lookup_app_Some Hrec.
    + assert (h <> hash) by (intros ->; by apply Hnew, list_elem_of_lookup_2 with i).
      destruct (qh_recent q hist Hq i h Hi ltac:(lia)) as (age & Ha & Hai). exists age.
      split; [|done]. rewrite lookup_insert_ne by done. apply Hages. split; [done|lia].
    + apply list_lookup_singleton_Some in Hi as [Hi <-]. eexists. rewrite lookup_insert_eq. split; [done|].
      cbn. lia.
Qed.

(** The answer of [check_hash_age]: known exactly for the hashes of the last
    [max_age + 1] heights, and their age is their distance from the end. *)
Lemma check_hash_age_spec q hist hash max_age :
  queue_history q hist ->
  match check_hash_age q hash max_age with
  | Some b => exists i, hist !! i = Some hash /\ bq_hash_height q - bq_max_age q <= Z.of_nat i /\
      b = (bq_hash_height q - Z.of_nat i <=? max_age)
  | None => forall i, hist !! i = Some hash -> Z.of_nat i < bq_hash_height q - bq_max_age q
  end.
Proof.
  intros Hq. unfold check_hash_age. destruct (bq_ages q !! hash) as [age|] eqn:Ha; cbn.
  - destruct (qh_ages q hist Hq _ _ Ha) as (Hl & ? & ?). exists (Z.to_nat (ha_hash_height age)).
    pose proof (qh_u64 q hist Hq). rewrite sub64_small by u64. split_and!; [done|lia|]. f_equal. lia.
  - intros i Hi. destruct (Z.lt_ge_cases (Z.of_nat i) (bq_hash_height q - bq_max_age q)); [done|].
    destruct (qh_recent q hist Hq i hash Hi ltac:(lia)) as (age & ? & _). congruence.
Qed.
