(* ===== verification/StatusCache.v ===== *)
(** * Status cache

    [runtime/src/status_cache.rs]: the statuses of the recent transactions, by
    blockhash and by a 20-byte slice of their key (the message hash or the
    signature), on every fork. The offset of the slices of a blockhash is chosen
    at random; the choice is an argument. The cache refines a log of statuses
    from which old ones may be dropped. *)
From stdpp Require Import base numbers option list gmap sets.
From S2P Require Import Prelude.

Definition MAX_CACHE_ENTRIES : nat := 300.
Definition CACHED_KEY_SIZE : nat := 20.

Abbreviation KeySlice := (list Z) (only parsing).
Abbreviation ForkStatus T := (list (Slot * T)) (only parsing).
Abbreviation KeyMap T := (gmap KeySlice (ForkStatus T)) (only parsing).
(** The statuses added in a slot, by blockhash, with the offset of the slices. *)
Abbreviation Status T := (gmap Hash (nat * list (KeySlice * T))) (only parsing).
(** [SlotDelta]; the statuses as they are at the call, while the code shares them. *)
Abbreviation SlotDelta T := (Slot * bool * Status T)%type (only parsing).

Section cache.
Context {T : Type}.

(** The tuple [(Slot, usize, KeyMap)]: the highest slot in which a transaction
    with the blockhash was recorded, the offset of its slices, the statuses. *)
Record HashEntry : Type := mkHashEntry {
  he_slot : Slot;
  he_key_index : nat;
  he_keys : KeyMap T;
}.

Record StatusCache : Type := mkStatusCache {
  sc_cache : gmap Hash HashEntry;
  sc_roots : gset Slot;
  sc_slot_deltas : gmap Slot (Status T);
}.

Definition StatusCache_default : StatusCache := mkStatusCache ∅ {[0]} ∅.

Definition max_key_index (key : list Z) : nat := length key - (CACHED_KEY_SIZE + 1).

(** [key[index..index + CACHED_KEY_SIZE]]: out of range when the key is too short. *)
Definition key_slice_at (key : list Z) (index : nat) : option KeySlice :=
  if decide (index + CACHED_KEY_SIZE <= length key)%nat then Some (take CACHED_KEY_SIZE (drop index key)) else None.

Definition get_status {E : Type} (c : StatusCache) (key : list Z) (transaction_blockhash : Hash) (ancestors : Slot -> bool)
  : outcome E (option (Slot * T)) :=
  match sc_cache c !! transaction_blockhash with
  | None => Ok None
  | Some map =>
      key_slice ← unwrap (key_slice_at key (Nat.min (he_key_index map) (max_key_index key)));
      match he_keys map !! key_slice with
      | Some stored_forks =>
          Ok (snd <$> list_find (fun p => ancestors p.1 || bool_decide (p.1 ∈ sc_roots c) = true) stored_forks)
      | None => Ok None
      end
  end.

Fixpoint status_any_blockhash {E : Type} (c : StatusCache) (key : list Z) (ancestors : Slot -> bool) (keys : list Hash)
  : outcome E (option (Slot * T)) :=
  match keys with
  | [] => Ok None
  | blockhash :: keys =>
      status ← get_status c key blockhash ancestors;
      match status with Some s => Ok (Some s) | None => status_any_blockhash c key ancestors keys end
  end.

Definition get_status_any_blockhash {E : Type} (c : StatusCache) (key : list Z) (ancestors : Slot -> bool)
  : outcome E (option (Slot * T)) :=
  status_any_blockhash c key ancestors (map_to_list (sc_cache c)).*1.

(** [roots.iter().min()] *)
Definition min_root (roots : gset Slot) : option Slot :=
  match elements roots with [] => None | r :: rs => Some (foldr Z.min r rs) end.

Definition purge_roots (c : StatusCache) : StatusCache :=
  if decide (MAX_CACHE_ENTRIES < size (sc_roots c))%nat then
    match min_root (sc_roots c) with
    | Some min =>
        mkStatusCache (filter (fun p => min < he_slot p.2) (sc_cache c)) (sc_roots c ∖ {[min]})
          (filter (fun p => min < p.1) (sc_slot_deltas c))
    | None => c
    end
  else c.

Definition add_root (c : StatusCache) (fork : Slot) : StatusCache :=
  purge_roots (mkStatusCache (sc_cache c) ({[fork]} ∪ sc_roots c) (sc_slot_deltas c)).

Definition insert_with_slice (c : StatusCache) (transaction_blockhash : Hash) (slot : Slot) (key_index : nat)
  (key_slice : KeySlice) (res : T) : StatusCache :=
  let hash_map := default (mkHashEntry slot key_index ∅) (sc_cache c !! transaction_blockhash) in
  let forks := default [] (he_keys hash_map !! key_slice) in
  let hash_map := mkHashEntry (Z.max slot (he_slot hash_map)) (he_key_index hash_map)
    (<[key_slice := forks ++ [(slot, res)]]> (he_keys hash_map)) in
  let fork_entry := default ∅ (sc_slot_deltas c !! slot) in
  let '(index, hash_entry) := default (key_index, []) (fork_entry !! transaction_blockhash) in
  mkStatusCache (<[transaction_blockhash := hash_map]> (sc_cache c)) (sc_roots c)
    (<[slot := <[transaction_blockhash := (index, hash_entry ++ [(key_slice, res)])]> fork_entry]> (sc_slot_deltas c)).

(** [insert]; [choice] is [thread_rng().gen_range(0, max_key_index + 1)]. *)
Definition status_insert {E : Type} (choice : nat) (c : StatusCache) (transaction_blockhash : Hash) (key : list Z) (slot : Slot)
  (res : T) : outcome E StatusCache :=
  let hash_map := default (mkHashEntry slot choice ∅) (sc_cache c !! transaction_blockhash) in
  let hash_map := mkHashEntry (Z.max slot (he_slot hash_map)) (he_key_index hash_map) (he_keys hash_map) in
  let c := mkStatusCache (<[transaction_blockhash := hash_map]> (sc_cache c)) (sc_roots c) (sc_slot_deltas c) in
  let key_index := Nat.min (he_key_index hash_map) (max_key_index key) in
  key_slice ← unwrap (key_slice_at key key_index);
  Ok (insert_with_slice c transaction_blockhash slot key_index key_slice res).

(** The inner loop of [clear_slot_entries], over the keys of one blockhash. *)
Fixpoint clear_keys {E : Type} (slot : Slot) (all_hash_maps : KeyMap T) (key_list : list (KeySlice * T)) : outcome E (KeyMap T) :=
  match key_list with
  | [] => Ok all_hash_maps
  | (key_slice, _) :: key_list =>
      match all_hash_maps !! key_slice with
      | Some forks =>
          let forks := filter (fun p => p.1 <> slot) forks in
          clear_keys slot
            (if decide (length forks = 0%nat) then delete key_slice all_hash_maps
             else <[key_slice := forks]> all_hash_maps) key_list
      | None => Panic
      end
  end.

Fixpoint clear_hashes {E : Type} (slot : Slot) (cache : gmap Hash HashEntry) (deltas : list (Hash * (nat * list (KeySlice * T))))
  : outcome E (gmap Hash HashEntry) :=
  match deltas with
  | [] => Ok cache
  | (blockhash, (_, key_list)) :: deltas =>
      match cache !! blockhash with
      | Some e =>
          keys ← clear_keys slot (he_keys e) key_list;
          clear_hashes slot
            (if decide (keys = ∅) then delete blockhash cache
             else <[blockhash := mkHashEntry (he_slot e) (he_key_index e) keys]> cache) deltas
      | None => Panic
      end
  end.

Definition clear_slot_entries {E : Type} (c : StatusCache) (slot : Slot) : outcome E StatusCache :=
  match sc_slot_deltas c !! slot with
  | Some deltas =>
      cache ← clear_hashes slot (sc_cache c) (map_to_list deltas);
      Ok (mkStatusCache cache (sc_roots c) (delete slot (sc_slot_deltas c)))
  | None => Ok c
  end.

(** [clear], for tests *)
Definition status_clear (c : StatusCache) : StatusCache :=
  mkStatusCache ((fun e => mkHashEntry (he_slot e) (he_key_index e) ∅) <$> sc_cache c) (sc_roots c)
    ((fun _ => ∅) <$> sc_slot_deltas c).

Definition slot_deltas (c : StatusCache) (slots : list Slot) : list (SlotDelta T) :=
  (fun slot => (slot, bool_decide (slot ∈ sc_roots c), default ∅ (sc_slot_deltas c !! slot))) <$> slots.

Definition append_delta (c : StatusCache) (delta : SlotDelta T) : StatusCache :=
  let '(slot, is_root, statuses) := delta in
  let c := foldl (fun c '(tx_hash, (key_index, statuses)) =>
    foldl (fun c '(key_slice, res) => insert_with_slice c tx_hash slot key_index key_slice res) c statuses)
    c (map_to_list statuses) in
  if is_root then add_root c slot else c.

Definition status_append (c : StatusCache) (slot_deltas : list (SlotDelta T)) : StatusCache := foldl append_delta c slot_deltas.

Definition from_slot_deltas (slot_deltas : list (SlotDelta T)) : StatusCache := status_append StatusCache_default slot_deltas.
End cache.
Arguments HashEntry : clear implicits.
Arguments StatusCache : clear implicits.

(** ** The log of statuses *)

Section log.
Context {T : Type}.

Record StatusEntry : Type := mkStatusEntry {
  se_blockhash : Hash;
  se_key_slice : KeySlice;
  se_slot : Slot;
  se_status : T;
}.

(** The recorded statuses in order, the offsets of the slices, the roots and
    the highest root dropped so far. *)
Record StatusLog : Type := mkStatusLog {
  sl_entries : list StatusEntry;
  sl_index : gmap Hash nat;
  sl_roots : gset Slot;
  sl_purged : Slot;
}.

Definition StatusLog_default : StatusLog := mkStatusLog [] ∅ {[0]} (-1).

Definition log_forks (l : list StatusEntry) (h : Hash) (k : KeySlice) : list (Slot * T) :=
  (fun e => (se_slot e, se_status e)) <$> filter (fun e => se_blockhash e = h /\ se_key_slice e = k) l.
Definition log_deltas (l : list StatusEntry) (s : Slot) (h : Hash) : list (KeySlice * T) :=
  (fun e => (se_key_slice e, se_status e)) <$> filter (fun e => se_blockhash e = h /\ se_slot e = s) l.

Definition slice_of (l : StatusLog) (h : Hash) (key : list Z) : option KeySlice :=
  index ← sl_index l !! h; key_slice_at key (Nat.min index (max_key_index key)).

(** The first status recorded for the key on one of the ancestors or roots. *)
Definition log_get (l : StatusLog) (key : list Z) (h : Hash) (ancestors : Slot -> bool) : option (Slot * T) :=
  k ← slice_of l h key;
  snd <$> list_find (fun p => ancestors p.1 || bool_decide (p.1 ∈ sl_roots l) = true) (log_forks (sl_entries l) h k).

Inductive cache_op : Type :=
| CacheInsert (choice : nat) (blockhash : Hash) (key : list Z) (slot : Slot) (res : T)
| CacheAddRoot (fork : Slot)
| CacheClearSlot (slot : Slot).

(** The specification: an insertion appends a status; a root that makes more
    than [MAX_CACHE_ENTRIES] drops the lowest one together with some statuses
    of slots up to it, and none of later slots; clearing a slot removes its
    statuses. *)
Inductive log_step (l : StatusLog) : cache_op -> StatusLog -> Prop :=
| log_insert choice h key slot res index k :
    (forall i, sl_index l !! h = Some i -> (exists e, e ∈ sl_entries l /\ se_blockhash e = h) -> index = i) ->
    key_slice_at key (Nat.min index (max_key_index key)) = Some k ->
    log_step l (CacheInsert choice h key slot res)
      (mkStatusLog (sl_entries l ++ [mkStatusEntry h k slot res]) (<[h := index]> (sl_index l)) (sl_roots l) (sl_purged l))
| log_root fork :
    (size ({[fork]} ∪ sl_roots l) <= MAX_CACHE_ENTRIES)%nat ->
    log_step l (CacheAddRoot fork)
      (mkStatusLog (sl_entries l) (sl_index l) ({[fork]} ∪ sl_roots l) (sl_purged l))
| log_root_purge fork min (keep : StatusEntry -> bool) :
    (MAX_CACHE_ENTRIES < size ({[fork]} ∪ sl_roots l))%nat ->
    min ∈ {[fork]} ∪ sl_roots l -> (forall r, r ∈ {[fork]} ∪ sl_roots l -> min <= r) ->
    (forall e, e ∈ sl_entries l -> min < se_slot e -> keep e = true) ->
    log_step l (CacheAddRoot fork)
      (mkStatusLog (filter (fun e => keep e = true) (sl_entries l)) (sl_index l)
        (({[fork]} ∪ sl_roots l) ∖ {[min]}) (Z.max (sl_purged l) min))
| log_clear slot :
    log_step l (CacheClearSlot slot)
      (mkStatusLog (filter (fun e => se_slot e <> slot) (sl_entries l)) (sl_index l) (sl_roots l) (sl_purged l)).

(** What the callers ensure: keys are long enough for the chosen offset,
    statuses are recorded in, and cleared from, slots above the dropped roots,
    and no slice was recorded twice in a slot that is cleared. *)
Definition op_ok (l : StatusLog) (op : cache_op) : Prop :=
  match op with
  | CacheInsert choice h key slot res =>
      (CACHED_KEY_SIZE < length key)%nat /\ sl_purged l < slot
  | CacheAddRoot fork => 0 <= fork
  | CacheClearSlot slot => sl_purged l < slot /\ forall h, NoDup (log_deltas (sl_entries l) slot h).*1
  end.

(** The roots in the cache are the highest ones. *)
Record log_ok (l : StatusLog) : Prop := {
  lo_bound : -1 <= sl_purged l;
  lo_size : (size (sl_roots l) <= MAX_CACHE_ENTRIES)%nat;
  lo_purged : 0 <= sl_purged l -> size (sl_roots l) = MAX_CACHE_ENTRIES;
  lo_above : forall r, r ∈ sl_roots l -> sl_purged l < r;
}.

Definition cache_step {E : Type} (c : StatusCache T) (op : cache_op) : outcome E (StatusCache T) :=
  match op with
  | CacheInsert choice h key slot res => status_insert choice c h key slot res
  | CacheAddRoot fork => Ok (add_root c fork)
  | CacheClearSlot slot => clear_slot_entries c slot
  end.

(** ** Representation *)

Definition nonempty {A} (l : list A) : option (list A) := match l with [] => None | _ => Some l end.

Record represents (c : StatusCache T) (l : StatusLog) : Prop := {
  rp_keys : forall h e k, sc_cache c !! h = Some e -> he_keys e !! k = nonempty (log_forks (sl_entries l) h k);
  rp_cached : forall h, is_Some (sc_cache c !! h) <-> exists e, e ∈ sl_entries l /\ se_blockhash e = h;
  rp_index : forall h e, sc_cache c !! h = Some e -> sl_index l !! h = Some (he_key_index e);
  rp_slot : forall h e x, sc_cache c !! h = Some e -> x ∈ sl_entries l -> se_blockhash x = h -> se_slot x <= he_slot e;
  rp_roots : sc_roots c = sl_roots l;
  rp_delta : forall s st h i ks, sc_slot_deltas c !! s = Some st -> st !! h = Some (i, ks) ->
    sl_purged l < s /\ ks = log_deltas (sl_entries l) s h /\ ks <> [];
  rp_recent : forall x, x ∈ sl_entries l -> sl_purged l < se_slot x ->
    exists st i ks, sc_slot_deltas c !! se_slot x = Some st /\ st !! se_blockhash x = Some (i, ks);
}.

Lemma represents_default : represents StatusCache_default StatusLog_default.
Proof. split; cbn; try done; try set_solver. intros h. split; [by intros [? ?]|set_solver]. Qed.

(** ** Lemmas on the log *)

Lemma log_forks_elem l h k p :
  p ∈ log_forks l h k <->
  exists x, x ∈ l /\ se_blockhash x = h /\ se_key_slice x = k /\ p = (se_slot x, se_status x).
Proof. unfold log_forks. rewrite list_elem_of_fmap. setoid_rewrite list_elem_of_filter. naive_solver. Qed.

Lemma log_forks_nil l h k :
  log_forks l h k = [] <-> forall x, x ∈ l -> se_blockhash x = h -> se_key_slice x <> k.
Proof.
  split.
  - intros Hn x Hx Hh Hk. assert ((se_slot x, se_status x) ∈ log_forks l h k) as Hp; [|rewrite Hn in Hp; set_solver].
    apply log_forks_elem. eauto 10.
  - intros Hall. destruct (log_forks l h k) as [|p f] eqn:Hf; [done|exfalso].
    assert (p ∈ log_forks l h k) as (x & ? & ? & ? & _)%log_forks_elem by (rewrite Hf; left). by eapply Hall.
Qed.

Lemma log_forks_app l1 l2 h k : log_forks (l1 ++ l2) h k = log_forks l1 h k ++ log_forks l2 h k.
Proof. unfold log_forks. by rewrite filter_app, fmap_app. Qed.

Lemma log_deltas_app l1 l2 s h : log_deltas (l1 ++ l2) s h = log_deltas l1 s h ++ log_deltas l2 s h.
Proof. unfold log_deltas. by rewrite filter_app, fmap_app. Qed.

Lemma log_forks_singleton h k s r h' k' :
  log_forks [mkStatusEntry h k s r] h' k' = if decide (h = h' /\ k = k') then [(s, r)] else [].
Proof. unfold log_forks. by case_decide; rewrite filter_cons; cbn; case_decide. Qed.

Lemma log_deltas_singleton h k s r s' h' :
  log_deltas [mkStatusEntry h k s r] s' h' = if decide (h = h' /\ s = s') then [(k, r)] else [].
Proof. unfold log_deltas. by case_decide; rewrite filter_cons; cbn; case_decide. Qed.

Lemma nonempty_app_singleton {A} (l : list A) x : nonempty (l ++ [x]) = Some (l ++ [x]).
Proof. by destruct l. Qed.

(** ** The cache answers as the log does *)

Lemma key_slice_at_long (key : list Z) index :
  (CACHED_KEY_SIZE < length key)%nat -> is_Some (key_slice_at key (Nat.min index (max_key_index key))).
Proof.
  intros Hlen. unfold key_slice_at, max_key_index. rewrite decide_True; [done|]. unfold CACHED_KEY_SIZE in *. lia.
Qed.

Lemma get_status_log {E : Type} c l key h ancestors :
  represents c l -> (CACHED_KEY_SIZE < length key)%nat ->
  get_status (E := E) c key h ancestors = Ok (log_get l key h ancestors).
Proof.
  intros Hr Hlen. unfold get_status, log_get, slice_of. destruct (sc_cache c !! h) as [e|] eqn:Hc.
  - rewrite (rp_index c l Hr _ _ Hc). cbn.
    destruct (key_slice_at_long key (he_key_index e) Hlen) as [k ->]. cbn.
    rewrite (rp_keys c l Hr _ _ _ Hc), (rp_roots c l Hr).
    by destruct (log_forks _ _ _) as [|p f] eqn:Hf.
  - f_equal. symmetry. destruct (sl_index l !! h) as [i|]; [|done]. cbn.
    destruct (key_slice_at _ _) as [k|]; [|done]. cbn. replace (log_forks (sl_entries l) h k) with (@nil (Slot * T)); [done|].
    symmetry. apply log_forks_nil. intros x Hx Hh _. pose proof (proj2 (rp_cached c l Hr h)) as Hs.
    rewrite Hc in Hs. destruct Hs as [? ?]; [eauto|done].
Qed.

(** ** Insertion *)

(** The statuses of a slot and blockhash, as [insert_with_slice] finds them. *)
Lemma slot_deltas_log c l slot h d i ks :
  represents c l -> sl_purged l < slot ->
  default (d, []) (default ∅ (sc_slot_deltas c !! slot) !! h) = (i, ks) -> ks = log_deltas (sl_entries l) slot h.
Proof.
  intros Hr Hslot Hd. destruct (default ∅ (sc_slot_deltas c !! slot) !! h) as [[i' ks']|] eqn:Hst;
    cbn in Hd; injection Hd as <- <-.
  - destruct (sc_slot_deltas c !! slot) as [st'|] eqn:Hs'; cbn in Hst; [|done].
    by destruct (rp_delta c l Hr _ _ _ _ _ Hs' Hst) as (_ & ? & _).
  - destruct (log_deltas (sl_entries l) slot h) as [|p ps] eqn:Hl; [done|exfalso].
    assert (p ∈ log_deltas (sl_entries l) slot h) as Hp by (rewrite Hl; left).
    unfold log_deltas in Hp. apply list_elem_of_fmap in Hp as (x & _ & [[<- <-] Hx]%list_elem_of_filter).
    destruct (rp_recent c l Hr x Hx Hslot) as (st' & ? & ? & Hs' & Hx').
    rewrite Hs' in Hst. cbn in Hst. congruence.
Qed.

Lemma insert_deltas c l slot h k res i :
  represents c l -> sl_purged l < slot ->
  let x := mkStatusEntry h k slot res in
  let deltas := <[slot := <[h := (i, log_deltas (sl_entries l) slot h ++ [(k, res)])]>
    (default ∅ (sc_slot_deltas c !! slot))]> (sc_slot_deltas c) in
  (forall s st h i ks, deltas !! s = Some st -> st !! h = Some (i, ks) ->
    sl_purged l < s /\ ks = log_deltas (sl_entries l ++ [x]) s h /\ ks <> []) /\
  (forall y, y ∈ sl_entries l ++ [x] -> sl_purged l < se_slot y ->
    exists st i ks, deltas !! se_slot y = Some st /\ st !! se_blockhash y = Some (i, ks)).
Proof.
  intros Hr Hslot x deltas. split.
  - intros s st' h' i' ks' Hs' Hh'. unfold x. rewrite log_deltas_app, log_deltas_singleton.
    apply lookup_insert_Some in Hs' as [[<- <-]|[Hne Hs']]; [apply lookup_insert_Some in Hh' as [[<- [= <- <-]]|[Hne Hh']]|].
    + split_and!; [done|by rewrite decide_True|]. by destruct (log_deltas _ _ _).
    + destruct (sc_slot_deltas c !! slot) as [st0|] eqn:Hs0; cbn in Hh'; [|done].
      destruct (rp_delta c l Hr _ _ _ _ _ Hs0 Hh') as (? & ? & ?).
      split_and!; [done|rewrite decide_False, app_nil_r by naive_solver; done|done].
    + destruct (rp_delta c l Hr _ _ _ _ _ Hs' Hh') as (? & ? & ?).
      split_and!; [done|rewrite decide_False, app_nil_r by naive_solver; done|done].
  - intros y [Hx| ->%list_elem_of_singleton]%elem_of_app Hs; cbn; unfold deltas.
    + destruct (rp_recent c l Hr y Hx Hs) as (st' & i' & ks' & Hs' & Hh').
      destruct (decide (slot = se_slot y)) as [->|Hne]; [|rewrite lookup_insert_ne by done; eauto].
      rewrite lookup_insert_eq, Hs'. cbn. destruct (decide (h = se_blockhash y)) as [->|Hne].
      * eexists _, _, _. split; [done|]. by rewrite lookup_insert_eq.
      * eexists _, i', ks'. split; [done|]. by rewrite lookup_insert_ne.
    + rewrite lookup_insert_eq. eexists _, _, _. split; [done|]. by rewrite lookup_insert_eq.
Qed.

Lemma insert_keys c l slot choice h k res :
  represents c l ->
  let e0 := default (mkHashEntry slot choice ∅) (sc_cache c !! h) in
  let e := mkHashEntry (Z.max slot (Z.max slot (he_slot e0))) (he_key_index e0)
    (<[k := default [] (he_keys e0 !! k) ++ [(slot, res)]]> (he_keys e0)) in
  let entries := sl_entries l ++ [mkStatusEntry h k slot res] in
  (forall k', he_keys e !! k' = nonempty (log_forks entries h k')) /\
  (forall x, x ∈ entries -> se_blockhash x = h -> se_slot x <= he_slot e).
Proof.
  intros Hr e0 e entries.
  assert (forall k', he_keys e0 !! k' = nonempty (log_forks (sl_entries l) h k')) as Hkeys.
  { intros k'. subst e0. destruct (sc_cache c !! h) as [e1|] eqn:He; cbn; [by apply (rp_keys c l Hr)|].
    replace (log_forks (sl_entries l) h k') with (@nil (Slot * T)); [done|]. symmetry. apply log_forks_nil.
    intros x Hx Hh _. pose proof (proj2 (rp_cached c l Hr h)) as Hs. rewrite He in Hs.
    destruct Hs as [? ?]; [eauto|done]. }
  split.
  - intros k'. unfold entries. rewrite log_forks_app, log_forks_singleton. cbn [e he_keys].
    destruct (decide (k = k')) as [<-|Hk'].
    + rewrite lookup_insert_eq, decide_True, nonempty_app_singleton by done. rewrite Hkeys.
      by destruct (log_forks _ _ _).
    + rewrite lookup_insert_ne, decide_False, app_nil_r by naive_solver. apply Hkeys.
  - intros x [Hx| ->%list_elem_of_singleton]%elem_of_app Hh; cbn; [|lia].
    destruct (proj2 (rp_cached c l Hr h)) as [e1 He]; [eauto|].
    assert (se_slot x <= he_slot e1) by (by eapply (rp_slot c l Hr)). subst e0. rewrite He. cbn. lia.
Qed.

Lemma insert_represents {E : Type} choice c l h key slot res :
  represents c l -> op_ok l (CacheInsert choice h key slot res) ->
  exists c' l', status_insert (E := E) choice c h key slot res = Ok c' /\
    log_step l (CacheInsert choice h key slot res) l' /\ represents c' l'.
Proof.
  intros Hr [Hlen Hslot]. unfold status_insert.
  set (e0 := default (mkHashEntry slot choice ∅) (sc_cache c !! h)).
  cbn [he_key_index]. destruct (key_slice_at_long key (he_key_index e0) Hlen) as [k Hk]. rewrite Hk. cbn.
  unfold insert_with_slice. cbn. rewrite lookup_insert_eq. cbn.
  destruct (default (Nat.min _ _, []) (_ !! h)) as [i ks] eqn:Hd.
  apply (slot_deltas_log c l) in Hd as ->; [|done..].
  destruct (insert_deltas c l slot h k res i Hr Hslot) as [Hdel Hrec].
  destruct (insert_keys c l slot choice h k res Hr) as [Hkeys Hmax]. fold e0 in Hkeys, Hmax.
  eexists _, _. split; [done|]. split.
  { eapply (log_insert l choice h key slot res (he_key_index e0) k); [|done]. intros i' Hi Hex.
    apply (rp_cached c l Hr h) in Hex as [e He]. subst e0. rewrite He. cbn.
    rewrite (rp_index c l Hr _ _ He) in Hi. by injection Hi. }
  split; cbn [sc_cache sc_roots sc_slot_deltas sl_entries sl_index sl_roots sl_purged]; try done.
  - intros h' e' k' [[<- <-]|[Hne He]]%lookup_insert_Some; [apply Hkeys|].
    rewrite lookup_insert_ne in He by done. rewrite log_forks_app, log_forks_singleton.
    rewrite decide_False, app_nil_r by naive_solver. by apply (rp_keys c l Hr).
  - intros h'. destruct (decide (h = h')) as [<-|Hne].
    + rewrite lookup_insert_eq. split; [|by intros _].
      intros _. exists (mkStatusEntry h k slot res). rewrite elem_of_app. set_solver.
    + rewrite !lookup_insert_ne by done. rewrite (rp_cached c l Hr h'). setoid_rewrite elem_of_app.
      setoid_rewrite list_elem_of_singleton. naive_solver.
  - intros h' e' [[<- <-]|[Hne He]]%lookup_insert_Some; [by rewrite lookup_insert_eq|].
    rewrite lookup_insert_ne in He by done. rewrite lookup_insert_ne by done. by apply (rp_index c l Hr).
  - intros h' e' x [[<- <-]|[Hne He]]%lookup_insert_Some; [apply Hmax|].
    rewrite lookup_insert_ne in He by done.
    intros [Hx| ->%list_elem_of_singleton]%elem_of_app Hh; [by eapply (rp_slot c l Hr)|done].
  - apply (rp_roots c l Hr).
Qed.

(** ** Roots *)

Lemma min_root_spec roots :
  match min_root roots with
  | Some m => m ∈ roots /\ forall r, r ∈ roots -> m <= r
  | None => roots = ∅
  end.
Proof.
  unfold min_root. destruct (elements roots) as [|r rs] eqn:He.
  - apply leibniz_equiv. by apply elements_empty_inv.
  - setoid_rewrite <- (elem_of_elements roots). rewrite He.
    destruct (foldr_min_spec rs r) as (H1 & H2 & H3). split.
    + destruct H1 as [->|?]; [left|by right].
    + intros x [->|Hx]%elem_of_cons; auto.
Qed.

Lemma log_forks_keep (keep : StatusEntry -> bool) l h k :
  (forall x, x ∈ l -> se_blockhash x = h -> keep x = true) ->
  log_forks (filter (fun x => keep x = true) l) h k = log_forks l h k.
Proof.
  intros Hk. unfold log_forks. rewrite list_filter_filter. f_equal. apply list_filter_ext. naive_solver.
Qed.

Lemma log_deltas_keep (keep : StatusEntry -> bool) l s h :
  (forall x, x ∈ l -> se_slot x = s -> keep x = true) ->
  log_deltas (filter (fun x => keep x = true) l) s h = log_deltas l s h.
Proof.
  intros Hk. unfold log_deltas. rewrite list_filter_filter. f_equal. apply list_filter_ext. naive_solver.
Qed.

(** Dropping the roots up to [min] with the blockhashes last seen up to it. *)
Lemma purge_represents c l min roots :
  represents c l ->
  let keep := fun x => match sc_cache c !! se_blockhash x with Some e => min <? he_slot e | None => false end in
  (forall x, x ∈ sl_entries l -> min < se_slot x -> keep x = true) /\
  represents
    (mkStatusCache (filter (fun p => min < he_slot p.2) (sc_cache c)) roots (filter (fun p => min < p.1) (sc_slot_deltas c)))
    (mkStatusLog (filter (fun x => keep x = true) (sl_entries l)) (sl_index l) roots (Z.max (sl_purged l) min)).
Proof.
  intros Hr keep. assert (forall x, x ∈ sl_entries l -> min < se_slot x -> keep x = true) as Hkeep.
  { intros x Hx Hs. unfold keep. destruct (proj2 (rp_cached c l Hr (se_blockhash x))) as [e He]; [eauto|].
    rewrite He. pose proof (rp_slot c l Hr _ _ _ He Hx eq_refl). lia. }
  assert (forall h e x, sc_cache c !! h = Some e -> min < he_slot e -> se_blockhash x = h -> keep x = true) as Hhash.
  { intros h e x He Hm <-. unfold keep. rewrite He. lia. }
  split; [done|]. split; cbn [sc_cache sc_roots sc_slot_deltas sl_entries sl_index sl_roots sl_purged]; try done.
  - intros h e k [He Hm]%map_lookup_filter_Some. rewrite log_forks_keep by eauto. by apply (rp_keys c l Hr).
  - intros h. unfold is_Some. setoid_rewrite map_lookup_filter_Some. setoid_rewrite list_elem_of_filter. split.
    + intros (e & He & Hm). destruct (proj1 (rp_cached c l Hr h)) as (x & Hx & Hxh); [eauto|]. exists x. eauto.
    + intros (x & [Hk Hx] & <-). unfold keep in Hk. destruct (sc_cache c !! se_blockhash x) as [e|] eqn:He; [|done].
      exists e. split; [done|]. cbn. lia.
  - intros h e [He _]%map_lookup_filter_Some. by apply (rp_index c l Hr).
  - intros h e x [He _]%map_lookup_filter_Some [_ Hx]%list_elem_of_filter. by apply (rp_slot c l Hr).
  - intros s st h i ks [Hs Hm]%map_lookup_filter_Some Hh. cbn in Hm.
    destruct (rp_delta c l Hr _ _ _ _ _ Hs Hh) as (? & -> & ?). split_and!; [lia| |done].
    symmetry. apply log_deltas_keep. intros x Hx <-. by apply Hkeep.
  - intros x [_ Hx]%list_elem_of_filter Hs.
    destruct (rp_recent c l Hr x Hx ltac:(lia)) as (st & i & ks & Hst & Hh).
    exists st, i, ks. split; [|done]. apply map_lookup_filter_Some. split; [done|]. cbn. lia.
Qed.

Lemma add_root_represents c l fork :
  represents c l -> exists l', log_step l (CacheAddRoot fork) l' /\ represents (add_root c fork) l'.
Proof.
  intros Hr. unfold add_root, purge_roots. cbn [sc_roots sc_cache sc_slot_deltas]. rewrite (rp_roots c l Hr).
  case_decide as Hsize.
  - pose proof (min_root_spec ({[fork]} ∪ sl_roots l)) as Hmin. destruct (min_root _) as [min|]; [|set_solver].
    destruct Hmin as [Hin Hle].
    destruct (purge_represents c l min (({[fork]} ∪ sl_roots l) ∖ {[min]}) Hr) as [Hkeep Hrep].
    eexists. split; [|exact Hrep]. by apply log_root_purge.
  - eexists. split; [apply log_root; lia|]. destruct Hr. by split.
Qed.

(** The roots that stay are above the dropped ones. *)
Lemma log_step_ok l op l' : log_step l op l' -> op_ok l op -> log_ok l -> log_ok l'.
Proof.
  intros Hs Hop Hl. pose proof (lo_size l Hl). pose proof (lo_bound l Hl).
  destruct Hs as [| fork Hsize | fork min keep Hsize Hin Hle Hkeep |]; try by (destruct Hl; split).
  - split; cbn; [done|done| |].
    + intros Hp. apply (lo_purged l Hl) in Hp.
      pose proof (subseteq_size (sl_roots l) ({[fork]} ∪ sl_roots l) ltac:(set_solver)). lia.
    + intros r [->%elem_of_singleton|Hr]%elem_of_union; [|by apply (lo_above l Hl)].
      destruct (decide (fork ∈ sl_roots l)) as [|Hnew]; [by apply (lo_above l Hl)|].
      cbn in Hop. rewrite size_union, size_singleton in Hsize by set_solver.
      destruct (Z.lt_ge_cases (sl_purged l) 0); [lia|]. rewrite (lo_purged l Hl) in Hsize by lia. lia.
  - assert (fork ∉ sl_roots l) as Hnew.
    { intros Hf. replace ({[fork]} ∪ sl_roots l) with (sl_roots l) in Hsize by set_solver. lia. }
    rewrite size_union, size_singleton in Hsize by set_solver.
    assert (size (({[fork]} ∪ sl_roots l) ∖ {[min]}) = MAX_CACHE_ENTRIES) as Hsz.
    { rewrite size_difference, size_union, !size_singleton by set_solver. lia. }
    split; cbn; [lia|lia|done|]. intros r [Hr Hne]%elem_of_difference.
    assert (min < r) by (assert (min <> r) by set_solver; specialize (Hle r Hr); lia).
    apply elem_of_union in Hr as [->%elem_of_singleton|Hr]; [|pose proof (lo_above l Hl r Hr); lia].
    destruct (Z.lt_ge_cases (sl_purged l) fork); [lia|].
    apply elem_of_union in Hin as [->%elem_of_singleton|Hin]; [lia|]. pose proof (lo_above l Hl min Hin). lia.
Qed.

(** ** Clearing a slot *)

Lemma clear_keys_ok {E : Type} slot (key_list : list (KeySlice * T)) m :
  NoDup key_list.*1 -> (forall k, k ∈ key_list.*1 -> is_Some (m !! k)) ->
  exists m', clear_keys (E := E) slot m key_list = Ok m' /\
    forall k, m' !! k = if decide (k ∈ key_list.*1)
      then m !! k ≫= (fun f => nonempty (filter (fun p => p.1 <> slot) f)) else m !! k.
Proof.
  revert m. induction key_list as [|[k0 t] key_list IH]; intros m Hnd Hin; cbn.
  { exists m. split; [done|]. intros k. rewrite decide_False by set_solver. done. }
  apply NoDup_cons in Hnd as [Hk0 Hnd]. destruct (Hin k0) as [f Hf]; [left|]. rewrite Hf.
  set (m1 := if decide _ then _ else _).
  assert (forall k, m1 !! k = if decide (k = k0) then nonempty (filter (fun p => p.1 <> slot) f) else m !! k) as Hm1.
  { intros k. subst m1. case_decide as Hlen; case_decide as Hk; subst.
    - apply nil_length_inv in Hlen. rewrite lookup_delete_eq, Hlen. done.
    - by rewrite lookup_delete_ne.
    - rewrite lookup_insert_eq. by destruct (filter _ f).
    - by rewrite lookup_insert_ne. }
  destruct (IH m1 Hnd) as (m' & Hrun & Hm').
  { intros k Hk. rewrite Hm1, decide_False by (intros ->; done). apply Hin. by right. }
  exists m'. split; [done|]. intros k. rewrite Hm', Hm1. cbn. destruct (decide (k = k0)) as [->|Hne].
  - rewrite (decide_False (P := k0 ∈ key_list.*1)) by done. rewrite decide_True by left. by rewrite Hf.
  - destruct (decide (k ∈ key_list.*1)).
    + by rewrite decide_True by (right; done).
    + by rewrite decide_False by set_solver.
Qed.

(** What one blockhash becomes when a slot is cleared. *)
Definition cleared (slot : Slot) (e : HashEntry T) (e' : option (HashEntry T)) (ks : list (KeySlice * T)) : Prop :=
  exists m, e' = (if decide (m = ∅) then None else Some (mkHashEntry (he_slot e) (he_key_index e) m)) /\
    forall k, m !! k = if decide (k ∈ ks.*1)
      then he_keys e !! k ≫= (fun f => nonempty (filter (fun p => p.1 <> slot) f)) else he_keys e !! k.

Lemma clear_hashes_ok {E : Type} slot (deltas : list (Hash * (nat * list (KeySlice * T)))) cache :
  NoDup deltas.*1 ->
  (forall h i ks, (h, (i, ks)) ∈ deltas -> NoDup ks.*1 /\
    exists e, cache !! h = Some e /\ forall k, k ∈ ks.*1 -> is_Some (he_keys e !! k)) ->
  exists cache', clear_hashes (E := E) slot cache deltas = Ok cache' /\
    (forall h, h ∉ deltas.*1 -> cache' !! h = cache !! h) /\
    (forall h i ks e, (h, (i, ks)) ∈ deltas -> cache !! h = Some e -> cleared slot e (cache' !! h) ks).
Proof.
  revert cache. induction deltas as [|[h0 [i0 ks0]] deltas IH]; intros cache Hnd Hin; cbn.
  { exists cache. split_and!; [done|done|set_solver]. }
  apply NoDup_cons in Hnd as [Hh0 Hnd]. cbn in Hh0.
  destruct (Hin h0 i0 ks0) as (Hks & e & He & Hall); [left|]. rewrite He.
  destruct (clear_keys_ok (E := E) slot ks0 (he_keys e) Hks Hall) as (m & -> & Hm). cbn.
  set (c1 := if decide _ then _ else _).
  assert (forall h, h <> h0 -> c1 !! h = cache !! h) as Hne.
  { intros h Hh. subst c1. case_decide; [by rewrite lookup_delete_ne|by rewrite lookup_insert_ne]. }
  assert (forall h x, (h, x) ∈ deltas -> h <> h0) as Hdiff.
  { intros h x Hx ->. apply Hh0, list_elem_of_fmap. by exists (h0, x). }
  destruct (IH c1 Hnd) as (c' & Hrun & Hout & Hcl).
  { intros h i ks Hx. rewrite Hne by eauto. apply (Hin h i ks). by right. }
  exists c'. split_and!; [done| |].
  - intros h Hh. rewrite Hout, Hne by set_solver. done.
  - intros h i ks e1 [[= -> -> ->]|Hx]%elem_of_cons He1.
    + simplify_eq. rewrite Hout by done. exists m. split; [|done]. subst c1.
      case_decide; [by rewrite lookup_delete_eq|by rewrite lookup_insert_eq].
    + apply Hcl with i; [done|]. rewrite Hne by eauto. done.
Qed.

Lemma log_deltas_elem l s h p :
  p ∈ log_deltas l s h <->
  exists x, x ∈ l /\ se_blockhash x = h /\ se_slot x = s /\ p = (se_key_slice x, se_status x).
Proof. unfold log_deltas. rewrite list_elem_of_fmap. setoid_rewrite list_elem_of_filter. naive_solver. Qed.

Lemma log_forks_other_slots l slot h k :
  log_forks (filter (fun x => se_slot x <> slot) l) h k = filter (fun p => p.1 <> slot) (log_forks l h k).
Proof.
  unfold log_forks. induction l as [|x l IH]; [done|]. rewrite !(filter_cons _ x).
  destruct (decide (se_slot x <> slot)) as [Hs|Hs], (decide (se_blockhash x = h /\ se_key_slice x = k)) as [Hk|Hk];
    rewrite ?fmap_cons, ?filter_cons.
  - by rewrite !decide_True, fmap_cons, IH by done.
  - by rewrite decide_False, IH by done.
  - rewrite decide_False; [done|]. cbn. tauto.
  - done.
Qed.

Lemma log_deltas_other_slots l slot s h :
  s <> slot -> log_deltas (filter (fun x => se_slot x <> slot) l) s h = log_deltas l s h.
Proof.
  intros Hs. unfold log_deltas. rewrite list_filter_filter. f_equal. apply list_filter_ext. naive_solver.
Qed.

(** [clear_hashes] on the statuses of a slot: no panic, and what is left of a
    blockhash is what the log without the slot has. *)
Lemma clear_slot_hashes {E : Type} c l slot st :
  represents c l -> op_ok l (CacheClearSlot slot) -> sc_slot_deltas c !! slot = Some st ->
  exists cache, clear_hashes (E := E) slot (sc_cache c) (map_to_list st) = Ok cache /\
    forall h, match sc_cache c !! h with
      | Some e => exists m, (forall k, m !! k = nonempty (log_forks (filter (fun x => se_slot x <> slot) (sl_entries l)) h k)) /\
          cache !! h = if decide (m = ∅) then None else Some (mkHashEntry (he_slot e) (he_key_index e) m)
      | None => cache !! h = None
      end.
Proof.
  intros Hr [Hslot Hnd] Hst. destruct (clear_hashes_ok (E := E) slot (map_to_list st) (sc_cache c)) as (cache & Hrun & Hout & Hin).
  { apply NoDup_fst_map_to_list. }
  { intros h i ks Hx%elem_of_map_to_list. destruct (rp_delta c l Hr _ _ _ _ _ Hst Hx) as (_ & -> & Hne).
    split; [apply Hnd|]. destruct (log_deltas (sl_entries l) slot h) as [|p ps] eqn:Hp; [done|].
    assert (p ∈ log_deltas (sl_entries l) slot h) as (x & Hxin & Hxh & _)%log_deltas_elem by (rewrite Hp; left).
    destruct (proj2 (rp_cached c l Hr h)) as [e He]; [eauto|]. exists e. split; [done|]. rewrite <- Hp.
    intros k (q & -> & (y & Hy & Hyh & Hys & ->)%log_deltas_elem)%list_elem_of_fmap.
    rewrite (rp_keys c l Hr _ _ _ He). cbn. destruct (log_forks (sl_entries l) h (se_key_slice y)) eqn:Hf; [|done].
    rewrite log_forks_nil in Hf. by destruct (Hf y Hy Hyh). }
  exists cache. split; [done|]. intros h. destruct (sc_cache c !! h) as [e|] eqn:He.
  - destruct (st !! h) as [[i ks]|] eqn:Hh.
    + destruct (Hin h i ks e) as (m & Hc & Hm); [by apply elem_of_map_to_list|done|]. exists m. split; [|done].
      intros k. rewrite Hm, (rp_keys c l Hr _ _ _ He), log_forks_other_slots.
      destruct (decide (k ∈ ks.*1)) as [_|Hk].
      * by destruct (log_forks _ _ _).
      * f_equal. symmetry. apply list_filter_all. intros p (x & Hx & Hxh & Hxk & ->)%log_forks_elem Hs. cbn in Hs.
        destruct (rp_delta c l Hr _ _ _ _ _ Hst Hh) as (_ & -> & _). apply Hk, list_elem_of_fmap.
        exists (se_key_slice x, se_status x). split; [done|]. apply log_deltas_elem. eauto 10.
    + rewrite Hout, He.
      2: { intros ([h' v] & -> & Hv%elem_of_map_to_list)%list_elem_of_fmap. cbn in Hh. congruence. }
      assert (forall k, he_keys e !! k = nonempty (log_forks (filter (fun x => se_slot x <> slot) (sl_entries l)) h k)) as Hsame.
      { intros k. rewrite (rp_keys c l Hr _ _ _ He), log_forks_other_slots. f_equal. symmetry. apply list_filter_all.
        intros p (x & Hx & Hxh & Hxk & ->)%log_forks_elem Hs. cbn in Hs.
        destruct (rp_recent c l Hr x Hx ltac:(lia)) as (st' & i & ks & Hst' & Hh'). congruence. }
      exists (he_keys e). split; [done|]. rewrite decide_False; [by destruct e|]. intros Hemp.
      destruct (proj1 (rp_cached c l Hr h)) as (x & Hx & Hxh); [eauto|].
      pose proof (rp_keys c l Hr h e (se_key_slice x) He) as Hk. rewrite Hemp, lookup_empty in Hk.
      destruct (log_forks (sl_entries l) h (se_key_slice x)) eqn:Hf; [|done]. rewrite log_forks_nil in Hf. by apply (Hf x).
  - rewrite Hout; [done|]. intros ([h' [i ks]] & -> & Hv%elem_of_map_to_list)%list_elem_of_fmap. cbn in He.
    destruct (rp_delta c l Hr _ _ _ _ _ Hst Hv) as (_ & -> & Hne).
    destruct (log_deltas (sl_entries l) slot h') as [|p ps] eqn:Hp; [done|].
    assert (p ∈ log_deltas (sl_entries l) slot h') as (x & Hxin & Hxh & _)%log_deltas_elem by (rewrite Hp; left).
    destruct (proj2 (rp_cached c l Hr h')) as [e He']; [eauto|congruence].
Qed.

Lemma clear_slot_represents {E : Type} c l slot :
  represents c l -> op_ok l (CacheClearSlot slot) ->
  exists c', clear_slot_entries (E := E) c slot = Ok c' /\
    represents c' (mkStatusLog (filter (fun e => se_slot e <> slot) (sl_entries l)) (sl_index l) (sl_roots l) (sl_purged l)).
Proof.
  intros Hr Hop. pose proof Hop as [Hslot _]. unfold clear_slot_entries.
  destruct (sc_slot_deltas c !! slot) as [st|] eqn:Hst; cbn.
  2: { exists c. split; [done|]. rewrite list_filter_all; [by destruct Hr; split|].
    intros x Hx Hs. destruct (rp_recent c l Hr x Hx ltac:(lia)) as (? & ? & ? & ? & _). congruence. }
  destruct (clear_slot_hashes (E := E) c l slot st Hr Hop Hst) as (cache & -> & Hcache). cbn.
  eexists. split; [done|]. set (l' := filter _ _) in *.
  assert (forall h e', cache !! h = Some e' -> exists e, sc_cache c !! h = Some e /\ he_slot e' = he_slot e /\
    he_key_index e' = he_key_index e /\ forall k, he_keys e' !! k = nonempty (log_forks l' h k)) as Hc.
  { intros h e' He'. specialize (Hcache h). destruct (sc_cache c !! h) as [e|]; [|congruence].
    destruct Hcache as (m & Hm & Hch). rewrite He' in Hch. case_decide; [done|]. injection Hch as ->. eauto. }
  split; cbn [sc_cache sc_roots sc_slot_deltas sl_entries sl_index sl_roots sl_purged].
  - intros h e' k (e & _ & _ & _ & Hk)%Hc. apply Hk.
  - intros h. specialize (Hcache h). split.
    + intros [e' He']. destruct (sc_cache c !! h) as [e|]; [|congruence]. destruct Hcache as (m & Hm & Hch).
      rewrite He' in Hch. case_decide as Hemp; [done|]. destruct (map_choose m Hemp) as (k & f & Hf).
      rewrite Hm in Hf. destruct (log_forks l' h k) as [|p ps] eqn:Hp; [done|].
      assert (p ∈ log_forks l' h k) as (x & ? & ? & _)%log_forks_elem by (rewrite Hp; left). eauto.
    + intros (x & Hx & Hxh). assert (x ∈ sl_entries l) as Hxl by (by apply list_elem_of_filter in Hx as [_ ?]).
      destruct (proj2 (rp_cached c l Hr h)) as [e He]; [eauto|]. rewrite He in Hcache.
      destruct Hcache as (m & Hm & ->). rewrite decide_False; [done|]. intros ->.
      specialize (Hm (se_key_slice x)). rewrite lookup_empty in Hm.
      destruct (log_forks l' h (se_key_slice x)) eqn:Hf; [|done]. rewrite log_forks_nil in Hf. by apply (Hf x).
  - intros h e' (e & He & _ & -> & _)%Hc. by apply (rp_index c l Hr).
  - intros h e' x (e & He & -> & _)%Hc [_ Hx]%list_elem_of_filter. by apply (rp_slot c l Hr).
  - apply (rp_roots c l Hr).
  - intros s st' h i ks [Hne Hs]%lookup_delete_Some Hh. destruct (rp_delta c l Hr _ _ _ _ _ Hs Hh) as (? & -> & ?).
    split_and!; [done| |done]. unfold l'. by rewrite log_deltas_other_slots.
  - intros x [Hxs Hx]%list_elem_of_filter Hs. rewrite lookup_delete_ne by done. by apply (rp_recent c l Hr).
Qed.

(** ** Refinement *)

Lemma cache_step_refines {E : Type} c l op :
  represents c l -> op_ok l op ->
  exists c' l', cache_step (E := E) c op = Ok c' /\ log_step l op l' /\ represents c' l'.
Proof.
  intros Hr Hop. destruct op as [choice h key slot res|fork|slot].
  - by apply insert_represents.
  - destruct (add_root_represents c l fork Hr) as (l' & ? & ?). by exists (add_root c fork), l'.
  - destruct (clear_slot_represents (E := E) c l slot Hr Hop) as (c' & ? & ?). eexists c', _. split_and!; [done| |done].
    constructor.
Qed.

Fixpoint cache_run {E : Type} (c : StatusCache T) (ops : list (cache_op)) : outcome E (StatusCache T) :=
  match ops with [] => Ok c | op :: ops => c ← cache_step c op; cache_run c ops end.

(** A run of the specification in which the callers keep their side. *)
Inductive log_run : StatusLog -> list cache_op -> StatusLog -> Prop :=
| log_run_nil l : log_run l [] l
| log_run_cons l op l1 ops l2 : op_ok l op -> log_step l op l1 -> log_run l1 ops l2 -> log_run l (op :: ops) l2.

(** Every operation of the run is one the callers may do, whatever the
    specification chose before. *)
Inductive ops_allowed : StatusLog -> list cache_op -> Prop :=
| ops_allowed_nil l : ops_allowed l []
| ops_allowed_cons l op ops :
    op_ok l op -> (forall l', log_step l op l' -> log_ok l' -> ops_allowed l' ops) -> ops_allowed l (op :: ops).

End log.
Arguments StatusEntry : clear implicits.
Arguments StatusLog : clear implicits.
Arguments cache_op : clear implicits.

Lemma log_ok_default {T} : log_ok (StatusLog_default (T := T)).
Proof. split; cbn; [done| |done|set_solver by lia]. rewrite size_singleton. unfold MAX_CACHE_ENTRIES. lia. Qed.

Module StatusExample.
Definition key1 : list Z := seqZ 0 32.
Definition key2 : list Z := seqZ 100 32.

(** Two transactions with the same blockhash in slots 1 and 2; slot 1 is
    rooted, slot 2 is cleared. *)
Definition ops : list (cache_op bool) :=
  [CacheInsert 3 7 key1 1 true; CacheInsert 9 7 key2 2 false; CacheAddRoot 1; CacheClearSlot 2].

Lemma ops_are_allowed : ops_allowed StatusLog_default ops.
Proof.
  constructor; [split; [vm_compute; lia|done]|]. intros l1 H1 _. inversion_clear H1 as [?????? k1 _ Hk1| | |].
  constructor; [split; [vm_compute; lia|done]|]. intros l2 H2 _. inversion_clear H2 as [?????? k2 _ Hk2| | |].
  constructor; [cbn; lia|]. intros l3 H3 _. inversion_clear H3 as [|? Hsize|?? ? Hsize|]; cbn.
  2: { exfalso. revert Hsize. vm_compute. lia. }
  constructor; [|intros; constructor]. split; [done|]. intros h.
  change (NoDup (log_deltas ([mkStatusEntry 7 k1 1 true] ++ [mkStatusEntry 7 k2 2 false]) 2 h).*1).
  rewrite log_deltas_app, !log_deltas_singleton, decide_False by naive_solver. cbn.
  case_decide; [apply NoDup_singleton|apply NoDup_nil_2].
Qed.


(** A slice recorded twice in a slot makes clearing the slot panic. *)
Lemma duplicate_slice_panics :
  cache_run (E := unit) StatusCache_default
    [CacheInsert 3 7 key1 1 true; CacheInsert 3 7 key1 1 true; CacheClearSlot 1] = Panic.
Proof. vm_compute. done. Qed.
End StatusExample.
