(* ===== verification/BankForks.v ===== *)
(** * Banks and their forks

    The parts of [runtime/src/bank.rs] that decide which transactions a bank
    accepts (blockhash ages, durable nonces, the status cache), that move a bank
    along its ticks and make it a root, and [runtime/src/bank_forks.rs]. A bank
    is the record of the fields these parts use; the banks live in a store by
    slot, in which [Arc<Bank>] pointers are slots, and share one status cache.
    Loading an account is a parameter. Logging, metrics, the accounts database
    and the snapshot requests are left out. *)
From Stdlib Require Import String.
From stdpp Require Import base numbers option list gmap sets sorting.
From S2P Require Import Prelude Instruction Account Sysvar Message ComputeBudget Nonce System.
From S2P Require Import RollingBitField BlockhashQueue StatusCache.

Definition enable_durable_nonce : Pubkey := Eval vm_compute in pubkey_of "4EJQtF2pkRyawwcTVfQutzq4Sa5hRhibF6QAK1QXhtEX".
Definition nonce_must_be_authorized : Pubkey := Eval vm_compute in pubkey_of "HxrEu1gXuH7iD3Puua1ohd5n4iUKJyFNtNxk9DVJkvgr".
Definition nonce_must_be_advanceable : Pubkey := Eval vm_compute in pubkey_of "3u3Er5Vc2jVcwz4xr2GJeSAXT3fAj6ADHZ4BJMZiScFd".

(** ** Sets of slots

    What the bank needs of [Ancestors]: they can be built from a list of slots
    and hold exactly these. *)
Class SlotSet (A : Type) := {
  ss_from : list Slot -> outcome fuel_error A;
  ss_get : A -> Slot -> bool;
  ss_keys : A -> list Slot;
}.

Class SlotSetLaws (A : Type) `{SlotSet A} := {
  ss_from_ok source : Forall ancestor_slot_ok source -> exists a, ss_from source = Ok a /\
    (forall slot, ss_get a slot = bool_decide (slot ∈ source)) /\
    (forall slot, slot ∈ ss_keys a <-> slot ∈ source) /\ NoDup (ss_keys a);
}.

#[global] Instance Ancestors_SlotSet {B} `{BitVec B} : SlotSet (Ancestors B) := {
  ss_from := Ancestors_from;
  ss_get := ancestors_get;
  ss_keys := ancestors_keys;
}.

#[global] Instance Ancestors_SlotSetLaws {B} `{BitVecLaws B} : SlotSetLaws (Ancestors B).
Proof.
  split. intros source Hs. destruct (Ancestors_from_ok source Hs) as (a & Ha & Hok & Hget).
  exists a. pose proof (get_all_spec a Hok) as Hp. split_and!; [done|done| |].
  - intros slot. change (slot ∈ get_all a <-> slot ∈ source). rewrite Hp, elem_of_elements.
    specialize (Hget slot). unfold ancestors_get in Hget. rewrite (rb_contains_spec a slot Hok) in Hget.
    split; intros ?; [apply (bool_decide_eq_true (slot ∈ source))|apply (bool_decide_eq_true (slot ∈ rb_members a))];
      [rewrite <- Hget|rewrite Hget]; by apply bool_decide_eq_true.
  - change (NoDup (get_all a)). rewrite Hp. apply NoDup_elements.
Qed.

(** ** Data *)

Inductive ClusterType : Type := Testnet | MainnetBeta | Devnet | Development.

Record SanitizedTransaction : Type := mkSanitizedTransaction {
  tx_message : SanitizedMessage;
  tx_message_hash : Hash;
  (** [signature()]: the first signature *)
  tx_signature : list Z;
}.

Definition sm_recent_blockhash (m : SanitizedMessage) : Hash :=
  match m with Legacy m => recent_blockhash m | V0 m => v0_recent_blockhash (lm_message m) end.

Record NoncePartial : Type := mkNoncePartial { np_address : Pubkey; np_account : AccountSharedData }.

Abbreviation TransactionResult := (outcome TransactionError.TransactionError unit) (only parsing).
Abbreviation TransactionCheckResult := (TransactionResult * option NoncePartial)%type (only parsing).
Abbreviation BankStatusCache := (StatusCache TransactionResult) (only parsing).

Section banks.
Context {A : Type} `{SlotSet A}.

Record Bank : Type := mkBank {
  bank_slot : Slot;
  (** [rc.parent], cleared when the bank becomes a root *)
  bank_parent : option Slot;
  bank_parent_slot : Slot;
  bank_ancestors : A;
  bank_blockhash_queue : BlockhashQueue;
  bank_tick_height : Z;
  bank_max_tick_height : Z;
  bank_ticks_per_slot : Z;
  bank_block_height : Z;
  (** [fee_rate_governor.lamports_per_signature] *)
  bank_lamports_per_signature : Z;
  (** [freeze_started], set together with the hash that [is_frozen] tests *)
  bank_frozen : bool;
}.

Definition set_parent (p : option Slot) (b : Bank) : Bank :=
  mkBank (bank_slot b) p (bank_parent_slot b) (bank_ancestors b) (bank_blockhash_queue b) (bank_tick_height b)
    (bank_max_tick_height b) (bank_ticks_per_slot b) (bank_block_height b) (bank_lamports_per_signature b) (bank_frozen b).
Definition set_frozen (f : bool) (b : Bank) : Bank :=
  mkBank (bank_slot b) (bank_parent b) (bank_parent_slot b) (bank_ancestors b) (bank_blockhash_queue b) (bank_tick_height b)
    (bank_max_tick_height b) (bank_ticks_per_slot b) (bank_block_height b) (bank_lamports_per_signature b) f.
Definition set_ticks (q : BlockhashQueue) (tick_height : Z) (b : Bank) : Bank :=
  mkBank (bank_slot b) (bank_parent b) (bank_parent_slot b) (bank_ancestors b) q tick_height
    (bank_max_tick_height b) (bank_ticks_per_slot b) (bank_block_height b) (bank_lamports_per_signature b) (bank_frozen b).

(** ** Blockhashes *)

Definition is_blockhash_valid (b : Bank) (hash : Hash) : bool := check_hash (bank_blockhash_queue b) hash.

Definition last_blockhash {E} (b : Bank) : outcome E Hash := last_hash (bank_blockhash_queue b).

Definition last_blockhash_and_lamports_per_signature {E} (b : Bank) : outcome E (Hash * Z) :=
  last_hash ← last_hash (bank_blockhash_queue b);
  last_lamports_per_signature ← unwrap (queue_lamports_per_signature (bank_blockhash_queue b) last_hash);
  Ok (last_hash, last_lamports_per_signature).

Definition get_blockhash_last_valid_block_height (b : Bank) (blockhash : Hash) : option Z :=
  (fun age => sub64 (add64 (bank_block_height b) (queue_len (bank_blockhash_queue b))) age) <$>
    get_hash_age (bank_blockhash_queue b) blockhash.

Definition is_complete (b : Bank) : bool := bank_tick_height b =? bank_max_tick_height b.
Definition is_block_boundary (b : Bank) (tick_height : Z) : bool := tick_height mod bank_ticks_per_slot b =? 0.

(** [register_tick]; the sysvar of recent blockhashes is left out. *)
Definition register_tick {E} (b : Bank) (hash : Hash) (now : Z) : outcome E Bank :=
  if bank_frozen b then Panic
  else
    let q := bank_blockhash_queue b in
    let q := if is_block_boundary b (add64 (bank_tick_height b) 1)
             then register_hash q hash (bank_lamports_per_signature b) now else q in
    Ok (set_ticks q (add64 (bank_tick_height b) 1) b).

(** ** Checking transactions *)

Section checks.
Context (sha256 : list Z -> Hash) `{Bincode NonceVersions} `{Bincode SystemInstruction}.
(** The features and the cluster of the bank, and [get_account_with_fixed_root]. *)
Context (feature_set : FeatureSet) (cluster_type : ClusterType) (get_account : Pubkey -> option AccountSharedData).

Definition NONCED_TX_MARKER_IX_INDEX : nat := 0.

Definition message_durable_nonce {E} (m : SanitizedMessage) (nonce_must_be_writable : bool) : outcome E (option Pubkey) :=
  match sm_instructions m !! NONCED_TX_MARKER_IX_INDEX with
  | None => Ok None
  | Some ix =>
      if match get_account_key m (Z.to_nat (ci_program_id_index ix)) with
         | Some program_id => program_id =? system_program_id | None => false end
      then
        match limited_deserialize (T := SystemInstruction) (ci_data ix) 4 with
        | Ok AdvanceNonceAccount =>
            match ci_accounts ix !! 0%nat with
            | None => Ok None
            | Some idx =>
                let idx := Z.to_nat idx in
                is_writable ← (if nonce_must_be_writable then sm_is_writable m idx else Ok true);
                Ok (if is_writable : bool then get_account_key m idx else None)
            end
        | _ => Ok None
        end
      else Ok None
  end.

Definition check_message_for_nonce {E} (m : SanitizedMessage) : outcome E (option (Pubkey * AccountSharedData)) :=
  nonce_address ← message_durable_nonce m (is_active feature_set nonce_must_be_writable);
  Ok (nonce_address ← nonce_address;
      nonce_account ← get_account nonce_address;
      nonce_data ← verify_nonce_account nonce_account (sm_recent_blockhash m)
        (is_active feature_set separate_nonce_from_blockhash);
      if is_active feature_set nonce_must_be_authorized
         && negb (existsb (fun signer => signer =? nd_authority nonce_data) (get_ix_signers m NONCED_TX_MARKER_IX_INDEX))
      then None else Some (nonce_address, nonce_account)).

Definition check_transaction_for_nonce {E} (b : Bank) (tx : SanitizedTransaction) (enable_durable_nonce : bool)
  (next_durable_nonce : Hash) : outcome E (option (Pubkey * AccountSharedData)) :=
  let durable_nonces_enabled := enable_durable_nonce || (bank_slot b <=? 135986379)
    || match cluster_type with MainnetBeta => false | _ => true end in
  let nonce_is_advanceable := negb (sm_recent_blockhash (tx_message tx) =? next_durable_nonce) in
  if durable_nonces_enabled && (nonce_is_advanceable || negb (is_active feature_set nonce_must_be_advanceable))
  then check_message_for_nonce (tx_message tx) else Ok None.

(** [check_age], for one transaction *)
Definition check_transaction_age {E} (b : Bank) (max_age : Z) (enable_durable_nonce : bool) (next_durable_nonce : Hash)
  (tx : SanitizedTransaction) (lock_res : TransactionResult) : outcome E TransactionCheckResult :=
  match lock_res with
  | Ok _ =>
      let hash_age := check_hash_age (bank_blockhash_queue b) (sm_recent_blockhash (tx_message tx)) max_age in
      if bool_decide (hash_age = Some true) then Ok (Ok tt, None)
      else
        nonce ← check_transaction_for_nonce b tx enable_durable_nonce next_durable_nonce;
        match nonce with
        | Some (address, account) => Ok (Ok tt, Some (mkNoncePartial address account))
        | None => Ok (Err TransactionError.BlockhashNotFound, None)
        end
  | e => Ok (e, None)
  end.

Fixpoint zip_with_outcome {E X Y Z} (f : X -> Y -> outcome E Z) (xs : list X) (ys : list Y) : outcome E (list Z) :=
  match xs, ys with
  | x :: xs, y :: ys => z ← f x y; zs ← zip_with_outcome f xs ys; Ok (z :: zs)
  | _, _ => Ok []
  end.

Definition check_age {E} (b : Bank) (txs : list SanitizedTransaction) (lock_results : list TransactionResult) (max_age : Z)
  : outcome E (list TransactionCheckResult) :=
  let separate := is_active feature_set separate_nonce_from_blockhash in
  let enable := separate && is_active feature_set enable_durable_nonce in
  last_blockhash ← last_hash (bank_blockhash_queue b);
  let next_durable_nonce := DurableNonce_from_blockhash sha256 last_blockhash separate in
  zip_with_outcome (check_transaction_age b max_age enable next_durable_nonce) txs lock_results.

Definition is_transaction_already_processed {E} (b : Bank) (cache : BankStatusCache) (tx : SanitizedTransaction)
  : outcome E bool :=
  status ← get_status cache (hash_bytes (tx_message_hash tx)) (sm_recent_blockhash (tx_message tx))
    (ss_get (bank_ancestors b));
  Ok (match status with Some _ => true | None => false end).

Definition check_transaction_status {E} (b : Bank) (cache : BankStatusCache) (tx : SanitizedTransaction)
  (res : TransactionCheckResult) : outcome E TransactionCheckResult :=
  match res.1 with
  | Ok _ =>
      processed ← is_transaction_already_processed b cache tx;
      Ok (if processed : bool then (Err TransactionError.AlreadyProcessed, None) else res)
  | _ => Ok res
  end.

Definition check_status_cache {E} (b : Bank) (cache : BankStatusCache) (txs : list SanitizedTransaction)
  (lock_results : list TransactionCheckResult) : outcome E (list TransactionCheckResult) :=
  zip_with_outcome (check_transaction_status b cache) txs lock_results.

Definition check_transactions {E} (b : Bank) (cache : BankStatusCache) (txs : list SanitizedTransaction)
  (lock_results : list TransactionResult) (max_age : Z) : outcome E (list TransactionCheckResult) :=
  age_results ← check_age b txs lock_results max_age;
  check_status_cache b cache txs age_results.
End checks.

(** [update_transaction_statuses]; [choices] are the random offsets. An
    execution result carries the status of the transaction if it was executed. *)
Fixpoint update_transaction_statuses {E} (b : Bank) (choices : list (nat * nat)) (cache : BankStatusCache)
  (txs : list SanitizedTransaction) (execution_results : list (option TransactionResult)) : outcome E BankStatusCache :=
  match txs, execution_results, choices with
  | [], [], _ => Ok cache
  | tx :: txs, res :: results, (c1, c2) :: choices =>
      cache ← match res with
        | Some status =>
            let hash := sm_recent_blockhash (tx_message tx) in
            cache ← status_insert c1 cache hash (hash_bytes (tx_message_hash tx)) (bank_slot b) status;
            status_insert c2 cache hash (tx_signature tx) (bank_slot b) status
        | None => Ok cache
        end;
      update_transaction_statuses b choices cache txs results
  | _, _, _ => Panic
  end.
End banks.
Arguments Bank : clear implicits.

(** ** Forks *)

Section forks.
Context {A : Type} `{SlotSet A}.

Record BankForks : Type := mkBankForks {
  (** the banks that exist; a pointer to a bank is its slot *)
  bf_store : gmap Slot (Bank A);
  (** the slots of [banks] *)
  bf_banks : gset Slot;
  bf_descendants : gmap Slot (gset Slot);
  bf_root : Slot;
  bf_accounts_hash_interval_slots : Z;
  bf_last_accounts_hash_slot : Slot;
  (** shared by all banks *)
  bf_status_cache : BankStatusCache;
}.

Definition FM (X : Type) : Type := SE BankForks fuel_error X.

Definition set_store (m : gmap Slot (Bank A)) (f : BankForks) : BankForks :=
  mkBankForks m (bf_banks f) (bf_descendants f) (bf_root f) (bf_accounts_hash_interval_slots f)
    (bf_last_accounts_hash_slot f) (bf_status_cache f).
Definition set_banks (banks : gset Slot) (d : gmap Slot (gset Slot)) (f : BankForks) : BankForks :=
  mkBankForks (bf_store f) banks d (bf_root f) (bf_accounts_hash_interval_slots f)
    (bf_last_accounts_hash_slot f) (bf_status_cache f).
Definition set_status_cache (c : BankStatusCache) (f : BankForks) : BankForks :=
  mkBankForks (bf_store f) (bf_banks f) (bf_descendants f) (bf_root f) (bf_accounts_hash_interval_slots f)
    (bf_last_accounts_hash_slot f) c.
Definition with_root (root : Slot) (f : BankForks) : BankForks :=
  mkBankForks (bf_store f) (bf_banks f) (bf_descendants f) root (bf_accounts_hash_interval_slots f)
    (bf_last_accounts_hash_slot f) (bf_status_cache f).
Definition set_last_accounts_hash_slot (slot : Slot) (f : BankForks) : BankForks :=
  mkBankForks (bf_store f) (bf_banks f) (bf_descendants f) (bf_root f) (bf_accounts_hash_interval_slots f)
    slot (bf_status_cache f).

(** Following a pointer to a bank, and changing the bank behind it. *)
Definition bank_at (slot : Slot) : FM (Bank A) := f ← get; lift (unwrap (bf_store f !! slot)).
Definition update_bank (slot : Slot) (g : Bank A -> Bank A) : FM unit := modify (fun f => set_store (alter g slot (bf_store f)) f).

(** [Bank::parents]: the banks behind the parent pointers. *)
Fixpoint parents_of (fuel : nat) (store : gmap Slot (Bank A)) (parent : option Slot) : outcome fuel_error (list Slot) :=
  match parent with
  | None => Ok []
  | Some p =>
      match fuel with
      | O => Err OutOfFuel
      | S fuel =>
          b ← unwrap (store !! p);
          ps ← parents_of fuel store (bank_parent b);
          Ok (p :: ps)
      end
  end.

Definition parents (slot : Slot) : FM (list Slot) :=
  b ← bank_at slot;
  f ← get;
  lift (parents_of (size (bf_store f)) (bf_store f) (bank_parent b)).

(** [proper_ancestors] *)
Definition proper_ancestors (b : Bank A) : list Slot := filter (fun slot => slot <> bank_slot b) (ss_keys (bank_ancestors b)).

(** [freeze]; the final changes to the accounts are left out. *)
Definition freeze (slot : Slot) : FM unit := update_bank slot (set_frozen true).

(** [Bank::new_from_parent] on the fields of the model. *)
Definition new_from_parent (parent : Slot) (slot : Slot) (lamports_per_signature : Z) : FM (Bank A) :=
  _ ← freeze parent;
  p ← bank_at parent;
  _ ← assert (negb (slot =? bank_slot p));
  ps ← parents parent;
  ancestors ← lift (ss_from (slot :: bank_slot p :: ps));
  mret (mkBank slot (Some (bank_slot p)) (bank_slot p) ancestors (bank_blockhash_queue p) (bank_tick_height p)
    (mul64 (add64 slot 1) (bank_ticks_per_slot p)) (bank_ticks_per_slot p) (add64 (bank_block_height p) 1)
    lamports_per_signature false).

(** [descendants.entry(parent).or_default().insert(slot)] *)
Definition add_descendant (slot : Slot) (d : gmap Slot (gset Slot)) (parent : Slot) : gmap Slot (gset Slot) :=
  <[parent := {[slot]} ∪ default ∅ (d !! parent)]> d.

(** [BankForks::insert] *)
Definition forks_insert (b : Bank A) : FM unit :=
  f ← get;
  let slot := bank_slot b in
  _ ← put (set_store (<[slot := b]> (bf_store f)) f);
  _ ← assert (negb (bool_decide (slot ∈ bf_banks f)));
  let d := <[slot := default ∅ (bf_descendants f !! slot)]> (bf_descendants f) in
  modify (set_banks ({[slot]} ∪ bf_banks f) (foldl (add_descendant slot) d (proper_ancestors b))).

(** The loop of [BankForks::remove] over the ancestors. *)
Fixpoint remove_descendant (slot : Slot) (banks : gset Slot) (ancestors : list Slot) (d : gmap Slot (gset Slot))
  : outcome fuel_error (gmap Slot (gset Slot)) :=
  match ancestors with
  | [] => Ok d
  | parent :: ancestors =>
      entry ← unwrap (d !! parent : option (gset Slot));
      let entry : gset Slot := entry ∖ {[slot]} in
      remove_descendant slot banks ancestors
        (if decide (entry = ∅ /\ parent ∉ banks) then delete parent d else <[parent := entry]> d)
  end.

(** [BankForks::remove]; whether there was a bank. *)
Definition forks_remove (slot : Slot) : FM bool :=
  f ← get;
  if decide (slot ∈ bf_banks f) then
    let banks := bf_banks f ∖ {[slot]} in
    b ← bank_at slot;
    d ← lift (remove_descendant slot banks (proper_ancestors b) (bf_descendants f));
    entry ← lift (unwrap (d !! slot : option (gset Slot)));
    _ ← modify (set_banks banks (if decide (entry = ∅) then delete slot d else d));
    mret true
  else mret false.

(** [Bank::squash], as far as the status cache and the parent pointer go. *)
Definition squash (slot : Slot) : FM unit :=
  _ ← freeze slot;
  ps ← parents slot;
  _ ← update_bank slot (set_parent None);
  modify (fun f => set_status_cache (foldl add_root (bf_status_cache f) (slot :: ps)) f).

Fixpoint for_each {X : Type} (g : X -> FM unit) (l : list X) : FM unit :=
  match l with [] => mret tt | x :: l => _ ← g x; for_each g l end.

(** The filter of [prune_non_rooted]; indexing [descendants] panics on a missing slot. *)
Definition keep_slot (f : BankForks) (root highest_confirmed_root : Slot) (slot : Slot) : outcome fuel_error bool :=
  if slot =? root then Ok true
  else
    of_root ← unwrap (bf_descendants f !! root : option (gset Slot));
    if bool_decide (slot ∈ of_root) then Ok true
    else if (slot <? root) && (highest_confirmed_root <=? slot) then
      of_slot ← unwrap (bf_descendants f !! slot : option (gset Slot));
      Ok (bool_decide (root ∈ of_slot))
    else Ok false.

Fixpoint prune_slots (f : BankForks) (root highest_confirmed_root : Slot) (slots : list Slot) : outcome fuel_error (list Slot) :=
  match slots with
  | [] => Ok []
  | slot :: slots =>
      keep ← keep_slot f root highest_confirmed_root slot;
      rest ← prune_slots f root highest_confirmed_root slots;
      Ok (if keep : bool then rest else slot :: rest)
  end.

Definition prune_non_rooted (root : Slot) (highest_confirmed_root : option Slot) : FM unit :=
  f ← get;
  slots ← lift (prune_slots f root (default root highest_confirmed_root) (elements (bf_banks f)));
  for_each (fun slot => _ ← forks_remove slot; mret tt) slots.

(** The loop of [do_set_root_return_metrics] over the root and its parents:
    squashes the first one due for an accounts hash, and returns whether that
    was the root. *)
Fixpoint squash_at_interval (root : Slot) (slots : list Slot) : FM bool :=
  match slots with
  | [] => mret false
  | slot :: slots =>
      b ← bank_at slot;
      f ← get;
      _ ← assert (negb (bf_accounts_hash_interval_slots f =? 0));
      if (bank_block_height b mod bf_accounts_hash_interval_slots f =? 0) && (bf_last_accounts_hash_slot f <? slot) then
        _ ← modify (set_last_accounts_hash_slot slot);
        _ ← squash slot;
        mret (slot =? root)
      else squash_at_interval root slots
  end.

(** [set_root]; the epoch change is only logged. *)
Definition set_root (root : Slot) (highest_confirmed_root : option Slot) : FM unit :=
  f ← get;
  _ ← assert (bool_decide (bf_root f ∈ bf_banks f));
  _ ← modify (with_root root);
  _ ← assert (bool_decide (root ∈ bf_banks f));
  ps ← parents root;
  is_root_bank_squashed ← squash_at_interval root (root :: ps);
  _ ← (if is_root_bank_squashed : bool then mret tt else squash root);
  prune_non_rooted root highest_confirmed_root.
End forks.
Arguments BankForks : clear implicits.

(** The results of a batch, by position. *)
Lemma zip_with_outcome_lookup {E X Y Z : Type} (g : X -> Y -> outcome E Z) xs ys zs k z :
  zip_with_outcome g xs ys = Ok zs -> zs !! k = Some z ->
  exists x y, xs !! k = Some x /\ ys !! k = Some y /\ g x y = Ok z.
Proof.
  revert ys zs k. induction xs as [|x xs IH]; intros [|y ys] zs k Hz Hk; cbn in Hz; try (injection Hz as <-; done).
  apply outcome_bind_Ok in Hz as (z0 & Hz0 & Hz). apply outcome_bind_Ok in Hz as (zs0 & Hzs0 & [= <-]).
  destruct k as [|k]; cbn in *; [naive_solver|]. by eapply IH.
Qed.
