(* ===== verification/Replay.v ===== *)
(** * No transaction is executed twice on a fork

    The blockhash queue, the status cache, the ancestors and the forks put
    together: banks are created, tick, commit transactions and become roots in
    any order, and no transaction accepted for its recent blockhash is committed
    twice on the same fork. *)
From Stdlib Require Import String.
From stdpp Require Import base numbers option list gmap sets.
From S2P Require Import Prelude Instruction Account Sysvar Message ComputeBudget Nonce System.
From S2P Require Import RollingBitField BlockhashQueue StatusCache BankForks.

#[local] Arguments hash_bytes : simpl never.

(** ** Chains of banks

    [l] maps the slot of a bank to the slot of its parent; the bank of slot 0
    is the first. *)
Inductive on_chain (l : gmap Slot Slot) : Slot -> Slot -> Prop :=
| chain_here s : is_Some (l !! s) -> on_chain l s s
| chain_parent s p a : l !! s = Some p -> s <> 0 -> on_chain l p a -> on_chain l s a.

(** Parents exist and have lower slots. *)
Definition links_ok (l : gmap Slot Slot) : Prop :=
  forall s p, l !! s = Some p -> s <> 0 -> p < s /\ is_Some (l !! p).

Section chains.
Context (l : gmap Slot Slot) (Hl : links_ok l).

Lemma chain_le s a : on_chain l s a -> a <= s.
Proof. induction 1 as [|s p a Hs H0 _ IH]; [lia|]. destruct (Hl s p Hs H0). lia. Qed.

Lemma chain_dom_l s a : on_chain l s a -> is_Some (l !! s).
Proof. by destruct 1. Qed.

Lemma chain_dom_r s a : on_chain l s a -> is_Some (l !! a).
Proof. by induction 1. Qed.

Lemma chain_trans s a c : on_chain l s a -> on_chain l a c -> on_chain l s c.
Proof. induction 1; [done|]. intros Hc. eapply chain_parent; eauto. Qed.

Lemma chain_antisym s a : on_chain l s a -> on_chain l a s -> s = a.
Proof. intros H1%chain_le H2%chain_le. lia. Qed.

(** Of two slots on a chain the lower one is on the chain of the other. *)
Lemma chain_total s a c : on_chain l s a -> on_chain l s c -> a <= c -> on_chain l c a.
Proof.
  induction 1 as [s Hs|s p a Hs H0 Ha IH]; intros Hc Hle.
  - apply chain_le in Hc as Hle'. assert (s = c) as -> by lia. by constructor.
  - inversion Hc as [? Hs'|? p' ? Hs' ? Hc']; subst.
    + by eapply chain_parent.
    + rewrite Hs in Hs'. injection Hs' as <-. by apply IH.
Qed.

Lemma chain_step s p a : l !! s = Some p -> s <> 0 -> on_chain l s a -> a = s \/ on_chain l p a.
Proof. intros Hs H0. inversion 1 as [|? p' ? Hs']; subst; [by left|]. right. congruence. Qed.

(** A slot strictly above another on a chain has a child on the chain. *)
Lemma chain_child s a : on_chain l s a -> a <> s -> exists c, on_chain l s c /\ c <> 0 /\ l !! c = Some a.
Proof.
  induction 1 as [s Hs|s p a Hs H0 Ha IH]; intros Hne; [done|]. destruct (decide (a = p)) as [->|Hap].
  - exists s. split_and!; [constructor; eauto|done|done].
  - destruct (IH Hap) as (c & Hc & ? & ?). exists c. split_and!; [|done|done]. by eapply chain_parent.
Qed.
End chains.

(** A new bank does not change the chains of the others. *)
Lemma chain_insert l slot p s a :
  links_ok l -> l !! slot = None -> is_Some (l !! s) -> on_chain (<[slot := p]> l) s a <-> on_chain l s a.
Proof.
  intros Hl Hnew Hs. split; intros Hc.
  - induction Hc as [s _|s q a Hq H0 _ IH]; [by constructor|].
    rewrite lookup_insert_ne in Hq by (intros ->; rewrite Hnew in Hs; by destruct Hs).
    eapply chain_parent; [done|done|]. apply IH. by destruct (Hl s q Hq H0).
  - induction Hc as [s' _|s q a Hq H0 _ IH]; [constructor; by apply lookup_insert_is_Some'; right|].
    eapply chain_parent; [|done|apply IH; by destruct (Hl s q Hq H0)].
    rewrite lookup_insert_ne; [done|]. intros ->. congruence.
Qed.

(** ** Lemmas on the log of statuses *)

Section exec.
Context {T : Type}.
Implicit Types l : StatusLog T.

(** A status of [key] is recorded in [slot], or may have been dropped with a root above it. *)
Definition recorded l (h : Hash) (key : list Z) (slot : Slot) : Prop :=
  slot <= sl_purged l \/
  exists x, x ∈ sl_entries l /\ se_blockhash x = h /\ se_slot x = slot /\ slice_of l h key = Some (se_key_slice x).

Lemma recorded_step l op l' h key slot :
  log_step l op l' -> (forall s, op = CacheClearSlot s -> s <> slot) -> recorded l h key slot -> recorded l' h key slot.
Proof.
  intros Hs Hop [Hp|(x & Hx & Hh & Hxs & Hk)].
  { left. destruct Hs; cbn; lia. }
  destruct Hs as [choice h' key' slot' res index k Hidx Hk'|fork Hsize|fork min keep Hsize Hin Hle Hkeep|slot'];
    unfold recorded; cbn.
  - right. exists x. rewrite elem_of_app. split_and!; [by left|done|done|].
    unfold slice_of in *. cbn. destruct (decide (h' = h)) as [->|Hne]; [|by rewrite lookup_insert_ne].
    rewrite lookup_insert_eq. destruct (sl_index l !! h) as [i|] eqn:Hi; [|done]. cbn in *.
    rewrite (Hidx i); [done|done|eauto].
  - right. exists x. split_and!; done.
  - destruct (Z.le_gt_cases slot min); [left; lia|]. right. exists x. rewrite list_elem_of_filter.
    split_and!; try done. apply Hkeep; [done|lia].
  - right. exists x. rewrite list_elem_of_filter. split_and!; try done. rewrite Hxs. intros ->. by apply (Hop slot').
Qed.

Lemma recorded_insert l choice h key slot res l' :
  log_step l (CacheInsert choice h key slot res) l' -> recorded l' h key slot.
Proof.
  inversion_clear 1 as [?????? k _ Hk| | |]. right. eexists. cbn. rewrite elem_of_app, list_elem_of_singleton.
  split_and!; [by right|done|done|]. unfold slice_of. cbn. by rewrite lookup_insert_eq.
Qed.

(** A recorded status is found on a fork with its slot. *)
Lemma recorded_found l h key slot ancestors :
  recorded l h key slot -> sl_purged l < slot -> ancestors slot || bool_decide (slot ∈ sl_roots l) = true ->
  log_get l key h ancestors <> None.
Proof.
  intros [?|(x & Hx & Hh & Hxs & Hk)] Hp Ha; [lia|]. unfold log_get. rewrite Hk. cbn.
  destruct (list_find _ _) as [[i p]|] eqn:Hf; [done|]. exfalso. apply list_find_None in Hf.
  rewrite Forall_forall in Hf. apply (Hf (se_slot x, se_status x)); [apply log_forks_elem; eauto 10|].
  cbn. by rewrite Hxs.
Qed.
End exec.

(** ** The system *)

Section system.
Context {A : Type} `{SlotSetLaws A}.
Context (sha256 : list Z -> Hash) `{Bincode NonceVersions} `{Bincode SystemInstruction}.
(** [ticks_per_slot] of the cluster. *)
Context (tps : Z) (Htps : 0 < tps).

Definition tx_blockhash (tx : SanitizedTransaction) : Hash := sm_recent_blockhash (tx_message tx).
Definition tx_key (tx : SanitizedTransaction) : list Z := hash_bytes (tx_message_hash tx).

(** The forks, with the blockhashes registered up to each bank and the
    transactions committed for their recent blockhash. *)
Record ForkSystem : Type := mkForkSystem {
  sys_forks : BankForks A;
  sys_hist : gmap Slot (list Hash);
  sys_executed : list (Slot * SanitizedTransaction);
}.

Definition store (f : BankForks A) (slot : Slot) : option (Bank A) := bf_store f !! slot.

(** The transactions of a batch that were executed after passing the checks for
    their recent blockhash. *)
Fixpoint committed (slot : Slot) (txs : list SanitizedTransaction) (checks : list TransactionCheckResult)
  (results : list (option TransactionResult)) : list (Slot * SanitizedTransaction) :=
  match txs, checks, results with
  | tx :: txs, (_, nonce) :: checks, res :: results =>
      match nonce, res with None, Some _ => [(slot, tx)] | _, _ => [] end ++ committed slot txs checks results
  | _, _, _ => []
  end.

(** A transaction is executed only if it passed the checks. *)
Fixpoint executed_checked (checks : list TransactionCheckResult) (results : list (option TransactionResult)) : Prop :=
  match checks, results with
  | (check, _) :: checks, res :: results => (is_Some res -> check = Ok tt) /\ executed_checked checks results
  | _, _ => True
  end.

Inductive sys_step : ForkSystem -> ForkSystem -> Prop :=
(** [ReplayStage::generate_new_bank_forks]: a child of a frozen bank at or above the root *)
| step_new_bank f hist ex parent p slot lps b f1 f2 h :
    parent ∈ bf_banks f -> bf_root f <= parent -> store f parent = Some p -> is_complete p = true ->
    parent < slot -> store f slot = None -> ancestor_slot_ok slot -> (slot + 1) * tps <= U64_MAX ->
    new_from_parent parent slot lps f = (Ok b, f1) -> forks_insert b f1 = (Ok tt, f2) -> hist !! parent = Some h ->
    sys_step (mkForkSystem f hist ex) (mkForkSystem f2 (<[slot := h]> hist) ex)
(** a tick of a bank that is not complete; blockhashes do not repeat *)
| step_tick f hist ex slot b hash now b' h :
    store f slot = Some b -> is_complete b = false -> hist !! slot = Some h -> hash ∉ h ->
    bq_hash_height (bank_blockhash_queue b) < U64_MAX ->
    register_tick (E := fuel_error) b hash now = Ok b' ->
    sys_step (mkForkSystem f hist ex)
      (mkForkSystem (set_store (<[slot := b']> (bf_store f)) f)
        (if is_block_boundary b (bank_tick_height b + 1) then <[slot := h ++ [hash]]> hist else hist) ex)
(** a batch of transactions of different messages is checked, executed and recorded *)
| step_commit f hist ex slot b feature_set cluster_type get_account txs locks max_age checks results choices cache :
    slot ∈ bf_banks f -> store f slot = Some b -> bank_frozen b = false ->
    max_age <= MAX_PROCESSING_AGE ->
    check_transactions (E := fuel_error) sha256 feature_set cluster_type get_account b (bf_status_cache f) txs locks max_age
      = Ok checks ->
    NoDup (tx_message_hash <$> txs) -> Forall (fun tx => CACHED_KEY_SIZE < length (tx_signature tx))%nat txs ->
    executed_checked checks results ->
    update_transaction_statuses (E := fuel_error) b choices (bf_status_cache f) txs results = Ok cache ->
    sys_step (mkForkSystem f hist ex) (mkForkSystem (set_status_cache cache f) hist (ex ++ committed slot txs checks results))
(** a complete bank at or above the root becomes the root *)
| step_set_root f hist ex root r highest_confirmed_root f' :
    bf_root f <= root -> store f root = Some r -> is_complete r = true ->
    set_root root highest_confirmed_root f = (Ok tt, f') ->
    sys_step (mkForkSystem f hist ex) (mkForkSystem f' hist ex).

(** The system starts with the bank of slot 0, the root. *)
Inductive sys_init : ForkSystem -> Prop :=
| sys_init_intro genesis_hash lps now ancestors interval :
    tps <= U64_MAX -> ss_from [0] = Ok ancestors ->
    sys_init (mkForkSystem
      (mkBankForks
        {[0 := mkBank 0 None 0 ancestors
          (queue_genesis_hash (BlockhashQueue_new MAX_RECENT_BLOCKHASHES) genesis_hash lps now) 0 tps tps 0 lps false]}
        {[0]} {[0 := ∅]} 0 interval 0 StatusCache_default)
      {[0 := [genesis_hash]]} []).

Inductive reachable : ForkSystem -> Prop :=
| reachable_init w : sys_init w -> reachable w
| reachable_step w w' : reachable w -> sys_step w w' -> reachable w'.

(** ** Invariant *)

Definition links (f : BankForks A) : gmap Slot Slot := bank_parent_slot <$> bf_store f.

Record bank_ok (f : BankForks A) (hist : gmap Slot (list Hash)) (R s : Slot) (b : Bank A) : Prop := {
  bo_slot : bank_slot b = s;
  bo_range : ancestor_slot_ok s;
  bo_tps : bank_ticks_per_slot b = tps;
  bo_max : bank_max_tick_height b = (s + 1) * tps /\ (s + 1) * tps <= U64_MAX;
  bo_tick : 0 <= bank_tick_height b <= bank_max_tick_height b;
  bo_hist : exists h, hist !! s = Some h /\ queue_history (bank_blockhash_queue b) h /\
    bq_max_age (bank_blockhash_queue b) = MAX_RECENT_BLOCKHASHES;
  (** the parent is frozen and complete; a complete bank has registered a hash of its own *)
  bo_parent : s <> 0 -> exists p hp hb, bf_store f !! bank_parent_slot b = Some p /\ bank_parent_slot b < s /\
    bank_frozen p = true /\ is_complete p = true /\ hist !! bank_parent_slot b = Some hp /\ hist !! s = Some hb /\
    hp `prefix_of` hb /\ (is_complete b = true -> length hp < length hb)%nat;
  (** the parent pointer is cleared at roots only *)
  bo_pointer : match bank_parent b with
    | Some p => p = bank_parent_slot b /\ s <> 0
    | None => on_chain (links f) R s
    end;
  (** the ancestors are the chain down to a root *)
  bo_ancestors : (forall a, ss_get (bank_ancestors b) a = true -> on_chain (links f) s a) /\
    (forall a, on_chain (links f) s a -> ss_get (bank_ancestors b) a = true \/ on_chain (links f) R a) /\
    (forall a, a ∈ ss_keys (bank_ancestors b) <-> ss_get (bank_ancestors b) a = true);
}.

(** The cache records the committed transactions and the roots. *)
Definition cache_ok (f : BankForks A) (ex : list (Slot * SanitizedTransaction)) (R : Slot) : Prop :=
  exists l, represents (bf_status_cache f) l /\ log_ok l /\
    (forall r, r ∈ sl_roots l -> on_chain (links f) R r) /\
    (forall r, on_chain (links f) R r -> r ∈ sl_roots l \/ r <= sl_purged l) /\
    (forall s tx, (s, tx) ∈ ex -> recorded l (tx_blockhash tx) (tx_key tx) s).

(** The part of the invariant that holds with [R] as the root in the middle of [set_root]. *)
Record core (f : BankForks A) (hist : gmap Slot (list Hash)) (ex : list (Slot * SanitizedTransaction)) (R : Slot) : Prop := {
  c_banks : forall s b, bf_store f !! s = Some b -> bank_ok f hist R s b;
  c_genesis : is_Some (bf_store f !! 0);
  c_root : exists b, bf_store f !! R = Some b /\ bank_parent b = None;
  c_desc : forall p d s, bf_descendants f !! p = Some d -> s ∈ d ->
    exists b, bf_store f !! s = Some b /\ p ∈ proper_ancestors b;
  c_cache : cache_ok f ex R;
  c_exec : forall s tx, (s, tx) ∈ ex -> is_Some (bf_store f !! s) /\ exists h, hist !! s = Some h /\ tx_blockhash tx ∈ h;
}.

(** The banks of the forks descend from the root, or are its ancestors. *)
Definition live (f : BankForks A) (R : Slot) : Prop :=
  forall s, s ∈ bf_banks f -> is_Some (bf_store f !! s) /\
    (R <= s -> on_chain (links f) s R) /\ (s < R -> on_chain (links f) R s).

Definition same_tx (tx1 tx2 : SanitizedTransaction) : Prop :=
  tx_message_hash tx1 = tx_message_hash tx2 /\ tx_blockhash tx1 = tx_blockhash tx2.

(** No chain has two commits of the same transaction. *)
Definition once (l : gmap Slot Slot) (ex : list (Slot * SanitizedTransaction)) : Prop :=
  forall i j s1 s2 tx1 tx2 s, ex !! i = Some (s1, tx1) -> ex !! j = Some (s2, tx2) -> same_tx tx1 tx2 ->
    on_chain l s s1 -> on_chain l s s2 -> i = j.

Record inv (w : ForkSystem) : Prop := {
  i_core : core (sys_forks w) (sys_hist w) (sys_executed w) (bf_root (sys_forks w));
  i_live : live (sys_forks w) (bf_root (sys_forks w));
  i_once : once (links (sys_forks w)) (sys_executed w);
}.

Implicit Types f : BankForks A.

Lemma links_lookup f s b : bf_store f !! s = Some b -> links f !! s = Some (bank_parent_slot b).
Proof. unfold links. intros Hb. by rewrite lookup_fmap, Hb. Qed.

Lemma links_lookup_Some f s p : links f !! s = Some p -> exists b, bf_store f !! s = Some b /\ bank_parent_slot b = p.
Proof. unfold links. rewrite lookup_fmap, fmap_Some. naive_solver. Qed.

Lemma links_is_Some f s : is_Some (links f !! s) <-> is_Some (bf_store f !! s).
Proof. unfold links. by rewrite lookup_fmap, fmap_is_Some. Qed.

Section with_core.
Context {f : BankForks A} {hist : gmap Slot (list Hash)} {ex : list (Slot * SanitizedTransaction)} {R : Slot}.
Context (Hcore : core f hist ex R).
Let l := links f.

Lemma core_links_ok : links_ok l.
Proof.
  intros s p (b & Hb & <-)%links_lookup_Some Hs0. destruct (bo_parent _ _ _ _ _ (c_banks _ _ _ _ Hcore s b Hb) Hs0)
    as (p & _ & _ & Hp & ? & _). split; [done|]. unfold l. by rewrite links_is_Some, Hp.
Qed.
Let Hl := core_links_ok.

Lemma chain_nonneg s a : on_chain l s a -> 0 <= a.
Proof.
  intros Ha. apply chain_dom_r in Ha. unfold l in Ha. rewrite links_is_Some in Ha. destruct Ha as [b Hb].
  by destruct (bo_range _ _ _ _ _ (c_banks _ _ _ _ Hcore a b Hb)).
Qed.

(** An ancestor is frozen. *)
Lemma chain_frozen s a b : on_chain l s a -> a <> s -> bf_store f !! a = Some b -> bank_frozen b = true.
Proof.
  intros Ha Hne Hb. destruct (chain_child l s a Ha Hne) as (c & _ & Hc0 & (bc & Hbc & Hpc)%links_lookup_Some).
  destruct (bo_parent _ _ _ _ _ (c_banks _ _ _ _ Hcore c bc Hbc) Hc0) as (p & _ & _ & Hp & _ & Hf & _).
  rewrite Hpc, Hb in Hp. by injection Hp as ->.
Qed.

Lemma hist_lookup s : is_Some (l !! s) -> exists b h, bf_store f !! s = Some b /\ hist !! s = Some h /\
  queue_history (bank_blockhash_queue b) h /\ bq_max_age (bank_blockhash_queue b) = MAX_RECENT_BLOCKHASHES.
Proof.
  unfold l. rewrite links_is_Some. intros [b Hb].
  destruct (bo_hist _ _ _ _ _ (c_banks _ _ _ _ Hcore s b Hb)) as (h & ? & ? & ?). eauto 10.
Qed.

(** The blockhashes of an ancestor are the first ones of its descendants. *)
Lemma chain_prefix s a hs ha :
  on_chain l s a -> hist !! s = Some hs -> hist !! a = Some ha -> ha `prefix_of` hs.
Proof.
  intros Hc. revert hs. induction Hc as [s _|s p a Hs Hs0 Hc IH]; intros hs Hhs Hha; [by simplify_eq|].
  apply links_lookup_Some in Hs as (b & Hb & <-).
  destruct (bo_parent _ _ _ _ _ (c_banks _ _ _ _ Hcore s b Hb) Hs0) as (p & hp & hb & Hp & _ & _ & _ & Hhp & Hhb & Hpre & _).
  rewrite Hhs in Hhb. injection Hhb as <-. etrans; [by apply IH|done].
Qed.

(** Every bank on a chain has registered a blockhash of its own, except
    possibly the last. *)
Lemma chain_growth s a (S : gset Slot) hs ha b :
  on_chain l s a -> (forall x, x ∈ S -> on_chain l s x /\ a < x) -> hist !! s = Some hs -> hist !! a = Some ha ->
  bf_store f !! s = Some b -> (length ha + size S <= length hs + if is_complete b then 0 else 1)%nat.
Proof.
  intros Hc. revert S hs b. induction Hc as [s _|s p a Hs Hs0 Hc IH]; intros S hs b HS Hhs Hha Hb.
  - simplify_eq. assert (S = ∅) as ->.
    { apply set_eq. intros x. split; [|set_solver]. intros [Hx%(chain_le l Hl) ?]%HS. lia. }
    rewrite size_empty. lia.
  - apply links_lookup_Some in Hs as (b' & Hb' & <-). assert (b' = b) as -> by congruence.
    destruct (bo_parent _ _ _ _ _ (c_banks _ _ _ _ Hcore s b Hb) Hs0)
      as (p & hp & hb & Hp & Hlt & _ & Hcomp & Hhp & Hhb & Hpre & Hgrow).
    rewrite Hhs in Hhb. injection Hhb as <-.
    assert (length ha + size (S ∖ {[s]}) <= length hp + 0)%nat as IH'.
    { replace 0%nat with (if is_complete p then 0 else 1)%nat by (by rewrite Hcomp). apply IH; [|done..].
      intros x [Hx Hne]%elem_of_difference. destruct (HS x Hx) as [Hxc ?]. split; [|done].
      destruct (chain_step l s (bank_parent_slot b) x) as [->|?]; [by apply links_lookup|done|done|set_solver|done]. }
    assert (size S <= size (S ∖ {[s]}) + 1)%nat as Hsz.
    { transitivity (size ((S ∖ {[s]}) ∪ {[s]})); [apply subseteq_size; intros x; destruct (decide (x = s)); set_solver|].
      rewrite size_union by set_solver. rewrite size_singleton. lia. }
    apply prefix_length in Hpre. destruct (is_complete b); [specialize (Hgrow eq_refl)|]; lia.
Qed.

(** ** Parents *)

(** The parent pointers lead down to the root. *)
Lemma parents_spec fuel s b ps :
  on_chain l s R -> bf_store f !! s = Some b -> parents_of fuel (bf_store f) (bank_parent b) = Ok ps ->
  (forall a, a ∈ ps -> on_chain l s a /\ on_chain l a R) /\
  (forall a, on_chain l s a -> a = s \/ a ∈ ps \/ on_chain l R a).
Proof.
  revert s b ps. induction fuel as [|fuel IH]; intros s b ps HR Hb Hps;
    pose proof (bo_pointer _ _ _ _ _ (c_banks _ _ _ _ Hcore s b Hb)) as Hptr; destruct (bank_parent b) as [p|] eqn:Hbp; cbn in Hps.
  - done.
  - injection Hps as <-. assert (s = R) as -> by (by eapply (chain_antisym l Hl)). split; [set_solver|auto].
  - destruct Hptr as [-> Hs0]. ok_inv. rename x into p, x0 into ps'.
    assert (s <> R) as Hne by (intros ->; destruct (c_root _ _ _ _ Hcore) as (b' & ? & ?); simplify_eq).
    pose proof (links_lookup f s b Hb) as Hls.
    destruct (chain_step l s (bank_parent_slot b) R Hls Hs0 HR) as [?|HpR]; [done|].
    destruct (IH (bank_parent_slot b) p ps') as [IH1 IH2]; [done|done|done|].
    assert (forall a, on_chain l (bank_parent_slot b) a -> on_chain l s a) as Hup by (intros; by eapply chain_parent).
    split.
    + intros a [->|Ha]%elem_of_cons; [|naive_solver]. split; [|done]. apply Hup. constructor. by eapply chain_dom_l.
    + intros a Ha. destruct (chain_step l s _ a Hls Hs0 Ha) as [?|Ha']; [by left|].
      destruct (IH2 a Ha') as [->|[?|?]]; set_solver.
  - injection Hps as <-. assert (s = R) as -> by (by eapply (chain_antisym l Hl)). split; [set_solver|auto].
Qed.
End with_core.

(** ** Roots *)

Lemma add_roots_ok (c : BankStatusCache) lg rs :
  represents c lg -> log_ok lg -> (forall r, r ∈ rs -> 0 <= r) ->
  exists lg', represents (foldl add_root c rs) lg' /\ log_ok lg' /\
    (forall r, r ∈ sl_roots lg' -> r ∈ sl_roots lg \/ r ∈ rs) /\
    (forall r, r ∈ sl_roots lg \/ r <= sl_purged lg \/ r ∈ rs -> r ∈ sl_roots lg' \/ r <= sl_purged lg') /\
    (forall h key slot, recorded lg h key slot -> recorded lg' h key slot).
Proof.
  revert c lg. induction rs as [|r rs IH]; intros c lg Hr Hok Hpos; cbn.
  { exists lg. split_and!; [done|done|auto|set_solver|auto]. }
  destruct (add_root_represents c lg r Hr) as (l1 & Hstep & Hr1).
  pose proof (log_step_ok lg _ l1 Hstep (Hpos r ltac:(left)) Hok) as Hok1.
  destruct (IH _ l1 Hr1 Hok1) as (lg' & Hr' & Hok' & Hsub & Hkeep & Hrec); [intros; apply Hpos; by right|].
  assert (forall x, x ∈ sl_roots l1 -> x ∈ sl_roots lg \/ x = r) as Hsub1.
  { inversion Hstep; subst; cbn; set_solver. }
  assert (forall x, x ∈ sl_roots lg \/ x <= sl_purged lg \/ x = r -> x ∈ sl_roots l1 \/ x <= sl_purged l1) as Hkeep1.
  { intros x Hx. inversion Hstep as [|? Hsize|? min ? Hsize Hin Hle Hkp|]; subst; cbn.
    - destruct Hx as [?|[?|?]]; [left; set_solver|by right|left; set_solver].
    - destruct (decide (x = min)) as [->|Hne]; [right; lia|]. destruct Hx as [?|[?|?]]; [left; set_solver|right; lia|left; set_solver]. }
  exists lg'. split_and!; [done|done| | |].
  - intros x Hx. destruct (Hsub x Hx) as [[?| ->]%Hsub1|?]; set_solver.
  - intros x Hx. apply Hkeep. rewrite elem_of_cons in Hx. specialize (Hkeep1 x). naive_solver.
  - intros h key slot Hrc. apply Hrec. eapply recorded_step; [exact Hstep| |done]. intros s; discriminate.
Qed.

(** A bank keeps its invariant when banks are frozen and the root moves down its chain. *)
Lemma bank_ok_mono f f' hist R R' s b :
  links f' = links f -> (forall a, on_chain (links f) R a -> on_chain (links f) R' a) ->
  (forall p b, bf_store f !! p = Some b -> exists b', bf_store f' !! p = Some b' /\
    (bank_frozen b = true -> bank_frozen b' = true) /\ is_complete b' = is_complete b) ->
  bank_ok f hist R s b -> bank_ok f' hist R' s b.
Proof.
  intros Hlinks HR Hst Hb. destruct Hb. split; rewrite ?Hlinks; try done.
  - intros Hs0. destruct (bo_parent0 Hs0) as (p & hp & hb & Hp & Hlt & Hf & Hc & Hrest).
    destruct (Hst _ _ Hp) as (p' & Hp' & Hf' & Hc'). exists p', hp, hb. rewrite Hc'. split_and!; try done; try apply Hrest. auto.
  - destruct (bank_parent b); auto.
  - destruct bo_ancestors0 as (? & Ha & ?). split_and!; [done| |done]. intros a Hc. destruct (Ha a Hc); auto.
Qed.

Definition squashed (b : Bank A) : Bank A := set_parent None (set_frozen true b).

Lemma squash_Ok s f u f' :
  squash s f = (Ok u, f') -> exists b ps, bf_store f !! s = Some b /\
    parents_of (size (bf_store f)) (alter (set_frozen true) s (bf_store f)) (bank_parent b) = Ok ps /\
    f' = set_status_cache (foldl add_root (bf_status_cache f) (s :: ps)) (set_store (alter squashed s (bf_store f)) f).
Proof.
  unfold squash, freeze, update_bank, parents, bank_at. intros Hr. ok_inv. cbn in *.
  match goal with H : alter _ _ _ !! _ = Some _ |- _ => rename H into Hb end.
  rewrite lookup_alter_eq in Hb. apply fmap_Some in Hb as (b0 & Hb0 & ->). cbn in *.
  eexists b0, _. split_and!; [done| |].
  - rewrite <- (size_dom (bf_store f)), <- (dom_alter_L (set_frozen true) _ s), size_dom. eassumption.
  - unfold set_status_cache, set_store. cbn. f_equal. by rewrite alter_alter_eq.
Qed.

Lemma parents_of_alter g fuel (st : gmap Slot (Bank A)) s p :
  (forall b, bank_parent (g b) = bank_parent b) -> parents_of fuel (alter g s st) p = parents_of fuel st p.
Proof.
  intros Hg. revert p. induction fuel as [|fuel IH]; intros [p|]; try done. cbn.
  destruct (decide (p = s)) as [->|Hne].
  - rewrite lookup_alter_eq. destruct (st !! s) as [b|]; [|done]. cbn. by rewrite Hg, IH.
  - rewrite lookup_alter_ne by done. destruct (st !! p) as [b|]; [|done]. cbn. by rewrite IH.
Qed.

Lemma links_alter g s f : (forall b, bank_parent_slot (g b) = bank_parent_slot b) -> links (set_store (alter g s (bf_store f)) f) = links f.
Proof.
  intros Hg. unfold links. cbn. apply map_eq. intros x. rewrite !lookup_fmap. destruct (decide (x = s)) as [->|Hne].
  - rewrite lookup_alter_eq. destruct (bf_store f !! s); cbn; [by rewrite Hg|done].
  - by rewrite lookup_alter_ne.
Qed.

(** Squashing a descendant of the root makes it the root. *)
Lemma squash_core f f' hist ex R s u :
  core f hist ex R -> on_chain (links f) s R -> squash s f = (Ok u, f') ->
  core f' hist ex s /\ links f' = links f /\ bf_banks f' = bf_banks f /\ bf_root f' = bf_root f /\
  bf_descendants f' = bf_descendants f.
Proof.
  intros Hcore HsR Hsq. destruct (squash_Ok s f u f' Hsq) as (b & ps & Hb & Hps & ->).
  rewrite parents_of_alter in Hps by done. clear Hsq.
  set (f1 := set_store (alter squashed s (bf_store f)) f).
  assert (links f1 = links f) as Hlinks by (by apply links_alter).
  assert (links (set_status_cache (foldl add_root (bf_status_cache f) (s :: ps)) f1) = links f) as Hlinks' by done.
  split_and!; try done. pose proof (core_links_ok Hcore) as Hl.
  destruct (parents_spec Hcore _ s b ps HsR Hb Hps) as [Hps1 Hps2].
  assert (forall a, on_chain (links f) R a -> on_chain (links f) s a) as HR by (intros; by eapply chain_trans).
  split.
  - intros s' b' Hb'. cbn in Hb'. destruct (decide (s' = s)) as [->|Hne].
    + rewrite lookup_alter_eq, Hb in Hb'. injection Hb' as <-.
      assert (bank_ok (set_status_cache (foldl add_root (bf_status_cache f) (s :: ps)) f1) hist s s b) as Hbo.
      { eapply bank_ok_mono; [exact Hlinks'|exact HR| |by apply (c_banks _ _ _ _ Hcore)].
        intros p q Hq. cbn. destruct (decide (p = s)) as [->|Hps']; [|by rewrite lookup_alter_ne; eauto].
        rewrite lookup_alter_eq, Hq. eexists. split_and!; [done|done|done]. }
      destruct Hbo. split; try done. cbn [squashed set_parent set_frozen bank_parent]. rewrite Hlinks'.
      constructor. apply links_is_Some. eauto.
    + rewrite lookup_alter_ne in Hb' by done.
      eapply bank_ok_mono; [exact Hlinks'|exact HR| |by apply (c_banks _ _ _ _ Hcore)].
      intros p q Hq. cbn. destruct (decide (p = s)) as [->|Hps']; [|by rewrite lookup_alter_ne; eauto].
      rewrite lookup_alter_eq, Hq. eexists. split_and!; [done|done|done].
  - cbn. destruct (c_genesis _ _ _ _ Hcore) as [g Hg]. destruct (decide (0 = s)) as [<-|]; [by rewrite lookup_alter_eq, Hg|].
    by rewrite lookup_alter_ne, Hg.
  - exists (squashed b). cbn. by rewrite lookup_alter_eq, Hb.
  - intros p d x Hd Hx. destruct (c_desc _ _ _ _ Hcore p d x Hd Hx) as (bx & Hbx & Hp). cbn.
    destruct (decide (x = s)) as [->|]; [|by rewrite lookup_alter_ne; eauto].
    rewrite lookup_alter_eq, Hbx. eexists. split; [done|]. exact Hp.
  - destruct (c_cache _ _ _ _ Hcore) as (lg & Hr & Hok & Hroots & Hall & Hexec).
    destruct (add_roots_ok (bf_status_cache f) lg (s :: ps) Hr Hok) as (lg' & Hr' & Hok' & Hsub & Hkeep & Hrec).
    { intros r [->|Hin]%elem_of_cons; eapply (chain_nonneg Hcore s); [constructor; apply links_is_Some; eauto|].
      by apply Hps1. }
    exists lg'. rewrite Hlinks'. split_and!; [done|done| | |].
    + intros r [?|[->|?]%elem_of_cons]%Hsub; [by apply HR, Hroots|constructor; apply links_is_Some; eauto|by apply Hps1].
    + intros r Hc. apply Hkeep. destruct (Hps2 r Hc) as [->|[?|Hc']]; [set_solver|set_solver|].
      destruct (Hall r Hc'); auto.
    + intros x tx Hin. apply Hrec. by apply Hexec.
  - intros x tx Hin. destruct (c_exec _ _ _ _ Hcore x tx Hin) as [Hx ?]. split; [|done]. cbn. by rewrite lookup_alter_is_Some.
Qed.

(** ** Setting the root *)

Lemma core_ext f f' hist ex R :
  bf_store f' = bf_store f -> bf_status_cache f' = bf_status_cache f ->
  (forall p d s, bf_descendants f' !! p = Some d -> s ∈ d -> exists d', bf_descendants f !! p = Some d' /\ s ∈ d') ->
  core f hist ex R -> core f' hist ex R.
Proof.
  intros Hst Hc Hd Hcore. assert (links f' = links f) as Hlinks by (unfold links; by rewrite Hst).
  destruct Hcore as [Hb Hg Hr Hds Hca He]. split; rewrite ?Hst; try done.
  - intros s b Hs. apply (bank_ok_mono f f' hist R R); [done|auto| |auto]. rewrite Hst. eauto.
  - intros p d s Hp Hin. destruct (Hd p d s Hp Hin) as (d' & ? & ?). eauto.
  - unfold cache_ok. rewrite Hc, Hlinks. exact Hca.
Qed.

Lemma remove_descendant_Ok slot banks anc d d' :
  remove_descendant slot banks anc d = Ok d' ->
  forall p D s, d' !! p = Some D -> s ∈ D -> exists D', d !! p = Some D' /\ s ∈ D'.
Proof.
  revert d. induction anc as [|a anc IH]; intros d Hd; cbn in Hd; [ok_inv; eauto|].
  apply outcome_bind_Ok in Hd as (entry & Hentry%unwrap_Ok & Hd). intros p D s Hp Hs.
  destruct (IH _ Hd p D s Hp Hs) as (D' & HD' & Hs'). case_decide.
  - apply lookup_delete_Some in HD' as [_ HD']. eauto.
  - apply lookup_insert_Some in HD' as [[<- <-]|[_ HD']]; [|eauto]. exists entry. set_solver.
Qed.

Lemma forks_remove_Ok slot f r f' :
  forks_remove slot f = (Ok r, f') ->
  exists d', f' = set_banks (bf_banks f ∖ {[slot]}) d' f /\
    forall p D s, d' !! p = Some D -> s ∈ D -> exists D', bf_descendants f !! p = Some D' /\ s ∈ D'.
Proof.
  unfold forks_remove, bank_at. intros Hr. ok_inv. case_decide; ok_inv.
  - eexists. split; [done|]. intros p D s Hp Hs.
    match goal with H : remove_descendant _ _ _ _ = Ok _ |- _ => eapply (remove_descendant_Ok _ _ _ _ _ H p D s); [|done] end.
    case_decide; [by apply lookup_delete_Some in Hp as [_ ?]|done].
  - exists (bf_descendants f). split; [|eauto]. replace (bf_banks f ∖ {[slot]}) with (bf_banks f) by set_solver. by destruct f.
Qed.

Lemma remove_each_Ok slots f u f' :
  for_each (fun slot => _ ← forks_remove slot; mret tt) slots f = (Ok u, f') ->
  bf_store f' = bf_store f /\ bf_status_cache f' = bf_status_cache f /\ bf_root f' = bf_root f /\
  bf_banks f' = bf_banks f ∖ list_to_set slots /\
  forall p D s, bf_descendants f' !! p = Some D -> s ∈ D -> exists D', bf_descendants f !! p = Some D' /\ s ∈ D'.
Proof.
  revert f. induction slots as [|slot slots IH]; intros f Hf; cbn in Hf.
  - ok_inv. split_and!; [done..|set_solver|eauto].
  - ok_inv. match goal with H : forks_remove _ _ = _ |- _ => destruct (forks_remove_Ok _ _ _ _ H) as (d & -> & Hd) end.
    match goal with H : for_each _ _ _ = _ |- _ => destruct (IH _ H) as (H1' & H2' & H3' & H4' & H5') end.
    cbn in *. split_and!; [done|done|done|set_solver|].
    intros p D s Hp Hs. destruct (H5' p D s Hp Hs) as (D' & ? & ?). eauto.
Qed.

Lemma prune_slots_Ok f root hcr slots ps s :
  prune_slots f root hcr slots = Ok ps -> s ∈ slots -> s ∉ ps -> keep_slot f root hcr s = Ok true.
Proof.
  revert ps. induction slots as [|x slots IH]; intros ps Hps Hin Hout; [set_solver|]. cbn in Hps.
  apply outcome_bind_Ok in Hps as (k & Hk & Hps). apply outcome_bind_Ok in Hps as (rest & Hrest & [= <-]).
  destruct k; apply elem_of_cons in Hin as [->|Hin]; try done; [by eapply IH|set_solver|]. eapply IH; set_solver.
Qed.

(** The banks kept by [prune_non_rooted]. *)
Lemma keep_slot_Ok f root hcr s :
  keep_slot f root hcr s = Ok true ->
  s = root \/ (exists D, bf_descendants f !! root = Some D /\ s ∈ D) \/
  (s < root /\ exists D, bf_descendants f !! s = Some D /\ root ∈ D).
Proof.
  unfold keep_slot. destruct (Z.eqb_spec s root); [by left|]. intros Hk.
  apply outcome_bind_Ok in Hk as (D & HD%unwrap_Ok & Hk). case_bool_decide; [right; left; eauto|].
  destruct ((s <? root) && (hcr <=? s)) eqn:Hc; [|done]. apply andb_true_iff in Hc as [? _].
  apply outcome_bind_Ok in Hk as (D' & HD'%unwrap_Ok & [= Hk]). apply bool_decide_eq_true in Hk.
  right. right. split; [lia|eauto].
Qed.

Lemma prune_live f hist ex root hcr u f' :
  core f hist ex root -> prune_non_rooted root hcr f = (Ok u, f') -> (forall s, s ∈ bf_banks f -> is_Some (bf_store f !! s)) ->
  core f' hist ex root /\ live f' root /\ links f' = links f /\ bf_root f' = bf_root f.
Proof.
  intros Hcore Hp Hdom. unfold prune_non_rooted in Hp. ok_inv.
  match goal with H : for_each _ _ _ = _ |- _ => destruct (remove_each_Ok _ _ _ _ H) as (Hst & Hc & Hroot & Hbanks & Hd) end.
  match goal with H : prune_slots _ _ _ _ = Ok _ |- _ => rename H into Hps end.
  assert (links f' = links f) as Hlinks by (unfold links; by rewrite Hst).
  split_and!; [by apply (core_ext f)| |done|done].
  intros s Hs. rewrite Hbanks in Hs. apply elem_of_difference in Hs as [Hs Hns].
  rewrite Hst, Hlinks. split; [by apply Hdom|].
  assert (forall p D x, bf_descendants f !! p = Some D -> x ∈ D -> on_chain (links f) x p) as Hdesc.
  { intros p D x HD Hx. destruct (c_desc _ _ _ _ Hcore p D x HD Hx) as (b & Hb & [_ Ha]%list_elem_of_filter).
    destruct (bo_ancestors _ _ _ _ _ (c_banks _ _ _ _ Hcore x b Hb)) as (H1' & _ & H3'). by apply H1', H3'. }
  pose proof (core_links_ok Hcore) as Hl.
  pose proof (prune_slots_Ok _ _ _ _ _ s Hps ltac:(by apply elem_of_elements) ltac:(set_solver)) as Hk.
  destruct (keep_slot_Ok _ _ _ _ Hk) as [->|[(D & HD & Hx)|(Hlt & D & HD & Hx)]].
  - split; [|lia]. intros _. constructor. apply links_is_Some. by apply Hdom.
  - apply (Hdesc _ _ _ HD) in Hx. pose proof (chain_le _ Hl _ _ Hx). split; [done|lia].
  - apply (Hdesc _ _ _ HD) in Hx. split; [lia|done].
Qed.

Lemma squash_at_interval_core root slots f hist ex R r f' :
  core f hist ex R -> (forall a, a ∈ slots -> on_chain (links f) a R /\ on_chain (links f) root a) ->
  is_Some (links f !! root) -> squash_at_interval root slots f = (Ok r, f') ->
  exists R', core f' hist ex R' /\ links f' = links f /\ bf_banks f' = bf_banks f /\ bf_root f' = bf_root f /\
    (r = true -> R' = root) /\ (R' = R \/ on_chain (links f) root R').
Proof.
  intros Hcore. induction slots as [|s slots IH]; intros Hs Hroot Hr; cbn [squash_at_interval] in Hr; ok_inv.
  - exists R. split_and!; try done. by left.
  - unfold bank_at in *. ok_inv.
    match goal with H : (if ?c then _ else _) _ = _ |- _ => destruct c end; [|by apply IH; [set_solver| |]]. ok_inv.
    match goal with H : squash _ _ = _ |- _ => rename H into Hsq end.
    assert (core (set_last_accounts_hash_slot s f) hist ex R) as Hcore1 by (apply (core_ext f); eauto).
    destruct (Hs s ltac:(left)) as [HsR Hrs].
    destruct (squash_core _ _ _ _ _ s _ Hcore1 HsR Hsq) as (Hc' & Hl' & Hb' & Hr' & _).
    exists s. split_and!; try done; [by intros ->%Z.eqb_eq|by right].
Qed.

Lemma set_root_inv f f' hist ex root hcr r :
  inv (mkForkSystem f hist ex) -> bf_root f <= root -> store f root = Some r ->
  set_root root hcr f = (Ok tt, f') -> inv (mkForkSystem f' hist ex).
Proof.
  intros [Hcore Hlive Honce] Hle Hroot Hs. cbn in *. unfold set_root, parents, bank_at in Hs. ok_inv.
  cbn [with_root bf_store] in *. unfold store in Hroot. simplify_eq.
  assert (on_chain (links f) root (bf_root f)) as HR by (by apply Hlive).
  pose proof (core_links_ok Hcore) as Hl.
  assert (core (with_root root f) hist ex (bf_root f)) as Hc1 by (apply (core_ext f); eauto).
  match goal with H : parents_of _ _ _ = Ok ?ps |- _ => destruct (parents_spec Hcore _ root r ps HR Hroot H) as [Hps _] end.
  match goal with H : squash_at_interval _ _ _ = _ |- _ => apply (squash_at_interval_core _ _ _ _ _ _ _ _ Hc1) in H
    as (R' & Hc2 & Hl2 & Hb2 & Hr2 & Hroot2 & HR') end.
  2: { intros a [->|Ha]%elem_of_cons; split; try done; [constructor; apply links_is_Some; eauto|by apply Hps..]. }
  2: { apply links_is_Some. eauto. }
  change (links (with_root root f)) with (links f) in *. cbn in Hb2, Hr2.
  match goal with H : (if ?c then _ else _) _ = _ |- _ => rename H into Hsq; rename c into sq end.
  match goal with H : prune_non_rooted _ _ _ = _ |- _ => rename H into Hpr end.
  match type of Hsq with (if _ then _ else _) ?a = (_, ?b) => rename a into f2; rename b into f3 end.
  assert (core f3 hist ex root /\ links f3 = links f /\ bf_banks f3 = bf_banks f /\ bf_root f3 = root) as (Hc3 & Hl3 & Hb3 & Hr3).
  { destruct sq; ok_inv; [rewrite Hroot2 in Hc2 by done; by split_and!|].
    assert (on_chain (links f2) root R') as HrR.
    { rewrite Hl2. by destruct HR' as [->|?]. }
    match goal with H : squash _ _ = _ |- _ => destruct (squash_core _ _ _ _ _ _ _ Hc2 HrR H) as (? & ? & ? & ? & _) end.
    split_and!; congruence. }
  destruct (prune_live f3 hist ex root hcr _ f' Hc3 Hpr) as (Hc4 & Hlive4 & Hl4 & Hr4).
  { intros s Hs. rewrite Hb3 in Hs. apply links_is_Some. rewrite Hl3. apply links_is_Some. by apply Hlive. }
  split; cbn; rewrite ?Hr4, ?Hr3; [done|done|]. by rewrite Hl4, Hl3.
Qed.

(** ** Ticks *)

Lemma tick_bank_ok f hist R s b hash now h b' :
  bank_ok f hist R s b -> is_complete b = false -> hist !! s = Some h -> hash ∉ h ->
  bq_hash_height (bank_blockhash_queue b) < U64_MAX -> register_tick (E := fuel_error) b hash now = Ok b' ->
  bank_frozen b = false /\ bank_parent b' = bank_parent b /\ bank_parent_slot b' = bank_parent_slot b /\
  bank_ancestors b' = bank_ancestors b /\ bank_slot b' = bank_slot b /\
  forall f', links f' = links f -> (forall p q, p <> s -> bf_store f !! p = Some q -> bf_store f' !! p = Some q) ->
    bank_ok f' (if is_block_boundary b (bank_tick_height b + 1) then <[s := h ++ [hash]]> hist else hist) R s b'.
Proof.
  intros Hb Hinc Hh Hnew Hlt Htick. unfold register_tick in Htick. destruct (bank_frozen b) eqn:Hfr; [done|].
  pose proof (bo_tick _ _ _ _ _ Hb) as Ht. pose proof (bo_max _ _ _ _ _ Hb) as [Hm1 Hm2].
  unfold is_complete in Hinc. apply Z.eqb_neq in Hinc.
  rewrite add64_small in Htick by u64. injection Htick as <-. split_and!; try done. intros f' Hlinks Hst.
  set (bd := is_block_boundary b (bank_tick_height b + 1)).
  assert (exists h', (if bd then <[s := h ++ [hash]]> hist else hist) !! s = Some h' /\ h `prefix_of` h' /\
    queue_history (if bd then register_hash (bank_blockhash_queue b) hash (bank_lamports_per_signature b) now
      else bank_blockhash_queue b) h' /\
    (bank_tick_height b + 1 = bank_max_tick_height b -> (length h < length h')%nat)) as (h' & Hh' & Hpre & Hq & Hgrow).
  { destruct (bo_hist _ _ _ _ _ Hb) as (h0 & Hh0 & Hq & Hage). rewrite Hh in Hh0. injection Hh0 as <-.
    destruct bd eqn:Hbd.
    - exists (h ++ [hash]). rewrite lookup_insert_eq, length_app. split_and!; [done|by apply prefix_app_r| |cbn; lia].
      by apply queue_history_register.
    - exists h. split_and!; [done|done|done|]. intros Hlast. exfalso. unfold bd, is_block_boundary in Hbd.
      rewrite Hlast, Hm1, (bo_tps _ _ _ _ _ Hb), Z.mod_mul in Hbd by lia. done. }
  destruct Hb. split; cbn [set_ticks bank_slot bank_parent bank_parent_slot bank_ancestors bank_blockhash_queue
    bank_tick_height bank_max_tick_height bank_ticks_per_slot]; rewrite ?Hlinks; try done; try lia.
  - exists h'. split_and!; [done|done|]. destruct bo_hist0 as (h0 & _ & _ & Hage). by destruct bd.
  - intros Hs0. destruct (bo_parent0 Hs0) as (p & hp & hb & Hp & Hlt' & Hf & Hc & Hhp & Hhb & Hpr & Hg).
    rewrite Hh in Hhb. injection Hhb as <-. exists p, hp, h'.
    split_and!; [apply Hst; [lia|done]|done|done|done| |done|by etrans|].
    + destruct bd; [|done]. rewrite lookup_insert_ne; [done|lia].
    + intros Hdone%Z.eqb_eq. cbn in Hdone. apply prefix_length in Hpr. specialize (Hgrow Hdone). lia.
Qed.

Lemma tick_inv f hist ex slot b hash now b' h :
  inv (mkForkSystem f hist ex) -> store f slot = Some b -> is_complete b = false -> hist !! slot = Some h -> hash ∉ h ->
  bq_hash_height (bank_blockhash_queue b) < U64_MAX -> register_tick (E := fuel_error) b hash now = Ok b' ->
  inv (mkForkSystem (set_store (<[slot := b']> (bf_store f)) f)
        (if is_block_boundary b (bank_tick_height b + 1) then <[slot := h ++ [hash]]> hist else hist) ex).
Proof.
  intros [Hcore Hlive Honce] Hb Hinc Hh Hnew Hlt Htick. cbn in *. unfold store in Hb.
  pose proof (c_banks _ _ _ _ Hcore slot b Hb) as Hbo.
  destruct (tick_bank_ok f hist _ slot b hash now h b' Hbo Hinc Hh Hnew Hlt Htick) as (Hfr & Hp & Hps & Ha & Hsl & Hok).
  set (f' := set_store _ f). set (hist' := if is_block_boundary _ _ then _ else _).
  assert (links f' = links f) as Hlinks.
  { unfold links, f'. cbn. rewrite fmap_insert, Hps. by apply insert_id, links_lookup. }
  assert (forall s x, s <> slot -> hist !! s = Some x -> hist' !! s = Some x) as Hhist.
  { intros s x Hne Hx. unfold hist'. destruct (is_block_boundary _ _); [by rewrite lookup_insert_ne|done]. }
  assert (exists h', hist' !! slot = Some h' /\ h ⊆ h') as (h' & Hh' & Hsub).
  { unfold hist'. destruct (is_block_boundary _ _); [|eauto]. eexists. rewrite lookup_insert_eq. split; [done|].
    apply list_subseteq_app_l. done. }
  split; cbn [sys_forks sys_hist sys_executed]; [|intros s Hs; specialize (Hlive s Hs)|by rewrite Hlinks].
  - split.
    + intros s q Hq. cbn in Hq. destruct (decide (s = slot)) as [->|Hne].
      * rewrite lookup_insert_eq in Hq. injection Hq as <-. apply Hok; [done|]. intros p q Hpne Hpq. unfold f'. cbn.
        by rewrite lookup_insert_ne.
      * rewrite lookup_insert_ne in Hq by done. pose proof (c_banks _ _ _ _ Hcore s q Hq) as Hqo.
        destruct Hqo. split; rewrite ?Hlinks; try done.
        -- destruct bo_hist0 as (x & ? & ? & ?). exists x. split_and!; auto.
        -- intros Hs0. destruct (bo_parent0 Hs0) as (p & hp & hb & Hpp & ? & Hpf & ? & ? & ? & ? & ?). exists p, hp, hb.
           assert (bank_parent_slot q <> slot) by (intros He; rewrite He in Hpp; congruence).
           split_and!; auto. unfold f'. cbn. by rewrite lookup_insert_ne.
    + destruct (c_genesis _ _ _ _ Hcore) as [g Hg]. unfold f'. cbn. apply lookup_insert_is_Some'. rewrite Hg. eauto.
    + destruct (c_root _ _ _ _ Hcore) as (r & Hr & Hrp). unfold f'. cbn. destruct (decide (bf_root f = slot)) as [He|Hne].
      * exists b'. rewrite He in *. rewrite lookup_insert_eq. split; [done|]. congruence.
      * exists r. by rewrite lookup_insert_ne.
    + intros p d s Hd Hs. destruct (c_desc _ _ _ _ Hcore p d s Hd Hs) as (q & Hq & Hpq). unfold f'. cbn.
      destruct (decide (s = slot)) as [->|Hne]; [|rewrite lookup_insert_ne by done; eauto].
      exists b'. rewrite lookup_insert_eq. split; [done|]. simplify_eq. unfold proper_ancestors in *. by rewrite Hsl, Ha.
    + destruct (c_cache _ _ _ _ Hcore) as (lg & ?). exists lg. by rewrite Hlinks.
    + intros s tx Hin. destruct (c_exec _ _ _ _ Hcore s tx Hin) as [Hs (x & Hx & Htx)].
      split; [unfold f'; cbn; apply lookup_insert_is_Some'; auto|].
      destruct (decide (s = slot)) as [->|Hne]; [|eauto]. simplify_eq. eauto.
  - rewrite Hlinks. split; [|apply Hlive]. unfold f'. cbn. apply lookup_insert_is_Some'. right. apply Hlive.
Qed.

(** ** New banks *)

Lemma freeze_core f hist ex R s :
  core f hist ex R -> core (set_store (alter (set_frozen true) s (bf_store f)) f) hist ex R.
Proof.
  intros Hcore. set (f' := set_store _ f).
  assert (links f' = links f) as Hlinks by (by apply links_alter).
  assert (forall x b, bf_store f !! x = Some b -> exists b', bf_store f' !! x = Some b' /\
    (b' = b \/ b' = set_frozen true b)) as Hst.
  { intros x b Hb. unfold f'. cbn. destruct (decide (x = s)) as [->|]; [|rewrite lookup_alter_ne by done; eauto].
    rewrite lookup_alter_eq, Hb. eauto. }
  assert (forall x b, bf_store f' !! x = Some b -> exists b0, bf_store f !! x = Some b0 /\ (b = b0 \/ b = set_frozen true b0)) as Hst'.
  { intros x b Hb. unfold f' in Hb. cbn in Hb. destruct (decide (x = s)) as [->|]; [|rewrite lookup_alter_ne in Hb by done; eauto].
    rewrite lookup_alter_eq in Hb. apply fmap_Some in Hb as (b0 & ? & ->). eauto. }
  split.
  - intros x b Hb. destruct (Hst' x b Hb) as (b0 & Hb0 & Hor).
    assert (bank_ok f' hist R x b0) as Hbo.
    { apply (bank_ok_mono f f' hist R R); [done|auto| |by apply (c_banks _ _ _ _ Hcore)].
      intros p q Hq. destruct (Hst p q Hq) as (q' & ? & [->| ->]); eexists; split_and!; eauto; done. }
    destruct Hor as [->| ->]; [done|]. destruct Hbo. by split.
  - destruct (c_genesis _ _ _ _ Hcore) as [g Hg]. destruct (Hst 0 g Hg) as (? & -> & _). eauto.
  - destruct (c_root _ _ _ _ Hcore) as (r & Hr & Hp). destruct (Hst R r Hr) as (r' & ? & [->| ->]); eauto.
  - intros p d x Hd Hx. destruct (c_desc _ _ _ _ Hcore p d x Hd Hx) as (b & Hb & Hp).
    destruct (Hst x b Hb) as (b' & ? & [->| ->]); eauto.
  - destruct (c_cache _ _ _ _ Hcore) as (lg & ?). exists lg. by rewrite Hlinks.
  - intros x tx Hin. destruct (c_exec _ _ _ _ Hcore x tx Hin) as [[b Hb] ?]. split; [|done].
    destruct (Hst x b Hb) as (? & -> & _). eauto.
Qed.

Lemma new_from_parent_Ok parent slot lps f b f1 :
  new_from_parent parent slot lps f = (Ok b, f1) ->
  exists p ps anc, bf_store f1 !! parent = Some p /\ bank_frozen p = true /\
    f1 = set_store (alter (set_frozen true) parent (bf_store f)) f /\
    (exists fuel, parents_of fuel (bf_store f1) (bank_parent p) = Ok ps) /\
    ss_from (slot :: bank_slot p :: ps) = Ok anc /\
    b = mkBank slot (Some (bank_slot p)) (bank_slot p) anc (bank_blockhash_queue p) (bank_tick_height p)
      (mul64 (add64 slot 1) (bank_ticks_per_slot p)) (bank_ticks_per_slot p) (add64 (bank_block_height p) 1) lps false.
Proof.
  unfold new_from_parent, freeze, update_bank, parents, bank_at. intros Hr. ok_inv. cbn [set_store bf_store] in *. simplify_eq.
  match goal with H : alter _ _ _ !! _ = Some ?p |- _ => rename H into Hp; rename p into p' end.
  eexists p', _, _. split_and!; [done| |done|eauto|done|done].
  rewrite lookup_alter_eq in Hp. by apply fmap_Some in Hp as (? & _ & ->).
Qed.

Lemma add_descendants_elem slot anc d p D s :
  foldl (add_descendant slot) d anc !! p = Some D -> s ∈ D ->
  (exists D', d !! p = Some D' /\ s ∈ D') \/ (s = slot /\ p ∈ anc).
Proof.
  revert d. induction anc as [|a anc IH]; intros d Hp Hs; cbn in Hp; [eauto|].
  destruct (IH _ Hp Hs) as [(D' & HD & Hs')|[-> ?]]; [|right; set_solver].
  unfold add_descendant in HD. apply lookup_insert_Some in HD as [[<- <-]|[_ HD]]; [|eauto].
  apply elem_of_union in Hs' as [->%elem_of_singleton|Hs']; [right; set_solver|].
  destruct (d !! a) as [D0|] eqn:Hd; cbn in Hs'; [eauto|set_solver].
Qed.

Lemma forks_insert_Ok b f1 f2 u :
  forks_insert b f1 = (Ok u, f2) ->
  f2 = set_banks ({[bank_slot b]} ∪ bf_banks f1)
    (foldl (add_descendant (bank_slot b)) (<[bank_slot b := default ∅ (bf_descendants f1 !! bank_slot b)]> (bf_descendants f1))
      (proper_ancestors b)) (set_store (<[bank_slot b := b]> (bf_store f1)) f1).
Proof. unfold forks_insert. intros Hr. by ok_inv. Qed.

(** The invariant of the banks that were there, with one more bank. *)
Lemma bank_ok_insert f f2 hist R slot b h s q :
  links_ok (links f) -> links f2 = <[slot := bank_parent_slot b]> (links f) -> bf_store f2 = <[slot := b]> (bf_store f) ->
  bf_store f !! slot = None -> is_Some (bf_store f !! R) -> bf_store f !! s = Some q ->
  bank_ok f hist R s q -> bank_ok f2 (<[slot := h]> hist) R s q.
Proof.
  intros Hl Hlinks Hst Hnew HR Hs Hq. assert (s <> slot) as Hne by congruence.
  assert (forall x a, is_Some (bf_store f !! x) -> on_chain (links f2) x a <-> on_chain (links f) x a) as Hch.
  { intros x a Hx. rewrite Hlinks. apply chain_insert; [done| |by apply links_is_Some].
    unfold links. by rewrite lookup_fmap, Hnew. }
  destruct Hq. split; try done.
  - destruct bo_hist0 as (x & ? & ? & ?). exists x. by rewrite lookup_insert_ne.
  - intros Hs0. destruct (bo_parent0 Hs0) as (p & hp & hb & Hp & Hrest). exists p, hp, hb.
    assert (bank_parent_slot q <> slot) by (intros He; rewrite He in Hp; congruence).
    rewrite Hst, !lookup_insert_ne by done. done.
  - destruct (bank_parent q); [done|]. by apply Hch.
  - destruct bo_ancestors0 as (H1' & H2' & H3'). split_and!; [|intros a|done].
    + intros a Ha. apply Hch; eauto.
    + rewrite !Hch by eauto. apply H2'.
Qed.


(** The new bank itself. *)
Lemma new_bank_ok f f2 hist ex R parent slot lps p ps anc h fuel :
  core f hist ex R -> on_chain (links f) parent R ->
  bf_store f !! parent = Some p -> bank_frozen p = true -> is_complete p = true -> hist !! parent = Some h ->
  parents_of fuel (bf_store f) (bank_parent p) = Ok ps -> ss_from (slot :: parent :: ps) = Ok anc ->
  parent < slot -> bf_store f !! slot = None -> ancestor_slot_ok slot -> (slot + 1) * tps <= U64_MAX ->
  let b := mkBank slot (Some parent) parent anc (bank_blockhash_queue p) (bank_tick_height p)
    (mul64 (add64 slot 1) tps) tps (add64 (bank_block_height p) 1) lps false in
  links f2 = <[slot := parent]> (links f) -> bf_store f2 = <[slot := b]> (bf_store f) ->
  bank_ok f2 (<[slot := h]> hist) R slot b.
Proof.
  intros Hcore HpR Hp Hfr Hcomp Hh Hps Hanc Hlt Hnew Hsl Hmax b Hlinks Hst.
  pose proof (core_links_ok Hcore) as Hl. pose proof (c_banks _ _ _ _ Hcore parent p Hp) as Hpo.
  pose proof (bo_tick _ _ _ _ _ Hpo). pose proof (bo_max _ _ _ _ _ Hpo) as [Hpm _]. pose proof (bo_range _ _ _ _ _ Hpo) as [? _].
  apply Z.eqb_eq in Hcomp as Hpt. pose proof Hsl as [? Hs64].
  assert (mul64 (add64 slot 1) tps = (slot + 1) * tps) as Hmt.
  { rewrite add64_small by (unfold ANCESTORS_HASH_MAP_SIZE in Hs64; u64). apply mul64_small. u64. }
  assert (forall x a, is_Some (bf_store f !! x) -> on_chain (links f2) x a <-> on_chain (links f) x a) as Hch.
  { intros x a Hx. rewrite Hlinks. apply chain_insert; [done| |by apply links_is_Some].
    unfold links. by rewrite lookup_fmap, Hnew. }
  assert (links f2 !! slot = Some parent) as Hls by (by rewrite Hlinks, lookup_insert_eq).
  destruct (parents_spec Hcore _ parent p ps HpR Hp Hps) as [Hps1 Hps2].
  assert (forall a, a ∈ slot :: parent :: ps -> is_Some (bf_store f !! a) \/ a = slot) as Hdom.
  { intros a [->|[->|Ha]%elem_of_cons]%elem_of_cons; [by right|left; eauto|left].
    apply links_is_Some. eapply chain_dom_r, Hps1, Ha. }
  destruct (ss_from_ok (slot :: parent :: ps)) as (anc' & Hanc' & Hget & Hkeys & _).
  { apply Forall_forall. intros a Ha. destruct (Hdom a Ha) as [[q Hq]| ->]; [|done].
    by apply (bo_range _ _ _ _ _ (c_banks _ _ _ _ Hcore a q Hq)). }
  rewrite Hanc in Hanc'. injection Hanc' as <-.
  split; cbn [b bank_slot bank_parent bank_parent_slot bank_ancestors bank_blockhash_queue bank_tick_height
    bank_max_tick_height bank_ticks_per_slot]; rewrite ?Hmt; try done; try nia.
  - destruct (bo_hist _ _ _ _ _ Hpo) as (h0 & Hh0 & ? & ?). exists h. rewrite lookup_insert_eq. simplify_eq. done.
  - intros _. exists p, h, h. rewrite Hst, !lookup_insert_ne, lookup_insert_eq by lia. split_and!; try done.
    unfold is_complete. cbn. rewrite Hmt, Z.eqb_eq. nia.
  - split_and!.
    + intros a Ha. rewrite Hget in Ha. apply bool_decide_eq_true in Ha.
      apply elem_of_cons in Ha as [->|Ha]; [constructor; eauto|]. eapply chain_parent; [exact Hls|lia|].
      apply Hch; [eauto|]. apply elem_of_cons in Ha as [->|Ha]; [constructor; apply links_is_Some; eauto|by apply Hps1].
    + intros a Ha. rewrite Hget, bool_decide_eq_true.
      destruct (chain_step _ slot parent a Hls ltac:(lia) Ha) as [->|Ha']; [left; set_solver|].
      rewrite Hch in Ha' by eauto. destruct (Hps2 a Ha') as [->|[?|?]]; [left; set_solver|left; set_solver|].
      right. apply Hch; [|done]. destruct (c_root _ _ _ _ Hcore) as (r & ? & _). eauto.
    + intros a. by rewrite Hkeys, Hget, bool_decide_eq_true.
Qed.

(** A new bank adds no commit to any chain. *)
Lemma once_insert f hist ex R slot parent :
  core f hist ex R -> bf_store f !! slot = None -> is_Some (bf_store f !! parent) -> slot <> 0 ->
  once (links f) ex -> once (<[slot := parent]> (links f)) ex.
Proof.
  intros Hcore Hnew Hp Hs0 Honce. pose proof (core_links_ok Hcore) as Hlk.
  assert (links f !! slot = None) as Hls by (unfold links; by rewrite lookup_fmap, Hnew).
  assert (forall x s, is_Some (bf_store f !! x) -> on_chain (<[slot := parent]> (links f)) s x ->
    on_chain (links f) (if decide (s = slot) then parent else s) x) as Hdown.
  { intros x s Hx Hc. case_decide as Hsl'.
    - subst s. destruct (chain_step _ slot parent x ltac:(apply lookup_insert_eq) Hs0 Hc) as [->|Hc'].
      + rewrite Hnew in Hx. by destruct Hx.
      + apply chain_insert in Hc'; [done|done|done|by apply links_is_Some].
    - apply chain_insert in Hc as Hc'; [done|done|done|]. apply chain_dom_l in Hc.
      by rewrite lookup_insert_ne in Hc. }
  intros i j s1 s2 tx1 tx2 s Hi Hj Hsame Hc1 Hc2.
  destruct (c_exec _ _ _ _ Hcore s1 tx1 (list_elem_of_lookup_2 _ _ _ Hi)) as [Hd1 _].
  destruct (c_exec _ _ _ _ Hcore s2 tx2 (list_elem_of_lookup_2 _ _ _ Hj)) as [Hd2 _].
  eapply Honce; [exact Hi|exact Hj|exact Hsame|by apply Hdown|by apply Hdown].
Qed.

Lemma new_bank_inv f hist ex parent p slot lps b f1 f2 h :
  inv (mkForkSystem f hist ex) ->
  parent ∈ bf_banks f -> bf_root f <= parent -> store f parent = Some p -> is_complete p = true ->
  parent < slot -> store f slot = None -> ancestor_slot_ok slot -> (slot + 1) * tps <= U64_MAX ->
  new_from_parent parent slot lps f = (Ok b, f1) -> forks_insert b f1 = (Ok tt, f2) -> hist !! parent = Some h ->
  inv (mkForkSystem f2 (<[slot := h]> hist) ex).
Proof.
  intros [Hcore Hlive Honce] Hin Hle Hp Hcomp Hlt Hnew Hsl Hmax Hnfp Hins Hh. cbn in *. unfold store in *.
  destruct (new_from_parent_Ok _ _ _ _ _ _ Hnfp) as (p' & ps & anc & Hp' & Hfr & Hf1 & [fuel Hps] & Hanc & Hb).
  assert (core f1 hist ex (bf_root f)) as Hcore1 by (rewrite Hf1; by apply freeze_core).
  assert (links f1 = links f) as Hl1 by (rewrite Hf1; by apply links_alter).
  assert (bf_store f1 !! slot = None) as Hnew1.
  { rewrite Hf1. cbn. rewrite lookup_alter_ne by lia. done. }
  assert (is_complete p' = true /\ bank_slot p' = parent /\ bank_ticks_per_slot p' = tps) as (Hcomp' & Hslp & Htp).
  { pose proof (c_banks _ _ _ _ Hcore1 parent p' Hp') as Hpo. split_and!; [|apply Hpo|apply Hpo].
    rewrite Hf1 in Hp'. cbn in Hp'. rewrite lookup_alter_eq, Hp in Hp'. by injection Hp' as <-. }
  rewrite Hslp, Htp in *. assert (bank_slot b = slot /\ bank_parent_slot b = parent) as [Hbs Hbp] by (by rewrite Hb).
  pose proof (forks_insert_Ok _ _ _ _ Hins) as Hf2. rewrite Hbs in Hf2.
  assert (bf_store f2 = <[slot := b]> (bf_store f1)) as Hst2 by (by rewrite Hf2).
  assert (links f2 = <[slot := parent]> (links f1)) as Hl2 by (unfold links; by rewrite Hst2, fmap_insert, Hbp).
  assert (bf_root f2 = bf_root f) as Hr2 by (by rewrite Hf2, Hf1).
  assert (on_chain (links f1) parent (bf_root f)) as HpR by (rewrite Hl1; by apply Hlive).
  destruct (c_root _ _ _ _ Hcore1) as (r & Hr & Hrp). pose proof (core_links_ok Hcore1) as Hlk.
  assert (forall x a, is_Some (bf_store f1 !! x) -> on_chain (links f2) x a <-> on_chain (links f1) x a) as Hch.
  { intros x a Hx. rewrite Hl2. apply chain_insert; [done| |by apply links_is_Some].
    unfold links. by rewrite lookup_fmap, Hnew1. }
  assert (forall x, is_Some (bf_store f1 !! x) -> is_Some (bf_store f2 !! x)) as Hmono.
  { intros x Hx. rewrite Hst2. apply lookup_insert_is_Some'. by right. }
  assert (links f2 !! slot = Some parent) as Hls by (by rewrite Hl2, lookup_insert_eq).
  assert (slot <> 0) as Hsl0 by (pose proof (chain_nonneg Hcore1 _ _ HpR); lia).
  assert (on_chain (links f2) slot (bf_root f)) as HslR by (eapply chain_parent; [done|done|apply Hch; eauto]).
  split; cbn [sys_forks sys_hist sys_executed]; rewrite ?Hr2.
  - split.
    + intros s q Hq. rewrite Hst2 in Hq. destruct (decide (s = slot)) as [->|Hne].
      * rewrite lookup_insert_eq in Hq. injection Hq as <-. rewrite Hb. rewrite Hb in Hst2.
        by apply (new_bank_ok f1 f2 hist ex (bf_root f) parent slot lps p' ps anc h fuel).
      * rewrite lookup_insert_ne in Hq by done. 
        apply (bank_ok_insert f1 f2 hist (bf_root f) slot b);
          [done|by rewrite Hbp|done|done|eauto|done|by apply (c_banks _ _ _ _ Hcore1)].
    + apply Hmono, (c_genesis _ _ _ _ Hcore1).
    + exists r. rewrite Hst2, lookup_insert_ne by congruence. done.
    + intros q d s Hd Hs. rewrite Hf2 in Hd. cbn in Hd.
      destruct (add_descendants_elem _ _ _ _ _ _ Hd Hs) as [(D' & HD & Hs')|[-> Hq]].
      * assert (exists D0, bf_descendants f1 !! q = Some D0 /\ s ∈ D0) as (D0 & HD0 & Hs0).
        { apply lookup_insert_Some in HD as [[<- <-]|[_ HD]]; [|eauto]. destruct (bf_descendants f1 !! slot); cbn in Hs'; [eauto|set_solver]. }
        destruct (c_desc _ _ _ _ Hcore1 q D0 s HD0 Hs0) as (x & Hx & Hxq). exists x.
        rewrite Hst2, lookup_insert_ne by congruence. done.
      * exists b. by rewrite Hst2, lookup_insert_eq.
    + destruct (c_cache _ _ _ _ Hcore1) as (lg & ? & ? & Hrts & Hall & Hex). exists lg.
      assert (bf_status_cache f2 = bf_status_cache f1) as -> by (by rewrite Hf2).
      split_and!; try done; intros x Hx; [apply Hch; eauto|]. rewrite Hch in Hx by eauto. by apply Hall.
    + intros s tx Hs. destruct (c_exec _ _ _ _ Hcore1 s tx Hs) as [Hsd (x & Hx & Htx)]. split; [auto|].
      exists x. rewrite lookup_insert_ne; [done|]. intros <-. rewrite Hnew1 in Hsd. by destruct Hsd.
  - intros s Hs. rewrite Hf2 in Hs. cbn in Hs. apply elem_of_union in Hs as [->%elem_of_singleton|Hs].
    + split_and!; [rewrite Hst2, lookup_insert_eq; eauto|done|]. intros ?. lia.
    + assert (s ∈ bf_banks f) as Hs' by (by rewrite Hf1 in Hs). destruct (Hlive s Hs') as (Hd & H1' & H2').
      assert (is_Some (bf_store f1 !! s)) by (rewrite Hf1; cbn; by rewrite lookup_alter_is_Some).
      split_and!; [auto|intros ?; apply Hch; [done|rewrite Hl1; auto]|intros ?; apply Hch; [eauto|rewrite Hl1; auto]].
  - rewrite Hl2. apply (once_insert f1 hist ex (bf_root f)); eauto. by rewrite Hl1.
Qed.

(** ** Commits *)

(** A transaction accepted for its recent blockhash has a recent one, and no
    status on the fork. *)
Lemma check_transactions_Ok fs ct ga b cache txs locks max_age checks k :
  check_transactions (E := fuel_error) sha256 fs ct ga b cache txs locks max_age = Ok checks ->
  checks !! k = Some (Ok tt, None) -> exists tx, txs !! k = Some tx /\
    check_hash_age (bank_blockhash_queue b) (tx_blockhash tx) max_age = Some true /\
    get_status (E := fuel_error) cache (tx_key tx) (tx_blockhash tx) (ss_get (bank_ancestors b)) = Ok None.
Proof.
  unfold check_transactions, check_age, check_status_cache. intros Hc Hk. ok_inv.
  match goal with H : zip_with_outcome (check_transaction_status _ _) _ _ = _ |- _ =>
    destruct (zip_with_outcome_lookup _ _ _ _ _ _ H Hk) as (tx & age & Htx & Hage & Hst) end.
  match goal with H : zip_with_outcome (check_transaction_age _ _ _ _ _ _ _) _ _ = _ |- _ =>
    destruct (zip_with_outcome_lookup _ _ _ _ _ _ H Hage) as (tx' & lock & Htx' & Hlock & Ha) end.
  rewrite Htx in Htx'. injection Htx' as <-. exists tx. split; [done|].
  unfold check_transaction_status, is_transaction_already_processed in Hst.
  destruct age as [[u| |] nonce]; cbn in Hst; [|congruence..].
  apply outcome_bind_Ok in Hst as (processed & Hproc & Hst).
  apply outcome_bind_Ok in Hproc as (status & Hstatus & [= <-]). destruct status; [done|]. injection Hst as -> ->.
  split; [|done]. unfold check_transaction_age in Ha. destruct lock; [|congruence..]. case_bool_decide; [done|].
  ok_inv. match goal with H : match ?n with _ => _ end = Ok _ |- _ => destruct n as [[? ?]|]; congruence end.
Qed.

Lemma committed_lookup slot txs checks results s tx :
  executed_checked checks results -> (s, tx) ∈ committed slot txs checks results ->
  s = slot /\ exists k st, txs !! k = Some tx /\ checks !! k = Some (Ok tt, None) /\ results !! k = Some (Some st).
Proof.
  revert checks results. induction txs as [|tx0 txs IH]; intros [|[c n] checks] [|r results] He Hin; cbn in *; try set_solver.
  destruct He as [Hc He]. apply elem_of_app in Hin as [Hin|Hin].
  - destruct n, r as [st|]; try set_solver. apply list_elem_of_singleton in Hin. injection Hin as -> ->.
    split; [done|]. exists 0%nat, st. cbn. by rewrite Hc.
  - destruct (IH _ _ He Hin) as (? & k & st & ? & ? & ?). split; [done|]. exists (S k), st. done.
Qed.

Lemma committed_sublist slot txs checks results :
  (committed slot txs checks results).*2 `sublist_of` txs.
Proof.
  revert checks results. induction txs as [|tx0 txs IH]; intros checks results; cbn; [done|].
  destruct checks as [|[c n] checks]; [apply sublist_nil_l|]. destruct results as [|r results]; [apply sublist_nil_l|].
  rewrite fmap_app. destruct n, r; cbn; [apply sublist_cons..|apply sublist_skip|apply sublist_cons]; apply IH.
Qed.

Lemma hash_bytes_length h : length (hash_bytes h) = 32%nat.
Proof. unfold hash_bytes. by rewrite length_fmap, length_seq. Qed.

(** Recording the statuses of a batch. *)
Lemma update_statuses_ok (b : Bank A) choices cache txs results cache' lg :
  represents cache lg -> log_ok lg -> sl_purged lg < bank_slot b ->
  Forall (fun tx => CACHED_KEY_SIZE < length (tx_signature tx))%nat txs ->
  update_transaction_statuses (E := fuel_error) b choices cache txs results = Ok cache' ->
  exists lg', represents cache' lg' /\ log_ok lg' /\ sl_roots lg' = sl_roots lg /\ sl_purged lg' = sl_purged lg /\
    (forall h key slot, recorded lg h key slot -> recorded lg' h key slot) /\
    (forall k tx st, txs !! k = Some tx -> results !! k = Some (Some st) -> recorded lg' (tx_blockhash tx) (tx_key tx) (bank_slot b)).
Proof.
  revert choices cache results lg. induction txs as [|tx txs IH]; intros choices cache results lg Hr Hok Hp Hsig Hu.
  { destruct results as [|r results], choices as [|[c1 c2] choices]; cbn in Hu; try done; injection Hu as <-;
      exists lg; split_and!; auto; intros ??? Hk; by rewrite lookup_nil in Hk. }
  destruct results as [|r results], choices as [|[c1 c2] choices]; cbn in Hu; try done.
  apply Forall_cons in Hsig as [Hs Hsig]. apply outcome_bind_Ok in Hu as (cache1 & Hc1 & Hu).
  assert (exists l1, represents cache1 l1 /\ log_ok l1 /\ sl_roots l1 = sl_roots lg /\ sl_purged l1 = sl_purged lg /\
    (forall h key slot, recorded lg h key slot -> recorded l1 h key slot) /\
    (is_Some r -> recorded l1 (tx_blockhash tx) (tx_key tx) (bank_slot b))) as (l1 & Hr1 & Hok1 & Hrt1 & Hpu1 & Hrec1 & Hnew1).
  { destruct r as [st|]; [|injection Hc1 as <-; exists lg; split_and!; auto; by intros [? ?]].
    apply outcome_bind_Ok in Hc1 as (ca & Hca & Hcb).
    assert (op_ok lg (CacheInsert c1 (tx_blockhash tx) (tx_key tx) (bank_slot b) st)) as Hop1.
    { split; [|done]. unfold tx_key. rewrite hash_bytes_length. unfold CACHED_KEY_SIZE. lia. }
    destruct (insert_represents (E := fuel_error) _ _ _ _ _ _ _ Hr Hop1) as (ca' & la & Hca' & Hstep1 & Hra).
    fold (tx_blockhash tx) (tx_key tx) in Hca.
    rewrite Hca' in Hca. injection Hca as ->.
    assert (sl_roots la = sl_roots lg /\ sl_purged la = sl_purged lg) as [Hra1 Hpa1] by (by inversion Hstep1).
    assert (op_ok la (CacheInsert c2 (tx_blockhash tx) (tx_signature tx) (bank_slot b) st)) as Hop2 by (split; [done|lia]).
    destruct (insert_represents (E := fuel_error) _ _ _ _ _ _ _ Hra Hop2) as (cb' & lb & Hcb' & Hstep2 & Hrb).
    fold (tx_blockhash tx) in Hcb.
    rewrite Hcb' in Hcb. injection Hcb as ->.
    assert (sl_roots lb = sl_roots la /\ sl_purged lb = sl_purged la) as [Hrb1 Hpb1] by (by inversion Hstep2).
    assert (forall h key slot, recorded la h key slot -> recorded lb h key slot) as Hab.
    { intros h key slot. apply (recorded_step _ _ _ _ _ _ Hstep2). discriminate. }
    exists lb. split_and!; [done| |congruence|congruence| |].
    - eapply log_step_ok; [exact Hstep2|done|]. by eapply log_step_ok.
    - intros h key slot Hx. apply Hab. apply (recorded_step _ _ _ _ _ _ Hstep1); [discriminate|done].
    - intros _. by eapply Hab, recorded_insert. }
  destruct (IH choices cache1 results l1 Hr1 Hok1 ltac:(lia) Hsig Hu) as (lg' & ? & ? & ? & ? & Hrec' & Hnew').
  exists lg'. split_and!; [done|done|congruence|congruence|auto|].
  intros [|k] tx' st Htx Hres; cbn in *; [|by eapply Hnew'].
  injection Htx as ->. injection Hres as ->. apply Hrec', Hnew1. eauto.
Qed.

(** The dropped roots are below the root. *)
Lemma purged_below_root f hist ex R (lg : StatusLog TransactionResult) :
  core f hist ex R -> log_ok lg -> (forall r, r ∈ sl_roots lg -> on_chain (links f) R r) -> sl_purged lg < R.
Proof.
  intros Hcore Hok Hroots. pose proof (core_links_ok Hcore) as Hl.
  assert (0 <= R) as HR.
  { destruct (c_root _ _ _ _ Hcore) as (r & Hr & _). by destruct (bo_range _ _ _ _ _ (c_banks _ _ _ _ Hcore R r Hr)). }
  destruct (Z.lt_ge_cases (sl_purged lg) 0); [lia|]. pose proof (lo_purged _ Hok ltac:(lia)) as Hsz.
  destruct (set_choose_L (sl_roots lg)) as [r Hr]; [intros He; rewrite He, size_empty in Hsz; done|].
  pose proof (lo_above _ Hok r Hr). pose proof (chain_le _ Hl _ _ (Hroots r Hr)). lia.
Qed.

(** An unfrozen bank of the forks descends from the root. *)
Lemma unfrozen_descends f hist ex slot b :
  core f hist ex (bf_root f) -> live f (bf_root f) -> slot ∈ bf_banks f -> bf_store f !! slot = Some b ->
  bank_frozen b = false -> bf_root f <= slot /\ on_chain (links f) slot (bf_root f).
Proof.
  intros Hcore Hlive Hin Hb Hfr. destruct (Hlive slot Hin) as (_ & H1' & H2').
  destruct (Z.lt_ge_cases slot (bf_root f)) as [Hlt|]; [|split; [lia|auto]].
  rewrite (chain_frozen Hcore (bf_root f) slot b) in Hfr; [done|auto|lia|done].
Qed.

(** A committed transaction is rejected by every bank on its fork: either its
    status is found, or 300 roots lie in between and its blockhash is too old. *)
Lemma replay_rejected f hist ex slot b s tx max_age :
  core f hist ex (bf_root f) -> live f (bf_root f) -> slot ∈ bf_banks f -> bf_store f !! slot = Some b ->
  bank_frozen b = false -> (s, tx) ∈ ex -> on_chain (links f) slot s -> max_age <= MAX_PROCESSING_AGE ->
  check_hash_age (bank_blockhash_queue b) (tx_blockhash tx) max_age = Some true ->
  get_status (E := fuel_error) (bf_status_cache f) (tx_key tx) (tx_blockhash tx) (ss_get (bank_ancestors b)) <> Ok None.
Proof.
  intros Hcore Hlive Hin Hb Hfr Hex Hc Hage Hhash Hget. pose proof (core_links_ok Hcore) as Hl.
  destruct (c_cache _ _ _ _ Hcore) as (lg & Hr & Hok & Hroots & Hall & Hrec).
  pose proof (unfrozen_descends f hist ex slot b Hcore Hlive Hin Hb Hfr) as [Hge HsR].
  rewrite (get_status_log _ lg) in Hget by (done || (unfold tx_key; rewrite hash_bytes_length; unfold CACHED_KEY_SIZE; lia)).
  injection Hget as Hget. destruct (Z.lt_ge_cases (sl_purged lg) s) as [Hps|Hps].
  - apply (recorded_found lg (tx_blockhash tx) (tx_key tx) s (ss_get (bank_ancestors b))); [by apply Hrec|done| |done].
    destruct (bo_ancestors _ _ _ _ _ (c_banks _ _ _ _ Hcore slot b Hb)) as (_ & Ha & _).
    destruct (Ha s Hc) as [->|Hs]; [done|]. apply orb_true_iff. right. apply bool_decide_eq_true.
    destruct (Hall s Hs); [done|lia].
  - destruct (c_exec _ _ _ _ Hcore s tx Hex) as [_ (hs & Hhs & [i Hi]%list_elem_of_lookup)].
    destruct (bo_hist _ _ _ _ _ (c_banks _ _ _ _ Hcore slot b Hb)) as (hb & Hhb & Hq & Hma).
    assert (0 <= s) as Hs0 by (by eapply (chain_nonneg Hcore)).
    assert (length hs + size (sl_roots lg) <= length hb + 1)%nat as Hlen.
    { transitivity (length hb + if is_complete b then 0 else 1)%nat; [|destruct (is_complete b); lia].
      apply (chain_growth Hcore slot s); try done. intros x Hx. split; [|pose proof (lo_above _ Hok x Hx); lia].
      eapply chain_trans; [exact HsR|by apply Hroots]. }
    rewrite (lo_purged _ Hok) in Hlen by lia. unfold MAX_CACHE_ENTRIES in Hlen.
    pose proof (check_hash_age_spec _ hb (tx_blockhash tx) max_age Hq) as Hspec. rewrite Hhash in Hspec.
    destruct Hspec as (j & Hj & _ & Hle). pose proof (chain_prefix Hcore slot s hb hs Hc Hhb Hhs) as [t ->].
    assert (j = i) as ->.
    { eapply NoDup_lookup; [apply Hq|exact Hj|]. by apply lookup_app_l_Some. }
    symmetry in Hle. apply Z.leb_le in Hle. apply lookup_lt_Some in Hi. pose proof (qh_height _ _ Hq).
    unfold MAX_PROCESSING_AGE in Hage. lia.
Qed.

Lemma commit_once f hist ex slot b new :
  core f hist ex (bf_root f) -> once (links f) ex -> bf_store f !! slot = Some b -> bank_frozen b = false ->
  (forall s tx, (s, tx) ∈ new -> s = slot /\ forall s' tx', (s', tx') ∈ ex -> same_tx tx' tx -> ~ on_chain (links f) slot s') ->
  NoDup (tx_message_hash <$> new.*2) -> once (links f) (ex ++ new).
Proof.
  intros Hcore Honce Hb Hfr Hnew Hnd. pose proof (core_links_ok Hcore) as Hl.
  assert (forall i s1 s2 tx1 tx2 s, ex !! i = Some (s1, tx1) -> (s2, tx2) ∈ new -> same_tx tx1 tx2 ->
    on_chain (links f) s s1 -> on_chain (links f) s s2 -> False) as Hcross.
  { intros i s1 s2 tx1 tx2 s Hi Hin Hsame Hc1 Hc2. destruct (Hnew _ _ Hin) as [-> Hno].
    apply (Hno s1 tx1); [by eapply list_elem_of_lookup_2|done|].
    destruct (Z.le_gt_cases s1 slot) as [Hle|Hgt]; [by eapply (chain_total _ Hl s)|].
    pose proof (chain_total _ Hl s slot s1 Hc2 Hc1 ltac:(lia)) as Hc.
    rewrite (chain_frozen Hcore s1 slot b) in Hfr; [done|done|lia|done]. }
  intros i j s1 s2 tx1 tx2 s Hi Hj Hsame Hc1 Hc2.
  apply lookup_app_Some in Hi as [Hi|[Hli Hi]]; apply lookup_app_Some in Hj as [Hj|[Hlj Hj]].
  - by eapply Honce.
  - exfalso. eapply Hcross; eauto using list_elem_of_lookup_2.
  - exfalso. eapply Hcross; [exact Hj|by eapply list_elem_of_lookup_2| |exact Hc2|exact Hc1]. by destruct Hsame.
  - assert (i - length ex = j - length ex)%nat; [|lia].
    eapply NoDup_lookup; [exact Hnd| |]; rewrite !list_lookup_fmap.
    + by rewrite Hi.
    + rewrite Hj. cbn. f_equal. symmetry. apply Hsame.
Qed.

Lemma commit_inv f hist ex slot b fs ct ga txs locks max_age checks results choices cache :
  inv (mkForkSystem f hist ex) ->
  slot ∈ bf_banks f -> store f slot = Some b -> bank_frozen b = false -> max_age <= MAX_PROCESSING_AGE ->
  check_transactions (E := fuel_error) sha256 fs ct ga b (bf_status_cache f) txs locks max_age = Ok checks ->
  NoDup (tx_message_hash <$> txs) -> Forall (fun tx => CACHED_KEY_SIZE < length (tx_signature tx))%nat txs ->
  executed_checked checks results ->
  update_transaction_statuses (E := fuel_error) b choices (bf_status_cache f) txs results = Ok cache ->
  inv (mkForkSystem (set_status_cache cache f) hist (ex ++ committed slot txs checks results)).
Proof.
  intros [Hcore Hlive Honce] Hin Hb Hfr Hage Hchk Hnd Hsig Hec Hu. cbn in *. unfold store in Hb.
  pose proof (unfrozen_descends f hist ex slot b Hcore Hlive Hin Hb Hfr) as [Hge HsR].
  destruct (c_cache _ _ _ _ Hcore) as (lg & Hr & Hok & Hroots & Hall & Hrec).
  pose proof (purged_below_root f hist ex _ lg Hcore Hok Hroots) as Hpur.
  pose proof (bo_slot _ _ _ _ _ (c_banks _ _ _ _ Hcore slot b Hb)) as Hbs.
  destruct (update_statuses_ok b choices _ txs results cache lg Hr Hok) as (lg' & Hr' & Hok' & Hrt & Hpu & Hrec' & Hnew);
    [lia|done|done|].
  assert (forall s tx, (s, tx) ∈ committed slot txs checks results -> s = slot /\ recorded lg' (tx_blockhash tx) (tx_key tx) s /\
    check_hash_age (bank_blockhash_queue b) (tx_blockhash tx) max_age = Some true /\
    get_status (E := fuel_error) (bf_status_cache f) (tx_key tx) (tx_blockhash tx) (ss_get (bank_ancestors b)) = Ok None) as Hcom.
  { intros s tx Hc. destruct (committed_lookup _ _ _ _ _ _ Hec Hc) as (-> & k & st & Htx & Hck & Hres).
    destruct (check_transactions_Ok _ _ _ _ _ _ _ _ _ _ Hchk Hck) as (tx' & Htx' & ? & ?). rewrite Htx in Htx'.
    injection Htx' as <-. split_and!; try done. rewrite <- Hbs. by eapply Hnew. }
  split; cbn [sys_forks sys_hist sys_executed].
  - destruct Hcore as [Hbk Hg Hrt' Hd Hca He]. split; try done.
    + intros s q Hq. destruct (Hbk s q Hq). by split.
    + exists lg'. rewrite Hrt, Hpu. split_and!; try done. intros s tx [Hx|Hx]%elem_of_app; [by apply Hrec', Hrec|].
      by apply Hcom.
    + intros s tx [Hx|Hx]%elem_of_app; [by apply He|]. destruct (Hcom s tx Hx) as (-> & _ & Hha & _).
      split; [cbn; eauto|]. destruct (bo_hist _ _ _ _ _ (Hbk slot b Hb)) as (h & Hh & Hq & _). exists h. split; [done|].
      pose proof (check_hash_age_spec _ h (tx_blockhash tx) max_age Hq) as Hsp. rewrite Hha in Hsp.
      destruct Hsp as (i & Hi & _). by eapply list_elem_of_lookup_2.
  - done.
  - apply (commit_once f hist ex slot b); try done.
    + intros s tx Hx. destruct (Hcom s tx Hx) as (-> & _ & Hha & Hget). split; [done|]. intros s' tx' Hx' [Hm Hbh] Hc.
      unfold tx_key in Hget. rewrite <- Hm, <- Hbh in Hget. rewrite <- Hbh in Hha.
      by eapply (replay_rejected f hist ex slot b s' tx').
    + eapply sublist_NoDup; [exact Hnd|]. apply fmap_sublist, committed_sublist.
Qed.

(** ** Reachable states *)

Lemma init_inv w : sys_init w -> inv w.
Proof.
  destruct 1 as [genesis_hash lps now ancestors interval Ht Hanc].
  destruct (ss_from_ok [0]) as (anc & Hanc' & Hget & Hkeys & _).
  { apply Forall_singleton. by vm_compute. }
  rewrite Hanc in Hanc'. injection Hanc' as <-. set (b := mkBank _ _ _ _ _ _ _ _ _ _ _). set (f := mkBankForks _ _ _ _ _ _ _).
  assert (links f = {[0 := 0]}) as Hlinks by (unfold links; cbn; by rewrite map_fmap_singleton).
  assert (links f !! 0 = Some 0) as Hl0 by (by rewrite Hlinks, lookup_singleton_eq).
  assert (on_chain (links f) 0 0) as H00 by (constructor; eauto).
  assert (forall a, on_chain (links f) 0 a -> a = 0) as Honly by (intros a Ha; by inversion Ha).
  split; cbn [sys_forks sys_hist sys_executed].
  - split; try done.
    + intros s q Hq. unfold f in Hq. cbn in Hq. apply lookup_singleton_Some in Hq as [<- <-]. split; cbn; try done; try lia.
      * exists [genesis_hash]. split_and!; [done| |done]. by apply queue_history_genesis.
      * split_and!; [|intros a ->%Honly; left; by rewrite Hget|intros a; rewrite Hkeys, Hget; by rewrite bool_decide_eq_true].
        intros a. rewrite Hget, bool_decide_eq_true. by intros ->%list_elem_of_singleton.
    + cbn. rewrite lookup_singleton_eq. eauto.
    + intros p d s Hd Hs. unfold f in Hd. cbn in Hd. apply lookup_singleton_Some in Hd as [_ <-]. set_solver.
    + exists StatusLog_default. split_and!; [apply represents_default|apply log_ok_default| | |set_solver].
      * cbn. intros r ->%elem_of_singleton. done.
      * intros r ->%Honly. left. cbn. set_solver.
    + set_solver.
  - unfold live. cbn [f bf_banks]. intros s ->%elem_of_singleton. split_and!; [by eexists|done|]. cbn. lia.
  - intros i j s1 s2 tx1 tx2 s Hi. by rewrite lookup_nil in Hi.
Qed.

Lemma reachable_inv w : reachable w -> inv w.
Proof.
  induction 1 as [w Hw|w w' _ IH Hs]; [by apply init_inv|].
  destruct Hs; eauto using new_bank_inv, tick_inv, commit_inv, set_root_inv.
Qed.

(** C7. No transaction is executed twice on a fork. In every state that
    creating banks, ticking, committing batches and setting roots can reach
    from genesis, two commits of the same message (hash and recent blockhash),
    both accepted for the recent blockhash, in slots on one chain of banks are
    the same commit: the status cache keeps a status at least until 300 later
    roots make its blockhash too old for the queue. *)
Theorem no_double_execution w i j s1 s2 tx1 tx2 s :
  reachable w -> sys_executed w !! i = Some (s1, tx1) -> sys_executed w !! j = Some (s2, tx2) -> same_tx tx1 tx2 ->
  on_chain (links (sys_forks w)) s s1 -> on_chain (links (sys_forks w)) s s2 -> i = j.
Proof. intros Hw. apply (i_once _ (reachable_inv w Hw)). Qed.
End system.
