(* ===== verification/ReplayExample.v ===== *)
(** * A replayed transaction on concrete banks

    A transaction is committed in slot 0, the bank of slot 1 becomes the root,
    and the bank of slot 3 refuses the transaction. *)
From stdpp Require Import base numbers option list gmap sets.
From S2P Require Import Prelude Instruction Account Sysvar Message ComputeBudget Nonce System.
From S2P Require Import RollingBitField BlockhashQueue StatusCache BankForks Replay.

Module ReplayExample.
#[local] Instance nonce_codec : Bincode NonceVersions := {|
  bincode_deserialize _ := None; bincode_deserialize_limited _ _ := None;
  bincode_serialized_size _ := Err BincodeOther; bincode_serialize_into _ b := (Err BincodeOther, b) |}.
#[local] Instance ix_codec : Bincode SystemInstruction := {|
  bincode_deserialize _ := None; bincode_deserialize_limited _ _ := None;
  bincode_serialized_size _ := Err BincodeOther; bincode_serialize_into _ b := (Err BincodeOther, b) |}.

Definition A : Type := Ancestors (list bool).
Definition no_hash (l : list Z) : Hash := 0.
Definition tps : Z := 2.

(** A message with the genesis hash 1000 as its recent blockhash. *)
Definition tx : SanitizedTransaction :=
  mkSanitizedTransaction (Legacy (mkMessage (mkMessageHeader 1 0 0) [7] 1000 [])) 123456789 (seqZ 0 64).

Definition ancestors0 : A := default (mkRollingBitField 0 0 0 [] 0 ∅) (ok (ss_from [0])).
Definition bank0 : Bank A :=
  mkBank 0 None 0 ancestors0 (queue_genesis_hash (BlockhashQueue_new MAX_RECENT_BLOCKHASHES) 1000 5000 0) 0 tps tps 0 5000 false.
Definition forks0 : BankForks A := mkBankForks {[0 := bank0]} {[0]} {[0 := ∅]} 0 100 0 StatusCache_default.

Definition run {X : Type} (m : FM X) (f : BankForks A) : BankForks A := (m f).2.
Definition bank_of (f : BankForks A) (slot : Slot) : Bank A := default bank0 (bf_store f !! slot).

Definition check (f : BankForks A) (slot : Slot) : outcome fuel_error (list TransactionCheckResult) :=
  check_transactions no_hash ∅ Development (fun _ => None) (bank_of f slot) (bf_status_cache f) [tx] [Ok tt] MAX_PROCESSING_AGE.
Definition commit (f : BankForks A) (slot : Slot) : BankForks A :=
  set_status_cache (default StatusCache_default (ok (E := fuel_error)
    (update_transaction_statuses (bank_of f slot) [(3%nat, 0%nat)] (bf_status_cache f) [tx] [Some (Ok tt)]))) f.
Definition tick (f : BankForks A) (slot : Slot) (hash : Hash) : BankForks A :=
  set_store (<[slot := default bank0 (ok (E := fuel_error) (register_tick (bank_of f slot) hash 0))]> (bf_store f)) f.
Definition new_bank (f : BankForks A) (parent slot : Slot) : BankForks A :=
  run (b ← new_from_parent parent slot 5000; forks_insert b) f.

Definition forks1 := commit forks0 0.
Definition forks2 := tick (tick forks1 0 1001) 0 1002.
Definition forks3 := new_bank forks2 0 1.
Definition forks4 := tick (tick forks3 1 1003) 1 1004.
Definition forks5 := run (set_root 1 None) forks4.
Definition forks6 := new_bank forks5 1 3.

Definition hist2 : gmap Slot (list Hash) := {[0 := [1000; 1002]]}.
Definition hist3 : gmap Slot (list Hash) := <[1 := [1000; 1002]]> hist2.
Definition hist4 : gmap Slot (list Hash) := <[1 := [1000; 1002; 1004]]> hist3.
Definition hist6 : gmap Slot (list Hash) := <[3 := [1000; 1002; 1004]]> hist4.

Abbreviation reach f hist ex := (reachable no_hash tps (mkForkSystem (A := A) f hist ex)) (only parsing).

Lemma reach_tick f hist hist' ex slot hash h :
  reach f hist ex -> bf_store f !! slot = Some (bank_of f slot) -> is_complete (bank_of f slot) = false ->
  bank_frozen (bank_of f slot) = false -> hist !! slot = Some h -> bool_decide (hash ∈ h) = false ->
  bq_hash_height (bank_blockhash_queue (bank_of f slot)) <? U64_MAX = true ->
  hist' = (if is_block_boundary (bank_of f slot) (bank_tick_height (bank_of f slot) + 1) then <[slot := h ++ [hash]]> hist else hist) ->
  reach (tick f slot hash) hist' ex.
Proof.
  intros Hr Hb Hc Hf Hh Hn%bool_decide_eq_false Hq%Z.ltb_lt ->. eapply reachable_step; [exact Hr|].
  unfold tick. eapply (step_tick _ _ f hist ex slot (bank_of f slot) hash 0); try done.
  unfold register_tick. by rewrite Hf.
Qed.

Lemma reach_new f hist ex parent slot h :
  reach f hist ex -> bool_decide (parent ∈ bf_banks f) = true -> bf_root f <=? parent = true ->
  bf_store f !! parent = Some (bank_of f parent) -> is_complete (bank_of f parent) = true -> parent <? slot = true ->
  bf_store f !! slot = None -> (slot <=? 1000) && (0 <=? slot) = true -> hist !! parent = Some h ->
  is_ok ((b ← new_from_parent parent slot 5000; forks_insert b) f).1 = true ->
  reach (new_bank f parent slot) (<[slot := h]> hist) ex.
Proof.
  intros Hr Hin%bool_decide_eq_true Hroot%Z.leb_le Hp Hc Hlt%Z.ltb_lt Hnew [? ?]%andb_true_iff Hh Hok.
  unfold new_bank, run in *. destruct ((b ← new_from_parent parent slot 5000; forks_insert b) f) as [o f2] eqn:Hrun.
  destruct o as [[]| |]; try done. apply SE_bind_Ok in Hrun as (b & f1 & Hb & Hins).
  eapply reachable_step; [exact Hr|]. eapply (step_new_bank _ _ f hist ex parent (bank_of f parent) slot 5000 b f1); try done.
  - unfold ancestor_slot_ok, ANCESTORS_HASH_MAP_SIZE, U64_MAX. lia.
  - unfold tps, U64_MAX. lia.
Qed.

Lemma reach1 : reach forks1 {[0 := [1000]]} [(0, tx)].
Proof.
  eapply reachable_step; [apply reachable_init, (sys_init_intro tps 1000 5000 0 ancestors0 100); by vm_compute|].
  eapply (step_commit no_hash tps forks0 {[0 := [1000]]} [] 0 bank0 ∅ Development (fun _ => None) [tx] [Ok tt] MAX_PROCESSING_AGE
    [(Ok tt, None)] [Some (Ok tt)] [(3%nat, 0%nat)]); try by vm_compute.
  - apply NoDup_singleton.
  - apply Forall_singleton. vm_compute. lia.
Qed.

Lemma reach2 : reach forks2 hist2 [(0, tx)].
Proof.
  apply reach_tick with {[0 := [1000]]} [1000]; [|by vm_compute..].
  apply reach_tick with {[0 := [1000]]} [1000]; [exact reach1|by vm_compute..].
Qed.

Lemma reach4 : reach forks4 hist4 [(0, tx)].
Proof.
  apply reach_tick with hist3 [1000; 1002]; [|by vm_compute..].
  apply reach_tick with hist3 [1000; 1002]; [|by vm_compute..].
  apply reach_new; [exact reach2|by vm_compute..].
Qed.

Lemma reach6 : reach forks6 hist6 [(0, tx)].
Proof.
  apply reach_new; [|by vm_compute..].
  eapply reachable_step; [exact reach4|].
  eapply (step_set_root no_hash tps forks4 hist4 [(0, tx)] 1 (bank_of forks4 1) None); by vm_compute.
Qed.

(** The replayed transaction is refused although its blockhash is recent. *)
Lemma replay_refused : check forks6 3 = Ok [(Err TransactionError.AlreadyProcessed, None)].
Proof. by vm_compute. Qed.

Lemma no_double_execution_witness :
  reach forks6 hist6 [(0, tx)] /\ on_chain (links forks6) 3 0 /\ same_tx tx tx /\ 0%nat = 0%nat.
Proof.
  assert (on_chain (links forks6) 3 0) as Hc.
  { apply chain_parent with 1; [by vm_compute|done|]. apply chain_parent with 0; [by vm_compute|done|].
    constructor. vm_compute. eauto. }
  split; [exact reach6|]. split; [exact Hc|]. split; [exact (conj eq_refl eq_refl)|].
  exact (no_double_execution no_hash tps eq_refl _ 0 0 0 0 tx tx 3 reach6 eq_refl eq_refl (conj eq_refl eq_refl) Hc Hc).
Defined.
End ReplayExample.
