(* ===== verification/ForkChoice.v ===== *)
(** * Heaviest-subtree fork choice

    [core/src/heaviest_subtree_fork_choice.rs] with the tree traversal of
    [core/src/tree_diff.rs]: the tree of the blocks a validator has replayed,
    the stake that voted for each subtree, and the best block to build on, kept
    up to date by batches of update operations. [last_root_time] only decides
    when the state is logged and is left out.

    Loops over parent links and over the work list of [subtree_diff] run on
    fuel; [ForkTree.v] shows that the number of nodes is enough on a tree. *)
From stdpp Require Import base gmap sorting sets option list.
From S2P Require Import Prelude EpochSchedule.

Abbreviation SlotHashKey := (Slot * Hash)%type (only parsing).
Abbreviation ForkWeight := Z (only parsing).

(** The derived lexicographic order of [(Slot, Hash)]. *)
Definition key_lt (a b : SlotHashKey) : Prop := a.1 < b.1 \/ a.1 = b.1 /\ a.2 < b.2.
Definition key_ltb (a b : SlotHashKey) : bool := (a.1 <? b.1) || ((a.1 =? b.1) && (a.2 <? b.2)).
Definition key_cmp (a b : SlotHashKey) : comparison :=
  match a.1 ?= b.1 with Eq => a.2 ?= b.2 | c => c end.
Definition SlotHashKey_default : SlotHashKey := (0, Hash_default).

(** ** Update operations *)

Inductive UpdateLabel : Type :=
| LAggregate
| LAdd
| LMarkValid (slot : Slot)
| LMarkInvalid (slot : Slot)
| LSubtract.

Inductive UpdateOperation : Type :=
| OpAdd (stake : Z)
| OpMarkValid (slot : Slot)
| OpMarkInvalid (slot : Slot)
| OpSubtract (stake : Z)
| OpAggregate.

#[export] Instance UpdateLabel_eq_dec : EqDecision UpdateLabel.
Proof. solve_decision. Defined.

(** The derived order of [UpdateLabel]: by variant, then by the slot it carries. *)
Definition label_rank (l : UpdateLabel) : Z * Slot :=
  match l with
  | LAggregate => (0, 0)
  | LAdd => (1, 0)
  | LMarkValid slot => (2, slot)
  | LMarkInvalid slot => (3, slot)
  | LSubtract => (4, 0)
  end.

Definition label_of_rank (r : Z * Slot) : UpdateLabel :=
  if r.1 =? 0 then LAggregate else if r.1 =? 1 then LAdd else if r.1 =? 2 then LMarkValid r.2
  else if r.1 =? 3 then LMarkInvalid r.2 else LSubtract.

#[export] Instance UpdateLabel_countable : Countable UpdateLabel.
Proof. apply (inj_countable' label_rank label_of_rank). by intros []. Defined.

Abbreviation OpKey := (SlotHashKey * UpdateLabel)%type (only parsing).

Definition op_le (a b : OpKey * UpdateOperation) : Prop :=
  key_lt a.1.1 b.1.1 \/ a.1.1 = b.1.1 /\
    ((label_rank a.1.2).1 < (label_rank b.1.2).1 \/
     (label_rank a.1.2).1 = (label_rank b.1.2).1 /\ (label_rank a.1.2).2 <= (label_rank b.1.2).2).

#[export] Instance key_lt_dec a b : Decision (key_lt a b).
Proof. unfold key_lt. apply _. Defined.
#[export] Instance op_le_dec : RelDecision op_le.
Proof. intros a b. unfold op_le. apply _. Defined.

(** A [BTreeMap]: the finite map, and its entries in key order. *)
Abbreviation UpdateOperations := (gmap OpKey UpdateOperation) (only parsing).
Definition btree_iter (ops : UpdateOperations) : list (OpKey * UpdateOperation) := merge_sort op_le (map_to_list ops).

Definition update_stake (op : UpdateOperation) (new_stake : Z) : outcome fuel_error UpdateOperation :=
  match op with
  | OpAdd stake => Ok (OpAdd (add64 stake new_stake))
  | OpSubtract stake => Ok (OpSubtract (add64 stake new_stake))
  | OpAggregate | OpMarkValid _ | OpMarkInvalid _ => Panic
  end.

(** ** Nodes *)

Record ForkInfo : Type := mkForkInfo {
  fi_stake_voted_at : ForkWeight;
  fi_stake_voted_subtree : ForkWeight;
  fi_best_slot : SlotHashKey;
  fi_parent : option SlotHashKey;
  fi_children : list SlotHashKey;
  fi_latest_invalid_ancestor : option Slot;
  fi_is_duplicate_confirmed : bool
}.

Definition set_best_slot (best : SlotHashKey) (i : ForkInfo) : ForkInfo :=
  mkForkInfo (fi_stake_voted_at i) (fi_stake_voted_subtree i) best (fi_parent i) (fi_children i)
    (fi_latest_invalid_ancestor i) (fi_is_duplicate_confirmed i).
Definition set_fork_parent (parent : option SlotHashKey) (i : ForkInfo) : ForkInfo :=
  mkForkInfo (fi_stake_voted_at i) (fi_stake_voted_subtree i) (fi_best_slot i) parent (fi_children i)
    (fi_latest_invalid_ancestor i) (fi_is_duplicate_confirmed i).
Definition push_child (child : SlotHashKey) (i : ForkInfo) : ForkInfo :=
  mkForkInfo (fi_stake_voted_at i) (fi_stake_voted_subtree i) (fi_best_slot i) (fi_parent i) (fi_children i ++ [child])
    (fi_latest_invalid_ancestor i) (fi_is_duplicate_confirmed i).
Definition set_stakes (at_ subtree : ForkWeight) (i : ForkInfo) : ForkInfo :=
  mkForkInfo at_ subtree (fi_best_slot i) (fi_parent i) (fi_children i)
    (fi_latest_invalid_ancestor i) (fi_is_duplicate_confirmed i).
Definition set_validity (latest_invalid_ancestor : option Slot) (confirmed : bool) (i : ForkInfo) : ForkInfo :=
  mkForkInfo (fi_stake_voted_at i) (fi_stake_voted_subtree i) (fi_best_slot i) (fi_parent i) (fi_children i)
    latest_invalid_ancestor confirmed.

Definition info_is_unconfirmed_duplicate (i : ForkInfo) (my_slot : Slot) : bool :=
  match fi_latest_invalid_ancestor i with Some ancestor => ancestor =? my_slot | None => false end.

Definition info_is_candidate (i : ForkInfo) : bool :=
  match fi_latest_invalid_ancestor i with None => true | Some _ => false end.

Definition set_duplicate_confirmed (i : ForkInfo) : ForkInfo := set_validity None true i.

Definition update_with_newly_valid_ancestor (newly_valid_ancestor : Slot) (i : ForkInfo) : ForkInfo :=
  match fi_latest_invalid_ancestor i with
  | Some latest_invalid_ancestor =>
      if latest_invalid_ancestor <=? newly_valid_ancestor then set_validity None (fi_is_duplicate_confirmed i) i else i
  | None => i
  end.

Definition update_with_newly_invalid_ancestor (newly_invalid_ancestor : Slot) (i : ForkInfo)
  : outcome fuel_error ForkInfo :=
  if fi_is_duplicate_confirmed i then Panic
  else
    Ok (if match fi_latest_invalid_ancestor i with
           | Some latest_invalid_ancestor => latest_invalid_ancestor <? newly_invalid_ancestor
           | None => true
           end
        then set_validity (Some newly_invalid_ancestor) (fi_is_duplicate_confirmed i) i else i).

Abbreviation ForkInfos := (gmap SlotHashKey ForkInfo) (only parsing).

Record HeaviestSubtreeForkChoice : Type := mkForkChoice {
  fork_infos : ForkInfos;
  latest_votes : gmap Pubkey SlotHashKey;
  fc_root : SlotHashKey
}.

Definition set_fork_infos (m : ForkInfos) (f : HeaviestSubtreeForkChoice) : HeaviestSubtreeForkChoice :=
  mkForkChoice m (latest_votes f) (fc_root f).

(** ** Reading the tree *)

Definition contains_block (f : HeaviestSubtreeForkChoice) (key : SlotHashKey) : bool := bool_decide (is_Some (fork_infos f !! key)).
Definition best_slot (f : HeaviestSubtreeForkChoice) (key : SlotHashKey) : option SlotHashKey := fi_best_slot <$> fork_infos f !! key.
Definition best_overall_slot (f : HeaviestSubtreeForkChoice) : outcome fuel_error SlotHashKey := unwrap (best_slot f (fc_root f)).
Definition stake_voted_subtree (f : HeaviestSubtreeForkChoice) (key : SlotHashKey) : option Z :=
  fi_stake_voted_subtree <$> fork_infos f !! key.
Definition stake_voted_at (f : HeaviestSubtreeForkChoice) (key : SlotHashKey) : option Z :=
  fi_stake_voted_at <$> fork_infos f !! key.
Definition latest_invalid_ancestor (f : HeaviestSubtreeForkChoice) (key : SlotHashKey) : option Slot :=
  fork_infos f !! key ≫= fi_latest_invalid_ancestor.
Definition is_duplicate_confirmed (f : HeaviestSubtreeForkChoice) (key : SlotHashKey) : option bool :=
  fi_is_duplicate_confirmed <$> fork_infos f !! key.
Definition is_unconfirmed_duplicate (f : HeaviestSubtreeForkChoice) (key : SlotHashKey) : option bool :=
  (fun i => info_is_unconfirmed_duplicate i key.1) <$> fork_infos f !! key.
Definition is_candidate (f : HeaviestSubtreeForkChoice) (key : SlotHashKey) : option bool :=
  info_is_candidate <$> fork_infos f !! key.
Definition parent_of (f : HeaviestSubtreeForkChoice) (key : SlotHashKey) : option SlotHashKey := fork_infos f !! key ≫= fi_parent.
Definition children_of (f : HeaviestSubtreeForkChoice) (key : SlotHashKey) : option (list SlotHashKey) :=
  fi_children <$> fork_infos f !! key.

Definition max_by_weight (f : HeaviestSubtreeForkChoice) (slot1 slot2 : SlotHashKey) : outcome fuel_error comparison :=
  weight1 ← unwrap (stake_voted_subtree f slot1);
  weight2 ← unwrap (stake_voted_subtree f slot2);
  Ok (if weight1 =? weight2 then CompOpp (key_cmp slot1 slot2) else weight1 ?= weight2).

(** [AncestorIterator]: the keys it yields, from the parent of [key] up. *)
Fixpoint ancestor_iterator_from (fuel : nat) (f : HeaviestSubtreeForkChoice) (current : SlotHashKey)
  : outcome fuel_error (list SlotHashKey) :=
  match parent_of f current with
  | None => Ok []
  | Some parent =>
      match fuel with
      | O => Err OutOfFuel
      | S fuel => rest ← ancestor_iterator_from fuel f parent; Ok (parent :: rest)
      end
  end.

Definition ancestor_iterator (f : HeaviestSubtreeForkChoice) (key : SlotHashKey) : outcome fuel_error (list SlotHashKey) :=
  ancestor_iterator_from (size (fork_infos f)) f key.

Definition is_strict_ancestor (f : HeaviestSubtreeForkChoice) (maybe_ancestor_key node_key : SlotHashKey)
  : outcome fuel_error bool :=
  if bool_decide (maybe_ancestor_key = node_key) then Ok false
  else if node_key.1 <? maybe_ancestor_key.1 then Ok false
  else
    ancestors ← ancestor_iterator f node_key;
    Ok (existsb (fun a => (a.1 =? maybe_ancestor_key.1) && (a.2 =? maybe_ancestor_key.2)) ancestors).

(** [TreeDiff::subtree_diff]: [pending_keys] is the [Vec] used as a stack, its
    top first. *)
Fixpoint subtree_diff_loop (fuel : nat) (f : HeaviestSubtreeForkChoice) (root2 : SlotHashKey)
    (pending_keys : list SlotHashKey) (reachable_set : gset SlotHashKey) : outcome fuel_error (gset SlotHashKey) :=
  match pending_keys with
  | [] => Ok reachable_set
  | current_key :: pending_keys =>
      match fuel with
      | O => Err OutOfFuel
      | S fuel =>
          if bool_decide (current_key = root2) then subtree_diff_loop fuel f root2 pending_keys reachable_set
          else
            children ← unwrap (children_of f current_key);
            subtree_diff_loop fuel f root2 (rev children ++ pending_keys) ({[current_key]} ∪ reachable_set)
      end
  end.

Definition subtree_diff (f : HeaviestSubtreeForkChoice) (root1 root2 : SlotHashKey) : outcome fuel_error (gset SlotHashKey) :=
  if contains_block f root1 then subtree_diff_loop (size (fork_infos f)) f root2 [root1] ∅ else Ok ∅.

(** ** Adding nodes *)

(** The loop of [is_best_child] over the children of the parent. *)
Fixpoint no_better_child (f : HeaviestSubtreeForkChoice) (maybe_best_child : SlotHashKey) (maybe_best_child_weight : Z)
    (children : list SlotHashKey) : outcome fuel_error bool :=
  match children with
  | [] => Ok true
  | child :: children =>
      child_weight ← unwrap (stake_voted_subtree f child);
      candidate ← unwrap (is_candidate f child);
      if negb candidate then no_better_child f maybe_best_child maybe_best_child_weight children
      else if (maybe_best_child_weight <? child_weight) ||
              ((maybe_best_child_weight =? child_weight) && key_ltb child maybe_best_child)
      then Ok false
      else no_better_child f maybe_best_child maybe_best_child_weight children
  end.

Definition is_best_child (f : HeaviestSubtreeForkChoice) (maybe_best_child : SlotHashKey) : outcome fuel_error bool :=
  maybe_best_child_weight ← unwrap (stake_voted_subtree f maybe_best_child);
  match parent_of f maybe_best_child with
  | None => Ok true
  | Some parent =>
      children ← unwrap (children_of f parent);
      no_better_child f maybe_best_child maybe_best_child_weight children
  end.

(** The loop of [propagate_new_leaf] up the ancestors that had the parent's
    best slot as theirs. *)
Fixpoint propagate_up (fuel : nat) (slot_hash_key parent_best_slot : SlotHashKey) (ancestor : option SlotHashKey)
    (infos : ForkInfos) : outcome fuel_error ForkInfos :=
  match ancestor with
  | None => Ok infos
  | Some ancestor =>
      match fuel with
      | O => Err OutOfFuel
      | S fuel =>
          info ← unwrap (infos !! ancestor);
          if bool_decide (fi_best_slot info = parent_best_slot)
          then propagate_up fuel slot_hash_key parent_best_slot (fi_parent info)
                 (<[ancestor := set_best_slot slot_hash_key info]> infos)
          else Ok infos
      end
  end.

Definition propagate_new_leaf (f : HeaviestSubtreeForkChoice) (slot_hash_key parent : SlotHashKey)
  : outcome fuel_error HeaviestSubtreeForkChoice :=
  parent_best_slot ← unwrap (best_slot f parent);
  best ← is_best_child f slot_hash_key;
  if (best : bool) then
    infos ← propagate_up (size (fork_infos f)) slot_hash_key parent_best_slot (Some parent) (fork_infos f);
    Ok (set_fork_infos infos f)
  else Ok f.

Definition add_new_leaf_slot (f : HeaviestSubtreeForkChoice) (slot_hash_key : SlotHashKey) (parent : option SlotHashKey)
  : outcome fuel_error HeaviestSubtreeForkChoice :=
  if contains_block f slot_hash_key then Ok f
  else
    let parent_latest_invalid_ancestor := parent ≫= latest_invalid_ancestor f in
    let leaf := mkForkInfo 0 0 slot_hash_key parent [] parent_latest_invalid_ancestor (bool_decide (parent = None)) in
    let infos := <[slot_hash_key := leaf]> (fork_infos f) in
    match parent with
    | None => Ok (set_fork_infos infos f)
    | Some parent =>
        parent_info ← unwrap (infos !! parent);
        propagate_new_leaf (set_fork_infos (<[parent := push_child slot_hash_key parent_info]> infos) f) slot_hash_key parent
    end.

Definition HeaviestSubtreeForkChoice_new (root : SlotHashKey) : outcome fuel_error HeaviestSubtreeForkChoice :=
  add_new_leaf_slot (mkForkChoice ∅ ∅ root) root None.

(** What [new_from_frozen_banks] reads of a bank. *)
Record FrozenBank : Type := mkFrozenBank {
  fb_slot : Slot;
  fb_hash : Hash;
  fb_parent_slot : Slot;
  fb_parent_hash : Hash;
  fb_is_frozen : bool
}.

Fixpoint add_frozen_banks (root prev_slot : Slot) (frozen_banks : list FrozenBank) (f : HeaviestSubtreeForkChoice)
  : outcome fuel_error HeaviestSubtreeForkChoice :=
  match frozen_banks with
  | [] => Ok f
  | bank :: frozen_banks =>
      if negb (fb_is_frozen bank) then Panic
      else if root <? fb_slot bank then
        if negb (prev_slot <? fb_slot bank) || (fb_hash bank =? Hash_default) || (fb_parent_hash bank =? Hash_default)
        then Panic
        else
          f ← add_new_leaf_slot f (fb_slot bank, fb_hash bank) (Some (fb_parent_slot bank, fb_parent_hash bank));
          add_frozen_banks root (fb_slot bank) frozen_banks f
      else add_frozen_banks root prev_slot frozen_banks f
  end.

Definition new_from_frozen_banks (root : SlotHashKey) (frozen_banks : list FrozenBank)
  : outcome fuel_error HeaviestSubtreeForkChoice :=
  f ← HeaviestSubtreeForkChoice_new root;
  add_frozen_banks root.1 root.1 frozen_banks f.

(** ** Moving the root *)

Fixpoint remove_nodes (keys : list SlotHashKey) (infos : ForkInfos) : outcome fuel_error ForkInfos :=
  match keys with
  | [] => Ok infos
  | key :: keys => _ ← unwrap (infos !! key); remove_nodes keys (delete key infos)
  end.

Definition fork_choice_set_root (f : HeaviestSubtreeForkChoice) (new_root : SlotHashKey)
  : outcome fuel_error HeaviestSubtreeForkChoice :=
  remove_set ← subtree_diff f (fc_root f) new_root;
  infos ← remove_nodes (elements remove_set) (fork_infos f);
  info ← unwrap (infos !! new_root);
  Ok (mkForkChoice (<[new_root := set_fork_parent None info]> infos) (latest_votes f) new_root).

Definition add_root_parent (f : HeaviestSubtreeForkChoice) (root_parent : SlotHashKey)
  : outcome fuel_error HeaviestSubtreeForkChoice :=
  if negb (root_parent.1 <? (fc_root f).1) || contains_block f root_parent then Panic
  else
    root_info ← unwrap (fork_infos f !! fc_root f);
    let root_parent_info :=
      mkForkInfo 0 (fi_stake_voted_subtree root_info) (fi_best_slot root_info) None [fc_root f] None
        (fi_is_duplicate_confirmed root_info) in
    Ok (mkForkChoice
          (<[root_parent := root_parent_info]> (<[fc_root f := set_fork_parent (Some root_parent) root_info]> (fork_infos f)))
          (latest_votes f) root_parent).

(** ** Processing a batch of updates *)

(** The local variables of [aggregate_slot]. *)
Record Aggregation : Type := mkAggregation {
  ag_stake : ForkWeight;
  ag_best_slot : SlotHashKey;
  ag_best_child_stake : ForkWeight;
  ag_best_child : SlotHashKey;
  ag_duplicate_confirmed : bool
}.

Definition aggregate_child (slot_hash_key child_key : SlotHashKey) (child : ForkInfo) (a : Aggregation) : Aggregation :=
  let child_stake := fi_stake_voted_subtree child in
  let confirmed := ag_duplicate_confirmed a || fi_is_duplicate_confirmed child in
  let stake := add64 (ag_stake a) child_stake in
  if info_is_candidate child &&
     (bool_decide (ag_best_child a = slot_hash_key) || (ag_best_child_stake a <? child_stake) ||
      ((child_stake =? ag_best_child_stake a) && key_ltb child_key (ag_best_child a)))
  then mkAggregation stake (fi_best_slot child) child_stake child_key confirmed
  else mkAggregation stake (ag_best_slot a) (ag_best_child_stake a) (ag_best_child a) confirmed.

Fixpoint aggregate_children (infos : ForkInfos) (slot_hash_key : SlotHashKey) (children : list SlotHashKey) (a : Aggregation)
  : outcome fuel_error Aggregation :=
  match children with
  | [] => Ok a
  | child_key :: children =>
      child ← unwrap (infos !! child_key);
      aggregate_children infos slot_hash_key children (aggregate_child slot_hash_key child_key child a)
  end.

Definition aggregate_slot (slot_hash_key : SlotHashKey) (infos : ForkInfos) : outcome fuel_error ForkInfos :=
  match infos !! slot_hash_key with
  | Some info =>
      a ← aggregate_children infos slot_hash_key (fi_children info)
            (mkAggregation (fi_stake_voted_at info) slot_hash_key 0 slot_hash_key false);
      let info := if ag_duplicate_confirmed a then set_duplicate_confirmed info else info in
      Ok (<[slot_hash_key := set_best_slot (ag_best_slot a) (set_stakes (fi_stake_voted_at info) (ag_stake a) info)]> infos)
  | None => Ok infos
  end.

Definition mark_fork_valid (fork_to_modify_key : SlotHashKey) (valid_slot : Slot) (infos : ForkInfos) : ForkInfos :=
  match infos !! fork_to_modify_key with
  | Some info =>
      let info := update_with_newly_valid_ancestor valid_slot info in
      <[fork_to_modify_key :=
          if fork_to_modify_key.1 =? valid_slot then set_validity (fi_latest_invalid_ancestor info) true info else info]> infos
  | None => infos
  end.

Definition mark_fork_invalid (fork_to_modify_key : SlotHashKey) (invalid_slot : Slot) (infos : ForkInfos)
  : outcome fuel_error ForkInfos :=
  match infos !! fork_to_modify_key with
  | Some info => info ← update_with_newly_invalid_ancestor invalid_slot info; Ok (<[fork_to_modify_key := info]> infos)
  | None => Ok infos
  end.

Definition add_slot_stake (key : SlotHashKey) (stake : Z) (infos : ForkInfos) : ForkInfos :=
  match infos !! key with
  | Some info =>
      <[key := set_stakes (add64 (fi_stake_voted_at info) stake) (add64 (fi_stake_voted_subtree info) stake) info]> infos
  | None => infos
  end.

Definition subtract_slot_stake (key : SlotHashKey) (stake : Z) (infos : ForkInfos) : ForkInfos :=
  match infos !! key with
  | Some info =>
      <[key := set_stakes (sub64 (fi_stake_voted_at info) stake) (sub64 (fi_stake_voted_subtree info) stake) info]> infos
  | None => infos
  end.

Definition process_operation (key : SlotHashKey) (operation : UpdateOperation) (infos : ForkInfos)
  : outcome fuel_error ForkInfos :=
  match operation with
  | OpMarkValid valid_slot => Ok (mark_fork_valid key valid_slot infos)
  | OpMarkInvalid invalid_slot => mark_fork_invalid key invalid_slot infos
  | OpAggregate => aggregate_slot key infos
  | OpAdd stake => Ok (add_slot_stake key stake infos)
  | OpSubtract stake => Ok (subtract_slot_stake key stake infos)
  end.

Fixpoint process_operations (operations : list (OpKey * UpdateOperation)) (infos : ForkInfos) : outcome fuel_error ForkInfos :=
  match operations with
  | [] => Ok infos
  | ((key, _), operation) :: operations =>
      infos ← process_operation key operation infos;
      process_operations operations infos
  end.

(** From the greatest to the smallest key. *)
Definition process_update_operations (f : HeaviestSubtreeForkChoice) (update_operations : UpdateOperations)
  : outcome fuel_error HeaviestSubtreeForkChoice :=
  infos ← process_operations (reverse (btree_iter update_operations)) (fork_infos f);
  Ok (set_fork_infos infos f).

(** Whether the operation was new; a [MarkValid] or [MarkInvalid] goes with it. *)
Definition do_insert_aggregate_operation (update_operations : UpdateOperations) (modify_fork_validity : option UpdateOperation)
    (key : SlotHashKey) : bool * UpdateOperations :=
  if bool_decide (is_Some (update_operations !! (key, LAggregate))) then (false, update_operations)
  else
    let update_operations :=
      match modify_fork_validity with
      | Some (OpMarkValid slot) => <[(key, LMarkValid slot) := OpMarkValid slot]> update_operations
      | Some (OpMarkInvalid slot) => <[(key, LMarkInvalid slot) := OpMarkInvalid slot]> update_operations
      | _ => update_operations
      end in
    (true, <[(key, LAggregate) := OpAggregate]> update_operations).

Fixpoint insert_until_present (modify_fork_validity : option UpdateOperation) (ancestors : list SlotHashKey)
    (update_operations : UpdateOperations) : UpdateOperations :=
  match ancestors with
  | [] => update_operations
  | ancestor :: ancestors =>
      let '(inserted, update_operations) := do_insert_aggregate_operation update_operations modify_fork_validity ancestor in
      if inserted then insert_until_present modify_fork_validity ancestors update_operations else update_operations
  end.

Definition do_insert_aggregate_operations_across_ancestors (f : HeaviestSubtreeForkChoice)
    (update_operations : UpdateOperations) (modify_fork_validity : option UpdateOperation) (key : SlotHashKey)
  : outcome fuel_error UpdateOperations :=
  ancestors ← ancestor_iterator f key;
  Ok (insert_until_present modify_fork_validity ancestors update_operations).

Definition insert_aggregate_operations (f : HeaviestSubtreeForkChoice) (update_operations : UpdateOperations) (key : SlotHashKey)
  : outcome fuel_error UpdateOperations :=
  do_insert_aggregate_operations_across_ancestors f update_operations None key.

(** ** Votes *)

(** The stakes of the vote accounts in an epoch ([runtime/src/epoch_stakes.rs]). *)
Record EpochStakes : Type := mkEpochStakes { es_vote_accounts : gmap Pubkey Z }.

Definition vote_account_stake (e : EpochStakes) (vote_account : Pubkey) : Z := default 0 (es_vote_accounts e !! vote_account).

(** [entry(..).and_modify(update_stake).or_insert(..)] *)
Definition accumulate_stake (k : OpKey) (first : UpdateOperation) (stake : Z) (update_operations : UpdateOperations)
  : outcome fuel_error UpdateOperations :=
  match update_operations !! k with
  | Some update => update ← update_stake update stake; Ok (<[k := update]> update_operations)
  | None => Ok (<[k := first]> update_operations)
  end.

Section votes.
Context (epoch_stakes : gmap Epoch EpochStakes) (epoch_schedule : EpochSchedule).

Definition stake_at (pubkey : Pubkey) (slot : Slot) : Z :=
  match epoch_stakes !! get_epoch epoch_schedule slot with
  | Some stakes => vote_account_stake stakes pubkey
  | None => 0
  end.

(** The latest vote of a validator is only replaced by a vote for a later slot,
    or for a version of the same slot with a smaller hash. *)
Definition vote_is_outdated (latest new_vote : SlotHashKey) : bool :=
  (new_vote.1 <? latest.1) || ((new_vote.1 =? latest.1) && (latest.2 <=? new_vote.2)).

(** Takes the stake off the vote that [pubkey] cast before. *)
Definition remove_old_vote (f : HeaviestSubtreeForkChoice) (pubkey : Pubkey) (new_vote : SlotHashKey)
    (old : option SlotHashKey) (update_operations : UpdateOperations) : outcome fuel_error UpdateOperations :=
  match old with
  | None => Ok update_operations
  | Some old =>
      if negb (if new_vote.1 =? old.1 then new_vote.2 <? old.2 else old.1 <? new_vote.1) then Panic
      else
        let stake_update := stake_at pubkey old.1 in
        if 0 <? stake_update then
          update_operations ← accumulate_stake (old, LSubtract) (OpSubtract stake_update) stake_update update_operations;
          insert_aggregate_operations f update_operations old
        else Ok update_operations
  end.

Definition add_new_vote (f : HeaviestSubtreeForkChoice) (pubkey : Pubkey) (new_vote : SlotHashKey)
    (update_operations : UpdateOperations) : outcome fuel_error UpdateOperations :=
  let stake_update := stake_at pubkey new_vote.1 in
  update_operations ← accumulate_stake (new_vote, LAdd) (OpAdd stake_update) stake_update update_operations;
  insert_aggregate_operations f update_operations new_vote.

Fixpoint generate_update_loop (pubkey_votes : list (Pubkey * SlotHashKey)) (observed_pubkeys : gmap Pubkey Slot)
    (f : HeaviestSubtreeForkChoice) (update_operations : UpdateOperations)
  : outcome fuel_error (HeaviestSubtreeForkChoice * UpdateOperations) :=
  match pubkey_votes with
  | [] => Ok (f, update_operations)
  | (pubkey, new_vote) :: pubkey_votes =>
      if new_vote.1 <? (fc_root f).1 then generate_update_loop pubkey_votes observed_pubkeys f update_operations
      else
        match observed_pubkeys !! pubkey with
        | Some _ => Panic
        | None =>
            let observed_pubkeys := <[pubkey := new_vote.1]> observed_pubkeys in
            let old := latest_votes f !! pubkey in
            if match old with Some latest => vote_is_outdated latest new_vote | None => false end
            then generate_update_loop pubkey_votes observed_pubkeys f update_operations
            else
              let f := mkForkChoice (fork_infos f) (<[pubkey := new_vote]> (latest_votes f)) (fc_root f) in
              update_operations ← remove_old_vote f pubkey new_vote old update_operations;
              update_operations ← add_new_vote f pubkey new_vote update_operations;
              generate_update_loop pubkey_votes observed_pubkeys f update_operations
        end
  end.

Definition generate_update_operations (f : HeaviestSubtreeForkChoice) (pubkey_votes : list (Pubkey * SlotHashKey))
  : outcome fuel_error (HeaviestSubtreeForkChoice * UpdateOperations) :=
  generate_update_loop pubkey_votes ∅ f ∅.

Definition add_votes (f : HeaviestSubtreeForkChoice) (pubkey_votes : list (Pubkey * SlotHashKey))
  : outcome fuel_error (HeaviestSubtreeForkChoice * SlotHashKey) :=
  '(f, update_operations_batch) ← generate_update_operations f pubkey_votes;
  f ← process_update_operations f update_operations_batch;
  best ← best_overall_slot f;
  Ok (f, best).

(** [merge] adds the nodes of [other] in key order, its root under [merge_leaf]. *)
Fixpoint add_leaves (nodes : list (SlotHashKey * SlotHashKey)) (f : HeaviestSubtreeForkChoice)
  : outcome fuel_error HeaviestSubtreeForkChoice :=
  match nodes with
  | [] => Ok f
  | (key, parent) :: nodes => f ← add_new_leaf_slot f key (Some parent); add_leaves nodes f
  end.

Definition node_le (a b : SlotHashKey * SlotHashKey) : Prop := key_lt a.1 b.1 \/ a.1 = b.1.
#[export] Instance node_le_dec : RelDecision node_le.
Proof. intros a b. unfold node_le. apply _. Defined.

Definition merge (f other : HeaviestSubtreeForkChoice) (merge_leaf : SlotHashKey)
  : outcome fuel_error HeaviestSubtreeForkChoice :=
  if negb (contains_block f merge_leaf) then Panic
  else
    let other_slots_nodes := (fun p => (p.1, default merge_leaf (fi_parent p.2))) <$> map_to_list (fork_infos other) in
    f ← add_leaves (merge_sort node_le other_slots_nodes) f;
    '(f, _) ← add_votes f (map_to_list (latest_votes other));
    Ok f.

End votes.

(** ** Validity of forks *)

(** [MarkValid] or [MarkInvalid] for every node of a subtree. *)
Definition insert_marks (mark : UpdateOperation) (subtree : gset SlotHashKey) : UpdateOperations :=
  foldl (fun ops key => (do_insert_aggregate_operation ops (Some mark) key).2) ∅ (elements subtree).

Definition mark_fork_invalid_candidate (f : HeaviestSubtreeForkChoice) (invalid : SlotHashKey)
  : outcome fuel_error HeaviestSubtreeForkChoice :=
  match fork_infos f !! invalid with
  | Some info =>
      if fi_is_duplicate_confirmed info then Panic
      else
        subtree ← subtree_diff f invalid SlotHashKey_default;
        update_operations ← insert_aggregate_operations f (insert_marks (OpMarkInvalid invalid.1) subtree) invalid;
        process_update_operations f update_operations
  | None => Ok f
  end.

Fixpoint not_duplicate_confirmed (f : HeaviestSubtreeForkChoice) (keys : list SlotHashKey)
  : outcome fuel_error (list SlotHashKey) :=
  match keys with
  | [] => Ok []
  | key :: keys =>
      confirmed ← unwrap (is_duplicate_confirmed f key);
      rest ← not_duplicate_confirmed f keys;
      Ok (if (confirmed : bool) then rest else key :: rest)
  end.

Definition mark_fork_valid_candidate (f : HeaviestSubtreeForkChoice) (valid : SlotHashKey)
  : outcome fuel_error (HeaviestSubtreeForkChoice * list SlotHashKey) :=
  ancestors ← ancestor_iterator f valid;
  newly_duplicate_confirmed_ancestors ← not_duplicate_confirmed f (valid :: ancestors);
  subtree ← subtree_diff f valid SlotHashKey_default;
  update_operations ← insert_aggregate_operations f (insert_marks (OpMarkValid valid.1) subtree) valid;
  f ← process_update_operations f update_operations;
  Ok (f, newly_duplicate_confirmed_ancestors).
