(* ===== verification/ForkTree.v ===== *)
(** * The block tree of the fork choice

    The parent and child links of the nodes form a tree whose slots grow from
    the root: the facts about descendants that the fork choice relies on, and
    what its two traversals ([ancestor_iterator], [subtree_diff]) return. *)
From stdpp Require Import base gmap sorting sets option list.
From S2P Require Import Prelude EpochSchedule ForkChoice.

(** The parent and children of every node. *)
Abbreviation Shape := (gmap SlotHashKey (option SlotHashKey * list SlotHashKey)) (only parsing).
Definition links (i : ForkInfo) : option SlotHashKey * list SlotHashKey := (fi_parent i, fi_children i).
Definition shape (m : ForkInfos) : Shape := links <$> m.
#[global] Arguments shape : simpl never.

Record tree_wf (t : Shape) (root : SlotHashKey) : Prop := {
  wf_root : exists cs, t !! root = Some (None, cs);
  wf_parent k po cs : t !! k = Some (po, cs) -> k <> root ->
    exists p gp ps, po = Some p /\ t !! p = Some (gp, ps) /\ k ∈ ps /\ p.1 < k.1;
  wf_child k po cs c : t !! k = Some (po, cs) -> c ∈ cs -> exists ccs, t !! c = Some (Some k, ccs);
  wf_children_NoDup k po cs : t !! k = Some (po, cs) -> NoDup cs
}.

(** [descends t a k]: [k] is [a] or a descendant of [a]. *)
Inductive descends (t : Shape) (a : SlotHashKey) : SlotHashKey -> Prop :=
| descends_refl : descends t a a
| descends_step k p cs : t !! k = Some (Some p, cs) -> descends t a p -> descends t a k.

Create HintDb tree.
#[export] Hint Constructors descends : tree.

Lemma lookup_shape m k : shape m !! k = links <$> m !! k.
Proof. apply lookup_fmap. Qed.

Lemma lookup_shape_Some m k po cs :
  shape m !! k = Some (po, cs) <-> exists i, m !! k = Some i /\ fi_parent i = po /\ fi_children i = cs.
Proof. rewrite lookup_shape, fmap_Some. unfold links. naive_solver. Qed.

Lemma shape_insert m k i i' : m !! k = Some i -> links i' = links i -> shape (<[k := i']> m) = shape m.
Proof.
  intros Hk Hl. unfold shape. rewrite fmap_insert, Hl. apply insert_id. by rewrite lookup_fmap, Hk.
Qed.

Lemma shape_size m : size (shape m) = size m.
Proof. apply map_size_fmap. Qed.

Lemma map_filter_size_lt {A : Type} (P Q : SlotHashKey * A -> Prop) `{!forall x, Decision (P x), !forall x, Decision (Q x)}
    (m : gmap SlotHashKey A) k x :
  (forall e, P e -> Q e) -> m !! k = Some x -> Q (k, x) -> ~ P (k, x) -> (size (filter P m) < size (filter Q m))%nat.
Proof.
  intros HPQ Hk HQ HP. apply map_subset_size. split.
  - apply map_filter_subseteq_ext. auto.
  - intros Hsub. eapply HP, map_lookup_filter_Some_1_2. eapply lookup_weaken; [|exact Hsub].
    by apply map_lookup_filter_Some_2.
Qed.

Section tree.
Context (t : Shape) (root : SlotHashKey) (Hwf : tree_wf t root).
Implicit Types k a b c p : SlotHashKey.

Lemma parent_in_tree k p cs : t !! k = Some (Some p, cs) -> exists gp ps, t !! p = Some (gp, ps) /\ k ∈ ps /\ p.1 < k.1.
Proof.
  intros Hk. destruct (decide (k = root)) as [->|Hne].
  - destruct (wf_root _ _ Hwf) as [? ?]. congruence.
  - destruct (wf_parent _ _ Hwf _ _ _ Hk Hne) as (p' & gp & ps & [= ->] & ?). eauto.
Qed.

Lemma parent_slot k p cs : t !! k = Some (Some p, cs) -> p.1 < k.1.
Proof. intros Hk. by destruct (parent_in_tree _ _ _ Hk) as (? & ? & ? & ? & ?). Qed.

Lemma child_slot k po cs c : t !! k = Some (po, cs) -> c ∈ cs -> k.1 < c.1.
Proof. intros Hk Hc. destruct (wf_child _ _ Hwf _ _ _ _ Hk Hc) as [? Hcp]. by eapply parent_slot. Qed.

Lemma descends_slot a k : descends t a k -> a = k \/ a.1 < k.1.
Proof.
  induction 1 as [|k p cs Hk _ IH]; [by left|]. pose proof (parent_slot _ _ _ Hk). right. destruct IH as [->|]; lia.
Qed.

Lemma descends_slot_le a k : descends t a k -> a.1 <= k.1.
Proof. intros [->|]%descends_slot; lia. Qed.

Lemma descends_trans a b k : descends t a b -> descends t b k -> descends t a k.
Proof. intros Hab. induction 1; eauto with tree. Qed.

Lemma descends_antisym a b : descends t a b -> descends t b a -> a = b.
Proof. intros [?|?]%descends_slot [?|?]%descends_slot; auto; lia. Qed.

Lemma descends_comparable a b k : descends t a k -> descends t b k -> descends t a b \/ descends t b a.
Proof.
  intros Ha. revert b. induction Ha as [|k p cs Hk Hap IH]; intros b Hb; [by right|].
  inversion Hb as [|k' p' cs' Hk' Hbp]; subst; [left; by eapply descends_step|].
  rewrite Hk in Hk'. injection Hk' as <- <-. by apply IH.
Qed.

Lemma descends_child a p c cs : t !! c = Some (Some p, cs) -> descends t a c -> a <> c -> descends t a p.
Proof. intros Hc Hac Hne. inversion Hac; subst; [done|]. by simplify_eq. Qed.

Lemma child_descends k po cs c : t !! k = Some (po, cs) -> c ∈ cs -> descends t k c.
Proof. intros Hk Hc. destruct (wf_child _ _ Hwf _ _ _ _ Hk Hc) as [? ?]. eauto with tree. Qed.

(** Every proper descendant lies under exactly one child. *)
Lemma descends_via_child a po cs k : t !! a = Some (po, cs) -> descends t a k -> k <> a -> exists c, c ∈ cs /\ descends t c k.
Proof.
  intros Ha. induction 1 as [|k p kcs Hk Hap IH]; intros Hne; [done|].
  destruct (decide (p = a)) as [->|Hpa].
  - destruct (parent_in_tree _ _ _ Hk) as (gp & ps & Hp & Hin & _). simplify_eq. exists k. eauto with tree.
  - destruct (IH Hpa) as (c & ? & ?). exists c. eauto with tree.
Qed.

Lemma siblings_disjoint a po cs c1 c2 k :
  t !! a = Some (po, cs) -> c1 ∈ cs -> c2 ∈ cs -> descends t c1 k -> descends t c2 k -> c1 = c2.
Proof.
  intros Ha H1 H2 D1 D2.
  assert (forall x y, x ∈ cs -> y ∈ cs -> descends t x y -> x = y) as Hxy.
  { intros x y Hx Hy Hd. destruct (wf_child _ _ Hwf _ _ _ _ Ha Hx) as [? Hxp].
    destruct (wf_child _ _ Hwf _ _ _ _ Ha Hy) as [? Hyp].
    destruct (decide (x = y)); [done|]. pose proof (descends_child _ _ _ _ Hyp Hd ltac:(done)) as Hxa%descends_slot_le.
    pose proof (parent_slot _ _ _ Hxp). lia. }
  destruct (descends_comparable _ _ _ D1 D2); [|symmetry]; auto.
Qed.

Lemma descends_in_tree a k : is_Some (t !! k) -> descends t a k -> is_Some (t !! a).
Proof.
  intros Hk Hd. induction Hd as [|k p cs Hkp _ IH]; [done|]. apply IH.
  destruct (parent_in_tree _ _ _ Hkp) as (? & ? & ? & _). eauto.
Qed.

(** The number of nodes at a smaller slot bounds the way to the root. *)
Definition below (k : SlotHashKey) : nat := size (filter (fun e => e.1.1 < k.1) t).

Lemma below_parent k p cs : t !! k = Some (Some p, cs) -> (below p < below k)%nat.
Proof.
  intros Hk. destruct (parent_in_tree _ _ _ Hk) as (gp & ps & Hp & _ & Hlt).
  eapply map_filter_size_lt; [|exact Hp|..]; cbn; lia || (intros; cbn in *; lia).
Qed.

Lemma below_le k : (below k <= size t)%nat.
Proof. apply map_subseteq_size, map_filter_subseteq. Qed.

(** The number of nodes at a larger slot bounds the height. *)
Definition above (k : SlotHashKey) : nat := size (filter (fun e => k.1 < e.1.1) t).

Lemma above_child k po cs c : t !! k = Some (po, cs) -> c ∈ cs -> (above c < above k)%nat.
Proof.
  intros Hk Hc. pose proof (child_slot _ _ _ _ Hk Hc) as Hlt. destruct (wf_child _ _ Hwf _ _ _ _ Hk Hc) as [ccs Hct].
  eapply map_filter_size_lt; [|exact Hct|..]; cbn; lia || (intros; cbn in *; lia).
Qed.

Lemma descends_root k : is_Some (t !! k) -> descends t root k.
Proof.
  remember (below k) as n eqn:Hn. revert k Hn. induction (lt_wf n) as [n _ IH]. intros k -> [[po cs] Hk].
  destruct (decide (k = root)) as [->|Hne]; [constructor|].
  destruct (wf_parent _ _ Hwf _ _ _ Hk Hne) as (p & gp & ps & -> & Hp & _).
  eapply descends_step; [done|]. eapply IH; [by eapply below_parent|done|eauto].
Qed.

(** Induction from the leaves to the root. *)
Lemma tree_ind_up (P : SlotHashKey -> Prop) :
  (forall k po cs, t !! k = Some (po, cs) -> (forall c, c ∈ cs -> P c) -> P k) -> forall k, is_Some (t !! k) -> P k.
Proof.
  intros Hstep k. remember (above k) as n eqn:Hn. revert k Hn. induction (lt_wf n) as [n _ IH]. intros k -> [[po cs] Hk].
  eapply Hstep; [done|]. intros c Hc. destruct (wf_child _ _ Hwf _ _ _ _ Hk Hc) as [ccs Hct].
  eapply IH; [by eapply above_child|done|eauto].
Qed.

End tree.

(** ** Walking up *)

Lemma parent_of_shape f k : parent_of f k = shape (fork_infos f) !! k ≫= fst.
Proof. unfold parent_of. rewrite lookup_shape. by destruct (fork_infos f !! k). Qed.

(** The proper ancestors of a node, from its parent to the root. *)
Inductive chain (t : Shape) : SlotHashKey -> list SlotHashKey -> Prop :=
| chain_nil k : t !! k ≫= fst = None -> chain t k []
| chain_cons k p l : t !! k ≫= fst = Some p -> chain t p l -> chain t k (p :: l).

Lemma chain_elem t root k l a : tree_wf t root -> chain t k l -> a ∈ l <-> descends t a k /\ a <> k.
Proof.
  intros Hwf. induction 1 as [k Hk|k p l Hk _ IH].
  - split; [by intros ?%not_elem_of_nil|]. intros [Hd Hne]. inversion Hd; [done|]. simplify_option_eq.
  - apply bind_Some in Hk as ([po cs] & Hk & Hp). cbn in Hp. subst po.
    rewrite elem_of_cons, IH. pose proof (parent_slot _ _ Hwf _ _ _ Hk). split.
    + intros [->|[Hd Hne]]; split; eauto with tree; [intros ->; lia|].
      intros ->. pose proof (descends_slot_le _ _ Hwf _ _ Hd). lia.
    + intros [Hd Hne]. inversion Hd; subst; [done|]. simplify_eq. destruct (decide (a = p)); auto.
Qed.

Lemma ancestor_iterator_ok f root k :
  tree_wf (shape (fork_infos f)) root ->
  exists l, ancestor_iterator f k = Ok l /\ chain (shape (fork_infos f)) k l.
Proof.
  intros Hwf. unfold ancestor_iterator.
  assert (forall fuel k, (below (shape (fork_infos f)) k <= fuel)%nat ->
    exists l, ancestor_iterator_from fuel f k = Ok l /\ chain (shape (fork_infos f)) k l) as H.
  { clear k. induction fuel as [|fuel IH]; intros k Hfuel; cbn; rewrite parent_of_shape;
      destruct (_ !! k ≫= fst) as [p|] eqn:Hk; try by (eexists; split; [done|constructor]).
    all: pose proof Hk as ([po cs] & Hkt & Hp)%bind_Some; cbn in Hp; subst po;
      pose proof (below_parent _ _ Hwf _ _ _ Hkt).
    - lia.
    - destruct (IH p ltac:(lia)) as (l & -> & Hl). eexists; split; [done|]. by constructor. }
  apply H. rewrite <- shape_size. apply below_le.
Qed.

Lemma ancestor_iterator_exact f root k l :
  tree_wf (shape (fork_infos f)) root -> ancestor_iterator f k = Ok l -> chain (shape (fork_infos f)) k l.
Proof. intros Hwf Hl. destruct (ancestor_iterator_ok f root k Hwf) as (l' & Hl' & ?). congruence. Qed.

(** [is_strict_ancestor] decides proper descent. *)
Lemma is_strict_ancestor_spec f root a k :
  tree_wf (shape (fork_infos f)) root ->
  exists b, is_strict_ancestor f a k = Ok b /\ (b = true <-> descends (shape (fork_infos f)) a k /\ a <> k).
Proof.
  intros Hwf. unfold is_strict_ancestor. case_bool_decide as Heq; [eexists; split; [done|]; naive_solver|].
  destruct (Z.ltb_spec k.1 a.1) as [Hlt|Hge].
  - eexists; split; [done|]. split; [done|]. intros [?%(descends_slot_le _ _ Hwf) _]. lia.
  - destruct (ancestor_iterator_ok f root k Hwf) as (l & -> & Hl). cbn. eexists; split; [done|].
    rewrite <- (chain_elem _ _ _ _ _ Hwf Hl), existsb_exists. split.
    + intros ([x1 x2] & Hin & [?%Z.eqb_eq ?%Z.eqb_eq]%andb_prop). destruct a; cbn in *. subst. by apply list_elem_of_In.
    + intros Hin. exists a. split; [by apply list_elem_of_In|]. by rewrite !Z.eqb_refl.
Qed.

(** ** Walking down *)

Lemma elem_of_rev {A} (x : A) l : x ∈ rev l <-> x ∈ l.
Proof. by rewrite !list_elem_of_In, <- in_rev. Qed.

Lemma elem_of_rev_1 {A} (x : A) l : x ∈ rev l -> x ∈ l.
Proof. apply elem_of_rev. Qed.

Section subtree.
Context (f : HeaviestSubtreeForkChoice) (root root2 : SlotHashKey).
Abbreviation t := (shape (fork_infos f)).
Context (Hwf : tree_wf t root).

(** The nodes [subtree_diff] reaches from [x]. *)
Definition reached (x k : SlotHashKey) : Prop := descends t x k /\ ~ (descends t x root2 /\ descends t root2 k).

Lemma reached_step x po cs k : t !! x = Some (po, cs) -> x <> root2 ->
  reached x k <-> k = x \/ exists c, c ∈ cs /\ reached c k.
Proof.
  intros Hx Hne. unfold reached. split.
  - intros [Hd Hex]. destruct (decide (k = x)); [by left|right].
    destruct (descends_via_child _ _ Hwf _ _ _ _ Hx Hd) as (c & Hc & Hck); [done|].
    pose proof (child_descends _ _ Hwf _ _ _ _ Hx Hc). exists c. split_and!; [done..|].
    intros [? ?]. apply Hex. split; [by eapply descends_trans|done].
  - intros [->|(c & Hc & Hd & Hex)].
    + split; [constructor|]. intros [H1 H2]. by apply Hne, (descends_antisym _ _ Hwf).
    + pose proof (child_descends _ _ Hwf _ _ _ _ Hx Hc) as Hxc. split; [by eapply descends_trans|].
      intros [Hx2 H2k]. apply Hex. split; [|done].
      destruct (descends_via_child _ _ Hwf _ _ _ _ Hx Hx2) as (c' & Hc' & Hc'2); [done|].
      by rewrite (siblings_disjoint _ _ Hwf _ _ _ c c' k Hx Hc Hc' Hd ltac:(by eapply descends_trans)).
Qed.

(** The work list: nodes of the tree with disjoint subtrees, none of which meets
    the visited nodes. *)
Record worklist (pending : list SlotHashKey) (visited : gset SlotHashKey) : Prop := {
  wl_tree x : x ∈ pending -> is_Some (t !! x);
  wl_NoDup : NoDup pending;
  wl_disjoint x y k : x ∈ pending -> y ∈ pending -> descends t x k -> descends t y k -> x = y;
  wl_fresh x y : x ∈ pending -> y ∈ visited -> ~ descends t x y;
  wl_visited : visited ⊆ dom t
}.

Lemma worklist_skip x pending visited : worklist (x :: pending) visited -> worklist pending ({[x]} ∪ visited).
Proof.
  intros [Htree Hnd Hdis Hfresh Hvis]. apply NoDup_cons in Hnd as [Hnin Hnd]. split; auto.
  - intros y Hy. apply Htree. by right.
  - intros y z k Hy Hz. apply Hdis; by right.
  - intros y z Hy [->%elem_of_singleton|Hz]%elem_of_union; [|apply Hfresh; [by right|done]].
    intros Hd. destruct Hnin. rewrite <- (Hdis y x x); [done|by right|left|done|constructor].
  - apply union_least; [|done]. apply singleton_subseteq_l, elem_of_dom, Htree. left.
Qed.

Lemma worklist_expand x po cs pending visited : t !! x = Some (po, cs) ->
  worklist (x :: pending) visited -> worklist (rev cs ++ pending) ({[x]} ∪ visited).
Proof.
  intros Hx Hw. pose proof (worklist_skip _ _ _ Hw) as [Htree Hnd Hdis Hfresh Hvis].
  assert (forall c k y, c ∈ cs -> y ∈ pending -> descends t c k -> descends t y k -> False) as Hsep.
  { intros c k y Hc Hy Hck Hyk. pose proof (wl_NoDup _ _ Hw) as [Hn _]%NoDup_cons. apply Hn.
    rewrite (wl_disjoint _ _ Hw x y k); [done|left|by right| |done].
    eapply descends_trans; [|exact Hck]. by eapply child_descends. }
  split; [..|done].
  - intros y [Hy%elem_of_rev_1|Hy]%elem_of_app; [|auto]. destruct (wf_child _ _ Hwf _ _ _ _ Hx Hy); eauto.
  - apply NoDup_app. split_and!; [rewrite <- Permutation_rev; by eapply wf_children_NoDup| |done].
    intros c Hc%elem_of_rev_1 Hin. by apply (Hsep c c c); try constructor.
  - intros c c' k [Hc%elem_of_rev_1|Hc]%elem_of_app [Hc'%elem_of_rev_1|Hc']%elem_of_app D D'; [..|eauto].
    + by eapply siblings_disjoint.
    + by destruct (Hsep c k c').
    + by destruct (Hsep c' k c).
  - intros c y [Hc%elem_of_rev_1|Hc]%elem_of_app Hy; [|auto]. intros Hd.
    pose proof (child_slot _ _ Hwf _ _ _ _ Hx Hc). pose proof (descends_slot_le _ _ Hwf _ _ Hd).
    apply elem_of_union in Hy as [->%elem_of_singleton|Hy]; [lia|].
    apply (wl_fresh _ _ Hw x y); [left|done|]. eapply descends_trans; [|done]. by eapply child_descends.
Qed.

Lemma worklist_fuel x pending visited fuel :
  worklist (x :: pending) visited -> (size (dom t) <= size visited + fuel)%nat ->
  exists fuel', fuel = S fuel' /\ (size (dom t) <= size ({[x]} ∪ visited) + fuel')%nat.
Proof.
  intros Hw Hfuel. assert (x ∉ visited) as Hx by (intros Hx; apply (wl_fresh _ _ Hw x x); [left|done|constructor]).
  pose proof (worklist_skip _ _ _ Hw) as Hw'. pose proof (subseteq_size _ _ (wl_visited _ _ Hw')) as Hsz.
  rewrite size_union, size_singleton in * by set_solver.
  destruct fuel as [|fuel]; [lia|]. exists fuel. split; [done|lia].
Qed.

Lemma subtree_diff_loop_ok fuel pending visited reachable :
  worklist pending visited -> (size (dom t) <= size visited + fuel)%nat ->
  exists s, subtree_diff_loop fuel f root2 pending reachable = Ok s /\
    forall k, k ∈ s <-> k ∈ reachable \/ exists x, x ∈ pending /\ reached x k.
Proof.
  revert pending visited reachable. induction fuel as [|fuel IH]; intros [|x pending] visited reachable Hw Hfuel.
  1, 3: (eexists; split; [done|]; set_solver).
  all: destruct (worklist_fuel _ _ _ _ Hw Hfuel) as (fuel' & [= <-] & Hfuel').
  cbn. destruct (wl_tree _ _ Hw x) as [[po cs] Hx]; [left|]. case_bool_decide as Hr2.
  - destruct (IH _ _ reachable (worklist_skip _ _ _ Hw) Hfuel') as (s & -> & Hs). eexists; split; [done|].
    intros k. rewrite Hs. setoid_rewrite elem_of_cons. unfold reached. subst. split; [set_solver|].
    intros [?|(y & [->|?] & H1 & H2)]; [set_solver| |set_solver]. destruct H2. split; [constructor|done].
  - pose proof Hx as (i & Hi & _ & Hcs)%lookup_shape_Some. unfold children_of. rewrite Hi. cbn. rewrite Hcs.
    destruct (IH _ _ ({[x]} ∪ reachable) (worklist_expand _ _ _ _ _ Hx Hw) Hfuel') as (s & -> & Hs).
    eexists; split; [done|]. intros k. rewrite Hs. setoid_rewrite elem_of_app. setoid_rewrite elem_of_cons.
    setoid_rewrite elem_of_rev. pose proof (reached_step x po cs k Hx Hr2). set_solver.
Qed.

(** [subtree_diff] returns the nodes below [root1] that are not below [root2]. *)
Lemma subtree_diff_ok root1 : is_Some (t !! root1) ->
  exists s, subtree_diff f root1 root2 = Ok s /\ forall k, k ∈ s <-> reached root1 k.
Proof.
  intros Hr. unfold subtree_diff, contains_block. rewrite bool_decide_true.
  - destruct (subtree_diff_loop_ok (size (fork_infos f)) [root1] ∅ ∅) as (s & -> & Hs).
    + split; [by intros x ->%list_elem_of_singleton|apply NoDup_singleton|..|by intros x y _ ?%elem_of_empty|apply empty_subseteq].
      by intros x y k ->%list_elem_of_singleton ->%list_elem_of_singleton.
    + rewrite size_empty, size_dom, shape_size. lia.
    + eexists; split; [done|]. intros k. rewrite Hs. set_solver.
  - rewrite lookup_shape in Hr. by apply fmap_is_Some in Hr.
Qed.

End subtree.
