(* ===== verification/ForkUpdate.v ===== *)
(** * Processing a batch of fork choice updates

    [process_update_operations] touches the nodes from the greatest key to the
    smallest, so that children are up to date when their parent is aggregated.
    A batch in which every touched node has its parent aggregated leaves every
    node of the tree settled: aggregating it once more would change nothing. *)
From stdpp Require Import base gmap sorting sets option list.
From S2P Require Import Prelude EpochSchedule ForkChoice ForkTree.

Lemma elem_of_cons_inv {A} (x y : A) l : x ∈ y :: l -> y = x \/ x ∈ l.
Proof. rewrite elem_of_cons. naive_solver. Qed.

(** ** The order of the operations *)

Definition opk_lt (a b : OpKey) : Prop :=
  key_lt a.1 b.1 \/ a.1 = b.1 /\
    ((label_rank a.2).1 < (label_rank b.2).1 \/
     (label_rank a.2).1 = (label_rank b.2).1 /\ (label_rank a.2).2 < (label_rank b.2).2).

Lemma label_rank_inj l l' : (label_rank l).1 = (label_rank l').1 -> (label_rank l).2 = (label_rank l').2 -> l = l'.
Proof. destruct l, l'; cbn; congruence. Qed.

Lemma op_le_strict a b : op_le a b -> a.1 <> b.1 -> opk_lt a.1 b.1.
Proof.
  destruct a as [[k l] o], b as [[k' l'] o']. unfold op_le, opk_lt. cbn. intros [?|[-> [?|[Hr Hs]]]] Hne; [tauto..|].
  right. split; [done|]. destruct (decide ((label_rank l).2 = (label_rank l').2)); [|lia].
  destruct Hne. f_equal. by apply label_rank_inj.
Qed.

Lemma opk_lt_irrefl a : ~ opk_lt a a.
Proof. unfold opk_lt, key_lt. lia. Qed.

Lemma opk_lt_key a b : opk_lt a b -> a.1 = b.1 \/ key_lt a.1 b.1.
Proof. unfold opk_lt. tauto. Qed.

Lemma slot_opk_lt a b : a.1.1 < b.1.1 -> opk_lt a b.
Proof. unfold opk_lt, key_lt. tauto. Qed.

#[export] Instance op_le_trans : Transitive op_le.
Proof.
  intros [[[x1 x2] l] o] [[[y1 y2] l'] o'] [[[z1 z2] l''] o'']. unfold op_le, key_lt. cbn.
  intros [?|[[= -> ->] ?]] [?|[[= -> ->] ?]]; [left; lia..|right]. split; [done|lia].
Qed.

#[export] Instance op_le_total : Total op_le.
Proof.
  intros [[[x1 x2] l] o] [[[y1 y2] l'] o']. unfold op_le, key_lt. cbn.
  destruct (Z.lt_total x1 y1) as [?|[->|?]]; [tauto| |tauto].
  destruct (Z.lt_total x2 y2) as [?|[->|?]]; [tauto| |tauto].
  destruct (Z.lt_total (label_rank l).1 (label_rank l').1) as [?|[->|?]]; [tauto| |tauto].
  destruct (Z.le_ge_cases (label_rank l).2 (label_rank l').2); tauto.
Qed.

(** The operations in the order they are processed. *)
Abbreviation ops_sorted := (StronglySorted (fun a b : OpKey * UpdateOperation => opk_lt b.1 a.1)) (only parsing).

Lemma btree_iter_elem ops k op : (k, op) ∈ reverse (btree_iter ops) <-> ops !! k = Some op.
Proof. unfold btree_iter. by rewrite elem_of_reverse, merge_sort_Permutation, elem_of_map_to_list. Qed.

Lemma btree_iter_sorted ops : ops_sorted (reverse (btree_iter ops)).
Proof.
  apply (StronglySorted_reverse (fun a b : OpKey * UpdateOperation => opk_lt a.1 b.1)).
  assert (StronglySorted op_le (btree_iter ops)) as Hs by (apply StronglySorted_merge_sort; apply _).
  assert (NoDup (btree_iter ops).*1) as Hnd.
  { unfold btree_iter. rewrite merge_sort_Permutation. apply NoDup_fst_map_to_list. }
  induction Hs as [|e l Hs IH Hf]; [constructor|]. cbn in Hnd. apply NoDup_cons in Hnd as [Hn Hnd].
  constructor; [by apply IH|]. rewrite Forall_forall in *. intros x Hx. apply op_le_strict; [by apply Hf|].
  intros Heq. apply Hn. rewrite Heq. by apply list_elem_of_fmap_2.
Qed.

(** ** One operation *)

Lemma process_operation_shape key op m m' :
  process_operation key op m = Ok m' ->
  m' = m \/ exists i i', m !! key = Some i /\ m' = <[key := i']> m /\ links i' = links i.
Proof.
  destruct op as [n|s|s|n|]; cbn; unfold add_slot_stake, mark_fork_valid, mark_fork_invalid, subtract_slot_stake, aggregate_slot;
    destruct (m !! key) as [i|] eqn:Hi; intros Hop; ok_inv; subst; try (by left); right; do 2 eexists;
    (split; [done|]); (split; [done|]); try done.
  - unfold update_with_newly_valid_ancestor. by repeat case_match.
  - unfold update_with_newly_invalid_ancestor in *. repeat case_match; by simplify_eq.
  - by case_match.
Qed.

Lemma process_operation_other key op m m' k : process_operation key op m = Ok m' -> k <> key -> m' !! k = m !! k.
Proof.
  intros [->|(i & i' & _ & -> & _)]%process_operation_shape Hne; [done|]. by rewrite lookup_insert_ne.
Qed.

Lemma process_operation_links key op m m' : process_operation key op m = Ok m' -> shape m' = shape m.
Proof. intros [->|(i & i' & ? & -> & ?)]%process_operation_shape; [done|]. by eapply shape_insert. Qed.

(** ** Settled nodes *)

Definition aggregation_start (k : SlotHashKey) (i : ForkInfo) : Aggregation :=
  mkAggregation (fi_stake_voted_at i) k 0 k false.

Definition agrees (i : ForkInfo) (a : Aggregation) : Prop :=
  fi_stake_voted_subtree i = ag_stake a /\
  (info_is_candidate i = true -> fi_best_slot i = ag_best_slot a) /\
  (ag_duplicate_confirmed a = true -> fi_is_duplicate_confirmed i = true).

(** Aggregating [k] again changes nothing. *)
Definition settled (m : ForkInfos) (k : SlotHashKey) : Prop :=
  forall i, m !! k = Some i ->
    exists a, aggregate_children m k (fi_children i) (aggregation_start k i) = Ok a /\ agrees i a.

Definition stakes_in_range (m : ForkInfos) : Prop := forall k i, m !! k = Some i -> in_u64 (fi_stake_voted_at i).

(** What the aggregation of the parent reads of a node. *)
Definition child_view (i : ForkInfo) : ForkWeight * bool * option SlotHashKey :=
  (fi_stake_voted_subtree i, fi_is_duplicate_confirmed i, if info_is_candidate i then Some (fi_best_slot i) else None).

Lemma aggregate_child_view k c i i' a : child_view i' = child_view i -> aggregate_child k c i' a = aggregate_child k c i a.
Proof.
  unfold child_view, aggregate_child. intros [= -> -> H]. destruct (info_is_candidate i), (info_is_candidate i'); try done.
  by injection H as ->.
Qed.

Lemma aggregate_children_view m m' k cs a :
  (forall c, c ∈ cs -> child_view <$> m' !! c = child_view <$> m !! c) ->
  aggregate_children m' k cs a = aggregate_children m k cs a.
Proof.
  revert a. induction cs as [|c cs IH]; intros a Hcs; cbn; [done|].
  specialize (Hcs c ltac:(left)) as Hc. destruct (m !! c), (m' !! c); cbn in *; try done. injection Hc as Hc1 Hc2 Hc3.
  rewrite (aggregate_child_view k c f f0) by (unfold child_view; congruence). apply IH. intros. apply Hcs. by right.
Qed.

Lemma aggregate_children_ext m m' k cs a :
  (forall c, c ∈ cs -> m' !! c = m !! c) -> aggregate_children m' k cs a = aggregate_children m k cs a.
Proof. intros Hcs. apply aggregate_children_view. intros c Hc. by rewrite Hcs. Qed.

Lemma aggregate_children_total m k cs a : (forall c, c ∈ cs -> is_Some (m !! c)) -> exists a', aggregate_children m k cs a = Ok a'.
Proof.
  revert a. induction cs as [|c cs IH]; intros a Hcs; cbn; [eauto|].
  destruct (Hcs c) as [i ->]; [left|]. cbn. apply IH. intros. apply Hcs. by right.
Qed.

(** The sum of the subtree stakes of some nodes. *)
Definition subtree_sum (m : ForkInfos) (cs : list SlotHashKey) : Z :=
  foldr (fun c acc => from_option fi_stake_voted_subtree 0 (m !! c) + acc) 0 cs.

Lemma aggregate_children_stake m k cs a a' :
  in_u64 (ag_stake a) -> aggregate_children m k cs a = Ok a' -> ag_stake a' = as_u64 (ag_stake a + subtree_sum m cs).
Proof.
  revert a. induction cs as [|c cs IH]; intros a Ha; cbn.
  - intros [= <-]. rewrite Z.add_0_r. by rewrite as_u64_small.
  - destruct (m !! c) as [i|]; cbn; [|done]. intros Hc. apply IH in Hc; unfold aggregate_child in *; [|case_match; apply add64_range].
    rewrite Hc. case_match; cbn; unfold add64; rewrite as_u64_add_l; f_equal; unfold subtree_sum; lia.
Qed.

(** The rest of the aggregation does not depend on the stake it starts from. *)
Lemma aggregate_children_start m k cs a b a' :
  ag_best_slot a = ag_best_slot b -> ag_best_child_stake a = ag_best_child_stake b ->
  ag_best_child a = ag_best_child b -> ag_duplicate_confirmed a = ag_duplicate_confirmed b ->
  aggregate_children m k cs a = Ok a' -> exists b', aggregate_children m k cs b = Ok b' /\
    ag_best_slot a' = ag_best_slot b' /\ ag_duplicate_confirmed a' = ag_duplicate_confirmed b'.
Proof.
  revert a b. induction cs as [|c cs IH]; intros a b E1 E2 E3 E4; cbn.
  - intros [= <-]. eauto.
  - destruct (m !! c) as [i|]; cbn; [|done]. apply IH; unfold aggregate_child; rewrite E1, E2, E3, E4; by case_match.
Qed.

(** The latest invalid ancestor of a node, and whether it is duplicate confirmed. *)
Abbreviation Status := (option Slot * bool)%type (only parsing).

Section batch.
Context (t : Shape) (root : SlotHashKey) (Hwf : tree_wf t root).

(** Changing the node [x] leaves every settled node but [x] and its parent settled. *)
Lemma settled_other m x i' k :
  shape m = t -> is_Some (m !! x) -> k <> x -> t !! x ≫= fst <> Some k -> settled m k -> settled (<[x := i']> m) k.
Proof.
  intros Ht [i0 Hx] Hne Hpar Hk i. rewrite lookup_insert_ne by done. intros Hi.
  destruct (Hk i Hi) as (a & Ha & Hag). exists a. split; [|done].
  rewrite <- Ha. apply aggregate_children_ext. intros c Hc. rewrite lookup_insert_ne; [done|]. intros <-.
  destruct (wf_child _ _ Hwf k (fi_parent i) (fi_children i) x) as [ccs Hcc]; [|done|].
  - subst t. rewrite lookup_shape, Hi. done.
  - rewrite Hcc in Hpar. cbn in Hpar. done.
Qed.

Lemma own_child k po cs : t !! k = Some (po, cs) -> k ∉ cs.
Proof. intros Hk Hin. pose proof (child_slot _ _ Hwf _ _ _ _ Hk Hin). lia. Qed.

Lemma children_exist m k i c : shape m = t -> m !! k = Some i -> c ∈ fi_children i -> is_Some (m !! c).
Proof.
  intros Ht Hk Hc. destruct (wf_child _ _ Hwf k (fi_parent i) (fi_children i) c) as [ccs Hcc]; [|done|].
  - subst t. by rewrite lookup_shape, Hk.
  - subst t. rewrite lookup_shape in Hcc. apply fmap_Some in Hcc as (? & ? & _). eauto.
Qed.

Lemma aggregate_slot_ok m k : shape m = t -> exists m', aggregate_slot k m = Ok m'.
Proof.
  intros Ht. unfold aggregate_slot. destruct (m !! k) as [i|] eqn:Hk; [|eauto].
  destruct (aggregate_children_total m k (fi_children i) (aggregation_start k i)) as [a Ha].
  { intros c. by eapply children_exist. }
  unfold aggregation_start in Ha. rewrite Ha. cbn. eauto.
Qed.

Lemma aggregate_slot_settled m m' k : shape m = t -> aggregate_slot k m = Ok m' -> settled m' k.
Proof.
  intros Ht. unfold aggregate_slot. destruct (m !! k) as [i|] eqn:Hk; [|intros [= <-] i Hi; congruence].
  intros (a & Ha & [= <-])%outcome_bind_Ok i'. rewrite lookup_insert_eq. intros [= <-]. exists a. split.
  - rewrite <- Ha. replace (fi_children _) with (fi_children i) by (by case_match).
    unfold aggregation_start. replace (fi_stake_voted_at _) with (fi_stake_voted_at i) by (by case_match).
    apply aggregate_children_ext. intros c Hc. rewrite lookup_insert_ne; [done|]. intros <-.
    eapply (own_child k (fi_parent i) (fi_children i)); [|done]. subst t. by rewrite lookup_shape, Hk.
  - split; [by case_match|]. split; [by case_match|]. by destruct (ag_duplicate_confirmed a).
Qed.

(** Adding the same stake to a node and to its subtree keeps it settled. *)
Lemma settled_stake m k i n :
  shape m = t -> m !! k = Some i -> in_u64 (fi_stake_voted_at i) -> settled m k ->
  settled (<[k := set_stakes (as_u64 (fi_stake_voted_at i + n)) (as_u64 (fi_stake_voted_subtree i + n)) i]> m) k.
Proof.
  intros Ht Hk Hr Hs i'. rewrite lookup_insert_eq. intros [= <-]. destruct (Hs i Hk) as (a & Ha & H1 & H2 & H3).
  assert (forall c, c ∈ fi_children i -> c <> k) as Hne.
  { intros c Hc ->. eapply (own_child k (fi_parent i) (fi_children i)); [|done]. subst t. by rewrite lookup_shape, Hk. }
  cbn [fi_children set_stakes]. rewrite (aggregate_children_ext m); [|intros c Hc; rewrite lookup_insert_ne; [done|by apply not_eq_sym, Hne]].
  set (b0 := aggregation_start k _). destruct (aggregate_children_start m k (fi_children i) (aggregation_start k i) b0 a) as (b & Hb & E1 & E2); try done.
  exists b. split; [done|]. apply aggregate_children_stake in Ha as Hsa; [|done].
  apply aggregate_children_stake in Hb as Hsb; [|apply as_u64_range].
  split; cbn; [|by rewrite <- E1, <- E2].
  rewrite H1, Hsa, Hsb. cbn. rewrite !as_u64_add_l. f_equal. lia.
Qed.

(** ** Batches *)

Definition op_label (op : UpdateOperation) : UpdateLabel :=
  match op with
  | OpAdd _ => LAdd
  | OpMarkValid slot => LMarkValid slot
  | OpMarkInvalid slot => LMarkInvalid slot
  | OpSubtract _ => LSubtract
  | OpAggregate => LAggregate
  end.

Definition is_stake_label (l : UpdateLabel) : Prop := l = LAdd \/ l = LSubtract.

Definition pending_aggregate (l : list (OpKey * UpdateOperation)) (k : SlotHashKey) : Prop := ((k, LAggregate), OpAggregate) ∈ l.

Record batch (l : list (OpKey * UpdateOperation)) : Prop := {
  batch_sorted : ops_sorted l;
  batch_label k op : (k, op) ∈ l -> op_label op = k.2;
  batch_parent k op p cs : (k, op) ∈ l -> t !! k.1 = Some (Some p, cs) -> pending_aggregate l p;
  batch_own k op : (k, op) ∈ l -> ~ is_stake_label k.2 -> pending_aggregate l k.1
}.

Lemma batch_later k op l k' op' : batch ((k, op) :: l) -> (k', op') ∈ l -> opk_lt k' k.
Proof.
  intros [Hs _ _ _] Hin. apply StronglySorted_cons in Hs as [Hf _]. rewrite Forall_forall in Hf. by apply (Hf _ Hin).
Qed.

Lemma batch_not_again k op l op' : batch ((k, op) :: l) -> (k, op') ∉ l.
Proof. intros Hb Hin. by eapply opk_lt_irrefl, (batch_later _ _ _ _ _ Hb). Qed.

Lemma label_rank_nonneg l : 0 <= (label_rank l).1.
Proof. destruct l; cbn; lia. Qed.

(** Once a node is aggregated no operation on it is left. *)
Lemma batch_aggregate_last k op l l' op' : batch (((k, LAggregate), op) :: l) -> ((k, l'), op') ∉ l.
Proof.
  intros Hb Hin. apply (batch_later _ _ _ _ _ Hb) in Hin as [Hlt|[_ Hr]]; [unfold key_lt in Hlt; cbn in *; lia|].
  pose proof (label_rank_nonneg l'). cbn in Hr. destruct Hr as [?|[H1 H2]]; [lia|]. destruct l'; cbn in *; lia.
Qed.

(** Every operation on a node comes before those on its ancestors. *)
Lemma batch_descendants_done k op l c l' op' : batch ((k, op) :: l) -> k.1.1 < c.1 -> ((c, l'), op') ∉ l.
Proof.
  intros Hb Hlt Hin. apply (batch_later _ _ _ _ _ Hb), opk_lt_key in Hin as [Hk|Hk]; cbn in *; [subst; lia|].
  unfold key_lt in Hk. lia.
Qed.

Lemma batch_tail e l : batch (e :: l) -> batch l.
Proof.
  destruct e as [k op]. intros Hb. pose proof Hb as [Hs Hl Hp Ho]. split.
  - by apply StronglySorted_cons in Hs as [_ ?].
  - intros k' op' Hin. apply Hl. by right.
  - intros k' op' p cs Hin Hk'. pose proof (Hp k' op' p cs ltac:(by right) Hk') as [[= -> ->]|?]%elem_of_cons_inv; [|done].
    edestruct (batch_descendants_done _ _ _ k'.1 k'.2 op' Hb); [|by destruct k'].
    by eapply parent_slot.
  - intros k' op' Hin Hn. pose proof (Ho k' op' ltac:(by right) Hn) as [[= -> ->]|?]%elem_of_cons_inv; [|done].
    edestruct (batch_aggregate_last _ _ _ k'.2 op' Hb). by destruct k'.
Qed.

(** ** Validity *)

Definition status (i : ForkInfo) : Status := (fi_latest_invalid_ancestor i, fi_is_duplicate_confirmed i).

Definition valid_status (k : SlotHashKey) (slot : Slot) (s : Status) : Status :=
  (match s.1 with Some u => if u <=? slot then None else Some u | None => None end, (k.1 =? slot) || s.2).
Definition invalid_status (slot : Slot) (s : Status) : Status :=
  (Some (match s.1 with Some u => Z.max u slot | None => slot end), s.2).

(** A batch turns the status [st0] of the nodes into [st1]: the node [k] gets it
    from its operation labelled [lab k]. *)
Record plan (st0 st1 : SlotHashKey -> Status) (lab : SlotHashKey -> UpdateLabel) (l : list (OpKey * UpdateOperation)) : Prop := {
  plan_label k : ~ is_stake_label (lab k);
  plan_valid k slot op : ((k, LMarkValid slot), op) ∈ l -> is_Some (t !! k) ->
    lab k = LMarkValid slot /\ st1 k = valid_status k slot (st0 k);
  plan_invalid k slot op : ((k, LMarkInvalid slot), op) ∈ l -> is_Some (t !! k) ->
    lab k = LMarkInvalid slot /\ (st0 k).2 = false /\ st1 k = invalid_status slot (st0 k);
  plan_aggregate k op po cs : ((k, LAggregate), op) ∈ l -> t !! k = Some (po, cs) ->
    st1 k = if existsb (fun c => (st1 c).2) cs then (None, true)
            else if decide (lab k = LAggregate) then st0 k else st1 k
}.

Lemma plan_tail st0 st1 lab e l : plan st0 st1 lab (e :: l) -> plan st0 st1 lab l.
Proof. intros [Hl Hv Hi Ha]. split; [done|..]; intros; [eapply Hv|eapply Hi|eapply Ha]; try done; by right. Qed.

Lemma aggregate_children_confirmed m k cs a a' :
  aggregate_children m k cs a = Ok a' ->
  ag_duplicate_confirmed a' =
    ag_duplicate_confirmed a || existsb (fun c => from_option fi_is_duplicate_confirmed false (m !! c)) cs.
Proof.
  revert a. induction cs as [|c cs IH]; intros a; cbn; [intros [= <-]; by rewrite orb_false_r|].
  destruct (m !! c) as [i|]; cbn; [|done]. intros Hc%IH. rewrite Hc. unfold aggregate_child. case_match; cbn; by rewrite orb_assoc.
Qed.

Lemma mark_valid_status_ok k slot i :
  status (let i := update_with_newly_valid_ancestor slot i in
          if k.1 =? slot then set_validity (fi_latest_invalid_ancestor i) true i else i) = valid_status k slot (status i).
Proof.
  unfold update_with_newly_valid_ancestor, valid_status, status. cbn.
  destruct (fi_latest_invalid_ancestor i) eqn:E; zcases; cbn; rewrite ?E; done.
Qed.

Lemma mark_invalid_status_ok slot i : fi_is_duplicate_confirmed i = false ->
  exists i', update_with_newly_invalid_ancestor slot i = Ok i' /\ status i' = invalid_status slot (status i) /\
    links i' = links i /\ fi_stake_voted_at i' = fi_stake_voted_at i.
Proof.
  intros Hd. unfold update_with_newly_invalid_ancestor, invalid_status, status. rewrite Hd. eexists; split; [done|].
  destruct (fi_latest_invalid_ancestor i) eqn:E; [destruct (Z.ltb_spec z slot)|]; cbn; rewrite ?E, ?Hd; split_and!; auto.
  all: do 2 f_equal; lia.
Qed.

(** The stake the operations add to a node. *)
Definition op_delta (k : SlotHashKey) (e : OpKey * UpdateOperation) : Z :=
  if decide (e.1.1 = k) then match e.2 with OpAdd n => n | OpSubtract n => - n | _ => 0 end else 0.
Definition delta (l : list (OpKey * UpdateOperation)) (k : SlotHashKey) : Z := foldr (fun e acc => op_delta k e + acc) 0 l.

(** The state of the nodes before the operations [l]. *)
Record progress (st0 st1 : SlotHashKey -> Status) (lab : SlotHashKey -> UpdateLabel)
    (l : list (OpKey * UpdateOperation)) (m : ForkInfos) : Prop := {
  pr_shape : shape m = t;
  pr_range : stakes_in_range m;
  pr_settled k : settled m k \/ pending_aggregate l k;
  pr_status k i : m !! k = Some i -> status i = if decide ((k, lab k) ∈ l.*1) then st0 k else st1 k
}.

(** Whether the operation of [k] that sets its status is still to come. *)
Lemma status_head_other (k : OpKey) op (l : list (OpKey * UpdateOperation)) k' (lab : SlotHashKey -> UpdateLabel) :
  (k', lab k') <> k -> (k', lab k') ∈ ((k, op) :: l).*1 <-> (k', lab k') ∈ l.*1.
Proof. intros Hne. cbn. rewrite elem_of_cons. naive_solver. Qed.

Lemma batch_head_done (k : OpKey) op (l : list (OpKey * UpdateOperation)) : batch ((k, op) :: l) -> k ∉ l.*1.
Proof. intros Hb ([k' op'] & -> & Hin)%list_elem_of_fmap. by eapply batch_not_again. Qed.

(** One operation, given what it does to the node it names. *)
Lemma progress_step st0 st1 lab x lb op l m m' :
  batch (((x, lb), op) :: l) -> progress st0 st1 lab (((x, lb), op) :: l) m ->
  process_operation x op m = Ok m' ->
  (forall i, m' !! x = Some i -> in_u64 (fi_stake_voted_at i)) ->
  (settled m' x \/ pending_aggregate l x) ->
  (forall i, m' !! x = Some i -> status i = if decide ((x, lab x) ∈ l.*1) then st0 x else st1 x) ->
  progress st0 st1 lab l m'.
Proof.
  intros Hb [Hsh Hr Hset Hst] Hop Hrx Hsx Hstx. split.
  - by rewrite (process_operation_links _ _ _ _ Hop).
  - intros k i Hk. destruct (decide (k = x)) as [->|Hne]; [auto|]. rewrite (process_operation_other _ _ _ _ _ Hop Hne) in Hk. eauto.
  - intros k. destruct (decide (k = x)) as [->|Hne]; [done|].
    destruct (process_operation_shape _ _ _ _ Hop) as [->|(i & i' & Hi & -> & _)].
    + destruct (Hset k) as [?|Hp]; [by left|]. apply elem_of_cons_inv in Hp as [[= -> -> ->]|?]; [done|by right].
    + destruct (decide (t !! x ≫= fst = Some k)) as [Hpar|Hpar].
      * apply bind_Some in Hpar as ([po cs] & Hx & Hpo). cbn in Hpo. subst po. right.
        pose proof (batch_parent _ Hb (x, lb) op k cs ltac:(left) Hx) as [[= <- ? ?]|?]%elem_of_cons_inv; [|done].
        pose proof (parent_slot _ _ Hwf _ _ _ Hx). lia.
      * destruct (Hset k) as [?|Hp]; [left; by apply settled_other|].
        apply elem_of_cons_inv in Hp as [[= -> -> ->]|?]; [done|by right].
  - intros k i Hk. destruct (decide (k = x)) as [->|Hne]; [auto|].
    rewrite (process_operation_other _ _ _ _ _ Hop Hne) in Hk. rewrite (Hst _ _ Hk).
    apply decide_ext, status_head_other. congruence.
Qed.

(** The stake voted for a node after an operation. *)
Lemma process_operation_stake x lb op m m' k i :
  process_operation x op m = Ok m' -> m !! k = Some i -> in_u64 (fi_stake_voted_at i) ->
  exists i', m' !! k = Some i' /\ fi_stake_voted_at i' = as_u64 (fi_stake_voted_at i + op_delta k ((x, lb), op)).
Proof.
  intros Hop Hk Hr. unfold op_delta. cbn. destruct (decide (x = k)) as [->|Hne].
  - destruct op; cbn in Hop; unfold add_slot_stake, mark_fork_valid, mark_fork_invalid, subtract_slot_stake, aggregate_slot in Hop;
      rewrite Hk in Hop; ok_inv; eexists; (split; [apply lookup_insert_eq|]); cbn; rewrite ?Z.add_0_r.
    + done.
    + rewrite as_u64_small by done. unfold update_with_newly_valid_ancestor. by repeat case_match.
    + rewrite as_u64_small by done. unfold update_with_newly_invalid_ancestor in *. repeat case_match; by simplify_eq.
    + done.
    + rewrite as_u64_small by done. by case_match.
  - exists i. rewrite Z.add_0_r, as_u64_small by done. split; [|done].
    by rewrite (process_operation_other _ _ _ _ k Hop).
Qed.

Section step.
Context (st0 st1 : SlotHashKey -> Status) (lab : SlotHashKey -> UpdateLabel).
Context (x : SlotHashKey) (lb : UpdateLabel) (op : UpdateOperation) (l : list (OpKey * UpdateOperation)) (m : ForkInfos).
Context (Hb : batch (((x, lb), op) :: l)) (Hp : plan st0 st1 lab (((x, lb), op) :: l)).
Context (Hg : progress st0 st1 lab (((x, lb), op) :: l) m).

Lemma step_absent : m !! x = None -> exists m', process_operation x op m = Ok m' /\ progress st0 st1 lab l m'.
Proof.
  intros Hx. exists m. assert (process_operation x op m = Ok m) as Hop.
  { destruct op; cbn; unfold add_slot_stake, mark_fork_valid, mark_fork_invalid, subtract_slot_stake, aggregate_slot; by rewrite Hx. }
  split; [done|]. eapply progress_step; try done; [by rewrite Hx| |by rewrite Hx]. left. intros i Hi. congruence.
Qed.

(** An operation other than [Aggregate] leaves the aggregation of its node to come. *)
Lemma step_pending : lb <> LAggregate -> pending_aggregate (((x, lb), op) :: l) x -> pending_aggregate l x.
Proof. intros Hne [[= -> ?]|?]%elem_of_cons_inv; done. Qed.

Lemma step_own : lb <> LAggregate -> ~ is_stake_label lb -> pending_aggregate l x.
Proof. intros Hne Hns. apply step_pending; [done|]. apply (batch_own _ Hb (x, lb) op); [left|done]. Qed.

Lemma step_status_before i : m !! x = Some i -> lab x = lb -> status i = st0 x.
Proof. intros Hx Hl. rewrite (pr_status _ _ _ _ _ Hg _ _ Hx), decide_True; [done|]. cbn. rewrite Hl. left. Qed.

Lemma step_status_done : lab x = lb -> (x, lab x) ∉ l.*1.
Proof. intros ->. by eapply batch_head_done. Qed.

Lemma step_stake i n : m !! x = Some i -> is_stake_label lb ->
  process_operation x op m =
    Ok (<[x := set_stakes (as_u64 (fi_stake_voted_at i + n)) (as_u64 (fi_stake_voted_subtree i + n)) i]> m) ->
  exists m', process_operation x op m = Ok m' /\ progress st0 st1 lab l m'.
Proof.
  intros Hx Hl Hop. eexists; split; [done|]. eapply progress_step; try done.
  - intros i'. rewrite lookup_insert_eq. intros [= <-]. apply as_u64_range.
  - destruct (pr_settled _ _ _ _ _ Hg x) as [?|?].
    + left. by apply settled_stake; [apply Hg| |apply (pr_range _ _ _ _ _ Hg x)|].
    + right. apply step_pending; [|done]. destruct Hl; congruence.
  - intros i'. rewrite lookup_insert_eq. intros [= <-]. change (status i = if decide ((x, lab x) ∈ l.*1) then st0 x else st1 x).
    rewrite (pr_status _ _ _ _ _ Hg _ _ Hx). apply decide_ext, status_head_other.
    intros [= Heq]. by apply (plan_label _ _ _ _ Hp x); rewrite Heq.
Qed.

Lemma step_mark i i' : m !! x = Some i -> lb <> LAggregate -> ~ is_stake_label lb -> lab x = lb ->
  process_operation x op m = Ok (<[x := i']> m) -> fi_stake_voted_at i' = fi_stake_voted_at i -> status i' = st1 x ->
  exists m', process_operation x op m = Ok m' /\ progress st0 st1 lab l m'.
Proof.
  intros Hx Hne Hns Hlab Hop Hat Hst. eexists; split; [done|]. eapply progress_step; try done.
  - intros i0. rewrite lookup_insert_eq. intros [= <-]. rewrite Hat. by apply (pr_range _ _ _ _ _ Hg x).
  - right. by apply step_own.
  - intros i0. rewrite lookup_insert_eq. intros [= <-]. by rewrite decide_False by by apply step_status_done.
Qed.

End step.

(** What [aggregate_slot] makes of the status. *)
Lemma aggregate_slot_status m m' x i : m !! x = Some i -> aggregate_slot x m = Ok m' ->
  exists i', m' !! x = Some i' /\ fi_stake_voted_at i' = fi_stake_voted_at i /\
    status i' = if existsb (fun c => from_option fi_is_duplicate_confirmed false (m !! c)) (fi_children i)
                then (None, true) else status i.
Proof.
  intros Hx. unfold aggregate_slot. rewrite Hx. intros (a & Ha & [= <-])%outcome_bind_Ok.
  eexists; split; [apply lookup_insert_eq|]. apply aggregate_children_confirmed in Ha. cbn in Ha. rewrite <- Ha.
  by destruct (ag_duplicate_confirmed a).
Qed.

Lemma step_aggregate st0 st1 lab x op l m i :
  batch (((x, LAggregate), op) :: l) -> plan st0 st1 lab (((x, LAggregate), op) :: l) ->
  progress st0 st1 lab (((x, LAggregate), op) :: l) m -> m !! x = Some i -> op = OpAggregate ->
  exists m', process_operation x op m = Ok m' /\ progress st0 st1 lab l m'.
Proof.
  intros Hb Hp Hg Hx ->. pose proof (pr_shape _ _ _ _ _ Hg) as Hsh. destruct (aggregate_slot_ok m x Hsh) as [m' Hop].
  exists m'. split; [done|]. destruct (aggregate_slot_status _ _ _ _ Hx Hop) as (i' & Hi' & Hat & Hst).
  assert (t !! x = Some (links i)) as Htx by (by rewrite <- Hsh, lookup_shape, Hx).
  eapply progress_step; try done.
  - rewrite Hi'. intros ? [= <-]. rewrite Hat. by apply (pr_range _ _ _ _ _ Hg x).
  - left. by eapply aggregate_slot_settled.
  - rewrite Hi'. intros ? [= <-]. rewrite decide_False; last first.
    { intros ([[? lb] o] & [= <- Hlb] & Hin)%list_elem_of_fmap. by eapply (batch_aggregate_last x). }
    rewrite Hst, (plan_aggregate _ _ _ _ Hp x OpAggregate _ _ ltac:(left) Htx).
    replace (existsb (fun c => from_option _ _ _) _) with (existsb (fun c => (st1 c).2) (fi_children i)).
    + destruct (existsb (fun c => (st1 c).2) (fi_children i)); [done|]. rewrite (pr_status _ _ _ _ _ Hg _ _ Hx). cbn. apply decide_ext. split; [|intros ->; left].
      intros [[= ?]|([[? lb] o] & [= <- Hlb] & Hin)%list_elem_of_fmap]%elem_of_cons; [done|]. by edestruct (batch_aggregate_last x _ _ lb o Hb).
    + apply existsb_ext_elem. intros c Hc.
      destruct (children_exist _ _ _ _ Hsh Hx Hc) as [ic Hic]. rewrite Hic. cbn.
      pose proof (pr_status _ _ _ _ _ Hg _ _ Hic) as Hs. rewrite decide_False in Hs; [by rewrite <- Hs|].
      pose proof (child_slot _ _ Hwf _ _ _ _ Htx Hc). intros [[= -> ?]|([[? lb] o] & [= <- Hlb] & Hin)%list_elem_of_fmap]%elem_of_cons; [lia|].
      by edestruct (batch_descendants_done _ _ _ c lb o Hb).
Qed.

Lemma process_operation_ok st0 st1 lab x lb op l m :
  batch (((x, lb), op) :: l) -> plan st0 st1 lab (((x, lb), op) :: l) -> progress st0 st1 lab (((x, lb), op) :: l) m ->
  exists m', process_operation x op m = Ok m' /\ progress st0 st1 lab l m'.
Proof.
  intros Hb Hp Hg. destruct (m !! x) as [i|] eqn:Hx; [|by eapply step_absent].
  assert (is_Some (t !! x)) as Htx by (rewrite <- (pr_shape _ _ _ _ _ Hg), lookup_shape, Hx; eauto).
  assert (lb = op_label op) as -> by (symmetry; apply (batch_label _ Hb (x, lb) op); left).
  destruct op as [n|slot|slot|n|]; cbn [op_label] in *.
  - eapply (step_stake _ _ _ _ _ _ _ _ Hb Hp Hg i n); [done|by left|]. cbn. unfold add_slot_stake. by rewrite Hx.
  - destruct (plan_valid _ _ _ _ Hp x slot (OpMarkValid slot) ltac:(left) Htx) as [Hlab Hst].
    pose proof (mark_valid_status_ok x slot i) as Hok. rewrite (step_status_before _ _ _ _ _ _ _ _ Hg i Hx Hlab), <- Hst in Hok.
    eapply (step_mark _ _ _ _ _ _ _ _ Hb Hp Hg i); [done..|by intros [|]|done| | |exact Hok].
    + cbn. unfold mark_fork_valid. by rewrite Hx.
    + unfold update_with_newly_valid_ancestor. by repeat case_match.
  - destruct (plan_invalid _ _ _ _ Hp x slot (OpMarkInvalid slot) ltac:(left) Htx) as (Hlab & Hd & Hst).
    pose proof (step_status_before _ _ _ _ _ _ _ _ Hg i Hx Hlab) as Hs.
    destruct (mark_invalid_status_ok slot i) as (i' & Hi' & Hst' & _ & Hat); [by rewrite <- Hs in Hd|].
    eapply (step_mark _ _ _ _ _ _ _ _ Hb Hp Hg i i'); [done..|by intros [|]|done| |done|congruence].
    cbn. unfold mark_fork_invalid. by rewrite Hx, Hi'.
  - eapply (step_stake _ _ _ _ _ _ _ _ Hb Hp Hg i (- n)); [done|by right|]. cbn. unfold subtract_slot_stake. by rewrite Hx.
  - by eapply step_aggregate.
Qed.

(** Processing a batch succeeds, settles every node, gives the nodes the planned
    status and adds the stakes of the operations. *)
Lemma process_operations_ok st0 st1 lab l m :
  batch l -> plan st0 st1 lab l -> progress st0 st1 lab l m ->
  exists m', process_operations l m = Ok m' /\ shape m' = t /\ stakes_in_range m' /\ (forall k, settled m' k) /\
    (forall k i, m' !! k = Some i -> status i = st1 k) /\
    (forall k i, m !! k = Some i -> exists i', m' !! k = Some i' /\
       fi_stake_voted_at i' = as_u64 (fi_stake_voted_at i + delta l k)).
Proof.
  revert m. induction l as [|[[x lb] op] l IH]; intros m Hb Hp Hg.
  - exists m. destruct Hg as [Hs Hr Hset Hst]. split_and!; auto.
    + intros k. destruct (Hset k) as [?|?%not_elem_of_nil]; done.
    + intros k i Hk. exists i. rewrite Z.add_0_r, as_u64_small; [done|by eapply Hr].
  - destruct (process_operation_ok _ _ _ _ _ _ _ _ Hb Hp Hg) as (m1 & Hop & Hg1).
    destruct (IH m1) as (m' & Hm' & Hs & Hr & Hset & Hst & Hat); [by eapply batch_tail|by eapply plan_tail|done|].
    exists m'. cbn. rewrite Hop. split_and!; auto. intros k i Hk.
    destruct (process_operation_stake x lb _ _ _ k i Hop Hk (pr_range _ _ _ _ _ Hg k i Hk)) as (i1 & Hi1 & Hat1).
    destruct (Hat k i1 Hi1) as (i' & Hi' & Hat'). exists i'. split; [done|].
    rewrite Hat', Hat1, as_u64_add_l. f_equal. unfold delta. cbn. lia.
Qed.

End batch.
