(* ===== verification/ForkInvariant.v ===== *)
(** * The invariant of the fork choice

    The tree is well formed, every node is settled and carries the stake of the
    validators whose latest vote it is, the marks of invalid forks cover whole
    subtrees, and the root is a candidate. *)
From stdpp Require Import base gmap sorting sets option list.
From S2P Require Import Prelude EpochSchedule ForkChoice ForkTree ForkUpdate.

(** ** The best child *)

Lemma key_ltb_spec a b : key_ltb a b = true <-> key_lt a b.
Proof. unfold key_ltb, key_lt. rewrite orb_true_iff, andb_true_iff, !Z.ltb_lt, Z.eqb_eq. done. Qed.

Lemma key_lt_total a b : key_lt a b \/ a = b \/ key_lt b a.
Proof. destruct a as [a1 a2], b as [b1 b2]. unfold key_lt. cbn. destruct (decide (a1 = b1)), (decide (a2 = b2)); subst; auto; lia. Qed.

Lemma key_lt_irrefl a : ~ key_lt a a.
Proof. unfold key_lt. lia. Qed.

Lemma key_lt_trans a b c : key_lt a b -> key_lt b c -> key_lt a c.
Proof. unfold key_lt. lia. Qed.

(** [better w c w' c']: the fork at [c] with weight [w] is preferred to the one
    at [c'] with weight [w']: heavier, or as heavy with a smaller key. *)
Definition better (w : ForkWeight) (c : SlotHashKey) (w' : ForkWeight) (c' : SlotHashKey) : Prop :=
  w' < w \/ w' = w /\ key_lt c c'.

Lemma better_total w c w' c' : better w c w' c' \/ (w = w' /\ c = c') \/ better w' c' w c.
Proof. unfold better. destruct (key_lt_total c c') as [?|[?|?]], (Z.lt_total w w') as [?|[?|?]]; tauto || lia || auto. Qed.

Lemma better_trans w c w' c' w'' c'' : better w c w' c' -> better w' c' w'' c'' -> better w c w'' c''.
Proof.
  unfold better. intros [?|[? ?]] [?|[? ?]]; [left; lia..|right; split; [lia|by eapply key_lt_trans]].
Qed.

Lemma better_asym w c w' c' : better w c w' c' -> ~ better w' c' w c.
Proof. unfold better, key_lt. lia. Qed.

Definition candidate_at (m : ForkInfos) (k : SlotHashKey) : Prop := exists i, m !! k = Some i /\ info_is_candidate i = true.
Definition weight_at (m : ForkInfos) (k : SlotHashKey) : ForkWeight := from_option fi_stake_voted_subtree 0 (m !! k).

(** The candidate child that is preferred to every other one. *)
Definition best_child (m : ForkInfos) (cs : list SlotHashKey) (c : SlotHashKey) : Prop :=
  c ∈ cs /\ candidate_at m c /\
  forall c', c' ∈ cs -> candidate_at m c' -> c' <> c -> better (weight_at m c) c (weight_at m c') c'.

Lemma best_child_unique m cs c c' : best_child m cs c -> best_child m cs c' -> c = c'.
Proof.
  intros (H1 & H2 & H3) (H1' & H2' & H3'). destruct (decide (c = c')); [done|].
  edestruct better_asym; [apply (H3 c')|apply (H3' c)]; auto.
Qed.

(** What the local variables of [aggregate_slot] say after the children [cs]. *)
Definition best_so_far (m : ForkInfos) (k : SlotHashKey) (cs : list SlotHashKey) (a : Aggregation) : Prop :=
  (ag_best_child a = k /\ ag_best_slot a = k /\ forall c, c ∈ cs -> ~ candidate_at m c) \/
  (best_child m cs (ag_best_child a) /\ ag_best_child a <> k /\ ag_best_child_stake a = weight_at m (ag_best_child a) /\
   Some (ag_best_slot a) = fi_best_slot <$> m !! ag_best_child a).

Lemma best_so_far_step m k cs c i a :
  c ∉ cs -> c <> k -> m !! c = Some i -> best_so_far m k cs a -> best_so_far m k (cs ++ [c]) (aggregate_child k c i a).
Proof.
  intros Hn Hck Hc Ha. unfold aggregate_child.
  assert (candidate_at m c <-> info_is_candidate i = true) as Hcand by (unfold candidate_at; naive_solver).
  assert (weight_at m c = fi_stake_voted_subtree i) as Hw by (unfold weight_at; by rewrite Hc).
  destruct (info_is_candidate i); cbn [andb].
  - assert (candidate_at m c) as Hc' by by apply Hcand. destruct Ha as [(E1 & E2 & Hno)|((Hin & Hbc & Hbest) & Hne & Hst & Hbs)].
    + rewrite bool_decide_true by done. cbn. right. cbn. split_and!; [|done|done|by rewrite Hc].
      split_and!; [set_solver|done|]. intros c' [Hin| ->%list_elem_of_singleton]%elem_of_app Hcc; [by destruct (Hno c')|done].
    + rewrite bool_decide_false by done. cbn [orb].
      destruct ((ag_best_child_stake a <? fi_stake_voted_subtree i) ||
                ((fi_stake_voted_subtree i =? ag_best_child_stake a) && key_ltb c (ag_best_child a))) eqn:E.
      * assert (better (weight_at m c) c (weight_at m (ag_best_child a)) (ag_best_child a)) as Hbt.
        { rewrite Hw, <- Hst. rewrite orb_true_iff, andb_true_iff, Z.ltb_lt, Z.eqb_eq, key_ltb_spec in E. unfold better. naive_solver. }
        right. cbn. split_and!; [|done|done|by rewrite Hc]. split_and!; [set_solver|done|].
        intros c' [Hc'in| ->%list_elem_of_singleton]%elem_of_app Hcc Hne'; [|done].
        destruct (decide (c' = ag_best_child a)) as [->|]; [done|]. eapply better_trans; [exact Hbt|]. by apply Hbest.
      * right. cbn. split_and!; [|done..]. split_and!; [set_solver|done|].
        intros c' [Hc'in| ->%list_elem_of_singleton]%elem_of_app Hcc Hne'; [by apply Hbest|].
        rewrite orb_false_iff, andb_false_iff, Z.ltb_ge, Z.eqb_neq, <- not_true_iff_false, key_ltb_spec in E.
        destruct (better_total (weight_at m (ag_best_child a)) (ag_best_child a) (weight_at m c) c) as [?|[[_ ?]|Hb]]; [done|congruence|].
        exfalso. rewrite Hw, <- Hst in Hb. unfold better in Hb. destruct E as [E1 [E2|E2]], Hb as [?|[? ?]]; try lia; done.
  - assert (~ candidate_at m c) as Hnc by (rewrite Hcand; done).
    destruct Ha as [(E1 & E2 & Hno)|((Hin & Hbc & Hbest) & Hne & Hst & Hbs)]; [left|right]; cbn; split_and!; auto.
    + intros c' [?| ->%list_elem_of_singleton]%elem_of_app; auto.
    + split_and!; [set_solver|done|]. intros c' [?| ->%list_elem_of_singleton]%elem_of_app ? ?; [auto|done].
Qed.

Lemma aggregate_children_best_from m k done cs a a' :
  NoDup (done ++ cs) -> k ∉ cs -> best_so_far m k done a -> aggregate_children m k cs a = Ok a' -> best_so_far m k (done ++ cs) a'.
Proof.
  revert done a. induction cs as [|c cs IH]; intros done a Hnd Hk Ha; cbn; [intros [= <-]; by rewrite app_nil_r|].
  destruct (m !! c) as [i|] eqn:Hc; cbn; [|intros ?; discriminate]. intros Hr.
  replace (done ++ c :: cs) with ((done ++ [c]) ++ cs) in * by (by rewrite <- app_assoc).
  apply (IH _ (aggregate_child k c i a)); [done|set_solver| |done].
  apply best_so_far_step; [|set_solver|done|done].
  apply NoDup_app in Hnd as (Hnd & _ & _). apply NoDup_app in Hnd as (_ & Hnd & _). intros Hin. by eapply Hnd, list_elem_of_singleton.
Qed.

Lemma aggregate_children_best m k cs i a :
  NoDup cs -> k ∉ cs -> aggregate_children m k cs (aggregation_start k i) = Ok a -> best_so_far m k cs a.
Proof.
  intros Hnd Hk Ha. apply (aggregate_children_best_from m k [] cs (aggregation_start k i)); auto.
  left. split_and!; auto. intros c ?%not_elem_of_nil. done.
Qed.

(** The best slot of a settled candidate: its own, or that of its best child. *)
Lemma settled_best m t root k i :
  tree_wf t root -> shape m = t -> settled m k -> m !! k = Some i -> info_is_candidate i = true ->
  (fi_best_slot i = k /\ forall c, c ∈ fi_children i -> ~ candidate_at m c) \/
  exists c ic, best_child m (fi_children i) c /\ m !! c = Some ic /\ fi_best_slot i = fi_best_slot ic.
Proof.
  intros Hwf Hsh Hs Hk Hcand. destruct (Hs i Hk) as (a & Ha & _ & Hb & _).
  assert (t !! k = Some (links i)) as Ht by (by rewrite <- Hsh, lookup_shape, Hk).
  apply aggregate_children_best in Ha as [(_ & E & Hno)|(Hbc & _ & _ & E)].
  - left. rewrite (Hb Hcand). auto.
  - right. symmetry in E. apply fmap_Some in E as (ic & Hic & E). exists (ag_best_child a), ic. split_and!; auto.
    rewrite (Hb Hcand). done.
  - by eapply wf_children_NoDup.
  - by eapply own_child.
Qed.

(** The stake of a settled node. *)
Lemma settled_stake_sum m k i :
  settled m k -> m !! k = Some i -> in_u64 (fi_stake_voted_at i) ->
  fi_stake_voted_subtree i = as_u64 (fi_stake_voted_at i + subtree_sum m (fi_children i)).
Proof.
  intros Hs Hk Hr. destruct (Hs i Hk) as (a & Ha & -> & _). by apply aggregate_children_stake in Ha.
Qed.

(** A settled node with a duplicate confirmed child is duplicate confirmed. *)
Lemma settled_confirmed m k i c ic :
  settled m k -> m !! k = Some i -> c ∈ fi_children i -> m !! c = Some ic -> fi_is_duplicate_confirmed ic = true ->
  fi_is_duplicate_confirmed i = true.
Proof.
  intros Hs Hk Hc Hic Hd. destruct (Hs i Hk) as (a & Ha & _ & _ & Hconf). apply Hconf.
  rewrite (aggregate_children_confirmed _ _ _ _ _ Ha). cbn. apply existsb_exists. exists c.
  split; [by apply list_elem_of_In|]. by rewrite Hic.
Qed.

(** ** The invariant *)

Definition best_descends (m : ForkInfos) : Prop := forall k i, m !! k = Some i -> descends (shape m) k (fi_best_slot i).

Record marks_ok (m : ForkInfos) : Prop := {
  mk_slot k i u : m !! k = Some i -> fi_latest_invalid_ancestor i = Some u -> u <= k.1;
  mk_child k i u c ic : m !! k = Some i -> fi_latest_invalid_ancestor i = Some u -> c ∈ fi_children i -> m !! c = Some ic ->
    exists w, fi_latest_invalid_ancestor ic = Some w /\ u <= w;
  mk_confirmed k i : m !! k = Some i -> fi_is_duplicate_confirmed i = true -> fi_latest_invalid_ancestor i = None
}.

Section inv.
Context (epoch_stakes : gmap Epoch EpochStakes) (epoch_schedule : EpochSchedule).
Abbreviation stake := (stake_at epoch_stakes epoch_schedule).

(** The stake of the validators whose latest vote is exactly [k]. *)
Definition votes_at (votes : gmap Pubkey SlotHashKey) (k : SlotHashKey) : Z :=
  map_sum (fun pubkey v => if decide (v = k) then stake pubkey v.1 else 0) votes.

Record fc_inv (f : HeaviestSubtreeForkChoice) : Prop := {
  inv_tree : tree_wf (shape (fork_infos f)) (fc_root f);
  inv_range : stakes_in_range (fork_infos f);
  inv_settled k : settled (fork_infos f) k;
  inv_best : best_descends (fork_infos f);
  inv_marks : marks_ok (fork_infos f);
  inv_root : candidate_at (fork_infos f) (fc_root f);
  inv_votes k i : fork_infos f !! k = Some i -> fi_stake_voted_at i = as_u64 (votes_at (latest_votes f) k)
}.

End inv.

(** ** Consequences *)

Lemma candidate_parent m t root k i p ip :
  tree_wf t root -> shape m = t -> marks_ok m -> m !! k = Some i -> info_is_candidate i = true ->
  fi_parent i = Some p -> m !! p = Some ip -> info_is_candidate ip = true.
Proof.
  intros Hwf Hsh Hm Hk Hc Hp Hip. unfold info_is_candidate in *. destruct (fi_latest_invalid_ancestor ip) as [u|] eqn:E; [|done].
  assert (k ∈ fi_children ip) as Hin.
  { destruct (parent_in_tree _ _ Hwf k p (fi_children i)) as (gp & ps & Hpt & Hin & _).
    - rewrite <- Hsh, lookup_shape, Hk. cbn. by rewrite <- Hp.
    - rewrite <- Hsh, lookup_shape, Hip in Hpt. by injection Hpt as _ <-. }
  destruct (mk_child _ Hm _ _ _ _ _ Hip E Hin Hk) as (w & Hw & _). by rewrite Hw in Hc.
Qed.

(** The ancestors of a candidate are candidates. *)
Lemma candidate_ancestor m t root a k :
  tree_wf t root -> shape m = t -> marks_ok m -> descends t a k -> candidate_at m k -> candidate_at m a.
Proof.
  intros Hwf Hsh Hm. induction 1 as [|k p cs Hk Hd IH]; [done|]. intros (i & Hi & Hc). apply IH.
  rewrite <- Hsh in Hk. apply lookup_shape_Some in Hk as (i' & Hi' & Hp & _).
  rewrite Hi in Hi'. injection Hi' as <-.
  destruct (parent_in_tree _ _ Hwf k p (fi_children i)) as (gp & ps & Hpt & _).
  { rewrite <- Hsh, lookup_shape, Hi. cbn. by rewrite <- Hp. }
  rewrite <- Hsh in Hpt. apply lookup_shape_Some in Hpt as (ip & Hip & _). exists ip. split; [done|].
  by apply (candidate_parent m t root k i p).
Qed.

(** A descendant of a duplicate confirmed node's ancestor: confirmation goes up. *)
Lemma confirmed_ancestor m t root a k i :
  tree_wf t root -> shape m = t -> (forall k, settled m k) -> descends t a k -> m !! k = Some i ->
  fi_is_duplicate_confirmed i = true -> exists ia, m !! a = Some ia /\ fi_is_duplicate_confirmed ia = true.
Proof.
  intros Hwf Hsh Hs Hd. revert i. induction Hd as [|k p cs Hk Hd IH]; intros i Hi Hc; [eauto|].
  destruct (parent_in_tree _ _ Hwf _ _ _ Hk) as (gp & ps & Hpt & Hin & _).
  rewrite <- Hsh in Hpt. apply lookup_shape_Some in Hpt as (ip & Hip & _ & <-).
  eapply IH; [done|]. by eapply settled_confirmed.
Qed.

(** Processing operations keeps the best slots below their nodes. *)
Lemma aggregate_slot_best t root m m' k :
  tree_wf t root -> shape m = t -> best_descends m -> aggregate_slot k m = Ok m' -> best_descends m'.
Proof.
  intros Hwf Hsh Hb Hop. pose proof (process_operation_links k OpAggregate m m' Hop) as Hl. unfold best_descends. rewrite Hl, Hsh.
  intros k' i' Hi'. destruct (decide (k' = k)) as [->|Hne]; last first.
  { rewrite (process_operation_other k OpAggregate m m' k' Hop Hne) in Hi'. rewrite <- Hsh. by apply Hb. }
  unfold aggregate_slot in Hop. destruct (m !! k) as [i|] eqn:Hk; [|ok_inv; congruence].
  apply outcome_bind_Ok in Hop as (a & Ha & [= <-]). rewrite lookup_insert_eq in Hi'. injection Hi' as <-.
  assert (t !! k = Some (links i)) as Ht by (by rewrite <- Hsh, lookup_shape, Hk). cbn.
  eapply aggregate_children_best in Ha as [(_ & -> & _)|((Hin & _) & _ & _ & E)];
    [constructor| |by eapply wf_children_NoDup|by eapply own_child].
  symmetry in E. apply fmap_Some in E as (ic & Hic & ->). eapply descends_trans; [by eapply child_descends|].
  rewrite <- Hsh. by apply Hb.
Qed.

Lemma process_operations_best t root l m m' :
  tree_wf t root -> shape m = t -> best_descends m -> process_operations l m = Ok m' -> best_descends m'.
Proof.
  intros Hwf. revert m. induction l as [|[[x lb] op] l IH]; intros m Hsh Hb; cbn; [by intros [= <-]|].
  intros (m1 & Hop & Hr)%outcome_bind_Ok. apply (IH m1); [by rewrite (process_operation_links _ _ _ _ Hop)| |done].
  destruct op; [..|by eapply aggregate_slot_best].
  all: pose proof (process_operation_links _ _ _ _ Hop) as Hl; intros k i Hi; rewrite Hl.
  all: destruct (decide (k = x)) as [->|]; [|rewrite (process_operation_other _ _ _ _ _ Hop) in Hi by done; by apply Hb].
  all: cbn in Hop; unfold add_slot_stake, mark_fork_valid, mark_fork_invalid, subtract_slot_stake in Hop.
  all: destruct (m !! x) as [i0|] eqn:Hx; [|ok_inv; congruence]; ok_inv; rewrite lookup_insert_eq in Hi; injection Hi as <-.
  all: specialize (Hb x i0 Hx); unfold update_with_newly_valid_ancestor, update_with_newly_invalid_ancestor in *.
  all: repeat case_match; by simplify_eq.
Qed.

Lemma status_candidate i i' : status i' = status i -> info_is_candidate i' = info_is_candidate i.
Proof. unfold status, info_is_candidate. by intros [= -> _]. Qed.

(** [marks_ok] only depends on the links and the status of the nodes. *)
Lemma marks_ok_status m m' :
  marks_ok m -> shape m' = shape m ->
  (forall k i', m' !! k = Some i' -> exists i, m !! k = Some i /\ status i' = status i) -> marks_ok m'.
Proof.
  intros [H1 H2 H3] Hsh Hst.
  assert (forall k i', m' !! k = Some i' -> exists i, m !! k = Some i /\ links i' = links i /\
    fi_latest_invalid_ancestor i' = fi_latest_invalid_ancestor i /\ fi_is_duplicate_confirmed i' = fi_is_duplicate_confirmed i) as Hpre.
  { intros k i' Hk. destruct (Hst k i' Hk) as (i & Hi & [= -> ->]). exists i. split_and!; auto.
    pose proof (lookup_shape m k) as E1. pose proof (lookup_shape m' k) as E2. rewrite Hsh, E1, Hi, Hk in E2. cbn in E2. congruence. }
  split.
  - intros k i' u Hk. destruct (Hpre _ _ Hk) as (i & Hi & _ & -> & _). by apply H1.
  - intros k i' u c ic Hk. destruct (Hpre _ _ Hk) as (i & Hi & [= _ ->] & -> & _). intros Hu Hc Hic.
    destruct (Hpre _ _ Hic) as (i2 & Hi2 & _ & -> & _). by apply (H2 k i u c i2).
  - intros k i' Hk. destruct (Hpre _ _ Hk) as (i & Hi & _ & -> & ->). by apply (H3 k).
Qed.
