(* ===== verification/ForkVotes.v ===== *)
(** * Votes in the fork choice

    [add_votes]: the batch that [generate_update_operations] builds moves the
    stake of every validator from its previous vote to its new one, and
    aggregates every ancestor of the two. *)
From stdpp Require Import base gmap sorting sets option list.
From S2P Require Import Prelude EpochSchedule ForkChoice ForkTree ForkUpdate ForkInvariant.

(** ** Maps of operations *)

Section ops.
Context (t : Shape) (root : SlotHashKey) (Hwf : tree_wf t root).
Implicit Types ops : UpdateOperations.

Definition labelled ops : Prop := forall k op, ops !! k = Some op -> op_label op = k.2.

(** Every node but [x] that has an operation has its parent aggregated. *)
Definition parents_aggregated ops (x : option SlotHashKey) : Prop :=
  forall k l op p cs, ops !! (k, l) = Some op -> Some k <> x -> t !! k = Some (Some p, cs) ->
    ops !! (p, LAggregate) = Some OpAggregate.

Definition marks_aggregated ops : Prop :=
  forall k l op, ops !! (k, l) = Some op -> ~ is_stake_label l -> ops !! (k, LAggregate) = Some OpAggregate.

Record ops_ok ops (x : option SlotHashKey) : Prop := {
  ok_labelled : labelled ops;
  ok_parents : parents_aggregated ops x;
  ok_marks : marks_aggregated ops
}.

Lemma ops_ok_empty : ops_ok ∅ None.
Proof. split; intros ? *; by rewrite lookup_empty. Qed.

Lemma labelled_aggregate ops k op : labelled ops -> ops !! (k, LAggregate) = Some op -> op = OpAggregate.
Proof. intros Hl H. apply Hl in H. by destruct op. Qed.

Lemma ops_ok_weaken ops x : ops_ok ops None -> ops_ok ops x.
Proof. intros [Hl Hp Hm]. split; [done| |done]. intros k l op p cs Hk _. by eapply Hp. Qed.

Lemma ops_ok_batch ops : ops_ok ops None -> batch t (reverse (btree_iter ops)).
Proof.
  intros [Hl Hp Hm]. split; [apply btree_iter_sorted|..].
  - intros k op Hin%btree_iter_elem. by apply Hl.
  - intros [k l] op p cs Hin%btree_iter_elem Hk. apply btree_iter_elem. by eapply Hp.
  - intros [k l] op Hin%btree_iter_elem Hns. apply btree_iter_elem. by eapply Hm.
Qed.

(** Inserting the aggregation of [p], the parent of [x]. *)
Lemma ops_ok_aggregate ops x p :
  t !! x ≫= fst = Some p -> ops_ok ops (Some x) -> ops_ok (<[(p, LAggregate) := OpAggregate]> ops) (Some p).
Proof.
  intros Hx [Hl Hp Hm]. split.
  - intros k op. destruct (decide (k = (p, LAggregate))) as [->|?]; [rewrite lookup_insert_eq; by intros [= <-]|].
    rewrite lookup_insert_ne by done. apply Hl.
  - intros k l op q cs Hk Hne Hkt. destruct (decide (q = p)) as [->|Hqp]; [apply lookup_insert_eq|].
    rewrite lookup_insert_ne by congruence. rewrite lookup_insert_ne in Hk by congruence.
    destruct (decide (k = x)) as [->|Hkx]; [rewrite Hkt in Hx; cbn in Hx; congruence|]. eapply Hp; [done| |done]. congruence.
  - intros k l op Hk Hns. destruct (decide (k = p)) as [->|Hkp]; [apply lookup_insert_eq|].
    rewrite lookup_insert_ne by congruence. rewrite lookup_insert_ne in Hk by congruence. by eapply Hm.
Qed.

(** The sum of what the operations add to the stake of [k]. *)
Definition ops_delta ops (k : SlotHashKey) : Z := map_sum (fun o op => op_delta k (o, op)) ops.

Lemma delta_permutation (l l' : list (OpKey * UpdateOperation)) k : l ≡ₚ l' -> delta l k = delta l' k.
Proof. unfold delta. induction 1; cbn; lia. Qed.

Lemma ops_delta_iter ops k : delta (reverse (btree_iter ops)) k = ops_delta ops k.
Proof.
  rewrite (delta_permutation _ (map_to_list ops)).
  - unfold ops_delta, map_sum, delta. rewrite map_fold_foldr. by induction (map_to_list ops) as [|[] l IH]; cbn; [|rewrite IH].
  - unfold btree_iter. by rewrite reverse_Permutation, merge_sort_Permutation.
Qed.

Record grows ops ops' (anc : list SlotHashKey) : Prop := {
  gr_keep k op : ops !! k = Some op -> ops' !! k = Some op;
  gr_other k l : l <> LAggregate -> ops' !! (k, l) = ops !! (k, l);
  gr_new k op : ops' !! (k, LAggregate) = Some op -> is_Some (ops !! (k, LAggregate)) \/ k ∈ anc;
  gr_delta k : ops_delta ops' k = ops_delta ops k
}.

(** The early exit of [do_insert_aggregate_operations_across_ancestors] is
    justified: the aggregated nodes are closed under parents. *)
Lemma insert_until_present_ok anc ops x :
  chain t x anc -> ops_ok ops (Some x) ->
  ops_ok (insert_until_present None anc ops) None /\ grows ops (insert_until_present None anc ops) anc.
Proof.
  intros Hc. revert ops. induction Hc as [x Hx|x p anc Hx Hc IH]; intros ops Hok; cbn.
  - split; [|split; naive_solver]. destruct Hok as [Hl Hp Hm]. split; [done| |done].
    intros k l op q cs Hk _ Hkt. destruct (decide (k = x)) as [->|Hne]; [rewrite Hkt in Hx; cbn in Hx; congruence|].
    eapply Hp; [done|congruence|done].
  - unfold do_insert_aggregate_operation. case_bool_decide as Hag; cbn.
    + split; [|split; naive_solver]. pose proof Hok as [Hl Hp Hm]. split; [done| |done].
      intros k l op q cs Hk _ Hkt. destruct (decide (k = x)) as [->|Hne].
      * rewrite Hkt in Hx. cbn in Hx. injection Hx as ->. destruct Hag as [op' Hop']. rewrite Hop'.
        f_equal. by eapply labelled_aggregate.
      * eapply Hp; [done|congruence|done].
    + apply eq_None_not_Some in Hag. destruct (IH _ (ops_ok_aggregate _ _ _ Hx Hok)) as [Hok' [G1 G2 G3 G4]]. split; [done|]. split.
      * intros k op Hk. apply G1. rewrite lookup_insert_ne; [done|]. intros <-. congruence.
      * intros k l Hl. rewrite G2 by done. rewrite lookup_insert_ne; [done|congruence].
      * intros k op Hk. apply G3 in Hk as [Hk|Hk]; [|right; by right].
        destruct (decide (k = p)) as [->|?]; [right; left|]. rewrite lookup_insert_ne in Hk by congruence. by left.
      * intros k. rewrite G4. unfold ops_delta. rewrite map_sum_insert, Hag. cbn. unfold op_delta. cbn. case_decide; lia.
Qed.

(** Accumulating stake on a node. *)
Lemma accumulate_ok ops x l mk n :
  (l = LAdd /\ mk = OpAdd) \/ (l = LSubtract /\ mk = OpSubtract) -> ops_ok ops None ->
  exists ops', accumulate_stake (x, l) (mk n) n ops = Ok ops' /\ ops_ok ops' (Some x) /\
    (forall k l', l' <> l -> ops' !! (k, l') = ops !! (k, l')) /\
    forall z k, as_u64 (z + ops_delta ops' k) = as_u64 (z + ops_delta ops k + op_delta k ((x, l), mk n)).
Proof.
  intros Hlm Hok.
  assert (forall n', ops_ok (<[(x, l) := mk n']> ops) (Some x)) as Hins.
  { intros n'. pose proof Hok as [Hl Hp Hm]. split.
    - intros k op. destruct (decide (k = (x, l))) as [->|?]; [|rewrite lookup_insert_ne by done; apply Hl].
      rewrite lookup_insert_eq. intros [= <-]. by destruct Hlm as [[-> ->]|[-> ->]].
    - intros k l' op p cs Hk Hne Hkt. rewrite lookup_insert_ne in Hk by congruence.
      rewrite lookup_insert_ne by (destruct Hlm as [[-> _]|[-> _]]; congruence). by eapply Hp.
    - intros k l' op Hk Hns. rewrite lookup_insert_ne by (destruct Hlm as [[-> _]|[-> _]]; congruence).
      rewrite lookup_insert_ne in Hk by (intros [= -> ->]; apply Hns; unfold is_stake_label; naive_solver). by eapply Hm. }
  assert (forall n' k l', l' <> l -> <[(x, l) := mk n']> ops !! (k, l') = ops !! (k, l')) as Hoth.
  { intros. apply lookup_insert_ne. congruence. }
  unfold accumulate_stake. destruct (ops !! (x, l)) as [op|] eqn:Hx.
  - pose proof (ok_labelled _ _ Hok _ _ Hx) as Hlab. cbn in Hlab.
    destruct Hlm as [[-> ->]|[-> ->]], op as [o|o|o|o|]; try done; cbn; (eexists; split; [done|]); (split; [done|]); (split; [auto|]);
      intros z k; unfold ops_delta; rewrite map_sum_insert, Hx; cbn; unfold op_delta; cbn; case_decide; subst;
      try (f_equal; lia); unfold add64; destruct (as_u64_split (o + n)) as [q ->]; [apply (as_u64_eq _ _ q)|apply (as_u64_eq _ _ (- q))]; lia.
  - eexists; split; [done|]. split; [done|]. split; [auto|]. intros z k. unfold ops_delta. rewrite map_sum_insert, Hx. cbn. f_equal. lia.
Qed.

End ops.

Lemma insert_aggregate_operations_ok f root ops x :
  tree_wf (shape (fork_infos f)) root -> ops_ok (shape (fork_infos f)) ops (Some x) ->
  exists ops' anc, insert_aggregate_operations f ops x = Ok ops' /\ chain (shape (fork_infos f)) x anc /\
    ops_ok (shape (fork_infos f)) ops' None /\ grows ops ops' anc.
Proof.
  intros Hwf Hok. destruct (ancestor_iterator_ok f root x Hwf) as (anc & Ha & Hc).
  unfold insert_aggregate_operations, do_insert_aggregate_operations_across_ancestors. rewrite Ha. cbn.
  destruct (insert_until_present_ok _ anc ops x Hc Hok). eauto 6.
Qed.

(** ** Processing a map of operations *)

Definition status_at (m : ForkInfos) (k : SlotHashKey) : Status := from_option status (None, false) (m !! k).

Lemma process_batch_ok m root ops st1 lab :
  tree_wf (shape m) root -> stakes_in_range m -> (forall k, settled m k) -> best_descends m ->
  ops_ok (shape m) ops None -> plan (shape m) (status_at m) st1 lab (reverse (btree_iter ops)) ->
  (forall k, is_Some (m !! k) -> ops !! (k, lab k) = None -> status_at m k = st1 k) ->
  exists m', process_operations (reverse (btree_iter ops)) m = Ok m' /\ shape m' = shape m /\ stakes_in_range m' /\
    (forall k, settled m' k) /\ best_descends m' /\
    forall k i', m' !! k = Some i' -> exists i, m !! k = Some i /\ status i' = st1 k /\
      fi_stake_voted_at i' = as_u64 (fi_stake_voted_at i + ops_delta ops k).
Proof.
  intros Hwf Hr Hs Hb Hok Hplan Hrest.
  edestruct (process_operations_ok (shape m) root Hwf (status_at m) st1 lab (reverse (btree_iter ops)) m)
    as (m' & Hm' & Hsh & Hr' & Hs' & Hst & Hat); [by apply ops_ok_batch|done| |].
  { split; [done|done|by left|]. intros k i Hk. assert (status_at m k = status i) as E by (unfold status_at; by rewrite Hk).
    case_decide as Hd; [done|]. rewrite <- E. apply Hrest; [eauto|]. destruct (ops !! (k, lab k)) as [op|] eqn:Hop; [|done].
    destruct Hd. apply list_elem_of_fmap. exists ((k, lab k), op). split; [done|]. by apply btree_iter_elem. }
  exists m'. split_and!; auto; [by apply (process_operations_best _ _ _ _ _ Hwf eq_refl Hb Hm')|].
  intros k i' Hk. assert (is_Some (m !! k)) as [i Hi].
  { rewrite <- (fmap_is_Some links), <- lookup_shape, <- Hsh, lookup_shape, Hk. eauto. }
  exists i. split_and!; [done|by apply Hst|]. destruct (Hat k i Hi) as (i2 & Hi2 & E). rewrite ops_delta_iter in E. congruence.
Qed.

(** ** Generating the batch *)

Section votes.
Context (epoch_stakes : gmap Epoch EpochStakes) (epoch_schedule : EpochSchedule).
Abbreviation stake := (stake_at epoch_stakes epoch_schedule).
Abbreviation votes_at := (votes_at epoch_stakes epoch_schedule).
Context (Hstake : forall pubkey slot, 0 <= stake pubkey slot).

(** The latest votes after a vote is seen. *)
Definition record_vote (root : Slot) (votes : gmap Pubkey SlotHashKey) (pv : Pubkey * SlotHashKey) : gmap Pubkey SlotHashKey :=
  if pv.2.1 <? root then votes
  else if match votes !! pv.1 with Some latest => vote_is_outdated latest pv.2 | None => false end then votes
  else <[pv.1 := pv.2]> votes.

Lemma votes_at_insert votes pubkey v k :
  votes_at (<[pubkey := v]> votes) k =
  votes_at votes k + (if decide (v = k) then stake pubkey v.1 else 0)
    - match votes !! pubkey with Some old => if decide (old = k) then stake pubkey old.1 else 0 | None => 0 end.
Proof. unfold ForkInvariant.votes_at. rewrite map_sum_insert. by destruct (votes !! pubkey). Qed.

(** The operations account for the difference between the stakes in the tree
    and the latest votes. *)
Record gen_inv (infos : ForkInfos) (votes : gmap Pubkey SlotHashKey) (ops : UpdateOperations) : Prop := {
  gen_ok : ops_ok (shape infos) ops None;
  gen_label k l op : ops !! (k, l) = Some op -> l = LAggregate \/ is_stake_label l;
  gen_votes k i : infos !! k = Some i -> as_u64 (fi_stake_voted_at i + ops_delta ops k) = as_u64 (votes_at votes k)
}.

(** Moving [n] to [x]: the new operations are [Add] or [Subtract] on [x] and
    the aggregation of its ancestors. *)
Lemma move_stake_ok f root votes ops x l mk n (d : SlotHashKey -> Z) :
  tree_wf (shape (fork_infos f)) root ->
  (l = LAdd /\ mk = OpAdd) \/ (l = LSubtract /\ mk = OpSubtract) ->
  ops_ok (shape (fork_infos f)) ops None ->
  (forall k l op, ops !! (k, l) = Some op -> l = LAggregate \/ is_stake_label l) ->
  (forall k i, fork_infos f !! k = Some i ->
     as_u64 (fi_stake_voted_at i + ops_delta ops k + op_delta k ((x, l), mk n)) = as_u64 (votes_at votes k + d k)) ->
  exists ops1 ops2, accumulate_stake (x, l) (mk n) n ops = Ok ops1 /\ insert_aggregate_operations f ops1 x = Ok ops2 /\
    ops_ok (shape (fork_infos f)) ops2 None /\
    (forall k l op, ops2 !! (k, l) = Some op -> l = LAggregate \/ is_stake_label l) /\
    forall k i, fork_infos f !! k = Some i ->
      as_u64 (fi_stake_voted_at i + ops_delta ops2 k) = as_u64 (votes_at votes k + d k).
Proof.
  intros Hwf Hlm Hok Hlab Hd.
  destruct (accumulate_ok (shape (fork_infos f)) ops x l mk n Hlm Hok) as (ops1 & H1 & Hok1 & Hoth & Hd1).
  destruct (insert_aggregate_operations_ok f root ops1 x Hwf Hok1) as (ops2 & anc & H2 & _ & Hok2 & G).
  exists ops1, ops2. split_and!; [done|done|done| |].
  - intros k l' op Hk. destruct (decide (l' = LAggregate)) as [|Hna]; [by left|]. right. rewrite (gr_other _ _ _ G) in Hk by done.
    destruct (decide (l' = l)) as [->|Hl]; [unfold is_stake_label; naive_solver|]. rewrite Hoth in Hk by done. by destruct (Hlab _ _ _ Hk).
  - intros k i Hk. rewrite (gr_delta _ _ _ G), Hd1. by apply Hd.
Qed.

(** One vote. *)
Lemma new_vote_ok f root ops pubkey v :
  tree_wf (shape (fork_infos f)) root ->
  gen_inv (fork_infos f) (latest_votes f) ops ->
  match latest_votes f !! pubkey with Some latest => vote_is_outdated latest v | None => false end = false ->
  let f' := mkForkChoice (fork_infos f) (<[pubkey := v]> (latest_votes f)) (fc_root f) in
  exists ops1 ops2, remove_old_vote epoch_stakes epoch_schedule f' pubkey v (latest_votes f !! pubkey) ops = Ok ops1 /\
    add_new_vote epoch_stakes epoch_schedule f' pubkey v ops1 = Ok ops2 /\
    gen_inv (fork_infos f') (latest_votes f') ops2.
Proof.
  intros Hwf [Hok Hlab Hvotes] Hnew f'. set (old := latest_votes f !! pubkey) in *.
  set (d := fun k => match old with Some o => if decide (o = k) then stake pubkey o.1 else 0 | None => 0 end).
  assert (exists ops1, remove_old_vote epoch_stakes epoch_schedule f' pubkey v old ops = Ok ops1 /\
    ops_ok (shape (fork_infos f')) ops1 None /\ (forall k l op, ops1 !! (k, l) = Some op -> l = LAggregate \/ is_stake_label l) /\
    forall k i, fork_infos f' !! k = Some i -> as_u64 (fi_stake_voted_at i + ops_delta ops1 k) = as_u64 (votes_at (latest_votes f) k + - d k))
    as (ops1 & Hrem & Hok1 & Hlab1 & Hd1).
  { unfold remove_old_vote. destruct old as [o|] eqn:Ho; cbn [d] in *; last first.
    { exists ops. split_and!; auto. intros k i Hk. unfold d. rewrite Z.add_0_r. by apply Hvotes. }
    replace (negb _) with false; last first.
    { symmetry. apply negb_false_iff. unfold vote_is_outdated in Hnew. rewrite orb_false_iff, andb_false_iff in Hnew.
      revert Hnew. zcases; intros [? [?|?]]; try done; lia. }
    assert (forall k, d k = - op_delta k ((o, LSubtract), OpSubtract (stake pubkey o.1))) as Hdk.
    { intros k. unfold d, op_delta. cbn. case_decide; lia. }
    destruct (Z.ltb_spec 0 (stake pubkey o.1)) as [Hpos|Hz].
    - edestruct (move_stake_ok f' root (latest_votes f) ops o LSubtract OpSubtract (stake pubkey o.1) (fun k => - d k))
        as (ops1 & ops2 & -> & H2 & ?); [done|by right|done|done| |exists ops2; cbn; by rewrite H2].
      intros k i Hk. rewrite <- (as_u64_add_l (votes_at (latest_votes f) k)), <- (Hvotes k i Hk), as_u64_add_l, Hdk. f_equal. lia.
    - exists ops. split_and!; auto. intros k i Hk. rewrite (Hvotes k i Hk). f_equal. specialize (Hstake pubkey o.1).
      rewrite Hdk. unfold op_delta. cbn. case_decide; lia. }
  unfold add_new_vote.
  edestruct (move_stake_ok f' root (latest_votes f) ops1 v LAdd OpAdd (stake pubkey v.1)
    (fun k => (if decide (v = k) then stake pubkey v.1 else 0) - d k)) as (ops2 & ops3 & H2 & H3 & Hok3 & Hlab3 & Hd3);
    [done|by left|done|done| |].
  { intros k i Hk. rewrite <- as_u64_add_l, (Hd1 k i Hk), as_u64_add_l. f_equal. unfold op_delta. cbn. lia. }
  exists ops1, ops3. split; [done|]. rewrite H2. cbn. split; [done|]. split; [done..|].
  intros k i Hk. rewrite (Hd3 k i Hk). cbn. rewrite votes_at_insert. f_equal. unfold d. fold old. destruct old; lia.
Qed.

Lemma generate_update_loop_ok pvs observed f root ops :
  tree_wf (shape (fork_infos f)) root -> NoDup pvs.*1 -> (forall pk, pk ∈ pvs.*1 -> observed !! pk = None) ->
  gen_inv (fork_infos f) (latest_votes f) ops ->
  let votes := foldl (record_vote (fc_root f).1) (latest_votes f) pvs in
  exists ops', generate_update_loop epoch_stakes epoch_schedule pvs observed f ops =
      Ok (mkForkChoice (fork_infos f) votes (fc_root f), ops') /\ gen_inv (fork_infos f) votes ops'.
Proof.
  intros Hwf. revert observed f ops Hwf. induction pvs as [|[pk v] pvs IH]; intros observed f ops Hwf Hnd Hobs Hg; cbn.
  { exists ops. by destruct f. }
  cbn in Hnd. apply NoDup_cons in Hnd as [Hn Hnd]. unfold record_vote at 2 4. cbn [fst snd].
  destruct (v.1 <? (fc_root f).1).
  { apply IH; auto. intros. apply Hobs. by right. }
  rewrite (Hobs pk) by left.
  assert (forall pk', pk' ∈ pvs.*1 -> <[pk := v.1]> observed !! pk' = None) as Hobs'.
  { intros pk' Hin. rewrite lookup_insert_ne by (intros ->; done). apply Hobs. by right. }
  destruct (match latest_votes f !! pk with Some latest => vote_is_outdated latest v | None => false end) eqn:Hout; [by apply IH|].
  destruct (new_vote_ok f root ops pk v Hwf Hg Hout) as (ops1 & ops2 & H1 & H2 & Hg2). rewrite H1. cbn. rewrite H2. cbn.
  exact (IH _ (mkForkChoice (fork_infos f) (<[pk := v]> (latest_votes f)) (fc_root f)) ops2 Hwf Hnd Hobs' Hg2).
Qed.

(** ** Adding votes *)

(** A batch without marks leaves the status of the nodes alone. *)
Lemma votes_plan m root ops :
  tree_wf (shape m) root -> (forall k, settled m k) -> marks_ok m ->
  (forall k l op, ops !! (k, l) = Some op -> l = LAggregate \/ is_stake_label l) ->
  plan (shape m) (status_at m) (status_at m) (fun _ => LAggregate) (reverse (btree_iter ops)).
Proof.
  intros Hwf Hs Hm Hlab. split; [by intros ? [|]|..].
  - intros k slot op Hin%btree_iter_elem _. by destruct (Hlab _ _ _ Hin) as [|[|]].
  - intros k slot op Hin%btree_iter_elem _. by destruct (Hlab _ _ _ Hin) as [|[|]].
  - intros k op po cs _ Hk. rewrite decide_True by done. destruct (existsb _ cs) eqn:E; [|done].
    apply existsb_exists in E as (c & Hc%list_elem_of_In & Hd). apply lookup_shape_Some in Hk as (i & Hi & _ & <-).
    destruct (children_exist _ _ Hwf _ _ _ _ eq_refl Hi Hc) as [ic Hic]. unfold status_at in *. rewrite Hi, Hic in *. cbn in *.
    pose proof (settled_confirmed _ _ _ _ _ (Hs k) Hi Hc Hic Hd) as Hconf.
    unfold status. by rewrite Hconf, (mk_confirmed _ Hm _ _ Hi Hconf).
Qed.

(** The nodes keep their status; the tree accounts for the new latest votes. *)
Lemma add_votes_inv f pvs :
  fc_inv epoch_stakes epoch_schedule f -> NoDup pvs.*1 ->
  exists f' best, add_votes epoch_stakes epoch_schedule f pvs = Ok (f', best) /\ fc_inv epoch_stakes epoch_schedule f' /\
    fc_root f' = fc_root f /\ shape (fork_infos f') = shape (fork_infos f) /\
    latest_votes f' = foldl (record_vote (fc_root f).1) (latest_votes f) pvs /\
    best_slot f' (fc_root f) = Some best /\
    forall k i', fork_infos f' !! k = Some i' -> exists i, fork_infos f !! k = Some i /\ status i' = status i.
Proof.
  intros [Hwf Hr Hs Hb Hm Hroot Hv] Hnd. unfold add_votes, generate_update_operations.
  destruct (generate_update_loop_ok pvs ∅ f (fc_root f) ∅ Hwf Hnd) as (ops & -> & [Hok Hlab Hvotes]); [by intros; apply lookup_empty| |].
  { split; [apply ops_ok_empty|intros k l op; by rewrite lookup_empty|]. intros k i Hk. unfold ops_delta.
    rewrite map_sum_empty, Z.add_0_r, (Hv k i Hk). by rewrite as_u64_small by apply as_u64_range. }
  cbn. unfold process_update_operations. cbn [fork_infos].
  destruct (process_batch_ok (fork_infos f) (fc_root f) ops (status_at (fork_infos f)) (fun _ => LAggregate))
    as (m' & Hm' & Hsh & Hr' & Hs' & Hb' & Hpre); auto; [by eapply votes_plan|]. rewrite Hm'. cbn.
  destruct Hroot as (ri0 & Hri0 & Hc). assert (exists ri, m' !! fc_root f = Some ri) as [ri Hri].
  { apply (fmap_is_Some links). rewrite <- lookup_shape, Hsh, lookup_shape, Hri0. eauto. }
  assert (forall k i', m' !! k = Some i' -> exists i, fork_infos f !! k = Some i /\ status i' = status i) as Hst.
  { intros k i' Hk. destruct (Hpre _ _ Hk) as (i & Hi & E & _). exists i. split; [done|].
    rewrite E. unfold status_at. by rewrite Hi. }
  exists (mkForkChoice m' (foldl (record_vote (fc_root f).1) (latest_votes f) pvs) (fc_root f)), (fi_best_slot ri).
  unfold best_overall_slot, best_slot. cbn. rewrite Hri. cbn. split_and!; auto. split; cbn; auto.
  - by rewrite Hsh.
  - by eapply marks_ok_status.
  - exists ri. split; [done|]. destruct (Hst _ _ Hri) as (i2 & Hi2 & E).
    rewrite (status_candidate _ _ E). congruence.
  - intros k i' Hk. destruct (Hpre _ _ Hk) as (i & Hi & _ & ->). by apply Hvotes.
Qed.

End votes.
