(* ===== verification/ForkLeaf.v ===== *)
(** * Adding a leaf to the fork choice

    [add_new_leaf_slot] keeps the invariant: a new leaf has no stake, so only
    the best slots of its ancestors can change, and [propagate_new_leaf]
    changes exactly those whose best slot was that of the parent. *)
From stdpp Require Import base gmap sorting sets option list.
From S2P Require Import Prelude EpochSchedule ForkChoice ForkTree ForkUpdate ForkInvariant.

(** ** The tree with one more leaf *)

Section shape.
Context (t : Shape) (root key parent : SlotHashKey) (gp : option SlotHashKey) (ps : list SlotHashKey).
Context (Hwf : tree_wf t root) (Hkey : t !! key = None) (Hpar : t !! parent = Some (gp, ps)) (Hslot : parent.1 < key.1).

Definition leaf_shape : Shape := <[parent := (gp, ps ++ [key])]> (<[key := (Some parent, [])]> t).

Lemma leaf_ne : parent <> key.
Proof. congruence. Qed.

Lemma leaf_shape_key : leaf_shape !! key = Some (Some parent, []).
Proof. unfold leaf_shape. rewrite lookup_insert_ne by apply leaf_ne. apply lookup_insert_eq. Qed.

Lemma leaf_shape_parent : leaf_shape !! parent = Some (gp, ps ++ [key]).
Proof. apply lookup_insert_eq. Qed.

Lemma leaf_shape_other k : k <> key -> k <> parent -> leaf_shape !! k = t !! k.
Proof. intros. unfold leaf_shape. by rewrite !lookup_insert_ne. Qed.

Lemma leaf_shape_old k po cs : t !! k = Some (po, cs) -> exists cs', leaf_shape !! k = Some (po, cs') /\ cs ⊆ cs'.
Proof.
  intros Hk. destruct (decide (k = parent)) as [->|Hne].
  - rewrite leaf_shape_parent. simplify_eq. eexists. split; [done|]. set_solver.
  - rewrite leaf_shape_other by congruence. eauto.
Qed.

Lemma leaf_shape_inv k po cs : leaf_shape !! k = Some (po, cs) -> k <> key ->
  exists cs', t !! k = Some (po, cs') /\ (cs = cs' \/ k = parent /\ cs = cs' ++ [key]).
Proof.
  intros Hk Hne. destruct (decide (k = parent)) as [->|Hnp].
  - rewrite leaf_shape_parent in Hk. injection Hk as <- <-. eauto.
  - rewrite leaf_shape_other in Hk by done. eauto.
Qed.

Lemma leaf_wf : tree_wf leaf_shape root.
Proof.
  split.
  - destruct (wf_root _ _ Hwf) as [cs Hr]. destruct (leaf_shape_old _ _ _ Hr) as (cs' & ? & _). eauto.
  - intros k po cs Hk Hne. destruct (decide (k = key)) as [->|Hnk].
    + rewrite leaf_shape_key in Hk. injection Hk as <- <-. exists parent, gp, (ps ++ [key]). split_and!; auto using leaf_shape_parent. set_solver.
    + apply leaf_shape_inv in Hk as (cs' & Hk & _); [|done].
      destruct (wf_parent _ _ Hwf _ _ _ Hk Hne) as (p & gp' & ps' & -> & Hp & Hin & Hlt).
      destruct (leaf_shape_old _ _ _ Hp) as (ps2 & ? & ?). exists p, gp', ps2. split_and!; auto.
  - intros k po cs c Hk Hc. destruct (decide (k = key)) as [->|Hnk].
    { rewrite leaf_shape_key in Hk. injection Hk as <- <-. by apply not_elem_of_nil in Hc. }
    apply leaf_shape_inv in Hk as (cs' & Hk & [->|[-> ->]]); [| |done].
    + destruct (wf_child _ _ Hwf _ _ _ _ Hk Hc) as [ccs Hcc]. destruct (leaf_shape_old _ _ _ Hcc) as (? & ? & _). eauto.
    + apply elem_of_app in Hc as [Hc| ->%list_elem_of_singleton]; [|rewrite leaf_shape_key; eauto].
      destruct (wf_child _ _ Hwf _ _ _ _ Hk Hc) as [ccs Hcc]. destruct (leaf_shape_old _ _ _ Hcc) as (? & ? & _). eauto.
  - intros k po cs Hk. destruct (decide (k = key)) as [->|Hnk].
    { rewrite leaf_shape_key in Hk. injection Hk as <- <-. constructor. }
    apply leaf_shape_inv in Hk as (cs' & Hk & [->|[-> ->]]); [by eapply wf_children_NoDup| |done].
    apply NoDup_app. split_and!; [by eapply wf_children_NoDup| |apply NoDup_singleton].
    intros c Hc ->%list_elem_of_singleton. destruct (wf_child _ _ Hwf _ _ _ _ Hk Hc). congruence.
Qed.

Lemma leaf_descends a k : descends t a k -> descends leaf_shape a k.
Proof.
  induction 1 as [|k p cs Hk _ IH]; [constructor|]. destruct (leaf_shape_old _ _ _ Hk) as (cs' & ? & _). by eapply descends_step.
Qed.

End shape.

(** ** The best child *)

Lemma aggregate_children_app m k cs cs' a a' :
  aggregate_children m k cs a = Ok a' -> aggregate_children m k (cs ++ cs') a = aggregate_children m k cs' a'.
Proof.
  revert a. induction cs as [|c cs IH]; intros a; cbn; [by intros [= ->]|].
  destruct (m !! c); cbn; [|done]. apply IH.
Qed.

Lemma no_better_child_ok f k w cs :
  (forall c, c ∈ cs -> is_Some (fork_infos f !! c)) ->
  exists b, no_better_child f k w cs = Ok b /\
    if (b : bool) then forall c, c ∈ cs -> candidate_at (fork_infos f) c -> ~ better (weight_at (fork_infos f) c) c w k
    else exists c, c ∈ cs /\ candidate_at (fork_infos f) c /\ better (weight_at (fork_infos f) c) c w k.
Proof.
  induction cs as [|c cs IH]; intros Hcs; cbn.
  - exists true. split; [done|]. intros c ?%not_elem_of_nil. done.
  - destruct (Hcs c) as [i Hi]; [left|]. unfold stake_voted_subtree, is_candidate. rewrite Hi. cbn.
    destruct IH as (b & Hb & Hbs); [intros; apply Hcs; by right|].
    assert (weight_at (fork_infos f) c = fi_stake_voted_subtree i) as Hw by (unfold weight_at; by rewrite Hi).
    assert (candidate_at (fork_infos f) c <-> info_is_candidate i = true) as Hcand by (unfold candidate_at; naive_solver).
    destruct (info_is_candidate i); cbn.
    + destruct ((w <? fi_stake_voted_subtree i) || ((w =? fi_stake_voted_subtree i) && key_ltb c k)) eqn:E.
      * exists false. split; [done|]. exists c. split_and!; [left|by apply Hcand|].
        rewrite Hw. unfold better. rewrite orb_true_iff, andb_true_iff, Z.ltb_lt, Z.eqb_eq, key_ltb_spec in E. done.
      * exists b. split; [done|]. destruct b; [|destruct Hbs as (c' & ? & ?); exists c'; split; [by right|done]].
        intros c' [->|Hc']%elem_of_cons Hcc; [|by apply Hbs]. rewrite Hw. unfold better.
        rewrite orb_false_iff, andb_false_iff, Z.ltb_ge, Z.eqb_neq, <- not_true_iff_false, key_ltb_spec in E. naive_solver lia.
    + exists b. split; [done|]. destruct b; [|destruct Hbs as (c' & ? & ?); exists c'; split; [by right|done]].
      intros c' [->|Hc']%elem_of_cons Hcc; [|by apply Hbs]. by apply Hcand in Hcc.
Qed.

Lemma aggregate_child_stake k c i a : ag_stake (aggregate_child k c i a) = add64 (ag_stake a) (fi_stake_voted_subtree i).
Proof. unfold aggregate_child. by case_match. Qed.

Lemma aggregate_child_confirmed k c i a :
  ag_duplicate_confirmed (aggregate_child k c i a) = ag_duplicate_confirmed a || fi_is_duplicate_confirmed i.
Proof. unfold aggregate_child. by case_match. Qed.

(** A new child without stake becomes the best one exactly when no other
    candidate is preferred to it. *)
Lemma aggregate_new_leaf m k cs key leaf a :
  NoDup cs -> k ∉ cs -> key ∉ cs -> key <> k -> m !! key = Some leaf -> fi_stake_voted_subtree leaf = 0 ->
  info_is_candidate leaf = true -> (forall c, c ∈ cs -> 0 <= weight_at m c) ->
  best_so_far m k cs a ->
  ((forall c, c ∈ cs -> candidate_at m c -> ~ better (weight_at m c) c 0 key) ->
     ag_best_slot (aggregate_child k key leaf a) = fi_best_slot leaf) /\
  ((exists c, c ∈ cs /\ candidate_at m c /\ better (weight_at m c) c 0 key) ->
     ag_best_slot (aggregate_child k key leaf a) = ag_best_slot a).
Proof.
  intros Hnd Hk Hkey Hne Hl Hw0 Hcand Hpos Ha. unfold aggregate_child. rewrite Hcand, Hw0. cbn [andb].
  destruct Ha as [(E1 & E2 & Hno)|((Hin & Hbc & Hbest) & Hbk & Hst & Hbs)].
  - rewrite bool_decide_true by done. cbn. split; [done|]. intros (c & Hc & Hcc & _). by destruct (Hno c).
  - rewrite bool_decide_false by done. cbn [orb]. split.
    + intros Hnb. specialize (Hnb _ Hin Hbc). specialize (Hpos _ Hin).
      assert (better 0 key (weight_at m (ag_best_child a)) (ag_best_child a)) as Hb.
      { destruct (better_total 0 key (weight_at m (ag_best_child a)) (ag_best_child a)) as [?|[[_ ?]|?]]; [done| |done]. congruence. }
      destruct Hb as [?|[E Hlt]]; [lia|]. rewrite Hst, E. apply key_ltb_spec in Hlt. by rewrite Hlt, Z.eqb_refl, orb_true_r.
    + intros (c & Hc & Hcc & Hb).
      assert (better (weight_at m (ag_best_child a)) (ag_best_child a) 0 key) as Hb'.
      { destruct (decide (c = ag_best_child a)) as [->|]; [done|]. eapply better_trans; [|exact Hb]. by apply Hbest. }
      rewrite Hst. destruct (Z.ltb_spec (weight_at m (ag_best_child a)) 0); [specialize (Hpos _ Hin); lia|]. cbn [orb].
      destruct (Z.eqb_spec 0 (weight_at m (ag_best_child a))); [|done]. destruct (key_ltb key (ag_best_child a)) eqn:E; [|done].
      apply key_ltb_spec in E. exfalso. eapply better_asym; [exact Hb'|]. by right.
Qed.

(** Changing the best slot of one child. *)
Lemma aggregate_children_best_change m k c0 i0 s cs a a' r :
  m !! c0 = Some i0 ->
  ag_stake a' = ag_stake a -> ag_best_child_stake a' = ag_best_child_stake a -> ag_best_child a' = ag_best_child a ->
  ag_duplicate_confirmed a' = ag_duplicate_confirmed a ->
  ag_best_slot a' = (if decide (ag_best_child a = c0) then s else ag_best_slot a) ->
  aggregate_children m k cs a = Ok r ->
  exists r', aggregate_children (<[c0 := set_best_slot s i0]> m) k cs a' = Ok r' /\ ag_stake r' = ag_stake r /\
    ag_duplicate_confirmed r' = ag_duplicate_confirmed r /\
    ag_best_slot r' = (if decide (ag_best_child r = c0) then s else ag_best_slot r).
Proof.
  intros Hc0. revert a a'. induction cs as [|c cs IH]; intros a a' E1 E2 E3 E4 E5; cbn; [intros [= <-]; eauto|].
  destruct (m !! c) as [i|] eqn:Hc; cbn; [|done].
  destruct (decide (c = c0)) as [->|Hne].
  - rewrite lookup_insert_eq. cbn. rewrite Hc0 in Hc. injection Hc as <-. apply IH; unfold aggregate_child, set_best_slot; cbn;
      change (info_is_candidate (mkForkInfo _ _ _ _ _ (fi_latest_invalid_ancestor i0) _)) with (info_is_candidate i0);
      rewrite ?E1, ?E2, ?E3, ?E4; destruct (info_is_candidate i0 && _); cbn; try done. by rewrite decide_True.
  - rewrite lookup_insert_ne by done. rewrite Hc. cbn. apply IH; unfold aggregate_child; rewrite ?E1, ?E2, ?E3, ?E4;
      destruct (info_is_candidate i && _); cbn; try done. by rewrite decide_False.
Qed.

(** ** Propagation *)

(** [m'] is [m] but for the best slots. *)
Definition same_but_best (m m' : ForkInfos) : Prop :=
  forall k, (fun i => set_best_slot k i) <$> m' !! k = (fun i => set_best_slot k i) <$> m !! k.

Lemma same_but_best_inv m m' k i' : same_but_best m m' -> m' !! k = Some i' -> exists i, m !! k = Some i /\ set_best_slot k i' = set_best_slot k i.
Proof. intros Hs Hk. specialize (Hs k). rewrite Hk in Hs. destruct (m !! k) as [i|]; [|done]. exists i. split; [done|]. by apply (inj Some) in Hs. Qed.

Lemma same_but_best_insert m m' k i s : same_but_best m m' -> m' !! k = Some i -> same_but_best m (<[k := set_best_slot s i]> m').
Proof.
  intros Hs Hk x. destruct (decide (x = k)) as [->|Hne]; [|rewrite lookup_insert_ne by done; apply Hs].
  rewrite lookup_insert_eq, <- (Hs k), Hk. done.
Qed.

Lemma set_best_slot_eq k i i' : set_best_slot k i' = set_best_slot k i ->
  links i' = links i /\ status i' = status i /\ fi_stake_voted_at i' = fi_stake_voted_at i.
Proof. unfold set_best_slot, links, status. intros [=]. split_and!; congruence. Qed.

Lemma same_but_best_shape m m' : same_but_best m m' -> shape m' = shape m.
Proof.
  intros Hs. apply map_eq. intros k. rewrite !lookup_shape. specialize (Hs k).
  destruct (m !! k) as [i|], (m' !! k) as [i'|]; try done. cbn in *. injection Hs as Hs. f_equal.
  unfold links. congruence.
Qed.

Section propagate.
Context (t : Shape) (root key parent B : SlotHashKey) (Hwf : tree_wf t root).
Context (Hkey : descends t parent key) (HB : descends t parent B).

Record propagating (m : ForkInfos) (a : SlotHashKey) (ia : ForkInfo) : Prop := {
  pg_shape : shape m = t;
  pg_marks : marks_ok m;
  pg_best : best_descends m;
  pg_settled k : k <> a -> settled m k;
  pg_up : descends t a parent;
  pg_lookup : m !! a = Some ia;
  pg_change : fi_best_slot ia = B -> settled (<[a := set_best_slot key ia]> m) a;
  pg_same : fi_best_slot ia <> B -> settled m a
}.

Lemma propagating_best m a ia : propagating m a ia -> best_descends (<[a := set_best_slot key ia]> m).
Proof.
  intros Hp k i. pose proof (pg_lookup _ _ _ Hp) as Ha. rewrite (shape_insert m a ia (set_best_slot key ia) Ha eq_refl), (pg_shape _ _ _ Hp).
  destruct (decide (k = a)) as [->|Hne].
  - rewrite lookup_insert_eq. intros [= <-]. cbn. eapply descends_trans; [apply Hp|done].
  - rewrite lookup_insert_ne by done. rewrite <- (pg_shape _ _ _ Hp). apply Hp.
Qed.

(** A node whose best slot lies below its child [a] has [a] as its best child. *)
Lemma best_below_child m p ip a ia :
  shape m = t -> best_descends m -> settled m p -> m !! p = Some ip -> info_is_candidate ip = true ->
  a ∈ fi_children ip -> m !! a = Some ia -> descends t a (fi_best_slot ip) -> best_child m (fi_children ip) a.
Proof.
  intros Hsh Hb Hs Hp Hc Hin Ha Hd.
  assert (t !! p = Some (links ip)) as Htp by (by rewrite <- Hsh, lookup_shape, Hp).
  destruct (settled_best m t root p ip Hwf Hsh Hs Hp Hc) as [[E _]|(c & ic & Hbc & Hic & E)].
  - rewrite E in Hd. pose proof (descends_slot_le _ _ Hwf _ _ Hd). pose proof (child_slot _ _ Hwf _ _ _ _ Htp Hin). lia.
  - rewrite E in Hd. assert (c = a) as ->; [|done].
    eapply (siblings_disjoint _ _ Hwf p _ _ c a); [done|apply Hbc|done| |exact Hd]. rewrite <- Hsh. by apply Hb.
Qed.

(** The parent [p] of a node whose best slot just changed from [B] to [key]. *)
Lemma propagate_parent m a ia p ip :
  propagating m a ia -> fi_best_slot ia = B -> fi_parent ia = Some p -> m !! p = Some ip ->
  let m' := <[a := set_best_slot key ia]> m in
  (fi_best_slot ip = B -> settled (<[p := set_best_slot key ip]> m') p) /\ (fi_best_slot ip <> B -> settled m' p).
Proof.
  intros Hp HaB Hpar Hip m'. pose proof Hp as [Hsh Hm Hb Hset Hup Ha _ _].
  assert (t !! a = Some (Some p, fi_children ia)) as Hta by (rewrite <- Hsh, lookup_shape, Ha; cbn; by rewrite <- Hpar).
  assert (t !! p = Some (links ip)) as Htp by (by rewrite <- Hsh, lookup_shape, Hip).
  pose proof (parent_slot _ _ Hwf _ _ _ Hta) as Hlt. assert (p <> a) as Hpa by (intros ->; lia).
  assert (a ∈ fi_children ip) as Hin.
  { destruct (parent_in_tree _ _ Hwf _ _ _ Hta) as (? & ps & Htp' & ? & _). rewrite Htp in Htp'. by injection Htp' as _ ->. }
  destruct (Hset p Hpa ip Hip) as (r & Hr & Hst & Hbest & Hconf).
  destruct (aggregate_children_best_change m p a ia key (fi_children ip) (aggregation_start p ip) (aggregation_start p ip) r)
    as (r' & Hr' & E1 & E2 & E3); try done; [by rewrite decide_False|].
  pose proof (aggregate_children_best _ _ _ _ _ (wf_children_NoDup _ _ Hwf _ _ _ Htp) (own_child _ _ Hwf _ _ _ Htp) Hr) as Hbs.
  assert (info_is_candidate ip = true -> ag_best_child r = a <-> fi_best_slot ip = B) as Hiff.
  { intros Hc. split.
    - intros E. rewrite (Hbest Hc). destruct Hbs as [(E' & _)|(_ & _ & _ & Hb')]; [congruence|].
      rewrite E, Ha in Hb'. cbn in Hb'. congruence.
    - intros E. assert (best_child m (fi_children ip) a) as Hbc.
      { eapply (best_below_child m p ip a ia); try done; [by apply Hset|]. rewrite E. eapply descends_trans; [exact Hup|done]. }
      destruct Hbs as [(_ & _ & Hno)|(Hbc' & _)]; [|by eapply best_child_unique]. destruct Hbc as (? & ? & _). by destruct (Hno a). }
  split; intros HpB ip'.
  - rewrite lookup_insert_eq. intros [= <-]. exists r'. split.
    + cbn [fi_children set_best_slot]. rewrite <- Hr'. apply aggregate_children_ext. intros c Hc. rewrite lookup_insert_ne; [done|].
      intros <-. by eapply (own_child _ _ Hwf _ _ _ Htp).
    + split; cbn; [by rewrite E1|]. split; [|by rewrite E2]. intros Hc. rewrite E3, decide_True; [done|]. by apply Hiff.
  - unfold m'. rewrite lookup_insert_ne by done. rewrite Hip. intros [= <-]. exists r'. split; [done|].
    split; [by rewrite E1|]. split; [|by rewrite E2]. intros Hc. rewrite E3, decide_False; [by apply Hbest|]. by rewrite Hiff.
Qed.

Lemma propagate_up_ok fuel a ia m0 m :
  (below t a < fuel)%nat -> propagating m a ia -> same_but_best m0 m ->
  exists m', propagate_up fuel key B (Some a) m = Ok m' /\ (forall k, settled m' k) /\ best_descends m' /\ same_but_best m0 m'.
Proof.
  revert a ia m. induction fuel as [|fuel IH]; intros a ia m Hfuel Hp Hs; [lia|]. cbn.
  pose proof Hp as [Hsh Hm Hb Hset Hup Ha Hch Hsm]. rewrite Ha. cbn. case_bool_decide as HB'; last first.
  { exists m. split_and!; auto. intros k. destruct (decide (k = a)) as [->|]; auto. }
  specialize (Hch HB'). set (m' := <[a := set_best_slot key ia]> m) in *.
  assert (same_but_best m0 m') as Hs' by by apply same_but_best_insert.
  assert (shape m' = t) as Hsh' by (by unfold m'; rewrite (shape_insert m a ia (set_best_slot key ia) Ha eq_refl)).
  assert (forall k, Some k <> fi_parent ia -> settled m' k) as Hset'.
  { intros k Hk. destruct (decide (k = a)) as [->|Hne]; [done|]. unfold m'. eapply (settled_other t root Hwf); eauto.
    rewrite <- Hsh, lookup_shape, Ha. cbn. congruence. }
  destruct (fi_parent ia) as [p|] eqn:Hpar; last first.
  { destruct fuel; cbn; exists m'; split_and!; auto; by apply propagating_best. }
  assert (t !! a = Some (Some p, fi_children ia)) as Hta by (rewrite <- Hsh, lookup_shape, Ha; cbn; by rewrite <- Hpar).
  destruct (parent_in_tree _ _ Hwf _ _ _ Hta) as (gp & ps & Htp & _ & Hlt).
  rewrite <- Hsh in Htp. apply lookup_shape_Some in Htp as (ip & Hip & _).
  destruct (propagate_parent _ _ _ _ _ Hp HB' Hpar Hip) as [H1 H2]. fold m' in H1, H2.
  apply (IH p ip m'); [pose proof (below_parent _ _ Hwf _ _ _ Hta); lia| |done]. split; auto.
  - eapply marks_ok_status; [exact Hm|by rewrite Hsh'|]. intros k i'. unfold m'. destruct (decide (k = a)) as [->|Hne].
    + rewrite lookup_insert_eq. intros [= <-]. eauto.
    + rewrite lookup_insert_ne by done. eauto.
  - by apply propagating_best.
  - intros k Hk. apply Hset'. congruence.
  - eapply descends_trans; [eapply descends_step; [exact Hta|constructor]|done].
  - unfold m'. rewrite lookup_insert_ne; [done|]. intros ->. lia.
Qed.

End propagate.

(** ** The new leaf *)

Section leaf.
Context (epoch_stakes : gmap Epoch EpochStakes) (epoch_schedule : EpochSchedule).
Context (f : HeaviestSubtreeForkChoice) (key parent : SlotHashKey) (pi : ForkInfo).
Context (Hinv : fc_inv epoch_stakes epoch_schedule f).
Context (Hkey : fork_infos f !! key = None) (Hpar : fork_infos f !! parent = Some pi) (Hslot : parent.1 < key.1).
Abbreviation m := (fork_infos f).
Abbreviation t := (shape (fork_infos f)).

Definition new_leaf : ForkInfo := mkForkInfo 0 0 key (Some parent) [] (fi_latest_invalid_ancestor pi) false.
Definition leaf_infos : ForkInfos := <[parent := push_child key pi]> (<[key := new_leaf]> m).

Lemma leaf_infos_shape : shape leaf_infos = leaf_shape t key parent (fi_parent pi) (fi_children pi).
Proof. unfold leaf_infos, leaf_shape, shape. rewrite !fmap_insert. done. Qed.

Lemma leaf_tkey : t !! key = None.
Proof. by rewrite lookup_shape, Hkey. Qed.

Lemma leaf_tparent : t !! parent = Some (fi_parent pi, fi_children pi).
Proof. by rewrite lookup_shape, Hpar. Qed.

Lemma leaf_infos_wf : tree_wf (shape leaf_infos) (fc_root f).
Proof. rewrite leaf_infos_shape. apply leaf_wf; [apply Hinv|apply leaf_tkey|apply leaf_tparent|done]. Qed.

Lemma leaf_infos_key : leaf_infos !! key = Some new_leaf.
Proof. unfold leaf_infos. rewrite lookup_insert_ne by congruence. apply lookup_insert_eq. Qed.

Lemma leaf_infos_parent : leaf_infos !! parent = Some (push_child key pi).
Proof. apply lookup_insert_eq. Qed.

Lemma leaf_infos_other k : k <> key -> k <> parent -> leaf_infos !! k = m !! k.
Proof. intros. unfold leaf_infos. by rewrite !lookup_insert_ne. Qed.

(** The old nodes look the same to their parents. *)
Lemma leaf_infos_old k i : m !! k = Some i -> exists i', leaf_infos !! k = Some i' /\ child_view i' = child_view i /\
  status i' = status i /\ fi_stake_voted_at i' = fi_stake_voted_at i /\ fi_best_slot i' = fi_best_slot i.
Proof.
  intros Hk. destruct (decide (k = parent)) as [->|Hne].
  - rewrite leaf_infos_parent. simplify_eq. eauto 6.
  - rewrite leaf_infos_other by congruence. eauto 6.
Qed.

Lemma leaf_infos_inv k i' : leaf_infos !! k = Some i' -> k <> key -> exists i, m !! k = Some i /\ child_view i' = child_view i /\
  status i' = status i /\ fi_stake_voted_at i' = fi_stake_voted_at i /\ fi_best_slot i' = fi_best_slot i.
Proof.
  intros Hk Hne. destruct (decide (k = parent)) as [->|Hnp].
  - rewrite leaf_infos_parent in Hk. injection Hk as <-. exists pi. auto.
  - rewrite leaf_infos_other in Hk by done. exists i'. auto.
Qed.

Lemma leaf_infos_view c : c <> key -> child_view <$> leaf_infos !! c = child_view <$> m !! c.
Proof.
  intros Hne. destruct (m !! c) as [i|] eqn:Hc.
  - destruct (leaf_infos_old c i Hc) as (i' & -> & Hv & _). cbn. by rewrite Hv.
  - rewrite leaf_infos_other by congruence. by rewrite Hc.
Qed.

Lemma old_child_ne k i c : m !! k = Some i -> c ∈ fi_children i -> c <> key.
Proof. intros Hk Hc ->. destruct (children_exist t (fc_root f) (inv_tree _ _ _ Hinv) m k i key eq_refl Hk Hc). congruence. Qed.

Lemma leaf_settled k : k <> parent -> settled leaf_infos k.
Proof.
  intros Hnp i Hk. destruct (decide (k = key)) as [->|Hne].
  - rewrite leaf_infos_key in Hk. injection Hk as <-. eexists; split; [done|]. split_and!; done.
  - rewrite leaf_infos_other in Hk by done. destruct (inv_settled _ _ _ Hinv k i Hk) as (a & Ha & Hag).
    exists a. split; [|done]. rewrite <- Ha. apply aggregate_children_view. intros c Hc. apply leaf_infos_view. by eapply old_child_ne.
Qed.

Lemma leaf_marks : marks_ok leaf_infos.
Proof.
  destruct (inv_marks _ _ _ Hinv) as [H1 H2 H3].
  assert (forall k i', leaf_infos !! k = Some i' -> k <> key -> exists i, m !! k = Some i /\
    fi_latest_invalid_ancestor i' = fi_latest_invalid_ancestor i /\ fi_is_duplicate_confirmed i' = fi_is_duplicate_confirmed i) as Hold.
  { intros k i' Hk Hne. destruct (leaf_infos_inv k i' Hk Hne) as (i & Hi & _ & [= E1 E2] & _). eauto. }
  split.
  - intros k i u Hk Hu. destruct (decide (k = key)) as [->|Hne].
    + rewrite leaf_infos_key in Hk. injection Hk as <-. cbn in Hu. specialize (H1 _ _ _ Hpar Hu). lia.
    + destruct (Hold k i Hk Hne) as (i0 & Hi0 & E & _). eapply H1; [done|congruence].
  - intros k i u c ic Hk Hu Hc Hic. destruct (decide (k = key)) as [->|Hne].
    { rewrite leaf_infos_key in Hk. injection Hk as <-. by apply not_elem_of_nil in Hc. }
    destruct (Hold k i Hk Hne) as (i0 & Hi0 & E & _). rewrite E in Hu. destruct (decide (c = key)) as [->|Hck].
    + rewrite leaf_infos_key in Hic. injection Hic as <-. cbn. destruct (decide (k = parent)) as [->|Hnp].
      * simplify_eq. exists u. split; [done|lia].
      * rewrite leaf_infos_other in Hk by done. by destruct (old_child_ne k i key Hk Hc).
    + destruct (Hold c ic Hic Hck) as (ic0 & Hic0 & -> & _). eapply (H2 k i0 u c ic0); try done.
      destruct (decide (k = parent)) as [->|Hnp].
      * rewrite leaf_infos_parent in Hk. injection Hk as <-. cbn in Hc. simplify_eq. set_solver.
      * rewrite leaf_infos_other in Hk by done. by simplify_eq.
  - intros k i Hk Hd. destruct (decide (k = key)) as [->|Hne].
    + rewrite leaf_infos_key in Hk. by injection Hk as <-.
    + destruct (Hold k i Hk Hne) as (i0 & Hi0 & -> & E). eapply H3; [done|congruence].
Qed.

Lemma leaf_best : best_descends leaf_infos.
Proof.
  intros k i Hk. destruct (decide (k = key)) as [->|Hne].
  - rewrite leaf_infos_key in Hk. injection Hk as <-. constructor.
  - destruct (leaf_infos_inv k i Hk Hne) as (i0 & Hi0 & _ & _ & _ & ->). rewrite leaf_infos_shape.
    eapply leaf_descends; [apply Hinv|apply leaf_tkey|apply leaf_tparent|done|]. by apply (inv_best _ _ _ Hinv).
Qed.

Lemma weight_nonneg k : 0 <= weight_at leaf_infos k.
Proof.
  unfold weight_at. destruct (leaf_infos !! k) as [i|] eqn:Hk; cbn; [|done]. destruct (decide (k = key)) as [->|Hne].
  - rewrite leaf_infos_key in Hk. by injection Hk as <-.
  - destruct (leaf_infos_inv k i Hk Hne) as (i0 & Hi0 & [= -> _ _] & _).
    rewrite (settled_stake_sum m k i0 (inv_settled _ _ _ Hinv k) Hi0 (inv_range _ _ _ Hinv _ _ Hi0)). apply as_u64_range.
Qed.

(** Aggregating the parent: the leaf is its best child or changes nothing. *)
Lemma leaf_parent_aggregate : exists a b, aggregate_children leaf_infos parent (fi_children pi ++ [key]) (aggregation_start parent pi) = Ok a /\
  is_best_child (set_fork_infos leaf_infos f) key = Ok b /\ ag_stake a = fi_stake_voted_subtree pi /\
  (ag_duplicate_confirmed a = true -> fi_is_duplicate_confirmed pi = true) /\
  (info_is_candidate pi = true -> ag_best_slot a = if (b : bool) then key else fi_best_slot pi).
Proof.
  destruct (inv_settled _ _ _ Hinv parent pi Hpar) as (a & Ha & Hst & Hb & Hd).
  assert (aggregate_children leaf_infos parent (fi_children pi) (aggregation_start parent pi) = Ok a) as Ha'.
  { rewrite <- Ha. apply aggregate_children_view. intros c Hc. apply leaf_infos_view. by eapply old_child_ne. }
  pose proof leaf_infos_wf as Hwf1.
  assert (shape leaf_infos !! parent = Some (fi_parent pi, fi_children pi ++ [key])) as Htp by (by rewrite lookup_shape, leaf_infos_parent).
  destruct (no_better_child_ok (set_fork_infos leaf_infos f) key 0 (fi_children pi ++ [key])) as (b & Hbc & Hbs).
  { intros c Hc. destruct (wf_child _ _ Hwf1 _ _ _ _ Htp Hc) as [? Hct]. cbn. apply lookup_shape_Some in Hct as (? & ? & _). eauto. }
  cbn [fork_infos set_fork_infos] in Hbs. exists (aggregate_child parent key new_leaf a), b. split_and!.
  - rewrite (aggregate_children_app _ _ _ _ _ _ Ha'). cbn. by rewrite leaf_infos_key.
  - unfold is_best_child, stake_voted_subtree, parent_of, children_of. cbn. rewrite leaf_infos_key. cbn. by rewrite leaf_infos_parent.
  - rewrite Hst. pose proof (aggregate_children_stake m parent (fi_children pi) (aggregation_start parent pi) a (inv_range _ _ _ Hinv _ _ Hpar) Ha) as E.
    rewrite aggregate_child_stake. cbn. unfold add64. rewrite Z.add_0_r, as_u64_small; [done|]. rewrite E. apply as_u64_range.
  - rewrite aggregate_child_confirmed. cbn. by rewrite orb_false_r.
  - intros Hc. rewrite (Hb Hc). pose proof (wf_children_NoDup _ _ Hwf1 _ _ _ Htp) as Hnd%NoDup_app.
    destruct (aggregate_new_leaf leaf_infos parent (fi_children pi) key new_leaf a) as [H1 H2]; try done.
    + apply Hnd.
    + intros Hin. by eapply (own_child _ _ Hwf1 _ _ _ Htp), elem_of_app; left.
    + intros Hin. by eapply old_child_ne.
    + congruence.
    + apply leaf_infos_key.
    + intros. apply weight_nonneg.
    + eapply aggregate_children_best; [apply Hnd| |exact Ha']. intros Hin. by eapply (own_child _ _ Hwf1 _ _ _ Htp), elem_of_app; left.
    + destruct b.
      * apply H1. intros c Hin. apply Hbs. set_solver.
      * apply H2. destruct Hbs as (c & [Hin| ->%list_elem_of_singleton]%elem_of_app & Hcc & Hbt); [eauto|].
        exfalso. unfold weight_at in Hbt. rewrite leaf_infos_key in Hbt. by eapply better_asym.
Qed.

Lemma leaf_propagating ia' :
  settled (<[parent := set_best_slot key (push_child key pi)]> leaf_infos) parent -> ia' = push_child key pi ->
  propagating (shape leaf_infos) key parent (fi_best_slot pi) leaf_infos parent ia'.
Proof.
  intros Hs ->. split; auto using leaf_marks, leaf_best, leaf_settled, leaf_infos_parent. constructor.
Qed.

Lemma settled_push_child best a :
  aggregate_children leaf_infos parent (fi_children pi ++ [key]) (aggregation_start parent pi) = Ok a ->
  ag_stake a = fi_stake_voted_subtree pi -> (ag_duplicate_confirmed a = true -> fi_is_duplicate_confirmed pi = true) ->
  (info_is_candidate pi = true -> ag_best_slot a = best) ->
  settled (<[parent := set_best_slot best (push_child key pi)]> leaf_infos) parent.
Proof.
  intros Ha H1 H2 H3 i. rewrite lookup_insert_eq. intros [= <-]. exists a. split.
  - rewrite <- Ha. cbn. apply aggregate_children_ext. intros c Hc. rewrite lookup_insert_ne; [done|]. intros <-.
    eapply (own_child _ _ leaf_infos_wf parent); [|exact Hc]. by rewrite lookup_shape, leaf_infos_parent.
  - split; [done|]. split; [|done]. intros Hc. symmetry. by apply H3.
Qed.

Lemma add_new_leaf_infos :
  exists m', add_new_leaf_slot f key (Some parent) = Ok (set_fork_infos m' f) /\ (forall k, settled m' k) /\ best_descends m' /\
    same_but_best leaf_infos m'.
Proof.
  destruct leaf_parent_aggregate as (a & b & Ha & Hb & H1 & H2 & H3).
  assert (add_new_leaf_slot f key (Some parent) = propagate_new_leaf (set_fork_infos leaf_infos f) key parent) as ->.
  { unfold add_new_leaf_slot, contains_block. rewrite bool_decide_false by (rewrite Hkey; by intros []). cbn.
    rewrite lookup_insert_ne by congruence. rewrite Hpar. cbn. unfold latest_invalid_ancestor. by rewrite Hpar. }
  unfold propagate_new_leaf, best_slot. cbn [fork_infos set_fork_infos]. rewrite leaf_infos_parent. cbn. rewrite Hb. cbn. destruct b.
  - destruct (propagate_up_ok (shape leaf_infos) (fc_root f) key parent (fi_best_slot pi) leaf_infos_wf) with
      (fuel := size leaf_infos) (a := parent) (ia := push_child key pi) (m0 := leaf_infos) (m := leaf_infos) as (m' & -> & Hs & Hbd & Hsame); cbn; eauto.
    + eapply descends_step; [|constructor]. by rewrite lookup_shape, leaf_infos_key.
    + pose proof (leaf_best parent _ leaf_infos_parent). done.
    + rewrite <- shape_size. eapply Nat.lt_le_trans; [|apply (below_le _ key)].
      eapply (below_parent _ _ leaf_infos_wf). by rewrite lookup_shape, leaf_infos_key.
    + apply leaf_propagating; [|done]. by eapply settled_push_child.
    + done.
  - exists leaf_infos. split_and!; [done| |apply leaf_best|done]. intros k. destruct (decide (k = parent)) as [->|?]; [|by apply leaf_settled].
    rewrite <- (insert_id leaf_infos parent (push_child key pi)) by apply leaf_infos_parent. by eapply (settled_push_child (fi_best_slot pi)).
Qed.

(** A leaf that nobody has voted for yet. *)
Lemma add_new_leaf_inv :
  (forall pubkey, latest_votes f !! pubkey <> Some key) ->
  exists f', add_new_leaf_slot f key (Some parent) = Ok f' /\ fc_inv epoch_stakes epoch_schedule f' /\
    fc_root f' = fc_root f /\ latest_votes f' = latest_votes f /\ dom (fork_infos f') = {[key]} ∪ dom m.
Proof.
  intros Hnv. destruct add_new_leaf_infos as (m' & -> & Hs & Hb & Hsame). eexists; split; [done|].
  pose proof (same_but_best_shape _ _ Hsame) as Hsh.
  assert (forall k i', m' !! k = Some i' -> exists i, leaf_infos !! k = Some i /\ status i' = status i /\ fi_stake_voted_at i' = fi_stake_voted_at i) as Hpre.
  { intros k i' Hk. destruct (same_but_best_inv _ _ _ _ Hsame Hk) as (i & Hi & E). exists i. split; [done|]. by apply set_best_slot_eq in E as (_ & ? & ?). }
  assert (dom m' = {[key]} ∪ dom m) as Hdom.
  { rewrite <- (dom_fmap_L links m'), <- (dom_fmap_L links m). fold (shape m'). fold (shape m). rewrite Hsh, leaf_infos_shape.
    unfold leaf_shape. rewrite !dom_insert_L. assert (parent ∈ dom t) by (apply elem_of_dom; rewrite leaf_tparent; eauto). set_solver. }
  split_and!; [|done..]. split; cbn; auto.
  - rewrite Hsh. apply leaf_infos_wf.
  - intros k i' Hk. destruct (Hpre _ _ Hk) as (i & Hi & _ & ->). destruct (decide (k = key)) as [->|Hne].
    + rewrite leaf_infos_key in Hi. by injection Hi as <-.
    + destruct (leaf_infos_inv k i Hi Hne) as (i0 & Hi0 & _ & _ & -> & _). by apply (inv_range _ _ _ Hinv k).
  - eapply marks_ok_status; [apply leaf_marks|done|]. intros k i' Hk. destruct (Hpre _ _ Hk) as (i & ? & ? & _). eauto.
  - destruct (inv_root _ _ _ Hinv) as (ri & Hri & Hc). destruct (leaf_infos_old _ _ Hri) as (ri1 & Hri1 & _ & E1 & _).
    assert (is_Some (m' !! fc_root f)) as [ri' Hri'] by (apply elem_of_dom; rewrite Hdom; apply elem_of_union; right; by apply elem_of_dom).
    exists ri'. split; [done|]. destruct (Hpre _ _ Hri') as (i & Hi & E & _). rewrite (status_candidate _ _ E).
    assert (i = ri1) as -> by congruence. by rewrite (status_candidate _ _ E1).
  - intros k i' Hk. destruct (Hpre _ _ Hk) as (i & Hi & _ & ->). destruct (decide (k = key)) as [->|Hne].
    + rewrite leaf_infos_key in Hi. injection Hi as <-. cbn. unfold votes_at.
      rewrite (map_sum_ext _ (fun _ _ => 0)), map_sum_zero; [done|]. intros pk v Hv. case_decide; [|done]. subst. by destruct (Hnv pk).
    + destruct (leaf_infos_inv k i Hi Hne) as (i0 & Hi0 & _ & _ & -> & _). by apply (inv_votes _ _ _ Hinv).
Qed.

End leaf.

(** A new fork choice holds its root, which is duplicate confirmed. *)
Lemma new_inv epoch_stakes epoch_schedule root : exists f, HeaviestSubtreeForkChoice_new root = Ok f /\
  fc_inv epoch_stakes epoch_schedule f /\ fc_root f = root /\ latest_votes f = ∅ /\ dom (fork_infos f) = {[root]}.
Proof.
  unfold HeaviestSubtreeForkChoice_new, add_new_leaf_slot, contains_block. rewrite bool_decide_false by (cbn; rewrite lookup_empty; by intros []).
  cbn. eexists; split; [done|]. split_and!; [|done|done|cbn; rewrite dom_insert_L, dom_empty_L; set_solver].
  set (i := mkForkInfo 0 0 root None [] None true). cbn.
  assert (forall k i', <[root := i]> (∅ : ForkInfos) !! k = Some i' -> k = root /\ i' = i) as Hl.
  { intros k i'. rewrite insert_empty. by intros [-> ->]%lookup_singleton_Some. }
  assert (forall k po cs, shape (<[root := i]> ∅) !! k = Some (po, cs) -> k = root /\ po = None /\ cs = []) as Hsh.
  { intros k po cs (i' & [-> ->]%Hl & <- & <-)%lookup_shape_Some. done. }
  split; cbn.
  - split.
    + exists []. rewrite lookup_shape, lookup_insert_eq. done.
    + intros k po cs (-> & _)%Hsh. done.
    + intros k po cs c (_ & _ & ->)%Hsh ?%not_elem_of_nil. done.
    + intros k po cs (_ & _ & ->)%Hsh. constructor.
  - intros k i' [-> ->]%Hl. done.
  - intros k i' [-> ->]%Hl. eexists; split; [done|]. done.
  - intros k i' [-> ->]%Hl. constructor.
  - split.
    + intros k i' u [-> ->]%Hl. done.
    + intros k i' u c ic [-> ->]%Hl. done.
    + intros k i' [-> ->]%Hl. done.
  - exists i. split; [apply lookup_insert_eq|done].
  - intros k i' [-> ->]%Hl. cbn. unfold votes_at. by rewrite map_sum_empty.
Qed.
