(* ===== verification/ForkRoot.v ===== *)
(** * Moving the root of the fork choice

    [set_root] keeps exactly the subtree of the new root, [add_root_parent]
    puts a node above the root; both keep the invariant. *)
From stdpp Require Import base gmap sorting sets option list.
From S2P Require Import Prelude EpochSchedule ForkChoice ForkTree ForkUpdate ForkInvariant.

Lemma remove_nodes_ok keys m :
  NoDup keys -> (forall k, k ∈ keys -> is_Some (m !! k)) ->
  exists m', remove_nodes keys m = Ok m' /\ forall k, m' !! k = if decide (k ∈ keys) then None else m !! k.
Proof.
  revert m. induction keys as [|x keys IH]; intros m Hnd Hin; cbn.
  - exists m. split; [done|]. intros k. by rewrite decide_False by apply not_elem_of_nil.
  - apply NoDup_cons in Hnd as [Hn Hnd]. destruct (Hin x) as [i Hi]; [left|]. rewrite Hi. cbn.
    destruct (IH (delete x m)) as (m' & -> & Hm'); [done| |].
    { intros k Hk. rewrite lookup_delete_ne by (intros ->; done). apply Hin. by right. }
    eexists; split; [done|]. intros k. rewrite Hm'. destruct (decide (k = x)) as [->|Hne].
    + rewrite decide_False, lookup_delete_eq by done. by rewrite decide_True by left.
    + rewrite lookup_delete_ne by done. apply decide_ext. rewrite elem_of_cons. naive_solver.
Qed.

Section set_root.
Context (epoch_stakes : gmap Epoch EpochStakes) (epoch_schedule : EpochSchedule).
Context (f : HeaviestSubtreeForkChoice) (nr : SlotHashKey) (inr : ForkInfo).
Context (Hinv : fc_inv epoch_stakes epoch_schedule f) (Hnr : fork_infos f !! nr = Some inr).
Abbreviation m := (fork_infos f).
Abbreviation t := (shape (fork_infos f)).

(** The nodes of [m'] are those of [m] below the new root, which loses its parent. *)
Definition rooted_at (m' : ForkInfos) : Prop :=
  forall k i', m' !! k = Some i' <->
    exists i, m !! k = Some i /\ descends t nr k /\ i' = if decide (k = nr) then set_fork_parent None i else i.

Lemma set_root_infos : exists m', fork_choice_set_root f nr = Ok (mkForkChoice m' (latest_votes f) nr) /\ rooted_at m'.
Proof.
  pose proof (inv_tree _ _ _ Hinv) as Hwf.
  assert (forall k, is_Some (m !! k) -> is_Some (t !! k)) as Hmt by (intros k; rewrite lookup_shape; apply fmap_is_Some).
  destruct (subtree_diff_ok f (fc_root f) nr Hwf (fc_root f)) as (s & Hs & Hin).
  { destruct (wf_root _ _ Hwf). eauto. }
  assert (forall k, is_Some (m !! k) -> k ∈ s <-> ~ descends t nr k) as Hin'.
  { intros k Hk. rewrite Hin. unfold reached. pose proof (descends_root _ _ Hwf _ (Hmt _ Hk)).
    pose proof (descends_root _ _ Hwf nr (Hmt nr ltac:(eauto))). tauto. }
  destruct (remove_nodes_ok (elements s) m) as (m' & Hm' & Hl); [apply NoDup_elements| |].
  { intros k Hk%elem_of_elements%Hin. destruct Hk as [Hd _]. destruct Hd as [|k p cs Hk _].
    - destruct (wf_root _ _ Hwf) as [? Hr]. apply lookup_shape_Some in Hr as (? & ? & _). eauto.
    - apply lookup_shape_Some in Hk as (? & ? & _). eauto. }
  assert (nr ∉ elements s) as Hnrs by (rewrite elem_of_elements, Hin' by eauto; intros []; constructor).
  unfold fork_choice_set_root. rewrite Hs. cbn. rewrite Hm'. cbn. rewrite Hl, decide_False, Hnr by done. cbn.
  eexists; split; [done|]. intros k i'. destruct (decide (k = nr)) as [->|Hne].
  - rewrite lookup_insert_eq. split; [intros [= <-]; exists inr; eauto using descends_refl|].
    intros (i & Hi & _ & ->). congruence.
  - rewrite lookup_insert_ne, Hl by done. case_decide as Hk.
    + split; [done|]. intros (i & Hi & Hd & _). rewrite elem_of_elements, Hin' in Hk by eauto. done.
    + split; [|by intros (i & Hi & _ & ->)]. intros Hi. exists i'. split_and!; auto.
      destruct (decide (k ∈ s)) as [Hks|Hks]; [by destruct Hk; apply elem_of_elements|].
      assert (exists anc, ancestor_iterator f k = Ok anc /\ chain t k anc) as (anc & _ & Hc) by by eapply ancestor_iterator_ok.
      destruct (decide (nr ∈ anc)) as [Ha|Ha]; [by apply (chain_elem _ _ _ _ _ Hwf Hc) in Ha as [? _]|].
      destruct Hks. apply Hin'; [eauto|]. intros Hd. apply Ha, (chain_elem _ _ _ _ _ Hwf Hc). auto.
Qed.

Context (m' : ForkInfos) (Hm' : rooted_at m').

Lemma rooted_keep k i : m !! k = Some i -> descends t nr k -> exists i', m' !! k = Some i' /\
  fi_children i' = fi_children i /\ child_view i' = child_view i /\ status i' = status i /\
  fi_stake_voted_at i' = fi_stake_voted_at i /\ fi_stake_voted_subtree i' = fi_stake_voted_subtree i /\ fi_best_slot i' = fi_best_slot i.
Proof.
  intros Hk Hd. exists (if decide (k = nr) then set_fork_parent None i else i). split; [apply Hm'; eauto|]. by case_decide.
Qed.

Lemma rooted_inv k i' : m' !! k = Some i' -> exists i, m !! k = Some i /\ descends t nr k /\
  fi_children i' = fi_children i /\ status i' = status i /\ fi_stake_voted_at i' = fi_stake_voted_at i /\
  fi_stake_voted_subtree i' = fi_stake_voted_subtree i /\ fi_best_slot i' = fi_best_slot i /\
  (fi_parent i' = if decide (k = nr) then None else fi_parent i).
Proof. intros (i & Hi & Hd & ->)%Hm'. exists i. split_and!; auto; by case_decide. Qed.

Lemma rooted_below k : descends t nr k -> k <> nr -> nr.1 < k.1.
Proof. intros Hd Hne. by destruct (descends_slot _ _ (inv_tree _ _ _ Hinv) _ _ Hd) as [->|?]. Qed.

Lemma rooted_child k i c : m !! k = Some i -> descends t nr k -> c ∈ fi_children i -> descends t nr c /\ c <> nr.
Proof.
  intros Hk Hd Hc. assert (t !! k = Some (links i)) as Ht by (by rewrite lookup_shape, Hk).
  split; [eapply descends_trans; [exact Hd|]; by eapply (child_descends _ _ (inv_tree _ _ _ Hinv))|].
  intros ->. pose proof (child_slot _ _ (inv_tree _ _ _ Hinv) _ _ _ _ Ht Hc).
  pose proof (descends_slot_le _ _ (inv_tree _ _ _ Hinv) _ _ Hd). lia.
Qed.

Lemma rooted_wf : tree_wf (shape m') nr.
Proof.
  pose proof (inv_tree _ _ _ Hinv) as Hwf. split.
  - destruct (rooted_keep nr inr Hnr (descends_refl _ _)) as (i' & Hi' & _). destruct (rooted_inv _ _ Hi') as (i & _ & _ & _ & _ & _ & _ & _ & E).
    rewrite decide_True in E by done. exists (fi_children i'). rewrite lookup_shape, Hi'. cbn. unfold links. by rewrite E.
  - intros k po cs (i' & Hi' & <- & <-)%lookup_shape_Some Hne.
    destruct (rooted_inv _ _ Hi') as (i & Hi & Hd & _ & _ & _ & _ & _ & ->). rewrite decide_False by done.
    assert (t !! k = Some (links i)) as Ht by (by rewrite lookup_shape, Hi).
    inversion Hd as [|k' p kcs Hk Hdp]; subst; [done|]. rewrite Ht in Hk. injection Hk as Hp _.
    destruct (parent_in_tree _ _ Hwf k p (fi_children i)) as (gp & ps & Htp & Hin & Hlt); [by rewrite Ht, <- Hp|].
    apply lookup_shape_Some in Htp as (ip & Hip & _ & <-). destruct (rooted_keep p ip Hip Hdp) as (ip' & Hip' & E & _).
    exists p, (fi_parent ip'), (fi_children ip'). split_and!; [done|by rewrite lookup_shape, Hip'|by rewrite E|done].
  - intros k po cs c (i' & Hi' & <- & <-)%lookup_shape_Some Hc. destruct (rooted_inv _ _ Hi') as (i & Hi & Hd & E & _).
    rewrite E in Hc. destruct (rooted_child _ _ _ Hi Hd Hc) as [Hdc Hcn].
    destruct (wf_child _ _ Hwf k (fi_parent i) (fi_children i) c) as [ccs Hcc]; [by rewrite lookup_shape, Hi|done|].
    apply lookup_shape_Some in Hcc as (ic & Hic & Hpc & _). destruct (rooted_keep c ic Hic Hdc) as (ic' & Hic' & _).
    destruct (rooted_inv _ _ Hic') as (ic0 & Hic0 & _ & _ & _ & _ & _ & _ & Ep). rewrite decide_False in Ep by done.
    exists (fi_children ic'). rewrite lookup_shape, Hic'. cbn. unfold links. rewrite Ep. congruence.
  - intros k po cs (i' & Hi' & <- & <-)%lookup_shape_Some. destruct (rooted_inv _ _ Hi') as (i & Hi & Hd & -> & _).
    eapply (wf_children_NoDup _ _ Hwf k). by rewrite lookup_shape, Hi.
Qed.

Lemma rooted_descends a k : descends t nr a -> descends t a k -> descends (shape m') a k.
Proof.
  intros Ha. induction 1 as [|k p cs Hk Hd IH]; [constructor|].
  apply lookup_shape_Some in Hk as Hk'. destruct Hk' as (i & Hi & Hp & _).
  assert (descends t nr k) as Hdk by (eapply descends_trans; [exact Ha|by eapply descends_step]).
  destruct (rooted_keep k i Hi Hdk) as (i' & Hi' & _). destruct (rooted_inv _ _ Hi') as (i0 & Hi0 & _ & _ & _ & _ & _ & _ & E).
  assert (k <> nr) as Hne.
  { intros ->. pose proof (parent_slot _ _ (inv_tree _ _ _ Hinv) _ _ _ Hk). pose proof (descends_slot_le _ _ (inv_tree _ _ _ Hinv) _ _ Hd).
    pose proof (descends_slot_le _ _ (inv_tree _ _ _ Hinv) _ _ Ha). lia. }
  rewrite decide_False in E by done. eapply descends_step; [|exact IH]. rewrite lookup_shape, Hi'. cbn. unfold links.
  rewrite E. assert (i0 = i) as -> by congruence. by rewrite Hp.
Qed.

Lemma rooted_fc_inv : info_is_candidate inr = true -> fc_inv epoch_stakes epoch_schedule (mkForkChoice m' (latest_votes f) nr).
Proof.
  intros Hc. destruct (inv_marks _ _ _ Hinv) as [M1 M2 M3]. split; cbn.
  - apply rooted_wf.
  - intros k i' Hk. destruct (rooted_inv _ _ Hk) as (i & Hi & _ & _ & _ & -> & _). by apply (inv_range _ _ _ Hinv k).
  - intros k i' Hk. destruct (rooted_inv _ _ Hk) as (i & Hi & Hd & E1 & E2 & E3 & E4 & E5 & _).
    destruct (inv_settled _ _ _ Hinv k i Hi) as (a & Ha & H1 & H2 & H3). exists a. split.
    + unfold aggregation_start in *. rewrite E1, E3, <- Ha. apply aggregate_children_view. intros c Hcin.
      destruct (rooted_child _ _ _ Hi Hd Hcin) as [Hdc _].
      destruct (children_exist t (fc_root f) (inv_tree _ _ _ Hinv) m k i c eq_refl Hi Hcin) as [ic Hic].
      destruct (rooted_keep c ic Hic Hdc) as (ic' & -> & _ & Hv & _). rewrite Hic. cbn. by rewrite Hv.
    + unfold agrees. rewrite E4, E5, (status_candidate _ _ E2). split_and!; auto. intros Hd'. injection E2 as _ ->. auto.
  - intros k i' Hk. destruct (rooted_inv _ _ Hk) as (i & Hi & Hd & _ & _ & _ & _ & -> & _).
    apply rooted_descends; [done|]. by apply (inv_best _ _ _ Hinv).
  - split.
    + intros k i' u Hk. destruct (rooted_inv _ _ Hk) as (i & Hi & _ & _ & [= -> _] & _). by apply M1.
    + intros k i' u c ic' Hk. destruct (rooted_inv _ _ Hk) as (i & Hi & _ & -> & [= -> _] & _). intros Hu Hcin Hic'.
      destruct (rooted_inv _ _ Hic') as (ic & Hic & _ & _ & [= -> _] & _). by apply (M2 k i u c ic).
    + intros k i' Hk. destruct (rooted_inv _ _ Hk) as (i & Hi & _ & _ & [= -> ->] & _). by apply (M3 k).
  - destruct (rooted_keep nr inr Hnr (descends_refl _ _)) as (i' & Hi' & _ & _ & E & _). exists i'. split; [done|].
    by rewrite (status_candidate _ _ E).
  - intros k i' Hk. destruct (rooted_inv _ _ Hk) as (i & Hi & _ & _ & _ & -> & _). by apply (inv_votes _ _ _ Hinv).
Qed.

End set_root.

(** The new root must be a candidate of the tree. *)
Lemma fc_set_root_inv epoch_stakes epoch_schedule f nr :
  fc_inv epoch_stakes epoch_schedule f -> candidate_at (fork_infos f) nr ->
  exists f', fork_choice_set_root f nr = Ok f' /\ fc_inv epoch_stakes epoch_schedule f' /\ fc_root f' = nr /\
    latest_votes f' = latest_votes f /\
    forall k, is_Some (fork_infos f' !! k) <-> is_Some (fork_infos f !! k) /\ descends (shape (fork_infos f)) nr k.
Proof.
  intros Hinv (inr & Hnr & Hc). destruct (set_root_infos _ _ f nr inr Hinv Hnr) as (m' & Hr & Hm').
  eexists; split; [done|]. split_and!; [by eapply rooted_fc_inv|done|done|]. cbn. intros k. split.
  - intros [i' (i & ? & ? & _)%Hm']. eauto.
  - intros [[i Hi] Hd]. destruct (rooted_keep f nr m' Hm' k i Hi Hd) as (? & ? & _). eauto.
Qed.

(** ** A parent for the root *)

Section root_parent.
Context (epoch_stakes : gmap Epoch EpochStakes) (epoch_schedule : EpochSchedule).
Context (f : HeaviestSubtreeForkChoice) (rp : SlotHashKey) (ri : ForkInfo).
Context (Hinv : fc_inv epoch_stakes epoch_schedule f) (Hri : fork_infos f !! fc_root f = Some ri).
Context (Hrp : fork_infos f !! rp = None) (Hslot : rp.1 < (fc_root f).1).
Abbreviation m := (fork_infos f).
Abbreviation root := (fc_root f).

Definition root_parent_info : ForkInfo :=
  mkForkInfo 0 (fi_stake_voted_subtree ri) (fi_best_slot ri) None [root] None (fi_is_duplicate_confirmed ri).
Definition parented : ForkInfos := <[rp := root_parent_info]> (<[root := set_fork_parent (Some rp) ri]> m).

Lemma parented_rp : parented !! rp = Some root_parent_info.
Proof. apply lookup_insert_eq. Qed.

Lemma parented_root : parented !! root = Some (set_fork_parent (Some rp) ri).
Proof. unfold parented. rewrite lookup_insert_ne by congruence. apply lookup_insert_eq. Qed.

Lemma parented_other k : k <> rp -> k <> root -> parented !! k = m !! k.
Proof. intros. unfold parented. by rewrite !lookup_insert_ne. Qed.

Lemma parented_inv k i' : parented !! k = Some i' -> k <> rp -> exists i, m !! k = Some i /\ fi_children i' = fi_children i /\
  fi_stake_voted_at i' = fi_stake_voted_at i /\ fi_stake_voted_subtree i' = fi_stake_voted_subtree i /\
  fi_best_slot i' = fi_best_slot i /\ status i' = status i /\ child_view i' = child_view i /\
  (k = root /\ fi_parent i' = Some rp \/ k <> root /\ fi_parent i' = fi_parent i).
Proof.
  intros Hk Hne. destruct (decide (k = root)) as [->|Hnr].
  - rewrite parented_root in Hk. injection Hk as <-. exists ri. split_and!; auto.
  - rewrite parented_other in Hk by done. exists i'. split_and!; auto.
Qed.

Lemma parented_keep k i : m !! k = Some i -> exists i', parented !! k = Some i' /\ fi_children i' = fi_children i /\
  child_view i' = child_view i /\ (k <> root -> i' = i).
Proof.
  intros Hk. destruct (decide (k = root)) as [->|Hnr].
  - rewrite parented_root. simplify_eq. eexists; split; [done|]. by split_and!.
  - rewrite parented_other by congruence. eauto.
Qed.

Lemma root_no_parent : fi_parent ri = None.
Proof. destruct (wf_root _ _ (inv_tree _ _ _ Hinv)) as [cs Hr]. rewrite lookup_shape, Hri in Hr. by injection Hr. Qed.

Lemma parented_child k i c : m !! k = Some i -> c ∈ fi_children i -> c <> root /\ exists ic, m !! c = Some ic /\ fi_parent ic = Some k.
Proof.
  intros Hk Hc. destruct (wf_child _ _ (inv_tree _ _ _ Hinv) k (fi_parent i) (fi_children i) c) as [ccs Hcc]; [by rewrite lookup_shape, Hk|done|].
  apply lookup_shape_Some in Hcc as (ic & Hic & Hp & _). split; [|eauto]. intros ->. rewrite Hri in Hic. injection Hic as <-.
  by rewrite root_no_parent in Hp.
Qed.

Lemma parented_wf : tree_wf (shape parented) rp.
Proof.
  pose proof (inv_tree _ _ _ Hinv) as Hwf. split.
  - exists [root]. by rewrite lookup_shape, parented_rp.
  - intros k po cs (i' & Hi' & <- & <-)%lookup_shape_Some Hne. destruct (parented_inv _ _ Hi' Hne) as (i & Hi & _ & _ & _ & _ & _ & _ & [[-> E]|[Hnr E]]).
    + exists rp, None, [root]. split_and!; [done|by rewrite lookup_shape, parented_rp|left|done].
    + destruct (wf_parent _ _ Hwf k (fi_parent i) (fi_children i)) as (p & gp & ps & Hp & Htp & Hin & Hlt); [by rewrite lookup_shape, Hi|done|].
      apply lookup_shape_Some in Htp as (ip & Hip & _ & <-). destruct (parented_keep p ip Hip) as (ip' & Hip' & Ec & _).
      exists p, (fi_parent ip'), (fi_children ip'). split_and!; [congruence|by rewrite lookup_shape, Hip'|by rewrite Ec|done].
  - intros k po cs c (i' & Hi' & <- & <-)%lookup_shape_Some Hc. destruct (decide (k = rp)) as [->|Hne].
    + rewrite parented_rp in Hi'. injection Hi' as <-. apply list_elem_of_singleton in Hc as ->. eexists. by rewrite lookup_shape, parented_root.
    + destruct (parented_inv _ _ Hi' Hne) as (i & Hi & E & _). rewrite E in Hc. destruct (parented_child _ _ _ Hi Hc) as (Hcr & ic & Hic & Hp).
      destruct (parented_keep c ic Hic) as (ic' & Hic' & _ & _ & Eic). rewrite (Eic Hcr) in Hic'. exists (fi_children ic). rewrite lookup_shape, Hic'. cbn. unfold links. by rewrite Hp.
  - intros k po cs (i' & Hi' & <- & <-)%lookup_shape_Some. destruct (decide (k = rp)) as [->|Hne].
    + rewrite parented_rp in Hi'. injection Hi' as <-. apply NoDup_singleton.
    + destruct (parented_inv _ _ Hi' Hne) as (i & Hi & -> & _). eapply (wf_children_NoDup _ _ Hwf k). by rewrite lookup_shape, Hi.
Qed.

Lemma parented_descends a k : descends (shape m) a k -> descends (shape parented) a k.
Proof.
  induction 1 as [|k p cs Hk _ IH]; [constructor|]. apply lookup_shape_Some in Hk as (i & Hi & Hp & _).
  assert (k <> root) as Hne by (intros ->; rewrite Hri in Hi; injection Hi as <-; by rewrite root_no_parent in Hp).
  eapply descends_step; [|exact IH]. rewrite lookup_shape, parented_other, Hi by congruence. cbn. unfold links. by rewrite Hp.
Qed.

Lemma parented_settled k : settled parented k.
Proof.
  intros i' Hk. destruct (decide (k = rp)) as [->|Hne].
  - rewrite parented_rp in Hk. injection Hk as <-. cbn. rewrite parented_root. cbn. eexists; split; [done|].
    destruct (inv_root _ _ _ Hinv) as (ri' & Hri' & Hc). assert (ri' = ri) as -> by congruence.
    assert (in_u64 (fi_stake_voted_subtree ri)) as Hr.
    { rewrite (settled_stake_sum m root ri (inv_settled _ _ _ Hinv root) Hri (inv_range _ _ _ Hinv _ _ Hri)). apply as_u64_range. }
    unfold agrees, aggregate_child, add64.
    change (info_is_candidate (set_fork_parent (Some rp) ri)) with (info_is_candidate ri). rewrite Hc, bool_decide_true by done.
    cbn. by rewrite as_u64_small.
  - destruct (parented_inv _ _ Hk Hne) as (i & Hi & E1 & E2 & E3 & E4 & E5 & _). destruct (inv_settled _ _ _ Hinv k i Hi) as (a & Ha & H1 & H2 & H3).
    exists a. split.
    + unfold aggregation_start in *. rewrite E1, E2, <- Ha. apply aggregate_children_view. intros c Hc.
      destruct (parented_child _ _ _ Hi Hc) as (_ & ic & Hic & _). destruct (parented_keep c ic Hic) as (ic' & -> & _ & Hv & _).
      rewrite Hic. cbn. by rewrite Hv.
    + unfold agrees. rewrite E3, E4, (status_candidate _ _ E5). split_and!; auto. injection E5 as _ ->. auto.
Qed.

Lemma parented_marks : marks_ok parented.
Proof.
  destruct (inv_marks _ _ _ Hinv) as [M1 M2 M3]. split.
  - intros k i' u Hk. destruct (decide (k = rp)) as [->|Hne]; [rewrite parented_rp in Hk; by injection Hk as <-|].
    destruct (parented_inv _ _ Hk Hne) as (i & Hi & _ & _ & _ & _ & [= -> _] & _). by apply M1.
  - intros k i' u c ic' Hk. destruct (decide (k = rp)) as [->|Hne]; [rewrite parented_rp in Hk; by injection Hk as <-|].
    destruct (parented_inv _ _ Hk Hne) as (i & Hi & -> & _ & _ & _ & [= -> _] & _). intros Hu Hc Hic'.
    destruct (parented_child _ _ _ Hi Hc) as (Hcr & ic & Hic & _). destruct (parented_keep c ic Hic) as (ic2 & Hic2 & _ & _ & E).
    specialize (E Hcr). apply (M2 k i u c ic'); congruence.
  - intros k i' Hk. destruct (decide (k = rp)) as [->|Hne]; [rewrite parented_rp in Hk; by injection Hk as <-|].
    destruct (parented_inv _ _ Hk Hne) as (i & Hi & _ & _ & _ & _ & [= -> ->] & _). by apply (M3 k).
Qed.

End root_parent.

(** The parent is older than the root, new, and nobody's latest vote. *)
Lemma add_root_parent_inv epoch_stakes epoch_schedule f rp :
  fc_inv epoch_stakes epoch_schedule f -> fork_infos f !! rp = None -> rp.1 < (fc_root f).1 ->
  (forall pubkey, latest_votes f !! pubkey <> Some rp) ->
  exists f', add_root_parent f rp = Ok f' /\ fc_inv epoch_stakes epoch_schedule f' /\ fc_root f' = rp /\
    latest_votes f' = latest_votes f /\ dom (fork_infos f') = {[rp]} ∪ dom (fork_infos f).
Proof.
  intros Hinv Hrp Hslot Hnv. destruct (inv_root _ _ _ Hinv) as (ri & Hri & Hc). unfold add_root_parent, contains_block.
  rewrite bool_decide_false by (rewrite Hrp; by intros []). destruct (Z.ltb_spec rp.1 (fc_root f).1) as [_|?]; [|lia].
  cbn. rewrite Hri. cbn. eexists; split; [done|]. split_and!; [|done|done|]; last first.
  { cbn. rewrite !dom_insert_L. assert (fc_root f ∈ dom (fork_infos f)) by (apply elem_of_dom; eauto). set_solver. }
  fold (root_parent_info f ri). fold (parented f rp ri). split; cbn.
  - by eapply parented_wf.
  - intros k i' Hk. destruct (decide (k = rp)) as [->|Hne]; [rewrite parented_rp in Hk; by injection Hk as <-|].
    destruct (parented_inv f rp ri Hri Hrp _ _ Hk Hne) as (i & Hi & _ & -> & _). by apply (inv_range _ _ _ Hinv k).
  - intros k. by eapply parented_settled.
  - intros k i' Hk. destruct (decide (k = rp)) as [->|Hne].
    + rewrite parented_rp in Hk. injection Hk as <-. cbn. eapply descends_trans; [|eapply parented_descends; try done; by apply (inv_best _ _ _ Hinv (fc_root f))].
      eapply descends_step; [|constructor]. by rewrite lookup_shape, (parented_root f rp ri Hri Hrp).
    + destruct (parented_inv f rp ri Hri Hrp _ _ Hk Hne) as (i & Hi & _ & _ & _ & -> & _). eapply parented_descends; try done. by apply (inv_best _ _ _ Hinv).
  - by eapply parented_marks.
  - exists (root_parent_info f ri). split; [apply parented_rp|done].
  - intros k i' Hk. destruct (decide (k = rp)) as [->|Hne].
    + rewrite parented_rp in Hk. injection Hk as <-. cbn. unfold votes_at. rewrite (map_sum_ext _ (fun _ _ => 0)), map_sum_zero; [done|].
      intros pk v Hv. case_decide; [|done]. subst. by destruct (Hnv pk).
    + destruct (parented_inv f rp ri Hri Hrp _ _ Hk Hne) as (i & Hi & _ & -> & _). by apply (inv_votes _ _ _ Hinv).
Qed.
