(* ===== verification/ForkValidity.v ===== *)
(** * Invalid and duplicate confirmed forks

    [mark_fork_invalid_candidate] takes a subtree out of the fork choice,
    [mark_fork_valid_candidate] puts it back and confirms its ancestors. *)
From stdpp Require Import base gmap sorting sets option list.
From S2P Require Import Prelude EpochSchedule ForkChoice ForkTree ForkUpdate ForkInvariant ForkVotes.

(** ** The marks of a subtree *)

Definition is_mark (op : UpdateOperation) : Prop := exists slot, op = OpMarkValid slot \/ op = OpMarkInvalid slot.

Lemma mark_step mark ops k :
  is_mark mark -> (forall l, ops !! (k, l) = None) ->
  (do_insert_aggregate_operation ops (Some mark) k).2 = <[(k, LAggregate) := OpAggregate]> (<[(k, op_label mark) := mark]> ops).
Proof.
  intros [slot Hm] Hk. unfold do_insert_aggregate_operation. rewrite Hk, bool_decide_false by (by intros []). by destruct Hm as [->| ->].
Qed.

Lemma fold_marks_lookup mark keys ops k l :
  is_mark mark -> NoDup keys -> (forall k l, k ∈ keys -> ops !! (k, l) = None) ->
  foldl (fun ops key => (do_insert_aggregate_operation ops (Some mark) key).2) ops keys !! (k, l) =
  if decide (k ∈ keys) then if decide (l = LAggregate) then Some OpAggregate else if decide (l = op_label mark) then Some mark else None
  else ops !! (k, l).
Proof.
  intros Hm. revert ops. induction keys as [|x keys IH]; intros ops Hnd Hops; cbn.
  - by rewrite decide_False by apply not_elem_of_nil.
  - apply NoDup_cons in Hnd as [Hx Hnd]. rewrite (mark_step _ _ _ Hm) by (intros; apply Hops; left). rewrite IH; [|done|].
    + destruct (decide (k = x)) as [->|Hne].
      * rewrite decide_False by done. rewrite decide_True by left. destruct (decide (l = LAggregate)) as [->|Hl]; [by rewrite lookup_insert_eq|].
        rewrite lookup_insert_ne by congruence. destruct (decide (l = op_label mark)) as [->|]; [by rewrite lookup_insert_eq|].
        rewrite lookup_insert_ne by congruence. apply Hops. left.
      * rewrite !lookup_insert_ne by congruence. apply decide_ext. rewrite elem_of_cons. naive_solver.
    + intros k' l' Hk'. rewrite !lookup_insert_ne by (intros [= -> _]; done). apply Hops. by right.
Qed.

Lemma insert_marks_lookup mark s k l : is_mark mark ->
  insert_marks mark s !! (k, l) =
  if decide (k ∈ s) then if decide (l = LAggregate) then Some OpAggregate else if decide (l = op_label mark) then Some mark else None
  else None.
Proof.
  intros Hm. unfold insert_marks. rewrite fold_marks_lookup; [|done|apply NoDup_elements|by intros; apply lookup_empty].
  rewrite lookup_empty. apply decide_ext, elem_of_elements.
Qed.

Lemma insert_marks_delta mark s k : is_mark mark -> ops_delta (insert_marks mark s) k = 0.
Proof.
  intros Hm. unfold ops_delta. rewrite <- (map_sum_zero (insert_marks mark s)). apply map_sum_ext. intros [k' l] op.
  rewrite insert_marks_lookup by done. unfold op_delta. cbn. destruct Hm as [slot [->| ->]]; repeat case_decide; naive_solver.
Qed.

Section marks.
Context (f : HeaviestSubtreeForkChoice) (root v : SlotHashKey) (mark : UpdateOperation) (s : gset SlotHashKey).
Abbreviation t := (shape (fork_infos f)).
Context (Hwf : tree_wf t root) (Hmark : is_mark mark) (Hs : forall k, k ∈ s <-> descends t v k) (Hv : is_Some (t !! v)).

Lemma insert_marks_ok : ops_ok t (insert_marks mark s) (Some v).
Proof.
  split.
  - intros [k l] op. rewrite insert_marks_lookup by done. repeat case_decide; naive_solver.
  - intros k l op p cs. rewrite !insert_marks_lookup by done. destruct (decide (k ∈ s)) as [Hk|]; [|done].
    intros _ Hne Hkt. rewrite decide_True, decide_True; [done..|]. apply Hs. apply Hs in Hk.
    eapply (descends_child t); [done|done|congruence].
  - intros k l op. rewrite !insert_marks_lookup by done. destruct (decide (k ∈ s)); [|done]. intros. by rewrite decide_True.
Qed.

(** The batch: the marks of the subtree and the aggregation of the ancestors. *)
Lemma mark_batch_ok : exists ops anc, insert_aggregate_operations f (insert_marks mark s) v = Ok ops /\ chain t v anc /\
  ops_ok t ops None /\ (forall k, ops_delta ops k = 0) /\
  (forall k l op, ops !! (k, l) = Some op -> l <> LAggregate -> k ∈ s /\ l = op_label mark) /\
  (forall k, k ∈ s -> ops !! (k, op_label mark) = Some mark) /\
  (forall k op, ops !! (k, LAggregate) = Some op -> k ∈ s \/ k ∈ anc) /\
  (forall k, k ∈ anc -> is_Some (ops !! (k, LAggregate))).
Proof.
  destruct (insert_aggregate_operations_ok f root (insert_marks mark s) v Hwf insert_marks_ok) as (ops & anc & Hi & Hc & Hok & G).
  assert (op_label mark <> LAggregate) as Hl by (destruct Hmark as [slot [->| ->]]; done).
  exists ops, anc. split_and!; auto.
  - intros k. rewrite (gr_delta _ _ _ G). by apply insert_marks_delta.
  - intros k l op Hk Hne. rewrite (gr_other _ _ _ G), insert_marks_lookup in Hk by done. repeat case_decide; naive_solver.
  - intros k Hk. rewrite (gr_other _ _ _ G), insert_marks_lookup by done. by rewrite decide_True, decide_False, decide_True.
  - intros k op Hk. destruct (gr_new _ _ _ G k op Hk) as [[o Ho]|?]; [|by right]. rewrite insert_marks_lookup in Ho by done.
    case_decide; [by left|done].
  - assert (exists l op, ops !! (v, l) = Some op) as Hvo.
    { exists (op_label mark), mark. rewrite (gr_other _ _ _ G), insert_marks_lookup by done.
      rewrite decide_True, decide_False, decide_True; try done. apply Hs. constructor. }
    clear -Hok Hc Hvo. induction Hc as [x Hx|x p l Hx Hc IH]; [by intros k ?%not_elem_of_nil|].
    apply bind_Some in Hx as ([po cs] & Hx & Hp). cbn in Hp. subst po. destruct Hvo as (lb & op & Hvo).
    assert (ops !! (p, LAggregate) = Some OpAggregate) as Hp by (eapply (ok_parents _ _ _ Hok); [exact Hvo|done|exact Hx]).
    intros k [->|Hk]%elem_of_cons; eauto.
Qed.

End marks.

(** [subtree_diff] with the default key finds the whole subtree of a block. *)
Lemma subtree_whole f root v :
  tree_wf (shape (fork_infos f)) root -> is_Some (shape (fork_infos f) !! v) -> 0 <= v.1 -> v <> SlotHashKey_default ->
  exists s, subtree_diff f v SlotHashKey_default = Ok s /\ forall k, k ∈ s <-> descends (shape (fork_infos f)) v k.
Proof.
  intros Hwf Hv H0 Hd. destruct (subtree_diff_ok f root SlotHashKey_default Hwf v Hv) as (s & Hs & Hin).
  exists s. split; [done|]. intros k. rewrite Hin. unfold reached. split; [by intros [? _]|]. intros Hdk. split; [done|].
  intros [[->|Hlt]%(descends_slot _ _ Hwf) _]; [done|]. cbn in Hlt. lia.
Qed.

Section validity.
Context (epoch_stakes : gmap Epoch EpochStakes) (epoch_schedule : EpochSchedule).
Context (f : HeaviestSubtreeForkChoice) (Hinv : fc_inv epoch_stakes epoch_schedule f).
Abbreviation m := (fork_infos f).
Abbreviation t := (shape (fork_infos f)).

Lemma status_at_lookup k i : m !! k = Some i -> status_at m k = status i.
Proof. intros Hk. unfold status_at. by rewrite Hk. Qed.

(** In a settled tree a confirmed child confirms its parent. *)
Lemma confirmed_children k po cs : t !! k = Some (po, cs) -> existsb (fun c => (status_at m c).2) cs = true ->
  status_at m k = (None, true).
Proof.
  intros Hk Hex. apply existsb_exists in Hex as (c & Hc%list_elem_of_In & Hd). apply lookup_shape_Some in Hk as (i & Hi & _ & <-).
  destruct (children_exist _ _ (inv_tree _ _ _ Hinv) _ _ _ _ eq_refl Hi Hc) as [ic Hic].
  rewrite (status_at_lookup _ _ Hic) in Hd. rewrite (status_at_lookup _ _ Hi). cbn in Hd.
  pose proof (settled_confirmed _ _ _ _ _ (inv_settled _ _ _ Hinv k) Hi Hc Hic Hd) as Hconf.
  unfold status. by rewrite Hconf, (mk_confirmed _ (inv_marks _ _ _ Hinv) _ _ Hi Hconf).
Qed.

(** From the new status of the nodes to the invariant. *)
Lemma marked_inv m' (st1 : SlotHashKey -> Status) :
  shape m' = t -> stakes_in_range m' -> (forall k, settled m' k) -> best_descends m' ->
  (forall k i', m' !! k = Some i' -> exists i, m !! k = Some i /\ status i' = st1 k /\ fi_stake_voted_at i' = fi_stake_voted_at i) ->
  (forall k i u, m !! k = Some i -> (st1 k).1 = Some u -> u <= k.1) ->
  (forall k i c u, m !! k = Some i -> (st1 k).1 = Some u -> c ∈ fi_children i -> exists w, (st1 c).1 = Some w /\ u <= w) ->
  (forall k i, m !! k = Some i -> (st1 k).2 = true -> (st1 k).1 = None) ->
  (st1 (fc_root f)).1 = None ->
  fc_inv epoch_stakes epoch_schedule (set_fork_infos m' f).
Proof.
  intros Hsh Hr Hs Hb Hpre H1 H2 H3 H4. split; cbn; auto.
  - rewrite Hsh. apply Hinv.
  - split.
    + intros k i' u Hk Hu. destruct (Hpre _ _ Hk) as (i & Hi & E & _). eapply H1; [done|]. by rewrite <- E.
    + intros k i' u c ic' Hk Hu Hc Hic'. destruct (Hpre _ _ Hk) as (i & Hi & E & _). destruct (Hpre _ _ Hic') as (ic & Hic & Ec & _).
      assert (fi_children i' = fi_children i) as Hch.
      { pose proof (lookup_shape m' k) as E1. rewrite Hsh, lookup_shape, Hi, Hk in E1. by injection E1. }
      destruct (H2 k i c u Hi) as (w & Hw & ?); [by rewrite <- E|by rewrite <- Hch|]. exists w. split; [|done]. by rewrite <- Ec in Hw.
    + intros k i' Hk Hd. destruct (Hpre _ _ Hk) as (i & Hi & E & _). specialize (H3 k i Hi). rewrite <- E in H3. by apply H3.
  - destruct (inv_root _ _ _ Hinv) as (ri & Hri & _). assert (is_Some (m' !! fc_root f)) as [ri' Hri'].
    { rewrite <- (fmap_is_Some links), <- lookup_shape, Hsh, lookup_shape, Hri. eauto. }
    exists ri'. split; [done|]. destruct (Hpre _ _ Hri') as (i & _ & E & _). rewrite <- E in H4. cbn in H4.
    unfold info_is_candidate. by rewrite H4.
  - intros k i' Hk. destruct (Hpre _ _ Hk) as (i & Hi & _ & ->). by apply (inv_votes _ _ _ Hinv).
Qed.

(** ** Invalid forks *)

Section invalid.
Context (v : SlotHashKey) (s : gset SlotHashKey) (Hs : forall k, k ∈ s <-> descends t v k).

Definition invalidated (k : SlotHashKey) : Status :=
  if decide (k ∈ s) then invalid_status v.1 (status_at m k) else status_at m k.

Lemma invalidated_confirmed k : (invalidated k).2 = (status_at m k).2.
Proof. unfold invalidated. by case_decide. Qed.

Lemma invalid_not_confirmed iv k : m !! v = Some iv -> fi_is_duplicate_confirmed iv = false -> is_Some (m !! k) -> k ∈ s -> (status_at m k).2 = false.
Proof.
  intros Hv Hd [i Hi] Hk%Hs. rewrite (status_at_lookup _ _ Hi). cbn. destruct (fi_is_duplicate_confirmed i) eqn:E; [|done].
  destruct (confirmed_ancestor m t (fc_root f) v k i (inv_tree _ _ _ Hinv) eq_refl (inv_settled _ _ _ Hinv) Hk Hi E) as (? & ? & ?). congruence.
Qed.

Lemma invalid_plan iv ops :
  m !! v = Some iv -> fi_is_duplicate_confirmed iv = false ->
  (forall k l op, ops !! (k, l) = Some op -> l <> LAggregate -> k ∈ s /\ l = LMarkInvalid v.1) ->
  plan t (status_at m) invalidated (fun k => if decide (k ∈ s) then LMarkInvalid v.1 else LAggregate) (reverse (btree_iter ops)).
Proof.
  intros Hv Hd Hops. split.
  - intros k. case_decide; by intros [|].
  - intros k slot op Hin%btree_iter_elem _. by destruct (Hops _ _ _ Hin) as [_ ?].
  - intros k slot op Hin%btree_iter_elem Hk. destruct (Hops _ _ _ Hin) as [Hks [= ->]]; [done|].
    unfold invalidated. rewrite !decide_True by done. split_and!; [done| |done]. eapply invalid_not_confirmed; [done..| |done].
    rewrite lookup_shape in Hk. by apply fmap_is_Some in Hk.
  - intros k op po cs _ Hk. rewrite (existsb_ext_elem _ (fun c => (status_at m c).2)) by (intros; apply invalidated_confirmed).
    destruct (existsb _ cs) eqn:E.
    + pose proof (confirmed_children _ _ _ Hk E) as Hst. unfold invalidated. case_decide as Hks; [|done].
      apply lookup_shape_Some in Hk as (i & Hi & _).
      pose proof (invalid_not_confirmed iv k Hv Hd ltac:(eauto) Hks) as Hnc. by rewrite Hst in Hnc.
    + unfold invalidated. repeat case_decide; done.
Qed.

Lemma invalid_child k i c : m !! k = Some i -> c ∈ fi_children i -> k ∈ s -> c ∈ s.
Proof.
  intros Hk Hc Hks%Hs. apply Hs. eapply descends_trans; [exact Hks|].
  eapply (child_descends _ _ (inv_tree _ _ _ Hinv) k); [|exact Hc]. by rewrite lookup_shape, Hk.
Qed.

Lemma invalidated_inv m' :
  v <> fc_root f -> shape m' = t -> stakes_in_range m' -> (forall k, settled m' k) -> best_descends m' ->
  (forall k i', m' !! k = Some i' -> exists i, m !! k = Some i /\ status i' = invalidated k /\ fi_stake_voted_at i' = fi_stake_voted_at i) ->
  (forall k, is_Some (m !! k) -> k ∈ s -> (status_at m k).2 = false) ->
  fc_inv epoch_stakes epoch_schedule (set_fork_infos m' f).
Proof.
  intros Hvr Hsh Hr Hset Hb Hpre Hnc. destruct (inv_marks _ _ _ Hinv) as [M1 M2 M3].
  apply (marked_inv m' invalidated); auto; unfold invalidated.
  - intros k i u Hk. pose proof (M1 k i) as M1k. rewrite (status_at_lookup _ _ Hk). case_decide as Hks; [|by apply M1k].
    apply Hs, (descends_slot_le _ _ (inv_tree _ _ _ Hinv)) in Hks. cbn. intros [= <-].
    destruct (fi_latest_invalid_ancestor i) as [w|]; [specialize (M1k w Hk eq_refl); lia|done].
  - intros k i c u Hk. rewrite (status_at_lookup _ _ Hk). intros Hu Hc.
    destruct (children_exist _ _ (inv_tree _ _ _ Hinv) _ _ _ _ eq_refl Hk Hc) as [ic Hic]. rewrite (status_at_lookup _ _ Hic).
    pose proof (M2 k i) as M2k. destruct (decide (k ∈ s)) as [Hks|Hks].
    + rewrite decide_True by by apply (invalid_child k i c). cbn in *. injection Hu as <-. eexists; split; [done|].
      destruct (fi_latest_invalid_ancestor i) as [w|].
      * destruct (M2k w c ic Hk eq_refl Hc Hic) as (w' & -> & ?). lia.
      * destruct (fi_latest_invalid_ancestor ic); lia.
    + destruct (M2k u c ic Hk Hu Hc Hic) as (w' & E & ?). case_decide; cbn; rewrite E; (eexists; split; [done|lia]).
  - intros k i Hk. specialize (Hnc k ltac:(eauto)). rewrite (status_at_lookup _ _ Hk) in *. case_decide as Hks.
    + cbn in *. intros Hd. rewrite Hnc in Hd by done. done.
    + by apply (M3 k).
  - rewrite decide_False.
    + destruct (inv_root _ _ _ Hinv) as (ri & Hri & Hc). rewrite (status_at_lookup _ _ Hri). unfold info_is_candidate in Hc. cbn.
      by destruct (fi_latest_invalid_ancestor ri).
    + intros Hks%Hs. apply Hvr. apply (descends_antisym _ _ (inv_tree _ _ _ Hinv)); [done|].
      apply (descends_root _ _ (inv_tree _ _ _ Hinv)). eapply (descends_in_tree _ _ (inv_tree _ _ _ Hinv)); [|exact Hks].
      destruct (wf_root _ _ (inv_tree _ _ _ Hinv)). eauto.
Qed.

End invalid.

(** Marking a block invalid that is not the root nor duplicate confirmed. *)
Lemma mark_invalid_inv v iv :
  m !! v = Some iv -> fi_is_duplicate_confirmed iv = false -> v <> fc_root f -> 0 <= v.1 -> v <> SlotHashKey_default ->
  exists f', mark_fork_invalid_candidate f v = Ok f' /\ fc_inv epoch_stakes epoch_schedule f' /\
    fc_root f' = fc_root f /\ latest_votes f' = latest_votes f /\ shape (fork_infos f') = t /\
    forall k i', fork_infos f' !! k = Some i' -> exists i, m !! k = Some i /\
      ((descends t v k /\ status i' = invalid_status v.1 (status i)) \/ (~ descends t v k /\ status i' = status i)).
Proof.
  intros Hv Hd Hvr H0 Hdef. pose proof (inv_tree _ _ _ Hinv) as Hwf.
  assert (is_Some (t !! v)) as Htv by (rewrite lookup_shape, Hv; eauto).
  destruct (subtree_whole f (fc_root f) v Hwf Htv H0 Hdef) as (s & Hsd & Hs).
  destruct (mark_batch_ok f (fc_root f) v (OpMarkInvalid v.1) s Hwf ltac:(eexists; eauto) Hs) as (ops & anc & Hops & _ & Hok & Hdel & Hl & Hmk & _ & _).
  unfold mark_fork_invalid_candidate. rewrite Hv, Hd, Hsd. cbn. rewrite Hops. cbn. unfold process_update_operations.
  destruct (process_batch_ok m (fc_root f) ops (invalidated v s) (fun k => if decide (k ∈ s) then LMarkInvalid v.1 else LAggregate))
    as (m' & -> & Hsh & Hr & Hset & Hb & Hpre); try apply Hinv; [done|by eapply invalid_plan| |].
  { intros k _. unfold invalidated. destruct (decide (k ∈ s)) as [Hks|]; [|done]. pose proof (Hmk k Hks) as E. cbn in E. congruence. }
  assert (forall k i', m' !! k = Some i' -> exists i, m !! k = Some i /\ status i' = invalidated v s k /\ fi_stake_voted_at i' = fi_stake_voted_at i) as Hpre'.
  { intros k i' Hk. destruct (Hpre _ _ Hk) as (i & Hi & E & Ea). exists i. split_and!; auto. rewrite Ea, Hdel, Z.add_0_r, as_u64_small; [done|].
    by apply (inv_range _ _ _ Hinv k). }
  cbn. eexists; split; [done|]. split_and!; auto.
  - eapply invalidated_inv; eauto. intros k Hk Hks. by eapply invalid_not_confirmed.
  - intros k i' Hk. destruct (Hpre' k i' Hk) as (i & Hi & E & _). exists i. split; [done|]. unfold invalidated in E.
    rewrite (status_at_lookup _ _ Hi) in E. case_decide as Hks; [left; by rewrite Hs in Hks|right; by rewrite Hs in Hks].
Qed.

(** ** Valid forks *)

Section valid.
Context (v : SlotHashKey) (s : gset SlotHashKey) (anc : list SlotHashKey).
Context (Hs : forall k, k ∈ s <-> descends t v k) (Hanc : forall k, k ∈ anc <-> descends t k v /\ k <> v).

Definition validated (k : SlotHashKey) : Status :=
  if decide (k ∈ s) then valid_status k v.1 (status_at m k)
  else if decide (k ∈ anc) then (None, true) else status_at m k.

Lemma valid_disjoint k : k ∈ s -> k ∈ anc -> False.
Proof. intros H1%Hs [H2 Hne]%Hanc. by apply Hne, (descends_antisym _ _ (inv_tree _ _ _ Hinv)). Qed.

Lemma valid_below k : k ∈ s -> k <> v -> k.1 =? v.1 = false.
Proof. intros Hk%Hs Hne. destruct (descends_slot _ _ (inv_tree _ _ _ Hinv) _ _ Hk) as [->|?]; [done|]. apply Z.eqb_neq. lia. Qed.

Lemma validated_v : (validated v).2 = true.
Proof. unfold validated. rewrite decide_True by (apply Hs; constructor). cbn. by rewrite Z.eqb_refl. Qed.

(** Below [v] the children are confirmed as before. *)
Lemma validated_child_below k i c : m !! k = Some i -> k ∈ s -> c ∈ fi_children i -> (validated c).2 = (status_at m c).2.
Proof.
  intros Hk Hks Hc. assert (t !! k = Some (links i)) as Ht by (by rewrite lookup_shape, Hk).
  pose proof (child_slot _ _ (inv_tree _ _ _ Hinv) _ _ _ _ Ht Hc).
  unfold validated. rewrite decide_True by by apply (invalid_child v s Hs k i c). cbn. rewrite valid_below; [done|by apply (invalid_child v s Hs k i c)|].
  intros ->. apply Hs, (descends_slot_le _ _ (inv_tree _ _ _ Hinv)) in Hks. lia.
Qed.

(** Every proper ancestor of [v] has a child that becomes confirmed. *)
Lemma validated_ancestor k po cs : t !! k = Some (po, cs) -> k ∈ anc -> existsb (fun c => (validated c).2) cs = true.
Proof.
  intros Hk [Hd Hne]%Hanc. destruct (descends_via_child _ _ (inv_tree _ _ _ Hinv) _ _ _ _ Hk Hd) as (c & Hc & Hcv); [done|].
  apply existsb_exists. exists c. split; [by apply list_elem_of_In|]. destruct (decide (c = v)) as [->|Hcne]; [apply validated_v|].
  assert (c ∈ anc) as Hca by (by apply Hanc). unfold validated. rewrite decide_False by (intros ?; by eapply valid_disjoint).
  by rewrite decide_True.
Qed.

Lemma valid_plan ops :
  (forall k l op, ops !! (k, l) = Some op -> l <> LAggregate -> k ∈ s /\ l = LMarkValid v.1) ->
  (forall k op, ops !! (k, LAggregate) = Some op -> k ∈ s \/ k ∈ anc) ->
  plan t (status_at m) validated (fun k => if decide (k ∈ s) then LMarkValid v.1 else LAggregate) (reverse (btree_iter ops)).
Proof.
  intros Hops Hagg. split.
  - intros k. case_decide; by intros [|].
  - intros k slot op Hin%btree_iter_elem _. destruct (Hops _ _ _ Hin) as [Hks [= ->]]; [done|].
    unfold validated. by rewrite !decide_True.
  - intros k slot op Hin%btree_iter_elem _. by destruct (Hops _ _ _ Hin) as [_ ?].
  - intros k op po cs Hin%btree_iter_elem Hk. destruct (decide (k ∈ s)) as [Hks|Hks].
    + apply lookup_shape_Some in Hk as Hk'. destruct Hk' as (i & Hi & _ & <-).
      rewrite (existsb_ext_elem _ (fun c => (status_at m c).2)) by (intros; by eapply validated_child_below).
      destruct (existsb _ _) eqn:E; [|done]. unfold validated. rewrite decide_True by done.
      rewrite (confirmed_children _ _ _ Hk E). unfold valid_status. cbn. by rewrite orb_true_r.
    + destruct (Hagg k op Hin) as [?|Ha]; [done|]. rewrite (validated_ancestor _ _ _ Hk Ha). unfold validated.
      by rewrite decide_False, decide_True.
Qed.

Lemma valid_parent k i c : m !! k = Some i -> c ∈ fi_children i -> k ∉ s -> k ∉ anc -> c ∉ s /\ c ∉ anc.
Proof.
  intros Hk Hc Hks Hka. destruct (wf_child _ _ (inv_tree _ _ _ Hinv) k (fi_parent i) (fi_children i) c) as [ccs Hcc]; [by rewrite lookup_shape, Hk|done|].
  pose proof (parent_slot _ _ (inv_tree _ _ _ Hinv) _ _ _ Hcc). split.
  - intros Hcs%Hs. destruct (decide (c = v)) as [->|Hcv].
    + apply Hka, Hanc. split; [eapply descends_step; [exact Hcc|constructor]|intros ->; lia].
    + apply Hks, Hs. eapply descends_child; [exact Hcc|done|congruence].
  - intros [Hd Hne]%Hanc. apply Hka, Hanc. split.
    + eapply descends_trans; [|exact Hd]. eapply descends_step; [exact Hcc|constructor].
    + intros ->. apply (descends_slot_le _ _ (inv_tree _ _ _ Hinv)) in Hd. lia.
Qed.

Lemma validated_inv m' :
  shape m' = t -> stakes_in_range m' -> (forall k, settled m' k) -> best_descends m' ->
  (forall k i', m' !! k = Some i' -> exists i, m !! k = Some i /\ status i' = validated k /\ fi_stake_voted_at i' = fi_stake_voted_at i) ->
  is_Some (t !! v) -> fc_inv epoch_stakes epoch_schedule (set_fork_infos m' f).
Proof.
  intros Hsh Hr Hset Hb Hpre Hv. destruct (inv_marks _ _ _ Hinv) as [M1 M2 M3].
  assert (forall k i u, m !! k = Some i -> (validated k).1 = Some u ->
    fi_latest_invalid_ancestor i = Some u /\ k ∉ anc /\ (k ∈ s -> v.1 < u)) as Hst.
  { intros k i u Hk. unfold validated. rewrite (status_at_lookup _ _ Hk). destruct (decide (k ∈ s)) as [Hks|Hks].
    - cbn. destruct (fi_latest_invalid_ancestor i) as [w|]; [|done]. destruct (Z.leb_spec w v.1); [done|].
      intros [= <-]. split_and!; [done|intros ?; by eapply valid_disjoint|done].
    - destruct (decide (k ∈ anc)); [done|]. cbn. done. }
  apply (marked_inv m' validated); auto.
  - intros k i u Hk Hu. destruct (Hst k i u Hk Hu) as (E & _). by eapply M1.
  - intros k i c u Hk Hu Hc. destruct (Hst k i u Hk Hu) as (E & Hka & Hks).
    destruct (children_exist _ _ (inv_tree _ _ _ Hinv) _ _ _ _ eq_refl Hk Hc) as [ic Hic].
    destruct (M2 k i u c ic Hk E Hc Hic) as (w & Hw & ?). exists w. split; [|done]. unfold validated. rewrite (status_at_lookup _ _ Hic).
    destruct (decide (k ∈ s)) as [Hk'|Hk'].
    + rewrite decide_True by by apply (invalid_child v s Hs k i c). cbn. rewrite Hw. specialize (Hks Hk').
      destruct (Z.leb_spec w v.1); [lia|done].
    + destruct (valid_parent k i c Hk Hc Hk' Hka). by rewrite !decide_False.
  - intros k i Hk Hd. destruct (validated k).1 as [u|] eqn:Hu; [|done]. destruct (Hst k i u Hk Hu) as (E & Hka & Hks). exfalso.
    unfold validated in Hd. rewrite (status_at_lookup _ _ Hk) in Hd. pose proof (M3 k i Hk) as M3k. destruct (decide (k ∈ s)) as [Hk'|Hk'].
    + specialize (Hks Hk'). cbn in Hd. apply orb_true_iff in Hd as [Hd%Z.eqb_eq|Hd]; [|by rewrite M3k in E].
      pose proof (M1 k i u Hk E). lia.
    + rewrite decide_False in Hd by done. cbn in Hd. by rewrite M3k in E.
  - destruct (inv_root _ _ _ Hinv) as (ri & Hri & Hc). destruct (validated (fc_root f)).1 as [u|] eqn:Hu; [|done].
    destruct (Hst _ _ _ Hri Hu) as (E & _). unfold info_is_candidate in Hc. by rewrite E in Hc.
Qed.

End valid.

Lemma not_duplicate_confirmed_ok keys : (forall k, k ∈ keys -> is_Some (m !! k)) ->
  not_duplicate_confirmed f keys = Ok (filter (fun k => (status_at m k).2 = false) keys).
Proof.
  induction keys as [|k keys IH]; intros Hin; [done|]. destruct (Hin k) as [i Hi]; [left|].
  rewrite filter_cons, (status_at_lookup _ _ Hi). cbn [not_duplicate_confirmed]. unfold is_duplicate_confirmed.
  rewrite Hi, IH by (intros; apply Hin; by right). unfold status. cbn [fmap option_fmap option_map unwrap mbind outcome_bind snd].
  by destruct (fi_is_duplicate_confirmed i).
Qed.

(** Marking a block valid. *)
Lemma mark_valid_inv v :
  is_Some (m !! v) -> 0 <= v.1 -> v <> SlotHashKey_default ->
  exists f' newly anc, mark_fork_valid_candidate f v = Ok (f', newly) /\ fc_inv epoch_stakes epoch_schedule f' /\
    fc_root f' = fc_root f /\ latest_votes f' = latest_votes f /\ shape (fork_infos f') = t /\ chain t v anc /\
    newly = filter (fun k => (status_at m k).2 = false) (v :: anc) /\
    forall k i', fork_infos f' !! k = Some i' -> exists i, m !! k = Some i /\
      ((descends t v k /\ status i' = valid_status k v.1 (status i)) \/
       (descends t k v /\ k <> v /\ status i' = (None, true)) \/
       (~ descends t v k /\ ~ descends t k v /\ status i' = status i)).
Proof.
  intros Hmv H0 Hdef. pose proof (inv_tree _ _ _ Hinv) as Hwf.
  assert (is_Some (t !! v)) as Htv by (rewrite lookup_shape; by apply fmap_is_Some).
  destruct (ancestor_iterator_ok f (fc_root f) v Hwf) as (anc & Hai & Hc).
  pose proof (fun a => chain_elem _ _ _ _ a Hwf Hc) as Hanc.
  destruct (subtree_whole f (fc_root f) v Hwf Htv H0 Hdef) as (s & Hsd & Hs).
  destruct (mark_batch_ok f (fc_root f) v (OpMarkValid v.1) s Hwf ltac:(eexists; eauto) Hs)
    as (ops & anc' & Hops & Hc' & Hok & Hdel & Hl & Hmk & Hag & Hag').
  pose proof (fun a => chain_elem _ _ _ _ a Hwf Hc') as Hanc'.
  unfold mark_fork_valid_candidate. rewrite Hai. cbn [mbind outcome_bind]. rewrite not_duplicate_confirmed_ok; last first.
  { intros k [->|[Hd _]%Hanc]%elem_of_cons; [done|]. pose proof (descends_in_tree _ _ Hwf _ _ Htv Hd) as Hk.
    rewrite lookup_shape in Hk. by apply fmap_is_Some in Hk. }
  cbn [mbind outcome_bind]. rewrite Hsd. cbn [mbind outcome_bind]. rewrite Hops. cbn [mbind outcome_bind]. unfold process_update_operations.
  destruct (process_batch_ok m (fc_root f) ops (validated v s anc) (fun k => if decide (k ∈ s) then LMarkValid v.1 else LAggregate))
    as (m' & -> & Hsh & Hr & Hset & Hb & Hpre); try apply Hinv; [done| | |].
  { apply valid_plan; auto. intros k op Hk. rewrite Hanc, <- Hanc'. eauto. }
  { intros k _. unfold validated. destruct (decide (k ∈ s)) as [Hks|]; [pose proof (Hmk k Hks) as E; cbn in E; congruence|].
    intros E. rewrite decide_False; [done|]. rewrite Hanc, <- Hanc'. intros Hk%Hag'. rewrite E in Hk. by destruct Hk. }
  assert (forall k i', m' !! k = Some i' -> exists i, m !! k = Some i /\ status i' = validated v s anc k /\ fi_stake_voted_at i' = fi_stake_voted_at i) as Hpre'.
  { intros k i' Hk. destruct (Hpre _ _ Hk) as (i & Hi & E & Ea). exists i. split_and!; auto. rewrite Ea, Hdel, Z.add_0_r, as_u64_small; [done|].
    by apply (inv_range _ _ _ Hinv k). }
  exists (set_fork_infos m' f), (filter (fun k => (status_at m k).2 = false) (v :: anc)), anc. split; [done|]. split_and!; auto.
  - apply (validated_inv v s anc Hs Hanc m'); auto.
  - intros k i' Hk. destruct (Hpre' k i' Hk) as (i & Hi & E & _). exists i. split; [done|]. unfold validated in E.
    rewrite (status_at_lookup _ _ Hi) in E. destruct (decide (k ∈ s)) as [Hks|Hks]; rewrite Hs in Hks; [by left|].
    destruct (decide (k ∈ anc)) as [Ha|Ha]; rewrite Hanc in Ha; [right; left; tauto|]. right. right. split_and!; auto.
    intros Hd. apply Ha. split; [done|]. intros ->. apply Hks. constructor.
Qed.

End validity.
