(* ===== verification/ForkChoiceSpec.v ===== *)
(** * What the fork choice computes

    The tree starts from a root and evolves by the operations of
    [HeaviestSubtreeForkChoice]. In every state it can reach, the stake of a
    subtree is the stake of the validators whose latest vote lies in it, and
    the best slot of a candidate is found by walking down its heaviest
    candidate children. *)
From stdpp Require Import base gmap sorting sets option list.
From S2P Require Import Prelude EpochSchedule ForkChoice ForkTree ForkUpdate ForkInvariant ForkVotes ForkLeaf ForkRoot ForkValidity.

Section spec.
Context (epoch_stakes : gmap Epoch EpochStakes) (epoch_schedule : EpochSchedule).
Abbreviation stake := (stake_at epoch_stakes epoch_schedule).
Implicit Types f other : HeaviestSubtreeForkChoice.

(** ** Operations *)

Inductive fc_event : Type :=
| AddLeaf (key parent : SlotHashKey)
| AddVotes (pubkey_votes : list (Pubkey * SlotHashKey))
| SetRoot (new_root : SlotHashKey)
| AddRootParent (root_parent : SlotHashKey)
| MarkInvalid (key : SlotHashKey)
| MarkValid (key : SlotHashKey)
| Merge (other : HeaviestSubtreeForkChoice) (merge_leaf : SlotHashKey).

Definition fc_apply f (ev : fc_event) : outcome fuel_error HeaviestSubtreeForkChoice :=
  match ev with
  | AddLeaf key parent => add_new_leaf_slot f key (Some parent)
  | AddVotes pubkey_votes => '(f, _) ← add_votes epoch_stakes epoch_schedule f pubkey_votes; Ok f
  | SetRoot new_root => fork_choice_set_root f new_root
  | AddRootParent root_parent => add_root_parent f root_parent
  | MarkInvalid key => mark_fork_invalid_candidate f key
  | MarkValid key => '(f, _) ← mark_fork_valid_candidate f key; Ok f
  | Merge other merge_leaf => merge epoch_stakes epoch_schedule f other merge_leaf
  end.

Definition unvoted f (key : SlotHashKey) : Prop := forall pubkey, latest_votes f !! pubkey <> Some key.

(** What the callers guarantee: parents are older and known, votes are cast on
    blocks already in the tree, the root is a candidate, a block that is marked
    exists, and a root or a duplicate confirmed block is not marked invalid. *)
Definition fc_guard f (ev : fc_event) : Prop :=
  match ev with
  | AddLeaf key parent => contains_block f parent = true /\ parent.1 < key.1 /\ (contains_block f key = false -> unvoted f key)
  | AddVotes pubkey_votes => NoDup pubkey_votes.*1
  | SetRoot new_root => is_candidate f new_root = Some true
  | AddRootParent root_parent => root_parent.1 < (fc_root f).1 /\ contains_block f root_parent = false /\ unvoted f root_parent
  | MarkInvalid key =>
      is_duplicate_confirmed f key <> Some true /\ key <> fc_root f /\ 0 <= key.1 /\ key <> SlotHashKey_default
  | MarkValid key => contains_block f key = true /\ 0 <= key.1 /\ key <> SlotHashKey_default
  | Merge other merge_leaf =>
      contains_block f merge_leaf = true /\ merge_leaf.1 < (fc_root other).1 /\
      forall key, contains_block other key = true -> contains_block f key = false /\ unvoted f key
  end.

Inductive fc_reachable : HeaviestSubtreeForkChoice -> Prop :=
| reachable_new root f : HeaviestSubtreeForkChoice_new root = Ok f -> fc_reachable f
| reachable_step f ev f' :
    fc_reachable f -> fc_guard f ev -> (forall other leaf, ev = Merge other leaf -> fc_reachable other) ->
    fc_apply f ev = Ok f' -> fc_reachable f'.

(** ** The invariant holds in every reachable state *)

Context (Hstake : forall pubkey slot, 0 <= stake pubkey slot).
Abbreviation inv := (fc_inv epoch_stakes epoch_schedule).

Lemma contains_block_spec f key : contains_block f key = true <-> is_Some (fork_infos f !! key).
Proof. unfold contains_block. apply bool_decide_eq_true. Qed.

Lemma contains_block_false f key : contains_block f key = false <-> fork_infos f !! key = None.
Proof. unfold contains_block. by rewrite bool_decide_eq_false, eq_None_not_Some. Qed.

(** Nodes added in key order, parents first. *)
Lemma add_leaves_inv nodes f :
  inv f -> StronglySorted node_le nodes -> NoDup nodes.*1 ->
  (forall k p, (k, p) ∈ nodes -> p.1 < k.1 /\ fork_infos f !! k = None /\ unvoted f k /\ (is_Some (fork_infos f !! p) \/ p ∈ nodes.*1)) ->
  exists f', add_leaves nodes f = Ok f' /\ inv f' /\ latest_votes f' = latest_votes f /\ fc_root f' = fc_root f.
Proof.
  revert f. induction nodes as [|[k p] nodes IH]; intros f Hf Hs Hnd Hin; cbn; [eauto|].
  apply StronglySorted_cons in Hs as [Hle Hs]. cbn in Hnd. apply NoDup_cons in Hnd as [Hn Hnd].
  destruct (Hin k p) as (Hlt & Hk & Hnv & Hp); [left|].
  assert (is_Some (fork_infos f !! p)) as [ip Hip].
  { destruct Hp as [?|Hp]; [done|]. cbn in Hp. apply elem_of_cons in Hp as [->|([p' pp] & -> & Hp)%list_elem_of_fmap]; [lia|].
    rewrite Forall_forall in Hle. specialize (Hle _ Hp). unfold node_le, key_lt in Hle. cbn in *. destruct Hle as [?|<-]; lia. }
  destruct (add_new_leaf_inv _ _ f k p ip Hf Hk Hip Hlt Hnv) as (f1 & -> & Hf1 & Hr1 & Hv1 & Hd1). cbn.
  destruct (IH f1 Hf1 Hs Hnd) as (f' & -> & ? & ? & ?); [|exists f'; split_and!; congruence].
  intros k' p' Hin'. destruct (Hin k' p') as (? & Hk' & Hnv' & Hp'); [by right|]. split_and!; auto.
  - apply not_elem_of_dom. rewrite Hd1. apply not_elem_of_dom in Hk'. assert (k' <> k); [|set_solver].
    intros ->. apply Hn. apply list_elem_of_fmap. by exists (k, p').
  - intros pk. rewrite Hv1. apply Hnv'.
  - assert (forall x, is_Some (fork_infos f1 !! x) <-> x = k \/ is_Some (fork_infos f !! x)) as Hx.
    { intros x. rewrite <- !elem_of_dom, Hd1. set_solver. }
    rewrite Hx. cbn in Hp'. rewrite elem_of_cons in Hp'. naive_solver.
Qed.

#[export] Instance node_le_trans : Transitive node_le.
Proof. intros a b c [?|E1] [?|E2]; unfold node_le; [left; by eapply key_lt_trans|rewrite <- E2; by left|rewrite E1; by left|rewrite E1; by right]. Qed.

#[export] Instance node_le_total : Total node_le.
Proof. intros a b. unfold node_le. destruct (key_lt_total a.1 b.1) as [?|[?|?]]; auto. Qed.

Lemma merge_inv f other leaf : inv f -> inv other -> fc_guard f (Merge other leaf) ->
  exists f', merge epoch_stakes epoch_schedule f other leaf = Ok f' /\ inv f'.
Proof.
  intros Hf Ho (Hleaf & Hslot & Hnew). unfold merge. rewrite Hleaf. cbn [negb].
  set (nodes := (fun p => (p.1, default leaf (fi_parent p.2))) <$> map_to_list (fork_infos other)).
  assert (nodes.*1 = (map_to_list (fork_infos other)).*1) as Hfst by (unfold nodes; rewrite <- list_fmap_compose; by apply list_fmap_ext).
  assert (forall k, k ∈ nodes.*1 <-> is_Some (fork_infos other !! k)) as Hkeys.
  { intros k. rewrite Hfst, list_elem_of_fmap. split.
    - intros ([k' i] & -> & Hin%elem_of_map_to_list). eauto.
    - intros [i Hi]. exists (k, i). split; [done|]. by apply elem_of_map_to_list. }
  destruct (add_leaves_inv (merge_sort node_le nodes) f Hf) as (f1 & -> & Hf1 & Hv1 & _).
  - apply StronglySorted_merge_sort; apply _.
  - rewrite merge_sort_Permutation, Hfst. apply NoDup_fst_map_to_list.
  - intros k p Hin. rewrite merge_sort_Permutation in Hin. apply list_elem_of_fmap in Hin as ([k' i] & [= -> ->] & Hi%elem_of_map_to_list). cbn in *.
    destruct (Hnew k') as [Hk%contains_block_false Hnv]; [apply contains_block_spec; eauto|].
    assert (shape (fork_infos other) !! k' = Some (links i)) as Ht by (by rewrite lookup_shape, Hi).
    destruct (decide (k' = fc_root other)) as [->|Hne].
    + destruct (wf_root _ _ (inv_tree _ _ _ Ho)) as [cs Hr]. rewrite Ht in Hr. injection Hr as -> _. cbn. split_and!; auto.
      left. by apply contains_block_spec.
    + destruct (wf_parent _ _ (inv_tree _ _ _ Ho) _ _ _ Ht Hne) as (p & gp & ps & -> & Hp & _ & Hlt). cbn. split_and!; auto.
      right. rewrite merge_sort_Permutation. apply Hkeys. apply lookup_shape_Some in Hp as (? & ? & _). eauto.
  - cbn. destruct (add_votes_inv epoch_stakes epoch_schedule Hstake f1 (map_to_list (latest_votes other)) Hf1) as (f2 & b & -> & Hf2 & _);
      [apply NoDup_fst_map_to_list|]. cbn. eauto.
Qed.

Lemma fc_apply_inv f ev : inv f -> fc_guard f ev -> (forall other leaf, ev = Merge other leaf -> inv other) ->
  exists f', fc_apply f ev = Ok f' /\ inv f'.
Proof.
  intros Hf Hg Ho. destruct ev as [key parent|pvs|nr|rp|key|key|other leaf]; cbn in *.
  - destruct Hg as ([ip Hip]%contains_block_spec & Hlt & Hnv). destruct (contains_block f key) eqn:Hk.
    + unfold add_new_leaf_slot. rewrite Hk. eauto.
    + apply contains_block_false in Hk. destruct (add_new_leaf_inv _ _ f key parent ip Hf Hk Hip Hlt (Hnv eq_refl)) as (f' & ? & ? & _). eauto.
  - destruct (add_votes_inv epoch_stakes epoch_schedule Hstake f pvs Hf Hg) as (f' & b & -> & ? & _). cbn. eauto.
  - unfold is_candidate in Hg. apply fmap_Some in Hg as (i & Hi & Hc).
    destruct (fc_set_root_inv _ _ f nr Hf) as (f' & ? & ? & _); [by exists i|eauto].
  - destruct Hg as (Hlt & Hk%contains_block_false & Hnv). destruct (add_root_parent_inv _ _ f rp Hf Hk Hlt Hnv) as (f' & ? & ? & _). eauto.
  - destruct Hg as (Hd & Hr & H0 & Hdef). unfold is_duplicate_confirmed in Hd. destruct (fork_infos f !! key) as [i|] eqn:Hk.
    + destruct (mark_invalid_inv _ _ f Hf key i Hk) as (f' & ? & ? & _); auto; [|eauto]. cbn in Hd. by destruct (fi_is_duplicate_confirmed i).
    + exists f. unfold mark_fork_invalid_candidate. by rewrite Hk.
  - destruct Hg as (Hk%contains_block_spec & H0 & Hdef). destruct (mark_valid_inv _ _ f Hf key Hk H0 Hdef) as (f' & newly & anc & -> & ? & _).
    cbn. eauto.
  - apply merge_inv; eauto.
Qed.

Lemma fc_reachable_inv f : fc_reachable f -> inv f.
Proof.
  induction 1 as [root f Hnew|f ev f' Hr IH Hg Hm IHm Hstep].
  - destruct (new_inv epoch_stakes epoch_schedule root) as (f' & ? & ? & _). congruence.
  - destruct (fc_apply_inv f ev IH Hg) as (f2 & ? & ?); [|congruence]. intros other leaf E. by apply (IHm other leaf).
Qed.

(** ** The reference *)

(** Whether [v] lies in the subtree of [k]. *)
Definition in_subtree f (k v : SlotHashKey) : bool :=
  match is_strict_ancestor f k v with Ok b => bool_decide (k = v) || b | _ => false end.

(** The stake of the validators whose latest vote lies in the subtree of [k]. *)
Definition vote_weight f (k : SlotHashKey) : Z :=
  map_sum (fun pubkey v => if in_subtree f k v then stake pubkey v.1 else 0) (latest_votes f).

Definition total_vote_weight f : Z := map_sum (fun pubkey v => stake pubkey v.1) (latest_votes f).

(** [heaviest f k b]: walking down from [k], always to the candidate child whose
    subtree has the most stake (the smallest key among equals), ends in [b]. *)
Inductive heaviest f : SlotHashKey -> SlotHashKey -> Prop :=
| heaviest_end k cs :
    children_of f k = Some cs -> (forall c, c ∈ cs -> is_candidate f c <> Some true) -> heaviest f k k
| heaviest_child k cs c b :
    children_of f k = Some cs -> c ∈ cs -> is_candidate f c = Some true ->
    (forall c', c' ∈ cs -> is_candidate f c' = Some true -> c' <> c -> better (vote_weight f c) c (vote_weight f c') c') ->
    heaviest f c b -> heaviest f k b.

Lemma in_subtree_spec f k v : inv f -> in_subtree f k v = true <-> descends (shape (fork_infos f)) k v.
Proof.
  intros Hf. unfold in_subtree. destruct (is_strict_ancestor_spec f (fc_root f) k v (inv_tree _ _ _ Hf)) as (b & -> & Hb).
  rewrite orb_true_iff, bool_decide_eq_true, Hb. split; [intros [->|[? _]]; auto with tree|]. destruct (decide (k = v)); auto.
Qed.

(** A sum in which at most one term is not zero. *)
Lemma sum_unique {A} `{EqDecision A} (P : A -> bool) (x : Z) (l : list A) :
  NoDup l -> (forall a b, a ∈ l -> b ∈ l -> P a = true -> P b = true -> a = b) ->
  foldr (fun a acc => (if P a then x else 0) + acc) 0 l = if existsb P l then x else 0.
Proof.
  induction l as [|a l IH]; intros Hnd Hu; cbn; [done|]. apply NoDup_cons in Hnd as [Hn Hnd].
  rewrite IH; [|done|intros; apply Hu; by try right]. destruct (P a) eqn:Pa; cbn; [|lia].
  destruct (existsb P l) eqn:E; [|lia]. apply existsb_exists in E as (b & Hb%list_elem_of_In & Pb).
  destruct Hn. rewrite (Hu a b); [done|left|by right|done|done].
Qed.

Lemma sum_map_sum {A} (g : A -> Pubkey -> SlotHashKey -> Z) (l : list A) (votes : gmap Pubkey SlotHashKey) :
  foldr (fun a acc => map_sum (g a) votes + acc) 0 l = map_sum (fun pk v => foldr (fun a acc => g a pk v + acc) 0 l) votes.
Proof. induction l as [|a l IH]; cbn; [by rewrite map_sum_zero|]. by rewrite IH, map_sum_add. Qed.

(** The votes in a subtree: those for its root, and those below each child. *)
Lemma vote_weight_split f k i : inv f -> fork_infos f !! k = Some i ->
  vote_weight f k = votes_at epoch_stakes epoch_schedule (latest_votes f) k +
    foldr (fun c acc => vote_weight f c + acc) 0 (fi_children i).
Proof.
  intros Hf Hk. pose proof (inv_tree _ _ _ Hf) as Hwf. unfold vote_weight. rewrite sum_map_sum. unfold votes_at. rewrite <- map_sum_add.
  assert (shape (fork_infos f) !! k = Some (links i)) as Ht by (by rewrite lookup_shape, Hk).
  apply map_sum_ext. intros pk v _. rewrite (sum_unique (fun c => in_subtree f c v)); [|by eapply wf_children_NoDup|]; last first.
  { intros a b Ha Hb Pa%in_subtree_spec Pb%in_subtree_spec; [|done..]. by eapply siblings_disjoint. }
  destruct (existsb (fun c => in_subtree f c v) (fi_children i)) eqn:E.
  - apply existsb_exists in E as (c & Hc%list_elem_of_In & Hcv%in_subtree_spec); [|done].
    pose proof (child_descends _ _ Hwf _ _ _ _ Ht Hc) as Hkc. rewrite decide_False.
    + rewrite (proj2 (in_subtree_spec f k v Hf)); [lia|]. by eapply descends_trans.
    + intros ->. pose proof (child_slot _ _ Hwf _ _ _ _ Ht Hc). pose proof (descends_slot_le _ _ Hwf _ _ Hcv). lia.
  - case_decide as Hvk.
    + subst v. rewrite (proj2 (in_subtree_spec f k k Hf)) by constructor. lia.
    + destruct (in_subtree f k v) eqn:Hin; [|lia]. apply in_subtree_spec in Hin; [|done].
      destruct (descends_via_child _ _ Hwf _ _ _ _ Ht Hin Hvk) as (c & Hc & Hcv).
      assert (existsb (fun c => in_subtree f c v) (fi_children i) = true) as E'; [|congruence].
      apply existsb_exists. exists c. split; [by apply list_elem_of_In|]. by apply in_subtree_spec.
Qed.

Lemma vote_weight_bounds f k : 0 <= vote_weight f k <= total_vote_weight f.
Proof.
  unfold vote_weight, total_vote_weight. split.
  - apply map_sum_nonneg. intros pk v _. specialize (Hstake pk v.1). destruct (in_subtree f k v); lia.
  - apply map_sum_le. intros pk v _. specialize (Hstake pk v.1). destruct (in_subtree f k v); lia.
Qed.

Lemma votes_at_bounds f k : 0 <= votes_at epoch_stakes epoch_schedule (latest_votes f) k <= total_vote_weight f.
Proof.
  unfold votes_at, total_vote_weight. split.
  - apply map_sum_nonneg. intros pk v _. specialize (Hstake pk v.1). destruct (decide (v = k)); lia.
  - apply map_sum_le. intros pk v _. specialize (Hstake pk v.1). destruct (decide (v = k)); lia.
Qed.

(** The stake of every subtree is the reference weight. *)
Lemma weight_correct f : inv f -> total_vote_weight f <= U64_MAX ->
  forall k, is_Some (shape (fork_infos f) !! k) -> weight_at (fork_infos f) k = vote_weight f k.
Proof.
  intros Hf Htot. apply (tree_ind_up _ _ (inv_tree _ _ _ Hf)). intros k po cs Ht IH.
  apply lookup_shape_Some in Ht as (i & Hi & _ & <-). unfold weight_at. rewrite Hi. cbn.
  rewrite (settled_stake_sum _ k i (inv_settled _ _ _ Hf k) Hi (inv_range _ _ _ Hf _ _ Hi)), (inv_votes _ _ _ Hf k i Hi).
  pose proof (votes_at_bounds f k). pose proof (vote_weight_bounds f k).
  rewrite (as_u64_small (votes_at _ _ _ _)) by (split; lia). rewrite (vote_weight_split f k i Hf Hi) in *.
  replace (subtree_sum (fork_infos f) (fi_children i)) with (foldr (fun c acc => vote_weight f c + acc) 0 (fi_children i)).
  - apply as_u64_small. split; lia.
  - clear -IH. induction (fi_children i) as [|c cs IHcs]; cbn; [done|]. unfold subtree_sum in *. rewrite <- IHcs by (intros; apply IH; by right).
    specialize (IH c ltac:(left)). unfold weight_at in IH. by rewrite IH.
Qed.

Lemma is_candidate_at f k : is_candidate f k = Some true <-> candidate_at (fork_infos f) k.
Proof. unfold is_candidate, candidate_at. rewrite fmap_Some. naive_solver. Qed.

(** The best slot of a candidate is where the heaviest walk ends. *)
Lemma best_correct f : inv f -> total_vote_weight f <= U64_MAX ->
  forall k, is_Some (shape (fork_infos f) !! k) -> candidate_at (fork_infos f) k -> exists b, best_slot f k = Some b /\ heaviest f k b.
Proof.
  intros Hf Htot. pose proof (inv_tree _ _ _ Hf) as Hwf.
  apply (tree_ind_up _ _ Hwf (fun k => candidate_at (fork_infos f) k -> exists b, best_slot f k = Some b /\ heaviest f k b)).
  intros k po cs Ht IH (i & Hi & Hc).
  pose proof Ht as (i' & Hi' & _ & Hcs)%lookup_shape_Some. assert (i' = i) as -> by congruence. clear Hi'. subst cs.
  unfold best_slot. rewrite Hi. cbn. exists (fi_best_slot i). split; [done|].
  destruct (settled_best (fork_infos f) _ _ k i Hwf eq_refl (inv_settled _ _ _ Hf k) Hi Hc) as [[-> Hno]|(c & ic & Hbc & Hic & E)].
  - eapply heaviest_end; [unfold children_of; by rewrite Hi|]. intros c Hin. rewrite is_candidate_at. by apply Hno.
  - destruct Hbc as (Hin & Hcc & Hbest). destruct (IH c Hin Hcc) as (b & Hb & Hh). unfold best_slot in Hb. rewrite Hic in Hb. injection Hb as <-.
    rewrite E. eapply heaviest_child; [unfold children_of; by rewrite Hi|exact Hin|by apply is_candidate_at| |done].
    intros c' Hc' Hcand%is_candidate_at Hne. specialize (Hbest c' Hc' Hcand Hne).
    assert (forall x, x ∈ fi_children i -> is_Some (shape (fork_infos f) !! x)) as Hch.
    { intros x Hx. destruct (wf_child _ _ Hwf _ _ _ _ Ht Hx). eauto. }
    by rewrite !(weight_correct f Hf Htot) in Hbest by auto.
Qed.

(** ** Properties *)

(** C5. In every state the fork choice can reach, the stake recorded for the
    subtree of a block is the stake of the validators whose latest vote lies in
    that subtree, and the best slot recorded for a block that is a candidate is
    the end of the walk down the heaviest candidate children: the incremental
    updates implement the heaviest-subtree rule. *)
Theorem fork_choice_refines f :
  fc_reachable f -> total_vote_weight f <= U64_MAX ->
  forall key, contains_block f key = true ->
    stake_voted_subtree f key = Some (vote_weight f key) /\
    (is_candidate f key = Some true -> exists best, best_slot f key = Some best /\ heaviest f key best).
Proof.
  intros Hr Htot key [i Hi]%contains_block_spec. pose proof (fc_reachable_inv f Hr) as Hf.
  assert (is_Some (shape (fork_infos f) !! key)) as Ht by (rewrite lookup_shape, Hi; eauto). split.
  - pose proof (weight_correct f Hf Htot key Ht) as Hw. unfold weight_at in Hw. unfold stake_voted_subtree. rewrite Hi in *. cbn in *. by rewrite Hw.
  - intros Hc%is_candidate_at. by apply best_correct.
Qed.

(** No operation of the fork choice panics or runs out of fuel when its
    caller keeps the documented conditions, and the root always has a best
    slot. *)
Theorem fork_choice_total f ev :
  fc_reachable f -> fc_guard f ev -> (forall other leaf, ev = Merge other leaf -> fc_reachable other) ->
  exists f' best, fc_apply f ev = Ok f' /\ best_overall_slot f' = Ok best.
Proof.
  intros Hr Hg Hm. destruct (fc_apply_inv f ev (fc_reachable_inv f Hr) Hg) as (f' & Hf' & Hinv).
  { intros other leaf E. by eapply fc_reachable_inv, Hm. }
  destruct (inv_root _ _ _ Hinv) as (ri & Hri & _). exists f', (fi_best_slot ri). split; [done|].
  unfold best_overall_slot, best_slot. by rewrite Hri.
Qed.

(** The best slot of the root and all its ancestors are candidates. *)
Lemma best_overall_candidate f : inv f -> exists b, best_overall_slot f = Ok b /\ candidate_at (fork_infos f) b.
Proof.
  intros Hf. pose proof (inv_tree _ _ _ Hf) as Hwf.
  enough (forall k, is_Some (shape (fork_infos f) !! k) -> candidate_at (fork_infos f) k ->
    exists b, best_slot f k = Some b /\ candidate_at (fork_infos f) b) as H.
  { destruct (inv_root _ _ _ Hf) as (ri & Hri & Hc). destruct (H (fc_root f)) as (b & Hb & ?); [rewrite lookup_shape, Hri; eauto|by exists ri|].
    exists b. split; [|done]. unfold best_overall_slot. by rewrite Hb. }
  apply (tree_ind_up _ _ Hwf (fun k => candidate_at (fork_infos f) k -> exists b, best_slot f k = Some b /\ candidate_at (fork_infos f) b)).
  intros k po cs Ht IH (i & Hi & Hc). apply lookup_shape_Some in Ht as (i' & Hi' & _ & <-). assert (i' = i) as -> by congruence.
  unfold best_slot. rewrite Hi. cbn. eexists. split; [done|].
  destruct (settled_best (fork_infos f) _ _ k i Hwf eq_refl (inv_settled _ _ _ Hf k) Hi Hc) as [[-> _]|(c & ic & (Hin & Hcc & _) & Hic & E)]; [by exists i|].
  destruct (IH c Hin Hcc) as (b & Hb & Hcb). unfold best_slot in Hb. rewrite Hic in Hb. injection Hb as <-. by rewrite E.
Qed.


(** Marking a block valid confirms the block and all its ancestors, which
    become candidates, and reports exactly those that were not confirmed
    before; blocks on other forks keep their status. *)
Theorem valid_fork_confirmed f key f' newly :
  fc_reachable f -> fc_guard f (MarkValid key) -> mark_fork_valid_candidate f key = Ok (f', newly) ->
  forall a, contains_block f a = true ->
    (in_subtree f a key = true -> is_duplicate_confirmed f' a = Some true /\ is_candidate f' a = Some true) /\
    (a ∈ newly <-> in_subtree f a key = true /\ is_duplicate_confirmed f a = Some false) /\
    (in_subtree f a key = false -> in_subtree f key a = false ->
       is_duplicate_confirmed f' a = is_duplicate_confirmed f a /\ latest_invalid_ancestor f' a = latest_invalid_ancestor f a).
Proof.
  intros Hr (Hk%contains_block_spec & H0 & Hdef) Hm a [i Hi]%contains_block_spec. pose proof (fc_reachable_inv f Hr) as Hf.
  destruct (mark_valid_inv _ _ f Hf key Hk H0 Hdef) as (f2 & n2 & anc & Hm2 & Hf2 & _ & _ & Hsh & Hc & Hn & Hst).
  rewrite Hm in Hm2. injection Hm2 as <- <-. subst newly. pose proof (inv_tree _ _ _ Hf) as Hwf.
  assert (is_Some (fork_infos f' !! a)) as [i' Hi'].
  { rewrite <- (fmap_is_Some links), <- lookup_shape, Hsh, lookup_shape, Hi. eauto. }
  assert (in_subtree f a key = true <-> a = key \/ a ∈ anc) as Hin.
  { rewrite in_subtree_spec, (chain_elem _ _ _ _ _ Hwf Hc) by done. destruct (decide (a = key)) as [->|]; [|tauto]. split; [auto|constructor]. }
  destruct (Hst a i' Hi') as (i0 & Hi0 & Hcase). assert (i0 = i) as -> by congruence.
  unfold is_duplicate_confirmed, is_candidate, latest_invalid_ancestor. rewrite Hi, Hi'. cbn [fmap option_fmap option_map mbind option_bind]. split_and!.
  - rewrite in_subtree_spec by done. intros Hd. destruct (decide (a = key)) as [->|Hne].
    + destruct Hcase as [[_ Es]|[(_ & ? & _)|(Hx & _)]]; [|done|destruct Hx; constructor].
      unfold status, valid_status in Es. cbn in Es. injection Es as Es1 Es2. rewrite Es2, Z.eqb_refl. split; [done|]. f_equal.
      unfold info_is_candidate. rewrite Es1. pose proof (mk_slot _ (inv_marks _ _ _ Hf) key i) as Hs.
      destruct (fi_latest_invalid_ancestor i) as [u|]; [|done]. specialize (Hs u Hi eq_refl). destruct (Z.leb_spec u key.1); [done|lia].
    + destruct Hcase as [[Hx _]|[(_ & _ & Es)|(_ & Hx & _)]]; [|injection Es as E1 E2; unfold info_is_candidate; by rewrite E1, E2|done].
      by destruct Hne; apply (descends_antisym _ _ Hwf).
  - rewrite list_elem_of_filter, elem_of_cons, Hin, (status_at_lookup _ _ _ Hi). cbn.
    split; [intros [E ?]; split; [done|by rewrite E]|intros [? [= ?]]; done].
  - rewrite <- !not_true_iff_false, !in_subtree_spec by done. intros Hx Hy.
    destruct Hcase as [[? _]|[(? & _)|(_ & _ & Es)]]; [done..|]. by injection Es as -> ->.
Qed.

End spec.
