(* ===== verification/ForkChoiceExample.v ===== *)
(** * A fork choice run

    A root with one child that forks in two: votes, an invalid fork, and what
    duplicate confirmation leaves behind. *)
From stdpp Require Import base gmap sorting sets option list.
From S2P Require Import Prelude EpochSchedule ForkChoice ForkTree ForkUpdate ForkInvariant ForkVotes ForkLeaf ForkRoot ForkValidity ForkChoiceSpec.

Module ForkChoiceExample.

Definition schedule : EpochSchedule := mkEpochSchedule 432000 432000 false 0 0.
Definition stakes : gmap Epoch EpochStakes := {[0 := mkEpochStakes {[1 := 40; 2 := 60]}]}.

Lemma stakes_nonneg pubkey slot : 0 <= stake_at stakes schedule pubkey slot.
Proof.
  unfold stake_at, stakes. destruct (decide (0 = get_epoch schedule slot)) as [<-|Hne].
  - rewrite lookup_singleton_eq. unfold vote_account_stake. cbn [es_vote_accounts].
    destruct (_ !! pubkey) as [n|] eqn:E; [|done]. cbn.
    apply lookup_insert_Some in E as [[_ <-]|[_ [_ <-]%lookup_singleton_Some]]; done.
  - by rewrite lookup_singleton_ne.
Qed.

Definition root : SlotHashKey := (0, 10).
Definition A : SlotHashKey := (1, 11).
Definition B : SlotHashKey := (2, 12).
Definition C : SlotHashKey := (3, 13).

Definition start : HeaviestSubtreeForkChoice :=
  mkForkChoice {[root := mkForkInfo 0 0 root None [] None true]} ∅ root.
Definition step (f : HeaviestSubtreeForkChoice) (ev : fc_event) : HeaviestSubtreeForkChoice :=
  default start (ok (fc_apply stakes schedule f ev)).
Abbreviation reachable := (fc_reachable stakes schedule).

Definition leaves : HeaviestSubtreeForkChoice := foldl step start [AddLeaf A root; AddLeaf B A; AddLeaf C A].
Definition voted : HeaviestSubtreeForkChoice := step leaves (AddVotes [(1, B); (2, C)]).
Definition invalid : HeaviestSubtreeForkChoice := step voted (MarkInvalid C).
Definition confirmed : HeaviestSubtreeForkChoice := step (step voted (MarkInvalid A)) (MarkValid B).

Lemma start_reachable : reachable start.
Proof. apply (reachable_new _ _ root). by vm_compute. Qed.

Lemma step_reachable f ev :
  reachable f -> fc_guard f ev -> (forall other leaf, ev <> Merge other leaf) -> is_ok (fc_apply stakes schedule f ev) = true ->
  reachable (step f ev).
Proof.
  intros Hr Hg Hm Hok. unfold step. destruct (fc_apply stakes schedule f ev) as [f'| |] eqn:E; try done.
  eapply reachable_step; [exact Hr|exact Hg| |exact E]. intros other leaf ->. by destruct (Hm other leaf).
Qed.

Lemma leaf_guard f key parent :
  contains_block f parent = true -> parent.1 <? key.1 = true -> latest_votes f = ∅ -> fc_guard f (AddLeaf key parent).
Proof. intros Hp Hlt%Z.ltb_lt Hv. split_and!; [done..|]. intros _ pk. by rewrite Hv, lookup_empty. Qed.

Lemma leaves_reachable : reachable leaves.
Proof.
  unfold leaves. cbn [foldl].
  apply step_reachable; [|by apply leaf_guard; vm_compute|done|by vm_compute].
  apply step_reachable; [|by apply leaf_guard; vm_compute|done|by vm_compute].
  apply step_reachable; [apply start_reachable|by apply leaf_guard; vm_compute|done|by vm_compute].
Qed.

Lemma voted_reachable : reachable voted.
Proof.
  apply step_reachable; [apply leaves_reachable| |done|by vm_compute].
  cbn. apply NoDup_cons. split; [|apply NoDup_singleton]. by intros ?%list_elem_of_singleton.
Qed.

Lemma invalid_guard : fc_guard voted (MarkInvalid C).
Proof. split_and!; by vm_compute. Qed.

Lemma invalid_reachable : reachable invalid.
Proof. apply step_reachable; [apply voted_reachable|apply invalid_guard|done|by vm_compute]. Qed.

(** The heavier fork wins until it is marked invalid. *)
Lemma best_before : best_overall_slot voted = Ok C.
Proof. by vm_compute. Qed.

Lemma best_after : best_overall_slot invalid = Ok B.
Proof. by vm_compute. Qed.

Lemma fork_choice_refines_witness :
  stake_voted_subtree voted A = Some (vote_weight stakes schedule voted A) /\ vote_weight stakes schedule voted A = 100 /\
  heaviest stakes schedule voted A C.
Proof.
  destruct (fork_choice_refines stakes schedule stakes_nonneg voted voted_reachable ltac:(by vm_compute) A ltac:(by vm_compute)) as [H1 H2].
  split; [exact H1|]. split; [by vm_compute|]. destruct (H2 ltac:(by vm_compute)) as (b & Hb & Hh).
  vm_compute in Hb. injection Hb as <-. exact Hh.
Defined.

Lemma fork_choice_total_witness : exists f' best, fc_apply stakes schedule voted (MarkInvalid C) = Ok f' /\ best_overall_slot f' = Ok best.
Proof.
  exact (fork_choice_total stakes schedule stakes_nonneg voted (MarkInvalid C) voted_reachable invalid_guard ltac:(discriminate)).
Defined.


Lemma valid_guard : fc_guard (step voted (MarkInvalid A)) (MarkValid B).
Proof. split_and!; by vm_compute. Qed.

Lemma valid_fork_confirmed_witness : is_duplicate_confirmed confirmed A = Some true /\ A ∈ [B; A].
Proof.
  assert (reachable (step voted (MarkInvalid A))) as Hr.
  { apply step_reachable; [apply voted_reachable|split_and!; by vm_compute|done|by vm_compute]. }
  destruct (valid_fork_confirmed stakes schedule stakes_nonneg (step voted (MarkInvalid A)) B confirmed [B; A] Hr valid_guard
    ltac:(by vm_compute) A ltac:(by vm_compute)) as (H1 & H2 & _).
  split; [exact (proj1 (H1 ltac:(by vm_compute)))|]. apply H2. split; by vm_compute.
Defined.

(** The fork at [C] was only excluded because of its ancestor [A]; once [A] is
    duplicate confirmed through [B], [C] stays excluded, and the lighter fork
    stays best. *)
Lemma sibling_stays_excluded :
  is_duplicate_confirmed confirmed A = Some true /\ is_candidate confirmed A = Some true /\
  is_candidate confirmed C = Some false /\ latest_invalid_ancestor confirmed C = Some 1 /\
  best_overall_slot confirmed = Ok B /\ vote_weight stakes schedule confirmed C = 60.
Proof. split_and!; by vm_compute. Qed.

(** A leaf added under an invalid block becomes the best slot of that block. *)
Lemma invalid_leaf_is_best :
  let f := step invalid (AddLeaf (4, 14) C) in
  best_slot invalid C = Some C /\ best_slot f C = Some (4, 14) /\ is_candidate f (4, 14) = Some false /\ best_overall_slot f = Ok B.
Proof. split_and!; by vm_compute. Qed.

End ForkChoiceExample.
