(* ===== verification/SlotHistory.v ===== *)
(** * Slot history

    [sdk/program/src/slot_history.rs]: a circular bit vector over the last
    [MAX_ENTRIES] slots. As long as slots are added in increasing order it
    answers exactly whether a slot of the window was added. *)
From stdpp Require Import base numbers option list gmap sets.
From S2P Require Import Prelude RollingBitField.

(** The block operation of the [bv] crate's [BitVec<u64>]. *)
Class BitBlocks (B : Type) `{BitVec B} := {
  bv_set_block : B -> Z -> Z -> B;
}.

Class BitBlocksLaws (B : Type) `{BitBlocks B} := {
  bv_len_set_block v i w : bv_len (bv_set_block v i w) = bv_len v;
  bv_get_set_block v i w j : 0 <= j < bv_len v ->
    bv_get (bv_set_block v i w) j = if j / 64 =? i then Z.testbit w (j mod 64) else bv_get v j;
}.

Definition MAX_SLOT_ENTRIES : Z := 1024 * 1024.

Inductive Check : Type := Future | TooOld | Found | NotFound.

#[export] Instance Check_eq_dec : EqDecision Check.
Proof. solve_decision. Defined.

Record SlotHistory (B : Type) : Type := mkSlotHistory {
  sh_bits : B;
  next_slot : Slot;
}.
Arguments mkSlotHistory {_} _ _.
Arguments sh_bits {_} _.
Arguments next_slot {_} _.

Section ops.
Context {B : Type} `{BitBlocks B}.

Definition SlotHistory_default : SlotHistory B :=
  mkSlotHistory (bv_set (bv_new_fill false MAX_SLOT_ENTRIES) 0 true) 1.

(** [for i in 0..n { set_block(i, 0) }] *)
Fixpoint clear_blocks (n : nat) (bits : B) : B :=
  match n with O => bits | S n => bv_set_block (clear_blocks n bits) (Z.of_nat n) 0 end.

(** [for skipped in from..from + n { set(skipped % MAX_ENTRIES, false) }] *)
Fixpoint clear_skipped (n : nat) (from : Slot) (bits : B) : B :=
  match n with O => bits | S n => clear_skipped n (from + 1) (bv_set bits (from mod MAX_SLOT_ENTRIES) false) end.

Definition slot_history_add (h : SlotHistory B) (slot : Slot) : SlotHistory B :=
  let bits :=
    if (next_slot h <? slot) && (MAX_SLOT_ENTRIES <=? slot - next_slot h)
    then clear_blocks (Z.to_nat (MAX_SLOT_ENTRIES / 64)) (sh_bits h)
    else clear_skipped (Z.to_nat (slot - next_slot h)) (next_slot h) (sh_bits h) in
  mkSlotHistory (bv_set bits (slot mod MAX_SLOT_ENTRIES) true) (add64 slot 1).

Definition sh_oldest (h : SlotHistory B) : Slot := saturating_sub64 (next_slot h) MAX_SLOT_ENTRIES.
Definition sh_newest (h : SlotHistory B) : Slot := sub64 (next_slot h) 1.

Definition slot_history_check (h : SlotHistory B) (slot : Slot) : Check :=
  if sh_newest h <? slot then Future
  else if slot <? sh_oldest h then TooOld
  else if bv_get (sh_bits h) (slot mod MAX_SLOT_ENTRIES) then Found
  else NotFound.

End ops.

(** ** Correctness *)

Section laws.
Context {B : Type} `{BitBlocksLaws B, !BitVecLaws B}.
Implicit Types (h : SlotHistory B) (slots : gset Slot).

Lemma clear_blocks_spec n (bits : B) :
  bv_len (clear_blocks n bits) = bv_len bits /\
  forall j, 0 <= j < bv_len bits -> bv_get (clear_blocks n bits) j = if j / 64 <? Z.of_nat n then false else bv_get bits j.
Proof.
  induction n as [|n [IHl IH]]; cbn [clear_blocks].
  - split; [done|]. intros j Hj. destruct (Z.ltb_spec (j / 64) (Z.of_nat 0)); [|done]. pose proof (Z.div_pos j 64). lia.
  - split; [by rewrite bv_len_set_block|]. intros j Hj. rewrite bv_get_set_block by by rewrite IHl.
    rewrite Z.bits_0. destruct (Z.eqb_spec (j / 64) (Z.of_nat n)); [destruct (Z.ltb_spec (j / 64) (Z.of_nat (S n))); [done|lia]|].
    rewrite IH by done. destruct (Z.ltb_spec (j / 64) (Z.of_nat n)), (Z.ltb_spec (j / 64) (Z.of_nat (S n))); done || lia.
Qed.

(** The slots of one window have distinct positions. *)
Lemma window_inj a b n : 0 < n -> a mod n = b mod n -> a - n < b < a + n -> a = b.
Proof.
  intros Hn Hm Hb. pose proof (Z.div_mod a n ltac:(lia)) as Ha.
  pose proof (Z.div_mod b n ltac:(lia)) as Hb'. rewrite Hm in Ha.
  assert (a / n = b / n) as Hq by nia. rewrite Hq in Ha. congruence.
Qed.

Lemma clear_skipped_spec n from (bits : B) : bv_len bits = MAX_SLOT_ENTRIES ->
  bv_len (clear_skipped n from bits) = MAX_SLOT_ENTRIES /\
  forall s, bv_get (clear_skipped n from bits) (s mod MAX_SLOT_ENTRIES) =
    if existsb (fun k => (from + Z.of_nat k) mod MAX_SLOT_ENTRIES =? s mod MAX_SLOT_ENTRIES) (seq 0 n) then false
    else bv_get bits (s mod MAX_SLOT_ENTRIES).
Proof.
  revert from bits. induction n as [|n IH]; intros from bits Hlen; [done|]. cbn [clear_skipped].
  destruct (IH (from + 1) (bv_set bits (from mod MAX_SLOT_ENTRIES) false)) as [IHl IHg]; [by rewrite bv_len_set|].
  assert (forall s, 0 <= s mod MAX_SLOT_ENTRIES < bv_len bits) as Hb by (intros s; rewrite Hlen; by apply Z.mod_pos_bound).
  split; [done|]. intros s. rewrite IHg, bv_get_set by auto. cbn [seq existsb]. rewrite Z.add_0_r, <- seq_shift.
  replace (existsb (fun k => (from + Z.of_nat k) mod MAX_SLOT_ENTRIES =? s mod MAX_SLOT_ENTRIES) (map S (seq 0 n)))
    with (existsb (fun k => (from + 1 + Z.of_nat k) mod MAX_SLOT_ENTRIES =? s mod MAX_SLOT_ENTRIES) (seq 0 n)).
  - by destruct (existsb _ (seq 0 n)), (from mod MAX_SLOT_ENTRIES =? s mod MAX_SLOT_ENTRIES).
  - generalize (seq 0 n). induction l as [|k l IHk]; cbn [existsb map]; [done|]. rewrite IHk.
    by replace (from + Z.of_nat (S k)) with (from + 1 + Z.of_nat k) by lia.
Qed.

(** The history holds the added [slots] of its window. *)
Record represents h slots : Prop := {
  rp_len : bv_len (sh_bits h) = MAX_SLOT_ENTRIES;
  rp_next : 0 < next_slot h <= U64_MAX;
  rp_below s : s ∈ slots -> 0 <= s < next_slot h;
  rp_bits s : 0 <= s < next_slot h -> next_slot h - MAX_SLOT_ENTRIES <= s ->
    bv_get (sh_bits h) (s mod MAX_SLOT_ENTRIES) = bool_decide (s ∈ slots)
}.

Lemma default_represents : represents (SlotHistory_default : SlotHistory B) {[0]}.
Proof.
  unfold SlotHistory_default. split; cbn.
  - by rewrite bv_len_set, bv_len_new_fill.
  - u64.
  - intros s ->%elem_of_singleton. lia.
  - intros s Hs _. assert (s = 0) as -> by lia. rewrite Zmod_0_l, bv_get_set by by rewrite bv_len_new_fill.
    rewrite Z.eqb_refl. symmetry. by apply bool_decide_eq_true, elem_of_singleton.
Qed.

(** The bits of the new window once the skipped slots are cleared. *)
Lemma cleared_bits h slots slot s :
  represents h slots -> next_slot h <= slot -> 0 <= s < slot -> slot + 1 - MAX_SLOT_ENTRIES <= s ->
  let bits := if (next_slot h <? slot) && (MAX_SLOT_ENTRIES <=? slot - next_slot h)
    then clear_blocks (Z.to_nat (MAX_SLOT_ENTRIES / 64)) (sh_bits h)
    else clear_skipped (Z.to_nat (slot - next_slot h)) (next_slot h) (sh_bits h) in
  bv_get bits (s mod MAX_SLOT_ENTRIES) = bool_decide (s ∈ slots).
Proof.
  intros [Hlen Hnext Hbelow Hbits] Hle Hs Hw bits. assert (next_slot h <= s -> bool_decide (s ∈ slots) = false) as Hnew.
  { intros Hns. apply bool_decide_eq_false. intros Hin%Hbelow. lia. }
  assert (0 <= s mod MAX_SLOT_ENTRIES < bv_len (sh_bits h)) as Hb by (rewrite Hlen; by apply Z.mod_pos_bound).
  unfold bits. clear bits. destruct ((next_slot h <? slot) && (MAX_SLOT_ENTRIES <=? slot - next_slot h)) eqn:E.
  - apply andb_prop in E as [?%Z.ltb_lt ?%Z.leb_le]. rewrite Hnew by lia.
    rewrite (proj2 (clear_blocks_spec _ _)) by done. rewrite Z2Nat.id by done.
    destruct (Z.ltb_spec (s mod MAX_SLOT_ENTRIES / 64) (MAX_SLOT_ENTRIES / 64)) as [_|Hge]; [done|]. exfalso.
    rewrite Hlen in Hb. apply (Z.le_ngt _ _) in Hge as []. apply Z.div_lt_upper_bound; [done|].
    change (64 * (MAX_SLOT_ENTRIES / 64)) with MAX_SLOT_ENTRIES. lia.
  - assert (slot - next_slot h < MAX_SLOT_ENTRIES) as Hgap.
    { apply andb_false_iff in E as [?%Z.ltb_ge|?%Z.leb_gt]; unfold MAX_SLOT_ENTRIES in *; lia. }
    rewrite (proj2 (clear_skipped_spec _ _ _ Hlen)). destruct (existsb _ _) eqn:Ex.
    + apply existsb_exists in Ex as (k & Hk%in_seq & Hm%Z.eqb_eq). symmetry. apply Hnew.
      apply window_inj in Hm; unfold MAX_SLOT_ENTRIES in *; lia.
    + destruct (decide (s < next_slot h)); [apply Hbits; unfold MAX_SLOT_ENTRIES in *; lia|]. exfalso. apply not_true_iff_false in Ex.
      apply Ex, existsb_exists. exists (Z.to_nat (s - next_slot h)). split; [apply in_seq; lia|].
      apply Z.eqb_eq. f_equal. lia.
Qed.

Lemma add_represents h slots slot :
  represents h slots -> next_slot h <= slot < U64_MAX -> represents (slot_history_add h slot) ({[slot]} ∪ slots).
Proof.
  intros Hr Hslot. pose proof Hr as [Hlen Hnext Hbelow Hbits]. unfold slot_history_add.
  assert (add64 slot 1 = slot + 1) as Hadd by (apply add64_small; u64).
  pose proof (cleared_bits h slots slot) as Hc. cbn zeta in Hc.
  match type of Hc with context [bv_get ?b _] => set (bits := b) in * end.
  assert (bv_len bits = MAX_SLOT_ENTRIES) as Hl.
  { unfold bits. case_match; [by rewrite (proj1 (clear_blocks_spec _ _))|by apply clear_skipped_spec]. }
  assert (forall x, 0 <= x mod MAX_SLOT_ENTRIES < bv_len bits) as Hb by (intros x; rewrite Hl; by apply Z.mod_pos_bound).
  split; cbn; rewrite ?Hadd.
  - by rewrite bv_len_set.
  - u64.
  - intros s [->%elem_of_singleton|Hs%Hbelow]%elem_of_union; lia.
  - intros s Hs Hw. rewrite bv_get_set by auto. destruct (Z.eqb_spec (slot mod MAX_SLOT_ENTRIES) (s mod MAX_SLOT_ENTRIES)) as [Hm|Hm].
    + apply window_inj in Hm as ->; [|done|unfold MAX_SLOT_ENTRIES in *; lia]. symmetry.
      by apply bool_decide_eq_true, elem_of_union_l, elem_of_singleton.
    + assert (s <> slot) as Hne by (intros ->; done). rewrite Hc by (done || lia). apply bool_decide_ext.
      rewrite elem_of_union, elem_of_singleton. split; [by right|by intros [?|?]].
Qed.

Lemma check_represents h slots s : represents h slots -> 0 <= s ->
  slot_history_check h s =
    if next_slot h <=? s then Future else if s <? next_slot h - MAX_SLOT_ENTRIES then TooOld
    else if bool_decide (s ∈ slots) then Found else NotFound.
Proof.
  intros [Hlen Hnext Hbelow Hbits] Hs. unfold slot_history_check, sh_newest, sh_oldest. rewrite sub64_small by u64.
  unfold saturating_sub64. destruct (Z.leb_spec (next_slot h) s), (Z.ltb_spec (next_slot h - 1) s); try done; try lia.
  destruct (Z.ltb_spec s (next_slot h - MAX_SLOT_ENTRIES)), (Z.ltb_spec s (Z.max (next_slot h - MAX_SLOT_ENTRIES) 0)); try done; try lia.
  by rewrite Hbits.
Qed.

(** Slots added in increasing order. *)
Fixpoint increasing_from (next : Slot) (added : list Slot) : Prop :=
  match added with [] => True | s :: added => next <= s < U64_MAX /\ increasing_from (s + 1) added end.

Lemma add_all_represents added h slots :
  represents h slots -> increasing_from (next_slot h) added ->
  represents (foldl slot_history_add h added) (list_to_set added ∪ slots).
Proof.
  revert h slots. induction added as [|s added IH]; intros h slots Hr Hinc; cbn [foldl]; [by rewrite list_to_set_nil, union_empty_l_L|].
  destruct Hinc as [Hs Hinc]. pose proof (add_represents _ _ _ Hr Hs) as Hr1.
  replace (list_to_set (s :: added) ∪ slots) with (list_to_set added ∪ ({[s]} ∪ slots) : gset Slot)
    by (rewrite list_to_set_cons; clear; set_solver).
  apply IH; [done|]. unfold slot_history_add. cbn. rewrite add64_small by (pose proof (rp_next _ _ Hr); u64). done.
Qed.

Lemma next_slot_add_all added h :
  0 < next_slot h -> increasing_from (next_slot h) added ->
  next_slot (foldl slot_history_add h added) = from_option (fun s => s + 1) (next_slot h) (last added).
Proof.
  revert h. induction added as [|s added IH]; intros h Hpos Hinc; [done|]. destruct Hinc as [Hs Hinc]. cbn [foldl].
  assert (next_slot (slot_history_add h s) = s + 1) as Hn by (cbn; apply add64_small; u64).
  rewrite IH by (rewrite ?Hn; done || lia). rewrite Hn, last_cons. by destruct (last added).
Qed.

(** Over any increasing sequence of added slots, [check] answers [Future]
    above the newest slot, [TooOld] more than [MAX_ENTRIES] below it, and in
    between [Found] exactly for the slots that were added. *)
Theorem slot_history_correct added s :
  increasing_from 1 added -> 0 <= s ->
  let h := foldl slot_history_add (SlotHistory_default : SlotHistory B) added in
  let newest := default 0 (last added) in
  slot_history_check h s =
    if newest <? s then Future else if s <? newest + 1 - MAX_SLOT_ENTRIES then TooOld
    else if bool_decide (s = 0 \/ s ∈ added) then Found else NotFound.
Proof.
  intros Hinc Hs h newest. pose proof (add_all_represents added SlotHistory_default {[0]} default_represents Hinc) as Hr.
  assert (next_slot h = newest + 1) as Hn.
  { unfold h, newest. rewrite next_slot_add_all by (cbn; done || lia). by destruct (last added). }
  fold h in Hr. rewrite (check_represents _ _ _ Hr Hs), Hn. replace (newest + 1 <=? s) with (newest <? s) by (zcases; done || lia).
  rewrite (bool_decide_ext (s ∈ list_to_set added ∪ {[0]}) (s = 0 \/ s ∈ added)); [done|].
  rewrite elem_of_union, elem_of_singleton, elem_of_list_to_set. tauto.
Qed.

End laws.

(** ** A concrete bit vector *)

#[global] Instance list_BitBlocks : BitBlocks (list bool) := {
  bv_set_block v i w := imap (fun j b => if Z.of_nat j / 64 =? i then Z.testbit w (Z.of_nat j mod 64) else b) v;
}.

#[global] Instance list_BitBlocksLaws : BitBlocksLaws (list bool).
Proof.
  split; cbn.
  - intros v i w. by rewrite length_imap.
  - intros v i w j Hj. rewrite list_lookup_imap. destruct (lookup_lt_is_Some_2 v (Z.to_nat j)) as [b Hb]; [lia|].
    rewrite Hb. cbn. by rewrite Z2Nat.id by lia.
Qed.

Module SlotHistoryExample.
Definition jumps : list Slot := [3; 7; 1048580; 3000000].
Definition jumped : SlotHistory (list bool) := foldl slot_history_add SlotHistory_default jumps.

Lemma jumps_increasing : increasing_from 1 jumps.
Proof. cbn. u64. Qed.

(** After a jump past the whole window only the new slot is left. *)
Lemma slot_history_correct_witness :
  slot_history_check jumped 3000000 = Found /\ slot_history_check jumped 1048580 = TooOld /\
  slot_history_check jumped 2999999 = NotFound /\ slot_history_check jumped 3000001 = Future.
Proof.
  pose proof (slot_history_correct (B := list bool) jumps 3000000 jumps_increasing ltac:(lia)) as H1.
  pose proof (slot_history_correct (B := list bool) jumps 1048580 jumps_increasing ltac:(lia)) as H2.
  pose proof (slot_history_correct (B := list bool) jumps 2999999 jumps_increasing ltac:(lia)) as H3.
  pose proof (slot_history_correct (B := list bool) jumps 3000001 jumps_increasing ltac:(lia)) as H4.
  cbv zeta in H1, H2, H3, H4. fold jumped in H1, H2, H3, H4. rewrite H1, H2, H3, H4. clear. by vm_compute.
Defined.
End SlotHistoryExample.
