(* ===== verification/LatestVotes.v ===== *)
(** * Latest votes for frozen banks

    [core/src/latest_validator_votes_for_frozen_banks.rs]: per vote account,
    the newest slot voted for among the frozen banks with every version of the
    block voted for, once from replayed blocks and once from gossip, and the
    replayed votes the fork choice has not seen yet. *)
From stdpp Require Import base gmap sets option list.
From S2P Require Import Prelude ForkChoice.

Abbreviation FrozenVotes := (gmap Pubkey (Slot * list Hash)).

Record LatestValidatorVotesForFrozenBanks : Type := mkLatestVotes {
  max_gossip_frozen_votes : FrozenVotes;
  max_replay_frozen_votes : FrozenVotes;
  fork_choice_dirty_set : FrozenVotes;
}.

Definition LatestVotes_default : LatestValidatorVotesForFrozenBanks := mkLatestVotes ∅ ∅ ∅.

Definition vote_map (l : LatestValidatorVotesForFrozenBanks) (is_replay_vote : bool) : FrozenVotes :=
  if is_replay_vote then max_replay_frozen_votes l else max_gossip_frozen_votes l.

(** The entry of the map that was borrowed, and the dirty set, written back. *)
Definition write_votes (l : LatestValidatorVotesForFrozenBanks) (is_replay_vote : bool) (pubkey : Pubkey)
    (latest : Slot * list Hash) (dirty : FrozenVotes) : LatestValidatorVotesForFrozenBanks :=
  if is_replay_vote
  then mkLatestVotes (max_gossip_frozen_votes l) (<[pubkey := latest]> (max_replay_frozen_votes l)) dirty
  else mkLatestVotes (<[pubkey := latest]> (max_gossip_frozen_votes l)) (max_replay_frozen_votes l) dirty.

Definition check_add_vote (l : LatestValidatorVotesForFrozenBanks) (vote_pubkey : Pubkey) (vote_slot : Slot)
    (frozen_hash : option Hash) (is_replay_vote : bool)
  : outcome fuel_error (bool * option Slot * LatestValidatorVotesForFrozenBanks) :=
  let dirty := fork_choice_dirty_set l in
  let entry := vote_map l is_replay_vote !! vote_pubkey in
  match frozen_hash with
  | Some frozen_hash =>
      let newest := (vote_slot, [frozen_hash]) in
      let dirtied := if is_replay_vote then <[vote_pubkey := newest]> dirty else dirty in
      match entry with
      | Some (latest_slot, latest_hashes) =>
          if latest_slot <? vote_slot then
            Ok (true, Some vote_slot, write_votes l is_replay_vote vote_pubkey newest dirtied)
          else if (vote_slot =? latest_slot) && negb (bool_decide (frozen_hash ∈ latest_hashes)) then
            let latest := (latest_slot, latest_hashes ++ [frozen_hash]) in
            if is_replay_vote then
              let '(dirty_slot, dirty_hashes) := default (0, []) (dirty !! vote_pubkey) in
              if bool_decide (frozen_hash ∈ dirty_hashes) then Panic
              else Ok (true, Some vote_slot,
                write_votes l true vote_pubkey latest (<[vote_pubkey := (dirty_slot, dirty_hashes ++ [frozen_hash])]> dirty))
            else Ok (true, Some vote_slot, write_votes l false vote_pubkey latest dirty)
          else Ok (false, Some latest_slot, l)
      | None => Ok (true, Some vote_slot, write_votes l is_replay_vote vote_pubkey newest dirtied)
      end
  | None => Ok (false, fst <$> entry, l)
  end.

(** The votes handed to the fork choice, in the order of the hash map. *)
Definition take_votes_dirty_set (l : LatestValidatorVotesForFrozenBanks) (root : Slot)
  : list (Pubkey * SlotHashKey) * LatestValidatorVotesForFrozenBanks :=
  (mjoin ((fun '(pk, (slot, hashes)) => (fun hash => (pk, (slot, hash))) <$> hashes) <$>
     filter (fun e => root <= e.2.1) (map_to_list (fork_choice_dirty_set l))),
   mkLatestVotes (max_gossip_frozen_votes l) (max_replay_frozen_votes l) ∅).

(** ** Runs *)

Inductive votes_event : Type :=
| AddVote (vote_pubkey : Pubkey) (vote_slot : Slot) (frozen_hash : option Hash) (is_replay_vote : bool)
| TakeDirty (root : Slot).

Definition votes_step (l : LatestValidatorVotesForFrozenBanks) (e : votes_event)
  : outcome fuel_error LatestValidatorVotesForFrozenBanks :=
  match e with
  | AddVote pk slot hash replay => '(_, _, l) ← check_add_vote l pk slot hash replay; Ok l
  | TakeDirty root => Ok (take_votes_dirty_set l root).2
  end.

Fixpoint votes_run (l : LatestValidatorVotesForFrozenBanks) (events : list votes_event)
  : outcome fuel_error LatestValidatorVotesForFrozenBanks :=
  match events with
  | [] => Ok l
  | e :: events => l ← votes_step l e; votes_run l events
  end.

(** ** What the maps hold *)

(** [entry] is the newest slot voted for in [events] with the versions voted for. *)
Definition newest_vote (events : list votes_event) (pk : Pubkey) (replay : bool) (entry : option (Slot * list Hash)) : Prop :=
  match entry with
  | None => forall slot h, AddVote pk slot (Some h) replay ∉ events
  | Some (slot, hashes) =>
      hashes <> [] /\ NoDup hashes /\ (forall h, h ∈ hashes <-> AddVote pk slot (Some h) replay ∈ events) /\
      forall slot' h, AddVote pk slot' (Some h) replay ∈ events -> slot' <= slot
  end.

Record votes_inv (events : list votes_event) (l : LatestValidatorVotesForFrozenBanks) : Prop := {
  vi_newest pk replay : newest_vote events pk replay (vote_map l replay !! pk);
  vi_dirty pk slot hashes : fork_choice_dirty_set l !! pk = Some (slot, hashes) ->
    exists latest, max_replay_frozen_votes l !! pk = Some latest /\ hashes ⊆ latest.2;
}.

Lemma vote_map_write l replay pk entry dirty replay' pk' :
  vote_map (write_votes l replay pk entry dirty) replay' !! pk' =
    if decide (replay = replay' /\ pk = pk') then Some entry else vote_map l replay' !! pk'.
Proof.
  destruct replay, replay'; cbn; try (case_decide; naive_solver);
    destruct (decide (pk = pk')) as [->|Hne]; case_decide; rewrite ?lookup_insert_eq, ?lookup_insert_ne by done; naive_solver.
Qed.

(** An event that changes no entry of its account. *)
Lemma newest_vote_other events e pk replay entry :
  newest_vote events pk replay entry ->
  (forall slot h, e <> AddVote pk slot (Some h) replay) -> newest_vote (events ++ [e]) pk replay entry.
Proof.
  intros Hn He. destruct entry as [[slot hashes]|]; cbn in *.
  - destruct Hn as (? & ? & Hin & Hmax). split_and!; [done|done| |].
    + intros h. rewrite elem_of_app, list_elem_of_singleton, Hin. naive_solver.
    + intros slot' h [?|Heq%list_elem_of_singleton]%elem_of_app; [by eapply Hmax|]. by apply eq_sym, He in Heq.
  - intros slot h [?|Heq%list_elem_of_singleton]%elem_of_app; [by eapply Hn|]. by apply eq_sym, He in Heq.
Qed.

Lemma newest_vote_newer events pk replay entry slot h :
  newest_vote events pk replay entry -> (forall latest, fst <$> entry = Some latest -> latest < slot) ->
  newest_vote (events ++ [AddVote pk slot (Some h) replay]) pk replay (Some (slot, [h])).
Proof.
  intros Hn Hlt. assert (forall slot' h', AddVote pk slot' (Some h') replay ∈ events -> slot' < slot) as Hold.
  { intros slot' h' Hin. destruct entry as [[s hs]|]; cbn in *; [|by apply Hn in Hin].
    destruct Hn as (_ & _ & _ & Hmax). apply Hmax in Hin. pose proof (Hlt s eq_refl). lia. }
  split_and!; [done|apply NoDup_singleton| |].
  - intros h'. rewrite elem_of_app, !list_elem_of_singleton. split; [naive_solver|].
    intros [Hin%Hold|Heq]; [lia|naive_solver].
  - intros slot' h' [Hin%Hold|Heq%list_elem_of_singleton]%elem_of_app; [lia|naive_solver lia].
Qed.

Lemma newest_vote_version events pk replay slot hashes h :
  newest_vote events pk replay (Some (slot, hashes)) -> h ∉ hashes ->
  newest_vote (events ++ [AddVote pk slot (Some h) replay]) pk replay (Some (slot, hashes ++ [h])).
Proof.
  intros (Hne & Hnd & Hin & Hmax) Hh. split_and!.
  - by intros [_ ?]%app_eq_nil.
  - apply NoDup_app. split_and!; [done| |apply NoDup_singleton]. intros x Hx ->%list_elem_of_singleton. done.
  - intros h'. rewrite !elem_of_app, !list_elem_of_singleton, Hin. naive_solver.
  - intros slot' h' [?|?%list_elem_of_singleton]%elem_of_app; [by eapply Hmax|naive_solver lia].
Qed.

Lemma newest_vote_old events pk replay slot hashes slot' h :
  newest_vote events pk replay (Some (slot, hashes)) -> slot' <= slot -> (slot' = slot -> h ∈ hashes) ->
  newest_vote (events ++ [AddVote pk slot' (Some h) replay]) pk replay (Some (slot, hashes)).
Proof.
  intros (Hne & Hnd & Hin & Hmax) Hle Hh. split_and!; [done|done| |].
  - intros h'. rewrite elem_of_app, list_elem_of_singleton. split; [rewrite Hin; tauto|].
    intros [?|[= ? ?]]; [by apply Hin|]. subst. by apply Hh.
  - intros s h' [?|?%list_elem_of_singleton]%elem_of_app; [by eapply Hmax|naive_solver lia].
Qed.

(** Writing the new entry of an account re-establishes the invariant. *)
Lemma write_votes_inv events l pk slot h replay latest dirty :
  votes_inv events l ->
  newest_vote (events ++ [AddVote pk slot (Some h) replay]) pk replay (Some latest) ->
  (if replay then (exists d, dirty = <[pk := d]> (fork_choice_dirty_set l) /\ d.2 ⊆ latest.2) else dirty = fork_choice_dirty_set l) ->
  votes_inv (events ++ [AddVote pk slot (Some h) replay]) (write_votes l replay pk latest dirty).
Proof.
  intros [Hnew Hdirty] Hn Hd. split.
  - intros pk' replay'. rewrite vote_map_write. case_decide as Hc; [by destruct Hc; subst|].
    apply newest_vote_other; [done|]. intros s h' [= -> -> _ ->]. by apply Hc.
  - intros pk' s hs. destruct replay; cbn in *; [|by intros Hl; subst; apply Hdirty in Hl].
    destruct Hd as ([ds dhs] & -> & Hsub). destruct (decide (pk = pk')) as [->|Hne].
    + rewrite !lookup_insert_eq. intros [= <- <-]. eauto.
    + rewrite !lookup_insert_ne by done. apply Hdirty.
Qed.

Lemma check_add_vote_inv events l pk slot frozen replay :
  votes_inv events l ->
  exists r l', check_add_vote l pk slot frozen replay = Ok (r, l') /\
    votes_inv (events ++ [AddVote pk slot frozen replay]) l'.
Proof.
  intros Hinv. pose proof (vi_newest _ _ Hinv pk replay) as Hn. unfold check_add_vote.
  destruct frozen as [h|].
  2:{ eexists _, l. split; [done|]. split; [|apply Hinv]. intros. apply newest_vote_other; [apply Hinv|done]. }
  assert (exists d, <[pk := (slot, [h])]> (fork_choice_dirty_set l) = <[pk := d]> (fork_choice_dirty_set l) /\ d.2 ⊆ [h]) as Hd by eauto.
  destruct (vote_map l replay !! pk) as [[latest hashes]|] eqn:El.
  - destruct (Z.ltb_spec latest slot) as [Hlt|Hge]; [|destruct (Z.eqb_spec slot latest) as [->|Hne]; cbn [andb];
      [destruct (bool_decide_reflect (h ∈ hashes)) as [Hin|Hnin]; cbn [negb]|]].
    + eexists _, _. split; [done|]. apply write_votes_inv; [done| |by destruct replay].
      eapply newest_vote_newer; [exact Hn|]. by intros ? [= <-].
    + eexists _, l. split; [done|]. split; [|apply Hinv]. intros pk' replay'.
      destruct (decide (pk = pk' /\ replay = replay')) as [[<- <-]|Ho]; [rewrite El; by apply newest_vote_old|].
      apply newest_vote_other; [apply Hinv|]. intros s h' [= -> _ _ ->]. by apply Ho.
    + pose proof (newest_vote_version _ _ _ _ _ _ Hn Hnin) as Hv.
      destruct replay; [|eexists _, _; split; [done|]; by apply write_votes_inv].
      destruct (default (0, []) (fork_choice_dirty_set l !! pk)) as [ds dhs] eqn:Ed.
      assert (dhs ⊆ hashes) as Hsub.
      { destruct (fork_choice_dirty_set l !! pk) as [[ds' dhs']|] eqn:Ed'; cbn in Ed; [|injection Ed as <- <-; apply list_subseteq_nil].
        injection Ed as -> ->. destruct (vi_dirty _ _ Hinv pk ds dhs Ed') as (lat & Hl & Hs). cbn in El. rewrite El in Hl. by injection Hl as <-. }
      rewrite bool_decide_eq_false_2 by (intros ?%Hsub; done).
      eexists _, _. split; [done|]. apply write_votes_inv; [done..|]. eexists. split; [done|]. cbn. set_solver.
    + eexists _, l. split; [done|]. split; [|apply Hinv]. intros pk' replay'.
      destruct (decide (pk = pk' /\ replay = replay')) as [[<- <-]|Ho]; [rewrite El; apply newest_vote_old; [done|lia|done]|].
      apply newest_vote_other; [apply Hinv|]. intros s h' [= -> _ _ ->]. by apply Ho.
  - eexists _, _. split; [done|]. apply write_votes_inv; [done| |by destruct replay]. by eapply newest_vote_newer.
Qed.

Lemma votes_step_inv events l e :
  votes_inv events l -> exists l', votes_step l e = Ok l' /\ votes_inv (events ++ [e]) l'.
Proof.
  intros Hinv. destruct e as [pk slot frozen replay|root]; cbn [votes_step].
  - destruct (check_add_vote_inv events l pk slot frozen replay Hinv) as ([b s] & l' & -> & Hi). by exists l'.
  - eexists. split; [done|]. split; [|done]. intros pk replay. apply newest_vote_other; [|done].
    pose proof (vi_newest _ _ Hinv pk replay). by destruct replay.
Qed.

Lemma votes_run_inv events done_ l :
  votes_inv done_ l -> exists l', votes_run l events = Ok l' /\ votes_inv (done_ ++ events) l'.
Proof.
  revert done_ l. induction events as [|e events IH]; intros done_ l Hinv; cbn [votes_run]; [exists l; by rewrite app_nil_r|].
  destruct (votes_step_inv done_ l e Hinv) as (l1 & -> & H1). destruct (IH _ _ H1) as (l2 & Hr & H2). exists l2. cbn.
  split; [done|]. by rewrite cons_middle, app_assoc.
Qed.

Lemma default_votes_inv : votes_inv [] LatestVotes_default.
Proof.
  split; [|done]. intros pk replay. assert (vote_map LatestVotes_default replay !! pk = None) as -> by by destruct replay.
  by intros ?? ?%elem_of_nil.
Qed.

(** Whatever sequence of votes is added and taken, the assertion of
    [check_add_vote] never fails, and the replayed and the gossiped map hold,
    for every vote account, the newest slot it voted for among the frozen banks
    with each version of that slot it voted for, once. *)
Theorem latest_votes_exact events :
  exists l, votes_run LatestVotes_default events = Ok l /\
    forall pk replay, newest_vote events pk replay (vote_map l replay !! pk).
Proof.
  destruct (votes_run_inv events [] LatestVotes_default default_votes_inv) as (l & Hr & Hi).
  exists l. split; [done|]. apply Hi.
Qed.

Module LatestVotesExample.
(** The fork choice takes the vote of account 1 for version 100 of slot 5; a
    vote of the same account for version 99 is then recorded under slot 0, and
    the next call with a root above 0 drops it: the fork choice never sees it,
    although the vote was accepted as new. *)
Definition lost_run : list votes_event :=
  [AddVote 1 5 (Some 100) true; TakeDirty 3; AddVote 1 5 (Some 99) true].

Lemma duplicate_version_lost :
  exists l, votes_run LatestVotes_default lost_run = Ok l /\
    max_replay_frozen_votes l !! 1 = Some (5, [100; 99]) /\
    fork_choice_dirty_set l !! 1 = Some (0, [99]) /\
    (take_votes_dirty_set l 3).1 = [].
Proof. eexists. split; [vm_compute; reflexivity|]. by vm_compute. Qed.
End LatestVotesExample.
