(* ===== verification/Progress.v ===== *)
(** * The progress map

    [core/src/progress_map.rs]: what the replay stage knows of every frozen or
    active bank (vote statistics, propagation of the validator's own leader
    blocks), and the walk of [core/src/replay_stage.rs] that records observed
    votes on the chain of leader slots. The trackers shared with the gossip
    threads are read by the caller: the votes they return are arguments. *)
From stdpp Require Import base gmap sets option list.
From S2P Require Import Prelude Float64.

Abbreviation VotedStakes := (gmap Slot Z).
(** keyed by the end of the lockout, ordered *)
Abbreviation LockoutIntervals := (list (Slot * list (Slot * Pubkey))).

(** ** Statistics of a bank *)

Record ForkStats : Type := mkForkStats {
  fs_weight : Z;
  fs_fork_weight : Z;
  fs_total_stake : Z;
  fs_block_height : Z;
  fs_has_voted : bool;
  fs_is_recent : bool;
  fs_is_empty : bool;
  fs_vote_threshold : bool;
  fs_is_locked_out : bool;
  fs_voted_stakes : VotedStakes;
  fs_is_supermajority_confirmed : bool;
  fs_computed : bool;
  fs_lockout_intervals : LockoutIntervals;
  fs_bank_hash : option Hash;
  fs_my_latest_landed_vote : option Slot;
}.

Definition ForkStats_default : ForkStats :=
  mkForkStats 0 0 0 0 false false false false false ∅ false false [] None None.

Record PropagatedStats : Type := mkPropagatedStats {
  propagated_validators : gset Pubkey;
  propagated_node_ids : gset Pubkey;
  propagated_validators_stake : Z;
  ps_is_propagated : bool;
  is_leader_slot : bool;
  prev_leader_slot : option Slot;
  total_epoch_stake : Z;
}.

Record ForkProgress : Type := mkForkProgress {
  is_dead : bool;
  fork_stats : ForkStats;
  propagated_stats : PropagatedStats;
  num_blocks_on_fork : Z;
  num_dropped_blocks_on_fork : Z;
}.

Abbreviation ProgressMap := (gmap Slot ForkProgress).

Definition set_fork_stats (s : ForkStats) (p : ForkProgress) : ForkProgress :=
  mkForkProgress (is_dead p) s (propagated_stats p) (num_blocks_on_fork p) (num_dropped_blocks_on_fork p).

Definition set_propagated_stats (s : PropagatedStats) (p : ForkProgress) : ForkProgress :=
  mkForkProgress (is_dead p) (fork_stats p) s (num_blocks_on_fork p) (num_dropped_blocks_on_fork p).

Definition set_is_propagated (s : PropagatedStats) : PropagatedStats :=
  mkPropagatedStats (propagated_validators s) (propagated_node_ids s) (propagated_validators_stake s) true
    (is_leader_slot s) (prev_leader_slot s) (total_epoch_stake s).

Record ValidatorStakeInfo : Type := mkValidatorStakeInfo {
  validator_vote_pubkey : Pubkey;
  vsi_stake : Z;
  vsi_total_epoch_stake : Z;
}.

(** [1f64 / 3f64] *)
Definition SUPERMINORITY_THRESHOLD : f64 := f64_div (f64_of_u64 1) (f64_of_u64 3).

(** [stake as f64 / total as f64 > threshold] *)
Definition stake_above (threshold : f64) (stake total : Z) : bool :=
  f64_lt threshold (f64_div (f64_of_u64 stake) (f64_of_u64 total)).

Definition ForkProgress_new (prev_leader_slot : option Slot) (validator_stake_info : option ValidatorStakeInfo)
    (num_blocks_on_fork num_dropped_blocks_on_fork : Z) : ForkProgress :=
  mkForkProgress false ForkStats_default
    match validator_stake_info with
    | Some info =>
        mkPropagatedStats {[ validator_vote_pubkey info ]} ∅ (vsi_stake info)
          (if vsi_total_epoch_stake info =? 0 then true
           else stake_above SUPERMINORITY_THRESHOLD (vsi_stake info) (vsi_total_epoch_stake info))
          true prev_leader_slot (vsi_total_epoch_stake info)
    | None => mkPropagatedStats ∅ ∅ 0 false false prev_leader_slot 0
    end num_blocks_on_fork num_dropped_blocks_on_fork.

(** ** Reading the map *)

Definition get_propagated_stats (p : ProgressMap) (slot : Slot) : option PropagatedStats := propagated_stats <$> p !! slot.
Definition get_fork_stats (p : ProgressMap) (slot : Slot) : option ForkStats := fork_stats <$> p !! slot.
Definition get_hash (p : ProgressMap) (slot : Slot) : option Hash := p !! slot ≫= (fun f => fs_bank_hash (fork_stats f)).
Definition is_computed (p : ProgressMap) (slot : Slot) : bool := default false (fs_computed <$> get_fork_stats p slot).

Definition get_latest_leader_slot (p : ProgressMap) (slot : Slot) : outcome fuel_error (option Slot) :=
  s ← unwrap (get_propagated_stats p slot);
  Ok (if is_leader_slot s then Some slot else prev_leader_slot s).

Definition is_propagated (p : ProgressMap) (slot : Slot) : outcome fuel_error bool :=
  leader ← get_latest_leader_slot p slot;
  Ok match leader with
     | Some leader => default true (ps_is_propagated <$> get_propagated_stats p leader)
     | None => true
     end.

Definition my_latest_landed_vote (p : ProgressMap) (slot : Slot) : option Slot :=
  p !! slot ≫= (fun f => fs_my_latest_landed_vote (fork_stats f)).

Definition get_bank_prev_leader_slot (p : ProgressMap) (parent_slot : Slot) : option Slot :=
  get_propagated_stats p parent_slot ≫= (fun s => if is_leader_slot s then Some parent_slot else prev_leader_slot s).

Definition progress_handle_new_root (banks : gset Slot) (p : ProgressMap) : ProgressMap :=
  filter (fun e => e.1 ∈ banks) p.

(** ** Propagation of leader blocks *)

(** What the walk reads of a leader bank: the stakes of its own epoch and the
    vote accounts of every node. *)
Record LeaderBank : Type := mkLeaderBank {
  lb_epoch_vote_accounts : gmap Pubkey Z;
  lb_node_vote_accounts : gmap Pubkey (list Pubkey);
}.

Definition epoch_vote_account_stake (b : LeaderBank) (vote_account : Pubkey) : Z :=
  default 0 (lb_epoch_vote_accounts b !! vote_account).

Definition add_vote_pubkey (vote_pubkey : Pubkey) (stake : Z) (s : PropagatedStats) : PropagatedStats :=
  if bool_decide (vote_pubkey ∈ propagated_validators s) then s
  else mkPropagatedStats ({[vote_pubkey]} ∪ propagated_validators s) (propagated_node_ids s)
         (add64 (propagated_validators_stake s) stake) (ps_is_propagated s) (is_leader_slot s) (prev_leader_slot s) (total_epoch_stake s).

Definition add_node_pubkey_internal (node_pubkey : Pubkey) (vote_account_pubkeys : list Pubkey)
    (epoch_vote_accounts : gmap Pubkey Z) (s : PropagatedStats) : PropagatedStats :=
  foldl (fun s pk => add_vote_pubkey pk (default 0 (epoch_vote_accounts !! pk)) s)
    (mkPropagatedStats (propagated_validators s) ({[node_pubkey]} ∪ propagated_node_ids s) (propagated_validators_stake s)
       (ps_is_propagated s) (is_leader_slot s) (prev_leader_slot s) (total_epoch_stake s))
    vote_account_pubkeys.

Definition add_node_pubkey (node_pubkey : Pubkey) (bank : LeaderBank) (s : PropagatedStats) : PropagatedStats :=
  if bool_decide (node_pubkey ∈ propagated_node_ids s) then s
  else match lb_node_vote_accounts bank !! node_pubkey with
       | Some vote_accounts => add_node_pubkey_internal node_pubkey vote_accounts (lb_epoch_vote_accounts bank) s
       | None => s
       end.

(** [newly_voted_pubkeys.retain(..)]: records the votes, keeps the new ones. *)
Fixpoint retain_new_voters (bank : LeaderBank) (voters : list Pubkey) (s : PropagatedStats)
  : list Pubkey * PropagatedStats :=
  match voters with
  | [] => ([], s)
  | pk :: voters =>
      let exists_ := bool_decide (pk ∈ propagated_validators s) in
      let '(kept, s) := retain_new_voters bank voters (add_vote_pubkey pk (epoch_vote_account_stake bank pk) s) in
      (if exists_ then kept else pk :: kept, s)
  end.

Fixpoint retain_new_nodes (bank : LeaderBank) (nodes : list Pubkey) (s : PropagatedStats)
  : list Pubkey * PropagatedStats :=
  match nodes with
  | [] => ([], s)
  | node :: nodes =>
      let exists_ := bool_decide (node ∈ propagated_node_ids s) in
      let '(kept, s) := retain_new_nodes bank nodes (add_node_pubkey node bank s) in
      (if exists_ then kept else node :: kept, s)
  end.

(** The flag, the votes and nodes left to record, and the new statistics. *)
Definition update_slot_propagated_threshold_from_votes (newly_voted cluster_slot : list Pubkey) (bank : LeaderBank)
    (s : PropagatedStats) (did_child_reach_threshold : bool) : bool * list Pubkey * list Pubkey * PropagatedStats :=
  if did_child_reach_threshold then
    if negb (ps_is_propagated s) then (true, newly_voted, cluster_slot, set_is_propagated s)
    else (false, newly_voted, cluster_slot, s)
  else if ps_is_propagated s then (false, newly_voted, cluster_slot, s)
  else
    let '(newly_voted, s) := retain_new_voters bank newly_voted s in
    let '(cluster_slot, s) := retain_new_nodes bank cluster_slot s in
    if (total_epoch_stake s =? 0) || stake_above SUPERMINORITY_THRESHOLD (propagated_validators_stake s) (total_epoch_stake s)
    then (true, newly_voted, cluster_slot, set_is_propagated s)
    else (false, newly_voted, cluster_slot, s).

(** The walk over [prev_leader_slot]; each turn visits an earlier leader slot. *)
Fixpoint propagate_votes (fuel : nat) (root : Slot) (banks : gmap Slot LeaderBank) (current_leader_slot : option Slot)
    (newly_voted cluster_slot : list Pubkey) (did_newly_reach_threshold : bool) (p : ProgressMap)
  : outcome fuel_error ProgressMap :=
  match fuel with
  | O => Err OutOfFuel
  | S fuel =>
      match current_leader_slot with
      | None => Ok p
      | Some current =>
          if current <? root then Ok p
          else
            f ← unwrap (p !! current);
            let s := propagated_stats f in
            if ps_is_propagated s
               || (bool_decide (newly_voted = []) && bool_decide (cluster_slot = []) && negb did_newly_reach_threshold)
            then Ok p
            else if negb (is_leader_slot s) then Panic
            else
              bank ← unwrap (banks !! current);
              let '(reached, newly_voted, cluster_slot, s') :=
                update_slot_propagated_threshold_from_votes newly_voted cluster_slot bank s did_newly_reach_threshold in
              propagate_votes fuel root banks (prev_leader_slot s') newly_voted cluster_slot
                (reached || did_newly_reach_threshold) (<[current := set_propagated_stats s' f]> p)
      end
  end.

Definition update_fork_propagated_threshold_from_votes (p : ProgressMap) (newly_voted cluster_slot : list Pubkey)
    (fork_tip root : Slot) (banks : gmap Slot LeaderBank) : outcome fuel_error ProgressMap :=
  leader ← get_latest_leader_slot p fork_tip;
  propagate_votes (S (S (size p))) root banks leader newly_voted cluster_slot false p.

Definition update_propagation_status (p : ProgressMap) (slot root : Slot) (banks : gmap Slot LeaderBank)
    (newly_voted cluster_slot : list Pubkey) : outcome fuel_error ProgressMap :=
  propagated ← is_propagated p slot;
  if (propagated : bool) then Ok p
  else update_fork_propagated_threshold_from_votes p newly_voted cluster_slot slot root banks.

Definition NUM_CONSECUTIVE_LEADER_SLOTS : Z := 4.

Definition check_propagation_for_start_leader (poh_slot parent_slot : Slot) (p : ProgressMap) : outcome fuel_error bool :=
  latest ← get_latest_leader_slot p parent_slot;
  match latest with
  | Some latest => if sub64 poh_slot latest <? NUM_CONSECUTIVE_LEADER_SLOTS then Ok true else is_propagated p parent_slot
  | None => is_propagated p parent_slot
  end.
