(* ===== verification/Tower.v ===== *)
(** * The validator's tower

    [core/src/consensus.rs]: the lockouts a validator keeps of its own votes,
    the checks made before a vote (lockout, stake threshold, switching proof),
    the vote statistics of a bank, and the adjustment of a restored tower to
    the replayed ledger. Hash maps that are iterated are lists, in the order of
    the iteration; the wall clock is an argument. *)
From stdpp Require Import base gmap sets option list.
From S2P Require Import Prelude OrdMap Instruction VoteState Float64 RollingBitField ForkChoice SlotHistory LatestVotes Progress.

(** ** Data *)

Inductive SwitchForkDecision : Type :=
| SwitchProof (hash : Hash)
| SameFork
| FailedSwitchThreshold (stake total : Z)
| FailedSwitchDuplicateRollback (slot : Slot).

Definition can_vote (d : SwitchForkDecision) : bool :=
  match d with
  | FailedSwitchThreshold _ _ | FailedSwitchDuplicateRollback _ => false
  | SameFork | SwitchProof _ => true
  end.

(** The vote instruction a decision allows, by its optional switch proof. *)
Definition to_vote_instruction (d : SwitchForkDecision) (vote : Vote) : outcome fuel_error (option (Vote * option Hash)) :=
  match d with
  | FailedSwitchThreshold _ total => if total =? 0 then Panic else Ok None
  | FailedSwitchDuplicateRollback _ => Ok None
  | SameFork => Ok (Some (vote, None))
  | SwitchProof hash => Ok (Some (vote, Some hash))
  end.

Definition VOTE_THRESHOLD_DEPTH : nat := 8.
Definition SWITCH_FORK_THRESHOLD : f64 := f64_div (f64_of_u64 38) (f64_of_u64 100).
Definition VOTE_THRESHOLD_SIZE : f64 := f64_div (f64_of_u64 2) (f64_of_u64 3).

Record ComputedBankState : Type := mkComputedBankState {
  cb_voted_stakes : VotedStakes;
  cb_total_stake : Z;
  cb_bank_weight : Z;
  cb_lockout_intervals : LockoutIntervals;
  cb_my_latest_landed_vote : option Slot;
}.

Record Tower : Type := mkTower {
  tower_node_pubkey : Pubkey;
  threshold_depth : nat;
  threshold_size : f64;
  vote_state : VoteState;
  last_vote : Vote;
  last_vote_tx_blockhash : Hash;
  tower_last_timestamp : BlockTimestamp;
  stray_restored_slot : option Slot;
  last_switch_threshold_check : option (Slot * SwitchForkDecision);
}.

Definition Vote_default : Vote := mkVote [] Hash_default None.

Definition set_vote_state (s : VoteState) (t : Tower) : Tower :=
  mkTower (tower_node_pubkey t) (threshold_depth t) (threshold_size t) s (last_vote t) (last_vote_tx_blockhash t)
    (tower_last_timestamp t) (stray_restored_slot t) (last_switch_threshold_check t).

Definition set_last_vote (v : Vote) (t : Tower) : Tower :=
  mkTower (tower_node_pubkey t) (threshold_depth t) (threshold_size t) (vote_state t) v (last_vote_tx_blockhash t)
    (tower_last_timestamp t) (stray_restored_slot t) (last_switch_threshold_check t).

Definition refresh_last_vote_tx_blockhash (h : Hash) (t : Tower) : Tower :=
  mkTower (tower_node_pubkey t) (threshold_depth t) (threshold_size t) (vote_state t) (last_vote t) h
    (tower_last_timestamp t) (stray_restored_slot t) (last_switch_threshold_check t).

Definition set_tower_timestamp (ts : BlockTimestamp) (t : Tower) : Tower :=
  mkTower (tower_node_pubkey t) (threshold_depth t) (threshold_size t) (vote_state t) (last_vote t) (last_vote_tx_blockhash t)
    ts (stray_restored_slot t) (last_switch_threshold_check t).

Definition set_stray (s : option Slot) (t : Tower) : Tower :=
  mkTower (tower_node_pubkey t) (threshold_depth t) (threshold_size t) (vote_state t) (last_vote t) (last_vote_tx_blockhash t)
    (tower_last_timestamp t) s (last_switch_threshold_check t).

Definition set_switch_check (c : option (Slot * SwitchForkDecision)) (t : Tower) : Tower :=
  mkTower (tower_node_pubkey t) (threshold_depth t) (threshold_size t) (vote_state t) (last_vote t) (last_vote_tx_blockhash t)
    (tower_last_timestamp t) (stray_restored_slot t) c.

Definition Tower_default : Tower :=
  mkTower Pubkey_default VOTE_THRESHOLD_DEPTH VOTE_THRESHOLD_SIZE (set_root_slot (Some 0) VoteState_default)
    Vote_default Hash_default BlockTimestamp_default None None.

(** ** Reading the tower *)

Definition tower_root {E} (t : Tower) : outcome E Slot := unwrap (root_slot (vote_state t)).

Definition tower_slots (t : Tower) : list Slot := tower (vote_state t).

Definition tower_last_voted_slot (t : Tower) : option Slot := Vote_last_voted_slot (last_vote t).

Definition last_voted_slot_hash (t : Tower) : option (Slot * Hash) := Vote_last_voted_slot_hash (last_vote t).

Definition voted_slots (t : Tower) : list Slot := lo_slot <$> votes (vote_state t).

Definition is_stray_last_vote (t : Tower) : bool :=
  match tower_last_voted_slot t, stray_restored_slot t with
  | Some last, Some stray => stray =? last
  | _, _ => false
  end.

Definition is_first_switch_check (t : Tower) : bool := bool_decide (last_switch_threshold_check t = None).

Definition is_recent (t : Tower) (slot : Slot) : bool :=
  match last_voted_slot (vote_state t) with
  | Some last => negb (slot <=? last)
  | None => true
  end.

Definition has_voted (t : Tower) (slot : Slot) : bool :=
  existsb (fun v => slot =? lo_slot v) (votes (vote_state t)).

(** ** Lockouts *)

Definition is_locked_out (t : Tower) (slot : Slot) (ancestors : gset Slot) : outcome fuel_error bool :=
  if negb (is_recent t slot) then Ok true
  else
    let s := process_slot_vote_unchecked slot (vote_state t) in
    if existsb (fun v => negb (slot =? lo_slot v) && negb (bool_decide (lo_slot v ∈ ancestors))) (votes s) then Ok true
    else
      match root_slot s with
      | Some root => if negb (slot =? root) && negb (bool_decide (root ∈ ancestors)) then Panic else Ok false
      | None => Ok false
      end.

(** ** Recording a vote *)

Fixpoint skip_while (f : Slot -> bool) (l : list Slot) : list Slot :=
  match l with
  | [] => []
  | x :: l' => if f x then skip_while f l' else l
  end.

Definition apply_vote_and_generate_vote_diff (local_vote_state : VoteState) (slot : Slot) (hash : Hash)
    (last_voted_slot_in_bank : option Slot) : Vote * VoteState :=
  let s := process_vote_unchecked (Vote_new [slot] hash) local_vote_state in
  let slots :=
    match last_voted_slot_in_bank with
    | Some last => skip_while (fun s => s <=? last) (lo_slot <$> votes s)
    | None => lo_slot <$> votes s
    end in
  (Vote_new slots hash, s).

Definition maybe_timestamp (now : UnixTimestamp) (current_slot : Slot) (t : Tower) : option UnixTimestamp * Tower :=
  let ts := tower_last_timestamp t in
  if (bts_slot ts <? current_slot) || ((bts_slot ts =? 0) && (current_slot =? bts_slot ts)) then
    if bts_timestamp ts <=? now
    then (Some now, set_tower_timestamp (mkBlockTimestamp current_slot now) t)
    else (None, t)
  else (None, t).

Definition record_bank_vote_and_update_lockouts (now : UnixTimestamp) (vote_slot : Slot) (hash : Hash)
    (last_voted_slot_in_bank : option Slot) (t : Tower) : outcome fuel_error (option Slot * Tower) :=
  old_root ← tower_root t;
  let '(new_vote, s) := apply_vote_and_generate_vote_diff (vote_state t) vote_slot hash last_voted_slot_in_bank in
  let t := set_vote_state s t in
  let '(timestamp, t) := maybe_timestamp now (default 0 (tower_last_voted_slot t)) t in
  let t := set_last_vote (mkVote (vote_slots new_vote) (VoteState.vote_hash new_vote) timestamp) t in
  new_root ← tower_root t;
  Ok (if old_root =? new_root then None else Some new_root, t).

(** [last_voted_slot_in_bank]: the vote account of the bank, when it decodes. *)
Definition last_voted_slot_in_bank (vote_account : option (option VoteState)) : option Slot :=
  account ← vote_account; s ← account; last_voted_slot s.

Definition record_bank_vote (now : UnixTimestamp) (bank_slot : Slot) (bank_hash : Hash)
    (vote_account : option (option VoteState)) (t : Tower) : outcome fuel_error (option Slot * Tower) :=
  record_bank_vote_and_update_lockouts now bank_slot bank_hash (last_voted_slot_in_bank vote_account) t.

(** ** Stake thresholds *)

Definition is_slot_confirmed (t : Tower) (slot : Slot) (voted_stakes : VotedStakes) (total_stake : Z) : bool :=
  match voted_stakes !! slot with
  | Some stake => stake_above (threshold_size t) stake total_stake
  | None => false
  end.

Definition check_vote_stake_threshold (t : Tower) (slot : Slot) (voted_stakes : VotedStakes) (total_stake : Z) : bool :=
  let s := process_slot_vote_unchecked slot (vote_state t) in
  match nth_recent_vote s (threshold_depth t) with
  | Some vote =>
      match voted_stakes !! lo_slot vote with
      | Some fork_stake =>
          if (Z.of_nat (threshold_depth t) <? confirmation_count vote)
             && existsb (fun old => (lo_slot old =? lo_slot vote) && (confirmation_count old =? confirmation_count vote))
                  (votes (vote_state t))
          then true
          else stake_above (threshold_size t) fork_stake total_stake
      | None => false
      end
  | None => true
  end.

(** ** Vote statistics of a bank *)

Definition add_voted_stake (stake : Z) (slot : Slot) (voted : VotedStakes) : VotedStakes :=
  <[slot := add64 (default 0 (voted !! slot)) stake]> voted.

Definition update_ancestor_voted_stakes (voted : VotedStakes) (voted_slot : Slot) (voted_stake : Z)
    (ancestors : gmap Slot (gset Slot)) : VotedStakes :=
  match ancestors !! voted_slot with
  | Some slot_ancestors => foldl (fun m slot => add_voted_stake voted_stake slot m) (add_voted_stake voted_stake voted_slot voted) (elements slot_ancestors)
  | None => voted
  end.

(** [entry(slot).or_default()] *)
Definition touch (voted : VotedStakes) (slot : Slot) : VotedStakes := <[slot := default 0 (voted !! slot)]> voted.

Definition populate_ancestor_voted_stakes (voted : VotedStakes) (vote_slots : list Slot)
    (ancestors : gmap Slot (gset Slot)) : VotedStakes :=
  foldl (fun voted vote_slot =>
    match ancestors !! vote_slot with
    | Some slot_ancestors => foldl touch (touch voted vote_slot) (elements slot_ancestors)
    | None => voted
    end) voted vote_slots.

(** [lockout_intervals.entry(end).or_insert_with(Vec::new).push(..)] *)
Definition push_interval (key : Pubkey) (intervals : LockoutIntervals) (vote : Lockout) : LockoutIntervals :=
  let e := last_locked_out_slot vote in
  bt_insert e (default [] (bt_get e intervals) ++ [(lo_slot vote, key)]) intervals.

Record Collected : Type := mkCollected {
  cl_vote_slots : gset Slot;
  cl_state : ComputedBankState;
  cl_latest : LatestValidatorVotesForFrozenBanks;
}.

(** The weight and slots of the votes counted after the simulated vote. *)
Definition weigh (stake : Z) (acc : Z * gset Slot) (vote : Lockout) : Z * gset Slot :=
  (add128 acc.1 (mul128 (lockout vote) stake), {[lo_slot vote]} ∪ acc.2).

Definition root_lockout (root : Slot) : Lockout := mkLockout root (Z.of_nat MAX_LOCKOUT_HISTORY).

(** The body of the loop of [collect_vote_lockouts]. *)
Definition collect_account (vote_account_pubkey : Pubkey) (bank_slot : Slot) (ancestors : gmap Slot (gset Slot))
    (get_frozen_hash : Slot -> option Hash) (key : Pubkey) (voted_stake : Z) (account : option VoteState) (c : Collected)
  : outcome fuel_error Collected :=
  if voted_stake =? 0 then Ok c
  else match account with
  | None => Ok c
  | Some s =>
      let st := cl_state c in
      let intervals := foldl (push_interval key) (cb_lockout_intervals st) (votes s) in
      let mine := if key =? vote_account_pubkey then lo_slot <$> nth_recent_vote s 0 else cb_my_latest_landed_vote st in
      latest ← match last_voted_slot s with
               | Some slot => '(_, latest) ← check_add_vote (cl_latest c) key slot (get_frozen_hash slot) true; Ok latest
               | None => Ok (cl_latest c)
               end;
      let s' := process_slot_vote_unchecked bank_slot s in
      let acc := foldl (weigh voted_stake) (cb_bank_weight st, cl_vote_slots c) (votes s') in
      let acc := if bool_decide (root_slot s = root_slot s') then acc
                 else match root_slot s with Some root => weigh voted_stake acc (root_lockout root) | None => acc end in
      let acc := match root_slot s' with Some root => weigh voted_stake acc (root_lockout root) | None => acc end in
      if bool_decide (lo_slot <$> nth_recent_vote s' 0 = Some bank_slot) then
        let voted := match nth_recent_vote s' 1 with
                     | Some vote => update_ancestor_voted_stakes (cb_voted_stakes st) (lo_slot vote) voted_stake ancestors
                     | None => cb_voted_stakes st
                     end in
        Ok (mkCollected acc.2 (mkComputedBankState voted (add64 (cb_total_stake st) voted_stake) acc.1 intervals mine) latest)
      else Panic
  end.

Fixpoint collect_accounts (vote_account_pubkey : Pubkey) (bank_slot : Slot) (vote_accounts : list (Pubkey * (Z * option VoteState)))
    (ancestors : gmap Slot (gset Slot)) (get_frozen_hash : Slot -> option Hash) (c : Collected) : outcome fuel_error Collected :=
  match vote_accounts with
  | [] => Ok c
  | (key, (stake, account)) :: vote_accounts =>
      c ← collect_account vote_account_pubkey bank_slot ancestors get_frozen_hash key stake account c;
      collect_accounts vote_account_pubkey bank_slot vote_accounts ancestors get_frozen_hash c
  end.

Definition collect_vote_lockouts (vote_account_pubkey : Pubkey) (bank_slot : Slot)
    (vote_accounts : list (Pubkey * (Z * option VoteState))) (ancestors : gmap Slot (gset Slot))
    (get_frozen_hash : Slot -> option Hash) (latest : LatestValidatorVotesForFrozenBanks)
  : outcome fuel_error (ComputedBankState * LatestValidatorVotesForFrozenBanks) :=
  c ← collect_accounts vote_account_pubkey bank_slot vote_accounts ancestors get_frozen_hash
        (mkCollected ∅ (mkComputedBankState ∅ 0 0 [] None) latest);
  let st := cl_state c in
  let voted := populate_ancestor_voted_stakes (cb_voted_stakes st) (elements (cl_vote_slots c)) ancestors in
  Ok (mkComputedBankState voted (cb_total_stake st) (cb_bank_weight st) (cb_lockout_intervals st) (cb_my_latest_landed_vote st),
      cl_latest c).

(** ** The switching proof *)

Definition is_candidate_slot_descendant_of_last_vote (candidate_slot last_voted_slot : Slot)
    (ancestors : gmap Slot (gset Slot)) : option bool :=
  (fun candidate_ancestors => bool_decide (last_voted_slot ∈ candidate_ancestors)) <$> ancestors !! candidate_slot.

(** The loops either return a proof or go on with the stake counted so far. *)
Inductive scan : Type :=
| ScanProof
| ScanStake (locked_out_stake : Z) (locked_out_vote_accounts : gset Pubkey).

Definition count_locked_out (epoch_vote_accounts : gmap Pubkey Z) (total_stake : Z) (key : Pubkey) (stake : Z)
    (accounts : gset Pubkey) : scan :=
  let stake := add64 stake (default 0 (epoch_vote_accounts !! key)) in
  if stake_above SWITCH_FORK_THRESHOLD stake total_stake then ScanProof else ScanStake stake ({[key]} ∪ accounts).

(** The lockout intervals of one bank that end at or after the last vote. *)
Fixpoint scan_intervals (epoch_vote_accounts : gmap Pubkey Z) (total_stake : Z) (last_vote_ancestors : gset Slot) (root : Slot)
    (intervals : list (Slot * Pubkey)) (stake : Z) (accounts : gset Pubkey) : scan :=
  match intervals with
  | [] => ScanStake stake accounts
  | (start, key) :: intervals =>
      if bool_decide (key ∈ accounts) then
        scan_intervals epoch_vote_accounts total_stake last_vote_ancestors root intervals stake accounts
      else if negb (bool_decide (start ∈ last_vote_ancestors)) && (root <? start) then
        match count_locked_out epoch_vote_accounts total_stake key stake accounts with
        | ScanProof => ScanProof
        | ScanStake stake accounts =>
            scan_intervals epoch_vote_accounts total_stake last_vote_ancestors root intervals stake accounts
        end
      else scan_intervals epoch_vote_accounts total_stake last_vote_ancestors root intervals stake accounts
  end.

Definition intervals_from (last_voted_slot : Slot) (intervals : LockoutIntervals) : list (Slot * Pubkey) :=
  mjoin (snd <$> filter (fun e => last_voted_slot <= e.1) intervals).

(** The banks that are skipped. *)
Definition skip_candidate (progress : ProgressMap) (ancestors : gmap Slot (gset Slot)) (last_voted_slot root : Slot)
    (candidate_slot : Slot) (descendants : gset Slot) : outcome fuel_error bool :=
  if negb (is_computed progress candidate_slot) then Ok true
  else if existsb (is_computed progress) (elements descendants) then Ok true
  else if candidate_slot =? last_voted_slot then Ok true
  else
    descendant ← unwrap (is_candidate_slot_descendant_of_last_vote candidate_slot last_voted_slot ancestors);
    Ok ((descendant : bool) || (candidate_slot <=? root)).

Fixpoint scan_candidates (progress : ProgressMap) (ancestors : gmap Slot (gset Slot)) (epoch_vote_accounts : gmap Pubkey Z)
    (total_stake : Z) (last_vote_ancestors : gset Slot) (last_voted_slot root : Slot) (descendants : list (Slot * gset Slot))
    (stake : Z) (accounts : gset Pubkey) : outcome fuel_error scan :=
  match descendants with
  | [] => Ok (ScanStake stake accounts)
  | (candidate_slot, slots) :: descendants =>
      skip ← skip_candidate progress ancestors last_voted_slot root candidate_slot slots;
      if (skip : bool) then
        scan_candidates progress ancestors epoch_vote_accounts total_stake last_vote_ancestors last_voted_slot root descendants stake accounts
      else if bool_decide (candidate_slot ∈ last_vote_ancestors) then Panic
      else
        stats ← unwrap (get_fork_stats progress candidate_slot);
        match scan_intervals epoch_vote_accounts total_stake last_vote_ancestors root
                (intervals_from last_voted_slot (fs_lockout_intervals stats)) stake accounts with
        | ScanProof => Ok ScanProof
        | ScanStake stake accounts =>
            scan_candidates progress ancestors epoch_vote_accounts total_stake last_vote_ancestors last_voted_slot root descendants stake accounts
        end
  end.

(** The votes seen in gossip that have not landed in a block. *)
Fixpoint scan_gossip (ancestors : gmap Slot (gset Slot)) (epoch_vote_accounts : gmap Pubkey Z) (total_stake : Z)
    (last_voted_slot : Slot) (gossip : list (Pubkey * (Slot * list Hash))) (stake : Z) (accounts : gset Pubkey) : scan :=
  match gossip with
  | [] => ScanStake stake accounts
  | (key, (candidate, _)) :: gossip =>
      if bool_decide (key ∈ accounts) then scan_gossip ancestors epoch_vote_accounts total_stake last_voted_slot gossip stake accounts
      else if (last_voted_slot <? candidate)
              && negb (default true (is_candidate_slot_descendant_of_last_vote candidate last_voted_slot ancestors)) then
        match count_locked_out epoch_vote_accounts total_stake key stake accounts with
        | ScanProof => ScanProof
        | ScanStake stake accounts => scan_gossip ancestors epoch_vote_accounts total_stake last_voted_slot gossip stake accounts
        end
      else scan_gossip ancestors epoch_vote_accounts total_stake last_voted_slot gossip stake accounts
  end.

(** The last vote was on a duplicate block that has been rolled back. *)
Definition duplicate_decision (progress : ProgressMap) (fork_choice : HeaviestSubtreeForkChoice)
    (switch last : SlotHashKey) : outcome fuel_error (option SwitchForkDecision) :=
  match latest_invalid_ancestor fork_choice last with
  | Some duplicate =>
      ancestor ← is_strict_ancestor fork_choice switch last;
      Ok (if (ancestor : bool) then Some (FailedSwitchDuplicateRollback duplicate)
          else if bool_decide (get_hash progress last.1 = Some last.2) then None
          else Some (SwitchProof Hash_default))
  | None => Ok None
  end.

Definition make_check_switch_threshold_decision (t : Tower) (switch_slot : Slot) (ancestors : gmap Slot (gset Slot))
    (descendants : list (Slot * gset Slot)) (progress : ProgressMap) (total_stake : Z) (epoch_vote_accounts : gmap Pubkey Z)
    (gossip : list (Pubkey * (Slot * list Hash))) (fork_choice : HeaviestSubtreeForkChoice)
  : outcome fuel_error SwitchForkDecision :=
  match last_voted_slot_hash t with
  | None => Ok SameFork
  | Some (last_voted_slot, last_voted_hash) =>
      root ← tower_root t;
      switch_hash ← unwrap (get_hash progress switch_slot);
      duplicate ← duplicate_decision progress fork_choice (switch_slot, switch_hash) (last_voted_slot, last_voted_hash);
      match duplicate with
      | Some decision => Ok decision
      | None =>
          last_vote_ancestors ← match ancestors !! last_voted_slot with
                                | Some a => Ok a
                                | None => if is_stray_last_vote t then Ok ∅ else Panic
                                end;
          switch_slot_ancestors ← unwrap (ancestors !! switch_slot);
          if (switch_slot =? last_voted_slot) || bool_decide (last_voted_slot ∈ (switch_slot_ancestors : gset Slot)) then Ok SameFork
          else if bool_decide (switch_slot ∈ (last_vote_ancestors : gset Slot)) then
            if is_stray_last_vote t then Ok (FailedSwitchThreshold 0 total_stake) else Panic
          else
            s ← scan_candidates progress ancestors epoch_vote_accounts total_stake last_vote_ancestors last_voted_slot root
                  descendants 0 ∅;
            match s with
            | ScanProof => Ok (SwitchProof Hash_default)
            | ScanStake stake accounts =>
                match scan_gossip ancestors epoch_vote_accounts total_stake last_voted_slot gossip stake accounts with
                | ScanProof => Ok (SwitchProof Hash_default)
                | ScanStake stake _ => Ok (FailedSwitchThreshold stake total_stake)
                end
            end
      end
  end.

Definition check_switch_threshold (t : Tower) (switch_slot : Slot) (ancestors : gmap Slot (gset Slot))
    (descendants : list (Slot * gset Slot)) (progress : ProgressMap) (total_stake : Z) (epoch_vote_accounts : gmap Pubkey Z)
    (gossip : list (Pubkey * (Slot * list Hash))) (fork_choice : HeaviestSubtreeForkChoice)
  : outcome fuel_error (SwitchForkDecision * Tower) :=
  decision ← make_check_switch_threshold_decision t switch_slot ancestors descendants progress total_stake epoch_vote_accounts
               gossip fork_choice;
  Ok (decision, set_switch_check (Some (switch_slot, decision)) t).

(** [heaviest_slot_on_same_voted_fork] of the fork choice. *)
Definition heaviest_slot_on_same_voted_fork (fork_choice : HeaviestSubtreeForkChoice) (t : Tower)
  : outcome fuel_error (option SlotHashKey) :=
  match last_voted_slot_hash t with
  | None => Ok None
  | Some last =>
      match best_slot fork_choice last with
      | None => if negb (is_stray_last_vote t) then Panic else Ok None
      | Some heaviest => Ok (if bool_decide (heaviest = last) then None else Some heaviest)
      end
  end.

(** ** Restoring a tower *)

Inductive Inconsistency : Type := DivergedAncestor | TimeWarped | NotTooOldOnceAfterGotTooOld | NoCommonSlotForRootedTower.

Inductive TowerError : Type :=
| TooOldTower (newest_in_tower oldest_in_history : Slot)
| FatallyInconsistent (why : Inconsistency).

Definition initialize_root (root : Slot) (t : Tower) : Tower := set_vote_state (set_root_slot (Some root) (vote_state t)) t.

Definition initialize_lockouts (should_retain : Lockout -> bool) (t : Tower) : Tower :=
  set_vote_state (set_votes (filter (fun v => should_retain v = true) (votes (vote_state t))) (vote_state t)) t.

(** [bank.get_vote_account(..)]: the vote state, when the account is there and decodes. *)
Definition initialize_lockouts_from_bank {E} (vote_account : option (option VoteState)) (root : Slot) (t : Tower)
  : outcome E Tower :=
  match vote_account with
  | Some account =>
      s ← unwrap account;
      Ok (initialize_lockouts (fun v => root <? lo_slot v) (initialize_root root (set_vote_state s t)))
  | None => Ok (initialize_root root t)
  end.

Definition Tower_new {E} (node_pubkey : Pubkey) (vote_account : option (option VoteState)) (root : Slot) : outcome E Tower :=
  initialize_lockouts_from_bank vote_account root
    (mkTower node_pubkey (threshold_depth Tower_default) (threshold_size Tower_default) (vote_state Tower_default)
       (last_vote Tower_default) (last_vote_tx_blockhash Tower_default) (tower_last_timestamp Tower_default)
       (stray_restored_slot Tower_default) (last_switch_threshold_check Tower_default)).

(** The loop state of [adjust_lockouts_with_slot_history]. *)
Record Adjust : Type := mkAdjust {
  retain_flags_in_reverse : list bool;
  still_in_future : bool;
  past_outside_history : bool;
  checked_slot : option Slot;
  anchored_slot : option Slot;
}.

Section restore.
Context {B : Type} `{BitBlocks B}.

Definition adjust_slot (slot_history : SlotHistory B) (tower_root : Slot) (slot : Slot) (a : Adjust) : outcome TowerError Adjust :=
  let check := slot_history_check slot_history slot in
  anchored ← (if bool_decide (anchored_slot a = None) && bool_decide (check = Found) then Ok (Some slot)
              else if negb (bool_decide (anchored_slot a = None)) && bool_decide (check = NotFound)
              then Err (FatallyInconsistent DivergedAncestor)
              else Ok (anchored_slot a));
  future ← (if still_in_future a && negb (bool_decide (check = Future)) then Ok false
            else if negb (still_in_future a) && bool_decide (check = Future)
            then Err (FatallyInconsistent TimeWarped)
            else Ok (still_in_future a));
  outside ← (if negb (past_outside_history a) && bool_decide (check = TooOld) then Ok true
             else if past_outside_history a && negb (bool_decide (check = TooOld))
             then Err (FatallyInconsistent NotTooOldOnceAfterGotTooOld)
             else Ok (past_outside_history a));
  _ ← match checked_slot a with
      | Some checked =>
          if negb ((slot =? checked) && (slot =? tower_root)) && negb (slot <? checked) then Panic else Ok tt
      | None => Ok tt
      end;
  Ok (mkAdjust (retain_flags_in_reverse a ++ [bool_decide (anchored = None)]) future outside (Some slot) anchored).

Fixpoint adjust_slots (slot_history : SlotHistory B) (tower_root : Slot) (slots : list Slot) (a : Adjust) : outcome TowerError Adjust :=
  match slots with
  | [] => Ok a
  | slot :: slots => a ← adjust_slot slot_history tower_root slot a; adjust_slots slot_history tower_root slots a
  end.

(** [initialize_lockouts(move |_| retain_flags.next().unwrap())] *)
Fixpoint retain_flagged {E} (flags : list bool) (l : list Lockout) : outcome E (list Lockout) :=
  match l, flags with
  | [], _ => Ok []
  | _ :: _, [] => Panic
  | v :: l, flag :: flags => rest ← retain_flagged flags l; Ok (if (flag : bool) then v :: rest else rest)
  end.

Definition adjust_lockouts_with_slot_history (slot_history : SlotHistory B) (t : Tower) : outcome TowerError Tower :=
  tower_root ← tower_root t;
  let slots_in_tower := tower_root :: voted_slots t in
  a ← adjust_slots slot_history tower_root (rev slots_in_tower) (mkAdjust [] true false None None);
  if bool_decide (anchored_slot a = None) then Err (FatallyInconsistent NoCommonSlotForRootedTower)
  else if negb (bool_decide (length slots_in_tower = length (retain_flags_in_reverse a))) then Panic
  else
    retained ← retain_flagged (rev (removelast (retain_flags_in_reverse a))) (votes (vote_state t));
    let t := set_vote_state (set_votes retained (vote_state t)) t in
    match last (voted_slots t) with
    | None => Ok (set_last_vote Vote_default t)
    | Some last_slot =>
        last_voted ← unwrap (tower_last_voted_slot t);
        if last_voted =? last_slot then Ok (set_stray (Some last_voted) t) else Panic
    end.

Definition Vote_is_default (v : Vote) : bool :=
  bool_decide (vote_slots v = []) && (VoteState.vote_hash v =? Hash_default) && bool_decide (vote_timestamp v = None).

Definition adjust_lockouts_after_replay (replayed_root : Slot) (slot_history : SlotHistory B) (t : Tower) : outcome TowerError Tower :=
  tower_root ← tower_root t;
  if negb (bool_decide (slot_history_check slot_history replayed_root = Found)) then Panic
  else if negb (eqb (Vote_is_default (last_vote t)) (bool_decide (votes (vote_state t) = []))) then Panic
  else match tower_last_voted_slot t with
  | Some last_voted_slot =>
      if tower_root <=? replayed_root then
        if bool_decide (slot_history_check slot_history last_voted_slot = TooOld)
        then Err (TooOldTower last_voted_slot (sh_oldest slot_history))
        else
          t ← adjust_lockouts_with_slot_history slot_history t;
          Ok (initialize_root replayed_root t)
      else adjust_lockouts_with_slot_history (slot_history_add slot_history tower_root) t
  | None => if tower_root =? replayed_root then Ok t else Panic
  end.

End restore.
