(* ===== verification/TowerSafety.v ===== *)
(** * Lockout safety of the tower

    A validator that records a vote only when [is_locked_out] allows it never
    contradicts its own lockouts: every slot it ever voted for, at the
    confirmation count the vote last had, is an ancestor of the next vote or its
    lockout has expired. *)
From stdpp Require Import base gmap sets option list.
From S2P Require Import Prelude Instruction VoteState VoteTower Tower.

(** ** One recorded vote *)

Lemma check_one_slot slot hash s :
  check_slots_are_valid s (Vote_new [slot] hash) [(slot, hash)] =
    if already_voted (last_voted_slot s) slot then Err VoteTooOld else Ok tt.
Proof.
  unfold check_slots_are_valid. cbn. rewrite Z.eqb_refl.
  destruct (already_voted _ _); cbn; repeat (destruct (decide _) as [?|?]; try (exfalso; lia); cbn);
    by rewrite ?Z.eqb_refl.
Qed.

Lemma process_one_vote slot hash s :
  process_vote_unchecked (Vote_new [slot] hash) s = process_next_vote_slot slot (current_epoch s) s.
Proof.
  unfold process_vote_unchecked, process_vote. cbn -[process_next_vote_slot check_slots_are_valid].
  se_eval. rewrite check_one_slot.
  destruct (already_voted (last_voted_slot s) slot) eqn:E; [|done]. unfold process_next_vote_slot. by rewrite E.
Qed.

Lemma process_next_votes_root slot epoch epoch' s r :
  votes (process_next_vote_slot slot epoch (set_root_slot r s)) = votes (process_next_vote_slot slot epoch' s).
Proof.
  unfold process_next_vote_slot. change (last_voted_slot (set_root_slot r s)) with (last_voted_slot s).
  destruct (already_voted _ _); [done|].
  change (votes (pop_expired_votes slot (set_root_slot r s))) with (votes (pop_expired_votes slot s)).
  rewrite !double_lockouts_votes. destruct (decide _) as [Hl|Hl]; [|done].
  by destruct (votes (pop_expired_votes slot s)) as [|v rest] eqn:E; cbn -[imap]; rewrite ?E.
Qed.

(** The tower invariant does not need the root to lie below the votes. *)
Lemma process_next_tower_wf slot epoch s :
  tower_wf (votes s) -> slot_ok slot -> tower_wf (votes (process_next_vote_slot slot epoch s)).
Proof.
  intros Hwf Hok. rewrite <- (process_next_votes_root slot epoch epoch s None).
  apply process_next_vote_slot_wf; [|done]. split; [done|]. by intros r [=].
Qed.

Lemma last_is_vote slot epoch s :
  already_voted (last_voted_slot s) slot = false ->
  last_voted_slot (process_next_vote_slot slot epoch s) = Some slot.
Proof.
  intros Hnew. destruct (process_next_vote_slot_shape slot epoch s Hnew) as (kept & popped & rest & _ & _ & _ & Hv & _).
  unfold last_voted_slot, last_lockout. rewrite Hv, last_lookup, list_lookup_imap, length_imap, length_app. cbn [length].
  rewrite lookup_app_r by lia. replace (pred (length rest + 1) - length rest)%nat with 0%nat by lia. cbn. by rewrite double_at_slot.
Qed.

Lemma is_recent_spec t slot : is_recent t slot = negb (already_voted (last_voted_slot (vote_state t)) slot).
Proof. unfold is_recent, already_voted. by destruct (last_voted_slot (vote_state t)). Qed.

(** What a negative [is_locked_out] guarantees. *)
Lemma is_locked_out_false t slot ancestors :
  is_locked_out t slot ancestors = Ok false ->
  let s := process_next_vote_slot slot (current_epoch (vote_state t)) (vote_state t) in
  already_voted (last_voted_slot (vote_state t)) slot = false /\
  (forall v, v ∈ votes s -> lo_slot v = slot \/ lo_slot v ∈ ancestors) /\
  (forall r, root_slot s = Some r -> r = slot \/ r ∈ ancestors).
Proof.
  unfold is_locked_out, process_slot_vote_unchecked. rewrite is_recent_spec, process_one_vote.
  destruct (already_voted _ slot) eqn:Hnew; cbn [negb]; [done|].
  set (s := process_next_vote_slot _ _ _). destruct (existsb _ _) eqn:Hex; [done|]. intros Hroot. split_and!; [done| |].
  - intros v Hv. apply not_true_iff_false in Hex. destruct (decide (lo_slot v = slot \/ lo_slot v ∈ ancestors)) as [?|Hn]; [done|].
    exfalso. apply Hex, existsb_exists. exists v. split; [by apply list_elem_of_In|].
    rewrite bool_decide_eq_false_2 by tauto. destruct (Z.eqb_spec slot (lo_slot v)); [exfalso; apply Hn; by left|done].
  - intros r Hr. cbv zeta in Hroot. rewrite Hr in Hroot. destruct (Z.eqb_spec slot r); [by left|right].
    by destruct (bool_decide_reflect (r ∈ ancestors)).
Qed.

(** ** The history of votes *)

Definition lockouts_map (l : list Lockout) : gmap Slot Z :=
  list_to_map ((fun v => (lo_slot v, confirmation_count v)) <$> l).

Record Ballot : Type := mkBallot {
  bl_slot : Slot;
  bl_hash : Hash;
  (** what the bank forks know of the ancestors of the slot *)
  bl_ancestors : gset Slot;
  bl_voted_in_bank : option Slot;
  bl_now : UnixTimestamp;
}.

Section history.
(** The ancestors of every block. *)
Variable ancs : Slot -> gset Slot.
Hypothesis ancs_trans : forall a b c, a ∈ ancs b -> b ∈ ancs c -> a ∈ ancs c.

Definition on_fork (a b : Slot) : Prop := a = b \/ a ∈ ancs b.

(** The votes and the root of the tower lie on one fork. *)
Definition one_fork (t : Tower) : Prop :=
  exists root, root_slot (vote_state t) = Some root /\
    (forall v, v ∈ votes (vote_state t) -> on_fork root (lo_slot v)) /\
    (forall i j v w, (i < j)%nat -> votes (vote_state t) !! i = Some v -> votes (vote_state t) !! j = Some w ->
       lo_slot v ∈ ancs (lo_slot w)).

(** Recording a vote the lockouts allow. *)
Definition cast (b : Ballot) (t t' : Tower) : Prop :=
  bl_ancestors b ⊆ ancs (bl_slot b) /\ slot_ok (bl_slot b) /\
  is_locked_out t (bl_slot b) (bl_ancestors b) = Ok false /\
  exists root, record_bank_vote_and_update_lockouts (bl_now b) (bl_slot b) (bl_hash b) (bl_voted_in_bank b) t = Ok (root, t').

(** The towers a validator goes through, with every slot voted for and the
    confirmation count its vote last had. *)
Inductive voting : Tower -> gmap Slot Z -> Prop :=
| voting_start t : tower_wf (votes (vote_state t)) -> one_fork t -> voting t (lockouts_map (votes (vote_state t)))
| voting_cast t h b t' : voting t h -> cast b t t' -> voting t' (lockouts_map (votes (vote_state t')) ∪ h).

(** Where a vote of the past is now. *)
Definition accounted (t : Tower) (u : Slot) (c : Z) : Prop :=
  mkLockout u c ∈ votes (vote_state t) \/
  (exists l, last_voted_slot (vote_state t) = Some l /\ u + 2 ^ c < l) \/
  (exists root, root_slot (vote_state t) = Some root /\ on_fork u root).

Record safe (t : Tower) (h : gmap Slot Z) : Prop := {
  sf_wf : tower_wf (votes (vote_state t));
  sf_fork : one_fork t;
  sf_past u c : h !! u = Some c -> accounted t u c;
  sf_last u c : h !! u = Some c -> exists l, last_voted_slot (vote_state t) = Some l /\ u <= l;
}.

Lemma on_fork_trans a b c : on_fork a b -> on_fork b c -> on_fork a c.
Proof using ancs_trans. intros [->|?] [<-|?]; unfold on_fork; eauto. Qed.

Lemma lockouts_map_lookup l u c : tower_wf l -> lockouts_map l !! u = Some c <-> mkLockout u c ∈ l.
Proof.
  intros Hwf. unfold lockouts_map. rewrite <- elem_of_list_to_map.
  - rewrite list_elem_of_fmap. split; [intros (v & [= -> ->] & Hv); by destruct v|]. intros Hv. by exists (mkLockout u c).
  - rewrite <- list_fmap_compose. apply NoDup_alt. intros i j x. rewrite !list_lookup_fmap.
    intros (v & Hv & ->)%fmap_Some (w & Hw & Heq)%fmap_Some. cbn in Heq.
    destruct (decide (i < j)%nat); [pose proof (tower_slots_lt l i j v w Hwf); naive_solver lia|].
    destruct (decide (j < i)%nat); [pose proof (tower_slots_lt l j i w v Hwf); naive_solver lia|lia].
Qed.

Lemma vote_of_map l v : tower_wf l -> v ∈ l -> last l <> None /\ (forall w, last l = Some w -> lo_slot v <= lo_slot w).
Proof.
  intros Hwf Hv. split; [intros ->%last_None; by apply not_elem_of_nil in Hv|]. intros w Hw. by apply (tower_last_max l).
Qed.

Lemma start_safe t :
  tower_wf (votes (vote_state t)) -> one_fork t -> safe t (lockouts_map (votes (vote_state t))).
Proof.
  intros Hwf Hf. split; [done|done| |].
  - intros u c Hu%lockouts_map_lookup; [|done]. by left.
  - intros u c Hu%lockouts_map_lookup; [|done]. destruct (vote_of_map _ _ Hwf Hu) as [Hl Hmax].
    unfold last_voted_slot, last_lockout. destruct (last (votes (vote_state t))) as [w|]; [|done]. exists (lo_slot w). split; [done|]. by apply (Hmax w).
Qed.

(** The recorded state is the one [is_locked_out] simulated. *)
Lemma maybe_timestamp_state now slot t : vote_state (maybe_timestamp now slot t).2 = vote_state t.
Proof. unfold maybe_timestamp. by repeat case_match. Qed.

Lemma record_vote_state now slot hash bank t root t' :
  record_bank_vote_and_update_lockouts now slot hash bank t = Ok (root, t') ->
  vote_state t' = process_next_vote_slot slot (current_epoch (vote_state t)) (vote_state t).
Proof.
  unfold record_bank_vote_and_update_lockouts, apply_vote_and_generate_vote_diff. rewrite process_one_vote.
  unfold tower_root. destruct (root_slot (vote_state t)) as [r|]; cbn -[process_next_vote_slot maybe_timestamp]; [|done].
  match goal with |- context [maybe_timestamp now ?c ?u] => pose proof (maybe_timestamp_state now c u) as Hs; destruct (maybe_timestamp now c u) as [ts t1] end.
  cbn -[process_next_vote_slot] in *. destruct (root_slot (vote_state t1)); cbn -[process_next_vote_slot]; [|done].
  by intros [= _ <-].
Qed.

Lemma double_elem n l i v : l !! i = Some v -> double_at n i v ∈ imap (double_at n) l.
Proof. intros Hi. apply list_elem_of_lookup. exists i. by rewrite list_lookup_imap, Hi. Qed.

(** A vote of the tower stays, expires, or becomes the root. *)
Lemma vote_fate slot epoch s u c :
  tower_wf (votes s) -> already_voted (last_voted_slot s) slot = false -> mkLockout u c ∈ votes s ->
  let s' := process_next_vote_slot slot epoch s in
  (exists v, v ∈ votes s' /\ lo_slot v = u) \/ u + 2 ^ c < slot \/ root_slot s' = Some u.
Proof.
  intros Hwf Hnew Hin s'.
  destruct (process_next_vote_slot_shape slot epoch s Hnew) as (kept & popped & rest & Hv & Hpop & _ & Hv' & Hcase).
  rewrite Hv in Hin. apply elem_of_app in Hin as [Hk|Hp].
  - assert (mkLockout u c ∈ rest \/ root_slot s' = Some u) as [Hr|Hr]; [|left|tauto].
    { destruct Hcase as [(_ & -> & _)|(w & _ & -> & Hw & _)]; [by left|]. apply elem_of_cons in Hk as [<-|?]; [by right|by left]. }
    apply list_elem_of_lookup in Hr as [i Hi]. exists (double_at (S (length rest)) i (mkLockout u c)).
    split; [|apply double_at_slot]. unfold s'. rewrite Hv'. by apply double_elem, lookup_app_l_Some.
  - right. left. rewrite Forall_forall in Hpop. pose proof (Hpop _ Hp) as He.
    assert (mkLockout u c ∈ votes s) as [i Hi]%list_elem_of_lookup by (rewrite Hv; apply elem_of_app; by right).
    pose proof (tw_entry _ Hwf i _ Hi) as Hent. apply lookup_lt_Some in Hi.
    rewrite last_locked_out_slot_eq in He by entry. exact He.
Qed.

(** The root only moves up the fork. *)
Lemma root_fate slot epoch t :
  one_fork t -> already_voted (last_voted_slot (vote_state t)) slot = false ->
  forall root, root_slot (vote_state t) = Some root ->
  exists root', root_slot (process_next_vote_slot slot epoch (vote_state t)) = Some root' /\ on_fork root root'.
Proof.
  intros (root0 & Hroot0 & Hrv & _) Hnew root Hroot. rewrite Hroot in Hroot0. injection Hroot0 as <-.
  destruct (process_next_vote_slot_shape slot epoch (vote_state t) Hnew) as (kept & popped & rest & Hv & _ & _ & _ & Hcase).
  destruct Hcase as [(_ & _ & -> & _)|(w & _ & -> & -> & _)].
  - exists root. split; [done|by left].
  - exists (lo_slot w). split; [done|]. apply Hrv. rewrite Hv. by left.
Qed.

(** Every earlier vote is an ancestor of an allowed slot or has expired. *)
Lemma allowed_vote t h slot ancestors :
  safe t h -> ancestors ⊆ ancs slot -> is_locked_out t slot ancestors = Ok false ->
  forall u c, h !! u = Some c -> u < slot /\ (u ∈ ancs slot \/ u + 2 ^ c < slot).
Proof using ancs_trans.
  intros [Hwf Hfork Hpast Hlast] Hsub Hok u c Hu.
  destruct (is_locked_out_false _ _ _ Hok) as (Hnew & Hvotes & Hr).
  assert (forall l, last_voted_slot (vote_state t) = Some l -> l < slot) as Hlt.
  { intros l Hl. unfold already_voted in Hnew. rewrite Hl in Hnew. by apply Z.leb_gt in Hnew. }
  assert (u < slot) as Hus by (destruct (Hlast u c Hu) as (l & Hl & Hul); pose proof (Hlt l Hl); lia).
  assert (on_fork u slot -> u ∈ ancs slot) as Hstrict by (intros [->|?]; [lia|done]). split; [done|].
  destruct (Hpast u c Hu) as [Hin|[(l & Hl & Hexp)|(r & Hrs & Hur)]].
  - destruct (vote_fate slot (current_epoch (vote_state t)) _ u c Hwf Hnew Hin) as [(v & Hv & <-)|[?|Hru]]; [|by right|].
    + left. destruct (Hvotes v Hv) as [?|?]; [lia|by apply Hsub].
    + left. destruct (Hr u Hru) as [?|?]; [lia|by apply Hsub].
  - right. pose proof (Hlt l Hl). lia.
  - left. apply Hstrict. destruct (root_fate slot (current_epoch (vote_state t)) t Hfork Hnew r Hrs) as (r' & Hr' & Hrr').
    apply (on_fork_trans _ _ _ Hur), (on_fork_trans _ _ _ Hrr'). destruct (Hr r' Hr') as [->|?]; [by left|right; by apply Hsub].
Qed.

(** The recorded vote is on one fork with what stays in the tower. *)
Lemma cast_one_fork b t t' :
  tower_wf (votes (vote_state t)) -> one_fork t -> cast b t t' -> one_fork t'.
Proof using ancs_trans.
  intros Hwf (root & Hroot & Hrv & Hchain) (Hsub & Hok & Hlk & r & Hrec). unfold one_fork.
  rewrite (record_vote_state _ _ _ _ _ _ _ Hrec). set (slot := bl_slot b) in *. set (epoch := current_epoch (vote_state t)) in *.
  destruct (is_locked_out_false _ _ _ Hlk) as (Hnew & Hvotes & Hr). fold epoch in Hvotes, Hr.
  pose proof (process_next_tower_wf slot epoch _ Hwf Hok) as Hwf'.
  destruct (process_next_vote_slot_shape slot epoch (vote_state t) Hnew) as (kept & popped & rest & Hv & Hpop & _ & Hv' & Hcase).
  assert (forall i v, rest !! i = Some v -> exists j, votes (vote_state t) !! j = Some v /\
    j = (i + (if decide (rest = kept) then 0 else 1))%nat) as Hpos.
  { intros i v Hi. destruct (decide (rest = kept)) as [->|Hne].
    - exists i. split; [|lia]. rewrite Hv. by apply lookup_app_l_Some.
    - destruct Hcase as [(_ & ? & _)|(w & _ & -> & _)]; [done|]. exists (S i). split; [|lia]. rewrite Hv. by apply (lookup_app_l_Some (w :: rest)). }
  assert (exists root', root_slot (process_next_vote_slot slot epoch (vote_state t)) = Some root' /\
    forall v, v ∈ rest -> on_fork root' (lo_slot v)) as (root' & Hroot' & Hrest).
  { destruct Hcase as [(_ & -> & Hr' & _)|(w & _ & Hkw & Hr' & _)]; rewrite Hr'.
    - exists root. split; [done|]. intros v Hin. apply Hrv. rewrite Hv. apply elem_of_app. by left.
    - exists (lo_slot w). split; [done|]. intros v [i Hi]%list_elem_of_lookup. right.
      apply (Hchain 0%nat (S i) w v); [lia|rewrite Hv, Hkw; done|rewrite Hv, Hkw; cbn; by apply lookup_app_l_Some]. }
  exists root'. split_and!; [done| |].
  - intros v Hin. rewrite Hv' in Hin. apply imap_double_elem in Hin as (w & Hw & ->). apply elem_of_app in Hw as [Hw| ->%list_elem_of_singleton]; [auto|].
    cbn. destruct (Hr root' Hroot') as [->|Hin]; [by left|right; by apply Hsub].
  - intros i j v w Hij Hvi Hwj. pose proof (tower_slots_lt _ i j v w Hwf' Hij Hvi Hwj) as Hlt.
    assert (lo_slot w = slot \/ (exists v' w', rest !! i = Some v' /\ rest !! j = Some w' /\ lo_slot v = lo_slot v' /\ lo_slot w = lo_slot w')) as [Hw|(v' & w' & Hv0 & Hw0 & Hs1 & Hs2)].
    { rewrite Hv', list_lookup_imap in Hvi, Hwj. apply fmap_Some in Hvi as (v0 & Hv0 & ->), Hwj as (w0 & Hw0 & ->).
      rewrite !double_at_slot. apply pushed_lookup in Hw0 as [Hw0|[-> ->]]; [|by left].
      right. apply lookup_lt_Some in Hw0 as Hjl. rewrite lookup_app_l in Hv0 by lia. by exists v0, w0. }
    + destruct (Hvotes v) as [Heq|Hin]; [by eapply list_elem_of_lookup_2|lia|rewrite Hw; by apply Hsub].
    + rewrite Hs1, Hs2. destruct (Hpos _ _ Hv0) as (a & Ha & ->), (Hpos _ _ Hw0) as (a' & Ha' & ->).
      eapply (Hchain _ _ v' w'); [|exact Ha|exact Ha']. lia.
Qed.

Lemma cast_safe b t h t' :
  safe t h -> cast b t t' -> safe t' (lockouts_map (votes (vote_state t')) ∪ h).
Proof using ancs_trans.
  intros Hs Hcast. pose proof Hs as [Hwf Hfork Hpast Hlast]. pose proof (cast_one_fork b t t' Hwf Hfork Hcast) as Hf'.
  destruct Hcast as (Hsub & Hok & Hlk & r & Hrec). pose proof (record_vote_state _ _ _ _ _ _ _ Hrec) as Hst.
  destruct (is_locked_out_false _ _ _ Hlk) as (Hnew & Hvotes & Hr).
  pose proof (last_is_vote _ (current_epoch (vote_state t)) _ Hnew) as Hl'. rewrite <- Hst in Hl'.
  assert (tower_wf (votes (vote_state t'))) as Hwf' by (rewrite Hst; by apply process_next_tower_wf).
  pose proof (start_safe t' Hwf' Hf') as [_ _ Hpast' Hlast'].
  assert (forall u c, h !! u = Some c -> lockouts_map (votes (vote_state t')) !! u = None -> accounted t' u c) as Hold.
  { intros u c Hu Hnone. destruct (Hpast u c Hu) as [Hin|[(l & Hl & He)|(root & Hroot & Hur)]].
    - destruct (vote_fate (bl_slot b) (current_epoch (vote_state t)) _ u c Hwf Hnew Hin) as [(v & Hv & Hvu)|[?|Hru]];
        rewrite <- ?Hst in *; [exfalso|right; left; eauto|right; right; exists u; split; [done|by left]].
      assert (lockouts_map (votes (vote_state t')) !! u = Some (confirmation_count v)) as Hsome; [|congruence].
      apply lockouts_map_lookup; [done|]. rewrite <- Hvu. by destruct v.
    - right. left. exists (bl_slot b). split; [done|].
      unfold already_voted in Hnew. rewrite Hl in Hnew. apply Z.leb_gt in Hnew. lia.
    - destruct (root_fate (bl_slot b) (current_epoch (vote_state t)) t Hfork Hnew root Hroot) as (r' & Hr' & Hrr').
      rewrite <- Hst in Hr'. right. right. exists r'. split; [done|]. by apply (on_fork_trans _ root). }
  split; [done|done| |].
  - intros u c [Hu|[Hn Hu]]%lookup_union_Some_raw; [by apply Hpast'|by apply Hold].
  - intros u c [Hu|[Hn Hu]]%lookup_union_Some_raw; [by eapply Hlast'|]. exists (bl_slot b). split; [done|].
    destruct (Hlast u c Hu) as (l & Hl & Hle). unfold already_voted in Hnew. rewrite Hl in Hnew. apply Z.leb_gt in Hnew. lia.
Qed.

Lemma voting_safe t h : voting t h -> safe t h.
Proof using ancs_trans. induction 1 as [t Hwf Hf|t h b t' _ IH Hc]; [by apply start_safe|by eapply cast_safe]. Qed.

(** A validator that records votes only when [is_locked_out] answers no
    never contradicts its lockouts. Whatever it voted for before, when
    [is_locked_out] allows a slot, every earlier voted slot is an ancestor of
    the new slot or lies more than [2^c] slots below it, for the confirmation
    count [c] its vote last had in the tower. *)
Theorem tower_never_violates_lockout t h slot ancestors :
  voting t h -> ancestors ⊆ ancs slot -> is_locked_out t slot ancestors = Ok false ->
  forall u c, h !! u = Some c -> u < slot /\ (u ∈ ancs slot \/ u + 2 ^ c < slot).
Proof using ancs_trans. intros Hv%voting_safe. by apply allowed_vote. Qed.

(** The tower always holds votes of a single fork: the root is an ancestor
    of every vote in it, each vote is an ancestor of the later ones, and the
    stack keeps its lockout invariant. *)
Theorem tower_on_one_fork t h :
  voting t h -> tower_wf (votes (vote_state t)) /\ one_fork t.
Proof using ancs_trans. intros Hv%voting_safe. split; apply Hv. Qed.
End history.
