(* ===== verification/TowerRestore.v ===== *)
(** * Adjusting a restored tower

    What [adjust_lockouts_after_replay] makes of a saved tower: it finds the
    newest slot of the tower that the replayed ledger rooted, keeps exactly the
    votes above it, and reports a tower that has no slot in common with the
    ledger or that disagrees with it below the anchor. *)
From stdpp Require Import base gmap sorting sets option list.
From S2P Require Import Prelude VoteState VoteTower RollingBitField SlotHistory Tower.

Section adjust.
Context {B : Type} `{BitBlocks B}.
Implicit Types (h : SlotHistory B).

(** ** The slot history answers monotonically *)

Lemma check_future_mono h s s' : slot_history_check h s = Future -> s <= s' -> slot_history_check h s' = Future.
Proof. unfold slot_history_check. intros Hf Hle. zcases; repeat case_match; try done; lia. Qed.

Lemma check_old_mono h s s' :
  slot_history_check h s = TooOld -> s' <= s -> slot_history_check h s' = TooOld.
Proof. unfold slot_history_check. intros Hf Hle. zcases; repeat case_match; try done; lia. Qed.

(** ** The loop without its sanity checks *)

Fixpoint flags_of h (anchored : option Slot) (slots : list Slot) : outcome TowerError (list bool * option Slot) :=
  match slots with
  | [] => Ok ([], anchored)
  | s :: slots =>
      let check := slot_history_check h s in
      match anchored with
      | None =>
          let anchored := if bool_decide (check = Found) then Some s else None in
          '(flags, r) ← flags_of h anchored slots; Ok (bool_decide (anchored = None) :: flags, r)
      | Some _ =>
          if bool_decide (check = NotFound) then Err (FatallyInconsistent DivergedAncestor)
          else '(flags, r) ← flags_of h anchored slots; Ok (false :: flags, r)
      end
  end.

(** Newest to oldest; only the root may repeat. *)
Definition newer (root a b : Slot) : Prop := b < a \/ b = a /\ b = root.

(** The sanity checks pass on what is left of the slots. *)
Definition sane h (root : Slot) (slots : list Slot) (a : Adjust) : Prop :=
  (still_in_future a = false -> forall s, s ∈ slots -> slot_history_check h s <> Future) /\
  (past_outside_history a = true -> forall s, s ∈ slots -> slot_history_check h s = TooOld) /\
  (forall c, checked_slot a = Some c -> forall s, s ∈ slots -> newer root c s).

Lemma adjust_slot_flags h root s slots a :
  StronglySorted (newer root) (s :: slots) -> sane h root (s :: slots) a ->
  match flags_of h (anchored_slot a) [s] with
  | Ok (flags, anchored) => exists a', adjust_slot h root s a = Ok a' /\ sane h root slots a' /\
      retain_flags_in_reverse a' = retain_flags_in_reverse a ++ flags /\ anchored_slot a' = anchored
  | Err e => adjust_slot h root s a = Err e
  | Panic => False
  end.
Proof.
  intros [_ Hnew]%StronglySorted_inv (Hf & Ho & Hc). rewrite Forall_forall in Hnew.
  assert (forall s', s' ∈ slots -> s' <= s) as Hle by (intros s' Hs; destruct (Hnew s' Hs); lia).
  pose proof (fun H0 => Hf H0 s ltac:(by left)) as Hf0. pose proof (fun H0 => Ho H0 s ltac:(by left)) as Ho0.
  assert (match checked_slot a with
    | Some checked => if negb ((s =? checked) && (s =? root)) && negb (s <? checked) then Panic else Ok tt
    | None => Ok tt end = Ok tt :> outcome TowerError unit) as Hck.
  { destruct (checked_slot a) as [c|] eqn:E; [|done]. destruct (Hc c eq_refl s ltac:(by left)) as [Hlt|[-> ->]].
    - rewrite (proj2 (Z.ltb_lt _ _) Hlt). by destruct (negb _).
    - by rewrite !Z.eqb_refl. }
  unfold adjust_slot, flags_of. rewrite Hck. clear Hck Hc.
  assert (forall a', (still_in_future a' = false -> slot_history_check h s <> Future) ->
    (past_outside_history a' = true -> slot_history_check h s = TooOld) -> checked_slot a' = Some s -> sane h root slots a') as Hsane.
  { intros a' H1 H2 H3. split_and!.
    - intros Ha s' Hs Hfut. apply (H1 Ha). by apply (check_future_mono h s' s), Hle.
    - intros Ha s' Hs. apply (check_old_mono h s s'); auto.
    - intros c Hc' s' Hs. rewrite H3 in Hc'. injection Hc' as <-. auto. }
  destruct (anchored_slot a) as [an|], (still_in_future a), (past_outside_history a), (slot_history_check h s) eqn:E;
    cbn; try done; try (by exfalso; apply Hf0); try (by specialize (Ho0 eq_refl));
    (eexists; split; [reflexivity|]); (split; [by apply Hsane|done]).
Qed.

Lemma adjust_slots_flags h root slots a :
  StronglySorted (newer root) slots -> sane h root slots a ->
  match flags_of h (anchored_slot a) slots with
  | Ok (flags, anchored) => exists a', adjust_slots h root slots a = Ok a' /\
      retain_flags_in_reverse a' = retain_flags_in_reverse a ++ flags /\ anchored_slot a' = anchored
  | Err e => adjust_slots h root slots a = Err e
  | Panic => False
  end.
Proof.
  revert a. induction slots as [|s slots IH]; intros a Hs Hsane; [exists a; by rewrite app_nil_r|].
  pose proof (adjust_slot_flags h root s slots a Hs Hsane) as H1. apply StronglySorted_inv in Hs as [Hs _].
  cbn [flags_of adjust_slots] in *.
  destruct (anchored_slot a) as [an|] eqn:Ea; [destruct (bool_decide (slot_history_check h s = NotFound))|]; cbn in *; [by rewrite H1|..].
  - destruct H1 as (a' & -> & Hsane' & Hf & Ha). specialize (IH a' Hs Hsane'). rewrite Ha in IH. cbn.
    destruct (flags_of h (Some an) slots) as [[flags r]|e|]; cbn; [|done..].
    destruct IH as (a'' & -> & Hf'' & Ha''). exists a''. rewrite Hf'', Hf, <- app_assoc. done.
  - destruct H1 as (a' & -> & Hsane' & Hf & Ha). specialize (IH a' Hs Hsane'). rewrite Ha in IH. cbn.
    destruct (flags_of h _ slots) as [[flags r]|e|]; cbn; [|done..].
    destruct IH as (a'' & -> & Hf'' & Ha''). exists a''. rewrite Hf'', Hf, <- app_assoc. done.
Qed.

(** ** What the flags mean *)

(** Below the anchor. *)
Lemma flags_anchored h an slots :
  flags_of h (Some an) slots =
    if existsb (fun s => bool_decide (slot_history_check h s = NotFound)) slots
    then Err (FatallyInconsistent DivergedAncestor) else Ok (replicate (length slots) false, Some an).
Proof.
  induction slots as [|s slots IH]; cbn; [done|]. destruct (bool_decide _); cbn; [done|]. rewrite IH.
  by destruct (existsb _ slots).
Qed.

(** Up to the anchor, the first slot found. *)
Lemma flags_unanchored h slots :
  (Forall (fun s => slot_history_check h s <> Found) slots /\ flags_of h None slots = Ok (replicate (length slots) true, None)) \/
  (exists above an below, slots = above ++ an :: below /\ Forall (fun s => slot_history_check h s <> Found) above /\
     slot_history_check h an = Found /\
     flags_of h None slots =
       if existsb (fun s => bool_decide (slot_history_check h s = NotFound)) below
       then Err (FatallyInconsistent DivergedAncestor)
       else Ok (replicate (length above) true ++ replicate (S (length below)) false, Some an)).
Proof.
  induction slots as [|s slots IH]; [by left|]. cbn [flags_of]. destruct (bool_decide_reflect (slot_history_check h s = Found)) as [Hf|Hf].
  - right. exists [], s, slots. split_and!; [done|done|done|]. cbn. rewrite flags_anchored. by destruct (existsb _ slots).
  - destruct IH as [[Hall ->]|(above & an & below & -> & Hab & Han & ->)]; [left; split; [by constructor|done]|].
    right. exists (s :: above), an, below. split_and!; [done|by constructor|done|]. by destruct (existsb _ below).
Qed.

Lemma retain_flagged_suffix {E} n m (l : list Lockout) :
  (n + m)%nat = length l -> retain_flagged (replicate n false ++ replicate m true) l = Ok (drop n l) :> outcome E _.
Proof.
  revert m l. induction n as [|n IH]; intros m l Hl; cbn.
  - revert m Hl. induction l as [|v l IHl]; intros m Hl; [by destruct m|]. destruct m as [|m]; [cbn in Hl; lia|]. cbn in *.
    rewrite IHl by lia. done.
  - destruct l as [|v l]; [done|]. cbn in *. rewrite IH by lia. done.
Qed.

(** ** The restored tower *)

(** The votes increase above the root, which the first of them may repeat. *)
Definition tower_ordered (root : Slot) (slots : list Slot) : Prop :=
  StronglySorted Z.lt slots /\ forall s, s ∈ slots -> root <= s.

Lemma of_reverse {A} (x : A) l : x ∈ reverse l -> x ∈ l.
Proof. by rewrite elem_of_reverse. Qed.

Lemma ordered_newer root slots :
  tower_ordered root slots -> StronglySorted (newer root) (reverse (root :: slots)).
Proof.
  intros [Hs Hr]. rewrite reverse_cons. apply StronglySorted_app. split_and!.
  - intros a b Ha%of_reverse ->%list_elem_of_singleton. pose proof (Hr a Ha). unfold newer. lia.
  - apply StronglySorted_reverse in Hs. clear -Hs. induction Hs as [|a l _ IH Hf]; constructor; [done|].
    eapply Forall_impl; [exact Hf|]. intros b Hb. left. exact Hb.
  - repeat constructor.
Qed.

Lemma filter_none (P : Slot -> Prop) `{!forall x, Decision (P x)} l : (forall x, x ∈ l -> ~ P x) -> filter P l = [].
Proof.
  induction l as [|x l IH]; intros Hn; [done|]. rewrite filter_cons_False by (apply Hn; by left). apply IH. intros y Hy. apply Hn. by right.
Qed.

(** The newest slot of the tower the ledger has rooted. *)
Definition anchor h (root : Slot) (t : Tower) : option Slot :=
  last (filter (fun s => slot_history_check h s = Found) (root :: voted_slots t)).

(** What the adjustment returns. *)
Definition adjusted h (root : Slot) (t : Tower) : outcome TowerError Tower :=
  match anchor h root t with
  | None => Err (FatallyInconsistent NoCommonSlotForRootedTower)
  | Some an =>
      if existsb (fun s => (s <? an) && bool_decide (slot_history_check h s = NotFound)) (root :: voted_slots t)
      then Err (FatallyInconsistent DivergedAncestor)
      else
        let kept := filter (fun v => an < lo_slot v) (votes (vote_state t)) in
        let t := set_vote_state (set_votes kept (vote_state t)) t in
        Ok (match last kept with None => set_last_vote Vote_default t | Some v => set_stray (Some (lo_slot v)) t end)
  end.

Lemma filter_drop (an : Slot) n (l : list Lockout) pre post :
  lo_slot <$> l = pre ++ post -> length pre = n ->
  Forall (fun s => s <= an) pre -> Forall (fun s => an < s) post -> filter (fun v => an < lo_slot v) l = drop n l.
Proof.
  revert n pre post. induction l as [|v l IH]; intros n pre post Hl <- Hpre Hpost; [by rewrite drop_nil|].
  destruct pre as [|p pre]; cbn [fmap list_fmap app length drop] in *.
  - subst post. apply Forall_cons in Hpost as [Hv Hpost]. rewrite filter_cons_True by done. f_equal.
    by apply (IH 0%nat [] (lo_slot <$> l)).
  - injection Hl as <- Hl. apply Forall_cons in Hpre as [Hv Hpre]. rewrite filter_cons_False by lia. by apply (IH _ pre post).
Qed.

(** The tower split at its anchor. *)
Lemma anchor_split h root t above an below :
  tower_ordered root (voted_slots t) ->
  reverse (root :: voted_slots t) = above ++ an :: below ->
  Forall (fun s => slot_history_check h s <> Found) above -> slot_history_check h an = Found ->
  anchor h root t = Some an /\
  existsb (fun s => (s <? an) && bool_decide (slot_history_check h s = NotFound)) (root :: voted_slots t) =
    existsb (fun s => bool_decide (slot_history_check h s = NotFound)) below /\
  filter (fun v => an < lo_slot v) (votes (vote_state t)) = drop (length below) (votes (vote_state t)) /\
  (length below + length above = length (votes (vote_state t)))%nat.
Proof.
  intros Hord Hrev Hab Han. pose proof (ordered_newer _ _ Hord) as Hs. rewrite Hrev in Hs.
  apply StronglySorted_app in Hs as (Hcross & _ & [_ Hb]%StronglySorted_inv). rewrite Forall_forall in Hab, Hb.
  assert (forall s, s ∈ above -> an < s) as Ha.
  { intros s Hin. destruct (Hcross s an Hin ltac:(by left)) as [?|[-> _]]; [done|]. by apply Hab in Hin. }
  assert (forall s, s ∈ below -> s <= an) as Hb' by (intros s Hin; destruct (Hb s Hin); lia).
  assert (root :: voted_slots t = reverse below ++ an :: reverse above) as Hslots.
  { rewrite <- (reverse_involutive (root :: voted_slots t)), Hrev, reverse_app, reverse_cons, <- app_assoc. done. }
  split_and!.
  - unfold anchor. rewrite Hslots, filter_app, filter_cons_True by done.
    rewrite (filter_none _ (reverse above)); [by rewrite last_snoc|]. intros s Hin%of_reverse. by apply Hab.
  - rewrite Hslots. apply eq_true_iff_eq. rewrite !existsb_exists. split.
    + intros (s & Hin%list_elem_of_In & [Hlt%Z.ltb_lt Hn]%andb_prop). exists s. split; [|done]. apply list_elem_of_In.
      apply elem_of_app in Hin as [Hin%of_reverse|[->|Hin%of_reverse]%elem_of_cons]; [done|lia|]. apply Ha in Hin. lia.
    + intros (s & Hin%list_elem_of_In & Hn). exists s. split; [apply list_elem_of_In, elem_of_app; left; by apply elem_of_reverse_2|].
      rewrite Hn, andb_true_r. apply Z.ltb_lt. apply bool_decide_eq_true in Hn. destruct (Hb s Hin) as [?|[-> _]]; [done|congruence].
  - destruct (reverse below) as [|r rest] eqn:Er.
    + apply (f_equal length) in Er as Hl. rewrite length_reverse in Hl. cbn in Hl. rewrite Hl. cbn in Hslots. injection Hslots as -> Hv.
      apply (filter_drop an 0 _ [] (reverse above)); [exact Hv|done|constructor|]. apply Forall_forall. intros s Hin%of_reverse. auto.
    + cbn in Hslots. injection Hslots as -> Hv. apply (f_equal length) in Er as Hl. rewrite length_reverse in Hl.
      apply (filter_drop an _ _ (rest ++ [an]) (reverse above)).
      * unfold voted_slots in Hv. by rewrite Hv, <- app_assoc.
      * rewrite length_app, Hl. cbn. lia.
      * apply Forall_forall. intros s [Hin| ->%list_elem_of_singleton]%elem_of_app; [|done]. apply Hb', of_reverse. rewrite Er. by right.
      * apply Forall_forall. intros s Hin%of_reverse. auto.
  - apply (f_equal length) in Hrev. unfold voted_slots in Hrev. rewrite length_reverse, length_app in Hrev. cbn in Hrev. rewrite length_fmap in Hrev. lia.
Qed.

Lemma rev_reverse {A} (l : list A) : rev l = reverse l.
Proof. apply rev_alt. Qed.

Lemma removelast_flags n m :
  rev (removelast (replicate n true ++ replicate (S m) false)) = replicate m false ++ replicate n true.
Proof.
  rewrite replicate_S_end, app_assoc, removelast_last, rev_reverse, reverse_app, !reverse_replicate. done.
Qed.

Lemma adjust_eq h t root :
  root_slot (vote_state t) = Some root -> tower_ordered root (voted_slots t) ->
  tower_last_voted_slot t = last (voted_slots t) ->
  adjust_lockouts_with_slot_history h t = adjusted h root t.
Proof.
  intros Hroot Hord Hlast. unfold adjust_lockouts_with_slot_history, tower_root. rewrite Hroot. cbn [unwrap mbind outcome_bind].
  rewrite rev_reverse. assert (sane h root (reverse (root :: voted_slots t)) (mkAdjust [] true false None None)) as Hsane by done.
  pose proof (adjust_slots_flags h root _ _ (ordered_newer _ _ Hord) Hsane) as Hloop. cbn [anchored_slot] in Hloop.
  destruct (flags_unanchored h (reverse (root :: voted_slots t))) as [[Hall Hfl]|(above & an & below & Hrev & Hab & Han & Hfl)];
    rewrite Hfl in Hloop.
  - destruct Hloop as (a & -> & _ & Ha). cbn. rewrite Ha. cbn. unfold adjusted, anchor.
    rewrite (filter_none _ (root :: voted_slots t)); [done|]. intros s Hs.
    rewrite Forall_forall in Hall. apply Hall. by apply elem_of_reverse_2.
  - destruct (anchor_split h root t above an below Hord Hrev Hab Han) as (Hanc & Hex & Hkept & Hlen).
    unfold adjusted. rewrite Hanc, Hex, Hkept. destruct (existsb _ below); [by rewrite Hloop|].
    destruct Hloop as (a & -> & Hf & Ha). cbn [retain_flags_in_reverse app] in Hf. cbn [mbind outcome_bind]. rewrite Ha, Hf.
    rewrite bool_decide_eq_false_2 by done. rewrite bool_decide_eq_true_2; cycle 1.
    { unfold voted_slots. cbn [length]. rewrite length_fmap, length_app, !length_replicate. lia. }
    cbn [negb]. rewrite removelast_flags, retain_flagged_suffix by done. cbn [mbind outcome_bind].
    set (kept := drop (length below) (votes (vote_state t))). unfold voted_slots. cbn [vote_state set_vote_state votes set_votes].
    rewrite fmap_last. destruct (last kept) as [v|] eqn:El; cbn; [|done].
    assert (tower_last_voted_slot t = Some (lo_slot v)) as Hv.
    { rewrite Hlast. unfold voted_slots. rewrite fmap_last, <- (take_drop (length below) (votes (vote_state t))). fold kept.
      apply last_Some in El as [l' ->]. by rewrite app_assoc, last_snoc. }
    unfold tower_last_voted_slot in *. cbn. rewrite Hv. cbn. by rewrite Z.eqb_refl.
Qed.

(** C33. Adjusting a restored tower to the replayed ledger keeps exactly the
    votes above the anchor, the newest slot of the tower the ledger rooted, and
    marks the last of them as stray; it clears the last vote when none is left.
    It fails when no slot of the tower is rooted or when a slot below the anchor
    is missing from the ledger, and in no other case: the other two error
    branches and the assertions are never reached. *)
Theorem adjust_lockouts_correct h t root :
  root_slot (vote_state t) = Some root -> tower_ordered root (voted_slots t) ->
  tower_last_voted_slot t = last (voted_slots t) ->
  adjust_lockouts_with_slot_history h t = adjusted h root t.
Proof. apply adjust_eq. Qed.
End adjust.

Section future.
Context {B : Type} `{BitBlocksLaws B, !BitVecLaws B}.

(** With its root added to the history, a tower ahead of the ledger is anchored there. *)
Lemma future_anchor (h : SlotHistory B) slots t root :
  represents h slots -> next_slot h <= root < U64_MAX -> tower_ordered root (voted_slots t) ->
  anchor (slot_history_add h root) root t = Some root.
Proof.
  intros Hr Hroot [Hs Hge]. pose proof (add_represents h slots root Hr Hroot) as Hr'.
  assert (next_slot (slot_history_add h root) = root + 1) as Hn by (pose proof (rp_next _ _ Hr); cbn; apply add64_small; u64).
  assert (forall s, root <= s -> slot_history_check (slot_history_add h root) s = Found <-> s = root) as Hc.
  { intros s Hle. pose proof (rp_next _ _ Hr). rewrite (check_represents _ _ _ Hr') by lia. rewrite Hn.
    destruct (Z.leb_spec (root + 1) s), (Z.ltb_spec s (root + 1 - MAX_SLOT_ENTRIES)); try (split; [done|lia]); [unfold MAX_SLOT_ENTRIES in *; lia|].
    rewrite bool_decide_eq_true_2; [split; [lia|done]|]. apply elem_of_union_l, elem_of_singleton. lia. }
  unfold anchor. rewrite filter_cons_True by (apply Hc; lia).
  rewrite last_cons. case_match eqn:El; [|done].
  apply last_elem, list_elem_of_filter in El as [Hf Hin]. apply Hc in Hf as ->; [done|auto].
Qed.

(** A restored tower whose root the ledger has not reached keeps its root
    and every vote above it, so that voting stays suspended until the ledger
    has caught up with the last vote, which is marked as stray. *)
Theorem future_tower_kept (h : SlotHistory B) slots t root replayed_root last_slot :
  represents h slots -> slot_history_check h replayed_root = Found ->
  root_slot (vote_state t) = Some root -> replayed_root < root -> next_slot h <= root < U64_MAX ->
  tower_ordered root (voted_slots t) -> tower_last_voted_slot t = last (voted_slots t) ->
  last (voted_slots t) = Some last_slot -> root < last_slot ->
  adjust_lockouts_after_replay replayed_root h t =
    Ok (set_stray (Some last_slot)
      (set_vote_state (set_votes (filter (fun v => root < lo_slot v) (votes (vote_state t))) (vote_state t)) t)).
Proof.
  intros Hr Hfound Hroot Hlt Hnext Hord Hlast Hl Habove. unfold adjust_lockouts_after_replay, tower_root. rewrite Hroot. cbn [unwrap mbind outcome_bind].
  rewrite bool_decide_eq_true_2 by done. cbn [negb]. rewrite Hlast, Hl, (proj2 (Z.leb_gt _ _) Hlt).
  assert (Vote_is_default (last_vote t) = false) as ->.
  { unfold Vote_is_default. rewrite bool_decide_eq_false_2; [done|]. intros Hnil. unfold tower_last_voted_slot, Vote_last_voted_slot in Hlast.
    rewrite Hnil, Hl in Hlast. done. }
  rewrite bool_decide_eq_false_2; cycle 1. { intros Hnil. unfold voted_slots in Hl. by rewrite Hnil in Hl. }
  cbn [eqb negb]. rewrite (adjust_eq _ _ root) by done. unfold adjusted.
  rewrite (future_anchor h slots t root) by done. replace (existsb _ _) with false; cycle 1.
  { symmetry. apply not_true_iff_false. intros (s & Hin%list_elem_of_In & [?%Z.ltb_lt _]%andb_prop)%existsb_exists.
    apply elem_of_cons in Hin as [->|Hin%Hord]; lia. }
  unfold voted_slots in Hl. rewrite fmap_last in Hl. apply fmap_Some in Hl as (v & Hv & ->). apply last_Some in Hv as [l Hv].
  rewrite Hv, filter_app, filter_cons_True by done. cbn [filter list_filter]. by rewrite last_snoc.
Qed.
End future.
