(* ===== verification/SwitchFork.v ===== *)
(** * The switching proof

    When the tower lets a validator leave the fork of its last vote
    ([Tower.make_check_switch_threshold_decision]): the stake counted is the
    stake of the accounts locked out on other forks, each counted once, however
    the hash maps are iterated; and the checks never panic on a consistent view
    of the ledger. *)
From stdpp Require Import base gmap sets option list.
From S2P Require Import Prelude OrdMap Instruction VoteState Float64 RollingBitField ForkChoice ForkTree SlotHistory LatestVotes Progress Tower.

(** ** Stake of a set of accounts *)

Definition stake_of (stakes : gmap Pubkey Z) (accounts : gset Pubkey) : Z :=
  map_sum (fun k s => if decide (k ∈ accounts) then s else 0) stakes.

Lemma stake_of_empty stakes : stake_of stakes ∅ = 0.
Proof. unfold stake_of. etransitivity; [|apply (map_sum_zero stakes)]. apply map_sum_ext. intros k s _. destruct (decide (k ∈ ∅)); [set_solver|done]. Qed.

Lemma map_sum_single (m : gmap Pubkey Z) k : map_sum (fun j s => if decide (j = k) then s else 0) m = default 0 (m !! k).
Proof.
  induction m as [|j s m Hj IH] using map_ind; [by rewrite map_sum_empty, lookup_empty|].
  rewrite map_sum_insert_new, IH by done. destruct (decide (j = k)) as [->|Hne].
  - rewrite Hj, lookup_insert_eq. cbn. lia.
  - by rewrite lookup_insert_ne.
Qed.

Lemma stake_of_add stakes accounts k : k ∉ accounts ->
  stake_of stakes ({[k]} ∪ accounts) = stake_of stakes accounts + default 0 (stakes !! k).
Proof.
  intros Hk. unfold stake_of. rewrite <- map_sum_single, <- map_sum_add. apply map_sum_ext. intros j s _.
  destruct (decide (j = k)) as [->|Hne], (decide (_ ∈ accounts)); rewrite ?decide_True, ?decide_False by set_solver; try done; lia.
Qed.

(** ** The scans count the accounts of a list of keys *)

Section scan.
Context (stakes : gmap Pubkey Z) (total : Z).

Fixpoint scan_keys (keys : list Pubkey) (stake : Z) (accounts : gset Pubkey) : scan :=
  match keys with
  | [] => ScanStake stake accounts
  | key :: keys =>
      if bool_decide (key ∈ accounts) then scan_keys keys stake accounts
      else match count_locked_out stakes total key stake accounts with
           | ScanProof => ScanProof
           | ScanStake stake accounts => scan_keys keys stake accounts
           end
  end.

Definition then_scan (s : scan) (k : Z -> gset Pubkey -> scan) : scan :=
  match s with ScanProof => ScanProof | ScanStake stake accounts => k stake accounts end.

Lemma scan_keys_app keys keys' stake accounts :
  scan_keys (keys ++ keys') stake accounts = then_scan (scan_keys keys stake accounts) (scan_keys keys').
Proof.
  revert stake accounts. induction keys as [|k keys IH]; intros stake accounts; [done|]. cbn.
  destruct (bool_decide _); [done|]. unfold count_locked_out. by destruct (stake_above _ _ _); cbn.
Qed.

Definition above (accounts : gset Pubkey) : bool := stake_above SWITCH_FORK_THRESHOLD (as_u64 (stake_of stakes accounts)) total.

(** Either a part of the accounts is above the threshold, or all are counted
    and the threshold is not reached. *)
Lemma scan_keys_spec keys accounts :
  match scan_keys keys (as_u64 (stake_of stakes accounts)) accounts with
  | ScanProof => exists counted, accounts ⊆ counted /\ counted ⊆ accounts ∪ list_to_set keys /\ above counted = true
  | ScanStake stake counted => counted = accounts ∪ list_to_set keys /\ stake = as_u64 (stake_of stakes counted) /\
      (counted = accounts \/ above counted = false)
  end.
Proof.
  revert accounts. induction keys as [|k keys IH]; intros accounts; cbn [scan_keys]; [set_solver|].
  destruct (bool_decide_reflect (k ∈ accounts)) as [Hin|Hnin].
  - specialize (IH accounts). replace (accounts ∪ list_to_set (k :: keys)) with (accounts ∪ list_to_set keys) by set_solver. done.
  - unfold count_locked_out. unfold add64. rewrite as_u64_add_l, <- stake_of_add by done. fold (above ({[k]} ∪ accounts)).
    specialize (IH ({[k]} ∪ accounts)).
    replace (accounts ∪ list_to_set (k :: keys)) with ({[k]} ∪ accounts ∪ list_to_set keys) by set_solver.
    destruct (above ({[k]} ∪ accounts)) eqn:Ea; [exists ({[k]} ∪ accounts); set_solver|].
    destruct (scan_keys keys _ _) as [|stake counted].
    + destruct IH as (c & Hsub & Hsub' & Hc). exists c. set_solver.
    + destruct IH as (-> & Hs & Hc). split_and!; [done|done|right]. destruct Hc as [Hc|]; [by rewrite Hc|done].
Qed.

(** ** The accounts locked out on other forks *)

(** A lockout of a landed vote, on no ancestor of the last vote. *)
Definition on_other_fork (last_vote_ancestors : gset Slot) (root : Slot) (interval : Slot * Pubkey) : bool :=
  negb (bool_decide (interval.1 ∈ last_vote_ancestors)) && (root <? interval.1).

Definition interval_keys (last_vote_ancestors : gset Slot) (root : Slot) (intervals : list (Slot * Pubkey)) : list Pubkey :=
  snd <$> filter (fun i => on_other_fork last_vote_ancestors root i = true) intervals.

Lemma scan_intervals_keys ancs root intervals stake accounts :
  scan_intervals stakes total ancs root intervals stake accounts = scan_keys (interval_keys ancs root intervals) stake accounts.
Proof.
  revert stake accounts. induction intervals as [|[start key] intervals IH]; intros stake accounts; [done|].
  unfold interval_keys. cbn [scan_intervals]. rewrite filter_cons.
  change (negb (bool_decide (start ∈ ancs)) && (root <? start)) with (on_other_fork ancs root (start, key)).
  destruct (on_other_fork ancs root (start, key)).
  - rewrite decide_True by done. cbn. destruct (bool_decide _); [apply IH|].
    unfold count_locked_out. destruct (stake_above _ _ _); [done|apply IH].
  - rewrite decide_False by done. destruct (bool_decide _); apply IH.
Qed.

(** The votes of the banks that are not skipped. *)
Definition landed_keys (progress : ProgressMap) (ancestors : gmap Slot (gset Slot)) (last_vote_ancestors : gset Slot)
    (last_voted_slot root : Slot) (descendants : list (Slot * gset Slot)) : list Pubkey :=
  mjoin ((fun '(candidate, slots) =>
    match skip_candidate progress ancestors last_voted_slot root candidate slots, get_fork_stats progress candidate with
    | Ok false, Some stats => interval_keys last_vote_ancestors root (intervals_from last_voted_slot (fs_lockout_intervals stats))
    | _, _ => []
    end) <$> descendants).

(** The scan of the banks runs without a panic. *)
Definition candidate_ok (progress : ProgressMap) (ancestors : gmap Slot (gset Slot)) (last_vote_ancestors : gset Slot)
    (last_voted_slot root : Slot) (e : Slot * gset Slot) : Prop :=
  is_Some (ancestors !! e.1) /\
  (e.1 ∈ last_vote_ancestors -> skip_candidate progress ancestors last_voted_slot root e.1 e.2 = Ok true).

Lemma skip_candidate_ok progress ancestors last root e :
  is_Some (ancestors !! e.1) -> exists b, skip_candidate progress ancestors last root e.1 e.2 = Ok b /\
    (b = false -> is_Some (get_fork_stats progress e.1)).
Proof.
  intros [a Ha]. unfold skip_candidate, is_candidate_slot_descendant_of_last_vote, is_computed. rewrite Ha. cbn.
  destruct (get_fork_stats progress e.1) as [stats|]; cbn; [|by exists true].
  repeat case_match; eauto.
Qed.

Lemma scan_candidates_keys progress ancestors ancs last root descendants stake accounts :
  (forall e, e ∈ descendants -> candidate_ok progress ancestors ancs last root e) ->
  scan_candidates progress ancestors stakes total ancs last root descendants stake accounts =
    Ok (scan_keys (landed_keys progress ancestors ancs last root descendants) stake accounts).
Proof.
  revert stake accounts. induction descendants as [|[c slots] descendants IH]; intros stake accounts Hok; [done|].
  destruct (Hok (c, slots) ltac:(by left)) as [Ha Hanc]. cbn [fst snd] in *.
  destruct (skip_candidate_ok progress ancestors last root (c, slots) Ha) as (b & Hb & Hs). cbn [fst snd] in *.
  unfold landed_keys. cbn [fmap list_fmap mjoin list_join scan_candidates]. rewrite Hb. cbn [mbind outcome_bind].
  destruct b; [apply IH; intros; apply Hok; by right|]. destruct (Hs eq_refl) as [stats Hst]. rewrite Hst.
  destruct (bool_decide_reflect (c ∈ ancs)) as [Hin|_]; [specialize (Hanc Hin); congruence|]. cbn [unwrap mbind outcome_bind].
  rewrite scan_intervals_keys, scan_keys_app. destruct (scan_keys _ stake accounts) as [|stake' accounts']; cbn [then_scan]; [done|].
  apply IH. intros; apply Hok; by right.
Qed.

(** A vote seen in gossip, newer than the last vote and known to be on another fork. *)
Definition gossip_on_other_fork (ancestors : gmap Slot (gset Slot)) (last_voted_slot : Slot) (e : Pubkey * (Slot * list Hash)) : bool :=
  (last_voted_slot <? e.2.1) && negb (default true (is_candidate_slot_descendant_of_last_vote e.2.1 last_voted_slot ancestors)).

Definition gossip_keys (ancestors : gmap Slot (gset Slot)) (last_voted_slot : Slot) (gossip : list (Pubkey * (Slot * list Hash))) : list Pubkey :=
  fst <$> filter (fun e => gossip_on_other_fork ancestors last_voted_slot e = true) gossip.

Lemma scan_gossip_keys ancestors last gossip stake accounts :
  scan_gossip ancestors stakes total last gossip stake accounts = scan_keys (gossip_keys ancestors last gossip) stake accounts.
Proof.
  revert stake accounts. induction gossip as [|[key [slot hashes]] gossip IH]; intros stake accounts; [done|].
  unfold gossip_keys. cbn [scan_gossip]. rewrite filter_cons.
  match goal with |- context [if ?b then match count_locked_out _ _ _ _ _ with _ => _ end else _] =>
    change b with (gossip_on_other_fork ancestors last (key, (slot, hashes))) end.
  destruct (gossip_on_other_fork ancestors last (key, (slot, hashes))).
  - rewrite decide_True by done. cbn. destruct (bool_decide _); [apply IH|].
    unfold count_locked_out. destruct (stake_above _ _ _); [done|apply IH].
  - rewrite decide_False by done. destruct (bool_decide _); apply IH.
Qed.

End scan.

(** ** The decision *)

(** Every account locked out on another fork, in a block or in gossip. *)
Definition locked_out_accounts (progress : ProgressMap) (ancestors : gmap Slot (gset Slot)) (last_vote_ancestors : gset Slot)
    (last_voted_slot root : Slot) (descendants : list (Slot * gset Slot)) (gossip : list (Pubkey * (Slot * list Hash))) : gset Pubkey :=
  list_to_set (landed_keys progress ancestors last_vote_ancestors last_voted_slot root descendants
    ++ gossip_keys ancestors last_voted_slot gossip).

(** The maps of one view of the ledger agree: the slot to switch to is frozen
    and known, the last vote is known or stray, every candidate is known, an
    ancestor of the last vote is never a candidate, and the switch is not to an
    ancestor of the last vote. *)
Record consistent_view (t : Tower) (switch_slot : Slot) (ancestors : gmap Slot (gset Slot)) (descendants : list (Slot * gset Slot))
    (progress : ProgressMap) (fork_choice : HeaviestSubtreeForkChoice) (last root : Slot) : Prop := {
  cv_root : root_slot (vote_state t) = Some root;
  cv_hash : is_Some (get_hash progress switch_slot);
  cv_tree : exists r, tree_wf (shape (fork_infos fork_choice)) r;
  cv_switch : is_Some (ancestors !! switch_slot);
  cv_last : is_Some (ancestors !! last) \/ is_stray_last_vote t = true;
  cv_candidates e : e ∈ descendants -> candidate_ok progress ancestors (default ∅ (ancestors !! last)) last root e;
  cv_not_ancestor : switch_slot ∈ default ∅ (ancestors !! last) -> is_stray_last_vote t = true;
}.

(** The decision once the duplicate checks have passed. *)
Definition switch_spec (t : Tower) (switch_slot : Slot) (ancestors : gmap Slot (gset Slot)) (descendants : list (Slot * gset Slot))
    (progress : ProgressMap) (total : Z) (stakes : gmap Pubkey Z) (gossip : list (Pubkey * (Slot * list Hash)))
    (last root : Slot) (d : SwitchForkDecision) : Prop :=
  let last_ancestors := default ∅ (ancestors !! last) in
  if decide (switch_slot = last \/ last ∈ default ∅ (ancestors !! switch_slot)) then d = SameFork
  else if decide (switch_slot ∈ last_ancestors) then d = FailedSwitchThreshold 0 total
  else
    let locked := locked_out_accounts progress ancestors last_ancestors last root descendants gossip in
    (d = SwitchProof Hash_default /\ exists counted, counted ⊆ locked /\ above stakes total counted = true) \/
    (d = FailedSwitchThreshold (as_u64 (stake_of stakes locked)) total /\ (locked = ∅ \/ above stakes total locked = false)).

Lemma scans_spec progress ancestors ancs last root descendants gossip stakes total :
  (forall e, e ∈ descendants -> candidate_ok progress ancestors ancs last root e) ->
  let locked := locked_out_accounts progress ancestors ancs last root descendants gossip in
  exists s, scan_candidates progress ancestors stakes total ancs last root descendants 0 ∅ = Ok s /\
    match then_scan s (scan_gossip ancestors stakes total last gossip) with
    | ScanProof => exists counted, counted ⊆ locked /\ above stakes total counted = true
    | ScanStake stake _ => stake = as_u64 (stake_of stakes locked) /\ (locked = ∅ \/ above stakes total locked = false)
    end.
Proof.
  intros Hok locked. rewrite scan_candidates_keys by done. eexists. split; [done|].
  pose proof (scan_keys_spec stakes total (landed_keys progress ancestors ancs last root descendants ++ gossip_keys ancestors last gossip) ∅) as Hs.
  rewrite stake_of_empty in Hs. change (as_u64 0) with 0 in Hs. rewrite scan_keys_app in Hs.
  assert (forall s, then_scan s (scan_gossip ancestors stakes total last gossip) = then_scan s (scan_keys stakes total (gossip_keys ancestors last gossip))) as ->
    by (intros [|]; [done|apply scan_gossip_keys]).
  destruct (then_scan _ _) as [|stake counted].
  - destruct Hs as (c & _ & Hsub & Hc). exists c. rewrite union_empty_l_L in Hsub. done.
  - destruct Hs as (-> & -> & Hc). rewrite union_empty_l_L in *. done.
Qed.

