(* ===== verification/CollectVotes.v ===== *)
(** * Vote statistics of a bank

    What [Tower.collect_vote_lockouts] computes from the vote accounts of a
    bank: the stake voting on every slot, the total stake, and the lockout
    intervals the switching proof reads. *)
From stdpp Require Import base gmap sorting sets option list.
From S2P Require Import Prelude OrdMap Instruction VoteState VoteTower LatestVotes Progress Tower TowerSafety.

Abbreviation VoteAccounts := (list (Pubkey * (Z * option VoteState))).

(** ** Adding stake to a slot and its ancestors *)

Definition voted (m : VotedStakes) (slot : Slot) : Z := default 0 (m !! slot).

Lemma voted_add stake slot m slot' :
  voted (add_voted_stake stake slot m) slot' = if decide (slot = slot') then add64 (voted m slot') stake else voted m slot'.
Proof.
  unfold voted, add_voted_stake. destruct (decide (slot = slot')) as [->|Hne]; [by rewrite lookup_insert_eq|by rewrite lookup_insert_ne].
Qed.

Lemma voted_add_all stake slots m slot : NoDup slots ->
  voted (foldl (fun m s => add_voted_stake stake s m) m slots) slot = if decide (slot ∈ slots) then add64 (voted m slot) stake else voted m slot.
Proof.
  revert m. induction slots as [|s slots IH]; intros m Hnd; cbn [foldl]; [by rewrite decide_False by apply not_elem_of_nil|].
  apply NoDup_cons in Hnd as [Hs Hnd]. rewrite IH, voted_add by done.
  destruct (decide (s = slot)) as [->|Hne].
  - rewrite decide_False, decide_True by (done || by left). done.
  - destruct (decide (slot ∈ slots)); [rewrite decide_True by (by right); done|].
    rewrite decide_False; [done|]. intros [->|?]%elem_of_cons; done.
Qed.

(** The slots a vote counts for: the slot and its known ancestors. *)
Definition counts_for (ancestors : gmap Slot (gset Slot)) (vote slot : Slot) : bool :=
  match ancestors !! vote with Some a => bool_decide (slot = vote \/ slot ∈ a) | None => false end.

Lemma voted_update m vote stake ancestors slot :
  (forall a, ancestors !! vote = Some a -> vote ∉ a) ->
  voted (update_ancestor_voted_stakes m vote stake ancestors) slot =
    if counts_for ancestors vote slot then add64 (voted m slot) stake else voted m slot.
Proof.
  intros Hself. unfold update_ancestor_voted_stakes, counts_for. destruct (ancestors !! vote) as [a|] eqn:E; [|done].
  rewrite voted_add_all, voted_add by apply NoDup_elements. specialize (Hself a eq_refl).
  destruct (decide (slot ∈ elements a)) as [Hin|Hin]; rewrite elem_of_elements in Hin.
  - rewrite decide_False by (intros ->; done). by rewrite bool_decide_eq_true_2 by tauto.
  - destruct (decide (vote = slot)) as [->|Hne]; [by rewrite bool_decide_eq_true_2 by tauto|].
    rewrite bool_decide_eq_false_2; [done|]. intros [->|?]; done.
Qed.

Lemma voted_touch m s slot : voted (touch m s) slot = voted m slot.
Proof. unfold voted, touch. destruct (decide (s = slot)) as [->|Hne]; [by rewrite lookup_insert_eq|by rewrite lookup_insert_ne]. Qed.

Lemma voted_touch_all l m slot : voted (foldl touch m l) slot = voted m slot.
Proof. revert m. induction l as [|s l IH]; intros m; [done|]. cbn. by rewrite IH, voted_touch. Qed.

Lemma voted_populate m slots ancestors slot : voted (populate_ancestor_voted_stakes m slots ancestors) slot = voted m slot.
Proof.
  unfold populate_ancestor_voted_stakes. revert m. induction slots as [|s slots IH]; intros m; [done|]. cbn [foldl]. rewrite IH.
  destruct (ancestors !! s); [by rewrite voted_touch_all, voted_touch|done].
Qed.

(** ** Lockout intervals *)

Definition interval_at (m : LockoutIntervals) (e : Slot) (i : Slot * Pubkey) : Prop := i ∈ default [] (bt_get e m).

Lemma push_interval_spec key m v e i : bt_sorted m ->
  bt_sorted (push_interval key m v) /\
  (interval_at (push_interval key m v) e i <-> interval_at m e i \/ e = last_locked_out_slot v /\ i = (lo_slot v, key)).
Proof.
  intros Hs. unfold push_interval, interval_at. split; [by apply bt_insert_sorted|].
  destruct (decide (e = last_locked_out_slot v)) as [->|Hne].
  - rewrite bt_get_insert_eq. cbn. rewrite elem_of_app, list_elem_of_singleton. naive_solver.
  - rewrite bt_get_insert_ne by done. naive_solver.
Qed.

Lemma push_intervals_spec key l m e i : bt_sorted m ->
  bt_sorted (foldl (push_interval key) m l) /\
  (interval_at (foldl (push_interval key) m l) e i <->
     interval_at m e i \/ exists v, v ∈ l /\ e = last_locked_out_slot v /\ i = (lo_slot v, key)).
Proof.
  revert m. induction l as [|v l IH]; intros m Hs; cbn [foldl].
  - split; [done|]. split; [by left|]. intros [?|(v & ?%not_elem_of_nil & _)]; done.
  - destruct (push_interval_spec key m v e i Hs) as [Hs1 H1]. destruct (IH _ Hs1) as [Hs2 H2]. split; [done|].
    rewrite H2, H1. setoid_rewrite elem_of_cons. naive_solver.
Qed.

(** ** The reference *)

(** The accounts that are counted. *)
Definition staked (account : Pubkey * (Z * option VoteState)) : option (Pubkey * Z * VoteState) :=
  let '(key, (stake, state)) := account in if stake =? 0 then None else (fun s => (key, stake, s)) <$> state.

(** The newest vote not expired when the bank's own slot is voted on. *)
Definition counted_vote (bank_slot : Slot) (s : VoteState) : option Slot :=
  lo_slot <$> nth_recent_vote (process_slot_vote_unchecked bank_slot s) 1.

Definition stake_for (bank_slot : Slot) (ancestors : gmap Slot (gset Slot)) (slot : Slot) (account : Pubkey * Z * VoteState) : Z :=
  match counted_vote bank_slot account.2 with
  | Some vote => if counts_for ancestors vote slot then account.1.2 else 0
  | None => 0
  end.

Definition list_sum {A} (f : A -> Z) (l : list A) : Z := foldr (fun x acc => f x + acc) 0 l.

Lemma list_sum_app {A} (f : A -> Z) l l' : list_sum f (l ++ l') = list_sum f l + list_sum f l'.
Proof. induction l as [|x l IH]; cbn; [done|]. unfold list_sum in *. lia. Qed.

Section collect.
Context (mine : Pubkey) (bank_slot : Slot) (ancestors : gmap Slot (gset Slot)) (get_frozen_hash : Slot -> option Hash).

(** No block is its own ancestor, and no vote of the bank is as new as the bank. *)
Hypothesis ancestors_strict : forall slot a, ancestors !! slot = Some a -> slot ∉ a.

Definition votes_before (s : VoteState) : Prop := already_voted (last_voted_slot s) bank_slot = false.

Record collected (l : list (Pubkey * Z * VoteState)) (c : Collected) : Prop := {
  co_total : cb_total_stake (cl_state c) = as_u64 (list_sum (fun a => a.1.2) l);
  co_voted slot : voted (cb_voted_stakes (cl_state c)) slot = as_u64 (list_sum (stake_for bank_slot ancestors slot) l);
  co_sorted : bt_sorted (cb_lockout_intervals (cl_state c));
  co_intervals e i : interval_at (cb_lockout_intervals (cl_state c)) e i <->
    exists key stake s v, (key, stake, s) ∈ l /\ v ∈ votes s /\ e = last_locked_out_slot v /\ i = (lo_slot v, key);
  co_latest : exists events, votes_inv events (cl_latest c);
}.

Lemma simulated_last s : votes_before s -> lo_slot <$> nth_recent_vote (process_slot_vote_unchecked bank_slot s) 0 = Some bank_slot.
Proof.
  intros Hb. unfold process_slot_vote_unchecked. rewrite process_one_vote.
  pose proof (last_is_vote bank_slot (current_epoch s) s Hb) as Hl. unfold last_voted_slot, last_lockout in Hl.
  unfold nth_recent_vote. rewrite last_lookup in Hl. set (l := votes _) in *. destruct (decide (0 < length l)%nat) as [Hlt|Hge].
  - by replace (length l - 1 - 0)%nat with (pred (length l)) by lia.
  - apply fmap_Some in Hl as (v & Hv & _). apply lookup_lt_Some in Hv. lia.
Qed.

Lemma landed_vote_ok key s c l : collected l c ->
  exists latest, match last_voted_slot s with
    | Some slot => '(_, latest) ← check_add_vote (cl_latest c) key slot (get_frozen_hash slot) true; Ok latest
    | None => Ok (cl_latest c)
    end = Ok latest /\ exists events, votes_inv events latest.
Proof.
  intros [_ _ _ _ [events Hev]]. destruct (last_voted_slot s) as [slot|]; [|eauto].
  destruct (check_add_vote_inv events (cl_latest c) key slot (get_frozen_hash slot) true Hev) as (r & latest & -> & Hi). cbn. eauto.
Qed.

Lemma collect_staked key stake s l c :
  collected l c -> stake <> 0 -> votes_before s ->
  exists c', collect_account mine bank_slot ancestors get_frozen_hash key stake (Some s) c = Ok c' /\ collected (l ++ [(key, stake, s)]) c'.
Proof using ancestors_strict.
  intros Hc Hstake Hb. unfold collect_account. rewrite (proj2 (Z.eqb_neq stake 0) Hstake).
  destruct (landed_vote_ok key s c l Hc) as (latest & -> & Hlatest). cbn [mbind outcome_bind].
  rewrite bool_decide_eq_true_2 by by apply simulated_last. eexists. split; [reflexivity|].
  destruct Hc as [Ht Hv Hs Hi _]. split; cbn [cl_state cl_latest cb_total_stake cb_voted_stakes cb_lockout_intervals]; [| | | |done].
  - rewrite Ht. unfold add64. rewrite as_u64_add_l, list_sum_app. cbn. f_equal. lia.
  - intros slot. rewrite list_sum_app. cbn [list_sum foldr]. unfold stake_for at 2, counted_vote. cbn [fst snd].
    destruct (nth_recent_vote (process_slot_vote_unchecked bank_slot s) 1) as [v|]; cbn [fmap option_fmap option_map]; [|rewrite Hv; f_equal; lia].
    rewrite voted_update by apply ancestors_strict. rewrite Hv. destruct (counts_for _ _ _); [|f_equal; lia].
    unfold add64. rewrite as_u64_add_l. f_equal. lia.
  - by apply (push_intervals_spec key (votes s) _ 0 (0, 0)).
  - intros e i. rewrite (proj2 (push_intervals_spec key (votes s) _ e i Hs)), Hi. setoid_rewrite elem_of_app. setoid_rewrite list_elem_of_singleton. split.
    + intros [(k & st & s0 & v & ? & ?)|(v & ? & ?)]; [exists k, st, s0, v; tauto|exists key, stake, s, v; tauto].
    + intros (k & st & s0 & v & [?|[= -> -> ->]] & ?); [left; exists k, st, s0, v; tauto|right; exists v; tauto].
Qed.

Lemma collect_accounts_ok accounts l c :
  collected l c -> (forall key stake s, (key, stake, s) ∈ omap staked accounts -> votes_before s) ->
  exists c', collect_accounts mine bank_slot accounts ancestors get_frozen_hash c = Ok c' /\ collected (l ++ omap staked accounts) c'.
Proof using ancestors_strict.
  revert l c. induction accounts as [|[key [stake state]] accounts IH]; intros l c Hc Hb; cbn [collect_accounts]; [exists c; by rewrite app_nil_r|].
  destruct (staked (key, (stake, state))) as [a|] eqn:E.
  - cbn [omap list_omap] in *. rewrite E in *. cbn in E. destruct (Z.eqb_spec stake 0) as [|Hne]; [done|]. destruct state as [s|]; [|done].
    injection E as <-. destruct (collect_staked key stake s l c Hc Hne) as (c1 & -> & Hc1); [by eapply Hb; left|]. cbn.
    destruct (IH _ c1 Hc1) as (c2 & -> & Hc2); [intros; eapply Hb; by right|]. exists c2. by rewrite <- app_assoc in Hc2.
  - cbn [omap list_omap] in *. rewrite E in *. assert (collect_account mine bank_slot ancestors get_frozen_hash key stake state c = Ok c) as ->.
    { unfold collect_account. cbn in E. destruct (stake =? 0); [done|]. by destruct state. }
    cbn. by apply IH.
Qed.

Lemma nothing_collected latest events :
  votes_inv events latest -> collected [] (mkCollected ∅ (mkComputedBankState ∅ 0 0 [] None) latest).
Proof.
  intros Hev. split; cbn; [done|done|constructor| |eauto]. intros e i. split; [intros ?%not_elem_of_nil; done|].
  intros (? & ? & ? & ? & ?%not_elem_of_nil & _). done.
Qed.

(** C34. On the vote accounts of a bank, in whatever order they are iterated,
    [collect_vote_lockouts] returns without failing: the total stake is the
    stake of the accounts with a decodable vote state; the stake voting on a
    slot is the stake of those whose newest unexpired vote is that slot or
    descends from it; and the lockout intervals are exactly the intervals of
    their votes, keyed by the slot where they end. *)
Theorem collect_vote_lockouts_correct accounts latest events :
  votes_inv events latest ->
  (forall key stake s, (key, stake, s) ∈ omap staked accounts -> votes_before s) ->
  exists st latest', collect_vote_lockouts mine bank_slot accounts ancestors get_frozen_hash latest = Ok (st, latest') /\
    cb_total_stake st = as_u64 (list_sum (fun a => a.1.2) (omap staked accounts)) /\
    (forall slot, voted (cb_voted_stakes st) slot = as_u64 (list_sum (stake_for bank_slot ancestors slot) (omap staked accounts))) /\
    (forall e i, interval_at (cb_lockout_intervals st) e i <->
       exists key stake s v, (key, stake, s) ∈ omap staked accounts /\ v ∈ votes s /\ e = last_locked_out_slot v /\ i = (lo_slot v, key)).
Proof using ancestors_strict.
  intros Hev Hb. unfold collect_vote_lockouts.
  destruct (collect_accounts_ok accounts [] _ (nothing_collected latest events Hev) Hb) as (c & -> & [Ht Hv Hs Hi Hl]).
  cbn [mbind outcome_bind]. eexists _, _. split; [done|]. cbn. split_and!; [done| |done].
  intros slot. by rewrite voted_populate.
Qed.
End collect.
