(* ===== verification/ReplayVote.v ===== *)
(** * Voting in the replay stage

    [core/src/replay_stage.rs] from the statistics of the frozen banks to the
    recorded vote: [compute_bank_stats], [select_forks],
    [select_vote_and_reset_forks] and the vote of [handle_votable_bank]. It
    composes the tower, the fork choice, the latest votes and the progress map;
    a vote that comes out of it never contradicts the validator's lockouts. *)
From stdpp Require Import base gmap sorting sets option list.
From S2P Require Import Prelude Instruction VoteState VoteTower EpochSchedule Float64 ForkChoice LatestVotes Progress Tower TowerSafety.

(** ** Statistics of the frozen banks *)

(** What the stage reads of a frozen bank, with the votes and the nodes the
    gossip trackers report for its slot. *)
Record StatBank : Type := mkStatBank {
  sb_slot : Slot;
  sb_block_height : Z;
  sb_vote_accounts : list (Pubkey * (Z * option VoteState));
  sb_epoch_stakes : gmap Epoch EpochStakes;
  sb_epoch_schedule : EpochSchedule;
  sb_newly_voted : list Pubkey;
  sb_cluster_slot : list Pubkey;
}.

Definition bank_le (a b : StatBank) : Prop := sb_slot a <= sb_slot b.

#[export] Instance bank_le_dec : RelDecision bank_le.
Proof. intros a b. unfold bank_le. apply _. Defined.

(** [HeaviestSubtreeForkChoice::compute_bank_stats] *)
Definition fork_choice_compute_bank_stats (bank : StatBank) (fork_choice : HeaviestSubtreeForkChoice)
    (latest : LatestValidatorVotesForFrozenBanks) : outcome fuel_error (HeaviestSubtreeForkChoice * LatestValidatorVotesForFrozenBanks) :=
  let '(new_votes, latest) := take_votes_dirty_set latest (fc_root fork_choice).1 in
  '(fork_choice, _) ← add_votes (sb_epoch_stakes bank) (sb_epoch_schedule bank) fork_choice new_votes;
  Ok (fork_choice, latest).

Definition set_computed (bank : StatBank) (c : ComputedBankState) (s : ForkStats) : ForkStats :=
  mkForkStats (fs_weight s) (fs_fork_weight s) (cb_total_stake c) (sb_block_height bank) (fs_has_voted s) (fs_is_recent s)
    (fs_is_empty s) (fs_vote_threshold s) (fs_is_locked_out s) (cb_voted_stakes c) (fs_is_supermajority_confirmed s) true
    (cb_lockout_intervals c) (fs_bank_hash s) (cb_my_latest_landed_vote c).

Definition set_tower_stats (vote_threshold locked_out has_voted recent : bool) (s : ForkStats) : ForkStats :=
  mkForkStats (fs_weight s) (fs_fork_weight s) (fs_total_stake s) (fs_block_height s) has_voted recent
    (fs_is_empty s) vote_threshold locked_out (fs_voted_stakes s) (fs_is_supermajority_confirmed s) (fs_computed s)
    (fs_lockout_intervals s) (fs_bank_hash s) (fs_my_latest_landed_vote s).

Definition alter_fork_stats (f : ForkStats -> ForkStats) (slot : Slot) (p : ProgressMap) : ProgressMap :=
  alter (fun e => set_fork_stats (f (fork_stats e)) e) slot p.

Record StageState : Type := mkStageState {
  st_progress : ProgressMap;
  st_fork_choice : HeaviestSubtreeForkChoice;
  st_latest : LatestValidatorVotesForFrozenBanks;
}.

Section stage.
Context (my_vote_pubkey : Pubkey) (ancestors : gmap Slot (gset Slot)) (root : Slot) (leader_banks : gmap Slot LeaderBank).

(** The statistics computed once per bank. *)
Definition compute_new_stats (bank : StatBank) (s : StageState) : outcome fuel_error (bool * StageState) :=
  stats ← unwrap (get_fork_stats (st_progress s) (sb_slot bank));
  if fs_computed stats then Ok (false, s)
  else
    '(computed, latest) ← collect_vote_lockouts my_vote_pubkey (sb_slot bank) (sb_vote_accounts bank) ancestors
                            (get_hash (st_progress s)) (st_latest s);
    '(fork_choice, latest) ← fork_choice_compute_bank_stats bank (st_fork_choice s) latest;
    Ok (true, mkStageState (alter_fork_stats (set_computed bank computed) (sb_slot bank) (st_progress s)) fork_choice latest).

(** The statistics that depend on the tower, computed in every turn. *)
Definition compute_tower_stats (t : Tower) (slot : Slot) (p : ProgressMap) : outcome fuel_error ProgressMap :=
  stats ← unwrap (get_fork_stats p slot);
  slot_ancestors ← unwrap (ancestors !! slot);
  locked_out ← is_locked_out t slot slot_ancestors;
  Ok (alter_fork_stats (set_tower_stats (check_vote_stake_threshold t slot (fs_voted_stakes stats) (fs_total_stake stats))
        locked_out (has_voted t slot) (is_recent t slot)) slot p).

Definition compute_bank_stat (t : Tower) (bank : StatBank) (s : StageState) : outcome fuel_error (bool * StageState) :=
  '(new, s) ← compute_new_stats bank s;
  p ← update_propagation_status (st_progress s) (sb_slot bank) root leader_banks (sb_newly_voted bank) (sb_cluster_slot bank);
  p ← compute_tower_stats t (sb_slot bank) p;
  Ok (new, mkStageState p (st_fork_choice s) (st_latest s)).

Fixpoint compute_sorted_bank_stats (t : Tower) (banks : list StatBank) (s : StageState)
  : outcome fuel_error (list Slot * StageState) :=
  match banks with
  | [] => Ok ([], s)
  | bank :: banks =>
      '(new, s) ← compute_bank_stat t bank s;
      '(news, s) ← compute_sorted_bank_stats t banks s;
      Ok (if (new : bool) then sb_slot bank :: news else news, s)
  end.

Definition compute_bank_stats (t : Tower) (frozen_banks : list StatBank) (s : StageState)
  : outcome fuel_error (list Slot * StageState) :=
  compute_sorted_bank_stats t (merge_sort bank_le frozen_banks) s.

End stage.

(** ** Choosing the bank to vote on *)

Inductive HeaviestForkFailures : Type :=
| HffLockedOut (slot : Slot)
| HffFailedThreshold (slot : Slot)
| HffFailedSwitchThreshold (slot : Slot)
| HffNoPropagatedConfirmation (slot : Slot).

(** What the stage reads of a bank of the bank forks. *)
Record ForkBank : Type := mkForkBank {
  fb_slot : Slot;
  fb_hash : Hash;
  fb_total_epoch_stake : Z;
  (** the stakes of the bank's own epoch *)
  fb_epoch_vote_accounts : option (gmap Pubkey Z);
  (** the validator's own vote account in this bank *)
  fb_vote_account : option (option VoteState);
}.

Record SelectVoteAndResetForkResult : Type := mkSelectResult {
  vote_bank : option (ForkBank * SwitchForkDecision);
  reset_bank : option ForkBank;
  heaviest_fork_failures : list HeaviestForkFailures;
}.

(** [BankForks::get_with_checked_hash(..).unwrap()] *)
Definition get_with_checked_hash (banks : gmap Slot ForkBank) (key : SlotHashKey) : outcome fuel_error ForkBank :=
  bank ← unwrap (banks !! key.1);
  if fb_hash bank =? key.2 then Ok bank else Panic.

Definition select_forks (banks : gmap Slot ForkBank) (fork_choice : HeaviestSubtreeForkChoice) (t : Tower)
  : outcome fuel_error (ForkBank * option ForkBank) :=
  best ← best_overall_slot fork_choice;
  heaviest ← get_with_checked_hash banks best;
  same ← heaviest_slot_on_same_voted_fork fork_choice t;
  match same with
  | Some key => bank ← get_with_checked_hash banks key; Ok (heaviest, Some bank)
  | None => Ok (heaviest, None)
  end.

Definition select_vote_and_reset_forks (heaviest_bank : ForkBank) (heaviest_bank_on_same_voted_fork : option ForkBank)
    (ancestors : gmap Slot (gset Slot)) (descendants : list (Slot * gset Slot)) (progress : ProgressMap)
    (gossip : list (Pubkey * (Slot * list Hash))) (fork_choice : HeaviestSubtreeForkChoice) (t : Tower)
  : outcome fuel_error (SelectVoteAndResetForkResult * Tower) :=
  epoch_vote_accounts ← unwrap (fb_epoch_vote_accounts heaviest_bank);
  '(decision, t) ← check_switch_threshold t (fb_slot heaviest_bank) ancestors descendants progress
                     (fb_total_epoch_stake heaviest_bank) epoch_vote_accounts gossip fork_choice;
  let '(failures, selected) :=
    match decision with
    | FailedSwitchThreshold _ _ => ([HffFailedSwitchThreshold (fb_slot heaviest_bank)], heaviest_bank_on_same_voted_fork)
    | FailedSwitchDuplicateRollback _ => ([HffFailedSwitchThreshold (fb_slot heaviest_bank)], Some heaviest_bank)
    | _ => ([], Some heaviest_bank)
    end in
  match selected with
  | None => Ok (mkSelectResult None None failures, t)
  | Some bank =>
      stats ← unwrap (get_fork_stats progress (fb_slot bank));
      propagated ← unwrap (get_propagated_stats progress (fb_slot bank));
      confirmed ← (if is_leader_slot propagated then Ok true else is_propagated progress (fb_slot bank));
      let failures := failures ++ (if fs_is_locked_out stats then [HffLockedOut (fb_slot bank)] else [])
        ++ (if negb (fs_vote_threshold stats) then [HffFailedThreshold (fb_slot bank)] else [])
        ++ (if negb confirmed then [HffNoPropagatedConfirmation (fb_slot bank)] else []) in
      Ok (mkSelectResult
            (if negb (fs_is_locked_out stats) && fs_vote_threshold stats && confirmed && can_vote decision
             then Some (bank, decision) else None) (Some bank) failures, t)
  end.

(** ** One turn of the stage *)

Record Turn : Type := mkTurn {
  tn_vote_pubkey : Pubkey;
  tn_ancestors : gmap Slot (gset Slot);
  (** in the order of the hash map *)
  tn_descendants : list (Slot * gset Slot);
  tn_root : Slot;
  tn_leader_banks : gmap Slot LeaderBank;
  tn_frozen_banks : list StatBank;
  tn_banks : gmap Slot ForkBank;
  tn_gossip : list (Pubkey * (Slot * list Hash));
  tn_now : UnixTimestamp;
}.

(** Confirming slots between the statistics and the choice only sets
    [is_supermajority_confirmed]. *)
Definition confirm_stats (s : ForkStats) : ForkStats :=
  mkForkStats (fs_weight s) (fs_fork_weight s) (fs_total_stake s) (fs_block_height s) (fs_has_voted s) (fs_is_recent s)
    (fs_is_empty s) (fs_vote_threshold s) (fs_is_locked_out s) (fs_voted_stakes s) true (fs_computed s)
    (fs_lockout_intervals s) (fs_bank_hash s) (fs_my_latest_landed_vote s).

Definition only_confirmed (p p' : ProgressMap) : Prop :=
  forall slot, confirm_stats <$> get_fork_stats p' slot = confirm_stats <$> get_fork_stats p slot.

(** The turn selects a bank and records the vote on it. *)
Inductive turn_votes (n : Turn) (s : StageState) (t : Tower) (bank : ForkBank) (decision : SwitchForkDecision)
    (new_root : option Slot) (t' : Tower) : Prop :=
| turn_votes_intro news s1 p2 fork_choice2 heaviest same result t1 :
    compute_bank_stats (tn_vote_pubkey n) (tn_ancestors n) (tn_root n) (tn_leader_banks n) t (tn_frozen_banks n) s = Ok (news, s1) ->
    only_confirmed (st_progress s1) p2 ->
    select_forks (tn_banks n) fork_choice2 t = Ok (heaviest, same) ->
    select_vote_and_reset_forks heaviest same (tn_ancestors n) (tn_descendants n) p2 (tn_gossip n) fork_choice2 t = Ok (result, t1) ->
    vote_bank result = Some (bank, decision) ->
    record_bank_vote (tn_now n) (fb_slot bank) (fb_hash bank) (fb_vote_account bank) t1 = Ok (new_root, t') ->
    turn_votes n s t bank decision new_root t'.

(** ** What the statistics say *)

Lemma alter_stats_lookup f slot p slot' :
  get_fork_stats (alter_fork_stats f slot p) slot' = (if decide (slot = slot') then f else id) <$> get_fork_stats p slot'.
Proof.
  unfold get_fork_stats, alter_fork_stats. destruct (decide (slot = slot')) as [->|Hne].
  - rewrite lookup_alter_eq. by destruct (p !! slot').
  - rewrite lookup_alter_ne by done. by destruct (p !! slot').
Qed.

Lemma propagate_fork_stats fuel root banks leader voted cluster reached p p' slot :
  propagate_votes fuel root banks leader voted cluster reached p = Ok p' -> get_fork_stats p' slot = get_fork_stats p slot.
Proof.
  revert leader voted cluster reached p. induction fuel as [|fuel IH]; intros leader voted cluster reached p Hp; cbn in Hp; [done|].
  destruct leader as [current|]; [|by simplify_eq]. destruct (current <? root); [by simplify_eq|].
  destruct (p !! current) as [f|] eqn:Ef; cbn in Hp; [|done]. destruct (_ || _); [by simplify_eq|].
  destruct (negb (is_leader_slot _)); [done|]. destruct (banks !! current) as [bank|]; cbn in Hp; [|done].
  destruct (update_slot_propagated_threshold_from_votes _ _ _ _ _) as [[[r v] c] s']. apply IH in Hp. rewrite Hp.
  unfold get_fork_stats. destruct (decide (current = slot)) as [->|Hne]; [by rewrite lookup_insert_eq, Ef|by rewrite lookup_insert_ne].
Qed.

Lemma propagation_fork_stats p slot root banks voted cluster p' slot' :
  update_propagation_status p slot root banks voted cluster = Ok p' -> get_fork_stats p' slot' = get_fork_stats p slot'.
Proof.
  unfold update_propagation_status, update_fork_propagated_threshold_from_votes. intros Hp.
  destruct (is_propagated p slot) as [[]|?|]; cbn [mbind outcome_bind] in Hp; [by simplify_eq| |done..].
  destruct (get_latest_leader_slot p slot); cbn [mbind outcome_bind] in Hp; [|done..]. by eapply propagate_fork_stats.
Qed.

Section flags.
Context (my_vote_pubkey : Pubkey) (ancestors : gmap Slot (gset Slot)) (root : Slot) (leader_banks : gmap Slot LeaderBank) (t : Tower).

(** The lockout flag of the bank is the one of this tower. *)
Definition flag_current (p : ProgressMap) (slot : Slot) : Prop :=
  exists stats slot_ancestors, get_fork_stats p slot = Some stats /\ ancestors !! slot = Some slot_ancestors /\
    is_locked_out t slot slot_ancestors = Ok (fs_is_locked_out stats).

Lemma flag_current_weaken p p' slot :
  fs_is_locked_out <$> get_fork_stats p' slot = fs_is_locked_out <$> get_fork_stats p slot ->
  flag_current p slot -> flag_current p' slot.
Proof.
  intros Heq (stats & a & Hs & Ha & Hl). rewrite Hs in Heq. apply fmap_Some in Heq as (s' & Hs' & Heq). exists s', a.
  split_and!; [done|done|]. by rewrite <- Heq.
Qed.

Lemma compute_bank_stat_flags bank s new s' :
  compute_bank_stat my_vote_pubkey ancestors root leader_banks t bank s = Ok (new, s') ->
  flag_current (st_progress s') (sb_slot bank) /\
  forall slot, flag_current (st_progress s) slot -> flag_current (st_progress s') slot.
Proof.
  unfold compute_bank_stat. intros H.
  destruct (compute_new_stats my_vote_pubkey ancestors bank s) as [[new' s1]|?|] eqn:E1; cbn [mbind outcome_bind unwrap] in H; [|done..].
  destruct (update_propagation_status (st_progress s1) _ _ _ _ _) as [p1|?|] eqn:E2; cbn [mbind outcome_bind unwrap] in H; [|done..].
  destruct (compute_tower_stats ancestors t (sb_slot bank) p1) as [p2|?|] eqn:E3; cbn [mbind outcome_bind unwrap] in H; [|done..]. injection H as <- <-. cbn [st_progress].
  unfold compute_tower_stats in E3. destruct (get_fork_stats p1 (sb_slot bank)) as [stats|] eqn:Es; cbn [mbind outcome_bind unwrap] in E3; [|done].
  destruct (ancestors !! sb_slot bank) as [a|] eqn:Ea; cbn [mbind outcome_bind unwrap] in E3; [|done].
  destruct (is_locked_out t (sb_slot bank) a) as [locked|?|] eqn:El; cbn [mbind outcome_bind unwrap] in E3; [|done..]. injection E3 as <-.
  assert (flag_current (alter_fork_stats (set_tower_stats (check_vote_stake_threshold t (sb_slot bank) (fs_voted_stakes stats) (fs_total_stake stats))
    locked (has_voted t (sb_slot bank)) (is_recent t (sb_slot bank))) (sb_slot bank) p1) (sb_slot bank)) as Hbank.
  { eexists _, a. rewrite alter_stats_lookup, decide_True, Es by done. cbn. done. }
  split; [done|]. intros slot Hs. destruct (decide (slot = sb_slot bank)) as [->|Hne]; [done|].
  eapply flag_current_weaken; [|exact Hs]. rewrite alter_stats_lookup, decide_False by done.
  rewrite (propagation_fork_stats _ _ _ _ _ _ _ slot E2), option_fmap_id. unfold compute_new_stats in E1.
  destruct (get_fork_stats (st_progress s) (sb_slot bank)) as [st0|]; cbn [mbind outcome_bind unwrap] in E1; [|done]. destruct (fs_computed st0); [by simplify_eq|].
  destruct (collect_vote_lockouts _ _ _ _ _ _) as [[c l]|?|]; cbn [mbind outcome_bind unwrap] in E1; [|done..].
  destruct (fork_choice_compute_bank_stats _ _ _) as [[fc l']|?|]; cbn [mbind outcome_bind unwrap] in E1; [|done..]. injection E1 as _ <-. cbn [st_progress].
  rewrite alter_stats_lookup, decide_False by done. by rewrite option_fmap_id.
Qed.

Lemma compute_sorted_flags banks s news s' :
  compute_sorted_bank_stats my_vote_pubkey ancestors root leader_banks t banks s = Ok (news, s') ->
  (forall bank, bank ∈ banks -> flag_current (st_progress s') (sb_slot bank)) /\
  forall slot, flag_current (st_progress s) slot -> flag_current (st_progress s') slot.
Proof.
  revert s news. induction banks as [|bank banks IH]; intros s news H; cbn [compute_sorted_bank_stats] in H; [simplify_eq; split; [by intros ? ?%not_elem_of_nil|done]|].
  destruct (compute_bank_stat _ _ _ _ _ _ _) as [[new s1]|?|] eqn:E1; cbn [mbind outcome_bind unwrap] in H; [|done..].
  destruct (compute_sorted_bank_stats _ _ _ _ _ banks s1) as [[news' s2]|?|] eqn:E2; cbn [mbind outcome_bind unwrap] in H; [|done..]. injection H as _ <-.
  destruct (compute_bank_stat_flags _ _ _ _ E1) as [Hb Hk]. destruct (IH _ _ E2) as [Hbs Hk']. split; [|auto].
  intros b [->|Hin]%elem_of_cons; auto.
Qed.

End flags.

(** ** The votes of the stage *)

Lemma check_switch_vote_state t slot ancestors descendants progress total stakes gossip fc d t' :
  check_switch_threshold t slot ancestors descendants progress total stakes gossip fc = Ok (d, t') -> vote_state t' = vote_state t.
Proof.
  unfold check_switch_threshold. destruct (make_check_switch_threshold_decision _ _ _ _ _ _ _ _ _); cbn; [|done..]. by intros [= _ <-].
Qed.

(** A bank is voted on only when it is not locked out, the threshold and the
    propagation checks pass and the decision allows a vote. *)
Lemma selected_vote heaviest same ancestors descendants p gossip fc t result t' bank d :
  select_vote_and_reset_forks heaviest same ancestors descendants p gossip fc t = Ok (result, t') ->
  vote_bank result = Some (bank, d) ->
  vote_state t' = vote_state t /\ bank = heaviest /\ can_vote d = true /\
  exists stats, get_fork_stats p (fb_slot bank) = Some stats /\ fs_is_locked_out stats = false /\ fs_vote_threshold stats = true.
Proof.
  unfold select_vote_and_reset_forks. intros H Hv. destruct (fb_epoch_vote_accounts heaviest) as [eva|]; cbn [mbind outcome_bind unwrap] in H; [|done].
  destruct (check_switch_threshold _ _ _ _ _ _ _ _ _) as [[dec t1]|?|] eqn:Ec; cbn [mbind outcome_bind unwrap] in H; [|done..].
  apply check_switch_vote_state in Ec. destruct (match dec with FailedSwitchThreshold _ _ => _ | _ => _ end) as [failures selected] eqn:Es.
  destruct selected as [b|]; [|by simplify_eq]. destruct (get_fork_stats p (fb_slot b)) as [stats|] eqn:Est; cbn [mbind outcome_bind unwrap] in H; [|done].
  destruct (get_propagated_stats p (fb_slot b)) as [ps|]; cbn [mbind outcome_bind unwrap] in H; [|done].
  destruct (if is_leader_slot ps then Ok true else is_propagated p (fb_slot b)) as [confirmed|?|]; cbn [mbind outcome_bind unwrap] in H; [|done..].
  injection H as <- <-. cbn in Hv. destruct (fs_is_locked_out stats) eqn:E1, (fs_vote_threshold stats) eqn:E2, confirmed, (can_vote dec) eqn:E3; try done.
  cbn in Hv. injection Hv as -> ->. split_and!; [done| |done|by exists stats]. destruct d; try done; by simplify_eq.
Qed.

Section safety.
Variable ancs : Slot -> gset Slot.
Hypothesis ancs_trans : forall a b c, a ∈ ancs b -> b ∈ ancs c -> a ∈ ancs c.

(** What the bank forks guarantee of a turn: the ancestors it reports are
    ancestors, and the bank the fork choice prefers is a frozen bank. *)
Definition turn_ok (n : Turn) (bank : ForkBank) : Prop :=
  (forall a, tn_ancestors n !! fb_slot bank = Some a -> a ⊆ ancs (fb_slot bank)) /\ slot_ok (fb_slot bank) /\
  exists b, b ∈ tn_frozen_banks n /\ sb_slot b = fb_slot bank.

Lemma is_locked_out_state t t' slot a : vote_state t' = vote_state t -> is_locked_out t' slot a = is_locked_out t slot a.
Proof. intros Heq. unfold is_locked_out, is_recent. by rewrite Heq. Qed.

(** A vote of the stage is one the tower allowed. *)
Lemma turn_vote_cast n s t bank d new_root t' :
  turn_votes n s t bank d new_root t' -> turn_ok n bank ->
  exists t1 a, vote_state t1 = vote_state t /\ a ⊆ ancs (fb_slot bank) /\ is_locked_out t (fb_slot bank) a = Ok false /\
    cast ancs (mkBallot (fb_slot bank) (fb_hash bank) a (last_voted_slot_in_bank (fb_vote_account bank)) (tn_now n)) t1 t'.
Proof.
  intros [news s1 p2 fc2 heaviest same result t1 Hstats Hconf Hforks Hsel Hvb Hrec] (Hanc & Hok & b & Hb & Hbs).
  destruct (selected_vote _ _ _ _ _ _ _ _ _ _ _ _ Hsel Hvb) as (Hst & -> & _ & stats & Hs & Hlk & _).
  unfold compute_bank_stats in Hstats. apply compute_sorted_flags in Hstats as [Hflags _].
  destruct (Hflags b) as (st1 & a & Hst1 & Ha & Hl); [by rewrite merge_sort_Permutation|]. rewrite Hbs in *.
  assert (fs_is_locked_out st1 = false) as Hf.
  { pose proof (Hconf (fb_slot heaviest)) as Hc. rewrite Hs, Hst1 in Hc. cbn in Hc. injection Hc. intros. congruence. }
  rewrite Hf in Hl. exists t1, a. split_and!; [done|by apply Hanc|done|]. split_and!; cbn.
  - by apply Hanc.
  - done.
  - by rewrite (is_locked_out_state t).
  - by exists new_root.
Qed.

(** The towers of a validator that votes through the stage, with the votes it
    has cast. *)
Inductive stage_voting : Tower -> gmap Slot Z -> Prop :=
| stage_start t : tower_wf (votes (vote_state t)) -> one_fork ancs t -> stage_voting t (lockouts_map (votes (vote_state t)))
| stage_turn n s t h bank d new_root t' :
    stage_voting t h -> turn_votes n s t bank d new_root t' -> turn_ok n bank ->
    stage_voting t' (lockouts_map (votes (vote_state t')) ∪ h).

Lemma safe_state t t' h : vote_state t' = vote_state t -> safe ancs t h -> safe ancs t' h.
Proof.
  intros Heq [Hwf Hf Hp Hl]. split; unfold one_fork, accounted in *; rewrite Heq; done.
Qed.

Lemma stage_voting_safe t h : stage_voting t h -> safe ancs t h.
Proof using ancs_trans.
  induction 1 as [t Hwf Hf|n s t h bank d new_root t' _ IH Hv Hok]; [by apply start_safe|].
  destruct (turn_vote_cast _ _ _ _ _ _ _ Hv Hok) as (t1 & a & Hst & _ & _ & Hc).
  eapply cast_safe; [done| |exact Hc]. by eapply safe_state.
Qed.

(** C1. A validator that votes through the replay stage never contradicts its
    own lockouts: when a turn of the stage (statistics of the frozen banks, fork
    choice, switching and threshold checks) votes for a bank, every slot the
    validator voted for in any earlier turn is an ancestor of that bank, or lies
    more than [2^c] slots below it, for the confirmation count [c] that vote
    last had in the tower; and it never votes for a slot twice. *)
Theorem replay_votes_respect_lockouts n s t h bank d new_root t' :
  stage_voting t h -> turn_votes n s t bank d new_root t' -> turn_ok n bank ->
  forall u c, h !! u = Some c -> u < fb_slot bank /\ (u ∈ ancs (fb_slot bank) \/ u + 2 ^ c < fb_slot bank).
Proof using ancs_trans.
  intros Hs%stage_voting_safe Hv Hok. destruct (turn_vote_cast _ _ _ _ _ _ _ Hv Hok) as (t1 & a & _ & Hsub & Hlk & _).
  by apply (allowed_vote ancs ancs_trans t h (fb_slot bank) a).
Qed.
End safety.
