(* ===== verification/PropagationSpec.v ===== *)
(** * Propagation of leader blocks

    The walk of [Progress.update_fork_propagated_threshold_from_votes]: it
    always ends, the stake of a leader slot is the stake of the validators
    recorded for it, and a propagated leader slot has only propagated leader
    slots below it. *)
From stdpp Require Import base gmap sets option list.
From S2P Require Import Prelude Float64 Progress SwitchFork.

(** ** Recording votes *)

(** What the walk never changes of a leader slot. *)
Definition same_leader (s s' : PropagatedStats) : Prop :=
  is_leader_slot s' = is_leader_slot s /\ prev_leader_slot s' = prev_leader_slot s /\ total_epoch_stake s' = total_epoch_stake s /\
  propagated_validators s ⊆ propagated_validators s' /\ (ps_is_propagated s = true -> ps_is_propagated s' = true).

Definition stake_exact (bank : LeaderBank) (s : PropagatedStats) : Prop :=
  propagated_validators_stake s = as_u64 (stake_of (lb_epoch_vote_accounts bank) (propagated_validators s)).

(** A change that records votes of the bank. *)
Definition records (bank : LeaderBank) (s s' : PropagatedStats) : Prop :=
  same_leader s s' /\ (stake_exact bank s -> stake_exact bank s') /\ ps_is_propagated s' = ps_is_propagated s.

#[local] Instance records_preorder bank : PreOrder (records bank).
Proof.
  split.
  - intros s. unfold records, same_leader. split_and!; done.
  - intros a b c [(? & ? & ? & ? & ?) [? ?]] [(? & ? & ? & ? & ?) [? ?]]. unfold records, same_leader. split_and!; try congruence; auto. set_solver.
Qed.

Lemma add_vote_records bank pk s : records bank s (add_vote_pubkey pk (epoch_vote_account_stake bank pk) s).
Proof.
  unfold add_vote_pubkey. destruct (bool_decide_reflect (pk ∈ propagated_validators s)) as [|Hn]; [done|].
  split_and!; [unfold same_leader; cbn; split_and!; try done; set_solver| |done]. unfold stake_exact. cbn. intros ->.
  unfold add64. by rewrite as_u64_add_l, stake_of_add.
Qed.

Lemma add_node_records bank node s : records bank s (add_node_pubkey node bank s).
Proof.
  unfold add_node_pubkey. destruct (bool_decide _); [done|]. destruct (lb_node_vote_accounts bank !! node) as [accounts|]; [|done].
  unfold add_node_pubkey_internal. match goal with |- records _ _ (foldl _ ?s0 _) => transitivity s0; [by split|]; generalize s0 end.
  induction accounts as [|pk accounts IH]; intros s0; [done|]. cbn [foldl].
  etransitivity; [apply (add_vote_records bank pk)|]. apply IH.
Qed.

Lemma retain_voters_records bank voters s : records bank s (retain_new_voters bank voters s).2.
Proof.
  revert s. induction voters as [|pk voters IH]; intros s; cbn [retain_new_voters]; [done|].
  specialize (IH (add_vote_pubkey pk (epoch_vote_account_stake bank pk) s)). destruct (retain_new_voters bank voters _) as [kept s'].
  etransitivity; [apply add_vote_records|exact IH].
Qed.

Lemma retain_nodes_records bank nodes s : records bank s (retain_new_nodes bank nodes s).2.
Proof.
  revert s. induction nodes as [|node nodes IH]; intros s; cbn [retain_new_nodes]; [done|].
  specialize (IH (add_node_pubkey node bank s)). destruct (retain_new_nodes bank nodes _) as [kept s'].
  etransitivity; [apply add_node_records|exact IH].
Qed.

(** The flag says whether the slot has just become propagated. *)
Lemma update_slot_spec voted cluster bank s child :
  ps_is_propagated s = false ->
  exists reached voted' cluster' s', update_slot_propagated_threshold_from_votes voted cluster bank s child = (reached, voted', cluster', s') /\
    same_leader s s' /\ (stake_exact bank s -> stake_exact bank s') /\ ps_is_propagated s' = reached /\ (child = true -> reached = true).
Proof.
  intros Hn. unfold update_slot_propagated_threshold_from_votes. rewrite Hn.
  destruct child; [eexists _, _, _, _; split; [done|]; unfold same_leader; split_and!; done|].
  pose proof (retain_voters_records bank voted s) as H1. destruct (retain_new_voters bank voted s) as [v1 s1].
  pose proof (retain_nodes_records bank cluster s1) as H2. destruct (retain_new_nodes bank cluster s1) as [c1 s2]. cbn [snd] in *.
  assert (records bank s s2) as [(? & ? & ? & ? & ?) [? Hp]] by (by etransitivity).
  destruct (_ || _); eexists _, _, _, _; (split; [done|]); unfold same_leader; split_and!; try done. by rewrite Hp.
Qed.

(** ** The walk *)

Section walk.
Context (root : Slot) (banks : gmap Slot LeaderBank).
Implicit Types p : ProgressMap.

(** Leader slots point back to earlier leader slots, known down to the root. *)
Record leader_chain p : Prop := {
  lc_bank l s : get_propagated_stats p l = Some s -> is_leader_slot s = true -> root <= l -> is_Some (banks !! l);
  lc_prev l s q : get_propagated_stats p l = Some s -> prev_leader_slot s = Some q -> q < l /\
    (root <= q -> exists sq, get_propagated_stats p q = Some sq /\ is_leader_slot sq = true);
}.

(** A propagated slot has a propagated leader slot below it, but for the slot
    [pending] that the walk visits next. *)
Definition closed_but (pending : option Slot) p : Prop :=
  forall l s q sq, get_propagated_stats p l = Some s -> ps_is_propagated s = true -> prev_leader_slot s = Some q -> root <= q ->
    get_propagated_stats p q = Some sq -> ps_is_propagated sq = true \/ pending = Some q.

Definition stakes_exact p : Prop :=
  forall l s bank, get_propagated_stats p l = Some s -> is_leader_slot s = true -> banks !! l = Some bank -> stake_exact bank s.

(** Every slot keeps its place in the chain and what it had reached. *)
Definition advances p p' : Prop :=
  dom p' = dom p /\
  forall l s, get_propagated_stats p l = Some s -> exists s', get_propagated_stats p' l = Some s' /\ same_leader s s'.

Lemma lookup_propagated_insert p l f s l' : p !! l = Some f ->
  get_propagated_stats (<[l := set_propagated_stats s f]> p) l' = if decide (l = l') then Some s else get_propagated_stats p l'.
Proof.
  intros _. unfold get_propagated_stats. destruct (decide (l = l')) as [->|Hne]; [by rewrite lookup_insert_eq|by rewrite lookup_insert_ne].
Qed.

#[local] Instance same_leader_preorder : PreOrder same_leader.
Proof.
  split; [intros s; unfold same_leader; by split_and!|].
  intros a b c (? & ? & ? & ? & ?) (? & ? & ? & ? & ?). unfold same_leader. split_and!; try congruence; auto. set_solver.
Qed.

#[local] Instance advances_preorder : PreOrder advances.
Proof.
  split; [intros p; split; [done|]; intros l s ?; by exists s|].
  intros a b c [Hd1 H1] [Hd2 H2]. split; [congruence|]. intros l s Hs.
  destruct (H1 l s Hs) as (s1 & Hs1 & ?). destruct (H2 l s1 Hs1) as (s2 & Hs2 & ?). exists s2. split; [done|]. by etransitivity.
Qed.

(** One leader slot updated. *)
Lemma step_advances p l f s' :
  p !! l = Some f -> same_leader (propagated_stats f) s' -> advances p (<[l := set_propagated_stats s' f]> p).
Proof.
  intros Hf Hs. split.
  - apply dom_insert_lookup_L. eauto.
  - intros l' s Hl'. rewrite (lookup_propagated_insert p l f s' l' Hf). destruct (decide (l = l')) as [->|Hne]; [|by exists s].
    unfold get_propagated_stats in Hl'. rewrite Hf in Hl'. injection Hl' as <-. by exists s'.
Qed.

Lemma advances_back p p' l s' : advances p p' -> get_propagated_stats p' l = Some s' ->
  exists s, get_propagated_stats p l = Some s /\ same_leader s s'.
Proof.
  intros [Hd Ha] Hs'. assert (is_Some (p !! l)) as [f Hf].
  { apply elem_of_dom. rewrite <- Hd. apply elem_of_dom. unfold get_propagated_stats in Hs'. by apply fmap_Some in Hs' as (f & -> & _). }
  destruct (Ha l (propagated_stats f)) as (s & Hs & Hsl); [unfold get_propagated_stats; by rewrite Hf|].
  exists (propagated_stats f). split; [unfold get_propagated_stats; by rewrite Hf|]. rewrite Hs' in Hs. by injection Hs as <-.
Qed.

Lemma chain_advances p p' : leader_chain p -> advances p p' -> leader_chain p'.
Proof.
  intros [Hb Hp] Ha. split.
  - intros l s' Hs' Hl Hr. destruct (advances_back _ _ _ _ Ha Hs') as (s & Hs & (Hil & _)). apply (Hb l s); congruence.
  - intros l s' q Hs' Hq. destruct (advances_back _ _ _ _ Ha Hs') as (s & Hs & (Hil & Hpr & _)). destruct (Hp l s q Hs) as [Hlt Hex]; [congruence|].
    split; [done|]. intros Hr. destruct (Hex Hr) as (sq & Hsq & Hlq). destruct Ha as [_ Ha]. destruct (Ha q sq Hsq) as (sq' & Hsq' & (? & _)).
    exists sq'. split; congruence.
Qed.

Lemma exact_step p l f s' bank :
  stakes_exact p -> p !! l = Some f -> banks !! l = Some bank -> is_leader_slot (propagated_stats f) = true ->
  (stake_exact bank (propagated_stats f) -> stake_exact bank s') -> stakes_exact (<[l := set_propagated_stats s' f]> p).
Proof.
  intros He Hf Hb Hl Hs l' s0 bank' Hs0 Hl0 Hb'. rewrite (lookup_propagated_insert p l f s' l' Hf) in Hs0.
  destruct (decide (l = l')) as [<-|Hne]; [|by eapply He]. injection Hs0 as <-. rewrite Hb in Hb'. injection Hb' as <-.
  apply Hs, (He l); [unfold get_propagated_stats; by rewrite Hf|done|done].
Qed.

(** Updating the slot the walk is at hands the pending mark to the one below. *)
Lemma closed_step p l f s' (reached : bool) :
  leader_chain p -> closed_but (if reached then Some l else None) p -> p !! l = Some f ->
  same_leader (propagated_stats f) s' -> (reached = true -> ps_is_propagated s' = true) ->
  closed_but (if ps_is_propagated s' then prev_leader_slot s' else None) (<[l := set_propagated_stats s' f]> p).
Proof.
  intros Hc Hcl Hf Hsl Hr x sx q sq Hx Hpx Hq Hrq Hsq.
  assert (get_propagated_stats p l = Some (propagated_stats f)) as Hl by (unfold get_propagated_stats; by rewrite Hf).
  rewrite (lookup_propagated_insert p l f s' x Hf) in Hx. rewrite (lookup_propagated_insert p l f s' q Hf) in Hsq.
  destruct (decide (l = x)) as [<-|Hnx].
  - injection Hx as <-. rewrite Hpx, Hq. by right.
  - destruct (decide (l = q)) as [<-|Hnq].
    + injection Hsq as <-. destruct (Hcl x sx l (propagated_stats f) Hx Hpx Hq Hrq Hl) as [Hp|Hp]; [left; by apply Hsl|].
      destruct reached; [left; by apply Hr|done].
    + destruct (Hcl x sx q sq Hx Hpx Hq Hrq Hsq) as [Hp|Hp]; [by left|]. destruct reached; [|done]. by injection Hp as ->.
Qed.

(** The slots below a leader slot bound the number of turns. *)
Definition below p (l : Slot) : gset Slot := filter (fun q : Slot => q <= l) (dom p).

Lemma below_lt p l q : q < l -> l ∈ dom p -> (size (below p q) < size (below p l))%nat.
Proof.
  intros Hlt Hl. apply subset_size. split; [unfold below; intros x; rewrite !elem_of_filter; intros [? ?]; split; [lia|done]|].
  intros Hsub. assert (l ∈ below p q) as Hin by (apply Hsub, elem_of_filter; split; [lia|done]). apply elem_of_filter in Hin as [? _]. lia.
Qed.

Lemma propagate_votes_ok fuel p leader voted cluster (reached : bool) :
  (match leader with Some l => size (below p l) | None => 0 end < fuel)%nat ->
  leader_chain p -> stakes_exact p ->
  (forall l, leader = Some l -> root <= l -> exists s, get_propagated_stats p l = Some s /\ is_leader_slot s = true) ->
  closed_but (if reached then leader else None) p ->
  exists p', propagate_votes fuel root banks leader voted cluster reached p = Ok p' /\
    advances p p' /\ stakes_exact p' /\ closed_but None p'.
Proof.
  revert p leader voted cluster reached. induction fuel as [|fuel IH]; intros p leader voted cluster reached Hfuel Hc He Hl Hcl; [lia|].
  cbn [propagate_votes]. destruct leader as [l|]; [|exists p; split_and!; try done; by destruct reached].
  destruct (Z.ltb_spec l root) as [Hlt|Hge].
  { exists p. split_and!; try done. intros x sx q sq Hx Hpx Hq Hrq Hsq. destruct (Hcl x sx q sq Hx Hpx Hq Hrq Hsq) as [?|Hp]; [by left|].
    destruct reached; [|done]. injection Hp as <-. lia. }
  destruct (Hl l eq_refl Hge) as (s & Hs & Hls). pose proof Hs as Hs'. unfold get_propagated_stats in Hs'. apply fmap_Some in Hs' as (f & Hf & ->).
  rewrite Hf. cbn [unwrap mbind outcome_bind]. destruct (ps_is_propagated (propagated_stats f)) eqn:Ep; cbn [orb].
  { exists p. split_and!; try done. intros x sx q sq Hx Hpx Hq Hrq Hsq. destruct (Hcl x sx q sq Hx Hpx Hq Hrq Hsq) as [?|Hp]; [by left|].
    destruct reached; [|done]. injection Hp as <-. left. congruence. }
  destruct (bool_decide (voted = []) && bool_decide (cluster = []) && negb reached) eqn:Estop.
  { exists p. split_and!; try done. apply andb_prop in Estop as [_ Hr]. by destruct reached. }
  rewrite Hls. cbn [negb]. destruct (lc_bank _ Hc l _ Hs Hls Hge) as [bank Hb]. rewrite Hb. cbn [unwrap mbind outcome_bind].
  destruct (update_slot_spec voted cluster bank (propagated_stats f) reached Ep) as (r & v & c & s' & -> & Hsl & Hex & Hps & Hr).
  pose proof (step_advances p l f s' Hf Hsl) as Ha. pose proof (chain_advances _ _ Hc Ha) as Hc'.
  assert (r || reached = r) as -> by (destruct reached, r; try done; by specialize (Hr eq_refl)).
  assert (prev_leader_slot s' = prev_leader_slot (propagated_stats f)) as Hprev by apply Hsl.
  destruct (IH (<[l := set_propagated_stats s' f]> p) (prev_leader_slot s') v c r) as (p' & -> & Ha' & He' & Hcl').
  - assert (l ∈ dom p) as Hd by (apply elem_of_dom; eauto). pose proof (below_lt p l (l - 1) ltac:(lia) Hd).
    destruct (prev_leader_slot s') as [q|] eqn:Eq; [|lia].
    destruct (lc_prev _ Hc l _ q Hs) as [Hlt _]; [congruence|]. unfold below in *. rewrite (proj1 Ha).
    pose proof (below_lt p l q Hlt Hd) as Hsz. unfold below in Hsz. lia.
  - done.
  - by eapply exact_step.
  - intros q Hq Hrq. rewrite Hprev in Hq. destruct (lc_prev _ Hc l _ q Hs Hq) as [_ Hex']. destruct (Hex' Hrq) as (sq & Hsq & Hlq).
    destruct (proj2 Ha q sq Hsq) as (sq' & Hsq' & (Hlq' & _)). exists sq'. split; [done|congruence].
  - rewrite <- Hps. apply (closed_step p l f s' reached); try done. intros ->. rewrite Hps. by apply Hr.
  - exists p'. split_and!; try done. by etransitivity.
Qed.

(** C35. Recording the votes observed for a fork always ends and changes nothing
    but the leader slots of that fork, which never lose a validator or the mark
    of being propagated. The stake kept for a leader slot stays the stake of the
    validators recorded for it, each counted once, and if every propagated
    leader slot had only propagated leader slots before it, down to the root,
    this still holds. *)
Theorem propagation_walk_correct p fork_tip voted cluster :
  is_Some (p !! fork_tip) -> leader_chain p -> stakes_exact p -> closed_but None p ->
  exists p', update_fork_propagated_threshold_from_votes p voted cluster fork_tip root banks = Ok p' /\
    advances p p' /\ leader_chain p' /\ stakes_exact p' /\ closed_but None p'.
Proof.
  intros [f Hf] Hc He Hcl. unfold update_fork_propagated_threshold_from_votes, get_latest_leader_slot.
  assert (get_propagated_stats p fork_tip = Some (propagated_stats f)) as Hs by (unfold get_propagated_stats; by rewrite Hf).
  rewrite Hs. cbn [unwrap mbind outcome_bind].
  edestruct (propagate_votes_ok (S (S (size p))) p) as (p' & -> & Ha & He' & Hcl'); [|exact Hc|exact He| |exact Hcl|].
  - assert (forall l, (size (below p l) <= size p)%nat) as Hle.
    { intros l. rewrite <- size_dom. apply subseteq_size. unfold below. intros x [_ ?]%elem_of_filter. done. }
    destruct (if is_leader_slot _ then _ else _) as [l|]; [specialize (Hle l)|]; lia.
  - intros l Hl Hr. destruct (is_leader_slot (propagated_stats f)) eqn:E; [injection Hl as <-; eauto|].
    by apply (lc_prev _ Hc fork_tip _ l Hs Hl).
  - exists p'. split_and!; try done. by eapply chain_advances.
Qed.
End walk.
