(* ===== verification/TowerExample.v ===== *)
(** * A vote across forks

    Slot 1 forks into 2 and 5. A validator votes for 1 and 2; its vote for 2
    expires at 4, and with the other validator's stake on 5 it may then switch.
    The same view of the ledger is used to restore the tower and to collect the
    votes of a bank. *)
From stdpp Require Import base gmap sorting sets option list.
From S2P Require Import Prelude Instruction VoteState VoteTower EpochSchedule ForkChoice ForkTree ForkInvariant ForkChoiceSpec ForkChoiceExample RollingBitField SlotHistory LatestVotes Progress Tower TowerSafety TowerRestore SwitchFork CollectVotes ReplayVote PropagationSpec.

Module TowerExample.

(** ** The tree and the votes *)

Definition ancs (slot : Slot) : gset Slot :=
  if slot =? 1 then {[0]} else if (slot =? 2) || (slot =? 5) then {[0; 1]} else ∅.

Lemma ancs_trans a b c : a ∈ ancs b -> b ∈ ancs c -> a ∈ ancs c.
Proof.
  unfold ancs. destruct (Z.eqb_spec c 1), (Z.eqb_spec c 2), (Z.eqb_spec c 5); cbn [orb]; subst; try (intros _ Hb; set_solver);
    intros Ha Hb; assert (b = 0 \/ b = 1) as [-> | ->] by set_solver; cbn in Ha; set_solver.
Qed.

Definition start : Tower := default Tower_default (ok (Tower_new (E := fuel_error) 7 None 0)).

Definition vote (slot : Slot) (hash : Hash) (t : Tower) : option Slot * Tower :=
  default (None, t) (ok (record_bank_vote_and_update_lockouts 1000 slot hash None t)).

Definition after1 : Tower := (vote 1 11 start).2.
Definition after2 : Tower := (vote 2 12 after1).2.
Definition history1 : gmap Slot Z := lockouts_map (votes (vote_state after1)) ∪ lockouts_map (votes (vote_state start)).
Definition history2 : gmap Slot Z := lockouts_map (votes (vote_state after2)) ∪ history1.

Lemma voting2 : voting ancs after2 history2.
Proof.
  apply (voting_cast ancs after1 history1 (mkBallot 2 12 {[0; 1]} None 1000)).
  - apply (voting_cast ancs start (lockouts_map (votes (vote_state start))) (mkBallot 1 11 {[0]} None 1000)).
    + apply voting_start; [|exists 0; split_and!; [done|by intros v ?%not_elem_of_nil|by intros i j v w _ Hv]].
      split; [vm_compute; lia|by intros i v Hv|by intros i v w Hv].
    + split_and!; [done|cbn; unfold slot_ok; u64|by vm_compute|]. exists (vote 1 11 start).1. by vm_compute.
  - split_and!; [done|cbn; unfold slot_ok; u64|by vm_compute|]. exists (vote 2 12 after1).1. by vm_compute.
Qed.

(** Slot 3 on the other fork is still locked out; slot 5 is not. *)
Lemma locked_out_at_3 : is_locked_out after2 3 {[0; 1]} = Ok true.
Proof. by vm_compute. Qed.

Lemma tower_never_violates_lockout_witness :
  history2 !! 2 = Some 1 /\ 2 < 5 /\ (2 ∈ ancs 5 \/ 2 + 2 ^ 1 < 5).
Proof.
  split; [by vm_compute|]. apply (tower_never_violates_lockout ancs ancs_trans after2 history2 5 {[0; 1]} voting2); by vm_compute.
Defined.

Lemma tower_on_one_fork_witness : tower_wf (votes (vote_state after2)) /\ one_fork ancs after2.
Proof. exact (tower_on_one_fork ancs ancs_trans after2 history2 voting2). Defined.

(** ** The ledger *)

Abbreviation schedule := ForkChoiceExample.schedule.
Abbreviation stakes := ForkChoiceExample.stakes.
Definition epoch_accounts : gmap Pubkey Z := {[1 := 40; 2 := 60]}.
Definition A : SlotHashKey := (1, 11).
Definition B : SlotHashKey := (2, 12).
Definition C : SlotHashKey := (5, 15).

Definition forks : HeaviestSubtreeForkChoice :=
  ForkChoiceExample.step (foldl ForkChoiceExample.step ForkChoiceExample.start
    [AddLeaf A ForkChoiceExample.root; AddLeaf B A; AddLeaf C A]) (AddVotes [(1, B); (2, C)]).

Lemma forks_reachable : fc_reachable stakes schedule forks.
Proof.
  unfold forks. cbn [foldl]. apply ForkChoiceExample.step_reachable; [| |done|by vm_compute].
  - apply ForkChoiceExample.step_reachable; [|by apply ForkChoiceExample.leaf_guard; vm_compute|done|by vm_compute].
    apply ForkChoiceExample.step_reachable; [|by apply ForkChoiceExample.leaf_guard; vm_compute|done|by vm_compute].
    apply ForkChoiceExample.step_reachable; [apply ForkChoiceExample.start_reachable|by apply ForkChoiceExample.leaf_guard; vm_compute|done|by vm_compute].
  - cbn. apply NoDup_cons. split; [|apply NoDup_singleton]. by intros ?%list_elem_of_singleton.
Qed.

Definition ancestors : gmap Slot (gset Slot) := {[0 := ∅; 1 := {[0]}; 2 := {[0; 1]}; 5 := {[0; 1]}]}.
Definition descendants : list (Slot * gset Slot) := [(5, ∅); (0, {[1; 2; 5]}); (1, {[2; 5]}); (2, ∅)].
Definition gossip : list (Pubkey * (Slot * list Hash)) := [(2, (5, [15]))].

Definition with_hash (h : Hash) (computed : bool) : ForkProgress :=
  let p := ForkProgress_new None None 0 0 in
  set_fork_stats (mkForkStats 0 0 0 0 false false false false false ∅ false computed [] (Some h) None) p.

Definition progress : ProgressMap := {[1 := with_hash 11 true; 2 := with_hash 12 true; 5 := with_hash 15 false]}.
Definition progress' : ProgressMap := {[1 := with_hash 11 true; 2 := with_hash 12 true; 5 := with_hash 15 true]}.

Lemma view : consistent_view after2 5 ancestors descendants progress' forks 2 0.
Proof.
  split; [done|by eexists|eexists; apply (inv_tree _ _ _ (fc_reachable_inv stakes schedule ForkChoiceExample.stakes_nonneg forks forks_reachable))
    |by eexists|left; by eexists| |by vm_compute].
  intros e. unfold descendants. rewrite !elem_of_cons. intros [->|[->|[->|[->|?%not_elem_of_nil]]]]; [..|done];
    (split; [by eexists|by vm_compute]).
Qed.


(** ** The votes of a bank *)

(** The other validator voted for slot 1. *)
Definition other_state : VoteState := set_votes [mkLockout 1 2] VoteState_default.
Definition accounts : list (Pubkey * (Z * option VoteState)) :=
  [(1, (40, Some (vote_state after2))); (2, (60, Some other_state)); (3, (0, Some other_state)); (4, (5, None))].

Lemma ancestors_strict slot a : ancestors !! slot = Some a -> slot ∉ a.
Proof.
  unfold ancestors. rewrite !lookup_insert_Some, lookup_singleton_Some.
  intros [[<- <-]|[_ [[<- <-]|[_ [[<- <-]|[_ [<- <-]]]]]]]; set_solver.
Qed.

Lemma counted_accounts : omap staked accounts = [(1, 40, vote_state after2); (2, 60, other_state)].
Proof. done. Qed.

Lemma accounts_before key stake s : (key, stake, s) ∈ omap staked accounts -> votes_before 5 s.
Proof.
  rewrite counted_accounts, !elem_of_cons. intros [Heq|[Heq|?%not_elem_of_nil]]; [| |done];
    apply (f_equal snd) in Heq; cbn [snd] in Heq; rewrite Heq; by vm_compute.
Qed.

(** At slot 5 the vote for 2 has expired: both validators count for slot 1. *)
Lemma collect_vote_lockouts_correct_witness :
  exists st latest, collect_vote_lockouts 1 5 accounts ancestors (get_hash progress) LatestVotes_default = Ok (st, latest) /\
    cb_total_stake st = 100 /\ voted (cb_voted_stakes st) 1 = 100 /\ voted (cb_voted_stakes st) 2 = 0 /\
    interval_at (cb_lockout_intervals st) 4 (2, 1).
Proof.
  destruct (collect_vote_lockouts_correct 1 5 ancestors (get_hash progress) ancestors_strict accounts LatestVotes_default []
    default_votes_inv accounts_before) as (st & latest & Hc & Ht & Hv & Hi).
  exists st, latest. split; [exact Hc|]. split; [rewrite Ht; by vm_compute|]. split; [rewrite Hv; by vm_compute|].
  split; [rewrite Hv; by vm_compute|]. apply Hi. exists 1, 40, (vote_state after2), (mkLockout 2 1).
  rewrite counted_accounts.
  split; [by left|]. split; [|by vm_compute]. change (votes (vote_state after2)) with [mkLockout 1 2; mkLockout 2 1]. right. by left.
Defined.

(** ** Restoring the tower *)

Definition ledger : SlotHistory (list bool) := foldl slot_history_add SlotHistory_default [1; 5].

Lemma after2_ordered : tower_ordered 0 (voted_slots after2).
Proof.
  change (voted_slots after2) with [1; 2]. split; [repeat constructor; lia|].
  intros s. rewrite !elem_of_cons. intros [->|[->|?%not_elem_of_nil]]; [lia|lia|done].
Qed.

Lemma ledger_represents : represents ledger ({[1; 5]} ∪ {[0]}).
Proof.
  replace ({[1; 5]} ∪ {[0]} : gset Slot) with (list_to_set [1; 5] ∪ {[0]} : gset Slot) by set_solver.
  apply add_all_represents; [apply default_represents|]. cbn. u64.
Qed.

Lemma ledger_check s :
  0 <= s -> slot_history_check ledger s = if 6 <=? s then Future else if bool_decide (s = 1 \/ s = 5 \/ s = 0) then Found else NotFound.
Proof.
  intros Hs. rewrite (check_represents _ _ _ ledger_represents Hs). change (next_slot ledger) with 6.
  destruct (6 <=? s); [done|]. rewrite (proj2 (Z.ltb_ge s (6 - MAX_SLOT_ENTRIES))) by (unfold MAX_SLOT_ENTRIES; lia).
  erewrite bool_decide_ext; [reflexivity|]. set_solver.
Qed.

(** The ledger rooted 1 and 5: the vote for 2 is kept as a stray vote. *)
Lemma adjust_lockouts_correct_witness :
  exists t, adjust_lockouts_with_slot_history ledger after2 = Ok t /\ voted_slots t = [2] /\ stray_restored_slot t = Some 2.
Proof.
  rewrite (adjust_lockouts_correct ledger after2 0 ltac:(by vm_compute) after2_ordered ltac:(by vm_compute)).
  unfold adjusted, anchor. change (0 :: voted_slots after2) with [0; 1; 2].
  assert (filter (fun s => slot_history_check ledger s = Found) [0; 1; 2] = [0; 1]) as ->.
  { rewrite filter_cons_True by (by rewrite ledger_check by lia). rewrite filter_cons_True by (by rewrite ledger_check by lia).
    rewrite filter_cons_False; [done|]. by rewrite ledger_check by lia. }
  cbn [last existsb]. rewrite !ledger_check by lia. cbn [orb andb Z.ltb Z.compare Z.leb].
  eexists. split; [reflexivity|]. by vm_compute.
Defined.

(** A tower rooted at 7 that the ledger has not reached. *)
Definition ahead : Tower :=
  set_last_vote (mkVote [9] 19 None) (set_vote_state (set_root_slot (Some 7) (set_votes [mkLockout 9 1] VoteState_default)) start).

Lemma ahead_ordered : tower_ordered 7 (voted_slots ahead).
Proof. split; [repeat constructor|]. intros s ->%list_elem_of_singleton. cbn. lia. Qed.

Lemma future_tower_kept_witness :
  exists t, adjust_lockouts_after_replay 5 ledger ahead = Ok t /\ voted_slots t = [9] /\ stray_restored_slot t = Some 9.
Proof.
  eexists. split; [apply (future_tower_kept ledger ({[1; 5]} ∪ {[0]}) ahead 7 5 9 ledger_represents ltac:(by rewrite ledger_check by lia)
    ltac:(by vm_compute) ltac:(lia) ltac:(split; [by vm_compute|u64]) ahead_ordered ltac:(by vm_compute) ltac:(by vm_compute) ltac:(lia))|].
  by vm_compute.
Defined.

(** ** Voting through the replay stage *)

Definition bank5 : StatBank := mkStatBank 5 3 accounts stakes schedule [] [].
Definition fork_bank (key : SlotHashKey) : ForkBank := mkForkBank key.1 key.2 100 (Some epoch_accounts) None.

Definition turn : Turn :=
  mkTurn 1 ancestors descendants 0 ∅ [bank5] {[1 := fork_bank A; 2 := fork_bank B; 5 := fork_bank C]} gossip 2000.

Definition stage : StageState := mkStageState progress forks LatestVotes_default.
Definition stats5 : list Slot * StageState :=
  default ([], stage) (ok (compute_bank_stats 1 ancestors 0 ∅ after2 [bank5] stage)).
Definition selected5 : SelectVoteAndResetForkResult * Tower :=
  default (mkSelectResult None None [], after2)
    (ok (select_vote_and_reset_forks (fork_bank C) None ancestors descendants (st_progress stats5.2) gossip forks after2)).
Definition recorded5 : option Slot * Tower :=
  default (None, after2) (ok (record_bank_vote 2000 5 15 None selected5.2)).

Lemma turn_votes_5 : turn_votes turn stage after2 (fork_bank C) (SwitchProof Hash_default) recorded5.1 recorded5.2.
Proof.
  apply (turn_votes_intro turn stage after2 (fork_bank C) (SwitchProof Hash_default) recorded5.1 recorded5.2 stats5.1 stats5.2
    (st_progress stats5.2) forks (fork_bank C) None selected5.1 selected5.2); by vm_compute.
Qed.

Lemma turn5_ok : turn_ok ancs turn (fork_bank C).
Proof.
  split_and!; [|unfold slot_ok; cbn; u64..|exists bank5; split; [by left|done]].
  intros a. cbn. intros [= <-]. done.
Qed.

Lemma stage_voting2 : stage_voting ancs after2 (lockouts_map (votes (vote_state after2))).
Proof. pose proof (voting_safe ancs ancs_trans _ _ voting2) as [Hwf Hf _ _]. by apply stage_start. Qed.

Lemma replay_votes_respect_lockouts_witness :
  lockouts_map (votes (vote_state after2)) !! 2 = Some 1 /\ 2 < 5 /\ (2 ∈ ancs 5 \/ 2 + 2 ^ 1 < 5).
Proof.
  split; [by vm_compute|].
  apply (replay_votes_respect_lockouts ancs ancs_trans turn stage after2 _ (fork_bank C) _ _ _ stage_voting2 turn_votes_5 turn5_ok). by vm_compute.
Defined.

(** ** Propagation of leader blocks *)

Definition leader_bank : LeaderBank := mkLeaderBank epoch_accounts {[ 70 := [2] ]}.
Definition led (prev : option Slot) : ForkProgress := ForkProgress_new prev (Some (mkValidatorStakeInfo 3 0 100)) 0 0.
Definition led_progress : ProgressMap := {[1 := led None; 2 := led (Some 1)]}.
Definition led_banks : gmap Slot LeaderBank := {[1 := leader_bank; 2 := leader_bank]}.

Lemma led_stats l s : get_propagated_stats led_progress l = Some s ->
  (l = 1 /\ s = propagated_stats (led None)) \/ (l = 2 /\ s = propagated_stats (led (Some 1))).
Proof.
  unfold get_propagated_stats, led_progress. intros (f & Hf & ->)%fmap_Some.
  apply lookup_insert_Some in Hf as [[<- <-]|[_ [<- <-]%lookup_singleton_Some]]; tauto.
Qed.

(** A node of the other validator is seen on slot 2: slots 2 and 1 become
    propagated with its 60 of 100 stake. *)
Lemma propagation_walk_correct_witness :
  exists p, update_fork_propagated_threshold_from_votes led_progress [] [70] 2 0 led_banks = Ok p /\
    advances led_progress p /\ closed_but 0 None p /\ ps_is_propagated <$> get_propagated_stats p 1 = Some true.
Proof.
  destruct (propagation_walk_correct 0 led_banks led_progress 2 [] [70]) as (p & Hp & Ha & _ & _ & Hc).
  - by eexists.
  - split; intros l s.
    + intros [[-> ->]|[-> ->]]%led_stats _ _; by eexists.
    + intros q [[-> ->]|[-> ->]]%led_stats; cbn; [done|]. intros [= <-]. split; [lia|]. intros _. by eexists.
  - intros l s bank [[-> ->]|[-> ->]]%led_stats _; intros [= <-]; by vm_compute.
  - by intros l s q sq [[-> ->]|[-> ->]]%led_stats.
  - exists p. split; [exact Hp|]. split; [exact Ha|]. split; [exact Hc|].
    assert (ps_is_propagated <$> (p ← ok (update_fork_propagated_threshold_from_votes led_progress [] [70] 2 0 led_banks); get_propagated_stats p 1) = Some true) as H1
      by by vm_compute. rewrite Hp in H1. exact H1.
Defined.

End TowerExample.
