(* ===== verification/ProgramAddress.v ===== *)
(** * Program derived addresses

    [Pubkey::create_program_address] and [find_program_address] of
    [sdk/program/src/pubkey.rs]: addresses a program signs for. SHA-256 and the
    test whether a hash is a point of the curve (the [curve25519_dalek] crate)
    are parameters. *)
From stdpp Require Import base numbers option list.
From S2P Require Import Prelude Instruction Account Nonce System.

Definition MAX_SEEDS : nat := 16.

(** [u64::to_le_bytes] *)
Definition to_le_bytes (x : Z) : list Z := (fun i => (x / 256 ^ Z.of_nat i) mod 256) <$> seq 0 8.

Section derivation.
Context (sha256 : list Z -> Hash) (bytes_are_curve_point : Hash -> bool).

Definition create_program_address (seeds : list (list Z)) (program_id : Pubkey) : outcome PubkeyError Pubkey :=
  if decide (MAX_SEEDS < length seeds)%nat then Err PubkeyMaxSeedLengthExceeded
  else if existsb (fun seed => bool_decide (MAX_SEED_LEN < length seed)%nat) seeds
  then Err PubkeyMaxSeedLengthExceeded
  else
    let hash := sha256 (mjoin seeds ++ hash_bytes program_id ++ PDA_MARKER) in
    if bytes_are_curve_point hash then Err PubkeyInvalidSeeds else Ok hash.

(** The loop of [try_find_program_address] with [n] turns left. *)
Fixpoint try_bump_seeds (n : nat) (bump_seed : Z) (seeds : list (list Z)) (program_id : Pubkey)
  : option (Pubkey * Z) :=
  match n with
  | O => None
  | S n =>
      match create_program_address (seeds ++ [[bump_seed]]) program_id with
      | Ok address => Some (address, bump_seed)
      | Err PubkeyInvalidSeeds => try_bump_seeds n (as_u8 (bump_seed - 1)) seeds program_id
      | _ => None
      end
  end.

Definition try_find_program_address (seeds : list (list Z)) (program_id : Pubkey) : option (Pubkey * Z) :=
  try_bump_seeds (Z.to_nat U8_MAX) U8_MAX seeds program_id.

Definition find_program_address {E} (seeds : list (list Z)) (program_id : Pubkey) : outcome E (Pubkey * Z) :=
  unwrap (try_find_program_address seeds program_id).

(** ** Lemmas *)

Lemma try_bump_seeds_Some n bump seeds program_id a b : Z.of_nat n <= bump <= U8_MAX ->
  try_bump_seeds n bump seeds program_id = Some (a, b) ->
  create_program_address (seeds ++ [[b]]) program_id = Ok a /\ bump - Z.of_nat n < b <= bump /\
  forall b', b < b' <= bump -> create_program_address (seeds ++ [[b']]) program_id = Err PubkeyInvalidSeeds.
Proof.
  revert bump. induction n as [|n IH]; intros bump Hb Hf; [done|]. cbn [try_bump_seeds] in Hf.
  destruct (create_program_address (seeds ++ [[bump]]) program_id) as [a'|[]|] eqn:Hc; simplify_eq.
  - split; [done|]. split; [lia|]. lia.
  - destruct n as [|n]; [done|]. assert (as_u8 (bump - 1) = bump - 1) as Hs
      by (unfold as_u8; apply Z.mod_small; unfold U8_MAX in *; lia).
    rewrite Hs in Hf. apply IH in Hf as (Ha & Hr & Hall); [|unfold U8_MAX in *; lia].
    split; [done|]. split; [lia|]. intros b' Hb'. destruct (decide (b' = bump)) as [->|]; [done|]. apply Hall. lia.
Qed.

(** The address found is derived with the greatest bump seed that leaves the
    curve, which is from 1 to 255. *)
Lemma try_find_program_address_Some seeds program_id a b : try_find_program_address seeds program_id = Some (a, b) ->
  create_program_address (seeds ++ [[b]]) program_id = Ok a /\ 1 <= b <= U8_MAX /\
  forall b', b < b' <= U8_MAX -> create_program_address (seeds ++ [[b']]) program_id = Err PubkeyInvalidSeeds.
Proof.
  intros Hf. apply try_bump_seeds_Some in Hf as (Ha & Hr & Hall); [|unfold U8_MAX; lia].
  split; [done|]. split; [unfold U8_MAX in *; lia|done].
Qed.

Lemma create_program_address_off_curve seeds program_id a : create_program_address seeds program_id = Ok a ->
  bytes_are_curve_point a = false /\ a = sha256 (mjoin seeds ++ hash_bytes program_id ++ PDA_MARKER).
Proof.
  unfold create_program_address. case_decide; [done|]. destruct (existsb _ _); [done|].
  destruct (bytes_are_curve_point _) eqn:Hc; [done|]. intros [= <-]. done.
Qed.
End derivation.
