(* ===== verification/SystemCall.v ===== *)
(** * Builtin programs in the invoke context, and calls of the system program

    A builtin program whose handler works on the accounts is run in the invoke
    context of [InvokeContext.v] on the keyed accounts of its frame. The programs
    that create accounts call the system program through
    [InvokeContext::native_invoke]; [SystemCalls] states what such a call does
    for its caller, and the invocation of [InvokeSpec.v] implements it. *)
From Stdlib Require Import String.
From stdpp Require Import base numbers option list gmap.
From S2P Require Import Prelude Instruction Account EpochSchedule Float64 Rent Sysvar Message MessageSpec PreAccount.
From S2P Require Import ComputeBudget InvokeContext InvokeSpec Nonce System.

(** ** Handlers as programs *)

(** The accounts of the transaction context, and the context with others. *)
Definition accounts_of (c : InvokeContext) : Accounts := (ic_accounts c).*2.
Definition put_accounts (s : Accounts) (c : InvokeContext) : InvokeContext :=
  set_accounts (imap (fun i entry => (entry.1, default entry.2 (s !! i))) (ic_accounts c)) c.

(** Code on the accounts, run in the context. *)
Definition on_accounts {A} (m : AM A) : IM A :=
  fun c => let '(r, s) := m (accounts_of c) in (r, put_accounts s c).

Definition program_context (c : InvokeContext) : outcome InstructionError ProgramContext :=
  keyed_accounts ← get_keyed_accounts c;
  Ok (mkProgramContext keyed_accounts (ic_sysvar_cache c) (ic_feature_set c) (ic_blockhash c)
        (ic_lamports_per_signature c)).

Definition builtin (handler : ProgramContext -> nat -> list Z -> AM unit) : nat -> list Z -> IM unit :=
  fun first_instruction_account instruction_data =>
    c ← get;
    ctx ← lift (program_context c);
    on_accounts (handler ctx first_instruction_account instruction_data).

Section program.
Context (sha256 : list Z -> Hash).
Context `{Bincode NonceVersions} `{Bincode SystemInstruction} `{Bincode RecentBlockhashes} `{Bincode Rent}.

Definition system_program : Program := fun _ => builtin (system_process_instruction sha256).
End program.

(** ** Handlers keep the number of accounts *)

Create HintDb keeps_length.

Definition keeps_length {A} (m : AM A) : Prop := forall s, length (snd (m s)) = length s.

Lemma keeps_length_bind {A B} (m : AM A) (k : A -> AM B) :
  keeps_length m -> (forall a, keeps_length (k a)) -> keeps_length (m ≫= k).
Proof.
  intros Hm Hk s. unfold mbind, SE_bind. specialize (Hm s). destruct (m s) as [[a|e|] s1]; cbn in *; [|done|done].
  by rewrite Hk.
Qed.

Lemma keeps_length_same {A} (m : AM A) : (forall s, snd (m s) = s) -> keeps_length m.
Proof. intros Hm s. by rewrite Hm. Qed.

Lemma with_account_length {A} k (m : SE AccountSharedData InstructionError A) : keeps_length (with_account k m).
Proof.
  intros s. unfold with_account. destruct (s !! account k) as [a|]; [|done].
  destruct (m a). cbn. apply length_insert.
Qed.

Lemma lamports_op_length {A} k (m : SE AccountSharedData LamportsError A) : keeps_length (lamports_op k m).
Proof. apply with_account_length. Qed.

Lemma ka_set_state_length {T} `{Bincode T} k (x : T) : keeps_length (ka_set_state k x).
Proof. apply with_account_length. Qed.

Lemma try_account_ref_length k : keeps_length (try_account_ref k).
Proof. by apply keeps_length_same. Qed.

#[export] Hint Resolve with_account_length lamports_op_length ka_set_state_length try_account_ref_length : keeps_length.

(** Goes through a handler statement by statement. *)
Ltac keep_length :=
  repeat first
    [ solve [eauto with keeps_length]
    | progress intros
    | apply keeps_length_bind
    | solve [apply keeps_length_same; reflexivity]
    | match goal with
      | |- keeps_length (if ?b then _ else _) => destruct b
      | |- keeps_length (match ?x with _ => _ end) => destruct x
      | |- keeps_length (let '(_, _) := ?x in _) => destruct x
      end ].

Section lengths.
Context (sha256 : list Z -> Hash).
Context `{Bincode NonceVersions} `{Bincode SystemInstruction} `{Bincode RecentBlockhashes} `{Bincode Rent}.

Lemma transfer_verified_length from to n : keeps_length (transfer_verified from to n).
Proof. unfold transfer_verified, ka_data_is_empty, ka_lamports. keep_length. Qed.
Lemma from_keyed_account_length S `{Bincode S} id k : keeps_length (from_keyed_account S id k).
Proof. unfold from_keyed_account, check_sysvar_keyed_account. keep_length. Qed.
Lemma ka_state_length {T} `{Bincode T} k : keeps_length (ka_state k : AM T).
Proof. unfold ka_state. keep_length. Qed.
#[local] Hint Resolve transfer_verified_length from_keyed_account_length ka_state_length : keeps_length.

Lemma system_process_length ctx first d : keeps_length (system_process_instruction sha256 ctx first d).
Proof.
  unfold system_process_instruction. keep_length.
  match goal with |- keeps_length (system_dispatch _ _ _ _ ?ix) => destruct ix end;
    cbn [system_dispatch]; unfold create_account, transfer, transfer_with_seed, keyed_account_at_index,
      advance_nonce_account, check_nonce_writable, withdraw_nonce_account, withdraw_nonce_signer,
      initialize_nonce_account, authorize_nonce_account, upgrade_nonce_account, ka_lamports, ka_data_len, ka_owner;
    keep_length.
Qed.
End lengths.

(** ** The accounts of a context *)

Lemma put_accounts_keys s c : (ic_accounts (put_accounts s c)).*1 = (ic_accounts c).*1.
Proof.
  unfold put_accounts. destruct c as [? ? ? accts]. cbn. apply list_eq. intros i.
  rewrite !list_lookup_fmap, list_lookup_imap. by destruct (accts !! i).
Qed.

Lemma accounts_of_put s c : length s = length (accounts_of c) -> accounts_of (put_accounts s c) = s.
Proof.
  unfold accounts_of, put_accounts. destruct c as [? ? ? accts]. cbn. rewrite length_fmap. intros Hl.
  apply list_eq. intros i. rewrite list_lookup_fmap, list_lookup_imap.
  destruct (accts !! i) eqn:Hi; cbn.
  - destruct (s !! i) eqn:Hs; [done|]. apply lookup_ge_None in Hs. apply lookup_lt_Some in Hi. lia.
  - symmetry. apply lookup_ge_None in Hi. apply lookup_ge_None. lia.
Qed.

(** Two contexts that differ in the accounts and the runtime's bookkeeping only. *)
Record same_frame (c c' : InvokeContext) : Prop := {
  same_stack : invoke_stack c' = invoke_stack c;
  same_keys : (ic_accounts c').*1 = (ic_accounts c).*1;
  same_sysvars : ic_sysvar_cache c' = ic_sysvar_cache c;
  same_features : ic_feature_set c' = ic_feature_set c;
}.

#[global] Instance same_frame_preorder : PreOrder same_frame.
Proof. split; [by intros c|]. intros c1 c2 c3 [] []. split; congruence. Qed.

Lemma put_accounts_same s c : same_frame c (put_accounts s c).
Proof. pose proof (put_accounts_keys s c). by destruct c. Qed.

Lemma on_accounts_Ok {A} (m : AM A) c r c' : keeps_length m -> on_accounts m c = (Ok r, c') ->
  m (accounts_of c) = (Ok r, accounts_of c') /\ same_frame c c'.
Proof.
  intros Hl. unfold on_accounts. specialize (Hl (accounts_of c)). destruct (m (accounts_of c)) as [o s] eqn:Hm.
  intros [= -> <-]. cbn in Hl. rewrite accounts_of_put by done. split; [done|apply put_accounts_same].
Qed.

Lemma builtin_Ok handler n d c c' : (forall ctx, keeps_length (handler ctx n d)) -> builtin handler n d c = (Ok tt, c') ->
  exists ctx, program_context c = Ok ctx /\ handler ctx n d (accounts_of c) = (Ok tt, accounts_of c') /\ same_frame c c'.
Proof.
  intros Hl Hb. unfold builtin in Hb. ok_inv. eexists. split; [done|]. by eapply on_accounts_Ok.
Qed.

Lemma same_frame_keeps c s : keeps c (put_accounts s c).
Proof.
  pose proof (put_accounts_keys s c) as Hk. destruct c. by split.
Qed.

Lemma on_accounts_well_behaved (m : AM unit) : well_behaved (on_accounts m).
Proof.
  intros c c' _. unfold on_accounts. destruct (m (accounts_of c)) as [r s]. intros [= _ <-]. apply same_frame_keeps.
Qed.

Lemma builtin_confined handler : confined (fun _ => builtin handler).
Proof.
  split; [|done]. intros _ _ n d c c' Hne Hb. unfold builtin in Hb. ok_inv. by eapply on_accounts_well_behaved.
Qed.

(** ** Bookkeeping of the runtime *)

Lemma verify_and_update_same instruction account_indices write_privileges c c' :
  verify_and_update instruction account_indices write_privileges c = (Ok tt, c') ->
  same_frame c c' /\ ic_accounts c' = ic_accounts c.
Proof.
  intros Hv. pose proof Hv as (_ & Hst & Ha & _)%verify_and_update_Ok. split; [|done].
  unfold verify_and_update in Hv. ok_inv.
  match goal with H : balanced _ _ = _ |- _ => apply balanced_Ok in H as (s & Hv & _ & <-) end.
  unfold visit_each_account in Hv. rewrite visit_accounts_unique in Hv.
  enough (ic_sysvar_cache (vs_context s) = ic_sysvar_cache c /\ ic_feature_set (vs_context s) = ic_feature_set c)
    as [Hs Hf] by (split; [done|by rewrite Ha|done|done]).
  eapply (visit_unique_inv _ (fun _ s => ic_sysvar_cache (vs_context s) = ic_sysvar_cache c /\
    ic_feature_set (vs_context s) = ic_feature_set c)); [|..|exact Hv]; [|done].
  intros k a s1 s2 _ [Hs Hf] Hw.
  apply verify_and_update_account_Ok in Hw as (w & ai & key & post & i & pre & _ & _ & _ & Hi & _ & Hp & ->).
  cbn. by destruct (vs_context s1).
Qed.

Lemma record_instruction_same n ix c : same_frame c (record_instruction n ix c) /\
  ic_accounts (record_instruction n ix c) = ic_accounts c.
Proof. unfold record_instruction. case_match; [by destruct c|done]. Qed.

Lemma get_account_ext c c' k : ic_accounts c' = ic_accounts c -> get_account c' k = get_account c k.
Proof. unfold get_account. by intros ->. Qed.

(** ** The frame of a callee *)

(** The account of the callee that an account meta of the instruction names: an
    account of that key, which the caller may write if the meta asks for it. It
    signs if it signed for the caller or the caller signs for it. *)
Definition callee_account (c : InvokeContext) (signers : list Pubkey) (meta : AccountMeta) (k : KeyedAccount) : Prop :=
  key k = am_pubkey meta /\ (ic_accounts c).*1 !! account k = Some (key k) /\
  (am_is_writable meta = true ->
    exists caller ka, get_instruction_keyed_accounts c = Ok caller /\ ka ∈ caller /\ key ka = key k /\ is_writable ka = true) /\
  (is_signer k = true -> key k ∈ signers \/
    exists caller ka, get_instruction_keyed_accounts c = Ok caller /\ ka ∈ caller /\ key ka = key k /\ is_signer ka = true).

Lemma push_frame message instruction program_indices account_indices c c' : invoke_stack c ≠ [] ->
  push message instruction program_indices account_indices c = (Ok tt, c') ->
  exists programs keyed, collect (program_keyed c) program_indices = Ok programs /\
    collect (instruction_keyed c message account_indices) (ci_accounts instruction) = Ok keyed /\
    c' = set_stack (StackFrame_new (length program_indices) (programs ++ keyed) :: invoke_stack c) c.
Proof.
  unfold push. intros Hne Hp. destruct (invoke_stack c) as [|f fs] eqn:Hst; [done|]. clear Hne. ok_inv.
  match goal with Hr : _ c = (Ok tt, _) |- _ => rewrite Hst in Hr; unfold push_reentrancy in Hr end. ok_inv.
  rewrite Hst. eauto 10.
Qed.

Lemma message_single {E} ix m : (length (message_keys [ix] None) <= 255)%nat ->
  Message_new (E := E) [ix] None = Ok m ->
  exists ci, instructions m = [ci] /\ compiled_from (account_keys m) ix ci.
Proof.
  intros Hl Hm. destruct (Message_new_Ok (E := E) [ix] None Hash_default Hl) as (m' & Hm' & Hk & _ & _ & Hix).
  unfold Message_new in Hm. rewrite Hm in Hm'. injection Hm' as <-. rewrite Hk.
  apply Forall2_cons_inv_l in Hix as (ci & cis & Hci & Hnil & Heq).
  apply Forall2_nil_inv_l in Hnil as ->. eauto.
Qed.

Lemma collect_Forall2 {E A B C} (f : B -> outcome E C) (P : A -> B -> Prop) (Q : A -> C -> Prop) l bs cs :
  Forall2 P l bs -> collect f bs = Ok cs -> (forall a b x, P a b -> a ∈ l -> f b = Ok x -> Q a x) -> Forall2 Q l cs.
Proof.
  intros HP. revert cs. induction HP as [|a b l bs Hab HP IH]; intros cs Hc HQ; cbn in Hc; ok_inv; constructor.
  - eapply HQ; [exact Hab|left|done].
  - apply IH; [done|]. intros. eapply HQ; [done|by right|done].
Qed.

(** What the parts of [create_message] that a callee's frame depends on say. *)
Lemma create_message_parts `{Bincode UpgradeableLoaderState} ix signers c m privileges program_indices c' :
  create_message ix signers c = (Ok (m, privileges, program_indices), c') ->
  c' = c /\ Message_new (E := InstructionError) [ix] None = Ok m /\
  exists caller callee, get_instruction_keyed_accounts c = Ok caller /\
    collect (fun k => ok_or MissingAccount (find_keyed caller k)) (account_keys m) = Ok callee /\
    (exists rs, collect (check_privileges callee signers) (ix_accounts ix) = Ok rs) /\
    find_program_indices c callee (ix_program_id ix) = Ok program_indices.
Proof. intros Hc. unfold create_message in Hc. ok_inv. simplify_eq. eauto 10. Qed.

Lemma callee_signs `{Bincode UpgradeableLoaderState} ix signers c m privileges program_indices c' i k :
  (length (message_keys [ix] None) <= 255)%nat ->
  create_message ix signers c = (Ok (m, privileges, program_indices), c') ->
  account_keys m !! i = Some k -> Message_is_signer m i = true ->
  k ∈ signers \/
  exists caller ka, get_instruction_keyed_accounts c = Ok caller /\ ka ∈ caller /\ key ka = k /\ is_signer ka = true.
Proof.
  intros Hl (-> & Hm & caller & callee & Hcaller & Hcallee & [rs Hpriv] & _)%create_message_parts Hi Hs.
  destruct (find_keyed_callee _ _ _ _ _ Hcallee Hi) as (ka & Hka & _ & Hcallee_k).
  destruct (Message_new_access [ix] None _ _ _ _ Hl Hm Hi) as [Hsig _].
  apply Hsig in Hs as [|(ix' & meta & Hix & Hmeta & <- & Hms)]; [done|]. apply list_elem_of_singleton in Hix as ->.
  pose proof (check_privileges_Ok _ _ _ _ _ _ Hpriv Hmeta Hcallee_k) as [_ Hp].
  destruct (Hp Hms) as [Hka'|]; [right|by left]. apply find_keyed_Some in Hka as [Hin Hkey]. eauto 10.
Qed.

Lemma callee_writes `{Bincode UpgradeableLoaderState} ix signers c m privileges program_indices c' i meta :
  create_message ix signers c = (Ok (m, privileges, program_indices), c') ->
  meta ∈ ix_accounts ix -> account_keys m !! i = Some (am_pubkey meta) -> am_is_writable meta = true ->
  exists caller ka, get_instruction_keyed_accounts c = Ok caller /\ ka ∈ caller /\ key ka = am_pubkey meta /\
    is_writable ka = true.
Proof.
  intros (-> & _ & caller & callee & Hcaller & Hcallee & [rs Hpriv] & _)%create_message_parts Hmeta Hi Hw.
  destruct (find_keyed_callee _ _ _ _ _ Hcallee Hi) as (ka & Hka & _ & Hcallee_k).
  pose proof (check_privileges_Ok _ _ _ _ _ _ Hpriv Hmeta Hcallee_k) as [Hp _].
  apply find_keyed_Some in Hka as [Hin Hkey]. eauto 10.
Qed.

Section invoke_builtin.
Context `{Bincode UpgradeableLoaderState}.
Context (builtin_programs : list BuiltinProgram) (native_loader : nat -> list Z -> IM unit).

(** The callee's accounts are those the instruction names. *)
Lemma callee_frame ix signers c m privileges program_indices c0 ci found keyed :
  (length (message_keys [ix] None) <= 255)%nat ->
  create_message ix signers c = (Ok (m, privileges, program_indices), c0) -> compiled_from (account_keys m) ix ci ->
  collect (fun k => ok_or MissingAccount (get_account c k)) (account_keys m) = Ok found ->
  collect (instruction_keyed c (Legacy m) (fst <$> found)) (ci_accounts ci) = Ok keyed ->
  Forall2 (callee_account c signers) (ix_accounts ix) keyed.
Proof.
  intros Hl Hm (_ & _ & Hci) Hfound Hkeyed.
  eapply collect_Forall2; [exact Hci|exact Hkeyed|]. intros meta i k Hres Hmeta Hk. cbn in Hres. unfold resolves in Hres.
  destruct (collect_lookup _ _ _ _ _ Hfound Hres) as ([j a] & Hj & Hget). ok_inv.
  apply get_account_Some in Hget. unfold instruction_keyed in Hk.
  destruct found as [|p ps]; [done|]. cbn [fmap list_fmap] in Hk. ok_inv.
  match goal with Hx : (p.1 :: ps.*1) !! _ = Some ?x |- _ =>
    change (p.1 :: ps.*1) with ((p :: ps).*1) in Hx; rewrite list_lookup_fmap, Hj in Hx; cbn in Hx;
    injection Hx as <- end.
  unfold indexed_account in *. ok_inv.
  match goal with Hx : ic_accounts c !! j = Some ?e |- _ => assert (e = (am_pubkey meta, a)) as -> by congruence end.
  split_and!; [done|cbn; by rewrite list_lookup_fmap, Hget|cbn; intros Hw; by eapply callee_writes|].
  cbn. intros Hs. by eapply callee_signs.
Qed.

(** The native loader owns the program: the chain is the program's account. *)
Lemma find_program_indices_native c callee program_id idxs :
  (forall i a, get_account c program_id = Some (i, a) -> owner a = native_loader_id) ->
  find_program_indices c callee program_id = Ok idxs ->
  exists j a, idxs = [j] /\ ic_accounts c !! j = Some (program_id, a) /\ owner a = native_loader_id.
Proof.
  intros Ho Hf. unfold find_program_indices in Hf. ok_inv.
  match goal with x : nat * AccountSharedData |- _ => destruct x as [j a] end.
  match goal with Hx : mbind _ _ = Some _ |- _ => apply bind_Some in Hx as (ka & _ & Hj) end.
  pose proof (Ho _ _ Hj) as Hoa. apply get_account_Some in Hj. destruct (negb (executable a)); [done|].
  rewrite Hoa in *. cbn in *. ok_inv. eauto.
Qed.

(** The chain of a builtin program that the native loader owns. *)
Lemma chain_builtin entry pk keyed stack d c c' :
  invoke_stack c = StackFrame_new 1 (pk :: keyed) :: stack ->
  (forall a, ic_accounts c !! account pk = Some a -> owner a.2 = native_loader_id) ->
  find_builtin builtin_programs (key pk) = Some entry ->
  process_executable_chain builtin_programs native_loader d c = (Ok tt, c') ->
  bp_process_instruction entry 1 d c = (Ok tt, c').
Proof.
  intros Hst Ho Hf Hc. unfold process_executable_chain in Hc. ok_inv.
  unfold get_keyed_accounts in *. rewrite Hst in *. cbn in *.
  match goal with Hs : slice _ _ _ = Ok ?x |- _ => unfold slice in Hs; rewrite decide_True in Hs by (cbn; lia);
    cbn [drop range_start range_end StackFrame_new sf_keyed_accounts] in Hs;
    rewrite take_ge in Hs by done; injection Hs as <- end.
  cbn in *. simplify_eq. unfold keyed_owner in *. ok_inv.
  match goal with Ha : ic_accounts _ !! _ = Some _ |- _ => rewrite (Ho _ Ha) in * end.
  rewrite Z.eqb_refl in *. unfold unsigned_key in *. by rewrite Hf in *.
Qed.

Lemma instruction_keyed_ext c c' m idxs : ic_accounts c' = ic_accounts c ->
  collect (instruction_keyed c' m idxs) = collect (instruction_keyed c m idxs).
Proof. unfold instruction_keyed, indexed_account. by intros ->. Qed.

(** A nested invocation runs the program between two checks of the runtime. *)
Lemma process_instruction_inner_run message instruction program_indices account_indices privileges c c' r :
  invoke_stack c ≠ [] ->
  process_instruction builtin_programs native_loader message instruction program_indices account_indices privileges c = (r, c') ->
  pir_result r = Ok tt ->
  exists programs keyed c1 c2 c3,
    collect (program_keyed c) program_indices = Ok programs /\
    collect (instruction_keyed c message account_indices) (ci_accounts instruction) = Ok keyed /\
    invoke_stack c1 = StackFrame_new (length program_indices) (programs ++ keyed) :: invoke_stack c /\
    ic_accounts c1 = ic_accounts c /\ ic_sysvar_cache c1 = ic_sysvar_cache c /\ ic_feature_set c1 = ic_feature_set c /\
    process_executable_chain builtin_programs native_loader (ci_data instruction) c1 = (Ok tt, c2) /\
    same_frame c2 c3 /\ ic_accounts c3 = ic_accounts c2 /\ c' = pop c3.
Proof.
  intros Hne Hp Hok. unfold process_instruction in Hp. rewrite bool_decide_eq_false_2 in Hp by done. cbn [negb] in Hp.
  destruct (verify_and_update _ _ _ _) as [v c1] eqn:Hv. destruct v as [[]| |]; [|by simplify_eq..].
  apply verify_and_update_same in Hv as ([Hst1 _ Hsys1 Hf1] & Ha1).
  destruct (push _ _ _ _ _) as [v c2] eqn:Hpush. destruct v as [[]| |]; [|by simplify_eq..].
  apply push_frame in Hpush as (programs & keyed & Hprog & Hkeyed & ->); [|by rewrite Hst1].
  destruct (run_and_verify _ _ _ _ _ _ _ _) as [r' c3] eqn:Hrun. simplify_eq.
  unfold run_and_verify in Hrun. destruct (get_account_key _ _) as [program_id|]; [|by simplify_eq].
  destruct (process_executable_chain _ _ _ _) as [er c4] eqn:Hchain. destruct er as [[]| |]; [|by simplify_eq..].
  match type of Hrun with (let '(_, _) := ?t in _) = _ => destruct t as [res c5] eqn:Hv end.
  simplify_eq. cbn in Hok. subst res. ok_inv.
  match goal with Hv : verify_and_update _ _ _ _ = _ |- _ => apply verify_and_update_same in Hv as (Hsame & Ha5) end.
  eexists programs, keyed, _, _, _. rewrite (instruction_keyed_ext c) in Hkeyed by done.
  split; [|split; [exact Hkeyed|]]; [by unfold program_keyed, indexed_account in *; rewrite Ha1 in Hprog|].
  split_and!; [..|exact Hchain|exact Hsame|done|done]; clear Hchain; destruct c1; cbn in *; congruence.
Qed.

(** A call of a builtin program through [native_invoke]. *)
Lemma native_invoke_builtin ix signers c c' entry :
  (length (message_keys [ix] None) <= 255)%nat -> invoke_stack c ≠ [] ->
  (forall i a, get_account c (ix_program_id ix) = Some (i, a) -> owner a = native_loader_id) ->
  find_builtin builtin_programs (ix_program_id ix) = Some entry ->
  native_invoke builtin_programs native_loader ix signers c = (Ok tt, c') ->
  exists pk keyed c1 c2 c3,
    Forall2 (callee_account c signers) (ix_accounts ix) keyed /\
    invoke_stack c1 = StackFrame_new 1 (pk :: keyed) :: invoke_stack c /\
    ic_accounts c1 = ic_accounts c /\ ic_sysvar_cache c1 = ic_sysvar_cache c /\ ic_feature_set c1 = ic_feature_set c /\
    bp_process_instruction entry 1 (ix_data ix) c1 = (Ok tt, c2) /\
    same_frame c2 c3 /\ ic_accounts c3 = ic_accounts c2 /\ c' = pop c3.
Proof.
  intros Hl Hne Hown Hentry Hi. unfold native_invoke in Hi.
  apply SE_bind_Ok in Hi as ([[m privileges] program_indices] & c0 & Hm & Hi).
  pose proof Hm as (-> & Hnew & caller & callee & _ & _ & _ & Hprog)%create_message_parts.
  destruct (message_single ix m Hl Hnew) as (ci & Hci & Hcomp). ok_inv. rewrite Hci in *.
  match goal with Hx : [ci] !! 0%nat = Some ?x |- _ => injection Hx as <- end.
  match goal with Hx : (let '(_, _) := _ in _) = (Ok tt, _) |- _ => rename Hx into Hp end.
  destruct (process_instruction _ _ _ _ _ _ _ _) as [r c1] eqn:Hpi. injection Hp as Hok <-.
  destruct (record_instruction_same (get_stack_height c) ix c) as ([Hst0 _ Hsys0 Hf0] & Ha0).
  apply process_instruction_inner_run in Hpi as (programs & keyed & c2 & c3 & c4 & Hprogs & Hkeyed & Hst & Ha & Hsys & Hf & Hchain & Hsame & Ha4 & ->);
    [|by rewrite Hst0|done].
  rewrite (instruction_keyed_ext c) in Hkeyed by done.
  match goal with Hx : collect (fun _ => _) _ = Ok ?f |- _ =>
    pose proof (callee_frame _ _ _ _ _ _ _ _ _ _ Hl Hm Hcomp Hx Hkeyed) as Hframe end.
  apply find_program_indices_native in Hprog as (j & a & -> & Hj & Hoa); [|done].
  cbn in Hprogs. unfold program_keyed, indexed_account in Hprogs. rewrite Ha0, Hj in Hprogs. cbn in Hprogs. ok_inv.
  cbn [app length] in Hst. destruct Hcomp as (_ & Hdata & _). rewrite Hdata in Hchain.
  eexists _, keyed, c2, c3, c4. split; [exact Hframe|]. rewrite Hst, Hst0, Ha, Ha0, Hsys, Hsys0, Hf, Hf0.
  split_and!; [done..| |exact Hsame|done|done].
  eapply (chain_builtin entry); [rewrite Hst, Hst0; reflexivity| |exact Hentry|exact Hchain].
  cbn. intros x. rewrite Ha, Ha0, Hj. by intros [= <-].
Qed.
End invoke_builtin.

(** ** Calls of the system program *)

(** [bincode::serialize], and what the code relies on: what is read back is what
    was written. *)
Class BincodeVec (T : Type) : Type := bincode_serialize : T -> outcome bincode_error (list Z).
Class BincodeVecLaws (T : Type) `{Bincode T, BincodeVec T} : Prop :=
  serialize_decodes : forall (x y : T) d limit, bincode_serialize x = Ok d ->
    bincode_deserialize_limited limit d = Some y -> y = x.

Definition new_with_bincode {E T} `{BincodeVec T} (program_id : Pubkey) (data : T) (accounts : list AccountMeta)
  : outcome E Instruction :=
  match bincode_serialize data with
  | Ok data => Ok (mkInstruction program_id accounts data)
  | _ => Panic
  end.

(** [AccountMeta::new] *)
Definition AccountMeta_new (pubkey : Pubkey) (is_signer : bool) : AccountMeta := mkAccountMeta pubkey is_signer true.

Section instructions.
Context `{BincodeVec SystemInstruction} {E : Type}.

Definition create_account_ix (from_pubkey to_pubkey : Pubkey) (lamports space : Z) (owner : Pubkey)
  : outcome E Instruction :=
  new_with_bincode system_program_id (CreateAccount lamports space owner)
    [AccountMeta_new from_pubkey true; AccountMeta_new to_pubkey true].

Definition assign_ix (pubkey owner : Pubkey) : outcome E Instruction :=
  new_with_bincode system_program_id (Assign owner) [AccountMeta_new pubkey true].

Definition transfer_ix (from_pubkey to_pubkey : Pubkey) (lamports : Z) : outcome E Instruction :=
  new_with_bincode system_program_id (Transfer lamports)
    [AccountMeta_new from_pubkey true; AccountMeta_new to_pubkey false].

Definition allocate_ix (pubkey : Pubkey) (space : Z) : outcome E Instruction :=
  new_with_bincode system_program_id (Allocate space) [AccountMeta_new pubkey true].
End instructions.

(** What a program finds when it starts: its keyed accounts are accounts of the
    transaction, an account it may write was loaded once (the runtime loads the
    programs of a transaction a second time, behind the accounts of the message),
    and the native loader owns the system program. *)
Record runtime_wf (c : InvokeContext) : Prop := {
  wf_stack : invoke_stack c ≠ [];
  wf_frame : forall f k, head (invoke_stack c) = Some f -> k ∈ sf_keyed_accounts f ->
    (ic_accounts c).*1 !! account k = Some (key k);
  wf_once : forall f k i, head (invoke_stack c) = Some f -> k ∈ sf_keyed_accounts f -> is_writable k = true ->
    (ic_accounts c).*1 !! i = Some (key k) -> i = account k;
  wf_system : forall i a, get_account c system_program_id = Some (i, a) -> owner a = native_loader_id;
}.

(** The caller may sign with this key: it signs for it, or the key signed. *)
Definition caller_signs (c : InvokeContext) (signers : list Pubkey) (pk : Pubkey) : Prop :=
  pk ∈ signers \/
  exists caller ka, get_instruction_keyed_accounts c = Ok caller /\ ka ∈ caller /\ key ka = pk /\ is_signer ka = true.

Section calls.
Context (sha256 : list Z -> Hash).
Context `{Bincode NonceVersions} `{Bincode SystemInstruction} `{Bincode RecentBlockhashes} `{Bincode Rent}.

(** From [c] to [c'] the system program runs [si] on the accounts of [ix]. *)
Definition system_call (c : InvokeContext) (signers : list Pubkey) (ix : Instruction) (si : SystemInstruction)
    (c' : InvokeContext) : Prop :=
  exists ctx pk keyed, pc_keyed_accounts ctx = pk :: keyed /\
    Forall2 (callee_account c signers) (ix_accounts ix) keyed /\
    system_dispatch sha256 ctx 1 (get_signers keyed) si (accounts_of c) = (Ok tt, accounts_of c') /\
    same_frame c c'.

(** What a call of the system program promises its caller. *)
Class SystemCalls (invoke : Invoke) : Prop :=
  system_calls : forall ix signers c c', runtime_wf c -> ix_program_id ix = system_program_id ->
    (length (ix_accounts ix) <= 100)%nat -> invoke ix signers c = (Ok tt, c') ->
    exists si, limited_deserialize (ix_data ix) PACKET_DATA_SIZE = Ok si /\ system_call c signers ix si c'.

(** ** The invocation of the runtime implements the promise *)

Lemma unique_metas_length l : (length (unique_metas l) <= length l)%nat.
Proof.
  rewrite unique_metas_eq, length_fmap. generalize (@nil Pubkey). induction l as [|m l IH]; intros seen; cbn; [lia|].
  case_bool_decide; cbn; [specialize (IH seen)|specialize (IH (seen ++ [am_pubkey m]))]; lia.
Qed.

Lemma stable_insert_length m l : length (stable_insert m l) = S (length l).
Proof. induction l as [|x l IH]; [done|]. cbn. destruct (meta_cmp m x); cbn; [by rewrite IH|done|by rewrite IH]. Qed.

Lemma sort_metas_length l : length (sort_metas l) = length l.
Proof.
  unfold sort_metas. enough (forall acc, length (foldl (fun acc m => stable_insert m acc) acc l)
    = (length acc + length l)%nat) as -> by done.
  induction l as [|m l IH]; intros acc; cbn; [lia|]. rewrite IH, stable_insert_length. lia.
Qed.

Lemma message_keys_length ix : (length (message_keys [ix] None) <= S (length (ix_accounts ix)))%nat.
Proof.
  rewrite (Permutation_length (message_keys_perm [ix] None)), length_fmap.
  etransitivity; [apply unique_metas_length|]. unfold keys_and_signed. rewrite sort_metas_length, length_app.
  change ([ix] ≫= ix_accounts) with (ix_accounts ix ++ []). rewrite app_nil_r, length_fmap.
  enough (length (get_program_ids [ix]) <= 1)%nat by lia. unfold get_program_ids. cbn. by case_bool_decide; cbn; lia.
Qed.

(** The frame of a builtin program gives it all its keyed accounts. *)
Lemma program_context_frame c n keyed stack ctx : invoke_stack c = StackFrame_new n keyed :: stack ->
  program_context c = Ok ctx -> pc_keyed_accounts ctx = keyed.
Proof.
  intros Hst Hp. unfold program_context, get_keyed_accounts in Hp. rewrite Hst in Hp. cbn in Hp.
  unfold slice in Hp. rewrite decide_True in Hp by (cbn; lia). cbn in Hp. rewrite take_ge in Hp by done.
  by simplify_eq.
Qed.

(** A call of a program that runs the system program's handler. *)
Lemma native_invoke_system `{Bincode UpgradeableLoaderState} builtin_programs native_loader ix signers c c' entry :
  find_builtin builtin_programs system_program_id = Some entry ->
  bp_process_instruction entry = builtin (system_process_instruction sha256) ->
  runtime_wf c -> ix_program_id ix = system_program_id -> (length (ix_accounts ix) <= 100)%nat ->
  native_invoke builtin_programs native_loader ix signers c = (Ok tt, c') ->
  exists si, limited_deserialize (ix_data ix) PACKET_DATA_SIZE = Ok si /\ system_call c signers ix si c'.
Proof.
  intros Hentry Hrun Hwf Hid Hl Hi. pose proof (message_keys_length ix).
  rewrite <- Hid in Hentry. apply (native_invoke_builtin _ _ _ _ _ _ entry) in Hi
    as (pk & keyed & c1 & c2 & c3 & Hframe & Hst & Ha & Hsys & Hf & Hp & [Hst3 Hk3 Hs3 Hf3] & Ha3 & ->);
    [|lia|apply Hwf|rewrite Hid; apply Hwf|done].
  rewrite Hrun in Hp. apply builtin_Ok in Hp as (ctx & Hctx & Hp & [Hst2 Hk2 Hs2 Hf2]); [|intros; apply system_process_length].
  pose proof (program_context_frame _ _ _ _ _ Hst Hctx) as Hkeyed.
  unfold system_process_instruction in Hp. rewrite Hkeyed in Hp. ok_inv.
  match goal with Hk : keyed_account_at_index _ _ _ = _ |- _ => apply keyed_account_at_index_Ok in Hk as [_ ->] end.
  assert (accounts_of c1 = accounts_of c) as Hac by (unfold accounts_of; by rewrite Ha).
  assert (accounts_of (pop c3) = accounts_of c2) as Hac' by (unfold accounts_of; rewrite <- Ha3; by destruct c3).
  eexists. split; [done|]. exists ctx, pk, keyed. rewrite Hac', <- Hac. split_and!; [done|done|done|].
  destruct c3. cbn in *. split; cbn; [by rewrite Hst3, Hst2, Hst|by rewrite Hk3, Hk2, Ha|congruence..].
Qed.

(** The promise holds at every depth of nested invocations, when the system
    program is the program of its id. *)
Lemma invoke_at_system_calls `{Bincode UpgradeableLoaderState} programs native_loader fuel i id :
  list_find (fun p => p.1 = system_program_id) programs = Some (i, (id, system_program sha256)) ->
  SystemCalls (invoke_at programs native_loader fuel).
Proof.
  intros Hfind ix signers c c' Hwf Hid Hl Hi. destruct fuel as [|fuel]; [done|]. cbn in Hi.
  eapply (native_invoke_system _ _ _ _ _ _ (mkBuiltinProgram id (system_program sha256 (invoke_at programs native_loader fuel))));
    [|reflexivity|done..|exact Hi].
  by rewrite find_builtin_link, Hfind.
Qed.
End calls.

(** ** What the calls do to the accounts *)

(** [n] lamports move from the account [i], which has no data, to [j]. *)
Definition moved (i j : nat) (n : Z) (s s' : Accounts) : Prop :=
  n = 0 /\ s' = s \/
  exists a b, s !! i = Some a /\ data a = [] /\ n <= lamports a /\
    <[i := set_lamports (lamports a - n) a]> s !! j = Some b /\
    s' = <[j := set_lamports (lamports b + n) b]> (<[i := set_lamports (lamports a - n) a]> s).

(** The account of a key. *)
Definition names (c : InvokeContext) (pk : Pubkey) (i : nat) : Prop := (ic_accounts c).*1 !! i = Some pk.

(** The only one. *)
Definition once (c : InvokeContext) (pk : Pubkey) (i : nat) : Prop := forall j, names c pk j <-> j = i.

Lemma names_frame c k f : runtime_wf c -> head (invoke_stack c) = Some f -> k ∈ sf_keyed_accounts f ->
  names c (key k) (account k).
Proof. intros Hwf. apply Hwf. Qed.

Lemma names_same c c' pk i : same_frame c c' -> names c' pk i <-> names c pk i.
Proof. intros Hs. unfold names. by rewrite (same_keys _ _ Hs). Qed.

Lemma once_same c c' pk i : same_frame c c' -> once c' pk i <-> once c pk i.
Proof. intros Hs. unfold once. by setoid_rewrite (names_same c c' pk _ Hs). Qed.

(** The same accounts are found after a call. *)
Lemma rfind_same {A} (f : A -> bool) l l' : f <$> l' = f <$> l -> fst <$> rfind f l' = fst <$> rfind f l.
Proof.
  revert l'. induction l as [|y l IH]; intros [|x l'] Heq; [done|done|done|]. cbn in Heq. injection Heq as Hx Hl.
  specialize (IH _ Hl). cbn. destruct (rfind f l') as [[]|], (rfind f l) as [[]|]; simplify_eq/=; [done|].
  rewrite Hx. by destruct (f y).
Qed.

Lemma get_account_same c c' pk i a' : (ic_accounts c').*1 = (ic_accounts c).*1 -> get_account c' pk = Some (i, a') ->
  exists a, get_account c pk = Some (i, a).
Proof.
  intros Hk ([j [k x]] & Hr & [= -> _])%fmap_Some. unfold get_account.
  assert (fst <$> rfind (fun e => e.1 =? pk) (ic_accounts c') = fst <$> rfind (fun e => e.1 =? pk) (ic_accounts c)) as Hs.
  { apply rfind_same. change (((fun k => k =? pk) ∘ fst <$> ic_accounts c') = ((fun k => k =? pk) ∘ fst <$> ic_accounts c)).
    by rewrite !list_fmap_compose, Hk. }
  rewrite Hr in Hs. destruct (rfind _ (ic_accounts c)) as [[j' [k' y]]|]; [|done]. cbn in *. injection Hs as ->. eauto.
Qed.

Lemma names_lookup c pk i a : names c pk i -> accounts_of c !! i = Some a -> ic_accounts c !! i = Some (pk, a).
Proof.
  unfold names, accounts_of. rewrite !list_lookup_fmap. destruct (ic_accounts c !! i) as [[]|]; cbn; [|done].
  by intros [= ->] [= ->].
Qed.

(** Every account keeps its owner. *)
Definition owners_kept (s s' : Accounts) : Prop :=
  forall i a', s' !! i = Some a' -> exists a, s !! i = Some a /\ owner a' = owner a.

Lemma owners_kept_refl s : owners_kept s s.
Proof. intros i a Ha. eauto. Qed.

Lemma owners_kept_insert s i a b : s !! i = Some a -> owner b = owner a -> owners_kept s (<[i := b]> s).
Proof.
  intros Ha Ho j a'. intros [(<- & <- & _)|(_ & Hj)]%list_lookup_insert_Some; eauto.
Qed.

Lemma owners_kept_trans s1 s2 s3 : owners_kept s1 s2 -> owners_kept s2 s3 -> owners_kept s1 s3.
Proof. intros H1 H2 i a (b & Hb & ->)%H2. destruct (H1 _ _ Hb) as (a' & Ha' & ->). eauto. Qed.

Lemma moved_owners i j n s s' : moved i j n s s' -> owners_kept s s'.
Proof.
  intros [[_ ->]|(a & b & Ha & _ & _ & Hb & ->)]; [apply owners_kept_refl|].
  apply (owners_kept_trans _ (<[i := set_lamports (lamports a - n) a]> s));
    [by apply (owners_kept_insert s i a)|by apply (owners_kept_insert _ j b)].
Qed.

Lemma moved_length i j n s s' : moved i j n s s' -> length s' = length s.
Proof. intros [[_ ->]|(a & b & _ & _ & _ & _ & ->)]; [done|]. by rewrite !length_insert. Qed.

(** An account keeps everything but its lamports, and one with data is not debited. *)
Lemma moved_lookup i j n s s' k a : moved i j n s s' -> 0 <= n -> s !! k = Some a ->
  exists a', s' !! k = Some a' /\ a' = set_lamports (lamports a') a /\
    (data a ≠ [] -> lamports a <= lamports a') /\ (k ≠ i -> lamports a <= lamports a').
Proof.
  intros [[_ ->]|(x & b & Hx & Hd & _ & Hb & ->)] Hn Ha; [exists a; split_and!; [done|by destruct a|done|done]|].
  pose proof (lookup_lt_Some _ _ _ Ha). destruct (decide (k = i)) as [->|Hki].
  - assert (x = a) as -> by congruence. destruct (decide (i = j)) as [<-|Hij].
    + rewrite list_lookup_insert_eq in Hb by done. simplify_eq. exists (set_lamports (lamports a - n + n) a).
      rewrite list_lookup_insert_eq by (by rewrite length_insert). cbn. split_and!; [done|done|lia|done].
    + exists (set_lamports (lamports a - n) a). rewrite list_lookup_insert_ne, list_lookup_insert_eq by done.
      split_and!; [done|done|done|done].
  - rewrite list_lookup_insert_Some in Hb.
    destruct (decide (k = j)) as [->|Hkj].
    + destruct Hb as [[]|[_ Hb]]; [done|]. assert (b = a) as -> by congruence.
      exists (set_lamports (lamports a + n) a). rewrite list_lookup_insert_eq by (by rewrite length_insert).
      cbn. split_and!; [done|done|lia|lia].
    + exists a. rewrite !list_lookup_insert_ne by done. split_and!; [done|by destruct a|done|done].
Qed.

(** The accounts of a well-formed context after a call. *)
Lemma runtime_wf_same c c' : same_frame c c' -> runtime_wf c ->
  (forall i a a', get_account c system_program_id = Some (i, a) -> accounts_of c' !! i = Some a' ->
     owner a' = native_loader_id) -> runtime_wf c'.
Proof.
  intros [Hst Hk Hs Hf] Hwf Hsys. split; rewrite ?Hst, ?Hk; try apply Hwf. intros i a' Ha'.
  destruct (get_account_same c c' _ _ _ Hk Ha') as [a Ha]. apply (Hsys i a); [done|].
  apply get_account_Some in Ha'. unfold accounts_of. by rewrite list_lookup_fmap, Ha'.
Qed.

Lemma get_account_lookup c pk i a : get_account c pk = Some (i, a) -> names c pk i /\ accounts_of c !! i = Some a.
Proof. intros Ha%get_account_Some. unfold names, accounts_of. by rewrite !list_lookup_fmap, Ha. Qed.

Lemma runtime_wf_owners c c' : same_frame c c' -> runtime_wf c -> owners_kept (accounts_of c) (accounts_of c') ->
  runtime_wf c'.
Proof.
  intros Hs Hwf Ho. apply (runtime_wf_same c); [done|done|]. intros i a a' Hi (b & Hb & ->)%Ho.
  apply get_account_lookup in Hi as Hl. destruct Hl as [_ Hl]. assert (b = a) as -> by congruence. by eapply wf_system.
Qed.

(** The system program's account is not one the system program owns. *)
Lemma runtime_wf_replaced c c' i a b s : same_frame c c' -> runtime_wf c -> accounts_of c !! i = Some a ->
  owner a = system_program_id -> s = <[i := b]> (accounts_of c) -> owners_kept s (accounts_of c') -> runtime_wf c'.
Proof.
  intros Hs Hwf Ha Ho -> Hk. apply (runtime_wf_same c); [done|done|]. intros j x a' Hj (y & Hy & ->)%Hk.
  pose proof (wf_system _ Hwf _ _ Hj) as Hn. apply get_account_lookup in Hj as [_ Hl].
  apply list_lookup_insert_Some in Hy as [(<- & _ & _)|(_ & Hy)]; [|congruence].
  assert (x = a) as -> by congruence. rewrite Ho in Hn. done.
Qed.

Lemma runtime_wf_insert c c' i a b : same_frame c c' -> runtime_wf c -> accounts_of c !! i = Some a ->
  owner a = system_program_id -> accounts_of c' = <[i := b]> (accounts_of c) -> runtime_wf c'.
Proof. intros Hs Hwf Ha Ho Hc'. by eapply (runtime_wf_replaced c c' i a b (accounts_of c')), owners_kept_refl. Qed.

(** Merges the hypotheses that read one entry of a list twice. *)
Ltac same_lookup :=
  repeat match goal with
  | H1 : ?l !! ?i = Some ?a, H2 : ?l !! ?i = Some ?b |- _ =>
      tryif constr_eq a b then clear H2 else (rewrite H1 in H2; (injection H2 as <- || (injection H2 as H2; subst)))
  end.

Lemma transfer_moved ctx from to n s u s' : transfer ctx from to n s = (Ok u, s') ->
  moved (account from) (account to) n s s' /\ (n = 0 \/ is_signer from = true).
Proof.
  unfold transfer. destruct (negb (active ctx system_transfer_zero_check) && (n =? 0)) eqn:Hz.
  - apply andb_true_iff in Hz as [_ ->%Z.eqb_eq]. intros Hr. ok_inv. split; left; done.
  - unfold transfer_verified. intros Hr. acct_inv. same_lookup.
    match goal with Hx : true = _ |- _ => symmetry in Hx end. ok_inv. split.
    + right. eexists _, _. by split_and!.
    + right. match goal with Hx : is_Some (signer_key from) |- _ => destruct Hx as [? Hx] end.
      unfold signer_key in *. by destruct (is_signer from).
Qed.

Lemma allocate_and_assign_eq ctx addr space o signers a u a' :
  allocate_and_assign ctx addr space o signers a = (Ok u, a') ->
  data a = [] /\ owner a = system_program_id /\ a' = set_owner o (set_data (replicate (Z.to_nat space) 0) a).
Proof.
  unfold allocate_and_assign, allocate. intros Hr. ok_inv.
  match goal with Hx : _ || _ = false |- _ => apply orb_false_iff in Hx as [? ?] end. ok_inv.
  match goal with Hx : (_ =? _) = true |- _ => apply Z.eqb_eq in Hx end. split_and!; [done|done|].
  unfold assign in *. ok_inv. destruct (Z.eqb_spec (owner (set_data (replicate (Z.to_nat space) 0) a)) o) as [<-|];
    ok_inv; done.
Qed.

Lemma with_allocate_eq k addr space signers s u s' : with_account k (allocate addr space signers) s = (Ok u, s') ->
  exists a, s !! account k = Some a /\ data a = [] /\ owner a = system_program_id /\
    s' = <[account k := set_data (replicate (Z.to_nat space) 0) a]> s.
Proof.
  intros (a & a' & Ha & Hm & ->)%with_account_Ok. exists a. unfold allocate in Hm. ok_inv.
  match goal with Hx : _ || _ = false |- _ => apply orb_false_iff in Hx as [? ?] end. ok_inv.
  match goal with Hx : (_ =? _) = true |- _ => apply Z.eqb_eq in Hx end. done.
Qed.

Lemma with_assign_eq ctx k addr o signers s u s' : with_account k (assign ctx addr o signers) s = (Ok u, s') ->
  exists a, s !! account k = Some a /\ s' = <[account k := set_owner o a]> s.
Proof.
  intros (a & a' & Ha & Hm & ->)%with_account_Ok. exists a. split; [done|]. f_equal. unfold assign in Hm. ok_inv.
  destruct (Z.eqb_spec (owner a) o) as [<-|]; ok_inv; [by destruct a|done].
Qed.

Section effects.
Context (sha256 : list Z -> Hash).
Context `{Bincode NonceVersions} `{BincodeVecLaws SystemInstruction} `{Bincode RecentBlockhashes} `{Bincode Rent}.
Context (invoke : Invoke) {Hcalls : SystemCalls sha256 invoke}.

Lemma system_ix_call (si : SystemInstruction) metas ix signers c c' : runtime_wf c -> (length metas <= 100)%nat ->
  new_with_bincode (E := InstructionError) system_program_id si metas = Ok ix -> invoke ix signers c = (Ok tt, c') ->
  exists ctx pk keyed, pc_keyed_accounts ctx = pk :: keyed /\ Forall2 (callee_account c signers) metas keyed /\
    system_dispatch sha256 ctx 1 (get_signers keyed) si (accounts_of c) = (Ok tt, accounts_of c') /\ same_frame c c'.
Proof.
  intros Hwf Hl Hix Hi. unfold new_with_bincode in Hix. destruct (bincode_serialize si) as [d| |] eqn:Hd; simplify_eq.
  apply (system_calls sha256) in Hi as (si' & Hsi & Hcall); [|done..]. unfold limited_deserialize in Hsi. ok_inv. cbn in *.
  by rewrite (serialize_decodes _ _ _ _ Hd Hsi) in Hcall.
Qed.

Lemma callee_account_names c signers pk w k : runtime_wf c -> callee_account c signers (AccountMeta_new pk w) k ->
  once c pk (account k) /\ key k = pk /\ (is_signer k = true -> caller_signs c signers pk).
Proof.
  intros Hwf (Hk & Hn & Hw & Hs). cbn in Hk, Hw. subst pk. split_and!; [|done|done].
  destruct (Hw eq_refl) as (caller & ka & Hcaller & Hka & Hkey & Hwr). unfold get_instruction_keyed_accounts in Hcaller.
  destruct (invoke_stack c) as [|f fs] eqn:Hst; [done|]. cbn in Hcaller. unfold slice in Hcaller. case_decide; [|done].
  injection Hcaller as <-. assert (ka ∈ sf_keyed_accounts f) as Hin by (eapply subseteq_take, subseteq_drop; exact Hka).
  assert (forall j, names c (key k) j -> j = account ka) as Hu.
  { intros j Hj. rewrite <- Hkey in Hj. eapply wf_once; [done| |done|done|done]. by rewrite Hst. }
  intros j. split; [|by intros ->]. intros Hj%Hu. rewrite Hj. symmetry. by apply Hu.
Qed.

Lemma transfer_call from to n ix signers c c' : runtime_wf c ->
  transfer_ix (E := InstructionError) from to n = Ok ix -> invoke ix signers c = (Ok tt, c') ->
  exists i j, once c from i /\ once c to j /\ moved i j n (accounts_of c) (accounts_of c') /\
    (n = 0 \/ caller_signs c signers from) /\ same_frame c c' /\ runtime_wf c'.
Proof.
  intros Hwf Hix Hi. eapply system_ix_call in Hi as (ctx & pk & keyed & Hctx & Hk & Hd & Hsame); [|done| |done]; [|cbn; lia].
  apply Forall2_cons_inv_l in Hk as (kf & keyed' & Hf & Hk & ->). apply Forall2_cons_inv_l in Hk as (kt & rest & Ht & _ & ->).
  cbn [system_dispatch] in Hd. rewrite Hctx in Hd. read_inv. cbn in *. simplify_eq.
  apply callee_account_names in Hf as (Hf & _ & Hs), Ht as (Ht & _ & _); [|done..].
  match goal with Hx : transfer _ _ _ _ _ = _ |- _ => apply transfer_moved in Hx as [Hm Hsig] end.
  eexists _, _. split_and!; [exact Hf|exact Ht|done|tauto|done|].
  eapply runtime_wf_owners; [done|done|]. by eapply moved_owners.
Qed.

Lemma allocate_call pk space ix signers c c' : runtime_wf c ->
  allocate_ix (E := InstructionError) pk space = Ok ix -> invoke ix signers c = (Ok tt, c') ->
  exists i a, once c pk i /\ accounts_of c !! i = Some a /\ data a = [] /\ owner a = system_program_id /\
    accounts_of c' = <[i := set_data (replicate (Z.to_nat space) 0) a]> (accounts_of c) /\ same_frame c c' /\ runtime_wf c'.
Proof.
  intros Hwf Hix Hi. eapply system_ix_call in Hi as (ctx & pk' & keyed & Hctx & Hk & Hd & Hsame); [|done| |done]; [|cbn; lia].
  apply Forall2_cons_inv_l in Hk as (k & rest & Hk & _ & ->).
  cbn [system_dispatch] in Hd. rewrite Hctx in Hd. read_inv. cbn in *. simplify_eq.
  apply callee_account_names in Hk as (Hk & _ & _); [|done].
  match goal with Hx : with_account _ _ _ = _ |- _ => apply with_allocate_eq in Hx as (a & Ha & Hda & Hoa & Hc') end.
  exists (account x), a. split_and!; [done..|]. by eapply runtime_wf_insert.
Qed.

Lemma assign_call pk o ix signers c c' : runtime_wf c ->
  assign_ix (E := InstructionError) pk o = Ok ix -> invoke ix signers c = (Ok tt, c') ->
  exists i a, once c pk i /\ accounts_of c !! i = Some a /\
    accounts_of c' = <[i := set_owner o a]> (accounts_of c) /\ same_frame c c' /\
    (owner a = system_program_id -> runtime_wf c').
Proof.
  intros Hwf Hix Hi. eapply system_ix_call in Hi as (ctx & pk' & keyed & Hctx & Hk & Hd & Hsame); [|done| |done]; [|cbn; lia].
  apply Forall2_cons_inv_l in Hk as (k & rest & Hk & _ & ->).
  cbn [system_dispatch] in Hd. rewrite Hctx in Hd. read_inv. cbn in *. simplify_eq.
  apply callee_account_names in Hk as (Hk & _ & _); [|done].
  match goal with Hx : with_account _ _ _ = _ |- _ => apply with_assign_eq in Hx as (a & Ha & Hc') end.
  exists (account x), a. split_and!; [done..|]. intros Ho. by eapply runtime_wf_insert.
Qed.

Lemma create_account_call from to n space o ix extra signers c c' : runtime_wf c ->
  create_account_ix (E := InstructionError) from to n space o = Ok ix -> (length extra <= 50)%nat ->
  invoke (mkInstruction (ix_program_id ix) (ix_accounts ix ++ extra) (ix_data ix)) signers c = (Ok tt, c') ->
  exists i j a, once c from i /\ once c to j /\ accounts_of c !! j = Some a /\ lamports a <= 0 /\ data a = [] /\
    owner a = system_program_id /\
    moved i j n (<[j := set_owner o (set_data (replicate (Z.to_nat space) 0) a)]> (accounts_of c)) (accounts_of c') /\
    (n = 0 \/ caller_signs c signers from) /\ same_frame c c' /\ runtime_wf c'.
Proof.
  intros Hwf Hix He Hi. unfold create_account_ix, new_with_bincode in Hix.
  destruct (bincode_serialize (CreateAccount n space o)) as [d| |] eqn:Hd; simplify_eq. cbn [ix_program_id ix_accounts ix_data] in Hi.
  eapply (system_ix_call (CreateAccount n space o) ([AccountMeta_new from true; AccountMeta_new to true] ++ extra)) in Hi as (ctx & pk & keyed & Hctx & Hk & Hdis & Hsame);
    [|done|rewrite length_app; cbn; lia|unfold new_with_bincode; by rewrite Hd].
  cbn [app] in Hk. apply Forall2_cons_inv_l in Hk as (kf & keyed' & Hf & Hk & ->).
  apply Forall2_cons_inv_l in Hk as (kt & rest & Ht & _ & ->).
  cbn [system_dispatch] in Hdis. rewrite Hctx in Hdis. read_inv. cbn in *. simplify_eq.
  apply callee_account_names in Hf as (Hf & _ & Hs), Ht as (Ht & _ & _); [|done..].
  match goal with Hx : create_account _ _ _ _ _ _ _ _ _ = _ |- _ => rename Hx into Hc end.
  unfold create_account in Hc. apply SE_bind_Ok in Hc as ([] & s1 & Hw & Htr).
  apply with_account_Ok in Hw as (a & a' & Ha & Hm & ->). apply transfer_moved in Htr as [Hmv Hsig]. ok_inv.
  match goal with Hx : (0 <? _) = false |- _ => apply Z.ltb_ge in Hx end.
  match goal with Hx : allocate_and_assign _ _ _ _ _ _ = _ |- _ => apply allocate_and_assign_eq in Hx as (Hda & Hoa & ->) end.
  eexists _, _, a. split_and!; [exact Hf|exact Ht|done..|tauto|done|].
  eapply runtime_wf_replaced; [done|done|exact Ha|done|reflexivity|]. by eapply moved_owners.
Qed.
End effects.

(** ** The frame of a program *)

(** A keyed account of the list signed with the key. *)
Definition keyed_signed (l : list KeyedAccount) (pk : Pubkey) : Prop :=
  exists k, k ∈ l /\ is_signer k = true /\ key k = pk.

Lemma signer_key_keyed l k : k ∈ l -> is_Some (signer_key k) -> keyed_signed l (key k).
Proof. unfold signer_key. intros Hk [x Hx]. exists k. by destruct (is_signer k). Qed.

Lemma keyed_names c ctx k : runtime_wf c -> program_context c = Ok ctx -> k ∈ pc_keyed_accounts ctx ->
  names c (key k) (account k).
Proof.
  intros Hwf Hp Hk. unfold program_context, get_keyed_accounts in Hp. ok_inv. cbn in Hk.
  eapply names_frame; [done|done|]. unfold slice in *. case_decide; [|done]. ok_inv.
  eapply subseteq_take, subseteq_drop. exact Hk.
Qed.

Lemma program_context_same c c' ctx : same_frame c c' -> program_context c = Ok ctx ->
  exists ctx', program_context c' = Ok ctx' /\ pc_keyed_accounts ctx' = pc_keyed_accounts ctx /\
    pc_sysvar_cache ctx' = pc_sysvar_cache ctx.
Proof.
  intros [Hst _ Hsys _] Hp. unfold program_context, get_keyed_accounts in *. rewrite Hst. ok_inv.
  eexists. match goal with Hx : head _ = Some _ |- _ => rewrite Hx end. cbn.
  match goal with Hx : slice _ _ _ = Ok _ |- _ => rewrite Hx end. cbn. rewrite Hsys. done.
Qed.

(** Reading the accounts in the context leaves it as it is. *)
Lemma on_accounts_read {A} (m : AM A) c r c' : keeps_length m -> runtime_wf c -> on_accounts m c = (Ok r, c') ->
  (forall s', m (accounts_of c) = (Ok r, s') -> s' = accounts_of c) ->
  m (accounts_of c) = (Ok r, accounts_of c) /\ accounts_of c' = accounts_of c /\ same_frame c c' /\ runtime_wf c'.
Proof.
  intros Hl Hwf (Hm & Hs)%on_accounts_Ok Hr; [|done]. pose proof (Hr _ Hm) as Heq. rewrite Heq in Hm.
  split_and!; [done|done|done|]. eapply runtime_wf_owners; [done|done|]. rewrite Heq. apply owners_kept_refl.
Qed.

(** ** Concrete serializations *)

(** A type no value of which is read. *)
Definition no_codec {T} : Bincode T := {|
  bincode_deserialize _ := None;
  bincode_deserialize_limited _ _ := None;
  bincode_serialized_size _ := Err BincodeOther;
  bincode_serialize_into _ b := (Err BincodeOther, b);
|}.

Section table_vec.
Context {T : Type} `{EqDecision T} (table : list T).

Definition table_vec : BincodeVec T :=
  fun x => match table_index table x with Some i => Ok [Z.of_nat i] | None => Err BincodeOther end.

Lemma table_index_lookup x i : table_index table x = Some i -> table !! i = Some x.
Proof.
  unfold table_index. intros ([j y] & Hf & ->)%fmap_Some. by apply list_find_Some in Hf as (Hl & <- & _).
Qed.

Lemma table_vec_laws : @BincodeVecLaws T (table_codec table) table_vec.
Proof.
  intros x y d limit. unfold bincode_serialize, table_vec. destruct (table_index table x) as [i|] eqn:Hi; [|done].
  intros [= <-]. cbn. rewrite Nat2Z.id, (table_index_lookup _ _ Hi). congruence.
Qed.
End table_vec.

(** Programs that call nothing beyond the system program. *)
Definition no_native_loader : Program := fun _ _ _ => throw UnsupportedProgramId.
