(* ===== verification/LookupTable.v ===== *)
(** * The address lookup table program

    [programs/address-lookup-table/src/state.rs] and [processor.rs]: accounts that
    hold a list of addresses for messages to refer to, with the lookup that the
    bank performs ([Accounts::load_lookup_table_addresses]). The account holds the
    bincode encoding of its metadata in the first 56 bytes and 32 bytes for each
    address after them. *)
From Stdlib Require Import String.
From stdpp Require Import base numbers option list gmap.
From S2P Require Import Prelude Instruction Account EpochSchedule Float64 Rent Sysvar Message PreAccount.
From S2P Require Import ComputeBudget InvokeContext InvokeSpec Nonce System ProgramAddress SystemCall.

Definition address_lookup_table_id : Pubkey :=
  Eval vm_compute in pubkey_of "AddressLookupTab1e1111111111111111111111111".

Definition LOOKUP_TABLE_MAX_ADDRESSES : nat := 256.
Definition LOOKUP_TABLE_META_SIZE : nat := 56.
Definition PUBKEY_BYTES : nat := 32.

(** ** State *)

Record LookupTableMeta : Type := mkLookupTableMeta {
  deactivation_slot : Slot;
  last_extended_slot : Slot;
  last_extended_slot_start_index : Z;
  authority : option Pubkey;
  meta_padding : Z;
}.

Inductive ProgramState : Type :=
| StateUninitialized
| LookupTable (meta : LookupTableMeta).

Inductive LookupTableStatus : Type :=
| Activated
| Deactivating (remaining_blocks : Z)
| Deactivated.

Inductive AddressLookupError : Type :=
| LookupTableAccountNotFound
| LookupInvalidAccountOwner
| LookupInvalidAccountData
| InvalidLookupIndex.

Definition LookupTableMeta_default : LookupTableMeta := mkLookupTableMeta U64_MAX 0 0 None 0.

Definition LookupTableMeta_new (authority : Pubkey) : LookupTableMeta :=
  mkLookupTableMeta (deactivation_slot LookupTableMeta_default) (last_extended_slot LookupTableMeta_default)
    (last_extended_slot_start_index LookupTableMeta_default) (Some authority) (meta_padding LookupTableMeta_default).

Definition meta_status (meta : LookupTableMeta) (current_slot : Slot) (slot_hashes : SlotHashes) : LookupTableStatus :=
  if deactivation_slot meta =? U64_MAX then Activated
  else if deactivation_slot meta =? current_slot
  then Deactivating (saturating_add64 (Z.of_nat SLOT_HASHES_MAX_ENTRIES) 1)
  else
    match SlotHashes_position (deactivation_slot meta) slot_hashes with
    | Some slot_hash_position =>
        Deactivating (saturating_sub64 (Z.of_nat SLOT_HASHES_MAX_ENTRIES) (Z.of_nat slot_hash_position))
    | None => Deactivated
    end.

Definition meta_is_active (meta : LookupTableMeta) (current_slot : Slot) (slot_hashes : SlotHashes) : bool :=
  match meta_status meta current_slot slot_hashes with
  | Activated => true
  | Deactivating _ => true
  | Deactivated => false
  end.

Record AddressLookupTable : Type := mkAddressLookupTable {
  table_meta : LookupTableMeta;
  addresses : list Pubkey;
}.

Definition get_active_addresses_len (self : AddressLookupTable) (current_slot : Slot) (slot_hashes : SlotHashes)
  : outcome AddressLookupError nat :=
  if negb (meta_is_active (table_meta self) current_slot slot_hashes) then Err LookupTableAccountNotFound
  else Ok (if last_extended_slot (table_meta self) <? current_slot then length (addresses self)
           else Z.to_nat (last_extended_slot_start_index (table_meta self))).

Definition table_lookup (self : AddressLookupTable) (current_slot : Slot) (indexes : list Z) (slot_hashes : SlotHashes)
  : outcome AddressLookupError (list Pubkey) :=
  active_addresses_len ← get_active_addresses_len self current_slot slot_hashes;
  active_addresses ← slice (addresses self) 0 active_addresses_len;
  ok_or InvalidLookupIndex (mapM (fun idx => active_addresses !! Z.to_nat idx) indexes).

(** The key that 32 bytes spell. *)
Definition pubkey_of_bytes (bytes : list Z) : Pubkey := foldl (fun acc b => acc * 256 + b) 0 bytes.

(** [bytemuck::try_cast_slice] to a slice of [Pubkey]s, which are byte arrays:
    the length must be a multiple of theirs. *)
Fixpoint cast_pubkeys (n : nat) (bytes : list Z) : list Pubkey :=
  match n with
  | O => []
  | S n => pubkey_of_bytes (take PUBKEY_BYTES bytes) :: cast_pubkeys n (drop PUBKEY_BYTES bytes)
  end.

Definition try_cast_pubkeys (bytes : list Z) : option (list Pubkey) :=
  if decide (length bytes mod PUBKEY_BYTES = 0)%nat then Some (cast_pubkeys (length bytes / PUBKEY_BYTES) bytes)
  else None.

Definition checked_add_usize (a b : nat) : outcome InstructionError nat :=
  if Z.of_nat (a + b) <=? U64_MAX then Ok (a + b)%nat else Err ArithmeticOverflow.

Section table.
Context `{Bincode ProgramState}.

Definition overwrite_meta_data (lookup_table_meta : LookupTableMeta) : SE (list Z) InstructionError unit :=
  fun data =>
    if decide (length data < LOOKUP_TABLE_META_SIZE)%nat then (Err InvalidAccountData, data)
    else
      let '(r, meta_data) :=
        bincode_serialize_into (LookupTable lookup_table_meta) (replicate LOOKUP_TABLE_META_SIZE 0) in
      (map_err (fun _ => GenericError) r, meta_data ++ drop LOOKUP_TABLE_META_SIZE data).

Definition table_deserialize (data : list Z) : outcome InstructionError AddressLookupTable :=
  program_state ← ok_or InvalidAccountData (bincode_deserialize data);
  meta ← (match program_state with
          | LookupTable meta => Ok meta
          | StateUninitialized => Err UninitializedAccount
          end);
  if decide (length data < LOOKUP_TABLE_META_SIZE)%nat then Err InvalidAccountData
  else
    addresses ← ok_or InvalidAccountData (try_cast_pubkeys (drop LOOKUP_TABLE_META_SIZE data));
    Ok (mkAddressLookupTable meta addresses).

(** [Accounts::load_lookup_table_addresses]: [table_account] is what the accounts
    database returns for the key of the table. *)
Definition load_lookup_table_addresses (table_account : option AccountSharedData) (current_slot : Slot)
    (address_table_lookup : MessageAddressTableLookup) (slot_hashes : SlotHashes)
  : outcome AddressLookupError LoadedAddresses :=
  table_account ← ok_or LookupTableAccountNotFound table_account;
  if owner table_account =? address_lookup_table_id then
    lookup_table ← map_err (fun _ => LookupInvalidAccountData) (table_deserialize (data table_account));
    writable ← table_lookup lookup_table current_slot (writable_indexes address_table_lookup) slot_hashes;
    readonly ← table_lookup lookup_table current_slot (readonly_indexes address_table_lookup) slot_hashes;
    Ok (mkLoadedAddresses writable readonly)
  else Err LookupInvalidAccountOwner.
End table.

Inductive ProgramInstruction : Type :=
| CreateLookupTable (recent_slot : Slot) (bump_seed : Z)
| FreezeLookupTable
| ExtendLookupTable (new_addresses : list Pubkey)
| DeactivateLookupTable
| CloseLookupTable.

(** ** The processor *)

Definition set_authority (x : option Pubkey) (m : LookupTableMeta) : LookupTableMeta :=
  mkLookupTableMeta (deactivation_slot m) (last_extended_slot m) (last_extended_slot_start_index m) x (meta_padding m).
Definition set_deactivation_slot (x : Slot) (m : LookupTableMeta) : LookupTableMeta :=
  mkLookupTableMeta x (last_extended_slot m) (last_extended_slot_start_index m) (authority m) (meta_padding m).
Definition set_last_extended (slot : Slot) (start_index : Z) (m : LookupTableMeta) : LookupTableMeta :=
  mkLookupTableMeta (deactivation_slot m) slot start_index (authority m) (meta_padding m).

Section processor.
Context (sha256 : list Z -> Hash) (bytes_are_curve_point : Hash -> bool).
Context `{Bincode ProgramState} `{Bincode ProgramInstruction} `{BincodeVec SystemInstruction}.

(** The keyed account at [first_instruction_account + n]. *)
Definition account_after (keyed_accounts : list KeyedAccount) (first_instruction_account n : nat) : AM KeyedAccount :=
  index ← lift (checked_add_usize first_instruction_account n);
  keyed_account_at_index keyed_accounts index.

(** [overwrite_meta_data] on the data of the account. *)
Definition overwrite_account_meta (k : KeyedAccount) (meta : LookupTableMeta) : AM unit :=
  with_account k (fun a => let '(r, d) := overwrite_meta_data meta (data a) in (r, set_data d a)).

(** The checks that freezing, extending and deactivating share, in the order of
    the code: the table's owner, then the signature. *)
Definition table_and_authority (keyed_accounts : list KeyedAccount) (first_instruction_account : nat)
  : AM (KeyedAccount * KeyedAccount) :=
  lookup_table_account ← keyed_account_at_index keyed_accounts first_instruction_account;
  table_owner ← ka_owner lookup_table_account;
  _ ← ensure (table_owner =? address_lookup_table_id) InvalidAccountOwner;
  authority_account ← account_after keyed_accounts first_instruction_account 1;
  _ ← ensure (bool_decide (is_Some (signer_key authority_account))) MissingRequiredSignature;
  mret (lookup_table_account, authority_account).

Definition load_table (k : KeyedAccount) : AM AddressLookupTable :=
  a ← try_account_ref k; lift (table_deserialize (data a)).

Definition check_authority (lookup_table : AddressLookupTable) (authority_account : KeyedAccount) : AM unit :=
  _ ← ensure (bool_decide (is_Some (authority (table_meta lookup_table)))) Immutable;
  ensure (bool_decide (authority (table_meta lookup_table) = Some (unsigned_key authority_account))) IncorrectAuthority.

Definition freeze_lookup_table (ctx : ProgramContext) (first_instruction_account : nat) : AM unit :=
  accounts ← table_and_authority (pc_keyed_accounts ctx) first_instruction_account;
  let '(lookup_table_account, authority_account) := accounts in
  lookup_table ← load_table lookup_table_account;
  _ ← check_authority lookup_table authority_account;
  _ ← ensure (deactivation_slot (table_meta lookup_table) =? U64_MAX) InvalidArgument;
  _ ← ensure (negb (bool_decide (addresses lookup_table = []))) InvalidInstructionData;
  overwrite_account_meta lookup_table_account (set_authority None (table_meta lookup_table)).

Definition deactivate_lookup_table (ctx : ProgramContext) (first_instruction_account : nat) : AM unit :=
  accounts ← table_and_authority (pc_keyed_accounts ctx) first_instruction_account;
  let '(lookup_table_account, authority_account) := accounts in
  lookup_table ← load_table lookup_table_account;
  _ ← check_authority lookup_table authority_account;
  _ ← ensure (deactivation_slot (table_meta lookup_table) =? U64_MAX) InvalidArgument;
  clock ← lift (get_clock (pc_sysvar_cache ctx));
  overwrite_account_meta lookup_table_account (set_deactivation_slot (clock_slot clock) (table_meta lookup_table)).

Definition close_lookup_table (ctx : ProgramContext) (first_instruction_account : nat) : AM unit :=
  accounts ← table_and_authority (pc_keyed_accounts ctx) first_instruction_account;
  let '(lookup_table_account, authority_account) := accounts in
  recipient_account ← account_after (pc_keyed_accounts ctx) first_instruction_account 2;
  _ ← ensure (negb (unsigned_key recipient_account =? unsigned_key lookup_table_account)) InvalidArgument;
  lookup_table ← load_table lookup_table_account;
  _ ← check_authority lookup_table authority_account;
  clock ← lift (get_clock (pc_sysvar_cache ctx));
  slot_hashes ← lift (get_slot_hashes (pc_sysvar_cache ctx));
  _ ← (match meta_status (table_meta lookup_table) (clock_slot clock) slot_hashes with
       | Activated => throw InvalidArgument
       | Deactivating _ => throw InvalidArgument
       | Deactivated => mret tt
       end);
  withdrawn_lamports ← ka_lamports lookup_table_account;
  _ ← lamports_op recipient_account (checked_add_lamports withdrawn_lamports);
  with_account lookup_table_account (modify (fun a => set_lamports 0 (set_data [] a))).

(** The part of [extend_lookup_table] before the transfer; returns the data
    length of the table, the table account and the payer's key. *)
Definition extend_table_data (ctx : ProgramContext) (first_instruction_account : nat) (new_addresses : list Pubkey)
  : AM (nat * KeyedAccount * Pubkey) :=
  accounts ← table_and_authority (pc_keyed_accounts ctx) first_instruction_account;
  let '(lookup_table_account, authority_account) := accounts in
  payer_account ← account_after (pc_keyed_accounts ctx) first_instruction_account 2;
  payer_key ← lift (ok_or MissingRequiredSignature (signer_key payer_account));
  lookup_table ← load_table lookup_table_account;
  _ ← check_authority lookup_table authority_account;
  _ ← ensure (deactivation_slot (table_meta lookup_table) =? U64_MAX) InvalidArgument;
  _ ← ensure (bool_decide (length (addresses lookup_table) < LOOKUP_TABLE_MAX_ADDRESSES)%nat) InvalidArgument;
  _ ← ensure (negb (bool_decide (new_addresses = []))) InvalidInstructionData;
  let new_table_addresses_len := (length (addresses lookup_table) + length new_addresses)%nat in
  _ ← ensure (bool_decide (new_table_addresses_len <= LOOKUP_TABLE_MAX_ADDRESSES)%nat) InvalidInstructionData;
  clock ← lift (get_clock (pc_sysvar_cache ctx));
  meta ← (if negb (clock_slot clock =? last_extended_slot (table_meta lookup_table)) then
            let start_index := Z.of_nat (length (addresses lookup_table)) in
            _ ← ensure (start_index <=? U8_MAX) InvalidAccountData;
            mret (set_last_extended (clock_slot clock) start_index (table_meta lookup_table))
          else mret (table_meta lookup_table));
  new_table_data_len ← lift (checked_add_usize LOOKUP_TABLE_META_SIZE (new_table_addresses_len * PUBKEY_BYTES));
  _ ← overwrite_account_meta lookup_table_account meta;
  _ ← with_account lookup_table_account
        (modify (fun a => set_data (data a ++ mjoin (hash_bytes <$> new_addresses)) a));
  mret (new_table_data_len, lookup_table_account, payer_key).

Section invoking.
Context (invoke : Invoke).

(** Pays the table account up to what its size requires. *)
Definition fund_table (rent : Rent) (data_len : nat) (table : KeyedAccount) (payer_key : Pubkey) : IM unit :=
  table_lamports ← on_accounts (ka_lamports table);
  let required_lamports :=
    saturating_sub64 (Z.max (minimum_balance rent (Z.of_nat data_len)) 1) table_lamports in
  if 0 <? required_lamports then
    ix ← lift (transfer_ix payer_key (unsigned_key table) required_lamports);
    invoke ix [payer_key]
  else mret tt.

Definition extend_lookup_table (first_instruction_account : nat) (new_addresses : list Pubkey) : IM unit :=
  c ← get;
  ctx ← lift (program_context c);
  extended ← on_accounts (extend_table_data ctx first_instruction_account new_addresses);
  let '(new_table_data_len, lookup_table_account, payer_key) := extended in
  rent ← lift (get_rent (pc_sysvar_cache ctx));
  fund_table rent new_table_data_len lookup_table_account payer_key.

(** The checks of [create_lookup_table]; returns the table account, its
    authority and the payer. *)
Definition check_new_table (ctx : ProgramContext) (first_instruction_account : nat) (untrusted_recent_slot : Slot)
    (bump_seed : Z) : AM (KeyedAccount * Pubkey * Pubkey) :=
  lookup_table_account ← keyed_account_at_index (pc_keyed_accounts ctx) first_instruction_account;
  data_len ← ka_data_len lookup_table_account;
  _ ← ensure (negb (0 <? data_len)) AccountAlreadyInitialized;
  authority_account ← account_after (pc_keyed_accounts ctx) first_instruction_account 1;
  authority_key ← lift (ok_or MissingRequiredSignature (signer_key authority_account));
  payer_account ← account_after (pc_keyed_accounts ctx) first_instruction_account 2;
  payer_key ← lift (ok_or MissingRequiredSignature (signer_key payer_account));
  slot_hashes ← lift (get_slot_hashes (pc_sysvar_cache ctx));
  _ ← ensure (bool_decide (is_Some (SlotHashes_get untrusted_recent_slot slot_hashes))) InvalidInstructionData;
  derived_table_key ← lift (pubkey_err (create_program_address sha256 bytes_are_curve_point
    [hash_bytes authority_key; to_le_bytes untrusted_recent_slot; [bump_seed]] address_lookup_table_id));
  _ ← ensure (unsigned_key lookup_table_account =? derived_table_key) InvalidArgument;
  mret (lookup_table_account, authority_key, payer_key).

Definition create_lookup_table (first_instruction_account : nat) (untrusted_recent_slot : Slot) (bump_seed : Z)
  : IM unit :=
  c ← get;
  ctx ← lift (program_context c);
  checked ← on_accounts (check_new_table ctx first_instruction_account untrusted_recent_slot bump_seed);
  let '(lookup_table_account, authority_key, payer_key) := checked in
  let table_key := unsigned_key lookup_table_account in
  rent ← lift (get_rent (pc_sysvar_cache ctx));
  _ ← fund_table rent LOOKUP_TABLE_META_SIZE lookup_table_account payer_key;
  ix ← lift (allocate_ix table_key (Z.of_nat LOOKUP_TABLE_META_SIZE));
  _ ← invoke ix [table_key];
  ix ← lift (assign_ix table_key address_lookup_table_id);
  _ ← invoke ix [table_key];
  c ← get;
  ctx ← lift (program_context c);
  on_accounts
    (lookup_table_account ← keyed_account_at_index (pc_keyed_accounts ctx) first_instruction_account;
     ka_set_state lookup_table_account (LookupTable (LookupTableMeta_new authority_key))).

Definition lookup_table_process_instruction (first_instruction_account : nat) (instruction_data : list Z) : IM unit :=
  instruction ← lift (limited_deserialize instruction_data PACKET_DATA_SIZE);
  match instruction with
  | CreateLookupTable recent_slot bump_seed => create_lookup_table first_instruction_account recent_slot bump_seed
  | FreezeLookupTable => builtin (fun ctx first _ => freeze_lookup_table ctx first) first_instruction_account []
  | ExtendLookupTable new_addresses => extend_lookup_table first_instruction_account new_addresses
  | DeactivateLookupTable =>
      builtin (fun ctx first _ => deactivate_lookup_table ctx first) first_instruction_account []
  | CloseLookupTable => builtin (fun ctx first _ => close_lookup_table ctx first) first_instruction_account []
  end.
End invoking.

Definition lookup_table_program : Program := lookup_table_process_instruction.
End processor.
