(* ===== verification/LookupTableSpec.v ===== *)
(** * Properties of the address lookup table program

    What an instruction of the program can do to an account: the steps of a
    table's life, who authorizes them, the stability of lookups within a slot,
    and that a table is never created a second time. *)
From stdpp Require Import base numbers option list gmap sorting.
From S2P Require Import Prelude Instruction Account EpochSchedule Float64 Rent Sysvar Message PreAccount.
From S2P Require Import ComputeBudget InvokeContext InvokeSpec Nonce System ProgramAddress SystemCall LookupTable.

(** ** Addresses as bytes *)

Definition valid_key (pk : Pubkey) : Prop := 0 <= pk < 256 ^ 32.

Definition bytes_be (n : nat) (h : Z) : list Z := (fun i => (h / 256 ^ Z.of_nat (n - 1 - i)) mod 256) <$> seq 0 n.

Lemma bytes_be_S n h : bytes_be (S n) h = bytes_be n (h / 256) ++ [h mod 256].
Proof.
  unfold bytes_be. rewrite seq_S, fmap_app. cbn [fmap list_fmap Nat.add]. f_equal.
  - apply list_fmap_ext. intros i x Hi. apply lookup_seq in Hi as [-> Hi].
    rewrite Z.div_div by (try apply Z.pow_pos_nonneg; lia). f_equal. f_equal.
    rewrite <- (Z.pow_succ_r 256) by lia. f_equal. lia.
  - do 2 f_equal. replace (S n - 1 - n)%nat with 0%nat by lia. by rewrite Z.div_1_r.
Qed.

Lemma pubkey_of_bytes_be n h : 0 <= h -> pubkey_of_bytes (bytes_be n h) = h mod 256 ^ Z.of_nat n.
Proof.
  unfold pubkey_of_bytes. revert h. induction n as [|n IH]; intros h Hh; [by rewrite Z.mod_1_r|].
  rewrite bytes_be_S, foldl_app, IH by (by apply Z.div_pos). cbn [foldl].
  rewrite Nat2Z.inj_succ, Z.pow_succ_r by lia. rewrite (Z.rem_mul_r h 256) by (try apply Z.pow_pos_nonneg; lia). lia.
Qed.

Lemma key_bytes_length h : length (hash_bytes h) = PUBKEY_BYTES.
Proof. done. Qed.

Lemma pubkey_of_hash_bytes pk : valid_key pk -> pubkey_of_bytes (hash_bytes pk) = pk.
Proof.
  intros Hk. change (hash_bytes pk) with (bytes_be 32 pk). rewrite pubkey_of_bytes_be by apply Hk.
  apply Z.mod_small, Hk.
Qed.

Lemma cast_pubkeys_app n bytes keys : length bytes = (n * PUBKEY_BYTES)%nat -> Forall valid_key keys ->
  cast_pubkeys (n + length keys) (bytes ++ mjoin (hash_bytes <$> keys)) = cast_pubkeys n bytes ++ keys.
Proof.
  revert bytes. induction n as [|n IH]; intros bytes Hl Hk.
  - destruct bytes; [|done]. cbn [Nat.add app cast_pubkeys]. clear Hl. induction Hk as [|pk keys Hpk Hk IH]; [done|].
    cbn [length fmap list_fmap mjoin list_join cast_pubkeys]. rewrite take_app_length', drop_app_length' by done.
    f_equal; [by apply pubkey_of_hash_bytes|exact IH].
  - cbn [Nat.add cast_pubkeys app]. rewrite take_app_le, drop_app_le by lia. rewrite IH; [done| |done].
    rewrite length_drop. lia.
Qed.

Lemma mjoin_hash_bytes_length keys : length (mjoin (hash_bytes <$> keys)) = (length keys * PUBKEY_BYTES)%nat.
Proof.
  induction keys as [|k keys IH]; [done|]. change (mjoin (hash_bytes <$> k :: keys)) with (hash_bytes k ++ mjoin (hash_bytes <$> keys)).
  rewrite length_app, IH, key_bytes_length. cbn [length]. lia.
Qed.

(** Appending the bytes of addresses appends the addresses. *)
Lemma try_cast_pubkeys_app bytes old keys : try_cast_pubkeys bytes = Some old -> Forall valid_key keys ->
  try_cast_pubkeys (bytes ++ mjoin (hash_bytes <$> keys)) = Some (old ++ keys).
Proof.
  unfold try_cast_pubkeys. case_decide as Hm; [|done]. intros Hold Hk.
  assert (old = cast_pubkeys (length bytes / PUBKEY_BYTES) bytes) as -> by congruence. clear Hold.
  assert (length bytes = (length bytes / PUBKEY_BYTES * PUBKEY_BYTES)%nat) as Hl.
  { pose proof (Nat.div_mod (length bytes) PUBKEY_BYTES). unfold PUBKEY_BYTES in *. lia. }
  set (n := (length bytes / PUBKEY_BYTES)%nat) in *.
  rewrite length_app, mjoin_hash_bytes_length, Hl, <- Nat.mul_add_distr_r.
  rewrite decide_True by (by rewrite Nat.Div0.mod_mul). rewrite Nat.div_mul by done. by rewrite (cast_pubkeys_app n) by done.
Qed.

(** ** Tables in accounts *)

(** [bincode::deserialize] ignores the bytes after the value. *)
Class BincodeTrailing (T : Type) `{Bincode T} : Prop :=
  serialize_into_prefix : forall (x : T) b b' rest, bincode_serialize_into x b = (Ok tt, b') ->
    bincode_deserialize (b' ++ rest) = Some x.

Lemma table_codec_trailing {T} `{EqDecision T} (table : list T) : @BincodeTrailing T (table_codec table).
Proof.
  intros x b b' rest. unfold bincode_serialize_into, bincode_deserialize. cbn [table_codec].
  destruct (table_index table x) as [i|] eqn:Hi; [|done]. destruct b as [|y b]; [done|].
  intros [= <-]. cbn [app]. by rewrite Nat2Z.id, (table_index_lookup _ _ _ Hi).
Qed.

Section tables.
Context `{BincodeLaws ProgramState} `{!BincodeTrailing ProgramState}.

Lemma overwrite_meta_data_Ok meta d d' : overwrite_meta_data meta d = (Ok tt, d') ->
  (LOOKUP_TABLE_META_SIZE <= length d)%nat /\ exists head, length head = LOOKUP_TABLE_META_SIZE /\
    d' = head ++ drop LOOKUP_TABLE_META_SIZE d /\
    forall rest, bincode_deserialize (head ++ rest) = Some (LookupTable meta).
Proof.
  unfold overwrite_meta_data. case_decide as Hl; [done|].
  pose proof (serialize_into_length (LookupTable meta) (replicate LOOKUP_TABLE_META_SIZE 0)) as Hlen.
  destruct (bincode_serialize_into _ _) as [r head] eqn:He. intros [= Hr <-]. apply map_err_Ok in Hr as ->.
  cbn in Hlen. split; [lia|]. exists head. split_and!; [by rewrite Hlen|done|]. intros rest.
  by apply (serialize_into_prefix _ _ _ _ He).
Qed.

(** The table an account holds. *)
Definition table_of (a : AccountSharedData) : option AddressLookupTable :=
  if owner a =? address_lookup_table_id then ok (table_deserialize (data a)) else None.

Lemma table_of_Some a t : table_of a = Some t <-> owner a = address_lookup_table_id /\ table_deserialize (data a) = Ok t.
Proof.
  unfold table_of. destruct (Z.eqb_spec (owner a) address_lookup_table_id) as [Ho|Ho]; [|naive_solver].
  destruct (table_deserialize (data a)); cbn; naive_solver.
Qed.

Lemma table_deserialize_Ok d t : table_deserialize d = Ok t <->
  bincode_deserialize d = Some (LookupTable (table_meta t)) /\ (LOOKUP_TABLE_META_SIZE <= length d)%nat /\
  try_cast_pubkeys (drop LOOKUP_TABLE_META_SIZE d) = Some (addresses t).
Proof.
  unfold table_deserialize. split.
  - intros Hd. ok_inv. destruct x as [|meta]; ok_inv. case_decide; [done|]. ok_inv. split_and!; [done|lia|done].
  - intros (Hd & Hl & Hc). rewrite Hd. cbn [mbind outcome_bind ok_or]. rewrite decide_False by lia. rewrite Hc. by destruct t.
Qed.

Lemma table_data_nonempty d t : table_deserialize d = Ok t -> d ≠ [].
Proof. intros (_ & Hl & _)%table_deserialize_Ok ->. unfold LOOKUP_TABLE_META_SIZE in Hl. cbn in Hl. lia. Qed.

(** Overwriting the metadata and appending addresses. *)
Lemma overwritten_table meta t d d' new : table_deserialize d = Ok t -> overwrite_meta_data meta d = (Ok tt, d') ->
  Forall valid_key new ->
  table_deserialize (d' ++ mjoin (hash_bytes <$> new)) = Ok (mkAddressLookupTable meta (addresses t ++ new)).
Proof.
  intros (_ & Hl & Hc)%table_deserialize_Ok (_ & head & Hhead & -> & Hd)%overwrite_meta_data_Ok Hnew.
  apply table_deserialize_Ok. rewrite <- app_assoc. split_and!; [apply Hd|rewrite length_app; lia|].
  rewrite drop_app_length' by done. by apply try_cast_pubkeys_app.
Qed.

Lemma overwritten_table_meta meta t d d' : table_deserialize d = Ok t -> overwrite_meta_data meta d = (Ok tt, d') ->
  table_deserialize d' = Ok (mkAddressLookupTable meta (addresses t)).
Proof.
  intros Ht Ho. pose proof (overwritten_table meta t d d' [] Ht Ho) as Hr. cbn in Hr. rewrite !app_nil_r in Hr. auto.
Qed.
End tables.

(** ** The life of a table *)

Section life.
Context `{Bincode ProgramState}.
Context (now : Slot) (slot_hashes : SlotHashes) (signed : Pubkey -> Prop).

(** The authority of the table signed. *)
Definition authorized (t : AddressLookupTable) : Prop := exists pk, authority (table_meta t) = Some pk /\ signed pk.

(** The metadata of a table that is extended now. *)
Definition extended_meta (t : AddressLookupTable) : LookupTableMeta :=
  if now =? last_extended_slot (table_meta t) then table_meta t
  else set_last_extended now (Z.of_nat (length (addresses t))) (table_meta t).

(** What an instruction of the program may do to an account. *)
Inductive table_step (a a' : AccountSharedData) : Prop :=
| step_kept : a' = set_lamports (lamports a') a -> (data a ≠ [] -> lamports a <= lamports a') -> table_step a a'
| step_created pk : data a = [] -> signed pk -> owner a = system_program_id ->
    table_of a' = Some (mkAddressLookupTable (LookupTableMeta_new pk) []) -> 0 < lamports a' -> table_step a a'
| step_frozen t : table_of a = Some t -> authorized t -> deactivation_slot (table_meta t) = U64_MAX ->
    addresses t ≠ [] -> lamports a' = lamports a ->
    table_of a' = Some (mkAddressLookupTable (set_authority None (table_meta t)) (addresses t)) -> table_step a a'
| step_extended t new : table_of a = Some t -> authorized t -> deactivation_slot (table_meta t) = U64_MAX ->
    new ≠ [] -> (length (addresses t ++ new) <= LOOKUP_TABLE_MAX_ADDRESSES)%nat -> lamports a <= lamports a' ->
    table_of a' = Some (mkAddressLookupTable (extended_meta t) (addresses t ++ new)) -> table_step a a'
| step_deactivated t : table_of a = Some t -> authorized t -> deactivation_slot (table_meta t) = U64_MAX ->
    lamports a' = lamports a ->
    table_of a' = Some (mkAddressLookupTable (set_deactivation_slot now (table_meta t)) (addresses t)) ->
    table_step a a'
| step_closed t : table_of a = Some t -> authorized t ->
    meta_status (table_meta t) now slot_hashes = Deactivated ->
    data a' = [] -> lamports a' = 0 -> table_step a a'.

Lemma table_step_refl a : table_step a a.
Proof. apply step_kept; [by destruct a|done]. Qed.
End life.

(** ** The handlers on the accounts *)

Section handlers.
Context `{BincodeLaws ProgramState} `{!BincodeTrailing ProgramState}.
Context (ctx : ProgramContext) (clock : Clock) (slot_hashes : SlotHashes).
Context (Hclock : get_clock (pc_sysvar_cache ctx) = Ok clock).
Context (Hhashes : get_slot_hashes (pc_sysvar_cache ctx) = Ok slot_hashes).

Let keyed := pc_keyed_accounts ctx.
Let now := clock_slot clock.

Lemma account_after_Ok first n s k s' : account_after keyed first n s = (Ok k, s') -> s' = s /\ k ∈ keyed.
Proof.
  unfold account_after. intros Hr. read_inv. split; [done|]. by eapply list_elem_of_lookup_2.
Qed.

(** The handlers of an existing table start by loading it for its authority. *)
Lemma table_and_authority_Ok first s me auth s' : table_and_authority keyed first s = (Ok (me, auth), s') ->
  s' = s /\ keyed !! first = Some me /\ keyed_signed keyed (key auth) /\
  exists a, s !! account me = Some a /\ owner a = address_lookup_table_id.
Proof.
  unfold table_and_authority. intros Hr. read_inv.
  match goal with Hx : account_after _ _ _ _ = _ |- _ => apply account_after_Ok in Hx as [-> ?] end.
  match goal with Hx : (_ =? _) = true |- _ => apply Z.eqb_eq in Hx end. simplify_eq.
  split_and!; [done|done|by apply signer_key_keyed|eauto].
Qed.

Lemma check_authority_Ok t auth s u s' : check_authority t auth s = (Ok u, s') ->
  s' = s /\ authority (table_meta t) = Some (key auth).
Proof. unfold check_authority. intros Hr. ok_inv. done. Qed.

Lemma load_table_Ok k s t s' : load_table k s = (Ok t, s') ->
  s' = s /\ exists a, s !! account k = Some a /\ table_deserialize (data a) = Ok t.
Proof. unfold load_table. intros Hr. read_inv. eauto. Qed.

(** What the handlers have checked once the table is loaded. *)
Lemma table_loaded first s me auth s1 t s2 u s3 : table_and_authority keyed first s = (Ok (me, auth), s1) ->
  load_table me s1 = (Ok t, s2) -> check_authority t auth s2 = (Ok u, s3) ->
  s1 = s /\ s2 = s /\ s3 = s /\ keyed !! first = Some me /\ authorized (keyed_signed keyed) t /\
  exists a, s !! account me = Some a /\ table_of a = Some t /\ table_deserialize (data a) = Ok t /\
    owner a = address_lookup_table_id.
Proof.
  intros (-> & Hme & Hs & a & Ha & Ho)%table_and_authority_Ok (-> & a' & Ha' & Ht)%load_table_Ok
    (-> & Hauth)%check_authority_Ok. same_lookup. split_and!; [done..|by exists (key auth)|].
  exists a. split_and!; [done|by apply table_of_Some|done|done].
Qed.

Lemma overwrite_account_meta_Ok me meta s u s' : overwrite_account_meta me meta s = (Ok u, s') ->
  exists a d, s !! account me = Some a /\ overwrite_meta_data meta (data a) = (Ok tt, d) /\
    s' = <[account me := set_data d a]> s.
Proof.
  unfold overwrite_account_meta. intros (a & a' & Ha & Hm & ->)%with_account_Ok.
  destruct (overwrite_meta_data meta (data a)) as [r d] eqn:Ho. injection Hm as -> <-. destruct u. eauto 10.
Qed.

Lemma table_of_set_data a d t : owner a = address_lookup_table_id -> table_deserialize d = Ok t ->
  table_of (set_data d a) = Some t.
Proof. intros Ho Hd. by apply table_of_Some. Qed.

(** One account makes a step and the others stay. *)
Definition one_step (i : nat) (s s' : Accounts) : Prop :=
  exists a a', s !! i = Some a /\ s' = <[i := a']> s /\ table_step now slot_hashes (keyed_signed keyed) a a'.

Lemma one_step_all i s s' k a : one_step i s s' -> s !! k = Some a ->
  exists a', s' !! k = Some a' /\ table_step now slot_hashes (keyed_signed keyed) a a'.
Proof.
  intros (b & b' & Hb & -> & Hs) Ha. destruct (decide (k = i)) as [->|Hne].
  - assert (b = a) as -> by congruence. exists b'. rewrite list_lookup_insert_eq by (by eapply lookup_lt_Some). done.
  - exists a. rewrite list_lookup_insert_ne by done. split; [done|apply table_step_refl].
Qed.

Ltac load_checks :=
  match goal with
  | Ht : table_and_authority _ _ _ = (Ok (?me, ?auth), _), Hl : load_table ?me _ = _, Hc : check_authority _ ?auth _ = _ |- _ =>
      destruct (table_loaded _ _ _ _ _ _ _ _ _ Ht Hl Hc) as (-> & -> & -> & Hme & Hauth & a & Ha & Hta & Hda & Hoa); clear Ht Hl Hc
  end.

Lemma freeze_step first s u s' : freeze_lookup_table ctx first s = (Ok u, s') ->
  exists me, keyed !! first = Some me /\ one_step (account me) s s'.
Proof.
  unfold freeze_lookup_table. fold keyed. intros Hr. apply SE_bind_Ok in Hr as ([me auth] & s1 & Ht & Hr). ok_inv. load_checks.
  match goal with Hx : (_ =? U64_MAX) = true |- _ => apply Z.eqb_eq in Hx end.
  match goal with Hx : overwrite_account_meta _ _ _ = _ |- _ =>
    apply overwrite_account_meta_Ok in Hx as (a' & d & Ha' & Ho & ->) end. same_lookup.
  exists me. split; [done|]. eexists _, _. split_and!; [done|done|]. eapply step_frozen; [done..|].
  apply table_of_set_data; [done|]. by eapply overwritten_table_meta.
Qed.

Lemma deactivate_step first s u s' : deactivate_lookup_table ctx first s = (Ok u, s') ->
  exists me, keyed !! first = Some me /\ one_step (account me) s s'.
Proof.
  unfold deactivate_lookup_table. fold keyed. rewrite Hclock. intros Hr.
  apply SE_bind_Ok in Hr as ([me auth] & s1 & Ht & Hr). ok_inv. load_checks.
  match goal with Hx : (_ =? U64_MAX) = true |- _ => apply Z.eqb_eq in Hx end.
  match goal with Hx : overwrite_account_meta _ _ _ = _ |- _ =>
    apply overwrite_account_meta_Ok in Hx as (a' & d & Ha' & Ho & ->) end. same_lookup.
  exists me. split; [done|]. eexists _, _. split_and!; [done|done|]. eapply step_deactivated; [done..|].
  apply table_of_set_data; [done|]. by eapply overwritten_table_meta.
Qed.

(** Every account makes a step. *)
Definition all_step (s s' : Accounts) : Prop :=
  forall k a, s !! k = Some a -> exists a', s' !! k = Some a' /\ table_step now slot_hashes (keyed_signed keyed) a a'.

Lemma close_step first s u s' : (forall k1 k2, k1 ∈ keyed -> k2 ∈ keyed -> account k1 = account k2 -> key k1 = key k2) ->
  (forall k a, s !! k = Some a -> 0 <= lamports a) ->
  close_lookup_table ctx first s = (Ok u, s') -> all_step s s'.
Proof.
  intros Hinj Hpos. unfold close_lookup_table. fold keyed. rewrite Hclock, Hhashes. intros Hr.
  apply SE_bind_Ok in Hr as ([me auth] & s1 & Ht & Hr). ok_inv.
  match goal with Hx : account_after _ _ _ _ = (Ok ?r, _) |- _ => rename r into rec; apply account_after_Ok in Hx as [-> Hrec] end. load_checks.
  match goal with Hx : (_ =? _) = false |- _ => apply Z.eqb_neq in Hx; rename Hx into Hne end.
  destruct (meta_status _ _ _) eqn:Hst; [done|done|]. acct_inv. same_lookup.
  match goal with Hx : <[_ := _]> s !! account me = Some _ |- _ => rename Hx into Hme' end.
  assert (account rec ≠ account me) as Hacc.
  { intros Heq. apply Hne. apply Hinj; [done|by eapply list_elem_of_lookup_2|done]. }
  rewrite list_lookup_insert_ne in Hme' by done. same_lookup. intros k b Hb.
  pose proof (lookup_lt_Some _ _ _ Hb).
  destruct (decide (k = account me)) as [->|Hk].
  - same_lookup. eexists. rewrite list_lookup_insert_eq by (by rewrite length_insert). split; [done|].
    eapply step_closed; done.
  - rewrite list_lookup_insert_ne by done. destruct (decide (k = account rec)) as [->|Hk2].
    + same_lookup. eexists. rewrite list_lookup_insert_eq by done. split; [done|].
      apply step_kept; [done|]. cbn. intros _.
      match goal with Hx : s !! account me = Some ?z |- _ => pose proof (Hpos _ _ Hx) end. lia.
    + rewrite list_lookup_insert_ne by done. exists b. split; [done|apply table_step_refl].
Qed.

Lemma extend_data_step first new s len me payer s' : Forall valid_key new ->
  extend_table_data ctx first new s = (Ok (len, me, payer), s') ->
  keyed !! first = Some me /\ keyed_signed keyed payer /\
  exists a t d, s !! account me = Some a /\ s' = <[account me := set_data d a]> s /\
    table_of a = Some t /\ authorized (keyed_signed keyed) t /\ deactivation_slot (table_meta t) = U64_MAX /\
    new ≠ [] /\ (length (addresses t ++ new) <= LOOKUP_TABLE_MAX_ADDRESSES)%nat /\
    table_of (set_data d a) = Some (mkAddressLookupTable (extended_meta now t) (addresses t ++ new)).
Proof.
  intros Hnew. unfold extend_table_data. fold keyed. rewrite Hclock. intros Hr.
  apply SE_bind_Ok in Hr as ([me' auth] & s1 & Ht & Hr). ok_inv.
  match goal with Hx : account_after _ _ _ _ = _ |- _ => apply account_after_Ok in Hx as [-> Hpay] end. load_checks.
  match goal with Hx : (_ =? U64_MAX) = true |- _ => apply Z.eqb_eq in Hx; rename Hx into Hdeact end.
  match goal with Hx : (if _ then _ else _) _ = (Ok ?m, _) |- _ => rename Hx into Hmeta, m into meta end.
  match goal with Hx : overwrite_account_meta _ _ _ = _ |- _ => apply overwrite_account_meta_Ok in Hx as (a' & d & Ha' & Ho & ->) end.
  match goal with Hx : with_account _ _ _ = _ |- _ => apply with_account_Ok in Hx as (b & b' & Hb & Hm & ->) end. ok_inv.
  match goal with Hx : signer_key ?k = Some ?p |- _ => assert (keyed_signed keyed p) as Hsigned
    by (unfold signer_key in Hx; exists k; destruct (is_signer k); naive_solver) end.
  match type of Hta with _ = Some ?t => rename t into tab end.
  match type of Hmeta with _ = (_, ?s2) => assert (meta = extended_meta now tab /\ s2 = s) as [-> ->] end.
  { unfold extended_meta, now. destruct (_ =? last_extended_slot _); cbn [negb] in Hmeta; ok_inv; done. }
  same_lookup. rewrite list_lookup_insert_eq in Hb by (by eapply lookup_lt_Some). injection Hb as <-.
  split_and!; [done|done|].
  eexists _, tab, _. split_and!; [done|by rewrite list_insert_insert_eq|done..| | ].
  - rewrite length_app. lia.
  - apply table_of_set_data; [done|]. by eapply overwritten_table.
Qed.
End handlers.

(** ** The program in its context *)

Section lengths.
Context `{Bincode ProgramState}.

Lemma table_and_authority_length keyed first : keeps_length (table_and_authority keyed first).
Proof. unfold table_and_authority, keyed_account_at_index, ka_owner, account_after. keep_length. Qed.
Lemma load_table_length k : keeps_length (load_table k).
Proof. unfold load_table. keep_length. Qed.
Lemma check_authority_length t k : keeps_length (check_authority t k).
Proof. unfold check_authority. keep_length. Qed.
Lemma overwrite_account_meta_length k m : keeps_length (overwrite_account_meta k m).
Proof. unfold overwrite_account_meta. keep_length. Qed.
#[local] Hint Resolve table_and_authority_length load_table_length check_authority_length overwrite_account_meta_length
  : keeps_length.

Lemma extend_table_data_length ctx first new : keeps_length (extend_table_data ctx first new).
Proof. unfold extend_table_data, account_after, keyed_account_at_index. keep_length. Qed.
Lemma freeze_length ctx first : keeps_length (freeze_lookup_table ctx first).
Proof. unfold freeze_lookup_table. keep_length. Qed.
Lemma deactivate_length ctx first : keeps_length (deactivate_lookup_table ctx first).
Proof. unfold deactivate_lookup_table. keep_length. Qed.
Lemma close_length ctx first : keeps_length (close_lookup_table ctx first).
Proof. unfold close_lookup_table, account_after, keyed_account_at_index, ka_lamports. keep_length. Qed.
Lemma check_new_table_length sha256 curve ctx first slot bump :
  keeps_length (check_new_table sha256 curve ctx first slot bump).
Proof. unfold check_new_table, account_after, keyed_account_at_index, ka_data_len. keep_length. Qed.
End lengths.

Section program.
Context (sha256 : list Z -> Hash) (bytes_are_curve_point : Hash -> bool).
Context `{Bincode NonceVersions} `{BincodeVecLaws SystemInstruction} `{Bincode RecentBlockhashes} `{Bincode Rent}.
Context `{BincodeLaws ProgramState} `{!BincodeTrailing ProgramState} `{Bincode ProgramInstruction}.
Context (invoke : Invoke) {Hcalls : SystemCalls sha256 invoke}.

(** Paying an account up to a positive amount. *)
Lemma moved_funded i j target s s' b a : s !! j = Some b -> 0 < saturating_sub64 (Z.max target 1) (lamports b) ->
  moved i j (saturating_sub64 (Z.max target 1) (lamports b)) s s' -> s' !! j = Some a -> 0 < lamports a.
Proof.
  intros Hb Hn [[Hz _]|(x & y & Hx & _ & Hle & Hy & ->)] Ha; [lia|].
  pose proof (lookup_lt_Some _ _ _ Hb). rewrite list_lookup_insert_eq in Ha by (by rewrite length_insert).
  injection Ha as <-. cbn. destruct (decide (i = j)) as [->|Hij].
  - rewrite list_lookup_insert_eq in Hy by done. injection Hy as <-. cbn. u64.
  - rewrite list_lookup_insert_ne in Hy by done. assert (y = b) as -> by congruence. u64.
Qed.

Lemma fund_table_Ok rent len me payer c c' : runtime_wf c -> names c (key me) (account me) ->
  fund_table invoke rent len me payer c = (Ok tt, c') ->
  exists i n, 0 <= n /\ moved i (account me) n (accounts_of c) (accounts_of c') /\ same_frame c c' /\ runtime_wf c' /\
    forall a, accounts_of c' !! account me = Some a -> 0 < lamports a.
Proof.
  intros Hwf Hme Hr. unfold fund_table in Hr. apply SE_bind_Ok in Hr as (table_lamports & c1 & Hl & Hr).
  apply on_accounts_read in Hl as (Hl & Ha1 & Hs1 & Hwf1);
    [|unfold ka_lamports; keep_length|done|intros s'; unfold ka_lamports; intros Hk; by read_inv].
  apply SE_bind_Ok in Hl as (b & s1 & [Hb ->]%try_account_ref_Ok & [-> _]%SE_ret_Ok).
  destruct (0 <? saturating_sub64 _ _) eqn:Hn; ok_inv.
  - apply Z.ltb_lt in Hn. match goal with Hx : transfer_ix _ _ _ = Ok _, Hi : invoke _ _ _ = _ |- _ =>
      destruct (transfer_call sha256 invoke _ _ _ _ _ _ _ Hwf1 Hx Hi) as (i & j & _ & Hj & Hm & _ & Hs2 & Hwf2) end.
    exists i, (saturating_sub64 (Z.max (minimum_balance rent (Z.of_nat len)) 1) (lamports b)).
    apply (once_same _ _ _ _ Hs1) in Hj. apply Hj in Hme. rewrite <- Hme in Hm. rewrite <- Ha1.
    split_and!; [lia|done|by etransitivity|done|]. intros a. rewrite <- Ha1 in Hb. by eapply moved_funded.
  - apply Z.ltb_ge in Hn. exists 0%nat, 0. split_and!; [done|left; done|done|done|]. intros a. rewrite Ha1, Hb.
    intros [= <-]. u64.
Qed.

Context (clock : Clock) (slot_hashes : SlotHashes).

(** The effect of an instruction on an account. *)
Definition account_step (keyed : list KeyedAccount) (a a' : AccountSharedData) : Prop :=
  table_step (clock_slot clock) slot_hashes (keyed_signed keyed) a a'.

Lemma extend_steps first new c c' ctx : runtime_wf c -> Forall valid_key new ->
  program_context c = Ok ctx -> get_clock (pc_sysvar_cache ctx) = Ok clock ->
  extend_lookup_table invoke first new c = (Ok tt, c') ->
  forall i a, accounts_of c !! i = Some a ->
    exists a', accounts_of c' !! i = Some a' /\ account_step (pc_keyed_accounts ctx) a a'.
Proof.
  intros Hwf Hnew Hctx Hclock Hr i a Ha. unfold extend_lookup_table in Hr.
  apply SE_bind_Ok in Hr as (c0 & c0' & Hg & Hr). ok_inv.
  match goal with Hx : program_context _ = Ok ?x |- _ => assert (x = ctx) as -> by congruence end.
  match goal with x : nat * KeyedAccount * Pubkey |- _ => destruct x as [[len me] payer] end. ok_inv.
  match goal with Hx : on_accounts _ _ = (Ok _, ?c1) |- _ => rename c1 into c1';
    apply on_accounts_Ok in Hx as [Hd Hs1]; [|apply extend_table_data_length] end.
  apply (extend_data_step ctx clock) in Hd as (Hme & _ & b & t & d & Hb & Hacc & Htb & Hauth & Hdeact & Hne & Hlen & Htd);
    [|done|done].
  assert (names c (key me) (account me)) as Hnme by (eapply keyed_names; [done|done|by eapply list_elem_of_lookup_2]).
  assert (owner b = address_lookup_table_id) as Hob by (by apply table_of_Some in Htb as [? _]).
  assert (runtime_wf c1') as Hwf1.
  { apply (runtime_wf_owners c); [done|done|]. rewrite Hacc. by apply (owners_kept_insert _ _ b). }
  match goal with Hx : fund_table _ _ _ _ _ _ = _ |- _ =>
    destruct (fund_table_Ok _ _ _ _ _ _ Hwf1 (proj2 (names_same _ _ _ _ Hs1) Hnme) Hx) as (k & n & Hn & Hm & Hs2 & Hwf2 & _) end.
  pose proof (lookup_lt_Some _ _ _ Ha). rewrite Hacc in Hm. destruct (decide (i = account me)) as [->|Hi].
  - assert (b = a) as -> by congruence. apply (moved_lookup _ _ _ _ _ (account me) (set_data d a)) in Hm as (a' & Ha' & Heq & Hl & _);
      [|done|by rewrite list_lookup_insert_eq].
    exists a'. split; [done|]. eapply step_extended; [done..| |].
    + apply Hl. apply table_of_Some in Htd as [_ Htd]. by eapply table_data_nonempty.
    + rewrite Heq. apply table_of_Some in Htd. by apply table_of_Some.
  - apply (moved_lookup _ _ _ _ _ i a) in Hm as (a' & Ha' & Heq & Hl & _);
      [|done|by rewrite list_lookup_insert_ne by done].
    exists a'. split; [done|]. by apply step_kept.
Qed.

Lemma check_new_table_Ok ctx first recent bump s me auth payer s' :
  check_new_table sha256 bytes_are_curve_point ctx first recent bump s = (Ok (me, auth, payer), s') ->
  s' = s /\ pc_keyed_accounts ctx !! first = Some me /\ keyed_signed (pc_keyed_accounts ctx) auth /\
  (exists a, s !! account me = Some a /\ data a = []) /\
  exists sh, get_slot_hashes (pc_sysvar_cache ctx) = Ok sh /\ is_Some (SlotHashes_get recent sh).
Proof.
  unfold check_new_table. intros Hr. unfold pubkey_err in Hr. read_inv. simplify_eq.
  repeat match goal with Hx : account_after _ _ _ _ = _ |- _ => apply account_after_Ok in Hx as [-> ?] end. read_inv.
  match goal with Hx : (0 <? _) = false |- _ => apply Z.ltb_ge in Hx end.
  split_and!; [done|done| |eexists; split; [done|]; apply length_zero_iff_nil; lia|eauto].
  match goal with Hx : signer_key ?k = Some ?p |- keyed_signed _ ?p => unfold signer_key in Hx; exists k;
    destruct (is_signer k); naive_solver end.
Qed.

(** The state of a new table reads back as an empty table. *)
Lemma new_table_data pk b u a' : length (data b) = LOOKUP_TABLE_META_SIZE -> owner b = address_lookup_table_id ->
  account_set_state (LookupTable (LookupTableMeta_new pk)) b = (Ok u, a') ->
  table_of a' = Some (mkAddressLookupTable (LookupTableMeta_new pk) []).
Proof.
  intros Hl Ho (d & -> & Hd & Hst)%account_set_state_Ok. apply table_of_set_data; [done|].
  unfold account_state in Hst. cbn in Hst. ok_inv. apply table_deserialize_Ok. cbn [table_meta addresses].
  split_and!; [done|lia|]. rewrite drop_ge by lia. done.
Qed.

(** A new table: its account is paid for, and then holds an empty table. *)
Lemma create_effect first recent bump c c' ctx : runtime_wf c -> program_context c = Ok ctx ->
  create_lookup_table sha256 bytes_are_curve_point invoke first recent bump c = (Ok tt, c') ->
  exists me auth k n s b a', keyed_signed (pc_keyed_accounts ctx) auth /\
    (exists sh, get_slot_hashes (pc_sysvar_cache ctx) = Ok sh /\ is_Some (SlotHashes_get recent sh)) /\
    0 <= n /\ moved k me n (accounts_of c) s /\ s !! me = Some b /\ data b = [] /\ owner b = system_program_id /\
    table_of a' = Some (mkAddressLookupTable (LookupTableMeta_new auth) []) /\ 0 < lamports a' /\
    accounts_of c' = <[me := a']> s.
Proof.
  intros Hwf Hctx Hr. unfold create_lookup_table in Hr.
  apply SE_bind_Ok in Hr as (c0 & c0' & [-> ->]%get_Ok & Hr).
  apply SE_bind_Ok in Hr as (ctx0 & c0'' & [Hc0 ->]%lift_Ok & Hr). assert (ctx0 = ctx) as -> by congruence. clear Hc0.
  apply SE_bind_Ok in Hr as ([[me auth] payer] & c1 & Hchk & Hr).
  apply on_accounts_read in Hchk as (Hchk & Ha1 & Hs1 & Hwf1);
    [|apply check_new_table_length|done|intros s' Hx; by apply check_new_table_Ok in Hx as [-> _]].
  apply check_new_table_Ok in Hchk as (_ & Hme & Hauth & (am & Ham & Hdm) & Hrecent).
  assert (names c1 (key me) (account me)) as Hn1.
  { apply (names_same _ _ _ _ Hs1). eapply keyed_names; [done|done|by eapply list_elem_of_lookup_2]. }
  ok_inv.
  match goal with Hx : fund_table _ _ _ _ _ _ = (Ok tt, ?c2) |- _ =>
    destruct (fund_table_Ok _ _ _ _ _ _ Hwf1 Hn1 Hx) as (k & n & Hn & Hm & Hs2 & Hwf2 & Hfund); rename c2 into c2' end.
  match goal with Hx : allocate_ix _ _ = Ok _, Hi : invoke _ _ c2' = (Ok tt, ?c3) |- _ =>
    destruct (allocate_call sha256 invoke _ _ _ _ _ _ Hwf2 Hx Hi) as (j & b & Hj & Hb & Hdb & Hob & Hacc3 & Hs3 & Hwf3); rename c3 into c3' end.
  match goal with Hx : assign_ix _ _ = Ok _, Hi : invoke _ _ c3' = (Ok tt, ?c4) |- _ =>
    destruct (assign_call sha256 invoke _ _ _ _ _ _ Hwf3 Hx Hi) as (j' & b' & Hj' & Hb' & Hacc4 & Hs4 & _); rename c4 into c4' end.
  assert (j = account me) as ->.
  { symmetry. apply Hj. by apply (names_same _ _ _ _ Hs2). }
  assert (j' = account me) as ->.
  { symmetry. apply Hj'. apply (names_same _ _ _ _ Hs3). by apply (names_same _ _ _ _ Hs2). }
  destruct (program_context_same c c4' ctx) as (ctx' & Hctx' & Hkeyed & _);
    [by repeat (etransitivity; [eassumption|])|done|].
  match goal with Hx : program_context c4' = Ok ?x |- _ => assert (x = ctx') as -> by congruence; clear Hx end.
  match goal with Hx : on_accounts _ c4' = _ |- _ => apply on_accounts_Ok in Hx as [Hset _];
    [|unfold keyed_account_at_index; keep_length] end.
  rewrite Hkeyed in Hset. apply SE_bind_Ok in Hset as (me' & s5 & Hme' & Hset). read_inv. same_lookup.
  apply with_account_Ok in Hset as (y & a' & Hy & Hset & Hacc5).
  pose proof (lookup_lt_Some _ _ _ Hb) as Hlt.
  rewrite Hacc3, list_lookup_insert_eq in Hb' by done. injection Hb' as <-.
  rewrite Hacc4, list_lookup_insert_eq in Hy by (by rewrite Hacc3, length_insert). injection Hy as <-.
  exists (account me), auth, k, n, (accounts_of c2'), b, a'. rewrite <- Ha1. split_and!; [done..| | |].
  - eapply new_table_data; [| |exact Hset]; done.
  - apply account_set_state_Ok in Hset as (? & -> & _). by apply (Hfund b).
  - rewrite Hacc5, Hacc4, Hacc3, !list_insert_insert_eq. done.
Qed.

Lemma create_steps first recent bump c c' ctx : runtime_wf c -> program_context c = Ok ctx ->
  create_lookup_table sha256 bytes_are_curve_point invoke first recent bump c = (Ok tt, c') ->
  forall i a, accounts_of c !! i = Some a ->
    exists a', accounts_of c' !! i = Some a' /\ account_step (pc_keyed_accounts ctx) a a'.
Proof.
  intros Hwf Hctx Hr i a Ha.
  destruct (create_effect _ _ _ _ _ _ Hwf Hctx Hr) as (me & auth & k & n & s & b & a' & Hauth & _ & Hn & Hm & Hb & Hdb & Hob & Hta & Hpos & Hacc).
  rewrite Hacc. destruct (moved_lookup _ _ _ _ _ _ _ Hm Hn Ha) as (y & Hy & Heq & Hl & _).
  destruct (decide (i = me)) as [->|Hi].
  - exists a'. rewrite list_lookup_insert_eq by (by eapply lookup_lt_Some). split; [done|].
    assert (y = b) as -> by congruence. apply (step_created _ _ _ _ _ auth); [|done| |done|done].
    + rewrite <- Hdb, Heq. done.
    + rewrite <- Hob, Heq. done.
  - exists y. rewrite list_lookup_insert_ne by done. split; [done|]. by apply step_kept.
Qed.

Lemma keyed_distinct c ctx k1 k2 : runtime_wf c -> program_context c = Ok ctx ->
  k1 ∈ pc_keyed_accounts ctx -> k2 ∈ pc_keyed_accounts ctx -> account k1 = account k2 -> key k1 = key k2.
Proof.
  intros Hwf Hctx Hk1 Hk2 Heq. pose proof (keyed_names _ _ _ Hwf Hctx Hk1) as N1.
  pose proof (keyed_names _ _ _ Hwf Hctx Hk2) as N2. unfold names in *. congruence.
Qed.

Lemma process_steps first d c c' ctx i a : runtime_wf c -> (forall k b, accounts_of c !! k = Some b -> 0 <= lamports b) ->
  (forall new, limited_deserialize d PACKET_DATA_SIZE = Ok (ExtendLookupTable new) -> Forall valid_key new) ->
  program_context c = Ok ctx -> get_clock (pc_sysvar_cache ctx) = Ok clock ->
  get_slot_hashes (pc_sysvar_cache ctx) = Ok slot_hashes ->
  lookup_table_process_instruction sha256 bytes_are_curve_point invoke first d c = (Ok tt, c') ->
  accounts_of c !! i = Some a ->
  exists a', accounts_of c' !! i = Some a' /\ account_step (pc_keyed_accounts ctx) a a'.
Proof.
  intros Hwf Hpos Hkeys Hctx Hclock Hhashes Hr Ha. unfold lookup_table_process_instruction in Hr.
  apply SE_bind_Ok in Hr as (ix & c0 & [Hix ->]%lift_Ok & Hr). destruct ix as [recent bump| |new| |].
  - by eapply create_steps.
  - apply builtin_Ok in Hr as (ctx' & Hctx' & Hf & _); [|intros; apply freeze_length].
    assert (ctx' = ctx) as -> by congruence. apply (freeze_step ctx clock slot_hashes) in Hf as (me & _ & Hs).
    by eapply one_step_all.
  - eapply extend_steps; [done| |done..]. by apply Hkeys.
  - apply builtin_Ok in Hr as (ctx' & Hctx' & Hf & _); [|intros; apply deactivate_length].
    assert (ctx' = ctx) as -> by congruence. apply (deactivate_step ctx clock slot_hashes Hclock) in Hf as (me & _ & Hs).
    by eapply one_step_all.
  - apply builtin_Ok in Hr as (ctx' & Hctx' & Hf & _); [|intros; apply close_length].
    assert (ctx' = ctx) as -> by congruence.
    eapply (close_step ctx clock slot_hashes Hclock Hhashes) in Hf; [by eapply Hf| |done].
    intros. by eapply keyed_distinct.
Qed.
End program.

(** ** Lookups *)

Section lookups.
Context `{Bincode ProgramState}.
Context (now : Slot) (slot_hashes : SlotHashes) (signed : Pubkey -> Prop).

(** The metadata that the program writes: not extended in the future, and the
    start of the last extension is within the table. *)
Definition table_wf (t : AddressLookupTable) : Prop :=
  last_extended_slot (table_meta t) <= now /\
  0 <= last_extended_slot_start_index (table_meta t) <= Z.of_nat (length (addresses t)).

Definition active_prefix (t : AddressLookupTable) : list Pubkey :=
  if last_extended_slot (table_meta t) <? now then addresses t
  else take (Z.to_nat (last_extended_slot_start_index (table_meta t))) (addresses t).

Lemma table_lookup_eq t idxs : table_wf t ->
  table_lookup t now idxs slot_hashes =
  if meta_is_active (table_meta t) now slot_hashes
  then ok_or InvalidLookupIndex (mapM (fun idx => active_prefix t !! Z.to_nat idx) idxs)
  else Err LookupTableAccountNotFound.
Proof.
  intros [_ Hidx]. unfold table_lookup, get_active_addresses_len, active_prefix.
  destruct (meta_is_active _ _ _); cbn [negb mbind outcome_bind]; [|done].
  unfold slice. destruct (last_extended_slot (table_meta t) <? now).
  - rewrite decide_True by lia. cbn [mbind outcome_bind drop]. by rewrite take_ge.
  - rewrite decide_True by lia. done.
Qed.

(** Two tables that answer every lookup alike. *)
Definition answers_alike (t t' : AddressLookupTable) : Prop :=
  forall idxs, table_lookup t' now idxs slot_hashes = table_lookup t now idxs slot_hashes.

Lemma answers_alike_eq t t' : table_wf t -> table_wf t' ->
  meta_is_active (table_meta t') now slot_hashes = meta_is_active (table_meta t) now slot_hashes ->
  active_prefix t' = active_prefix t -> answers_alike t t'.
Proof. intros Ht Ht' Ha Hp idxs. rewrite !table_lookup_eq by done. by rewrite Ha, Hp. Qed.

Lemma extended_alike t new : table_wf t -> table_wf (mkAddressLookupTable (extended_meta now t) (addresses t ++ new)) /\
  answers_alike t (mkAddressLookupTable (extended_meta now t) (addresses t ++ new)).
Proof.
  intros Ht. pose proof Ht as [Hle Hidx]. unfold extended_meta.
  destruct (Z.eqb_spec now (last_extended_slot (table_meta t))) as [Heq|Hne].
  - assert (table_wf (mkAddressLookupTable (table_meta t) (addresses t ++ new))) as Hwf.
    { split; cbn; [done|]. rewrite length_app. lia. }
    split; [done|]. apply answers_alike_eq; [done|done|done|]. unfold active_prefix. cbn [table_meta addresses].
    destruct (Z.ltb_spec (last_extended_slot (table_meta t)) now); [lia|]. rewrite take_app_le by lia. done.
  - set (t' := mkAddressLookupTable _ _). assert (table_wf t') as Hwf.
    { split; cbn; [lia|]. rewrite length_app. lia. }
    split; [done|]. apply answers_alike_eq; [done|done|done|]. unfold active_prefix, t'. cbn.
    rewrite Z.ltb_irrefl. destruct (Z.ltb_spec (last_extended_slot (table_meta t)) now); [|lia].
    rewrite Nat2Z.id, take_app_length. done.
Qed.

Lemma deactivated_alike t : now ≠ U64_MAX -> table_wf t -> deactivation_slot (table_meta t) = U64_MAX ->
  table_wf (mkAddressLookupTable (set_deactivation_slot now (table_meta t)) (addresses t)) /\
  answers_alike t (mkAddressLookupTable (set_deactivation_slot now (table_meta t)) (addresses t)).
Proof.
  intros Hnow Ht Hd. split; [exact Ht|]. apply answers_alike_eq; [done|exact Ht| |done].
  unfold meta_is_active, meta_status. cbn. rewrite Hd, Z.eqb_refl.
  by rewrite (proj2 (Z.eqb_neq _ _) Hnow), Z.eqb_refl.
Qed.

(** What the bank loads for a message from a table account. *)
Abbreviation loads := (fun a lk => load_lookup_table_addresses (Some a) now lk slot_hashes).

Lemma loads_table a t lk : table_of a = Some t -> loads a lk =
  (writable ← table_lookup t now (writable_indexes lk) slot_hashes;
   readonly ← table_lookup t now (readonly_indexes lk) slot_hashes;
   Ok (mkLoadedAddresses writable readonly)).
Proof.
  intros [Ho Ht]%table_of_Some. unfold load_lookup_table_addresses. cbn [ok_or mbind outcome_bind].
  by rewrite Ho, Z.eqb_refl, Ht.
Qed.

Lemma loads_no_table a lk l : table_of a = None -> loads a lk ≠ Ok l.
Proof.
  unfold table_of, load_lookup_table_addresses. cbn [ok_or mbind outcome_bind].
  destruct (owner a =? address_lookup_table_id); [|done]. by destruct (table_deserialize (data a)).
Qed.
End lookups.
