(* ===== verification/LookupTableSafety.v ===== *)
(** * Lookup tables are safe to refer to

    Within a slot no instruction changes what lookups return, only the authority
    changes a table, and an address never holds a second table that was derived
    from the same slot: the program composed with the slot hashes of the bank and
    with the checks of the runtime on other programs. *)
From stdpp Require Import base numbers option list gmap sorting relations.
From S2P Require Import Prelude Instruction Account EpochSchedule Float64 Rent Sysvar Message PreAccount.
From S2P Require Import ComputeBudget InvokeContext InvokeSpec Nonce System ProgramAddress SystemCall LookupTable LookupTableSpec.

Section steps.
Context `{Bincode ProgramState}.
Context (now : Slot) (slot_hashes : SlotHashes) (signed : Pubkey -> Prop).

Lemma table_of_kept a a' : a' = set_lamports (lamports a') a -> table_of a' = table_of a.
Proof. intros ->. done. Qed.

Lemma table_of_no_data a : data a = [] -> table_of a = None.
Proof.
  intros Hd. destruct (table_of a) as [t|] eqn:Ht; [|done]. apply table_of_Some in Ht as [_ Ht].
  by apply table_data_nonempty in Ht.
Qed.

(** A message that refers to a table loads an address from it. *)
Definition loads_some (lk : MessageAddressTableLookup) : Prop := writable_indexes lk ++ readonly_indexes lk ≠ [].

Lemma empty_table_lookup t lk l : addresses t = [] -> table_wf now t -> loads_some lk ->
  (writable ← table_lookup t now (writable_indexes lk) slot_hashes;
   readonly ← table_lookup t now (readonly_indexes lk) slot_hashes;
   Ok (mkLoadedAddresses writable readonly)) ≠ Ok l.
Proof.
  intros Ha Ht Hlk Hl. rewrite !table_lookup_eq in Hl by done. unfold active_prefix in Hl.
  destruct (meta_is_active _ _ _); [|done]. rewrite Ha, take_nil in Hl.
  unfold loads_some in Hlk. destruct (writable_indexes lk) as [|i idxs]; cbn in Hl; [|by case_match].
  destruct (readonly_indexes lk) as [|i idxs]; cbn in Hl; [done|by case_match].
Qed.

(** A step keeps every answer and the form of the metadata. *)
Lemma step_answers a a' : now ≠ U64_MAX -> 0 <= now -> (forall t, table_of a = Some t -> table_wf now t) ->
  table_step now slot_hashes signed a a' ->
  (forall t', table_of a' = Some t' -> table_wf now t') /\
  forall lk l, loads_some lk ->
    load_lookup_table_addresses (Some a') now lk slot_hashes = Ok l <->
    load_lookup_table_addresses (Some a) now lk slot_hashes = Ok l.
Proof.
  intros Hnow Hpos Hwf Hs.
  assert (forall t t', table_of a = Some t -> table_of a' = Some t' -> table_wf now t' -> answers_alike now slot_hashes t t' ->
    (forall t', table_of a' = Some t' -> table_wf now t') /\ forall lk l, loads_some lk ->
      load_lookup_table_addresses (Some a') now lk slot_hashes = Ok l <->
      load_lookup_table_addresses (Some a) now lk slot_hashes = Ok l) as Halike.
  { intros t t' Ht Ht' Hwf' Hal. split; [naive_solver|]. intros lk l _.
    by rewrite (loads_table _ _ a t), (loads_table _ _ a' t'), !Hal by done. }
  destruct Hs as [Heq _|pk Hd _ Ho Ht' _|t Ht _ _ _ _ Ht'|t new Ht _ _ _ _ _ Ht'|t Ht _ Hd _ Ht'|t Ht _ Hst Hd _].
  - rewrite (table_of_kept a a') by done. split; [done|]. intros lk l _. by rewrite Heq.
  - assert (table_wf now (mkAddressLookupTable (LookupTableMeta_new pk) [])) as Hwf' by (split; cbn; lia).
    split; [naive_solver|]. intros lk l Hlk. rewrite (loads_table _ _ a' _ _ Ht'). split; intros Hl.
    + by apply empty_table_lookup in Hl.
    + by apply loads_no_table in Hl; [|apply table_of_no_data].
  - apply (Halike t _ Ht Ht'); [apply (Hwf _ Ht)|]. apply answers_alike_eq; [by apply Hwf|apply (Hwf _ Ht)|done|done].
  - destruct (extended_alike now slot_hashes t new) as [Hwf' Hal]; [by apply Hwf|]. by apply (Halike t _ Ht Ht').
  - destruct (deactivated_alike now slot_hashes t) as [Hwf' Hal]; [done|by apply Hwf|done|]. by apply (Halike t _ Ht Ht').
  - rewrite (table_of_no_data a') by done. split; [done|]. intros lk l _. split; intros Hl.
    + by apply loads_no_table in Hl; [|apply table_of_no_data].
    + rewrite (loads_table _ _ a t) in Hl by done. rewrite !table_lookup_eq in Hl by (by apply Hwf).
      unfold meta_is_active in Hl. by rewrite Hst in Hl.
Qed.
End steps.

(** ** Slot hashes along a chain of banks *)

Lemma SlotHashes_add_elem slot hash sh x h : slot_hashes_wf sh -> (x, h) ∈ SlotHashes_add slot hash sh ->
  x = slot \/ (x, h) ∈ sh.
Proof.
  intros [Hs _] Hx. change (SlotHashes_add slot hash sh) with (take SLOT_HASHES_MAX_ENTRIES (added slot hash sh)) in Hx.
  apply subseteq_take in Hx. apply (added_spec slot hash sh Hs) in Hx as [[-> _]|[_ Hx]]; auto.
Qed.

Lemma SlotHashes_add_wf slot hash sh : slot_hashes_wf sh -> slot_hashes_wf (SlotHashes_add slot hash sh).
Proof.
  intros [Hs Hl]. split; [by apply SlotHashes_add_sorted|].
  change (SlotHashes_add slot hash sh) with (take SLOT_HASHES_MAX_ENTRIES (added slot hash sh)).
  rewrite length_take. lia.
Qed.

(** A slot that is listed stays listed or is older than all that are. *)
Lemma SlotHashes_add_keeps slot hash sh x : slot_hashes_wf sh -> x = slot \/ (exists h, (x, h) ∈ sh) ->
  (exists h, (x, h) ∈ SlotHashes_add slot hash sh) \/ forall y h, (y, h) ∈ SlotHashes_add slot hash sh -> x < y.
Proof.
  intros [Hs _] Hx. change (SlotHashes_add slot hash sh) with (take SLOT_HASHES_MAX_ENTRIES (added slot hash sh)).
  destruct (added_spec slot hash sh Hs) as (Hsorted & _ & _ & Helem).
  assert (exists h, (x, h) ∈ added slot hash sh) as [h Hh].
  { destruct (decide (x = slot)) as [->|Hne]; [exists hash; apply Helem; auto|].
    destruct Hx as [?|[h Hh]]; [done|]. exists h. apply Helem. auto. }
  rewrite <- (take_drop SLOT_HASHES_MAX_ENTRIES (added slot hash sh)) in Hh, Hsorted.
  apply elem_of_app in Hh as [Hh|Hh]; [left; eauto|right]. intros y h' Hy.
  apply StronglySorted_app in Hsorted as (Hlt & _ & _). exact (Hlt _ _ Hy Hh).
Qed.

(** ** The history of an address *)

Section history.
Context (sha256 : list Z -> Hash) (bytes_are_curve_point : Hash -> bool).
Context `{Bincode NonceVersions} `{BincodeVecLaws SystemInstruction} `{Bincode RecentBlockhashes} `{Bincode Rent}.
Context `{BincodeLaws ProgramState} `{!BincodeTrailing ProgramState} `{Bincode ProgramInstruction}.
(** The variant of a state is the first number written, and 0 is [Uninitialized]. *)
Context (Hzero : forall d m, Forall (fun x => x = 0) d -> bincode_deserialize d ≠ Some (LookupTable m)).
(** Addresses in an instruction are 32 bytes each. *)
Context (Hkeys : forall d new, limited_deserialize d PACKET_DATA_SIZE = Ok (ExtendLookupTable new) -> Forall valid_key new).

(** An instruction of the program succeeds in a bank of this slot with these slot
    hashes, and takes an account from [a] to [a']. *)
Definition instruction_at (slot : Slot) (slot_hashes : SlotHashes) (d : list Z) (a a' : AccountSharedData) : Prop :=
  exists invoke c c' ctx clock first i, SystemCalls sha256 invoke /\ runtime_wf c /\
    (forall k b, accounts_of c !! k = Some b -> 0 <= lamports b) /\ program_context c = Ok ctx /\
    get_clock (pc_sysvar_cache ctx) = Ok clock /\ clock_slot clock = slot /\
    get_slot_hashes (pc_sysvar_cache ctx) = Ok slot_hashes /\
    lookup_table_process_instruction sha256 bytes_are_curve_point invoke first d c = (Ok tt, c') /\
    accounts_of c !! i = Some a /\ accounts_of c' !! i = Some a'.

Lemma instruction_at_step slot sh d a a' : instruction_at slot sh d a a' -> exists signed, table_step slot sh signed a a'.
Proof.
  intros (invoke & c & c' & ctx & clock & first & i & Hcalls & Hwf & Hpos & Hctx & Hclock & <- & Hsh & Hr & Ha & Ha').
  edestruct (process_steps sha256 bytes_are_curve_point invoke clock sh) as (b & Hb & Hs); [done|done| |done..|].
  - intros new. apply Hkeys.
  - assert (b = a') as -> by congruence. eauto.
Qed.

(** A bank's slot and slot hashes, and the account of an address. *)
Record ledger : Type := mkLedger {
  lg_slot : Slot;
  lg_hashes : SlotHashes;
  lg_account : AccountSharedData;
}.

(** What happens to the account: the program runs, another program runs under the
    checks of the runtime, rent collection marks the epoch, an account without
    lamports is dropped, and a child bank starts, which lists its parent. *)
Inductive ledger_step : ledger -> ledger -> Prop :=
| ledger_instruction slot sh d a a' : instruction_at slot sh d a a' ->
    ledger_step (mkLedger slot sh a) (mkLedger slot sh a')
| ledger_program slot sh a a' program_id w rent realloc : program_id ≠ address_lookup_table_id ->
    permitted program_id w rent realloc a a' -> ledger_step (mkLedger slot sh a) (mkLedger slot sh a')
| ledger_rent slot sh a e : ledger_step (mkLedger slot sh a) (mkLedger slot sh (set_rent_epoch e a))
| ledger_dropped slot sh a : lamports a = 0 ->
    ledger_step (mkLedger slot sh a) (mkLedger slot sh AccountSharedData_default)
| ledger_child slot sh a slot' hash : slot < slot' < U64_MAX ->
    ledger_step (mkLedger slot sh a) (mkLedger slot' (SlotHashes_add slot hash sh) a).

(** The slot hashes of a bank: sorted, and older than the bank. *)
Definition bank_ok (slot : Slot) (sh : SlotHashes) : Prop :=
  slot_hashes_wf sh /\ (forall x h, (x, h) ∈ sh -> x < slot) /\ slot < U64_MAX.

(** While the address has a table, the slot it was derived from is older than its
    deactivation, and when it has none that slot is too old to be listed. *)
Definition table_recorded (s : Slot) (st : ledger) : Prop :=
  match table_of (lg_account st) with
  | Some t =>
      let d := deactivation_slot (table_meta t) in
      0 < lamports (lg_account st) /\
      (d = U64_MAX \/ s < d <= lg_slot st /\
         (d = lg_slot st \/ (exists h, (d, h) ∈ lg_hashes st) \/ forall x h, (x, h) ∈ lg_hashes st -> d < x))
  | None => forall x h, (x, h) ∈ lg_hashes st -> s < x
  end.

Definition history_inv (s : Slot) (st : ledger) : Prop :=
  bank_ok (lg_slot st) (lg_hashes st) /\ s < lg_slot st /\ table_recorded s st.

Lemma search_none slot sh : slot_hashes_wf sh -> SlotHashes_position slot sh = None -> forall h, (slot, h) ∉ sh.
Proof.
  intros [Hs _] Hp h Hh. apply (search_slot_get slot sh Hs) in Hh. unfold SlotHashes_position, SlotHashes_get in *.
  by destruct (search_slot slot sh).
Qed.

(** A closed table was deactivated in a slot that is no longer listed. *)
Lemma deactivated_old s slot sh m : bank_ok slot sh -> meta_status m slot sh = Deactivated ->
  (deactivation_slot m = U64_MAX \/ s < deactivation_slot m <= slot /\
    (deactivation_slot m = slot \/ (exists h, (deactivation_slot m, h) ∈ sh) \/ forall x h, (x, h) ∈ sh -> deactivation_slot m < x)) ->
  forall x h, (x, h) ∈ sh -> s < x.
Proof.
  intros (Hwf & _ & _) Hst Hrec x h Hx. unfold meta_status in Hst.
  destruct (Z.eqb_spec (deactivation_slot m) U64_MAX); [done|]. destruct (Z.eqb_spec (deactivation_slot m) slot); [done|].
  destruct (SlotHashes_position _ _) eqn:Hp; [done|].
  destruct Hrec as [?|[Hlt [?|[[h' Hh']|Hall]]]]; [done|done| |].
  - by apply (search_none _ _ Hwf Hp) in Hh'.
  - specialize (Hall _ _ Hx). lia.
Qed.

Lemma step_recorded s slot sh signed a a' : history_inv s (mkLedger slot sh a) -> table_step slot sh signed a a' ->
  history_inv s (mkLedger slot sh a').
Proof.
  intros (Hok & Hlt & Hrec) Hs. split_and!; [done|done|]. unfold table_recorded in *. cbn [lg_account lg_slot lg_hashes] in *.
  destruct Hs as [Heq Hl|pk Hd _ Ho Ht' Hp|t Ht _ Hd _ Hl Ht'|t new Ht _ Hd _ _ Hl Ht'|t Ht _ Hd Hl Ht'|t Ht _ Hst Hd _].
  - rewrite (table_of_kept a a') by done. destruct (table_of a) as [t|] eqn:Ht; [|done]. destruct Hrec as [Hp Hrec].
    split; [|done]. apply table_of_Some in Ht as [_ Ht]. specialize (Hl (table_data_nonempty _ _ Ht)). lia.
  - rewrite Ht'. split; [done|]. by left.
  - rewrite Ht in Hrec. rewrite Ht', Hl. destruct Hrec as [Hp _]. split; [done|]. by left.
  - rewrite Ht in Hrec. rewrite Ht'. destruct Hrec as [Hp _]. split; [lia|]. left. unfold extended_meta. cbn.
    by destruct (_ =? _).
  - rewrite Ht in Hrec. rewrite Ht', Hl. destruct Hrec as [Hp _]. split; [done|]. right. cbn. split; [lia|]. by left.
  - rewrite (table_of_no_data a') by done. rewrite Ht in Hrec. destruct Hrec as [_ Hrec]. by eapply deactivated_old.
Qed.

(** Another program neither changes nor makes a table. *)
Lemma permitted_table program_id w rent realloc a a' : program_id ≠ address_lookup_table_id ->
  permitted program_id w rent realloc a a' ->
  table_of a' = table_of a /\ (is_Some (table_of a) -> lamports a <= lamports a').
Proof.
  intros Hne Hp. destruct (decide (program_id = owner a)) as [->|Ho].
  - assert (table_of a = None) as Hn by (unfold table_of; by rewrite (proj2 (Z.eqb_neq _ _) Hne)).
    rewrite Hn. split; [|by intros []]. destruct (table_of a') as [t|] eqn:Ht; [|done]. exfalso.
    apply table_of_Some in Ht as [Ho' Ht]. destruct (pm_owner _ _ _ _ _ _ Hp) as (_ & _ & _ & Hz); [congruence|].
    apply table_deserialize_Ok in Ht as [Ht _]. by eapply Hzero.
  - destruct (permitted_foreign _ _ _ _ _ _ Ho Hp) as (Hl & Hd & Ho' & _). unfold table_of. by rewrite Hd, Ho'.
Qed.

Lemma child_recorded s slot sh a slot' hash : slot < slot' < U64_MAX -> history_inv s (mkLedger slot sh a) ->
  history_inv s (mkLedger slot' (SlotHashes_add slot hash sh) a).
Proof.
  intros Hs ((Hwf & Hold & Hmax) & Hlt & Hrec). cbn [lg_slot lg_hashes] in *.
  assert (forall x h, (x, h) ∈ SlotHashes_add slot hash sh -> x = slot \/ (x, h) ∈ sh) as Helem
    by (intros; by eapply SlotHashes_add_elem).
  split_and!; cbn [lg_slot lg_hashes]; [|lia|].
  - split_and!; [by apply SlotHashes_add_wf| |lia]. intros x h [->|Hx]%Helem; [lia|]. specialize (Hold _ _ Hx). lia.
  - unfold table_recorded in *. cbn [lg_account lg_slot lg_hashes] in *. destruct (table_of a) as [t|].
    + destruct Hrec as [Hp Hrec]. split; [done|]. destruct Hrec as [|[Hd Hrec]]; [by left|]. right. split; [lia|]. right.
      set (d := deactivation_slot (table_meta t)) in *.
      destruct (decide (d = slot)) as [Heq|Hne]; [apply SlotHashes_add_keeps; auto|].
      destruct Hrec as [?|[Hin|Hall]]; [done|apply SlotHashes_add_keeps; auto|].
      right. intros x h [->|Hx]%Helem; [lia|]. by eapply Hall.
    + intros x h [->|Hx]%Helem; [lia|]. by eapply Hrec.
Qed.

Lemma ledger_step_inv s st st' : ledger_step st st' -> history_inv s st -> history_inv s st'.
Proof.
  intros [slot sh d a a' Hi|slot sh a a' pid w rent realloc Hne Hp|slot sh a e|slot sh a Hl|slot sh a slot' hash Hs] Hinv.
  - destruct (instruction_at_step _ _ _ _ _ Hi) as [signed Hs]. by eapply step_recorded.
  - destruct (permitted_table _ _ _ _ _ _ Hne Hp) as [Ht Hl]. destruct Hinv as (Hok & Hlt & Hrec). split_and!; [done|done|].
    unfold table_recorded in *. cbn [lg_account lg_slot lg_hashes] in *. rewrite Ht. destruct (table_of a); [|done].
    destruct Hrec as [Hpos Hrec]. split; [|done]. specialize (Hl ltac:(eauto)). lia.
  - exact Hinv.
  - destruct Hinv as (Hok & Hlt & Hrec). split_and!; [done|done|]. unfold table_recorded in *. cbn in *.
    destruct (table_of a); [|done]. lia.
  - by apply child_recorded.
Qed.

(** A table is created from a slot that the bank lists. *)
Lemma create_recent slot sh d a a' s bump : limited_deserialize d PACKET_DATA_SIZE = Ok (CreateLookupTable s bump) ->
  instruction_at slot sh d a a' -> exists h, SlotHashes_get s sh = Some h.
Proof.
  intros Hd (invoke & c & c' & ctx & clock & first & i & Hcalls & Hwf & _ & Hctx & _ & _ & Hsh & Hr & _).
  unfold lookup_table_process_instruction in Hr. rewrite Hd in Hr.
  apply SE_bind_Ok in Hr as (ix & c0 & [[= <-] ->]%lift_Ok & Hr).
  destruct (create_effect sha256 bytes_are_curve_point invoke _ _ _ _ _ _ Hwf Hctx Hr)
    as (? & ? & ? & ? & ? & ? & ? & _ & (sh' & Hsh' & [h Hh]) & _).
  assert (sh' = sh) as -> by congruence. eauto.
Qed.

Lemma created_inv slot sh d a a' s bump : bank_ok slot sh ->
  limited_deserialize d PACKET_DATA_SIZE = Ok (CreateLookupTable s bump) -> instruction_at slot sh d a a' ->
  table_of a = None -> is_Some (table_of a') -> history_inv s (mkLedger slot sh a').
Proof.
  intros Hok Hd Hi Ha [t Ha']. destruct (create_recent _ _ _ _ _ _ _ Hd Hi) as [h Hh].
  pose proof Hok as ([Hs _] & Hold & _). apply (search_slot_get s sh Hs) in Hh. specialize (Hold _ _ Hh).
  split_and!; [done|done|]. unfold table_recorded. cbn [lg_account lg_slot lg_hashes]. rewrite Ha'.
  destruct (instruction_at_step _ _ _ _ _ Hi) as [signed Hstep].
  destruct Hstep as [Heq _|pk _ _ _ Ht' Hp|? Ht|? ? Ht|? Ht|? Ht]; try congruence.
  - rewrite (table_of_kept a a') in Ha' by done. congruence.
  - assert (t = mkAddressLookupTable (LookupTableMeta_new pk) []) as -> by congruence. split; [done|by left].
Qed.

(** ** Properties *)

(** C24. What an instruction of the lookup table program may do to an account,
    including its calls of the system program: an empty account becomes an empty
    table with an authority that signed; a table changes only with the signature
    of its authority, and then it is frozen, gains addresses at its end, is
    deactivated, or, once its deactivation is no longer recent, is closed; a
    table that is not closed loses no lamports. A frozen table never changes. *)
Theorem lookup_table_life invoke clock sh first d c c' ctx i a : SystemCalls sha256 invoke -> runtime_wf c ->
  (forall k b, accounts_of c !! k = Some b -> 0 <= lamports b) -> program_context c = Ok ctx ->
  get_clock (pc_sysvar_cache ctx) = Ok clock -> get_slot_hashes (pc_sysvar_cache ctx) = Ok sh ->
  lookup_table_process_instruction sha256 bytes_are_curve_point invoke first d c = (Ok tt, c') ->
  accounts_of c !! i = Some a ->
  exists a', accounts_of c' !! i = Some a' /\
    table_step (clock_slot clock) sh (keyed_signed (pc_keyed_accounts ctx)) a a' /\
    (forall t, table_of a = Some t -> authority (table_meta t) = None ->
       data a' = data a /\ owner a' = owner a /\ lamports a <= lamports a').
Proof.
  intros Hcalls Hwf Hpos Hctx Hclock Hsh Hr Ha.
  destruct (process_steps sha256 bytes_are_curve_point invoke clock sh first d c c' ctx i a) as (a' & Ha' & Hs); try done.
  { apply Hkeys. }
  exists a'. split_and!; [done|done|]. intros t Ht Hnone. pose proof (proj1 (table_of_Some _ _) Ht) as [_ Hd].
  unfold account_step in Hs.
  destruct Hs as [Heq Hl|pk Hd' _ _ _ _|? Ht2 [? [? _]]|? ? Ht2 [? [? _]]|? Ht2 [? [? _]]|? Ht2 [? [? _]]]; try congruence.
  - split_and!; [by rewrite Heq|by rewrite Heq|]. by apply Hl, (table_data_nonempty _ t).
  - by apply table_data_nonempty in Hd.
Qed.

(** C25. Within a slot the lookups of a bank do not depend on which instructions of
    the lookup table program ran before them: whatever an instruction does to an
    account, a lookup that names at least one address loads from it after the
    instruction exactly what it loaded before. *)
Theorem lookups_stable_in_slot invoke clock sh first d c c' ctx i a : SystemCalls sha256 invoke -> runtime_wf c ->
  (forall k b, accounts_of c !! k = Some b -> 0 <= lamports b) -> program_context c = Ok ctx ->
  get_clock (pc_sysvar_cache ctx) = Ok clock -> get_slot_hashes (pc_sysvar_cache ctx) = Ok sh ->
  0 <= clock_slot clock < U64_MAX -> (forall t, table_of a = Some t -> table_wf (clock_slot clock) t) ->
  lookup_table_process_instruction sha256 bytes_are_curve_point invoke first d c = (Ok tt, c') ->
  accounts_of c !! i = Some a ->
  exists a', accounts_of c' !! i = Some a' /\ (forall t', table_of a' = Some t' -> table_wf (clock_slot clock) t') /\
    forall lk l, writable_indexes lk ++ readonly_indexes lk ≠ [] ->
      load_lookup_table_addresses (Some a') (clock_slot clock) lk sh = Ok l <->
      load_lookup_table_addresses (Some a) (clock_slot clock) lk sh = Ok l.
Proof.
  intros Hcalls Hwf Hpos Hctx Hclock Hsh Hnow Htw Hr Ha.
  destruct (process_steps sha256 bytes_are_curve_point invoke clock sh first d c c' ctx i a) as (a' & Ha' & Hs); try done.
  { apply Hkeys. }
  exists a'. split; [done|]. eapply step_answers; [|lia|exact Htw|exact Hs]. lia.
Qed.

(** C14. An address never holds a second table derived from the same slot: once a
    table has been created from a slot, then whatever this program and others do
    to the account in the banks that follow, if it holds no table any more no
    table can be created from that slot. *)
Theorem table_never_recreated slot sh d a a' s bump st : bank_ok slot sh ->
  limited_deserialize d PACKET_DATA_SIZE = Ok (CreateLookupTable s bump) -> instruction_at slot sh d a a' ->
  table_of a = None -> is_Some (table_of a') -> rtc ledger_step (mkLedger slot sh a') st ->
  table_of (lg_account st) = None ->
  forall d2 bump2 b b', limited_deserialize d2 PACKET_DATA_SIZE = Ok (CreateLookupTable s bump2) ->
    ~ instruction_at (lg_slot st) (lg_hashes st) d2 b b'.
Proof.
  intros Hok Hd Hi Ha Ha' Hsteps Hnone d2 bump2 b b' Hd2 Hi2.
  pose proof (created_inv _ _ _ _ _ _ _ Hok Hd Hi Ha Ha') as Hinv.
  assert (history_inv s st) as ((Hwf & _) & _ & Hrec).
  { clear Hnone Hi2. induction Hsteps as [|x y z Hxy _ IH]; [done|]. apply IH. by eapply ledger_step_inv. }
  unfold table_recorded in Hrec. rewrite Hnone in Hrec.
  destruct (create_recent _ _ _ _ _ _ _ Hd2 Hi2) as [h Hh]. apply (search_slot_get s) in Hh; [|apply Hwf].
  specialize (Hrec _ _ Hh). lia.
Qed.
End history.
