(* ===== verification/LookupTableExample.v ===== *)
(** * Lookup tables on concrete data

    A table is created from slot 3 in the bank of slot 7 by a program that calls
    the system program through the invocations of the runtime, extended,
    deactivated in slot 8, and closed when that slot is no longer listed. *)
From stdpp Require Import base numbers option list gmap sorting relations.
From S2P Require Import Prelude Instruction Account EpochSchedule Float64 Rent Sysvar Message PreAccount.
From S2P Require Import ComputeBudget InvokeContext InvokeSpec Nonce System ProgramAddress SystemCall LookupTable LookupTableSpec.
From S2P Require Import LookupTableSafety.

Module TableExample.
#[local] Instance meta_eq : EqDecision LookupTableMeta.
Proof. solve_decision. Defined.
#[local] Instance state_eq : EqDecision ProgramState.
Proof. solve_decision. Defined.
#[local] Instance instruction_eq : EqDecision ProgramInstruction.
Proof. solve_decision. Defined.
#[local] Instance system_instruction_eq : EqDecision SystemInstruction.
Proof. solve_decision. Defined.

(** The authority is 5, the payer 6; the derived address is 77. *)
Definition sha (_ : list Z) : Hash := 77.
Definition curve (_ : Hash) : bool := false.

Definition new_meta : LookupTableMeta := LookupTableMeta_new 5.
Definition grown_meta : LookupTableMeta := set_last_extended 7 0 new_meta.
Definition old_meta : LookupTableMeta := set_deactivation_slot 8 grown_meta.
Definition states : list ProgramState :=
  [StateUninitialized; LookupTable new_meta; LookupTable grown_meta; LookupTable old_meta].
#[local] Instance state_codec : Bincode ProgramState := table_codec states.
#[local] Instance state_laws : BincodeLaws ProgramState := table_codec_laws states.
#[local] Instance state_trailing : BincodeTrailing ProgramState := table_codec_trailing states.
Lemma zero_uninitialized d m : Forall (fun x => x = 0) d -> bincode_deserialize d ≠ Some (LookupTable m).
Proof. intros Hd. destruct Hd as [|x l Hx _]; [discriminate|]. subst x. discriminate. Qed.

Definition table_instructions : list ProgramInstruction :=
  [CreateLookupTable 3 255; ExtendLookupTable [10; 11]; DeactivateLookupTable; CloseLookupTable].
#[local] Instance instruction_codec : Bincode ProgramInstruction := table_codec table_instructions.
Lemma instruction_keys d new :
  limited_deserialize d PACKET_DATA_SIZE = Ok (ExtendLookupTable new) -> Forall valid_key new.
Proof.
  unfold limited_deserialize. intros Hd%ok_or_Ok. cbn in Hd. destruct d as [|x d]; [done|].
  assert (ExtendLookupTable new ∈ table_instructions) as Hin by (by eapply list_elem_of_lookup_2).
  unfold table_instructions in Hin. rewrite !elem_of_cons, elem_of_nil in Hin. destruct_or! Hin; simplify_eq.
  repeat constructor; vm_compute; congruence.
Qed.

Definition rent : Rent := Rent_default.
Definition table_cost : Z := Eval vm_compute in minimum_balance rent 56.
Definition extended_cost : Z := Eval vm_compute in (minimum_balance rent 120 - table_cost).
Definition system_instructions : list SystemInstruction :=
  [Transfer table_cost; Transfer extended_cost; Allocate 56; Assign address_lookup_table_id].
#[local] Instance system_codec : Bincode SystemInstruction := table_codec system_instructions.
#[local] Instance system_vec : BincodeVec SystemInstruction := table_vec system_instructions.
#[local] Instance system_laws : BincodeVecLaws SystemInstruction := table_vec_laws system_instructions.
#[local] Instance nonce_codec : Bincode NonceVersions := no_codec.
#[local] Instance blockhashes_codec : Bincode RecentBlockhashes := no_codec.
#[local] Instance rent_codec : Bincode Rent := no_codec.
#[local] Instance loader_codec : Bincode UpgradeableLoaderState := no_codec.

Definition programs : list (Pubkey * Program) :=
  [(system_program_id, system_program sha); (address_lookup_table_id, lookup_table_program sha curve)].
Definition invoke : Invoke := invoke_at programs no_native_loader 3.
Definition invoke_calls : SystemCalls sha invoke := invoke_at_system_calls sha programs no_native_loader 3 0 _ eq_refl.

(** The program's account, the table's, the authority's, the payer's and the
    system program's. *)
Definition native_account : AccountSharedData := mkAccount 1 [] native_loader_id true 0.
Definition accounts (table : AccountSharedData) : list (Pubkey * AccountSharedData) :=
  [(address_lookup_table_id, native_account); (77, table); (5, mkAccount 10 [] system_program_id false 0);
   (6, mkAccount 10000000 [] system_program_id false 0); (system_program_id, native_account)].
Definition keyed : list KeyedAccount :=
  [mkKeyedAccount false false address_lookup_table_id 0; mkKeyedAccount false true 77 1; mkKeyedAccount true false 5 2;
   mkKeyedAccount true true 6 3; mkKeyedAccount false false system_program_id 4].

Definition context (slot : Slot) (sh : SlotHashes) (table : AccountSharedData) : InvokeContext :=
  set_pre_accounts ((fun e => PreAccount_new e.1 e.2) <$> accounts table)
    (set_stack [StackFrame_new 1 keyed]
       (InvokeContext_new rent (accounts table)
          (mkSysvarCache (Some (mkClock slot 0 0 0 0)) None (Some rent) (Some sh)) ComputeBudget_default
          {[ do_support_realloc := 0 ]} 0 0 0)).
Definition run (slot : Slot) (sh : SlotHashes) (table : AccountSharedData) (n : Z) : outcome InstructionError unit * InvokeContext :=
  lookup_table_process_instruction sha curve invoke 1 [n] (context slot sh table).
Definition table_after (r : outcome InstructionError unit * InvokeContext) : AccountSharedData :=
  default AccountSharedData_default (accounts_of (snd r) !! 1%nat).

Definition hashes : SlotHashes := [(6, 60); (3, 30)].
Definition empty_account : AccountSharedData := mkAccount 0 [] system_program_id false 0.
Definition created : AccountSharedData := table_after (run 7 hashes empty_account 0).
Definition grown : AccountSharedData := table_after (run 7 hashes created 1).
Definition hashes8 : SlotHashes := SlotHashes_add 7 70 hashes.
Definition deactivated : AccountSharedData := table_after (run 8 hashes8 grown 2).

Lemma table_context_wf slot sh table : runtime_wf (context slot sh table).
Proof.
  assert (NoDup [address_lookup_table_id; 77; 5; 6; system_program_id]) as Hdup
    by (apply (bool_decide_unpack _); vm_compute; exact I).
  assert (forall f k, head (invoke_stack (context slot sh table)) = Some f -> k ∈ sf_keyed_accounts f ->
    (ic_accounts (context slot sh table)).*1 !! account k = Some (key k)) as Hframe.
  { intros f k [= <-] Hk. change (k ∈ keyed) in Hk.
    change ([address_lookup_table_id; 77; 5; 6; system_program_id] !! account k = Some (key k)). unfold keyed in Hk.
    rewrite !elem_of_cons, elem_of_nil in Hk. by destruct_or! Hk; subst. }
  split; [discriminate|exact Hframe| |].
  - intros f k i Hf Hk _ Hi. specialize (Hframe _ _ Hf Hk). eapply NoDup_lookup; [exact Hdup|exact Hi|exact Hframe].
  - intros i a Ha%get_account_Some. change (accounts table !! i = Some (system_program_id, a)) in Ha.
    do 5 (destruct i as [|i]; [cbn in Ha; injection Ha as Ha; try discriminate; by subst|]). done.
Qed.

Lemma context_funded slot sh table k b : 0 <= lamports table ->
  accounts_of (context slot sh table) !! k = Some b -> 0 <= lamports b.
Proof.
  intros Ht Hb. change ((accounts table).*2 !! k = Some b) in Hb.
  do 5 (destruct k as [|k]; [cbn in Hb; injection Hb as <-; cbn; lia|]). done.
Qed.

Definition ctx (slot : Slot) (sh : SlotHashes) : ProgramContext :=
  mkProgramContext keyed (mkSysvarCache (Some (mkClock slot 0 0 0 0)) None (Some rent) (Some sh))
    {[ do_support_realloc := 0 ]} 0 0.

Lemma lookup_table_life_witness : exists a',
  accounts_of (snd (run 7 hashes created 1)) !! 1%nat = Some a' /\
  table_step 7 hashes (keyed_signed keyed) created a' /\
  table_of a' = Some (mkAddressLookupTable grown_meta [10; 11]).
Proof.
  destruct (lookup_table_life sha curve instruction_keys invoke (mkClock 7 0 0 0 0) hashes 1 [1] (context 7 hashes created)
    (snd (run 7 hashes created 1)) (ctx 7 hashes) 1 created) as (a' & Ha' & Hs & _).
  - exact invoke_calls.
  - apply table_context_wf.
  - intros k b. apply context_funded. vm_compute. discriminate.
  - reflexivity.
  - reflexivity.
  - reflexivity.
  - vm_compute. reflexivity.
  - reflexivity.
  - exists a'. split_and!; [exact Ha'|exact Hs|]. clear Hs. vm_compute in Ha'. injection Ha' as <-. vm_compute. reflexivity.
Defined.

(** In slot 8 the addresses of the table load before it is deactivated and after. *)
Definition lookup_both : MessageAddressTableLookup := mkLookup 77 [1] [0].

Lemma lookups_stable_in_slot_witness : exists a',
  accounts_of (snd (run 8 hashes8 grown 2)) !! 1%nat = Some a' /\
  load_lookup_table_addresses (Some a') 8 lookup_both hashes8 = Ok (mkLoadedAddresses [11] [10]).
Proof.
  destruct (lookups_stable_in_slot sha curve instruction_keys invoke (mkClock 8 0 0 0 0) hashes8 1 [2]
    (context 8 hashes8 grown) (snd (run 8 hashes8 grown 2)) (ctx 8 hashes8) 1 grown) as (a' & Ha' & _ & Hs).
  - exact invoke_calls.
  - apply table_context_wf.
  - intros k b. apply context_funded. vm_compute. discriminate.
  - reflexivity.
  - reflexivity.
  - reflexivity.
  - vm_compute. split; [discriminate|reflexivity].
  - assert (table_of grown = Some (mkAddressLookupTable grown_meta [10; 11])) as -> by (vm_compute; reflexivity).
    intros t [= <-]. unfold table_wf. cbn. lia.
  - vm_compute. reflexivity.
  - reflexivity.
  - exists a'. split; [exact Ha'|]. apply Hs; [discriminate|]. vm_compute. reflexivity.
Defined.

Lemma run_instruction slot sh table n a' : 0 <= lamports table -> fst (run slot sh table n) = Ok tt ->
  accounts_of (snd (run slot sh table n)) !! 1%nat = Some a' -> instruction_at sha curve slot sh [n] table a'.
Proof.
  intros Ht Hok Ha'. exists invoke, (context slot sh table), (snd (run slot sh table n)), (ctx slot sh),
    (mkClock slot 0 0 0 0), 1%nat, 1%nat.
  split_and!; [exact invoke_calls|apply table_context_wf|intros; by eapply context_funded|done|done|done|done| |done|done].
  rewrite <- Hok. unfold run. by destruct (lookup_table_process_instruction _ _ _ _ _ _).
Qed.

(** The banks of the [n] slots that follow. *)
Fixpoint banks (n : nat) (slot : Slot) (sh : SlotHashes) : Slot * SlotHashes :=
  match n with
  | O => (slot, sh)
  | S n => banks n (slot + 1) (SlotHashes_add slot 0 sh)
  end.

Lemma banks_steps n slot sh a : slot + Z.of_nat n < U64_MAX ->
  rtc (ledger_step sha curve) (mkLedger slot sh a) (mkLedger (banks n slot sh).1 (banks n slot sh).2 a).
Proof.
  revert slot sh. induction n as [|n IH]; intros slot sh Hs; [reflexivity|].
  eapply rtc_l; [apply (ledger_child sha curve slot sh a (slot + 1) 0); lia|]. apply IH. lia.
Qed.

Definition late : Slot * SlotHashes := banks 513 8 hashes8.
Definition closed : AccountSharedData := table_after (run late.1 late.2 deactivated 3).

Lemma table_never_recreated_witness :
  table_of closed = None /\ ~ instruction_at sha curve late.1 late.2 [0] empty_account created.
Proof.
  split; [vm_compute; reflexivity|].
  eapply (table_never_recreated sha curve zero_uninitialized instruction_keys 7 hashes [0] empty_account created 3 255
    (mkLedger late.1 late.2 closed)) with (bump2 := 255).
  - split_and!; [|set_solver by lia|done]. split; [repeat constructor|cbn; unfold SLOT_HASHES_MAX_ENTRIES; lia].
  - reflexivity.
  - apply run_instruction; [done|vm_compute; reflexivity..].
  - reflexivity.
  - vm_compute. eauto.
  - eapply rtc_l; [apply (ledger_instruction _ _ _ _ [1] _ grown), run_instruction; vm_compute; (reflexivity || discriminate)|].
    eapply rtc_l; [apply (ledger_child _ _ _ _ _ 8 70); done|].
    eapply rtc_l; [apply (ledger_instruction _ _ _ _ [2] _ deactivated), run_instruction; vm_compute; (reflexivity || discriminate)|].
    etransitivity; [apply (banks_steps 513); done|]. apply rtc_once, (ledger_instruction _ _ _ _ [3]), run_instruction;
      vm_compute; (reflexivity || discriminate).
  - vm_compute. reflexivity.
  - reflexivity.
Defined.
End TableExample.
