(* ===== verification/BpfLoader.v ===== *)
(** * The BPF loaders

    [programs/bpf_loader/src/lib.rs] with the states of
    [sdk/program/src/bpf_loader_upgradeable.rs]: deploying, upgrading, closing and
    running programs. The virtual machine ([solana_rbpf]: reading an ELF file, its
    verifier, the compiler, and execution with the system calls it is given) is a
    parameter. The executors of the transaction are part of the state here. *)
From Stdlib Require Import String.
From stdpp Require Import base numbers option list gmap.
From S2P Require Import Prelude Instruction Account EpochSchedule Float64 Rent Sysvar Message PreAccount.
From S2P Require Import ComputeBudget InvokeContext InvokeSpec Nonce System ProgramAddress SystemCall.

Definition bpf_loader_id : Pubkey := Eval vm_compute in pubkey_of "BPFLoader2111111111111111111111111111111111".
Definition bpf_loader_deprecated_id : Pubkey := Eval vm_compute in pubkey_of "BPFLoader1111111111111111111111111111111111".
Definition reduce_required_deploy_balance : Pubkey :=
  Eval vm_compute in pubkey_of "EBeznQDjcPG8491sFsKZYBi5S5jTVXMpAKNDJMQPS2kq".
Definition disable_bpf_deprecated_load_instructions : Pubkey :=
  Eval vm_compute in pubkey_of "3XgNukcZWf9o3HdA3fpJbm94XFc4qpvTXc8h1wxYwiPi".
Definition disable_bpf_unresolved_symbols_at_runtime : Pubkey :=
  Eval vm_compute in pubkey_of "4yuaYAj2jGMGTh1sSmi4G2eFscsDq8qjugJXZoBN6YEa".

Inductive UpgradeableLoaderInstruction : Type :=
| InitializeBuffer
| WriteBuffer (offset : Z) (bytes : list Z)
| DeployWithMaxDataLen (max_data_len : Z)
| Upgrade
| SetAuthority
| Close.

Inductive LoaderInstruction : Type :=
| LoaderWrite (offset : Z) (bytes : list Z)
| LoaderFinalize.

(** The fields of [solana_rbpf::vm::Config] that are not the defaults. *)
Record Config : Type := mkConfig {
  cfg_max_call_depth : nat;
  cfg_stack_frame_size : Z;
  enable_instruction_tracing : bool;
  disable_deprecated_load_instructions : bool;
  disable_unresolved_symbols_at_runtime : bool;
  reject_broken_elfs : bool;
}.

(** What the loader uses of the virtual machine. *)
Class BpfVm : Type := {
  Executable : Type;
  SyscallRegistry : Type;
  from_elf : list Z -> Config -> SyscallRegistry -> option Executable;
  get_text_bytes : Executable -> list Z;
  verifier_check : list Z -> Config -> bool;
  jit_compile : Executable -> option Executable;
  register_syscalls : InvokeContext -> option SyscallRegistry;
}.

(** ** Executors *)

Inductive TransactionExecutorStatus : Type := ExecutorCached | ExecutorMissing | ExecutorUpdated.

Record TransactionExecutor `{BpfVm} : Type := mkTransactionExecutor {
  tx_executor : Executable;
  tx_status : TransactionExecutorStatus;
}.

#[global] Arguments mkTransactionExecutor {_} _ _.

(** The invoke context with the executors of the transaction. *)
Record LoaderContext `{BpfVm} : Type := mkLoaderContext {
  lc_context : InvokeContext;
  lc_executors : gmap Pubkey TransactionExecutor;
}.

#[global] Arguments mkLoaderContext {_} _ _.

Abbreviation LM := (SE LoaderContext InstructionError).

Section executors.
Context `{BpfVm}.

Definition in_context {A} (m : IM A) : LM A :=
  fun l => let '(r, c) := m (lc_context l) in (r, mkLoaderContext c (lc_executors l)).

Definition add_executor (pubkey : Pubkey) (executor : Executable) (l : LoaderContext) : LoaderContext :=
  mkLoaderContext (lc_context l) (<[pubkey := mkTransactionExecutor executor ExecutorMissing]> (lc_executors l)).

Definition update_executor (pubkey : Pubkey) (executor : Executable) (l : LoaderContext) : LoaderContext :=
  mkLoaderContext (lc_context l) (<[pubkey := mkTransactionExecutor executor ExecutorUpdated]> (lc_executors l)).

Definition get_executor (pubkey : Pubkey) (l : LoaderContext) : option Executable :=
  tx_executor <$> lc_executors l !! pubkey.
End executors.

(** ** Sizes *)

Section sizes.
Context `{Bincode UpgradeableLoaderState}.

Definition state_size (state : UpgradeableLoaderState) : outcome InstructionError Z :=
  map_err (fun _ => InvalidInstructionData) (bincode_serialized_size state).

Definition buffer_len (program_len : Z) : outcome InstructionError Z :=
  len ← state_size (LoaderBuffer (Some Pubkey_default)); Ok (saturating_add64 len program_len).
Definition buffer_data_offset : outcome InstructionError Z := buffer_len 0.
Definition program_len : outcome InstructionError Z := state_size (LoaderProgram Pubkey_default).
Definition programdata_len (program_len : Z) : outcome InstructionError Z :=
  len ← state_size (LoaderProgramData 0 (Some Pubkey_default)); Ok (saturating_add64 len program_len).
Definition programdata_data_offset : outcome InstructionError Z := programdata_len 0.
End sizes.

(** ** Accounts *)

(** [&data[offset..]] and [data[offset..offset + len].copy_from_slice(bytes)] *)
Definition data_from {E} (offset : Z) (d : list Z) : outcome E (list Z) :=
  if offset <=? Z.of_nat (length d) then Ok (drop (Z.to_nat offset) d) else Panic.

Definition copy_into {E} (offset : Z) (bytes d : list Z) : outcome E (list Z) :=
  if offset + Z.of_nat (length bytes) <=? Z.of_nat (length d)
  then Ok (take (Z.to_nat offset) d ++ bytes ++ drop (Z.to_nat offset + length bytes) d) else Panic.

(** [to.try_account_ref_mut()?.checked_add_lamports(amount)] where [amount] reads
    the accounts [sources] while [to] is borrowed. *)
Definition add_lamports_from (to : KeyedAccount) (sources : list KeyedAccount) (amount : AM Z) : AM unit :=
  _ ← ensure (negb (existsb (fun k => bool_decide (account k = account to)) sources)) AccountBorrowFailed;
  n ← amount;
  lamports_op to (checked_add_lamports n).

Definition ka_set_lamports (k : KeyedAccount) (n : Z) : AM unit := with_account k (modify (set_lamports n)).

Section loader.
Context `{BpfVm} (trace_enabled : bool).
Context (sha256 : list Z -> Hash) (bytes_are_curve_point : Hash -> bool).
Context `{Bincode UpgradeableLoaderState} `{Bincode UpgradeableLoaderInstruction} `{Bincode LoaderInstruction}.
Context `{Bincode Rent} `{Bincode Clock} `{BincodeVec SystemInstruction}.

Definition create_executor (programdata_account_index : nat) (programdata_offset : Z) (use_jit : bool)
    (reject_deployment_of_broken_elfs : bool) : IM Executable :=
  c ← get;
  syscall_registry ← lift (ok_or ProgramEnvironmentSetupFailure (register_syscalls c));
  let budget := current_compute_budget c in
  let config := mkConfig (max_call_depth budget) (stack_frame_size budget) trace_enabled
    (reject_deployment_of_broken_elfs && feature c disable_bpf_deprecated_load_instructions)
    (feature c disable_bpf_unresolved_symbols_at_runtime) reject_deployment_of_broken_elfs in
  keyed_accounts ← lift (get_keyed_accounts c);
  programdata ← on_accounts (keyed_account_at_index keyed_accounts programdata_account_index);
  a ← on_accounts (try_account_ref programdata);
  bytes ← lift (data_from programdata_offset (data a));
  executable ← lift (ok_or InvalidAccountData (from_elf bytes config syscall_registry));
  _ ← ensure (verifier_check (get_text_bytes executable) config) InvalidAccountData;
  if use_jit then lift (ok_or ProgramFailedToCompile (jit_compile executable)) else mret executable.

Definition write_program_data (program_account_index : nat) (program_data_offset : Z) (bytes : list Z)
    (keyed_accounts : list KeyedAccount) : AM unit :=
  program ← keyed_account_at_index keyed_accounts program_account_index;
  with_account program
    (account ← get;
     _ ← ensure (negb (Z.of_nat (length (data account)) <? program_data_offset + Z.of_nat (length bytes)))
           AccountDataTooSmall;
     d ← lift (copy_into program_data_offset bytes (data account));
     modify (set_data d)).

Definition check_loader_id (id : Pubkey) : bool :=
  (id =? bpf_loader_id) || (id =? bpf_loader_deprecated_id) || (id =? bpf_loader_upgradeable_id).

(** The check of an authority against the keyed account that stands for it. *)
Definition check_loader_authority (authority_address : option Pubkey) (authority : KeyedAccount) : AM unit :=
  _ ← ensure (bool_decide (is_Some authority_address)) Immutable;
  _ ← ensure (bool_decide (authority_address = Some (unsigned_key authority))) IncorrectAuthority;
  ensure (bool_decide (is_Some (signer_key authority))) MissingRequiredSignature.

Definition common_close_account (authority_address : option Pubkey)
    (authority_account close_account recipient_account : KeyedAccount) : AM unit :=
  _ ← check_loader_authority authority_address authority_account;
  _ ← add_lamports_from recipient_account [close_account] (ka_lamports close_account);
  _ ← ka_set_lamports close_account 0;
  ka_set_state close_account LoaderUninitialized.

(** ** The instructions of the upgradeable loader *)

Section handlers.
Context (program_id : Pubkey) (keyed_accounts : list KeyedAccount) (first : nat).

Definition loader_account (n : nat) : AM KeyedAccount := keyed_account_at_index keyed_accounts (first + n).

Definition initialize_buffer : AM unit :=
  buffer ← loader_account 0;
  state ← ka_state buffer;
  _ ← ensure (match state with LoaderUninitialized => true | _ => false end) AccountAlreadyInitialized;
  authority ← loader_account 1;
  ka_set_state buffer (LoaderBuffer (Some (unsigned_key authority))).

Definition write_buffer (offset : Z) (bytes : list Z) : AM unit :=
  buffer ← loader_account 0;
  authority ← loader_account 1;
  state ← ka_state buffer;
  _ ← (match state with
       | LoaderBuffer authority_address => check_loader_authority authority_address authority
       | _ => throw InvalidAccountData
       end);
  data_offset ← lift buffer_data_offset;
  write_program_data first (data_offset + offset) bytes keyed_accounts.

(** The buffer of a deployment or an upgrade belongs to the authority, who signed. *)
Definition check_buffer (buffer authority : KeyedAccount) : AM unit :=
  state ← ka_state buffer;
  match state with
  | LoaderBuffer authority_address =>
      _ ← ensure (bool_decide (authority_address = Some (unsigned_key authority))) IncorrectAuthority;
      ensure (bool_decide (is_Some (signer_key authority))) MissingRequiredSignature
  | _ => throw InvalidArgument
  end.

(** The program bits of the buffer go to the program data account. The buffer is
    read while the program data account is borrowed. *)
Definition copy_program (programdata buffer : KeyedAccount) (programdata_data_offset buffer_data_offset : Z) : AM unit :=
  _ ← ensure (negb (bool_decide (account buffer = account programdata))) AccountBorrowFailed;
  b ← try_account_ref buffer;
  bytes ← lift (data_from buffer_data_offset (data b));
  with_account programdata (a ← get; d ← lift (copy_into programdata_data_offset bytes (data a)); modify (set_data d)).

Definition set_loader_authority : AM unit :=
  account ← loader_account 0;
  present_authority ← loader_account 1;
  let new_authority := unsigned_key <$> keyed_accounts !! (first + 2)%nat in
  state ← ka_state account;
  match state with
  | LoaderBuffer authority_address =>
      _ ← ensure (bool_decide (is_Some new_authority)) IncorrectAuthority;
      _ ← check_loader_authority authority_address present_authority;
      ka_set_state account (LoaderBuffer new_authority)
  | LoaderProgramData slot upgrade_authority_address =>
      _ ← check_loader_authority upgrade_authority_address present_authority;
      ka_set_state account (LoaderProgramData slot new_authority)
  | _ => throw InvalidArgument
  end.

Definition close_loader_account : AM unit :=
  close_account ← loader_account 0;
  recipient_account ← loader_account 1;
  _ ← ensure (negb (unsigned_key close_account =? unsigned_key recipient_account)) InvalidArgument;
  state ← ka_state close_account;
  match state with
  | LoaderUninitialized =>
      _ ← add_lamports_from recipient_account [close_account] (ka_lamports close_account);
      ka_set_lamports close_account 0
  | LoaderBuffer authority_address =>
      authority ← loader_account 2;
      common_close_account authority_address authority close_account recipient_account
  | LoaderProgramData _ authority_address =>
      program_account ← loader_account 3;
      _ ← ensure (is_writable program_account) InvalidArgument;
      program_owner ← ka_owner program_account;
      _ ← ensure (program_owner =? program_id) IncorrectProgramId;
      program_state ← ka_state program_account;
      match program_state with
      | LoaderProgram programdata_address =>
          _ ← ensure (programdata_address =? unsigned_key close_account) InvalidArgument;
          authority ← loader_account 2;
          common_close_account authority_address authority close_account recipient_account
      | _ => throw InvalidArgument
      end
  | LoaderProgram _ => throw InvalidArgument
  end.

(** The checks of an upgrade; returns the program, the clock, the offset of the
    bits in the buffer and in the program data, and the balance the program data
    account needs. *)
Definition check_upgrade : AM (Pubkey * Clock * Z * Z * Z) :=
  programdata ← loader_account 0;
  program ← loader_account 1;
  buffer ← loader_account 2;
  k ← loader_account 4;
  rent ← from_keyed_account Rent rent_id k;
  k ← loader_account 5;
  clock ← from_keyed_account Clock clock_id k;
  authority ← loader_account 6;
  program_executable ← ka_executable program;
  _ ← ensure program_executable AccountNotExecutable;
  _ ← ensure (is_writable program) InvalidArgument;
  program_owner ← ka_owner program;
  _ ← ensure (program_owner =? program_id) IncorrectProgramId;
  program_state ← ka_state program;
  _ ← (match program_state with
       | LoaderProgram programdata_address =>
           ensure (programdata_address =? unsigned_key programdata) InvalidArgument
       | _ => throw InvalidAccountData
       end);
  let new_program_id := unsigned_key program in
  _ ← check_buffer buffer authority;
  buffer_data_offset ← lift buffer_data_offset;
  buffer_len ← ka_data_len buffer;
  let buffer_data_len := saturating_sub64 buffer_len buffer_data_offset in
  programdata_data_offset ← lift programdata_data_offset;
  programdata_data_len ← ka_data_len programdata;
  let programdata_balance_required := Z.max 1 (minimum_balance rent programdata_data_len) in
  _ ← ensure (negb ((buffer_len <? buffer_data_offset) || (buffer_data_len =? 0))) InvalidAccountData;
  needed ← lift (programdata_len buffer_data_len);
  _ ← ensure (negb (programdata_data_len <? needed)) AccountDataTooSmall;
  programdata_lamports ← ka_lamports programdata;
  buffer_lamports ← ka_lamports buffer;
  _ ← ensure (negb (add64 programdata_lamports buffer_lamports <? programdata_balance_required)) InsufficientFunds;
  programdata_state ← ka_state programdata;
  _ ← (match programdata_state with
       | LoaderProgramData _ upgrade_authority_address => check_loader_authority upgrade_authority_address authority
       | _ => throw InvalidAccountData
       end);
  mret (new_program_id, clock, buffer_data_offset, programdata_data_offset, programdata_balance_required).

(** Records the new bits, zeroes the rest, funds the program data account and
    spills what remains. *)
Definition apply_upgrade (clock : Clock) (buffer_data_offset programdata_data_offset programdata_balance_required : Z)
  : AM unit :=
  programdata ← loader_account 0;
  buffer ← loader_account 2;
  spill ← loader_account 3;
  authority ← loader_account 6;
  _ ← ka_set_state programdata (LoaderProgramData (clock_slot clock) (Some (unsigned_key authority)));
  _ ← copy_program programdata buffer programdata_data_offset buffer_data_offset;
  b ← try_account_ref buffer;
  let bits_end := (Z.to_nat programdata_data_offset + (length (data b) - Z.to_nat buffer_data_offset))%nat in
  _ ← with_account programdata
        (modify (fun a => set_data (take bits_end (data a) ++ replicate (length (data a) - bits_end) 0) a));
  _ ← add_lamports_from spill [programdata; buffer]
        (programdata_lamports ← ka_lamports programdata;
         buffer_lamports ← ka_lamports buffer;
         mret (saturating_sub64 (add64 programdata_lamports buffer_lamports) programdata_balance_required));
  _ ← ka_set_lamports buffer 0;
  ka_set_lamports programdata programdata_balance_required.

(** The checks of a deployment; returns the rent, the clock, the offsets, the
    size of the program data account and the seed of its address. *)
Definition check_deploy (max_data_len : Z) : AM (Rent * Clock * Z * Z * Z * Z) :=
  payer ← loader_account 0;
  programdata ← loader_account 1;
  program ← loader_account 2;
  buffer ← loader_account 3;
  k ← loader_account 4;
  rent ← from_keyed_account Rent rent_id k;
  k ← loader_account 5;
  clock ← from_keyed_account Clock clock_id k;
  authority ← loader_account 7;
  program_state ← ka_state program;
  _ ← ensure (match program_state with LoaderUninitialized => true | _ => false end) AccountAlreadyInitialized;
  program_data_len ← ka_data_len program;
  min_len ← lift program_len;
  _ ← ensure (negb (program_data_len <? min_len)) AccountDataTooSmall;
  program_lamports ← ka_lamports program;
  _ ← ensure (negb (program_lamports <? minimum_balance rent program_data_len)) ExecutableAccountNotRentExempt;
  let new_program_id := unsigned_key program in
  _ ← check_buffer buffer authority;
  buffer_data_offset ← lift buffer_data_offset;
  buffer_len ← ka_data_len buffer;
  let buffer_data_len := saturating_sub64 buffer_len buffer_data_offset in
  programdata_data_offset ← lift programdata_data_offset;
  programdata_len ← lift (programdata_len max_data_len);
  _ ← ensure (negb ((buffer_len <? buffer_data_offset) || (buffer_data_len =? 0))) InvalidAccountData;
  _ ← ensure (negb (max_data_len <? buffer_data_len)) AccountDataTooSmall;
  _ ← ensure (negb (MAX_PERMITTED_DATA_LENGTH <? programdata_len)) InvalidArgument;
  derived ← lift (find_program_address sha256 bytes_are_curve_point [hash_bytes new_program_id] program_id);
  let '(derived_address, bump_seed) := derived in
  _ ← ensure (derived_address =? unsigned_key programdata) InvalidArgument;
  mret (rent, clock, buffer_data_offset, programdata_data_offset, programdata_len, bump_seed).

(** Moves the buffer's lamports to the payer. *)
Definition drain_buffer : AM unit :=
  payer ← loader_account 0;
  buffer ← loader_account 3;
  _ ← add_lamports_from payer [buffer] (ka_lamports buffer);
  ka_set_lamports buffer 0.

Definition apply_deploy (clock : Clock) (buffer_data_offset programdata_data_offset : Z) (predrain_buffer : bool)
  : AM unit :=
  programdata ← loader_account 1;
  program ← loader_account 2;
  buffer ← loader_account 3;
  authority ← loader_account 7;
  _ ← ka_set_state programdata (LoaderProgramData (clock_slot clock) (Some (unsigned_key authority)));
  _ ← copy_program programdata buffer programdata_data_offset buffer_data_offset;
  _ ← ka_set_state program (LoaderProgram (unsigned_key programdata));
  _ ← with_account program (modify (set_executable true));
  if predrain_buffer then mret tt else drain_buffer.
End handlers.

(** ** Dispatch *)

Section invoking.
Context (invoke : Invoke).

(** Code on the accounts with the keyed accounts of the frame. *)
Definition on_frame {A} (m : list KeyedAccount -> AM A) : LM A :=
  in_context (c ← get; keyed_accounts ← lift (get_keyed_accounts c); on_accounts (m keyed_accounts)).

(** The system program creates the program data account; the loader signs for
    its address. The buffer is passed along for the balance of the call. *)
Definition create_programdata (program_id : Pubkey) (rent : Rent) (programdata_len bump_seed : Z)
    (payer programdata program buffer : KeyedAccount) : IM unit :=
  ix ← lift (create_account_ix (unsigned_key payer) (unsigned_key programdata)
               (Z.max 1 (minimum_balance rent programdata_len)) programdata_len program_id);
  let ix := mkInstruction (ix_program_id ix) (ix_accounts ix ++ [AccountMeta_new (unsigned_key buffer) false])
              (ix_data ix) in
  c ← get;
  caller_program_id ← lift (get_caller c);
  signer ← lift (pubkey_err (create_program_address sha256 bytes_are_curve_point
    [hash_bytes (unsigned_key program); [bump_seed]] caller_program_id));
  invoke ix [signer].

Definition deploy_with_max_data_len (program_id : Pubkey) (first : nat) (max_data_len : Z) (use_jit : bool) : LM unit :=
  checked ← on_frame (fun keyed => check_deploy program_id keyed first max_data_len);
  let '(rent, clock, buffer_data_offset, programdata_data_offset, programdata_len, bump_seed) := checked in
  accounts ← on_frame (fun keyed =>
    payer ← loader_account keyed first 0;
    programdata ← loader_account keyed first 1;
    program ← loader_account keyed first 2;
    buffer ← loader_account keyed first 3;
    mret (payer, programdata, program, buffer));
  let '(payer, programdata, program, buffer) := accounts in
  predrain_buffer ← in_context (c ← get; mret (feature c reduce_required_deploy_balance));
  _ ← (if predrain_buffer then on_frame (fun keyed => drain_buffer keyed first) else mret tt);
  _ ← in_context (create_programdata program_id rent programdata_len bump_seed payer programdata program buffer);
  executor ← in_context (create_executor (first + 3) buffer_data_offset use_jit true);
  _ ← modify (update_executor (unsigned_key program) executor);
  on_frame (fun keyed => apply_deploy keyed first clock buffer_data_offset programdata_data_offset predrain_buffer).

Definition upgrade (program_id : Pubkey) (first : nat) (use_jit : bool) : LM unit :=
  checked ← on_frame (fun keyed => check_upgrade program_id keyed first);
  let '(new_program_id, clock, buffer_data_offset, programdata_data_offset, programdata_balance_required) := checked in
  executor ← in_context (create_executor (first + 2) buffer_data_offset use_jit true);
  _ ← modify (update_executor new_program_id executor);
  on_frame (fun keyed =>
    apply_upgrade keyed first clock buffer_data_offset programdata_data_offset programdata_balance_required).

Definition process_loader_upgradeable_instruction (first_instruction_account : nat) (instruction_data : list Z)
    (use_jit : bool) : LM unit :=
  l ← get;
  program_id ← lift (get_caller (lc_context l));
  _ ← lift (get_keyed_accounts (lc_context l));
  instruction ← lift (limited_deserialize instruction_data PACKET_DATA_SIZE);
  let first := first_instruction_account in
  match instruction with
  | InitializeBuffer => on_frame (fun keyed => initialize_buffer keyed first)
  | WriteBuffer offset bytes => on_frame (fun keyed => write_buffer keyed first offset bytes)
  | DeployWithMaxDataLen max_data_len => deploy_with_max_data_len program_id first max_data_len use_jit
  | Upgrade => upgrade program_id first use_jit
  | SetAuthority => on_frame (fun keyed => set_loader_authority keyed first)
  | Close => on_frame (fun keyed => close_loader_account program_id keyed first)
  end.

Definition process_loader_instruction (first_instruction_account : nat) (instruction_data : list Z) (use_jit : bool)
  : LM unit :=
  l ← get;
  program_id ← lift (get_caller (lc_context l));
  keyed_accounts ← lift (get_keyed_accounts (lc_context l));
  program ← in_context (on_accounts (keyed_account_at_index keyed_accounts first_instruction_account));
  program_owner ← in_context (on_accounts (ka_owner program));
  _ ← ensure (program_owner =? program_id) IncorrectProgramId;
  instruction ← lift (limited_deserialize instruction_data PACKET_DATA_SIZE);
  match instruction with
  | LoaderWrite offset bytes =>
      _ ← ensure (bool_decide (is_Some (signer_key program))) MissingRequiredSignature;
      on_frame (write_program_data first_instruction_account offset bytes)
  | LoaderFinalize =>
      _ ← ensure (bool_decide (is_Some (signer_key program))) MissingRequiredSignature;
      executor ← in_context (create_executor first_instruction_account 0 use_jit true);
      program ← on_frame (fun keyed => keyed_account_at_index keyed first_instruction_account);
      _ ← modify (update_executor (unsigned_key program) executor);
      in_context (on_accounts (with_account program (modify (set_executable true))))
  end.

(** The virtual machine runs an executable on the accounts from an index on. *)
Context (execute : Executable -> nat -> list Z -> bool -> LM unit).

(** Where the bits of a program are: in its program data account, which the
    upgradeable loader requires to be the first account, or in the program. *)
Definition program_bits_offset (first_account program : KeyedAccount) : AM Z :=
  program_owner ← ka_owner program;
  if program_owner =? bpf_loader_upgradeable_id then
    program_state ← ka_state program;
    match program_state with
    | LoaderProgram programdata_address =>
        _ ← ensure (programdata_address =? unsigned_key first_account) InvalidArgument;
        first_state ← ka_state first_account;
        _ ← ensure (match first_state with LoaderProgramData _ _ => true | _ => false end) InvalidAccountData;
        lift programdata_data_offset
    | _ => throw InvalidAccountData
    end
  else mret 0.

(** The program's account and the index of the account before its own. *)
Definition find_program (program_id : Pubkey) (keyed_accounts : list KeyedAccount) (first : nat)
  : AM (KeyedAccount * KeyedAccount * nat) :=
  first_account ← keyed_account_at_index keyed_accounts first;
  let second_account := keyed_accounts !! (first + 1)%nat in
  if unsigned_key first_account =? program_id then mret (first_account, first_account, first)
  else
    match second_account with
    | Some second =>
        if unsigned_key second =? program_id then mret (first_account, second, (first + 1)%nat)
        else
          x ← ka_executable first_account;
          _ ← ensure (negb x) IncorrectProgramId;
          mret (first_account, first_account, first)
    | None =>
        x ← ka_executable first_account;
        _ ← ensure (negb x) IncorrectProgramId;
        mret (first_account, first_account, first)
    end.

Definition process_instruction_common (first_instruction_account : nat) (instruction_data : list Z) (use_jit : bool)
  : LM unit :=
  l ← get;
  program_id ← lift (get_caller (lc_context l));
  found ← on_frame (fun keyed => find_program program_id keyed first_instruction_account);
  let '(first_account, program, next_first_instruction_account) := found in
  program_executable ← in_context (on_accounts (ka_executable program));
  if (program_executable : bool) then
    program_owner ← in_context (on_accounts (ka_owner program));
    _ ← ensure (check_loader_id program_owner) IncorrectProgramId;
    program_data_offset ← in_context (on_accounts (program_bits_offset first_account program));
    l ← get;
    executor ← (match get_executor program_id l with
                | Some executor => mret executor
                | None =>
                    executor ← in_context
                      (create_executor first_instruction_account program_data_offset use_jit false);
                    l ← get;
                    program_id ← lift (get_caller (lc_context l));
                    _ ← modify (add_executor program_id executor);
                    mret executor
                end);
    execute executor next_first_instruction_account instruction_data use_jit
  else if program_id =? bpf_loader_upgradeable_id then
    process_loader_upgradeable_instruction first_instruction_account instruction_data use_jit
  else if (program_id =? bpf_loader_id) || (program_id =? bpf_loader_deprecated_id) then
    process_loader_instruction first_instruction_account instruction_data use_jit
  else throw IncorrectProgramId.
End invoking.
End loader.
