(* ===== verification/BpfLoaderSpec.v ===== *)
(** * Properties of the upgradeable loader

    Only the authority of a buffer or of a program changes it, a program without
    an authority never changes, and the bits that a deployment or an upgrade
    stores are the ones the virtual machine verified. *)
From stdpp Require Import base numbers option list gmap.
From S2P Require Import Prelude Instruction Account EpochSchedule Float64 Rent Sysvar Message PreAccount.
From S2P Require Import ComputeBudget InvokeContext InvokeSpec Nonce System ProgramAddress SystemCall BpfLoader.

(** ** Accounts that are spared *)

(** An account keeps its data, owner and flag and loses no lamports. *)
Definition spared (a a' : AccountSharedData) : Prop :=
  data a' = data a /\ owner a' = owner a /\ executable a' = executable a /\ lamports a <= lamports a'.

#[global] Instance spared_preorder : PreOrder spared.
Proof. unfold spared. split; [intros a; split_and!; done|]. intros a b c. intuition (congruence || lia). Qed.

(** The account [i] is spared. *)
Definition spares (i : nat) (s s' : Accounts) : Prop :=
  forall a, s !! i = Some a -> exists a', s' !! i = Some a' /\ spared a a'.

#[global] Instance spares_preorder i : PreOrder (spares i).
Proof.
  split; [intros s a Ha; exists a; split; [done|reflexivity]|].
  intros s1 s2 s3 H12 H23 a Ha. destruct (H12 _ Ha) as (b & Hb & Hab). destruct (H23 _ Hb) as (c & Hc & Hbc).
  exists c. split; [done|]. by etransitivity.
Qed.

Lemma spares_insert i k s x y : s !! k = Some x -> (i = k -> spared x y) -> spares i s (<[k := y]> s).
Proof.
  intros Hx Hs a Ha. destruct (decide (i = k)) as [->|Hne].
  - assert (x = a) as -> by congruence. exists y. rewrite list_lookup_insert_eq by (by eapply lookup_lt_Some). auto.
  - exists a. rewrite list_lookup_insert_ne by done. split; [done|reflexivity].
Qed.

Lemma with_account_spares {A} i k (m : SE AccountSharedData InstructionError A) s r s' :
  with_account k m s = (Ok r, s') -> (i = account k -> forall a r a', s !! i = Some a -> m a = (Ok r, a') -> spared a a') ->
  spares i s s'.
Proof.
  intros (a & a' & Ha & Hm & ->)%with_account_Ok Hs. apply (spares_insert i _ _ a); [done|]. intros ->. by eapply Hs.
Qed.

Lemma with_account_other {A} i k (m : SE AccountSharedData InstructionError A) s r s' :
  with_account k m s = (Ok r, s') -> i ≠ account k -> spares i s s'.
Proof. intros Hw Hne. eapply with_account_spares; [done|]. intros. done. Qed.

Lemma moved_spares i k j n s s' a : moved k j n s s' -> 0 <= n -> s !! i = Some a -> data a ≠ [] -> spares i s s'.
Proof.
  intros Hm Hn Ha Hd x Hx. assert (x = a) as -> by congruence.
  destruct (moved_lookup _ _ _ _ _ _ _ Hm Hn Ha) as (a' & Ha' & Heq & Hl & _). exists a'. split; [done|].
  rewrite Heq. split_and!; [done..|]. by apply Hl.
Qed.

(** Crediting an account with what other accounts hold. *)
Lemma add_lamports_from_Ok to sources amount s u s' : add_lamports_from to sources amount s = (Ok u, s') ->
  Forall (fun k => account k ≠ account to) sources /\
  exists n s1 x, amount s = (Ok n, s1) /\ s1 !! account to = Some x /\ lamports x + n <= U64_MAX /\
    s' = <[account to := set_lamports (lamports x + n) x]> s1.
Proof.
  unfold add_lamports_from. intros Hr. ok_inv. acct_inv. split; [|eauto 10].
  apply Forall_forall. intros k Hk Heq. apply not_true_iff_false in H. apply H. apply existsb_exists.
  exists k. split; [by apply list_elem_of_In|]. by apply bool_decide_eq_true.
Qed.

Lemma ka_lamports_Ok k s n s' : ka_lamports k s = (Ok n, s') -> s' = s /\ exists a, s !! account k = Some a /\ n = lamports a.
Proof. unfold ka_lamports. intros Hr. read_inv. eauto. Qed.

Lemma ka_data_len_Ok k s n s' : ka_data_len k s = (Ok n, s') ->
  s' = s /\ exists a, s !! account k = Some a /\ n = Z.of_nat (length (data a)).
Proof. unfold ka_data_len. intros Hr. read_inv. eauto. Qed.

Lemma ka_owner_Ok k s o s' : ka_owner k s = (Ok o, s') -> s' = s /\ exists a, s !! account k = Some a /\ o = owner a.
Proof. unfold ka_owner. intros Hr. read_inv. eauto. Qed.

Lemma ka_executable_Ok k s x s' : ka_executable k s = (Ok x, s') ->
  s' = s /\ exists a, s !! account k = Some a /\ x = executable a.
Proof. unfold ka_executable. intros Hr. read_inv. eauto. Qed.

Lemma from_keyed_account_same T `{Bincode T} id k s x s' : from_keyed_account T id k s = (Ok x, s') -> s' = s.
Proof. intros Hr. by read_inv. Qed.

(** Storing a state, with the bytes that are written. *)
Lemma account_set_state_raw {T} `{Bincode T} (x : T) a u a' : account_set_state x a = (Ok u, a') ->
  exists n d, bincode_serialized_size x = Ok n /\ n <= Z.of_nat (length (data a)) /\
    bincode_serialize_into x (data a) = (Ok tt, d) /\ a' = set_data d a.
Proof.
  unfold account_set_state, shared_serialize_data, serialize_into_data. se_eval.
  destruct (bincode_serialized_size x) as [n|e|]; cbn; [|done|done].
  destruct (Z.ltb_spec (Z.of_nat (length (data a))) n); cbn; [done|].
  destruct (bincode_serialize_into x (data a)) as [[[]| |] d]; cbn; [|done|done]. intros [= _ <-]. eauto 10.
Qed.

Lemma copy_program_Ok programdata buffer pdoff boff s u s' : copy_program programdata buffer pdoff boff s = (Ok u, s') ->
  account buffer ≠ account programdata /\ exists pd b, s !! account programdata = Some pd /\
    s !! account buffer = Some b /\ boff <= Z.of_nat (length (data b)) /\
    let bits := drop (Z.to_nat boff) (data b) in
    pdoff + Z.of_nat (length bits) <= Z.of_nat (length (data pd)) /\
    s' = <[account programdata := set_data (take (Z.to_nat pdoff) (data pd) ++ bits ++
             drop (Z.to_nat pdoff + length bits) (data pd)) pd]> s.
Proof.
  unfold copy_program, data_from, copy_into. intros Hr. acct_inv. split; [done|].
  repeat match goal with Hx : (_ <=? _) = true |- _ => apply Z.leb_le in Hx end. eauto 10.
Qed.

(** ** Who may change an account of the loader *)

(** The key that governs an account in this state; nobody governs a program account. *)
Definition loader_authority (st : UpgradeableLoaderState) : option Pubkey :=
  match st with
  | LoaderBuffer authority_address => authority_address
  | LoaderProgramData _ upgrade_authority_address => upgrade_authority_address
  | _ => None
  end.

Section handlers.
Context `{BincodeLaws UpgradeableLoaderState} `{Bincode Rent} `{Bincode Clock}.
Context (sha256 : list Z -> Hash) (bytes_are_curve_point : Hash -> bool).
Context (program_id : Pubkey) (keyed : list KeyedAccount) (first : nat).

Definition governs (st : UpgradeableLoaderState) : Prop :=
  exists pk, loader_authority st = Some pk /\ keyed_signed keyed pk.

Lemma loader_account_Ok n s k s' : loader_account keyed first n s = (Ok k, s') ->
  s' = s /\ keyed !! (first + n)%nat = Some k /\ k ∈ keyed.
Proof.
  unfold loader_account. intros [Hk ->]%keyed_account_at_index_Ok. split_and!; [done|done|]. by eapply list_elem_of_lookup_2.
Qed.

Lemma check_loader_authority_Ok authority_address k s u s' : k ∈ keyed ->
  check_loader_authority authority_address k s = (Ok u, s') ->
  s' = s /\ authority_address = Some (key k) /\ keyed_signed keyed (key k).
Proof.
  unfold check_loader_authority. intros Hk Hr. ok_inv. split_and!; [done|done|]. by apply signer_key_keyed.
Qed.

Lemma check_buffer_Ok buffer authority s u s' : authority ∈ keyed -> check_buffer buffer authority s = (Ok u, s') ->
  s' = s /\ keyed_signed keyed (key authority) /\
  exists a, s !! account buffer = Some a /\ account_state a = Ok (LoaderBuffer (Some (key authority))).
Proof.
  unfold check_buffer. intros Hk Hr. apply SE_bind_Ok in Hr as (st & s1 & (-> & a & Ha & Hst)%ka_state_Ok & Hr).
  destruct st; try done. ok_inv. subst. split_and!; [done|by apply signer_key_keyed|eauto].
Qed.

(** The account [i] holds a state other than [Uninitialized]. *)
Context (i : nat) (a : AccountSharedData) (st : UpgradeableLoaderState).
Context (Hst : account_state a = Ok st) (Hinit : st ≠ LoaderUninitialized).

(** Either its authority signed, or it is spared. *)
Definition protects (s s' : Accounts) : Prop := s !! i = Some a -> governs st \/ spares i s s'.

Lemma initialize_buffer_protects s u s' : initialize_buffer keyed first s = (Ok u, s') -> protects s s'.
Proof.
  intros Hr Ha. unfold initialize_buffer in Hr. ok_inv.
  repeat match goal with Hx : loader_account _ _ _ _ = _ |- _ => apply loader_account_Ok in Hx as (-> & ? & ?) end.
  match goal with Hx : ka_state _ _ = _ |- _ => apply ka_state_Ok in Hx as (-> & b & Hb & Hbst) end.
  right. eapply with_account_other; [done|]. intros ->. assert (b = a) as -> by congruence.
  rewrite Hst in Hbst. injection Hbst as <-. by destruct st.
Qed.

Lemma write_program_data_other offset bytes s u s' k : write_program_data first offset bytes keyed s = (Ok u, s') ->
  keyed !! first = Some k -> i ≠ account k -> spares i s s'.
Proof.
  intros Hr Hk Hne. unfold write_program_data in Hr. apply SE_bind_Ok in Hr as (k' & s1 & [Hk' ->]%keyed_account_at_index_Ok & Hr).
  assert (k' = k) as -> by congruence. by eapply with_account_other.
Qed.

Lemma write_buffer_protects offset bytes s u s' : write_buffer keyed first offset bytes s = (Ok u, s') -> protects s s'.
Proof.
  intros Hr Ha. unfold write_buffer in Hr.
  apply SE_bind_Ok in Hr as (buffer & s1 & (-> & Hb & _)%loader_account_Ok & Hr).
  apply SE_bind_Ok in Hr as (authority & s2 & (-> & _ & Hauth)%loader_account_Ok & Hr).
  apply SE_bind_Ok in Hr as (bst & s3 & (-> & b & Hbl & Hbst)%ka_state_Ok & Hr).
  apply SE_bind_Ok in Hr as (u1 & s4 & Hchk & Hr). destruct bst; try done.
  apply check_loader_authority_Ok in Hchk as (-> & -> & Hsig); [|done]. ok_inv. rewrite Nat.add_0_r in Hb.
  destruct (decide (i = account buffer)) as [->|Hne].
  - left. assert (b = a) as -> by congruence. rewrite Hst in Hbst. injection Hbst as ->. by exists (key authority).
  - right. by eapply write_program_data_other.
Qed.

Lemma set_loader_authority_protects s u s' : set_loader_authority keyed first s = (Ok u, s') -> protects s s'.
Proof.
  intros Hr Ha. unfold set_loader_authority in Hr.
  apply SE_bind_Ok in Hr as (k & s1 & (-> & Hk & _)%loader_account_Ok & Hr).
  apply SE_bind_Ok in Hr as (present & s2 & (-> & _ & Hp)%loader_account_Ok & Hr).
  apply SE_bind_Ok in Hr as (kst & s3 & (-> & b & Hb & Hbst)%ka_state_Ok & Hr).
  destruct (decide (i = account k)) as [->|Hne].
  - left. assert (b = a) as -> by congruence. rewrite Hst in Hbst. injection Hbst as <-.
    destruct st; try done; ok_inv;
      match goal with Hx : check_loader_authority _ _ _ = _ |- _ => apply check_loader_authority_Ok in Hx as (_ & -> & Hsig); [|done] end;
      by exists (key present).
  - right. destruct kst; try done; ok_inv;
      match goal with Hx : check_loader_authority _ _ _ = _ |- _ => apply check_loader_authority_Ok in Hx as (-> & _ & _); [|done] end;
      by eapply with_account_other.
Qed.

(** Emptying one account into another. *)
Lemma drained_spares from to s u s1 u' s' : (forall k b, s !! k = Some b -> 0 <= lamports b) ->
  add_lamports_from to [from] (ka_lamports from) s = (Ok u, s1) -> ka_set_lamports from 0 s1 = (Ok u', s') ->
  i ≠ account from -> spares i s s'.
Proof.
  intros Hpos (_ & n & s2 & x & Hn & Hx & _ & ->)%add_lamports_from_Ok Hset Hne.
  apply ka_lamports_Ok in Hn as (-> & b & Hb & ->). transitivity (<[account to := set_lamports (lamports x + lamports b) x]> s).
  - apply (spares_insert _ _ _ x); [done|]. intros _. specialize (Hpos _ _ Hb). split_and!; [done..|]. cbn. lia.
  - by eapply with_account_other.
Qed.

Lemma common_close_protects authority_address authority from to s u s' b : (forall k b, s !! k = Some b -> 0 <= lamports b) ->
  authority ∈ keyed -> s !! account from = Some b -> (forall x, account_state b = Ok x -> loader_authority x = authority_address) ->
  common_close_account authority_address authority from to s = (Ok u, s') -> protects s s'.
Proof.
  intros Hpos Hk Hb Hauth Hr Ha. unfold common_close_account in Hr. ok_inv.
  match goal with Hx : check_loader_authority _ _ _ = _ |- _ => apply check_loader_authority_Ok in Hx as (-> & -> & Hsig); [|done] end.
  destruct (decide (i = account from)) as [->|Hne].
  - left. assert (b = a) as -> by congruence. exists (key authority). split; [|done]. by apply Hauth.
  - right. etransitivity; [eapply drained_spares; done|]. by eapply with_account_other.
Qed.

Lemma close_protects s u s' : (forall k b, s !! k = Some b -> 0 <= lamports b) ->
  close_loader_account program_id keyed first s = (Ok u, s') -> protects s s'.
Proof.
  intros Hpos Hr. unfold close_loader_account in Hr.
  apply SE_bind_Ok in Hr as (from & s1 & (-> & _ & _)%loader_account_Ok & Hr).
  apply SE_bind_Ok in Hr as (to & s2 & (-> & _ & _)%loader_account_Ok & Hr).
  apply SE_bind_Ok in Hr as (u1 & s3 & [_ ->]%ensure_Ok & Hr).
  apply SE_bind_Ok in Hr as (fst' & s4 & (-> & b & Hb & Hbst)%ka_state_Ok & Hr). destruct fst' as [|auth| |slot auth].
  - ok_inv. intros Ha. right. eapply drained_spares; [done|done|done|]. intros ->. assert (b = a) as -> by congruence.
    rewrite Hst in Hbst. by injection Hbst as ->.
  - ok_inv. match goal with Hx : loader_account _ _ _ _ = _ |- _ => apply loader_account_Ok in Hx as (-> & _ & ?) end.
    match goal with Hx : common_close_account _ _ _ _ _ = _ |- _ =>
      eapply (common_close_protects _ _ _ _ _ _ _ b); [done|done|exact Hb| |exact Hx] end. intros y. rewrite Hbst. by intros [= <-].
  - done.
  - ok_inv. match goal with Hx : loader_account _ _ _ _ = _ |- _ => apply loader_account_Ok in Hx as (-> & _ & _) end.
    match goal with Hx : ka_owner _ _ = _ |- _ => unfold ka_owner in Hx end. read_inv.
    match goal with Hx : match ?x with _ => _ end _ = (Ok _, _) |- _ => destruct x; try done end. ok_inv.
    match goal with Hx : loader_account _ _ _ _ = _ |- _ => apply loader_account_Ok in Hx as (-> & _ & ?) end.
    match goal with Hx : common_close_account _ _ _ _ _ = _ |- _ =>
      eapply (common_close_protects _ _ _ _ _ _ _ b); [done|done|exact Hb| |exact Hx] end. intros y. rewrite Hbst. by intros [= <-].
Qed.

(** ** Upgrades *)

(** The accounts of an upgrade, with what has been checked of them. *)
Record upgrade_checked (s : Accounts) (programdata program buffer authority : KeyedAccount) (pd b : AccountSharedData)
    (boff pdoff required : Z) : Prop := {
  uc_programdata : keyed !! (first + 0)%nat = Some programdata /\ s !! account programdata = Some pd;
  uc_program : keyed !! (first + 1)%nat = Some program /\
    exists p, s !! account program = Some p /\ executable p = true /\ owner p = program_id /\
      account_state p = Ok (LoaderProgram (key programdata));
  uc_buffer : keyed !! (first + 2)%nat = Some buffer /\ s !! account buffer = Some b;
  uc_authority : keyed !! (first + 6)%nat = Some authority /\ keyed_signed keyed (key authority);
  uc_states : account_state b = Ok (LoaderBuffer (Some (key authority))) /\
    exists slot, account_state pd = Ok (LoaderProgramData slot (Some (key authority)));
  uc_offsets : buffer_data_offset = Ok boff /\ programdata_data_offset = Ok pdoff;
  uc_lengths : boff < Z.of_nat (length (data b)) /\
    exists n, programdata_len (Z.of_nat (length (data b)) - boff) = Ok n /\ n <= Z.of_nat (length (data pd));
  uc_required : 1 <= required;
}.

Lemma check_upgrade_Ok s new_program_id clock boff pdoff required s' :
  check_upgrade program_id keyed first s = (Ok (new_program_id, clock, boff, pdoff, required), s') ->
  s' = s /\ exists programdata program buffer authority pd b,
    upgrade_checked s programdata program buffer authority pd b boff pdoff required /\ new_program_id = key program.
Proof.
  intros Hr. unfold check_upgrade in Hr.
  apply SE_bind_Ok in Hr as (programdata & s1 & (-> & Hpd & Hpdin)%loader_account_Ok & Hr).
  apply SE_bind_Ok in Hr as (program & s1 & (-> & Hp & _)%loader_account_Ok & Hr).
  apply SE_bind_Ok in Hr as (buffer & s1 & (-> & Hb & _)%loader_account_Ok & Hr).
  apply SE_bind_Ok in Hr as (krent & s1 & (-> & _ & _)%loader_account_Ok & Hr).
  apply SE_bind_Ok in Hr as (rent & s1 & ->%from_keyed_account_same & Hr).
  apply SE_bind_Ok in Hr as (kclock & s1 & (-> & _ & _)%loader_account_Ok & Hr).
  apply SE_bind_Ok in Hr as (clock' & s1 & ->%from_keyed_account_same & Hr).
  apply SE_bind_Ok in Hr as (authority & s1 & (-> & Hau & Hauin)%loader_account_Ok & Hr).
  apply SE_bind_Ok in Hr as (x & s1 & (-> & p & Hpa & ->)%ka_executable_Ok & Hr).
  apply SE_bind_Ok in Hr as (u & s1 & [Hexec ->]%ensure_Ok & Hr).
  apply SE_bind_Ok in Hr as (u1 & s1 & [_ ->]%ensure_Ok & Hr).
  apply SE_bind_Ok in Hr as (o & s1 & (-> & p' & Hp' & ->)%ka_owner_Ok & Hr). assert (p' = p) as -> by congruence. clear Hp'.
  apply SE_bind_Ok in Hr as (u2 & s1 & [Howner%Z.eqb_eq ->]%ensure_Ok & Hr).
  apply SE_bind_Ok in Hr as (pst & s1 & (-> & p' & Hp' & Hpst)%ka_state_Ok & Hr). assert (p' = p) as -> by congruence. clear Hp'.
  apply SE_bind_Ok in Hr as (u3 & s1 & Hpp & Hr). destruct pst; try done. apply ensure_Ok in Hpp as [Hpp%Z.eqb_eq ->].
  apply SE_bind_Ok in Hr as (u4 & s1 & (-> & Hsig & b & Hba & Hbst)%check_buffer_Ok & Hr); [|done].
  apply SE_bind_Ok in Hr as (boff' & s1 & [Hboff ->]%lift_Ok & Hr).
  apply SE_bind_Ok in Hr as (blen & s1 & (-> & b' & Hb' & ->)%ka_data_len_Ok & Hr). assert (b' = b) as -> by congruence. clear Hb'.
  apply SE_bind_Ok in Hr as (pdoff' & s1 & [Hpdoff ->]%lift_Ok & Hr).
  apply SE_bind_Ok in Hr as (pdlen & s1 & (-> & pd & Hpda & ->)%ka_data_len_Ok & Hr).
  apply SE_bind_Ok in Hr as (u5 & s1 & [Hlen ->]%ensure_Ok & Hr).
  apply SE_bind_Ok in Hr as (needed & s1 & [Hneeded ->]%lift_Ok & Hr).
  apply SE_bind_Ok in Hr as (u6 & s1 & [Hfit ->]%ensure_Ok & Hr).
  apply SE_bind_Ok in Hr as (pl & s1 & (-> & _)%ka_lamports_Ok & Hr).
  apply SE_bind_Ok in Hr as (bl & s1 & (-> & _)%ka_lamports_Ok & Hr).
  apply SE_bind_Ok in Hr as (u7 & s1 & [_ ->]%ensure_Ok & Hr).
  apply SE_bind_Ok in Hr as (pdst & s1 & (-> & pd' & Hpd' & Hpdst)%ka_state_Ok & Hr). assert (pd' = pd) as -> by congruence.
  apply SE_bind_Ok in Hr as (u8 & s1 & Hchk & Hr). destruct pdst; try done.
  apply check_loader_authority_Ok in Hchk as (-> & -> & _); [|done]. apply SE_ret_Ok in Hr as [Hr ->].
  injection Hr as -> -> -> -> ->. split; [done|]. exists programdata, program, buffer, authority, pd, b. split; [|done].
  apply negb_true_iff, orb_false_iff in Hlen as [Hlen1%Z.ltb_ge Hlen2%Z.eqb_neq].
  apply negb_true_iff, Z.ltb_ge in Hfit. unfold saturating_sub64 in *.
  rewrite Z.max_l in Hneeded by lia. unfold unsigned_key in Hpp. subst.
  split; [done| |done|done| |done| |lia]; [eauto 10|eauto|]. split; [lia|eauto].
Qed.

(** What an upgrade makes of the program data account: the state in front, the
    bits of the buffer, and zeroes. *)
Definition upgraded_data (pdoff : Z) (header bits : list Z) : list Z :=
  take (Z.to_nat pdoff) header ++ bits ++ replicate (length header - (Z.to_nat pdoff + length bits)) 0.

Lemma fill_copied pdoff boff header d : 0 <= pdoff ->
  pdoff + Z.of_nat (length (drop (Z.to_nat boff) d)) <= Z.of_nat (length header) ->
  let bits := drop (Z.to_nat boff) d in
  let copied := take (Z.to_nat pdoff) header ++ bits ++ drop (Z.to_nat pdoff + length bits) header in
  let bits_end := (Z.to_nat pdoff + (length d - Z.to_nat boff))%nat in
  take bits_end copied ++ replicate (length copied - bits_end) 0 = upgraded_data pdoff header bits.
Proof.
  intros Hp Hl bits copied bits_end. fold bits in Hl. assert (bits_end = length (take (Z.to_nat pdoff) header ++ bits)) as He.
  { unfold bits_end, bits. unfold bits in Hl. rewrite length_app, length_take, length_drop. rewrite length_drop in Hl. lia. }
  assert (length copied = length header) as Hc.
  { unfold copied. rewrite !length_app, length_take, length_drop. lia. }
  unfold upgraded_data. rewrite Hc. unfold copied. rewrite app_assoc, He, take_app_length, <- app_assoc.
  do 3 f_equal. rewrite length_app, length_take. lia.
Qed.

Lemma apply_upgrade_Ok clock boff pdoff required s u s' : 0 <= pdoff -> 0 <= boff ->
  apply_upgrade keyed first clock boff pdoff required s = (Ok u, s') ->
  exists programdata buffer authority pd b header,
    keyed !! (first + 0)%nat = Some programdata /\ keyed !! (first + 2)%nat = Some buffer /\
    keyed !! (first + 6)%nat = Some authority /\ s !! account programdata = Some pd /\ s !! account buffer = Some b /\
    account_set_state (LoaderProgramData (clock_slot clock) (Some (key authority))) pd = (Ok tt, set_data header pd) /\
    let bits := drop (Z.to_nat boff) (data b) in
    boff <= Z.of_nat (length (data b)) /\ pdoff + Z.of_nat (length bits) <= Z.of_nat (length header) /\
    s' !! account programdata = Some (set_lamports required (set_data (upgraded_data pdoff header bits) pd)) /\
    forall i, i ≠ account programdata -> i ≠ account buffer -> spares i s s'.
Proof.
  intros Hpd0 Hb0 Hr. unfold apply_upgrade in Hr.
  apply SE_bind_Ok in Hr as (programdata & s1 & (-> & Hpd & _)%loader_account_Ok & Hr).
  apply SE_bind_Ok in Hr as (buffer & s1 & (-> & Hb & _)%loader_account_Ok & Hr).
  apply SE_bind_Ok in Hr as (spill & s1 & (-> & Hsp & _)%loader_account_Ok & Hr).
  apply SE_bind_Ok in Hr as (authority & s1 & (-> & Hau & _)%loader_account_Ok & Hr).
  apply SE_bind_Ok in Hr as (u1 & s1 & Hset & Hr). apply SE_bind_Ok in Hr as (u2 & s2 & Hcopy & Hr).
  apply SE_bind_Ok in Hr as (b2 & s3 & [Hb2 ->]%try_account_ref_Ok & Hr). apply SE_bind_Ok in Hr as (u3 & s3 & Hfill & Hr).
  apply SE_bind_Ok in Hr as (u4 & s4 & Hadd & Hr). apply SE_bind_Ok in Hr as (u5 & s5 & Hz & Hr).
  assert (forall n t, (programdata_lamports ← ka_lamports programdata; buffer_lamports ← ka_lamports buffer;
    mret (saturating_sub64 (add64 programdata_lamports buffer_lamports) required)) s3 = (Ok n, t) -> t = s3 /\ 0 <= n) as Hamount.
  { intros n t Hn. apply SE_bind_Ok in Hn as (x & t1 & (-> & _)%ka_lamports_Ok & Hn).
    apply SE_bind_Ok in Hn as (y & t2 & (-> & _)%ka_lamports_Ok & [-> ->]%SE_ret_Ok). split; [done|u64]. }
  apply add_lamports_from_Ok in Hadd as (Hsep & n & t & x & Hn & Hx & _ & ->). apply Hamount in Hn as [-> Hn].
  apply Forall_cons in Hsep as [Hsep1 _].
  assert (forall i, i ≠ account programdata -> i ≠ account buffer -> spares i s s') as Hspare.
  { intros j Hj1 Hj2. transitivity s1; [by eapply with_account_other|].
    transitivity s2; [apply copy_program_Ok in Hcopy as (_ & y & z & Hy & _ & _ & _ & ->); by apply (spares_insert j _ s1 y)|].
    transitivity s3; [by eapply with_account_other|].
    etransitivity; [apply (spares_insert j (account spill) s3 x (set_lamports (lamports x + n) x)); [exact Hx|]; intros _; split_and!; [done..|]; cbn; lia|].
    transitivity s5; by eapply with_account_other. }
  apply with_account_Ok in Hset as (pd & pd1 & Hpda & Hset & ->).
  destruct (account_set_state_raw _ _ _ _ Hset) as (m & header & _ & _ & _ & ->). destruct u1.
  pose proof (lookup_lt_Some _ _ _ Hpda) as Hlt.
  apply copy_program_Ok in Hcopy as (Hne & pd2 & b & Hpd2 & Hba & Hblen & Hfit & ->).
  rewrite list_lookup_insert_eq in Hpd2 by done. injection Hpd2 as <-.
  rewrite list_lookup_insert_ne in Hba, Hb2 by done. rewrite list_lookup_insert_ne in Hb2 by done.
  assert (b2 = b) as -> by congruence.
  apply with_account_Ok in Hfill as (pd3 & pd4 & Hpd3 & Hfill & ->). rewrite list_insert_insert_eq in Hpd3.
  rewrite list_lookup_insert_eq in Hpd3 by done. injection Hpd3 as <-. apply modify_Ok in Hfill as ->.
  apply with_account_Ok in Hz as (b5 & b6 & _ & _ & ->).
  apply with_account_Ok in Hr as (pd5 & pd6 & Hpd5 & Hr & ->). apply modify_Ok in Hr as ->.
  rewrite !list_lookup_insert_ne, !list_insert_insert_eq in Hpd5 by done.
  rewrite list_lookup_insert_eq in Hpd5 by done. injection Hpd5 as <-.
  exists programdata, buffer, authority, pd, b, header. split_and!; [done..|]. split_and!; [done|done| |done].
  rewrite list_lookup_insert_eq by (by rewrite !length_insert). f_equal. cbn [data set_data].
  rewrite (fill_copied pdoff boff header (data b)) by done. done.
Qed.

(** ** Deployments *)

Record deploy_checked (s : Accounts) (programdata program buffer authority : KeyedAccount) (p b : AccountSharedData)
    (boff pdoff len max_data_len : Z) : Prop := {
  dc_programdata : keyed !! (first + 1)%nat = Some programdata;
  dc_program : keyed !! (first + 2)%nat = Some program /\ s !! account program = Some p /\
    account_state p = Ok LoaderUninitialized;
  dc_buffer : keyed !! (first + 3)%nat = Some buffer /\ s !! account buffer = Some b /\
    account_state b = Ok (LoaderBuffer (Some (key authority)));
  dc_authority : keyed !! (first + 7)%nat = Some authority /\ keyed_signed keyed (key authority);
  dc_offsets : buffer_data_offset = Ok boff /\ programdata_data_offset = Ok pdoff;
  dc_lengths : boff < Z.of_nat (length (data b)) /\ Z.of_nat (length (data b)) - boff <= max_data_len /\
    programdata_len max_data_len = Ok len;
}.

Lemma check_deploy_Ok max_data_len s rent clock boff pdoff len bump s' :
  check_deploy sha256 bytes_are_curve_point program_id keyed first max_data_len s
    = (Ok (rent, clock, boff, pdoff, len, bump), s') ->
  s' = s /\ exists programdata program buffer authority p b,
    deploy_checked s programdata program buffer authority p b boff pdoff len max_data_len.
Proof.
  intros Hr. unfold check_deploy in Hr.
  apply SE_bind_Ok in Hr as (payer & s1 & (-> & _ & _)%loader_account_Ok & Hr).
  apply SE_bind_Ok in Hr as (programdata & s1 & (-> & Hpd & Hpdin)%loader_account_Ok & Hr).
  apply SE_bind_Ok in Hr as (program & s1 & (-> & Hp & _)%loader_account_Ok & Hr).
  apply SE_bind_Ok in Hr as (buffer & s1 & (-> & Hb & _)%loader_account_Ok & Hr).
  apply SE_bind_Ok in Hr as (krent & s1 & (-> & _ & _)%loader_account_Ok & Hr).
  apply SE_bind_Ok in Hr as (rent' & s1 & ->%from_keyed_account_same & Hr).
  apply SE_bind_Ok in Hr as (kclock & s1 & (-> & _ & _)%loader_account_Ok & Hr).
  apply SE_bind_Ok in Hr as (clock' & s1 & ->%from_keyed_account_same & Hr).
  apply SE_bind_Ok in Hr as (authority & s1 & (-> & Hau & Hauin)%loader_account_Ok & Hr).
  apply SE_bind_Ok in Hr as (pst & s1 & (-> & p & Hpa & Hpst)%ka_state_Ok & Hr).
  apply SE_bind_Ok in Hr as (u & s1 & [Hun ->]%ensure_Ok & Hr). destruct pst; try done.
  apply SE_bind_Ok in Hr as (plen & s1 & (-> & _)%ka_data_len_Ok & Hr).
  apply SE_bind_Ok in Hr as (min_len & s1 & [_ ->]%lift_Ok & Hr).
  apply SE_bind_Ok in Hr as (u1 & s1 & [_ ->]%ensure_Ok & Hr).
  apply SE_bind_Ok in Hr as (pl & s1 & (-> & _)%ka_lamports_Ok & Hr).
  apply SE_bind_Ok in Hr as (u2 & s1 & [_ ->]%ensure_Ok & Hr).
  apply SE_bind_Ok in Hr as (u4 & s1 & (-> & Hsig & b & Hba & Hbst)%check_buffer_Ok & Hr); [|done].
  apply SE_bind_Ok in Hr as (boff' & s1 & [Hboff ->]%lift_Ok & Hr).
  apply SE_bind_Ok in Hr as (blen & s1 & (-> & b' & Hb' & ->)%ka_data_len_Ok & Hr). assert (b' = b) as -> by congruence.
  apply SE_bind_Ok in Hr as (pdoff' & s1 & [Hpdoff ->]%lift_Ok & Hr).
  apply SE_bind_Ok in Hr as (len' & s1 & [Hlen' ->]%lift_Ok & Hr).
  apply SE_bind_Ok in Hr as (u5 & s1 & [Hlen ->]%ensure_Ok & Hr).
  apply SE_bind_Ok in Hr as (u6 & s1 & [Hfit ->]%ensure_Ok & Hr).
  apply SE_bind_Ok in Hr as (u7 & s1 & [_ ->]%ensure_Ok & Hr).
  apply SE_bind_Ok in Hr as ([derived bump'] & s1 & [_ ->]%lift_Ok & Hr).
  apply SE_bind_Ok in Hr as (u8 & s1 & [_ ->]%ensure_Ok & Hr). apply SE_ret_Ok in Hr as [Hr ->].
  injection Hr as -> -> -> -> -> ->. split; [done|]. exists programdata, program, buffer, authority, p, b.
  apply negb_true_iff, orb_false_iff in Hlen as [Hlen1%Z.ltb_ge Hlen2%Z.eqb_neq].
  apply negb_true_iff, Z.ltb_ge in Hfit. unfold saturating_sub64 in *.
  rewrite Z.max_l in Hfit by lia. split; [done|done|done|done|done|]. split; [lia|done].
Qed.

Lemma drain_buffer_spares buffer s u s' : (forall k b, s !! k = Some b -> 0 <= lamports b) ->
  keyed !! (first + 3)%nat = Some buffer -> i ≠ account buffer -> drain_buffer keyed first s = (Ok u, s') -> spares i s s'.
Proof.
  intros Hpos Hb Hne Hr. unfold drain_buffer in Hr.
  apply SE_bind_Ok in Hr as (payer & s1 & (-> & _ & _)%loader_account_Ok & Hr).
  apply SE_bind_Ok in Hr as (buffer' & s1 & (-> & Hb' & _)%loader_account_Ok & Hr).
  assert (buffer' = buffer) as -> by congruence. apply SE_bind_Ok in Hr as (u1 & s1 & Hadd & Hr).
  by eapply drained_spares.
Qed.

(** Draining a buffer changes lamports only. *)
Lemma drain_buffer_lamports s u s' j x : drain_buffer keyed first s = (Ok u, s') -> s !! j = Some x ->
  exists x', s' !! j = Some x' /\ x' = set_lamports (lamports x') x.
Proof.
  intros Hr Hx. unfold drain_buffer in Hr. apply SE_bind_Ok in Hr as (payer & s1 & (-> & _ & _)%loader_account_Ok & Hr).
  apply SE_bind_Ok in Hr as (buffer & s1 & (-> & _ & _)%loader_account_Ok & Hr).
  apply SE_bind_Ok in Hr as (u1 & s1 & Hadd & Hr).
  apply add_lamports_from_Ok in Hadd as (_ & n & s2 & y & Hn & Hy & _ & ->). apply ka_lamports_Ok in Hn as (-> & _).
  apply with_account_Ok in Hr as (z & z' & Hz & Hm & ->). apply modify_Ok in Hm as ->.
  assert (exists x1, <[account payer := set_lamports (lamports y + n) y]> s !! j = Some x1 /\ x1 = set_lamports (lamports x1) x)
    as (x1 & Hx1 & Heq).
  { destruct (decide (j = account payer)) as [->|Hne].
    - assert (y = x) as -> by congruence. eexists. rewrite list_lookup_insert_eq by (by eapply lookup_lt_Some). done.
    - exists x. rewrite list_lookup_insert_ne by done. split; [done|]. by destruct x. }
  destruct (decide (j = account buffer)) as [->|Hne].
  - assert (z = x1) as -> by congruence. eexists. rewrite list_lookup_insert_eq by (by eapply lookup_lt_Some).
    split; [done|]. by rewrite Heq.
  - exists x1. by rewrite list_lookup_insert_ne.
Qed.

(** What a deployment makes of the program data account: the bits of the buffer
    behind the state. *)
Definition deployed_data (pdoff : Z) (header bits : list Z) : list Z :=
  take (Z.to_nat pdoff) header ++ bits ++ drop (Z.to_nat pdoff + length bits) header.

Lemma apply_deploy_Ok clock boff pdoff (predrain : bool) programdata program buffer s u s' :
  (forall k b, s !! k = Some b -> 0 <= lamports b) ->
  keyed !! (first + 1)%nat = Some programdata -> keyed !! (first + 2)%nat = Some program ->
  keyed !! (first + 3)%nat = Some buffer -> account program ≠ account programdata ->
  apply_deploy keyed first clock boff pdoff predrain s = (Ok u, s') ->
  (i ≠ account programdata -> i ≠ account program -> i ≠ account buffer -> spares i s s') /\
  exists authority pd b header pd', keyed !! (first + 7)%nat = Some authority /\
    s !! account programdata = Some pd /\ s !! account buffer = Some b /\
    account_set_state (LoaderProgramData (clock_slot clock) (Some (key authority))) pd = (Ok tt, set_data header pd) /\
    let bits := drop (Z.to_nat boff) (data b) in
    pdoff + Z.of_nat (length bits) <= Z.of_nat (length header) /\
    s' !! account programdata = Some pd' /\ data pd' = deployed_data pdoff header bits /\ owner pd' = owner pd.
Proof.
  intros Hpos Hpd Hp Hb Hne Hr. unfold apply_deploy in Hr.
  apply SE_bind_Ok in Hr as (programdata' & s1 & (-> & Hpd' & _)%loader_account_Ok & Hr).
  assert (programdata' = programdata) as -> by congruence. clear Hpd'.
  apply SE_bind_Ok in Hr as (program' & s1 & (-> & Hp' & _)%loader_account_Ok & Hr).
  assert (program' = program) as -> by congruence. clear Hp'.
  apply SE_bind_Ok in Hr as (buffer' & s1 & (-> & Hb' & _)%loader_account_Ok & Hr).
  assert (buffer' = buffer) as -> by congruence. clear Hb'.
  apply SE_bind_Ok in Hr as (authority & s1 & (-> & Hau & _)%loader_account_Ok & Hr).
  apply SE_bind_Ok in Hr as (u1 & s1 & Hset & Hr). apply SE_bind_Ok in Hr as (u2 & s2 & Hcopy & Hr).
  apply SE_bind_Ok in Hr as (u3 & s3 & Hset' & Hr). apply SE_bind_Ok in Hr as (u4 & s4 & Hexec & Hr).
  apply with_account_Ok in Hset as (pd & pd1 & Hpda & Hset & ->).
  destruct (account_set_state_raw _ _ _ _ Hset) as (m & header & _ & _ & _ & ->). destruct u1.
  apply copy_program_Ok in Hcopy as (Hne' & pd2 & b & Hpd2 & Hba & _ & Hfit & ->).
  pose proof (lookup_lt_Some _ _ _ Hpda) as Hlt.
  rewrite list_lookup_insert_eq in Hpd2 by done. injection Hpd2 as <-. rewrite list_lookup_insert_ne in Hba by done.
  rewrite list_insert_insert_eq in Hset'. cbn [data set_data] in *.
  apply with_account_Ok in Hset' as (p & p1 & Hpa & Hset' & ->). rewrite list_lookup_insert_ne in Hpa by done.
  destruct (account_set_state_raw _ _ _ _ Hset') as (m' & header' & _ & _ & _ & ->).
  apply with_account_Ok in Hexec as (p2 & p3 & Hp2 & Hexec & ->). apply modify_Ok in Hexec as ->.
  rewrite list_lookup_insert_eq in Hp2 by (rewrite length_insert; by eapply lookup_lt_Some). injection Hp2 as <-.
  rewrite list_insert_insert_eq in Hr.
  match type of Hr with (if _ then _ else _) ?x = _ => set (t := x) in Hr end.
  assert (forall k c, t !! k = Some c -> 0 <= lamports c) as Hpos'.
  { unfold t. intros k c [(<- & <- & _)|(_ & Hc)]%list_lookup_insert_Some; [by apply (Hpos _ _ Hpa)|].
    apply list_lookup_insert_Some in Hc as [(<- & <- & _)|(_ & Hc)]; [by apply (Hpos _ _ Hpda)|by apply (Hpos _ _ Hc)]. }
  split.
  - intros Hi1 Hi2 Hi3. transitivity t.
    + unfold t. intros x Hx. exists x. rewrite !list_lookup_insert_ne by done. split; [done|reflexivity].
    + destruct predrain; [by apply SE_ret_Ok in Hr as [_ ->]|by eapply drain_buffer_spares].
  - assert (t !! account programdata = Some (set_data (deployed_data pdoff header (drop (Z.to_nat boff) (data b))) (set_data header pd))) as Ht.
    { unfold t. rewrite list_lookup_insert_ne by done. by rewrite list_lookup_insert_eq. }
    assert (exists y, s' !! account programdata = Some y /\ y = set_lamports (lamports y) (set_data (deployed_data pdoff header (drop (Z.to_nat boff) (data b))) (set_data header pd)))
      as (y & Hy & Heq).
    { destruct predrain; [apply SE_ret_Ok in Hr as [_ ->]; by eexists|]. by eapply drain_buffer_lamports. }
    exists authority, pd, b, header, y. split_and!; first [done|by rewrite Heq].
Qed.
End handlers.
