(* ===== verification/BpfLoaderSafety.v ===== *)
(** * The upgradeable loader: authorities and verified programs

    Whatever instruction of the upgradeable loader succeeds, an initialized buffer,
    program or program data account changes only when its authority signed; and
    what a deployment or an upgrade stores, and what later calls run, is what the
    virtual machine verified. *)
From stdpp Require Import base numbers option list gmap relations.
From S2P Require Import Prelude Instruction Account EpochSchedule Float64 Rent Sysvar Message PreAccount.
From S2P Require Import ComputeBudget InvokeContext InvokeSpec Nonce System ProgramAddress SystemCall BpfLoader BpfLoaderSpec.

Abbreviation laccounts l := (accounts_of (lc_context l)).

(** No balance is negative: what [u64] says. *)
Definition balances_nonneg (s : Accounts) : Prop := forall k b, s !! k = Some b -> 0 <= lamports b.

(** The bytes of a state: the size is a [u64]; writing a state leaves what is
    behind it, reading it looks at its own bytes; an empty account holds none; and
    all program data states with an authority have one size. *)
Class LoaderCodec `{Bincode UpgradeableLoaderState} : Prop := {
  codec_size_range (x : UpgradeableLoaderState) n : bincode_serialized_size x = Ok n -> 0 <= n <= U64_MAX;
  codec_frame (x : UpgradeableLoaderState) n d d' : bincode_serialized_size x = Ok n ->
    bincode_serialize_into x d = (Ok tt, d') -> drop (Z.to_nat n) d' = drop (Z.to_nat n) d;
  codec_prefix (x : UpgradeableLoaderState) n d d' rest : bincode_serialized_size x = Ok n ->
    bincode_serialize_into x d = (Ok tt, d') -> bincode_deserialize (take (Z.to_nat n) d' ++ rest) = Some x;
  codec_empty : bincode_deserialize (T := UpgradeableLoaderState) [] = None;
  codec_programdata_size slot pk : bincode_serialized_size (LoaderProgramData slot (Some pk))
    = bincode_serialized_size (LoaderProgramData 0 (Some Pubkey_default));
}.

(** ** Handlers keep the number of accounts *)

Section lengths.
Context (sha256 : list Z -> Hash) (bytes_are_curve_point : Hash -> bool).
Context `{Bincode UpgradeableLoaderState} `{Bincode Rent} `{Bincode Clock}.
Context (program_id : Pubkey) (keyed : list KeyedAccount) (first : nat).
#[local] Hint Resolve from_keyed_account_length ka_state_length : keeps_length.

Lemma add_lamports_from_length to sources amount : keeps_length amount -> keeps_length (add_lamports_from to sources amount).
Proof. intros Ha. unfold add_lamports_from. keep_length. Qed.
Lemma check_loader_authority_length o k : keeps_length (check_loader_authority o k).
Proof. unfold check_loader_authority. keep_length. Qed.
Lemma check_buffer_length b k : keeps_length (check_buffer b k).
Proof. unfold check_buffer. keep_length. Qed.
Lemma ka_lamports_length k : keeps_length (ka_lamports k).
Proof. unfold ka_lamports. keep_length. Qed.
#[local] Hint Resolve add_lamports_from_length check_loader_authority_length check_buffer_length ka_lamports_length : keeps_length.

#[local] Ltac handler_length :=
  unfold loader_account, keyed_account_at_index, write_program_data, common_close_account, copy_program, ka_executable,
    ka_owner, ka_data_len, ka_set_lamports; keep_length.

Lemma initialize_buffer_length : keeps_length (initialize_buffer keyed first).
Proof. unfold initialize_buffer. handler_length. Qed.
Lemma write_buffer_length offset bytes : keeps_length (write_buffer keyed first offset bytes).
Proof. unfold write_buffer. handler_length. Qed.
Lemma set_loader_authority_length : keeps_length (set_loader_authority keyed first).
Proof. unfold set_loader_authority. handler_length. Qed.
Lemma close_loader_account_length : keeps_length (close_loader_account program_id keyed first).
Proof. unfold close_loader_account. handler_length. Qed.
Lemma check_upgrade_length : keeps_length (check_upgrade program_id keyed first).
Proof. unfold check_upgrade. handler_length. Qed.
Lemma apply_upgrade_length clock b p r : keeps_length (apply_upgrade keyed first clock b p r).
Proof. unfold apply_upgrade. handler_length. Qed.
Lemma check_deploy_length n : keeps_length (check_deploy sha256 bytes_are_curve_point program_id keyed first n).
Proof. unfold check_deploy. handler_length. Qed.
Lemma drain_buffer_length : keeps_length (drain_buffer keyed first).
Proof. unfold drain_buffer. handler_length. Qed.
Lemma apply_deploy_length clock b p (d : bool) : keeps_length (apply_deploy keyed first clock b p d).
Proof. unfold apply_deploy. handler_length. Qed.
End lengths.

#[export] Hint Resolve initialize_buffer_length write_buffer_length set_loader_authority_length
  close_loader_account_length check_upgrade_length apply_upgrade_length check_deploy_length drain_buffer_length
  apply_deploy_length : keeps_length.

(** ** The context *)

Lemma put_accounts_id c : put_accounts (accounts_of c) c = c.
Proof.
  unfold put_accounts, accounts_of. destruct c as [? ? ? accts]. cbn. f_equal. apply list_eq. intros i.
  rewrite list_lookup_imap, list_lookup_fmap. by destruct (accts !! i) as [[]|].
Qed.

Lemma on_accounts_same {A} (m : AM A) c r c' : on_accounts m c = (Ok r, c') ->
  (forall s', m (accounts_of c) = (Ok r, s') -> s' = accounts_of c) -> m (accounts_of c) = (Ok r, accounts_of c) /\ c' = c.
Proof.
  unfold on_accounts. destruct (m (accounts_of c)) as [o s] eqn:Hm. intros [= -> <-] Hs.
  rewrite (Hs s eq_refl). split; [done|]. apply put_accounts_id.
Qed.

Lemma get_keyed_accounts_same c c' : same_frame c c' -> get_keyed_accounts c' = get_keyed_accounts c.
Proof. intros [Hst _ _ _]. unfold get_keyed_accounts. by rewrite Hst. Qed.

Lemma get_keyed_in c keyed f : get_keyed_accounts c = Ok keyed -> head (invoke_stack c) = Some f ->
  forall k, k ∈ keyed -> k ∈ sf_keyed_accounts f.
Proof.
  intros Hk Hf k Hin. unfold get_keyed_accounts in Hk. rewrite Hf in Hk. cbn in Hk. unfold slice in Hk.
  case_decide; [|done]. injection Hk as <-. eapply subseteq_take, subseteq_drop. exact Hin.
Qed.

Lemma keyed_name c keyed n k : runtime_wf c -> get_keyed_accounts c = Ok keyed -> keyed !! n = Some k -> names c (key k) (account k).
Proof.
  intros Hwf Hk Hn. destruct (invoke_stack c) as [|f fs] eqn:Hst; [by destruct (wf_stack _ Hwf)|].
  eapply names_frame; [done|by rewrite Hst|]. eapply get_keyed_in; [done|by rewrite Hst|]. by eapply list_elem_of_lookup_2.
Qed.

Section contexts.
Context `{BpfVm}.

Lemma in_context_Ok {A} (m : IM A) l r l' : in_context m l = (Ok r, l') ->
  m (lc_context l) = (Ok r, lc_context l') /\ lc_executors l' = lc_executors l.
Proof. unfold in_context. destruct (m (lc_context l)). by intros [= -> <-]. Qed.

Lemma on_frame_Ok {A} (m : list KeyedAccount -> AM A) keyed l r l' : get_keyed_accounts (lc_context l) = Ok keyed ->
  keeps_length (m keyed) -> on_frame m l = (Ok r, l') ->
  m keyed (laccounts l) = (Ok r, laccounts l') /\ same_frame (lc_context l) (lc_context l') /\ lc_executors l' = lc_executors l.
Proof.
  intros Hk Hl [Hm Hx]%in_context_Ok. apply SE_bind_Ok in Hm as (c & c1 & [-> ->]%get_Ok & Hm).
  apply SE_bind_Ok in Hm as (keyed' & c2 & [Hk' ->]%lift_Ok & Hm). assert (keyed' = keyed) as -> by congruence.
  apply on_accounts_Ok in Hm as [Hm Hs]; [|done]. done.
Qed.

Lemma on_frame_same {A} (m : list KeyedAccount -> AM A) keyed l r l' : get_keyed_accounts (lc_context l) = Ok keyed ->
  (forall s', m keyed (laccounts l) = (Ok r, s') -> s' = laccounts l) -> on_frame m l = (Ok r, l') ->
  m keyed (laccounts l) = (Ok r, laccounts l) /\ l' = l.
Proof.
  intros Hk Hs [Hm Hx]%in_context_Ok. apply SE_bind_Ok in Hm as (c & c1 & [-> ->]%get_Ok & Hm).
  apply SE_bind_Ok in Hm as (keyed' & c2 & [Hk' ->]%lift_Ok & Hm). assert (keyed' = keyed) as -> by congruence.
  apply on_accounts_same in Hm as [Hm Hc]; [|done]. split; [done|]. destruct l, l'. cbn in *. by subst.
Qed.

(** The settings of the virtual machine; a deployment rejects broken files. *)
Definition vm_config (trace_enabled reject : bool) (c : InvokeContext) : Config :=
  mkConfig (max_call_depth (current_compute_budget c)) (stack_frame_size (current_compute_budget c)) trace_enabled
    (reject && feature c disable_bpf_deprecated_load_instructions)
    (feature c disable_bpf_unresolved_symbols_at_runtime) reject.

(** An executable made of these bytes, whose text the verifier accepts. *)
Definition verified (trace_enabled reject use_jit : bool) (c : InvokeContext) (bytes : list Z) (executable : Executable) : Prop :=
  exists registry loaded, register_syscalls c = Some registry /\
    from_elf bytes (vm_config trace_enabled reject c) registry = Some loaded /\
    verifier_check (get_text_bytes loaded) (vm_config trace_enabled reject c) = true /\
    if use_jit then jit_compile loaded = Some executable else executable = loaded.

Lemma create_executor_Ok trace_enabled idx offset use_jit reject keyed c x c' : get_keyed_accounts c = Ok keyed ->
  create_executor trace_enabled idx offset use_jit reject c = (Ok x, c') ->
  c' = c /\ exists k b, keyed !! idx = Some k /\ accounts_of c !! account k = Some b /\
    verified trace_enabled reject use_jit c (drop (Z.to_nat offset) (data b)) x.
Proof.
  intros Hk Hr. unfold create_executor in Hr. apply SE_bind_Ok in Hr as (c0 & c1 & [-> ->]%get_Ok & Hr).
  apply SE_bind_Ok in Hr as (registry & c1 & [Hreg ->]%lift_Ok & Hr).
  apply SE_bind_Ok in Hr as (keyed' & c1 & [Hk' ->]%lift_Ok & Hr). assert (keyed' = keyed) as -> by congruence.
  apply SE_bind_Ok in Hr as (k & c1 & Hkm & Hr). apply on_accounts_same in Hkm as [Hkm ->]; [|by intros s' [_ ->]%keyed_account_at_index_Ok].
  apply keyed_account_at_index_Ok in Hkm as [Hki _]. apply SE_bind_Ok in Hr as (b & c1 & Hb & Hr).
  apply on_accounts_same in Hb as [Hb ->]; [|by intros s' [_ ->]%try_account_ref_Ok]. apply try_account_ref_Ok in Hb as [Hb _].
  apply SE_bind_Ok in Hr as (bytes & c1 & [Hbytes ->]%lift_Ok & Hr).
  apply SE_bind_Ok in Hr as (loaded & c1 & [Helf ->]%lift_Ok & Hr). apply SE_bind_Ok in Hr as (u & c1 & [Hver ->]%ensure_Ok & Hr).
  assert (c' = c /\ if use_jit then jit_compile loaded = Some x else x = loaded) as [-> Hjit].
  { destruct use_jit; [|by apply SE_ret_Ok in Hr as [-> ->]]. apply lift_Ok in Hr as [Hj ->]. split; [done|].
    by destruct (jit_compile loaded); simplify_eq/=. }
  split; [done|]. exists k, b. split_and!; [done|done|]. unfold data_from in Hbytes. destruct (offset <=? _); [|done].
  injection Hbytes as <-. destruct (register_syscalls c) as [r|] eqn:Hreg0; simplify_eq/=.
  exists registry, loaded. split_and!; [done| |exact Hver|exact Hjit]. 
  fold (vm_config trace_enabled reject c) in Helf. destruct (from_elf _ _ _); by simplify_eq/=.
Qed.
End contexts.

(** ** Balances *)

Lemma nonneg_insert s k x : balances_nonneg s -> 0 <= lamports x -> balances_nonneg (<[k := x]> s).
Proof. intros Hs Hx j b [(_ & <- & _)|(_ & Hb)]%list_lookup_insert_Some; [done|by eapply Hs]. Qed.

Lemma moved_nonneg i j n s s' : moved i j n s s' -> 0 <= n -> balances_nonneg s -> balances_nonneg s'.
Proof.
  intros [[_ ->]|(a & b & Ha & _ & Hle & Hb & ->)] Hn Hs; [done|].
  assert (balances_nonneg (<[i := set_lamports (lamports a - n) a]> s)) as Hs1 by (apply nonneg_insert; [done|cbn; lia]).
  apply nonneg_insert; [done|]. cbn. specialize (Hs1 _ _ Hb). lia.
Qed.

(** The accounts differ in their lamports only. *)
Definition lamports_only (s s' : Accounts) : Prop := length s' = length s /\
  forall j x, s !! j = Some x -> exists x', s' !! j = Some x' /\ x' = set_lamports (lamports x') x.

Lemma lamports_only_refl s : lamports_only s s.
Proof. split; [done|]. intros j x Hx. exists x. split; [done|]. by destruct x. Qed.

Lemma lamports_only_owners s s' : lamports_only s s' -> owners_kept s s'.
Proof.
  intros [Hl Hs] j x' Hx'. destruct (lookup_lt_is_Some_2 s j) as [x Hx]; [rewrite <- Hl; by eapply lookup_lt_Some|].
  exists x. split; [done|]. destruct (Hs _ _ Hx) as (y & Hy & Heq). assert (x' = y) as -> by congruence. by rewrite Heq.
Qed.

Lemma drain_buffer_effect keyed first buffer s u s' : balances_nonneg s -> keyed !! (first + 3)%nat = Some buffer ->
  drain_buffer keyed first s = (Ok u, s') ->
  lamports_only s s' /\ balances_nonneg s' /\ forall i, i ≠ account buffer -> spares i s s'.
Proof.
  intros Hpos Hb Hr. split_and!.
  - split; [|intros; by eapply drain_buffer_lamports]. pose proof (drain_buffer_length keyed first s) as Hl. by rewrite Hr in Hl.
  - unfold drain_buffer in Hr. apply SE_bind_Ok in Hr as (payer & s1 & (-> & _ & _)%loader_account_Ok & Hr).
    apply SE_bind_Ok in Hr as (b & s1 & (-> & _ & _)%loader_account_Ok & Hr). apply SE_bind_Ok in Hr as (u1 & s1 & Hadd & Hr).
    apply add_lamports_from_Ok in Hadd as (_ & n & s2 & y & Hn & Hy & _ & ->). apply ka_lamports_Ok in Hn as (-> & z & Hz & ->).
    apply with_account_Ok in Hr as (z1 & z' & _ & Hm & ->). apply modify_Ok in Hm as ->.
    apply nonneg_insert; [|done]. apply nonneg_insert; [done|]. cbn. pose proof (Hpos _ _ Hy). pose proof (Hpos _ _ Hz). lia.
  - intros i Hi. by eapply drain_buffer_spares.
Qed.

Section safety.
Context `{BpfVm} (trace_enabled : bool) (sha256 : list Z -> Hash) (bytes_are_curve_point : Hash -> bool).
Context `{BincodeLaws UpgradeableLoaderState} `{!LoaderCodec} `{Bincode UpgradeableLoaderInstruction}.
Context `{Bincode Rent} `{Bincode Clock} `{Bincode NonceVersions} `{Bincode RecentBlockhashes}.
Context `{BincodeVecLaws SystemInstruction} (invoke : Invoke) `{!SystemCalls sha256 invoke}.

(** ** Sizes *)

Lemma state_size_range (x : UpgradeableLoaderState) n : state_size x = Ok n ->
  bincode_serialized_size x = Ok n /\ 0 <= n <= U64_MAX.
Proof.
  unfold state_size. destruct (bincode_serialized_size x) as [m| |] eqn:Hs; cbn; [|done|done]. intros [= <-].
  split; [done|]. by eapply codec_size_range.
Qed.

Lemma buffer_data_offset_Ok n : buffer_data_offset = Ok n -> 0 <= n.
Proof.
  unfold buffer_data_offset, buffer_len. intros Hn. ok_inv.
  match goal with Hx : state_size _ = Ok _ |- _ => apply state_size_range in Hx as [_ Hx] end. unfold saturating_add64. lia.
Qed.

Lemma programdata_data_offset_Ok n : programdata_data_offset = Ok n -> 0 <= n /\
  forall slot pk, bincode_serialized_size (LoaderProgramData slot (Some pk)) = Ok n.
Proof.
  unfold programdata_data_offset, programdata_len. intros Hn. ok_inv.
  match goal with Hx : state_size _ = Ok _ |- _ => apply state_size_range in Hx as [Hs Hx] end.
  unfold saturating_add64. rewrite Z.min_l by lia. rewrite Z.add_0_r. split; [lia|]. intros. by rewrite codec_programdata_size.
Qed.

(** What is behind the state of a program data account. *)
Lemma stored_programdata slot pk pdoff pd header rest : programdata_data_offset = Ok pdoff ->
  account_set_state (LoaderProgramData slot (Some pk)) pd = (Ok tt, set_data header pd) ->
  drop (Z.to_nat pdoff) header = drop (Z.to_nat pdoff) (data pd) /\ length header = length (data pd) /\
  pdoff <= Z.of_nat (length (data pd)) /\
  bincode_deserialize (take (Z.to_nat pdoff) header ++ rest) = Some (LoaderProgramData slot (Some pk)).
Proof.
  intros [Hpd Hsize]%programdata_data_offset_Ok (n & d & Hn & Hlen & Hd & Heq)%account_set_state_raw.
  assert (d = header) as -> by (by destruct pd; injection Heq). rewrite Hsize in Hn. injection Hn as ->.
  pose proof (serialize_into_length (LoaderProgramData slot (Some pk)) (data pd)) as Hl. rewrite Hd in Hl.
  split_and!; [by eapply codec_frame|done|done|by eapply codec_prefix].
Qed.

(** ** Upgrades *)

(** A program is installed: the program data account holds its state, the bits
    and zeroes, and the executor of the program is made of these bits. *)
Definition installed (l l' : LoaderContext) (use_jit : bool) (programdata program buffer authority : KeyedAccount)
    (boff pdoff : Z) : Prop :=
  exists b pd' x slot n, laccounts l !! account buffer = Some b /\ laccounts l' !! account programdata = Some pd' /\
    account_state pd' = Ok (LoaderProgramData slot (Some (key authority))) /\
    let bits := drop (Z.to_nat boff) (data b) in
    drop (Z.to_nat pdoff) (data pd') = bits ++ replicate n 0 /\
    get_executor (key program) l' = Some x /\
    exists c, same_frame (lc_context l) c /\ verified trace_enabled true use_jit c bits x.

Lemma loader_upgrade_Ok program_id first use_jit keyed l u l' : get_keyed_accounts (lc_context l) = Ok keyed ->
  upgrade trace_enabled program_id first use_jit l = (Ok u, l') ->
  exists programdata program buffer authority pd b boff pdoff required,
    upgrade_checked program_id keyed first (laccounts l) programdata program buffer authority pd b boff pdoff required /\
    (forall i, i ≠ account programdata -> i ≠ account buffer -> spares i (laccounts l) (laccounts l')) /\
    installed l l' use_jit programdata program buffer authority boff pdoff.
Proof.
  intros Hk Hr. unfold upgrade in Hr.
  apply SE_bind_Ok in Hr as ([[[[id clock] boff] pdoff] required] & l1 & Hchk & Hr).
  apply (on_frame_same _ keyed) in Hchk as [Hchk ->]; [|done|by intros s' [-> _]%check_upgrade_Ok].
  apply check_upgrade_Ok in Hchk as (_ & programdata & program & buffer & authority & pd & b & Hc & ->).
  apply SE_bind_Ok in Hr as (x & l1 & [Hx He]%in_context_Ok & Hr).
  apply (create_executor_Ok _ _ _ _ _ keyed) in Hx as (Hl1 & k & b' & Hkb & Hb' & Hver); [|done].
  pose proof Hc as [[Hpd Hpda] Hp [Hb Hba] [Hau Hsig] Hst [Hboff Hpdoff] Hlen Hreq].
  assert (k = buffer) as -> by congruence. assert (b' = b) as -> by congruence.
  assert (l1 = l) as -> by (destruct l, l1; cbn in *; congruence).
  apply SE_bind_Ok in Hr as (u1 & l1 & ->%modify_Ok & Hr).
  apply (on_frame_Ok _ keyed) in Hr as (Hr & Hs & Hx); [|done|apply apply_upgrade_length].
  pose proof (buffer_data_offset_Ok _ Hboff). pose proof (programdata_data_offset_Ok _ Hpdoff) as [Hpd0 _].
  apply apply_upgrade_Ok in Hr as (pd2 & b2 & au2 & apd & ab & header & Hpd2 & Hb2 & Hau2 & Hapd & Hab & Hset & Hbl & Hfit & Hdata & Hspare);
    [|done..].
  assert (pd2 = programdata) as -> by congruence. assert (b2 = buffer) as -> by congruence.
  assert (au2 = authority) as -> by congruence. cbn [update_executor lc_context] in *.
  assert (ab = b) as -> by congruence.
  exists programdata, program, buffer, authority, pd, b, boff, pdoff, required. split_and!; [exact Hc|done|].
  eexists b, _, x, (clock_slot clock), _. split; [done|]. split; [exact Hdata|]. split; [|split; [|split]].
  - unfold account_state. cbn. destruct (stored_programdata _ _ _ _ _ (drop (Z.to_nat boff) (data b) ++ replicate (length header - (Z.to_nat pdoff + length (drop (Z.to_nat boff) (data b)))) 0) Hpdoff Hset) as (_ & _ & _ & Hdec).
    unfold upgraded_data. by rewrite Hdec.
  - cbn. unfold upgraded_data. rewrite drop_app_length'; [done|]. rewrite length_take. lia.
  - unfold get_executor. rewrite Hx. cbn. by rewrite lookup_insert_eq.
  - by exists (lc_context l).
Qed.

(** ** Deployments *)

(** The program data account is created: its account was empty, and nothing
    else changes but the payer, whose account has no data. *)
Lemma create_programdata_Ok program_id rent len bump payer programdata program buffer c c' i a :
  runtime_wf c -> balances_nonneg (accounts_of c) -> names c (key programdata) (account programdata) ->
  create_programdata sha256 bytes_are_curve_point invoke program_id rent len bump payer programdata program buffer c = (Ok tt, c') ->
  same_frame c c' /\ balances_nonneg (accounts_of c') /\
  (exists pd, accounts_of c !! account programdata = Some pd /\ data pd = []) /\
  (exists pd, accounts_of c' !! account programdata = Some pd /\ data pd = replicate (Z.to_nat len) 0) /\
  (accounts_of c !! i = Some a -> data a ≠ [] -> spares i (accounts_of c) (accounts_of c')).
Proof.
  intros Hwf Hpos Hname Hr. unfold create_programdata in Hr. apply SE_bind_Ok in Hr as (ix & c1 & [Hix ->]%lift_Ok & Hr).
  apply SE_bind_Ok in Hr as (c0 & c1 & [-> ->]%get_Ok & Hr). apply SE_bind_Ok in Hr as (caller & c1 & [_ ->]%lift_Ok & Hr).
  apply SE_bind_Ok in Hr as (signer & c1 & [_ ->]%lift_Ok & Hr).
  destruct (create_account_call sha256 invoke _ _ _ _ _ ix [AccountMeta_new (unsigned_key buffer) false] _ _ _
    Hwf Hix ltac:(cbn; lia) Hr)
    as (x & j & pd & _ & Hj & Hpd & Hl & Hd & _ & Hm & _ & Hs & _).
  assert (j = account programdata) as -> by (symmetry; by apply Hj). set (n := Z.max _ _) in Hm. assert (0 <= n) as Hn by lia.
  pose proof (lookup_lt_Some _ _ _ Hpd) as Hlt. pose proof (Hpos _ _ Hpd). split_and!; [done| |by eauto| |].
  - eapply moved_nonneg; [exact Hm|done|]. by apply nonneg_insert.
  - eapply moved_lookup in Hm as (pd' & Hpd' & Heq & _); [|done|by apply list_lookup_insert_eq].
    exists pd'. split; [done|]. by rewrite Heq.
  - intros Ha Hne. assert (i ≠ account programdata) as Hi by (intros ->; congruence).
    etransitivity; [|eapply (moved_spares i _ _ _ _ _ a); [exact Hm|done|by rewrite list_lookup_insert_ne|done]].
    by apply (spares_insert i _ _ pd).
Qed.

(** The buffer's lamports go to the payer before the creation, or later. *)
Lemma predrain_Ok (predrain : bool) keyed first buffer l u l' : get_keyed_accounts (lc_context l) = Ok keyed ->
  runtime_wf (lc_context l) -> balances_nonneg (laccounts l) -> keyed !! (first + 3)%nat = Some buffer ->
  (if predrain then on_frame (fun keyed => drain_buffer keyed first) else mret tt) l = (Ok u, l') ->
  same_frame (lc_context l) (lc_context l') /\ runtime_wf (lc_context l') /\ lamports_only (laccounts l) (laccounts l') /\
  balances_nonneg (laccounts l') /\ (forall i, i ≠ account buffer -> spares i (laccounts l) (laccounts l')).
Proof.
  intros Hk Hwf Hpos Hb Hr. destruct predrain.
  - apply (on_frame_Ok _ keyed) in Hr as (Hr & Hs & _); [|done|apply drain_buffer_length].
    apply (drain_buffer_effect _ _ buffer) in Hr as (Hl & Hpos' & Hsp); [|done..]. split_and!; [done| |done..].
    eapply runtime_wf_owners; [done|done|]. by apply lamports_only_owners.
  - apply SE_ret_Ok in Hr as [_ ->]. split_and!; [done|done|apply lamports_only_refl|done|done].
Qed.

Lemma frame_accounts_Ok keyed first l payer programdata program buffer l' : get_keyed_accounts (lc_context l) = Ok keyed ->
  on_frame (fun keyed =>
    payer ← loader_account keyed first 0; programdata ← loader_account keyed first 1;
    program ← loader_account keyed first 2; buffer ← loader_account keyed first 3;
    mret (payer, programdata, program, buffer)) l = (Ok (payer, programdata, program, buffer), l') ->
  l' = l /\ keyed !! (first + 1)%nat = Some programdata /\ keyed !! (first + 2)%nat = Some program /\
  keyed !! (first + 3)%nat = Some buffer.
Proof.
  intros Hk Hr. assert (forall s s', (payer ← loader_account keyed first 0; programdata ← loader_account keyed first 1;
    program ← loader_account keyed first 2; buffer ← loader_account keyed first 3;
    mret (payer, programdata, program, buffer)) s = (Ok (payer, programdata, program, buffer), s') ->
    s' = s /\ keyed !! (first + 1)%nat = Some programdata /\ keyed !! (first + 2)%nat = Some program /\
    keyed !! (first + 3)%nat = Some buffer) as Hall.
  { intros s s' Hm. do 4 (apply SE_bind_Ok in Hm as (? & ? & (-> & ? & _)%loader_account_Ok & Hm)).
    apply SE_ret_Ok in Hm as [Hm ->]. injection Hm as -> -> -> ->. done. }
  apply (on_frame_same _ keyed) in Hr as [Hr ->]; [|done|by intros s' [-> _]%Hall]. split; [done|]. by apply Hall in Hr as [_ Hr].
Qed.

(** The state of a decodable account is not empty. *)
Lemma decoded_nonempty (a : AccountSharedData) (st : UpgradeableLoaderState) : account_state a = Ok st -> data a ≠ [].
Proof. unfold account_state. intros Ha Hd. rewrite Hd, codec_empty in Ha. done. Qed.

Lemma deployed_programdata slot pk pdoff pd header bits len : programdata_data_offset = Ok pdoff ->
  data pd = replicate len 0 -> pdoff + Z.of_nat (length bits) <= Z.of_nat (length header) ->
  account_set_state (LoaderProgramData slot (Some pk)) pd = (Ok tt, set_data header pd) ->
  exists n, drop (Z.to_nat pdoff) (deployed_data pdoff header bits) = bits ++ replicate n 0 /\
    bincode_deserialize (deployed_data pdoff header bits) = Some (LoaderProgramData slot (Some pk)).
Proof.
  intros Hpdoff Hd Hfit Hset. pose proof (programdata_data_offset_Ok _ Hpdoff) as [Hpd0 _].
  destruct (stored_programdata _ _ _ _ _ (bits ++ drop (Z.to_nat pdoff + length bits) header) Hpdoff Hset)
    as (Hframe & Hl & Hle & Hdec).
  unfold deployed_data. eexists. split; [|exact Hdec]. rewrite drop_app_length' by (rewrite length_take; lia).
  f_equal. rewrite <- drop_drop, Hframe, Hd, !drop_replicate. done.
Qed.

(** What the loader finds after the creation of the program data account. *)
Record created (keyed : list KeyedAccount) (programdata buffer : KeyedAccount) (len : Z) (l l2 : LoaderContext) : Prop := {
  cr_frame : same_frame (lc_context l) (lc_context l2);
  cr_keyed : get_keyed_accounts (lc_context l2) = Ok keyed;
  cr_nonneg : balances_nonneg (laccounts l2);
  cr_programdata : exists pd, laccounts l2 !! account programdata = Some pd /\ data pd = replicate (Z.to_nat len) 0;
  cr_other i a (st : UpgradeableLoaderState) : laccounts l !! i = Some a -> account_state a = Ok st ->
    i ≠ account programdata /\ (exists a', laccounts l2 !! i = Some a' /\ data a' = data a) /\
    (i ≠ account buffer -> spares i (laccounts l) (laccounts l2));
}.

Lemma create_Ok program_id rent len bump (predrain : bool) keyed first payer programdata program buffer l u l1 l2 :
  get_keyed_accounts (lc_context l) = Ok keyed -> runtime_wf (lc_context l) -> balances_nonneg (laccounts l) ->
  keyed !! (first + 1)%nat = Some programdata -> keyed !! (first + 3)%nat = Some buffer ->
  (if predrain then on_frame (fun keyed => drain_buffer keyed first) else mret tt) l = (Ok u, l1) ->
  create_programdata sha256 bytes_are_curve_point invoke program_id rent len bump payer programdata program buffer (lc_context l1)
    = (Ok tt, lc_context l2) ->
  created keyed programdata buffer len l l2.
Proof.
  intros Hk Hwf Hpos Hpd Hb Hdrain Hcreate.
  apply (predrain_Ok _ keyed _ buffer) in Hdrain as (Hs1 & Hwf1 & Hlo & Hpos1 & Hsp1); [|done..].
  pose proof (keyed_name _ _ _ _ Hwf1 (eq_trans (get_keyed_accounts_same _ _ Hs1) Hk) Hpd) as Hname.
  pose proof (fun i a => create_programdata_Ok _ _ _ _ _ _ _ _ _ _ i a Hwf1 Hpos1 Hname Hcreate) as Hcr.
  destruct (Hcr O (mkAccount 0 [] 0 false 0)) as (Hs2 & Hpos2 & (pd0 & Hpd0 & Hempty) & Hzero & _).
  split; [by transitivity (lc_context l1)| |done|done|].
  - rewrite (get_keyed_accounts_same (lc_context l1)), (get_keyed_accounts_same (lc_context l)); done.
  - intros i a st Ha Hst. apply decoded_nonempty in Hst as Hne. destruct (proj2 Hlo _ _ Ha) as (a1 & Ha1 & Heq).
    assert (data a1 ≠ []) as Hne1 by (by rewrite Heq). destruct (Hcr i a1) as (_ & _ & _ & _ & Hsp). specialize (Hsp Ha1 Hne1).
    destruct (Hsp _ Ha1) as (a2 & Ha2 & Hd & _). split_and!; [congruence|exists a2; by rewrite Hd, Heq|].
    intros Hi. transitivity (laccounts l1); [by apply Hsp1|done].
Qed.

Lemma deploy_Ok program_id first max_data_len use_jit keyed l u l' : get_keyed_accounts (lc_context l) = Ok keyed ->
  runtime_wf (lc_context l) -> balances_nonneg (laccounts l) ->
  deploy_with_max_data_len trace_enabled sha256 bytes_are_curve_point invoke program_id first max_data_len use_jit l = (Ok u, l') ->
  exists programdata program buffer authority p b boff pdoff len,
    deploy_checked keyed first (laccounts l) programdata program buffer authority p b boff pdoff len max_data_len /\
    (forall i a st, laccounts l !! i = Some a -> account_state a = Ok st -> st ≠ LoaderUninitialized ->
      i ≠ account buffer -> spares i (laccounts l) (laccounts l')) /\
    installed l l' use_jit programdata program buffer authority boff pdoff.
Proof.
  intros Hk Hwf Hpos Hr. unfold deploy_with_max_data_len in Hr.
  apply SE_bind_Ok in Hr as ([[[[[rent clock] boff] pdoff] len] bump] & l1 & Hchk & Hr).
  apply (on_frame_same _ keyed) in Hchk as [Hchk ->]; [|done|by intros s' [-> _]%check_deploy_Ok].
  apply check_deploy_Ok in Hchk as (_ & programdata & program & buffer & authority & p & b & Hc).
  apply SE_bind_Ok in Hr as ([[[payer pd1] p1] b1] & l1 & Hacc & Hr).
  apply (frame_accounts_Ok keyed) in Hacc as (-> & Hpd & Hp & Hb); [|done].
  pose proof Hc as [Hpd' [Hp' [Hpa Hpst]] [Hb' [Hba Hbst]] [Hau Hsig] [Hboff Hpdoff] Hlen].
  assert (pd1 = programdata) as -> by congruence. assert (p1 = program) as -> by congruence.
  assert (b1 = buffer) as -> by congruence.
  apply SE_bind_Ok in Hr as (predrain & l1 & [Hpre He1]%in_context_Ok & Hr).
  apply SE_bind_Ok in Hpre as (c0 & c1 & [-> ->]%get_Ok & [_ Hl1]%SE_ret_Ok).
  assert (l1 = l) as -> by (destruct l, l1; cbn in *; congruence). clear He1 Hl1.
  apply SE_bind_Ok in Hr as (u1 & l1 & Hdrain & Hr). apply SE_bind_Ok in Hr as ([] & l2 & [Hcreate He2]%in_context_Ok & Hr).
  destruct (create_Ok _ _ _ _ _ _ _ _ _ _ _ _ _ _ _ Hk Hwf Hpos Hpd Hb Hdrain Hcreate) as [Hs2 Hk2 Hpos2 (pd2 & Hpd2 & Hzero) Hkeep].
  apply SE_bind_Ok in Hr as (x & l3 & [Hx He3]%in_context_Ok & Hr).
  apply (create_executor_Ok _ _ _ _ _ keyed) in Hx as (Hl3 & k & b2 & Hkb & Hb2 & Hver); [|done].
  assert (k = buffer) as -> by congruence. assert (l3 = l2) as -> by (destruct l2, l3; cbn in *; congruence). clear Hl3 He3.
  destruct (Hkeep _ _ _ Hba Hbst) as (_ & (b3 & Hb3 & Hbd) & _). assert (b3 = b2) as -> by congruence.
  apply SE_bind_Ok in Hr as (u2 & l3 & ->%modify_Ok & Hr).
  apply (on_frame_Ok _ keyed) in Hr as (Hr & Hs3 & Hx); [|done|apply apply_deploy_length]. cbn [update_executor lc_context] in *.
  pose proof (fun i => apply_deploy_Ok keyed first i _ _ _ _ programdata program buffer _ _ _ Hpos2 Hpd Hp Hb
    (proj1 (Hkeep _ _ _ Hpa Hpst)) Hr) as Happly.
  exists programdata, program, buffer, authority, p, b, boff, pdoff, len. split_and!; [exact Hc| |].
  - intros i a st Ha Hst Hinit Hi. destruct (Hkeep _ _ _ Ha Hst) as (Hne & _ & Hsp).
    transitivity (laccounts l2); [by apply Hsp|]. apply Happly; [done| |done].
    intros ->. assert (a = p) as -> by congruence. rewrite Hst in Hpst. by injection Hpst.
  - destruct (Happly O) as [_ (au & pd3 & b4 & header & pd' & Hau' & Hpd3 & Hb4 & Hset & Hfit & Hpd'' & Hdata & _)].
    assert (au = authority) as -> by congruence. assert (pd3 = pd2) as -> by congruence. assert (b4 = b2) as -> by congruence.
    destruct (deployed_programdata _ _ _ _ _ _ _ Hpdoff Hzero Hfit Hset) as (n & Hdrop & Hdec).
    exists b, pd', x, (clock_slot clock), n. rewrite <- Hbd. split; [done|]. split; [done|]. split; [|split; [|split]].
    + unfold account_state. by rewrite Hdata, Hdec.
    + by rewrite Hdata.
    + unfold get_executor. rewrite Hx. cbn. by rewrite lookup_insert_eq.
    + by exists (lc_context l2).
Qed.

(** ** Theorems *)

Abbreviation loader_process := (process_loader_upgradeable_instruction trace_enabled sha256 bytes_are_curve_point invoke).

Lemma loader_process_Ok first d use_jit keyed l u l' : get_keyed_accounts (lc_context l) = Ok keyed ->
  loader_process first d use_jit l = (Ok u, l') ->
  exists program_id instruction, get_caller (lc_context l) = Ok program_id /\
    limited_deserialize d PACKET_DATA_SIZE = Ok instruction /\
    match instruction with
    | InitializeBuffer => on_frame (fun keyed => initialize_buffer keyed first)
    | WriteBuffer offset bytes => on_frame (fun keyed => write_buffer keyed first offset bytes)
    | DeployWithMaxDataLen max_data_len =>
        deploy_with_max_data_len trace_enabled sha256 bytes_are_curve_point invoke program_id first max_data_len use_jit
    | Upgrade => upgrade trace_enabled program_id first use_jit
    | SetAuthority => on_frame (fun keyed => set_loader_authority keyed first)
    | Close => on_frame (fun keyed => close_loader_account program_id keyed first)
    end l = (Ok u, l').
Proof.
  intros Hk Hr. unfold process_loader_upgradeable_instruction in Hr.
  apply SE_bind_Ok in Hr as (l0 & l1 & [-> ->]%get_Ok & Hr). apply SE_bind_Ok in Hr as (id & l1 & [Hid ->]%lift_Ok & Hr).
  apply SE_bind_Ok in Hr as (k & l1 & [_ ->]%lift_Ok & Hr). apply SE_bind_Ok in Hr as (ix & l1 & [Hix ->]%lift_Ok & Hr).
  by exists id, ix.
Qed.

Lemma governed_or_spared first d use_jit keyed l u l' i a st :
  runtime_wf (lc_context l) -> balances_nonneg (laccounts l) -> get_keyed_accounts (lc_context l) = Ok keyed ->
  loader_process first d use_jit l = (Ok u, l') ->
  laccounts l !! i = Some a -> account_state a = Ok st -> st ≠ LoaderUninitialized ->
  governs keyed st \/ spares i (laccounts l) (laccounts l').
Proof.
  intros Hwf Hpos Hk Hr Ha Hst Hinit. apply (loader_process_Ok _ _ _ keyed) in Hr as (id & ix & _ & _ & Hr); [|done].
  destruct ix as [|offset bytes|max_data_len| | |];
    try (apply (on_frame_Ok _ keyed) in Hr as (Hr & _ & _); [|done|by eauto with keeps_length]).
  - by eapply initialize_buffer_protects.
  - by eapply write_buffer_protects.
  - apply (deploy_Ok _ _ _ _ keyed) in Hr as (programdata & program & buffer & authority & p & b & boff & pdoff & len & Hc & Hsp & _); [|done..].
    destruct (decide (i = account buffer)) as [->|Hne]; [left|right; by eapply Hsp].
    destruct (dc_buffer _ _ _ _ _ _ _ _ _ _ _ _ _ Hc) as (_ & Hb & Hbst). assert (b = a) as -> by congruence.
    rewrite Hst in Hbst. injection Hbst as ->. exists (key authority). split; [done|]. by eapply dc_authority.
  - apply (loader_upgrade_Ok _ _ _ keyed) in Hr as (programdata & program & buffer & authority & pd & b & boff & pdoff & required & Hc & Hsp & _); [|done].
    destruct Hc as [[_ Hpd] _ [_ Hb] [_ Hsig] [Hbst [slot Hpdst]] _ _ _].
    destruct (decide (i = account programdata)) as [->|Hne1]; [left|destruct (decide (i = account buffer)) as [->|Hne2]; [left|right; by eapply Hsp]].
    + assert (pd = a) as -> by congruence. rewrite Hst in Hpdst. injection Hpdst as ->. by exists (key authority).
    + assert (b = a) as -> by congruence. rewrite Hst in Hbst. injection Hbst as ->. by exists (key authority).
  - by eapply set_loader_authority_protects.
  - by eapply close_protects.
Qed.


(** One instruction of the loader, as it changes the accounts of the ledger. *)
Definition loader_step (s s' : Accounts) : Prop :=
  exists first d use_jit keyed l l', s = laccounts l /\ s' = laccounts l' /\ runtime_wf (lc_context l) /\
    balances_nonneg s /\ get_keyed_accounts (lc_context l) = Ok keyed /\ loader_process first d use_jit l = (Ok tt, l').


End safety.

(** ** Running programs *)

Section running.
Context `{BpfVm} (trace_enabled : bool) (sha256 : list Z -> Hash) (bytes_are_curve_point : Hash -> bool).
Context `{Bincode UpgradeableLoaderState} `{Bincode UpgradeableLoaderInstruction} `{Bincode LoaderInstruction}.
Context `{Bincode Rent} `{Bincode Clock} `{BincodeVec SystemInstruction} (invoke : Invoke).
Context (execute : Executable -> nat -> list Z -> bool -> LM unit).

Lemma context_read {A} (m : AM A) l r l' : in_context (on_accounts m) l = (Ok r, l') ->
  (forall s', m (laccounts l) = (Ok r, s') -> s' = laccounts l) -> m (laccounts l) = (Ok r, laccounts l) /\ l' = l.
Proof.
  intros [Hm Hx]%in_context_Ok Hs. apply on_accounts_same in Hm as [Hm Hc]; [|done]. split; [done|].
  destruct l, l'. cbn in *. by subst.
Qed.

Lemma program_bits_offset_Ok k0 k1 s n s' p : s !! account k1 = Some p -> owner p = bpf_loader_upgradeable_id ->
  program_bits_offset k0 k1 s = (Ok n, s') ->
  s' = s /\ account_state p = Ok (LoaderProgram (key k0)) /\ programdata_data_offset = Ok n /\
  exists pd slot authority, s !! account k0 = Some pd /\ account_state pd = Ok (LoaderProgramData slot authority).
Proof.
  intros Hp Ho Hr. unfold program_bits_offset in Hr.
  apply SE_bind_Ok in Hr as (o & s1 & (-> & p' & Hp' & ->)%ka_owner_Ok & Hr). assert (p' = p) as -> by congruence.
  rewrite Ho, Z.eqb_refl in Hr. apply SE_bind_Ok in Hr as (pst & s1 & (-> & p'' & Hp'' & Hpst)%ka_state_Ok & Hr).
  assert (p'' = p) as -> by congruence. destruct pst; try done.
  apply SE_bind_Ok in Hr as (u & s1 & [Heq%Z.eqb_eq ->]%ensure_Ok & Hr).
  apply SE_bind_Ok in Hr as (fst' & s1 & (-> & pd & Hpd & Hpdst)%ka_state_Ok & Hr).
  apply SE_bind_Ok in Hr as (u1 & s1 & [Hkind ->]%ensure_Ok & Hr). destruct fst'; try done. apply lift_Ok in Hr as [Hn ->].
  unfold unsigned_key in Heq. subst. eauto 10.
Qed.

(** The executor of a program: the one of the transaction, or a new one. *)
Lemma find_executor_Ok first offset use_jit program_id keyed l x l' : get_keyed_accounts (lc_context l) = Ok keyed ->
  get_caller (lc_context l) = Ok program_id ->
  (match get_executor program_id l with
   | Some executor => mret executor
   | None =>
       executor ← in_context (create_executor trace_enabled first offset use_jit false);
       l ← get; program_id ← lift (get_caller (lc_context l));
       _ ← modify (add_executor program_id executor); mret executor
   end : LM Executable) l = (Ok x, l') ->
  lc_context l' = lc_context l /\ get_executor program_id l' = Some x /\
  (get_executor program_id l = Some x \/
   get_executor program_id l = None /\ exists k b, keyed !! first = Some k /\ laccounts l !! account k = Some b /\
     verified trace_enabled false use_jit (lc_context l) (drop (Z.to_nat offset) (data b)) x).
Proof.
  intros Hk Hid Hr. destruct (get_executor program_id l) as [e|] eqn:He.
  - apply SE_ret_Ok in Hr as [-> ->]. by split_and!; [| |left].
  - apply SE_bind_Ok in Hr as (e & l1 & [Hx Hex]%in_context_Ok & Hr).
    apply (create_executor_Ok _ _ _ _ _ keyed) in Hx as (Hl1 & k & b & Hkb & Hb & Hver); [|done].
    assert (l1 = l) as -> by (destruct l, l1; cbn in *; congruence).
    apply SE_bind_Ok in Hr as (l2 & l3 & [-> ->]%get_Ok & Hr). apply SE_bind_Ok in Hr as (id & l3 & [Hid' ->]%lift_Ok & Hr).
    assert (id = program_id) as -> by congruence. apply SE_bind_Ok in Hr as (u & l3 & ->%modify_Ok & [-> ->]%SE_ret_Ok).
    split_and!; [done|unfold get_executor; cbn; by rewrite lookup_insert_eq|right; eauto 10].
Qed.

(** C27. A program runs its own bits: when a call of a program of the upgradeable
    loader succeeds, the first account is the program data account that the
    program names, and what ran is the program's executor of this transaction, or
    one that the virtual machine made of the bits behind the state of that
    account after verifying them; it is the program's executor from then on. *)
Theorem program_runs_its_bits first d use_jit keyed k0 k1 p program_id l l' :
  get_caller (lc_context l) = Ok program_id -> get_keyed_accounts (lc_context l) = Ok keyed ->
  keyed !! first = Some k0 -> keyed !! (first + 1)%nat = Some k1 -> key k0 ≠ program_id -> key k1 = program_id ->
  laccounts l !! account k1 = Some p -> executable p = true -> owner p = bpf_loader_upgradeable_id ->
  process_instruction_common trace_enabled sha256 bytes_are_curve_point invoke execute first d use_jit l = (Ok tt, l') ->
  exists pd slot authority pdoff x l2, laccounts l !! account k0 = Some pd /\
    account_state p = Ok (LoaderProgram (key k0)) /\ account_state pd = Ok (LoaderProgramData slot authority) /\
    programdata_data_offset = Ok pdoff /\ lc_context l2 = lc_context l /\ get_executor program_id l2 = Some x /\
    (get_executor program_id l = Some x \/ get_executor program_id l = None /\
      verified trace_enabled false use_jit (lc_context l) (drop (Z.to_nat pdoff) (data pd)) x) /\
    execute x (first + 1)%nat d use_jit l2 = (Ok tt, l').
Proof.
  intros Hid Hk Hk0 Hk1 Hne Hkey Hp Hexec Howner Hr. unfold process_instruction_common in Hr.
  apply SE_bind_Ok in Hr as (l0 & l1 & [-> ->]%get_Ok & Hr). apply SE_bind_Ok in Hr as (id & l1 & [Hid' ->]%lift_Ok & Hr).
  assert (id = program_id) as -> by congruence.
  assert (forall r s s', find_program program_id keyed first s = (Ok r, s') -> s' = s /\ r = (k0, k1, (first + 1)%nat)) as Hfind.
  { intros r s s' Hf. unfold find_program in Hf. apply SE_bind_Ok in Hf as (k & s1 & [Hk0' ->]%keyed_account_at_index_Ok & Hf).
    assert (k = k0) as -> by congruence. unfold unsigned_key in Hf. rewrite (proj2 (Z.eqb_neq _ _) Hne), Hk1, Hkey, Z.eqb_refl in Hf.
    by apply SE_ret_Ok in Hf as [-> ->]. }
  apply SE_bind_Ok in Hr as (found & l1 & Hf & Hr). apply (on_frame_same _ keyed) in Hf as [Hf ->]; [|done|by intros s' [-> _]%Hfind].
  apply Hfind in Hf as [_ ->]. apply SE_bind_Ok in Hr as (e & l1 & He & Hr).
  apply context_read in He as [He ->]; [|by intros s' (-> & _)%ka_executable_Ok].
  apply ka_executable_Ok in He as (_ & p' & Hp' & ->). assert (p' = p) as -> by congruence. rewrite Hexec in Hr.
  apply SE_bind_Ok in Hr as (o & l1 & Ho & Hr). apply context_read in Ho as [Ho ->]; [|by intros s' (-> & _)%ka_owner_Ok].
  apply SE_bind_Ok in Hr as (u & l1 & [_ ->]%ensure_Ok & Hr). apply SE_bind_Ok in Hr as (offset & l1 & Hoff & Hr).
  apply context_read in Hoff as [Hoff ->]; [|by intros s' (-> & _)%(program_bits_offset_Ok _ _ _ _ _ p)].
  apply (program_bits_offset_Ok _ _ _ _ _ p) in Hoff as (_ & Hpst & Hpdoff & pd & slot & authority & Hpd & Hpdst); [|done..].
  apply SE_bind_Ok in Hr as (l0 & l1 & [-> ->]%get_Ok & Hr). apply SE_bind_Ok in Hr as (x & l2 & Hx & Hr).
  apply (find_executor_Ok _ _ _ _ keyed) in Hx as (Hl2 & Hx2 & Hx); [|done..].
  exists pd, slot, authority, offset, x, l2. split_and!; [done..| |done].
  destruct Hx as [|(Hn & k & b & Hkb & Hb & Hver)]; [by left|right]. assert (k = k0) as -> by congruence.
  assert (b = pd) as -> by congruence. done.
Qed.
End running.
