(* ===== verification/BpfLoaderExample.v ===== *)
(** * The upgradeable loader on concrete data

    A program is deployed from a buffer, the loader calling the system program
    through the invocations of the runtime; it is upgraded, run, and made
    immutable. The virtual machine is a toy: an executable is its bytes. *)
From stdpp Require Import base numbers option list gmap relations.
From S2P Require Import Prelude Instruction Account EpochSchedule Float64 Rent Sysvar Message PreAccount.
From S2P Require Import ComputeBudget InvokeContext InvokeSpec Nonce System ProgramAddress SystemCall BpfLoader BpfLoaderSpec.
From S2P Require Import BpfLoaderSafety.

Module LoaderExample.
#[local] Instance system_instruction_eq : EqDecision SystemInstruction.
Proof. solve_decision. Defined.
#[local] Instance loader_instruction_eq : EqDecision UpgradeableLoaderInstruction.
Proof. solve_decision. Defined.

(** ** Serializations *)

(** A state is a tag, its fields, and a flag before an optional key. *)
Definition encode (x : UpgradeableLoaderState) : list Z :=
  match x with
  | LoaderUninitialized => [0]
  | LoaderBuffer None => [1; 0]
  | LoaderBuffer (Some k) => [1; 1; k]
  | LoaderProgram k => [2; k]
  | LoaderProgramData s None => [3; s; 0]
  | LoaderProgramData s (Some k) => [3; s; 1; k]
  end.
Definition decode (d : list Z) : option UpgradeableLoaderState :=
  match d with
  | 0 :: _ => Some LoaderUninitialized
  | 1 :: 0 :: _ => Some (LoaderBuffer None)
  | 1 :: 1 :: k :: _ => Some (LoaderBuffer (Some k))
  | 2 :: k :: _ => Some (LoaderProgram k)
  | 3 :: s :: 0 :: _ => Some (LoaderProgramData s None)
  | 3 :: s :: 1 :: k :: _ => Some (LoaderProgramData s (Some k))
  | _ => None
  end.
#[local] Instance state_codec : Bincode UpgradeableLoaderState := {|
  bincode_deserialize := decode;
  bincode_deserialize_limited _ := decode;
  bincode_serialized_size x := Ok (Z.of_nat (length (encode x)));
  bincode_serialize_into x b := if decide (length (encode x) <= length b)%nat
    then (Ok tt, encode x ++ drop (length (encode x)) b) else (Err SizeLimit, b);
|}.

Lemma decode_encode x rest : decode (encode x ++ rest) = Some x.
Proof. destruct x as [|[]| |? []]; reflexivity. Qed.

#[local] Instance state_laws : BincodeLaws UpgradeableLoaderState.
Proof.
  split; cbn; intros.
  - case_decide; cbn; [|done]. rewrite length_app, length_drop. lia.
  - case_decide; simplify_eq. apply decode_encode.
  - simplify_eq. rewrite decide_True by lia. eauto.
  - done.
  - by case_decide.
Qed.

#[local] Instance state_loader_codec : LoaderCodec.
Proof.
  split; cbn; intros; simplify_eq; try case_decide; simplify_eq; try done.
  - split; [lia|]. destruct x as [|[]| |? []]; vm_compute; congruence.
  - by rewrite Nat2Z.id, drop_app_length.
  - rewrite Nat2Z.id, take_app_length. apply decode_encode.
Qed.

Definition const_codec {T} (x : T) : Bincode T := {|
  bincode_deserialize _ := Some x;
  bincode_deserialize_limited _ _ := Some x;
  bincode_serialized_size _ := Err BincodeOther;
  bincode_serialize_into _ b := (Err BincodeOther, b);
|}.

Definition rent : Rent := Rent_default.
Definition clock : Clock := mkClock 7 0 0 0 0.
#[local] Instance rent_codec : Bincode Rent := const_codec rent.
#[local] Instance clock_codec : Bincode Clock := const_codec clock.
#[local] Instance nonce_codec : Bincode NonceVersions := no_codec.
#[local] Instance blockhashes_codec : Bincode RecentBlockhashes := no_codec.
#[local] Instance old_loader_codec : Bincode LoaderInstruction := no_codec.

Definition loader_instructions : list UpgradeableLoaderInstruction := [DeployWithMaxDataLen 8; Upgrade; SetAuthority].
#[local] Instance instruction_codec : Bincode UpgradeableLoaderInstruction := table_codec loader_instructions.

Definition programdata_cost : Z := Eval vm_compute in minimum_balance rent 12.
Definition system_instructions : list SystemInstruction := [CreateAccount programdata_cost 12 bpf_loader_upgradeable_id].
#[local] Instance system_codec : Bincode SystemInstruction := table_codec system_instructions.
#[local] Instance system_vec : BincodeVec SystemInstruction := table_vec system_instructions.
#[local] Instance system_laws : BincodeVecLaws SystemInstruction := table_vec_laws system_instructions.

(** ** The machine and the ledger *)

(** A file starts with 127; the verifier wants small bytes. *)
#[local] Instance vm : BpfVm := {|
  Executable := list Z;
  SyscallRegistry := unit;
  from_elf bytes _ _ := match bytes with 127 :: text => Some text | _ => None end;
  get_text_bytes := id;
  verifier_check text _ := forallb (fun x => x <? 100) text;
  jit_compile := Some;
  register_syscalls _ := Some tt;
|}.

Definition sha (_ : list Z) : Hash := 77.
Definition curve (_ : Hash) : bool := false.
Definition programs : list (Pubkey * Program) := [(system_program_id, system_program sha)].
Definition invoke : Invoke := invoke_at programs no_native_loader 3.
#[local] Instance invoke_calls : SystemCalls sha invoke := invoke_at_system_calls sha programs no_native_loader 3 0 _ eq_refl.

(** The payer is 6, the authority 5; the program 8 is deployed from the buffer 9
    and its program data is at 77. *)
Definition keys : list Pubkey := [bpf_loader_upgradeable_id; 6; 77; 8; 9; rent_id; clock_id; system_program_id; 5].
Definition native_account : AccountSharedData := mkAccount 1 [] native_loader_id true 0.
Definition start : Accounts :=
  [native_account; mkAccount 100000000 [] system_program_id false 0; mkAccount 0 [] system_program_id false 0;
   mkAccount 10000000 [0; 0] bpf_loader_upgradeable_id false 0;
   mkAccount 10000000 [1; 1; 5; 127; 1; 2] bpf_loader_upgradeable_id false 0;
   mkAccount 1 [0] native_loader_id false 0; mkAccount 1 [0] native_loader_id false 0; native_account;
   mkAccount 10 [] system_program_id false 0].

Definition ka (i : nat) (signer writable : bool) : KeyedAccount := mkKeyedAccount signer writable (default 0 (keys !! i)) i.
Definition deploy_frame : list KeyedAccount :=
  [ka 0 false false; ka 1 true true; ka 2 false true; ka 3 true true; ka 4 false true; ka 5 false false; ka 6 false false;
   ka 7 false false; ka 8 true false].
Definition upgrade_frame : list KeyedAccount :=
  [ka 0 false false; ka 2 false true; ka 3 false true; ka 4 false true; ka 1 false true; ka 5 false false; ka 6 false false;
   ka 8 true false].
Definition authority_frame : list KeyedAccount := [ka 0 false false; ka 2 false true; ka 8 true false].
Definition run_frame : list KeyedAccount := [ka 2 false false; ka 3 false false].

Definition context (n : nat) (keyed : list KeyedAccount) (s : Accounts) : LoaderContext :=
  mkLoaderContext
    (set_pre_accounts (zip_with PreAccount_new keys s)
      (set_stack [StackFrame_new n keyed]
        (InvokeContext_new rent (zip keys s) (mkSysvarCache (Some clock) None (Some rent) None) ComputeBudget_default
          {[ do_support_realloc := 0; reduce_required_deploy_balance := 0 ]} 0 0 0))) ∅.
Definition run (keyed : list KeyedAccount) (s : Accounts) (n : Z) : outcome InstructionError unit * LoaderContext :=
  process_loader_upgradeable_instruction false sha curve invoke 1 [n] true (context 1 keyed s).
Definition deployed : Accounts := Eval vm_compute in laccounts (snd (run deploy_frame start 0)).
Definition upgraded : Accounts := Eval vm_compute in laccounts (snd (run upgrade_frame deployed 1)).
Definition immutable : Accounts := Eval vm_compute in laccounts (snd (run authority_frame upgraded 2)).

Definition resolved (keyed : list KeyedAccount) : bool :=
  forallb (fun k => bool_decide (keys !! account k = Some (key k))) keyed.
Definition system_native (s : Accounts) : bool :=
  (Nat.eqb (length s) 9) && match s !! 7%nat with Some a => owner a =? native_loader_id | None => false end.

Lemma loader_context_wf n keyed s : resolved keyed = true -> system_native s = true -> runtime_wf (lc_context (context n keyed s)).
Proof.
  intros Hk [Hlen%Nat.eqb_eq Hsys]%andb_true_iff.
  assert ((zip keys s).*1 = keys) as Hkeys by (apply fst_zip; rewrite Hlen; done).
  assert (NoDup keys) as Hdup by (apply (bool_decide_unpack _); vm_compute; exact I).
  assert (forall f k, head (invoke_stack (lc_context (context n keyed s))) = Some f -> k ∈ sf_keyed_accounts f ->
    (zip keys s).*1 !! account k = Some (key k)) as Hframe.
  { intros f k [= <-] Hin. rewrite Hkeys. unfold resolved in Hk. rewrite forallb_forall in Hk.
    apply list_elem_of_In, Hk in Hin. by apply bool_decide_eq_true in Hin. }
  split; [discriminate|exact Hframe| |].
  - intros f k i Hf Hin _ Hi. specialize (Hframe _ _ Hf Hin). change ((zip keys s).*1 !! i = Some (key k)) in Hi.
    rewrite Hkeys in Hi, Hframe. eapply NoDup_lookup; [exact Hdup|exact Hi|exact Hframe].
  - intros i a Ha%get_account_Some. change (zip keys s !! i = Some (system_program_id, a)) in Ha.
    apply lookup_zip_with_Some in Ha as (x & y & Hxy & Hx & Hy). injection Hxy as <- <-.
    assert (i = 7%nat) as -> by (do 9 (destruct i as [|i]; [try discriminate; reflexivity|]); discriminate).
    rewrite Hy in Hsys. by apply Z.eqb_eq.
Qed.

Lemma context_accounts n keyed s : length s = 9%nat -> laccounts (context n keyed s) = s.
Proof. intros Hl. change ((zip keys s).*2 = s). apply snd_zip. by rewrite Hl. Qed.

Lemma nonneg_check s : forallb (fun a => 0 <=? lamports a) s = true -> balances_nonneg s.
Proof.
  rewrite forallb_forall. intros Hs k b Hb%list_elem_of_lookup_2. apply list_elem_of_In, Hs in Hb. by apply Z.leb_le.
Qed.


Lemma run_step n keyed s s' : resolved keyed = true -> system_native s = true -> balances_nonneg s ->
  fst (run keyed s n) = Ok tt -> laccounts (snd (run keyed s n)) = s' ->
  get_keyed_accounts (lc_context (context 1 keyed s)) = Ok keyed -> loader_step false sha curve invoke s s'.
Proof.
  intros Hk Hs Hpos Hok Hs' Hget. exists 1%nat, [n], true, keyed, (context 1 keyed s), (snd (run keyed s n)).
  assert (length s = 9%nat) as Hlen by (by apply andb_true_iff in Hs as [Hl%Nat.eqb_eq _]).
  split_and!; [by rewrite context_accounts|done|by apply loader_context_wf|done|done|]. rewrite <- Hok. unfold run.
  by destruct (process_loader_upgradeable_instruction _ _ _ _ _ _ _ _).
Qed.



(** Running a program: it returns at once. *)
Definition execute (x : Executable) (first : nat) (d : list Z) (use_jit : bool) : LM unit := mret tt.

Lemma program_runs_its_bits_witness : exists x l2,
  verified false false true (lc_context (context 2 run_frame deployed)) [127; 1; 2; 0; 0; 0; 0; 0] x /\
  get_executor 8 l2 = Some x /\ execute x 1 [] true l2 = (Ok tt, l2).
Proof.
  destruct (program_runs_its_bits false sha curve invoke execute 0 [] true run_frame (ka 2 false false) (ka 3 false false)
    (mkAccount 10000000 [2; 77] bpf_loader_upgradeable_id true 0) 8 (context 2 run_frame deployed)
    (snd (process_instruction_common false sha curve invoke execute 0 [] true (context 2 run_frame deployed))))
    as (pd & slot & authority & pdoff & x & l2 & Hpd & _ & _ & Hpdoff & _ & Hx & Hex & Hrun).
  - reflexivity.
  - reflexivity.
  - reflexivity.
  - reflexivity.
  - discriminate.
  - reflexivity.
  - reflexivity.
  - reflexivity.
  - reflexivity.
  - vm_compute. reflexivity.
  - exists x, l2. destruct Hex as [Hex|[_ Hver]]; [discriminate|]. vm_compute in Hpd. injection Hpd as <-.
    vm_compute in Hpdoff. injection Hpdoff as <-. split_and!; [exact Hver|exact Hx|done].
Defined.
End LoaderExample.
