(* ===== verification/AccountLocks.v ===== *)
(** * Account locks

    The locks of [runtime/src/accounts.rs] ([AccountLocks], [lock_accounts],
    [unlock_accounts]) that keep transactions of different batches from using
    the accounts one of them writes, with the keys a transaction locks
    ([sdk/src/transaction/sanitized.rs]). The mutex around the table makes every
    call of these functions one step. *)
From Stdlib Require Import String.
From stdpp Require Import base numbers option list gmap relations.
From S2P Require Import Prelude Instruction Account Message MessageSpec ComputeBudget BankForks.
Import TransactionError.

Definition max_tx_account_locks : Pubkey := Eval vm_compute in pubkey_of "CBkDroRDqm8HwHe6ak9cguPjUomrASEkfmxEaZ5CNNxz".
Definition MAX_TX_ACCOUNT_LOCKS : nat := 64.

Record TransactionAccountLocks : Type := mkTransactionAccountLocks {
  tal_readonly : list Pubkey;
  tal_writable : list Pubkey;
}.

Abbreviation TxOutcome := (outcome TransactionError).

Definition push_lock {E} (m : SanitizedMessage) (locks : TransactionAccountLocks) (entry : nat * Pubkey)
  : outcome E TransactionAccountLocks :=
  is_writable ← sm_is_writable m entry.1;
  Ok (if (is_writable : bool) then mkTransactionAccountLocks (tal_readonly locks) (tal_writable locks ++ [entry.2])
      else mkTransactionAccountLocks (tal_readonly locks ++ [entry.2]) (tal_writable locks)).

Fixpoint push_locks {E} (m : SanitizedMessage) (keys : list (nat * Pubkey)) (locks : TransactionAccountLocks)
  : outcome E TransactionAccountLocks :=
  match keys with
  | [] => Ok locks
  | entry :: keys => locks ← push_lock m locks entry; push_locks m keys locks
  end.

Definition get_account_locks_unchecked {E} (tx : SanitizedTransaction) : outcome E TransactionAccountLocks :=
  push_locks (tx_message tx) (imap (fun i k => (i, k)) (account_keys_iter (tx_message tx)))
    (mkTransactionAccountLocks [] []).

Definition get_account_locks (tx : SanitizedTransaction) (feature_set : FeatureSet) : TxOutcome TransactionAccountLocks :=
  if sm_has_duplicates (tx_message tx) then Err AccountLoadedTwice
  else if is_active feature_set max_tx_account_locks
          && bool_decide (MAX_TX_ACCOUNT_LOCKS < sm_account_keys_len (tx_message tx))%nat
  then Err TooManyAccountLocks
  else get_account_locks_unchecked tx.

(** ** The table *)

Record AccountLocks : Type := mkAccountLocks {
  write_locks : gset Pubkey;
  readonly_locks : gmap Pubkey Z;
}.

Definition AccountLocks_default : AccountLocks := mkAccountLocks ∅ ∅.

Definition is_locked_readonly (l : AccountLocks) (k : Pubkey) : bool :=
  match readonly_locks l !! k with Some count => 0 <? count | None => false end.

Definition is_locked_write (l : AccountLocks) (k : Pubkey) : bool := bool_decide (k ∈ write_locks l).

Definition insert_new_readonly {E} (k : Pubkey) (l : AccountLocks) : outcome E AccountLocks :=
  match readonly_locks l !! k with
  | None => Ok (mkAccountLocks (write_locks l) (<[k := 1]> (readonly_locks l)))
  | Some _ => Panic
  end.

Definition lock_readonly (k : Pubkey) (l : AccountLocks) : bool * AccountLocks :=
  match readonly_locks l !! k with
  | Some count => (true, mkAccountLocks (write_locks l) (<[k := add64 count 1]> (readonly_locks l)))
  | None => (false, l)
  end.

Definition unlock_readonly (k : Pubkey) (l : AccountLocks) : AccountLocks :=
  match readonly_locks l !! k with
  | Some count =>
      let count := sub64 count 1 in
      mkAccountLocks (write_locks l)
        (if count =? 0 then delete k (readonly_locks l) else <[k := count]> (readonly_locks l))
  | None => l
  end.

Definition unlock_write (k : Pubkey) (l : AccountLocks) : AccountLocks :=
  mkAccountLocks (write_locks l ∖ {[k]}) (readonly_locks l).

(** ** Locking and unlocking *)

Fixpoint insert_readonly_locks {E} (keys : list Pubkey) (l : AccountLocks) : outcome E AccountLocks :=
  match keys with
  | [] => Ok l
  | k :: keys =>
      l ← (let '(locked, l) := lock_readonly k l in if (locked : bool) then Ok l else insert_new_readonly k l);
      insert_readonly_locks keys l
  end.

Definition lock_account (writable_keys readonly_keys : list Pubkey) (l : AccountLocks) : TxOutcome AccountLocks :=
  if existsb (fun k => is_locked_write l k || is_locked_readonly l k) writable_keys then Err AccountInUse
  else if existsb (is_locked_write l) readonly_keys then Err AccountInUse
  else insert_readonly_locks readonly_keys
         (mkAccountLocks (foldl (fun s k => {[k]} ∪ s) (write_locks l) writable_keys) (readonly_locks l)).

Definition unlock_account (writable_keys readonly_keys : list Pubkey) (l : AccountLocks) : AccountLocks :=
  foldl (fun l k => unlock_readonly k l) (foldl (fun l k => unlock_write k l) l writable_keys) readonly_keys.

(** The results of the requests and the table; a panic poisons the table. *)
Fixpoint lock_accounts_inner (requests : list (TxOutcome TransactionAccountLocks)) (l : AccountLocks)
  : outcome fuel_error (list TransactionResult * AccountLocks) :=
  match requests with
  | [] => Ok ([], l)
  | request :: requests =>
      step ← (match request with
              | Ok keys =>
                  match lock_account (tal_writable keys) (tal_readonly keys) l with
                  | Ok l => Ok (Ok tt, l)
                  | Err e => Ok (Err e, l)
                  | Panic => Panic
                  end
              | Err e => Ok (Err e, l)
              | Panic => Panic
              end);
      let '(result, l) := step in
      rest ← lock_accounts_inner requests l;
      let '(results, l) := rest in
      Ok (result :: results, l)
  end.

Definition lock_accounts (txs : list SanitizedTransaction) (feature_set : FeatureSet) (l : AccountLocks)
  : outcome fuel_error (list TransactionResult * AccountLocks) :=
  lock_accounts_inner ((fun tx => get_account_locks tx feature_set) <$> txs) l.

Definition lock_accounts_with_results (txs : list SanitizedTransaction) (results : list TransactionResult)
    (feature_set : FeatureSet) (l : AccountLocks) : outcome fuel_error (list TransactionResult * AccountLocks) :=
  lock_accounts_inner
    (zip_with (fun tx result => match result with
                                | Ok _ => get_account_locks tx feature_set
                                | Err err => Err err
                                | Panic => Panic
                                end) txs results) l.

(** The errors of a transaction that holds no locks. *)
Definition holds_no_locks (result : TransactionResult) : bool :=
  match result with
  | Err AccountLoadedTwice | Err AccountInUse | Err SanitizeFailure | Err TooManyAccountLocks
  | Err WouldExceedMaxBlockCostLimit | Err WouldExceedMaxVoteCostLimit | Err WouldExceedMaxAccountCostLimit
  | Err WouldExceedMaxAccountDataCostLimit => true
  | _ => false
  end.

(** The keys are collected before the table is locked. *)
Fixpoint unlock_keys {E} (batch : list (SanitizedTransaction * TransactionResult))
  : outcome E (list TransactionAccountLocks) :=
  match batch with
  | [] => Ok []
  | (tx, result) :: batch =>
      if holds_no_locks result then unlock_keys batch
      else keys ← get_account_locks_unchecked tx; rest ← unlock_keys batch; Ok (keys :: rest)
  end.

Definition unlock_accounts {E} (txs : list SanitizedTransaction) (results : list TransactionResult) (l : AccountLocks)
  : outcome E AccountLocks :=
  keys ← unlock_keys (zip txs results);
  Ok (foldl (fun l keys => unlock_account (tal_writable keys) (tal_readonly keys) l) l keys).

(** ** Batches *)

(** A batch of transactions, with the results of locking their accounts. *)
Record TransactionBatch : Type := mkTransactionBatch {
  lock_results : list TransactionResult;
  sanitized_txs : list SanitizedTransaction;
  needs_unlock : bool;
}.

Definition TransactionBatch_new {E} (lock_results : list TransactionResult) (sanitized_txs : list SanitizedTransaction)
  : outcome E TransactionBatch :=
  if bool_decide (length lock_results = length sanitized_txs)
  then Ok (mkTransactionBatch lock_results sanitized_txs true) else Panic.

Definition prepare_sanitized_batch (feature_set : FeatureSet) (txs : list SanitizedTransaction) (l : AccountLocks)
  : outcome fuel_error (TransactionBatch * AccountLocks) :=
  locked ← lock_accounts txs feature_set l;
  let '(lock_results, l) := locked in
  batch ← TransactionBatch_new lock_results txs;
  Ok (batch, l).

Definition prepare_sanitized_batch_with_results (feature_set : FeatureSet) (transactions : list SanitizedTransaction)
    (transaction_results : list TransactionResult) (l : AccountLocks)
  : outcome fuel_error (TransactionBatch * AccountLocks) :=
  locked ← lock_accounts_with_results transactions transaction_results feature_set l;
  let '(lock_results, l) := locked in
  batch ← TransactionBatch_new lock_results transactions;
  Ok (batch, l).

(** A simulation takes no locks. *)
Definition prepare_simulation_batch (feature_set : FeatureSet) (transaction : SanitizedTransaction)
  : outcome fuel_error TransactionBatch :=
  let lock_result := (_ ← get_account_locks transaction feature_set; Ok tt) in
  batch ← TransactionBatch_new [lock_result] [transaction];
  Ok (mkTransactionBatch (lock_results batch) (sanitized_txs batch) false).

Definition bank_unlock_accounts {E} (batch : TransactionBatch) (l : AccountLocks)
  : outcome E (TransactionBatch * AccountLocks) :=
  if needs_unlock batch then
    l ← unlock_accounts (sanitized_txs batch) (lock_results batch) l;
    Ok (mkTransactionBatch (lock_results batch) (sanitized_txs batch) false, l)
  else Ok (batch, l).

Definition drop_batch {E} (batch : TransactionBatch) (l : AccountLocks) : outcome E AccountLocks :=
  unlocked ← bank_unlock_accounts batch l;
  Ok unlocked.2.
