(* ===== verification/AccountLocksSpec.v ===== *)
(** * What the account locks promise

    The table of [AccountLocks] is an optimised form of the list of the lock
    sets that live batches hold: a request is granted exactly when it conflicts
    with none of them. *)
From Stdlib Require Import String.
From stdpp Require Import base numbers option list gmap relations.
From S2P Require Import Prelude Instruction Account Message MessageSpec ComputeBudget BankForks AccountLocks.
Import TransactionError.

(** ** The keys a transaction locks *)

Lemma sm_is_writable_total (m : SanitizedMessage) (i : nat) :
  (i < length (account_keys_iter m))%nat -> exists w, forall E, sm_is_writable (E := E) m i = Ok w.
Proof.
  destruct m as [m|m]; cbn; [|by eauto]. intros Hi. unfold Message_is_writable.
  apply lookup_lt_is_Some in Hi as [k Hk]. rewrite Hk. cbn. destruct (writable_by_header m i); eauto.
Qed.

Lemma push_locks_total m (entries : list (nat * Pubkey)) (locks : TransactionAccountLocks) :
  Forall (fun e => (e.1 < length (account_keys_iter m))%nat) entries ->
  exists locks', (forall E, push_locks (E := E) m entries locks = Ok locks') /\
    tal_writable locks' ++ tal_readonly locks' ≡ₚ (tal_writable locks ++ tal_readonly locks) ++ entries.*2.
Proof.
  intros H. revert locks. induction H as [|[i k] entries Hi _ IH]; intros locks; cbn [push_locks].
  - exists locks. split; [done|]. by rewrite app_nil_r.
  - apply sm_is_writable_total in Hi as [w Hw]. cbn in Hw.
    destruct (IH (if w then mkTransactionAccountLocks (tal_readonly locks) (tal_writable locks ++ [k])
                  else mkTransactionAccountLocks (tal_readonly locks ++ [k]) (tal_writable locks))) as (l & Hl & Hp).
    exists l. split.
    + intros E. unfold push_lock. cbn [fst snd]. rewrite Hw. cbn. apply Hl.
    + rewrite Hp. destruct w; cbn; solve_Permutation.
Qed.

(** The keys a transaction locks. *)
Definition locks_of (tx : SanitizedTransaction) : TransactionAccountLocks :=
  match get_account_locks_unchecked (E := unit) tx with Ok l => l | _ => mkTransactionAccountLocks [] [] end.

Lemma imap_pair_snd {A} (l : list A) : (imap (fun i k => (i, k)) l).*2 = l.
Proof. rewrite fmap_imap. apply list_eq. intros i. rewrite list_lookup_imap. by destruct (l !! i). Qed.

Lemma locks_of_total tx :
  (forall E, get_account_locks_unchecked (E := E) tx = Ok (locks_of tx)) /\
  tal_writable (locks_of tx) ++ tal_readonly (locks_of tx) ≡ₚ account_keys_iter (tx_message tx).
Proof.
  unfold locks_of, get_account_locks_unchecked.
  destruct (push_locks_total (tx_message tx) (imap (fun i k => (i, k)) (account_keys_iter (tx_message tx)))
              (mkTransactionAccountLocks [] [])) as (l & Hl & Hp).
  - apply Forall_lookup. intros j [i k]. rewrite list_lookup_imap.
    destruct (account_keys_iter (tx_message tx) !! j) eqn:Hj; [|done]. intros [= <- <-]. by apply lookup_lt_Some in Hj.
  - rewrite Hl. split; [done|]. rewrite Hp, imap_pair_snd. done.
Qed.

Lemma sm_has_duplicates_NoDup m : sm_has_duplicates m = false -> NoDup (account_keys_iter m).
Proof.
  destruct m; cbn; [by intros ?%has_duplicates_NoDup|]. unfold loaded_has_duplicates.
  by intros [? _]%any_seen_NoDup.
Qed.

(** The keys are distinct. *)
Definition locks_nodup (h : TransactionAccountLocks) : Prop := NoDup (tal_writable h ++ tal_readonly h).

Lemma get_account_locks_cases tx fs :
  get_account_locks tx fs = Ok (locks_of tx) /\ locks_nodup (locks_of tx) \/
  get_account_locks tx fs = Err AccountLoadedTwice \/ get_account_locks tx fs = Err TooManyAccountLocks.
Proof.
  unfold get_account_locks. destruct (sm_has_duplicates _) eqn:Hd; [by auto|].
  case_match; [by auto|]. left. destruct (locks_of_total tx) as [-> Hp]. split; [done|].
  unfold locks_nodup. rewrite Hp. by apply sm_has_duplicates_NoDup.
Qed.

(** ** The abstract lock manager *)

(** Two lock sets conflict when one writes an account the other holds. *)
Definition conflicts (h h' : TransactionAccountLocks) : bool :=
  existsb (fun k => bool_decide (k ∈ tal_writable h') || bool_decide (k ∈ tal_readonly h')) (tal_writable h)
  || existsb (fun k => bool_decide (k ∈ tal_writable h')) (tal_readonly h).

(** Requests are served in order: one is granted when it conflicts with no held lock set. *)
Fixpoint arbitrate (requests : list (TxOutcome TransactionAccountLocks)) (held : list TransactionAccountLocks)
  : list TransactionResult :=
  match requests with
  | [] => []
  | Ok h :: requests =>
      if existsb (conflicts h) held then Err AccountInUse :: arbitrate requests held
      else Ok tt :: arbitrate requests (h :: held)
  | Err e :: requests => Err e :: arbitrate requests held
  | Panic :: requests => Panic :: arbitrate requests held
  end.

(** How many of the lock sets write and read an account. *)
Definition writes (k : Pubkey) (held : list TransactionAccountLocks) : nat :=
  length (filter (fun h => k ∈ tal_writable h) held).
Definition reads (k : Pubkey) (held : list TransactionAccountLocks) : nat :=
  length (filter (fun h => k ∈ tal_readonly h) held).

(** At most one lock set writes an account, and then none reads it. *)
Definition exclusive (held : list TransactionAccountLocks) : Prop :=
  forall k, writes k held = 0%nat \/ writes k held = 1%nat /\ reads k held = 0%nat.

(** The table holds exactly these lock sets. *)
Record represents (l : AccountLocks) (held : list TransactionAccountLocks) : Prop := {
  rep_writes : forall k, k ∈ write_locks l <-> writes k held <> 0%nat;
  rep_reads : forall k, readonly_locks l !! k = if decide (reads k held = 0%nat) then None else Some (Z.of_nat (reads k held));
  rep_exclusive : exclusive held;
  rep_nodup : Forall locks_nodup held;
}.

#[export] Instance writes_proper k : Proper ((≡ₚ) ==> eq) (writes k).
Proof. intros h h' Hp. unfold writes. by rewrite Hp. Qed.
#[export] Instance reads_proper k : Proper ((≡ₚ) ==> eq) (reads k).
Proof. intros h h' Hp. unfold reads. by rewrite Hp. Qed.
#[export] Instance represents_proper l : Proper ((≡ₚ) ==> iff) (represents l).
Proof.
  assert (forall h h', h ≡ₚ h' -> represents l h -> represents l h') as H.
  { intros h h' Hp [Hw Hr He Hn]. constructor.
    - intros k. by rewrite Hw, Hp.
    - intros k. rewrite Hr. by replace (reads k h) with (reads k h') by by rewrite Hp.
    - intros k. rewrite <-Hp. apply He.
    - by rewrite <-Hp. }
  intros h h' Hp. split; [by apply H|]. by apply H.
Qed.

Lemma writes_cons k h held :
  writes k (h :: held) = ((if decide (k ∈ tal_writable h) then 1 else 0) + writes k held)%nat.
Proof. unfold writes. rewrite filter_cons. by case_decide. Qed.
Lemma reads_cons k h held :
  reads k (h :: held) = ((if decide (k ∈ tal_readonly h) then 1 else 0) + reads k held)%nat.
Proof. unfold reads. rewrite filter_cons. by case_decide. Qed.
Lemma reads_le k held : (reads k held <= length held)%nat.
Proof. apply length_filter. Qed.

Lemma writes_nonzero k held : writes k held <> 0%nat <-> exists h, h ∈ held /\ k ∈ tal_writable h.
Proof.
  induction held as [|h held IH]; [split; [done|set_solver]|]. rewrite writes_cons.
  case_decide; [split; [set_solver|lia]|]. cbn. rewrite IH. set_solver.
Qed.
Lemma reads_nonzero k held : reads k held <> 0%nat <-> exists h, h ∈ held /\ k ∈ tal_readonly h.
Proof.
  induction held as [|h held IH]; [split; [done|set_solver]|]. rewrite reads_cons.
  case_decide; [split; [set_solver|lia]|]. cbn. rewrite IH. set_solver.
Qed.

Lemma conflicts_spec h held :
  existsb (conflicts h) held = true <->
  exists k, k ∈ tal_writable h /\ (writes k held <> 0%nat \/ reads k held <> 0%nat) \/
            k ∈ tal_readonly h /\ writes k held <> 0%nat.
Proof.
  rewrite existsb_exists. setoid_rewrite writes_nonzero. setoid_rewrite reads_nonzero.
  unfold conflicts. setoid_rewrite orb_true_iff. setoid_rewrite existsb_exists. setoid_rewrite orb_true_iff.
  setoid_rewrite bool_decide_eq_true. setoid_rewrite <-list_elem_of_In. split.
  - intros (h' & Hh & [(k & Hk & ?)|(k & Hk & ?)]); exists k; naive_solver.
  - intros (k & [(Hk & [(h' & ?)|(h' & ?)])|(Hk & h' & ?)]); exists h'; naive_solver.
Qed.

(** ** Locking one transaction *)

(** The read count of an account, 0 without an entry. *)
Definition count (l : AccountLocks) (k : Pubkey) : Z := default 0 (readonly_locks l !! k).

Lemma insert_readonly_lock_spec {E} key l :
  in_u64 (count l key + 1) ->
  (let '(locked, l) := lock_readonly key l in if (locked : bool) then Ok l else insert_new_readonly key l)
  = @Ok E _ (mkAccountLocks (write_locks l) (<[key := count l key + 1]> (readonly_locks l))).
Proof.
  unfold lock_readonly, insert_new_readonly, count. intros Hb.
  destruct (readonly_locks l !! key) as [c|] eqn:Hc; cbn in *; [|by rewrite Hc].
  unfold add64. by rewrite as_u64_small.
Qed.

Lemma insert_readonly_locks_spec {E} keys l :
  NoDup keys -> Forall (fun k => in_u64 (count l k + 1)) keys ->
  exists l', insert_readonly_locks (E := E) keys l = Ok l' /\ write_locks l' = write_locks l /\
    forall k, readonly_locks l' !! k = if decide (k ∈ keys) then Some (count l k + 1) else readonly_locks l !! k.
Proof.
  revert l. induction keys as [|key keys IH]; intros l Hn Hb; cbn [insert_readonly_locks].
  - exists l. split_and!; [done..|]. intros k. case_decide; [set_solver|done].
  - apply NoDup_cons in Hn as [Hk Hn]. apply Forall_cons in Hb as [Hb Hbs].
    rewrite insert_readonly_lock_spec by done. cbn.
    assert (forall k, k <> key -> count (mkAccountLocks (write_locks l) (<[key := count l key + 1]> (readonly_locks l))) k
                     = count l k) as Hc.
    { intros k Hne. unfold count. cbn. by rewrite lookup_insert_ne. }
    edestruct IH as (l' & Hl & Hw & Hr); [done| |exists l'; split_and!; [exact Hl|exact Hw|]].
    + rewrite Forall_forall in *. intros k Hin. rewrite Hc; [by apply Hbs|]. by intros ->.
    + intros k. rewrite Hr. destruct (decide (k = key)) as [->|Hne]; cbn.
      * rewrite decide_False by done. rewrite lookup_insert_eq, decide_True by set_solver. done.
      * rewrite Hc, lookup_insert_ne by done. repeat case_decide; set_solver.
Qed.

Lemma foldl_insert_locks (keys : list Pubkey) (s : gset Pubkey) k :
  k ∈ foldl (fun s k => {[k]} ∪ s) s keys <-> k ∈ keys \/ k ∈ s.
Proof. revert s. induction keys as [|key keys IH]; intros s; cbn; [set_solver|]. rewrite IH. set_solver. Qed.

Section with_table.
Context (l : AccountLocks) (held : list TransactionAccountLocks) (Hrep : represents l held).

Lemma rep_count k : count l k = Z.of_nat (reads k held).
Proof. unfold count. rewrite (rep_reads _ _ Hrep). case_decide; cbn; lia. Qed.

Lemma rep_locked_write k : is_locked_write l k = true <-> writes k held <> 0%nat.
Proof. unfold is_locked_write. rewrite bool_decide_eq_true. apply (rep_writes _ _ Hrep). Qed.

Lemma rep_locked_readonly k : is_locked_readonly l k = true <-> reads k held <> 0%nat.
Proof.
  unfold is_locked_readonly. rewrite (rep_reads _ _ Hrep). case_decide; [by split|]. rewrite Z.ltb_lt. lia.
Qed.

(** A request that conflicts with a held lock set is refused and leaves the table. *)
Lemma lock_account_refused h :
  existsb (conflicts h) held = true -> lock_account (tal_writable h) (tal_readonly h) l = Err AccountInUse.
Proof.
  intros (k & Hk)%conflicts_spec. unfold lock_account.
  destruct (existsb _ (tal_writable h)) eqn:Hw; [done|]. destruct (existsb _ (tal_readonly h)) eqn:Hr; [done|].
  exfalso. rewrite <-rep_locked_write, <-rep_locked_readonly, <-orb_true_iff in Hk.
  apply not_true_iff_false in Hw, Hr. rewrite existsb_exists in Hw, Hr. setoid_rewrite <-list_elem_of_In in Hw.
  setoid_rewrite <-list_elem_of_In in Hr. naive_solver.
Qed.

(** Any other request is granted, and the table then holds it too. *)
Lemma lock_account_granted h :
  existsb (conflicts h) held = false -> locks_nodup h -> Z.of_nat (length held) < U64_MAX ->
  exists l', lock_account (tal_writable h) (tal_readonly h) l = Ok l' /\ represents l' (h :: held).
Proof.
  intros Hc Hn Hb. assert (~ existsb (conflicts h) held = true) as Hno by congruence. rewrite conflicts_spec in Hno.
  assert (existsb (fun k => is_locked_write l k || is_locked_readonly l k) (tal_writable h) = false) as Hw.
  { apply not_true_iff_false. rewrite existsb_exists. setoid_rewrite <-list_elem_of_In. setoid_rewrite orb_true_iff.
    setoid_rewrite rep_locked_write. setoid_rewrite rep_locked_readonly. naive_solver. }
  assert (existsb (is_locked_write l) (tal_readonly h) = false) as Hr.
  { apply not_true_iff_false. rewrite existsb_exists. setoid_rewrite <-list_elem_of_In.
    setoid_rewrite rep_locked_write. naive_solver. }
  unfold lock_account. rewrite Hw, Hr. unfold locks_nodup in Hn. pose proof Hn as (_ & Hdisj & Hnr)%NoDup_app.
  edestruct (insert_readonly_locks_spec (E := TransactionError) (tal_readonly h)) as (l' & -> & Hw' & Hr'); [done| |].
  { apply Forall_forall. intros k _. unfold count. cbn. fold (count l k). rewrite rep_count.
    pose proof (reads_le k held). unfold in_u64. lia. }
  exists l'. split; [done|]. cbn in Hw', Hr'. constructor.
  - intros k. rewrite Hw', foldl_insert_locks, writes_cons, (rep_writes _ _ Hrep).
    case_decide; [split; [lia|by left]|]. cbn. naive_solver.
  - intros k. rewrite Hr', reads_cons. unfold count. cbn. fold (count l k). rewrite rep_count, (rep_reads _ _ Hrep).
    repeat case_decide; cbn in *; try lia; try done. f_equal. lia.
  - intros k. rewrite writes_cons, reads_cons. pose proof (rep_exclusive _ _ Hrep k).
    destruct (decide (k ∈ tal_writable h)) as [Hkw|Hkw], (decide (k ∈ tal_readonly h)) as [Hkr|Hkr]; cbn.
    + by destruct (Hdisj k).
    + right. destruct (decide (writes k held = 0%nat)), (decide (reads k held = 0%nat)); try lia; exfalso; naive_solver.
    + left. destruct (decide (writes k held = 0%nat)); try lia; exfalso; naive_solver.
    + done.
  - constructor; [done|]. apply (rep_nodup _ _ Hrep).
Qed.
End with_table.

(** ** Unlocking one transaction *)

Lemma foldl_unlock_write keys l :
  let l' := foldl (fun l k => unlock_write k l) l keys in
  readonly_locks l' = readonly_locks l /\ forall k, k ∈ write_locks l' <-> k ∈ write_locks l /\ k ∉ keys.
Proof.
  revert l. induction keys as [|key keys IH]; intros l; cbn; [set_solver|].
  destruct (IH (unlock_write key l)) as [-> Hw]. split; [done|]. intros k. rewrite Hw. cbn. set_solver.
Qed.

Lemma foldl_unlock_readonly keys l :
  NoDup keys -> Forall (fun k => in_u64 (count l k) /\ 0 < count l k) keys ->
  let l' := foldl (fun l k => unlock_readonly k l) l keys in
  write_locks l' = write_locks l /\
  forall k, readonly_locks l' !! k =
    if decide (k ∈ keys) then (if count l k =? 1 then None else Some (count l k - 1)) else readonly_locks l !! k.
Proof.
  revert l. induction keys as [|key keys IH]; intros l Hn Hb; cbn [foldl].
  - split; [done|]. intros k. case_decide; [set_solver|done].
  - apply NoDup_cons in Hn as [Hk Hn]. apply Forall_cons in Hb as [[Hb1 Hb2] Hbs].
    assert (write_locks (unlock_readonly key l) = write_locks l /\
            forall k, readonly_locks (unlock_readonly key l) !! k =
              if decide (k = key) then (if count l key =? 1 then None else Some (count l key - 1))
              else readonly_locks l !! k) as [Hw Hr].
    { unfold unlock_readonly, count in *. destruct (readonly_locks l !! key) as [c|] eqn:Hc; cbn in *; [|lia].
      split; [done|]. intros k. unfold sub64. rewrite as_u64_small by (unfold in_u64 in *; lia).
      destruct (Z.eqb_spec c 1), (Z.eqb_spec (c - 1) 0); try lia; case_decide; subst;
        by rewrite ?lookup_delete_eq, ?lookup_insert_eq, ?lookup_delete_ne, ?lookup_insert_ne. }
    assert (forall k, k <> key -> count (unlock_readonly key l) k = count l k) as Hc.
    { intros k Hne. unfold count. by rewrite Hr, decide_False. }
    destruct (IH (unlock_readonly key l)) as [-> Hr']; [done| |split; [done|]].
    + rewrite Forall_forall in *. intros k Hin. rewrite Hc; [by apply Hbs|]. by intros ->.
    + intros k. rewrite Hr'. destruct (decide (k = key)) as [->|Hne].
      * by rewrite decide_False, Hr, !decide_True by set_solver.
      * rewrite Hc, Hr, (decide_False (P := k = key)) by done. repeat case_decide; set_solver.
Qed.

(** Unlocking a held lock set leaves the others. *)
Lemma unlock_account_spec l h held :
  represents l (h :: held) -> Z.of_nat (length (h :: held)) <= U64_MAX ->
  represents (unlock_account (tal_writable h) (tal_readonly h) l) held.
Proof.
  intros Hrep Hb. pose proof (rep_nodup _ _ Hrep) as [Hn Hns]%Forall_cons.
  unfold locks_nodup in Hn. pose proof Hn as (_ & Hdisj & Hnr)%NoDup_app. unfold unlock_account.
  destruct (foldl_unlock_write (tal_writable h) l) as [Hro Hwr]. set (l1 := foldl _ l _) in *.
  assert (forall k, count l1 k = Z.of_nat (reads k (h :: held))) as Hc.
  { intros k. rewrite <-(rep_count _ _ Hrep). unfold count. by rewrite Hro. }
  destruct (foldl_unlock_readonly (tal_readonly h) l1) as [Hw Hr]; [done| |].
  { apply Forall_forall. intros k Hk. rewrite Hc. pose proof (reads_le k (h :: held)).
    assert (0 < reads k (h :: held))%nat by (rewrite reads_cons, decide_True by done; lia). unfold in_u64. lia. }
  constructor.
  - intros k. rewrite Hw, Hwr, (rep_writes _ _ Hrep), writes_cons. pose proof (rep_exclusive _ _ Hrep k) as He.
    rewrite writes_cons in He. case_decide; cbn in *; [split; [set_solver|lia]|naive_solver].
  - intros k. rewrite Hr, Hc, Hro, (rep_reads _ _ Hrep), reads_cons. case_decide; cbn; [|done].
    destruct (Z.eqb_spec (Z.of_nat (S (reads k held))) 1); case_decide; try lia; [done|]. f_equal. lia.
  - intros k. pose proof (rep_exclusive _ _ Hrep k) as He. rewrite writes_cons, reads_cons in He.
    repeat case_decide; cbn in *; lia.
  - done.
Qed.
