(* ===== verification/AccountLocksSafety.v ===== *)
(** * Batches of transactions never share what one of them writes

    The batches of a bank are prepared, unlocked and dropped in any order. The
    lock table stays exactly the lock sets of the live batches, so a request is
    granted exactly when it conflicts with none of them. *)
From Stdlib Require Import String.
From stdpp Require Import base numbers option list gmap relations.
From S2P Require Import Prelude Instruction Account Message MessageSpec ComputeBudget BankForks.
From S2P Require Import AccountLocks AccountLocksSpec.
Import TransactionError.

(** A result that does not make the batch unlock what it did not lock. *)
Definition settled_result (r : TransactionResult) : Prop := r = Ok tt \/ holds_no_locks r = true.

(** The lock sets of a list of transactions with their results. *)
Definition held_by (txs : list (SanitizedTransaction * TransactionResult)) : list TransactionAccountLocks :=
  omap (fun '(tx, r) => if holds_no_locks r then None else Some (locks_of tx)) txs.

Definition held (b : TransactionBatch) : list TransactionAccountLocks :=
  if needs_unlock b then held_by (zip (sanitized_txs b) (lock_results b)) else [].

Definition held_all (batches : list TransactionBatch) : list TransactionAccountLocks := mjoin (held <$> batches).

Lemma held_by_cons tx r txs :
  held_by ((tx, r) :: txs) = if holds_no_locks r then held_by txs else locks_of tx :: held_by txs.
Proof. unfold held_by. cbn -[holds_no_locks]. by destruct (holds_no_locks r). Qed.

#[global] Arguments held_by : simpl never.

(** The request made for a transaction whose selection had a result. *)
Definition lock_request (fs : FeatureSet) (tx : SanitizedTransaction) (r : TransactionResult)
  : TxOutcome TransactionAccountLocks :=
  match r with Ok _ => get_account_locks tx fs | Err err => Err err | Panic => Panic end.

(** What the code computes for the next batch. *)
Definition requests (fs : FeatureSet) (txs : list SanitizedTransaction) (results : list TransactionResult) :=
  zip_with (lock_request fs) txs results.

(** Steps of the batches of a bank. *)
Inductive batch_step : AccountLocks * list TransactionBatch -> AccountLocks * list TransactionBatch -> Prop :=
| step_prepare fs txs l batches b l' :
    Z.of_nat (length (held_all batches) + length txs) <= U64_MAX ->
    prepare_sanitized_batch fs txs l = Ok (b, l') ->
    batch_step (l, batches) (l', b :: batches)
| step_prepare_with_results fs txs results l batches b l' :
    Z.of_nat (length (held_all batches) + length txs) <= U64_MAX ->
    length results = length txs -> Forall settled_result results ->
    prepare_sanitized_batch_with_results fs txs results l = Ok (b, l') ->
    batch_step (l, batches) (l', b :: batches)
| step_simulate fs tx l batches b :
    prepare_simulation_batch fs tx = Ok b ->
    batch_step (l, batches) (l, b :: batches)
| step_unlock l batches1 b batches2 b' l' :
    bank_unlock_accounts (E := fuel_error) b l = Ok (b', l') ->
    batch_step (l, batches1 ++ b :: batches2) (l', batches1 ++ b' :: batches2)
| step_drop l batches1 b batches2 l' :
    drop_batch (E := fuel_error) b l = Ok l' ->
    batch_step (l, batches1 ++ b :: batches2) (l', batches1 ++ batches2).

Definition batches_reachable : AccountLocks * list TransactionBatch -> Prop :=
  rtc batch_step (AccountLocks_default, []).

(** ** Locking a batch *)

Lemma lock_request_cases fs tx r :
  settled_result r ->
  lock_request fs tx r = Ok (locks_of tx) /\ locks_nodup (locks_of tx) \/
  exists e, lock_request fs tx r = Err e /\ holds_no_locks (Err e) = true.
Proof.
  intros [->|Hr]; cbn.
  - destruct (get_account_locks_cases tx fs) as [[-> Hn]|[->| ->]]; [by left|by right; eexists..].
  - destruct r; try done. right. by eexists.
Qed.

Lemma lock_accounts_inner_spec fs txs results l hs :
  represents l hs -> Forall settled_result results -> length results = length txs ->
  Z.of_nat (length hs + length txs) <= U64_MAX ->
  exists l', lock_accounts_inner (requests fs txs results) l = Ok (arbitrate (requests fs txs results) hs, l') /\
    represents l' (held_by (zip txs (arbitrate (requests fs txs results) hs)) ++ hs).
Proof.
  intros Hrep Hs. revert txs l hs Hrep. induction Hs as [|r results Hr _ IH]; intros [|tx txs] l hs Hrep Hlen Hb;
    try done; cbn in Hlen; [by exists l|]. cbn [requests zip_with] in *. fold (requests fs txs results) in *.
  assert (forall l hs, represents l hs -> Z.of_nat (length hs + length txs) <= U64_MAX ->
    exists l', lock_accounts_inner (requests fs txs results) l = Ok (arbitrate (requests fs txs results) hs, l') /\
    represents l' (held_by (zip txs (arbitrate (requests fs txs results) hs)) ++ hs)) as IH'
    by (intros; apply IH; [done|lia|done]). clear IH.
  cbn [length] in Hb. destruct (lock_request_cases fs tx r Hr) as [[-> Hn]|(e & -> & He)]; cbn [lock_accounts_inner arbitrate].
  - destruct (existsb (conflicts (locks_of tx)) hs) eqn:Hc.
    + rewrite (lock_account_refused l hs Hrep _ Hc). cbn.
      destruct (IH' l hs Hrep) as (l' & -> & Hrep'); [lia|]. exists l'. by split.
    + destruct (lock_account_granted l hs Hrep _ Hc Hn) as (l1 & -> & Hrep1); [lia|]. cbn.
      destruct (IH' l1 _ Hrep1) as (l' & -> & Hrep'); [cbn; lia|]. exists l'. split; [done|].
      cbn [zip zip_with]. rewrite held_by_cons. cbn. by rewrite Permutation_middle.
  - cbn. destruct (IH' l hs Hrep) as (l' & -> & Hrep'); [lia|]. exists l'. split; [done|].
    cbn [zip zip_with]. by rewrite held_by_cons, He.
Qed.

Lemma arbitrate_length reqs hs : length (arbitrate reqs hs) = length reqs.
Proof. revert hs. induction reqs as [|[h|e|] reqs IH]; intros hs; cbn; [done| |by rewrite IH..].
  case_match; cbn; by rewrite IH. Qed.

Lemma arbitrate_settled fs txs results hs :
  Forall settled_result results -> Forall settled_result (arbitrate (requests fs txs results) hs).
Proof.
  intros Hs. revert txs hs. induction Hs as [|r results Hr _ IH]; intros [|tx txs] hs; cbn; [constructor..|].
  fold (requests fs txs results). unfold settled_result in *.
  destruct (lock_request_cases fs tx r Hr) as [[-> _]|(e & -> & He)]; cbn -[holds_no_locks]; [case_match|];
    constructor; eauto.
Qed.

(** ** Unlocking a batch *)

Lemma unlock_keys_held {E} txs : unlock_keys (E := E) txs = Ok (held_by txs).
Proof.
  induction txs as [|[tx r] txs IH]; [done|]. rewrite held_by_cons. cbn -[holds_no_locks].
  destruct (holds_no_locks r); [done|].
  destruct (locks_of_total tx) as [-> _]. cbn. by rewrite IH.
Qed.

Lemma unlock_accounts_spec txs results l hs :
  represents l (held_by (zip txs results) ++ hs) ->
  Z.of_nat (length (held_by (zip txs results) ++ hs)) <= U64_MAX ->
  exists l', (forall E, unlock_accounts (E := E) txs results l = Ok l') /\ represents l' hs.
Proof.
  intros Hrep Hb. eexists. split; [intros E; unfold unlock_accounts; by rewrite unlock_keys_held|].
  revert l Hrep Hb. generalize (held_by (zip txs results)) as keys.
  intros keys. induction keys as [|h keys IH]; intros l Hrep Hb; [done|].
  cbn. cbn in Hb. apply IH; [|lia]. by apply unlock_account_spec.
Qed.

(** ** The invariant *)

Definition batches_wf (s : AccountLocks * list TransactionBatch) : Prop :=
  represents s.1 (held_all s.2) /\ Z.of_nat (length (held_all s.2)) <= U64_MAX.

Lemma held_by_length txs : (length (held_by txs) <= length txs)%nat.
Proof. induction txs as [|[tx r] txs IH]; [done|]. rewrite held_by_cons. cbn. case_match; cbn; lia. Qed.

Lemma held_all_cons b batches : held_all (b :: batches) = held b ++ held_all batches.
Proof. done. Qed.

Lemma held_all_middle batches1 b batches2 :
  held_all (batches1 ++ b :: batches2) ≡ₚ held b ++ held_all (batches1 ++ batches2).
Proof. unfold held_all. rewrite !fmap_app, !join_app. cbn. by rewrite !(assoc (++)), (comm (++) (mjoin _) (held b)). Qed.

Lemma locks_represent_default : represents AccountLocks_default [].
Proof. constructor; [set_solver|intros k; cbn; by rewrite lookup_empty|intros k; by left|constructor]. Qed.

Lemma requests_all_selected fs txs :
  (fun tx => get_account_locks tx fs) <$> txs = requests fs txs (replicate (length txs) (Ok tt)).
Proof. unfold requests. induction txs as [|tx txs IH]; [done|]. cbn. by f_equal. Qed.

(** Preparing a batch answers what the abstract lock manager answers. *)
Lemma prepare_spec fs txs results l batches :
  batches_wf (l, batches) -> Forall settled_result results -> length results = length txs ->
  Z.of_nat (length (held_all batches) + length txs) <= U64_MAX ->
  exists l', prepare_sanitized_batch_with_results fs txs results l =
      Ok (mkTransactionBatch (arbitrate (requests fs txs results) (held_all batches)) txs true, l') /\
    batches_wf (l', mkTransactionBatch (arbitrate (requests fs txs results) (held_all batches)) txs true :: batches).
Proof.
  intros [Hrep _] Hs Hlen Hb. unfold prepare_sanitized_batch_with_results, lock_accounts_with_results.
  destruct (lock_accounts_inner_spec fs txs results l _ Hrep Hs Hlen Hb) as (l' & Hl & Hrep').
  exists l'. unfold requests, lock_request in Hl. rewrite Hl. cbn. fold (lock_request fs).
  assert (length (arbitrate (requests fs txs results) (held_all batches)) = length txs) as Hal.
  { rewrite arbitrate_length. unfold requests. rewrite length_zip_with. lia. }
  unfold TransactionBatch_new. rewrite bool_decide_true by exact Hal. split; [done|]. split; [exact Hrep'|].
  cbn [snd]. rewrite held_all_cons, length_app. cbn [held needs_unlock sanitized_txs lock_results].
  pose proof (held_by_length (zip txs (arbitrate (requests fs txs results) (held_all batches)))) as Hz.
  rewrite length_zip_with in Hz. lia.
Qed.

Lemma prepare_sanitized_batch_eq fs txs l :
  prepare_sanitized_batch fs txs l = prepare_sanitized_batch_with_results fs txs (replicate (length txs) (Ok tt)) l.
Proof.
  unfold prepare_sanitized_batch, prepare_sanitized_batch_with_results, lock_accounts, lock_accounts_with_results.
  by rewrite requests_all_selected.
Qed.

(** Unlocking a live batch releases exactly its lock sets. *)
Lemma unlock_spec l batches1 b batches2 :
  batches_wf (l, batches1 ++ b :: batches2) ->
  exists b' l', (forall E, bank_unlock_accounts (E := E) b l = Ok (b', l')) /\ held b' = [] /\
    batches_wf (l', batches1 ++ batches2).
Proof.
  intros [Hrep Hb]. cbn [fst snd] in *. rewrite held_all_middle in Hrep, Hb. unfold held, bank_unlock_accounts in *.
  rewrite length_app in Hb.
  destruct (needs_unlock b) eqn:Hu; [|exists b, l; rewrite Hu; split_and!; [done..|split; [done|cbn [fst snd]; lia]]].
  eexists (mkTransactionBatch _ _ false).
  destruct (unlock_accounts_spec _ _ _ _ Hrep) as (l' & Hl & Hrep'); [rewrite length_app; lia|].
  exists l'. split_and!; [|done|split; [done|cbn [fst snd]; lia]]. intros E. rewrite Hl. done.
Qed.

Lemma held_all_unlocked l batches1 b batches2 :
  held b = [] -> batches_wf (l, batches1 ++ batches2) -> batches_wf (l, batches1 ++ b :: batches2).
Proof. intros Hh [? ?]. unfold batches_wf. cbn [fst snd]. rewrite held_all_middle, Hh. done. Qed.

Lemma batch_step_wf s s' : batch_step s s' -> batches_wf s -> batches_wf s'.
Proof.
  intros Hs Hwf. destruct Hs as [fs txs l batches b l' Hb Hp|fs txs rs l batches b l' Hb Hlen Hrs Hp
    |fs tx l batches b Hp|l b1 b b2 b' l' Hu|l b1 b b2 l' Hu].
  - rewrite prepare_sanitized_batch_eq in Hp.
    destruct (prepare_spec fs txs (replicate (length txs) (Ok tt)) l batches Hwf) as (l1 & Hl1 & Hwf1);
      [apply Forall_replicate; by left|apply length_replicate|done|]. congruence.
  - destruct (prepare_spec fs txs rs l batches Hwf) as (l1 & Hl1 & Hwf1); [done..|]. congruence.
  - apply (held_all_unlocked l []); [|done]. unfold prepare_simulation_batch, TransactionBatch_new in Hp.
    rewrite bool_decide_true in Hp by done. cbn in Hp. by injection Hp as <-.
  - destruct (unlock_spec _ _ _ _ Hwf) as (b0 & l0 & Hl & Hh & Hwf'). rewrite Hl in Hu. injection Hu as <- <-.
    by apply held_all_unlocked.
  - destruct (unlock_spec _ _ _ _ Hwf) as (b0 & l0 & Hl & Hh & Hwf'). unfold drop_batch in Hu. rewrite Hl in Hu.
    cbn in Hu. by injection Hu as <-.
Qed.

Lemma batches_reachable_wf s : batches_reachable s -> batches_wf s.
Proof.
  apply (rtc_ind_r batches_wf).
  - split; [apply locks_represent_default|done].
  - intros s1 s2 _ Hs Hwf. by eapply batch_step_wf.
Qed.

Lemma represents_nil l : represents l [] -> l = AccountLocks_default.
Proof.
  intros [Hw Hr _ _]. destruct l as [w r]. unfold AccountLocks_default. f_equal; cbn in *.
  - apply set_eq. intros k. rewrite Hw. set_solver.
  - apply map_eq. intros k. by rewrite Hr, lookup_empty.
Qed.

Lemma exclusive_pair h h' rest : exclusive (h :: h' :: rest) -> conflicts h h' = false.
Proof.
  intros He. apply not_true_iff_false. intros Hc.
  assert (existsb (conflicts h) [h'] = true) as (k & Hk)%conflicts_spec by (cbn; by rewrite Hc).
  specialize (He k). rewrite !writes_cons, !reads_cons in He. rewrite !writes_cons, !reads_cons in Hk.
  unfold writes, reads in Hk. cbn in Hk. repeat case_decide; cbn in *; naive_solver lia.
Qed.

(** Lock sets at different places of an exclusive list do not conflict. *)
Lemma exclusive_lookup hs i j h h' :
  exclusive hs -> hs !! i = Some h -> hs !! j = Some h' -> i <> j -> conflicts h h' = false.
Proof.
  intros He Hi Hj Hne. apply delete_Permutation in Hi as Hp.
  assert (exists j', delete i hs !! j' = Some h') as [j' Hj'].
  { destruct (decide (j < i)%nat); [exists j; by rewrite list_lookup_delete_lt|].
    exists (pred j). rewrite list_lookup_delete_ge by lia. by replace (S (pred j)) with j by lia. }
  apply delete_Permutation in Hj'. rewrite Hj' in Hp. eapply exclusive_pair. intros k. rewrite <-Hp. apply He.
Qed.

(** C8. The account locks refine an abstract lock manager, however the batches
    of a bank are prepared, unlocked and dropped. The table is exactly what the
    live batches hold. No two live transactions conflict, where one writes what
    the other holds. A new batch is never met by a panic and gets exactly the
    answers of the manager, which grants a transaction when it conflicts with
    none that is live. Every live batch can be dropped, and when none is left
    the table is empty again. *)
Theorem account_locks_refine l batches :
  batches_reachable (l, batches) ->
  represents l (held_all batches) /\
  (forall i j h h', held_all batches !! i = Some h -> held_all batches !! j = Some h' -> i <> j -> conflicts h h' = false) /\
  (forall fs txs results,
    Forall settled_result results -> length results = length txs ->
    Z.of_nat (length (held_all batches) + length txs) <= U64_MAX ->
    exists l', prepare_sanitized_batch_with_results fs txs results l =
      Ok (mkTransactionBatch (arbitrate (requests fs txs results) (held_all batches)) txs true, l')) /\
  (forall b, b ∈ batches -> exists l', drop_batch (E := fuel_error) b l = Ok l') /\
  (held_all batches = [] -> l = AccountLocks_default).
Proof.
  intros Hwf%batches_reachable_wf. pose proof Hwf as [Hrep Hb]. split_and!.
  - done.
  - intros. eapply exclusive_lookup; [apply Hrep|done..].
  - intros fs txs results Hs Hlen Hl. destruct (prepare_spec fs txs results l batches Hwf Hs Hlen Hl) as (l' & H & _). eauto.
  - intros b (b1 & b2 & ->)%list_elem_of_split. destruct (unlock_spec _ _ _ _ Hwf) as (b' & l' & Hl & _).
    exists l'. unfold drop_batch. by rewrite Hl.
  - cbn [fst snd] in Hrep. intros Hn. rewrite Hn in Hrep. by apply represents_nil.
Qed.

(** ** Two batches that share an account *)
Module LocksExample.

(** Account 20 is written, 21 only read. *)
Definition payment (payer : Pubkey) (keys : list Pubkey) : SanitizedTransaction :=
  mkSanitizedTransaction (Legacy (mkMessage (mkMessageHeader 1 0 1) (payer :: keys) 0 [])) 0 [].

Definition tx1 : SanitizedTransaction := payment 10 [20; 21].
Definition tx2 : SanitizedTransaction := payment 11 [20; 22].
Definition tx3 : SanitizedTransaction := payment 12 [23; 21].

(** A batch with the first transaction, then one with the others, of which the
    second transaction conflicts with the first. *)
Definition batch1 : TransactionBatch := mkTransactionBatch [Ok tt] [tx1] true.
Definition batch2 : TransactionBatch := mkTransactionBatch [Err AccountInUse; Ok tt] [tx2; tx3] true.
Definition locks1 : AccountLocks := mkAccountLocks {[10; 20]} {[21 := 1]}.
Definition locks2 : AccountLocks := mkAccountLocks {[10; 20; 12; 23]} {[21 := 2]}.

Lemma locks2_reachable : batches_reachable (locks2, [batch2; batch1]).
Proof.
  eapply rtc_l; [apply (step_prepare ∅ [tx1] _ _ batch1 locks1); [done|by vm_compute]|].
  eapply rtc_l; [apply (step_prepare ∅ [tx2; tx3] _ _ batch2 locks2); [done|by vm_compute]|].
  apply rtc_refl.
Defined.

Lemma account_locks_refine_witness :
  represents locks2 (held_all [batch2; batch1]) /\ (held_all [batch2; batch1] = [] -> locks2 = AccountLocks_default).
Proof. destruct (account_locks_refine locks2 [batch2; batch1] locks2_reachable) as (H1 & _ & _ & _ & H2). by split. Defined.
End LocksExample.
