(* ===== verification/CostTracker.v ===== *)
(** * Block cost limits

    The leader's limits on the cost of a block: [runtime/src/cost_tracker.rs],
    the cost of a transaction ([runtime/src/cost_model.rs]), the limits
    ([runtime/src/block_cost_limits.rs]) and their use around the execution of a
    batch ([core/src/qos_service.rs]). *)
From Stdlib Require Import String.
From stdpp Require Import base numbers option list gmap relations.
From S2P Require Import Prelude Instruction Account Message ComputeBudget BankForks.

(** ** Limits *)

Definition MAX_BLOCK_REPLAY_TIME_US : Z := 400000.
Definition MAX_CONCURRENCY : Z := 4.
Definition COMPUTE_UNIT_TO_US_RATIO : Z := 30.
Definition MAX_BLOCK_UNITS : Z := MAX_BLOCK_REPLAY_TIME_US * COMPUTE_UNIT_TO_US_RATIO * MAX_CONCURRENCY.
Definition MAX_WRITABLE_ACCOUNT_UNITS : Z := MAX_BLOCK_REPLAY_TIME_US * COMPUTE_UNIT_TO_US_RATIO.
(** The product with 0.75 is exact. *)
Definition MAX_VOTE_UNITS : Z := MAX_BLOCK_UNITS * 3 / 4.

(** ** The cost of a transaction *)

Record TransactionCost : Type := mkTransactionCost {
  writable_accounts : list Pubkey;
  signature_cost : Z;
  write_lock_cost : Z;
  data_bytes_cost : Z;
  builtins_execution_cost : Z;
  bpf_execution_cost : Z;
  is_simple_vote : bool;
}.

Definition tc_sum (c : TransactionCost) : Z :=
  saturating_add64
    (saturating_add64
       (saturating_add64 (saturating_add64 (signature_cost c) (write_lock_cost c)) (data_bytes_cost c))
       (builtins_execution_cost c))
    (bpf_execution_cost c).

(** ** The tracker *)

Inductive CostTrackerError : Type :=
| WouldExceedBlockMaxLimit
| WouldExceedVoteMaxLimit
| WouldExceedAccountMaxLimit.

Record CostTracker : Type := mkCostTracker {
  account_cost_limit : Z;
  block_cost_limit : Z;
  vote_cost_limit : Z;
  cost_by_writable_accounts : gmap Pubkey Z;
  block_cost : Z;
  vote_cost : Z;
  transaction_count : Z;
}.

Definition CostTracker_default : CostTracker :=
  mkCostTracker MAX_WRITABLE_ACCOUNT_UNITS MAX_BLOCK_UNITS MAX_VOTE_UNITS ∅ 0 0 0.

Definition CostTracker_new {E} (account_cost_limit block_cost_limit vote_cost_limit : Z) : outcome E CostTracker :=
  if (account_cost_limit <=? block_cost_limit) && (vote_cost_limit <=? block_cost_limit)
  then Ok (mkCostTracker account_cost_limit block_cost_limit vote_cost_limit ∅ 0 0 0) else Panic.

Definition would_fit (t : CostTracker) (tx_cost : TransactionCost) : outcome CostTrackerError unit :=
  let cost := tc_sum tx_cost in
  let vote := if is_simple_vote tx_cost then cost else 0 in
  if block_cost_limit t <? saturating_add64 (block_cost t) cost then Err WouldExceedBlockMaxLimit
  else if vote_cost_limit t <? saturating_add64 (vote_cost t) vote then Err WouldExceedVoteMaxLimit
  else if account_cost_limit t <? cost then Err WouldExceedAccountMaxLimit
  else if existsb (fun account_key =>
                     match cost_by_writable_accounts t !! account_key with
                     | Some chained_cost => account_cost_limit t <? saturating_add64 chained_cost cost
                     | None => false
                     end) (writable_accounts tx_cost)
  then Err WouldExceedAccountMaxLimit
  else Ok tt.

(** The loop over the writable accounts: [entry(key).or_insert(0)], then the adjustment. *)
Definition adjust_accounts (adjust : Z -> Z) (keys : list Pubkey) (costs : gmap Pubkey Z) : gmap Pubkey Z :=
  foldl (fun costs k => <[k := adjust (default 0 (costs !! k))]> costs) costs keys.

Definition add_transaction_execution_cost (tx_cost : TransactionCost) (adjustment : Z) (t : CostTracker) : CostTracker :=
  mkCostTracker (account_cost_limit t) (block_cost_limit t) (vote_cost_limit t)
    (adjust_accounts (fun cost => saturating_add64 cost adjustment) (writable_accounts tx_cost) (cost_by_writable_accounts t))
    (saturating_add64 (block_cost t) adjustment)
    (if is_simple_vote tx_cost then saturating_add64 (vote_cost t) adjustment else vote_cost t)
    (transaction_count t).

Definition sub_transaction_execution_cost (tx_cost : TransactionCost) (adjustment : Z) (t : CostTracker) : CostTracker :=
  mkCostTracker (account_cost_limit t) (block_cost_limit t) (vote_cost_limit t)
    (adjust_accounts (fun cost => saturating_sub64 cost adjustment) (writable_accounts tx_cost) (cost_by_writable_accounts t))
    (saturating_sub64 (block_cost t) adjustment)
    (if is_simple_vote tx_cost then saturating_sub64 (vote_cost t) adjustment else vote_cost t)
    (transaction_count t).

Definition set_transaction_count (n : Z) (t : CostTracker) : CostTracker :=
  mkCostTracker (account_cost_limit t) (block_cost_limit t) (vote_cost_limit t) (cost_by_writable_accounts t)
    (block_cost t) (vote_cost t) n.

Definition add_transaction_cost (tx_cost : TransactionCost) (t : CostTracker) : CostTracker :=
  let t := add_transaction_execution_cost tx_cost (tc_sum tx_cost) t in
  set_transaction_count (saturating_add64 (transaction_count t) 1) t.

Definition remove_transaction_cost (tx_cost : TransactionCost) (t : CostTracker) : CostTracker :=
  let t := sub_transaction_execution_cost tx_cost (tc_sum tx_cost) t in
  set_transaction_count (saturating_sub64 (transaction_count t) 1) t.

Definition try_add (tx_cost : TransactionCost) (t : CostTracker) : outcome CostTrackerError (Z * CostTracker) :=
  _ ← would_fit t tx_cost;
  let t := add_transaction_cost tx_cost t in
  Ok (block_cost t, t).

Definition update_execution_cost (estimated_tx_cost : TransactionCost) (actual_execution_units : Z) (t : CostTracker)
  : CostTracker :=
  let estimated_execution_units := bpf_execution_cost estimated_tx_cost in
  match actual_execution_units ?= estimated_execution_units with
  | Eq => t
  | Gt => add_transaction_execution_cost estimated_tx_cost (sub64 actual_execution_units estimated_execution_units) t
  | Lt => sub_transaction_execution_cost estimated_tx_cost (sub64 estimated_execution_units actual_execution_units) t
  end.

(** ** Selection for the block and settlement after execution *)

Definition qos_error (e : CostTrackerError) : TransactionError.TransactionError :=
  match e with
  | WouldExceedBlockMaxLimit => TransactionError.WouldExceedMaxBlockCostLimit
  | WouldExceedVoteMaxLimit => TransactionError.WouldExceedMaxVoteCostLimit
  | WouldExceedAccountMaxLimit => TransactionError.WouldExceedMaxAccountCostLimit
  end.

Fixpoint select_each (batch : list (SanitizedTransaction * TransactionCost)) (num_included : nat) (t : CostTracker)
  : outcome fuel_error (list TransactionResult * nat * CostTracker) :=
  match batch with
  | [] => Ok ([], num_included, t)
  | (_, cost) :: batch =>
      step ← (match try_add cost t with
              | Ok (_, t) => Ok (Ok tt, S num_included, t)
              | Err e => Ok (Err (qos_error e), num_included, t)
              | Panic => Panic
              end);
      let '(result, num_included, t) := step in
      rest ← select_each batch num_included t;
      let '(results, num_included, t) := rest in
      Ok (result :: results, num_included, t)
  end.

Definition select_transactions_per_cost (transactions : list SanitizedTransaction)
    (transactions_costs : list TransactionCost) (t : CostTracker)
  : outcome fuel_error (list TransactionResult * nat * CostTracker) :=
  select_each (zip transactions transactions_costs) 0 t.

Inductive CommitTransactionDetails : Type :=
| Committed (compute_units : Z)
| NotCommitted.

Definition update_transaction_costs (transaction_costs : list TransactionCost)
    (transaction_qos_results : list TransactionResult) (transaction_committed_status : list CommitTransactionDetails)
    (t : CostTracker) : CostTracker :=
  foldl (fun t '((tx_cost, qos_inclusion_result), transaction_committed_details) =>
           if is_ok qos_inclusion_result then
             match transaction_committed_details with
             | Committed compute_units => update_execution_cost tx_cost compute_units t
             | NotCommitted => remove_transaction_cost tx_cost t
             end
           else t)
    t (zip (zip transaction_costs transaction_qos_results) transaction_committed_status).

Definition remove_transaction_costs (transaction_costs : list TransactionCost)
    (transaction_qos_results : list TransactionResult) (t : CostTracker) : CostTracker :=
  foldl (fun t '(tx_cost, qos_inclusion_result) =>
           if is_ok qos_inclusion_result then remove_transaction_cost tx_cost t else t)
    t (zip transaction_costs transaction_qos_results).

Definition update_or_remove_transaction_costs (transaction_costs : list TransactionCost)
    (transaction_qos_results : list TransactionResult)
    (transaction_committed_status : option (list CommitTransactionDetails)) (t : CostTracker) : CostTracker :=
  match transaction_committed_status with
  | Some status => update_transaction_costs transaction_costs transaction_qos_results status t
  | None => remove_transaction_costs transaction_costs transaction_qos_results t
  end.

(** ** Exact accounting *)

(** A transaction in the block and what it is charged. *)
Abbreviation Charge := (TransactionCost * Z)%type.

(** A sum over the charges, weighted by the transaction's share. *)
Definition charge (share : TransactionCost -> Z) (cs : list Charge) : Z :=
  foldr (fun c total => share c.1 * c.2 + total) 0 cs.

Definition block_share (_ : TransactionCost) : Z := 1.
Definition vote_share (c : TransactionCost) : Z := if is_simple_vote c then 1 else 0.
(** A key that a message names twice is charged twice. *)
Definition account_share (k : Pubkey) (c : TransactionCost) : Z :=
  Z.of_nat (length (filter (fun k' => k' = k) (writable_accounts c))).
Definition writer_share (k : Pubkey) (c : TransactionCost) : Z :=
  if bool_decide (k ∈ writable_accounts c) then 1 else 0.
(** Above every other share, to bound them at once. *)
Definition full_share (c : TransactionCost) : Z := 1 + Z.of_nat (length (writable_accounts c)).

Record tracks (t : CostTracker) (cs : list Charge) : Prop := {
  tracks_block : block_cost t = charge block_share cs;
  tracks_vote : vote_cost t = charge vote_share cs;
  tracks_account : forall k, default 0 (cost_by_writable_accounts t !! k) = charge (account_share k) cs;
  tracks_count : transaction_count t = Z.of_nat (length cs);
}.

(** The answer to a transaction on the exact costs of a block. *)
Definition admit_exact (t : CostTracker) (cs : list Charge) (c : TransactionCost) : option CostTrackerError :=
  let cost := tc_sum c in
  if block_cost_limit t <? charge block_share cs + cost then Some WouldExceedBlockMaxLimit
  else if vote_cost_limit t <? charge vote_share cs + vote_share c * cost then Some WouldExceedVoteMaxLimit
  else if (account_cost_limit t <? cost)
          || existsb (fun k => account_cost_limit t <? charge (account_share k) cs + cost) (writable_accounts c)
  then Some WouldExceedAccountMaxLimit
  else None.

(** The charges of a selected batch before and after its execution. *)
Definition selected (costs : list TransactionCost) (results : list TransactionResult) : list Charge :=
  omap (fun '(c, r) => if is_ok (E := TransactionError.TransactionError) (A := unit) r then Some (c, tc_sum c) else None)
    (zip costs results).

Definition settled_charge (c : TransactionCost) (status : CommitTransactionDetails) : option Charge :=
  match status with
  | Committed units => Some (c, tc_sum c - bpf_execution_cost c + units)
  | NotCommitted => None
  end.

Definition settled (costs : list TransactionCost) (results : list TransactionResult)
    (status : option (list CommitTransactionDetails)) : list Charge :=
  match status with
  | Some status =>
      omap (fun '((c, r), s) => if is_ok (E := TransactionError.TransactionError) (A := unit) r then settled_charge c s else None)
        (zip (zip costs results) status)
  | None => []
  end.

(** The transactions of the block cost no more than its limits allow: all of
    them, the votes, and those that write one account. *)
Record within_limits (t : CostTracker) (cs : list Charge) : Prop := {
  within_block : charge block_share cs <= block_cost_limit t;
  within_vote : charge vote_share cs <= vote_cost_limit t;
  within_account : forall k, charge (writer_share k) cs <= account_cost_limit t;
}.

(** No committed transaction cost more than was estimated for it. *)
Definition as_estimated (cs : list Charge) : Prop := Forall (fun c => c.2 <= tc_sum c.1) cs.
