(* ===== verification/CostTrackerSpec.v ===== *)
(** * The tracker holds the exact cost of the block

    However the selection and the settlement of batches interleave, the counters
    of the tracker are the sums over the transactions of the block: the actual
    cost of those that were committed, the estimate of those being executed and
    nothing for those that were not committed. *)
From Stdlib Require Import String.
From stdpp Require Import base numbers option list gmap relations.
From S2P Require Import Prelude Instruction Account Message ComputeBudget BankForks.
From S2P Require Import CostTracker AccountLocks AccountLocksSpec AccountLocksSafety.

(** ** Weighted sums *)

Definition tc_wf (c : TransactionCost) : Prop :=
  0 <= signature_cost c /\ 0 <= write_lock_cost c /\ 0 <= data_bytes_cost c /\ 0 <= builtins_execution_cost c /\
  in_u64 (bpf_execution_cost c).

Lemma tc_sum_bounds c : tc_wf c -> bpf_execution_cost c <= tc_sum c <= U64_MAX.
Proof. unfold tc_wf, tc_sum. u64. Qed.

Lemma charge_cons share c cs : charge share (c :: cs) = share c.1 * c.2 + charge share cs.
Proof. done. Qed.

Lemma charge_app share cs1 cs2 : charge share (cs1 ++ cs2) = charge share cs1 + charge share cs2.
Proof. induction cs1 as [|c cs1 IH]; [done|]. cbn [app]. rewrite !charge_cons, IH. lia. Qed.

#[export] Instance charge_proper share : Proper ((≡ₚ) ==> eq) (charge share).
Proof. intros cs1 cs2 Hp. induction Hp; rewrite ?charge_cons; lia. Qed.

#[export] Instance tracks_proper t : Proper ((≡ₚ) ==> iff) (tracks t).
Proof.
  assert (forall cs cs', cs ≡ₚ cs' -> tracks t cs -> tracks t cs') as H.
  { intros cs cs' Hp [Hb Hv Ha Hc]. constructor; [by rewrite <-Hp..| |by rewrite <-Hp].
    intros k. by rewrite <-Hp. }
  intros cs cs' Hp. by split; apply H.
Qed.

Definition charges_wf (cs : list Charge) : Prop := Forall (fun c => 0 <= c.2) cs.

Lemma account_share_bounds k c : 0 <= account_share k c < full_share c.
Proof. unfold account_share, full_share. pose proof (length_filter (fun k' => k' = k) (writable_accounts c)). lia. Qed.
Lemma vote_share_bounds c : 0 <= vote_share c <= full_share c.
Proof. unfold vote_share, full_share. destruct (is_simple_vote c); lia. Qed.
Lemma block_share_bounds c : 0 <= block_share c <= full_share c.
Proof. unfold block_share, full_share. lia. Qed.

(** A share below another gives a smaller sum. *)
Lemma charge_mono share share' cs :
  (forall c, 0 <= share c <= share' c) -> charges_wf cs -> 0 <= charge share cs <= charge share' cs.
Proof.
  intros Hs Hwf. induction Hwf as [|c cs Hc _ IH]; [done|]. rewrite !charge_cons. specialize (Hs c.1). nia.
Qed.

(** ** Adjusting the cost of one transaction *)

Lemma adjust_accounts_exact adjust delta (keys : list Pubkey) (costs : gmap Pubkey Z) :
  (forall k n, 0 <= n < Z.of_nat (length (filter (fun k' => k' = k) keys)) ->
    adjust (default 0 (costs !! k) + n * delta) = default 0 (costs !! k) + (n + 1) * delta) ->
  forall k, default 0 (adjust_accounts adjust keys costs !! k)
    = default 0 (costs !! k) + Z.of_nat (length (filter (fun k' => k' = k) keys)) * delta.
Proof.
  revert costs. induction keys as [|key keys IH]; intros costs Ha k; [cbn; lia|]. unfold adjust_accounts in *. cbn [foldl].
  assert (forall k, default 0 (<[key := adjust (default 0 (costs !! key))]> costs !! k)
                    = default 0 (costs !! k) + (if decide (key = k) then delta else 0)) as Hone.
  { intros k'. case_decide as Hk; [subst k'|by rewrite lookup_insert_ne, Z.add_0_r by done].
    rewrite lookup_insert_eq. cbn. specialize (Ha key 0). rewrite filter_cons, decide_True in Ha by done.
    cbn [length] in Ha. rewrite Z.mul_0_l, Z.add_0_r in Ha. rewrite Ha; lia. }
  rewrite IH; [rewrite Hone, filter_cons; case_decide; cbn [length]; lia|].
  intros k' n Hn. rewrite Hone. specialize (Ha k'). rewrite filter_cons in Ha. case_decide; cbn [length] in Ha.
  - specialize (Ha (n + 1)). rewrite <-Z.add_assoc. replace (delta + n * delta) with ((n + 1) * delta) by lia.
    rewrite Ha; lia.
  - rewrite Z.add_0_r. apply Ha. lia.
Qed.

Section adjust.
Context (t : CostTracker) (c : TransactionCost) (x : Z) (cs : list Charge).
Hypothesis (Ht : tracks t ((c, x) :: cs)) (Hx : 0 <= x) (Hcs : charges_wf cs).

Lemma tracked_account k : default 0 (cost_by_writable_accounts t !! k) = account_share k c * x + charge (account_share k) cs.
Proof. apply (tracks_account _ _ Ht). Qed.

Lemma account_charge_bounds k : 0 <= charge (account_share k) cs <= charge full_share cs.
Proof. apply charge_mono; [|done]. intros c'. pose proof (account_share_bounds k c'). lia. Qed.
Lemma vote_charge_bounds : 0 <= charge vote_share cs <= charge full_share cs.
Proof. apply charge_mono; [apply vote_share_bounds|done]. Qed.
Lemma block_charge_bounds : 0 <= charge block_share cs <= charge full_share cs.
Proof. apply charge_mono; [apply block_share_bounds|done]. Qed.

(** Raising a charge, when the totals fit. *)
Lemma add_execution_exact d :
  0 <= d -> charge full_share ((c, x + d) :: cs) <= U64_MAX ->
  tracks (add_transaction_execution_cost c d t) ((c, x + d) :: cs).
Proof.
  intros Hd Hb. rewrite charge_cons in Hb. cbn [fst snd] in Hb. pose proof block_charge_bounds. pose proof vote_charge_bounds.
  pose proof (vote_share_bounds c). pose proof Ht as [Htb Htv _ Htc]. rewrite charge_cons in Htb, Htv. cbn [fst snd] in *.
  assert (1 <= full_share c) by (unfold full_share; lia).
  constructor; cbn [block_cost vote_cost cost_by_writable_accounts transaction_count add_transaction_execution_cost].
  - rewrite Htb, charge_cons. unfold block_share in *. cbn [fst snd]. unfold saturating_add64. nia.
  - rewrite Htv, charge_cons. unfold vote_share in *. cbn [fst snd]. unfold saturating_add64.
    destruct (is_simple_vote c); nia.
  - intros k. rewrite (adjust_accounts_exact _ d); [rewrite tracked_account|intros k0 n Hn; rewrite tracked_account].
    + rewrite charge_cons. cbn [fst snd]. unfold account_share. lia.
    + fold (account_share k0 c) in Hn. pose proof (account_share_bounds k0 c). pose proof (account_charge_bounds k0).
      unfold saturating_add64. nia.
  - done.
Qed.

(** Lowering a charge. *)
Lemma sub_execution_exact d :
  0 <= d <= x -> tracks (sub_transaction_execution_cost c d t) ((c, x - d) :: cs).
Proof.
  intros Hd. pose proof block_charge_bounds. pose proof vote_charge_bounds.
  pose proof Ht as [Htb Htv _ Htc]. rewrite charge_cons in Htb, Htv. cbn [fst snd] in *.
  constructor; cbn [block_cost vote_cost cost_by_writable_accounts transaction_count sub_transaction_execution_cost].
  - rewrite Htb, charge_cons. unfold block_share in *. cbn [fst snd]. unfold saturating_sub64. nia.
  - rewrite Htv, charge_cons. unfold vote_share in *. cbn [fst snd]. unfold saturating_sub64.
    destruct (is_simple_vote c); nia.
  - intros k. rewrite (adjust_accounts_exact _ (- d)); [rewrite tracked_account|intros k0 n Hn; rewrite tracked_account].
    + rewrite charge_cons. cbn [fst snd]. unfold account_share. lia.
    + fold (account_share k0 c) in Hn. pose proof (account_charge_bounds k0). unfold saturating_sub64. nia.
  - done.
Qed.
End adjust.

(** ** Admission *)

(** The sums and the count fit their counters. *)
Definition fits (cs : list Charge) : Prop := charge full_share cs <= U64_MAX /\ Z.of_nat (length cs) <= U64_MAX.

Definition same_limits (t t' : CostTracker) : Prop :=
  account_cost_limit t' = account_cost_limit t /\ block_cost_limit t' = block_cost_limit t /\
  vote_cost_limit t' = vote_cost_limit t.

Definition limits_below (t : CostTracker) : Prop :=
  account_cost_limit t < U64_MAX /\ block_cost_limit t < U64_MAX /\ vote_cost_limit t < U64_MAX.

Lemma tracks_zero t c cs n :
  tracks t cs -> n = Z.of_nat (S (length cs)) -> tracks (set_transaction_count n t) ((c, 0) :: cs).
Proof.
  intros [Hb Hv Ha Hc] ->. constructor; [..|done]; [| |intros k]; rewrite charge_cons; cbn; rewrite ?Hb, ?Hv, ?Ha; lia.
Qed.

Lemma tracks_drop t c cs n :
  tracks t ((c, 0) :: cs) -> n = Z.of_nat (length cs) -> tracks (set_transaction_count n t) cs.
Proof.
  intros [Hb Hv Ha Hc] ->. constructor; [..|done]; [| |intros k; specialize (Ha k)];
    rewrite charge_cons in *; cbn in *; lia.
Qed.

Lemma add_transaction_exact t c cs :
  tracks t cs -> charges_wf cs -> tc_wf c -> fits ((c, tc_sum c) :: cs) ->
  tracks (add_transaction_cost c t) ((c, tc_sum c) :: cs).
Proof.
  intros Ht Hwf Hc [Hf Hn]. pose proof (tc_sum_bounds c Hc) as Hs. pose proof (proj2 (proj2 (proj2 (proj2 Hc)))) as Hbpf.
  assert (tracks (set_transaction_count (saturating_add64 (transaction_count t) 1) t) ((c, 0) :: cs)) as H0.
  { apply tracks_zero; [done|]. rewrite (tracks_count _ _ Ht). cbn [length] in Hn. unfold saturating_add64. lia. }
  apply (add_execution_exact _ c 0 cs H0) with (d := tc_sum c); [lia|done|u64|exact Hf].
Qed.

Lemma remove_transaction_exact t c cs :
  tracks t ((c, tc_sum c) :: cs) -> charges_wf cs -> tc_wf c -> tracks (remove_transaction_cost c t) cs.
Proof.
  intros Ht Hwf Hc. pose proof (tc_sum_bounds c Hc) as Hs. pose proof (proj2 (proj2 (proj2 (proj2 Hc)))) as Hbpf.
  apply (tracks_drop _ c).
  - replace 0 with (tc_sum c - tc_sum c) by lia. apply sub_execution_exact; try done; u64.
  - cbn [sub_transaction_execution_cost transaction_count]. rewrite (tracks_count _ _ Ht). cbn [length].
    unfold saturating_sub64. lia.
Qed.

Lemma update_execution_exact t c cs units :
  tracks t ((c, tc_sum c) :: cs) -> charges_wf cs -> tc_wf c -> in_u64 units ->
  fits ((c, tc_sum c - bpf_execution_cost c + units) :: cs) ->
  tracks (update_execution_cost c units t) ((c, tc_sum c - bpf_execution_cost c + units) :: cs).
Proof.
  intros Ht Hwf Hc Hu [Hf _]. pose proof (tc_sum_bounds c Hc) as Hs. pose proof (proj2 (proj2 (proj2 (proj2 Hc)))) as Hbpf.
  unfold update_execution_cost. destruct (Z.compare_spec units (bpf_execution_cost c)) as [He|Hlt|Hgt].
  - subst. by replace (tc_sum c - bpf_execution_cost c + bpf_execution_cost c) with (tc_sum c) by lia.
  - unfold sub64. rewrite as_u64_small by u64.
    replace (tc_sum c - bpf_execution_cost c + units) with (tc_sum c - (bpf_execution_cost c - units)) by lia.
    apply sub_execution_exact; try done; u64.
  - unfold sub64. rewrite as_u64_small by u64.
    replace (tc_sum c - bpf_execution_cost c + units) with (tc_sum c + (units - bpf_execution_cost c)) in * by lia.
    apply add_execution_exact; try done; u64.
Qed.

(** The checks on the counters decide the exact question. *)
Lemma would_fit_exact t c cs :
  tracks t cs -> limits_below t ->
  would_fit t c = match admit_exact t cs c with None => Ok tt | Some e => Err e end.
Proof.
  intros Ht (La & Lb & Lv). unfold would_fit, admit_exact. rewrite (tracks_block _ _ Ht), (tracks_vote _ _ Ht).
  assert (forall limit x y, limit < U64_MAX -> (limit <? saturating_add64 x y) = (limit <? x + y)) as Hsat.
  { intros limit x y Hl. unfold saturating_add64. zcases; lia. }
  rewrite !Hsat by done. destruct (_ <? _); [done|].
  replace (vote_share c * tc_sum c) with (if is_simple_vote c then tc_sum c else 0)
    by (unfold vote_share; destruct (is_simple_vote c); lia).
  destruct (_ <? _); [done|]. destruct (Z.ltb_spec (account_cost_limit t) (tc_sum c)) as [|Hc]; [done|]. cbn [orb].
  replace (existsb (fun k => account_cost_limit t <? charge (account_share k) cs + tc_sum c) (writable_accounts c))
    with (existsb (fun account_key =>
                     match cost_by_writable_accounts t !! account_key with
                     | Some chained_cost => account_cost_limit t <? saturating_add64 chained_cost (tc_sum c)
                     | None => false
                     end) (writable_accounts c)); [by destruct (existsb _ _)|].
  induction (writable_accounts c) as [|k keys IH]; [done|]. cbn [existsb]. rewrite IH. f_equal.
  rewrite <-(tracks_account _ _ Ht k). destruct (_ !! k); cbn; [by apply Hsat|]. symmetry. apply Z.ltb_ge. lia.
Qed.

Lemma try_add_exact t c cs :
  tracks t cs -> limits_below t ->
  try_add c t = match admit_exact t cs c with
                | None => Ok (block_cost (add_transaction_cost c t), add_transaction_cost c t)
                | Some e => Err e
                end.
Proof. intros Ht Hl. unfold try_add. rewrite (would_fit_exact t c cs) by done. by destruct (admit_exact t cs c). Qed.

Lemma writer_share_bounds k c : 0 <= writer_share k c <= account_share k c.
Proof.
  unfold writer_share, account_share. case_bool_decide as Hk; [|lia].
  enough (length (filter (fun k' => k' = k) (writable_accounts c)) <> 0%nat) by lia.
  intros Hn%nil_length_inv. assert (k ∈ filter (fun k' => k' = k) (writable_accounts c)) as Hf
    by by apply list_elem_of_filter.
  rewrite Hn in Hf. by apply not_elem_of_nil in Hf.
Qed.

Lemma admit_within t c cs :
  admit_exact t cs c = None -> within_limits t cs -> charges_wf cs -> within_limits t ((c, tc_sum c) :: cs).
Proof.
  unfold admit_exact. intros Ha [_ _ Hacc] Hwf.
  destruct (Z.ltb_spec (block_cost_limit t) (charge block_share cs + tc_sum c)); [done|].
  destruct (Z.ltb_spec (vote_cost_limit t) (charge vote_share cs + vote_share c * tc_sum c)); [done|].
  destruct ((account_cost_limit t <? tc_sum c) || _) eqn:Ho; [done|].
  apply orb_false_iff in Ho as [Hl Hk]. constructor; [| |intros k]; rewrite charge_cons; cbn [fst snd].
  - unfold block_share in *. lia.
  - lia.
  - apply Z.ltb_ge in Hl. specialize (Hacc k). unfold writer_share at 1. case_bool_decide as Hin; [|lia].
    pose proof (charge_mono (writer_share k) (account_share k) cs (writer_share_bounds k) Hwf).
    apply not_true_iff_false in Hk. rewrite existsb_exists in Hk.
    destruct (Z.ltb_spec (account_cost_limit t) (charge (account_share k) cs + tc_sum c)) as [Hlt|]; [|lia].
    destruct Hk. exists k. split; [by apply list_elem_of_In|by apply Z.ltb_lt].
Qed.
