(* ===== verification/CostTrackerSafety.v ===== *)
(** * The cost of a block under concurrent batches

    Batches are selected and settled in any order. The tracker stays exact, so
    it admits a transaction exactly when the limits allow it, and its answers
    are ones that the account locks can take. *)
From Stdlib Require Import String.
From stdpp Require Import base numbers option list gmap relations.
From S2P Require Import Prelude Instruction Account Message ComputeBudget BankForks.
From S2P Require Import AccountLocks AccountLocksSpec AccountLocksSafety CostTracker CostTrackerSpec.

(** ** Steps of the batches *)

(** A batch that is being executed, with its costs and the results of its selection. *)
Abbreviation PendingBatch := (list TransactionCost * list TransactionResult)%type.

Definition block_charges (pending : list PendingBatch) (committed : list Charge) : list Charge :=
  mjoin ((fun b => selected b.1 b.2) <$> pending) ++ committed.

Definition units_wf (s : CommitTransactionDetails) : Prop :=
  match s with Committed units => in_u64 units | NotCommitted => True end.

Definition status_wf (costs : list TransactionCost) (status : option (list CommitTransactionDetails)) : Prop :=
  match status with Some status => length status = length costs /\ Forall units_wf status | None => True end.

Inductive qos_step : CostTracker * list PendingBatch * list Charge -> CostTracker * list PendingBatch * list Charge -> Prop :=
| qos_select txs costs results n t t' pending committed :
    length costs = length txs -> Forall tc_wf costs ->
    fits (selected costs results ++ block_charges pending committed) ->
    select_transactions_per_cost txs costs t = Ok (results, n, t') ->
    qos_step (t, pending, committed) (t', (costs, results) :: pending, committed)
| qos_settle costs results status t pending1 pending2 committed :
    status_wf costs status ->
    fits (settled costs results status ++ block_charges (pending1 ++ (costs, results) :: pending2) committed) ->
    qos_step (t, pending1 ++ (costs, results) :: pending2, committed)
      (update_or_remove_transaction_costs costs results status t, pending1 ++ pending2,
       settled costs results status ++ committed).

(** The states of a block whose tracker was made with limits below the largest cost. *)
Definition qos_reachable (s : CostTracker * list PendingBatch * list Charge) : Prop :=
  exists account block vote t0,
    CostTracker_new (E := unit) account block vote = Ok t0 /\
    0 <= account < U64_MAX /\ 0 <= block < U64_MAX /\ 0 <= vote < U64_MAX /\
    rtc qos_step (t0, [], []) s.

(** ** Charges of a batch *)

Lemma selected_cons c costs r results :
  selected (c :: costs) (r :: results) = (if is_ok r then [(c, tc_sum c)] else []) ++ selected costs results.
Proof. unfold selected. cbn. by destruct r. Qed.

Lemma settled_cons c costs r results s status :
  settled (c :: costs) (r :: results) (Some (s :: status))
  = (if is_ok r then option_list (settled_charge c s) else []) ++ settled costs results (Some status).
Proof. unfold settled. cbn. destruct r, s; done. Qed.

#[global] Arguments selected : simpl never.
#[global] Arguments settled : simpl never.

Lemma tc_sum_nonneg c : tc_wf c -> 0 <= tc_sum c.
Proof. intros Hc. pose proof (tc_sum_bounds c Hc). destruct Hc as (_ & _ & _ & _ & ?). u64. Qed.

Lemma selected_wf costs results : Forall tc_wf costs -> charges_wf (selected costs results).
Proof.
  intros H. revert results. induction H as [|c costs Hc _ IH]; intros [|r results]; try by constructor.
  rewrite selected_cons. apply Forall_app. split; [|apply IH]. case_match; [|constructor].
  apply Forall_singleton. by apply tc_sum_nonneg.
Qed.

Lemma settled_wf costs results status :
  Forall tc_wf costs -> status_wf costs status -> charges_wf (settled costs results status).
Proof.
  destruct status as [status|]; [|constructor]. intros H. revert results status.
  induction H as [|c costs Hc _ IH]; intros [|r results] [|s status]; cbn; intros [Hl Hs]; try by constructor.
  rewrite settled_cons. apply Forall_cons in Hs as [Hs Hss].
  apply Forall_app. split; [|apply IH; split; [lia|done]]. destruct (is_ok r), s as [units|]; cbn in *; try constructor; [|done].
  pose proof (tc_sum_bounds c Hc). cbn. u64.
Qed.

(** Committed transactions that cost no more than estimated lower every sum. *)
Lemma settled_le share costs results status :
  (forall c, 0 <= share c) -> Forall tc_wf costs -> status_wf costs status -> as_estimated (settled costs results status) ->
  charge share (settled costs results status) <= charge share (selected costs results).
Proof.
  intros Hsh H. destruct status as [status|]; intros Hst He.
  - revert results status Hst He. induction H as [|c costs Hc _ IH]; intros [|r results] [|s status] [Hl Hs] He;
      try done. rewrite selected_cons, settled_cons, !charge_app in *. apply Forall_app in He as [He1 He2].
    apply Forall_cons in Hs as [Hs Hss]. cbn in Hl.
    specialize (IH results status (conj (f_equal pred Hl) Hss) He2). specialize (Hsh c). pose proof (tc_sum_nonneg c Hc).
    destruct (is_ok r), s as [units|]; cbn in *; [|nia|lia|lia].
    apply Forall_cons in He1 as [He1 _]. cbn in He1. nia.
  - apply (charge_mono share share); [|by apply selected_wf]. intros c. specialize (Hsh c). lia.
Qed.

(** ** Sums that fit *)

#[export] Instance charges_wf_proper : Proper ((≡ₚ) ==> iff) charges_wf.
Proof. intros cs cs' Hp. unfold charges_wf. by rewrite Hp. Qed.
#[export] Instance fits_proper : Proper ((≡ₚ) ==> iff) fits.
Proof. intros cs cs' Hp. unfold fits. by rewrite Hp. Qed.
#[export] Instance within_limits_proper t : Proper ((≡ₚ) ==> iff) (within_limits t).
Proof.
  assert (forall cs cs', cs ≡ₚ cs' -> within_limits t cs -> within_limits t cs') as H.
  { intros cs cs' Hp [Hb Hv Ha]. constructor; [by rewrite <-Hp..|]. intros k. by rewrite <-Hp. }
  intros cs cs' Hp. by split; apply H.
Qed.

Lemma fits_submseteq cs cs' : cs ⊆+ cs' -> charges_wf cs' -> fits cs' -> fits cs.
Proof.
  intros [rest ->]%submseteq_Permutation Hwf [Hf Hn]. apply Forall_app in Hwf as [_ Hwf].
  rewrite charge_app in Hf. rewrite length_app in Hn.
  assert (0 <= charge full_share rest) by (apply (charge_mono full_share full_share); [unfold full_share; lia|done]).
  split; lia.
Qed.

(** ** Selection *)

Lemma same_limits_within t t' cs : same_limits t t' -> within_limits t cs <-> within_limits t' cs.
Proof. intros (Ha & Hb & Hv). split; intros [? ? ?]; constructor; intros; rewrite ?Ha, ?Hb, ?Hv in *; done. Qed.

Lemma select_each_total batch n t :
  exists results n' t', select_each batch n t = Ok (results, n', t') /\ length results = length batch /\
    Forall settled_result results.
Proof.
  revert n t. induction batch as [|[tx c] batch IH]; intros n t; [by eexists _, _, _|]. cbn [select_each].
  destruct (try_add c t) as [[x t1]|e|] eqn:Ha; cbn -[try_add].
  - destruct (IH (S n) t1) as (rs & n' & t' & -> & Hl & Hs). eexists _, _, _. split_and!; [done|cbn; lia|].
    constructor; [by left|done].
  - destruct (IH n t) as (rs & n' & t' & -> & Hl & Hs). eexists _, _, _. split_and!; [done|cbn; lia|].
    constructor; [right; by destruct e|done].
  - exfalso. revert Ha. unfold try_add, would_fit. repeat case_match; done.
Qed.

Lemma select_each_exact batch n t cs results n' t' :
  select_each batch n t = Ok (results, n', t') -> Forall tc_wf batch.*2 ->
  tracks t cs -> charges_wf cs -> limits_below t -> fits (selected batch.*2 results ++ cs) ->
  tracks t' (selected batch.*2 results ++ cs) /\ same_limits t t' /\
  (within_limits t cs -> within_limits t (selected batch.*2 results ++ cs)).
Proof.
  revert n t cs results n' t'. induction batch as [|[tx c] batch IH]; intros n t cs results n' t'; cbn [select_each].
  { intros [= <- <- <-] _. done. }
  intros Hsel [Hc Hcs]%Forall_cons Ht Hwf Hlim. rewrite (try_add_exact t c cs Ht Hlim) in Hsel.
  destruct (admit_exact t cs c) as [e|] eqn:Ha; cbn -[add_transaction_cost] in Hsel;
    (destruct (select_each batch _ _) as [[[rs m] t1]| |] eqn:Hrest; [|done..]); injection Hsel as <- <- <-;
    cbn [fmap list_fmap snd] in *; rewrite selected_cons; cbn [is_ok app]; intros Hf.
  - by apply (IH _ _ _ _ _ _ Hrest).
  - pose proof (selected_wf batch.*2 rs Hcs) as Hwfs. pose proof (tc_sum_nonneg c Hc) as Hnn.
    assert (charges_wf ((c, tc_sum c) :: cs)) as Hwf1 by by constructor.
    assert (charges_wf ((c, tc_sum c) :: selected batch.*2 rs ++ cs)) as Hwf2 by (constructor; [done|by apply Forall_app]).
    destruct (IH _ _ ((c, tc_sum c) :: cs) _ _ _ Hrest) as (Ht1 & Hl1 & Hw1); [done| |done|done| |].
    + apply add_transaction_exact; [done..|]. eapply fits_submseteq; [|exact Hwf2|done]. solve_submseteq.
    + eapply fits_submseteq; [|exact Hwf2|done]. solve_submseteq.
    + rewrite <-Permutation_middle in Ht1. split_and!; [exact Ht1|exact Hl1|]. intros Hw.
      assert (same_limits t (add_transaction_cost c t)) as Hadd by done.
      rewrite Permutation_middle, (same_limits_within _ _ _ Hadd). apply Hw1.
      rewrite <-(same_limits_within _ _ _ Hadd). by apply admit_within.
Qed.

(** ** Settlement *)

Lemma update_execution_limits c units t : same_limits t (update_execution_cost c units t).
Proof. unfold update_execution_cost. by case_match. Qed.

Lemma same_limits_trans t1 t2 t3 : same_limits t1 t2 -> same_limits t2 t3 -> same_limits t1 t3.
Proof. unfold same_limits. intuition congruence. Qed.

Lemma remove_transaction_costs_exact costs results t cs :
  Forall tc_wf costs -> tracks t (selected costs results ++ cs) -> charges_wf cs ->
  tracks (remove_transaction_costs costs results t) cs /\ same_limits t (remove_transaction_costs costs results t).
Proof.
  intros Hcs. revert results t. induction Hcs as [|c costs Hc Hcs IH]; intros [|r results] t; cbn -[remove_transaction_cost];
    try done. rewrite selected_cons. intros Ht Hwf. destruct (is_ok r); cbn [app] in Ht; [|by apply IH].
  destruct (IH results (remove_transaction_cost c t)) as [H1 H2]; [|done|by split].
  apply remove_transaction_exact; [done| |done]. apply Forall_app. split; [by apply selected_wf|done].
Qed.

Lemma update_transaction_costs_exact costs results status t cs :
  Forall tc_wf costs -> status_wf costs (Some status) -> tracks t (selected costs results ++ cs) -> charges_wf cs ->
  length results = length costs ->
  fits (settled costs results (Some status) ++ selected costs results ++ cs) ->
  tracks (update_transaction_costs costs results status t) (settled costs results (Some status) ++ cs) /\
  same_limits t (update_transaction_costs costs results status t).
Proof.
  intros Hcs. revert results status t cs.
  induction Hcs as [|c costs Hc Hcs IH]; intros [|r results] [|s status] t cs [Hl Hs] Ht Hwf Hlen Hf; try done.
  pose proof (settled_wf (c :: costs) (r :: results) (Some (s :: status)) (Forall_cons_2 _ _ _ Hc Hcs) (conj Hl Hs)) as Hw1.
  pose proof (selected_wf (c :: costs) (r :: results) (Forall_cons_2 _ _ _ Hc Hcs)) as Hw2.
  apply Forall_cons in Hs as [Hs Hss]. cbn in Hl, Hlen. rewrite selected_cons, settled_cons in *.
  apply Forall_app in Hw1 as [Hw1 Hw1'], Hw2 as [Hw2 Hw2'].
  assert (status_wf costs (Some status)) as Hst by (split; [lia|done]).
  unfold update_transaction_costs. cbn -[update_execution_cost remove_transaction_cost].
  fold (update_transaction_costs costs results status).
  destruct (is_ok r); cbn [app] in *; [|by apply IH; [..|lia|]]. destruct s as [units|]; cbn [option_list settled_charge app] in *.
  - set (x := tc_sum c - bpf_execution_cost c + units) in *.
    apply Forall_cons in Hw1 as [Hx _]. apply Forall_cons in Hw2 as [Hy _].
    assert (charges_wf ((c, x) :: settled costs results (Some status) ++ (c, tc_sum c) :: selected costs results ++ cs)) as Hwall.
    { constructor; [done|]. apply Forall_app. split; [done|]. constructor; [done|]. by apply Forall_app. }
    destruct (IH results status (update_execution_cost c units t) ((c, x) :: cs)) as [H1 H2]; [done| | |lia| |].
    + rewrite <-Permutation_middle. apply update_execution_exact; [done|by apply Forall_app|done|done|].
      eapply fits_submseteq; [|exact Hwall|exact Hf]. solve_submseteq.
    + by constructor.
    + eapply fits_submseteq; [|exact Hwall|exact Hf]. solve_submseteq.
    + rewrite <-Permutation_middle in H1. split; [done|]. eapply same_limits_trans; [apply update_execution_limits|done].
  - apply Forall_cons in Hw2 as [Hy _].
    destruct (IH results status (remove_transaction_cost c t) cs) as [H1 H2]; [done| |done|lia| |by split].
    + apply remove_transaction_exact; [done|by apply Forall_app|done].
    + eapply fits_submseteq; [| |exact Hf]; [solve_submseteq|].
      apply Forall_app. split; [done|]. constructor; [done|]. by apply Forall_app.
Qed.

Lemma settle_exact costs results status t cs :
  Forall tc_wf costs -> status_wf costs status -> tracks t (selected costs results ++ cs) -> charges_wf cs ->
  length results = length costs -> fits (settled costs results status ++ selected costs results ++ cs) ->
  tracks (update_or_remove_transaction_costs costs results status t) (settled costs results status ++ cs) /\
  same_limits t (update_or_remove_transaction_costs costs results status t).
Proof.
  destruct status; cbn; intros; [by apply update_transaction_costs_exact|by apply remove_transaction_costs_exact].
Qed.

(** ** The invariant *)

Definition pending_wf (b : PendingBatch) : Prop := Forall tc_wf b.1 /\ length b.2 = length b.1.

Record qos_wf (s : CostTracker * list PendingBatch * list Charge) : Prop := {
  qos_tracks : tracks s.1.1 (block_charges s.1.2 s.2);
  qos_charges : charges_wf (block_charges s.1.2 s.2);
  qos_limits : limits_below s.1.1;
  qos_pending : Forall pending_wf s.1.2;
  qos_within : as_estimated s.2 -> within_limits s.1.1 (block_charges s.1.2 s.2);
}.

Lemma block_charges_cons costs results pending committed :
  block_charges ((costs, results) :: pending) committed = selected costs results ++ block_charges pending committed.
Proof. unfold block_charges. cbn. by rewrite (assoc (++)). Qed.

Lemma block_charges_middle pending1 costs results pending2 committed :
  block_charges (pending1 ++ (costs, results) :: pending2) committed
  ≡ₚ selected costs results ++ block_charges (pending1 ++ pending2) committed.
Proof. unfold block_charges. rewrite !fmap_app, !join_app. cbn. solve_Permutation. Qed.

Lemma block_charges_committed pending new committed :
  block_charges pending (new ++ committed) ≡ₚ new ++ block_charges pending committed.
Proof. unfold block_charges. solve_Permutation. Qed.

Lemma same_limits_below t t' : same_limits t t' -> limits_below t -> limits_below t'.
Proof. unfold same_limits, limits_below. intuition congruence. Qed.

Lemma select_wf txs costs results n t t' pending committed :
  qos_wf (t, pending, committed) -> length costs = length txs -> Forall tc_wf costs ->
  fits (selected costs results ++ block_charges pending committed) ->
  select_transactions_per_cost txs costs t = Ok (results, n, t') ->
  qos_wf (t', (costs, results) :: pending, committed).
Proof.
  intros [Ht Hc Hl Hp Hw] Hlen Hwf Hf Hsel. cbn [fst snd] in *. unfold select_transactions_per_cost in Hsel.
  assert ((zip txs costs).*2 = costs) as Hz by (apply snd_zip; lia).
  pose proof (select_each_total (zip txs costs) 0 t) as (rs & n' & t1 & Hsel' & Hlr & _).
  rewrite Hsel in Hsel'. injection Hsel' as <- <- <-. rewrite length_zip_with in Hlr.
  eapply select_each_exact in Hsel as (Ht' & Hl' & Hw'); rewrite ?Hz in *; [|done..].
  constructor; cbn [fst snd]; rewrite ?block_charges_cons.
  - done.
  - apply Forall_app. split; [by apply selected_wf|done].
  - by eapply same_limits_below.
  - constructor; [|done]. split; [done|cbn; lia].
  - intros He. rewrite <-(same_limits_within _ _ _ Hl'). auto.
Qed.

Lemma settle_wf costs results status t pending1 pending2 committed :
  qos_wf (t, pending1 ++ (costs, results) :: pending2, committed) -> status_wf costs status ->
  fits (settled costs results status ++ block_charges (pending1 ++ (costs, results) :: pending2) committed) ->
  qos_wf (update_or_remove_transaction_costs costs results status t, pending1 ++ pending2,
          settled costs results status ++ committed).
Proof.
  intros [Ht Hc Hl Hp Hw] Hst Hf. cbn [fst snd] in *. rewrite block_charges_middle in Ht, Hc, Hw, Hf.
  apply Forall_app in Hp as [Hp1 [[Hwf Hlen] Hp2]%Forall_cons]. cbn [fst snd] in *. apply Forall_app in Hc as [Hc1 Hc2].
  destruct (settle_exact costs results status t _ Hwf Hst Ht Hc2 Hlen Hf) as [Ht' Hl'].
  pose proof (settled_wf costs results status Hwf Hst) as Hsw.
  constructor; cbn [fst snd]; rewrite ?block_charges_committed.
  - done.
  - by apply Forall_app.
  - by eapply same_limits_below.
  - by apply Forall_app.
  - intros [He1 He2]%Forall_app. rewrite <-(same_limits_within _ _ _ Hl').
    destruct (Hw He2) as [Hb Hv Ha].
    assert (forall share, (forall c, 0 <= share c) -> charge share (settled costs results status)
                                                      <= charge share (selected costs results)) as Hle
      by (intros; by apply settled_le).
    constructor; [| |intros k; specialize (Ha k)]; rewrite charge_app in *.
    + pose proof (Hle block_share ltac:(done)). lia.
    + pose proof (Hle vote_share (fun c => proj1 (vote_share_bounds c))). lia.
    + pose proof (Hle (writer_share k) (fun c => proj1 (writer_share_bounds k c))). lia.
Qed.

Lemma qos_reachable_wf s : qos_reachable s -> qos_wf s.
Proof.
  intros (a & b & v & t0 & Hnew & Ha & Hb & Hv & Hr). revert s Hr. apply rtc_ind_r.
  - unfold CostTracker_new in Hnew. destruct (_ && _); [|done]. injection Hnew as <-.
    constructor; cbn; [|constructor| |constructor|].
    + constructor; [done..| |done]. intros k. cbn. by rewrite lookup_empty.
    + unfold limits_below. cbn. lia.
    + intros _. constructor; intros; cbn; lia.
  - intros s1 s2 _ Hs Hwf. destruct Hs; [by eapply select_wf|by eapply settle_wf].
Qed.

(** Selection answers every transaction, and with its answers the account locks
    of every reachable state prepare the batch. *)
Lemma selected_batch_prepared fs txs costs t l batches :
  batches_reachable (l, batches) -> length costs = length txs ->
  Z.of_nat (length (held_all batches) + length txs) <= U64_MAX ->
  exists results n t' b l',
    select_transactions_per_cost txs costs t = Ok (results, n, t') /\
    prepare_sanitized_batch_with_results fs txs results l = Ok (b, l').
Proof.
  intros Hr Hlen Hb. destruct (select_each_total (zip txs costs) 0 t) as (rs & n & t' & Hsel & Hl & Hs).
  rewrite length_zip_with in Hl.
  destruct (prepare_spec fs txs rs l batches (batches_reachable_wf _ Hr) Hs) as (l' & Hp & _); [lia|done|].
  by eexists rs, n, t', _, l'.
Qed.

(** C30. However the batches of a block are selected and settled, the cost
    tracker is exact. Its counters are the sums over the transactions of the
    block, with the actual cost of the committed ones, the estimate of those in
    execution and nothing for those that were not committed. It admits a
    transaction exactly when the exact sums leave room for it, and names the
    first limit that does not. As long as no committed transaction costs more
    than was estimated, the block, its votes and the transactions that write
    one account stay within their limits. *)
Theorem block_costs_exact t pending committed :
  qos_reachable (t, pending, committed) ->
  tracks t (block_charges pending committed) /\
  (forall c, try_add c t = match admit_exact t (block_charges pending committed) c with
                           | None => Ok (block_cost (add_transaction_cost c t), add_transaction_cost c t)
                           | Some e => Err e
                           end) /\
  (as_estimated committed -> within_limits t (block_charges pending committed)).
Proof.
  intros [Ht _ Hl _ Hw]%qos_reachable_wf. cbn [fst snd] in *. split_and!; [done| |done].
  intros c. by apply try_add_exact.
Qed.

(** ** A block of three transactions *)
Module CostExample.

Definition cost1 : TransactionCost := mkTransactionCost [10; 20] 100 200 0 300 400 false.
Definition cost2 : TransactionCost := mkTransactionCost [20] 100 200 0 300 9000 true.
Definition cost3 : TransactionCost := mkTransactionCost [20] 100 200 0 300 5 false.

Definition start : CostTracker := mkCostTracker 2000 3000 2500 ∅ 0 0 0.

(** The second transaction is too expensive; the first then uses less than estimated and the third is lost. *)
Definition results : list TransactionResult := [Ok tt; Err TransactionError.WouldExceedMaxBlockCostLimit; Ok tt].
Definition tracker1 : CostTracker := mkCostTracker 2000 3000 2500 {[10 := 1000; 20 := 1605]} 1605 0 2.
Definition tracker2 : CostTracker := mkCostTracker 2000 3000 2500 {[10 := 650; 20 := 650]} 650 0 1.
Definition commit_status : option (list CommitTransactionDetails) := Some [Committed 50; NotCommitted; NotCommitted].

Lemma tracker2_reachable : qos_reachable (tracker2, [], [(cost1, 650)]).
Proof.
  exists 2000, 3000, 2500, start. split_and!; [done..|].
  eapply rtc_l.
  { apply (qos_select [LocksExample.tx1; LocksExample.tx2; LocksExample.tx3] [cost1; cost2; cost3] results 2 start tracker1 [] []);
      [done|repeat constructor; done|by vm_compute|by vm_compute]. }
  eapply rtc_l; [|apply rtc_refl].
  apply (qos_settle [cost1; cost2; cost3] results commit_status tracker1 [] [] []);
    [split; [done|repeat constructor; done]|by vm_compute].
Defined.

Lemma block_costs_exact_witness :
  tracks tracker2 [(cost1, 650)] /\ within_limits tracker2 [(cost1, 650)].
Proof.
  destruct (block_costs_exact tracker2 [] [(cost1, 650)] tracker2_reachable) as (H1 & _ & H2).
  split; [exact H1|apply H2; by repeat constructor].
Defined.
End CostExample.
