(* ===== verification/Transaction.v ===== *)
(** * Transactions from loading to commit

    What a bank does with the transactions of a batch that passed their checks:
    loading the accounts and charging the fee and the rent
    ([runtime/src/accounts.rs]), running the message
    ([runtime/src/message_processor.rs]), and storing the results, the rent and
    the fees ([runtime/src/bank.rs]), with the rent states of
    [account_rent_state.rs] and the instructions sysvar. The accounts that the
    bank sees are a map, which [accounts_db] stores and loads one account at a
    time; executor caches, logs, the stakes cache, timings and the account
    overrides of a simulation are left out. *)
From Stdlib Require Import String.
From Stdlib Require Import Floats.SpecFloat.
From stdpp Require Import base numbers option list gmap.
From S2P Require Import Prelude Instruction Account EpochSchedule Float64 Rent Sysvar Message PreAccount ComputeBudget.
From S2P Require Import InvokeContext Nonce System BlockhashQueue BankForks AccountLocks.
Import TransactionError.

Definition instructions_sysvar_owned_by_sysvar : Pubkey :=
  Eval vm_compute in pubkey_of "H3kBSaKdeiUsyHmeHqjJYNc27jesXZ6zWj3zWkowQbkV".
Definition prevent_calling_precompiles_as_programs : Pubkey :=
  Eval vm_compute in pubkey_of "4ApgRX3ud6p7LNMJmsuaAcZY5HWctGPr5obAsjB3A54d".
Definition leave_nonce_on_success : Pubkey := Eval vm_compute in pubkey_of "E8MkiWZNNPGU6n55jkGzyj8ghUmjCHRmDFdYYFYHxWhQ".
Definition require_rent_exempt_accounts : Pubkey := Eval vm_compute in pubkey_of "BkFDxiJQWZXGTZaJQxH7wVEHkAmwCgSEVkrvswFfRJPD".
Definition default_units_per_instruction : Pubkey := Eval vm_compute in pubkey_of "J2QdYx8crLbTVK8nur1jeLsmc3krDbfjoxoea2V1Uy5Q".
Definition instructions_id : Pubkey := Eval vm_compute in pubkey_of "Sysvar1nstructions1111111111111111111111111".
Definition secp256k1_program_id : Pubkey := Eval vm_compute in pubkey_of "KeccakSecp256k11111111111111111111111111111".
Definition ed25519_program_id : Pubkey := Eval vm_compute in pubkey_of "Ed25519SigVerify111111111111111111111111111".

Definition INITIAL_RENT_EPOCH : Epoch := 0.

(** The accounts the bank loads and stores. *)
Abbreviation Ledger := (gmap Pubkey AccountSharedData).

(** ** Rent states *)

Inductive RentState : Type :=
| RentUninitialized
| RentPaying (data_size : nat)
| RentExempt.

Definition RentState_from_account (account : AccountSharedData) (rent : Rent) : RentState :=
  if lamports account =? 0 then RentUninitialized
  else if negb (is_exempt rent (lamports account) (Z.of_nat (length (data account))))
  then RentPaying (length (data account))
  else RentExempt.

Definition transition_allowed_from (post pre : RentState) (do_support_realloc : bool) : bool :=
  match post with
  | RentPaying post_data_size =>
      match pre with
      | RentPaying pre_data_size => if do_support_realloc then bool_decide (post_data_size = pre_data_size) else true
      | _ => false
      end
  | _ => true
  end.

Definition check_rent_state (pre_rent_state post_rent_state : option RentState) (address : Pubkey)
    (do_support_realloc : bool) : TransactionResult :=
  match pre_rent_state, post_rent_state with
  | Some pre, Some post =>
      if negb (address =? incinerator_id) && negb (transition_allowed_from post pre do_support_realloc)
      then Err InvalidRentPayingAccount else Ok tt
  | _, _ => Ok tt
  end.

(** ** Rent debits *)

Record RentDebit : Type := mkRentDebit {
  rent_collected : Z;
  post_balance : Z;
}.

Abbreviation RentDebits := (gmap Pubkey RentDebit).

Definition get_account_rent_debit (debits : RentDebits) (address : Pubkey) : Z :=
  default 0 (rent_collected <$> debits !! address).

Definition rent_debits_insert (address : Pubkey) (rent_collected post_balance : Z) (debits : RentDebits) : RentDebits :=
  if rent_collected =? 0 then debits else <[address := mkRentDebit rent_collected post_balance]> debits.

(** ** The instructions sysvar *)

Definition append_u16 (x : Z) (data : list Z) : list Z := data ++ [x mod 256; x / 256 mod 256].

Definition meta_flags (m : AccountMeta) : Z :=
  Z.lor (if am_is_signer m then 1 else 0) (if am_is_writable m then 2 else 0).

(** One round of the loop of [serialize_instructions]: the offset goes to the table, the instruction to the end. *)
Definition serialize_instruction (data : list Z) (entry : nat * Instruction) : list Z :=
  let '(i, ix) := entry in
  let start := (2 + 2 * i)%nat in
  let data := take start data ++ append_u16 (Z.of_nat (length data)) [] ++ drop (start + 2) data in
  let data := append_u16 (Z.of_nat (length (ix_accounts ix))) data in
  let data := data ++ mjoin ((fun m => meta_flags m :: hash_bytes (am_pubkey m)) <$> ix_accounts ix) in
  let data := data ++ hash_bytes (ix_program_id ix) in
  append_u16 (Z.of_nat (length (ix_data ix))) data ++ ix_data ix.

Definition serialize_instructions (ixs : list Instruction) : list Z :=
  foldl serialize_instruction
    (append_u16 (Z.of_nat (length ixs)) [] ++ replicate (2 * length ixs) 0) (imap (fun i ix => (i, ix)) ixs).

Definition construct_instructions_data (ixs : list Instruction) : list Z := serialize_instructions ixs ++ [0; 0].

Definition store_current_index {E} (instruction_index : Z) (data : list Z) : outcome E (list Z) :=
  if decide (2 <= length data)%nat
  then Ok (append_u16 instruction_index (take (length data - 2) data)) else Panic.

(** [SanitizedMessage::decompile_instructions] *)
Definition borrow_meta {E} (m : SanitizedMessage) (account_index : Z) : outcome E AccountMeta :=
  let account_index := Z.to_nat account_index in
  is_writable ← sm_is_writable m account_index;
  pubkey ← unwrap (get_account_key m account_index);
  Ok (mkAccountMeta pubkey (sm_is_signer m account_index) is_writable).

Definition decompile_instructions {E} (m : SanitizedMessage) : outcome E (list Instruction) :=
  ixs ← program_instructions_iter m;
  collect (fun '(program_id, ix) =>
             accounts ← collect (borrow_meta m) (ci_accounts ix);
             Ok (mkInstruction program_id accounts (ci_data ix))) ixs.

Definition construct_instructions_account {E} (message : SanitizedMessage) (is_owned_by_sysvar : bool)
  : outcome E AccountSharedData :=
  ixs ← decompile_instructions message;
  Ok (mkAccount 0 (construct_instructions_data ixs) (if is_owned_by_sysvar then sysvar_id else system_program_id) false 0).

(** ** Fees *)

Record FeeBin : Type := mkFeeBin {
  bin_limit : Z;
  bin_fee : Z;
}.

Record FeeStructure : Type := mkFeeStructure {
  fs_lamports_per_signature : Z;
  fs_lamports_per_write_lock : Z;
  compute_fee_bins : list FeeBin;
}.

Definition get_num_signatures_in_message {E} (message : SanitizedMessage) : outcome E Z :=
  ixs ← program_instructions_iter message;
  Ok (foldl (fun num_signatures '(program_id, ix) =>
               if (program_id =? secp256k1_program_id) || (program_id =? ed25519_program_id)
               then match ci_data ix !! 0%nat with
                    | Some num_verifies => saturating_add64 num_signatures num_verifies
                    | None => num_signatures
                    end
               else num_signatures) (num_required_signatures (sm_header message)) ixs).

Definition get_num_write_locks_in_message (message : SanitizedMessage) : Z :=
  Z.of_nat (sm_account_keys_len message - num_readonly_accounts message).

(** [x.round() as u64]: to the nearest integer, halves away from zero. *)
Definition f64_round_to_u64 (x : f64) : Z :=
  match x with
  | S754_finite false m e =>
      Z.min U64_MAX (if 0 <=? e then Z.shiftl (Zpos m) e else Z.shiftr (Zpos m + 2 ^ (- e - 1)) (- e))
  | S754_infinity false => U64_MAX
  | _ => 0
  end.

Definition BASE_CONGESTION : f64 := f64_of_u64 5000.

(** What the bank does not change while it processes a batch, with the programs
    it runs and the third-party code it calls: [borsh] decoding the instructions
    of the compute budget program, and SHA-256. *)
Record TxBank : Type := mkTxBank {
  tb_feature_set : FeatureSet;
  tb_rent_collector : RentCollector;
  tb_fee_structure : FeeStructure;
  tb_blockhash_queue : BlockhashQueue;
  tb_filler_account_suffix : option Pubkey;
  tb_builtin_programs : list BuiltinProgram;
  tb_native_loader : nat -> list Z -> IM unit;
  tb_sysvar_cache : SysvarCache;
  tb_compute_budget : option ComputeBudget;
  tb_try_from_slice_unchecked : list Z -> option ComputeBudgetInstruction;
  tb_sha256 : list Z -> Hash;
}.

Section bank.
Context `{Bincode NonceVersions} `{Bincode UpgradeableLoaderState}.
Context (b : TxBank).
#[local] Notation feature_set := (tb_feature_set b).
#[local] Notation rent_collector := (tb_rent_collector b).
#[local] Notation fee_structure := (tb_fee_structure b).
#[local] Notation hash_queue := (tb_blockhash_queue b).

(** With the fee structure and the features of the bank. *)
Definition calculate_fee (message : SanitizedMessage) (lamports_per_signature : Z) : outcome fuel_error Z :=
  if is_active feature_set tx_wide_compute_cap then
    let current_congestion := f64_max BASE_CONGESTION (f64_of_u64 lamports_per_signature) in
    let congestion_multiplier :=
      if lamports_per_signature =? 0 then S754_zero false else f64_div BASE_CONGESTION current_congestion in
    let '(additional_fee, compute_budget) :=
      budget_process_message (tb_try_from_slice_unchecked b) message false false ComputeBudget_default in
    additional_fee ← (match additional_fee with Ok fee => Ok fee | Err _ => Ok 0 | Panic => Panic end);
    num_signatures ← get_num_signatures_in_message message;
    let signature_fee := saturating_mul64 num_signatures (fs_lamports_per_signature fee_structure) in
    let write_lock_fee := saturating_mul64 (get_num_write_locks_in_message message) (fs_lamports_per_write_lock fee_structure) in
    let compute_fee :=
      match list_find (fun bin => max_units compute_budget <= bin_limit bin) (compute_fee_bins fee_structure) with
      | Some (_, bin) => bin_fee bin
      | None => default 0 (bin_fee <$> last (compute_fee_bins fee_structure))
      end in
    Ok (f64_round_to_u64 (f64_mul
          (f64_of_u64 (saturating_add64 (saturating_add64 (saturating_add64 additional_fee signature_fee) write_lock_fee) compute_fee))
          congestion_multiplier))
  else
    num_signatures ← get_num_signatures_in_message message;
    Ok (saturating_mul64 lamports_per_signature num_signatures).

(** ** Loading *)

Record LoadedTransaction : Type := mkLoadedTransaction {
  lt_accounts : list (Pubkey * AccountSharedData);
  lt_program_indices : list (list nat);
  lt_rent : Z;
  lt_rent_debits : RentDebits;
}.

(** The variables of the loop over the keys. *)
Record LoadState : Type := mkLoadState {
  ls_payer_index : option nat;
  ls_tx_rent : Z;
  ls_accounts : list (Pubkey * AccountSharedData);
  ls_account_deps : list (Pubkey * AccountSharedData);
  ls_rent_debits : RentDebits;
}.

Definition is_loader_present (m : SanitizedMessage) : bool := is_upgradeable_loader_present (account_keys_iter m).

(** An account of the message, with the rent collected from it. *)
Definition load_account {E} (ledger : Ledger) (message : SanitizedMessage) (i : nat) (key : Pubkey)
  : outcome E (AccountSharedData * Z) :=
  match ledger !! key with
  | Some account =>
      is_writable ← sm_is_writable message i;
      Ok (if (is_writable : bool) then
            let '(info, account) := collect_from_existing_account rent_collector key
              (is_active feature_set rent_for_sysvars) (tb_filler_account_suffix b) account in
            (account, rent_amount info)
          else (account, 0))
  | None => Ok (AccountSharedData_default, 0)
  end.

(** The program data of an upgradeable program, and the accounts no transaction may write. *)
Definition load_account_deps (ledger : Ledger) (message : SanitizedMessage) (i : nat) (account : AccountSharedData)
  : TxOutcome (list (Pubkey * AccountSharedData)) :=
  is_writable ← sm_is_writable message i;
  if owner account =? bpf_loader_upgradeable_id then
    if is_writable && negb (is_loader_present message) then Err InvalidWritableAccount
    else if executable account then
      match account_state (T := UpgradeableLoaderState) account with
      | Ok (LoaderProgram programdata_address) =>
          match ledger !! programdata_address with
          | Some programdata_account => Ok [(programdata_address, programdata_account)]
          | None => Err ProgramAccountNotFound
          end
      | _ => Err InvalidProgramForExecution
      end
    else Ok []
  else if executable account && is_writable then Err InvalidWritableAccount
  else Ok [].

Definition load_key (ledger : Ledger) (message : SanitizedMessage) (s : LoadState) (entry : nat * Pubkey)
  : TxOutcome LoadState :=
  let '(i, key) := entry in
  if negb (is_non_loader_key message i) then
    Ok (mkLoadState (ls_payer_index s) (ls_tx_rent s) (ls_accounts s ++ [(key, AccountSharedData_default)])
          (ls_account_deps s) (ls_rent_debits s))
  else
    let payer_index := match ls_payer_index s with Some p => Some p | None => Some i end in
    if key =? instructions_id then
      account ← construct_instructions_account message (is_active feature_set instructions_sysvar_owned_by_sysvar);
      Ok (mkLoadState payer_index (ls_tx_rent s) (ls_accounts s ++ [(key, account)]) (ls_account_deps s) (ls_rent_debits s))
    else
      loaded ← load_account ledger message i key;
      let '(account, rent) := loaded in
      deps ← load_account_deps ledger message i account;
      Ok (mkLoadState payer_index (add64 (ls_tx_rent s) rent) (ls_accounts s ++ [(key, account)])
            (ls_account_deps s ++ deps) (rent_debits_insert key rent (lamports account) (ls_rent_debits s))).

Fixpoint load_keys (ledger : Ledger) (message : SanitizedMessage) (keys : list (nat * Pubkey)) (s : LoadState)
  : TxOutcome LoadState :=
  match keys with
  | [] => Ok s
  | entry :: keys => s ← load_key ledger message s entry; load_keys ledger message keys s
  end.

(** The fee is taken from the payer, which keeps what a nonce account needs. *)
Definition charge_fee_payer (fee : Z) (payer_address : Pubkey) (payer_account : AccountSharedData)
  : TxOutcome AccountSharedData :=
  if lamports payer_account =? 0 then Err AccountNotFound
  else
    min_balance ← (match get_system_account_kind payer_account with
                   | Ok (Some SystemKind) => Ok 0
                   | Ok (Some NonceKind) =>
                       match NonceState_size with
                       | Ok size => Ok (minimum_balance (rc_rent rent_collector) size)
                       | _ => Panic
                       end
                   | Ok None => Err InvalidAccountForFee
                   | _ => Panic
                   end);
    if lamports payer_account <? add64 fee min_balance then Err InsufficientFundsForFee
    else
      let pre := RentState_from_account payer_account (rc_rent rent_collector) in
      match checked_sub_lamports fee payer_account with
      | (Ok _, payer_account) =>
          let post := RentState_from_account payer_account (rc_rent rent_collector) in
          let result := check_rent_state (Some pre) (Some post) payer_address (is_active feature_set do_support_realloc) in
          _ ← (if is_active feature_set require_rent_exempt_accounts then result else Ok tt);
          Ok payer_account
      | (Err _, _) => Err InsufficientFundsForFee
      | (Panic, _) => Panic
      end.

(** The chain from a program to the native loader, at most 5 accounts long; the
    program data comes before its program. *)
Fixpoint load_chain (ledger : Ledger) (depth : nat) (program_id : Pubkey) (accounts : list (Pubkey * AccountSharedData))
    (account_indices : list nat) : TxOutcome (list (Pubkey * AccountSharedData) * list nat) :=
  if program_id =? native_loader_id then Ok (accounts, account_indices)
  else
    match depth with
    | O => Err CallChainTooDeep
    | S depth =>
        match ledger !! program_id with
        | None => Err ProgramAccountNotFound
        | Some program =>
            let account_indices := length accounts :: account_indices in
            let accounts := accounts ++ [(program_id, program)] in
            if negb (executable program) then Err InvalidProgramForExecution
            else if owner program =? bpf_loader_upgradeable_id then
              match account_state (T := UpgradeableLoaderState) program with
              | Ok (LoaderProgram programdata_address) =>
                  match ledger !! programdata_address with
                  | Some programdata_account =>
                      load_chain ledger depth (owner program) (accounts ++ [(programdata_address, programdata_account)])
                        (length accounts :: account_indices)
                  | None => Err ProgramAccountNotFound
                  end
              | _ => Err InvalidProgramForExecution
              end
            else load_chain ledger depth (owner program) accounts account_indices
        end
    end.

Definition MAX_CHAIN_DEPTH : nat := 5.

Definition load_executable_accounts (ledger : Ledger) (accounts : list (Pubkey * AccountSharedData))
    (program_account_index : nat) : TxOutcome (list (Pubkey * AccountSharedData) * list nat) :=
  entry ← unwrap (accounts !! program_account_index);
  load_chain ledger MAX_CHAIN_DEPTH entry.1 accounts [].

Fixpoint load_programs (ledger : Ledger) (ixs : list CompiledInstruction) (accounts : list (Pubkey * AccountSharedData))
  : TxOutcome (list (Pubkey * AccountSharedData) * list (list nat)) :=
  match ixs with
  | [] => Ok (accounts, [])
  | ix :: ixs =>
      loaded ← load_executable_accounts ledger accounts (Z.to_nat (ci_program_id_index ix));
      let '(accounts, indices) := loaded in
      rest ← load_programs ledger ixs accounts;
      let '(accounts, program_indices) := rest in
      Ok (accounts, indices :: program_indices)
  end.

(** A sanitized transaction has a signature, so that the check for one is left out. *)
Definition load_transaction (ledger : Ledger) (tx : SanitizedTransaction) (fee : Z) : TxOutcome LoadedTransaction :=
  let message := tx_message tx in
  s ← load_keys ledger message (imap (fun i k => (i, k)) (account_keys_iter message)) (mkLoadState None 0 [] [] ∅);
  let accounts := ls_accounts s ++ ls_account_deps s in
  match ls_payer_index s with
  | Some payer_index =>
      payer ← unwrap (accounts !! payer_index);
      payer_account ← charge_fee_payer fee payer.1 payer.2;
      let accounts := <[payer_index := (payer.1, payer_account)]> accounts in
      loaded ← load_programs ledger (sm_instructions message) accounts;
      let '(accounts, program_indices) := loaded in
      Ok (mkLoadedTransaction accounts program_indices (ls_tx_rent s) (ls_rent_debits s))
  | None => Err AccountNotFound
  end.

(** ** Nonces of loaded transactions *)

Record NonceFull : Type := mkNonceFull {
  nf_address : Pubkey;
  nf_account : AccountSharedData;
  nf_fee_payer_account : option AccountSharedData;
}.

(** The first account of the message that is not only called as a program. *)
Definition find_fee_payer (message : SanitizedMessage) (accounts : list (Pubkey * AccountSharedData))
  : option (Pubkey * AccountSharedData) :=
  head (omap (fun i => if is_non_loader_key message i then accounts !! i else None) (seq 0 (sm_account_keys_len message))).

Definition NonceFull_from_partial (partial : NoncePartial) (message : SanitizedMessage)
    (accounts : list (Pubkey * AccountSharedData)) (rent_debits : RentDebits) : TxOutcome NonceFull :=
  match find_fee_payer message accounts with
  | Some (fee_payer_address, fee_payer_account) =>
      let rent_debit := get_account_rent_debit rent_debits fee_payer_address in
      let fee_payer_account := set_lamports (saturating_add64 (lamports fee_payer_account) rent_debit) fee_payer_account in
      if fee_payer_address =? np_address partial then Ok (mkNonceFull (np_address partial) fee_payer_account None)
      else Ok (mkNonceFull (np_address partial) (np_account partial) (Some fee_payer_account))
  | None => Err AccountNotFound
  end.

Abbreviation TransactionLoadResult := (TxOutcome LoadedTransaction * option NonceFull)%type.

(** The transaction and its nonce, of a transaction that passed the checks. *)
Definition load_checked (ledger : Ledger) (tx : SanitizedTransaction) (nonce : option NoncePartial)
  : TxOutcome (LoadedTransaction * option NonceFull) :=
  let lamports_per_signature :=
    match nonce with
    | Some nonce => lamports_per_signature_of (np_account nonce)
    | None => queue_lamports_per_signature hash_queue (sm_recent_blockhash (tx_message tx))
    end in
  match lamports_per_signature with
  | Some lamports_per_signature =>
      fee ← (match calculate_fee (tx_message tx) lamports_per_signature with
             | Ok fee => Ok fee
             | _ => Panic
             end);
      loaded ← load_transaction ledger tx fee;
      match nonce with
      | Some nonce =>
          nonce ← NonceFull_from_partial nonce (tx_message tx) (lt_accounts loaded) (lt_rent_debits loaded);
          Ok (loaded, Some nonce)
      | None => Ok (loaded, None)
      end
  | None => Err BlockhashNotFound
  end.

(** [load_accounts], for one transaction *)
Definition load_one (ledger : Ledger) (tx : SanitizedTransaction) (check : TransactionCheckResult)
  : outcome fuel_error TransactionLoadResult :=
  match check.1 with
  | Ok _ =>
      match load_checked ledger tx check.2 with
      | Ok (loaded, nonce) => Ok (Ok loaded, nonce)
      | Err e => Ok (Err e, None)
      | Panic => Panic
      end
  | Err e => Ok (Err e, None)
  | Panic => Panic
  end.

Definition load_accounts (ledger : Ledger) (txs : list SanitizedTransaction) (checks : list TransactionCheckResult)
  : outcome fuel_error (list TransactionLoadResult) :=
  zip_with_outcome (load_one ledger) txs checks.

(** ** Execution *)

(** [is_precompile], with the list of precompiled programs *)
Definition is_precompile (program_id : Pubkey) : bool :=
  existsb (fun id => is_active feature_set prevent_calling_precompiles_as_programs && (id =? program_id))
    [secp256k1_program_id; ed25519_program_id].

(** The current index goes into the first instructions sysvar of the message. *)
Definition fix_instructions_account {E} (message : SanitizedMessage) (instruction_index : nat) (c : InvokeContext)
  : outcome E InvokeContext :=
  match list_find (fun entry => entry.1 = instructions_id) (take (sm_account_keys_len message) (ic_accounts c)) with
  | Some (i, (pubkey, account)) =>
      data ← store_current_index (Z.of_nat instruction_index) (data account);
      Ok (set_accounts (<[i := (pubkey, set_data data account)]> (ic_accounts c)) c)
  | None => Ok c
  end.

(** The instructions of a message, and the units they used. The context keeps
    what an instruction that failed did to the accounts. *)
Fixpoint process_instructions (message : SanitizedMessage) (instruction_index : nat)
    (ixs : list ((Pubkey * CompiledInstruction) * list nat)) (units : Z) (c : InvokeContext)
  : TransactionResult * Z * InvokeContext :=
  match ixs with
  | [] => (Ok tt, units, c)
  | ((program_id, ix), program_indices) :: ixs =>
      match decompile ix message with
      | Ok instruction =>
          let c := record_top_level_instruction instruction c in
          if is_active feature_set prevent_calling_precompiles_as_programs && is_precompile program_id
          then process_instructions message (S instruction_index) ixs units c
          else
            match fix_instructions_account (E := fuel_error) message instruction_index c with
            | Ok c =>
                let '(result, c) := process_instruction (tb_builtin_programs b) (tb_native_loader b) message ix program_indices [] [] c in
                let units := saturating_add64 units (compute_units_consumed result) in
                match pir_result result with
                | Ok _ => process_instructions message (S instruction_index) ixs units c
                | Err err => (Err (InstructionError (Z.of_nat instruction_index mod 256) err), units, c)
                | Panic => (Panic, units, c)
                end
            | _ => (Panic, units, c)
            end
      | Err err => (Err (InstructionError (Z.of_nat instruction_index mod 256) err), units, c)
      | Panic => (Panic, units, c)
      end
  end.

Definition process_message (message : SanitizedMessage) (program_indices : list (list nat))
    (accounts : list (Pubkey * AccountSharedData)) (compute_budget : ComputeBudget) (blockhash : Hash)
    (lamports_per_signature current_accounts_data_len : Z) : TransactionResult * Z * InvokeContext :=
  let c := InvokeContext_new (rc_rent rent_collector) accounts (tb_sysvar_cache b) compute_budget feature_set blockhash
             lamports_per_signature current_accounts_data_len in
  match program_instructions_iter (E := fuel_error) message with
  | Ok ixs => process_instructions message 0 (zip ixs program_indices) 0 c
  | _ => (Panic, 0, c)
  end.

(** The rent states of the accounts of a message; a read-only account has none. *)
Definition get_transaction_account_state_info {E} (accounts : list (Pubkey * AccountSharedData)) (message : SanitizedMessage)
  : outcome E (list (option RentState)) :=
  collect (fun '(i, (_, account)) =>
             is_writable ← sm_is_writable message i;
             Ok (if (is_writable : bool) then Some (RentState_from_account account (rc_rent rent_collector)) else None))
    (imap (fun i entry => (i, entry)) (take (sm_account_keys_len message) accounts)).

Fixpoint verify_transaction_account_state_changes (pre post : list (option RentState))
    (accounts : list (Pubkey * AccountSharedData)) : TransactionResult :=
  match pre, post, accounts with
  | pre_state :: pre, post_state :: post, (pubkey, _) :: accounts =>
      _ ← (if is_active feature_set require_rent_exempt_accounts
           then check_rent_state pre_state post_state pubkey (is_active feature_set do_support_realloc) else Ok tt);
      verify_transaction_account_state_changes pre post accounts
  | _, _, _ => Ok tt
  end.

(** [DurableNonceFee]: the fee rate of the nonce, if it has one *)
Abbreviation DurableNonceFee := (option Z).

Record TransactionExecutionDetails : Type := mkTransactionExecutionDetails {
  ed_status : TransactionResult;
  ed_durable_nonce_fee : option DurableNonceFee;
  ed_executed_units : Z;
}.

Inductive TransactionExecutionResult : Type :=
| Executed (details : TransactionExecutionDetails)
| NotExecuted (e : TransactionError).

(** Runs the message on the loaded accounts: the result, the accounts after it
    and the length of all accounts data. *)
Definition execute_loaded_transaction (tx : SanitizedTransaction) (loaded : LoadedTransaction)
    (compute_budget : ComputeBudget) (durable_nonce_fee : option DurableNonceFee) (accounts_data_len : Z)
  : outcome fuel_error (TransactionExecutionResult * LoadedTransaction * Z) :=
  let message := tx_message tx in
  pre ← get_transaction_account_state_info (lt_accounts loaded) message;
  blockhash ← last_hash hash_queue;
  lamports_per_signature ← unwrap (queue_lamports_per_signature hash_queue blockhash);
  let '(process_result, executed_units, c) :=
    process_message message (lt_program_indices loaded) (lt_accounts loaded) compute_budget blockhash
      lamports_per_signature accounts_data_len in
  status ← (match process_result with
            | Ok _ =>
                post ← get_transaction_account_state_info (ic_accounts c) message;
                match verify_transaction_account_state_changes pre post (ic_accounts c) with
                | Ok _ => Ok (Ok tt)
                | Err e => Ok (Err e)
                | Panic => Panic
                end
            | Err e => Ok (Err e)
            | Panic => Panic
            end);
  let accounts_data_len :=
    match status with
    | Ok _ => saturating_add_signed accounts_data_len (adm_delta (accounts_data_meter c))
    | _ => accounts_data_len
    end in
  Ok (Executed (mkTransactionExecutionDetails status durable_nonce_fee executed_units),
      mkLoadedTransaction (ic_accounts c) (lt_program_indices loaded) (lt_rent loaded) (lt_rent_debits loaded),
      accounts_data_len).

(** One transaction of [load_and_execute_transactions], after it was loaded. *)
Definition execute_one (tx : SanitizedTransaction) (load : TransactionLoadResult) (accounts_data_len : Z)
  : outcome fuel_error (TransactionExecutionResult * TransactionLoadResult * Z) :=
  match load with
  | (Err e, nonce) => Ok (NotExecuted e, (Err e, nonce), accounts_data_len)
  | (Panic, _) => Panic
  | (Ok loaded, nonce) =>
      let wide := is_active feature_set tx_wide_compute_cap in
      let budget := match tb_compute_budget b with
                    | Some budget => budget
                    | None => ComputeBudget_new (if wide then MAX_UNITS else DEFAULT_UNITS)
                    end in
      let '(budget_result, budget) :=
        if wide then
          budget_process_message (tb_try_from_slice_unchecked b) (tx_message tx) (is_active feature_set requestable_heap_size)
            (is_active feature_set default_units_per_instruction) budget
        else (Ok 0, budget) in
      match budget_result with
      | Ok _ =>
          executed ← execute_loaded_transaction tx loaded budget
            ((fun nonce => lamports_per_signature_of (nf_account nonce)) <$> nonce) accounts_data_len;
          let '(result, loaded, accounts_data_len) := executed in
          Ok (result, (Ok loaded, nonce), accounts_data_len)
      | Err err => Ok (NotExecuted err, (Ok loaded, nonce), accounts_data_len)
      | Panic => Panic
      end
  end.

Fixpoint execute_each (batch : list (SanitizedTransaction * TransactionLoadResult)) (accounts_data_len : Z)
  : outcome fuel_error (list (TransactionExecutionResult * TransactionLoadResult) * Z) :=
  match batch with
  | [] => Ok ([], accounts_data_len)
  | (tx, load) :: batch =>
      executed ← execute_one tx load accounts_data_len;
      let '(result, load, accounts_data_len) := executed in
      rest ← execute_each batch accounts_data_len;
      Ok ((result, load) :: rest.1, rest.2)
  end.

(** ** Commit *)

(** A nonce account is rolled back and advanced, and the fee payer of a failed
    nonce transaction is rolled back: the account to store, and if it is the nonce. *)
Definition prepare_if_nonce_account {E} (address : Pubkey) (account : AccountSharedData) (execution_result : TransactionResult)
    (is_fee_payer : bool) (maybe_nonce : option (NonceFull * bool)) (durable_nonce : Hash * bool)
    (lamports_per_signature : Z) : outcome E (bool * AccountSharedData) :=
  match maybe_nonce with
  | None => Ok (false, account)
  | Some (nonce, rollback) =>
      if address =? nf_address nonce then
        let account := if (rollback : bool) then nf_account nonce else account in
        versions ← (match account_state (T := NonceVersions) (nf_account nonce) with Ok v => Ok v | _ => Panic end);
        match nonce_state versions with
        | NonceInitialized data =>
            let state := NonceInitialized (mkNonceData (nd_authority data) durable_nonce.1 lamports_per_signature) in
            match account_set_state (NonceVersions_new state durable_nonce.2) account with
            | (Ok _, account) => Ok (true, account)
            | _ => Panic
            end
        | NonceUninitialized => Ok (true, account)
        end
      else
        Ok (false,
            if negb (is_ok execution_result) && is_fee_payer then default account (nf_fee_payer_account nonce)
            else account)
  end.

(** The accounts to store for one transaction, with its rent. *)
Record StoreState : Type := mkStoreState {
  ss_fee_payer_index : option nat;
  ss_stores : list (Pubkey * AccountSharedData);
  ss_rent : Z;
  ss_rent_debits : RentDebits;
}.

Definition store_step {E} (message : SanitizedMessage) (execution_status : TransactionResult)
    (maybe_nonce : option (NonceFull * bool)) (durable_nonce : Hash * bool) (lamports_per_signature : Z)
    (s : StoreState) (entry : nat * (Pubkey * AccountSharedData)) : outcome E StoreState :=
  let '(i, (address, account)) := entry in
  if negb (is_non_loader_key message i) then Ok s
  else
    let fee_payer_index := match ss_fee_payer_index s with Some p => Some p | None => Some i end in
    let is_fee_payer := bool_decide (fee_payer_index = Some i) in
    is_writable ← sm_is_writable message i;
    if (is_writable : bool) then
      prepared ← prepare_if_nonce_account address account execution_status is_fee_payer maybe_nonce durable_nonce
        lamports_per_signature;
      let '(is_nonce_account, account) := prepared in
      if is_ok execution_status || is_nonce_account || is_fee_payer then
        let '(rent, account) :=
          if rent_epoch account =? INITIAL_RENT_EPOCH then
            let '(info, account) := collect_from_created_account rent_collector address
              (is_active feature_set rent_for_sysvars) account in
            (rent_amount info, account)
          else (0, account) in
        Ok (mkStoreState fee_payer_index (ss_stores s ++ [(address, account)]) (add64 (ss_rent s) rent)
              (rent_debits_insert address rent (lamports account) (ss_rent_debits s)))
      else Ok (mkStoreState fee_payer_index (ss_stores s) (ss_rent s) (ss_rent_debits s))
    else Ok (mkStoreState fee_payer_index (ss_stores s) (ss_rent s) (ss_rent_debits s)).

Fixpoint store_steps {E} (message : SanitizedMessage) (execution_status : TransactionResult)
    (maybe_nonce : option (NonceFull * bool)) (durable_nonce : Hash * bool) (lamports_per_signature : Z)
    (entries : list (nat * (Pubkey * AccountSharedData))) (s : StoreState) : outcome E StoreState :=
  match entries with
  | [] => Ok s
  | entry :: entries =>
      s ← store_step message execution_status maybe_nonce durable_nonce lamports_per_signature s entry;
      store_steps message execution_status maybe_nonce durable_nonce lamports_per_signature entries s
  end.

(** What is done with the nonce: nothing, or with a rollback or not. No value
    means that nothing is stored for the transaction. *)
Definition nonce_to_store (execution_status : TransactionResult) (nonce : option NonceFull)
  : option (option (NonceFull * bool)) :=
  match execution_status, nonce with
  | Ok _, Some nonce => if is_active feature_set leave_nonce_on_success then Some None else Some (Some (nonce, false))
  | Err _, Some nonce => Some (Some (nonce, true))
  | Ok _, None => Some None
  | _, _ => None
  end.

(** The stores and the rent of one transaction. *)
Definition accounts_to_store {E} (durable_nonce : Hash * bool) (lamports_per_signature : Z) (tx : SanitizedTransaction)
    (result : TransactionExecutionResult) (load : TransactionLoadResult)
  : outcome E (list (Pubkey * AccountSharedData) * Z) :=
  match load, result with
  | (Ok loaded, nonce), Executed details =>
      match nonce_to_store (ed_status details) nonce with
      | Some maybe_nonce =>
          let message := tx_message tx in
          s ← store_steps message (ed_status details) maybe_nonce durable_nonce lamports_per_signature
            (imap (fun i entry => (i, entry)) (take (sm_account_keys_len message) (lt_accounts loaded)))
            (mkStoreState None [] (lt_rent loaded) (lt_rent_debits loaded));
          Ok (ss_stores s, ss_rent s)
      | None => Ok ([], lt_rent loaded)
      end
  | _, _ => Ok ([], 0)
  end.

(** The state of the bank that a batch changes. *)
Record BankState : Type := mkBankState {
  bs_ledger : Ledger;
  bs_accounts_data_len : Z;
  bs_collected_rent : Z;
  bs_collector_fees : Z;
}.

(** The accounts database stores a default account for one without lamports. *)
Definition stored_account (account : AccountSharedData) : AccountSharedData :=
  if lamports account =? 0 then AccountSharedData_default else account.

Definition store_all (stores : list (Pubkey * AccountSharedData)) (ledger : Ledger) : Ledger :=
  foldl (fun ledger entry => <[entry.1 := stored_account entry.2]> ledger) ledger stores.

Definition was_executed_successfully (result : TransactionExecutionResult) : bool :=
  match result with Executed details => is_ok (ed_status details) | NotExecuted _ => false end.

(** [Bank::withdraw]; accounts without lamports are not found. *)
Definition withdraw (pubkey : Pubkey) (amount : Z) (ledger : Ledger) : TxOutcome Ledger :=
  match ledger !! pubkey with
  | Some account =>
      if lamports account =? 0 then Err AccountNotFound
      else
        min_balance ← (match get_system_account_kind account with
                       | Ok (Some NonceKind) =>
                           match NonceState_size with
                           | Ok size => Ok (minimum_balance (rc_rent rent_collector) size)
                           | _ => Panic
                           end
                       | Panic => Panic
                       | _ => Ok 0
                       end);
        match checked_add64 amount min_balance with
        | Some required_balance =>
            if required_balance <=? lamports account then
              match checked_sub_lamports amount account with
              | (Ok _, account) => Ok (store_all [(pubkey, account)] ledger)
              | _ => Err InsufficientFundsForFee
              end
            else Err InsufficientFundsForFee
        | None => Err InsufficientFundsForFee
        end
  | None => Err AccountNotFound
  end.

(** The fee of one transaction: paid from the ledger if it failed without a
    nonce. The result, the fee and the ledger. *)
Definition collect_fee (tx : SanitizedTransaction) (result : TransactionExecutionResult) (ledger : Ledger)
  : TxOutcome (Z * Ledger) :=
  match result with
  | NotExecuted err => Err err
  | Executed details =>
      let '(lamports_per_signature, is_nonce) :=
        match ed_durable_nonce_fee details with
        | Some fee => (fee, true)
        | None => (queue_lamports_per_signature hash_queue (sm_recent_blockhash (tx_message tx)), false)
        end in
      lamports_per_signature ← ok_or BlockhashNotFound lamports_per_signature;
      fee ← (match calculate_fee (tx_message tx) lamports_per_signature with
             | Ok fee => Ok fee
             | _ => Panic
             end);
      if negb (is_ok (ed_status details)) && negb is_nonce then
        fee_payer ← unwrap (get_account_key (tx_message tx) 0);
        ledger ← withdraw fee_payer fee ledger;
        Ok (fee, ledger)
      else Ok (fee, ledger)
  end.

Fixpoint filter_program_errors_and_collect_fee (batch : list (SanitizedTransaction * TransactionExecutionResult))
    (fees : Z) (ledger : Ledger) : outcome fuel_error (list TransactionResult * Z * Ledger) :=
  match batch with
  | [] => Ok ([], fees, ledger)
  | (tx, result) :: batch =>
      collected ← (match collect_fee tx result ledger with
                   | Ok (fee, ledger) => Ok (Ok tt, add64 fees fee, ledger)
                   | Err e => Ok (Err e, fees, ledger)
                   | Panic => Panic
                   end);
      let '(fee_result, fees, ledger) := collected in
      rest ← filter_program_errors_and_collect_fee batch fees ledger;
      let '(fee_results, fees, ledger) := rest in
      Ok (fee_result :: fee_results, fees, ledger)
  end.

(** [commit_transactions]: the stores of all transactions, the rent of the
    successful ones, then the fees. The transaction counters, the stakes cache
    and the executor cache are left out; the statuses are recorded by
    [update_transaction_statuses] of [BankForks.v]. *)
Definition commit_transactions (txs : list SanitizedTransaction)
    (executed : list (TransactionExecutionResult * TransactionLoadResult)) (s : BankState)
  : outcome fuel_error (list TransactionResult * BankState) :=
  last_blockhash ← last_hash hash_queue;
  lamports_per_signature ← unwrap (queue_lamports_per_signature hash_queue last_blockhash);
  let separate := is_active feature_set separate_nonce_from_blockhash in
  let durable_nonce := (DurableNonce_from_blockhash (tb_sha256 b) last_blockhash separate, separate) in
  stored ← zip_with_outcome (fun tx e => accounts_to_store durable_nonce lamports_per_signature tx e.1 e.2) txs executed;
  let ledger := store_all (mjoin (fst <$> stored)) (bs_ledger s) in
  let collected_rent :=
    foldl (fun total '(e, st) => if was_executed_successfully e.1 then add64 total st.2 else total) 0 (zip executed stored) in
  fees ← filter_program_errors_and_collect_fee (zip txs (fst <$> executed)) 0 ledger;
  let '(fee_results, fees, ledger) := fees in
  Ok (fee_results, mkBankState ledger (bs_accounts_data_len s) (add64 (bs_collected_rent s) collected_rent)
                     (add64 (bs_collector_fees s) fees)).

(** [load_execute_and_commit_transactions], for transactions with the results of
    [check_transactions], which [BankForks.v] models *)
Definition process_batch (txs : list SanitizedTransaction) (checks : list TransactionCheckResult)
    (s : BankState) : outcome fuel_error (list TransactionExecutionResult * list TransactionResult * BankState) :=
  loaded ← load_accounts (bs_ledger s) txs checks;
  executed ← execute_each (zip txs loaded) (bs_accounts_data_len s);
  let '(executed, accounts_data_len) := executed in
  committed ← commit_transactions txs executed
    (mkBankState (bs_ledger s) accounts_data_len (bs_collected_rent s) (bs_collector_fees s));
  let '(fee_results, s) := committed in
  Ok (fst <$> executed, fee_results, s).
End bank.
