(* ===== verification/TransactionSafety.v ===== *)
(** * Batches are serial and transactions are atomic

    A batch of transactions whose locks were granted has the effect of running
    its transactions one by one, and a transaction changes the accounts of the
    bank only as its outcome allows, whatever its programs do. *)
From Stdlib Require Import String Floats.SpecFloat.
From stdpp Require Import base numbers option list gmap relations.
From S2P Require Import Prelude Instruction Account EpochSchedule Float64 Rent Sysvar Message MessageSpec PreAccount ComputeBudget.
From S2P Require Import InvokeContext InvokeSpec Nonce System SystemCall BlockhashQueue BankForks.
From S2P Require Import AccountLocks AccountLocksSpec AccountLocksSafety Transaction.
Import TransactionError.

(** ** Keys of a message *)

Lemma sm_account_keys_len_iter m : sm_account_keys_len m = length (account_keys_iter m).
Proof.
  destruct m as [m|m]; [done|]. cbn. rewrite !length_app. cbn. lia.
Qed.

Lemma push_locks_writable {E} m (entries : list (nat * Pubkey)) locks locks' k :
  push_locks (E := E) m entries locks = Ok locks' ->
  k ∈ tal_writable locks' <->
  k ∈ tal_writable locks \/ exists i, (i, k) ∈ entries /\ sm_is_writable (E := E) m i = Ok true.
Proof.
  revert locks. induction entries as [|[i x] entries IH]; intros locks H; cbn [push_locks] in H.
  - injection H as <-. set_solver.
  - ok_inv. unfold push_lock in *. cbn [fst snd] in *. ok_inv.
    rewrite (IH _ H0). clear IH H0. setoid_rewrite elem_of_cons.
    split; destruct x1; cbn; rewrite ?elem_of_app, ?list_elem_of_singleton.
    + intros [[?| ->]|(j & ? & ?)]; eauto 10.
    + intros [?|(j & ? & ?)]; eauto 10.
    + intros [?|(j & [[= -> ->]|?] & ?)]; eauto 10.
    + intros [?|(j & [[= -> ->]|?] & ?)]; [by left|congruence|eauto 10].
Qed.

(** The accounts a transaction may write. *)
Definition may_write (tx : SanitizedTransaction) (k : Pubkey) : Prop := k ∈ tal_writable (locks_of tx).

Lemma may_write_index {E} tx i k :
  account_keys_iter (tx_message tx) !! i = Some k -> sm_is_writable (E := E) (tx_message tx) i = Ok true -> may_write tx k.
Proof.
  intros Hk Hw. destruct (locks_of_total tx) as [Hl _]. unfold may_write.
  apply (push_locks_writable _ _ _ _ k (Hl E)). right. exists i. split; [|done].
  apply list_elem_of_lookup. exists i. by rewrite list_lookup_imap, Hk.
Qed.

Lemma may_write_key tx k : may_write tx k -> k ∈ account_keys_iter (tx_message tx).
Proof. intros H. destruct (locks_of_total tx) as [_ Hp]. rewrite <-Hp. apply elem_of_app. by left. Qed.

(** ** Executions keep the addresses of the accounts *)

(** A computation that keeps a relation, however it ends. *)
Definition always {S E A} (R : relation S) (m : SE S E A) : Prop := forall s, R s (m s).2.

Section always.
Context {S E : Type} (R : relation S) `{!PreOrder R}.

Lemma always_bind {A B} (m : SE S E A) (k : A -> SE S E B) :
  always R m -> (forall a, always R (k a)) -> always R (m ≫= k).
Proof.
  intros Hm Hk s. unfold mbind, SE_bind. specialize (Hm s). destruct (m s) as [[a| |] s']; [|done..].
  etransitivity; [exact Hm|apply Hk].
Qed.
Lemma always_same {A} (m : SE S E A) : (forall s, (m s).2 = s) -> always R m.
Proof. intros H s. by rewrite H. Qed.
Lemma always_modify (f : S -> S) : (forall s, R s (f s)) -> always R (modify (E := E) f).
Proof. intros H s. apply H. Qed.
End always.

Lemma always_visit {S} (R : relation S) `{!PreOrder R} work before rest u :
  (forall u a, always R (work u a)) -> always R (visit_accounts work before rest u).
Proof.
  intros Hw. revert before u. induction rest as [|a rest IH]; intros before u; cbn [visit_accounts]; [by intros s|].
  case_bool_decide; [apply IH|]. apply (always_bind R); [apply Hw|]. intros _. apply IH.
Qed.

Definition same_addresses (c c' : InvokeContext) : Prop := (ic_accounts c').*1 = (ic_accounts c).*1.
Definition same_keys_vs (s s' : VerifyState) : Prop := same_addresses (vs_context s) (vs_context s').

#[local] Instance same_keys_preorder : PreOrder same_addresses.
Proof. split; [by intros c|]. intros c1 c2 c3 H1 H2. unfold same_addresses in *. congruence. Qed.
#[local] Instance same_keys_vs_preorder : PreOrder same_keys_vs.
Proof. split; [by intros c|]. intros c1 c2 c3 H1 H2. unfold same_keys_vs, same_addresses in *. congruence. Qed.

(** Decomposes a computation down to its primitive steps. *)
Ltac always_step :=
  match goal with
  | |- always _ (_ ≫= _) => apply always_bind; [apply _| |intros ?]
  | |- always _ (lift _) => apply always_same; [apply _|done]
  | |- always _ (ensure _ _) => apply always_same; [apply _|done]
  | |- always _ (throw _) => apply always_same; [apply _|done]
  | |- always _ get => apply always_same; [apply _|done]
  | |- always _ (mret _) => apply always_same; [apply _|done]
  | |- always _ (put _) => intros ?
  | |- always _ (modify _) => apply always_modify; intros []
  | |- always _ (visit_each_account _ _) => unfold visit_each_account; apply always_visit; [apply _|intros ? ?]
  | |- always _ (match ?x with _ => _ end) => destruct x eqn:?
  end.

Lemma push_same_keys message ix program_indices account_indices :
  always same_addresses (push message ix program_indices account_indices).
Proof. unfold push, push_first, push_reentrancy, snapshot_account. repeat always_step; try done. Qed.

Lemma add_sums_same_keys pre post : always same_keys_vs (add_sums pre post).
Proof.
  intros s. unfold add_sums, mbind, SE_bind, get, lift, put. cbn.
  destruct (checked_add128 _ _); cbn; [|done]. by destruct (checked_add128 _ _).
Qed.

Lemma charge_data_len_same_keys cap pre post : always same_keys_vs (charge_data_len cap pre post).
Proof.
  intros [x y c]. unfold charge_data_len, mbind, SE_bind, get, lift, put. cbn.
  destruct (if cap then _ else _); cbn; [|done..]. by destruct c.
Qed.

Lemma balanced_same_keys visits : always same_keys_vs visits -> always same_addresses (balanced visits).
Proof.
  intros Hv c. unfold balanced. specialize (Hv (mkVerifyState 0 0 c)).
  by destruct (visits _) as [[]]; cbn in *.
Qed.

Lemma verify_same_keys message ix program_indices : always same_addresses (verify message ix program_indices).
Proof.
  unfold verify. repeat always_step; try done. apply balanced_same_keys. always_step. unfold verify_account.
  repeat always_step; [apply add_sums_same_keys|apply charge_data_len_same_keys].
Qed.

Lemma verify_and_update_same_keys ix account_indices privileges :
  always same_addresses (verify_and_update ix account_indices privileges).
Proof.
  unfold verify_and_update. repeat always_step; try done. apply balanced_same_keys. always_step.
  unfold verify_and_update_account. repeat always_step; try apply add_sums_same_keys; try apply charge_data_len_same_keys.
  all: unfold same_keys_vs; cbn; by destruct vs_context.
Qed.

(** The addresses of the accounts are not the programs' to change. *)
Definition programs_keep_keys (b : TxBank) : Prop :=
  (forall entry n d, entry ∈ tb_builtin_programs b -> always same_addresses (bp_process_instruction entry n d)) /\
  (forall n d, always same_addresses (tb_native_loader b n d)).

Section bank.
Context `{Bincode NonceVersions} `{Bincode UpgradeableLoaderState}.
Context (b : TxBank) (Hprograms : programs_keep_keys b).

Lemma chain_same_keys d : always same_addresses (process_executable_chain (tb_builtin_programs b) (tb_native_loader b) d).
Proof.
  destruct Hprograms as [Hb Hn]. unfold process_executable_chain. repeat always_step; try apply Hn.
  all: match goal with H : find_builtin _ _ = Some _ |- _ => apply find_builtin_elem in H; by apply Hb | _ => idtac end.
Qed.

Lemma process_instruction_same_keys message ix program_indices account_indices privileges c :
  same_addresses c (process_instruction (tb_builtin_programs b) (tb_native_loader b) message ix program_indices account_indices
                 privileges c).2.
Proof.
  unfold process_instruction.
  assert (same_addresses c (if negb (bool_decide (invoke_stack c = []))
                       then verify_and_update ix account_indices privileges c else (Ok tt, c)).2) as H1
    by (case_match; [apply verify_and_update_same_keys|done]).
  destruct (if negb _ then _ else _) as [[[]| |] c1]; [|done..]. cbn in H1.
  pose proof (push_same_keys message ix program_indices account_indices c1) as H2.
  destruct (push _ _ _ _ c1) as [r c2]. cbn in H2.
  assert (forall c, same_addresses c (pop c)) as Hpop by (intros []; done).
  destruct r as [[]| |]; cbn; [|etransitivity; [exact H1|etransitivity; [exact H2|apply Hpop]]..].
  assert (forall lowest c, same_addresses c (run_and_verify (tb_builtin_programs b) (tb_native_loader b) lowest message ix
                                          program_indices account_indices c).2) as H3.
  { clear - Hprograms. intros lowest c. unfold run_and_verify. destruct (get_account_key _ _) as [id|]; [|done].
    pose proof (chain_same_keys (ci_data ix) (set_return_data (id, []) c)) as H4.
    destruct (process_executable_chain _ _ _ _) as [r c1]. cbn in H4.
    assert (same_addresses c c1) as H5 by (etransitivity; [|exact H4]; by destruct c).
    destruct r as [[]| |]; cbn; [|done..]. destruct lowest.
    - pose proof (verify_same_keys message ix program_indices c1). destruct (verify _ _ _ _). by etransitivity.
    - match goal with |- context [?m c1] => assert (always same_addresses m) as H6; [|specialize (H6 c1); destruct (m c1)] end.
      { apply always_bind; [apply _|by apply always_same; [apply _|]|]. intros. apply verify_and_update_same_keys. }
      by etransitivity. }
  specialize (H3 (bool_decide (invoke_stack c = [])) c2). destruct (run_and_verify _ _ _ _ _ _ _ c2) as [r c3]. cbn in *.
  etransitivity; [exact H1|]. etransitivity; [exact H2|]. etransitivity; [exact H3|apply Hpop].
Qed.

Lemma record_same_keys ix c : same_addresses c (record_top_level_instruction ix c).
Proof. unfold record_top_level_instruction, record_instruction. destruct c. cbn. by destruct (last _). Qed.

Lemma fix_instructions_same_keys {E} message i c c' :
  fix_instructions_account (E := E) message i c = Ok c' -> same_addresses c c'.
Proof.
  unfold fix_instructions_account. destruct (list_find _ _) as [[j [k a]]|] eqn:Hf; [|by intros [= <-]].
  intros. ok_inv. apply list_find_Some in Hf as (Hj & _ & _). apply lookup_take_Some in Hj as [Hj _].
  unfold same_addresses. destruct c. cbn in *. rewrite list_fmap_insert. cbn. apply list_insert_id.
  by rewrite list_lookup_fmap, Hj.
Qed.

Lemma process_instructions_same_keys message i ixs units c :
  same_addresses c (process_instructions b message i ixs units c).2.
Proof.
  revert i units c. induction ixs as [|[[id ix] indices] ixs IH]; intros i units c; cbn [process_instructions]; [done|].
  destruct (decompile ix message) as [ins| |]; [|done..].
  pose proof (record_same_keys ins c) as H1. set (c1 := record_top_level_instruction ins c) in *.
  destruct (_ && _); [etransitivity; [exact H1|apply IH]|].
  destruct (fix_instructions_account _ _ _) as [c2| |] eqn:Hf; [|done..]. apply fix_instructions_same_keys in Hf.
  pose proof (process_instruction_same_keys message ix indices [] [] c2) as H3.
  destruct (process_instruction _ _ _ _ _ _ _ _) as [r c3]. cbn in H3.
  assert (same_addresses c c3) as H4 by (etransitivity; [exact H1|]; etransitivity; [exact Hf|exact H3]).
  destruct (pir_result r); [etransitivity; [exact H4|apply IH]|done..].
Qed.

(** An executed transaction has the accounts it was loaded with, in their order. *)
Lemma execute_same_keys tx load len result load' len' loaded :
  execute_one b tx load len = Ok (result, load', len') -> load'.1 = Ok loaded ->
  exists loaded0, load.1 = Ok loaded0 /\ (lt_accounts loaded).*1 = (lt_accounts loaded0).*1.
Proof.
  unfold execute_one. destruct load as [[loaded0|e|] nonce]; [|by intros [= <- <- <-] [=]|done].
  destruct (if is_active _ _ then _ else _) as [[fee| |] budget]; [|by intros [= <- <- <-] [= ->]; exists loaded|done].
  intros Hx Hl. exists loaded0. split; [done|]. ok_inv. destruct x as [[r l] n]. ok_inv. cbn in *. simplify_eq.
  match goal with H : execute_loaded_transaction _ _ _ _ _ _ = _ |- _ => unfold execute_loaded_transaction in H end. ok_inv.
  match goal with H : context [process_message ?b ?m ?pi ?a ?bud ?h ?lps ?len] |- _ =>
    assert (same_addresses (InvokeContext_new (rc_rent (tb_rent_collector b)) a (tb_sysvar_cache b) bud (tb_feature_set b) h lps len)
              (process_message b m pi a bud h lps len).2) as Hk
      by (unfold process_message; destruct (program_instructions_iter _); [apply process_instructions_same_keys|done..])
  end.
  destruct (process_message _ _ _ _ _ _ _ _) as [[r1 u] c]. ok_inv. exact Hk.
Qed.

(** ** Loading *)

Lemma load_keys_same_keys ledger m entries s s' :
  load_keys b ledger m entries s = Ok s' -> (ls_accounts s').*1 = (ls_accounts s).*1 ++ entries.*2.
Proof.
  revert s. induction entries as [|[i key] entries IH]; intros s H1; cbn [load_keys] in H1.
  - injection H1 as <-. by rewrite app_nil_r.
  - ok_inv. rewrite (IH _ H2). clear IH H2. unfold load_key in H1.
    assert ((ls_accounts x).*1 = (ls_accounts s).*1 ++ [key]) as ->; [|by rewrite <-app_assoc].
    destruct (negb _); [injection H1 as <-; cbn; by rewrite fmap_app|].
    destruct (key =? _); ok_inv; [cbn; by rewrite fmap_app|]. destruct x0 as [a r]. ok_inv. cbn. by rewrite fmap_app.
Qed.

Lemma load_chain_prefix ledger depth id accounts indices accounts' indices' :
  load_chain ledger depth id accounts indices = Ok (accounts', indices') -> exists rest, accounts' = accounts ++ rest.
Proof.
  revert id accounts indices. induction depth as [|depth IH]; intros id accounts indices; cbn [load_chain].
  - destruct (_ =? _); [|done]. intros [= <- <-]. exists []. by rewrite app_nil_r.
  - destruct (_ =? _); [intros [= <- <-]; exists []; by rewrite app_nil_r|].
    destruct (ledger !! id) as [p|]; [|done]. destruct (negb _); [done|]. destruct (_ =? _).
    + destruct (account_state p) as [[]| |]; try done. destruct (ledger !! _); [|done].
      intros (rest & ->)%IH. eexists. rewrite <-!app_assoc. done.
    + intros (rest & ->)%IH. eexists. by rewrite <-app_assoc.
Qed.

Lemma load_programs_prefix ledger ixs accounts accounts' indices :
  load_programs ledger ixs accounts = Ok (accounts', indices) -> exists rest, accounts' = accounts ++ rest.
Proof.
  revert accounts accounts' indices. induction ixs as [|ix ixs IH]; intros accounts accounts' indices H1; cbn in H1.
  - injection H1 as <- <-. exists []. by rewrite app_nil_r.
  - ok_inv. destruct x as [a1 i1]. ok_inv. destruct x as [a2 i2]. ok_inv.
    match goal with H : load_programs _ _ _ = _ |- _ => apply IH in H as (r2 & ->) end.
    match goal with H : load_executable_accounts _ _ _ = _ |- _ => unfold load_executable_accounts in H end. ok_inv.
    match goal with H : load_chain _ _ _ _ _ = _ |- _ => apply load_chain_prefix in H as (r1 & ->) end.
    exists (r1 ++ r2). by rewrite app_assoc.
Qed.

(** The accounts of a loaded transaction begin with those of its message. *)
Lemma load_transaction_keys ledger tx fee loaded :
  load_transaction b ledger tx fee = Ok loaded ->
  (take (sm_account_keys_len (tx_message tx)) (lt_accounts loaded)).*1 = account_keys_iter (tx_message tx).
Proof.
  unfold load_transaction. intros. ok_inv.
  match goal with H : load_keys _ _ _ _ _ = _ |- _ => apply load_keys_same_keys in H; cbn in H end.
  destruct (ls_payer_index x) as [i|]; [|done]. ok_inv. destruct x2 as [accounts indices]. ok_inv. cbn.
  match goal with H : load_programs _ _ _ = _ |- _ => apply load_programs_prefix in H as (rest & ->) end.
  rewrite imap_pair_snd in H1. rewrite sm_account_keys_len_iter, <-H1, length_fmap, fmap_take, fmap_app, list_fmap_insert.
  cbn. rewrite list_insert_id; [|by rewrite list_lookup_fmap; match goal with H : _ !! i = Some _ |- _ => rewrite H end].
  rewrite fmap_app, <-app_assoc, take_app_le by (by rewrite length_fmap). by rewrite take_ge by (by rewrite length_fmap).
Qed.

(** ** What loading reads *)

Definition agree_on (ledger ledger' : Ledger) (ks : list Pubkey) : Prop := Forall (fun k => ledger' !! k = ledger !! k) ks.

(** The program data that the state of a program names. *)
Definition programdata_of (a : AccountSharedData) : option Pubkey :=
  match account_state (T := UpgradeableLoaderState) a with Ok (LoaderProgram pd) => Some pd | _ => None end.

Fixpoint chain_reads (ledger : Ledger) (depth : nat) (id : Pubkey) : list Pubkey :=
  if id =? native_loader_id then []
  else
    match depth with
    | O => []
    | S depth =>
        id :: match ledger !! id with
              | None => []
              | Some p => option_list (programdata_of p) ++ chain_reads ledger depth (owner p)
              end
    end.

(** The accounts beside its own that loading a message reads: program data and the chains of its programs. *)
Definition program_reads (ledger : Ledger) (m : SanitizedMessage) : list Pubkey :=
  omap (fun k => ledger !! k ≫= programdata_of) (account_keys_iter m) ++
  mjoin ((fun ix => match account_keys_iter m !! Z.to_nat (ci_program_id_index ix) with
                    | Some id => chain_reads ledger MAX_CHAIN_DEPTH id
                    | None => []
                    end) <$> sm_instructions m).

Definition load_reads (ledger : Ledger) (tx : SanitizedTransaction) : list Pubkey :=
  account_keys_iter (tx_message tx) ++ program_reads ledger (tx_message tx).

(** A sanitized message calls programs among its keys. *)
Definition programs_in_range (m : SanitizedMessage) : Prop :=
  Forall (fun ix => (Z.to_nat (ci_program_id_index ix) < length (account_keys_iter m))%nat) (sm_instructions m).

Lemma chain_reads_agree ledger ledger' depth id :
  agree_on ledger ledger' (chain_reads ledger depth id) -> chain_reads ledger' depth id = chain_reads ledger depth id.
Proof.
  revert id. induction depth as [|depth IH]; intros id; cbn [chain_reads]; [done|]. destruct (_ =? _); [done|].
  intros [Hid Hrest]%Forall_cons. f_equal. rewrite Hid. destruct (ledger !! id) as [p|]; [|done].
  apply Forall_app in Hrest as [_ Hrest]. by rewrite IH.
Qed.

Lemma load_chain_agree ledger ledger' depth id accounts indices :
  agree_on ledger ledger' (chain_reads ledger depth id) ->
  load_chain ledger' depth id accounts indices = load_chain ledger depth id accounts indices.
Proof.
  revert id accounts indices. induction depth as [|depth IH]; intros id accounts indices; cbn [chain_reads load_chain]; [done|].
  destruct (_ =? _); [done|]. intros [Hid Hrest]%Forall_cons. rewrite Hid. destruct (ledger !! id) as [p|]; [|done].
  apply Forall_app in Hrest as [Hpd Hrest]. destruct (negb _); [done|]. destruct (owner p =? _); [|by apply IH].
  unfold programdata_of in Hpd. destruct (account_state p) as [[]| |]; try done.
  cbn in Hpd. rewrite Forall_singleton in Hpd. rewrite Hpd. destruct (ledger !! _); [|done]. by apply IH.
Qed.

Lemma load_programs_agree ledger ledger' keys ixs accounts :
  take (length keys) accounts.*1 = keys ->
  Forall (fun ix => (Z.to_nat (ci_program_id_index ix) < length keys)%nat) ixs ->
  agree_on ledger ledger' (mjoin ((fun ix => match keys !! Z.to_nat (ci_program_id_index ix) with
                                              | Some id => chain_reads ledger MAX_CHAIN_DEPTH id
                                              | None => []
                                              end) <$> ixs)) ->
  load_programs ledger' ixs accounts = load_programs ledger ixs accounts.
Proof.
  revert accounts. induction ixs as [|ix ixs IH]; intros accounts Hk Hr Ha; [done|]. cbn [load_programs].
  apply Forall_cons in Hr as [Hr Hrs]. cbn -[chain_reads] in Ha. apply Forall_app in Ha as [Ha Has].
  unfold load_executable_accounts. destruct (accounts !! _) as [[id a]|] eqn:Hi; [|done]. cbn -[load_chain].
  assert (keys !! Z.to_nat (ci_program_id_index ix) = Some id) as Hid.
  { rewrite <-Hk, lookup_take_lt, list_lookup_fmap, Hi by done. done. }
  rewrite Hid in Ha. rewrite (load_chain_agree _ _ _ _ _ _ Ha).
  destruct (load_chain _ _ _ _ _) as [[accounts' indices]| |] eqn:Hc; [|done..]. cbn -[load_chain].
  rewrite IH; [done| |done|done]. apply load_chain_prefix in Hc as (rest & ->).
  rewrite fmap_app, take_app_le; [done|]. rewrite <-Hk at 1. rewrite length_take, length_fmap. lia.
Qed.

Lemma collect_data rc key sysvars filler a :
  let a' := (collect_from_existing_account rc key sysvars filler a).2 in
  a' = AccountSharedData_default \/ data a' = data a.
Proof.
  unfold collect_from_existing_account, collect_due. destruct (can_skip_rent_collection _ _ _ _ _); [by right|].
  destruct (get_rent_due rc a) as [|[]]; cbn; try (by right); destruct (_ =? 0); cbn; auto.
Qed.

Lemma load_account_programdata {E} ledger m i key account rent pd :
  load_account (E := E) b ledger m i key = Ok (account, rent) -> owner account = bpf_loader_upgradeable_id ->
  programdata_of account = Some pd -> ledger !! key ≫= programdata_of = Some pd.
Proof.
  unfold load_account. intros Hl Ho Hp. destruct (ledger !! key) as [a|]; [|by injection Hl as <- <-].
  ok_inv. cbn. destruct x; [|by simplify_eq].
  destruct (collect_from_existing_account _ _ _ _ _) as [info a'] eqn:Hc.
  pose proof (collect_data (tb_rent_collector b) key (is_active (tb_feature_set b) rent_for_sysvars)
                (tb_filler_account_suffix b) a) as Hd.
  rewrite Hc in Hd. cbn in Hd. simplify_eq. destruct Hd as [->|Hd]; [done|].
  unfold programdata_of, account_state in *. by rewrite Hd in Hp.
Qed.

Lemma load_keys_agree ledger ledger' m entries s :
  agree_on ledger ledger' entries.*2 -> agree_on ledger ledger' (omap (fun k => ledger !! k ≫= programdata_of) entries.*2) ->
  load_keys b ledger' m entries s = load_keys b ledger m entries s.
Proof.
  revert s. induction entries as [|[i key] entries IH]; intros s; [done|]. cbn [load_keys fmap list_fmap snd].
  intros [Hk Hks]%Forall_cons Hp.
  assert (load_key b ledger' m s (i, key) = load_key b ledger m s (i, key)) as ->.
  { unfold load_key. destruct (negb _); [done|]. destruct (key =? _); [done|].
    assert (load_account (E := TransactionError) b ledger' m i key = load_account b ledger m i key) as ->
      by (unfold load_account; by rewrite Hk).
    destruct (load_account _ _ _ _ _) as [[account rent]| |] eqn:Hl; [|done..]. cbn.
    assert (load_account_deps ledger' m i account = load_account_deps ledger m i account) as ->; [|done].
    unfold load_account_deps. destruct (sm_is_writable m i); [|done..]. cbn.
    destruct (owner account =? bpf_loader_upgradeable_id) eqn:Ho; [|done]. destruct (_ && _); [done|].
    destruct (executable account); [|done]. destruct (account_state account) as [[]| |] eqn:Hs; try done.
    apply Z.eqb_eq in Ho. eapply load_account_programdata in Hl; [|done|unfold programdata_of; by rewrite Hs].
    cbn in Hp. rewrite Hl in Hp. apply Forall_cons in Hp as [-> _]. done. }
  destruct (load_key _ _ _ _ _); [|done..]. cbn. apply IH; [done|].
  cbn in Hp. destruct (ledger !! key ≫= _); [apply Forall_cons in Hp as [_ Hp]|]; exact Hp.
Qed.

Lemma load_transaction_agree ledger ledger' tx fee :
  agree_on ledger ledger' (load_reads ledger tx) -> programs_in_range (tx_message tx) ->
  load_transaction b ledger' tx fee = load_transaction b ledger tx fee.
Proof.
  intros Ha Hr. unfold load_transaction. apply Forall_app in Ha as [Hk [Hd Hc]%Forall_app].
  rewrite (load_keys_agree ledger) by (by rewrite imap_pair_snd).
  destruct (load_keys _ _ _ _ _) as [s| |] eqn:Hl; [|done..]. cbn.
  destruct (ls_payer_index s) as [i|]; [|done]. destruct (_ !! i) as [payer|] eqn:Hi; [|done]. cbn.
  destruct (charge_fee_payer _ _ _ _) as [pa| |]; [|done..]. cbn.
  erewrite (load_programs_agree ledger); [done| |exact Hr|exact Hc].
  apply load_keys_same_keys in Hl. rewrite imap_pair_snd in Hl. cbn in Hl.
  rewrite list_fmap_insert. cbn. rewrite list_insert_id by (by rewrite list_lookup_fmap, Hi).
  by rewrite fmap_app, Hl, take_app_length.
Qed.

Lemma load_one_agree ledger ledger' tx check :
  agree_on ledger ledger' (load_reads ledger tx) -> programs_in_range (tx_message tx) ->
  load_one b ledger' tx check = load_one b ledger tx check.
Proof.
  intros Ha Hr. unfold load_one, load_checked. destruct check as [[[]| |] nonce]; cbn; [|done..].
  destruct nonce as [nonce|].
  - destruct (lamports_per_signature_of _); [|done]. destruct (calculate_fee _ _ _); [|done..]. cbn.
    by rewrite (load_transaction_agree ledger).
  - destruct (queue_lamports_per_signature _ _); [|done]. destruct (calculate_fee _ _ _); [|done..]. cbn.
    by rewrite (load_transaction_agree ledger).
Qed.

Lemma load_reads_agree ledger ledger' tx :
  agree_on ledger ledger' (load_reads ledger tx) -> load_reads ledger' tx = load_reads ledger tx.
Proof.
  unfold load_reads, program_reads. intros [Hk [Hd Hc]%Forall_app]%Forall_app. f_equal. f_equal.
  - clear Hd Hc. induction Hk as [|k keys Hk _ IH]; [done|]. cbn. by rewrite Hk, IH.
  - clear Hd. induction (sm_instructions (tx_message tx)) as [|ix ixs IH]; [done|]. cbn -[chain_reads] in *.
    apply Forall_app in Hc as [Hc Hcs]. f_equal; [|by apply IH].
    destruct (_ !! _); [by apply chain_reads_agree|done].
Qed.

(** ** What a commit writes *)

Lemma store_steps_keys {E} tx status nonce durable lps entries s s' :
  store_steps (E := E) b (tx_message tx) status nonce durable lps entries s = Ok s' ->
  Forall (fun e => account_keys_iter (tx_message tx) !! e.1 = Some e.2.1) entries ->
  exists new, ss_stores s' = ss_stores s ++ new /\ Forall (may_write tx) new.*1.
Proof.
  revert s. induction entries as [|[i [address account]] entries IH]; intros s H1 Hk; cbn [store_steps] in H1.
  - injection H1 as <-. exists []. by rewrite app_nil_r.
  - apply Forall_cons in Hk as [Hk Hks]. cbn in Hk. ok_inv.
    match goal with H : store_steps _ _ _ _ _ _ _ _ = _ |- _ => apply IH in H as (new & Hn & Hnew); [|done] end.
    assert (exists first, ss_stores x = ss_stores s ++ first /\ Forall (may_write tx) first.*1) as (first & Hf & Hfirst).
    { match goal with H : store_step _ _ _ _ _ _ _ _ = _ |- _ => unfold store_step in H; rename H into Hs end.
      destruct (negb _); [injection Hs as <-; exists []; by rewrite app_nil_r|]. ok_inv.
      destruct x0; [|ok_inv; exists []; cbn; by rewrite app_nil_r]. ok_inv. destruct x0 as [is_nonce account'].
      destruct (_ || _); [|ok_inv; exists []; cbn; by rewrite app_nil_r].
      destruct (if _ =? _ then _ else _) as [rent account'']. ok_inv. exists [(address, account'')]. split; [done|].
      apply Forall_singleton. cbn. by eapply may_write_index. }
    exists (first ++ new). rewrite Hn, Hf, app_assoc. split; [done|]. rewrite fmap_app. by apply Forall_app.
Qed.

(** Only a loaded and executed transaction stores accounts, and only those it may write. *)
Lemma accounts_to_store_keys {E} durable lps tx result load stores rent :
  accounts_to_store (E := E) b durable lps tx result load = Ok (stores, rent) ->
  (forall loaded, load.1 = Ok loaded ->
     (take (sm_account_keys_len (tx_message tx)) (lt_accounts loaded)).*1 = account_keys_iter (tx_message tx)) ->
  Forall (may_write tx) stores.*1 /\ (stores <> [] -> is_Some (ok load.1)).
Proof.
  unfold accounts_to_store. intros Hs Hk. destruct load as [[loaded| |] nonce]; [|by ok_inv..].
  split; [|by eexists]. specialize (Hk loaded eq_refl). cbn in Hk. destruct result as [details|]; [|by ok_inv].
  destruct (nonce_to_store _ _ _) as [maybe|]; [|by ok_inv]. ok_inv.
  match goal with H : store_steps _ _ _ _ _ _ _ _ = _ |- _ => apply store_steps_keys in H as (new & -> & Hnew); [done|] end.
  apply Forall_lookup. intros j [i [address account]]. rewrite list_lookup_imap.
  destruct (take _ _ !! j) as [[k a]|] eqn:Hj; [|done]. cbn. intros [= <- <- <-]. cbn.
  by rewrite <-Hk, list_lookup_fmap, Hj.
Qed.

Lemma store_all_lookup stores ledger k : k ∉ stores.*1 -> store_all stores ledger !! k = ledger !! k.
Proof.
  unfold store_all. revert ledger. induction stores as [|[x a] stores IH]; intros ledger; [done|].
  cbn. intros [Hx Hs]%not_elem_of_cons. rewrite IH by done. by apply lookup_insert_ne.
Qed.

Lemma store_all_app stores1 stores2 ledger :
  store_all (stores1 ++ stores2) ledger = store_all stores2 (store_all stores1 ledger).
Proof. apply foldl_app. Qed.

Lemma store_all_insert stores ledger k a :
  k ∉ stores.*1 -> store_all stores (<[k := a]> ledger) = <[k := a]> (store_all stores ledger).
Proof.
  unfold store_all. revert ledger. induction stores as [|[x y] stores IH]; intros ledger; [done|].
  cbn. intros [Hx Hs]%not_elem_of_cons. rewrite <-IH by done. by rewrite insert_insert_ne by congruence.
Qed.

(** A withdrawal depends on one account and changes no other. *)
Lemma bank_withdraw_Ok k n ledger ledger' :
  withdraw b k n ledger = Ok ledger' ->
  exists a, ledger !! k = Some a /\ n <= lamports a /\ ledger' = <[k := stored_account (set_lamports (lamports a - n) a)]> ledger /\
    forall ledger2, ledger2 !! k = Some a -> withdraw b k n ledger2 = Ok (<[k := stored_account (set_lamports (lamports a - n) a)]> ledger2).
Proof.
  unfold withdraw. destruct (ledger !! k) as [a|] eqn:Hk; [|done]. intros Hw. exists a. split; [done|].
  destruct (lamports a =? 0) eqn:H0'; [done|]. ok_inv.
  match goal with H : _ = Ok x, H' : _ = Ok ledger' |- _ => rename H into Hmin, H' into Hw end.
  destruct (checked_add64 n x) as [r|] eqn:Hr; [|done]. destruct (r <=? lamports a) eqn:Hle; [|done].
  destruct (checked_sub_lamports n a) as [[[]| |] a'] eqn:Hs; [|done..].
  injection Hw as <-. apply checked_sub_lamports_Ok in Hs as Hs'. destruct Hs' as [-> Hn]. split; [done|]. split; [done|].
  intros ledger2 ->. rewrite H0', Hmin. cbn. by rewrite Hr, Hle, Hs.
Qed.

Lemma withdraw_same k n ledger ledger2 :
  ledger2 !! k = ledger !! k ->
  (forall e, withdraw b k n ledger = Err e -> withdraw b k n ledger2 = Err e).
Proof.
  unfold withdraw. intros ->. destruct (ledger !! k) as [a|]; [|done]. intros e.
  destruct (lamports a =? 0); [done|]. destruct (match get_system_account_kind a with Ok _ => _ | Err _ => _ | Panic => _ end);
    [|done..]. cbn. destruct (checked_add64 _ _); [|done]. destruct (_ <=? _); [|done].
  by destruct (checked_sub_lamports _ _) as [[]].
Qed.

(** What collecting a fee does to a ledger: nothing, or one account is replaced. *)
Definition patch (p : option (Pubkey * AccountSharedData)) (ledger : Ledger) : Ledger :=
  match p with Some (k, a) => <[k := a]> ledger | None => ledger end.

(** Collecting a fee depends only on the account of the fee payer. *)
Lemma collect_fee_frame tx result ledger ledger2 :
  (forall k, get_account_key (tx_message tx) 0 = Some k -> ledger2 !! k = ledger !! k) ->
  match collect_fee b tx result ledger with
  | Ok (fee, ledger') => exists p, ledger' = patch p ledger /\ collect_fee b tx result ledger2 = Ok (fee, patch p ledger2) /\
      forall k a, p = Some (k, a) -> get_account_key (tx_message tx) 0 = Some k
  | Err e => collect_fee b tx result ledger2 = Err e
  | Panic => True
  end.
Proof.
  intros Hk. unfold collect_fee. destruct result as [details|e]; [|done].
  destruct (match ed_durable_nonce_fee details with Some _ => _ | None => _ end) as [lps is_nonce].
  destruct (ok_or BlockhashNotFound lps) as [rate| |]; [|done..]. cbn.
  destruct (match calculate_fee _ _ _ with Ok _ => _ | Err _ => _ | Panic => _ end) as [fee| |]; [|done..]. cbn.
  destruct (negb _ && _); [|by exists None].
  destruct (get_account_key (tx_message tx) 0) as [payer|]; [|done]. cbn. specialize (Hk payer eq_refl).
  destruct (withdraw b payer fee ledger) as [ledger'|e|] eqn:Hw; [|by rewrite (withdraw_same _ _ _ _ Hk _ Hw)|done]. cbn.
  apply bank_withdraw_Ok in Hw as (a & Ha & _ & -> & Hw). rewrite Ha in Hk. rewrite (Hw _ Hk). cbn.
  exists (Some (payer, stored_account (set_lamports (lamports a - fee) a))). split_and!; [done..|]. by intros k x [= <- <-].
Qed.

Lemma patch_store p stores ledger :
  (forall k a, p = Some (k, a) -> k ∉ stores.*1) -> patch p (store_all stores ledger) = store_all stores (patch p ledger).
Proof. destruct p as [[k a]|]; [|done]. intros Hk. cbn. by rewrite store_all_insert by eauto. Qed.

(** ** One transaction of a batch *)

(** The transaction passed its checks. *)
Definition checked (check : TransactionCheckResult) : Prop := is_ok check.1 = true.

(** The fee payer is an account the transaction may write. *)
Definition payer_writable (tx : SanitizedTransaction) : Prop :=
  forall k, get_account_key (tx_message tx) 0 = Some k -> may_write tx k.

Lemma load_checked_Ok ledger tx nonce loaded nonce' :
  load_checked b ledger tx nonce = Ok (loaded, nonce') -> exists fee, load_transaction b ledger tx fee = Ok loaded.
Proof.
  unfold load_checked. destruct nonce as [nonce|].
  - destruct (lamports_per_signature_of _); [|done]. intros. ok_inv. eauto.
  - destruct (queue_lamports_per_signature _ _); [|done]. intros. ok_inv. eauto.
Qed.

Lemma load_execute_keys ledger tx check load len result load' len' loaded :
  load_one b ledger tx check = Ok load -> execute_one b tx load len = Ok (result, load', len') -> load'.1 = Ok loaded ->
  (take (sm_account_keys_len (tx_message tx)) (lt_accounts loaded)).*1 = account_keys_iter (tx_message tx).
Proof.
  intros Hl Hx Hok. eapply execute_same_keys in Hx as (loaded0 & H1 & H2); [|done].
  rewrite fmap_take, H2, <-fmap_take. unfold load_one in Hl. destruct check as [[[]| |] nonce]; cbn in Hl; simplify_eq.
  destruct (load_checked _ _ _ _) as [[l n]| |] eqn:Hc; simplify_eq; cbn in *; simplify_eq.
  apply load_checked_Ok in Hc as (fee & Hc). by eapply load_transaction_keys.
Qed.

(** The effects of one transaction: it stores accounts it may write, and without
    passing its checks it is not executed and stores nothing. *)
Lemma one_effects {E} ledger tx check load len result load' len' durable lps stores rent :
  load_one b ledger tx check = Ok load -> execute_one b tx load len = Ok (result, load', len') ->
  accounts_to_store (E := E) b durable lps tx result load' = Ok (stores, rent) ->
  Forall (may_write tx) stores.*1 /\ (~ checked check -> stores = [] /\ exists e, result = NotExecuted e).
Proof.
  intros Hl Hx Hs. split.
  - eapply accounts_to_store_keys in Hs as [Hs _]; [done|]. intros. by eapply load_execute_keys.
  - intros Hc. unfold checked, load_one in *. destruct check as [[[]|e|] nonce]; cbn in *; simplify_eq.
    cbn in Hx. simplify_eq. cbn in Hs. simplify_eq. eauto.
Qed.

(** The stores of a batch are of accounts that its checked transactions may write. *)
Lemma batch_stores {E} ledger txs checks loads len executed len' durable lps stored :
  load_accounts b ledger txs checks = Ok loads -> execute_each b (zip txs loads) len = Ok (executed, len') ->
  zip_with_outcome (E := E) (fun tx e => accounts_to_store b durable lps tx e.1 e.2) txs executed = Ok stored ->
  forall k, k ∈ (mjoin (fst <$> stored)).*1 -> exists tx check, (tx, check) ∈ zip txs checks /\ checked check /\ may_write tx k.
Proof.
  unfold load_accounts. revert checks loads len executed stored.
  induction txs as [|tx txs IH]; intros [|check checks] loads len executed stored Hl Hx Hs; cbn in Hl; simplify_eq.
  1, 2: cbn in *; simplify_eq; cbn in *; set_solver.
  { cbn in Hx. simplify_eq. cbn in Hs. simplify_eq. set_solver. }
  ok_inv. cbn in Hx. ok_inv. destruct x1 as [[result load'] len1]. ok_inv. destruct x1 as [executed len2]. ok_inv.
  cbn in Hs. ok_inv. destruct x1 as [stores rent]. cbn. intros k Hk. rewrite fmap_app, elem_of_app in Hk.
  destruct Hk as [Hk|Hk].
  - eapply one_effects in H1 as [Hw Hn]; [|done..]. exists tx, check. split; [set_solver|].
    destruct (decide (is_ok check.1 = true)) as [Hc|Hc]; [|by destruct (Hn Hc) as [-> _]; set_solver].
    split; [done|]. rewrite Forall_forall in Hw. by apply Hw.
  - edestruct IH as (tx' & c' & Hin & ?); [done..|exact Hk|]. exists tx', c'. split; [set_solver|done].
Qed.

(** ** A batch is serial *)

(** Neither transaction may write what loading the other reads. *)
Definition independent (ledger : Ledger) (p q : SanitizedTransaction * TransactionCheckResult) : Prop :=
  checked p.2 -> checked q.2 ->
  (forall k, may_write p.1 k -> k ∉ load_reads ledger q.1) /\ (forall k, may_write q.1 k -> k ∉ load_reads ledger p.1).

(** The transactions of a batch, each in a batch of its own. *)
Fixpoint one_by_one (txs : list SanitizedTransaction) (checks : list TransactionCheckResult) (s : BankState)
  : outcome fuel_error (list TransactionExecutionResult * list TransactionResult * BankState) :=
  match txs, checks with
  | tx :: txs, check :: checks =>
      first ← process_batch b [tx] [check] s;
      let '(results1, fees1, s) := first in
      rest ← one_by_one txs checks s;
      let '(results, fees, s) := rest in
      Ok (results1 ++ results, fees1 ++ fees, s)
  | _, _ => Ok ([], [], s)
  end.

Abbreviation TransactionLoadResult := (outcome TransactionError LoadedTransaction * option NonceFull)%type.

(** The rent of a batch, from a start value. *)
Definition rent_total (x : Z)
    (l : list ((TransactionExecutionResult * TransactionLoadResult) * (list (Pubkey * AccountSharedData) * Z))) : Z :=
  foldl (fun total '(e, st) => if was_executed_successfully e.1 then add64 total st.2 else total) x l.

Lemma u64_shift a x c d y : as_u64 (a + add64 x c) = as_u64 (d + add64 y c) -> as_u64 (a + x) = as_u64 (d + y).
Proof. unfold add64. rewrite !as_u64_add_r. unfold as_u64. intros Hm. Z.div_mod_to_equations. lia. Qed.

Lemma rent_total_shift l x y : as_u64 (rent_total x l + y) = as_u64 (rent_total y l + x).
Proof.
  revert x y. induction l as [|[[r ld] [st rent]] l IH]; intros x y; [cbn; by rewrite Z.add_comm|]. cbn [rent_total foldl fst snd].
  destruct (was_executed_successfully r); [|by apply IH]. eapply u64_shift. apply IH.
Qed.

Lemma fees_shift batch fees fees2 ledger results fees' ledger' :
  filter_program_errors_and_collect_fee b batch fees ledger = Ok (results, fees', ledger') ->
  exists fees2', filter_program_errors_and_collect_fee b batch fees2 ledger = Ok (results, fees2', ledger') /\
    as_u64 (fees' + fees2) = as_u64 (fees2' + fees).
Proof.
  revert fees fees2 ledger results fees' ledger'.
  induction batch as [|[tx result] batch IH]; intros fees fees2 ledger results fees' ledger' Hf.
  { cbn in Hf. injection Hf as <- <- <-. exists fees2. split; [done|]. by rewrite Z.add_comm. }
  cbn [filter_program_errors_and_collect_fee] in *.
  destruct (collect_fee b tx result ledger) as [[fee ledger1]|e|]; [| |done];
    cbn -[filter_program_errors_and_collect_fee] in *; ok_inv; destruct x as [[rs f] l]; ok_inv.
  - apply (IH _ (add64 fees2 fee)) in H1 as (f0 & -> & Heq). cbn. exists f0. split; [done|]. by eapply u64_shift.
  - apply (IH _ fees2) in H1 as (f0 & -> & Heq). cbn. eauto.
Qed.

Lemma add64_shift r a c y : as_u64 (a + 0) = as_u64 (c + y) -> add64 r a = add64 (add64 r y) c.
Proof.
  rewrite Z.add_0_r. intros Ha. unfold add64. rewrite <-(as_u64_add_r r a), Ha, as_u64_add_r, as_u64_add_l. f_equal. lia.
Qed.

Lemma load_accounts_agree ledger ledger' txs checks :
  Forall (fun p => checked p.2 -> agree_on ledger ledger' (load_reads ledger p.1) /\ programs_in_range (tx_message p.1))
    (zip txs checks) ->
  load_accounts b ledger' txs checks = load_accounts b ledger txs checks.
Proof.
  unfold load_accounts. revert checks. induction txs as [|tx txs IH]; intros [|check checks] Ha; try done. cbn.
  apply Forall_cons in Ha as [Ha Has]. rewrite IH by done.
  assert (load_one b ledger' tx check = load_one b ledger tx check) as ->; [|done].
  destruct (decide (is_ok check.1 = true)) as [Hc|Hc]; [destruct (Ha Hc); by apply load_one_agree|].
  unfold load_one. by destruct check as [[]].
Qed.

(** The stores of one transaction of a batch, with the constants of the commit. *)
Definition commit_stores (hash : Hash) (lps : Z) (tx : SanitizedTransaction)
    (e : TransactionExecutionResult * TransactionLoadResult) : outcome fuel_error (list (Pubkey * AccountSharedData) * Z) :=
  let separate := is_active (tb_feature_set b) separate_nonce_from_blockhash in
  accounts_to_store b (DurableNonce_from_blockhash (tb_sha256 b) hash separate, separate) lps tx e.1 e.2.

(** The stages of a batch that returns. *)
Lemma process_batch_stages txs checks s results frs s2 :
  process_batch b txs checks s = Ok (results, frs, s2) <->
  exists loads executed len hash lps stored fees ledger,
    load_accounts b (bs_ledger s) txs checks = Ok loads /\
    execute_each b (zip txs loads) (bs_accounts_data_len s) = Ok (executed, len) /\
    bq_last_hash (tb_blockhash_queue b) = Some hash /\
    queue_lamports_per_signature (tb_blockhash_queue b) hash = Some lps /\
    zip_with_outcome (commit_stores hash lps) txs executed = Ok stored /\
    filter_program_errors_and_collect_fee b (zip txs executed.*1) 0 (store_all (mjoin stored.*1) (bs_ledger s))
      = Ok (frs, fees, ledger) /\
    results = executed.*1 /\
    s2 = mkBankState ledger len (add64 (bs_collected_rent s) (rent_total 0 (zip executed stored)))
           (add64 (bs_collector_fees s) fees).
Proof.
  unfold process_batch, commit_transactions, last_hash. split.
  - intros Hp. destruct (load_accounts _ _ _ _) as [loads| |]; [|done..]. cbn in Hp.
    destruct (execute_each _ _ _) as [[executed len]| |] eqn:Hx; [|done..]. cbn in Hp.
    destruct (bq_last_hash _) as [hash|]; [|done]. cbn in Hp.
    destruct (queue_lamports_per_signature _ _) as [lps|] eqn:Hq; [|done]. cbn in Hp. fold (commit_stores hash lps) in Hp.
    destruct (zip_with_outcome _ _ _) as [stored| |] eqn:Hs; [|done..]. cbn in Hp.
    destruct (filter_program_errors_and_collect_fee _ _ _ _) as [[[r f] l]| |] eqn:Hf; [|done..]. cbn in Hp.
    injection Hp as <- <- <-. by eexists loads, executed, len, hash, lps, stored, f, l.
  - intros (loads & executed & len & hash & lps & stored & fees & ledger & -> & Hx & -> & Hq & Hs & Hf & -> & ->).
    cbn. rewrite Hx. cbn. rewrite Hq. cbn. fold (commit_stores hash lps). rewrite Hs. cbn. rewrite Hf. done.
Qed.

Lemma store_of_others tx check txs checks ledger loads len executed len' hash lps stored k :
  load_accounts b ledger txs checks = Ok loads -> execute_each b (zip txs loads) len = Ok (executed, len') ->
  zip_with_outcome (commit_stores hash lps) txs executed = Ok stored ->
  Forall (independent ledger (tx, check)) (zip txs checks) -> checked check ->
  k ∈ account_keys_iter (tx_message tx) -> k ∉ (mjoin stored.*1).*1.
Proof.
  intros Hl Hx Hs Hind Hc Hk Hin. edestruct (batch_stores (E := fuel_error)) as (tx' & c' & Hz & Hc' & Hw); [done..|exact Hs|done|].
  rewrite Forall_forall in Hind. destruct (Hind _ Hz Hc Hc') as [_ Hn]. apply (Hn k Hw). apply elem_of_app. by left.
Qed.

Lemma get_account_key_iter m i : get_account_key m i = account_keys_iter m !! i.
Proof. destruct m as [m|m]; [done|]. apply get_key_in_segments_join. Qed.

Lemma get_account_key_elem m k : get_account_key m 0 = Some k -> k ∈ account_keys_iter m.
Proof. rewrite get_account_key_iter. apply list_elem_of_lookup_2. Qed.

(** The fee of the first transaction does not depend on the stores of the others. *)
Lemma first_fee tx check result ledger stores fr fees ledger' :
  (checked check -> forall k, k ∈ account_keys_iter (tx_message tx) -> k ∉ stores.*1) ->
  (~ checked check -> exists e, result = NotExecuted e) ->
  match collect_fee b tx result (store_all stores ledger) with
  | Ok (fee, ledger') => Ok (Ok tt, add64 0 fee, ledger')
  | Err e => Ok (Err e, 0, store_all stores ledger)
  | Panic => Panic
  end = @Ok fuel_error _ (fr, fees, ledger') ->
  exists ledger1,
    match collect_fee b tx result ledger with
    | Ok (fee, ledger') => Ok (Ok tt, add64 0 fee, ledger')
    | Err e => Ok (Err e, 0, ledger)
    | Panic => Panic
    end = @Ok fuel_error _ (fr, fees, ledger1) /\ ledger' = store_all stores ledger1 /\
    forall k, ledger1 !! k = ledger !! k \/ checked check /\ get_account_key (tx_message tx) 0 = Some k.
Proof.
  intros Hk Hn Hf. destruct (decide (is_ok check.1 = true)) as [Hc|Hc].
  - pose proof (collect_fee_frame tx result (store_all stores ledger) ledger) as Hfr.
    destruct (collect_fee b tx result (store_all stores ledger)) as [[fee l]|e|]; [..|done]; simplify_eq.
    + destruct Hfr as (p & -> & -> & Hp).
      { intros k Hpk. by rewrite store_all_lookup by (by apply Hk, get_account_key_elem). }
      exists (patch p ledger). split; [done|]. split.
      * apply patch_store. intros k a Hpa. by apply Hk, get_account_key_elem, (Hp k a).
      * intros k. destruct p as [[k' a]|]; [|by left]. cbn. destruct (decide (k' = k)) as [->|]; [|left; by apply lookup_insert_ne].
        right. split; [done|by apply (Hp k a)].
    + rewrite Hfr; [|intros k Hpk; by rewrite store_all_lookup by (by apply Hk, get_account_key_elem)].
      exists ledger. split_and!; [done..|]. by left.
  - destruct (Hn Hc) as [e ->]. cbn in *. simplify_eq. exists ledger. split_and!; [done..|]. by left.
Qed.

(** The first transaction of a batch can be processed before the others. *)
Lemma process_batch_cons tx txs check checks s results frs s2 :
  process_batch b (tx :: txs) (check :: checks) s = Ok (results, frs, s2) ->
  payer_writable tx -> Forall (independent (bs_ledger s) (tx, check)) (zip txs checks) ->
  Forall (fun tx => programs_in_range (tx_message tx)) txs ->
  exists r1 f1 s1 results' frs',
    process_batch b [tx] [check] s = Ok ([r1], [f1], s1) /\ process_batch b txs checks s1 = Ok (results', frs', s2) /\
    results = r1 :: results' /\ frs = f1 :: frs' /\
    forall k, bs_ledger s1 !! k = bs_ledger s !! k \/ checked check /\ may_write tx k.
Proof.
  intros Hp Hpay Hind Hrange.
  apply process_batch_stages in Hp as (loads & executed & len & hash & lps & stored & fees & ledger & Hl & Hx & Hh & Hq & Hs & Hf & -> & ->).
  unfold load_accounts in Hl. cbn [zip_with_outcome] in Hl.
  apply outcome_bind_Ok in Hl as (load1 & Hl1 & Hl). apply outcome_bind_Ok in Hl as (loads' & Hl & [= <-]).
  cbn [zip zip_with execute_each] in Hx. apply outcome_bind_Ok in Hx as ([[r1 ld1] len1] & Hx1 & Hx).
  apply outcome_bind_Ok in Hx as ([executed' len'] & Hx & [= <- <-]). cbn [zip_with_outcome] in Hs.
  apply outcome_bind_Ok in Hs as ([st1 rent1] & Hs1 & Hs). apply outcome_bind_Ok in Hs as (stored' & Hs & [= <-]).
  change (mjoin ((st1, rent1) :: stored').*1) with (st1 ++ mjoin stored'.*1) in Hf. rewrite store_all_app in Hf.
  cbn [fst fmap list_fmap zip zip_with filter_program_errors_and_collect_fee] in Hf.
  apply outcome_bind_Ok in Hf as ([[f1 fees1] lx] & Hf1 & Hf). apply outcome_bind_Ok in Hf as ([[frs' fees'] l'] & Hf & [= <- <- <-]).
  pose proof (one_effects (E := fuel_error) _ _ _ _ _ _ _ _ _ _ _ _ Hl1 Hx1 Hs1) as [Hw1 Hn1].
  apply (first_fee tx check) in Hf1 as (ledger1 & Hf1 & -> & Hd1); [|intros Hc k Hk; by eapply store_of_others|intros Hc; by apply Hn1].
  assert (forall k, ledger1 !! k = bs_ledger s !! k \/ checked check /\ may_write tx k) as Hd.
  { intros k. destruct (Hd1 k) as [->|[Hc Hk]]; [|right; auto].
    destruct (decide (k ∈ st1.*1)) as [Hin|Hin]; [|left; by apply store_all_lookup].
    right. rewrite Forall_forall in Hw1. split; [|by apply Hw1].
    destruct (decide (is_ok check.1 = true)) as [|Hc]; [done|]. destruct (Hn1 Hc) as [-> _]. set_solver. }
  apply (fees_shift _ _ 0) in Hf as (fees2 & Hf & Hfees).
  exists r1, f1, (mkBankState ledger1 len1 (add64 (bs_collected_rent s) (rent_total 0 [((r1, ld1), (st1, rent1))]))
                    (add64 (bs_collector_fees s) fees1)), executed'.*1, frs'.
  split_and!; [| |done|done|exact Hd].
  - apply process_batch_stages. exists [load1], [(r1, ld1)], len1, hash, lps, [(st1, rent1)], fees1, ledger1.
    split_and!; try done.
    + unfold load_accounts. cbn [zip_with_outcome]. by rewrite Hl1.
    + cbn [zip zip_with execute_each]. by rewrite Hx1.
    + cbn [zip_with_outcome]. by rewrite Hs1.
    + change (mjoin [(st1, rent1)].*1) with (st1 ++ []). rewrite app_nil_r.
      cbn [fst fmap list_fmap zip zip_with filter_program_errors_and_collect_fee]. by rewrite Hf1.
  - apply process_batch_stages. exists loads', executed', len', hash, lps, stored', fees2, l'.
    cbn [bs_ledger bs_accounts_data_len bs_collected_rent bs_collector_fees]. split_and!; try done.
    + rewrite (load_accounts_agree (bs_ledger s)); [done|].
      apply Forall_forall. intros [tx' c'] Hin Hc'. rewrite Forall_forall in Hind. rewrite Forall_forall in Hrange. cbn [fst snd] in *. split.
      * apply Forall_forall. intros k Hk. destruct (Hd k) as [|[Hc Hw]]; [done|].
        destruct (Hind _ Hin Hc Hc') as [Hn _]. by destruct (Hn k Hw).
      * apply Hrange. by apply elem_of_zip_l in Hin.
    + f_equal; [|by apply add64_shift].
      apply (add64_shift _ (rent_total 0 (((r1, ld1), (st1, rent1)) :: zip executed' stored'))).
      exact (rent_total_shift (zip executed' stored') (rent_total 0 [((r1, ld1), (st1, rent1))]) 0).
Qed.
(** *** All transactions *)

Definition pairwise {A} (R : A -> A -> Prop) (l : list A) : Prop :=
  forall i j x y, i <> j -> l !! i = Some x -> l !! j = Some y -> R x y.

Lemma pairwise_cons {A} (R : A -> A -> Prop) x l : pairwise R (x :: l) -> Forall (R x) l /\ pairwise R l.
Proof.
  intros Hp. split.
  - apply Forall_lookup. intros j y Hj. by apply (Hp 0%nat (S j)).
  - intros i j y z Hne Hi Hj. apply (Hp (S i) (S j)); [lia|done..].
Qed.

(** The sums are 64-bit integers. *)
Definition sums_wf (s : BankState) : Prop := in_u64 (bs_collected_rent s) /\ in_u64 (bs_collector_fees s).

Lemma independent_kept tx check ledger ledger' p q :
  (forall k, ledger' !! k = ledger !! k \/ checked check /\ may_write tx k) ->
  independent ledger (tx, check) p -> independent ledger (tx, check) q -> independent ledger p q -> independent ledger' p q.
Proof.
  intros Hd Hp Hq Hpq Cp Cq.
  assert (forall r, independent ledger (tx, check) r -> checked r.2 -> load_reads ledger' r.1 = load_reads ledger r.1) as Hr.
  { intros r Hr Cr. apply load_reads_agree, Forall_forall. intros k Hk. destruct (Hd k) as [|[Hc Hw]]; [done|].
    destruct (Hr Hc Cr) as [Hn _]. by destruct (Hn k Hw). }
  rewrite (Hr p Hp Cp), (Hr q Hq Cq). by apply Hpq.
Qed.

Lemma batch_serial txs checks s results frs s2 :
  process_batch b txs checks s = Ok (results, frs, s2) -> length checks = length txs -> sums_wf s ->
  Forall payer_writable txs -> Forall (fun tx => programs_in_range (tx_message tx)) txs ->
  pairwise (independent (bs_ledger s)) (zip txs checks) ->
  one_by_one txs checks s = Ok (results, frs, s2).
Proof.
  revert checks s results frs. induction txs as [|tx txs IH]; intros [|check checks] s results frs Hp Hlen Hs Hpay Hr Hi; try done.
  - apply process_batch_stages in Hp as (loads & executed & len & hash & lps & stored & fees & ledger & Hl & Hx & _ & _ & Hst & Hf & -> & ->).
    cbn in *. simplify_eq. cbn in *. simplify_eq. destruct Hs as [Hs1 Hs2], s; cbn in *.
    unfold add64. by rewrite !Z.add_0_r, !as_u64_small.
  - apply pairwise_cons in Hi as [Hi1 Hi]. apply Forall_cons in Hpay as [Hpay1 Hpay], Hr as [Hr1 Hr].
    apply process_batch_cons in Hp as (r1 & f1 & s1 & rs & fs & Hp1 & Hp & -> & -> & Hd); [|done..].
    cbn [one_by_one]. rewrite Hp1. cbn [mbind outcome_bind].
    assert (sums_wf s1) as Hs1.
    { apply process_batch_stages in Hp1 as (? & ? & ? & ? & ? & ? & ? & ? & _ & _ & _ & _ & _ & _ & _ & ->).
      split; apply add64_range. }
    rewrite (IH checks s1 rs fs Hp); [done|cbn in Hlen; lia|done..|].
    intros i j p q Hne Hpi Hqj. rewrite Forall_lookup in Hi1. eapply independent_kept; [exact Hd|by eapply Hi1..|].
    by apply (Hi i j).
Qed.
End bank.

(** ** The locks make the transactions independent *)

(** Only a transaction whose accounts are locked passes the checks. *)
Definition checks_follow_locks (locks : list TransactionResult) (checks : list TransactionCheckResult) : Prop :=
  forall i r c, locks !! i = Some r -> checks !! i = Some c -> checked c -> r = Ok tt.

(** The checks of a bank follow the locks of the batch. *)
Lemma check_transactions_follow {E A} `{SlotSet A} (sha256 : list Z -> Hash) `{Bincode NonceVersions} `{Bincode SystemInstruction}
    feature_set cluster get_account (bank : Bank A) cache txs locks max_age checks :
  check_transactions (E := E) sha256 feature_set cluster get_account bank cache txs locks max_age = Ok checks ->
  checks_follow_locks locks checks.
Proof.
  intros Hc i r c Hi Hj Hok. unfold check_transactions, check_status_cache, check_age in Hc. ok_inv.
  eapply zip_with_outcome_lookup in Hj as (tx & age & Htx & Hage & Hst); [|done].
  eapply zip_with_outcome_lookup in Hage as (tx' & lock & _ & Hlock & Hage); [|done]. assert (lock = r) as -> by congruence.
  destruct r as [[]|e|]; [done|exfalso..]; cbn in Hage; simplify_eq; cbn in Hst; simplify_eq; done.
Qed.

Lemma conflicts_false h h' k :
  conflicts h h' = false -> k ∈ tal_writable h -> k ∉ tal_writable h' /\ k ∉ tal_readonly h'.
Proof.
  intros Hc Hk. assert (~ existsb (conflicts h) [h'] = true) as Hn by (cbn; by rewrite Hc). rewrite conflicts_spec in Hn.
  split; intros Hk'; apply Hn; exists k; left; (split; [done|]); [left; apply writes_nonzero|right; apply reads_nonzero];
    exists h'; set_solver.
Qed.

(** Two transactions of a batch that hold their locks do not conflict. *)
Lemma batch_conflict_free l batches batch i j tx tx' :
  batches_reachable (l, batches) -> batch ∈ batches -> needs_unlock batch = true -> i <> j ->
  zip (sanitized_txs batch) (lock_results batch) !! i = Some (tx, Ok tt) ->
  zip (sanitized_txs batch) (lock_results batch) !! j = Some (tx', Ok tt) ->
  conflicts (locks_of tx) (locks_of tx') = false.
Proof.
  intros Hr (b1 & b2 & ->)%list_elem_of_split Hu Hne Hi Hj. apply batches_reachable_wf in Hr as [Hrep _].
  apply rep_exclusive in Hrep. cbn [fst snd] in Hrep.
  apply delete_Permutation in Hi as Hp.
  assert (exists j', delete i (zip (sanitized_txs batch) (lock_results batch)) !! j' = Some (tx', Ok tt)) as [j' Hj'].
  { destruct (decide (j < i)%nat); [exists j; by rewrite list_lookup_delete_lt|].
    exists (pred j). rewrite list_lookup_delete_ge by lia. by replace (S (pred j)) with j by lia. }
  apply delete_Permutation in Hj'. rewrite Hj' in Hp.
  eapply exclusive_pair. intros k. specialize (Hrep k). rewrite held_all_middle in Hrep. unfold held in Hrep.
  rewrite Hu in Hrep. unfold held_by in Hrep. rewrite Hp in Hrep. exact Hrep.
Qed.

Section serial.
Context `{Bincode NonceVersions} `{Bincode UpgradeableLoaderState}.

End serial.

(** ** A transaction is atomic *)

Section atomic.
Context `{Bincode NonceVersions} `{Bincode UpgradeableLoaderState}.
Context (b : TxBank).

(** The nonce of a loaded transaction is the one its check found. *)
Lemma load_one_nonce ledger tx check loaded nonce :
  load_one b ledger tx check = Ok (Ok loaded, nonce) ->
  match nonce with
  | Some nf => exists np, check.2 = Some np /\ nf_address nf = np_address np
  | None => check.2 = None
  end.
Proof.
  unfold load_one. destruct check as [[[]|e|] partial]; cbn; [|done..].
  destruct (load_checked b ledger tx partial) as [[l n]| |] eqn:Hc; [|done..]. intros [= <- <-]. unfold load_checked in Hc.
  destruct partial as [np|].
  - destruct (lamports_per_signature_of _); [|done]. ok_inv.
    match goal with H : NonceFull_from_partial _ _ _ _ = _ |- _ => unfold NonceFull_from_partial in H; rename H into Hn end.
    destruct (find_fee_payer _ _) as [[k a]|]; [|done]. exists np. by destruct (k =? _); simplify_eq.
  - destruct (queue_lamports_per_signature _ _); [|done]. ok_inv. done.
Qed.

(** An executed transaction was loaded, and carries the fee rate of its nonce. *)
Lemma execute_one_Executed tx load len d load' len' :
  execute_one b tx load len = Ok (Executed d, load', len') ->
  exists loaded loaded', load.1 = Ok loaded /\ load' = (Ok loaded', load.2) /\ ed_status d <> Panic /\
    ed_durable_nonce_fee d = (fun nonce => lamports_per_signature_of (nf_account nonce)) <$> load.2.
Proof.
  unfold execute_one. destruct load as [[loaded|e|] nonce]; [|done..].
  destruct (if is_active _ _ then _ else _) as [[fee| |] budget]; [|done..]. intros. ok_inv. destruct x as [[r l] n]. ok_inv.
  match goal with H : execute_loaded_transaction _ _ _ _ _ _ = _ |- _ => unfold execute_loaded_transaction in H end.
  ok_inv. destruct (process_message _ _ _ _ _ _ _ _) as [[pr u] c]. ok_inv. eexists loaded, _. split_and!; [done..| |done].
  cbn. destruct pr; ok_inv; [|done].
  match goal with H : match ?v with Ok _ => _ | Err _ => _ | Panic => _ end = Ok _ |- _ => by destruct v; ok_inv end.
Qed.

(** A failed transaction with a nonce stores the nonce and the fee payer only. *)
Lemma failed_store_steps {E} tx status nf durable lps entries s s' :
  store_steps (E := E) b (tx_message tx) status (Some (nf, true)) durable lps entries s = Ok s' -> is_ok status = false ->
  ss_fee_payer_index s = Some 0%nat ->
  Forall (fun e => account_keys_iter (tx_message tx) !! e.1 = Some e.2.1) entries ->
  exists new, ss_stores s' = ss_stores s ++ new /\
    Forall (fun k => k = nf_address nf \/ account_keys_iter (tx_message tx) !! 0%nat = Some k) new.*1.
Proof.
  intros Hs Hst. revert s Hs. induction entries as [|[i [address account]] entries IH]; intros s Hs Hp Hk; cbn [store_steps] in Hs.
  - injection Hs as <-. exists []. by rewrite app_nil_r.
  - apply Forall_cons in Hk as [Hk Hks]. cbn in Hk. ok_inv. rename x into s1.
    match goal with H : store_step _ _ _ _ _ _ _ _ = _ |- _ => rename H into H1 end.
    assert (ss_fee_payer_index s1 = Some 0%nat /\ exists first, ss_stores s1 = ss_stores s ++ first /\
      Forall (fun k => k = nf_address nf \/ account_keys_iter (tx_message tx) !! 0%nat = Some k) first.*1) as (Hp1 & first & Hf & Hfirst).
    { unfold store_step in H1. rewrite Hp, Hst in H1. cbn [orb] in H1.
      destruct (negb _); [injection H1 as <-; split; [done|]; exists []; by rewrite app_nil_r|]. ok_inv.
      destruct x; [|ok_inv; split; [done|]; exists []; cbn; by rewrite app_nil_r]. ok_inv. destruct x as [is_nonce account'].
      destruct (is_nonce || _) eqn:Ho; [|ok_inv; split; [done|]; exists []; cbn; by rewrite app_nil_r].
      destruct (if _ =? _ then _ else _) as [rent account'']. ok_inv. split; [done|].
      exists [(address, account'')]. split; [done|]. apply Forall_singleton. cbn.
      apply orb_true_iff in Ho as [->|Ho]; [left|right; apply bool_decide_eq_true in Ho; by simplify_eq].
      match goal with H : prepare_if_nonce_account _ _ _ _ _ _ _ = _ |- _ => cbn in H; destruct (address =? nf_address nf) eqn:He end.
      - by apply Z.eqb_eq.
      - ok_inv. }
    match goal with H : store_steps _ _ _ _ _ _ _ _ = _ |- _ => apply IH in H as (new & Hn & Hnew); [|done..] end.
    exists (first ++ new). rewrite Hn, Hf, app_assoc. split; [done|]. rewrite fmap_app. by apply Forall_app.
Qed.

Lemma store_step_payer {E} m status nonce durable lps entry stores rent debits :
  is_non_loader_key m 0 = true ->
  store_step (E := E) b m status nonce durable lps (mkStoreState None stores rent debits) (0%nat, entry)
  = store_step b m status nonce durable lps (mkStoreState (Some 0%nat) stores rent debits) (0%nat, entry).
Proof. destruct entry as [k a]. intros Hm. unfold store_step. by rewrite Hm. Qed.

Lemma store_steps_payer {E} m status nonce durable lps accounts rent debits s :
  is_non_loader_key m 0 = true ->
  store_steps (E := E) b m status nonce durable lps (imap (fun i e => (i, e)) accounts) (mkStoreState None [] rent debits) = Ok s ->
  exists s', ss_stores s' = ss_stores s /\
    store_steps (E := E) b m status nonce durable lps (imap (fun i e => (i, e)) accounts) (mkStoreState (Some 0%nat) [] rent debits) = Ok s'.
Proof.
  intros Hm. destruct accounts as [|entry accounts]; cbn [imap store_steps].
  - intros [= <-]. by exists (mkStoreState (Some 0%nat) [] rent debits).
  - rewrite store_step_payer by done. intros ->. by exists s.
Qed.

Lemma entries_keys (keys : list Pubkey) (accounts : list (Pubkey * AccountSharedData)) :
  accounts.*1 = keys -> Forall (fun e => keys !! e.1 = Some e.2.1) (imap (fun i e => (i, e)) accounts).
Proof.
  intros <-. apply Forall_lookup. intros j [i [k a]]. rewrite list_lookup_imap.
  destruct (accounts !! j) as [[k' a']|] eqn:Hj; [|done]. cbn. intros [= <- <- <-]. by rewrite list_lookup_fmap, Hj.
Qed.

Lemma failed_stores {E} durable lps tx d loaded nonce stores rent :
  accounts_to_store (E := E) b durable lps tx (Executed d) (Ok loaded, nonce) = Ok (stores, rent) ->
  is_ok (ed_status d) = false -> is_non_loader_key (tx_message tx) 0 = true ->
  (take (sm_account_keys_len (tx_message tx)) (lt_accounts loaded)).*1 = account_keys_iter (tx_message tx) ->
  match nonce with
  | None => stores = []
  | Some nf => Forall (fun k => k = nf_address nf \/ account_keys_iter (tx_message tx) !! 0%nat = Some k) stores.*1
  end.
Proof.
  intros Hs Hst Hm Hk. cbn in Hs. destruct nonce as [nf|]; cbn in Hs.
  - destruct (ed_status d) as [|e|] eqn:Hd; [done| |cbn in Hs; by simplify_eq]. cbn in Hs. ok_inv. rename x into s1.
    match goal with H : store_steps _ _ _ _ _ _ _ _ = _ |- _ => rename H into H1 end.
    apply store_steps_payer in H1 as (s2 & <- & H3); [|done].
    eapply failed_store_steps in H3 as (new & -> & Hnew); [exact Hnew|done|done|by apply entries_keys].
  - destruct (ed_status d); cbn in Hs; by simplify_eq.
Qed.

(** The stages of a transaction in a batch of its own. *)
Lemma process_single tx check s results fee_results s' :
  process_batch b [tx] [check] s = Ok (results, fee_results, s') ->
  exists load result load' len durable lps stores rent,
    load_one b (bs_ledger s) tx check = Ok load /\
    execute_one b tx load (bs_accounts_data_len s) = Ok (result, load', len) /\
    accounts_to_store (E := fuel_error) b durable lps tx result load' = Ok (stores, rent) /\
    results = [result] /\
    match collect_fee b tx result (store_all stores (bs_ledger s)) with
    | Ok (fee, ledger) => fee_results = [Ok tt] /\ bs_ledger s' = ledger /\ bs_collector_fees s' = add64 (bs_collector_fees s) fee
    | Err e => fee_results = [Err e] /\ bs_ledger s' = store_all stores (bs_ledger s) /\ bs_collector_fees s' = add64 (bs_collector_fees s) 0
    | Panic => False
    end /\
    (was_executed_successfully result = false -> bs_collected_rent s' = add64 (bs_collected_rent s) 0).
Proof.
  intros Hp. apply process_batch_stages in Hp as (loads & executed & len & hash & lps & stored & fees & ledger & Hl & Hx & _ & _ & Hst & Hf & -> & ->).
  unfold load_accounts in Hl. cbn [zip_with_outcome] in Hl. ok_inv. rename x into load.
  cbn [zip zip_with execute_each] in Hx. ok_inv. destruct x as [[result load'] len1]. ok_inv.
  cbn [zip_with_outcome] in Hst. ok_inv. destruct x as [stores rent].
  match goal with H : commit_stores _ _ _ _ _ = _ |- _ => unfold commit_stores in H; cbn [fst snd] in H; rename H into Hs end.
  change (mjoin [(stores, rent)].*1) with (stores ++ []) in Hf. rewrite app_nil_r in Hf.
  eexists load, result, load', len1, _, _, stores, rent. split_and!; [done..|exact Hs|done| |].
  - cbn [fst fmap list_fmap zip zip_with filter_program_errors_and_collect_fee bs_ledger bs_collector_fees] in *.
    destruct (collect_fee b tx result _) as [[fee ledger']|e|]; cbn in Hf; ok_inv; split_and!; try done.
    unfold add64. by rewrite Z.add_0_l, as_u64_add_r.
  - cbn. by intros ->.
Qed.

(** The rate of the fee: the nonce's, or the one of the blockhash. *)
Definition fee_rate (tx : SanitizedTransaction) (d : TransactionExecutionDetails) : option Z :=
  match ed_durable_nonce_fee d with
  | Some rate => rate
  | None => queue_lamports_per_signature (tb_blockhash_queue b) (sm_recent_blockhash (tx_message tx))
  end.

Lemma collect_fee_Ok tx d ledger fee ledger' :
  collect_fee b tx (Executed d) ledger = Ok (fee, ledger') ->
  exists rate, fee_rate tx d = Some rate /\ calculate_fee b (tx_message tx) rate = Ok fee /\
    match is_ok (ed_status d), ed_durable_nonce_fee d with
    | false, None =>
        exists payer a, get_account_key (tx_message tx) 0 = Some payer /\ ledger !! payer = Some a /\ fee <= lamports a /\
          ledger' = <[payer := stored_account (set_lamports (lamports a - fee) a)]> ledger
    | _, _ => ledger' = ledger
    end.
Proof.
  unfold collect_fee, fee_rate. intros Hc.
  destruct (ed_durable_nonce_fee d) as [[rate|]|] eqn:Hd; [|done|destruct (queue_lamports_per_signature _ _) as [rate|]; [|done]];
    cbn [ok_or mbind outcome_bind] in Hc; exists rate; (split; [done|]);
    (destruct (calculate_fee _ _ _) as [fee'| |]; cbn [mbind outcome_bind] in Hc; [|done..]).
  - rewrite andb_false_r in Hc. simplify_eq. by destruct (is_ok _).
  - rewrite andb_true_r in Hc. destruct (is_ok _); cbn [negb] in Hc; [by simplify_eq|].
    destruct (get_account_key _ _) as [payer|]; cbn in Hc; [|done].
    destruct (withdraw _ _ _ _) as [l| |] eqn:Hw; cbn in Hc; simplify_eq. split; [done|].
    apply bank_withdraw_Ok in Hw as (a & Ha & Hn & -> & _). by exists payer, a.
Qed.

Lemma not_executed_stores tx e load' durable lps stores rent :
  accounts_to_store (E := fuel_error) b durable lps tx (NotExecuted e) load' = Ok (stores, rent) -> stores = [].
Proof. destruct load' as [[|?|] ?]; cbn; by intros [= <- _]. Qed.

(** What a transaction that failed leaves behind, before its fee. *)
Lemma failed_effects tx check ledger load len d load' len' durable lps stores rent :
  programs_keep_keys b ->
  load_one b ledger tx check = Ok load -> execute_one b tx load len = Ok (Executed d, load', len') ->
  accounts_to_store (E := fuel_error) b durable lps tx (Executed d) load' = Ok (stores, rent) ->
  is_ok (ed_status d) = false -> is_non_loader_key (tx_message tx) 0 = true ->
  match check.2 with
  | None => ed_durable_nonce_fee d = None /\ stores = []
  | Some np => (exists rate, ed_durable_nonce_fee d = Some rate) /\
      Forall (fun k => k = np_address np \/ get_account_key (tx_message tx) 0 = Some k) stores.*1
  end.
Proof.
  intros Hprog Hl Hx Hs Hd Hm. apply execute_one_Executed in Hx as Hx'. destruct Hx' as (loaded & loaded' & Hload & -> & _ & Hfee).
  destruct load as [? nonce]. cbn in Hload, Hfee, Hs. subst. apply load_one_nonce in Hl as Hn.
  eapply failed_stores in Hs; [|done..|by eapply load_execute_keys]. rewrite get_account_key_iter. destruct nonce as [nf|].
  - destruct Hn as (np & -> & Hn). rewrite Hfee, <-Hn. split; [by eexists|done].
  - rewrite Hn, Hfee. by split.
Qed.

Lemma store_all_changed (P : Pubkey -> Prop) stores ledger :
  Forall P stores.*1 -> forall k, store_all stores ledger !! k <> ledger !! k -> P k.
Proof.
  rewrite Forall_forall. intros HP k Hk. apply HP. destruct (decide (k ∈ stores.*1)); [done|]. by rewrite store_all_lookup in Hk.
Qed.

(** Every store of a transaction, and its fee, is on an account it may write. *)
Lemma single_changes tx check ledger load len result load' len' durable lps stores rent :
  programs_keep_keys b -> payer_writable tx ->
  load_one b ledger tx check = Ok load -> execute_one b tx load len = Ok (result, load', len') ->
  accounts_to_store (E := fuel_error) b durable lps tx result load' = Ok (stores, rent) ->
  forall ledger', (ledger' = store_all stores ledger \/ exists fee, collect_fee b tx result (store_all stores ledger) = Ok (fee, ledger')) ->
  forall k, ledger' !! k <> ledger !! k -> may_write tx k.
Proof.
  intros Hprog Hpay Hl Hx Hs ledger' Hl' k Hk.
  destruct (one_effects b Hprog (E := fuel_error) _ _ _ _ _ _ _ _ _ _ _ _ Hl Hx Hs) as [Hw _]. rewrite Forall_forall in Hw.
  destruct (decide (k ∈ stores.*1)) as [Hin|Hin]; [by apply Hw|].
  destruct Hl' as [->|[fee Hc]]; [by rewrite store_all_lookup in Hk|].
  pose proof (collect_fee_frame b tx result (store_all stores ledger) (store_all stores ledger) (fun _ _ => eq_refl)) as Hf.
  rewrite Hc in Hf. destruct Hf as (p & -> & _ & Hp). destruct p as [[k' a]|]; cbn in Hk; [|by rewrite store_all_lookup in Hk].
  destruct (decide (k' = k)) as [->|Hne]; [by eapply Hpay, Hp|].
  by rewrite lookup_insert_ne, store_all_lookup in Hk.
Qed.

(** The changes that a transaction that was executed and failed may leave. *)
Definition failed_changes (tx : SanitizedTransaction) (check : TransactionCheckResult) (fee_result : TransactionResult)
    (d : TransactionExecutionDetails) (s s' : BankState) : Prop :=
  bs_collected_rent s' = bs_collected_rent s /\
  match check.2 with
  | Some np => forall k, bs_ledger s' !! k <> bs_ledger s !! k -> k = np_address np \/ get_account_key (tx_message tx) 0 = Some k
  | None =>
      match fee_result with
      | Ok _ => exists payer a rate fee,
          get_account_key (tx_message tx) 0 = Some payer /\ bs_ledger s !! payer = Some a /\
          fee_rate tx d = Some rate /\ calculate_fee b (tx_message tx) rate = Ok fee /\ fee <= lamports a /\
          bs_ledger s' = <[payer := stored_account (set_lamports (lamports a - fee) a)]> (bs_ledger s)
      | _ => bs_ledger s' = bs_ledger s
      end
  end.

End atomic.

(** ** The system program runs *)

(** The builtin programs of the development keep the addresses. *)
Lemma builtin_same_addresses handler n d : always same_addresses (builtin handler n d).
Proof.
  unfold builtin. repeat always_step. intros c. unfold on_accounts. destruct (handler _ _ _ _) as [r s].
  apply put_accounts_keys.
Qed.

Module BatchExample.
#[local] Instance example_instruction_eq : EqDecision SystemInstruction.
Proof. solve_decision. Defined.
#[local] Instance example_instruction_codec : Bincode SystemInstruction := table_codec [Transfer 1000000; Transfer 90000000].
Definition no_codec {T} : Bincode T := {|
  bincode_deserialize _ := None; bincode_deserialize_limited _ _ := None;
  bincode_serialized_size _ := Err BincodeOther; bincode_serialize_into _ b := (Err BincodeOther, b);
|}.
#[local] Instance example_nonce_codec : Bincode NonceVersions := no_codec.
#[local] Instance example_loader_codec : Bincode UpgradeableLoaderState := no_codec.
#[local] Instance example_blockhashes_codec : Bincode RecentBlockhashes := no_codec.
#[local] Instance example_rent_codec : Bincode Rent := no_codec.

Definition example_sha (_ : list Z) : Hash := 77.

(** The bank runs the system program, at 5000 lamports for a signature. *)
Definition example_bank : TxBank := {|
  tb_feature_set := <[tx_wide_compute_cap := 0]> (<[require_rent_exempt_accounts := 0]> ∅);
  tb_rent_collector := mkRentCollector 1 (mkEpochSchedule 432000 432000 false 0 0) (S754_zero false) Rent_default;
  tb_fee_structure := mkFeeStructure 5000 0 [];
  tb_blockhash_queue := mkBlockhashQueue 1 (Some 7) {[7 := mkHashAge 5000 1 0]} 300;
  tb_filler_account_suffix := None;
  tb_builtin_programs := [mkBuiltinProgram system_program_id (builtin (system_process_instruction example_sha))];
  tb_native_loader := fun _ _ => throw UnsupportedProgramId;
  tb_sysvar_cache := mkSysvarCache None None None None;
  tb_compute_budget := None;
  tb_try_from_slice_unchecked := fun _ => None;
  tb_sha256 := example_sha;
|}.

Definition example_transfer (from to ix : Z) : SanitizedTransaction :=
  mkSanitizedTransaction
    (Legacy (mkMessage (mkMessageHeader 1 0 1) [from; to; system_program_id] 7 [mkCompiledInstruction 2 [0; 1] [ix]])) 0 [].

(** The second transaction is in conflict with the first, and the third moves
    more than its account has. *)
Definition example_txs : list SanitizedTransaction :=
  [example_transfer 10 20 0; example_transfer 11 20 0; example_transfer 12 23 1].

Definition example_checks : list TransactionCheckResult := [(Ok tt, None); (Err AccountInUse, None); (Ok tt, None)].

Definition example_state : BankState :=
  mkBankState
    (<[10 := mkAccount 10000000 [] system_program_id false 1]> (<[11 := mkAccount 10000000 [] system_program_id false 1]>
    (<[12 := mkAccount 5000000 [] system_program_id false 1]> (<[20 := mkAccount 5000000 [] system_program_id false 1]>
    (<[system_program_id := mkAccount 1 [] native_loader_id true 1]> ∅))))) 0 0 0.

Definition example_batch : TransactionBatch := mkTransactionBatch [Ok tt; Err AccountInUse; Ok tt] example_txs true.
Definition example_locks : AccountLocks := mkAccountLocks {[10; 20; 12; 23]} {[system_program_id := 2]}.

(** The batch: the first transfer, and the fee of the third transaction. *)
Definition example_state' : BankState :=
  mkBankState
    (<[10 := mkAccount 8995000 [] system_program_id false 1]> (<[20 := mkAccount 6000000 [] system_program_id false 1]>
    (<[12 := mkAccount 4995000 [] system_program_id false 1]> (bs_ledger example_state)))) 0 0 10000.

Definition example_details (status : TransactionResult) : TransactionExecutionDetails :=
  mkTransactionExecutionDetails status None 0.

Definition example_results : list TransactionExecutionResult :=
  [Executed (example_details (Ok tt)); NotExecuted AccountInUse;
   Executed (example_details (Err (InstructionError 0 (Custom 1))))].

Lemma example_programs : programs_keep_keys example_bank.
Proof.
  split.
  - intros entry n d Hin. apply list_elem_of_singleton in Hin as ->. apply builtin_same_addresses.
  - intros n d c. done.
Defined.

Lemma example_reachable : batches_reachable (example_locks, [example_batch]).
Proof. eapply rtc_l; [apply (step_prepare ∅ example_txs _ _ example_batch example_locks); [done|by vm_compute]|apply rtc_refl]. Defined.

Lemma example_payer tx : tx ∈ example_txs -> payer_writable tx.
Proof.
  unfold example_txs. rewrite !elem_of_cons, elem_of_nil. intros [->|[->|[->|[]]]] k [= <-]; unfold may_write; vm_compute; set_solver.
Qed.

Lemma example_reads tx tx' k : tx ∈ example_txs -> tx' ∈ example_txs -> may_write tx k ->
  k ∉ program_reads (bs_ledger example_state) (tx_message tx').
Proof.
  intros Htx Htx' Hk Hr.
  assert (Forall (fun tx => Forall (fun tx' => Forall (fun k => k ∉ tal_writable (locks_of tx))
    (program_reads (bs_ledger example_state) (tx_message tx'))) example_txs) example_txs) as Hf.
  { apply (bool_decide_unpack _). by vm_compute. }
  rewrite Forall_forall in Hf. specialize (Hf tx Htx). rewrite Forall_forall in Hf. specialize (Hf tx' Htx').
  rewrite Forall_forall in Hf. by apply (Hf k Hr).
Qed.


(** The fee falls when the lamports for a signature rise above 5000. *)
Lemma congestion_lowers_fee :
  let m := tx_message (example_transfer 10 20 0) in
  calculate_fee example_bank m 5000 = Ok 5000 /\ calculate_fee example_bank m 20000 = Ok 1250.
Proof. by vm_compute. Qed.

End BatchExample.
